(* ===== verification/_CoqProject ===== *)
-Q . S2P
Prelude.v
Text.v
Redactor.v
Types.v
Path.v
Sha256.v
Policy.v
KernelState.v
EventLog.v
EventLogProps.v
EventLogTheorems.v
Receipts.v
ReceiptsTheorems.v
Kernel.v
KernelInv.v
KernelProps.v
KernelTheorems.v
Flow.v
FlowTheorems.v
Std.v
Chars.v
TokenStream.v
Broker.v
Supervisor.v
Cursor.v
Registry.v
RegistryTheorems.v
Session.v
SessionTheorems.v
Json.v
NetProto.v
NetProtoTheorems.v
Strings.v
Order.v
Profile.v
ProfileTheorems.v
Planner.v
PlannerTheorems.v
Evidence.v
Sandbox.v
SandboxTheorems.v
Backend.v
GitHub.v
Webhook.v
Dispatch.v
Engine.v
EngineTheorems.v
Worker.v
WorkerTheorems.v
Worktree.v
WorktreeTheorems.v
Serde.v
Http.v
Task.v
TaskTheorems.v
Telegram.v
TelegramTheorems.v
BotApi.v
Chat.v
Runtime.v
RuntimeTheorems.v
Index.v
IndexTheorems.v
Embed.v
EmbedTheorems.v
Rag.v
RagTheorems.v
Mcp.v
SelfImprove.v
Debug.v
Dev.v
DevBackend.v
DevTheorems.v
Admin.v
Onboarding.v
SetupTheorems.v
Telemetry.v
Toolkit.v
FlowLive.v
Providers.v
