(* ===== verification/Prelude.v ===== *)
(** * CrustCore: a verification library

    CrustCore is a Rust workspace for running coding agents under supervision. An
    untrusted model proposes; a small deterministic kernel decides; every decision
    is recorded in a hash-chained log; every executed tool leaves a MACed receipt;
    work counts as done only when a verifier says so. Around that core stand a daemon
    that runs tasks for chat users, a helper process that talks to models, and tools:
    worktrees, sandboxes, MCP, code and retrieval indexes, a console, telemetry. This
    library models these crates and proves what makes them correct. Paths below are
    under [src/crates/], without [crustcore-] and [src/].

    ** The parts and how they interact

    - The core. [types] (identifiers, statuses, budgets, bounded text, SHA-256) is used
      by everything. [policy] classifies side effects and mints approval tokens; the
      kernel and the flow engine ask it before any effect. [kernel] is a reducer of
      events to actions. [eventlog] is the hash-chained log, [receipts] the MACed
      chain of tool runs that joins it, [secrets] the redactor all untrusted text goes
      through and the broker that hands out secrets once, [path] the resolver that
      confines file paths, [flow] a graph scheduler over injected drivers, [session]
      the views, snapshots and leases over log and receipts.
    - Running code. [sandbox] builds the confined command, [runner] bounds what it
      prints, [backend] runs the verify command and mints the verified patch, drives
      external workers and guards what they change, [worktree] holds the tools a
      worker may use.
    - The daemon. [task.rs] carries a task from a chat message to a pull request over
      all of the above; [runtime.rs] and [chat.rs] dispatch events to it;
      [telegram.rs], [slack.rs], [admin.rs], [webhook.rs] and [github_commands.rs] are its
      front ends; [registry.rs] and [supervisor.rs] schedule it; [product.rs] plans the
      verification and keeps the evidence; [github.rs] is the checkpoint of every push;
      [selfimprove.rs], [advisor.rs], [onboarding.rs], [repo_profiler.rs] and
      [task_loop.rs] surround it.
    - The helper. [netproto] is the line protocol between [index], [chat], the daemon
      and [net], which routes requests to providers and holds the HTTP clients.
    - [mcp], [index], [index-rag], [chat], [dev], [telemetry], [toolkit] are clients of
      the core: what they show goes through the redactor, what they run through the
      policy, what they did is in the receipts.

    ** The files

    Definitions are in the file of the component, its properties there or in the file
    with [Theorems] in its name.

    - [Prelude.v] (this file): machine integers, results, byte strings, slices, shared
      tactics and lemmas, the hint database [crust]. [Text.v]: [types/text.rs]; a string
      is its UTF-8 bytes. [Chars.v]: the same string as its list of characters, for code
      that walks it by [char]. [Std.v], [Strings.v], [Order.v], [Cursor.v], [Debug.v]:
      what the source uses of the standard library (decimal printing, lossy decoding,
      searching and splitting, orders and sorts, bounded readers, derived [Debug]).
      [Serde.v], [Http.v]: JSON values and HTTP clients as classes; the GitHub client.
    - [Types.v], [Sha256.v], [Policy.v], [Path.v], [Redactor.v], [Broker.v],
      [TokenStream.v]: the crates of those names.
    - [KernelState.v] ([event.rs], [action.rs], [state.rs]), [Kernel.v] ([kernel.rs], one
      definition per method), [KernelInv.v], [KernelProps.v], [KernelTheorems.v].
    - [EventLog.v], [EventLogProps.v], [EventLogTheorems.v]; [Receipts.v],
      [ReceiptsTheorems.v]; [Session.v], [SessionTheorems.v].
    - [Flow.v], [FlowTheorems.v]: graph, predicates, budgets and scheduler; [FlowLive.v]:
      imported gates and the live drivers over the backend.
    - [Supervisor.v], [Registry.v], [RegistryTheorems.v]: roles, budgets, admission,
      leases, snapshots of the daemon's tasks.
    - [Json.v], [NetProto.v], [NetProtoTheorems.v]: the protocol; [Engine.v],
      [EngineTheorems.v]: the routing engine of [net]; [Providers.v]: its configuration and
      the adapters of model providers; [BotApi.v]: its Telegram client.
    - [Profile.v], [ProfileTheorems.v], [Planner.v], [PlannerTheorems.v], [Evidence.v]: [product.rs];
      [GitHub.v], [Webhook.v], [Dispatch.v]: the daemon's modules of those names.
    - [Sandbox.v], [SandboxTheorems.v], [Backend.v], [Worker.v], [WorkerTheorems.v],
      [Worktree.v], [WorktreeTheorems.v]: confined runs, verification, workers, tools.
    - [Task.v], [TaskTheorems.v]: [task.rs] end to end; [Telegram.v],
      [TelegramTheorems.v]; [Chat.v]; [Runtime.v], [RuntimeTheorems.v]; [Admin.v];
      [Onboarding.v] (with [slack.rs]), [SetupTheorems.v]; [SelfImprove.v].
    - [Index.v], [IndexTheorems.v]: memory, repository map, context bundles; [Embed.v],
      [EmbedTheorems.v]: embeddings over IEEE floats, the brute-force and the
      hyperplane memory; [Rag.v], [RagTheorems.v]: chunks, stores, indexing, planner.
    - [Mcp.v], [Dev.v], [DevBackend.v], [DevTheorems.v], [Telemetry.v], [Toolkit.v]: the
      crates of those names.

    ** How code is modelled

    [&mut self] is state passing. A [Result] is [result], with the source's error
    constructors. What panics in Rust (an index or a slice out of range, a debug
    overflow) is [None], and theorems show when it does not happen. A [uN] is a [Z];
    saturating, wrapping and checked operations are written out. An [f32] is its bit
    pattern and an [f64] a [spec_float] of the standard library, rounded as IEEE 754 asks.
    Identifiers that wrap an integer are the integer. A [Vec] arena is a list; a map is a
    [gmap], walked in the order of its keys where the source's ordered maps are.

    What the code calls outside [src/] is a class, and the theorems hold for every
    instance: [Hash] and [Mac] (instances: the crate's own SHA-256), [SerdeJson],
    [HttpClient], [CredentialSource], [Poster], [F32], the process [Runner], [WorkerHost],
    [TaskHost], [SecretStore]. The source's traits are classes too, and clients are proved
    against them: [FlowDrivers], [SubagentExecutor], [EvalRunner], [Advisor], [ToolHandler],
    [McpTransport], [DevBackend], [Exporter], [CrustTool], [CodeIntel], [ArtifactResolver],
    [Embedder], [VectorStore], [ChunkResolver]. A stream is the chunks that its reads
    deliver, so a theorem about a reader holds however a pipe cuts the bytes.

    Loops that are not structural have fuel, which a theorem or the definition shows to
    be enough: the length of the input for the walks of the log, of UTF-8, of JSON and
    of streams (a turn consumes at least a byte), the caps of the code for the search of a
    worktree and the chunker, one more than the step cap for the flow scheduler
    ([flow_terminates]).

    ** What the theorems show

    - Provenance. In the kernel, in flows, in the daemon's task and in the gateways, an
      effect happens only with the policy's leave or the approval of an allowed human
      ([kernel_effect_provenance], [flow_tools_gated], [approval_provenance],
      [mcp_call_gated], [dev_resolution_bound], [serve_launch_authorized]).
    - Verification decides. A flow, a live flow over the backend, and a task complete only
      with a patch whose verify command ran confined and passed ([flow_completion_verified],
      [live_flow_verified], [task_completed_verified], [verify_mints_iff],
      [run_command_confined], [worker_validated]); the task refines its protocol, whose
      order of effects is the one documented ([task_refines_protocol], [task_pr_gated]).
    - Records. Verification of log and receipts accepts exactly what appending and minting
      produce, and two records with one head exhibit a hash collision; codecs and snapshots
      round-trip and fail closed; crashes are reported; sessions and the registry
      resume from what they saved.
    - Secrecy and bounds. What is shown (redacted text, streams, bundles of context, query
      results, telemetry, evidence, replies) has no registered secret and is bounded, whatever
      models, stores, peers and hosts return ([redact_sound], [stream_redaction_sound],
      [planner_bounded], [telemetry_emission]).
    - State machines. The kernel's and the registry's invariants hold in every reachable
      state and refine abstract lifecycles; runs terminate within their budget; updates
      and webhooks are handled at most once ([telegram_exactly_once], [webhook_refines]).
    - Equivalence. The hyperplane index is the brute-force scan of what it probes
      ([ann_refines_scan]); the terminal loop is a loop without state; the routing chain
      is the sorted list of eligible models; the client's answer is what the engine routed
      ([helper_end_to_end]).
    - Confinement. A path that resolves, resolves inside the worktree, links included
      ([confine_write_sound], [write_file_sound]).

    Some theorems record behaviour that differs from what comments or docs promise, among
    them [kernel_kill_lost_at_expiry], [redact_limits], [confine_dangling_link],
    [neutralizer_not_last], [memory_save_over_cap], [manifest_zero_collides],
    [stdio_notification_desync], [self_improve_limits], [rag_snapshot_limits],
    [span_inside_char_panics], [empty_evidence_accepted].

    ** Not modelled

    Processes, sockets, files, clocks and random bytes themselves, which are the instances
    of the classes above. Third-party code: the HTTP and JSON libraries, tree-sitter (the
    syntax index and its chunks), JWT signing, the web server. The clients of
    external vector databases, which translate to third-party services.
    Key files, keychains and the wiping of memory, which have no functional behaviour to
    state. The Seatbelt backend of macOS beyond its profile text. The procedural macro of
    tools, which generates code at compile time; the evaluation harness; the command line
    and the binaries, which wire the parts together and print; the task views of the
    product front end. The sealing of token types is Rust's type system's. Time is an
    argument, as in the source. *)

From Stdlib Require Export ZArith Lia.
From stdpp Require Export base tactics list list_numbers option strings gmap vector.

#[global] Open Scope Z_scope.

(** ** Machine integers

    A [uN] of the source is a [Z] in [0 .. 2^N - 1]; every operation of the
    source that can reach the end of the range is written out with the
    behaviour the source picks there (saturating, wrapping or checked). *)

Definition u8_MAX : Z := 255.
Definition u32_MAX : Z := 4294967295.
Definition u64_MAX : Z := 18446744073709551615.
Definition u128_MAX : Z := 340282366920938463463374607431768211455.

(** [x.saturating_add(y)] at the width whose largest value is [max]. *)
Definition saturating_add (max x y : Z) : Z := Z.min max (x + y).

(** The values of a width-[w] unsigned integer. *)
Definition is_uint (w : Z) (x : Z) : Prop := 0 ≤ x < 2 ^ w.

(** ** Results

    Rust's [Result<A, E>], with the error type first so that [result E] is a
    functor and stdpp's [x ← c; k] plays the role of the [?] operator. *)

Inductive result (E A : Type) : Type :=
| Ok (a : A)
| Err (e : E).
Arguments Ok {E A} a.
Arguments Err {E A} e.

#[export] Instance result_ret E : MRet (result E) := fun A a => Ok a.
#[export] Instance result_bind E : MBind (result E) := fun A B f c =>
  match c with Ok a => f a | Err e => Err e end.
#[export] Instance result_fmap E : FMap (result E) := fun A B f c =>
  match c with Ok a => Ok (f a) | Err e => Err e end.

(** [o.ok_or(e)]. *)
Definition ok_or {E A} (o : option A) (e : E) : result E A :=
  match o with Some a => Ok a | None => Err e end.

(** [r.map_err(f)]. *)
Definition map_err {E F A} (f : E → F) (r : result E A) : result F A :=
  match r with Ok a => Ok a | Err e => Err (f e) end.

Definition is_ok {E A} (r : result E A) : bool :=
  match r with Ok _ => true | Err _ => false end.

(** ** Bytes

    A byte string ([&[u8]], [Vec<u8>], [[u8; N]]) is a list of [Z] whose
    elements satisfy [is_byte]. *)

Definition is_byte (b : Z) : Prop := 0 ≤ b < 256.
Definition is_byteb (b : Z) : bool := (0 <=? b) && (b <? 256).
Abbreviation bytes := (list Z) (only parsing).

(** The bytes of a literal ([b"..."] or the UTF-8 bytes of an ASCII [&str]). *)
Fixpoint lit (s : string) : bytes :=
  match s with
  | EmptyString => []
  | String c s' => Z.of_N (Ascii.N_of_ascii c) :: lit s'
  end.

(** [v.to_le_bytes()] of an integer of [n] bytes, and its inverse. *)
Fixpoint to_le_bytes (n : nat) (v : Z) : bytes :=
  match n with
  | O => []
  | S n' => v mod 256 :: to_le_bytes n' (v / 256)
  end.
Fixpoint from_le_bytes (l : bytes) : Z :=
  match l with
  | [] => 0
  | b :: l' => b + 256 * from_le_bytes l'
  end.

(** [v.to_be_bytes()] and its inverse. *)
Definition to_be_bytes (n : nat) (v : Z) : bytes := rev (to_le_bytes n v).
Definition from_be_bytes (l : bytes) : Z := from_le_bytes (rev l).

(** [bytes.get(from..to)]. *)
Definition slice (l : bytes) (from to : nat) : option bytes :=
  if decide (from ≤ to ≤ length l)%nat then Some (take (to - from) (drop from l)) else None.

(** ** Vectors as arenas

    [v.iter().position(p)]: the index of the first element satisfying [p].
    [v.iter().find(p)] is the Standard Library's [find]. *)
Fixpoint position {A} (p : A → bool) (l : list A) : option nat :=
  match l with
  | [] => None
  | x :: l' => if p x then Some 0%nat else S <$> position p l'
  end.

(** [l.chunks_exact(n)]: the consecutive blocks of [n] elements, a shorter rest
    dropped. The fuel is the length of the list, enough for [n > 0]. *)
Fixpoint chunks_fuel {A} (fuel n : nat) (l : list A) : list (list A) :=
  match fuel with
  | O => []
  | S fuel' =>
      if decide (n ≤ length l)%nat then take n l :: chunks_fuel fuel' n (drop n l) else []
  end.
Definition chunks_exact {A} (n : nat) (l : list A) : list (list A) :=
  chunks_fuel (length l) n l.

(** ** Ordered maps

    A [BTreeMap] over an integer key whose order the code observes is an association list
    sorted by key: [get], [insert] (which replaces), [contains_key]. *)
Definition bt_get {A} (m : list (Z * A)) (k : Z) : option A := snd <$> find (λ p, p.1 =? k) m.
Fixpoint bt_insert {A} (m : list (Z * A)) (k : Z) (a : A) : list (Z * A) :=
  match m with
  | [] => [(k, a)]
  | (k', x) :: m' =>
      if k =? k' then (k', a) :: m'
      else if k <? k' then (k, a) :: (k', x) :: m'
      else (k', x) :: bt_insert m' k a
  end.

(** ** Tactics *)

(** Splits every conjunction and existential of the context and substitutes
    the equations between constructors it finds. *)
Ltac crush_hyps :=
  repeat match goal with
  | H : _ ∧ _ |- _ => destruct H
  | H : ∃ _, _ |- _ => destruct H
  | H : Ok _ = Ok _ |- _ => injection H as H; subst
  | H : Err _ = Err _ |- _ => injection H as H; subst
  | H : Ok _ = Err _ |- _ => discriminate H
  | H : Err _ = Ok _ |- _ => discriminate H
  | H : Some _ = Some _ |- _ => injection H as H; subst
  | H : Some _ = None |- _ => discriminate H
  | H : None = Some _ |- _ => discriminate H
  end.

(** Inverts one monadic bind of a hypothesis that a computation succeeded:
    the bound computation gets an equation, the failing case is closed. *)
Ltac bind_step H x :=
  match type of H with
  | mbind _ ?c = _ =>
      let E := fresh "E" x in
      destruct c as [x|] eqn:E; simpl in H; [|discriminate H]
  end.

Create HintDb crust.

(** ** Generic lemmas *)

Lemma saturating_add_le max x y : saturating_add max x y ≤ max.
Proof. unfold saturating_add. lia. Qed.

Lemma saturating_add_mono max x y : x ≤ max → 0 ≤ y → x ≤ saturating_add max x y.
Proof. unfold saturating_add. lia. Qed.

Lemma saturating_add_exact max x y : x + y ≤ max → saturating_add max x y = x + y.
Proof. unfold saturating_add. lia. Qed.

Lemma is_byteb_spec b : is_byteb b = true ↔ is_byte b.
Proof. unfold is_byteb, is_byte. rewrite andb_true_iff. lia. Qed.

Lemma ok_or_Ok {E A} (o : option A) (e : E) a : ok_or o e = Ok a ↔ o = Some a.
Proof. destruct o; simpl; split; intros; crush_hyps; done. Qed.

(** *** Little-endian integers *)

Lemma length_to_le_bytes n v : length (to_le_bytes n v) = n.
Proof. revert v. induction n as [|n IH]; intros v; simpl; [done|]. by rewrite IH. Qed.

Lemma length_to_be_bytes n v : length (to_be_bytes n v) = n.
Proof. unfold to_be_bytes. by rewrite length_rev, length_to_le_bytes. Qed.

Lemma to_le_bytes_byte n v : Forall is_byte (to_le_bytes n v).
Proof.
  revert v. induction n as [|n IH]; intros v; simpl; constructor; [|apply IH].
  apply Z.mod_pos_bound. lia.
Qed.

Lemma to_be_bytes_byte n v : Forall is_byte (to_be_bytes n v).
Proof. unfold to_be_bytes. apply Forall_rev, to_le_bytes_byte. Qed.

Lemma from_le_bytes_range l :
  Forall is_byte l → 0 ≤ from_le_bytes l < 256 ^ Z.of_nat (length l).
Proof.
  induction 1 as [|b l Hb _ IH]; simpl from_le_bytes; simpl length; [simpl; lia|].
  rewrite Nat2Z.inj_succ, Z.pow_succ_r by lia. unfold is_byte in Hb. lia.
Qed.

(** Encoding then decoding keeps a value that fits in [n] bytes. *)
Lemma from_to_le_bytes n v :
  0 ≤ v < 256 ^ Z.of_nat n → from_le_bytes (to_le_bytes n v) = v.
Proof.
  revert v. induction n as [|n IH]; intros v Hv; simpl.
  - simpl in Hv. lia.
  - rewrite Nat2Z.inj_succ, Z.pow_succ_r in Hv by lia.
    rewrite IH; [pose proof (Z.div_mod v 256); lia|].
    split; [apply Z.div_pos; lia|]. apply Z.div_lt_upper_bound; lia.
Qed.

(** Decoding then encoding keeps the bytes. *)
Lemma to_from_le_bytes l :
  Forall is_byte l → to_le_bytes (length l) (from_le_bytes l) = l.
Proof.
  induction 1 as [|b l Hb _ IH]; simpl; [done|]. unfold is_byte in Hb.
  rewrite (Z.mul_comm 256), Z_mod_plus_full, Z.mod_small by lia.
  by rewrite Z.div_add, Z.div_small, Z.add_0_l, IH by lia.
Qed.

Lemma to_le_bytes_inj n v w :
  0 ≤ v < 256 ^ Z.of_nat n → 0 ≤ w < 256 ^ Z.of_nat n →
  to_le_bytes n v = to_le_bytes n w → v = w.
Proof. intros Hv Hw H. by rewrite <-(from_to_le_bytes n v), H, from_to_le_bytes. Qed.

(** *** Slices *)

Lemma slice_Some l a b s :
  slice l a b = Some s →
  (a ≤ b ≤ length l)%nat ∧ s = take (b - a) (drop a l) ∧ length s = (b - a)%nat.
Proof.
  unfold slice. case_decide as Hab; intros; crush_hyps. split; [done|]. split; [done|].
  rewrite length_take, length_drop. lia.
Qed.

Lemma slice_app pre s suf :
  slice (pre ++ s ++ suf) (length pre) (length pre + length s) = Some s.
Proof.
  unfold slice. rewrite decide_True by (rewrite !length_app; lia).
  rewrite drop_app_length. f_equal.
  replace (length pre + length s - length pre)%nat with (length s) by lia.
  apply take_app_length.
Qed.

Lemma slice_byte l a b s : Forall is_byte l → slice l a b = Some s → Forall is_byte s.
Proof. intros Hl (_ & -> & _)%slice_Some. by apply Forall_take, Forall_drop. Qed.

(** *** Arenas *)

Lemma position_Some {A} (p : A → bool) l i :
  position p l = Some i →
  ∃ x, l !! i = Some x ∧ p x = true ∧ ∀ j y, (j < i)%nat → l !! j = Some y → p y = false.
Proof.
  revert i. induction l as [|x l IH]; intros i; simpl; [done|].
  destruct (p x) eqn:Hp; intros Hi.
  - crush_hyps. exists x. repeat split; [done|]. intros j y Hj. lia.
  - destruct (position p l) as [i'|] eqn:E; simpl in Hi; [|done]. crush_hyps.
    destruct (IH i' eq_refl) as (y & Hy & Hpy & Hlt). exists y. split; [done|].
    split; [done|]. intros [|j] z Hj Hz; simpl in Hz; [by crush_hyps|].
    apply (Hlt j); [lia|done].
Qed.

Lemma position_None {A} (p : A → bool) l :
  position p l = None ↔ ∀ x, x ∈ l → p x = false.
Proof.
  induction l as [|x l IH]; simpl; [set_solver|].
  destruct (p x) eqn:Hp.
  - split; [done|]. intros H. specialize (H x). rewrite H in Hp; [done|set_solver].
  - rewrite fmap_None, IH. split; [|set_solver].
    intros H y Hy. apply elem_of_cons in Hy as [->|Hy]; [done|by apply H].
Qed.

Lemma find_position {A} (p : A → bool) l :
  find p l = position p l ≫= (l !!.).
Proof.
  induction l as [|x l IH]; simpl; [done|]. destruct (p x); simpl; [done|].
  rewrite IH. by destruct (position p l).
Qed.

Lemma position_unique {A B} `{EqDecision B} (f : A → B) (l : list A) i x :
  NoDup (f <$> l) → l !! i = Some x →
  position (λ y, bool_decide (f y = f x)) l = Some i.
Proof.
  intros Hnd Hi.
  destruct (position _ l) as [j|] eqn:E.
  - apply position_Some in E as (y & Hy & Heq & _). apply bool_decide_eq_true in Heq.
    f_equal. eapply NoDup_lookup; [exact Hnd| |]; rewrite list_lookup_fmap;
      [by rewrite Hy; simpl; rewrite Heq|by rewrite Hi].
  - rewrite position_None in E. specialize (E x).
    rewrite bool_decide_eq_false in E. exfalso. apply E; [|done].
    by apply list_elem_of_lookup_2 with i.
Qed.

(** *** Literals *)

Lemma lit_byte s : Forall is_byte (lit s).
Proof.
  induction s as [|c s IH]; simpl; constructor; [|done].
  destruct c as [[] [] [] [] [] [] [] []]; vm_compute; split; congruence.
Qed.

(** *** Chunks *)

Lemma chunks_fuel_elem {A} fuel n (l c : list A) :
  c ∈ chunks_fuel fuel n l → length c = n ∧ ∀ x, x ∈ c → x ∈ l.
Proof.
  revert l. induction fuel as [|fuel IH]; intros l Hc; simpl in Hc; [by apply elem_of_nil in Hc|].
  case_decide as Hn; [|by apply elem_of_nil in Hc].
  apply elem_of_cons in Hc as [->|Hc].
  - split; [rewrite length_take; lia|]. intros x Hx. by eapply subseteq_take.
  - apply IH in Hc as [Hl Hin]. split; [done|]. intros x Hx.
    by eapply subseteq_drop, Hin.
Qed.

Lemma chunks_fuel_length {A} fuel n (l : list A) :
  (0 < n)%nat → (length l ≤ fuel)%nat → length (chunks_fuel fuel n l) = (length l / n)%nat.
Proof.
  intros Hn. revert l. induction fuel as [|fuel IH]; intros l Hf; simpl.
  - assert (length l = 0%nat) as -> by lia. by rewrite Nat.Div0.div_0_l.
  - case_decide as Hl; simpl.
    + rewrite IH by (rewrite length_drop; lia). rewrite length_drop.
      rewrite <-(Nat.sub_add n (length l)) at 2 by done.
      replace (length l - n + n)%nat with (length l - n + 1 * n)%nat by lia.
      rewrite Nat.div_add by lia. lia.
    + rewrite Nat.div_small; lia.
Qed.

(** A whole number of blocks is the concatenation of its blocks. *)
Lemma chunks_exact_join {A} n (l : list A) :
  (0 < n)%nat → (length l `mod` n = 0)%nat → mjoin (chunks_exact n l) = l.
Proof.
  intros Hn. unfold chunks_exact. assert (length l ≤ length l)%nat as Hf by done. revert Hf.
  generalize (length l) at 2 4 as fuel. intros fuel. revert l.
  induction fuel as [|fuel IH]; intros l Hf Hm; simpl.
  - by destruct l; simpl in Hf; [|lia].
  - case_decide as Hl.
    + change (take n l ++ mjoin (chunks_fuel fuel n (drop n l)) = l).
      rewrite IH; [apply take_drop|rewrite length_drop; lia|]. rewrite length_drop.
      rewrite <-(Nat.Div0.mod_add (length l - n) 1 n).
      by replace (length l - n + 1 * n)%nat with (length l) by lia.
    + rewrite Nat.mod_small in Hm by lia. by destruct l.
Qed.

(** A slice at an offset, as a split of the rest of the buffer. *)
Lemma slice_at_Some n bs off s :
  slice bs off (off + n) = Some s →
  drop off bs = s ++ drop (off + n) bs ∧ length s = n ∧ (off + n ≤ length bs)%nat.
Proof.
  intros (Hle & -> & Hlen)%slice_Some.
  replace (off + n - off)%nat with n in * by lia. split; [|split; [done|lia]].
  by rewrite <-drop_drop, take_drop.
Qed.

Lemma slice_at_intro n bs off s R :
  drop off bs = s ++ R → length s = n → (off ≤ length bs)%nat →
  slice bs off (off + n) = Some s ∧ drop (off + n) bs = R ∧ (off + n ≤ length bs)%nat.
Proof.
  intros Hd Hn Ho. assert (length (drop off bs) = (n + length R)%nat) as Hl
    by (rewrite Hd, length_app; lia). rewrite length_drop in Hl.
  unfold slice. rewrite decide_True by lia.
  replace (off + n - off)%nat with n by lia. rewrite Hd, <-drop_drop, Hd. subst n.
  rewrite take_app_length, drop_app_length. split; [done|]. split; [done|lia].
Qed.

Lemma from_le_bytes_uint n v :
  Forall is_byte v → length v = n → 0 ≤ from_le_bytes v < 256 ^ Z.of_nat n.
Proof. intros Hv <-. by apply from_le_bytes_range. Qed.

Lemma to_from_le_bytes_n n v :
  Forall is_byte v → length v = n → to_le_bytes n (from_le_bytes v) = v.
Proof. intros Hv <-. by apply to_from_le_bytes. Qed.

Lemma mjoin_cons {A} (l : list A) ls : mjoin (l :: ls) = l ++ mjoin ls.
Proof. done. Qed.

(** The concatenation of blocks of one length determines the blocks. *)
Lemma mjoin_inj_fixed {A} n (ls ks : list (list A)) :
  Forall (λ l, length l = n) ls → Forall (λ l, length l = n) ks →
  length ls = length ks → mjoin ls = mjoin ks → ls = ks.
Proof.
  intros Hls. revert ks. induction Hls as [|l ls Hl Hls IH]; intros [|k ks] Hks Hlen Heq;
    try done. apply Forall_cons in Hks as [Hk Hks]. rewrite !mjoin_cons in Heq.
  apply app_inj_1 in Heq as [-> Heq]; [|congruence]. f_equal. apply IH; [done| |done].
  simpl in Hlen. lia.
Qed.

(** *** Ordered maps *)

Lemma take_app_take {A} (n : nat) (a b : list A) : take n (take n a ++ b) = take n (a ++ b).
Proof.
  rewrite !take_app, take_take, Nat.min_id, length_take. f_equal. destruct (decide (n ≤ length a)%nat).
  - rewrite Nat.min_l by lia. by replace (n - n)%nat with (n - length a)%nat by lia.
  - by rewrite Nat.min_r by lia.
Qed.
Lemma bt_get_nil {A} k : bt_get (@nil (Z * A)) k = None.
Proof. done. Qed.

Lemma bt_get_cons {A} k (a : A) m k' :
  bt_get ((k, a) :: m) k' = if k =? k' then Some a else bt_get m k'.
Proof. unfold bt_get. cbn. by destruct (k =? k'). Qed.

Lemma bt_get_insert {A} (m : list (Z * A)) k a k' :
  bt_get (bt_insert m k a) k' = if k =? k' then Some a else bt_get m k'.
Proof.
  induction m as [|[i x] m IH]; cbn [bt_insert].
  - by rewrite bt_get_cons.
  - destruct (Z.eqb_spec k i) as [->|Hi]; [rewrite !bt_get_cons; by destruct (i =? k')|].
    destruct (k <? i); rewrite !bt_get_cons; [done|]. rewrite IH.
    destruct (Z.eqb_spec i k'), (Z.eqb_spec k k'); by subst.
Qed.

Lemma bt_get_elem {A} (m : list (Z * A)) k a : bt_get m k = Some a → (k, a) ∈ m.
Proof.
  induction m as [|[i x] m IH]; [done|]. rewrite bt_get_cons.
  destruct (Z.eqb_spec i k) as [->|Hi]; [intros [= ->]; left|]. intros H. right. by apply IH.
Qed.

(** Encodings are rewritten by lemmas, never unfolded. *)
#[global] Arguments to_le_bytes : simpl never.
#[global] Arguments from_le_bytes : simpl never.
#[global] Arguments slice : simpl never.
