(* ===== verification/Text.v ===== *)
(** * Bounded UTF-8 text (crate [crustcore-types], [text.rs])

    A [&str] or [String] is its UTF-8 bytes. This file has the validity test of
    [str::from_utf8], the char boundaries of [str::is_char_boundary], the
    boundary-respecting truncation the whole workspace uses to bound text, and
    [BoundedText]. *)

From S2P Require Import Prelude.

(** ** UTF-8 *)

Definition is_cont (b : Z) : bool := (128 <=? b) && (b <=? 191).
Definition in_range (lo hi b : Z) : bool := (lo <=? b) && (b <=? hi).

(** The length of the well-formed encoded character at the head of [s] (the table of
    well-formed byte sequences of the Unicode standard, which [str::from_utf8] checks). *)
Definition utf8_head (s : bytes) : option nat :=
  match s with
  | b0 :: s1 =>
      if in_range 0 127 b0 then Some 1%nat else
      match s1 with
      | b1 :: s2 =>
          if in_range 194 223 b0 && is_cont b1 then Some 2%nat else
          match s2 with
          | b2 :: s3 =>
              if ((b0 =? 224) && in_range 160 191 b1 || in_range 225 236 b0 && is_cont b1
                  || (b0 =? 237) && in_range 128 159 b1 || in_range 238 239 b0 && is_cont b1)
                 && is_cont b2
              then Some 3%nat else
              match s3 with
              | b3 :: _ =>
                  if ((b0 =? 240) && in_range 144 191 b1 || in_range 241 243 b0 && is_cont b1
                      || (b0 =? 244) && in_range 128 143 b1)
                     && is_cont b2 && is_cont b3
                  then Some 4%nat else None
              | [] => None
              end
          | [] => None
          end
      | [] => None
      end
  | [] => None
  end.

(** [str::from_utf8(s).is_ok()]; every character consumes a byte, so the length is enough
    fuel. *)
Fixpoint utf8_fuel (fuel : nat) (s : bytes) : bool :=
  match s, fuel with
  | [], _ => true
  | _, O => false
  | _, S fuel' => match utf8_head s with Some n => utf8_fuel fuel' (drop n s) | None => false end
  end.
Definition is_utf8 (s : bytes) : bool := utf8_fuel (length s) s.

(** [s.is_char_boundary(i)]. *)
Definition is_char_boundary (s : bytes) (i : nat) : bool :=
  if decide (i = 0%nat) then true
  else match s !! i with
       | Some b => negb (is_cont b)
       | None => bool_decide (i = length s)
       end.

(** ** Truncation *)

(** The loop [while end > 0 && !text.is_char_boundary(end) { end -= 1; }]. *)
Fixpoint floor_char_boundary (s : bytes) (end_ : nat) : nat :=
  match end_ with
  | O => O
  | S e => if is_char_boundary s end_ then end_ else floor_char_boundary s e
  end.

(** [BoundedText::truncated]. *)
Definition truncated (text : bytes) (max : nat) : bytes :=
  if decide (max < length text)%nat then take (floor_char_boundary text max) text else text.

Record BoundedTextError := mkBoundedTextError { bte_max : nat; bte_actual : nat }.

(** [BoundedText::with_max], [BoundedText::new]. *)
Definition with_max (text : bytes) (max : nat) : result BoundedTextError bytes :=
  if decide (max < length text)%nat then Err (mkBoundedTextError max (length text)) else Ok text.
Definition DEFAULT_MAX : nat := N.to_nat (64 * 1024).
Definition BoundedText_new (text : bytes) : result BoundedTextError bytes :=
  with_max text DEFAULT_MAX.

(** ** Lemmas *)

(** A string is valid when it splits into characters: a non-continuation byte followed by
    continuation bytes. *)
Definition is_char (c : bytes) : Prop :=
  ∃ b cs, c = b :: cs ∧ is_cont b = false ∧ Forall (λ x, is_cont x = true) cs ∧
          utf8_head c = Some (length c).

Lemma in_range_not_cont lo hi b :
  in_range lo hi b = true → hi < 128 ∨ 192 ≤ lo → is_cont b = false.
Proof. unfold in_range, is_cont. intros [??]%andb_true_iff ?. apply andb_false_iff. lia. Qed.

Lemma in_range_cont lo hi b : in_range lo hi b = true → 128 ≤ lo → hi ≤ 191 → is_cont b = true.
Proof. unfold in_range, is_cont. intros [??]%andb_true_iff ??. apply andb_true_iff. lia. Qed.

Lemma eqb_in_range b n : (b =? n) = true → in_range n n b = true.
Proof. intros ->%Z.eqb_eq. unfold in_range. apply andb_true_iff. lia. Qed.

Ltac utf8_cases H :=
  repeat match type of H with
  | (if ?c then _ else _) = Some _ => destruct c eqn:?
  | None = Some _ => discriminate H
  | Some _ = Some _ => injection H as <-
  | match ?l with [] => _ | _ => _ end = Some _ => destruct l
  end.

Ltac utf8_bools :=
  repeat match goal with
  | H : _ && _ = true |- _ => apply andb_true_iff in H as [? ?]
  | H : _ || _ = true |- _ => apply orb_true_iff in H as [?|?]
  | H : (_ =? _) = true |- _ => apply eqb_in_range in H
  end.

(** The test reads only the character it accepts. *)
Lemma utf8_head_take s n : utf8_head s = Some n → utf8_head (take n s) = Some n.
Proof.
  intros H. unfold utf8_head in H. destruct s as [|b0 s1]; [done|].
  utf8_cases H; simpl take; rewrite ?take_0; unfold utf8_head;
    repeat match goal with E : ?c = _ |- context [if ?c then _ else _] => rewrite E end;
    reflexivity.
Qed.

Lemma utf8_head_char s n :
  utf8_head s = Some n → (n ≤ length s)%nat ∧ is_char (take n s).
Proof.
  intros H. pose proof (utf8_head_take s n H) as Ht.
  assert (n ≤ length s)%nat as Hn.
  { unfold utf8_head in H. destruct s as [|b0 s1]; [done|]. utf8_cases H; simpl; lia. }
  split; [done|].
  assert (∃ b cs, take n s = b :: cs ∧ is_cont b = false ∧ Forall (λ x, is_cont x = true) cs)
    as (b & cs & Heq & Hb & Hcs).
  { clear Ht Hn. unfold utf8_head in H. destruct s as [|b0 s1]; [done|].
    utf8_cases H; utf8_bools; simpl take; rewrite ?take_0;
    (eexists _, _; split; [reflexivity|];
     split; [by eapply in_range_not_cont; [eassumption|lia]|];
     repeat constructor; solve [assumption | eapply in_range_cont; [eassumption|lia..]]). }
  exists b, cs. split; [done|]. split; [done|]. split; [done|].
  by rewrite Ht, length_take_le.
Qed.

Lemma is_char_length c : is_char c → (0 < length c)%nat.
Proof. intros (b & cs & -> & _). simpl. lia. Qed.

(** The head test accepts a character whatever follows it. *)
Lemma utf8_head_app c R : utf8_head c = Some (length c) → utf8_head (c ++ R) = Some (length c).
Proof.
  intros H. unfold utf8_head in H. destruct c as [|b0 [|b1 [|b2 [|b3 [|b4 c]]]]]; [done|..];
    simpl app; unfold utf8_head;
    repeat match type of H with
    | (if ?c then _ else _) = Some _ => destruct c eqn:?
    end; simpl in H; try discriminate H; try reflexivity.
Qed.

(** Validity is splitting into characters. *)
Lemma is_utf8_chars s :
  is_utf8 s = true ↔ ∃ cs, s = mjoin cs ∧ Forall is_char cs.
Proof.
  unfold is_utf8. split.
  - generalize (length s) at 1 as fuel. intros fuel. revert s.
    induction fuel as [|fuel IH]; intros s H.
    + destruct s; [|done]. by exists [].
    + destruct s as [|b s]; [by exists []|]. cbn [utf8_fuel] in H.
      destruct (utf8_head (b :: s)) as [n|] eqn:Hn; [|done].
      apply IH in H as (cs & Hcs & Hch). apply utf8_head_char in Hn as [_ Hc].
      exists (take n (b :: s) :: cs). rewrite mjoin_cons, <-Hcs, take_drop. by auto.
  - intros (cs & -> & Hch). assert (∀ fuel, (length (mjoin cs) ≤ fuel)%nat →
      utf8_fuel fuel (mjoin cs) = true) as Hf; [|by apply Hf].
    induction Hch as [|c cs Hc _ IH]; intros fuel Hf; [by destruct fuel|].
    rewrite mjoin_cons, length_app in *. pose proof (is_char_length c Hc).
    destruct Hc as (b & bs & -> & _ & _ & Hh). simpl length in *.
    destruct fuel as [|fuel]; [lia|]. cbn [utf8_fuel app].
    change (b :: bs ++ mjoin cs) with ((b :: bs) ++ mjoin cs).
    rewrite utf8_head_app by done. rewrite drop_app_length. apply IH. lia.
Qed.

(** A char boundary of a valid string splits it into two valid strings. *)
Lemma boundary_split cs i :
  Forall is_char cs → (i ≤ length (mjoin cs))%nat → is_char_boundary (mjoin cs) i = true →
  ∃ cs1 cs2, cs = cs1 ++ cs2 ∧ length (mjoin cs1) = i.
Proof.
  intros Hcs. revert i. induction Hcs as [|c cs Hc _ IH]; intros i Hi Hb.
  - exists [], []. simpl in *. split; [done|]. lia.
  - rewrite mjoin_cons, length_app in *. pose proof (is_char_length c Hc) as Hpos.
    destruct (decide (i = 0%nat)) as [->|Hi0]; [by exists [], (c :: cs)|].
    destruct (decide (length c ≤ i)%nat) as [Hle|Hlt].
    + destruct (IH (i - length c)%nat) as (cs1 & cs2 & -> & Hl); [lia| |].
      * unfold is_char_boundary in Hb |- *. rewrite decide_False in Hb by done.
        destruct (decide (i - length c = 0)%nat); [done|].
        rewrite lookup_app_r in Hb by done. destruct (mjoin cs !! _); [done|].
        apply bool_decide_eq_true in Hb. rewrite length_app in Hb. apply bool_decide_eq_true. lia.
      * exists (c :: cs1), cs2. split; [done|]. rewrite mjoin_cons, length_app. lia.
    + exfalso. destruct Hc as (b & bs & -> & _ & Hbs & _). simpl in Hlt.
      unfold is_char_boundary in Hb. rewrite decide_False in Hb by done.
      destruct i as [|i]; [done|]. simpl in Hb. rewrite lookup_app_l in Hb by lia.
      destruct (bs !! i) as [x|] eqn:Hx; [|apply lookup_ge_None in Hx; lia].
      by rewrite (Forall_lookup_1 _ _ _ _ Hbs Hx) in Hb.
Qed.

Lemma floor_char_boundary_spec s m :
  (floor_char_boundary s m ≤ m)%nat ∧ is_char_boundary s (floor_char_boundary s m) = true ∧
  ∀ i, (floor_char_boundary s m < i ≤ m)%nat → is_char_boundary s i = false.
Proof.
  induction m as [|m IH]; cbn [floor_char_boundary].
  - split; [lia|]. split; [done|]. intros i Hi. lia.
  - destruct (is_char_boundary s (S m)) eqn:E.
    + split; [lia|]. split; [done|]. intros i Hi. lia.
    + destruct IH as (H1 & H2 & H3). split; [lia|]. split; [done|]. intros i Hi.
      destruct (decide (i = S m)) as [->|]; [done|]. apply H3. lia.
Qed.

(** Truncation keeps text valid and is maximal: truncating a valid UTF-8 string to [max]
    bytes gives a prefix that is at most [max] bytes long, is again valid UTF-8 (no
    character is split), and is the longest prefix within the bound that ends at a
    character boundary. *)
Theorem truncated_valid_maximal text max :
  is_utf8 text = true →
  (length (truncated text max) ≤ max)%nat ∧ is_utf8 (truncated text max) = true ∧
  truncated text max = take (length (truncated text max)) text ∧
  ∀ i, (i ≤ max)%nat → (i ≤ length text)%nat → is_char_boundary text i = true →
       (i ≤ length (truncated text max))%nat.
Proof.
  intros Hu. unfold truncated. case_decide as Hlen.
  - destruct (floor_char_boundary_spec text max) as (Hle & Hb & Hmax).
    set (e := floor_char_boundary text max) in *. rewrite length_take_le by lia.
    split; [done|]. split; [|split; [done|]].
    + apply is_utf8_chars in Hu as (cs & -> & Hcs).
      destruct (boundary_split cs e Hcs ltac:(lia) Hb) as (cs1 & cs2 & -> & Hl).
      apply is_utf8_chars. exists cs1. apply Forall_app in Hcs as [Hcs1 _]. split; [|done].
      rewrite <-Hl. clear. induction cs1 as [|c cs1 IH]; [done|].
      change ((c :: cs1) ++ cs2) with (c :: (cs1 ++ cs2)).
      rewrite !mjoin_cons, length_app.
      rewrite take_app_ge by lia. f_equal.
      by replace (length c + length (mjoin cs1) - length c)%nat with (length (mjoin cs1)) by lia.
    + intros i Hi _ Hib. destruct (decide (i ≤ e)%nat); [done|].
      rewrite Hmax in Hib by lia. done.
  - split; [lia|]. split; [done|]. split; [by rewrite firstn_all|]. lia.
Qed.

(** Four bytes of a two-character text: a two-byte and a three-byte character. *)
Lemma truncated_valid_maximal_witness :
  let text := [195; 169; 226; 130; 172] in
  is_utf8 text = true ∧ truncated text 4 = [195; 169] ∧ is_utf8 (truncated text 4) = true.
Proof.
  intros text. split; [reflexivity|]. split; [reflexivity|].
  exact (proj1 (proj2 (truncated_valid_maximal text 4 eq_refl))).
Defined.
