(* ===== verification/Redactor.v ===== *)
(** * The redaction boundary (crate [crustcore-secrets], [lib.rs])

    [Redactor]: the registered secret values, the search for their occurrences,
    the merge of the match spans and the splice of markers. Text is UTF-8 bytes;
    a byte search for a valid UTF-8 needle in a valid UTF-8 text finds exactly
    the matches of [str::find]. *)

From Stdlib Require Import Sorting.Sorted.
From S2P Require Import Prelude Text.

(** ** Substring search *)

Definition starts_with (v s : bytes) : bool := bool_decide (take (length v) s = v).

(** [s.find(v)]: the byte offset of the first occurrence. *)
Fixpoint find_sub (v s : bytes) : option nat :=
  if starts_with v s then Some 0%nat
  else match s with [] => None | _ :: s' => S <$> find_sub v s' end.

(** [s.contains(v)]. *)
Definition contains (s v : bytes) : bool := bool_decide (is_Some (find_sub v s)).

(** ** Stable sorting ([slice::sort_by]) *)

Fixpoint insert_sorted {A} (le : A → A → bool) (x : A) (l : list A) : list A :=
  match l with
  | [] => [x]
  | y :: l' => if le x y then x :: y :: l' else y :: insert_sorted le x l'
  end.
Definition sort_by {A} (le : A → A → bool) (l : list A) : list A :=
  foldr (insert_sorted le) [] l.

(** ** The redactor *)

Record Redactor := mkRedactor { needles : list (bytes * bytes) }.

Definition Redactor_new : Redactor := mkRedactor [].

(** [Redactor::register]: longest first. *)
Definition register (r : Redactor) (label value : bytes) : Redactor :=
  if decide (value = []) then r
  else mkRedactor (sort_by (λ a b, bool_decide (length b.2 ≤ length a.2)%nat)
                     (needles r ++ [(label, value)])).

(** [Redactor::max_needle_len]. *)
Definition max_needle_len (r : Redactor) : nat :=
  foldr (λ n m, Nat.max (length n.2) m) 0%nat (needles r).

(** [redaction_marker]. *)
Definition redaction_marker (label : bytes) : bytes := lit "[REDACTED:" ++ label ++ lit "]".

(** A match: start, end and the label of the secret. *)
Record Span := mkSpan { sp_start : nat; sp_end : nat; sp_label : bytes }.

(** The loop [while let Some(pos) = text[from..].find(v)]: a non-empty needle advances
    [from], so the length of the text plus one is enough fuel. *)
Fixpoint find_spans (fuel : nat) (v text label : bytes) (from : nat) : list Span :=
  match fuel with
  | O => []
  | S fuel' =>
      match find_sub v (drop from text) with
      | Some pos =>
          let start := (from + pos)%nat in
          let end_ := (start + length v)%nat in
          mkSpan start end_ label :: find_spans fuel' v text label end_
      | None => []
      end
  end.

(** Step 1 of [Redactor::redact]: the spans of every usable needle. *)
Definition collect_spans (r : Redactor) (text : bytes) : list Span :=
  needles r ≫= λ '(label, v),
    if is_utf8 v && negb (bool_decide (v = []))
    then find_spans (S (length text)) v text label 0 else [].

(** Step 2: by start ascending, then by end descending. *)
Definition span_le (a b : Span) : bool :=
  bool_decide (sp_start a < sp_start b)%nat ||
  (bool_decide (sp_start a = sp_start b) && bool_decide (sp_end b ≤ sp_end a)%nat).

(** The parts of the output: a copied range of the text, or a marker. *)
Inductive Piece := PText (from to : nat) | PMarker (label : bytes).

(** Step 3: the nested loops that absorb every span starting at or before the current end
    and splice a marker per merged interval. The current interval is [cur]. *)
Fixpoint splice (len cursor : nat) (cur : Span) (spans : list Span) : list Piece :=
  let emit :=
    (if decide (cursor < sp_start cur)%nat then [PText cursor (sp_start cur)] else []) ++
    [PMarker (sp_label cur)] in
  match spans with
  | [] => emit ++ [PText (sp_end cur) len]
  | sp :: spans' =>
      if decide (sp_start sp ≤ sp_end cur)%nat
      then splice len cursor
             (mkSpan (sp_start cur) (Nat.max (sp_end cur) (sp_end sp)) (sp_label cur)) spans'
      else emit ++ splice len (sp_end cur) sp spans'
  end.

Definition redact_pieces (r : Redactor) (text : bytes) : list Piece :=
  match sort_by span_le (collect_spans r text) with
  | [] => [PText 0 (length text)]
  | sp :: spans => splice (length text) 0 sp spans
  end.

Definition piece_text (text : bytes) (p : Piece) : bytes :=
  match p with
  | PText from to => take (to - from) (drop from text)
  | PMarker label => redaction_marker label
  end.

(** [Redactor::redact]. *)
Definition redact (r : Redactor) (text : bytes) : bytes :=
  redact_pieces r text ≫= piece_text text.

(** [Redactor::would_leak]. *)
Definition would_leak (r : Redactor) (text : bytes) : bool :=
  existsb (λ n, is_utf8 n.2 && negb (bool_decide (n.2 = [])) && contains text n.2) (needles r).

(** ** Lemmas *)

Definition occurs (v text : bytes) (p : nat) : Prop := take (length v) (drop p text) = v.

Lemma find_sub_Some v s i :
  find_sub v s = Some i → occurs v s i ∧ ∀ j, (j < i)%nat → ¬ occurs v s j.
Proof.
  revert i. induction s as [|x s IH]; intros i H; cbn [find_sub] in H.
  - destruct (starts_with v []) eqn:E; [|done]. simplify_eq.
    apply bool_decide_eq_true in E. split; [done|]. intros j Hj. lia.
  - destruct (starts_with v (x :: s)) eqn:E.
    + simplify_eq. apply bool_decide_eq_true in E. split; [done|]. intros j Hj. lia.
    + apply bool_decide_eq_false in E. destruct (find_sub v s) as [i'|]; [|done].
      simpl in H. simplify_eq. destruct (IH i' eq_refl) as [Ho Hf]. split; [done|].
      intros [|j] Hj; [done|]. apply (Hf j). lia.
Qed.

Lemma find_sub_None v s p : find_sub v s = None → (p ≤ length s)%nat → ¬ occurs v s p.
Proof.
  revert p. induction s as [|x s IH]; intros p H Hp; cbn [find_sub] in H.
  - destruct (starts_with v []) eqn:E; [done|]. apply bool_decide_eq_false in E.
    simpl in Hp. replace p with 0%nat by lia. done.
  - destruct (starts_with v (x :: s)) eqn:E; [done|]. apply bool_decide_eq_false in E.
    destruct (find_sub v s) eqn:Ef; [done|]. destruct p as [|p]; [done|].
    apply (IH p eq_refl). simpl in Hp. lia.
Qed.

Lemma occurs_bound v text p : v ≠ [] → occurs v text p → (p + length v ≤ length text)%nat.
Proof.
  intros Hv Ho. unfold occurs in Ho. apply (f_equal length) in Ho.
  rewrite length_take, length_drop in Ho.
  assert (0 < length v)%nat by (destruct v; [done|simpl; lia]). lia.
Qed.

Lemma contains_occurs s v : v ≠ [] → contains s v = true ↔ ∃ p, occurs v s p.
Proof.
  intros Hv. unfold contains. rewrite bool_decide_eq_true. split.
  - intros [i Hi]. apply find_sub_Some in Hi as [Hi _]. eauto.
  - intros [p Hp]. destruct (find_sub v s) eqn:E; [done|]. exfalso.
    eapply find_sub_None; [exact E| |exact Hp]. pose proof (occurs_bound v s p Hv Hp). lia.
Qed.

(** Every occurrence meets a span of the search. *)
Lemma find_spans_cover fuel v text label from p :
  v ≠ [] → occurs v text p → (from ≤ p)%nat → (length text < from + fuel)%nat →
  ∃ sp, sp ∈ find_spans fuel v text label from ∧
        (sp_start sp < p + length v)%nat ∧ (p < sp_end sp)%nat.
Proof.
  intros Hv Ho. revert from. induction fuel as [|fuel IH]; intros from Hfrom Hfuel.
  - pose proof (occurs_bound v text p Hv Ho). lia.
  - assert (0 < length v)%nat as Hpos by (destruct v; [done|simpl; lia]).
    cbn [find_spans]. destruct (find_sub v (drop from text)) as [pos|] eqn:E.
    + apply find_sub_Some in E as [_ Hfirst].
      assert (pos ≤ p - from)%nat as Hle.
      { destruct (decide (p - from < pos)%nat) as [Hlt|]; [|lia]. exfalso.
        apply (Hfirst _ Hlt). unfold occurs. rewrite drop_drop.
        by replace (from + (p - from))%nat with p by lia. }
      destruct (decide (p < from + pos + length v)%nat) as [Hin|Hout].
      * eexists. split; [by left|]. simpl. lia.
      * destruct (IH (from + pos + length v)%nat) as (sp & Hsp & ?); [lia|lia|].
        exists sp. split; [by right|done].
    + exfalso. eapply (find_sub_None _ _ (p - from) E).
      * pose proof (occurs_bound v text p Hv Ho). rewrite length_drop. lia.
      * unfold occurs. rewrite drop_drop. by replace (from + (p - from))%nat with p by lia.
Qed.

(** Sorting keeps the elements and orders them. *)
Lemma insert_sorted_elem {A} (le : A → A → bool) x l y :
  y ∈ insert_sorted le x l ↔ y = x ∨ y ∈ l.
Proof.
  induction l as [|z l IH]; simpl; [set_solver|]. destruct (le x z); set_solver.
Qed.

Lemma sort_by_elem {A} (le : A → A → bool) l y : y ∈ sort_by le l ↔ y ∈ l.
Proof.
  induction l as [|x l IH]; simpl; [done|]. rewrite insert_sorted_elem, IH. set_solver.
Qed.

Lemma insert_sorted_sorted {A} (le : A → A → bool) (R : A → A → Prop) x l :
  (∀ a b, le a b = true → R a b) → (∀ a b, le a b = false → R b a) → Transitive R →
  StronglySorted R l → StronglySorted R (insert_sorted le x l).
Proof.
  intros Ht Hf Htr. induction 1 as [|y l Hl IH Hy]; simpl; [repeat constructor|].
  destruct (le x y) eqn:E.
  - constructor; [by constructor|]. constructor; [by apply Ht|].
    eapply Forall_impl; [exact Hy|]. intros z Hz. by etrans; [apply Ht|].
  - constructor; [done|]. apply Forall_forall. intros z [->|Hz]%insert_sorted_elem.
    + by apply Hf.
    + by eapply Forall_forall in Hy.
Qed.

Lemma sort_by_sorted {A} (le : A → A → bool) (R : A → A → Prop) l :
  (∀ a b, le a b = true → R a b) → (∀ a b, le a b = false → R b a) → Transitive R →
  StronglySorted R (sort_by le l).
Proof.
  intros Ht Hf Htr. induction l as [|x l IH]; simpl; [constructor|].
  by apply insert_sorted_sorted.
Qed.

Lemma insert_sorted_perm {A} (le : A → A → bool) x l : insert_sorted le x l ≡ₚ x :: l.
Proof.
  induction l as [|y l IH]; cbn [insert_sorted]; [done|]. destruct (le x y); [done|].
  rewrite IH. apply Permutation_swap.
Qed.
Lemma sort_by_perm {A} (le : A → A → bool) l : sort_by le l ≡ₚ l.
Proof.
  unfold sort_by. induction l as [|x l IH]; cbn [foldr]; [done|]. by rewrite insert_sorted_perm, IH.
Qed.

Definition starts_le (a b : Span) : Prop := (sp_start a ≤ sp_start b)%nat.

Lemma spans_sorted l : StronglySorted starts_le (sort_by span_le l).
Proof.
  apply sort_by_sorted.
  - intros a b [H|[H _]%andb_true_iff]%orb_true_iff; apply bool_decide_eq_true in H;
      unfold starts_le; lia.
  - intros a b [H1 H2]%orb_false_iff. apply bool_decide_eq_false in H1. unfold starts_le. lia.
  - intros a b c. unfold starts_le. lia.
Qed.

(** A range that a copied piece of the output may overlap with no span. *)
Definition clear_of (a b : nat) (sp : Span) : Prop := (sp_end sp ≤ a)%nat ∨ (b ≤ sp_start sp)%nat.

Lemma splice_text len cursor cur spans a b :
  StronglySorted starts_le (cur :: spans) → (cursor ≤ sp_start cur)%nat →
  Forall (λ sp, sp_start sp ≤ sp_end sp)%nat (cur :: spans) →
  PText a b ∈ splice len cursor cur spans →
  (cursor ≤ a)%nat ∧ Forall (clear_of a b) (cur :: spans).
Proof.
  revert cursor cur. induction spans as [|sp spans IH]; intros cursor cur Hs Hc Hw Hin;
    cbn [splice] in Hin; apply StronglySorted_inv in Hs as [Hs Hcur];
    apply Forall_cons in Hw as [Hwc Hw].
  - rewrite <-app_assoc in Hin. apply elem_of_app in Hin as [Hin|Hin].
    + case_decide; [|by apply elem_of_nil in Hin]. apply list_elem_of_singleton in Hin.
      simplify_eq. split; [done|]. apply Forall_singleton. by right.
    + simpl in Hin. apply elem_of_cons in Hin as [|Hin]; [done|].
      apply list_elem_of_singleton in Hin. simplify_eq. split; [lia|].
      apply Forall_singleton. by left.
  - pose proof Hs as Hs'. apply StronglySorted_inv in Hs' as [Hss Hsp].
    apply Forall_cons in Hcur as [Hcs Hcur]. apply Forall_cons in Hw as [Hwsp Hw].
    unfold starts_le in Hcs. case_decide as Hov.
    + apply IH in Hin as [Ha Hcl].
      * split; [done|]. apply Forall_cons in Hcl as [Hm Hcl].
        unfold clear_of in Hm. simpl in Hm. constructor; [|constructor; [|done]];
          unfold clear_of; lia.
      * constructor; done.
      * done.
      * constructor; [simpl; lia|done].
    + apply elem_of_app in Hin as [Hin|Hin].
      * apply elem_of_app in Hin as [Hin|Hin]; [|by apply list_elem_of_singleton in Hin].
        destruct (decide (cursor < sp_start cur)%nat); [|by apply elem_of_nil in Hin].
        apply list_elem_of_singleton in Hin. simplify_eq. split; [done|].
        constructor; [by right|]. constructor; [right; lia|].
        eapply Forall_impl; [exact Hcur|]. intros z Hz. right. unfold starts_le in Hz. lia.
      * apply IH in Hin as [Ha Hcl]; [|done|lia|by constructor].
        split; [lia|]. constructor; [|done]. left. lia.
Qed.

Lemma find_spans_wf fuel v text label from :
  Forall (λ sp, sp_start sp ≤ sp_end sp)%nat (find_spans fuel v text label from).
Proof.
  revert from. induction fuel as [|fuel IH]; intros from; cbn [find_spans]; [constructor|].
  destruct (find_sub v (drop from text)); [|constructor]. constructor; [simpl; lia|apply IH].
Qed.

Lemma collect_spans_wf r text :
  Forall (λ sp, sp_start sp ≤ sp_end sp)%nat (sort_by span_le (collect_spans r text)).
Proof.
  apply Forall_forall. intros sp Hsp%sort_by_elem. unfold collect_spans in Hsp.
  apply list_elem_of_bind in Hsp as ((label & v) & Hsp & _).
  destruct (is_utf8 v && _); [|by apply elem_of_nil in Hsp].
  pose proof (find_spans_wf (S (length text)) v text label 0) as Hw.
  rewrite Forall_forall in Hw. auto.
Qed.

(** A copied range of the output overlaps no span. *)
Lemma redact_pieces_clear r text a b :
  PText a b ∈ redact_pieces r text → Forall (clear_of a b) (collect_spans r text).
Proof.
  intros Hin. unfold redact_pieces in Hin. pose proof (spans_sorted (collect_spans r text)) as Hs.
  pose proof (collect_spans_wf r text) as Hw.
  apply Forall_forall. intros sp Hsp. apply (sort_by_elem span_le) in Hsp.
  destruct (sort_by span_le (collect_spans r text)) as [|cur spans]; [by apply elem_of_nil in Hsp|].
  apply splice_text in Hin as [_ Hcl]; [|done|lia|done]. by eapply Forall_forall in Hcl.
Qed.

(** No copied range contains a registered secret. *)
Lemma copied_no_secret r text a b label v :
  PText a b ∈ redact_pieces r text → (label, v) ∈ needles r → is_utf8 v = true → v ≠ [] →
  contains (piece_text text (PText a b)) v = false.
Proof.
  intros Hin Hn Hutf Hne. pose proof (redact_pieces_clear r text a b Hin) as Hcl.
  apply not_true_is_false. intros Hc. apply contains_occurs in Hc as [p Hp]; [|done].
  assert (occurs v text (a + p) ∧ a + p + length v ≤ b)%nat as [Ho Hb].
  { pose proof (occurs_bound _ _ _ Hne Hp) as Hlen. unfold occurs in Hp |- *.
    cbn [piece_text] in *. rewrite length_take, length_drop in Hlen.
    rewrite skipn_firstn_comm, firstn_firstn, drop_drop in Hp.
    rewrite Nat.min_l in Hp by lia. split; [done|].
    assert (0 < length v)%nat by (destruct v; [done|simpl; lia]). lia. }
  destruct (find_spans_cover (S (length text)) v text label 0 (a + p) Hne Ho)
    as (sp & Hsp & H1 & H2); [lia|lia|].
  assert (sp ∈ collect_spans r text) as Hin'.
  { apply list_elem_of_bind. exists (label, v). rewrite Hutf, bool_decide_false by done. done. }
  eapply Forall_forall in Hcl as [H|H]; [| |exact Hin']; lia.
Qed.

(** A text without secrets is returned as it is. *)
Lemma redact_clean r text : would_leak r text = false → redact r text = text.
Proof.
  intros Hl. assert (collect_spans r text = []) as Hnil.
  { destruct (collect_spans r text) as [|sp sps] eqn:E; [done|]. exfalso.
    assert (sp ∈ collect_spans r text) as Hin by (rewrite E; by left).
    apply list_elem_of_bind in Hin as ((label & v) & Hin & Hn).
    destruct (is_utf8 v && negb (bool_decide (v = []))) eqn:Hu; [|by apply elem_of_nil in Hin].
    cbn [find_spans] in Hin. rewrite drop_0 in Hin.
    destruct (find_sub v text) eqn:Ef; [|by apply elem_of_nil in Hin].
    apply not_true_iff_false in Hl. apply Hl. unfold would_leak. rewrite existsb_exists.
    exists (label, v). split; [by apply list_elem_of_In|]. simpl. rewrite Hu. simpl.
    unfold contains. rewrite Ef. done. }
  unfold redact, redact_pieces. rewrite Hnil. simpl.
  by rewrite app_nil_r, Nat.sub_0_r, drop_0, firstn_all.
Qed.

(** ** The output as a tiling of the text *)

(** A piece of the output and the range of the text it stands for: a copy, or the marker of a
    label. *)
Definition Tile := (nat * nat * option bytes)%type.
Definition tile_text (text : bytes) (t : Tile) : bytes :=
  match t with
  | (a, b, None) => take (b - a) (drop a text)
  | (_, _, Some label) => redaction_marker label
  end.
(** The ranges follow each other without a gap, from here to there. *)
Fixpoint tiles (from : nat) (ts : list Tile) (to : nat) : Prop :=
  match ts with
  | [] => from = to
  | (a, b, _) :: ts' => a = from ∧ (a ≤ b)%nat ∧ tiles b ts' to
  end.
(** [a, b) is a union of spans, and the first one that starts at [a] gives the label. *)
Definition masked (S : list Span) (a b : nat) (label : bytes) : Prop :=
  (∃ sp, sp ∈ S ∧ sp_start sp = a ∧ (sp_end sp ≤ b)%nat ∧ sp_label sp = label) ∧
  ∀ p, (a ≤ p < b)%nat → ∃ sp, sp ∈ S ∧ (a ≤ sp_start sp ≤ p)%nat ∧ (p < sp_end sp ≤ b)%nat.

Lemma masked_span (S : list Span) sp : sp ∈ S → masked S (sp_start sp) (sp_end sp) (sp_label sp).
Proof. intros H. split; [by exists sp|]. intros p Hp. exists sp. split; [done|lia]. Qed.
Lemma masked_absorb (S : list Span) a b label sp :
  masked S a b label → sp ∈ S → (a ≤ sp_start sp ≤ b)%nat → masked S a (Nat.max b (sp_end sp)) label.
Proof.
  intros [(s0 & ? & ? & ? & ?) Hc] Hin Hsp. split; [exists s0; split_and!; try done; lia|].
  intros p Hp. destruct (decide (p < b)%nat) as [Hlt|Hge].
  - destruct (Hc p) as (s1 & ? & ? & ?); [lia|]. exists s1. split; [done|lia].
  - exists sp. split; [done|lia].
Qed.

Lemma splice_tiles (S : list Span) text len cursor cur spans :
  StronglySorted starts_le (cur :: spans) → (cursor ≤ sp_start cur)%nat →
  Forall (λ sp, sp_start sp ≤ sp_end sp ≤ len)%nat (cur :: spans) →
  masked S (sp_start cur) (sp_end cur) (sp_label cur) → Forall (λ sp, sp ∈ S) spans →
  ∃ ts, tiles cursor ts len ∧
    splice len cursor cur spans ≫= piece_text text = ts ≫= tile_text text ∧
    (∀ a b, (a, b, None) ∈ ts → PText a b ∈ splice len cursor cur spans) ∧
    ∀ a b label, (a, b, Some label) ∈ ts → masked S a b label.
Proof.
  revert cursor cur. induction spans as [|sp spans IH]; intros cursor cur Hs Hc Hw Hm Hin;
    cbn [splice]; apply StronglySorted_inv in Hs as [Hs Hcur]; apply Forall_cons in Hw as [Hwc Hw].
  all: set (gap := if decide (cursor < sp_start cur)%nat then [(cursor, sp_start cur, None : option bytes)] else []).
  all: assert (∀ ts, tiles (sp_start cur) ts len → tiles cursor (gap ++ ts) len) as Hgap
    by (intros ts Ht; unfold gap; case_decide; [done|]; by replace cursor with (sp_start cur) by lia).
  - exists (gap ++ [(sp_start cur, sp_end cur, Some (sp_label cur)); (sp_end cur, len, None)]).
    split; [apply Hgap; cbn; lia|]. rewrite <-app_assoc, !bind_app. split.
    { f_equal; [unfold gap; by case_decide|]. cbn. by rewrite ?app_nil_r. }
    split; intros a b; unfold gap; case_decide; set_solver.
  - apply Forall_cons in Hcur as [Hcs Hcur], Hin as [Hsp Hin]. pose proof Hw as Hw'. apply Forall_cons in Hw' as [Hwsp Hws].
    pose proof Hs as Hs'. apply StronglySorted_inv in Hs' as [Hss _]. unfold starts_le in Hcs. case_decide as Hov.
    + apply IH; try done; [by constructor|constructor; [simpl; lia|done]|]. by apply masked_absorb.
    + destruct (IH (sp_end cur) sp) as (ts & Ht & Htext & H1 & H2); try done; [lia|by apply masked_span|].
      exists (gap ++ (sp_start cur, sp_end cur, Some (sp_label cur)) :: ts).
      split; [apply Hgap; cbn; split; [done|split; [lia|done]]|].
      rewrite <-app_assoc, !bind_app, Htext. split.
      { f_equal; [unfold gap; by case_decide|]. cbn. by rewrite ?app_nil_r. }
      split; intros a b; unfold gap; case_decide; set_solver.
Qed.

(** Every span is an occurrence of a usable secret. *)
Lemma find_spans_occurs fuel v text label from sp :
  sp ∈ find_spans fuel v text label from →
  sp_label sp = label ∧ occurs v text (sp_start sp) ∧ sp_end sp = (sp_start sp + length v)%nat.
Proof.
  revert from. induction fuel as [|fuel IH]; intros from; cbn [find_spans]; [by intros ?%elem_of_nil|].
  destruct (find_sub v (drop from text)) as [pos|] eqn:E; [|by intros ?%elem_of_nil].
  intros [->|Hin]%elem_of_cons; [|by apply (IH _ Hin)]. cbn [sp_label sp_start sp_end].
  apply find_sub_Some in E as [Ho _]. unfold occurs in *. by rewrite drop_drop in Ho.
Qed.
Definition usable (r : Redactor) (label v : bytes) : Prop := (label, v) ∈ needles r ∧ is_utf8 v = true ∧ v ≠ [].
Lemma collect_spans_occurs r text sp :
  sp ∈ collect_spans r text →
  ∃ v, usable r (sp_label sp) v ∧ occurs v text (sp_start sp) ∧ sp_end sp = (sp_start sp + length v)%nat.
Proof.
  intros Hsp. unfold collect_spans in Hsp. apply list_elem_of_bind in Hsp as ((label & v) & Hsp & Hn).
  destruct (is_utf8 v) eqn:Hu; [|by apply elem_of_nil in Hsp]. cbn [andb] in Hsp.
  case_bool_decide as Hne; [by apply elem_of_nil in Hsp|]. cbn [negb] in Hsp.
  apply find_spans_occurs in Hsp as (<- & ? & ?). by exists v.
Qed.

Lemma redact_tiles r text :
  ∃ ts, tiles 0 ts (length text) ∧ redact r text = ts ≫= tile_text text ∧
    (∀ a b, (a, b, None) ∈ ts → PText a b ∈ redact_pieces r text) ∧
    ∀ a b label, (a, b, Some label) ∈ ts → masked (collect_spans r text) a b label.
Proof.
  unfold redact, redact_pieces. pose proof (spans_sorted (collect_spans r text)) as Hs.
  assert (∀ sp, sp ∈ sort_by span_le (collect_spans r text) → sp ∈ collect_spans r text) as Hin
    by (intros sp; apply sort_by_elem).
  assert (Forall (λ sp, sp_start sp ≤ sp_end sp ≤ length text)%nat (sort_by span_le (collect_spans r text))) as Hw.
  { apply Forall_forall. intros sp Hsp%Hin. destruct (collect_spans_occurs _ _ _ Hsp) as (v & (_ & _ & Hne) & Ho & ->).
    apply occurs_bound in Ho; [lia|done]. }
  destruct (sort_by span_le (collect_spans r text)) as [|sp spans].
  - exists [(0%nat, length text, None)]. split; [cbn; split_and!; [done|lia|done]|]. split; [done|].
    split; intros; set_solver.
  - apply splice_tiles; try done; [lia|apply masked_span, Hin; by left|].
    apply Forall_forall. intros sp' ?. apply Hin. by right.
Qed.

(** ** Theorems *)

(** C17: Redaction is sound and exact. The output is a tiling of the whole text, from its first byte to
    its last, in order and without a gap: each tile is a range that is copied as it is, and that
    contains no registered (valid, non-empty) secret however the secrets overlap, or the marker of a
    range of which each byte belongs to an occurrence of such a secret inside that range, the label
    being that of a secret that occurs at its start. A text that contains none of them is returned
    unchanged. *)
Theorem redact_sound r text :
  (∃ ts, tiles 0 ts (length text) ∧ redact r text = ts ≫= tile_text text ∧
    ∀ a b o, (a, b, o) ∈ ts →
      match o with
      | None => would_leak r (take (b - a) (drop a text)) = false
      | Some label =>
          (∃ v, usable r label v ∧ occurs v text a ∧ (a + length v ≤ b)%nat) ∧
          ∀ p, (a ≤ p < b)%nat → ∃ label' v q,
            usable r label' v ∧ occurs v text q ∧ (a ≤ q ≤ p)%nat ∧ (p < q + length v ≤ b)%nat
      end) ∧
  (would_leak r text = false → redact r text = text).
Proof.
  split; [|apply redact_clean].
  destruct (redact_tiles r text) as (ts & Ht & Htext & Hcopy & Hmask). exists ts. split_and!; [done..|].
  intros a b [label|] Hin.
  - destruct (Hmask _ _ _ Hin) as [(sp & Hsp & <- & He & <-) Hc]. split.
    + destruct (collect_spans_occurs _ _ _ Hsp) as (v & ? & ? & ?). exists v. split_and!; try done; lia.
    + intros p Hp. destruct (Hc p Hp) as (sp' & Hsp' & ? & ?).
      destruct (collect_spans_occurs _ _ _ Hsp') as (v & ? & ? & ?). exists (sp_label sp'), v, (sp_start sp'). split_and!; try done; lia.
  - apply Hcopy in Hin. apply not_true_is_false. unfold would_leak. rewrite existsb_exists.
    intros ((label & v) & Hn%list_elem_of_In & Hv). cbn [snd] in Hv.
    apply andb_true_iff in Hv as [[Hu Hne]%andb_true_iff Hc].
    apply negb_true_iff, bool_decide_eq_false in Hne.
    pose proof (copied_no_secret r text a b label v Hin Hn Hu Hne) as Hno. cbn [piece_text] in Hno. congruence.
Qed.

(** Two limits of the redaction, on concrete inputs. Occurrences of one secret that
    overlap each other are searched from the end of the previous match, so the tail of the
    second occurrence stays in clear; and the text around a marker can spell another
    registered secret that the input did not contain. *)
Theorem redact_limits :
  redact (register Redactor_new (lit "k") (lit "abab")) (lit "ababab") = lit "[REDACTED:k]ab" ∧
  let r := register (register Redactor_new (lit "k") (lit "abc")) (lit "m") (lit "]d") in
  would_leak r (redact r (lit "abcd")) = true ∧ contains (lit "abcd") (lit "]d") = false.
Proof. vm_compute. repeat split. Qed.
