(* ===== verification/Types.v ===== *)
(** * The shared primitive types (crate [crustcore-types])

    Identifiers and time ([ids.rs], [time.rs]), the status enums and
    reversibility ([status.rs]), task budgets ([budget.rs])
    and domain allowlists ([refs.rs]).

    The Rust newtypes [TaskId(u128)], [JobId(u128)], [ApprovalId(u128)],
    [ToolCallId(u128)], [EventSeq(u64)], [LeaseOwner(u64)], [ScopeId(u64)] and
    [Timestamp(u64)] are erased: an identifier is its integer. *)

From S2P Require Import Prelude.

Abbreviation TaskId := Z (only parsing).
Abbreviation JobId := Z (only parsing).
Abbreviation ApprovalId := Z (only parsing).
Abbreviation ToolCallId := Z (only parsing).
Abbreviation EventSeq := Z (only parsing).
Abbreviation LeaseOwner := Z (only parsing).
Abbreviation ScopeId := Z (only parsing).
Abbreviation Timestamp := Z (only parsing).

(** ** Identifiers and time *)

Definition EventSeq_FIRST : EventSeq := 0.
Definition Timestamp_EPOCH : Timestamp := 0.

(** [EventSeq::next_saturating]. *)
Definition next_saturating (s : EventSeq) : EventSeq := saturating_add u64_MAX s 1.

(** [EventSeq::next]: the addition of a debug build, which panics ([None]) at
    [u64::MAX]. *)
Definition next (s : EventSeq) : option EventSeq :=
  if decide (s + 1 ≤ u64_MAX) then Some (s + 1) else None.

(** ** Status enums *)

Inductive TaskStatus :=
| TCreated | TQueued | TPlanning | TRunning | TAwaitingApproval | TBlocked | TRetrying
| TIntegrating | TAwaitingUserReview | TCompleted | TFailed | TKilled | TArchived.

Inductive JobStatus :=
| JQueued | JLeased | JRunning | JHeartbeatMissing | JRetrying | JCompleted | JFailed
| JKilled | JExpired.

Inductive ApprovalStatus := APending | AApproved | ADenied | AExpired.

Inductive ApprovalResolution := Approve | Deny.

Inductive Reversibility := Reversible | ReversibleWithCleanup | Irreversible | Destructive.

#[export] Instance TaskStatus_eq_dec : EqDecision TaskStatus.
Proof. solve_decision. Defined.
#[export] Instance JobStatus_eq_dec : EqDecision JobStatus.
Proof. solve_decision. Defined.
#[export] Instance ApprovalStatus_eq_dec : EqDecision ApprovalStatus.
Proof. solve_decision. Defined.
#[export] Instance ApprovalResolution_eq_dec : EqDecision ApprovalResolution.
Proof. solve_decision. Defined.
#[export] Instance Reversibility_eq_dec : EqDecision Reversibility.
Proof. solve_decision. Defined.

(** [ApprovalStatus::is_resolved]. *)
Definition is_resolved (s : ApprovalStatus) : bool :=
  match s with AApproved | ADenied | AExpired => true | APending => false end.

(** [TaskStatus::is_terminal]. *)
Definition task_is_terminal (s : TaskStatus) : bool :=
  match s with TCompleted | TFailed | TKilled | TArchived => true | _ => false end.

(** [JobStatus::is_terminal]. *)
Definition job_is_terminal (s : JobStatus) : bool :=
  match s with JCompleted | JFailed | JKilled | JExpired => true | _ => false end.

(** [Reversibility::requires_approval]. *)
Definition requires_approval (r : Reversibility) : bool :=
  match r with Irreversible | Destructive => true | _ => false end.

(** ** Budgets *)

Inductive BudgetAxis :=
| WallMillis | CpuMillis | MemoryBytes | DiskBytes | OutputBytes | Tokens
| ModelCostMicros | SubagentCount.

#[export] Instance BudgetAxis_eq_dec : EqDecision BudgetAxis.
Proof. solve_decision. Defined.

Definition BUDGET_AXIS_COUNT : nat := 8.

(** [BudgetAxis::ALL]. *)
Definition BudgetAxis_ALL : list BudgetAxis :=
  [WallMillis; CpuMillis; MemoryBytes; DiskBytes; OutputBytes; Tokens; ModelCostMicros;
   SubagentCount].

(** [BudgetAxis::index], the enum discriminant; a [fin] because it indexes the
    fixed-size arrays below. *)
Definition axis_index (a : BudgetAxis) : fin BUDGET_AXIS_COUNT :=
  match a with
  | WallMillis => 0 | CpuMillis => 1 | MemoryBytes => 2 | DiskBytes => 3
  | OutputBytes => 4 | Tokens => 5 | ModelCostMicros => 6 | SubagentCount => 7
  end%fin.

Record Meter := mkMeter { used : Z; limit : Z }.

#[export] Instance Meter_eq_dec : EqDecision Meter.
Proof. solve_decision. Defined.

(** [Meter::UNLIMITED], [Meter::with_limit], [Meter::within], [Meter::add]. *)
Definition Meter_UNLIMITED : Meter := mkMeter 0 u64_MAX.
Definition Meter_with_limit (l : Z) : Meter := mkMeter 0 l.
Definition within (m : Meter) : bool := used m <=? limit m.
Definition Meter_add (m : Meter) (delta : Z) : Meter :=
  mkMeter (saturating_add u64_MAX (used m) delta) (limit m).

(** [BudgetDelta], its [none], [with], [of], [amount] and [is_zero]. *)
Record BudgetDelta := mkBudgetDelta { amounts : vec Z BUDGET_AXIS_COUNT }.
Definition BudgetDelta_none : BudgetDelta := mkBudgetDelta (vreplicate _ 0).
Definition amount (d : BudgetDelta) (a : BudgetAxis) : Z := amounts d !!! axis_index a.
Definition BudgetDelta_with (d : BudgetDelta) (a : BudgetAxis) (x : Z) : BudgetDelta :=
  mkBudgetDelta (vinsert (axis_index a) (saturating_add u64_MAX (amount d a) x) (amounts d)).
Definition BudgetDelta_of (a : BudgetAxis) (x : Z) : BudgetDelta :=
  BudgetDelta_with BudgetDelta_none a x.
Definition is_zero (d : BudgetDelta) : bool :=
  forallb (λ x, x =? 0) (vec_to_list (amounts d)).

Inductive BudgetCheck := WithinBudget | Exhausted (a : BudgetAxis).

#[export] Instance BudgetCheck_eq_dec : EqDecision BudgetCheck.
Proof. solve_decision. Defined.

(** [BudgetCheck::is_exhausted], [BudgetCheck::exhausted_axis]. *)
Definition is_exhausted (c : BudgetCheck) : bool :=
  match c with Exhausted _ => true | WithinBudget => false end.
Definition exhausted_axis (c : BudgetCheck) : option BudgetAxis :=
  match c with Exhausted a => Some a | WithinBudget => None end.

Record Budget := mkBudget { meters : vec Meter BUDGET_AXIS_COUNT }.

(** [Budget::standard_task]. *)
Definition standard_task : Budget :=
  mkBudget
    [# Meter_with_limit 3600000; Meter_with_limit 3600000; Meter_with_limit 4294967296;
       Meter_with_limit 2147483648; Meter_with_limit 268435456; Meter_with_limit 1000000;
       Meter_with_limit 100000000; Meter_with_limit 8].

(** [Budget::unlimited]. *)
Definition unlimited : Budget := mkBudget (vreplicate _ Meter_UNLIMITED).

(** [Budget::is_fully_bounded]. *)
Definition is_fully_bounded (b : Budget) : bool :=
  forallb (λ m, negb (limit m =? u64_MAX)) (vec_to_list (meters b)).

(** [Budget::meter]. *)
Definition meter (b : Budget) (a : BudgetAxis) : Meter := meters b !!! axis_index a.

Definition set_meter (b : Budget) (a : BudgetAxis) (m : Meter) : Budget :=
  mkBudget (vinsert (axis_index a) m (meters b)).

(** [Budget::with_limit]. *)
Definition Budget_with_limit (b : Budget) (a : BudgetAxis) (l : Z) : Budget :=
  set_meter b a (mkMeter (used (meter b a)) l).

(** [Budget::check]: the loop over [ALL] with its early return. *)
Fixpoint check_axes (b : Budget) (axes : list BudgetAxis) : BudgetCheck :=
  match axes with
  | [] => WithinBudget
  | a :: axes' => if within (meter b a) then check_axes b axes' else Exhausted a
  end.
Definition check (b : Budget) : BudgetCheck := check_axes b BudgetAxis_ALL.

(** [Budget::record]: fold the delta into every axis, then [check]. *)
Definition record (b : Budget) (d : BudgetDelta) : Budget * BudgetCheck :=
  let b' :=
    fold_left (λ b a, set_meter b a (Meter_add (meter b a) (amount d a))) BudgetAxis_ALL b in
  (b', check b').

(** ** Domain allowlists ([refs.rs]) *)

Record DomainAllowlist := mkDomainAllowlist { domains : list string }.
Definition deny_all : DomainAllowlist := mkDomainAllowlist [].
Definition from_domains (ds : list string) : DomainAllowlist := mkDomainAllowlist ds.

(** [DomainAllowlist::allows]. *)
Definition allows (al : DomainAllowlist) (domain : string) : bool :=
  existsb (λ d, bool_decide (d = domain) || bool_decide (d = "*"%string)) (domains al).

(** [DomainAllowlist::is_deny_all]. *)
Definition is_deny_all (al : DomainAllowlist) : bool := bool_decide (domains al = []).

(** ** Lemmas on budgets *)

(** A budget the Rust types allow: every counter and limit is a [u64]. *)
Definition budget_wf (b : Budget) : Prop :=
  ∀ a, 0 ≤ used (meter b a) ≤ u64_MAX ∧ 0 ≤ limit (meter b a) ≤ u64_MAX.
Definition delta_wf (d : BudgetDelta) : Prop := ∀ a, 0 ≤ amount d a ≤ u64_MAX.

Lemma axis_index_inj a b : axis_index a = axis_index b → a = b.
Proof. destruct a, b; (done || discriminate). Qed.

Lemma elem_of_BudgetAxis_ALL a : a ∈ BudgetAxis_ALL.
Proof. destruct a; unfold BudgetAxis_ALL; set_solver. Qed.

Lemma NoDup_BudgetAxis_ALL : NoDup BudgetAxis_ALL.
Proof. apply (bool_decide_eq_true _). reflexivity. Qed.

Lemma meter_set_meter_eq b a m : meter (set_meter b a m) a = m.
Proof. apply vlookup_insert. Qed.

Lemma meter_set_meter_ne b a a' m : a ≠ a' → meter (set_meter b a m) a' = meter b a'.
Proof. intros Hne. apply vlookup_insert_ne. by intros ?%axis_index_inj. Qed.

Lemma budget_ext b b' : (∀ a, meter b a = meter b' a) → b = b'.
Proof.
  intros H. destruct b as [v], b' as [v']. f_equal. apply vec_eq. intros i.
  assert (∃ a, i = axis_index a) as [a ->]; [|apply (H a)].
  inv_fin i; [by exists WallMillis|]; intros i.
  inv_fin i; [by exists CpuMillis|]; intros i.
  inv_fin i; [by exists MemoryBytes|]; intros i.
  inv_fin i; [by exists DiskBytes|]; intros i.
  inv_fin i; [by exists OutputBytes|]; intros i.
  inv_fin i; [by exists Tokens|]; intros i.
  inv_fin i; [by exists ModelCostMicros|]; intros i.
  inv_fin i; [by exists SubagentCount|]; intros i. inv_fin i.
Qed.

(** The fold of [record] over any duplicate-free list of axes adds the delta on
    exactly those axes. *)
Lemma record_fold_meter d axes b a :
  NoDup axes →
  meter (fold_left (λ b a, set_meter b a (Meter_add (meter b a) (amount d a))) axes b) a
  = if decide (a ∈ axes) then Meter_add (meter b a) (amount d a) else meter b a.
Proof.
  revert b. induction axes as [|x axes IH]; intros b Hnd; simpl.
  - done.
  - apply NoDup_cons in Hnd as [Hx Hnd]. rewrite IH by done.
    destruct (decide (x = a)) as [->|Hne].
    + rewrite meter_set_meter_eq.
      repeat case_decide; (done || set_solver).
    + rewrite meter_set_meter_ne by done.
      repeat case_decide; (done || set_solver).
Qed.

(** [record] adds the delta, saturating, on every axis and touches no limit. *)
Lemma record_meter b d a :
  meter (record b d).1 a = Meter_add (meter b a) (amount d a).
Proof.
  cbv [record fst]. rewrite record_fold_meter by apply NoDup_BudgetAxis_ALL.
  by rewrite decide_True by apply elem_of_BudgetAxis_ALL.
Qed.

Lemma record_limit b d a : limit (meter (record b d).1 a) = limit (meter b a).
Proof. by rewrite record_meter. Qed.

Lemma check_axes_within b axes :
  check_axes b axes = WithinBudget ↔ ∀ a, a ∈ axes → within (meter b a) = true.
Proof.
  induction axes as [|x axes IH]; simpl; [set_solver|].
  destruct (within (meter b x)) eqn:E.
  - rewrite IH. split; [|set_solver]. intros H a [->|Ha]%elem_of_cons; [done|auto].
  - split; [done|]. intros H. rewrite H in E; [done|set_solver].
Qed.

Lemma check_within b : check b = WithinBudget ↔ ∀ a, within (meter b a) = true.
Proof.
  unfold check. rewrite check_axes_within.
  split; intros H a; [apply H, elem_of_BudgetAxis_ALL|intros _; apply H].
Qed.

Lemma check_axes_exhausted b axes a :
  check_axes b axes = Exhausted a →
  ∃ pre suf, axes = pre ++ a :: suf ∧ within (meter b a) = false ∧
    ∀ x, x ∈ pre → within (meter b x) = true.
Proof.
  induction axes as [|x axes IH]; simpl; [done|].
  destruct (within (meter b x)) eqn:E; intros H.
  - destruct (IH H) as (pre & suf & -> & Hw & Hpre). exists (x :: pre), suf.
    split; [done|]. split; [done|]. intros y [->|Hy]%elem_of_cons; [done|auto].
  - injection H as ->. exists [], axes. split; [done|]. split; [done|]. set_solver.
Qed.

Lemma is_fully_bounded_spec b :
  is_fully_bounded b = true ↔ ∀ a, limit (meter b a) ≠ u64_MAX.
Proof.
  unfold is_fully_bounded. rewrite forallb_forall. split.
  - intros H a Heq. specialize (H (meter b a)).
    rewrite Heq, Z.eqb_refl in H. discriminate H.
    apply list_elem_of_In, elem_of_vlookup. by exists (axis_index a).
  - intros H m Hm%list_elem_of_In. apply elem_of_vlookup in Hm as [i <-].
    apply negb_true_iff, Z.eqb_neq. revert i.
    assert (∀ i, ∃ a, i = axis_index a) as Hsurj.
    { intros i. exists (nth (fin_to_nat i) BudgetAxis_ALL WallMillis).
      repeat (inv_fin i; [done|]; intros i). inv_fin i. }
    intros i. destruct (Hsurj i) as [a ->]. apply H.
Qed.

Lemma record_fully_bounded b d :
  is_fully_bounded b = true → is_fully_bounded (record b d).1 = true.
Proof.
  rewrite !is_fully_bounded_spec. intros H a. by rewrite record_limit.
Qed.

Lemma record_wf b d : budget_wf b → delta_wf d → budget_wf (record b d).1.
Proof.
  intros Hb Hd a. rewrite record_meter. unfold Meter_add, saturating_add; simpl.
  specialize (Hb a); specialize (Hd a). lia.
Qed.

#[export] Hint Resolve record_fully_bounded record_wf : crust.

Lemma within_spec m : within m = true ↔ used m ≤ limit m.
Proof. apply Z.leb_le. Qed.

Lemma not_within_spec m : within m = false ↔ limit m < used m.
Proof. apply Z.leb_gt. Qed.

(** Recording can only push an axis further over its limit. *)
Lemma record_over b d a :
  budget_wf b → delta_wf d → within (meter b a) = false → within (meter (record b d).1 a) = false.
Proof.
  rewrite !not_within_spec, record_meter. intros Hb Hd. specialize (Hb a). specialize (Hd a).
  unfold Meter_add, saturating_add; cbn. lia.
Qed.

(** [Budget::record] on every axis: the amount is added, saturating at [u64::MAX], and no
    limit moves; the check names the first axis over its limit in the order of the axes, and
    passes exactly when there is none. Exhaustion latches: whatever is recorded afterwards,
    the budget stays exhausted. *)
Theorem budget_record_exact (b : Budget) (d : BudgetDelta) :
  budget_wf b → delta_wf d →
  let '(b', c) := record b d in
  (∀ a, used (meter b' a) = Z.min u64_MAX (used (meter b a) + amount d a) ∧
        limit (meter b' a) = limit (meter b a)) ∧
  match c with
  | WithinBudget => ∀ a, used (meter b' a) ≤ limit (meter b' a)
  | Exhausted a =>
      (∃ pre suf, BudgetAxis_ALL = pre ++ a :: suf ∧ limit (meter b' a) < used (meter b' a) ∧
         ∀ x, x ∈ pre → used (meter b' x) ≤ limit (meter b' x)) ∧
      ∀ d', delta_wf d' → is_exhausted (record b' d').2 = true
  end.
Proof.
  intros Hb Hd. pose proof (record_wf b d Hb Hd) as Hwf. pose proof (record_meter b d) as Hm.
  unfold record at 1. set (b' := (record b d).1) in *. fold (record b d). change (fold_left _ _ b) with b'.
  split; [intros a; by rewrite Hm|].
  destruct (check b') as [|a] eqn:Hc.
  - intros a. by apply within_spec, check_within.
  - apply check_axes_exhausted in Hc as (pre & suf & Hall & Ha & Hpre). split.
    + exists pre, suf. split_and!; [done|by apply not_within_spec|].
      intros x Hx. by apply within_spec, Hpre.
    + intros d' Hd'. unfold record. cbn [snd]. change (fold_left _ _ b') with (record b' d').1.
      destruct (check (record b' d').1) eqn:E; [|done].
      rewrite check_within in E. specialize (E a). by rewrite record_over in E.
Qed.

Lemma budget_record_exact_witness :
  let d := BudgetDelta_of Tokens 1000001 in
  (record standard_task d).2 = Exhausted Tokens ∧
  is_exhausted (record (record standard_task d).1 BudgetDelta_none).2 = true.
Proof.
  refine (conj _ _); [vm_compute; reflexivity|].
  apply (budget_record_exact standard_task (BudgetDelta_of Tokens 1000001)).
  - intros []; vm_compute; split; split; congruence.
  - intros []; vm_compute; split; congruence.
  - intros []; vm_compute; split; congruence.
Defined.
