(* ===== verification/Path.v ===== *)
(** * Worktree-confined paths (crate [crustcore-path])

    [path/src/lib.rs]: the resolver that mints [ConfinedReadPath] and
    [ConfinedWritePath]. What it uses of the standard library is modelled: a
    [Path] is the list of components a Unix [Path::components] yields, the file
    system is a map from canonical locations to inodes with a working
    directory, and [canonicalize] and [symlink_metadata] walk it, following at
    most [MAX_SYMLINKS] links. A canonical path is its list of names. Trailing
    separators and permissions are not modelled. *)

From S2P Require Import Prelude.

(** ** Paths *)

Inductive Component := RootDir | CurDir | ParentDir | Normal (name : bytes).

#[export] Instance Component_eq_dec : EqDecision Component.
Proof. solve_decision. Defined.

Definition SLASH : Z := 47.
Definition DOT : Z := 46.

(** The segments between separators. *)
Fixpoint split_slash (s : bytes) : list bytes :=
  match s with
  | [] => [[]]
  | c :: s' =>
      if c =? SLASH then [] :: split_slash s'
      else match split_slash s' with
           | seg :: segs => (c :: seg) :: segs
           | [] => [[c]]
           end
  end.

(** Empty segments and [.] are dropped, except a leading [.] of a relative path. *)
Definition segment (seg : bytes) : list Component :=
  if bool_decide (seg = []) || bool_decide (seg = [DOT]) then []
  else if bool_decide (seg = [DOT; DOT]) then [ParentDir] else [Normal seg].

(** [Path::components]. *)
Definition components (s : bytes) : list Component :=
  match split_slash s with
  | [] :: segs => (match segs with [] => [] | _ => [RootDir] end) ++ (segs ≫= segment)
  | seg :: segs =>
      (if bool_decide (seg = [DOT]) then [CurDir] else segment seg) ++ (segs ≫= segment)
  | [] => []
  end.

(** [Path::parent] of a path that has one, and [Path::join]. *)
Definition parent (p : list Component) : option (list Component) :=
  match last p with
  | None | Some RootDir => None
  | Some _ => Some (removelast p)
  end.
Definition join (p q : list Component) : list Component :=
  match q with RootDir :: _ => q | _ => p ++ q end.

(** ** The file system *)

Inductive Inode := Dir | File | Symlink (target : bytes).
Inductive IoError := NotFound | NotADirectory | FilesystemLoop.

Record Fs := mkFs { inodes : gmap (list bytes) Inode; cwd : list bytes }.

Definition MAX_SYMLINKS : nat := 40.

Definition names (loc : list bytes) : list Component := Normal <$> loc.
Definition abs_path (loc : list bytes) : list Component := RootDir :: names loc.

(** Resolve components from a location; a link restarts with one less link allowed. *)
Fixpoint walk (fs : Fs) (links : nat) : list bytes → list Component → result IoError (list bytes) :=
  fix go (cur : list bytes) (cs : list Component) :=
    match cs with
    | [] => Ok cur
    | RootDir :: cs' => go [] cs'
    | c :: cs' =>
        match inodes fs !! cur with
        | None => Err NotFound
        | Some File | Some (Symlink _) => Err NotADirectory
        | Some Dir =>
            match c with
            | ParentDir => go (removelast cur) cs'
            | Normal n =>
                match inodes fs !! (cur ++ [n]) with
                | None => Err NotFound
                | Some (Symlink t) =>
                    match links with
                    | O => Err FilesystemLoop
                    | S links' => walk fs links' cur (components t ++ cs')
                    end
                | Some _ => go (cur ++ [n]) cs'
                end
            | _ => go cur cs'
            end
        end
    end.

(** [Path::canonicalize]. *)
Definition canonicalize (fs : Fs) (p : list Component) : result IoError (list bytes) :=
  match p with [] => Err NotFound | _ => walk fs MAX_SYMLINKS (cwd fs) p end.

(** [Path::is_dir], of a canonical path. *)
Definition is_dir (fs : Fs) (loc : list bytes) : bool :=
  match inodes fs !! loc with Some Dir => true | _ => false end.

(** [std::fs::symlink_metadata]: the last component is not followed. *)
Definition symlink_metadata (fs : Fs) (p : list Component) : result IoError Inode :=
  match last p with
  | Some (Normal n) =>
      dir ← walk fs MAX_SYMLINKS (cwd fs) (removelast p);
      if is_dir fs dir then ok_or (inodes fs !! (dir ++ [n])) NotFound else Err NotADirectory
  | _ => loc ← canonicalize fs p; ok_or (inodes fs !! loc) NotFound
  end.

(** ** The resolver *)

Inductive IoReason := Os (e : IoError) | NoExistingAncestor | RootNotADirectory.

Inductive PathError :=
| NullByte
| AbsoluteNotAllowed
| Escape
| SymlinkEscape
| Io (r : IoReason).

Record WorktreeRoot := mkRoot { root_path : list Component }.
Record ConfinedReadPath := mkRead { cr_root : WorktreeRoot; cr_relative : list Component }.
Record ConfinedWritePath := mkWrite { cw_root : WorktreeRoot; cw_relative : list Component }.

(** The loop of [normalize_relative], with the names pushed so far. *)
Fixpoint normalize_loop (out : list bytes) (cs : list Component) : result PathError (list bytes) :=
  match cs with
  | [] => Ok out
  | RootDir :: _ => Err AbsoluteNotAllowed
  | CurDir :: cs' => normalize_loop out cs'
  | ParentDir :: cs' =>
      match out with [] => Err Escape | _ => normalize_loop (removelast out) cs' end
  | Normal c :: cs' => normalize_loop (out ++ [c]) cs'
  end.

(** [normalize_relative]. *)
Definition normalize_relative (rel : bytes) : result PathError (list Component) :=
  if bool_decide (0 ∈ rel) then Err NullByte
  else out ← normalize_loop [] (components rel); Ok (names out).

(** [deepest_existing_canonical]: the loop over the parents, on the reversed components. *)
Fixpoint deepest_rev (fs : Fs) (rcur : list Component) : result PathError (list bytes) :=
  match canonicalize fs (rev rcur) with
  | Ok canon => Ok canon
  | Err NotFound =>
      match rcur with
      | [] | RootDir :: _ => Err (Io NoExistingAncestor)
      | _ :: rparent =>
          match rparent with [] => Err (Io NoExistingAncestor) | _ => deepest_rev fs rparent end
      end
  | Err e => Err (Io (Os e))
  end.
Definition deepest_existing_canonical (fs : Fs) (target : list Component)
    : result PathError (list bytes) := deepest_rev fs (rev target).

(** [assert_under_root]. *)
Definition assert_under_root (fs : Fs) (root_canonical : list bytes) (target : list Component)
    : result PathError unit :=
  canon ← deepest_existing_canonical fs target;
  if bool_decide (root_canonical `prefix_of` canon) then Ok tt else Err SymlinkEscape.

(** [WorktreeRoot::open], [WorktreeRoot::canonical]. *)
Definition open_root (fs : Fs) (p : list Component) : result PathError WorktreeRoot :=
  canon ← map_err (λ e, Io (Os e)) (canonicalize fs p);
  if is_dir fs canon then Ok (mkRoot (abs_path canon)) else Err (Io RootNotADirectory).
Definition canonical (fs : Fs) (r : WorktreeRoot) : result PathError (list bytes) :=
  map_err (λ e, Io (Os e)) (canonicalize fs (root_path r)).

(** [WorktreeRoot::confine_read]. *)
Definition confine_read (fs : Fs) (r : WorktreeRoot) (rel : bytes)
    : result PathError ConfinedReadPath :=
  relative ← normalize_relative rel;
  root_canonical ← canonical fs r;
  let target := join (abs_path root_canonical) relative in
  _ ← assert_under_root fs root_canonical target;
  Ok (mkRead r relative).

(** [WorktreeRoot::confine_write]. *)
Definition confine_write (fs : Fs) (r : WorktreeRoot) (rel : bytes)
    : result PathError ConfinedWritePath :=
  relative ← normalize_relative rel;
  if bool_decide (relative = []) then Err Escape else
  root_canonical ← canonical fs r;
  let target := join (abs_path root_canonical) relative in
  _ ← match symlink_metadata fs target with
      | Ok (Symlink _) => Err SymlinkEscape
      | _ => Ok tt
      end;
  par ← ok_or (parent target) Escape;
  _ ← assert_under_root fs root_canonical par;
  Ok (mkWrite r relative).

(** [to_path]. *)
Definition read_to_path (p : ConfinedReadPath) : list Component :=
  join (root_path (cr_root p)) (cr_relative p).
Definition write_to_path (p : ConfinedWritePath) : list Component :=
  join (root_path (cw_root p)) (cw_relative p).

(** ** Lemmas on components *)

Definition good_name (n : bytes) : Prop :=
  n ≠ [] ∧ n ≠ [DOT] ∧ n ≠ [DOT; DOT] ∧ SLASH ∉ n.

Lemma split_slash_no_slash s seg : seg ∈ split_slash s → SLASH ∉ seg.
Proof.
  revert seg. induction s as [|c s IH]; intros seg; cbn [split_slash].
  - intros ->%list_elem_of_singleton. apply not_elem_of_nil.
  - destruct (Z.eqb_spec c SLASH) as [->|Hc].
    + intros [->|H]%elem_of_cons; [apply not_elem_of_nil|by apply IH].
    + destruct (split_slash s) as [|sg sgs].
      * intros ->%list_elem_of_singleton. by rewrite list_elem_of_singleton.
      * intros [->|H]%elem_of_cons; [|by apply IH; constructor].
        apply not_elem_of_cons. split; [done|]. apply IH. constructor.
Qed.

Lemma split_slash_head s seg segs :
  split_slash s = [] :: seg :: segs → ∃ r, s = SLASH :: r.
Proof.
  destruct s as [|c s]; cbn; [done|]. destruct (Z.eqb_spec c SLASH) as [->|Hc]; [by eexists|].
  by destruct (split_slash s).
Qed.

(** A segment is dropped, a parent, or a good name. *)
Lemma segment_cases seg :
  SLASH ∉ seg → segment seg = [] ∨ segment seg = [ParentDir] ∨ (segment seg = [Normal seg] ∧ good_name seg).
Proof.
  unfold segment, good_name. intros Hs. repeat case_bool_decide; cbn; naive_solver.
Qed.

Lemma segment_elem seg c :
  SLASH ∉ seg → c ∈ segment seg → c = ParentDir ∨ ∃ n, c = Normal n ∧ good_name n.
Proof.
  intros Hs. destruct (segment_cases seg Hs) as [->|[->|[-> Hg]]].
  - by intros ?%not_elem_of_nil.
  - intros ->%list_elem_of_singleton. by left.
  - intros ->%list_elem_of_singleton. right. by eexists.
Qed.

(** Past its first component a path holds only parents and good names; no component is a
    bad name. *)
Lemma components_shape s :
  ∃ hd tl, components s = hd ++ tl ∧ (hd = [] ∨ (hd = [RootDir] ∧ ∃ r, s = SLASH :: r) ∨ hd = [CurDir]) ∧
    ∀ c, c ∈ tl → c = ParentDir ∨ ∃ n, c = Normal n ∧ good_name n.
Proof.
  unfold components. pose proof (split_slash_no_slash s) as Hs. pose proof (split_slash_head s) as Hh.
  assert (Hb : ∀ segs c, (∀ sg, sg ∈ segs → SLASH ∉ sg) → c ∈ segs ≫= segment →
    c = ParentDir ∨ ∃ n, c = Normal n ∧ good_name n).
  { intros segs c Hsegs (sg & Hsg & Hin)%list_elem_of_bind. by eapply segment_elem; eauto. }
  destruct (split_slash s) as [|[|c seg] segs].
  - exists [], []. split_and!; [done|by left|]. by intros c ?%not_elem_of_nil.
  - exists (match segs with [] => [] | _ => [RootDir] end), (segs ≫= segment).
    split_and!; [done|destruct segs; naive_solver|]. intros c. apply Hb. intros sg Hsg. apply Hs.
    by constructor.
  - case_bool_decide.
    + exists [CurDir], (segs ≫= segment). split_and!; [done|auto|].
      intros c'. apply Hb. intros sg Hsg. apply Hs. by constructor.
    + exists [], (((c :: seg) :: segs) ≫= segment). split_and!; [done|auto|].
      intros c'. apply Hb. intros sg Hsg. by apply Hs.
Qed.

(** Names pushed less parents popped. *)
Definition depth (cs : list Component) : Z :=
  foldr (λ c z, z + match c with Normal _ => 1 | ParentDir => -1 | _ => 0 end) 0 cs.

(** The loop fails exactly when some prefix climbs above the start. *)
Lemma normalize_loop_spec out cs :
  RootDir ∉ cs →
  match normalize_loop out cs with
  | Ok out' => Z.of_nat (length out') = Z.of_nat (length out) + depth cs ∧
      (∀ n, n ∈ out' → n ∈ out ∨ Normal n ∈ cs) ∧
      ∀ pre suf, cs = pre ++ suf → 0 ≤ Z.of_nat (length out) + depth pre
  | Err e => e = Escape ∧ ∃ pre suf, cs = pre ++ suf ∧ Z.of_nat (length out) + depth pre < 0
  end.
Proof.
  revert out. induction cs as [|c cs IH]; intros out Hr; cbn [normalize_loop depth foldr].
  { split_and!; [lia|auto|]. intros pre suf H. destruct pre; cbn; [lia|done]. }
  apply not_elem_of_cons in Hr as [Hc Hr].
  assert (Hgen : ∀ out1 dz,
    dz = match c with Normal _ => 1 | ParentDir => -1 | _ => 0 end →
    Z.of_nat (length out1) = Z.of_nat (length out) + dz →
    (∀ n, n ∈ out1 → n ∈ out ∨ c = Normal n) →
    match normalize_loop out1 cs with
    | Ok out' => Z.of_nat (length out') = Z.of_nat (length out) + (depth cs + dz) ∧
        (∀ n, n ∈ out' → n ∈ out ∨ Normal n ∈ c :: cs) ∧
        ∀ pre suf, c :: cs = pre ++ suf → 0 ≤ Z.of_nat (length out) + depth pre
    | Err e => e = Escape ∧ ∃ pre suf, c :: cs = pre ++ suf ∧ Z.of_nat (length out) + depth pre < 0
    end).
  { intros out1 dz Hdz Hlen Hin. specialize (IH out1 Hr).
    destruct (normalize_loop out1 cs) as [out'|e].
    - destruct IH as (Hl & Ho & Hp). split_and!; [lia| |].
      + intros n [H|H]%Ho; [|right; by constructor]. apply Hin in H as [H| ->]; [by left|].
        right. constructor.
      + intros [|c' pre] suf H; cbn; [lia|]. simplify_eq/=. specialize (Hp _ _ eq_refl).
        fold (depth pre). lia.
    - destruct IH as (-> & pre & suf & -> & Hp). split; [done|]. exists (c :: pre), suf.
      split; [done|]. cbn. fold (depth pre). lia. }
  fold (depth cs). destruct c as [| | |n]; [done|..].
  - by apply Hgen; [|lia|auto].
  - destruct out as [|x out].
    + split; [done|]. exists [ParentDir], cs. split; [done|]. cbn. lia.
    + apply Hgen; [done| |].
      * rewrite removelast_firstn_len, length_take. cbn [length]. lia.
      * intros n Hn. left. rewrite removelast_firstn_len in Hn. by apply subseteq_take in Hn.
  - apply Hgen; [done| |].
    + rewrite length_app. cbn. lia.
    + intros m [H| ->%list_elem_of_singleton]%elem_of_app; auto.
Qed.

(** Normalization agrees with the file system wherever no link is followed. *)
Lemma normalize_loop_walk fs base out cs out' loc :
  RootDir ∉ cs → normalize_loop out cs = Ok out' → walk fs 0 (base ++ out) cs = Ok loc →
  loc = base ++ out'.
Proof.
  revert out. induction cs as [|c cs IH]; intros out Hr Hn Hw; [by simplify_eq/=|].
  apply not_elem_of_cons in Hr as [Hc Hr].
  destruct c as [| | |n]; [done|..]; cbn in Hn, Hw; destruct (inodes fs !! (base ++ out)) as [[]|];
    try done; fold (walk fs 0) in Hw.
  - by eapply IH.
  - destruct out as [|x out]; [done|]. eapply IH; [done..|].
    by rewrite removelast_app in Hw.
  - destruct (inodes fs !! ((base ++ out) ++ [n])) as [[]|]; try done;
      rewrite <- app_assoc in Hw; by eapply IH.
Qed.

Lemma components_slash r : ∃ tl, components (SLASH :: r) = RootDir :: tl.
Proof.
  unfold components. cbn. assert (Hne : split_slash r ≠ []).
  { destruct r as [|c r]; cbn; [done|]. case_match; [done|]. by destruct (split_slash r). }
  destruct (split_slash r); [done|]. by eexists.
Qed.

(** Every path is absolute or free of the root component, past a leading [.]. *)
Lemma components_cases s :
  (∃ r tl, s = SLASH :: r ∧ components s = RootDir :: tl) ∨
  ((∀ r, s ≠ SLASH :: r) ∧ (RootDir ∉ components s) ∧ ∀ n, Normal n ∈ components s → good_name n).
Proof.
  destruct (components_shape s) as (hd & tl & Hc & Hhd & Htl).
  assert (Hin : ∀ c, c ∈ tl → c ≠ RootDir ∧ ∀ n, c = Normal n → good_name n).
  { intros c Hc'. destruct (Htl c Hc') as [->|(n & -> & Hn)]; naive_solver. }
  destruct Hhd as [->|[[-> [r ->]]| ->]]; [|left; by eexists _, _|];
    (right; split_and!; [intros r ->; destruct (components_slash r) as [tl' E]; rewrite E in Hc|..]).
  - cbn in Hc. subst tl. destruct (Hin RootDir); [constructor|done].
  - rewrite Hc. cbn. intros Hr. by destruct (Hin RootDir Hr).
  - intros n. rewrite Hc. cbn. intros Hn. by apply (Hin (Normal n) Hn).
  - done.
  - rewrite Hc. cbn. intros [?|Hr]%elem_of_cons; [done|]. by destruct (Hin RootDir Hr).
  - intros n. rewrite Hc. cbn. intros [?|Hn]%elem_of_cons; [done|]. by apply (Hin (Normal n) Hn).
Qed.

(** [normalize_relative] on every input. It accepts exactly the relative paths without NUL
    bytes none of whose prefixes climbs above the root; the result is made of proper names
    only (non-empty, no separator, neither [.] nor [..]), as many as the path descends, and
    is where the file system resolves the path from any directory when no link is
    followed. Each error is returned exactly for its own reason. *)
Theorem normalize_relative_exact (rel : bytes) :
  match normalize_relative rel with
  | Ok norm => (0 ∉ rel) ∧ (∀ r, rel ≠ SLASH :: r) ∧
      (∀ pre suf, components rel = pre ++ suf → 0 ≤ depth pre) ∧
      Z.of_nat (length norm) = depth (components rel) ∧
      (∀ c, c ∈ norm → ∃ n, c = Normal n ∧ good_name n) ∧
      (∀ fs dir loc, walk fs 0 dir (components rel) = Ok loc → names loc = names dir ++ norm)
  | Err NullByte => 0 ∈ rel
  | Err AbsoluteNotAllowed => (0 ∉ rel) ∧ ∃ r, rel = SLASH :: r
  | Err Escape => (0 ∉ rel) ∧ ∃ pre suf, components rel = pre ++ suf ∧ depth pre < 0
  | Err _ => False
  end.
Proof.
  unfold normalize_relative. case_bool_decide as H0; [done|].
  destruct (components_cases rel) as [(r & tl & -> & ->)|(Hs & Hr & Hg)]; [cbn; by eauto|].
  pose proof (normalize_loop_spec [] (components rel) Hr) as H.
  destruct (normalize_loop [] (components rel)) as [out|e] eqn:E; cbn.
  - destruct H as (Hl & Hin & Hp). split_and!; [done..| | |].
    + unfold names. rewrite length_fmap. done.
    + intros c (n & -> & Hn)%list_elem_of_fmap. exists n. split; [done|].
      apply Hin in Hn as [?%not_elem_of_nil|Hn]; [done|by apply Hg].
    + intros fs dir loc Hw. unfold names. rewrite <- fmap_app. f_equal.
      eapply normalize_loop_walk; [done..|]. by rewrite app_nil_r.
  - destruct H as (-> & H). done.
Qed.

(** ** Lemmas on resolution *)

#[local] Opaque MAX_SYMLINKS.

(** A location the file system resolves to itself: real directories up to an inode that is
    not a link. *)
Definition real (fs : Fs) (loc : list bytes) : Prop :=
  (∀ pre n suf, loc = pre ++ n :: suf → inodes fs !! pre = Some Dir) ∧
  (loc = [] ∨ ∃ x, inodes fs !! loc = Some x ∧ ∀ t, x ≠ Symlink t).

Section Walk.
Context (fs : Fs).

Lemma walk_cons k cur c cs :
  walk fs k cur (c :: cs) =
  match c with
  | RootDir => walk fs k [] cs
  | _ => match inodes fs !! cur with
         | None => Err NotFound
         | Some File | Some (Symlink _) => Err NotADirectory
         | Some Dir =>
             match c with
             | ParentDir => walk fs k (removelast cur) cs
             | Normal n =>
                 match inodes fs !! (cur ++ [n]) with
                 | None => Err NotFound
                 | Some (Symlink t) =>
                     match k with
                     | O => Err FilesystemLoop
                     | S k' => walk fs k' cur (components t ++ cs)
                     end
                 | Some _ => walk fs k (cur ++ [n]) cs
                 end
             | _ => walk fs k cur cs
             end
         end
  end.
Proof. destruct k, c; reflexivity. Qed.

Lemma walk_nil k cur : walk fs k cur [] = Ok cur.
Proof. by destruct k. Qed.

(** A walk splits: the first part fails, or the second starts where it ends with the links left
    over. *)
Lemma walk_app_eq k cur a b :
  (∃ e, walk fs k cur a = Err e ∧ walk fs k cur (a ++ b) = Err e) ∨
  ∃ k' mid, (k' ≤ k)%nat ∧ walk fs k cur a = Ok mid ∧ walk fs k cur (a ++ b) = walk fs k' mid b.
Proof.
  revert cur a. induction k as [k IHk] using lt_wf_ind. intros cur a. revert cur.
  induction a as [|c a IH]; intros cur; [right; exists k, cur; by rewrite walk_nil|].
  cbn [app]. rewrite !walk_cons. destruct c as [| | |n]; [by apply IH|..];
    destruct (inodes fs !! cur) as [[]|]; try (by left; eexists); [by apply IH|by apply IH|].
  destruct (inodes fs !! (cur ++ [n])) as [[| |t]|]; [by apply IH|by apply IH| |by left; eexists].
  destruct k as [|k]; [by left; eexists|]. rewrite app_assoc.
  destruct (IHk k ltac:(lia) cur (components t ++ a)) as [?|(k' & mid & ? & ? & ?)]; [by left|].
  right. exists k', mid. split; [lia|done].
Qed.

(** A successful walk splits, with the links left over for the second part. *)
Lemma walk_app k cur a b loc :
  walk fs k cur (a ++ b) = Ok loc →
  ∃ k' mid, (k' ≤ k)%nat ∧ walk fs k cur a = Ok mid ∧ walk fs k' mid b = Ok loc.
Proof.
  intros H. destruct (walk_app_eq k cur a b) as [(e & _ & He)|(k' & mid & ? & ? & He)]; [congruence|].
  exists k', mid. by rewrite <-He.
Qed.

Lemma walk_mono k k' cur cs loc :
  (k ≤ k')%nat → walk fs k cur cs = Ok loc → walk fs k' cur cs = Ok loc.
Proof.
  revert k' cur cs. induction k as [k IHk] using lt_wf_ind. intros k' cur cs Hle. revert cur.
  induction cs as [|c cs IH]; intros cur; [by rewrite !walk_nil|].
  rewrite !walk_cons. destruct c as [| | |n]; [by apply IH|..];
    destruct (inodes fs !! cur) as [[]|]; try done; [by apply IH..|].
  destruct (inodes fs !! (cur ++ [n])) as [[| |t]|]; [by apply IH|by apply IH| |done].
  destruct k as [|k]; [done|]. destruct k' as [|k']; [lia|]. apply IHk; lia.
Qed.

Lemma real_nil : real fs [].
Proof. split; [|by left]. intros pre n suf H. by destruct pre. Qed.

Lemma real_removelast loc : real fs loc → real fs (removelast loc).
Proof.
  destruct loc as [|n loc _] using rev_ind; [done|]. rewrite removelast_last. intros [Hp _].
  split.
  - intros pre m suf ->. apply (Hp pre m (suf ++ [n])). by rewrite <- app_assoc.
  - right. exists Dir. split; [by eapply Hp|done].
Qed.

Lemma real_snoc loc n x :
  real fs loc → inodes fs !! loc = Some Dir → inodes fs !! (loc ++ [n]) = Some x →
  (∀ t, x ≠ Symlink t) → real fs (loc ++ [n]).
Proof.
  intros [Hp _] Hd Hx Hl. split; [|right; by eauto].
  intros pre m suf H. destruct suf as [|y suf _] using rev_ind.
  - by apply app_inj_tail in H as [-> _].
  - rewrite app_comm_cons, app_assoc in H. apply app_inj_tail in H as [-> _]. by eapply Hp.
Qed.

(** Resolution ends in a real location. *)
Lemma walk_real k cur cs loc : real fs cur → walk fs k cur cs = Ok loc → real fs loc.
Proof.
  revert cur cs. induction k as [k IHk] using lt_wf_ind. intros cur cs. revert cur.
  induction cs as [|c cs IH]; intros cur Hr; [rewrite walk_nil; intros; by simplify_eq|].
  rewrite walk_cons. destruct c as [| | |n]; [apply IH, real_nil|..];
    destruct (inodes fs !! cur) as [[]|] eqn:Hd; try done; [by apply IH|by apply IH, real_removelast|].
  destruct (inodes fs !! (cur ++ [n])) as [[| |t]|] eqn:Hx; [| | |done].
  - by eapply IH, real_snoc.
  - by eapply IH, real_snoc.
  - destruct k as [|k]; [done|]. by apply IHk; [lia|].
Qed.

(** A real location, spelled out from the root, resolves to itself without following links. *)
Lemma walk_abs k loc cs : real fs loc → walk fs k [] (names loc ++ cs) = walk fs k loc cs.
Proof.
  intros [Hp Hx]. cut (∀ suf pre, loc = pre ++ suf → walk fs k pre (names suf ++ cs) = walk fs k loc cs).
  { intros H. by apply (H loc []). }
  induction suf as [|n suf IH]; intros pre Hl; [by rewrite app_nil_r in Hl; subst|].
  cbn [names fmap list_fmap app]. rewrite walk_cons, (Hp _ _ _ Hl).
  assert (Hn : ∃ x, inodes fs !! (pre ++ [n]) = Some x ∧ ∀ t, x ≠ Symlink t).
  { rewrite cons_middle, app_assoc in Hl. destruct suf as [|m suf].
    - rewrite app_nil_r in Hl. subst. destruct Hx as [Hx|Hx]; [|done]. by destruct pre.
    - exists Dir. split; [by eapply Hp|done]. }
  destruct Hn as ([| |t] & -> & Hn); [| |by destruct (Hn t)];
    (apply IH; by rewrite <- app_assoc).
Qed.

Lemma canonicalize_walk p loc : canonicalize fs p = Ok loc → walk fs MAX_SYMLINKS (cwd fs) p = Ok loc.
Proof. destruct p; [discriminate|exact id]. Qed.

Lemma deepest_existing p loc : canonicalize fs p = Ok loc → deepest_existing_canonical fs p = Ok loc.
Proof.
  unfold deepest_existing_canonical. intros H.
  destruct (rev p) eqn:E; cbn [deepest_rev]; rewrite <- E, rev_involutive, H; done.
Qed.

(** A path under a root resolves as the same path under the root's canonical path. *)
Lemma resolve_under_root rp rc rel loc :
  real fs (cwd fs) → canonicalize fs rp = Ok rc → canonicalize fs (rp ++ rel) = Ok loc →
  canonicalize fs (abs_path rc ++ rel) = Ok loc.
Proof.
  intros Hcwd Hrc%canonicalize_walk (k' & mid & Hk & Ha & Hb)%canonicalize_walk%walk_app.
  rewrite Hrc in Ha. simplify_eq.
  unfold canonicalize, abs_path. cbn [app]. rewrite walk_cons, walk_abs by by eapply walk_real.
  by eapply walk_mono.
Qed.

Lemma assert_under_root_sound rc target loc :
  assert_under_root fs rc target = Ok tt → canonicalize fs target = Ok loc → rc `prefix_of` loc.
Proof.
  unfold assert_under_root. intros H Hl. rewrite (deepest_existing _ _ Hl) in H. cbn in H.
  by case_bool_decide.
Qed.

End Walk.

Lemma normalize_relative_names rel norm :
  normalize_relative rel = Ok norm → ∃ l, norm = names l.
Proof.
  unfold normalize_relative. case_bool_decide; [done|].
  destruct (normalize_loop _ _); cbn; [|done]. intros. simplify_eq. by eexists.
Qed.

Lemma join_names p l : join p (names l) = p ++ names l.
Proof. by destruct l. Qed.

Lemma canonical_Ok fs r rc : canonical fs r = Ok rc → canonicalize fs (root_path r) = Ok rc.
Proof. unfold canonical. destruct (canonicalize fs (root_path r)); cbn; intros; by simplify_eq. Qed.

(** The last component and the parent of a path that ends in a name. *)
Lemma snoc_names p l n :
  last (p ++ names (l ++ [n])) = Some (Normal n) ∧
  removelast (p ++ names (l ++ [n])) = p ++ names l ∧
  parent (p ++ names (l ++ [n])) = Some (p ++ names l).
Proof.
  unfold parent, names. rewrite fmap_app, app_assoc. cbn [fmap list_fmap].
  by rewrite last_snoc, removelast_last.
Qed.

Lemma symlink_metadata_link fs p l n dir :
  canonicalize fs (p ++ names l) = Ok dir → inodes fs !! dir = Some Dir →
  symlink_metadata fs (p ++ names (l ++ [n])) = ok_or (inodes fs !! (dir ++ [n])) NotFound.
Proof.
  intros Hd%canonicalize_walk Hdir. unfold symlink_metadata.
  destruct (snoc_names p l n) as (-> & -> & _). rewrite Hd. cbn. unfold is_dir. by rewrite Hdir.
Qed.

(** a confined read path stays in the worktree. Whatever links the file system holds,
    if the path [confine_read] returns resolves at all, it resolves to a location under the
    canonical root, spelled with the given root or with the canonical one. *)
Theorem confine_read_sound fs r rel p loc :
  real fs (cwd fs) → confine_read fs r rel = Ok p → canonicalize fs (read_to_path p) = Ok loc →
  ∃ rc, canonicalize fs (root_path r) = Ok rc ∧ rc `prefix_of` loc ∧
    canonicalize fs (abs_path rc ++ cr_relative p) = Ok loc.
Proof.
  intros Hcwd H Hl. unfold confine_read in H.
  destruct (normalize_relative rel) as [norm|] eqn:Hn; [|done]. cbn in H.
  destruct (normalize_relative_names _ _ Hn) as [l ->].
  destruct (canonical fs r) as [rc|] eqn:Hc; [|done]. cbn [mbind result_bind] in H.
  destruct (assert_under_root fs rc _) as [[]|] eqn:Ha; [|done]. cbn in H. simplify_eq.
  unfold read_to_path in Hl. cbn in Hl. rewrite join_names in Hl, Ha. apply canonical_Ok in Hc.
  pose proof (resolve_under_root fs _ _ _ _ Hcwd Hc Hl) as Hr.
  exists rc. split_and!; [done| |done]. by eapply assert_under_root_sound.
Qed.

(** What a confined write path passed: its last component is no link under the canonical root, and
    its parent does not leave it. *)
Lemma confine_write_Ok fs r rel p :
  confine_write fs r rel = Ok p →
  ∃ rc l n, canonicalize fs (root_path r) = Ok rc ∧ p = mkWrite r (names (l ++ [n])) ∧
    (∀ t, symlink_metadata fs (abs_path rc ++ names (l ++ [n])) ≠ Ok (Symlink t)) ∧
    assert_under_root fs rc (abs_path rc ++ names l) = Ok tt.
Proof.
  intros H. unfold confine_write in H.
  destruct (normalize_relative rel) as [norm|] eqn:Hn; [|done]. cbn [mbind result_bind] in H.
  destruct (normalize_relative_names _ _ Hn) as [l0 ->]. case_bool_decide as Hne; [done|].
  destruct (canonical fs r) as [rc|] eqn:Hc; [|done]. cbn [mbind result_bind] in H.
  apply canonical_Ok in Hc. rewrite join_names in H.
  destruct l0 as [|n l _] using rev_ind; [done|].
  destruct (snoc_names (abs_path rc) l n) as (_ & _ & Hpar). rewrite Hpar in H. cbn [ok_or] in H.
  assert (Hm : ∀ t, symlink_metadata fs (abs_path rc ++ names (l ++ [n])) ≠ Ok (Symlink t))
    by (intros t E; rewrite E in H; discriminate H).
  assert (Ha : (_ ← assert_under_root fs rc (abs_path rc ++ names l);
                Ok (mkWrite r (names (l ++ [n])))) = Ok p)
    by (destruct (symlink_metadata fs _) as [[]|]; first [exact H|discriminate H]).
  destruct (assert_under_root fs rc _) as [[]|] eqn:Hu; [|discriminate Ha]. injection Ha as <-.
  by exists rc, l, n.
Qed.

(** C12: a confined write path stays in the worktree and is not written through a link. When
    the parent directory of the path [confine_write] returns resolves to [dir], then [dir] is
    under the canonical root, and the last component is a name that is no link in [dir]: an
    open or create acts on that name inside the worktree. *)
Theorem confine_write_sound fs r rel p par dir :
  real fs (cwd fs) → confine_write fs r rel = Ok p →
  parent (write_to_path p) = Some par → canonicalize fs par = Ok dir →
  ∃ rc l n, canonicalize fs (root_path r) = Ok rc ∧ cw_relative p = names (l ++ [n]) ∧
    par = root_path r ++ names l ∧ rc `prefix_of` dir ∧
    (inodes fs !! dir = Some Dir → ∀ t, inodes fs !! (dir ++ [n]) ≠ Some (Symlink t)).
Proof.
  intros Hcwd (rc & l & n & Hc & -> & Hm & Hu)%confine_write_Ok Hp Hl.
  unfold write_to_path in Hp. cbn [cw_root cw_relative] in Hp. rewrite join_names in Hp.
  destruct (snoc_names (root_path r) l n) as (_ & _ & Hpar'). simplify_eq.
  pose proof (resolve_under_root fs _ _ _ _ Hcwd Hc Hl) as Hr.
  exists rc, l, n. split_and!; [done..|by eapply assert_under_root_sound|].
  intros Hd t Ht. apply (Hm t). erewrite symlink_metadata_link by done. by rewrite Ht.
Qed.

(** ** Examples *)

#[local] Transparent MAX_SYMLINKS.

(** A worktree at [/w] with a directory, a file, a link within and a link out, and another
    directory outside. *)
Definition demo_fs : Fs := mkFs
  (list_to_map
     [([], Dir); ([lit "w"], Dir); ([lit "w"; lit "src"], Dir); ([lit "w"; lit "src"; lit "a.rs"], File);
      ([lit "w"; lit "in"], Symlink (lit "src")); ([lit "w"; lit "out"], Symlink (lit "../etc"));
      ([lit "w"; lit "gone"], Symlink (lit "/etc/new"));
      ([lit "etc"], Dir); ([lit "etc"; lit "passwd"], File)])
  [lit "w"].
Definition demo_root : WorktreeRoot := mkRoot (components (lit "/w")).

Example demo_read_in :
  confine_read demo_fs demo_root (lit "src/../in/./a.rs")
  = Ok (mkRead demo_root (names [lit "in"; lit "a.rs"])).
Proof. vm_compute. reflexivity. Qed.
Example demo_read_out : confine_read demo_fs demo_root (lit "out/passwd") = Err SymlinkEscape.
Proof. vm_compute. reflexivity. Qed.
Example demo_write_link : confine_write demo_fs demo_root (lit "in") = Err SymlinkEscape.
Proof. vm_compute. reflexivity. Qed.
Example demo_errors :
  normalize_relative (lit "a/../../b") = Err Escape ∧ normalize_relative (lit "/a") = Err AbsoluteNotAllowed ∧
  normalize_relative [97; 0] = Err NullByte.
Proof. vm_compute. done. Qed.

Lemma demo_cwd_real : real demo_fs (cwd demo_fs).
Proof.
  split.
  - intros pre n suf H. destruct pre as [|? [|]]; vm_compute in H |- *; [done|discriminate..].
  - right. exists Dir. split; [vm_compute; reflexivity|done].
Qed.

Lemma confine_read_sound_witness :
  canonicalize demo_fs (names [lit "in"; lit "a.rs"]) = Ok [lit "w"; lit "src"; lit "a.rs"] ∧
  ∃ rc, canonicalize demo_fs (root_path demo_root) = Ok rc ∧
    rc `prefix_of` [lit "w"; lit "src"; lit "a.rs"].
Proof.
  refine (conj _ _); [vm_compute; reflexivity|].
  destruct (confine_read_sound demo_fs demo_root (lit "src/../in/./a.rs")
    (mkRead demo_root (names [lit "in"; lit "a.rs"])) [lit "w"; lit "src"; lit "a.rs"])
    as (rc & H1 & H2 & _); [exact demo_cwd_real|vm_compute; reflexivity..|].
  exists rc. exact (conj H1 H2).
Defined.

Lemma confine_write_sound_witness :
  ∃ rc l n, canonicalize demo_fs (root_path demo_root) = Ok rc ∧
    names [lit "in"; lit "b.rs"] = names (l ++ [n]) ∧ rc `prefix_of` [lit "w"; lit "src"].
Proof.
  destruct (confine_write_sound demo_fs demo_root (lit "in/b.rs")
    (mkWrite demo_root (names [lit "in"; lit "b.rs"])) (components (lit "/w/in"))
    [lit "w"; lit "src"]) as (rc & l & n & H1 & H2 & _ & H3 & _);
    [exact demo_cwd_real|vm_compute; reflexivity..|].
  exists rc, l, n. exact (conj H1 (conj H2 H3)).
Defined.

(** A link whose target does not exist yet is walked past, not checked: both resolvers accept
    a path through it, and once the target exists the same confined paths resolve outside the
    worktree. *)
Theorem confine_dangling_link :
  let later := mkFs (<[[lit "etc"; lit "new"] := Dir]> (<[[lit "etc"; lit "new"; lit "x"] := File]>
    (inodes demo_fs))) (cwd demo_fs) in
  ∃ p q, confine_read demo_fs demo_root (lit "gone/x") = Ok p ∧
    confine_write demo_fs demo_root (lit "gone/x") = Ok q ∧
    canonicalize later (read_to_path p) = Ok [lit "etc"; lit "new"; lit "x"] ∧
    canonicalize later (write_to_path q) = Ok [lit "etc"; lit "new"; lit "x"].
Proof.
  exists (mkRead demo_root (names [lit "gone"; lit "x"])), (mkWrite demo_root (names [lit "gone"; lit "x"])).
  vm_compute. done.
Qed.
