(* ===== verification/Sha256.v ===== *)
(** * SHA-256, HMAC-SHA-256 and digest helpers (crate [crustcore-types], [hash.rs])

    The vendored hash the event log and the receipts chain with, word for word:
    the padding loop, the message schedule, the compression rounds, the keyed
    MAC, the constant-time comparison and the hex decoder. The classes [Hash]
    and [Mac] state what the log and the receipts rely on; this file's functions
    are their instances. *)

From S2P Require Import Prelude.

(** ** 32-bit words *)

Definition u32_add (x y : Z) : Z := (x + y) mod 2 ^ 32.
Definition rotate_right (x n : Z) : Z :=
  Z.lor (Z.shiftr x n) (Z.shiftl x (32 - n) mod 2 ^ 32).
Definition not_u32 (x : Z) : Z := Z.lxor x u32_MAX.

Definition H0 : list Z :=
  [0x6a09_e667; 0xbb67_ae85; 0x3c6e_f372; 0xa54f_f53a;
   0x510e_527f; 0x9b05_688c; 0x1f83_d9ab; 0x5be0_cd19].

Definition K : list Z :=
  [0x428a_2f98; 0x7137_4491; 0xb5c0_fbcf; 0xe9b5_dba5;
   0x3956_c25b; 0x59f1_11f1; 0x923f_82a4; 0xab1c_5ed5;
   0xd807_aa98; 0x1283_5b01; 0x2431_85be; 0x550c_7dc3;
   0x72be_5d74; 0x80de_b1fe; 0x9bdc_06a7; 0xc19b_f174;
   0xe49b_69c1; 0xefbe_4786; 0x0fc1_9dc6; 0x240c_a1cc;
   0x2de9_2c6f; 0x4a74_84aa; 0x5cb0_a9dc; 0x76f9_88da;
   0x983e_5152; 0xa831_c66d; 0xb003_27c8; 0xbf59_7fc7;
   0xc6e0_0bf3; 0xd5a7_9147; 0x06ca_6351; 0x1429_2967;
   0x27b7_0a85; 0x2e1b_2138; 0x4d2c_6dfc; 0x5338_0d13;
   0x650a_7354; 0x766a_0abb; 0x81c2_c92e; 0x9272_2c85;
   0xa2bf_e8a1; 0xa81a_664b; 0xc24b_8b70; 0xc76c_51a3;
   0xd192_e819; 0xd699_0624; 0xf40e_3585; 0x106a_a070;
   0x19a4_c116; 0x1e37_6c08; 0x2748_774c; 0x34b0_bcb5;
   0x391c_0cb3; 0x4ed8_aa4a; 0x5b9c_ca4f; 0x682e_6ff3;
   0x748f_82ee; 0x78a5_636f; 0x84c8_7814; 0x8cc7_0208;
   0x90be_fffa; 0xa450_6ceb; 0xbef9_a3f7; 0xc671_78f2].

Definition BLOCK : nat := 64.

(** ** SHA-256 *)

(** The loop [while msg.len() % BLOCK != 56 { msg.push(0) }]; 63 iterations are
    enough ([pad_zeros_length]). *)
Fixpoint pad_zeros (fuel : nat) (msg : bytes) : bytes :=
  if decide (length msg `mod` BLOCK = 56)%nat then msg
  else match fuel with O => msg | S fuel' => pad_zeros fuel' (msg ++ [0]) end.

(** The padded message. *)
Definition pad (data : bytes) : bytes :=
  let bit_len := (Z.of_nat (length data) * 8) mod 2 ^ 64 in
  pad_zeros 63 (data ++ [0x80]) ++ to_be_bytes 8 bit_len.

(** The message schedule of one block: the 16 words of the block, then the loop
    over [16..64]. The array is rebuilt per block; the source reuses one buffer
    and overwrites all of it. *)
Definition block_words (block : bytes) : list Z := from_be_bytes <$> chunks_exact 4 block.
Definition schedule_step (w : list Z) (i : nat) : list Z :=
  let at_ (j : Z) := nth (i - Z.to_nat j) w 0 in
  let s0 := Z.lxor (Z.lxor (rotate_right (at_ 15) 7) (rotate_right (at_ 15) 18))
              (Z.shiftr (at_ 15) 3) in
  let s1 := Z.lxor (Z.lxor (rotate_right (at_ 2) 17) (rotate_right (at_ 2) 19))
              (Z.shiftr (at_ 2) 10) in
  w ++ [u32_add (u32_add (u32_add (at_ 16) s0) (at_ 7)) s1].
Definition schedule (block : bytes) : list Z :=
  fold_left schedule_step (seq 16 48) (block_words block).

(** The working variables [a .. hh] and one round. *)
Record Regs := mkRegs
  { ra : Z; rb : Z; rc : Z; rd : Z; re : Z; rf : Z; rg : Z; rh : Z }.

Definition round (r : Regs) (kw : Z * Z) : Regs :=
  let s1 := Z.lxor (Z.lxor (rotate_right (re r) 6) (rotate_right (re r) 11))
              (rotate_right (re r) 25) in
  let ch := Z.lxor (Z.land (re r) (rf r)) (Z.land (not_u32 (re r)) (rg r)) in
  let t1 := u32_add (u32_add (u32_add (u32_add (rh r) s1) ch) kw.1) kw.2 in
  let s0 := Z.lxor (Z.lxor (rotate_right (ra r) 2) (rotate_right (ra r) 13))
              (rotate_right (ra r) 22) in
  let maj := Z.lxor (Z.lxor (Z.land (ra r) (rb r)) (Z.land (ra r) (rc r)))
               (Z.land (rb r) (rc r)) in
  let t2 := u32_add s0 maj in
  mkRegs (u32_add t1 t2) (ra r) (rb r) (rc r) (u32_add (rd r) t1) (re r) (rf r) (rg r).

Definition regs_of (h : list Z) : Regs :=
  mkRegs (nth 0 h 0) (nth 1 h 0) (nth 2 h 0) (nth 3 h 0)
         (nth 4 h 0) (nth 5 h 0) (nth 6 h 0) (nth 7 h 0).
Definition regs_list (r : Regs) : list Z := [ra r; rb r; rc r; rd r; re r; rf r; rg r; rh r].

(** The body of the loop over the blocks. *)
Definition compress (h : list Z) (block : bytes) : list Z :=
  let w := schedule block in
  zip_with u32_add h (regs_list (fold_left round (zip K w) (regs_of h))).

Definition sha256 (data : bytes) : bytes :=
  mjoin (to_be_bytes 4 <$> fold_left compress (chunks_exact BLOCK (pad data)) H0).

(** ** HMAC *)

Definition zero_pad (n : nat) (l : bytes) : bytes := l ++ replicate (n - length l) 0.

Definition hmac_sha256 (key msg : bytes) : bytes :=
  let k := zero_pad BLOCK (if decide (BLOCK < length key)%nat then sha256 key else key) in
  let ipad := zip_with Z.lxor (replicate BLOCK 0x36) k in
  let opad := zip_with Z.lxor (replicate BLOCK 0x5c) k in
  let inner_hash := sha256 (ipad ++ msg) in
  sha256 (opad ++ inner_hash).

(** ** Comparison and hex *)

(** [ct_eq]: no early return. *)
Definition ct_eq (a b : bytes) : bool :=
  fold_left (λ diff p, Z.lor diff (Z.lxor p.1 p.2)) (zip a b) 0 =? 0.

(** [hex_val]. *)
Definition hex_val (c : Z) : option Z :=
  if (48 <=? c) && (c <=? 57) then Some (c - 48)
  else if (97 <=? c) && (c <=? 102) then Some (c - 97 + 10)
  else if (65 <=? c) && (c <=? 70) then Some (c - 65 + 10)
  else None.

(** [hex32_decode], with the [?] inside the loop. *)
Definition hex_pair (pair : bytes) : option Z :=
  hi ← hex_val (nth 0 pair 0); lo ← hex_val (nth 1 pair 0);
  Some (Z.lor (Z.shiftl hi 4) lo).
Definition hex32_decode (s : bytes) : option bytes :=
  if negb (bool_decide (length s = 64%nat)) then None
  else mapM hex_pair (chunks_exact 2 s).

(** The [{b:02x}] formatting of a byte, as the callers render digests. *)
Definition hex_digit (n : Z) : Z := if n <? 10 then 48 + n else 97 + (n - 10).
Definition hex_byte (b : Z) : bytes := [hex_digit (b / 16); hex_digit (b mod 16)].
Definition hex_of (l : bytes) : bytes := l ≫= hex_byte.

(** ** What the chains rely on *)

(** A 32-byte digest of a byte string. *)
Class Hash := {
  hash : bytes → bytes;
  hash_length x : length (hash x) = 32%nat;
  hash_byte x : Forall is_byte (hash x) }.

(** A 32-byte keyed MAC of a byte string. *)
Class Mac := {
  mac : bytes → bytes → bytes;
  mac_length k x : length (mac k x) = 32%nat;
  mac_byte k x : Forall is_byte (mac k x) }.

(** ** Padding *)

(** The loop stops because its guard fails, for any start. *)
Lemma pad_zeros_stops fuel msg :
  (∃ j, j ≤ fuel ∧ (length msg + j) `mod` BLOCK = 56)%nat →
  ∃ n, pad_zeros fuel msg = msg ++ replicate n 0 ∧ ((length msg + n) `mod` BLOCK = 56)%nat.
Proof.
  revert msg. induction fuel as [|fuel IH]; intros msg (j & Hj & Hmod); simpl; case_decide as Hd.
  1,3: exists 0%nat; rewrite app_nil_r; split; [done|]; by rewrite Nat.add_0_r.
  - exfalso. apply Hd. replace j with 0%nat in Hmod by lia. by rewrite Nat.add_0_r in Hmod.
  - destruct (IH (msg ++ [0])) as (n & -> & H).
    { destruct j as [|j]; [by rewrite Nat.add_0_r in Hmod|]. exists j. split; [lia|].
      rewrite length_app. simpl. by replace (length msg + 1 + j)%nat with (length msg + S j)%nat by lia. }
    exists (S n). rewrite <-app_assoc. split; [done|]. rewrite length_app in H. simpl in H.
    by replace (length msg + S n)%nat with (length msg + 1 + n)%nat by lia.
Qed.

Lemma pad_zeros_63 msg :
  ∃ n, pad_zeros 63 msg = msg ++ replicate n 0 ∧ ((length msg + n) `mod` BLOCK = 56)%nat.
Proof.
  apply pad_zeros_stops. unfold BLOCK.
  pose proof (Nat.mod_upper_bound (length msg) 64 ltac:(lia)) as Hb.
  pose proof (Nat.Div0.div_mod (length msg) 64) as Hd.
  set (m := (length msg `mod` 64)%nat) in *. set (q := (length msg / 64)%nat) in *.
  destruct (decide (m ≤ 56)%nat).
  - exists (56 - m)%nat. split; [lia|].
    replace (length msg + (56 - m))%nat with (56 + q * 64)%nat by lia.
    by rewrite Nat.Div0.mod_add.
  - exists (120 - m)%nat. split; [lia|].
    replace (length msg + (120 - m))%nat with (56 + (q + 1) * 64)%nat by lia.
    by rewrite Nat.Div0.mod_add.
Qed.

Lemma pad_shape data :
  ∃ n, pad data = data ++ [0x80] ++ replicate n 0 ++
                  to_be_bytes 8 ((Z.of_nat (length data) * 8) mod 2 ^ 64) ∧
       (length (pad data) `mod` BLOCK = 0)%nat.
Proof.
  unfold pad. destruct (pad_zeros_63 (data ++ [0x80])) as (n & -> & Hn). exists n.
  rewrite <-!app_assoc. split; [done|].
  rewrite !length_app, length_replicate, length_to_be_bytes. rewrite length_app in Hn.
  change (length [0x80]) with 1%nat in *.
  replace (length data + (1 + (n + 8)))%nat with (length data + 1 + n + 8)%nat by lia.
  by rewrite Nat.Div0.add_mod, Hn.
Qed.

Lemma to_be_bytes_inj n v w :
  0 ≤ v < 256 ^ Z.of_nat n → 0 ≤ w < 256 ^ Z.of_nat n →
  to_be_bytes n v = to_be_bytes n w → v = w.
Proof.
  intros Hv Hw H. apply (to_le_bytes_inj n); [done..|].
  unfold to_be_bytes in H. by rewrite <-(rev_involutive (to_le_bytes n v)), H, rev_involutive.
Qed.

(** ** Lengths and bytes *)

Lemma regs_list_length r : length (regs_list r) = 8%nat.
Proof. done. Qed.

Lemma compress_length h block : length h = 8%nat → length (compress h block) = 8%nat.
Proof. intros H. unfold compress. by rewrite length_zip_with, H. Qed.

Lemma fold_compress_length blocks h :
  length h = 8%nat → length (fold_left compress blocks h) = 8%nat.
Proof.
  revert h. induction blocks as [|b bs IH]; intros h Hh; simpl; [done|].
  by apply IH, compress_length.
Qed.

Lemma mjoin_words_length (ws : list Z) :
  length (mjoin (to_be_bytes 4 <$> ws)) = (4 * length ws)%nat.
Proof.
  induction ws as [|w ws IH]; [done|]. rewrite fmap_cons, mjoin_cons, length_app, length_to_be_bytes, IH. simpl. lia.
Qed.

Lemma sha256_length x : length (sha256 x) = 32%nat.
Proof. unfold sha256. by rewrite mjoin_words_length, fold_compress_length. Qed.

Lemma sha256_byte x : Forall is_byte (sha256 x).
Proof.
  unfold sha256. generalize (fold_left compress (chunks_exact BLOCK (pad x)) H0). intros ws.
  induction ws as [|w ws IH]; [constructor|]. rewrite fmap_cons, mjoin_cons.
  apply Forall_app. split; [apply to_be_bytes_byte|done].
Qed.

#[export] Instance Sha256_Hash : Hash :=
  {| hash := sha256; hash_length := sha256_length; hash_byte := sha256_byte |}.

#[export] Instance HmacSha256_Mac : Mac :=
  {| mac := hmac_sha256;
     mac_length k x := sha256_length _; mac_byte k x := sha256_byte _ |}.

#[export] Hint Resolve hash_length hash_byte mac_length mac_byte : crust.

(** ** Constant-time comparison *)

Lemma fold_lor_zero (ps : list (Z * Z)) d :
  0 ≤ d → Forall (λ p, is_byte p.1 ∧ is_byte p.2) ps →
  fold_left (λ diff p, Z.lor diff (Z.lxor p.1 p.2)) ps d = 0 ↔
  d = 0 ∧ Forall (λ p, p.1 = p.2) ps.
Proof.
  revert d. induction ps as [|[x y] ps IH]; intros d Hd Hps; simpl.
  { split; [|by intros [? _]]. intros ->. split; [done|constructor]. }
  apply Forall_cons in Hps as [[Hx Hy] Hps]. unfold is_byte in *. simpl in *.
  assert (0 ≤ Z.lxor x y) as Hxor by (apply Z.lxor_nonneg; lia).
  rewrite IH by (done || apply Z.lor_nonneg; lia).
  rewrite Z.lor_eq_0_iff, Z.lxor_eq_0_iff, Forall_cons. simpl. tauto.
Qed.

Lemma zip_same_eq (a b : bytes) :
  length a = length b → Forall (λ p, p.1 = p.2) (zip a b) ↔ a = b.
Proof.
  revert b. induction a as [|x a IH]; intros [|y b] Hl; simpl in *; try done.
  rewrite Forall_cons, IH by lia. simpl. naive_solver.
Qed.

Lemma ct_eq_spec a b :
  length a = length b → Forall is_byte a → Forall is_byte b → ct_eq a b = bool_decide (a = b).
Proof.
  intros Hl Ha Hb. apply eq_bool_prop_intro. rewrite bool_decide_spec. unfold ct_eq.
  rewrite Is_true_true, Z.eqb_eq, fold_lor_zero.
  - rewrite zip_same_eq by done. tauto.
  - done.
  - apply Forall_lookup. intros i [x y] [Hx Hy]%lookup_zip_Some.
    split; [by eapply (Forall_lookup_1 _ a)|by eapply (Forall_lookup_1 _ b)].
Qed.

(** ** Hex *)

Lemma hex_val_digit n : 0 ≤ n < 16 → hex_val (hex_digit n) = Some n.
Proof.
  intros Hn. unfold hex_digit, hex_val. destruct (Z.ltb_spec n 10).
  - rewrite (proj2 (Z.leb_le 48 (48 + n))), (proj2 (Z.leb_le (48 + n) 57)) by lia.
    simpl. f_equal. lia.
  - rewrite (proj2 (Z.leb_gt (97 + (n - 10)) 57)), andb_false_r by lia.
    rewrite (proj2 (Z.leb_le 97 (97 + (n - 10)))), (proj2 (Z.leb_le (97 + (n - 10)) 102)) by lia.
    simpl. f_equal. lia.
Qed.

Lemma lor_nibbles hi lo : 0 ≤ lo < 16 → Z.lor (Z.shiftl hi 4) lo = hi * 16 + lo.
Proof.
  intros Hlo. pose proof (Z.add_lor_land (Z.shiftl hi 4) lo) as H.
  rewrite Z.shiftl_mul_pow2 in * by lia. change (2 ^ 4) with 16 in *.
  assert (Z.land (hi * 16) lo = 0) as Hz; [|lia].
  apply Z.bits_inj'. intros n Hn. rewrite Z.land_spec, Z.bits_0.
  change 16 with (2 ^ 4). destruct (decide (n < 4)).
  - by rewrite Z.mul_pow2_bits_low.
  - rewrite (proj2 (Z.testbit_false lo n Hn)); [by rewrite andb_false_r|].
    rewrite Z.div_small; [done|]. split; [lia|].
    apply Z.lt_le_trans with (2 ^ 4); [simpl; lia|]. apply Z.pow_le_mono_r; lia.
Qed.

Lemma hex_pair_byte b : is_byte b → hex_pair (hex_byte b) = Some b.
Proof.
  intros Hb. unfold is_byte in Hb. unfold hex_pair, hex_byte. simpl nth.
  pose proof (Z.mod_pos_bound b 16 ltac:(lia)).
  assert (0 ≤ b / 16 < 16) by (split; [apply Z.div_pos|apply Z.div_lt_upper_bound]; lia).
  rewrite !hex_val_digit by lia. simpl. rewrite lor_nibbles by lia.
  f_equal. rewrite Z.mul_comm. symmetry. apply Z.div_mod. lia.
Qed.

Lemma chunks_hex_of l fuel :
  (length (hex_of l) ≤ fuel)%nat → chunks_fuel fuel 2 (hex_of l) = hex_byte <$> l.
Proof.
  revert fuel. induction l as [|b l IH]; intros fuel Hf.
  - by destruct fuel.
  - change (hex_of (b :: l)) with (hex_byte b ++ hex_of l) in *. simpl in Hf.
    destruct fuel as [|fuel]; [lia|]. cbn [chunks_fuel].
    rewrite decide_True by (rewrite length_app; simpl; lia).
    change (hex_byte b :: chunks_fuel fuel 2 (hex_of l) = hex_byte b :: (hex_byte <$> l)).
    by rewrite IH by lia.
Qed.

Lemma length_hex_of l : length (hex_of l) = (2 * length l)%nat.
Proof.
  induction l as [|b l IH]; [done|]. change (hex_of (b :: l)) with (hex_byte b ++ hex_of l).
  rewrite length_app, IH. simpl. lia.
Qed.

(** ** Theorems *)

(** The vendored SHA-256 and HMAC-SHA-256 compute the published FIPS 180-4 and RFC 4231
    vectors of the crate's tests (empty, one-block, padding-overflow messages; short, text
    and over-long keys). *)
Theorem sha256_vectors :
  hex_of (sha256 []) =
    lit "e3b0c44298fc1c149afbf4c8996fb92427ae41e4649b934ca495991b7852b855" ∧
  hex_of (sha256 (lit "abc")) =
    lit "ba7816bf8f01cfea414140de5dae2223b00361a396177a9cb410ff61f20015ad" ∧
  hex_of (sha256 (lit "abcdbcdecdefdefgefghfghighijhijkijkljklmklmnlmnomnopnopq")) =
    lit "248d6a61d20638b8e5c026930c3e6039a33ce45964ff2167f6ecedd419db06c1" ∧
  hex_of (hmac_sha256 (replicate 20 0x0b) (lit "Hi There")) =
    lit "b0344c61d8db38535ca8afceaf0bf12b881dc200c9833da726e9376c2e32cff7" ∧
  hex_of (hmac_sha256 (lit "Jefe") (lit "what do ya want for nothing?")) =
    lit "5bdcc146bf60754e6a042426089575c75a003f089d2739839dec58b964ec3843" ∧
  hex_of (hmac_sha256 (replicate 131 0xaa)
            (lit "Test Using Larger Than Block-Size Key - Hash Key First")) =
    lit "60e431591ee0b67f0d8a26aacbf5b77f8e0bc6213728c5140546040f0ee37f54".
Proof. do 5 (refine (conj _ _); [vm_compute; reflexivity|]). vm_compute. reflexivity. Qed.

(** The padding loop terminates with a whole number of 64-byte blocks for every message,
    and the padding is injective below 2^61 bytes: two different messages are never
    compressed as the same sequence of blocks. *)
Theorem sha256_padding_injective x y :
  Z.of_nat (length x) < 2 ^ 61 → Z.of_nat (length y) < 2 ^ 61 →
  (length (pad x) `mod` BLOCK = 0)%nat ∧
  (chunks_exact BLOCK (pad x) = chunks_exact BLOCK (pad y) → x = y).
Proof.
  intros Hx Hy. destruct (pad_shape x) as (n & Hpx & Hmx). destruct (pad_shape y) as (m & Hpy & Hmy).
  split; [done|]. intros Hc.
  assert (pad x = pad y) as Heq.
  { rewrite <-(chunks_exact_join BLOCK (pad x)), <-(chunks_exact_join BLOCK (pad y)), Hc;
      (done || unfold BLOCK; lia). }
  rewrite Hpx, Hpy in Heq. rewrite !app_assoc in Heq.
  apply app_inj_2 in Heq as [Hpre Hlen]; [|by rewrite !length_to_be_bytes].
  apply to_be_bytes_inj in Hlen; [|split; [apply Z.mod_pos_bound; lia|];
    change (256 ^ Z.of_nat 8) with (2 ^ 64); apply Z.mod_pos_bound; lia..].
  rewrite !Z.mod_small in Hlen by lia.
  rewrite <-!app_assoc in Hpre. apply app_inj_1 in Hpre as [-> _]; [done|lia].
Qed.

Lemma sha256_padding_injective_witness :
  (length (pad (lit "abc")) `mod` BLOCK = 0)%nat ∧
  (chunks_exact BLOCK (pad (lit "abc")) = chunks_exact BLOCK (pad (lit "abd")) →
   lit "abc" = lit "abd").
Proof. apply (sha256_padding_injective (lit "abc") (lit "abd")); vm_compute; reflexivity. Defined.

(** The digest comparison every signature and MAC check uses is exact: on two 32-byte
    digests [ct_eq] is true exactly when they are equal, although it never returns early. *)
Theorem ct_eq_exact (a b : bytes) :
  length a = 32%nat → length b = 32%nat → Forall is_byte a → Forall is_byte b →
  ct_eq a b = true ↔ a = b.
Proof.
  intros Ha Hb Hba Hbb. rewrite ct_eq_spec by (congruence || done). apply bool_decide_eq_true.
Qed.

Lemma ct_eq_exact_witness :
  ct_eq (sha256 (lit "alpha")) (sha256 (lit "alphb")) = true ↔
  sha256 (lit "alpha") = sha256 (lit "alphb").
Proof. apply ct_eq_exact; auto using sha256_length, sha256_byte. Defined.

(** Hex digests round-trip: decoding the lowercase hex of any 32-byte digest gives the
    digest back, and an input that is not 64 bytes long is rejected. *)
Theorem hex32_roundtrip (d s : bytes) :
  length d = 32%nat → Forall is_byte d → length s ≠ 64%nat →
  hex32_decode (hex_of d) = Some d ∧ hex32_decode s = None.
Proof.
  intros Hl Hd Hs. unfold hex32_decode. rewrite length_hex_of, Hl. simpl negb. split.
  - unfold chunks_exact. rewrite chunks_hex_of by done. apply mapM_Some.
    apply Forall2_fmap_l, Forall_Forall2_diag. eapply Forall_impl; [exact Hd|].
    intros b Hb. by apply hex_pair_byte.
  - by rewrite bool_decide_false.
Qed.

Lemma hex32_roundtrip_witness :
  hex32_decode (hex_of (sha256 (lit "round trip"))) = Some (sha256 (lit "round trip")) ∧
  hex32_decode (lit "abc") = None.
Proof. apply hex32_roundtrip; auto using sha256_length, sha256_byte. Defined.
