(* ===== verification/Policy.v ===== *)
(** * The risk / capability / approval engine (crate [crustcore-policy])

    [decision.rs]: risk profiles, the classification of a proposed side effect
    and the issuing of a capability factory; [caps.rs]: capability and approval
    tokens. The sealing of the token types (private fields, [pub(crate)]
    constructors) is the Rust type system's; what the model keeps of it is the
    set of functions that build them. *)

From S2P Require Import Prelude Types.

Inductive RiskProfile := ReadOnly | Supervised | Full.

#[export] Instance RiskProfile_eq_dec : EqDecision RiskProfile.
Proof. solve_decision. Defined.

Inductive PolicyDecision :=
| PAllow
| PDeny (reason : string)
| PRequireApproval (reason : string).

#[export] Instance PolicyDecision_eq_dec : EqDecision PolicyDecision.
Proof. solve_decision. Defined.

Record PolicySnapshot := mkPolicy { profile : RiskProfile }.

(** [PolicySnapshot::classify]. *)
Definition classify (p : PolicySnapshot) (r : Reversibility) : PolicyDecision :=
  match profile p with
  | ReadOnly => PDeny "read-only profile forbids side effects"
  | Supervised | Full =>
      if requires_approval r
      then PRequireApproval "irreversible action requires an approval token"
      else PAllow
  end.

(** ** Capabilities *)

(** Opaque worktree roots, repositories and branch prefixes are their text. *)
Record CapabilityIssuer := mkIssuer { issuer_scope : ScopeId }.
Record FsReadCap := mkFsReadCap { fr_root : string; fr_scope : ScopeId }.
Record FsWriteCap := mkFsWriteCap { fw_root : string; fw_scope : ScopeId }.
Record NetworkCap := mkNetworkCap { nc_allowlist : DomainAllowlist; nc_scope : ScopeId }.
Record GitHubWriteCap := mkGitHubWriteCap
  { gh_repo : string; gh_branch_prefix : string; gh_scope : ScopeId }.
Record SandboxExecCap := mkSandboxExecCap { se_profile : ScopeId; se_scope : ScopeId }.

(** [CapabilityIssuer::fs_read], [fs_write], [network], [sandbox_exec]. *)
Definition fs_read (i : CapabilityIssuer) (root : string) : FsReadCap :=
  mkFsReadCap root (issuer_scope i).
Definition fs_write (i : CapabilityIssuer) (root : string) : FsWriteCap :=
  mkFsWriteCap root (issuer_scope i).
Definition network (i : CapabilityIssuer) (al : DomainAllowlist) : NetworkCap :=
  mkNetworkCap al (issuer_scope i).
Definition sandbox_exec (i : CapabilityIssuer) (profile : ScopeId) : SandboxExecCap :=
  mkSandboxExecCap profile (issuer_scope i).

(** [PolicySnapshot::authorize_reversible]. *)
Definition authorize_reversible (p : PolicySnapshot) (scope : ScopeId)
    : result PolicyDecision CapabilityIssuer :=
  match classify p Reversible with
  | PAllow => Ok (mkIssuer scope)
  | other => Err other
  end.

(** ** Approvals *)

Record AuthorizedUser := mkAuthorizedUser { user_id : Z }.

Record Approved (T : Type) := mkApproved
  { ap_value : T; ap_approval_id : ApprovalId; ap_approved_by : AuthorizedUser;
    ap_expires_at : Timestamp }.
Arguments mkApproved {T}.
Arguments ap_value {T}.
Arguments ap_approval_id {T}.
Arguments ap_approved_by {T}.
Arguments ap_expires_at {T}.

(** [AuthorizedUser::approve]. *)
Definition approve {T} (u : AuthorizedUser) (v : T) (aid : ApprovalId) (expires : Timestamp)
    : Approved T := mkApproved v aid u expires.

(** [Approved::is_valid_at]. *)
Definition is_valid_at {T} (a : Approved T) (now : Timestamp) : bool :=
  now <=? ap_expires_at a.

(** [AuthorizedUser::approve_github_write]. *)
Definition approve_github_write (u : AuthorizedUser) (repo prefix : string) (scope : ScopeId)
    (aid : ApprovalId) (expires : Timestamp) : GitHubWriteCap * Approved GitHubWriteCap :=
  let registry := mkGitHubWriteCap repo prefix scope in
  let approved := approve u (mkGitHubWriteCap repo prefix scope) aid expires in
  (registry, approved).

(** ** Lemmas *)

Lemma classify_allow p r :
  classify p r = PAllow ↔ profile p ≠ ReadOnly ∧ requires_approval r = false.
Proof. unfold classify. destruct (profile p), (requires_approval r); naive_solver. Qed.

Lemma authorize_reversible_Ok p s i :
  authorize_reversible p s = Ok i ↔ profile p ≠ ReadOnly ∧ i = mkIssuer s.
Proof. unfold authorize_reversible, classify. destruct (profile p); naive_solver. Qed.
