(* ===== verification/KernelState.v ===== *)
(** * Kernel events, actions and transition tables (crate [crustcore-kernel])

    [event.rs], [action.rs] and [state.rs]: the in-memory event envelope the
    kernel consumes, the actions it emits, the arena records and the two pure
    transition tables [task_next] and [job_next]. *)

From S2P Require Import Prelude Types.

(** ** Events ([event.rs]) *)

Inductive EventKind :=
| TaskCreated | TaskPlanned | JobQueued | JobLeased | ModelRequestStarted
| ModelOutputReceived | ToolCallRequested | ToolCallApproved | ToolCallDenied
| ToolCallStarted | ToolCallCompleted | SandboxStarted | CommandStarted
| CommandOutputCaptured | CommandCompleted | PatchProposed | PatchVerified
| PatchRejected | ApprovalRequested | ApprovalResolved | UserMessageQueued
| UserSteerReceived | GitHubOperationRequested | GitHubOperationCompleted
| SecretRequested | SecretHandleStored | KRiskDetected | TaskCompleted | TaskFailed
| TaskKilled.

Inductive Actor := AKernel | AUser | AModel | ASubagent | AExternalWorker | AAdapter.

Inductive Visibility := ModelVisible | Internal.

#[export] Instance EventKind_eq_dec : EqDecision EventKind.
Proof. solve_decision. Defined.
#[export] Instance Actor_eq_dec : EqDecision Actor.
Proof. solve_decision. Defined.
#[export] Instance Visibility_eq_dec : EqDecision Visibility.
Proof. solve_decision. Defined.

(** [EventKind::ALL] and [Actor::ALL]. *)
Definition EventKind_ALL : list EventKind :=
  [TaskCreated; TaskPlanned; JobQueued; JobLeased; ModelRequestStarted; ModelOutputReceived;
   ToolCallRequested; ToolCallApproved; ToolCallDenied; ToolCallStarted; ToolCallCompleted;
   SandboxStarted; CommandStarted; CommandOutputCaptured; CommandCompleted; PatchProposed;
   PatchVerified; PatchRejected; ApprovalRequested; ApprovalResolved; UserMessageQueued;
   UserSteerReceived; GitHubOperationRequested; GitHubOperationCompleted; SecretRequested;
   SecretHandleStored; KRiskDetected; TaskCompleted; TaskFailed; TaskKilled].
Definition Actor_ALL : list Actor :=
  [AKernel; AUser; AModel; ASubagent; AExternalWorker; AAdapter].

Record Event := mkEvent {
  ev_kind : EventKind;
  ev_seq : EventSeq;
  ev_timestamp : Timestamp;
  ev_task_id : option TaskId;
  ev_job_id : option JobId;
  ev_actor : Actor;
  ev_visibility : Visibility;
  ev_reversibility : option Reversibility;
  ev_approval_id : option ApprovalId;
  ev_tool_call_id : option ToolCallId;
  ev_resolution : option ApprovalResolution;
  ev_budget_delta : option BudgetDelta;
  ev_budget : option Budget;
  ev_lease_owner : option LeaseOwner }.

(** [Event::base], [Event::internal], [Event::inbound]. *)
Definition event_base (k : EventKind) (a : Actor) (v : Visibility) : Event :=
  mkEvent k EventSeq_FIRST Timestamp_EPOCH None None a v None None None None None None None.
Definition event_internal (k : EventKind) : Event := event_base k AKernel Internal.

(** The [with_*] builders. *)
Definition with_seq (e : Event) (s : EventSeq) : Event :=
  mkEvent (ev_kind e) s (ev_timestamp e) (ev_task_id e) (ev_job_id e) (ev_actor e)
    (ev_visibility e) (ev_reversibility e) (ev_approval_id e) (ev_tool_call_id e)
    (ev_resolution e) (ev_budget_delta e) (ev_budget e) (ev_lease_owner e).
Definition with_timestamp (e : Event) (t : Timestamp) : Event :=
  mkEvent (ev_kind e) (ev_seq e) t (ev_task_id e) (ev_job_id e) (ev_actor e)
    (ev_visibility e) (ev_reversibility e) (ev_approval_id e) (ev_tool_call_id e)
    (ev_resolution e) (ev_budget_delta e) (ev_budget e) (ev_lease_owner e).
Definition with_task (e : Event) (t : TaskId) : Event :=
  mkEvent (ev_kind e) (ev_seq e) (ev_timestamp e) (Some t) (ev_job_id e) (ev_actor e)
    (ev_visibility e) (ev_reversibility e) (ev_approval_id e) (ev_tool_call_id e)
    (ev_resolution e) (ev_budget_delta e) (ev_budget e) (ev_lease_owner e).
Definition with_job (e : Event) (j : JobId) : Event :=
  mkEvent (ev_kind e) (ev_seq e) (ev_timestamp e) (ev_task_id e) (Some j) (ev_actor e)
    (ev_visibility e) (ev_reversibility e) (ev_approval_id e) (ev_tool_call_id e)
    (ev_resolution e) (ev_budget_delta e) (ev_budget e) (ev_lease_owner e).
Definition with_visibility (e : Event) (v : Visibility) : Event :=
  mkEvent (ev_kind e) (ev_seq e) (ev_timestamp e) (ev_task_id e) (ev_job_id e) (ev_actor e)
    v (ev_reversibility e) (ev_approval_id e) (ev_tool_call_id e)
    (ev_resolution e) (ev_budget_delta e) (ev_budget e) (ev_lease_owner e).
Definition with_reversibility (e : Event) (r : Reversibility) : Event :=
  mkEvent (ev_kind e) (ev_seq e) (ev_timestamp e) (ev_task_id e) (ev_job_id e) (ev_actor e)
    (ev_visibility e) (Some r) (ev_approval_id e) (ev_tool_call_id e)
    (ev_resolution e) (ev_budget_delta e) (ev_budget e) (ev_lease_owner e).
Definition with_approval (e : Event) (a : ApprovalId) : Event :=
  mkEvent (ev_kind e) (ev_seq e) (ev_timestamp e) (ev_task_id e) (ev_job_id e) (ev_actor e)
    (ev_visibility e) (ev_reversibility e) (Some a) (ev_tool_call_id e)
    (ev_resolution e) (ev_budget_delta e) (ev_budget e) (ev_lease_owner e).
Definition with_tool_call (e : Event) (c : ToolCallId) : Event :=
  mkEvent (ev_kind e) (ev_seq e) (ev_timestamp e) (ev_task_id e) (ev_job_id e) (ev_actor e)
    (ev_visibility e) (ev_reversibility e) (ev_approval_id e) (Some c)
    (ev_resolution e) (ev_budget_delta e) (ev_budget e) (ev_lease_owner e).
Definition with_resolution (e : Event) (r : ApprovalResolution) : Event :=
  mkEvent (ev_kind e) (ev_seq e) (ev_timestamp e) (ev_task_id e) (ev_job_id e) (ev_actor e)
    (ev_visibility e) (ev_reversibility e) (ev_approval_id e) (ev_tool_call_id e)
    (Some r) (ev_budget_delta e) (ev_budget e) (ev_lease_owner e).
Definition with_budget_delta (e : Event) (d : BudgetDelta) : Event :=
  mkEvent (ev_kind e) (ev_seq e) (ev_timestamp e) (ev_task_id e) (ev_job_id e) (ev_actor e)
    (ev_visibility e) (ev_reversibility e) (ev_approval_id e) (ev_tool_call_id e)
    (ev_resolution e) (Some d) (ev_budget e) (ev_lease_owner e).
Definition with_budget (e : Event) (b : Budget) : Event :=
  mkEvent (ev_kind e) (ev_seq e) (ev_timestamp e) (ev_task_id e) (ev_job_id e) (ev_actor e)
    (ev_visibility e) (ev_reversibility e) (ev_approval_id e) (ev_tool_call_id e)
    (ev_resolution e) (ev_budget_delta e) (Some b) (ev_lease_owner e).
Definition with_lease_owner (e : Event) (o : LeaseOwner) : Event :=
  mkEvent (ev_kind e) (ev_seq e) (ev_timestamp e) (ev_task_id e) (ev_job_id e) (ev_actor e)
    (ev_visibility e) (ev_reversibility e) (ev_approval_id e) (ev_tool_call_id e)
    (ev_resolution e) (ev_budget_delta e) (ev_budget e) (Some o).
Definition event_inbound (k : EventKind) (s : EventSeq) (a : Actor) : Event :=
  with_seq (event_base k a ModelVisible) s.

(** [Event::task_created]. *)
Definition event_task_created (s : EventSeq) (a : Actor) (t : TaskId) (b : Budget) : Event :=
  with_budget (with_task (event_inbound TaskCreated s a) t) b.

(** ** Actions ([action.rs]) *)

Inductive Action :=
| AppendEvent (task_id : option TaskId)
| RequestModel (job_id : JobId)
| RunTool (job_id : JobId)
| RequestApproval (approval_id : ApprovalId)
| TaskFinished (task_id : TaskId).

#[export] Instance Action_eq_dec : EqDecision Action.
Proof. solve_decision. Defined.

(** ** Arena records ([state.rs]) *)

Definition LEASE_TTL_MS : Z := 60000.
Definition READY_DRAIN_MAX : nat := 1.

Inductive BlockReason :=
| BudgetExhausted (a : BudgetAxis)
| PolicyDenied
| ApprovalDenied
| ApprovalExpired
| RiskDetected.

#[export] Instance BlockReason_eq_dec : EqDecision BlockReason.
Proof. solve_decision. Defined.

Record TaskEntry := mkTask {
  t_id : TaskId;
  t_status : TaskStatus;
  t_budget : Budget;
  t_last_event : EventSeq;
  t_awaiting : option ApprovalId;
  t_block_reason : option BlockReason }.

(** [TaskEntry::new]. *)
Definition TaskEntry_new (id : TaskId) (b : Budget) (s : EventSeq) : TaskEntry :=
  mkTask id TCreated b s None None.

Record LeaseState := mkLease {
  l_owner : option LeaseOwner;
  l_expires_at : Timestamp;
  l_heartbeat_at : Timestamp }.

(** [LeaseState::unleased], [LeaseState::refresh], [LeaseState::is_expired_at]. *)
Definition unleased : LeaseState := mkLease None Timestamp_EPOCH Timestamp_EPOCH.
Definition refresh (l : LeaseState) (owner : option LeaseOwner) (now : Timestamp) : LeaseState :=
  mkLease owner (saturating_add u64_MAX now LEASE_TTL_MS) now.
Definition is_expired_at (l : LeaseState) (now : Timestamp) : bool := l_expires_at l <? now.

Record JobEntry := mkJob {
  j_id : JobId;
  j_task : TaskId;
  j_status : JobStatus;
  j_lease : LeaseState;
  j_last_event : EventSeq }.

(** [JobEntry::new]. *)
Definition JobEntry_new (id : JobId) (task : TaskId) (s : EventSeq) : JobEntry :=
  mkJob id task JQueued unleased s.

Record ApprovalOp := mkOp { op_tool_call_id : option ToolCallId }.

(** [ApprovalOp::matches]. *)
Definition op_matches (o : ApprovalOp) (tc : option ToolCallId) : bool :=
  match op_tool_call_id o, tc with
  | Some bound, Some given => bool_decide (bound = given)
  | _, _ => false
  end.

Record ApprovalEntry := mkApproval {
  a_id : ApprovalId;
  a_task : TaskId;
  a_job : option JobId;
  a_status : ApprovalStatus;
  a_op : ApprovalOp;
  a_expires_at : Timestamp }.

#[export] Instance ApprovalOp_eq_dec : EqDecision ApprovalOp.
Proof. solve_decision. Defined.
#[export] Instance ApprovalEntry_eq_dec : EqDecision ApprovalEntry.
Proof. solve_decision. Defined.

(** ** Transition tables *)

Inductive TaskTransition := TStay | TMove (s : TaskStatus).
Inductive JobTransition := JStay | JMove (s : JobStatus).

(** [task_next]. *)
Definition task_next (status : TaskStatus) (kind : EventKind) : TaskTransition :=
  if task_is_terminal status then TStay else
  match kind with
  | TaskCreated => TStay
  | TaskPlanned => match status with TCreated => TMove TPlanning | _ => TStay end
  | JobQueued =>
      match status with TCreated | TPlanning | TRetrying => TMove TQueued | _ => TStay end
  | JobLeased => match status with TQueued | TPlanning => TMove TRunning | _ => TStay end
  | ModelRequestStarted =>
      match status with TPlanning | TQueued => TMove TRunning | _ => TStay end
  | ModelOutputReceived | ToolCallApproved | ToolCallDenied | ToolCallStarted
  | SandboxStarted | CommandStarted | CommandOutputCaptured | CommandCompleted
  | ToolCallCompleted | PatchProposed | UserMessageQueued | SecretRequested
  | SecretHandleStored => TStay
  | ToolCallRequested | GitHubOperationRequested => TStay
  | ApprovalResolved => TStay
  | PatchVerified => match status with TRunning => TMove TIntegrating | _ => TStay end
  | PatchRejected =>
      match status with TRunning | TBlocked => TMove TRetrying | _ => TStay end
  | ApprovalRequested => TStay
  | UserSteerReceived =>
      match status with TBlocked | TAwaitingUserReview => TMove TRunning | _ => TStay end
  | GitHubOperationCompleted =>
      match status with TIntegrating => TMove TAwaitingUserReview | _ => TStay end
  | KRiskDetected => TMove TBlocked
  | TaskCompleted => TMove TCompleted
  | TaskFailed => TMove TFailed
  | TaskKilled => TMove TKilled
  end.

(** [job_next]. *)
Definition job_next (status : JobStatus) (kind : EventKind) : JobTransition :=
  if job_is_terminal status then JStay else
  match kind with
  | JobQueued => match status with JRetrying => JMove JQueued | _ => JStay end
  | JobLeased => match status with JQueued => JMove JLeased | _ => JStay end
  | ModelRequestStarted | ToolCallStarted | CommandStarted | SandboxStarted =>
      match status with JLeased | JHeartbeatMissing => JMove JRunning | _ => JStay end
  | CommandOutputCaptured =>
      match status with JHeartbeatMissing => JMove JRunning | _ => JStay end
  | CommandCompleted | ToolCallCompleted =>
      match status with JRunning | JLeased => JMove JCompleted | _ => JStay end
  | TaskKilled => JMove JKilled
  | TaskFailed => JMove JFailed
  | TaskCreated | TaskPlanned | ModelOutputReceived | ToolCallRequested | ToolCallApproved
  | ToolCallDenied | PatchProposed | PatchVerified | PatchRejected | ApprovalRequested
  | ApprovalResolved | UserMessageQueued | UserSteerReceived | GitHubOperationRequested
  | GitHubOperationCompleted | SecretRequested | SecretHandleStored | KRiskDetected
  | TaskCompleted => JStay
  end.

(** ** Facts about the tables *)

Lemma task_next_terminal s k : task_is_terminal s = true → task_next s k = TStay.
Proof. unfold task_next. by intros ->. Qed.

Lemma task_next_not_awaiting s k s' :
  task_next s k = TMove s' → s' ≠ TAwaitingApproval ∧ s' ≠ TArchived.
Proof. destruct s, k; simpl; intros H; (discriminate H || injection H as <-; done). Qed.

Lemma task_next_terminal_kind s k s' :
  task_next s k = TMove s' → task_is_terminal s' = true →
  k = TaskCompleted ∨ k = TaskFailed ∨ k = TaskKilled.
Proof. destruct s, k; simpl; intros H; (discriminate H || injection H as <-; auto; done). Qed.

Lemma job_next_terminal s k : job_is_terminal s = true → job_next s k = JStay.
Proof. unfold job_next. by intros ->. Qed.
