(* ===== verification/EventLog.v ===== *)
(** * The append-only hash-chained event log (crate [crustcore-eventlog])

    The frame codec, the log, its verification walk, the inspection roll-up and
    the gated export, over the on-disk bytes. The hash is the interface [Hash]
    of [Sha256.v]; its instance is the crate's SHA-256. Offsets are [nat]: the
    source's [checked_add]s on [usize] fail only beyond the end of a buffer,
    where the model's slice fails too. *)

From S2P Require Import Prelude Types Sha256 KernelState.

Definition FRAME_MAGIC : bytes := lit "CCEL".
Definition FRAME_VERSION : Z := 1.
Definition GENESIS_PREV_HASH : bytes := replicate 32 0.
Definition FLAG_HAS_TASK : Z := 1.
Definition FLAG_HAS_JOB : Z := 2.

Inductive RedactionState := Clean | Redacted.

#[export] Instance RedactionState_eq_dec : EqDecision RedactionState.
Proof. solve_decision. Defined.

(** ** Discriminant bytes *)

Definition redaction_to_byte (r : RedactionState) : Z :=
  match r with Clean => 0 | Redacted => 1 end.
Definition redaction_from_byte (b : Z) : option RedactionState :=
  if b =? 0 then Some Clean else if b =? 1 then Some Redacted else None.
Definition visibility_to_byte (v : Visibility) : Z :=
  match v with ModelVisible => 0 | Internal => 1 end.
Definition visibility_from_byte (b : Z) : option Visibility :=
  if b =? 0 then Some ModelVisible else if b =? 1 then Some Internal else None.

(** [x as u8] of a field-less enum: its declaration index. *)
Definition actor_as_u8 (a : Actor) : Z :=
  match a with
  | AKernel => 0 | AUser => 1 | AModel => 2 | ASubagent => 3 | AExternalWorker => 4
  | AAdapter => 5
  end.
Definition kind_as_u8 (k : EventKind) : Z :=
  match k with
  | TaskCreated => 0 | TaskPlanned => 1 | JobQueued => 2 | JobLeased => 3
  | ModelRequestStarted => 4 | ModelOutputReceived => 5 | ToolCallRequested => 6
  | ToolCallApproved => 7 | ToolCallDenied => 8 | ToolCallStarted => 9
  | ToolCallCompleted => 10 | SandboxStarted => 11 | CommandStarted => 12
  | CommandOutputCaptured => 13 | CommandCompleted => 14 | PatchProposed => 15
  | PatchVerified => 16 | PatchRejected => 17 | ApprovalRequested => 18
  | ApprovalResolved => 19 | UserMessageQueued => 20 | UserSteerReceived => 21
  | GitHubOperationRequested => 22 | GitHubOperationCompleted => 23 | SecretRequested => 24
  | SecretHandleStored => 25 | KRiskDetected => 26 | TaskCompleted => 27 | TaskFailed => 28
  | TaskKilled => 29
  end.
Definition actor_from_byte (b : Z) : option Actor :=
  find (λ a, actor_as_u8 a =? b) Actor_ALL.
Definition kind_from_byte (b : Z) : option EventKind :=
  find (λ k, kind_as_u8 k =? b) EventKind_ALL.

(** ** Frames *)

Record FrameMeta := mkMeta {
  m_seq : EventSeq;
  m_timestamp : Timestamp;
  m_task_id : option TaskId;
  m_job_id : option JobId;
  m_actor : Actor;
  m_kind : EventKind;
  m_visibility : Visibility;
  m_redaction : RedactionState }.

(** [FrameMeta::new] and its builders. *)
Definition FrameMeta_new (seq : EventSeq) (kind : EventKind) : FrameMeta :=
  mkMeta seq Timestamp_EPOCH None None AKernel kind Internal Clean.
Definition meta_actor (m : FrameMeta) a : FrameMeta :=
  mkMeta (m_seq m) (m_timestamp m) (m_task_id m) (m_job_id m) a (m_kind m) (m_visibility m)
    (m_redaction m).
Definition meta_visibility (m : FrameMeta) v : FrameMeta :=
  mkMeta (m_seq m) (m_timestamp m) (m_task_id m) (m_job_id m) (m_actor m) (m_kind m) v
    (m_redaction m).
Definition meta_redaction (m : FrameMeta) r : FrameMeta :=
  mkMeta (m_seq m) (m_timestamp m) (m_task_id m) (m_job_id m) (m_actor m) (m_kind m)
    (m_visibility m) r.
Definition meta_timestamp (m : FrameMeta) t : FrameMeta :=
  mkMeta (m_seq m) t (m_task_id m) (m_job_id m) (m_actor m) (m_kind m) (m_visibility m)
    (m_redaction m).
Definition meta_task (m : FrameMeta) t : FrameMeta :=
  mkMeta (m_seq m) (m_timestamp m) (Some t) (m_job_id m) (m_actor m) (m_kind m)
    (m_visibility m) (m_redaction m).
Definition meta_job (m : FrameMeta) j : FrameMeta :=
  mkMeta (m_seq m) (m_timestamp m) (m_task_id m) (Some j) (m_actor m) (m_kind m)
    (m_visibility m) (m_redaction m).

Record EventFrame := mkFrame {
  f_seq : EventSeq;
  f_timestamp : Timestamp;
  f_task_id : option TaskId;
  f_job_id : option JobId;
  f_actor : Actor;
  f_kind : EventKind;
  f_visibility : Visibility;
  f_redaction : RedactionState;
  f_payload_hash : bytes;
  f_prev_hash : bytes;
  f_frame_hash : bytes }.

Inductive BreakReason :=
| BadMagic | BadVersion | BadDiscriminant | Truncated | PayloadHashMismatch
| FrameHashMismatch | PrevHashMismatch | NonMonotonicSeq | HeadMismatch.

Inductive ChainStatus :=
| Intact (frames : nat)
| Broken (frame_index : nat) (reason : BreakReason).

Definition is_intact (s : ChainStatus) : bool :=
  match s with Intact _ => true | Broken _ _ => false end.

(** [encode_frame_prefix]. *)
Definition encode_frame_prefix (m : FrameMeta) (payload_len : Z)
    (payload_hash prev_hash : bytes) : bytes :=
  let flags := 0 in
  let flags := match m_task_id m with Some _ => Z.lor flags FLAG_HAS_TASK | None => flags end in
  let flags := match m_job_id m with Some _ => Z.lor flags FLAG_HAS_JOB | None => flags end in
  FRAME_MAGIC ++
  to_le_bytes 2 FRAME_VERSION ++
  [flags] ++
  [actor_as_u8 (m_actor m)] ++
  [kind_as_u8 (m_kind m)] ++
  [visibility_to_byte (m_visibility m)] ++
  [redaction_to_byte (m_redaction m)] ++
  to_le_bytes 8 (m_seq m) ++
  to_le_bytes 8 (m_timestamp m) ++
  match m_task_id m with Some t => to_le_bytes 16 t | None => [] end ++
  match m_job_id m with Some j => to_le_bytes 16 j | None => [] end ++
  to_le_bytes 4 payload_len ++
  payload_hash ++
  prev_hash.

(** [read_array::<N>]. *)
Definition read_array (n : nat) (bs : bytes) (at_ : nat) : option bytes :=
  slice bs at_ (at_ + n).

Record Decoded := mkDecoded {
  d_frame : EventFrame;
  d_payload : bytes;
  d_frame_hash_offset : nat;
  d_next_offset : nat }.

(** The optional 16-byte id guarded by a flag. *)
Definition read_id (has : bool) (bs : bytes) (off : nat)
    : result BreakReason (option Z * nat) :=
  if has then
    v ← ok_or (read_array 16 bs off) Truncated;
    Ok (Some (from_le_bytes v), (off + 16)%nat)
  else Ok (None, off).

(** [decode_at]. *)
Definition decode_at (bs : bytes) (start : nat) : result BreakReason Decoded :=
  let off := start in
  magic ← ok_or (read_array 4 bs off) Truncated;
  if negb (bool_decide (magic = FRAME_MAGIC)) then Err BadMagic else
  let off := (off + 4)%nat in
  version ← ok_or (read_array 2 bs off) Truncated;
  if negb (from_le_bytes version =? FRAME_VERSION) then Err BadVersion else
  let off := (off + 2)%nat in
  flags ← ok_or (bs !! off) Truncated;
  let off := (off + 1)%nat in
  if negb (Z.land flags (u8_MAX - Z.lor FLAG_HAS_TASK FLAG_HAS_JOB) =? 0)
  then Err BadDiscriminant else
  b ← ok_or (bs !! off) Truncated;
  actor ← ok_or (actor_from_byte b) BadDiscriminant;
  let off := (off + 1)%nat in
  b ← ok_or (bs !! off) Truncated;
  kind ← ok_or (kind_from_byte b) BadDiscriminant;
  let off := (off + 1)%nat in
  b ← ok_or (bs !! off) Truncated;
  visibility ← ok_or (visibility_from_byte b) BadDiscriminant;
  let off := (off + 1)%nat in
  b ← ok_or (bs !! off) Truncated;
  redaction ← ok_or (redaction_from_byte b) BadDiscriminant;
  let off := (off + 1)%nat in
  seq ← ok_or (read_array 8 bs off) Truncated;
  let off := (off + 8)%nat in
  timestamp ← ok_or (read_array 8 bs off) Truncated;
  let off := (off + 8)%nat in
  '(task_id, off) ← read_id (negb (Z.land flags FLAG_HAS_TASK =? 0)) bs off;
  '(job_id, off) ← read_id (negb (Z.land flags FLAG_HAS_JOB =? 0)) bs off;
  len ← ok_or (read_array 4 bs off) Truncated;
  let payload_len := from_le_bytes len in
  let off := (off + 4)%nat in
  payload_hash ← ok_or (read_array 32 bs off) Truncated;
  let off := (off + 32)%nat in
  prev_hash ← ok_or (read_array 32 bs off) Truncated;
  let off := (off + 32)%nat in
  if Z.of_nat (length bs) <? Z.of_nat off + payload_len then Err Truncated else
  let payload_end := (off + Z.to_nat payload_len)%nat in
  payload ← ok_or (slice bs off payload_end) Truncated;
  let off := payload_end in
  let frame_hash_offset := off in
  frame_hash ← ok_or (read_array 32 bs off) Truncated;
  let off := (off + 32)%nat in
  Ok (mkDecoded
        (mkFrame (from_le_bytes seq) (from_le_bytes timestamp) task_id job_id actor kind
           visibility redaction payload_hash prev_hash frame_hash)
        payload frame_hash_offset off).

(** [FrameIter]: the decodable frames from [offset] on. Every frame consumes bytes, so the
    length of the buffer is enough fuel. *)
Fixpoint iter_from (fuel : nat) (bs : bytes) (offset : nat) : list Decoded :=
  match fuel with
  | O => []
  | S fuel' =>
      if decide (length bs ≤ offset)%nat then [] else
      match decode_at bs offset with
      | Ok d => d :: iter_from fuel' bs (d_next_offset d)
      | Err _ => []
      end
  end.
Definition iter (bs : bytes) : list Decoded := iter_from (length bs) bs 0.

(** ** The log *)

Record EventLog := mkLog { log_bytes : bytes; head_hash : bytes; count : nat }.

Definition EventLog_new : EventLog := mkLog [] GENESIS_PREV_HASH 0.

(** [EventLog::from_bytes]. *)
Definition from_bytes (bs : bytes) : EventLog :=
  let '(prev, n) :=
    fold_left (λ '(prev, n) d, (f_frame_hash (d_frame d), S n)) (iter bs)
      (GENESIS_PREV_HASH, 0%nat) in
  mkLog bs prev n.

(** ** Inspection and export *)

Record TaskSummary := mkSummary {
  ts_task_id : TaskId;
  ts_frames : nat;
  ts_first_seq : EventSeq;
  ts_last_seq : EventSeq;
  ts_terminal : option EventKind }.

Definition is_terminal_kind (k : EventKind) : bool :=
  match k with TaskCompleted | TaskFailed | TaskKilled => true | _ => false end.

(** One iteration of the roll-up loop of [EventLog::inspect]: the first summary of the
    task is updated in place, or a new one is pushed. *)
Fixpoint roll_up_task (tasks : list TaskSummary) (tid : TaskId) (f : EventFrame)
    : list TaskSummary :=
  match tasks with
  | [] =>
      [mkSummary tid 1 (f_seq f) (f_seq f)
         (if is_terminal_kind (f_kind f) then Some (f_kind f) else None)]
  | t :: rest =>
      if bool_decide (ts_task_id t = tid) then
        mkSummary (ts_task_id t) (S (ts_frames t)) (ts_first_seq t) (f_seq f)
          (if is_terminal_kind (f_kind f) then Some (f_kind f) else ts_terminal t) :: rest
      else t :: roll_up_task rest tid f
  end.
Definition roll_up (tasks : list TaskSummary) (fp : EventFrame * bytes) : list TaskSummary :=
  match f_task_id fp.1 with
  | Some tid => roll_up_task tasks tid fp.1
  | None => tasks
  end.

Record InspectReport := mkReport {
  ir_status : ChainStatus;
  ir_total_frames : nat;
  ir_tasks : list TaskSummary }.

(** Decimal rendering of an unsigned integer ([u128::MAX] has 39 digits). *)
Fixpoint dec_digits (fuel : nat) (n : Z) (acc : bytes) : bytes :=
  let acc := (48 + n mod 10) :: acc in
  match fuel with
  | O => acc
  | S fuel' => if n / 10 =? 0 then acc else dec_digits fuel' (n / 10) acc
  end.
Definition dec (n : Z) : bytes := dec_digits 39 n [].

(** The [{:?}] names of the enums. *)
Definition actor_name (a : Actor) : bytes :=
  lit match a with
      | AKernel => "Kernel" | AUser => "User" | AModel => "Model" | ASubagent => "Subagent"
      | AExternalWorker => "ExternalWorker" | AAdapter => "Adapter"
      end.
Definition kind_name (k : EventKind) : bytes :=
  lit match k with
      | TaskCreated => "TaskCreated" | TaskPlanned => "TaskPlanned" | JobQueued => "JobQueued"
      | JobLeased => "JobLeased" | ModelRequestStarted => "ModelRequestStarted"
      | ModelOutputReceived => "ModelOutputReceived" | ToolCallRequested => "ToolCallRequested"
      | ToolCallApproved => "ToolCallApproved" | ToolCallDenied => "ToolCallDenied"
      | ToolCallStarted => "ToolCallStarted" | ToolCallCompleted => "ToolCallCompleted"
      | SandboxStarted => "SandboxStarted" | CommandStarted => "CommandStarted"
      | CommandOutputCaptured => "CommandOutputCaptured"
      | CommandCompleted => "CommandCompleted" | PatchProposed => "PatchProposed"
      | PatchVerified => "PatchVerified" | PatchRejected => "PatchRejected"
      | ApprovalRequested => "ApprovalRequested" | ApprovalResolved => "ApprovalResolved"
      | UserMessageQueued => "UserMessageQueued" | UserSteerReceived => "UserSteerReceived"
      | GitHubOperationRequested => "GitHubOperationRequested"
      | GitHubOperationCompleted => "GitHubOperationCompleted"
      | SecretRequested => "SecretRequested" | SecretHandleStored => "SecretHandleStored"
      | KRiskDetected => "RiskDetected" | TaskCompleted => "TaskCompleted"
      | TaskFailed => "TaskFailed" | TaskKilled => "TaskKilled"
      end.
Definition visibility_name (v : Visibility) : bytes :=
  lit match v with ModelVisible => "ModelVisible" | Internal => "Internal" end.
Definition redaction_name (r : RedactionState) : bytes :=
  lit match r with Clean => "Clean" | Redacted => "Redacted" end.

(** JSON fragments: a quoted string and a [,"key":] separator. *)
Definition quoted (b : bytes) : bytes := [34] ++ b ++ [34].
Definition key (k : string) : bytes := [44] ++ quoted (lit k) ++ [58].
Definition opt_id (o : option Z) : bytes :=
  match o with Some v => dec v | None => lit "null" end.

(** One line of [EventLog::export_jsonl]. *)
Definition export_frame (fp : EventFrame * bytes) : bytes :=
  let '(fr, payload) := fp in
  lit "{" ++ quoted (lit "seq") ++ lit ":" ++ dec (f_seq fr) ++
  key "timestamp" ++ dec (f_timestamp fr) ++
  key "task_id" ++ opt_id (f_task_id fr) ++
  key "job_id" ++ opt_id (f_job_id fr) ++
  key "actor" ++ quoted (actor_name (f_actor fr)) ++
  key "kind" ++ quoted (kind_name (f_kind fr)) ++
  key "visibility" ++ quoted (visibility_name (f_visibility fr)) ++
  key "redaction" ++ quoted (redaction_name (f_redaction fr)) ++
  key "payload_hash" ++ quoted (hex_of (f_payload_hash fr)) ++
  key "prev_hash" ++ quoted (hex_of (f_prev_hash fr)) ++
  key "frame_hash" ++ quoted (hex_of (f_frame_hash fr)) ++
  (if bool_decide (f_redaction fr = Redacted) then
     key "payload_len" ++ lit "null" ++ key "payload" ++ quoted (lit "<redacted>")
   else if bool_decide (f_visibility fr = ModelVisible) then
     key "payload_len" ++ dec (Z.of_nat (length payload)) ++
     key "payload" ++ quoted (hex_of payload)
   else
     key "payload_len" ++ dec (Z.of_nat (length payload)) ++
     key "payload" ++ quoted (lit "<internal>")) ++
  lit "}" ++ [10].

Section Log.
Context `{HS : Hash}.

(** [EventLog::append]. An over-long payload is cut to [u32::MAX] bytes, as in a release
    build (a debug build asserts). *)
Definition append (log : EventLog) (m : FrameMeta) (payload : bytes) : EventLog * bytes :=
  let payload_len := Z.min (Z.of_nat (length payload)) u32_MAX in
  let written := take (Z.to_nat payload_len) payload in
  let payload_hash := hash written in
  let prev_hash := head_hash log in
  let frame := encode_frame_prefix m payload_len payload_hash prev_hash in
  let frame := frame ++ written in
  let frame_hash := hash frame in
  let frame := frame ++ frame_hash in
  (mkLog (log_bytes log ++ frame) frame_hash (S (count log)), frame_hash).

(** The loop of [EventLog::walk]. *)
Fixpoint walk_loop (fuel : nat) (bs : bytes) (frames : list (EventFrame * bytes))
    (offset : nat) (prev_hash : bytes) (index : nat) (last_seq : option Z)
    : list (EventFrame * bytes) * ChainStatus :=
  match fuel with
  | O => (frames, Intact index)
  | S fuel' =>
      if decide (length bs ≤ offset)%nat then (frames, Intact index) else
      match decode_at bs offset with
      | Err reason => (frames, Broken index reason)
      | Ok d =>
          let fr := d_frame d in
          if negb (bool_decide (hash (d_payload d) = f_payload_hash fr))
          then (frames, Broken index PayloadHashMismatch) else
          let frame_body := take (d_frame_hash_offset d - offset) (drop offset bs) in
          if negb (bool_decide (hash frame_body = f_frame_hash fr))
          then (frames, Broken index FrameHashMismatch) else
          if negb (bool_decide (f_prev_hash fr = prev_hash))
          then (frames, Broken index PrevHashMismatch) else
          if match last_seq with Some s => f_seq fr <=? s | None => false end
          then (frames, Broken index NonMonotonicSeq) else
          walk_loop fuel' bs (frames ++ [(fr, d_payload d)]) (d_next_offset d)
            (f_frame_hash fr) (S index) (Some (f_seq fr))
      end
  end.

(** [EventLog::walk]: [length bs] iterations are enough, since a frame is not empty. *)
Definition walk (bs : bytes) : list (EventFrame * bytes) * ChainStatus :=
  walk_loop (length bs) bs [] 0 GENESIS_PREV_HASH 0 None.

(** [EventLog::verify]. *)
Definition verify (bs : bytes) : ChainStatus := (walk bs).2.

(** [EventLog::verify_to_head]. *)
Definition verify_to_head (bs : bytes) (expected_head : bytes) : ChainStatus :=
  let '(frames, status) := walk bs in
  match status with
  | Broken _ _ => status
  | Intact n =>
      let actual_head :=
        match last frames with Some (f, _) => f_frame_hash f | None => GENESIS_PREV_HASH end in
      if bool_decide (actual_head = expected_head) then Intact n
      else Broken n HeadMismatch
  end.

(** [EventLog::inspect]. *)
Definition inspect (bs : bytes) : InspectReport :=
  let '(frames, status) := walk bs in
  mkReport status (length frames) (fold_left roll_up frames []).

(** [EventLog::export_jsonl]. *)
Definition export_jsonl (bs : bytes) : bytes := (walk bs).1 ≫= export_frame.

End Log.
