(* ===== verification/EventLogProps.v ===== *)
(** * The frame codec and the verification walk

    Encoding and decoding are inverse to each other at any offset; the walk
    accepts exactly the byte strings that appending produces; the tampering
    theorem extracts a hash collision from two logs with one head. *)

From S2P Require Import Prelude Types Sha256 KernelState EventLog.

(** ** Reading at an offset, as a split of the rest of the buffer *)

Lemma read_array_Some n bs off s :
  read_array n bs off = Some s →
  drop off bs = s ++ drop (off + n) bs ∧ length s = n ∧ (off + n ≤ length bs)%nat.
Proof. apply slice_at_Some. Qed.

Lemma read_array_intro n bs off s R :
  drop off bs = s ++ R → length s = n → (off ≤ length bs)%nat →
  read_array n bs off = Some s ∧ drop (off + n) bs = R ∧ (off + n ≤ length bs)%nat.
Proof. apply slice_at_intro. Qed.

Lemma lookup_drop_Some (bs : bytes) off b :
  bs !! off = Some b → drop off bs = b :: drop (off + 1) bs ∧ (off + 1 ≤ length bs)%nat.
Proof.
  intros Hb. pose proof (lookup_lt_Some _ _ _ Hb). split; [|lia].
  rewrite (drop_S bs b off Hb). by rewrite Nat.add_1_r.
Qed.

Lemma lookup_drop_intro (bs : bytes) off b R :
  drop off bs = b :: R →
  bs !! off = Some b ∧ drop (off + 1) bs = R ∧ (off + 1 ≤ length bs)%nat.
Proof.
  intros Hd. assert (length (drop off bs) = S (length R)) as Hl by (by rewrite Hd).
  rewrite length_drop in Hl. split; [|split; [|lia]].
  - rewrite <-(Nat.add_0_r off), <-lookup_drop, Hd. done.
  - by rewrite <-drop_drop, Hd.
Qed.

(** ** Discriminants *)

Lemma find_Some {A} (p : A → bool) l x : find p l = Some x → p x = true ∧ x ∈ l.
Proof. intros [? ?]%List.find_some. split; [done|]. by apply list_elem_of_In. Qed.

Lemma actor_byte a : actor_from_byte (actor_as_u8 a) = Some a.
Proof. by destruct a. Qed.
Lemma actor_byte_inv b a : actor_from_byte b = Some a → actor_as_u8 a = b.
Proof. intros [H _]%find_Some. by apply Z.eqb_eq. Qed.
Lemma kind_byte k : kind_from_byte (kind_as_u8 k) = Some k.
Proof. by destruct k. Qed.
Lemma kind_byte_inv b k : kind_from_byte b = Some k → kind_as_u8 k = b.
Proof. intros [H _]%find_Some. by apply Z.eqb_eq. Qed.
Lemma visibility_byte v : visibility_from_byte (visibility_to_byte v) = Some v.
Proof. by destruct v. Qed.
Lemma visibility_byte_inv b v : visibility_from_byte b = Some v → visibility_to_byte v = b.
Proof.
  unfold visibility_from_byte. destruct (Z.eqb_spec b 0); [intros; by simplify_eq|].
  destruct (Z.eqb_spec b 1); intros; by simplify_eq.
Qed.
Lemma redaction_byte r : redaction_from_byte (redaction_to_byte r) = Some r.
Proof. by destruct r. Qed.
Lemma redaction_byte_inv b r : redaction_from_byte b = Some r → redaction_to_byte r = b.
Proof.
  unfold redaction_from_byte. destruct (Z.eqb_spec b 0); [intros; by simplify_eq|].
  destruct (Z.eqb_spec b 1); intros; by simplify_eq.
Qed.

Definition is_Someb {A} (o : option A) : bool := match o with Some _ => true | None => false end.

(** The flag byte of a frame. *)
Definition flags_of (m : FrameMeta) : Z :=
  (if is_Someb (m_task_id m) then 1 else 0) + (if is_Someb (m_job_id m) then 2 else 0).

Lemma flags_byte_cases fl :
  is_byte fl → Z.land fl (u8_MAX - Z.lor FLAG_HAS_TASK FLAG_HAS_JOB) = 0 →
  fl = 0 ∨ fl = 1 ∨ fl = 2 ∨ fl = 3.
Proof.
  intros Hb H. assert (fl / 4 = 0) as Hdiv.
  { change 4 with (2 ^ 2). rewrite <-Z.shiftr_div_pow2 by lia.
    apply Z.bits_inj'. intros n Hn. rewrite Z.bits_0, Z.shiftr_spec by done.
    destruct (decide (n + 2 < 8)) as [Hlt|Hge].
    - assert (Z.testbit (Z.land fl 252) (n + 2) = false) as Ht
        by (change 252 with (u8_MAX - Z.lor FLAG_HAS_TASK FLAG_HAS_JOB); rewrite H; apply Z.bits_0).
      rewrite Z.land_spec in Ht.
      assert (Z.testbit 252 (n + 2) = true) as Hc
        by (assert (n = 0 ∨ n = 1 ∨ n = 2 ∨ n = 3 ∨ n = 4 ∨ n = 5) as Hn' by lia;
            destruct Hn' as [->|[->|[->|[->|[->| ->]]]]]; done).
      by rewrite Hc, andb_true_r in Ht.
    - apply Z.testbit_false; [lia|]. unfold is_byte in Hb.
      rewrite Z.div_small; [done|]. split; [lia|].
      apply Z.lt_le_trans with (2 ^ 8); [simpl; lia|]. apply Z.pow_le_mono_r; lia. }
  unfold is_byte in Hb. pose proof (Z.div_mod fl 4 ltac:(lia)).
  pose proof (Z.mod_pos_bound fl 4 ltac:(lia)). lia.
Qed.

(** ** Decoding what was encoded, and conversely *)

Definition id_wf (o : option Z) : Prop := match o with Some v => is_uint 128 v | None => True end.
Record meta_wf (m : FrameMeta) : Prop := {
  wf_seq : is_uint 64 (m_seq m);
  wf_timestamp : is_uint 64 (m_timestamp m);
  wf_task : id_wf (m_task_id m);
  wf_job : id_wf (m_job_id m) }.

(** The header a frame of [m] decodes to. *)
Definition frame_of (m : FrameMeta) (payload_hash prev_hash frame_hash : bytes) : EventFrame :=
  mkFrame (m_seq m) (m_timestamp m) (m_task_id m) (m_job_id m) (m_actor m) (m_kind m)
    (m_visibility m) (m_redaction m) payload_hash prev_hash frame_hash.

Definition id_bytes (o : option Z) : bytes :=
  match o with Some v => to_le_bytes 16 v | None => [] end.

Lemma encode_prefix_eq m n ph pv :
  encode_frame_prefix m n ph pv =
  FRAME_MAGIC ++ to_le_bytes 2 FRAME_VERSION ++ [flags_of m] ++ [actor_as_u8 (m_actor m)] ++
  [kind_as_u8 (m_kind m)] ++ [visibility_to_byte (m_visibility m)] ++
  [redaction_to_byte (m_redaction m)] ++ to_le_bytes 8 (m_seq m) ++
  to_le_bytes 8 (m_timestamp m) ++ id_bytes (m_task_id m) ++ id_bytes (m_job_id m) ++
  to_le_bytes 4 n ++ ph ++ pv.
Proof. unfold encode_frame_prefix, flags_of. by destruct (m_task_id m), (m_job_id m). Qed.

Lemma read_id_intro (o : option Z) bs off R :
  id_wf o → drop off bs = id_bytes o ++ R → (off ≤ length bs)%nat →
  ∃ off', read_id (is_Someb o) bs off = Ok (o, off') ∧ drop off' bs = R ∧
          off' = (off + length (id_bytes o))%nat ∧ (off' ≤ length bs)%nat.
Proof.
  intros Hw Hd Ho. destruct o as [v|]; cbn [is_Someb id_bytes id_wf length] in *.
  - destruct (read_array_intro 16 _ _ _ _ Hd (length_to_le_bytes _ _) Ho) as (E & Hd' & Ho').
    exists (off + 16)%nat. unfold read_id. rewrite E. cbn [ok_or mbind result_bind].
    rewrite from_to_le_bytes, length_to_le_bytes by done. done.
  - exists off. rewrite Nat.add_0_r. done.
Qed.

Lemma read_id_inv has bs off o off' :
  Forall is_byte bs → (off ≤ length bs)%nat → read_id has bs off = Ok (o, off') →
  has = is_Someb o ∧ id_wf o ∧ drop off bs = id_bytes o ++ drop off' bs ∧
  off' = (off + length (id_bytes o))%nat ∧ (off' ≤ length bs)%nat.
Proof.
  intros Hb Ho. unfold read_id. destruct has.
  - destruct (read_array 16 bs off) as [v|] eqn:E; cbn; intros; [|done]. simplify_eq.
    destruct (read_array_Some _ _ _ _ E) as (Hd & Hl & Ho').
    assert (Forall is_byte v) as Hv by (by eapply slice_byte).
    pose proof (from_le_bytes_range v Hv) as Hr. rewrite Hl in Hr.
    split; [done|]. split; [exact Hr|]. unfold id_bytes. rewrite length_to_le_bytes.
    split; [|done]. rewrite <-Hl at 1. by rewrite to_from_le_bytes.
  - intros. simplify_eq. rewrite Nat.add_0_r. done.
Qed.

(** Moves the reader of the goal over the array, or the byte, that [H] puts at its offset. *)
Ltac step_result := cbn [ok_or mbind result_bind].
Ltac read_step n H Ho :=
  rewrite <-?app_assoc in H;
  let E := fresh in let H' := fresh in let Ho' := fresh in
  edestruct (read_array_intro n _ _ _ _ H) as (E & H' & Ho');
  [first [apply length_to_le_bytes | eassumption | reflexivity] | exact Ho | ];
  clear H; rename H' into H; clear Ho; rename Ho' into Ho;
  rewrite E; clear E; step_result.
Ltac peek_step H Ho :=
  let E := fresh in let H' := fresh in let Ho' := fresh in
  destruct (lookup_drop_intro _ _ _ _ H) as (E & H' & Ho');
  clear H; rename H' into H; clear Ho; rename Ho' into Ho;
  rewrite E; clear E; step_result.

Lemma decode_intro bs off m n ph pv payload fh R :
  meta_wf m → length ph = 32%nat → length pv = 32%nat → length fh = 32%nat →
  n = Z.of_nat (length payload) → n ≤ u32_MAX → (off ≤ length bs)%nat →
  drop off bs = encode_frame_prefix m n ph pv ++ payload ++ fh ++ R →
  let e := (off + length (encode_frame_prefix m n ph pv ++ payload))%nat in
  decode_at bs off = Ok (mkDecoded (frame_of m ph pv fh) payload e (e + 32)).
Proof.
  intros [Hseq Hts Htask Hjob] Hph Hpv Hfh Hn Hmax Ho Hd e.
  unfold e. clear e. rewrite encode_prefix_eq in *. unfold decode_at. cbv zeta.
  read_step 4%nat Hd Ho. rewrite bool_decide_true by done. cbn [negb].
  read_step 2%nat Hd Ho.
  change (negb (from_le_bytes (to_le_bytes 2 FRAME_VERSION) =? FRAME_VERSION)) with false.
  cbv iota. peek_step Hd Ho.
  assert (negb (Z.land (flags_of m) (u8_MAX - Z.lor FLAG_HAS_TASK FLAG_HAS_JOB) =? 0) = false
    ∧ negb (Z.land (flags_of m) FLAG_HAS_TASK =? 0) = is_Someb (m_task_id m)
    ∧ negb (Z.land (flags_of m) FLAG_HAS_JOB =? 0) = is_Someb (m_job_id m)) as (-> & -> & ->)
    by (unfold flags_of; by destruct (m_task_id m), (m_job_id m)).
  peek_step Hd Ho. rewrite actor_byte. step_result.
  peek_step Hd Ho. rewrite kind_byte. step_result.
  peek_step Hd Ho. rewrite visibility_byte. step_result.
  peek_step Hd Ho. rewrite redaction_byte. step_result.
  read_step 8%nat Hd Ho. read_step 8%nat Hd Ho.
  edestruct (read_id_intro (m_task_id m)) as (o1 & -> & Hd1 & -> & Ho1); [done|exact Hd|done|].
  step_result.
  edestruct (read_id_intro (m_job_id m)) as (o2 & -> & Hd2 & -> & Ho2); [done|exact Hd1|done|].
  step_result. clear Hd Ho Hd1 Ho1.
  read_step 4%nat Hd2 Ho2. read_step 32%nat Hd2 Ho2. read_step 32%nat Hd2 Ho2.
  assert (from_le_bytes (to_le_bytes 4 n) = n) as ->
    by (apply from_to_le_bytes; unfold u32_MAX in *; change (256 ^ Z.of_nat 4) with 4294967296; lia).
  match type of Hd2 with drop ?o _ = _ => set (off2 := o) in * end.
  edestruct (read_array_intro (length payload) _ _ _ _ Hd2 eq_refl Ho2) as (E & Hd3 & Ho3).
  rewrite (proj2 (Z.ltb_ge _ _)) by lia. unfold read_array in E.
  replace (Z.to_nat n) with (length payload) by lia. rewrite E. step_result.
  clear E Hd2. read_step 32%nat Hd3 Ho3. rewrite !from_to_le_bytes by done.
  unfold frame_of. f_equal. unfold off2. repeat rewrite length_app. rewrite !length_to_le_bytes.
  simpl length. rewrite Hph, Hpv. f_equal; lia.
Qed.

(** Inverts one read of a successful decode. *)
Ltac inv_read H x E :=
  match type of H with
  | context [ok_or ?c _] => destruct c as [x|] eqn:E; cbn [ok_or mbind result_bind] in H;
                            [|discriminate H]
  end.
Ltac inv_guard H :=
  match type of H with
  | (if ?b then Err _ else _) = Ok _ => destruct b eqn:?; [discriminate H|]
  end.

Lemma from_le_bytes_u64 v :
  Forall is_byte v → length v = 8%nat → is_uint 64 (from_le_bytes v).
Proof. intros Hv Hl. exact (from_le_bytes_uint 8 v Hv Hl). Qed.

Lemma length_prefix m n ph pv :
  length ph = 32%nat → length pv = 32%nat →
  length (encode_frame_prefix m n ph pv) =
  (95 + length (id_bytes (m_task_id m)) + length (id_bytes (m_job_id m)))%nat.
Proof.
  intros Hph Hpv. rewrite encode_prefix_eq, !length_app, !length_to_le_bytes, Hph, Hpv.
  simpl length. lia.
Qed.

(** The split of the buffer an array read at a known offset gives. *)
Lemma read_array_byte n bs off s :
  Forall is_byte bs → read_array n bs off = Some s → Forall is_byte s.
Proof. apply slice_byte. Qed.

Lemma slice_read_array bs off n s : slice bs off (off + n) = Some s → read_array n bs off = Some s.
Proof. done. Qed.

Ltac inv_array E D L :=
  let O := fresh "O" in
  pose proof (read_array_Some _ _ _ _ (slice_read_array _ _ _ _ E)) as (D & L & O).

Lemma decode_inv bs off d :
  Forall is_byte bs → (off ≤ length bs)%nat → decode_at bs off = Ok d →
  ∃ m ph pv fh,
    let n := Z.of_nat (length (d_payload d)) in
    let e := (off + length (encode_frame_prefix m n ph pv ++ d_payload d))%nat in
    meta_wf m ∧ length ph = 32%nat ∧ length pv = 32%nat ∧ length fh = 32%nat ∧ n ≤ u32_MAX ∧
    d = mkDecoded (frame_of m ph pv fh) (d_payload d) e (e + 32) ∧
    drop off bs = encode_frame_prefix m n ph pv ++ d_payload d ++ fh ++ drop (d_next_offset d) bs ∧
    (d_next_offset d ≤ length bs)%nat.
Proof.
  intros Hb Ho H. unfold decode_at in H. cbv zeta in H.
  inv_read H magic E1. inv_guard H. inv_read H version E2. inv_guard H.
  inv_read H flags E3. inv_guard H.
  inv_read H b1 E4. inv_read H actor A1. inv_read H b2 E5. inv_read H kind A2.
  inv_read H b3 E6. inv_read H vis A3. inv_read H b4 E7. inv_read H redac A4.
  inv_read H sq E8. inv_read H ts E9.
  match type of H with mbind _ ?c = _ => destruct c as [[task off1]|] eqn:E10 end;
    cbn [mbind result_bind] in H; [|discriminate H].
  match type of H with mbind _ ?c = _ => destruct c as [[jb off2]|] eqn:E11 end;
    cbn [mbind result_bind] in H; [|discriminate H].
  inv_read H len E12. inv_read H ph E13. inv_read H pv E14. inv_guard H.
  inv_read H payload E15. inv_read H fh E16. injection H as <-. cbn [d_payload d_next_offset].
  repeat match goal with
  | E : negb _ = false |- _ => apply negb_false_iff in E
  | E : bool_decide _ = true |- _ => apply bool_decide_eq_true in E
  | E : (_ =? _) = true |- _ => apply Z.eqb_eq in E
  | E : (_ <? _) = false |- _ => apply Z.ltb_ge in E
  end.
  apply actor_byte_inv in A1. apply kind_byte_inv in A2. apply visibility_byte_inv in A3.
  apply redaction_byte_inv in A4.
  pose proof (flags_byte_cases flags (Forall_lookup_1 _ _ _ _ Hb E3) ltac:(done)) as Hfl.
  inv_array E1 D1 L1. inv_array E2 D2 L2. inv_array E8 D8 L8. inv_array E9 D9 L9.
  apply lookup_drop_Some in E3 as [D3 _], E4 as [D4 _], E5 as [D5 _], E6 as [D6 _], E7 as [D7 _].
  apply read_id_inv in E10 as (F10 & W10 & D10 & -> & O10); [|done..].
  apply read_id_inv in E11 as (F11 & W11 & D11 & -> & O11); [|done..].
  inv_array E12 D12 L12. inv_array E13 D13 L13. inv_array E14 D14 L14.
  assert (Z.to_nat (from_le_bytes len) = length payload) as Hplen
    by (apply slice_Some in E15 as (_ & _ & ->); lia).
  rewrite Hplen in *. inv_array E15 D15 L15. inv_array E16 D16 L16.
  pose proof (from_le_bytes_uint 4 len ltac:(eauto using read_array_byte) L12) as Hlen.
  set (m := mkMeta (from_le_bytes sq) (from_le_bytes ts) task jb actor kind vis redac).
  assert (flags = flags_of m) as Hflags
    by (unfold flags_of, m; cbn [m_task_id m_job_id]; rewrite <-F10, <-F11;
        by destruct Hfl as [->|[->|[->| ->]]]).
  exists m, ph, pv, fh. cbv zeta. rewrite length_app, length_prefix by done.
  split; [split; [apply from_le_bytes_u64; eauto using read_array_byte..|done|done]|].
  do 3 (split; [done|]). split; [unfold u32_MAX; change (256 ^ Z.of_nat 4) with 4294967296 in Hlen; lia|].
  split; [unfold m; cbn [m_task_id m_job_id]; f_equal; lia|]. split; [|lia].
  rewrite encode_prefix_eq, <-!app_assoc, <-Hflags, D1, D2, D3, D4, D5, D6, D7, D8, D9, D10, D11,
    D12, D13, D14, D15, D16.
  unfold m. cbn [m_seq m_timestamp m_task_id m_job_id m_actor m_kind m_visibility m_redaction].
  rewrite <-Hplen, Z2Nat.id by lia. rewrite A1, A2, A3, A4.
  rewrite <-Heqb0. rewrite !to_from_le_bytes_n by eauto using read_array_byte. by subst magic.
Qed.

(** ** Logs as lists of records *)

(** The abstract view of a log: the appended records, in order. *)
Abbreviation Rec := (FrameMeta * list Z)%type (only parsing).

Record record_wf (r : Rec) : Prop := {
  rec_meta : meta_wf r.1;
  rec_len : Z.of_nat (length r.2) ≤ u32_MAX;
  rec_bytes : Forall is_byte r.2 }.

(** Sequence numbers strictly increase, above [last]. *)
Fixpoint seqs_above (last : option Z) (rs : list Rec) : Prop :=
  match rs with
  | [] => True
  | r :: rs' =>
      match last with Some s => s < m_seq r.1 | None => True end ∧ seqs_above (Some (m_seq r.1)) rs'
  end.

Section Chain.
Context `{HS : Hash}.

Definition frame_body (prev : bytes) (r : Rec) : bytes :=
  encode_frame_prefix r.1 (Z.of_nat (length r.2)) (hash r.2) prev ++ r.2.
Definition frame_bytes (prev : bytes) (r : Rec) : bytes :=
  frame_body prev r ++ hash (frame_body prev r).

Fixpoint encode_chain (prev : bytes) (rs : list Rec) : bytes :=
  match rs with
  | [] => []
  | r :: rs' => frame_bytes prev r ++ encode_chain (hash (frame_body prev r)) rs'
  end.
Fixpoint chain_head (prev : bytes) (rs : list Rec) : bytes :=
  match rs with
  | [] => prev
  | r :: rs' => chain_head (hash (frame_body prev r)) rs'
  end.
Fixpoint chain_frames (prev : bytes) (rs : list Rec) : list (EventFrame * bytes) :=
  match rs with
  | [] => []
  | r :: rs' =>
      (frame_of r.1 (hash r.2) prev (hash (frame_body prev r)), r.2)
        :: chain_frames (hash (frame_body prev r)) rs'
  end.
(** The hashed bodies of the frames. *)
Fixpoint chain_bodies (prev : bytes) (rs : list Rec) : list bytes :=
  match rs with
  | [] => []
  | r :: rs' => frame_body prev r :: chain_bodies (hash (frame_body prev r)) rs'
  end.

(** The log that holds the records [rs]. *)
Definition log_of (rs : list Rec) : EventLog :=
  mkLog (encode_chain GENESIS_PREV_HASH rs) (chain_head GENESIS_PREV_HASH rs) (length rs).

#[local] Arguments frame_body : simpl never.
#[local] Arguments frame_bytes : simpl never.

Lemma frame_bytes_length prev r : (0 < length (frame_bytes prev r))%nat.
Proof. unfold frame_bytes. rewrite length_app, hash_length. lia. Qed.

Lemma encode_chain_length prev rs : (length rs ≤ length (encode_chain prev rs))%nat.
Proof.
  revert prev. induction rs as [|r rs IH]; intros prev; simpl; [lia|]. rewrite length_app.
  pose proof (frame_bytes_length prev r). specialize (IH (hash (frame_body prev r))). lia.
Qed.

Lemma encode_chain_app prev rs1 rs2 :
  encode_chain prev (rs1 ++ rs2) = encode_chain prev rs1 ++ encode_chain (chain_head prev rs1) rs2.
Proof.
  revert prev. induction rs1 as [|r rs1 IH]; intros prev; simpl; [done|].
  by rewrite IH, app_assoc.
Qed.

Lemma chain_head_app prev rs1 rs2 :
  chain_head prev (rs1 ++ rs2) = chain_head (chain_head prev rs1) rs2.
Proof. revert prev. induction rs1 as [|r rs1 IH]; intros prev; simpl; [done|]. by rewrite IH. Qed.

Lemma chain_frames_app prev rs1 rs2 :
  chain_frames prev (rs1 ++ rs2) =
  chain_frames prev rs1 ++ chain_frames (chain_head prev rs1) rs2.
Proof. revert prev. induction rs1 as [|r rs1 IH]; intros prev; simpl; [done|]. by rewrite IH. Qed.

Lemma chain_bodies_app prev rs1 rs2 :
  chain_bodies prev (rs1 ++ rs2) =
  chain_bodies prev rs1 ++ chain_bodies (chain_head prev rs1) rs2.
Proof. revert prev. induction rs1 as [|r rs1 IH]; intros prev; simpl; [done|]. by rewrite IH. Qed.

Lemma chain_head_length prev rs : length prev = 32%nat → length (chain_head prev rs) = 32%nat.
Proof.
  revert prev. induction rs as [|r rs IH]; intros prev Hp; simpl; [done|]. apply IH, hash_length.
Qed.

Lemma chain_frames_length prev rs : length (chain_frames prev rs) = length rs.
Proof. revert prev. induction rs as [|r rs IH]; intros prev; simpl; [done|]. by rewrite IH. Qed.

Lemma chain_frames_last rs :
  match last (chain_frames GENESIS_PREV_HASH rs) with
  | Some (f, _) => f_frame_hash f | None => GENESIS_PREV_HASH end
  = chain_head GENESIS_PREV_HASH rs.
Proof.
  destruct rs as [|r rs _] using rev_ind; [done|].
  rewrite chain_frames_app, chain_head_app. simpl. by rewrite last_snoc.
Qed.

(** Decoding the frame of [r] after a prefix. *)
Lemma decode_frame pre prev r R :
  record_wf r → length prev = 32%nat →
  let e := (length pre + length (frame_body prev r))%nat in
  decode_at (pre ++ frame_bytes prev r ++ R) (length pre) =
  Ok (mkDecoded (frame_of r.1 (hash r.2) prev (hash (frame_body prev r))) r.2 e (e + 32)).
Proof.
  intros [Hm Hl _] Hp e.
  apply decode_intro with R; auto with crust.
  - rewrite length_app. lia.
  - rewrite drop_app_length. unfold frame_bytes, frame_body. by rewrite <-!app_assoc.
Qed.

Lemma decode_frame_body pre prev r R :
  take (length pre + length (frame_body prev r) - length pre)
    (drop (length pre) (pre ++ frame_bytes prev r ++ R)) = frame_body prev r.
Proof.
  rewrite drop_app_length. unfold frame_bytes. rewrite <-app_assoc.
  replace (length pre + length (frame_body prev r) - length pre)%nat
    with (length (frame_body prev r)) by lia. apply take_app_length.
Qed.

Fixpoint last_seq_of (last : option Z) (rs : list Rec) : option Z :=
  match rs with
  | [] => last
  | r :: rs' => last_seq_of (Some (m_seq r.1)) rs'
  end.

(** The walk runs through an encoded chain, whatever follows it. *)
Lemma walk_loop_through rs tl fuel pre frames prev idx last :
  Forall record_wf rs → seqs_above last rs → length prev = 32%nat →
  walk_loop (length rs + fuel) (pre ++ encode_chain prev rs ++ tl) frames (length pre) prev idx last =
  walk_loop fuel (pre ++ encode_chain prev rs ++ tl) (frames ++ chain_frames prev rs)
    (length (pre ++ encode_chain prev rs)) (chain_head prev rs) (idx + length rs)
    (last_seq_of last rs).
Proof.
  revert pre frames prev idx last.
  induction rs as [|r rs IH]; intros pre frames prev idx last Hwf Hseq Hp;
    cbn [encode_chain chain_frames chain_head last_seq_of length Nat.add].
  - by rewrite !app_nil_r, Nat.add_0_r.
  - apply Forall_cons in Hwf as [Hr Hwf]. destruct Hseq as [Hlast Hseq]. cbn [walk_loop].
    rewrite decide_False by (rewrite !length_app; pose proof (frame_bytes_length prev r); lia).
    rewrite <-app_assoc, decode_frame by done.
    cbn [d_frame d_payload d_frame_hash_offset d_next_offset].
    rewrite decode_frame_body. cbn [frame_of f_payload_hash f_frame_hash f_prev_hash f_seq].
    rewrite !bool_decide_true by done. cbn [negb].
    replace (match last with Some s => m_seq r.1 <=? s | None => false end) with false
      by (destruct last; [symmetry; apply Z.leb_gt; lia|done]).
    replace (length pre + length (frame_body prev r) + 32)%nat with (length (pre ++ frame_bytes prev r))
      by (unfold frame_bytes; rewrite !length_app, hash_length; lia).
    rewrite (app_assoc pre), IH; [|done|done|apply hash_length].
    rewrite <-!app_assoc, Nat.add_succ_r. done.
Qed.

(** The walk accepts an encoded chain and returns its frames. *)
Lemma walk_loop_chain rs fuel pre frames prev idx last :
  Forall record_wf rs → seqs_above last rs → length prev = 32%nat → (length rs ≤ fuel)%nat →
  walk_loop fuel (pre ++ encode_chain prev rs) frames (length pre) prev idx last =
  (frames ++ chain_frames prev rs, Intact (idx + length rs)).
Proof.
  intros Hwf Hseq Hp Hf. replace fuel with (length rs + (fuel - length rs))%nat by lia.
  rewrite <-(app_nil_r (encode_chain prev rs)), walk_loop_through by done. rewrite app_nil_r.
  destruct (fuel - length rs)%nat; cbn [walk_loop]; [done|]. by rewrite decide_True.
Qed.

(** An encoded chain is made of bytes. *)
Lemma prefix_byte m n ph pv :
  Forall is_byte ph → Forall is_byte pv → Forall is_byte (encode_frame_prefix m n ph pv).
Proof.
  intros Hph Hpv. rewrite encode_prefix_eq.
  repeat (apply Forall_app; split); try done; try apply to_le_bytes_byte; try apply lit_byte.
  - apply Forall_singleton. unfold flags_of, is_byte.
    destruct (is_Someb (m_task_id m)), (is_Someb (m_job_id m)); lia.
  - apply Forall_singleton. unfold is_byte. destruct (m_actor m); simpl; lia.
  - apply Forall_singleton. unfold is_byte. destruct (m_kind m); simpl; lia.
  - apply Forall_singleton. unfold is_byte. destruct (m_visibility m); simpl; lia.
  - apply Forall_singleton. unfold is_byte. destruct (m_redaction m); simpl; lia.
  - destruct (m_task_id m); [apply to_le_bytes_byte|constructor].
  - destruct (m_job_id m); [apply to_le_bytes_byte|constructor].
Qed.

Lemma frame_bytes_byte prev r :
  Forall is_byte prev → record_wf r → Forall is_byte (frame_bytes prev r).
Proof.
  intros Hp Hr. unfold frame_bytes, frame_body. rewrite !Forall_app.
  split_and!; [apply prefix_byte; auto with crust|apply Hr|apply hash_byte].
Qed.

Lemma encode_chain_byte prev rs :
  Forall is_byte prev → Forall record_wf rs → Forall is_byte (encode_chain prev rs).
Proof.
  revert prev. induction rs as [|r rs IH]; intros prev Hp Hwf; [constructor|].
  apply Forall_cons in Hwf as [Hr Hwf]. cbn [encode_chain]. apply Forall_app.
  split; [by apply frame_bytes_byte|]. apply IH; auto with crust.
Qed.

Lemma chain_head_byte prev rs : Forall is_byte prev → Forall is_byte (chain_head prev rs).
Proof.
  revert prev. induction rs as [|r rs IH]; intros prev Hp; [done|]. apply IH. auto with crust.
Qed.

(** How a walk can end after the verified records [rs]. *)
Definition walk_end (idx : nat) (rs : list Rec) (rest : bytes) (st : ChainStatus) : Prop :=
  match st with
  | Intact n => n = (idx + length rs)%nat ∧ rest = []
  | Broken i _ => i = (idx + length rs)%nat ∧ rest ≠ []
  end.

(** Whatever the bytes, the frames the walk returns are those of an encoded chain that
    starts the buffer. *)
Lemma walk_loop_inv fuel bs frames off prev idx last fs st :
  Forall is_byte bs → (off ≤ length bs)%nat → (length bs - off ≤ fuel)%nat →
  walk_loop fuel bs frames off prev idx last = (fs, st) →
  ∃ rs rest, drop off bs = encode_chain prev rs ++ rest ∧ Forall record_wf rs ∧
    seqs_above last rs ∧ fs = frames ++ chain_frames prev rs ∧ walk_end idx rs rest st.
Proof.
  intros Hb. revert frames off prev idx last.
  induction fuel as [|fuel IH]; intros frames off prev idx last Ho Hf Hw; cbn [walk_loop] in Hw.
  { simplify_eq. exists [], []. rewrite drop_ge by lia. simpl. rewrite app_nil_r, Nat.add_0_r.
    repeat split; constructor. }
  case_decide as Hoff.
  { simplify_eq. exists [], []. rewrite drop_ge by lia. simpl. rewrite app_nil_r, Nat.add_0_r.
    repeat split; constructor. }
  assert (∀ reason, (frames, Broken idx reason) = (fs, st) →
    ∃ rs rest, drop off bs = encode_chain prev rs ++ rest ∧ Forall record_wf rs ∧
    seqs_above last rs ∧ fs = frames ++ chain_frames prev rs ∧ walk_end idx rs rest st) as Hbrk.
  { intros reason Heq. simplify_eq. exists [], (drop off bs). simpl.
    rewrite app_nil_r, Nat.add_0_r. repeat split; [constructor|].
    intros Hnil. apply (f_equal length) in Hnil. rewrite length_drop in Hnil. simpl in Hnil. lia. }
  destruct (decode_at bs off) as [d|] eqn:Hd; [|by eapply Hbrk].
  destruct (decode_inv _ _ _ Hb Ho Hd) as (m & ph & pv & fh & Hm & Hph & Hpv & Hfh & Hmax & Hdd & Hdrop & Hnext).
  set (payload := d_payload d) in *.
  rewrite Hdd in Hw, Hdrop, Hnext. clear Hdd Hd.
  cbn [d_frame d_payload d_frame_hash_offset d_next_offset] in Hw, Hdrop, Hnext. cbn [frame_of f_payload_hash f_frame_hash f_prev_hash f_seq] in Hw.
  case_bool_decide as G1; cbn [negb] in Hw; [|by eapply Hbrk].
  case_bool_decide as G2; cbn [negb] in Hw; [|by eapply Hbrk].
  case_bool_decide as G3; cbn [negb] in Hw; [|by eapply Hbrk]. subst pv.
  match type of Hw with (if ?b then _ else _) = _ => destruct b eqn:Hs; [by eapply Hbrk|] end.
  clear Hbrk.
  subst ph. set (r := (m, payload) : Rec). rewrite app_assoc in Hdrop.
  change (encode_frame_prefix m (Z.of_nat (length payload)) (hash payload) prev ++ payload)
    with (frame_body prev r) in G2, Hdrop, Hnext, Hw.
  assert (take (off + length (frame_body prev r) - off) (drop off bs) = frame_body prev r) as Hbody.
  { rewrite Hdrop. replace (off + length (frame_body prev r) - off)%nat
      with (length (frame_body prev r)) by lia.
    apply take_app_length. }
  rewrite Hbody in G2. subst fh.
  apply IH in Hw as (rs & rest & Hrest & Hwf & Hseq & -> & Hend); [|lia|].
  2: { unfold frame_bytes in *. pose proof (frame_bytes_length prev r). lia. }
  exists (r :: rs), rest. cbn [encode_chain chain_frames seqs_above].
  rewrite <-!app_assoc, <-Hrest. unfold frame_bytes. split; [by rewrite Hdrop, <-!app_assoc|].
  split; [|split; [|split; [done|destruct st; simpl in *; intuition lia]]].
  - constructor; [|done]. split; [done|done|]. simpl.
    assert (Forall is_byte (drop off bs)) as Hdb by (by apply Forall_drop).
    rewrite Hdrop in Hdb. apply Forall_app in Hdb as [Hdb _]. by apply Forall_app in Hdb as [_ Hdb].
  - split; [|done]. destruct last; [|done]. apply Z.leb_gt in Hs. simpl in *. lia.
Qed.
End Chain.

(** ** Truncated buffers *)

Lemma read_array_take n k bs o s :
  read_array k bs o = Some s → read_array k (take n bs) o = Some s ∨ read_array k (take n bs) o = None.
Proof.
  unfold read_array, slice. intros Hs. case_decide as Hf; [|done]. case_decide as Ht; [|by right].
  left. rewrite <-Hs. f_equal. rewrite length_take in Ht.
  rewrite !skipn_firstn_comm, firstn_firstn. f_equal. lia.
Qed.

Lemma lookup_take_cases n (bs : bytes) o b :
  bs !! o = Some b → take n bs !! o = Some b ∨ take n bs !! o = None.
Proof.
  intros Hb. destruct (decide (o < n)%nat).
  - left. by rewrite lookup_take_lt.
  - right. apply lookup_take_ge. lia.
Qed.

Lemma read_id_take n has bs o v o' :
  read_id has bs o = Ok (v, o') →
  read_id has (take n bs) o = Ok (v, o') ∨ read_id has (take n bs) o = Err Truncated.
Proof.
  unfold read_id. destruct has; [|by left].
  destruct (read_array 16 bs o) as [s|] eqn:E; cbn; [|done]. intros; simplify_eq.
  destruct (read_array_take n 16 bs o s E) as [->| ->]; cbn; auto.
Qed.

(** Follows, in a truncated buffer, one read of the full buffer. *)
Ltac follow E L :=
  first [apply (read_array_take L) in E as [E|E] | apply (lookup_take_cases L) in E as [E|E]
        | apply (read_id_take L) in E as [E|E]];
  rewrite E; cbn [ok_or mbind result_bind]; [|by right].

(** Decoding in a truncated buffer gives the same frame or reports the truncation. *)
Lemma decode_take n bs off d :
  decode_at bs off = Ok d → decode_at (take n bs) off = Ok d ∨ decode_at (take n bs) off = Err Truncated.
Proof.
  intros H. unfold decode_at in *. cbv zeta in *.
  inv_read H magic E1. follow E1 n. inv_guard H. inv_read H version E2. follow E2 n. inv_guard H.
  inv_read H flags E3. follow E3 n. inv_guard H.
  inv_read H b1 E4. follow E4 n. inv_read H actor A1. inv_read H b2 E5. follow E5 n.
  inv_read H kind A2. inv_read H b3 E6. follow E6 n. inv_read H vis A3.
  inv_read H b4 E7. follow E7 n. inv_read H redac A4.
  inv_read H sq E8. follow E8 n. inv_read H ts E9. follow E9 n.
  match type of H with mbind _ ?c = _ => destruct c as [[task off1]|] eqn:E10 end;
    cbn [mbind result_bind] in H; [|discriminate H]. follow E10 n.
  match type of H with mbind _ ?c = _ => destruct c as [[jb off2]|] eqn:E11 end;
    cbn [mbind result_bind] in H; [|discriminate H]. follow E11 n.
  inv_read H len E12. follow E12 n. inv_read H ph E13. follow E13 n. inv_read H pv E14.
  follow E14 n. inv_guard H.
  match goal with |- context [if ?b then Err Truncated else _] => destruct b; [by right|] end.
  inv_read H payload E15. apply slice_read_array, (read_array_take n) in E15 as [E15|E15];
    unfold read_array in E15; rewrite E15; cbn [ok_or mbind result_bind]; [|by right].
  inv_read H fh E16. follow E16 n. by left.
Qed.

(** A frame cut anywhere is reported as truncated. *)
Lemma decode_cut n bs off d :
  Forall is_byte bs → (off ≤ n)%nat → (off ≤ length bs)%nat → decode_at bs off = Ok d →
  (n < d_next_offset d)%nat → decode_at (take n bs) off = Err Truncated.
Proof.
  intros Hb Hn Ho Hd Hlt. destruct (decode_take n bs off d Hd) as [Hok|]; [|done]. exfalso.
  assert (Forall is_byte (take n bs)) as Hb' by (by apply Forall_take).
  apply decode_inv in Hok as (m & ph & pv & fh & _ & _ & _ & _ & _ & _ & _ & Hle); [|done|].
  - rewrite length_take in Hle. lia.
  - rewrite length_take. lia.
Qed.
