(* ===== verification/EventLogTheorems.v ===== *)
(** * The properties of the event log

    The log as a list of records: appending refines consing a record, the
    verification accepts exactly the encoded lists, a stored log reloads, two
    logs with one head are equal or exhibit a hash collision, a crash in the
    middle of an append is reported at the right frame, and inspection and
    export speak only of verified frames. *)

From S2P Require Import Prelude Types Sha256 KernelState EventLog EventLogProps.

Section Theorems.
Context `{HS : Hash}.

Lemma GENESIS_length : length GENESIS_PREV_HASH = 32%nat.
Proof. done. Qed.

Lemma walk_chain rs rs' :
  Forall record_wf rs → seqs_above None rs → rs' = rs →
  walk (encode_chain GENESIS_PREV_HASH rs') = (chain_frames GENESIS_PREV_HASH rs, Intact (length rs)).
Proof.
  intros Hwf Hseq ->. unfold walk.
  apply (walk_loop_chain rs _ [] [] GENESIS_PREV_HASH 0 None Hwf Hseq GENESIS_length).
  apply encode_chain_length.
Qed.

Lemma walk_inv bs :
  Forall is_byte bs →
  ∃ rs rest, bs = encode_chain GENESIS_PREV_HASH rs ++ rest ∧ Forall record_wf rs ∧
    seqs_above None rs ∧ (walk bs).1 = chain_frames GENESIS_PREV_HASH rs ∧
    walk_end 0 rs rest (walk bs).2.
Proof.
  intros Hb. destruct (walk bs) as [fs st] eqn:Hw. unfold walk in Hw.
  apply walk_loop_inv in Hw as (rs & rest & Hd & Hwf & Hseq & -> & Hend); [|done|lia|lia].
  rewrite drop_0 in Hd. by exists rs, rest.
Qed.

Lemma walk_end_intact rs rest st :
  walk_end 0 rs rest st → st = Intact (length rs) ↔ rest = [].
Proof. destruct st; simpl; naive_solver. Qed.

(** The log refines a list of records: appending a record to the log that holds [rs]
    gives exactly the log that holds [rs ++ [r]], and returns its new head. *)
Theorem log_append_refines rs m payload :
  Z.of_nat (length payload) ≤ u32_MAX →
  append (log_of rs) m payload =
  (log_of (rs ++ [(m, payload)]), chain_head GENESIS_PREV_HASH (rs ++ [(m, payload)])).
Proof.
  intros Hl. unfold append, log_of. cbn [head_hash log_bytes count].
  rewrite Z.min_l, Nat2Z.id, firstn_all by done.
  rewrite encode_chain_app, chain_head_app, length_app. cbn [encode_chain chain_head length].
  rewrite app_nil_r. unfold frame_bytes, frame_body. cbn [fst snd].
  by rewrite Nat.add_1_r.
Qed.

(** C5: Verification is exact: a byte string verifies as [Intact n] if and only if it is the
    encoding of [n] well-formed records with strictly increasing sequence numbers, that is,
    exactly what [n] appends produce. *)
Theorem log_verify_exact bs n :
  Forall is_byte bs →
  verify bs = Intact n ↔
  ∃ rs, Forall record_wf rs ∧ seqs_above None rs ∧ length rs = n ∧ bs = log_bytes (log_of rs).
Proof.
  intros Hb. unfold verify. split.
  - intros Hv. destruct (walk_inv bs Hb) as (rs & rest & Heq & Hwf & Hseq & _ & Hend).
    rewrite Hv in Hend. destruct Hend as [-> ->]. exists rs. rewrite app_nil_r in Heq. done.
  - intros (rs & Hwf & Hseq & <- & ->). simpl. by rewrite (walk_chain rs).
Qed.

(** Equal frame bodies come from equal links. *)
Lemma frame_body_inj prev1 prev2 r1 r2 :
  record_wf r1 → record_wf r2 → length prev1 = 32%nat → length prev2 = 32%nat →
  frame_body prev1 r1 = frame_body prev2 r2 → prev1 = prev2 ∧ r1 = r2.
Proof.
  intros H1 H2 Hp1 Hp2 Heq.
  pose proof (decode_frame [] prev1 r1 [] H1 Hp1) as D1.
  pose proof (decode_frame [] prev2 r2 [] H2 Hp2) as D2.
  assert (frame_bytes prev1 r1 = frame_bytes prev2 r2) as Hfb
    by (unfold frame_bytes; by rewrite Heq).
  rewrite Hfb in D1. rewrite D1 in D2. clear D1 Hfb.
  destruct r1 as [m1 p1], r2 as [m2 p2]. unfold frame_of in D2. cbn [fst snd] in D2.
  injection D2. intros. split; [done|]. f_equal; [|done].
  destruct m1, m2; simpl in *; congruence.
Qed.

(** Two chains with one head. *)
Lemma chain_head_inj rs1 rs2 :
  Forall record_wf rs1 → Forall record_wf rs2 →
  chain_head GENESIS_PREV_HASH rs1 = chain_head GENESIS_PREV_HASH rs2 →
  rs1 = rs2 ∨
  (∃ x y, x ∈ chain_bodies GENESIS_PREV_HASH rs1 ∧ y ∈ chain_bodies GENESIS_PREV_HASH rs2 ∧
          x ≠ y ∧ hash x = hash y) ∨
  (∃ x, (x ∈ chain_bodies GENESIS_PREV_HASH rs1 ++ chain_bodies GENESIS_PREV_HASH rs2) ∧
        hash x = GENESIS_PREV_HASH).
Proof.
  revert rs2. induction rs1 as [|r1 rs1 IH] using rev_ind; intros rs2 Hw1 Hw2 Hh;
    destruct rs2 as [|r2 rs2 _] using rev_ind.
  - by left.
  - right; right. rewrite chain_head_app in Hh. simpl in Hh. eexists. split; [|by symmetry].
    rewrite chain_bodies_app. simpl. set_solver.
  - right; right. rewrite chain_head_app in Hh. simpl in Hh. eexists. split; [|exact Hh].
    rewrite chain_bodies_app. simpl. set_solver.
  - apply Forall_app in Hw1 as [Hw1 Hr1]. rewrite Forall_singleton in Hr1.
    apply Forall_app in Hw2 as [Hw2 Hr2]. rewrite Forall_singleton in Hr2.
    rewrite !chain_head_app in Hh. rewrite !chain_bodies_app. simpl in *.
    set (x := frame_body _ r1) in *. set (y := frame_body _ r2) in *.
    destruct (decide (x = y)) as [Hxy|Hxy].
    + destruct (frame_body_inj _ _ r1 r2 Hr1 Hr2 (chain_head_length _ rs1 GENESIS_length)
                  (chain_head_length _ rs2 GENESIS_length) Hxy) as [Hprev ->].
      destruct (IH rs2 Hw1 Hw2 Hprev) as [->|[(a & b & ? & ? & ?)|(a & ? & ?)]].
      * by left.
      * right; left. exists a, b. set_solver.
      * right; right. exists a. set_solver.
    + right; left. exists x, y. set_solver.
Qed.

(** The hashed frame bodies of the verified part of a log. *)
Definition verified_bodies (bs : bytes) : list bytes :=
  (λ fp, encode_frame_prefix
           (mkMeta (f_seq fp.1) (f_timestamp fp.1) (f_task_id fp.1) (f_job_id fp.1)
              (f_actor fp.1) (f_kind fp.1) (f_visibility fp.1) (f_redaction fp.1))
           (Z.of_nat (length fp.2)) (f_payload_hash fp.1) (f_prev_hash fp.1) ++ fp.2)
  <$> (walk bs).1.

Lemma verified_bodies_chain rs :
  Forall record_wf rs → seqs_above None rs →
  verified_bodies (encode_chain GENESIS_PREV_HASH rs) = chain_bodies GENESIS_PREV_HASH rs.
Proof.
  intros Hwf Hseq. unfold verified_bodies. rewrite (walk_chain rs) by done. cbn [fst].
  generalize GENESIS_PREV_HASH. clear. induction rs as [|[m p] rs IH]; intros prev; [done|].
  cbn [chain_frames chain_bodies]. rewrite fmap_cons, IH. by destruct m.
Qed.

Lemma verify_to_head_inv bs h n :
  Forall is_byte bs → verify_to_head bs h = Intact n →
  ∃ rs, bs = encode_chain GENESIS_PREV_HASH rs ∧ Forall record_wf rs ∧ seqs_above None rs ∧
        chain_head GENESIS_PREV_HASH rs = h ∧ length rs = n.
Proof.
  intros Hb Hv. unfold verify_to_head in Hv.
  destruct (walk_inv bs Hb) as (rs & rest & Heq & Hwf & Hseq & Hfr & Hend).
  destruct (walk bs) as [fs st]. cbn [fst snd] in *. subst fs.
  destruct st as [n'|]; [|done]. destruct Hend as [-> ->]. rewrite app_nil_r in Heq.
  rewrite chain_frames_last in Hv. case_bool_decide; [|done]. injection Hv as <-.
  by exists rs.
Qed.

(** C6: Tamper evidence against an anchored head: if two byte strings both verify to the
    same head, they are the same log, or the logs exhibit a collision of the hash between
    two of their different frame bodies, or one of their frame bodies hashes to the genesis
    value. No edit, reordering, insertion, deletion or truncation survives otherwise. *)
Theorem log_tamper_evident bs1 bs2 h n1 n2 :
  Forall is_byte bs1 → Forall is_byte bs2 →
  verify_to_head bs1 h = Intact n1 → verify_to_head bs2 h = Intact n2 →
  bs1 = bs2 ∨
  (∃ x y, x ∈ verified_bodies bs1 ∧ y ∈ verified_bodies bs2 ∧ x ≠ y ∧ hash x = hash y) ∨
  (∃ x, (x ∈ verified_bodies bs1 ++ verified_bodies bs2) ∧ hash x = GENESIS_PREV_HASH).
Proof.
  intros Hb1 Hb2 Hv1 Hv2.
  destruct (verify_to_head_inv _ _ _ Hb1 Hv1) as (rs1 & -> & Hw1 & Hs1 & Hh1 & _).
  destruct (verify_to_head_inv _ _ _ Hb2 Hv2) as (rs2 & -> & Hw2 & Hs2 & Hh2 & _).
  rewrite !verified_bodies_chain by done.
  destruct (chain_head_inj rs1 rs2 Hw1 Hw2 ltac:(congruence)) as [->|[?|?]]; auto.
Qed.

(** ** Reloading *)

Lemma iter_from_chain_pairs rs fuel pre prev :
  Forall record_wf rs → length prev = 32%nat → (length rs ≤ fuel)%nat →
  (λ d, (d_frame d, d_payload d)) <$> iter_from fuel (pre ++ encode_chain prev rs) (length pre) =
  chain_frames prev rs.
Proof.
  revert fuel pre prev. induction rs as [|r rs IH]; intros fuel pre prev Hwf Hp Hf;
    cbn [encode_chain chain_frames].
  - rewrite app_nil_r. destruct fuel as [|fuel]; cbn [iter_from]; [done|]. by rewrite decide_True.
  - apply Forall_cons in Hwf as [Hr Hwf]. destruct fuel as [|fuel]; simpl in Hf; [lia|].
    cbn [iter_from].
    rewrite decide_False by (rewrite !length_app; pose proof (frame_bytes_length prev r); lia).
    rewrite decode_frame by done. cbn [d_next_offset]. rewrite !fmap_cons. cbn [d_frame d_payload].
    f_equal.
    replace (length pre + length (frame_body prev r) + 32)%nat with (length (pre ++ frame_bytes prev r))
      by (unfold frame_bytes; rewrite !length_app, hash_length; lia).
    rewrite app_assoc. apply IH; [done|apply hash_length|lia].
Qed.

Lemma iter_from_chain rs fuel pre prev :
  Forall record_wf rs → length prev = 32%nat → (length rs ≤ fuel)%nat →
  d_frame <$> iter_from fuel (pre ++ encode_chain prev rs) (length pre) =
  fst <$> chain_frames prev rs.
Proof.
  intros Hwf Hp Hf. rewrite <-(iter_from_chain_pairs rs fuel pre prev Hwf Hp Hf).
  by rewrite <-list_fmap_compose.
Qed.

(** A stored log reloads: [from_bytes] on the bytes of the log of any well-formed
    records gives back the same log, head and count included, so appending after a reload
    continues the chain. *)
Theorem log_reload_roundtrip rs :
  Forall record_wf rs → from_bytes (log_bytes (log_of rs)) = log_of rs.
Proof.
  intros Hwf. unfold from_bytes, iter. unfold log_of at 1 2 3. cbn [log_bytes].
  pose proof (iter_from_chain rs (length (encode_chain GENESIS_PREV_HASH rs)) []
                GENESIS_PREV_HASH Hwf GENESIS_length (encode_chain_length _ _)) as Hit.
  simpl in Hit. set (ds := iter_from _ _ _) in *.
  assert (∀ prev n ds, fold_left (λ '(prev, n) d, (f_frame_hash (d_frame d), S n)) ds (prev, n) =
    (fold_left (λ _ f, f_frame_hash f) (d_frame <$> ds) prev, (n + length (d_frame <$> ds))%nat))
    as Hfold.
  { clear. intros prev n ds. revert prev n. induction ds as [|d ds IH]; intros prev n; simpl.
    - by rewrite Nat.add_0_r.
    - rewrite IH. by rewrite Nat.add_succ_r. }
  rewrite Hfold, Hit, length_fmap, chain_frames_length. unfold log_of. f_equal.
  generalize GENESIS_PREV_HASH. clear. induction rs as [|r rs IH]; intros prev; [done|].
  cbn [chain_frames chain_head]. rewrite fmap_cons. apply IH.
Qed.

(** ** Crashes *)

Lemma GENESIS_byte : Forall is_byte GENESIS_PREV_HASH.
Proof. by apply Forall_replicate. Qed.

(** C20: Crash safety of an append: when a crash leaves only the first [k] bytes of the frame
    being appended, for any [k] short of the whole frame, verification still returns every
    earlier frame and reports the partial frame, at its index, as truncated (or nothing at
    all if no byte was written). *)
Theorem log_crash_reported rs r k :
  Forall record_wf rs → seqs_above None rs → record_wf r →
  (k < length (frame_bytes (chain_head GENESIS_PREV_HASH rs) r))%nat →
  walk (log_bytes (log_of rs) ++ take k (frame_bytes (chain_head GENESIS_PREV_HASH rs) r)) =
  (chain_frames GENESIS_PREV_HASH rs,
   if decide (k = 0%nat) then Intact (length rs) else Broken (length rs) Truncated).
Proof.
  intros Hwf Hseq Hr Hk. cbn [log_bytes log_of].
  set (X := encode_chain GENESIS_PREV_HASH rs). set (h := chain_head GENESIS_PREV_HASH rs) in *.
  case_decide as H0.
  { subst k. rewrite take_0, app_nil_r. by apply walk_chain. }
  unfold walk. pose proof (encode_chain_length GENESIS_PREV_HASH rs) as Hlen. fold X in Hlen.
  rewrite length_app, length_take_le by lia.
  replace (length X + k)%nat with (length rs + S (length X + k - length rs - 1))%nat by lia.
  pose proof (walk_loop_through rs (take k (frame_bytes h r)) (S (length X + k - length rs - 1))
    [] [] GENESIS_PREV_HASH 0 None Hwf Hseq GENESIS_length) as Hw.
  rewrite !app_nil_l in Hw. change (length (@nil Z)) with 0%nat in Hw.
  fold X h in Hw. rewrite Hw. clear Hw. cbn [walk_loop].
  rewrite decide_False by (rewrite length_app, length_take_le; lia).
  rewrite <-(take_app_add' X (frame_bytes h r) (length X) k) by done.
  erewrite decode_cut; [done| |lia| | |].
  - apply Forall_app. split.
    + apply encode_chain_byte; [apply GENESIS_byte|done].
    + apply frame_bytes_byte; [apply chain_head_byte, GENESIS_byte|done].
  - rewrite length_app. lia.
  - rewrite <-(app_nil_r (frame_bytes h r)). apply decode_frame; [done|].
    by apply chain_head_length.
  - cbn [d_next_offset]. unfold frame_bytes in Hk. rewrite length_app, hash_length in Hk. lia.
Qed.

(** ** Inspection *)

Definition of_task (tid : TaskId) (fp : EventFrame * bytes) : bool :=
  bool_decide (f_task_id fp.1 = Some tid).

(** The reference summary of a task: computed from the frames of that task alone. *)
Definition summary_of (tid : TaskId) (fs : list (EventFrame * bytes)) : option TaskSummary :=
  let own := List.filter (of_task tid) fs in
  first ← head own; final ← last own;
  Some (mkSummary tid (length own) (f_seq first.1) (f_seq final.1)
          (last (List.filter is_terminal_kind ((λ fp, f_kind fp.1) <$> own)))).

Lemma roll_up_task_ids ts tid f :
  ts_task_id <$> roll_up_task ts tid f =
  if decide (tid ∈ ts_task_id <$> ts) then ts_task_id <$> ts else (ts_task_id <$> ts) ++ [tid].
Proof.
  induction ts as [|t ts IH]; [done|]. cbn [roll_up_task]. case_bool_decide as Ht.
  - rewrite decide_True by (rewrite fmap_cons; set_solver). done.
  - rewrite !fmap_cons, IH. repeat case_decide; set_solver.
Qed.

Lemma roll_up_nodup fs ts :
  NoDup (ts_task_id <$> ts) → NoDup (ts_task_id <$> fold_left roll_up fs ts).
Proof.
  revert ts. induction fs as [|fp fs IH]; intros ts Hnd; simpl; [done|]. apply IH.
  unfold roll_up. destruct (f_task_id fp.1) as [tid|]; [|done]. rewrite roll_up_task_ids.
  case_decide as Hin; [done|]. apply NoDup_app. split; [done|]. split; [|apply NoDup_singleton].
  set_solver.
Qed.

Definition get_summary (tid : TaskId) (ts : list TaskSummary) : option TaskSummary :=
  find (λ t, bool_decide (ts_task_id t = tid)) ts.

(** One frame folded into the summary of its task. *)
Definition extend (o : option TaskSummary) (tid : TaskId) (f : EventFrame) : TaskSummary :=
  match o with
  | None => mkSummary tid 1 (f_seq f) (f_seq f)
              (if is_terminal_kind (f_kind f) then Some (f_kind f) else None)
  | Some t => mkSummary tid (S (ts_frames t)) (ts_first_seq t) (f_seq f)
                (if is_terminal_kind (f_kind f) then Some (f_kind f) else ts_terminal t)
  end.

Lemma get_roll_up_task ts tid f tid' :
  get_summary tid' (roll_up_task ts tid f) =
  if decide (tid' = tid) then Some (extend (get_summary tid ts) tid f) else get_summary tid' ts.
Proof.
  induction ts as [|t ts IH]; unfold get_summary in *; cbn [roll_up_task find].
  - simpl. case_decide; [by rewrite bool_decide_true|by rewrite bool_decide_false].
  - case_bool_decide as Ht; cbn [find ts_task_id].
    + rewrite (bool_decide_ext (ts_task_id t = tid') (tid' = tid)) by naive_solver.
      case_decide as Hd; [|by rewrite bool_decide_false].
      rewrite bool_decide_true by done. subst. done.
    + rewrite IH. case_bool_decide as Ht'; [|done]. rewrite decide_False by congruence. done.
Qed.

Lemma summary_of_snoc tid fs fp :
  summary_of tid (fs ++ [fp]) =
  if of_task tid fp then Some (extend (summary_of tid fs) tid fp.1) else summary_of tid fs.
Proof.
  unfold summary_of. rewrite List.filter_app. simpl. destruct (of_task tid fp); simpl;
    [|by rewrite app_nil_r].
  rewrite fmap_app, List.filter_app, last_snoc, length_app. simpl.
  destruct (List.filter (of_task tid) fs) as [|f0 own] eqn:E.
  - simpl. by destruct (is_terminal_kind (f_kind fp.1)).
  - cbn [head app]. destruct (last (f0 :: own)) as [fl|] eqn:El; [|by apply last_None in El].
    cbn [mbind option_bind extend ts_frames ts_first_seq ts_terminal]. f_equal. f_equal.
    + simpl. lia.
    + destruct (is_terminal_kind (f_kind fp.1)); [by rewrite last_snoc|by rewrite app_nil_r].
Qed.

Lemma roll_up_spec fs tid : get_summary tid (fold_left roll_up fs []) = summary_of tid fs.
Proof.
  induction fs as [|fp fs IH] using rev_ind; [done|].
  rewrite fold_left_app, summary_of_snoc. cbn [fold_left]. unfold roll_up at 1, of_task.
  destruct (f_task_id fp.1) as [t|] eqn:Ht.
  - rewrite get_roll_up_task. case_decide as Hd.
    + subst. rewrite bool_decide_true by done. by rewrite IH.
    + rewrite bool_decide_false by congruence. done.
  - by rewrite bool_decide_false.
Qed.

(** [inspect] reports only what is verified, and reports it right: for any bytes, the
    frames it counts are the records of a verified chain that starts the buffer, each task
    has one summary, and the summary of each task (frame count, first and last sequence
    number, last terminal event) is the one computed from that task's frames alone. *)
Theorem log_inspect_correct bs :
  Forall is_byte bs →
  ∃ rs rest, bs = log_bytes (log_of rs) ++ rest ∧ Forall record_wf rs ∧ seqs_above None rs ∧
    ir_total_frames (inspect bs) = length rs ∧
    (ir_status (inspect bs) = Intact (length rs) ↔ rest = []) ∧
    NoDup (ts_task_id <$> ir_tasks (inspect bs)) ∧
    ∀ tid, get_summary tid (ir_tasks (inspect bs)) =
           summary_of tid (chain_frames GENESIS_PREV_HASH rs).
Proof.
  intros Hb. destruct (walk_inv bs Hb) as (rs & rest & Heq & Hwf & Hseq & Hfr & Hend).
  exists rs, rest. split; [done|]. split; [done|]. split; [done|].
  unfold inspect. destruct (walk bs) as [fs st]. cbn [fst snd] in *. subst fs. simpl.
  rewrite chain_frames_length. split; [done|]. split; [|split].
  - by apply walk_end_intact.
  - by apply roll_up_nodup, NoDup_nil_2.
  - intros tid. apply roll_up_spec.
Qed.

(** ** Export *)

(** The export is gated: on any bytes, tampered or not, it renders exactly the frames of
    the verified chain that starts the buffer and nothing behind the first break; and a
    line never depends on the payload bytes of a [Redacted] frame, nor on those of an
    [Internal] one beyond their number. *)
Theorem log_export_gated bs :
  Forall is_byte bs →
  (∃ rs rest, bs = log_bytes (log_of rs) ++ rest ∧ Forall record_wf rs ∧ seqs_above None rs ∧
     export_jsonl bs = chain_frames GENESIS_PREV_HASH rs ≫= export_frame ∧
     (verify bs = Intact (length rs) ↔ rest = [])) ∧
  ∀ fr p p', f_redaction fr = Redacted ∨ (f_visibility fr = Internal ∧ length p = length p') →
             export_frame (fr, p) = export_frame (fr, p').
Proof.
  intros Hb. split.
  - destruct (walk_inv bs Hb) as (rs & rest & Heq & Hwf & Hseq & Hfr & Hend).
    exists rs, rest. do 3 (split; [done|]). unfold export_jsonl, verify. rewrite Hfr.
    split; [done|]. by apply walk_end_intact.
  - intros fr p p' Hg. unfold export_frame. case_bool_decide; [done|].
    destruct Hg as [?|[-> ->]]; done.
Qed.

End Theorems.

(** ** Witnesses, at the SHA-256 instance *)

Definition demo_records : list Rec :=
  [ (meta_task (FrameMeta_new 1 TaskCreated) 7, lit "hello");
    (meta_redaction (meta_task (FrameMeta_new 4 TaskKilled) 7) Redacted, lit "k") ].
Definition demo_bytes : bytes := log_bytes (log_of demo_records).

Ltac solve_record_wf :=
  split; [split; cbv; first [done | split; [discriminate|reflexivity]] | cbv; discriminate
         | apply lit_byte].

Lemma demo_records_wf : Forall record_wf demo_records.
Proof. apply Forall_cons. split; [solve_record_wf|]. by apply Forall_singleton; solve_record_wf. Qed.

Lemma demo_records_seqs : seqs_above None demo_records.
Proof. by repeat split. Qed.

Lemma demo_bytes_byte : Forall is_byte demo_bytes.
Proof. apply encode_chain_byte; [apply GENESIS_byte|apply demo_records_wf]. Qed.

Lemma log_append_refines_witness :
  append (log_of demo_records) (FrameMeta_new 5 TaskPlanned) (lit "p") =
  (log_of (demo_records ++ [(FrameMeta_new 5 TaskPlanned, lit "p")]),
   chain_head GENESIS_PREV_HASH (demo_records ++ [(FrameMeta_new 5 TaskPlanned, lit "p")])).
Proof. apply (log_append_refines demo_records). unfold u32_MAX. simpl. lia. Defined.

Lemma log_verify_exact_witness :
  verify demo_bytes = Intact 2 ↔
  ∃ rs, Forall record_wf rs ∧ seqs_above None rs ∧ length rs = 2%nat ∧
        demo_bytes = log_bytes (log_of rs).
Proof. apply (log_verify_exact demo_bytes 2 demo_bytes_byte). Defined.

Lemma log_tamper_evident_witness :
  let h := chain_head GENESIS_PREV_HASH demo_records in
  verify_to_head demo_bytes h = Intact 2 ∧
  (demo_bytes = demo_bytes ∨
   (∃ x y, x ∈ verified_bodies demo_bytes ∧ y ∈ verified_bodies demo_bytes ∧ x ≠ y ∧
           hash x = hash y) ∨
   (∃ x, (x ∈ verified_bodies demo_bytes ++ verified_bodies demo_bytes) ∧
         hash x = GENESIS_PREV_HASH)).
Proof.
  intros h. assert (verify_to_head demo_bytes h = Intact 2) as Hv by (vm_compute; reflexivity).
  split; [exact Hv|].
  exact (log_tamper_evident demo_bytes demo_bytes h 2 2 demo_bytes_byte demo_bytes_byte Hv Hv).
Defined.

Lemma log_reload_roundtrip_witness : from_bytes demo_bytes = log_of demo_records.
Proof. exact (log_reload_roundtrip demo_records demo_records_wf). Defined.

Lemma log_crash_reported_witness :
  let r := (FrameMeta_new 5 TaskPlanned, lit "p") in
  walk (demo_bytes ++ take 40 (frame_bytes (chain_head GENESIS_PREV_HASH demo_records) r)) =
  (chain_frames GENESIS_PREV_HASH demo_records, Broken 2 Truncated).
Proof.
  intros r. apply (log_crash_reported demo_records r 40 demo_records_wf demo_records_seqs).
  - solve_record_wf.
  - vm_compute. lia.
Defined.

Lemma log_inspect_correct_witness :
  ∃ rs rest, demo_bytes = log_bytes (log_of rs) ++ rest ∧ Forall record_wf rs ∧
    seqs_above None rs ∧ ir_total_frames (inspect demo_bytes) = length rs ∧
    (ir_status (inspect demo_bytes) = Intact (length rs) ↔ rest = []) ∧
    NoDup (ts_task_id <$> ir_tasks (inspect demo_bytes)) ∧
    ∀ tid, get_summary tid (ir_tasks (inspect demo_bytes)) =
           summary_of tid (chain_frames GENESIS_PREV_HASH rs).
Proof. exact (log_inspect_correct demo_bytes demo_bytes_byte). Defined.

Lemma log_export_gated_witness :
  ∃ rs rest, demo_bytes = log_bytes (log_of rs) ++ rest ∧ Forall record_wf rs ∧
    seqs_above None rs ∧ export_jsonl demo_bytes = chain_frames GENESIS_PREV_HASH rs ≫= export_frame ∧
    (verify demo_bytes = Intact (length rs) ↔ rest = []).
Proof. exact (proj1 (log_export_gated demo_bytes demo_bytes_byte)). Defined.
