(* ===== verification/Receipts.v ===== *)
(** * Tool receipts (crate [crustcore-receipts])

    [lib.rs]: the receipt record and its binary codec, minting under the MAC
    key, and the verification of a chain; [join.rs]: the join of a chain to the
    event log. A slice [input[a..b]] panics out of range in Rust: the readers
    are partial and a [None] of [receipt_from_bytes] is a panic. The hash and
    the MAC are the interfaces of [Sha256.v]. *)

From S2P Require Import Prelude Types Sha256.

Definition GENESIS_RECEIPT_HASH : bytes := replicate 32 0.
Definition MAX_RECEIPT_ARTIFACTS : nat := 256.
Definition RECEIPT_MAGIC : bytes := lit "CCR1".
Definition RECEIPT_FIXED_BYTES : nat := 4 + 16 * 3 + 8 + 32 * 5 + 4.

Record ToolReceipt := mkReceipt {
  r_task_id : TaskId;
  r_job_id : JobId;
  r_tool_call_id : ToolCallId;
  r_tool_name_hash : bytes;
  r_args_hash : bytes;
  r_result_hash : bytes;
  r_artifact_hashes : list bytes;
  r_event_seq : EventSeq;
  r_prev_receipt_hash : bytes;
  r_mac : bytes }.

Inductive ReceiptDecodeError := RTruncated | RBadMagic | TooManyArtifacts | InvalidLength.

(** ** The codec *)

(** [ToolReceipt::to_bytes]. *)
Definition receipt_to_bytes (r : ToolReceipt) : bytes :=
  let artifact_count := Nat.min (length (r_artifact_hashes r)) MAX_RECEIPT_ARTIFACTS in
  RECEIPT_MAGIC ++
  to_le_bytes 16 (r_task_id r) ++
  to_le_bytes 16 (r_job_id r) ++
  to_le_bytes 16 (r_tool_call_id r) ++
  to_le_bytes 8 (r_event_seq r) ++
  r_tool_name_hash r ++
  r_args_hash r ++
  r_result_hash r ++
  r_prev_receipt_hash r ++
  r_mac r ++
  to_le_bytes 4 (Z.of_nat artifact_count) ++
  mjoin (take artifact_count (r_artifact_hashes r)).

(** The closures [read_u128], [read_u64] and [read_hash]: the value and the new offset. *)
Definition read_uint (n : nat) (input : bytes) (offset : nat) : option (Z * nat) :=
  raw ← slice input offset (offset + n); Some (from_le_bytes raw, (offset + n)%nat).
Definition read_hash (input : bytes) (offset : nat) : option (bytes * nat) :=
  raw ← slice input offset (offset + 32); Some (raw, (offset + 32)%nat).

(** The loop [for _ in 0..artifact_count]. *)
Fixpoint read_hashes (n : nat) (input : bytes) (offset : nat) : option (list bytes) :=
  match n with
  | O => Some []
  | S n' => '(h, offset) ← read_hash input offset; hs ← read_hashes n' input offset; Some (h :: hs)
  end.

(** [ToolReceipt::from_bytes]. *)
Definition receipt_from_bytes (bs : bytes) : option (result ReceiptDecodeError ToolReceipt) :=
  if decide (length bs < RECEIPT_FIXED_BYTES)%nat then Some (Err RTruncated) else
  magic ← slice bs 0 4;
  if negb (bool_decide (magic = RECEIPT_MAGIC)) then Some (Err RBadMagic) else
  let offset := 4%nat in
  '(task_id, offset) ← read_uint 16 bs offset;
  '(job_id, offset) ← read_uint 16 bs offset;
  '(tool_call_id, offset) ← read_uint 16 bs offset;
  '(event_seq, offset) ← read_uint 8 bs offset;
  '(tool_name_hash, offset) ← read_hash bs offset;
  '(args_hash, offset) ← read_hash bs offset;
  '(result_hash, offset) ← read_hash bs offset;
  '(prev_receipt_hash, offset) ← read_hash bs offset;
  '(mac, offset) ← read_hash bs offset;
  '(artifact_count, offset) ← read_uint 4 bs offset;
  if Z.of_nat MAX_RECEIPT_ARTIFACTS <? artifact_count then Some (Err TooManyArtifacts) else
  let expected := (offset + Z.to_nat artifact_count * 32)%nat in
  if negb (bool_decide (length bs = expected)) then Some (Err InvalidLength) else
  artifact_hashes ← read_hashes (Z.to_nat artifact_count) bs offset;
  Some (Ok (mkReceipt task_id job_id tool_call_id tool_name_hash args_hash result_hash
              artifact_hashes event_seq prev_receipt_hash mac)).

(** [receipt_body]: everything but the MAC. *)
Definition receipt_body (r : ToolReceipt) : bytes :=
  to_le_bytes 16 (r_task_id r) ++
  to_le_bytes 16 (r_job_id r) ++
  to_le_bytes 16 (r_tool_call_id r) ++
  r_tool_name_hash r ++
  r_args_hash r ++
  r_result_hash r ++
  to_le_bytes 4 (Z.of_nat (length (r_artifact_hashes r))) ++
  mjoin (r_artifact_hashes r) ++
  to_le_bytes 8 (r_event_seq r) ++
  r_prev_receipt_hash r.

(** ** The chain *)

Record ReceiptParams := mkParams {
  p_task_id : TaskId;
  p_job_id : JobId;
  p_tool_call_id : ToolCallId;
  p_tool_name : bytes;
  p_args : bytes;
  p_result : bytes;
  p_artifacts : list bytes;
  p_event_seq : EventSeq }.

Inductive ReceiptBreak := ChainMismatch | BadMac | EndTruncated.
Inductive ReceiptStatus :=
| RIntact (count : nat)
| RBroken (index : nat) (reason : ReceiptBreak).

Definition receipt_is_intact (s : ReceiptStatus) : bool :=
  match s with RIntact _ => true | RBroken _ _ => false end.

Record ReceiptChain := mkChain { c_key : bytes; c_head : bytes; c_count : nat }.

Definition ReceiptChain_new (key : bytes) : ReceiptChain := mkChain key GENESIS_RECEIPT_HASH 0.

Section Chain.
Context `{HS : Hash} `{MC : Mac}.

Definition receipt_chain_hash (r : ToolReceipt) : bytes := hash (receipt_body r).

(** [ToolReceipt::result_matches], [args_matches], [links_to]. *)
Definition result_matches (r : ToolReceipt) (res : bytes) : bool :=
  bool_decide (hash res = r_result_hash r).
Definition args_matches (r : ToolReceipt) (args : bytes) : bool :=
  bool_decide (hash args = r_args_hash r).
Definition links_to (r prev : ToolReceipt) : bool :=
  bool_decide (r_prev_receipt_hash r = receipt_chain_hash prev).

Definition set_mac (r : ToolReceipt) (m : bytes) : ToolReceipt :=
  mkReceipt (r_task_id r) (r_job_id r) (r_tool_call_id r) (r_tool_name_hash r) (r_args_hash r)
    (r_result_hash r) (r_artifact_hashes r) (r_event_seq r) (r_prev_receipt_hash r) m.

(** [ReceiptChain::mint]. *)
Definition mint (c : ReceiptChain) (p : ReceiptParams) : ReceiptChain * ToolReceipt :=
  let receipt :=
    mkReceipt (p_task_id p) (p_job_id p) (p_tool_call_id p) (hash (p_tool_name p))
      (hash (p_args p)) (hash (p_result p)) (take MAX_RECEIPT_ARTIFACTS (p_artifacts p))
      (p_event_seq p) (c_head c) (replicate 32 0) in
  let body := receipt_body receipt in
  let receipt := set_mac receipt (mac (c_key c) body) in
  (mkChain (c_key c) (hash body) (S (c_count c)), receipt).

(** The loop of [ReceiptChain::walk]. *)
Fixpoint receipt_walk_loop (key expected_prev : bytes) (i : nat) (rs : list ToolReceipt)
    : ReceiptStatus * bytes :=
  match rs with
  | [] => (RIntact i, expected_prev)
  | r :: rs' =>
      if negb (bool_decide (r_prev_receipt_hash r = expected_prev))
      then (RBroken i ChainMismatch, expected_prev) else
      let body := receipt_body r in
      if negb (ct_eq (mac key body) (r_mac r)) then (RBroken i BadMac, expected_prev) else
      receipt_walk_loop key (hash body) (S i) rs'
  end.
Definition receipt_walk (c : ReceiptChain) (rs : list ToolReceipt) : ReceiptStatus * bytes :=
  receipt_walk_loop (c_key c) GENESIS_RECEIPT_HASH 0 rs.

(** [ReceiptChain::verify], [ReceiptChain::verify_complete]. *)
Definition receipt_verify (c : ReceiptChain) (rs : list ToolReceipt) : ReceiptStatus :=
  (receipt_walk c rs).1.
Definition verify_complete (c : ReceiptChain) (rs : list ToolReceipt) : ReceiptStatus :=
  let '(status, final_head) := receipt_walk c rs in
  match status with
  | RBroken _ _ => status
  | RIntact n =>
      if negb (bool_decide (n = c_count c)) || negb (bool_decide (final_head = c_head c))
      then RBroken n EndTruncated else RIntact n
  end.

(** Minting a list of calls. *)
Fixpoint mint_all (c : ReceiptChain) (ps : list ReceiptParams) : ReceiptChain * list ToolReceipt :=
  match ps with
  | [] => (c, [])
  | p :: ps' => let '(c, r) := mint c p in let '(c, rs) := mint_all c ps' in (c, r :: rs)
  end.

End Chain.

(** ** The join to the event log ([join.rs]) *)

Record FrameRef := mkFrameRef {
  fr_seq : EventSeq;
  fr_tool_completed : bool;
  fr_task_id : option TaskId;
  fr_job_id : option JobId }.

Inductive JoinBreak := NoFrameAtSeq | NotAToolCompletion | TaskMismatch | JobMismatch.
Inductive JoinStatus :=
| Joined (count : nat)
| JBroken (index : nat) (reason : JoinBreak).

Definition is_joined (s : JoinStatus) : bool :=
  match s with Joined _ => true | JBroken _ _ => false end.

(** The index [by_seq]: [entry(seq).or_insert(f)], so the first frame of a seq wins. *)
Definition by_seq (frames : list FrameRef) : gmap Z FrameRef :=
  fold_left (λ m f, match m !! fr_seq f with Some _ => m | None => <[fr_seq f := f]> m end)
    frames ∅.

Fixpoint join_loop (m : gmap Z FrameRef) (i : nat) (rs : list ToolReceipt) : JoinStatus :=
  match rs with
  | [] => Joined i
  | r :: rs' =>
      match m !! r_event_seq r with
      | None => JBroken i NoFrameAtSeq
      | Some frame =>
          if negb (fr_tool_completed frame) then JBroken i NotAToolCompletion else
          if negb (bool_decide (fr_task_id frame = Some (r_task_id r)))
          then JBroken i TaskMismatch else
          if negb (bool_decide (fr_job_id frame = Some (r_job_id r)))
          then JBroken i JobMismatch else
          join_loop m (S i) rs'
      end
  end.

(** [verify_against_log]. *)
Definition verify_against_log (rs : list ToolReceipt) (frames : list FrameRef) : JoinStatus :=
  join_loop (by_seq frames) 0 rs.
