(* ===== verification/ReceiptsTheorems.v ===== *)
(** * The properties of tool receipts

    The codec is a bijection between well-formed receipts and accepted byte
    strings and never panics; a minted chain verifies and is complete; any other
    complete chain under the same head exhibits a hash collision; the join
    accepts exactly the receipts anchored to a completed tool call of their own
    task and job. *)

From S2P Require Import Prelude Types Sha256 Receipts.

(** ** Well-formed receipts: what the Rust types allow, within the artifact cap *)

Definition digest (b : bytes) : Prop := length b = 32%nat ∧ Forall is_byte b.

Record receipt_wf (r : ToolReceipt) : Prop := {
  rw_task : is_uint 128 (r_task_id r);
  rw_job : is_uint 128 (r_job_id r);
  rw_call : is_uint 128 (r_tool_call_id r);
  rw_name : digest (r_tool_name_hash r);
  rw_args : digest (r_args_hash r);
  rw_result : digest (r_result_hash r);
  rw_artifacts : Forall digest (r_artifact_hashes r);
  rw_bounded : (length (r_artifact_hashes r) ≤ MAX_RECEIPT_ARTIFACTS)%nat;
  rw_seq : is_uint 64 (r_event_seq r);
  rw_prev : digest (r_prev_receipt_hash r);
  rw_mac : digest (r_mac r) }.

Lemma digest_length b : digest b → length b = 32%nat.
Proof. by intros []. Qed.

#[local] Hint Resolve digest_length length_to_le_bytes : crust.

(** ** Readers *)

Lemma read_uint_intro n bs off v R :
  0 ≤ v < 256 ^ Z.of_nat n → drop off bs = to_le_bytes n v ++ R → (off ≤ length bs)%nat →
  read_uint n bs off = Some (v, (off + n)%nat) ∧ drop (off + n) bs = R ∧ (off + n ≤ length bs)%nat.
Proof.
  intros Hv Hd Ho. destruct (slice_at_intro n _ _ _ _ Hd (length_to_le_bytes _ _) Ho) as (E & HR & Hl).
  unfold read_uint. rewrite E. cbn [mbind option_bind]. by rewrite from_to_le_bytes.
Qed.

Lemma read_hash_intro bs off h R :
  length h = 32%nat → drop off bs = h ++ R → (off ≤ length bs)%nat →
  read_hash bs off = Some (h, (off + 32)%nat) ∧ drop (off + 32) bs = R ∧ (off + 32 ≤ length bs)%nat.
Proof.
  intros Hh Hd Ho. destruct (slice_at_intro 32 _ _ _ _ Hd Hh Ho) as (E & HR & Hl).
  unfold read_hash. by rewrite E.
Qed.

Lemma read_hashes_intro hs bs off R :
  Forall digest hs → drop off bs = mjoin hs ++ R → (off ≤ length bs)%nat →
  read_hashes (length hs) bs off = Some hs.
Proof.
  revert off. induction hs as [|h hs IH]; intros off Hhs Hd Ho; [done|].
  apply Forall_cons in Hhs as [Hh Hhs]. rewrite mjoin_cons, <-app_assoc in Hd.
  destruct (read_hash_intro _ _ _ _ (digest_length _ Hh) Hd Ho) as (E & Hd' & Ho').
  cbn [read_hashes length]. rewrite E. cbn [mbind option_bind]. by rewrite (IH _ Hhs Hd' Ho').
Qed.

(** A read that stays inside the buffer succeeds and splits it. *)
Lemma read_uint_total n bs off :
  Forall is_byte bs → (off + n ≤ length bs)%nat →
  ∃ v, read_uint n bs off = Some (v, (off + n)%nat) ∧ 0 ≤ v < 256 ^ Z.of_nat n ∧
       drop off bs = to_le_bytes n v ++ drop (off + n) bs.
Proof.
  intros Hb Ho. unfold read_uint. destruct (slice bs off (off + n)) as [s|] eqn:E.
  - destruct (slice_at_Some _ _ _ _ E) as (Hd & Hl & _).
    assert (Forall is_byte s) by (by eapply slice_byte).
    exists (from_le_bytes s). split; [done|]. split; [by apply from_le_bytes_uint|].
    by rewrite to_from_le_bytes_n.
  - unfold slice in E. case_decide; [done|lia].
Qed.

Lemma read_hash_total bs off :
  Forall is_byte bs → (off + 32 ≤ length bs)%nat →
  ∃ h, read_hash bs off = Some (h, (off + 32)%nat) ∧ digest h ∧
       drop off bs = h ++ drop (off + 32) bs.
Proof.
  intros Hb Ho. unfold read_hash. destruct (slice bs off (off + 32)) as [s|] eqn:E.
  - destruct (slice_at_Some _ _ _ _ E) as (Hd & Hl & _).
    assert (Forall is_byte s) by (by eapply slice_byte). by exists s.
  - unfold slice in E. case_decide; [done|lia].
Qed.

Lemma read_hashes_total n bs off :
  Forall is_byte bs → (off + n * 32 = length bs)%nat →
  ∃ hs, read_hashes n bs off = Some hs ∧ Forall digest hs ∧ length hs = n ∧
        drop off bs = mjoin hs.
Proof.
  intros Hb. revert off. induction n as [|n IH]; intros off Ho; cbn [read_hashes].
  - exists []. rewrite drop_ge by lia. by repeat constructor.
  - destruct (read_hash_total bs off Hb ltac:(lia)) as (h & -> & Hh & Hd). cbn [mbind option_bind].
    destruct (IH (off + 32)%nat ltac:(lia)) as (hs & -> & Hhs & Hl & Hd'). cbn [mbind option_bind].
    exists (h :: hs). rewrite mjoin_cons, <-Hd'. split; [done|].
    split; [by constructor|]. split; [simpl; lia|done].
Qed.

(** ** The codec *)

Lemma magic_slice bs R : bs = RECEIPT_MAGIC ++ R → slice bs 0 4 = Some RECEIPT_MAGIC.
Proof. intros ->. by apply (slice_app [] RECEIPT_MAGIC R). Qed.

(** Moves the reader over the integer or the hash that [H] puts at its offset. *)
Ltac eat_uint H Ho :=
  match type of H with
  | drop ?o ?bs = to_le_bytes ?n ?v ++ ?R =>
      let E := fresh in let H' := fresh in let Ho' := fresh in
      destruct (read_uint_intro n bs o v R) as (E & H' & Ho'); [|exact H|exact Ho|];
      [done|rewrite E; clear E H Ho; rename H' into H; rename Ho' into Ho; cbn [mbind option_bind]]
  end.
Ltac eat_hash H Ho :=
  match type of H with
  | drop ?o ?bs = ?h ++ ?R =>
      let E := fresh in let H' := fresh in let Ho' := fresh in
      destruct (read_hash_intro bs o h R) as (E & H' & Ho'); [|exact H|exact Ho|];
      [by auto with crust
      |rewrite E; clear E H Ho; rename H' into H; rename Ho' into Ho; cbn [mbind option_bind]]
  end.

Lemma length_mjoin_fixed n (ls : list bytes) :
  Forall (λ l, length l = n) ls → length (mjoin ls) = (length ls * n)%nat.
Proof.
  induction 1 as [|l ls Hl _ IH]; [done|]. rewrite mjoin_cons, length_app, IH, Hl. simpl. lia.
Qed.

Lemma length_receipt r :
  receipt_wf r →
  length (receipt_to_bytes r) = (RECEIPT_FIXED_BYTES + length (r_artifact_hashes r) * 32)%nat.
Proof.
  intros [? ? ? [? _] [? _] [? _] Ha Hb ? [? _] [? _]]. unfold receipt_to_bytes.
  rewrite Nat.min_l, firstn_all by done. repeat rewrite length_app.
  rewrite !length_to_le_bytes, (length_mjoin_fixed 32)
    by (eapply Forall_impl; [exact Ha|by intros ? []]).
  unfold RECEIPT_FIXED_BYTES. change (length RECEIPT_MAGIC) with 4%nat. lia.
Qed.

(** Receipts round-trip: decoding the persisted form of any well-formed receipt (at most
    256 artifact hashes) gives exactly that receipt back. *)
Theorem receipt_roundtrip r :
  receipt_wf r → receipt_from_bytes (receipt_to_bytes r) = Some (Ok r).
Proof.
  intros Hwf. pose proof (length_receipt r Hwf) as Hlen.
  pose proof Hwf as [Ht Hj Hc Hn Hg Hres Ha Hb Hs Hp Hm].
  unfold receipt_from_bytes. rewrite decide_False by lia.
  set (bs := receipt_to_bytes r) in *. assert (drop 0 bs = receipt_to_bytes r) as Hd by done.
  assert (bs = receipt_to_bytes r) as Hbs by done. clearbody bs.
  unfold receipt_to_bytes in Hd, Hbs. rewrite Nat.min_l, firstn_all in Hd, Hbs by done.
  rewrite (magic_slice _ _ Hbs). cbn [mbind option_bind]. rewrite bool_decide_true by done.
  cbn [negb]. assert (0 ≤ length bs)%nat as Ho by lia.
  destruct (slice_at_intro 4 _ _ _ _ Hd eq_refl Ho) as (_ & Hd1 & Ho1). clear Hd Ho Hbs.
  simpl (0 + 4)%nat in *.
  eat_uint Hd1 Ho1. eat_uint Hd1 Ho1. eat_uint Hd1 Ho1. eat_uint Hd1 Ho1.
  eat_hash Hd1 Ho1. eat_hash Hd1 Ho1. eat_hash Hd1 Ho1. eat_hash Hd1 Ho1. eat_hash Hd1 Ho1.
  unfold MAX_RECEIPT_ARTIFACTS in *.
  match type of Hd1 with drop ?o _ = to_le_bytes 4 ?v ++ ?R =>
    destruct (read_uint_intro 4 bs o v R) as (-> & Hd2 & Ho2); [|exact Hd1|exact Ho1|] end.
  { change (256 ^ Z.of_nat 4) with 4294967296. lia. }
  cbn [mbind option_bind]. rewrite (proj2 (Z.ltb_ge _ _)), Nat2Z.id by lia.
  rewrite bool_decide_true by (rewrite Hlen; unfold RECEIPT_FIXED_BYTES; lia). cbn [negb].
  rewrite <-(app_nil_r (mjoin _)) in Hd2.
  rewrite (read_hashes_intro _ _ _ _ Ha Hd2 Ho2). cbn [mbind option_bind]. by destruct r.
Qed.

Lemma receipt_roundtrip_witness :
  let r := mkReceipt 1 2 3 (sha256 (lit "run")) (sha256 (lit "a")) (sha256 (lit "ok"))
             [sha256 (lit "artifact")] 9 (replicate 32 0) (sha256 (lit "mac")) in
  receipt_from_bytes (receipt_to_bytes r) = Some (Ok r).
Proof.
  apply receipt_roundtrip. split; try (by split; [apply sha256_length|apply sha256_byte]);
    try (cbv; split; [discriminate|reflexivity]).
  - apply Forall_singleton. split; [apply sha256_length|apply sha256_byte].
  - cbv. lia.
  - split; [done|]. by apply Forall_replicate.
Defined.

(** Decoding is total and canonical: on every byte string [from_bytes] returns (no slice
    panics), and whatever it accepts is a well-formed receipt whose encoding is exactly the
    input, so no two byte strings decode to one receipt. *)
Theorem receipt_decode_canonical bs :
  Forall is_byte bs →
  ∃ res, receipt_from_bytes bs = Some res ∧
    ∀ r, res = Ok r → receipt_wf r ∧ receipt_to_bytes r = bs.
Proof.
  intros Hb. unfold receipt_from_bytes. case_decide as Hlen; [by eexists|].
  unfold RECEIPT_FIXED_BYTES in Hlen.
  destruct (slice bs 0 4) as [magic|] eqn:Em; [|unfold slice in Em; case_decide; [done|lia]].
  destruct (slice_at_Some 4 bs 0 magic Em) as (D0 & _ & _). rewrite drop_0 in D0.
  cbn [mbind option_bind]. case_bool_decide as Hm; cbn [negb]; [|by eexists].
  destruct (read_uint_total 16 bs 4 Hb ltac:(lia)) as (t & -> & Ht & D1). cbn [mbind option_bind].
  destruct (read_uint_total 16 bs (4 + 16) Hb ltac:(lia)) as (j & -> & Hj & D2).
  cbn [mbind option_bind].
  destruct (read_uint_total 16 bs (4 + 16 + 16) Hb ltac:(lia)) as (c & -> & Hc & D3).
  cbn [mbind option_bind].
  destruct (read_uint_total 8 bs (4 + 16 + 16 + 16) Hb ltac:(lia)) as (s & -> & Hs & D4).
  cbn [mbind option_bind]. set (o := (4 + 16 + 16 + 16 + 8)%nat) in *.
  destruct (read_hash_total bs o Hb ltac:(lia)) as (h1 & -> & H1 & D5). cbn [mbind option_bind].
  destruct (read_hash_total bs (o + 32) Hb ltac:(lia)) as (h2 & -> & H2 & D6).
  cbn [mbind option_bind].
  destruct (read_hash_total bs (o + 32 + 32) Hb ltac:(lia)) as (h3 & -> & H3 & D7).
  cbn [mbind option_bind].
  destruct (read_hash_total bs (o + 32 + 32 + 32) Hb ltac:(lia)) as (h4 & -> & H4 & D8).
  cbn [mbind option_bind].
  destruct (read_hash_total bs (o + 32 + 32 + 32 + 32) Hb ltac:(lia)) as (h5 & -> & H5 & D9).
  cbn [mbind option_bind].
  destruct (read_uint_total 4 bs (o + 32 + 32 + 32 + 32 + 32) Hb ltac:(lia)) as (n & -> & Hn & D10).
  cbn [mbind option_bind]. destruct (Z.ltb_spec (Z.of_nat MAX_RECEIPT_ARTIFACTS) n); [by eexists|].
  case_bool_decide as Hl; cbn [negb]; [|by eexists].
  edestruct (read_hashes_total (Z.to_nat n) bs) as (hs & -> & Hhs & Hhl & D11);
    [exact Hb|symmetry; exact Hl|].
  cbn [mbind option_bind]. eexists. split; [done|]. intros r Hr. injection Hr as <-.
  split; [split; simpl; try done; lia|]. unfold receipt_to_bytes.
  cbn [r_task_id r_job_id r_tool_call_id r_tool_name_hash r_args_hash r_result_hash
       r_artifact_hashes r_event_seq r_prev_receipt_hash r_mac].
  rewrite Nat.min_l, firstn_all, Hhl, Z2Nat.id by lia.
  symmetry. etrans; [exact D0|]. rewrite Hm. f_equal. change (0 + 4)%nat with 4%nat.
  rewrite D1, D2, D3, D4. fold o. by rewrite D5, D6, D7, D8, D9, D10, D11.
Qed.

Lemma receipt_decode_canonical_witness :
  ∃ res, receipt_from_bytes (lit "CCR0") = Some res ∧
    ∀ r, res = Ok r → receipt_wf r ∧ receipt_to_bytes r = lit "CCR0".
Proof. exact (receipt_decode_canonical (lit "CCR0") (lit_byte _)). Defined.

(** ** Chains *)

(** The widths the Rust types give to any receipt value, capped or not. *)
Record receipt_typed (r : ToolReceipt) : Prop := {
  rt_task : is_uint 128 (r_task_id r);
  rt_job : is_uint 128 (r_job_id r);
  rt_call : is_uint 128 (r_tool_call_id r);
  rt_name : digest (r_tool_name_hash r);
  rt_args : digest (r_args_hash r);
  rt_result : digest (r_result_hash r);
  rt_artifacts : Forall digest (r_artifact_hashes r);
  rt_count : is_uint 32 (Z.of_nat (length (r_artifact_hashes r)));
  rt_seq : is_uint 64 (r_event_seq r);
  rt_prev : digest (r_prev_receipt_hash r);
  rt_mac : digest (r_mac r) }.

Lemma receipt_body_inj r1 r2 :
  receipt_typed r1 → receipt_typed r2 → receipt_body r1 = receipt_body r2 →
  set_mac r1 (r_mac r2) = r2.
Proof.
  intros [T1 J1 C1 [N1 _] [A1 _] [R1 _] F1 L1 S1 _ _] [T2 J2 C2 [N2 _] [A2 _] [R2 _] F2 L2 S2 _ _] H.
  unfold receipt_body in H.
  apply app_inj_1 in H as [Ht H]; [|by rewrite !length_to_le_bytes].
  apply app_inj_1 in H as [Hj H]; [|by rewrite !length_to_le_bytes].
  apply app_inj_1 in H as [Hc H]; [|by rewrite !length_to_le_bytes].
  apply app_inj_1 in H as [Hn H]; [|congruence].
  apply app_inj_1 in H as [Ha H]; [|congruence].
  apply app_inj_1 in H as [Hr H]; [|congruence].
  apply app_inj_1 in H as [Hl H]; [|by rewrite !length_to_le_bytes].
  apply to_le_bytes_inj in Ht, Hj, Hc, Hl; [|done..].
  assert (length (r_artifact_hashes r1) = length (r_artifact_hashes r2)) as Hlen by lia.
  assert (∀ l, Forall digest l → Forall (λ b : bytes, length b = 32%nat) l) as Hd
    by (intros l Hl'; eapply Forall_impl; [exact Hl'|by intros ? []]).
  apply app_inj_1 in H as [Hm H]; [|rewrite !(length_mjoin_fixed 32) by auto; lia].
  apply (mjoin_inj_fixed 32) in Hm; [|auto..].
  apply app_inj_1 in H as [Hs Hp]; [|by rewrite !length_to_le_bytes].
  apply to_le_bytes_inj in Hs; [|done..].
  destruct r1, r2; simpl in *; subst; done.
Qed.

Section Chains.
Context `{HS : Hash} `{MC : Mac}.

(** A verified chain: every link and every MAC holds. *)
Fixpoint linked (key prev : bytes) (rs : list ToolReceipt) : Prop :=
  match rs with
  | [] => True
  | r :: rs' => r_prev_receipt_hash r = prev ∧ r_mac r = mac key (receipt_body r) ∧
                linked key (receipt_chain_hash r) rs'
  end.
Fixpoint receipts_head (prev : bytes) (rs : list ToolReceipt) : bytes :=
  match rs with
  | [] => prev
  | r :: rs' => receipts_head (receipt_chain_hash r) rs'
  end.

Lemma receipts_head_app prev rs1 rs2 :
  receipts_head prev (rs1 ++ rs2) = receipts_head (receipts_head prev rs1) rs2.
Proof. revert prev. induction rs1 as [|r rs1 IH]; intros prev; simpl; [done|apply IH]. Qed.

Lemma linked_app key prev rs1 rs2 :
  linked key prev (rs1 ++ rs2) ↔ linked key prev rs1 ∧ linked key (receipts_head prev rs1) rs2.
Proof.
  revert prev. induction rs1 as [|r rs1 IH]; intros prev; simpl; [tauto|]. rewrite IH. tauto.
Qed.

Lemma ct_eq_mac key b m : digest m → ct_eq (mac key b) m = bool_decide (m = mac key b).
Proof.
  intros [Hl Hb]. rewrite ct_eq_spec by (auto with crust; by rewrite mac_length).
  apply bool_decide_ext. split; congruence.
Qed.

(** The walk accepts exactly the linked chains. *)
Lemma receipt_walk_linked key prev i rs n h :
  Forall receipt_typed rs →
  receipt_walk_loop key prev i rs = (RIntact n, h) ↔
  linked key prev rs ∧ n = (i + length rs)%nat ∧ h = receipts_head prev rs.
Proof.
  intros Hty. revert prev i. induction Hty as [|r rs Hr _ IH]; intros prev i; simpl.
  - rewrite Nat.add_0_r. naive_solver.
  - rewrite (ct_eq_mac key _ _ (rt_mac r Hr)).
    case_bool_decide as Hp; simpl; [|naive_solver].
    case_bool_decide as Hm; simpl; [|naive_solver].
    unfold receipt_chain_hash. rewrite IH, Nat.add_succ_r. naive_solver.
Qed.

Lemma mint_linked c ps :
  let cr := mint_all c ps in
  linked (c_key c) (c_head c) cr.2 ∧ c_head cr.1 = receipts_head (c_head c) cr.2 ∧
  c_count cr.1 = (c_count c + length ps)%nat ∧ length cr.2 = length ps ∧ c_key cr.1 = c_key c.
Proof.
  revert c. induction ps as [|p ps IH]; intros c; [simpl; rewrite Nat.add_0_r; done|].
  cbn [mint_all]. destruct (mint c p) as [c1 r] eqn:Hm.
  specialize (IH c1). destruct (mint_all c1 ps) as [c2 rs]. cbn [fst snd] in *.
  destruct IH as (H1 & H2 & H3 & H4 & H5). unfold mint in Hm. injection Hm as <- <-.
  cbn [c_key c_head c_count] in *. simpl. split; [|split; [|split; [|split]]].
  - split; [done|]. split; [done|exact H1].
  - exact H2.
  - lia.
  - lia.
  - done.
Qed.

(** What the Rust types give to the parameters of a call. *)
Record params_typed (p : ReceiptParams) : Prop := {
  pt_task : is_uint 128 (p_task_id p);
  pt_job : is_uint 128 (p_job_id p);
  pt_call : is_uint 128 (p_tool_call_id p);
  pt_artifacts : Forall digest (p_artifacts p);
  pt_seq : is_uint 64 (p_event_seq p) }.

Lemma hash_digest x : digest (hash x).
Proof. split; auto with crust. Qed.
Lemma mac_digest k x : digest (mac k x).
Proof. split; auto with crust. Qed.

Lemma mint_wf c ps :
  digest (c_head c) → Forall params_typed ps → Forall receipt_wf (mint_all c ps).2.
Proof.
  intros Hh Hps. revert c Hh. induction Hps as [|p ps [] _ IH]; intros c Hh; [constructor|].
  cbn [mint_all]. destruct (mint c p) as [c1 r] eqn:Hm.
  unfold mint in Hm. injection Hm as <- <-. specialize (IH (mkChain (c_key c)
    (hash (receipt_body (mkReceipt (p_task_id p) (p_job_id p) (p_tool_call_id p)
      (hash (p_tool_name p)) (hash (p_args p)) (hash (p_result p))
      (take MAX_RECEIPT_ARTIFACTS (p_artifacts p)) (p_event_seq p) (c_head c)
      (replicate 32 0)))) (S (c_count c))) (hash_digest _)).
  destruct (mint_all _ ps) as [c2 rs]. simpl. constructor; [|exact IH].
  split; simpl; auto using hash_digest, mac_digest.
  - by apply Forall_take.
  - rewrite length_take. lia.
Qed.

Lemma receipt_wf_typed r : receipt_wf r → receipt_typed r.
Proof.
  intros []. split; try done. unfold is_uint, MAX_RECEIPT_ARTIFACTS in *.
  change (2 ^ 32) with 4294967296. lia.
Qed.

Lemma genesis_digest : digest GENESIS_RECEIPT_HASH.
Proof. split; [done|]. by apply Forall_replicate. Qed.

(** A minted chain is complete and its truncations are detected: the receipts of any
    sequence of calls verify as the complete chain, every proper prefix still verifies link
    by link and MAC by MAC, and every proper prefix is rejected by [verify_complete] as
    truncated at its end. *)
Theorem receipt_chain_complete key ps k :
  Forall params_typed ps → (k < length ps)%nat →
  let '(c, rs) := mint_all (ReceiptChain_new key) ps in
  verify_complete c rs = RIntact (length ps) ∧
  receipt_verify c (take k rs) = RIntact k ∧
  verify_complete c (take k rs) = RBroken k EndTruncated.
Proof.
  intros Hps Hk. pose proof (mint_linked (ReceiptChain_new key) ps) as Hl.
  pose proof (mint_wf (ReceiptChain_new key) ps genesis_digest Hps) as Hwf.
  destruct (mint_all _ ps) as [c rs]. cbn [fst snd] in *.
  destruct Hl as (H1 & H2 & H3 & H4 & H5). simpl in *.
  assert (Forall receipt_typed rs) as Hty by (eapply Forall_impl; eauto using receipt_wf_typed).
  assert (receipt_walk c rs = (RIntact (length ps), c_head c)) as Hfull.
  { apply receipt_walk_linked; [done|]. rewrite H5. simpl. by rewrite H4. }
  assert (receipt_walk c (take k rs) = (RIntact k, receipts_head GENESIS_RECEIPT_HASH (take k rs))) as Hpre.
  { apply receipt_walk_linked; [by apply Forall_take|]. rewrite H5, length_take, H4.
    split; [|split; [simpl; lia|done]]. rewrite <-(take_drop k rs) in H1.
    by apply linked_app in H1 as [? _]. }
  unfold receipt_verify, verify_complete. rewrite Hfull, Hpre. split; [|split; [done|]].
  - rewrite H3, !bool_decide_true by done. done.
  - rewrite (bool_decide_false (k = c_count c)) by lia. done.
Qed.

(** Two verified chains of one length under one head. *)
Lemma linked_inj key rs1 rs2 :
  Forall receipt_typed rs1 → Forall receipt_typed rs2 → length rs1 = length rs2 →
  linked key GENESIS_RECEIPT_HASH rs1 → linked key GENESIS_RECEIPT_HASH rs2 →
  receipts_head GENESIS_RECEIPT_HASH rs1 = receipts_head GENESIS_RECEIPT_HASH rs2 →
  rs1 = rs2 ∨ ∃ r1 r2, r1 ∈ rs1 ∧ r2 ∈ rs2 ∧ receipt_body r1 ≠ receipt_body r2 ∧
                       hash (receipt_body r1) = hash (receipt_body r2).
Proof.
  revert rs2. induction rs1 as [|r1 rs1 IH] using rev_ind; intros rs2 T1 T2 Hl L1 L2 Hh;
    destruct rs2 as [|r2 rs2 _] using rev_ind; rewrite ?length_app in Hl; simpl in Hl; try lia;
    [by left|].
  rewrite Forall_app, Forall_singleton in T1, T2. rewrite linked_app in L1, L2.
  rewrite !receipts_head_app in Hh. simpl in L1, L2, Hh. unfold receipt_chain_hash in Hh.
  destruct T1 as [T1 R1], T2 as [T2 R2], L1 as (L1 & P1 & M1 & _), L2 as (L2 & P2 & M2 & _).
  destruct (decide (receipt_body r1 = receipt_body r2)) as [Hb|Hb].
  - pose proof (receipt_body_inj r1 r2 R1 R2 Hb) as Hr.
    assert (r1 = r2) as ->.
    { rewrite <-Hr. rewrite M2, <-Hb, <-M1. by destruct r1. }
    destruct (IH rs2 T1 T2 ltac:(lia) L1 L2 ltac:(congruence)) as [->|(a & b & ? & ? & ?)].
    + by left.
    + right. exists a, b. set_solver.
  - right. exists r1, r2. set_solver.
Qed.

(** C18: Receipts are tamper-evident: any list of receipts that [verify_complete] accepts
    against the chain minted for a sequence of calls is that chain itself, field for field
    and MAC for MAC, unless two different receipt bodies, one of each list, collide under
    the hash. *)
Theorem receipt_tamper_evident key ps rs' n :
  Forall params_typed ps → Forall receipt_typed rs' →
  let '(c, rs) := mint_all (ReceiptChain_new key) ps in
  verify_complete c rs' = RIntact n →
  rs' = rs ∨ ∃ r1 r2, r1 ∈ rs' ∧ r2 ∈ rs ∧ receipt_body r1 ≠ receipt_body r2 ∧
                      hash (receipt_body r1) = hash (receipt_body r2).
Proof.
  intros Hps Hty'. pose proof (mint_linked (ReceiptChain_new key) ps) as Hl.
  pose proof (mint_wf (ReceiptChain_new key) ps genesis_digest Hps) as Hwf.
  destruct (mint_all _ ps) as [c rs]. cbn [fst snd] in *.
  destruct Hl as (H1 & H2 & H3 & H4 & H5). simpl in *. intros Hv.
  unfold verify_complete in Hv. destruct (receipt_walk c rs') as [[m|] h] eqn:Hw; [|done].
  apply receipt_walk_linked in Hw as (L' & -> & ->); [|done].
  case_bool_decide as Hc; simpl in Hv; [|done]. case_bool_decide as Hh; simpl in Hv; [|done].
  apply (linked_inj key); [done|eapply Forall_impl; eauto using receipt_wf_typed|..|done|congruence].
  - simpl in Hc. lia.
  - by rewrite <-H5.
Qed.

End Chains.

(** *** Witnesses *)

Definition demo_calls : list ReceiptParams :=
  [ mkParams 1 2 3 (lit "run_command") (lit "cargo test") (lit "ok") [] 5;
    mkParams 1 2 4 (lit "read_file") (lit "src/lib.rs") (lit "text") [sha256 (lit "text")] 8 ].
Definition demo_key : bytes := replicate 32 7.

Lemma demo_calls_typed : Forall params_typed demo_calls.
Proof.
  apply Forall_cons. split; [|apply Forall_singleton]; split;
    try (cbv; split; [discriminate|reflexivity]).
  - constructor.
  - apply Forall_singleton. split; [apply sha256_length|apply sha256_byte].
Qed.

Lemma receipt_chain_complete_witness :
  let '(c, rs) := mint_all (ReceiptChain_new demo_key) demo_calls in
  verify_complete c rs = RIntact 2 ∧ receipt_verify c (take 1 rs) = RIntact 1 ∧
  verify_complete c (take 1 rs) = RBroken 1 EndTruncated.
Proof. apply (receipt_chain_complete demo_key demo_calls 1 demo_calls_typed). simpl. lia. Defined.

Lemma receipt_tamper_evident_witness :
  let '(c, rs) := mint_all (ReceiptChain_new demo_key) demo_calls in
  verify_complete c (mint_all (ReceiptChain_new demo_key) demo_calls).2 = RIntact 2 →
  (mint_all (ReceiptChain_new demo_key) demo_calls).2 = rs ∨
  ∃ r1 r2, r1 ∈ (mint_all (ReceiptChain_new demo_key) demo_calls).2 ∧ r2 ∈ rs ∧
           receipt_body r1 ≠ receipt_body r2 ∧ hash (receipt_body r1) = hash (receipt_body r2).
Proof.
  apply (receipt_tamper_evident demo_key demo_calls _ 2 demo_calls_typed).
  eapply Forall_impl; [|apply receipt_wf_typed].
  apply mint_wf; [apply genesis_digest|apply demo_calls_typed].
Defined.

(** ** The join *)

(** A receipt is anchored when the first frame at its sequence number is a completed tool
    call of its own task and job. *)
Definition anchored (frames : list FrameRef) (r : ToolReceipt) : Prop :=
  ∃ f, find (λ f, bool_decide (fr_seq f = r_event_seq r)) frames = Some f ∧
       fr_tool_completed f = true ∧ fr_task_id f = Some (r_task_id r) ∧
       fr_job_id f = Some (r_job_id r).

Lemma by_seq_lookup frames (m : gmap Z FrameRef) s :
  fold_left (λ m f, match m !! fr_seq f with Some _ => m | None => <[fr_seq f := f]> m end)
    frames m !! s =
  match m !! s with
  | Some f => Some f
  | None => find (λ f, bool_decide (fr_seq f = s)) frames
  end.
Proof.
  revert m. induction frames as [|f fs IH]; intros m; simpl; [by destruct (m !! s)|].
  rewrite IH. case_bool_decide as Hs.
  - subst s. destruct (m !! fr_seq f) as [g|] eqn:E; [by rewrite E|]. by rewrite lookup_insert_eq.
  - destruct (m !! fr_seq f) eqn:E; [done|]. by rewrite lookup_insert_ne.
Qed.

Lemma join_loop_spec frames i rs :
  match join_loop (by_seq frames) i rs with
  | Joined n => n = (i + length rs)%nat ∧ Forall (anchored frames) rs
  | JBroken j _ => ∃ k r, j = (i + k)%nat ∧ rs !! k = Some r ∧ ¬ anchored frames r ∧
                          Forall (anchored frames) (take k rs)
  end.
Proof.
  revert i. induction rs as [|r rs IH]; intros i; simpl; [by rewrite Nat.add_0_r|].
  assert (by_seq frames !! r_event_seq r =
          find (λ f, bool_decide (fr_seq f = r_event_seq r)) frames) as ->
    by (unfold by_seq; by rewrite by_seq_lookup).
  assert (∀ reason, ¬ anchored frames r →
    match JBroken i reason with
    | Joined n => n = (i + S (length rs))%nat ∧ Forall (anchored frames) (r :: rs)
    | JBroken j _ => ∃ k r0, j = (i + k)%nat ∧ (r :: rs) !! k = Some r0 ∧ ¬ anchored frames r0 ∧
                             Forall (anchored frames) (take k (r :: rs))
    end) as Hbrk.
  { intros reason Hn. exists 0%nat, r. rewrite Nat.add_0_r. simpl. by repeat constructor. }
  destruct (find _ frames) as [f|] eqn:Ef; [|apply (Hbrk NoFrameAtSeq); intros (g & Hg & _); congruence].
  destruct (fr_tool_completed f) eqn:Hc; simpl;
    [|apply (Hbrk NotAToolCompletion); intros (g & Hg & ? & _); congruence].
  case_bool_decide as Ht; simpl; [|apply (Hbrk TaskMismatch); intros (g & Hg & _ & ? & _); congruence].
  case_bool_decide as Hj; simpl; [|apply (Hbrk JobMismatch); intros (g & Hg & _ & _ & ?); congruence].
  assert (anchored frames r) as Hr by (by exists f).
  specialize (IH (S i)). destruct (join_loop (by_seq frames) (S i) rs) as [n|j reason].
  - destruct IH as [-> Hall]. split; [lia|by constructor].
  - destruct IH as (k & r0 & -> & Hk & Hna & Hall). exists (S k), r0.
    split; [lia|]. split; [done|]. split; [done|]. simpl. by constructor.
Qed.

(** The join is sound and complete: [verify_against_log] reports [Joined] with the
    number of receipts exactly when every receipt's sequence number resolves (first frame
    wins) to a completed tool call of the receipt's own task and job, and otherwise names
    the first receipt that is not anchored. *)
Theorem receipt_join_exact rs frames :
  match verify_against_log rs frames with
  | Joined n => n = length rs ∧ Forall (anchored frames) rs
  | JBroken i _ => ∃ r, rs !! i = Some r ∧ ¬ anchored frames r ∧
                        Forall (anchored frames) (take i rs)
  end.
Proof.
  pose proof (join_loop_spec frames 0 rs) as H. unfold verify_against_log.
  destruct (join_loop (by_seq frames) 0 rs) as [n|i reason]; [done|].
  destruct H as (k & r & -> & ?). by exists r.
Qed.
