(* ===== verification/Kernel.v ===== *)
(** * The kernel reducer (crate [crustcore-kernel], [kernel.rs])

    [Kernel::step] consumes one event and returns a bounded list of actions.
    The [&mut self] of the source is state passing. An index into an arena
    ([self.tasks[idx]]) panics out of range in Rust, so every such access is a
    partial operation here: a [None] result of [step] or of one of its helpers
    is exactly a panic of the source. The actions a helper pushes onto the
    [&mut ActionVec] are returned as the list of newly pushed actions. *)

From S2P Require Import Prelude Types Policy KernelState.

Definition APPROVAL_TTL_MS : Z := 300000.

Record Kernel := mkKernel {
  next_seq : EventSeq;
  applied_through : EventSeq;
  policy : PolicySnapshot;
  next_approval : Z;
  tasks : list TaskEntry;
  jobs : list JobEntry;
  approvals : list ApprovalEntry;
  ready : list JobId }.

(** [Kernel::new]. *)
Definition Kernel_new (p : PolicySnapshot) : Kernel :=
  mkKernel EventSeq_FIRST EventSeq_FIRST p 1 [] [] [] [].

(** Field updates. *)
Definition set_tasks (k : Kernel) ts : Kernel :=
  mkKernel (next_seq k) (applied_through k) (policy k) (next_approval k) ts (jobs k)
    (approvals k) (ready k).
Definition set_jobs (k : Kernel) js : Kernel :=
  mkKernel (next_seq k) (applied_through k) (policy k) (next_approval k) (tasks k) js
    (approvals k) (ready k).
Definition set_approvals (k : Kernel) aps : Kernel :=
  mkKernel (next_seq k) (applied_through k) (policy k) (next_approval k) (tasks k) (jobs k)
    aps (ready k).
Definition set_ready (k : Kernel) r : Kernel :=
  mkKernel (next_seq k) (applied_through k) (policy k) (next_approval k) (tasks k) (jobs k)
    (approvals k) r.
Definition set_next_approval (k : Kernel) n : Kernel :=
  mkKernel (next_seq k) (applied_through k) (policy k) n (tasks k) (jobs k)
    (approvals k) (ready k).
Definition set_seqs (k : Kernel) n a : Kernel :=
  mkKernel n a (policy k) (next_approval k) (tasks k) (jobs k) (approvals k) (ready k).

Definition t_set_status (s : TaskStatus) (t : TaskEntry) : TaskEntry :=
  mkTask (t_id t) s (t_budget t) (t_last_event t) (t_awaiting t) (t_block_reason t).
Definition t_set_budget (b : Budget) (t : TaskEntry) : TaskEntry :=
  mkTask (t_id t) (t_status t) b (t_last_event t) (t_awaiting t) (t_block_reason t).
Definition t_set_last_event (s : EventSeq) (t : TaskEntry) : TaskEntry :=
  mkTask (t_id t) (t_status t) (t_budget t) s (t_awaiting t) (t_block_reason t).
Definition t_set_awaiting (a : option ApprovalId) (t : TaskEntry) : TaskEntry :=
  mkTask (t_id t) (t_status t) (t_budget t) (t_last_event t) a (t_block_reason t).
Definition t_set_block_reason (r : option BlockReason) (t : TaskEntry) : TaskEntry :=
  mkTask (t_id t) (t_status t) (t_budget t) (t_last_event t) (t_awaiting t) r.
Definition j_set_status (s : JobStatus) (j : JobEntry) : JobEntry :=
  mkJob (j_id j) (j_task j) s (j_lease j) (j_last_event j).
Definition j_set_lease (l : LeaseState) (j : JobEntry) : JobEntry :=
  mkJob (j_id j) (j_task j) (j_status j) l (j_last_event j).
Definition j_set_last_event (s : EventSeq) (j : JobEntry) : JobEntry :=
  mkJob (j_id j) (j_task j) (j_status j) (j_lease j) s.
Definition a_set_status (s : ApprovalStatus) (a : ApprovalEntry) : ApprovalEntry :=
  mkApproval (a_id a) (a_task a) (a_job a) s (a_op a) (a_expires_at a).

(** Indexed updates [self.tasks[idx] = f(...)]; [None] out of range. *)
Definition upd_task (k : Kernel) (idx : nat) (f : TaskEntry → TaskEntry) : option Kernel :=
  _ ← tasks k !! idx; Some (set_tasks k (alter f idx (tasks k))).
Definition upd_job (k : Kernel) (idx : nat) (f : JobEntry → JobEntry) : option Kernel :=
  _ ← jobs k !! idx; Some (set_jobs k (alter f idx (jobs k))).
Definition upd_approval (k : Kernel) (idx : nat) (f : ApprovalEntry → ApprovalEntry)
    : option Kernel :=
  _ ← approvals k !! idx; Some (set_approvals k (alter f idx (approvals k))).

(** [task], [task_index], [job], [job_index], [approval], [approval_index]. *)
Definition task (k : Kernel) (id : TaskId) : option TaskEntry :=
  find (λ t, bool_decide (t_id t = id)) (tasks k).
Definition task_index (k : Kernel) (id : TaskId) : option nat :=
  position (λ t, bool_decide (t_id t = id)) (tasks k).
Definition job (k : Kernel) (id : JobId) : option JobEntry :=
  find (λ j, bool_decide (j_id j = id)) (jobs k).
Definition job_index (k : Kernel) (id : JobId) : option nat :=
  position (λ j, bool_decide (j_id j = id)) (jobs k).
Definition approval (k : Kernel) (id : ApprovalId) : option ApprovalEntry :=
  find (λ a, bool_decide (a_id a = id)) (approvals k).
Definition approval_index (k : Kernel) (id : ApprovalId) : option nat :=
  position (λ a, bool_decide (a_id a = id)) (approvals k).

(** The read accessors of the public API. *)
Definition task_status (k : Kernel) (id : TaskId) : option TaskStatus := t_status <$> task k id.
Definition block_reason (k : Kernel) (id : TaskId) : option BlockReason :=
  t ← task k id; t_block_reason t.
Definition task_awaiting (k : Kernel) (id : TaskId) : option ApprovalId :=
  t ← task k id; t_awaiting t.
Definition budget (k : Kernel) (id : TaskId) : option Budget := t_budget <$> task k id.
Definition job_status (k : Kernel) (id : JobId) : option JobStatus := j_status <$> job k id.
Definition approval_status (k : Kernel) (id : ApprovalId) : option ApprovalStatus :=
  a_status <$> approval k id.

(** [set_blocked]. *)
Definition t_block (r : BlockReason) (t : TaskEntry) : TaskEntry :=
  t_set_awaiting None (t_set_block_reason (Some r) (t_set_status TBlocked t)).
Definition set_blocked (k : Kernel) (idx : nat) (r : BlockReason) : option Kernel :=
  upd_task k idx (t_block r).

(** [set_task_status]. *)
Definition t_unblock (to : TaskStatus) (t : TaskEntry) : TaskEntry :=
  t_set_awaiting None (t_set_block_reason None (t_set_status to t)).
Definition set_task_status (k : Kernel) (idx : nat) (to : TaskStatus) : option Kernel :=
  if bool_decide (to = TBlocked) then set_blocked k idx RiskDetected
  else upd_task k idx (t_unblock to).

(** [mint_approval]. *)
Definition mint_approval (k : Kernel) : Kernel * ApprovalId :=
  (set_next_approval k (saturating_add u128_MAX (next_approval k) 1), next_approval k).

(** [is_runnable_job]. *)
Definition is_runnable_job (k : Kernel) (jid : JobId) (tid : TaskId) : bool :=
  existsb
    (λ j, bool_decide (j_id j = jid) && bool_decide (j_task j = tid) &&
          match j_status j with JLeased | JRunning => true | _ => false end)
    (jobs k).

(** [classify_request]. *)
Definition classify_request (k : Kernel) (e : Event) (idx : nat)
    : option (Kernel * list Action) :=
  let reversibility := default Irreversible (ev_reversibility e) in
  match classify (policy k) reversibility with
  | PAllow =>
      match ev_job_id e with
      | Some job_id =>
          t ← tasks k !! idx;
          if is_runnable_job k job_id (t_id t) then Some (k, [RunTool job_id])
          else Some (k, [])
      | None => Some (k, [])
      end
  | PRequireApproval _ =>
      t ← tasks k !! idx;
      match t_awaiting t with
      | Some _ => Some (k, [])
      | None =>
          match ev_tool_call_id e with
          | None => k ← set_blocked k idx RiskDetected; Some (k, [])
          | Some tool_call_id =>
              let '(k, approval_id) := mint_approval k in
              t ← tasks k !! idx;
              let expires_at := saturating_add u64_MAX (ev_timestamp e) APPROVAL_TTL_MS in
              let k :=
                set_approvals k
                  (approvals k ++
                   [mkApproval approval_id (t_id t) (ev_job_id e) APending
                      (mkOp (Some tool_call_id)) expires_at]) in
              k ← upd_task k idx (t_set_awaiting (Some approval_id));
              k ← upd_task k idx (t_set_status TAwaitingApproval);
              Some (k, [RequestApproval approval_id])
          end
      end
  | PDeny _ => k ← set_blocked k idx PolicyDenied; Some (k, [])
  end.

(** [resolve_approval]. *)
Definition resolve_approval (k : Kernel) (e : Event) (idx : nat)
    : option (Kernel * list Action) :=
  if negb (bool_decide (ev_actor e = AUser)) then Some (k, []) else
  match ev_approval_id e with
  | None => Some (k, [])
  | Some approval_id =>
      t ← tasks k !! idx;
      if negb (bool_decide (t_awaiting t = Some approval_id)) then Some (k, []) else
      match approval_index k approval_id with
      | None => Some (k, [])
      | Some aidx =>
          a ← approvals k !! aidx;
          if negb (bool_decide (a_status a = APending)) then Some (k, []) else
          if negb (op_matches (a_op a) (ev_tool_call_id e)) then Some (k, []) else
          if a_expires_at a <? ev_timestamp e then
            k ← upd_approval k aidx (a_set_status AExpired);
            k ← set_blocked k idx ApprovalExpired;
            Some (k, [])
          else
          match ev_resolution e with
          | Some Approve =>
              k ← upd_approval k aidx (a_set_status AApproved);
              a ← approvals k !! aidx;
              t ← tasks k !! idx;
              k ← upd_task k idx (t_set_status TRunning);
              k ← upd_task k idx (t_set_block_reason None);
              k ← upd_task k idx (t_set_awaiting None);
              match a_job a with
              | Some job_id =>
                  if is_runnable_job k job_id (t_id t) then Some (k, [RunTool job_id])
                  else Some (k, [])
              | None => Some (k, [])
              end
          | Some Deny =>
              k ← upd_approval k aidx (a_set_status ADenied);
              k ← set_blocked k idx ApprovalDenied;
              Some (k, [])
          | None => Some (k, [])
          end
      end
  end.

(** The kinds [apply_job] counts as activity of a leased job. *)
Definition is_activity (kind : EventKind) : bool :=
  match kind with
  | ModelRequestStarted | ToolCallStarted | CommandStarted | SandboxStarted
  | CommandOutputCaptured | CommandCompleted | ToolCallCompleted => true
  | _ => false
  end.

(** The tail of [apply_job] for a live job: the lease guards, the transition
    table, the lease refresh and the ready queue. *)
Definition apply_job_entry (k : Kernel) (e : Event) (jid : JobId) (jidx : nat) : option Kernel :=
  j ← jobs k !! jidx;
  let active :=
    match j_status j with JLeased | JRunning | JHeartbeatMissing => true | _ => false end in
  let foreign :=
    match l_owner (j_lease j), ev_lease_owner e with
    | Some owner, Some ev_owner => negb (bool_decide (owner = ev_owner))
    | _, _ => false
    end in
  if active && foreign then Some k else
  if active && is_expired_at (j_lease j) (ev_timestamp e) then
    upd_job k jidx (j_set_status JExpired)
  else
  k ← match job_next (j_status j) (ev_kind e) with
      | JMove to => upd_job k jidx (j_set_status to)
      | JStay => Some k
      end;
  j ← jobs k !! jidx;
  k ← (if bool_decide (ev_kind e = JobLeased) then
         k ← upd_job k jidx
               (λ j, j_set_lease (refresh (j_lease j) (ev_lease_owner e) (ev_timestamp e)) j);
         Some (set_ready k (ready k ++ [jid]))
       else if is_activity (ev_kind e) && bool_decide (is_Some (l_owner (j_lease j))) then
         upd_job k jidx
           (λ j, j_set_lease (refresh (j_lease j) (l_owner (j_lease j)) (ev_timestamp e)) j)
       else Some k);
  upd_job k jidx (j_set_last_event (ev_seq e)).

(** [apply_job]. *)
Definition apply_job (k : Kernel) (e : Event) : option Kernel :=
  if bool_decide (ev_kind e = JobQueued) then
    match ev_job_id e, ev_task_id e with
    | Some jid, Some tid =>
        match job_index k jid with
        | None => Some (set_jobs k (jobs k ++ [JobEntry_new jid tid (ev_seq e)]))
        | Some jidx =>
            j ← jobs k !! jidx;
            if bool_decide (j_status j = JRetrying)
            then upd_job k jidx (j_set_status JQueued) else Some k
        end
    | _, _ => Some k
    end
  else if bool_decide (ev_kind e = TaskKilled) || bool_decide (ev_kind e = TaskFailed) then
    let to := if bool_decide (ev_kind e = TaskKilled) then JKilled else JFailed in
    match ev_task_id e with
    | Some tid =>
        Some (set_jobs k
          ((λ j, if bool_decide (j_task j = tid) && negb (job_is_terminal (j_status j))
                 then j_set_status to j else j) <$> jobs k))
    | None => Some k
    end
  else
    match ev_job_id e with
    | None => Some k
    | Some jid =>
        match job_index k jid with
        | None => Some k
        | Some jidx =>
            j ← jobs k !! jidx;
            if job_is_terminal (j_status j) then Some k else apply_job_entry k e jid jidx
        end
    end.

(** One iteration of the [drain_ready] loop, for the popped job. *)
Definition drain_one (k : Kernel) (jid : JobId) : option (list Action) :=
  match job_index k jid with
  | None => Some []
  | Some jidx =>
      j ← jobs k !! jidx;
      let task_running := bool_decide (task_status k (j_task j) = Some TRunning) in
      Some (if task_running && match j_status j with JLeased | JRunning => true | _ => false end
            then [RequestModel jid] else [])
  end.

(** [drain_ready]: at most [READY_DRAIN_MAX] pops. *)
Fixpoint drain_loop (n : nat) (k : Kernel) : option (Kernel * list Action) :=
  match n with
  | O => Some (k, [])
  | S n' =>
      match ready k with
      | [] => Some (k, [])
      | jid :: rest =>
          let k := set_ready k rest in
          acts ← drain_one k jid;
          '(k, acts') ← drain_loop n' k;
          Some (k, acts ++ acts')
      end
  end.
Definition drain_ready (k : Kernel) : option (Kernel * list Action) :=
  drain_loop READY_DRAIN_MAX k.

(** The approval-expiry sweep of [process]: the arena index of the pending
    approval of an [AwaitingApproval] task when its deadline has passed. *)
Definition expired_approval (k : Kernel) (e : Event) (idx : nat) : option (option nat) :=
  t ← tasks k !! idx;
  if bool_decide (t_status t = TAwaitingApproval) then
    match t_awaiting t with
    | Some aid =>
        match approval_index k aid with
        | Some aidx =>
            a ← approvals k !! aidx;
            Some (if a_expires_at a <? ev_timestamp e then Some aidx else None)
        | None => Some None
        end
    | None => Some None
    end
  else Some None.

(** Folding [event.budget_delta] into the task budget; the exhausted axis. *)
Definition charge_budget (k : Kernel) (e : Event) (idx : nat)
    : option (Kernel * option BudgetAxis) :=
  match ev_budget_delta e with
  | None => Some (k, None)
  | Some d =>
      t ← tasks k !! idx;
      let '(b, c) := record (t_budget t) d in
      k ← upd_task k idx (t_set_budget b);
      Some (k, exhausted_axis c)
  end.

(** The [match event.kind] of [process]: the source-state gate. *)
Definition dispatch (k : Kernel) (e : Event) (idx : nat) : option (Kernel * list Action) :=
  t ← tasks k !! idx;
  let status := t_status t in
  match ev_kind e with
  | ApprovalResolved => resolve_approval k e idx
  | ToolCallRequested =>
      if bool_decide (status = TRunning) then classify_request k e idx else Some (k, [])
  | GitHubOperationRequested =>
      match status with
      | TRunning | TIntegrating => classify_request k e idx
      | _ => Some (k, [])
      end
  | kind =>
      match task_next status kind with
      | TMove to => k ← set_task_status k idx to; Some (k, [])
      | TStay => Some (k, [])
      end
  end.

(** The part of [process] after the task lookup, for a live task [tid] at [idx]. *)
Definition process_live (k : Kernel) (e : Event) (tid : TaskId) (idx : nat)
    : option (Kernel * list Action) :=
  expired ← expired_approval k e idx;
  match expired with
  | Some aidx =>
      k ← upd_approval k aidx (a_set_status AExpired);
      k ← set_blocked k idx ApprovalExpired;
      k ← upd_task k idx (t_set_last_event (ev_seq e));
      Some (k, [])
  | None =>
      '(k, exhausted) ← charge_budget k e idx;
      match exhausted with
      | Some axis =>
          k ← set_blocked k idx (BudgetExhausted axis);
          k ← upd_task k idx (t_set_last_event (ev_seq e));
          Some (k, [])
      | None =>
          k ← apply_job k e;
          '(k, acts) ← dispatch k e idx;
          t ← tasks k !! idx;
          let finished := if task_is_terminal (t_status t) then [TaskFinished tid] else [] in
          k ← upd_task k idx (t_set_last_event (ev_seq e));
          '(k, acts') ← drain_ready k;
          Some (k, acts ++ finished ++ acts')
      end
  end.

(** [process]. *)
Definition process (k : Kernel) (e : Event) : option (Kernel * list Action) :=
  if bool_decide (ev_kind e = TaskCreated) then
    match ev_task_id e with
    | Some tid =>
        match task_index k tid, ev_budget e with
        | None, Some b =>
            if is_fully_bounded b
            then Some (set_tasks k (tasks k ++ [TaskEntry_new tid b (ev_seq e)]), [])
            else Some (k, [])
        | _, _ => Some (k, [])
        end
    | None => Some (k, [])
    end
  else
    match ev_task_id e with
    | None => Some (k, [])
    | Some tid =>
        match task_index k tid with
        | None => Some (k, [])
        | Some idx =>
            t ← tasks k !! idx;
            if task_is_terminal (t_status t) then
              k ← upd_task k idx (t_set_last_event (ev_seq e)); Some (k, [])
            else process_live k e tid idx
        end
    end.

(** [Kernel::step]. *)
Definition step (k : Kernel) (e : Event) : option (Kernel * list Action) :=
  if negb (bool_decide (ev_seq e = EventSeq_FIRST)) && (ev_seq e <=? applied_through k)
  then Some (k, [])
  else
    '(k, acts) ← process k e;
    let applied :=
      if negb (bool_decide (ev_seq e = EventSeq_FIRST)) && (applied_through k <? ev_seq e)
      then ev_seq e else applied_through k in
    Some (set_seqs k (next_saturating (next_seq k)) applied,
          AppendEvent (ev_task_id e) :: acts).

(** A run: the events of a session, in order, and the actions of each step. *)
Fixpoint run (k : Kernel) (es : list Event) : option (Kernel * list (list Action)) :=
  match es with
  | [] => Some (k, [])
  | e :: es' =>
      '(k, acts) ← step k e;
      '(k, rest) ← run k es';
      Some (k, acts :: rest)
  end.
