(* ===== verification/KernelInv.v ===== *)
(** * The kernel invariant

    What every kernel reachable by [step] satisfies, and that [step] neither
    panics nor breaks it. The lemmas on the single helpers are shared by the
    properties of [KernelProps.v]. *)

From S2P Require Import Prelude Types Policy KernelState Kernel.

(** ** Inverting the partial updates *)

Lemma upd_task_Some k idx f k' :
  upd_task k idx f = Some k' ↔
  is_Some (tasks k !! idx) ∧ k' = set_tasks k (alter f idx (tasks k)).
Proof.
  unfold upd_task. destruct (tasks k !! idx) eqn:E; simpl; naive_solver.
Qed.

Lemma upd_job_Some k idx f k' :
  upd_job k idx f = Some k' ↔
  is_Some (jobs k !! idx) ∧ k' = set_jobs k (alter f idx (jobs k)).
Proof.
  unfold upd_job. destruct (jobs k !! idx) eqn:E; simpl; naive_solver.
Qed.

Lemma upd_approval_Some k idx f k' :
  upd_approval k idx f = Some k' ↔
  is_Some (approvals k !! idx) ∧ k' = set_approvals k (alter f idx (approvals k)).
Proof.
  unfold upd_approval. destruct (approvals k !! idx) eqn:E; simpl; naive_solver.
Qed.

(** Inverts, from the outside in, the binds of a successful computation in [H]
    and the indexed updates they bind. *)
Ltac inv_bind H :=
  lazymatch type of H with
  | mbind _ ?c = Some _ =>
      let x := fresh "x" in let E := fresh "E" in
      destruct c as [x|] eqn:E; cbn [mbind option_bind] in H; [|discriminate H];
      try (first [ apply upd_task_Some in E | apply upd_job_Some in E
                 | apply upd_approval_Some in E ];
           let E' := fresh "E" in destruct E as [E' ->])
  end.
Ltac inv_binds H := repeat (progress (inv_bind H)).

Lemma task_index_Some k tid idx :
  task_index k tid = Some idx → ∃ t, tasks k !! idx = Some t ∧ t_id t = tid.
Proof.
  intros (t & Ht & Hid & _)%position_Some. apply bool_decide_eq_true in Hid. eauto.
Qed.

Lemma job_index_Some k jid idx :
  job_index k jid = Some idx → ∃ j, jobs k !! idx = Some j ∧ j_id j = jid.
Proof.
  intros (j & Hj & Hid & _)%position_Some. apply bool_decide_eq_true in Hid. eauto.
Qed.

Lemma approval_index_Some k aid idx :
  approval_index k aid = Some idx → ∃ a, approvals k !! idx = Some a ∧ a_id a = aid.
Proof.
  intros (a & Ha & Hid & _)%position_Some. apply bool_decide_eq_true in Hid. eauto.
Qed.

Lemma job_index_None k jid : job_index k jid = None → jid ∉ j_id <$> jobs k.
Proof.
  intros H Hin. apply list_elem_of_fmap in Hin as (j & -> & Hj).
  unfold job_index in H. rewrite position_None in H.
  apply H in Hj. by apply bool_decide_eq_false in Hj.
Qed.

Lemma task_index_None k tid : task_index k tid = None → tid ∉ t_id <$> tasks k.
Proof.
  intros H Hin. apply list_elem_of_fmap in Hin as (j & -> & Hj).
  unfold task_index in H. rewrite position_None in H.
  apply H in Hj. by apply bool_decide_eq_false in Hj.
Qed.

(** ** The invariant *)

(** Only a [Blocked] task carries a block reason, only an [AwaitingApproval]
    task carries a pending approval, the budget of every task is finite on
    every axis, and no task is archived by an event. *)
Definition task_ok (t : TaskEntry) : Prop :=
  (t_status t = TBlocked ↔ is_Some (t_block_reason t)) ∧
  (t_status t = TAwaitingApproval ↔ is_Some (t_awaiting t)) ∧
  is_fully_bounded (t_budget t) = true ∧
  t_status t ≠ TArchived.

(** The job statuses the kernel can produce. *)
Definition job_ok (j : JobEntry) : Prop :=
  j_status j ≠ JHeartbeatMissing ∧ j_status j ≠ JRetrying.

(** The identifier of the [i]-th approval minted. *)
Definition approval_id_at (i : nat) : ApprovalId := Z.min u128_MAX (1 + Z.of_nat i).

Record kernel_inv (k : Kernel) : Prop := {
  inv_tasks_nodup : NoDup (t_id <$> tasks k);
  inv_jobs_nodup : NoDup (j_id <$> jobs k);
  inv_task_ok : Forall task_ok (tasks k);
  inv_job_ok : Forall job_ok (jobs k);
  inv_job_task : ∀ j, j ∈ jobs k → j_task j ∈ t_id <$> tasks k;
  inv_next_approval : next_approval k = approval_id_at (length (approvals k));
  inv_approval_ids : ∀ i a, approvals k !! i = Some a → a_id a = approval_id_at i;
  inv_approval_op : ∀ a, a ∈ approvals k → is_Some (op_tool_call_id (a_op a));
  inv_awaiting : Z.of_nat (length (approvals k)) < u128_MAX →
    ∀ t aid, t ∈ tasks k → t_awaiting t = Some aid →
      ∃ i a, approvals k !! i = Some a ∧ a_id a = aid ∧ a_status a = APending ∧
             a_task a = t_id t }.

Lemma kernel_inv_new p : kernel_inv (Kernel_new p).
Proof. constructor; simpl; try (by constructor); try done; intros; set_solver. Qed.

(** Below the saturation point approval ids are the positions plus one. *)
Lemma approval_id_inj n i j :
  Z.of_nat n < u128_MAX → (i < n)%nat → (j < n)%nat →
  approval_id_at i = approval_id_at j → i = j.
Proof. unfold approval_id_at, u128_MAX. lia. Qed.

(** ** Preservation by the single updates *)

Lemma fmap_alter_id {A B} (g : A → B) (f : A → A) (l : list A) i :
  (∀ x, l !! i = Some x → g (f x) = g x) → g <$> alter f i l = g <$> l.
Proof.
  intros H. apply list_eq. intros n. rewrite !list_lookup_fmap.
  destruct (decide (n = i)) as [->|Hne].
  - rewrite list_lookup_alter_eq. destruct (l !! i) eqn:E; simpl; [|done]. by rewrite H.
  - by rewrite list_lookup_alter_ne.
Qed.

Lemma elem_of_alter {A} (f : A → A) (l : list A) i x y :
  l !! i = Some x → y ∈ alter f i l →
  y = f x ∨ ∃ j, j ≠ i ∧ l !! j = Some y.
Proof.
  intros Hx (n & Hn)%list_elem_of_lookup. destruct (decide (n = i)) as [->|Hne].
  - rewrite list_lookup_alter_eq, Hx in Hn. simpl in Hn. left. by crush_hyps.
  - rewrite list_lookup_alter_ne in Hn by done. eauto.
Qed.

Lemma Forall_alter_one {A} (P : A → Prop) (f : A → A) (l : list A) i :
  Forall P l → (∀ x, l !! i = Some x → P x → P (f x)) → Forall P (alter f i l).
Proof.
  intros HP Hf. apply Forall_forall. intros y (n & Hn)%list_elem_of_lookup.
  rewrite Forall_lookup in HP. destruct (decide (n = i)) as [->|Hne].
  - rewrite list_lookup_alter_eq in Hn. destruct (l !! i) as [x|] eqn:E; [|done].
    simpl in Hn. crush_hyps. eauto.
  - rewrite list_lookup_alter_ne in Hn by done. eauto.
Qed.

(** A task update that keeps the id, stays well-formed and adds no pending
    approval. *)
Lemma inv_upd_task k idx t f :
  kernel_inv k → tasks k !! idx = Some t →
  t_id (f t) = t_id t → task_ok (f t) →
  (∀ aid, t_awaiting (f t) = Some aid → t_awaiting t = Some aid) →
  kernel_inv (set_tasks k (alter f idx (tasks k))).
Proof.
  intros Hk Ht Hid Hok Haw. destruct Hk as [H1 H2 H3 H4 H5 H6 H7 H8 H9].
  assert (t_id <$> alter f idx (tasks k) = t_id <$> tasks k) as Hids.
  { apply fmap_alter_id. intros x Hx. rewrite Ht in Hx. by crush_hyps. }
  constructor; simpl; try rewrite Hids; try done.
  - apply Forall_alter_one; [done|]. intros x Hx _. rewrite Ht in Hx. by crush_hyps.
  - intros Hlt u aid Hu Hua. destruct (elem_of_alter _ _ _ _ _ Ht Hu) as [->|(j & _ & Hj)].
    + rewrite Hid. apply H9; [done| |by apply Haw]. by eapply list_elem_of_lookup_2.
    + apply H9; [done| |done]. by eapply list_elem_of_lookup_2.
Qed.

Lemma inv_set_jobs k js :
  kernel_inv k → NoDup (j_id <$> js) → Forall job_ok js →
  (∀ j, j ∈ js → j_task j ∈ t_id <$> tasks k) → kernel_inv (set_jobs k js).
Proof. intros [] ???. constructor; done. Qed.

Lemma inv_upd_job k idx j f :
  kernel_inv k → jobs k !! idx = Some j →
  j_id (f j) = j_id j → j_task (f j) = j_task j → job_ok (f j) →
  kernel_inv (set_jobs k (alter f idx (jobs k))).
Proof.
  intros Hk Hj Hid Htask Hok. pose proof Hk as [H1 H2 H3 H4 H5 H6 H7 H8 H9].
  apply inv_set_jobs; [done| | |].
  - rewrite fmap_alter_id; [done|]. intros x Hx. rewrite Hj in Hx. by crush_hyps.
  - apply Forall_alter_one; [done|]. intros x Hx _. rewrite Hj in Hx. by crush_hyps.
  - intros y Hy. destruct (elem_of_alter _ _ _ _ _ Hj Hy) as [->|(n & _ & Hn)].
    + rewrite Htask. apply H5. by eapply list_elem_of_lookup_2.
    + apply H5. by eapply list_elem_of_lookup_2.
Qed.

Lemma inv_set_ready k r : kernel_inv k → kernel_inv (set_ready k r).
Proof. intros []. by constructor. Qed.

Lemma inv_set_seqs k n a : kernel_inv k → kernel_inv (set_seqs k n a).
Proof. intros []. by constructor. Qed.

(** Closing the pending approval of a task: the entry gets a final status and
    the task stops waiting, whatever else changes in the task. *)
Lemma inv_close_approval k idx t aid aidx s f :
  kernel_inv k → tasks k !! idx = Some t → t_awaiting t = Some aid →
  approval_index k aid = Some aidx →
  t_id (f t) = t_id t → task_ok (f t) → t_awaiting (f t) = None →
  kernel_inv (set_tasks (set_approvals k (alter (a_set_status s) aidx (approvals k)))
                (alter f idx (tasks k))).
Proof.
  intros Hk Ht Haw Hidx Hid Hok Hnone. pose proof Hk as [H1 H2 H3 H4 H5 H6 H7 H8 H9].
  apply approval_index_Some in Hidx as (a & Ha & Haid).
  assert (kernel_inv (set_tasks k (alter f idx (tasks k)))) as [G1 G2 G3 G4 G5 _ _ _ _]
    by (apply (inv_upd_task k idx t f); congruence).
  simpl in G1, G2, G3, G4, G5.
  constructor; simpl; try done.
  - by rewrite length_alter.
  - intros i a' Hi. destruct (decide (i = aidx)) as [->|Hne].
    + rewrite list_lookup_alter_eq, Ha in Hi. simpl in Hi. crush_hyps. exact (H7 _ _ Ha).
    + rewrite list_lookup_alter_ne in Hi by done. by apply H7.
  - intros a' Ha'. destruct (elem_of_alter _ _ _ _ _ Ha Ha') as [->|(n & _ & Hn)].
    + apply (H8 a). by eapply list_elem_of_lookup_2.
    + apply H8. by eapply list_elem_of_lookup_2.
  - rewrite length_alter. intros Hlt u aid' Hu Hua.
    destruct (elem_of_alter _ _ _ _ _ Ht Hu) as [->|(n & Hn & Hnu)]; [congruence|].
    destruct (H9 Hlt u aid') as (i & a' & Hi & Hia & Hst & Htk);
      [by eapply list_elem_of_lookup_2|done|].
    destruct (H9 Hlt t aid) as (i2 & a2 & Hi2 & Hia2 & _ & Htk2);
      [by eapply list_elem_of_lookup_2|done|].
    assert (i2 = aidx) as ->.
    { apply (approval_id_inj (length (approvals k))); [done| | |].
      - by eapply lookup_lt_Some.
      - by eapply lookup_lt_Some.
      - rewrite <-(H7 _ _ Hi2), <-(H7 _ _ Ha). congruence. }
    assert (i ≠ aidx) as Hne.
    { intros ->. apply Hn. apply (NoDup_lookup (t_id <$> tasks k) n idx (t_id u) H1);
        rewrite list_lookup_fmap; [by rewrite Hnu|rewrite Ht; simpl; congruence]. }
    exists i, a'. rewrite list_lookup_alter_ne by done. done.
Qed.

(** ** Case analysis of the helpers

    Each helper, called at a valid index, returns (no panic), and its result is
    one of the cases of an inductive relation. *)

Lemma upd_task_eq k idx f t :
  tasks k !! idx = Some t → upd_task k idx f = Some (set_tasks k (alter f idx (tasks k))).
Proof. intros H. apply upd_task_Some. by rewrite H. Qed.

Lemma set_tasks_alter_twice k f g idx :
  set_tasks (set_tasks k (alter f idx (tasks k)))
    (alter g idx (tasks (set_tasks k (alter f idx (tasks k)))))
  = set_tasks k (alter (g ∘ f) idx (tasks k)).
Proof. unfold set_tasks; simpl. by rewrite list_alter_alter_eq. Qed.

(** The update [set_tasks k (alter f idx (tasks k))], abbreviated. *)
Definition with_task_at (k : Kernel) (idx : nat) (f : TaskEntry → TaskEntry) : Kernel :=
  set_tasks k (alter f idx (tasks k)).

Lemma with_task_at_lookup k idx f t :
  tasks k !! idx = Some t → tasks (with_task_at k idx f) !! idx = Some (f t).
Proof. intros H. simpl. by rewrite list_lookup_alter_eq, H. Qed.

Lemma upd_task_with k idx f t :
  tasks k !! idx = Some t → upd_task k idx f = Some (with_task_at k idx f).
Proof. apply upd_task_eq. Qed.

Lemma with_task_at_compose k idx f g :
  with_task_at (with_task_at k idx f) idx g = with_task_at k idx (g ∘ f).
Proof. apply set_tasks_alter_twice. Qed.

Definition t_await (aid : ApprovalId) (t : TaskEntry) : TaskEntry :=
  t_set_status TAwaitingApproval (t_set_awaiting (Some aid) t).

Definition t_resume (t : TaskEntry) : TaskEntry :=
  t_set_awaiting None (t_set_block_reason None (t_set_status TRunning t)).

(** The kernel after minting an approval for the task [t] at [idx]. *)
Definition minted (k : Kernel) (e : Event) (idx : nat) (t : TaskEntry) (tc : ToolCallId)
    : Kernel :=
  with_task_at
    (set_approvals (set_next_approval k (saturating_add u128_MAX (next_approval k) 1))
       (approvals k ++
        [mkApproval (next_approval k) (t_id t) (ev_job_id e) APending (mkOp (Some tc))
           (saturating_add u64_MAX (ev_timestamp e) APPROVAL_TTL_MS)]))
    idx (t_await (next_approval k)).

(** Closes a goal [∃ k' acts, Some (k0, acts0) = Some (k', acts) ∧ spec k' acts]. *)
Ltac spec_case spec := eexists _, _; split; [reflexivity|]; first [solve [eauto using spec]].

Inductive classify_spec (k : Kernel) (e : Event) (idx : nat) (t : TaskEntry)
    : Kernel → list Action → Prop :=
| CS_run j :
    classify (policy k) (default Irreversible (ev_reversibility e)) = PAllow →
    ev_job_id e = Some j → is_runnable_job k j (t_id t) = true →
    classify_spec k e idx t k [RunTool j]
| CS_skip : classify_spec k e idx t k []
| CS_block r :
    r = PolicyDenied ∨ r = RiskDetected →
    classify_spec k e idx t (with_task_at k idx (t_block r)) []
| CS_mint tc s :
    classify (policy k) (default Irreversible (ev_reversibility e)) = PRequireApproval s →
    t_awaiting t = None → ev_tool_call_id e = Some tc →
    classify_spec k e idx t (minted k e idx t tc) [RequestApproval (next_approval k)].

Lemma classify_request_spec k e idx t :
  tasks k !! idx = Some t →
  ∃ k' acts, classify_request k e idx = Some (k', acts) ∧ classify_spec k e idx t k' acts.
Proof.
  intros Ht. unfold classify_request, set_blocked.
  destruct (classify (policy k) _) as [|r|r] eqn:Hc.
  - destruct (ev_job_id e) as [j|] eqn:Hj; [|spec_case classify_spec].
    rewrite Ht; simpl. destruct (is_runnable_job k j (t_id t)) eqn:Hr;
      spec_case classify_spec.
  - rewrite (upd_task_with _ _ _ _ Ht). simpl. spec_case classify_spec.
  - rewrite Ht; simpl. destruct (t_awaiting t) eqn:Haw; [spec_case classify_spec|].
    destruct (ev_tool_call_id e) as [tc|] eqn:Htc.
    + unfold mint_approval. simpl. rewrite Ht. simpl.
      erewrite upd_task_with by exact Ht. simpl.
      erewrite upd_task_with by (apply with_task_at_lookup; exact Ht). simpl.
      rewrite with_task_at_compose. eexists _, _. split; [done|].
      by eapply CS_mint.
    + rewrite (upd_task_with _ _ _ _ Ht). simpl. spec_case classify_spec.
Qed.

(** The preconditions under which a resolution acts on the approval [a] at
    [aidx] that task [t] waits for. *)
Record resolvable (k : Kernel) (e : Event) (t : TaskEntry) (aid : ApprovalId) (aidx : nat)
    (a : ApprovalEntry) : Prop := {
  rs_user : ev_actor e = AUser;
  rs_id : ev_approval_id e = Some aid;
  rs_awaiting : t_awaiting t = Some aid;
  rs_index : approval_index k aid = Some aidx;
  rs_entry : approvals k !! aidx = Some a;
  rs_pending : a_status a = APending;
  rs_op : op_matches (a_op a) (ev_tool_call_id e) = true }.

(** Closing the approval at [aidx] with status [s] and updating the task. *)
Definition closed (k : Kernel) (aidx idx : nat) (s : ApprovalStatus)
    (f : TaskEntry → TaskEntry) : Kernel :=
  with_task_at (set_approvals k (alter (a_set_status s) aidx (approvals k))) idx f.

Lemma inv_closed k idx t aid aidx s f :
  kernel_inv k → tasks k !! idx = Some t → t_awaiting t = Some aid →
  approval_index k aid = Some aidx →
  t_id (f t) = t_id t → task_ok (f t) → t_awaiting (f t) = None →
  kernel_inv (closed k aidx idx s f).
Proof. exact (inv_close_approval k idx t aid aidx s f). Qed.

Inductive resolve_spec (k : Kernel) (e : Event) (idx : nat) (t : TaskEntry)
    : Kernel → list Action → Prop :=
| RS_inert : resolve_spec k e idx t k []
| RS_expired aid aidx a :
    resolvable k e t aid aidx a → a_expires_at a < ev_timestamp e →
    resolve_spec k e idx t (closed k aidx idx AExpired (t_block ApprovalExpired)) []
| RS_approved aid aidx a :
    resolvable k e t aid aidx a → ev_timestamp e ≤ a_expires_at a →
    ev_resolution e = Some Approve →
    resolve_spec k e idx t (closed k aidx idx AApproved t_resume) []
| RS_released aid aidx a j :
    resolvable k e t aid aidx a → ev_timestamp e ≤ a_expires_at a →
    ev_resolution e = Some Approve → a_job a = Some j →
    is_runnable_job k j (t_id t) = true →
    resolve_spec k e idx t (closed k aidx idx AApproved t_resume) [RunTool j]
| RS_denied aid aidx a :
    resolvable k e t aid aidx a → ev_timestamp e ≤ a_expires_at a →
    ev_resolution e = Some Deny →
    resolve_spec k e idx t (closed k aidx idx ADenied (t_block ApprovalDenied)) [].

Lemma resolve_approval_spec k e idx t :
  tasks k !! idx = Some t →
  ∃ k' acts, resolve_approval k e idx = Some (k', acts) ∧ resolve_spec k e idx t k' acts.
Proof.
  intros Ht. unfold resolve_approval, set_blocked.
  case_bool_decide as Hact; simpl; [|spec_case resolve_spec].
  destruct (ev_approval_id e) as [aid|] eqn:Haid; [|spec_case resolve_spec].
  rewrite Ht; simpl. case_bool_decide as Haw; simpl; [|spec_case resolve_spec].
  destruct (approval_index k aid) as [aidx|] eqn:Hidx; [|spec_case resolve_spec].
  destruct (approval_index_Some _ _ _ Hidx) as (a & Ha & _). rewrite Ha; simpl.
  case_bool_decide as Hpend; simpl; [|spec_case resolve_spec].
  destruct (op_matches _ _) eqn:Hop; simpl; [|spec_case resolve_spec].
  assert (resolvable k e t aid aidx a) as Hres by done.
  unfold upd_approval; rewrite Ha; simpl.
  destruct (Z.ltb_spec (a_expires_at a) (ev_timestamp e)) as [Hexp|Hexp].
  - erewrite upd_task_with by exact Ht. simpl. spec_case resolve_spec.
  - destruct (ev_resolution e) as [[]|] eqn:Hr; [| |spec_case resolve_spec].
    + rewrite list_lookup_alter_eq, Ha. simpl. rewrite Ht. simpl.
      erewrite upd_task_with by exact Ht. simpl.
      erewrite upd_task_with by (apply with_task_at_lookup; exact Ht). simpl.
      rewrite with_task_at_compose.
      erewrite upd_task_with by (apply with_task_at_lookup; exact Ht). simpl.
      rewrite with_task_at_compose.
      destruct (a_job a) as [j|] eqn:Hj; [|spec_case resolve_spec].
      match goal with |- context [if ?b then _ else _] => destruct b eqn:Hrun end;
        spec_case resolve_spec.
    + erewrite upd_task_with by exact Ht. simpl. spec_case resolve_spec.
Qed.

(** What one event may do to one job record. *)
Record job_upd (e : Event) (j j' : JobEntry) : Prop := {
  ju_id : j_id j' = j_id j;
  ju_task : j_task j' = j_task j;
  ju_live : job_is_terminal (j_status j) = false;
  ju_status : j_status j' = j_status j ∨ j_status j' = JExpired ∨
              job_next (j_status j) (ev_kind e) = JMove (j_status j') }.

Definition cascade (e : Event) (tid : TaskId) (j : JobEntry) : JobEntry :=
  if bool_decide (j_task j = tid) && negb (job_is_terminal (j_status j))
  then j_set_status (if bool_decide (ev_kind e = TaskKilled) then JKilled else JFailed) j
  else j.

Inductive jobs_spec (k : Kernel) (e : Event) : list JobEntry → Prop :=
| JS_same : jobs_spec k e (jobs k)
| JS_new jid tid :
    ev_kind e = JobQueued → ev_task_id e = Some tid → job_index k jid = None →
    jobs_spec k e (jobs k ++ [JobEntry_new jid tid (ev_seq e)])
| JS_cascade tid :
    ev_kind e = TaskKilled ∨ ev_kind e = TaskFailed → ev_task_id e = Some tid →
    jobs_spec k e (cascade e tid <$> jobs k)
| JS_one jidx j f :
    jobs k !! jidx = Some j → ev_job_id e = Some (j_id j) → job_upd e j (f j) →
    jobs_spec k e (alter f jidx (jobs k)).

(** [jobs_spec] looks only at the job arena. *)
Lemma jobs_spec_frame k1 k2 e js : jobs k1 = jobs k2 → jobs_spec k1 e js → jobs_spec k2 e js.
Proof.
  intros Heq H. inversion H as [|jid tid ?? Hn| |]; subst; rewrite Heq in *;
    eauto using jobs_spec.
  apply JS_new; [done..|]. unfold job_index in *. by rewrite <-Heq.
Qed.

(** The ready queue grows only by the job of a [JobLeased] event. *)
Definition ready_spec (k : Kernel) (e : Event) (r : list JobId) : Prop :=
  r = ready k ∨ ev_kind e = JobLeased ∧ ∃ jid, ev_job_id e = Some jid ∧ r = ready k ++ [jid].

Definition with_jobs (k : Kernel) (js : list JobEntry) (r : list JobId) : Kernel :=
  set_ready (set_jobs k js) r.

Lemma with_jobs_same k : with_jobs k (jobs k) (ready k) = k.
Proof. by destruct k. Qed.

Lemma set_ready_with_jobs k js r r' : set_ready (with_jobs k js r) r' = with_jobs k js r'.
Proof. done. Qed.

Lemma set_jobs_with k js : set_jobs k js = with_jobs k js (ready k).
Proof. by destruct k. Qed.

Lemma upd_job_with k jidx f j :
  jobs k !! jidx = Some j →
  upd_job k jidx f = Some (with_jobs k (alter f jidx (jobs k)) (ready k)).
Proof. intros H. unfold upd_job. rewrite H. by destruct k. Qed.

Lemma upd_job_with_jobs k js r jidx f g j :
  jobs k !! jidx = Some j → js = alter g jidx (jobs k) →
  upd_job (with_jobs k js r) jidx f = Some (with_jobs k (alter (f ∘ g) jidx (jobs k)) r).
Proof.
  intros H ->. erewrite upd_job_with by (simpl; rewrite list_lookup_alter_eq, H; done).
  simpl. by rewrite list_alter_alter_eq.
Qed.

Lemma alter_id_self {A} (l : list A) i : alter id i l = l.
Proof. by apply list_alter_id. Qed.

Lemma apply_job_entry_spec k e jid jidx j :
  jobs k !! jidx = Some j → j_id j = jid → ev_job_id e = Some jid →
  job_is_terminal (j_status j) = false →
  ∃ js r, apply_job_entry k e jid jidx = Some (with_jobs k js r) ∧
          jobs_spec k e js ∧ ready_spec k e r.
Proof.
  intros Hj Hid Hev Hlive. unfold apply_job_entry. rewrite Hj. simpl.
  match goal with |- context [if ?b then Some k else _] => destruct b end.
  { exists (jobs k), (ready k). rewrite with_jobs_same.
    split; [done|]. split; [constructor|by left]. }
  match goal with |- context [if ?b then _ else _] => destruct b end.
  { erewrite upd_job_with by exact Hj. eexists _, _. split; [done|]. split; [|by left].
    apply JS_one with j; [done|congruence|]. split; simpl; auto. }
  (* the status transition, as an [alter] *)
  assert (∃ g, match job_next (j_status j) (ev_kind e) with
               | JMove to => upd_job k jidx (j_set_status to) | JStay => Some k end
               = Some (with_jobs k (alter g jidx (jobs k)) (ready k)) ∧ job_upd e j (g j) ∧
               j_lease (g j) = j_lease j) as (g & -> & Hg & Hlease).
  { destruct (job_next (j_status j) (ev_kind e)) as [|to] eqn:Hn.
    - exists id. rewrite alter_id_self, with_jobs_same. split; [done|]. split; [|done].
      split; simpl; auto.
    - exists (j_set_status to). erewrite upd_job_with by exact Hj. split; [done|].
      split; [|done]. split; simpl; auto. }
  cbn [mbind option_bind jobs with_jobs set_ready set_jobs].
  rewrite list_lookup_alter_eq, Hj. simpl.
  assert (∀ j', j_id j' = j_id (g j) → j_task j' = j_task (g j) →
                j_status j' = j_status (g j) → job_upd e j j') as Hkeep.
  { intros j' H1 H2 H3. destruct Hg as [G1 G2 G3 G4].
    split; [congruence..|by rewrite H3]. }
  case_bool_decide as Hk.
  - erewrite upd_job_with_jobs by (exact Hj || done). simpl.
    rewrite set_ready_with_jobs, (upd_job_with_jobs k _ (ready k ++ [jid]) jidx _ _ j Hj eq_refl).
    eexists _, _. split; [done|]. split; [|right; eauto].
    apply (JS_one k e jidx j); [done|congruence|]. by apply Hkeep.
  - match goal with |- context [if ?b then _ else _] => destruct b end.
    + erewrite upd_job_with_jobs by (exact Hj || done). simpl.
      rewrite (upd_job_with_jobs k _ (ready k) jidx _ _ j Hj eq_refl).
      eexists _, _. split; [done|]. split; [|by left].
      apply (JS_one k e jidx j); [done|congruence|]. by apply Hkeep.
    + simpl. rewrite (upd_job_with_jobs k _ (ready k) jidx _ _ j Hj eq_refl).
      eexists _, _. split; [done|]. split; [|by left].
      apply (JS_one k e jidx j); [done|congruence|]. by apply Hkeep.
Qed.

Lemma apply_job_spec k e :
  ∃ js r, apply_job k e = Some (with_jobs k js r) ∧ jobs_spec k e js ∧ ready_spec k e r.
Proof.
  assert (∃ js r, Some k = Some (with_jobs k js r) ∧ jobs_spec k e js ∧ ready_spec k e r)
    as Hnop.
  { exists (jobs k), (ready k). rewrite with_jobs_same.
    split; [done|]. split; [constructor|by left]. }
  unfold apply_job. case_bool_decide as Hq.
  { destruct (ev_job_id e) as [jid|] eqn:Hjid; [|done].
    destruct (ev_task_id e) as [tid|] eqn:Htid; [|done].
    destruct (job_index k jid) as [jidx|] eqn:Hidx.
    - destruct (job_index_Some _ _ _ Hidx) as (j & Hj & Hid). rewrite Hj; simpl.
      case_bool_decide as Hret; [|done]. erewrite upd_job_with by exact Hj.
      eexists _, _. split; [done|]. split; [|by left].
      apply JS_one with j; [done|congruence|]. split; simpl; [done..| |];
        rewrite Hret; [done|]. right; right. by rewrite Hq.
    - rewrite set_jobs_with. eexists _, (ready k). split; [done|]. split; [|by left].
      by apply JS_new. }
  destruct (bool_decide (ev_kind e = TaskKilled) || _) eqn:Hkf.
  { destruct (ev_task_id e) as [tid|] eqn:Htid; [|done].
    rewrite set_jobs_with. eexists _, (ready k). split; [done|]. split; [|by left].
    apply (JS_cascade k e tid); [|done].
    apply orb_true_iff in Hkf as [?%bool_decide_eq_true|?%bool_decide_eq_true]; auto. }
  destruct (ev_job_id e) as [jid|] eqn:Hjid; [|done].
  destruct (job_index k jid) as [jidx|] eqn:Hidx; [|done].
  destruct (job_index_Some _ _ _ Hidx) as (j & Hj & Hid). rewrite Hj; simpl.
  destruct (job_is_terminal (j_status j)) eqn:Hterm; [done|].
  by eapply apply_job_entry_spec.
Qed.

(** The model request a drained job leads to. *)
Definition drained (k : Kernel) (acts : list Action) : Prop :=
  acts = [] ∨
  ∃ jid j, acts = [RequestModel jid] ∧ job k jid = Some j ∧
    (j_status j = JLeased ∨ j_status j = JRunning) ∧
    task_status k (j_task j) = Some TRunning.

Lemma drain_ready_spec k :
  ∃ r acts, drain_ready k = Some (set_ready k r, acts) ∧ drained k acts.
Proof.
  unfold drain_ready, READY_DRAIN_MAX. simpl.
  destruct (ready k) as [|jid rest] eqn:Hr.
  { exists [], []. rewrite <-Hr. split; [by destruct k|by left]. }
  unfold drain_one.
  replace (job_index (set_ready k rest) jid) with (job_index k jid) by done.
  destruct (job_index k jid) as [jidx|] eqn:Hidx; simpl.
  - destruct (job_index_Some _ _ _ Hidx) as (j & Hj & Hid). rewrite Hj; simpl.
    eexists _, _. split; [done|]. rewrite app_nil_r.
    replace (task_status (set_ready k rest) (j_task j)) with (task_status k (j_task j))
      by done.
    case_bool_decide as Hrun; simpl; [|by left].
    destruct (j_status j) eqn:Hs; simpl; try (by left); right; exists jid, j;
      (split; [done|]; split; [|by auto]);
      unfold job; rewrite find_position; unfold job_index in Hidx; rewrite Hidx; done.
  - eexists _, _. split; [done|by left].
Qed.

Inductive dispatch_spec (k : Kernel) (e : Event) (idx : nat) (t : TaskEntry)
    : Kernel → list Action → Prop :=
| DS_resolve k' acts :
    ev_kind e = ApprovalResolved → resolve_spec k e idx t k' acts →
    dispatch_spec k e idx t k' acts
| DS_classify k' acts :
    ev_kind e = ToolCallRequested ∧ t_status t = TRunning ∨
    ev_kind e = GitHubOperationRequested ∧
      (t_status t = TRunning ∨ t_status t = TIntegrating) →
    classify_spec k e idx t k' acts → dispatch_spec k e idx t k' acts
| DS_stay : dispatch_spec k e idx t k []
| DS_move to :
    task_next (t_status t) (ev_kind e) = TMove to → to ≠ TBlocked →
    dispatch_spec k e idx t (with_task_at k idx (t_unblock to)) []
| DS_risk :
    task_next (t_status t) (ev_kind e) = TMove TBlocked →
    dispatch_spec k e idx t (with_task_at k idx (t_block RiskDetected)) [].

Lemma dispatch_ok k e idx t :
  tasks k !! idx = Some t →
  ∃ k' acts, dispatch k e idx = Some (k', acts) ∧ dispatch_spec k e idx t k' acts.
Proof.
  intros Ht. unfold dispatch. rewrite Ht. simpl.
  assert (∃ k' acts,
    match task_next (t_status t) (ev_kind e) with
    | TMove to => k ← set_task_status k idx to; Some (k, [])
    | TStay => Some (k, [])
    end = Some (k', acts) ∧ dispatch_spec k e idx t k' acts) as Hother.
  { destruct (task_next (t_status t) (ev_kind e)) as [|to] eqn:Hn;
      [spec_case dispatch_spec|].
    unfold set_task_status, set_blocked. case_bool_decide as Hb; subst;
      erewrite upd_task_with by exact Ht; simpl; spec_case dispatch_spec. }
  destruct (ev_kind e) eqn:Hk; try exact Hother.
  - case_bool_decide; [|spec_case dispatch_spec].
    destruct (classify_request_spec k e idx t Ht) as (k' & acts & -> & ?).
    spec_case dispatch_spec.
  - destruct (resolve_approval_spec k e idx t Ht) as (k' & acts & -> & ?).
    spec_case dispatch_spec.
  - destruct (t_status t) eqn:Hs; try (spec_case dispatch_spec);
      destruct (classify_request_spec k e idx t Ht) as (k' & acts & -> & ?);
      spec_case dispatch_spec.
Qed.

(** The task the event is charged to, after the budget fold. *)
Definition charged (e : Event) (t : TaskEntry) : TaskEntry :=
  match ev_budget_delta e with
  | Some d => t_set_budget (record (t_budget t) d).1 t
  | None => t
  end.
Definition charge_check (e : Event) (t : TaskEntry) : option BudgetAxis :=
  d ← ev_budget_delta e; exhausted_axis (record (t_budget t) d).2.

Inductive process_live_spec (k : Kernel) (e : Event) (tid : TaskId) (idx : nat)
    (t : TaskEntry) : Kernel → list Action → Prop :=
| PL_expired aid aidx a :
    t_status t = TAwaitingApproval → t_awaiting t = Some aid →
    approval_index k aid = Some aidx → approvals k !! aidx = Some a →
    a_expires_at a < ev_timestamp e →
    process_live_spec k e tid idx t
      (closed k aidx idx AExpired (t_set_last_event (ev_seq e) ∘ t_block ApprovalExpired)) []
| PL_exhausted axis :
    charge_check e t = Some axis →
    process_live_spec k e tid idx t
      (with_task_at k idx
         (t_set_last_event (ev_seq e) ∘ t_block (BudgetExhausted axis) ∘ charged e)) []
| PL_normal js r k' acts t' r' acts' :
    charge_check e t = None →
    jobs_spec k e js → ready_spec k e r →
    dispatch_spec (with_jobs (with_task_at k idx (charged e)) js r) e idx (charged e t)
      k' acts →
    tasks k' !! idx = Some t' →
    drained (with_task_at k' idx (t_set_last_event (ev_seq e))) acts' →
    process_live_spec k e tid idx t
      (set_ready (with_task_at k' idx (t_set_last_event (ev_seq e))) r')
      (acts ++ (if task_is_terminal (t_status t') then [TaskFinished tid] else []) ++ acts').

Lemma charge_budget_spec k e idx t :
  tasks k !! idx = Some t →
  charge_budget k e idx = Some (with_task_at k idx (charged e), charge_check e t).
Proof.
  intros Ht. unfold charge_budget, charge_check, with_task_at.
  assert (alter (charged e) idx (tasks k) =
          match ev_budget_delta e with
          | Some d => alter (t_set_budget (record (t_budget t) d).1) idx (tasks k)
          | None => tasks k end) as ->.
  { unfold charged. destruct (ev_budget_delta e); [|by apply list_alter_id].
    apply list_alter_ext; [|done]. intros x Hx. rewrite Ht in Hx. by crush_hyps. }
  destruct (ev_budget_delta e) as [d|]; simpl; [|by destruct k].
  rewrite Ht; simpl. destruct (record (t_budget t) d) as [b c]. simpl.
  by erewrite upd_task_with by exact Ht.
Qed.

Lemma dispatch_spec_task k e idx t k' acts :
  tasks k !! idx = Some t → dispatch_spec k e idx t k' acts →
  ∃ f, tasks k' = alter f idx (tasks k).
Proof.
  intros Ht [k'' acts' _ H|k'' acts' _ H| | |]; try (inversion H; subst);
    solve [eexists; reflexivity | exists id; by rewrite alter_id_self].
Qed.

Lemma process_live_ok k e tid idx t :
  tasks k !! idx = Some t →
  ∃ k' acts, process_live k e tid idx = Some (k', acts) ∧
             process_live_spec k e tid idx t k' acts.
Proof.
  intros Ht. unfold process_live, expired_approval, set_blocked. rewrite Ht. simpl.
  match goal with |- context [mbind _ ?c] => destruct c as [[aidx|]|] eqn:Hexp end; simpl.
  - case_bool_decide as Hs; [|done]. destruct (t_awaiting t) as [aid|] eqn:Haw; [|done].
    destruct (approval_index k aid) as [aidx'|] eqn:Hidx; [|done].
    destruct (approvals k !! aidx') as [a|] eqn:Ha; simpl in Hexp; [|done].
    destruct (Z.ltb_spec (a_expires_at a) (ev_timestamp e)); crush_hyps.
    unfold upd_approval. rewrite Ha. simpl.
    erewrite upd_task_with by exact Ht. simpl.
    erewrite upd_task_with by (apply with_task_at_lookup; exact Ht). simpl.
    rewrite with_task_at_compose. eexists _, _. split; [done|]. by eapply PL_expired.
  - rewrite (charge_budget_spec _ _ _ _ Ht). simpl.
    pose proof (with_task_at_lookup k idx (charged e) t Ht) as Ht1.
    destruct (charge_check e t) as [axis|] eqn:Hchk; simpl.
    + erewrite upd_task_with by exact Ht1. simpl. rewrite with_task_at_compose.
      erewrite upd_task_with by (apply with_task_at_lookup; exact Ht). simpl.
      rewrite with_task_at_compose. eexists _, _. split; [done|]. by eapply PL_exhausted.
    + destruct (apply_job_spec (with_task_at k idx (charged e)) e)
        as (js & r & -> & Hjs & Hr). simpl.
      destruct (dispatch_ok (with_jobs (with_task_at k idx (charged e)) js r) e idx
                  (charged e t)) as (k' & acts & -> & Hd); [exact Ht1|]. simpl.
      destruct (dispatch_spec_task (with_jobs (with_task_at k idx (charged e)) js r) e idx
                  (charged e t) k' acts Ht1 Hd) as [f Hf].
      assert (tasks k' !! idx = Some (f (charged e t))) as Ht'.
      { rewrite Hf, list_lookup_alter_eq.
        change (tasks (with_jobs ?k _ _)) with (tasks k). by rewrite Ht1. }
      rewrite Ht'. simpl. erewrite upd_task_with by exact Ht'. simpl.
      destruct (drain_ready_spec (with_task_at k' idx (t_set_last_event (ev_seq e))))
        as (r' & acts' & -> & Hdr). simpl.
      eexists _, _. split; [done|]. eapply PL_normal; [done| | |exact Hd|exact Ht'|done].
      * by eapply jobs_spec_frame; [|exact Hjs].
      * done.
  - exfalso. case_bool_decide; [|done]. destruct (t_awaiting t) as [aid|]; [|done].
    destruct (approval_index k aid) as [aidx|] eqn:Hidx; [|done].
    apply approval_index_Some in Hidx as (a & Ha & _). by rewrite Ha in Hexp.
Qed.

Inductive process_spec (k : Kernel) (e : Event) : Kernel → list Action → Prop :=
| PS_skip : process_spec k e k []
| PS_create tid b :
    ev_kind e = TaskCreated → ev_task_id e = Some tid → task_index k tid = None →
    ev_budget e = Some b → is_fully_bounded b = true →
    process_spec k e (set_tasks k (tasks k ++ [TaskEntry_new tid b (ev_seq e)])) []
| PS_terminal tid idx t :
    ev_task_id e = Some tid → task_index k tid = Some idx → tasks k !! idx = Some t →
    task_is_terminal (t_status t) = true →
    process_spec k e (with_task_at k idx (t_set_last_event (ev_seq e))) []
| PS_live tid idx t k' acts :
    ev_kind e ≠ TaskCreated →
    ev_task_id e = Some tid → task_index k tid = Some idx → tasks k !! idx = Some t →
    t_id t = tid → task_is_terminal (t_status t) = false →
    process_live_spec k e tid idx t k' acts → process_spec k e k' acts.

Lemma process_ok k e :
  ∃ k' acts, process k e = Some (k', acts) ∧ process_spec k e k' acts.
Proof.
  unfold process. case_bool_decide as Hk.
  { destruct (ev_task_id e) as [tid|] eqn:Htid; [|spec_case process_spec].
    destruct (task_index k tid) as [idx|] eqn:Hidx; [spec_case process_spec|].
    destruct (ev_budget e) as [b|] eqn:Hb; [|spec_case process_spec].
    destruct (is_fully_bounded b) eqn:Hfb; spec_case process_spec. }
  destruct (ev_task_id e) as [tid|] eqn:Htid; [|spec_case process_spec].
  destruct (task_index k tid) as [idx|] eqn:Hidx; [|spec_case process_spec].
  destruct (task_index_Some _ _ _ Hidx) as (t & Ht & Hid). rewrite Ht. simpl.
  destruct (task_is_terminal (t_status t)) eqn:Hterm.
  - erewrite upd_task_with by exact Ht. simpl. spec_case process_spec.
  - destruct (process_live_ok k e tid idx t Ht) as (k' & acts & -> & H).
    spec_case process_spec.
Qed.

(** The new value of the idempotency frontier. *)
Definition frontier (k : Kernel) (e : Event) : EventSeq :=
  if negb (bool_decide (ev_seq e = EventSeq_FIRST)) && (applied_through k <? ev_seq e)
  then ev_seq e else applied_through k.

Definition is_replay (k : Kernel) (e : Event) : bool :=
  negb (bool_decide (ev_seq e = EventSeq_FIRST)) && (ev_seq e <=? applied_through k).

Inductive step_spec (k : Kernel) (e : Event) : Kernel → list Action → Prop :=
| SS_replay : is_replay k e = true → step_spec k e k []
| SS_step k' acts :
    is_replay k e = false → process_spec k e k' acts →
    step_spec k e (set_seqs k' (next_saturating (next_seq k)) (frontier k e))
      (AppendEvent (ev_task_id e) :: acts).

(** The parts of the kernel no event processing touches. *)
Lemma process_live_spec_frame k e tid idx t k' acts :
  tasks k !! idx = Some t → process_live_spec k e tid idx t k' acts →
  next_seq k' = next_seq k ∧ applied_through k' = applied_through k ∧ policy k' = policy k.
Proof.
  intros Ht [| |js r k1 acts1 t1 r1 acts2 _ _ _ Hd _ _]; try done. simpl.
  destruct Hd as [? ? _ H|? ? _ H| | |]; try destruct H; done.
Qed.

Lemma process_spec_frame k e k' acts :
  process_spec k e k' acts →
  next_seq k' = next_seq k ∧ applied_through k' = applied_through k ∧ policy k' = policy k.
Proof. destruct 1; try done. by eapply process_live_spec_frame. Qed.

Lemma step_ok k e : ∃ k' acts, step k e = Some (k', acts) ∧ step_spec k e k' acts.
Proof.
  unfold step. fold (is_replay k e). destruct (is_replay k e) eqn:Hr;
    [spec_case step_spec|].
  destruct (process_ok k e) as (k' & acts & -> & H). simpl.
  destruct (process_spec_frame _ _ _ _ H) as (Hn & Ha & _).
  rewrite Hn, Ha. fold (frontier k e). spec_case step_spec.
Qed.

(** Every successful step is a step of the relation. *)
Lemma step_inv k e k' acts : step k e = Some (k', acts) → step_spec k e k' acts.
Proof.
  intros H. destruct (step_ok k e) as (k2 & acts2 & H2 & Hs). rewrite H in H2.
  by simplify_eq.
Qed.

(** ** Preservation *)

Lemma task_ok_block r t : task_ok t → task_ok (t_block r t).
Proof. intros (_ & _ & Hb & _). split; [by split|]. split; [|done]. split; [done|by intros []]. Qed.

Lemma task_ok_unblock s t :
  task_ok t → s ≠ TBlocked → s ≠ TAwaitingApproval → s ≠ TArchived → task_ok (t_unblock s t).
Proof.
  intros (_ & _ & Hb & _) ???. repeat split; simpl; try done; by intros [].
Qed.

Lemma task_ok_await aid t :
  task_ok t → t_status t ≠ TBlocked → task_ok (t_await aid t).
Proof.
  intros (H1 & _ & Hb & _) Hs. repeat split; simpl; try done.
  intros H. by apply H1 in H.
Qed.

Lemma task_ok_last s t : task_ok t → task_ok (t_set_last_event s t).
Proof. done. Qed.

Lemma task_ok_charged e t : task_ok t → task_ok (charged e t).
Proof.
  intros Ht. unfold charged. destruct (ev_budget_delta e) as [d|]; [|done].
  destruct Ht as (H1 & H2 & Hb & H3). repeat split; simpl; try apply H1; try apply H2; try done.
  by apply record_fully_bounded.
Qed.

Lemma task_ok_at k idx t : kernel_inv k → tasks k !! idx = Some t → task_ok t.
Proof. intros Hk Ht. eapply Forall_lookup_1; [apply (inv_task_ok k Hk)|exact Ht]. Qed.

#[export] Hint Resolve task_ok_block task_ok_last task_ok_charged task_ok_at : crust.

Lemma inv_with_task_block k idx t r :
  kernel_inv k → tasks k !! idx = Some t → kernel_inv (with_task_at k idx (t_block r)).
Proof. intros Hk Ht. eapply inv_upd_task; eauto with crust; done. Qed.

Lemma inv_minted k e idx t tc :
  kernel_inv k → tasks k !! idx = Some t → t_status t ≠ TBlocked →
  kernel_inv (minted k e idx t tc).
Proof.
  intros Hk Ht Hs. pose proof Hk as [H1 H2 H3 H4 H5 H6 H7 H8 H9].
  unfold minted, with_task_at. set (k1 := set_approvals _ _).
  assert (t_id <$> alter (t_await (next_approval k)) idx (tasks k) = t_id <$> tasks k) as Hids
    by (by apply fmap_alter_id).
  constructor; simpl; try rewrite Hids; try done.
  - apply Forall_alter_one; [done|]. intros x Hx Hok. rewrite Ht in Hx. crush_hyps.
    by apply task_ok_await.
  - rewrite H6, length_app. unfold approval_id_at, saturating_add, u128_MAX. simpl. lia.
  - intros i a [Hi|[Hlen Hi]]%lookup_app_Some; [by apply H7|].
    destruct (i - length (approvals k))%nat eqn:E; simpl in Hi; [|done]. crush_hyps.
    simpl. rewrite H6. f_equal. lia.
  - intros a [Ha|Ha]%elem_of_app; [by apply H8|].
    apply list_elem_of_singleton in Ha as ->. done.
  - rewrite length_app; simpl. intros Hlt u aid Hu Hua.
    destruct (elem_of_alter _ _ _ _ _ Ht Hu) as [->|(n & _ & Hn)].
    + simpl in Hua. crush_hyps. exists (length (approvals k)). eexists.
      rewrite lookup_app_r, Nat.sub_diag by done. simpl. split; [done|]. done.
    + destruct (H9 ltac:(lia) u aid) as (i & a & Hi & ?);
        [by eapply list_elem_of_lookup_2|done|].
      exists i, a. split; [|done]. rewrite lookup_app_l; [done|]. by eapply lookup_lt_Some.
Qed.

Lemma inv_resolve k e idx t k' acts :
  kernel_inv k → tasks k !! idx = Some t → resolve_spec k e idx t k' acts → kernel_inv k'.
Proof.
  intros Hk Ht Hr. pose proof (task_ok_at _ _ _ Hk Ht) as Hok.
  assert (task_ok (t_resume t)) by (by apply (task_ok_unblock TRunning)).
  destruct Hr as [|aid aidx a []|aid aidx a []|aid aidx a j []|aid aidx a []]; [done|..];
    eapply inv_closed; eauto with crust.
Qed.

Lemma inv_dispatch k e idx t k' acts :
  kernel_inv k → tasks k !! idx = Some t → dispatch_spec k e idx t k' acts → kernel_inv k'.
Proof.
  intros Hk Ht Hd. pose proof (task_ok_at _ _ _ Hk Ht) as Hok.
  destruct Hd as [? ? _ Hr|? ? Hs Hc| |to Hn Hb|Hn]; [by eapply inv_resolve|..].
  - destruct Hc; eauto using inv_with_task_block. apply inv_minted; [done..|].
    destruct Hs as [[_ ->]|[_ [-> | ->]]]; done.
  - done.
  - apply task_next_not_awaiting in Hn as [? ?].
    eapply inv_upd_task; eauto using task_ok_unblock. done.
  - eauto using inv_with_task_block.
Qed.

Lemma job_upd_ok e j j' : job_upd e j j' → job_ok j → job_ok j'.
Proof.
  intros [_ _ _ Hs] [H1 H2]. unfold job_ok.
  destruct Hs as [->|[->|Hn]]; [done..|].
  destruct (j_status j), (ev_kind e); simpl in Hn; try discriminate Hn;
    injection Hn as <-; done.
Qed.

Lemma inv_jobs k e js :
  kernel_inv k → (∀ tid, ev_task_id e = Some tid → tid ∈ t_id <$> tasks k) →
  jobs_spec k e js → kernel_inv (set_jobs k js).
Proof.
  intros Hk Htid Hjs. pose proof Hk as [H1 H2 H3 H4 H5 H6 H7 H8 H9].
  destruct Hjs as [|jid tid Hkind Ht Hidx|tid Hkind Ht|jidx j f Hj Hev Hu].
  - by apply inv_set_jobs.
  - apply inv_set_jobs; [done|..].
    + rewrite fmap_app. apply NoDup_app. split; [done|]. split; [|simpl; apply NoDup_singleton].
      intros x Hx Hin. apply list_elem_of_singleton in Hin as ->. by eapply job_index_None.
    + apply Forall_app. split; [done|]. by repeat constructor.
    + intros j [Hj|Hj]%elem_of_app; [by apply H5|].
      apply list_elem_of_singleton in Hj as ->. by apply Htid.
  - assert (∀ j, j_id (cascade e tid j) = j_id j ∧ j_task (cascade e tid j) = j_task j ∧
                 (job_ok j → job_ok (cascade e tid j))) as Hc.
    { intros j. unfold cascade. destruct (bool_decide (j_task j = tid) && _); [|done].
      split; [done|]. split; [done|]. intros _. split; simpl; by case_bool_decide. }
    apply inv_set_jobs; [done|..].
    + replace (j_id <$> (cascade e tid <$> jobs k)) with (j_id <$> jobs k); [done|].
      rewrite <-list_fmap_compose. apply list_fmap_ext. intros i j _. symmetry. apply Hc.
    + apply Forall_fmap. eapply Forall_impl; [exact H4|]. intros j. apply Hc.
    + intros j' (j & -> & Hj)%list_elem_of_fmap. destruct (Hc j) as (_ & -> & _). auto.
  - destruct (Forall_lookup_1 _ _ _ _ H4 Hj) as [??].
    eapply inv_upd_job; [done|exact Hj|apply Hu|apply Hu|by eapply job_upd_ok].
Qed.

Lemma with_task_at_ids k idx f t :
  tasks k !! idx = Some t → t_id (f t) = t_id t →
  t_id <$> tasks (with_task_at k idx f) = t_id <$> tasks k.
Proof.
  intros Ht Hid. simpl. apply fmap_alter_id. intros x Hx. rewrite Ht in Hx. by crush_hyps.
Qed.

Lemma charged_id e t : t_id (charged e t) = t_id t.
Proof. unfold charged. by destruct (ev_budget_delta e). Qed.
Lemma charged_status e t : t_status (charged e t) = t_status t.
Proof. unfold charged. by destruct (ev_budget_delta e). Qed.
Lemma charged_awaiting e t : t_awaiting (charged e t) = t_awaiting t.
Proof. unfold charged. by destruct (ev_budget_delta e). Qed.

Lemma inv_last k idx t s :
  kernel_inv k → tasks k !! idx = Some t →
  kernel_inv (with_task_at k idx (t_set_last_event s)).
Proof. intros Hk Ht. eapply inv_upd_task; eauto with crust. Qed.

Lemma inv_process_live k e tid idx t k' acts :
  kernel_inv k → ev_task_id e = Some tid → tasks k !! idx = Some t → t_id t = tid →
  process_live_spec k e tid idx t k' acts → kernel_inv k'.
Proof.
  intros Hk Hev Ht Hid Hp. pose proof (task_ok_at _ _ _ Hk Ht) as Hok.
  destruct Hp as [aid aidx a Hs Haw Hidx Ha Hexp|axis Hchk
                 |js r k1 acts1 t1 r1 acts2 Hchk Hjs Hr Hd Ht1 Hdr].
  - eapply inv_closed; eauto with crust.
  - eapply inv_upd_task; [done|exact Ht| | |]; simpl.
    + apply charged_id.
    + auto with crust.
    + done.
  - apply inv_set_ready. eapply inv_last; [|exact Ht1].
    assert (kernel_inv (with_task_at k idx (charged e))) as Hk1.
    { eapply inv_upd_task; [done|exact Ht|apply charged_id|auto with crust|].
      intros aid. by rewrite charged_awaiting. }
    pose proof (with_task_at_lookup k idx (charged e) t Ht) as Hl.
    apply (inv_dispatch (with_jobs (with_task_at k idx (charged e)) js r) e idx (charged e t)
             k1 acts1); [|exact Hl|exact Hd].
    apply inv_set_ready. eapply inv_jobs; [done| |by eapply jobs_spec_frame; [|exact Hjs]].
    intros tid' Htid'. rewrite (with_task_at_ids k idx _ t Ht (charged_id e t)).
    assert (tid' = t_id t) as -> by congruence.
    apply list_elem_of_fmap. exists t. split; [done|]. by eapply list_elem_of_lookup_2.
Qed.

Lemma inv_process k e k' acts : kernel_inv k → process_spec k e k' acts → kernel_inv k'.
Proof.
  intros Hk Hp. destruct Hp as [|tid b Hkind Htid Hidx Hb Hfb|tid idx t Htid Hidx Ht Hterm
                               |tid idx t k' acts Hkind Htid Hidx Ht Hid Hterm Hl].
  - done.
  - destruct Hk as [H1 H2 H3 H4 H5 H6 H7 H8 H9]. constructor; simpl; try done.
    + rewrite fmap_app. apply NoDup_app. split; [done|]. split; [|simpl; apply NoDup_singleton].
      intros x Hx Hin. apply list_elem_of_singleton in Hin as ->. by eapply task_index_None.
    + apply Forall_app. split; [done|]. constructor; [|done].
      repeat split; simpl; try done; by intros [].
    + intros j Hj. rewrite fmap_app. apply elem_of_app. left. auto.
    + intros Hlt u aid [Hu|Hu]%elem_of_app Hua; [by apply (H9 Hlt u)|].
      apply list_elem_of_singleton in Hu as ->. done.
  - by eapply inv_last.
  - by eapply inv_process_live.
Qed.

Lemma inv_step k e k' acts : kernel_inv k → step k e = Some (k', acts) → kernel_inv k'.
Proof.
  intros Hk [|k2 acts2 _ Hp]%step_inv; [done|]. apply inv_set_seqs. by eapply inv_process.
Qed.
