(* ===== verification/KernelProps.v ===== *)
(** * Properties of the kernel

    Totality, the reachable-state invariant, the provenance of every effect,
    absorbing terminal states, idempotent re-delivery, bounded fan-out, budget
    pauses, approval expiry, and the refinement of the kernel to an abstract
    task lifecycle. *)

From S2P Require Import Prelude Types Policy KernelState Kernel KernelInv.

(** ** Reachability, with the history of the run (latest event first) *)

Inductive reach (p : PolicySnapshot) : list Event → Kernel → Prop :=
| reach_new : reach p [] (Kernel_new p)
| reach_step h k e k' acts :
    reach p h k → step k e = Some (k', acts) → reach p (e :: h) k'.

Lemma reach_inv p h k : reach p h k → kernel_inv k.
Proof. induction 1; [apply kernel_inv_new|by eapply inv_step]. Qed.

Lemma step_policy k e k' acts : step k e = Some (k', acts) → policy k' = policy k.
Proof.
  intros [|k2 acts2 _ Hp]%step_inv; [done|]. by apply process_spec_frame in Hp as (_ & _ & ?).
Qed.

Lemma reach_policy p h k : reach p h k → policy k = p.
Proof. induction 1; [done|]. by erewrite step_policy. Qed.

Lemma run_reach p h k es k' actss :
  reach p h k → run k es = Some (k', actss) → reach p (rev es ++ h) k'.
Proof.
  revert h k actss. induction es as [|e es IH]; intros h k actss Hr Hrun; simpl in *.
  - by simplify_eq.
  - destruct (step k e) as [[k1 a1]|] eqn:Hs; simpl in Hrun; [|done].
    destruct (run k1 es) as [[k2 a2]|] eqn:Hrun2; simpl in Hrun; [|done]. simplify_eq.
    rewrite <-app_assoc. simpl. eapply IH; [|done]. by eapply reach_step.
Qed.

Lemma run_total k es : is_Some (run k es).
Proof.
  revert k. induction es as [|e es IH]; intros k; simpl; [done|].
  destruct (step_ok k e) as (k' & acts & -> & _). simpl.
  destruct (IH k') as [[k2 a2] ->]. done.
Qed.

(** ** Shared analysis of one step *)

Lemma dispatch_jobs k e idx t k' acts :
  dispatch_spec k e idx t k' acts → jobs k' = jobs k.
Proof. intros [? ? _ H|? ? _ H| | |]; try destruct H; done. Qed.

(** The authority behind a [RunTool] of the step on [e]: the policy allows the
    requested effect outright, or an authorized user approves, in time, the
    pending approval bound to exactly this tool call. *)
Inductive authority (k : Kernel) (e : Event) (t : TaskEntry) (j : JobId) : Prop :=
| auth_policy :
    ev_kind e = ToolCallRequested ∨ ev_kind e = GitHubOperationRequested →
    t_status t = TRunning ∨ t_status t = TIntegrating →
    ev_job_id e = Some j →
    classify (policy k) (default Irreversible (ev_reversibility e)) = PAllow →
    authority k e t j
| auth_user aid aidx a :
    ev_kind e = ApprovalResolved → resolvable k e t aid aidx a →
    ev_timestamp e ≤ a_expires_at a → ev_resolution e = Some Approve → a_job a = Some j →
    authority k e t j.

Lemma resolvable_frame k1 k2 e t1 t2 aid aidx a :
  approvals k1 = approvals k2 → t_awaiting t1 = t_awaiting t2 →
  resolvable k1 e t1 aid aidx a → resolvable k2 e t2 aid aidx a.
Proof.
  intros Ha Ht [H1 H2 H3 H4 H5 H6 H7]. split; try done.
  - by rewrite <-Ht.
  - unfold approval_index in *. by rewrite <-Ha.
  - by rewrite <-Ha.
Qed.

Lemma dispatch_run_tool k0 k e idx t0 t k' acts j :
  policy k0 = policy k → approvals k0 = approvals k →
  t_awaiting t0 = t_awaiting t → t_status t0 = t_status t → t_id t0 = t_id t →
  dispatch_spec k e idx t k' acts → RunTool j ∈ acts →
  authority k0 e t0 j ∧ is_runnable_job k' j (t_id t0) = true.
Proof.
  intros Hp Ha Haw Hst Hid Hd Hin.
  assert (∀ b, is_runnable_job k j (t_id t) = b → is_runnable_job k' j (t_id t0) = b) as Hrun.
  { intros b <-. unfold is_runnable_job. by rewrite (dispatch_jobs _ _ _ _ _ _ Hd), Hid. }
  destruct Hd as [k' acts Hk Hr|k' acts Hk Hc| | |]; try (by apply elem_of_nil in Hin).
  - destruct Hr as [|aid aidx a Hres|aid aidx a Hres|aid aidx a j' Hres Hle Happ Hj Hrj|];
      try (by apply elem_of_nil in Hin).
    apply list_elem_of_singleton in Hin. injection Hin as <-. split; [|by apply Hrun].
    eapply auth_user; [done| |done..]. by eapply resolvable_frame; [| |exact Hres].
  - destruct Hc as [j' Hc Hj Hrj| | |]; try (by apply elem_of_nil in Hin);
      apply list_elem_of_singleton in Hin; [|done].
    injection Hin as <-. split; [|by apply Hrun].
    apply auth_policy; [|rewrite Hst|done|by rewrite Hp]; naive_solver.
Qed.

Lemma step_run_tool k e k' acts j :
  step k e = Some (k', acts) → RunTool j ∈ acts →
  ∃ tid idx t, ev_task_id e = Some tid ∧ task_index k tid = Some idx ∧
    tasks k !! idx = Some t ∧ t_id t = tid ∧ task_is_terminal (t_status t) = false ∧
    authority k e t j ∧ is_runnable_job k' j tid = true.
Proof.
  intros [|k2 acts2 _ Hp]%step_inv Hin; [by apply elem_of_nil in Hin|].
  apply elem_of_cons in Hin as [|Hin]; [done|].
  destruct Hp as [| | |tid idx t k2 acts2 Hkind Htid Hidx Ht Hid Hterm Hl];
    try (by apply elem_of_nil in Hin).
  exists tid, idx, t. do 5 (split; [done|]). subst tid.
  destruct Hl as [| |js r k1 acts1 t1 r1 acts3 Hchk Hjs Hr Hd Ht1 Hdr];
    try (by apply elem_of_nil in Hin).
  assert (RunTool j ∈ acts1) as Hin1.
  { apply elem_of_app in Hin as [|[Hin|Hin]%elem_of_app]; [done| |].
    - destruct (task_is_terminal (t_status t1)); set_solver.
    - destruct Hdr as [->|(? & ? & -> & _)]; set_solver. }
  eapply (dispatch_run_tool k _ e idx t) in Hd as [Hauth Hrun]; [split; [exact Hauth|] |..];
    try exact Hin1; try done.
  - by rewrite charged_awaiting.
  - by rewrite charged_status.
  - by rewrite charged_id.
Qed.

(** ** Approvals and their requests *)

(** The request event an arena approval was minted from. *)
Record request_of (p : PolicySnapshot) (a : ApprovalEntry) (e : Event) : Prop := {
  rq_kind : ev_kind e = ToolCallRequested ∨ ev_kind e = GitHubOperationRequested;
  rq_task : ev_task_id e = Some (a_task a);
  rq_job : ev_job_id e = a_job a;
  rq_op : ev_tool_call_id e = op_tool_call_id (a_op a);
  rq_bound : is_Some (ev_tool_call_id e);
  rq_deadline : a_expires_at a = saturating_add u64_MAX (ev_timestamp e) APPROVAL_TTL_MS;
  rq_class : ∃ s, classify p (default Irreversible (ev_reversibility e)) = PRequireApproval s }.

(** [e] is an authorized user's in-time approval of exactly the operation [a]
    is bound to. *)
Record human_grant (e : Event) (a : ApprovalEntry) : Prop := {
  hg_kind : ev_kind e = ApprovalResolved;
  hg_user : ev_actor e = AUser;
  hg_approve : ev_resolution e = Some Approve;
  hg_id : ev_approval_id e = Some (a_id a);
  hg_op : op_matches (a_op a) (ev_tool_call_id e) = true;
  hg_time : ev_timestamp e ≤ a_expires_at a }.

(** The approval a task waits for is the pending arena entry of that id. *)
Lemma awaiting_entry k t aid aidx a :
  kernel_inv k → Z.of_nat (length (approvals k)) < u128_MAX →
  t ∈ tasks k → t_awaiting t = Some aid →
  approval_index k aid = Some aidx → approvals k !! aidx = Some a →
  a_status a = APending ∧ a_task a = t_id t.
Proof.
  intros Hk Hlt Ht Haw Hidx Ha.
  destruct (inv_awaiting k Hk Hlt t aid Ht Haw) as (i & a' & Hi & Hid & Hst & Htk).
  destruct (approval_index_Some _ _ _ Hidx) as (a2 & Ha2 & Hid2).
  assert (i = aidx) as ->.
  { apply (approval_id_inj (length (approvals k))); [done|by eapply lookup_lt_Some..|].
    rewrite <-(inv_approval_ids k Hk _ _ Hi), <-(inv_approval_ids k Hk _ _ Ha2). congruence. }
  rewrite Ha in Hi. by simplify_eq.
Qed.

(** How one step changes the approval arena. *)
Inductive approvals_spec (k : Kernel) (e : Event) : list ApprovalEntry → Prop :=
| AS_same : approvals_spec k e (approvals k)
| AS_close aidx a s :
    approvals k !! aidx = Some a → is_resolved s = true →
    (Z.of_nat (length (approvals k)) < u128_MAX → a_status a = APending) →
    (s = AApproved → human_grant e a ∧ a_status a = APending) →
    approvals_spec k e (alter (a_set_status s) aidx (approvals k))
| AS_mint a :
    request_of (policy k) a e → a_status a = APending → a_id a = next_approval k →
    approvals_spec k e (approvals k ++ [a]).

Lemma dispatch_approvals k0 k e idx t k' acts :
  policy k0 = policy k → approvals k0 = approvals k → next_approval k0 = next_approval k →
  ev_task_id e = Some (t_id t) →
  dispatch_spec k e idx t k' acts → approvals_spec k0 e (approvals k').
Proof.
  intros Hp Ha Hn Htid Hd.
  destruct Hd as [k' acts Hk Hr|k' acts Hk Hc| | |]; try (simpl; rewrite <-Ha; constructor).
  - assert (∀ aid aidx a s, resolvable k e t aid aidx a → is_resolved s = true →
      (s = AApproved → ev_resolution e = Some Approve ∧ ev_timestamp e ≤ a_expires_at a) →
      approvals_spec k0 e (alter (a_set_status s) aidx (approvals k))) as Hclose.
    { intros aid aidx a s [H1 H2 H3 H4 H5 H6 H7] Hs Happ. rewrite <-Ha in *.
      eapply AS_close; [done..|]. intros Heq. destruct (Happ Heq) as [??]. split; [|done]. split; try done.
      unfold approval_index in H4. rewrite <-Ha in H4.
      apply position_Some in H4 as (a' & Ha' & Hid & _). rewrite H5 in Ha'. simplify_eq.
      apply bool_decide_eq_true in Hid. congruence. }
    destruct Hr; simpl; [rewrite <-Ha; apply AS_same|..]; by eapply Hclose.
  - destruct Hc as [| | |tc s Hc Haw Htc]; simpl; rewrite <-Ha;
      [apply AS_same..|].
    apply AS_mint; [|done..]. split; simpl;
      [naive_solver|done|done|done|by rewrite Htc|done|exists s; by rewrite Hp].
Qed.

Lemma step_approvals k e k' acts :
  kernel_inv k → step k e = Some (k', acts) → approvals_spec k e (approvals k').
Proof.
  intros Hk [|k2 acts2 _ Hp]%step_inv; [constructor|]. simpl.
  destruct Hp as [| | |tid idx t k2 acts2 Hkind Htid Hidx Ht Hid Hterm Hl];
    try (simpl; constructor).
  destruct Hl as [aid aidx a ? ? ? Ha ?| |js r k1 acts1 t1 r1 acts3 Hchk Hjs Hr Hd Ht1 Hdr];
    simpl; [|constructor|].
  { eapply AS_close; [done..| |done]. intros Hlt.
    by eapply awaiting_entry; eauto using list_elem_of_lookup_2. }
  eapply dispatch_approvals; [| | | |exact Hd]; try done. rewrite charged_id. congruence.
Qed.

Lemma request_of_status p a s e : request_of p (a_set_status s a) e ↔ request_of p a e.
Proof. split; intros []; by split. Qed.

(** Every approval of the arena was requested, by an event of the history. *)
Lemma reach_requested p h k a :
  reach p h k → a ∈ approvals k → ∃ e, e ∈ h ∧ request_of p a e.
Proof.
  intros Hr. revert a. induction Hr as [|h k e k' acts Hr IH Hs]; intros a Hin;
    [by apply elem_of_nil in Hin|].
  pose proof (reach_policy _ _ _ Hr) as Hpol.
  pose proof (step_approvals _ _ _ _ (reach_inv _ _ _ Hr) Hs) as Has.
  remember (approvals k') as aps eqn:Haps. clear Haps.
  inversion Has as [Heq|aidx a0 s Ha0 _ _ _ Heq|a0 Hq _ _ Heq];
    subst aps.
  - destruct (IH _ Hin) as (e0 & ? & ?). exists e0. split; [by right|done].
  - destruct (elem_of_alter _ _ _ _ _ Ha0 Hin) as [->|(n & _ & Hn)].
    + destruct (IH a0) as (e0 & ? & ?); [by eapply list_elem_of_lookup_2|].
      exists e0. split; [by right|]. by apply request_of_status.
    + destruct (IH a) as (e0 & ? & ?); [by eapply list_elem_of_lookup_2|].
      exists e0. split; [by right|done].
  - apply elem_of_app in Hin as [Hin|Hin].
    + destruct (IH _ Hin) as (e0 & ? & ?). exists e0. split; [by right|done].
    + apply list_elem_of_singleton in Hin as ->. exists e. split; [by left|].
      by rewrite <-Hpol.
Qed.

(** ** The abstract task lifecycle *)

(** The legal successor set per status: the reference table of the crate's
    own transition tests. *)
Definition legal_task_successors (from : TaskStatus) : list TaskStatus :=
  match from with
  | TCreated => [TPlanning; TQueued; TBlocked; TCompleted; TFailed; TKilled]
  | TPlanning => [TQueued; TRunning; TBlocked; TCompleted; TFailed; TKilled]
  | TQueued => [TRunning; TBlocked; TCompleted; TFailed; TKilled]
  | TRunning => [TAwaitingApproval; TIntegrating; TRetrying; TBlocked; TCompleted; TFailed; TKilled]
  | TAwaitingApproval => [TBlocked; TCompleted; TFailed; TKilled]
  | TBlocked => [TRunning; TRetrying; TCompleted; TFailed; TKilled]
  | TRetrying => [TQueued; TBlocked; TCompleted; TFailed; TKilled]
  | TIntegrating => [TAwaitingUserReview; TBlocked; TCompleted; TFailed; TKilled]
  | TAwaitingUserReview => [TRunning; TBlocked; TCompleted; TFailed; TKilled]
  | TCompleted | TFailed | TKilled | TArchived => []
  end.

(** The edges of the running kernel: the table, the two edges the kernel adds
    around approvals, and staying put. *)
Definition lifecycle_edge (s s' : TaskStatus) : Prop :=
  s' = s ∨ s' ∈ legal_task_successors s ∨
  (s = TAwaitingApproval ∧ s' = TRunning) ∨ (s = TIntegrating ∧ s' = TAwaitingApproval).

(** The abstract state: the status of every task. *)
Definition abs (k : Kernel) : gmap TaskId TaskStatus :=
  list_to_map ((λ t, (t_id t, t_status t)) <$> tasks k).

(** One step of the abstract machine on an event for task [o]. *)
Inductive lifecycle_step (o : option TaskId) (m : gmap TaskId TaskStatus)
    : gmap TaskId TaskStatus → Prop :=
| LS_stay : lifecycle_step o m m
| LS_create tid :
    o = Some tid → m !! tid = None → lifecycle_step o m (<[tid := TCreated]> m)
| LS_move tid s s' :
    o = Some tid → m !! tid = Some s → lifecycle_edge s s' →
    lifecycle_step o m (<[tid := s']> m).

Lemma lifecycle_edge_terminal s s' :
  task_is_terminal s = true → lifecycle_edge s s' → s' = s.
Proof.
  intros Ht [->|[Hin|[[-> _]|[-> _]]]]; try done.
  destruct s; try done; by apply elem_of_nil in Hin.
Qed.

Lemma task_next_legal s k s' : task_next s k = TMove s' → lifecycle_edge s s'.
Proof.
  intros H. apply (bool_decide_eq_true (lifecycle_edge s s')).
  destruct s, k; simpl in H; try discriminate H; injection H as <-; reflexivity.
Qed.

(** How one step changes the task arena. *)
Inductive tasks_spec (k : Kernel) (e : Event) : list TaskEntry → Prop :=
| TS_same : tasks_spec k e (tasks k)
| TS_create tid b :
    ev_kind e = TaskCreated → ev_task_id e = Some tid → task_index k tid = None →
    tasks_spec k e (tasks k ++ [TaskEntry_new tid b (ev_seq e)])
| TS_one idx t f :
    ev_task_id e = Some (t_id t) → tasks k !! idx = Some t → t_id (f t) = t_id t →
    lifecycle_edge (t_status t) (t_status (f t)) →
    tasks_spec k e (alter f idx (tasks k)).

Lemma lifecycle_edge_block s : task_is_terminal s = false → lifecycle_edge s TBlocked.
Proof.
  intros H. apply (bool_decide_eq_true (lifecycle_edge s TBlocked)).
  destruct s; (discriminate H || reflexivity).
Qed.

Lemma dispatch_tasks k e idx t k' acts :
  kernel_inv k → tasks k !! idx = Some t → task_is_terminal (t_status t) = false →
  dispatch_spec k e idx t k' acts →
  ∃ f, tasks k' = alter f idx (tasks k) ∧ t_id (f t) = t_id t ∧
       lifecycle_edge (t_status t) (t_status (f t)).
Proof.
  intros Hk Ht Hterm Hd. pose proof (task_ok_at _ _ _ Hk Ht) as (_ & Haw & _).
  assert (∃ f, tasks k = alter f idx (tasks k) ∧ t_id (f t) = t_id t ∧
       lifecycle_edge (t_status t) (t_status (f t))) as Hsame.
  { exists id. rewrite alter_id_self. split; [done|]. split; [done|by left]. }
  pose proof (lifecycle_edge_block _ Hterm) as Hblk.
  destruct Hd as [k' acts Hkind Hr|k' acts Hkind Hc| |to Hn Hb|Hn]; try done.
  - destruct Hr as [|aid aidx a []|aid aidx a []|aid aidx a j []|aid aidx a []]; try done;
      (eexists; split; [reflexivity|]; split; [done|]); try done;
      (right; right; left; split; [|done]; apply Haw; by eexists).
  - destruct Hc; try done; (eexists; split; [reflexivity|]; split; [done|]); try done. simpl.
    destruct Hkind as [[_ ->]|[_ [-> | ->]]]; [right; left; set_solver..|].
    right; right; right. done.
  - eexists. split; [reflexivity|]. split; [done|]. by eapply task_next_legal.
  - eexists. split; [reflexivity|]. done.
Qed.

Lemma step_tasks k e k' acts :
  kernel_inv k → step k e = Some (k', acts) → tasks_spec k e (tasks k').
Proof.
  intros Hk [|k2 acts2 _ Hp]%step_inv; [constructor|]. simpl.
  destruct Hp as [|tid b ? ? ? ? ?|tid idx t Htid Hidx Ht Hterm
                 |tid idx t k2 acts2 Hkind Htid Hidx Ht Hid Hterm Hl]; simpl.
  - constructor.
  - by apply TS_create.
  - destruct (task_index_Some _ _ _ Hidx) as (t' & Ht' & Hid'). rewrite Ht in Ht'.
    simplify_eq. eapply TS_one; [done|exact Ht|done|by left].
  - pose proof (lifecycle_edge_block _ Hterm) as Hblk. subst tid.
    destruct Hl as [aid aidx a ? ? ? Ha ?|axis Hchk
                   |js r k1 acts1 t1 r1 acts3 Hchk Hjs Hr Hd Ht1 Hdr]; simpl.
    + by eapply TS_one.
    + eapply TS_one; [done|exact Ht|simpl; apply charged_id|done].
    + assert (kernel_inv (with_jobs (with_task_at k idx (charged e)) js r)) as Hk1.
      { apply inv_set_ready. apply (inv_jobs _ e); [|intros tid Htid'|].
        - eapply inv_upd_task; [done|exact Ht|apply charged_id|eauto with crust|].
          intros aid. by rewrite charged_awaiting.
        - rewrite (with_task_at_ids k idx _ t Ht (charged_id e t)).
          apply list_elem_of_fmap. exists t. split; [congruence|].
          by eapply list_elem_of_lookup_2.
        - by eapply jobs_spec_frame; [|exact Hjs]. }
      pose proof (with_task_at_lookup k idx (charged e) t Ht) as Hl1.
      destruct (dispatch_tasks (with_jobs (with_task_at k idx (charged e)) js r) e idx
                  (charged e t) k1 acts1 Hk1 Hl1) as (f & Hf & Hfid & Hfe);
        [by rewrite charged_status|done|].
      rewrite Hf. change (tasks (with_jobs ?a _ _)) with (tasks a).
      unfold with_task_at at 1. simpl. rewrite !list_alter_alter_eq.
      eapply TS_one; [done|exact Ht|..]; simpl; rewrite ?Hfid, ?charged_id; [done|].
      by rewrite charged_status in Hfe.
Qed.

(** ** Statuses as lookups *)

Lemma abs_task_status k tid : abs k !! tid = task_status k tid.
Proof.
  unfold abs, task_status, task. induction (tasks k) as [|t ts IH]; simpl; [done|].
  case_bool_decide as Hid; simpl.
  - by rewrite Hid, lookup_insert_eq.
  - by rewrite lookup_insert_ne.
Qed.

Lemma task_lookup k idx t :
  kernel_inv k → tasks k !! idx = Some t → task k (t_id t) = Some t.
Proof.
  intros Hk Ht. unfold task. rewrite find_position.
  rewrite (position_unique t_id _ _ _ (inv_tasks_nodup k Hk) Ht). done.
Qed.

Lemma task_index_lookup k tid idx t :
  kernel_inv k → task_index k tid = Some idx → tasks k !! idx = Some t → task k tid = Some t.
Proof.
  intros Hk Hidx Ht. destruct (task_index_Some _ _ _ Hidx) as (t' & Ht' & <-).
  rewrite Ht in Ht'. simplify_eq. by eapply task_lookup.
Qed.

Lemma task_Some k tid t : task k tid = Some t → ∃ idx, task_index k tid = Some idx ∧ tasks k !! idx = Some t ∧ t_id t = tid.
Proof.
  unfold task. rewrite find_position. unfold task_index.
  destruct (position _ (tasks k)) as [idx|] eqn:E; simpl; [|done]. intros Ht.
  exists idx. split; [done|]. split; [done|].
  apply position_Some in E as (t' & Ht' & Hid & _). rewrite Ht in Ht'. simplify_eq.
  by apply bool_decide_eq_true in Hid.
Qed.

Lemma task_None k tid : task k tid = None ↔ task_index k tid = None.
Proof.
  unfold task. rewrite find_position. unfold task_index.
  destruct (position _ (tasks k)) as [idx|] eqn:E; simpl; [|done].
  apply position_Some in E as (t' & -> & _). done.
Qed.

Lemma task_alter k idx t f tid :
  kernel_inv k → tasks k !! idx = Some t → t_id (f t) = t_id t →
  task (set_tasks k (alter f idx (tasks k))) tid =
    if decide (tid = t_id t) then Some (f t) else task k tid.
Proof.
  intros Hk Ht Hid. pose proof (inv_tasks_nodup k Hk) as Hnd.
  unfold task, set_tasks. simpl. clear Hk. revert idx Ht Hnd.
  induction (tasks k) as [|u ts IH]; intros idx Ht Hnd; [by rewrite lookup_nil in Ht|].
  simpl in Hnd. apply NoDup_cons in Hnd as [Hu Hnd].
  destruct idx as [|idx]; [|change (alter f (S idx) (u :: ts)) with (u :: alter f idx ts)];
    simpl in *.
  - simplify_eq. rewrite Hid.
    case_decide as Hd; [by rewrite bool_decide_true by done|].
    by rewrite bool_decide_false by congruence.
  - rewrite (IH idx) by done. case_decide as Hd; [|done].
    rewrite bool_decide_false; [done|]. intros Heq. apply Hu.
    apply list_elem_of_fmap. exists t. split; [congruence|]. by eapply list_elem_of_lookup_2.
Qed.

Lemma task_snoc k t tid :
  task_index k (t_id t) = None →
  task (set_tasks k (tasks k ++ [t])) tid =
    if decide (tid = t_id t) then Some t else task k tid.
Proof.
  rewrite <-task_None. unfold task. simpl.
  induction (tasks k) as [|u ts IH]; simpl.
  - intros _. case_decide; [by rewrite bool_decide_true by done|].
    by rewrite bool_decide_false by congruence.
  - case_bool_decide as Hu; [done|]. intros Hn. rewrite (IH Hn).
    case_bool_decide as Hu2; [|done]. case_decide; [congruence|done].
Qed.

(** The effect of one step on the record of any one task. *)
Lemma step_task k e k' acts tid :
  kernel_inv k → step k e = Some (k', acts) →
  task k' tid = task k tid ∨
  ev_task_id e = Some tid ∧
    ((∃ b, ev_kind e = TaskCreated ∧ task k tid = None ∧
           task k' tid = Some (TaskEntry_new tid b (ev_seq e))) ∨
     (∃ t t', task k tid = Some t ∧ task k' tid = Some t' ∧
              lifecycle_edge (t_status t) (t_status t'))).
Proof.
  intros Hk Hs. pose proof (step_tasks _ _ _ _ Hk Hs) as Hts.
  assert (∀ ts, tasks k' = ts → task k' tid = task (set_tasks k ts) tid) as Hview.
  { by intros ts <-. }
  inversion Hts as [Heq|tid0 b Hkind Htid Hidx Heq|idx t f Htid Ht Hid Hedge Heq];
    rewrite (Hview _ (eq_sym Heq)).
  - left. by destruct k.
  - rewrite (task_snoc k (TaskEntry_new tid0 b (ev_seq e))) by done. simpl.
    case_decide as Hd; [|by left]. subst. right. split; [done|]. left. exists b.
    split; [done|]. split; [by apply task_None|done].
  - rewrite (task_alter k idx t f tid Hk Ht Hid). case_decide as Hd; [|by left].
    subst. right. split; [done|]. right. exists t, (f t). split; [by eapply task_lookup|done].
Qed.

(** ** Jobs across a step *)

Lemma step_jobs k e k' acts :
  step k e = Some (k', acts) → jobs_spec k e (jobs k').
Proof.
  intros [|k2 acts2 _ Hp]%step_inv; [constructor|]. simpl.
  destruct Hp as [| | |tid idx t k2 acts2 Hkind Htid Hidx Ht Hid Hterm Hl];
    try (simpl; constructor).
  destruct Hl as [| |js r k1 acts1 t1 r1 acts3 Hchk Hjs Hr Hd Ht1 Hdr];
    simpl; [constructor|constructor|].
  by rewrite (dispatch_jobs _ _ _ _ _ _ Hd).
Qed.

Lemma job_lookup k idx j :
  kernel_inv k → jobs k !! idx = Some j → job k (j_id j) = Some j.
Proof.
  intros Hk Hj. unfold job. rewrite find_position.
  rewrite (position_unique j_id _ _ _ (inv_jobs_nodup k Hk) Hj). done.
Qed.

Lemma job_Some k jid j : job k jid = Some j → ∃ idx, jobs k !! idx = Some j ∧ j_id j = jid.
Proof.
  unfold job. rewrite find_position.
  destruct (position _ (jobs k)) as [idx|] eqn:E; simpl; [|done]. intros Hj.
  exists idx. split; [done|].
  apply position_Some in E as (j' & Hj' & Hid & _). rewrite Hj in Hj'. simplify_eq.
  by apply bool_decide_eq_true in Hid.
Qed.

(** A job never leaves the arena and never changes its task. *)
Lemma step_job_persists k e k' acts jid j :
  kernel_inv k → step k e = Some (k', acts) → job k jid = Some j →
  ∃ j', job k' jid = Some j' ∧ j_task j' = j_task j.
Proof.
  intros Hk Hs Hj. pose proof (inv_step _ _ _ _ Hk Hs) as Hk'.
  pose proof (step_jobs _ _ _ _ Hs) as Hjs.
  destruct (job_Some _ _ _ Hj) as (idx & Hidx & <-).
  assert (∃ j', jobs k' !! idx = Some j' ∧ j_id j' = j_id j ∧ j_task j' = j_task j)
    as (j' & Hj' & Hid & Htask).
  { remember (jobs k') as js eqn:E. clear E.
    destruct Hjs as [|jid tid ? ? ?|tid ? ?|n j0 f Hn Hev [G1 G2 G3 G4]].
    - eauto.
    - exists j. rewrite lookup_app_l by (by eapply lookup_lt_Some). done.
    - exists (cascade e tid j). rewrite list_lookup_fmap, Hidx. split; [done|].
      unfold cascade. by destruct (bool_decide (j_task j = tid) && _).
    - destruct (decide (n = idx)) as [->|Hne].
      + rewrite Hidx in Hn. simplify_eq. exists (f j0).
        rewrite list_lookup_alter_eq, Hidx. done.
      + exists j. by rewrite list_lookup_alter_ne. }
  exists j'. split; [|done]. rewrite <-Hid. by eapply job_lookup.
Qed.

Lemma is_runnable_job_spec k jid tid :
  kernel_inv k → is_runnable_job k jid tid = true →
  ∃ j, job k jid = Some j ∧ j_task j = tid ∧ (j_status j = JLeased ∨ j_status j = JRunning).
Proof.
  intros Hk H. unfold is_runnable_job in H. apply existsb_exists in H as (j & Hin & Hj).
  apply list_elem_of_In, list_elem_of_lookup in Hin as (idx & Hidx).
  apply andb_true_iff in Hj as [[Hid%bool_decide_eq_true Htk%bool_decide_eq_true]%andb_true_iff Hst].
  exists j. subst. split; [by eapply job_lookup|]. split; [done|].
  destruct (j_status j); auto; discriminate.
Qed.

(** A model request names a runnable job of a task that runs after the step. *)
Lemma step_request_model k e k' acts jid :
  step k e = Some (k', acts) → RequestModel jid ∈ acts →
  ∃ j, job k' jid = Some j ∧ (j_status j = JLeased ∨ j_status j = JRunning) ∧
       task_status k' (j_task j) = Some TRunning.
Proof.
  intros [|k2 acts2 _ Hp]%step_inv Hin; [by apply elem_of_nil in Hin|].
  apply elem_of_cons in Hin as [|Hin]; [done|].
  destruct Hp as [| | |tid idx t k2 acts2 Hkind Htid Hidx Ht Hid Hterm Hl];
    try (by apply elem_of_nil in Hin).
  destruct Hl as [| |js r k1 acts1 t1 r1 acts3 Hchk Hjs Hr Hd Ht1 Hdr];
    try (by apply elem_of_nil in Hin).
  apply elem_of_app in Hin as [Hin|[Hin|Hin]%elem_of_app].
  - exfalso. destruct Hd as [? ? _ H|? ? _ H| | |]; try destruct H; set_solver.
  - destruct (task_is_terminal (t_status t1)); set_solver.
  - destruct Hdr as [->|(jid' & j & -> & Hj & Hst & Hrun)]; [by apply elem_of_nil in Hin|].
    apply list_elem_of_singleton in Hin. injection Hin as <-. exists j. done.
Qed.

(** A terminal task keeps its status, and none of its jobs is driven. *)
Lemma step_terminal k e k' acts tid s :
  kernel_inv k → step k e = Some (k', acts) →
  task_status k tid = Some s → task_is_terminal s = true →
  task_status k' tid = Some s ∧
  ∀ jid j, job k' jid = Some j → j_task j = tid →
    (RunTool jid ∉ acts) ∧ (RequestModel jid ∉ acts).
Proof.
  intros Hk Hs Hst Hterm. pose proof (inv_step _ _ _ _ Hk Hs) as Hk'.
  assert (task_status k' tid = Some s) as Hst'.
  { unfold task_status in *. destruct (step_task _ _ _ _ tid Hk Hs) as [->|[_ [Hc|Hm]]];
      [done| |].
    - destruct Hc as (b & _ & Hn & _). by rewrite Hn in Hst.
    - destruct Hm as (t & t' & Ht & Ht' & Hedge). rewrite Ht in Hst. rewrite Ht'. simpl in *.
      simplify_eq. by rewrite (lifecycle_edge_terminal _ _ Hterm Hedge). }
  split; [done|]. intros jid j Hj Htk. split; intros Hin.
  - destruct (step_run_tool _ _ _ _ _ Hs Hin) as (tid' & idx & t & _ & Hidx & Ht & Hid & Hlive & _ & Hrun).
    destruct (is_runnable_job_spec _ _ _ Hk' Hrun) as (j' & Hj' & Htk' & _).
    rewrite Hj in Hj'. injection Hj' as <-. unfold task_status in Hst.
    replace tid with tid' in Hst by congruence.
    rewrite (task_index_lookup _ _ _ _ Hk Hidx Ht) in Hst. simpl in Hst. congruence.
  - destruct (step_request_model _ _ _ _ _ Hs Hin) as (j' & Hj' & _ & Hrun).
    rewrite Hj in Hj'. injection Hj' as <-. rewrite Htk, Hst' in Hrun. by injection Hrun as ->.
Qed.

Lemma run_job_persists p h k es k' actss jid j :
  reach p h k → run k es = Some (k', actss) → job k jid = Some j →
  ∃ j', job k' jid = Some j' ∧ j_task j' = j_task j.
Proof.
  revert h k actss j. induction es as [|e es IH]; intros h k actss j Hr Hrun Hj; simpl in Hrun.
  - simplify_eq. eauto.
  - destruct (step k e) as [[k1 a1]|] eqn:Hs; simpl in Hrun; [|done].
    destruct (run k1 es) as [[k2 a2]|] eqn:Hrun2; simpl in Hrun; [|done]. simplify_eq.
    destruct (step_job_persists _ _ _ _ _ _ (reach_inv _ _ _ Hr) Hs Hj) as (j1 & Hj1 & <-).
    eapply IH; [|done|done]. by eapply reach_step.
Qed.
