(* ===== verification/KernelTheorems.v ===== *)
(** * The properties of the kernel reducer

    Totality, the reachable-state invariant, the provenance of every released
    effect, the refinement of the task lifecycle, absorbing terminal states,
    idempotent re-delivery, bounded fan-out, budget pauses, approval expiry and
    the finality of resolved approvals. The witnesses replay one session. *)

From S2P Require Import Prelude Types Policy KernelState Kernel KernelInv KernelProps.

(** ** The session the witnesses replay *)

Definition demo_policy : PolicySnapshot := mkPolicy Supervised.

(** Task 7 is created and planned; job 3 is queued, leased by worker 9 and asks for an
    irreversible tool call. *)
Definition demo_request : Event :=
  with_timestamp
    (with_tool_call
       (with_reversibility
          (with_job (with_task (event_inbound ToolCallRequested 5 AModel) 7) 3)
          Irreversible) 55) 1000.
Definition demo_events : list Event :=
  [ event_task_created 1 AUser 7 standard_task;
    with_task (event_inbound TaskPlanned 2 AModel) 7;
    with_job (with_task (event_inbound JobQueued 3 AKernel) 7) 3;
    with_lease_owner (with_job (with_task (event_inbound JobLeased 4 AKernel) 7) 3) 9;
    demo_request ].

(** The user approves in time. *)
Definition demo_grant : Event :=
  with_timestamp
    (with_resolution
       (with_tool_call
          (with_approval (with_task (event_inbound ApprovalResolved 6 AUser) 7) 1) 55)
       Approve) 2000.
(** The user kills the task. *)
Definition demo_kill (s : EventSeq) (now : Timestamp) : Event :=
  with_timestamp (with_task (event_inbound TaskKilled s AUser) 7) now.

(** The kernel after a list of events; [run_total] makes the default unreachable. *)
Definition kernel_after (p : PolicySnapshot) (es : list Event) : Kernel :=
  default (Kernel_new p) (fst <$> run (Kernel_new p) es).

Lemma reach_after p es : reach p (rev es) (kernel_after p es).
Proof.
  unfold kernel_after. destruct (run_total (Kernel_new p) es) as [[k a] Hr].
  rewrite Hr. simpl. rewrite <-(app_nil_r (rev es)). by eapply run_reach; [constructor|].
Qed.

Definition demo_waiting : Kernel := kernel_after demo_policy demo_events.
Definition demo_task (k : Kernel) : TaskEntry :=
  default (TaskEntry_new 0 unlimited 0) (task k 7).

Definition step_or (k : Kernel) (e : Event) : Kernel * list Action := default (k, []) (step k e).

Lemma step_or_eq k e : step k e = Some ((step_or k e).1, (step_or k e).2).
Proof. unfold step_or. destruct (step_ok k e) as (k' & a & -> & _). done. Qed.

(** ** Totality and fan-out *)

Lemma dispatch_acts k e idx t k' acts t' :
  dispatch_spec k e idx t k' acts → tasks k !! idx = Some t → tasks k' !! idx = Some t' →
  acts = [] ∨ (length acts = 1%nat ∧ (t_status t' = t_status t ∨ task_is_terminal (t_status t') = false)).
Proof.
  intros Hd Ht Ht'. destruct Hd as [? ? _ H|? ? _ H| | |]; try (by left); destruct H; try (by left).
  - right. split; [done|]. right. simpl in Ht'. rewrite list_lookup_alter_eq, Ht in Ht'.
    by injection Ht' as <-.
  - right. split; [done|]. left. congruence.
  - right. split; [done|]. right. simpl in Ht'. rewrite list_lookup_alter_eq, Ht in Ht'.
    by injection Ht' as <-.
Qed.

(** [Kernel::step] is total (no event, however malformed, panics an arena index) and
    its fan-out is bounded: a step returns at most three actions, within the
    [READY_DRAIN_MAX + 3] of the crate's fuzz test, on every state. *)
Theorem kernel_step_total k e :
  ∃ k' acts, step k e = Some (k', acts) ∧ (length acts ≤ READY_DRAIN_MAX + 2)%nat.
Proof.
  destruct (step_ok k e) as (k' & acts & Hs & Hspec). exists k', acts. split; [done|].
  destruct Hspec as [|k2 acts2 _ Hp]; [simpl; lia|]. simpl.
  destruct Hp as [| | |tid idx t k2 acts2 Hkind Htid Hidx Ht Hid Hterm Hl]; simpl; try lia.
  destruct Hl as [| |js r k1 acts1 t1 r1 acts3 Hchk Hjs Hr Hd Ht1 Hdr]; simpl; try lia.
  assert (length acts3 ≤ 1)%nat by (destruct Hdr as [->|(?&?&->&_)]; simpl; lia).
  assert (tasks (with_jobs (with_task_at k idx (charged e)) js r) !! idx = Some (charged e t))
    as Hl by exact (with_task_at_lookup k idx (charged e) t Ht).
  rewrite !length_app.
  destruct (dispatch_acts _ _ _ _ _ _ _ Hd Hl Ht1) as [->|[-> [Hst|Hst]]]; simpl.
  - destruct (task_is_terminal _); simpl; lia.
  - rewrite Hst, charged_status, Hterm. simpl. lia.
  - rewrite Hst. simpl. lia.
Qed.

(** C2: Every kernel reachable from [Kernel::new] satisfies the invariant: unique task and
    job ids, every job owned by a known task, a block reason exactly on [Blocked] tasks, a
    pending approval exactly on [AwaitingApproval] tasks (and that approval is pending in
    the arena and belongs to the task), budgets finite on every axis, no task [Archived],
    and no job ever [HeartbeatMissing] or [Retrying]. *)
Theorem kernel_reachable_invariant p h k : reach p h k → kernel_inv k.
Proof. apply reach_inv. Qed.

Lemma kernel_reachable_invariant_witness :
  kernel_inv (kernel_after demo_policy demo_events) ∧
  task_status (kernel_after demo_policy demo_events) 7 = Some TAwaitingApproval.
Proof.
  split; [|by vm_compute].
  exact (kernel_reachable_invariant demo_policy _ _ (reach_after demo_policy demo_events)).
Defined.

(** ** Provenance of effects *)

Lemma op_matches_bound o tc : op_matches o tc = true → op_tool_call_id o = tc.
Proof.
  unfold op_matches. destruct (op_tool_call_id o), tc; try done.
  by intros ->%bool_decide_eq_true.
Qed.

(** C1: No effect without authority. When a reachable kernel releases [RunTool j] on an
    event, the event names a live task, [j] is a leased or running job of that very task,
    and either the policy allows the requested effect outright (a reversible request for
    [j] in a [Running] or [Integrating] task), or the event is an authorized user's in-time
    [Approve] of the pending approval this very task waits for, which is bound to the task,
    to [j] and to the tool call that the event names, and which was minted from an earlier
    request event of the history for the same task, job and tool call that the policy sent
    to approval. (Fewer than [u128::MAX] approvals were minted; past it ids repeat.) *)
Theorem kernel_effect_provenance p h k e k' acts j :
  reach p h k → Z.of_nat (length (approvals k)) < u128_MAX →
  step k e = Some (k', acts) → RunTool j ∈ acts →
  ∃ tid t, ev_task_id e = Some tid ∧ task k tid = Some t ∧
    task_is_terminal (t_status t) = false ∧ is_runnable_job k' j tid = true ∧
    ((ev_job_id e = Some j ∧
      (ev_kind e = ToolCallRequested ∨ ev_kind e = GitHubOperationRequested) ∧
      (t_status t = TRunning ∨ t_status t = TIntegrating) ∧
      classify p (default Irreversible (ev_reversibility e)) = PAllow) ∨
     (∃ a e0, a ∈ approvals k ∧ a_status a = APending ∧
        t_awaiting t = Some (a_id a) ∧ a_task a = tid ∧ a_job a = Some j ∧
        human_grant e a ∧ e0 ∈ h ∧ request_of p a e0 ∧
        ev_task_id e0 = Some tid ∧ ev_job_id e0 = Some j ∧
        ev_tool_call_id e0 = ev_tool_call_id e)).
Proof.
  intros Hr Hlt Hs Hin. pose proof (reach_inv _ _ _ Hr) as Hk.
  destruct (step_run_tool _ _ _ _ _ Hs Hin)
    as (tid & idx & t & Htid & Hidx & Ht & Hid & Hlive & Hauth & Hrun).
  exists tid, t. split; [done|]. split; [by eapply task_index_lookup|].
  split; [done|]. split; [done|].
  destruct Hauth as [Hkind Hst Hj Hc|aid aidx a Hkind [H1 H2 H3 H4 H5 H6 H7] Htime Happ Hj].
  - left. rewrite <-(reach_policy _ _ _ Hr). done.
  - right. assert (a ∈ approvals k) as Ha by (by eapply list_elem_of_lookup_2).
    destruct (reach_requested _ _ _ _ Hr Ha) as (e0 & He0 & Hq). exists a, e0.
    destruct (approval_index_Some _ _ _ H4) as (a' & Ha' & Hid').
    rewrite H5 in Ha'. injection Ha' as <-.
    assert (a_task a = tid) as Htk.
    { rewrite <-Hid. eapply awaiting_entry; eauto using list_elem_of_lookup_2. }
    pose proof (op_matches_bound _ _ H7). pose proof Hq as [_ Q1 Q2 Q3 _ _ _].
    split_and!; try done; [congruence| |congruence..].
    split; [done|done|done|congruence|done|done].
Qed.

Lemma kernel_effect_provenance_witness :
  let k := kernel_after demo_policy demo_events in
  (step_or k demo_grant).2 = [AppendEvent (Some 7); RunTool 3] ∧
  ∃ tid t, ev_task_id demo_grant = Some tid ∧ task k tid = Some t ∧
    task_is_terminal (t_status t) = false ∧
    is_runnable_job (step_or k demo_grant).1 3 tid = true ∧
    ((ev_job_id demo_grant = Some 3 ∧
      (ev_kind demo_grant = ToolCallRequested ∨ ev_kind demo_grant = GitHubOperationRequested) ∧
      (t_status t = TRunning ∨ t_status t = TIntegrating) ∧
      classify demo_policy (default Irreversible (ev_reversibility demo_grant)) = PAllow) ∨
     (∃ a e0, a ∈ approvals k ∧ a_status a = APending ∧
        t_awaiting t = Some (a_id a) ∧ a_task a = tid ∧ a_job a = Some 3 ∧
        human_grant demo_grant a ∧ e0 ∈ rev demo_events ∧ request_of demo_policy a e0 ∧
        ev_task_id e0 = Some tid ∧ ev_job_id e0 = Some 3 ∧
        ev_tool_call_id e0 = ev_tool_call_id demo_grant)).
Proof.
  intros k. split; [by vm_compute|].
  apply (kernel_effect_provenance demo_policy (rev demo_events) k demo_grant
           (step_or k demo_grant).1 (step_or k demo_grant).2 3
           (reach_after demo_policy demo_events));
    [vm_compute; reflexivity|exact (step_or_eq k demo_grant)|].
  apply (bool_decide_unpack _). by vm_compute.
Defined.

(** ** Refinement of the task lifecycle *)

Lemma abs_set_seqs k n a : abs (set_seqs k n a) = abs k.
Proof. done. Qed.

Lemma step_abs k e k' acts :
  kernel_inv k → step k e = Some (k', acts) → lifecycle_step (ev_task_id e) (abs k) (abs k').
Proof.
  intros Hk Hs. pose proof (inv_step _ _ _ _ Hk Hs) as Hk'.
  destruct (ev_task_id e) as [tid|] eqn:Htid.
  - assert (∀ tid', tid' ≠ tid → abs k' !! tid' = abs k !! tid') as Hother.
    { intros tid' Hne. rewrite !abs_task_status. unfold task_status.
      destruct (step_task _ _ _ _ tid' Hk Hs) as [->|[Heq _]]; [done|congruence]. }
    assert (∀ s, abs k' !! tid = Some s → abs k' = <[tid:=s]> (abs k)) as Hins.
    { intros s Hst. apply map_eq. intros tid'. destruct (decide (tid' = tid)) as [->|Hne].
      - by rewrite lookup_insert_eq.
      - by rewrite lookup_insert_ne, Hother. }
    destruct (step_task _ _ _ _ tid Hk Hs)
      as [Heq|[_ [(b & _ & Hn & Hc)|(t & t' & Ht & Ht' & Hedge)]]].
    + replace (abs k') with (abs k); [constructor|]. apply map_eq. intros tid'.
      destruct (decide (tid' = tid)) as [->|Hne]; [|by rewrite Hother].
      rewrite !abs_task_status. unfold task_status. by rewrite Heq.
    + rewrite (Hins TCreated) by (rewrite abs_task_status; unfold task_status; by rewrite Hc).
      apply LS_create; [done|]. rewrite abs_task_status. unfold task_status. by rewrite Hn.
    + rewrite (Hins (t_status t')) by (rewrite abs_task_status; unfold task_status; by rewrite Ht').
      eapply LS_move; [done| |done]. rewrite abs_task_status. unfold task_status. by rewrite Ht.
  - replace (abs k') with (abs k); [constructor|]. apply map_eq. intros tid'.
    rewrite !abs_task_status. unfold task_status.
    destruct (step_task _ _ _ _ tid' Hk Hs) as [->|[? _]]; congruence.
Qed.

(** C3: The kernel refines the abstract task lifecycle: mapping a reachable kernel to the
    status of each of its tasks, every step is one step of the abstract machine, which
    creates a new task in [Created] or moves the one task the event names along an edge of
    the transition table of the crate's own tests (plus the two approval edges the reducer
    adds), and leaves every other task alone. *)
Theorem kernel_refines_lifecycle p h k e k' acts :
  reach p h k → step k e = Some (k', acts) → lifecycle_step (ev_task_id e) (abs k) (abs k').
Proof. intros Hr. apply step_abs. by eapply reach_inv. Qed.

Lemma kernel_refines_lifecycle_witness :
  let k := kernel_after demo_policy demo_events in
  lifecycle_step (Some 7) (abs k) (abs (step_or k demo_grant).1) ∧
  abs (step_or k demo_grant).1 = {[ 7 := TRunning ]}.
Proof.
  intros k. split; [|by vm_compute].
  exact (kernel_refines_lifecycle _ _ k demo_grant _ _
           (reach_after demo_policy demo_events) (step_or_eq k demo_grant)).
Defined.

(** ** Terminal states *)

(** Terminal statuses absorb: once a task of a reachable kernel is [Completed],
    [Failed] or [Killed], no later run of events changes its status, and no action of the
    run releases a tool or requests a model for a job of that task. *)
Theorem kernel_terminal_absorbing p h k es k' actss tid s :
  reach p h k → run k es = Some (k', actss) →
  task_status k tid = Some s → task_is_terminal s = true →
  task_status k' tid = Some s ∧
  ∀ acts jid j, acts ∈ actss → job k' jid = Some j → j_task j = tid →
    (RunTool jid ∉ acts) ∧ (RequestModel jid ∉ acts).
Proof.
  revert h k actss. induction es as [|e es IH]; intros h k actss Hr Hrun Hst Hterm;
    simpl in Hrun.
  - simplify_eq. split; [done|]. intros acts jid j Hin. by apply elem_of_nil in Hin.
  - destruct (step k e) as [[k1 a1]|] eqn:Hs; simpl in Hrun; [|done].
    destruct (run k1 es) as [[k2 a2]|] eqn:Hrun2; simpl in Hrun; [|done]. simplify_eq.
    pose proof (reach_inv _ _ _ Hr) as Hk.
    destruct (step_terminal _ _ _ _ _ _ Hk Hs Hst Hterm) as [Hst1 Hno].
    pose proof (reach_step _ _ _ _ _ _ Hr Hs) as Hr1.
    destruct (IH _ _ _ Hr1 Hrun2 Hst1 Hterm) as [Hst2 Hno2]. split; [done|].
    intros acts jid j [->|Hin]%elem_of_cons Hj Htk; [|by eapply Hno2].
    split; intros Hin.
    + destruct (step_run_tool _ _ _ _ _ Hs Hin) as (tid' & _ & _ & _ & _ & _ & _ & _ & _ & Hru).
      destruct (is_runnable_job_spec _ _ _ (reach_inv _ _ _ Hr1) Hru) as (j1 & Hj1 & _).
      destruct (run_job_persists _ _ _ _ _ _ _ _ Hr1 Hrun2 Hj1) as (j2 & Hj2 & Htk2).
      destruct (Hno jid j1 Hj1) as [Hn _]; [congruence|done].
    + destruct (step_request_model _ _ _ _ _ Hs Hin) as (j1 & Hj1 & _).
      destruct (run_job_persists _ _ _ _ _ _ _ _ Hr1 Hrun2 Hj1) as (j2 & Hj2 & Htk2).
      destruct (Hno jid j1 Hj1) as [_ Hn]; [congruence|done].
Qed.

(** A killed task, then a late lease and a late tool request for its job. *)
Definition demo_killed : Kernel := kernel_after demo_policy (demo_events ++ [demo_kill 6 2000]).
Definition demo_late : list Event :=
  [ with_job (with_task (event_inbound JobLeased 7 AKernel) 7) 3;
    with_job (with_task (event_inbound ToolCallRequested 8 AModel) 7) 3 ].

Lemma kernel_terminal_absorbing_witness :
  ∃ k' actss, run demo_killed demo_late = Some (k', actss) ∧
    task_status demo_killed 7 = Some TKilled ∧ task_status k' 7 = Some TKilled.
Proof.
  destruct (run_total demo_killed demo_late) as [[k' actss] E].
  exists k', actss. split; [done|]. split; [by vm_compute|].
  refine (proj1 (kernel_terminal_absorbing demo_policy _ demo_killed _ _ _ 7 TKilled
           (reach_after demo_policy (demo_events ++ [demo_kill 6 2000])) E _ _)); by vm_compute.
Defined.

(** ** Re-delivery *)

Lemma step_frontier k e k' acts :
  step k e = Some (k', acts) → applied_through k ≤ applied_through k' ∧
  (ev_seq e ≠ EventSeq_FIRST → ev_seq e ≤ applied_through k').
Proof.
  intros [Hr|k2 acts2 Hr Hp]%step_inv.
  - split; [done|]. intros _. unfold is_replay in Hr.
    apply andb_true_iff in Hr as [_ Hr]. lia.
  - simpl. unfold frontier. case_bool_decide; simpl; [done|].
    destruct (Z.ltb_spec (applied_through k) (ev_seq e)); lia.
Qed.

Lemma reach_frontier p h k e :
  reach p h k → e ∈ h → ev_seq e ≠ EventSeq_FIRST → ev_seq e ≤ applied_through k.
Proof.
  intros Hr. induction Hr as [|h k e' k' acts Hr IH Hs]; intros Hin Hne;
    [by apply elem_of_nil in Hin|].
  destruct (step_frontier _ _ _ _ Hs) as [Hmono Hnew].
  apply elem_of_cons in Hin as [->|Hin]; [by apply Hnew|]. specialize (IH Hin Hne). lia.
Qed.

(** Re-delivery is inert: any sequenced event of the history, delivered again after any
    number of further events, changes nothing and releases no action. *)
Theorem kernel_redelivery_idempotent p h k e :
  reach p h k → e ∈ h → ev_seq e ≠ EventSeq_FIRST → step k e = Some (k, []).
Proof.
  intros Hr Hin Hne. pose proof (reach_frontier _ _ _ _ Hr Hin Hne).
  unfold step. rewrite bool_decide_false by done. simpl.
  by rewrite (proj2 (Z.leb_le _ _)).
Qed.

Lemma kernel_redelivery_idempotent_witness :
  let k := kernel_after demo_policy (demo_events ++ [demo_grant]) in
  step k demo_grant = Some (k, []).
Proof.
  intros k.
  apply (kernel_redelivery_idempotent demo_policy (rev (demo_events ++ [demo_grant])) k
           demo_grant (reach_after demo_policy _)); [|done].
  rewrite rev_app_distr. simpl. by left.
Defined.

(** ** Steps on a live task *)

(** The step on a fresh event for a live task is [process_live] at the task's index. *)
Lemma step_live k e tid t :
  task k tid = Some t → task_is_terminal (t_status t) = false →
  ev_task_id e = Some tid → ev_kind e ≠ TaskCreated → is_replay k e = false →
  ∃ idx, task_index k tid = Some idx ∧ tasks k !! idx = Some t ∧ t_id t = tid ∧
    ∀ k' acts, process_live k e tid idx = Some (k', acts) →
      step k e = Some (set_seqs k' (next_saturating (next_seq k')) (frontier k' e),
                       AppendEvent (Some tid) :: acts).
Proof.
  intros Ht Hlive Htid Hkind Hrep.
  destruct (task_Some _ _ _ Ht) as (idx & Hidx & Hlk & Hid).
  exists idx. do 3 (split; [done|]). intros k' acts Hp.
  unfold step. fold (is_replay k e). rewrite Hrep. unfold process.
  rewrite (bool_decide_false (ev_kind e = TaskCreated)) by done. rewrite Htid, Hidx, Hlk. simpl. by rewrite Hlive, Hp.
Qed.

(** The approval a task waits for, found by its id. *)
Lemma awaiting_index k t aid :
  kernel_inv k → Z.of_nat (length (approvals k)) < u128_MAX →
  t ∈ tasks k → t_awaiting t = Some aid →
  ∃ aidx a, approval_index k aid = Some aidx ∧ approvals k !! aidx = Some a ∧
            a_id a = aid ∧ a_status a = APending ∧ a_task a = t_id t.
Proof.
  intros Hk Hlt Ht Haw.
  destruct (inv_awaiting k Hk Hlt t aid Ht Haw) as (i & a & Hi & Hid & Hst & Htk).
  destruct (approval_index k aid) as [aidx|] eqn:Hidx.
  - destruct (approval_index_Some _ _ _ Hidx) as (a' & Ha' & Hid').
    destruct (awaiting_entry k t aid aidx a' Hk Hlt Ht Haw Hidx Ha'). exists aidx, a'. done.
  - exfalso. unfold approval_index in Hidx. rewrite position_None in Hidx.
    specialize (Hidx a (list_elem_of_lookup_2 _ _ _ Hi)).
    by apply bool_decide_eq_false in Hidx.
Qed.

Lemma approval_alter_status aps aidx aid a s :
  position (λ a, bool_decide (a_id a = aid)) aps = Some aidx → aps !! aidx = Some a →
  find (λ a, bool_decide (a_id a = aid)) (alter (a_set_status s) aidx aps)
  = Some (a_set_status s a).
Proof.
  revert aidx. induction aps as [|x aps IH]; intros aidx Hp Ha; [done|]. simpl in Hp.
  case_bool_decide as Hx.
  - simplify_eq. simpl in Ha. simplify_eq. simpl. by rewrite bool_decide_true.
  - destruct (position _ aps) as [i|] eqn:E; simpl in Hp; [|done]. simplify_eq.
    simpl in Ha. change (alter (a_set_status s) (S i) (x :: aps))
      with (x :: alter (a_set_status s) i aps). simpl.
    rewrite bool_decide_false by done. by apply IH.
Qed.

(** The accessors on a kernel whose approval and task were closed together. *)
Lemma closed_views k aidx idx s f t aid a n m :
  kernel_inv k → tasks k !! idx = Some t → t_id (f t) = t_id t →
  approval_index k aid = Some aidx → approvals k !! aidx = Some a →
  let k' := set_seqs (closed k aidx idx s f) n m in
  task k' (t_id t) = Some (f t) ∧ approval_status k' aid = Some s.
Proof.
  intros Hk Ht Hid Hidx Ha k'. split.
  - change (task k' (t_id t)) with (task (set_tasks k (alter f idx (tasks k))) (t_id t)).
    rewrite (task_alter k idx t f) by done. by rewrite decide_True.
  - unfold approval_status, approval. simpl.
    by rewrite (approval_alter_status _ _ _ _ s Hidx Ha).
Qed.

(** ** Approvals: deadline, release, finality *)

(** C19: An absent approval cannot wedge a task. A fresh event of any actor and of any kind but
    [TaskCreated] that reaches an [AwaitingApproval] task of a reachable kernel after the
    deadline of the approval it waits for marks that approval [Expired], moves the task to
    [Blocked(ApprovalExpired)] and releases nothing. A second [TaskCreated] for the task is
    the exception: it is logged and changes neither the task nor an approval, whatever its
    time. (Fewer than [u128::MAX] approvals were minted; past it ids repeat.) *)
Theorem kernel_approval_expiry p h k e tid t :
  reach p h k → Z.of_nat (length (approvals k)) < u128_MAX →
  task k tid = Some t → t_status t = TAwaitingApproval →
  ev_task_id e = Some tid → is_replay k e = false →
  (∀ a, a ∈ approvals k → t_awaiting t = Some (a_id a) → a_expires_at a < ev_timestamp e) →
  ∃ k', step k e = Some (k', [AppendEvent (Some tid)]) ∧
    if bool_decide (ev_kind e = TaskCreated)
    then tasks k' = tasks k ∧ jobs k' = jobs k ∧ approvals k' = approvals k
    else ∃ aid, t_awaiting t = Some aid ∧
      task_status k' tid = Some TBlocked ∧ block_reason k' tid = Some ApprovalExpired ∧
      task_awaiting k' tid = None ∧ approval_status k' aid = Some AExpired.
Proof.
  intros Hr Hlt Ht Hst Htid Hrep Hdead. pose proof (reach_inv _ _ _ Hr) as Hk.
  case_bool_decide as Hkind.
  { destruct (task_Some _ _ _ Ht) as (idx & Hidx & _).
    assert (process k e = Some (k, [])) as Hp
      by (unfold process; by rewrite (bool_decide_true (ev_kind e = TaskCreated)), Htid, Hidx).
    eexists. split; [unfold step; fold (is_replay k e); rewrite Hrep, Hp, Htid; reflexivity|done]. }
  destruct (step_live k e tid t Ht) as (idx & Hidx & Hlk & Hid & Hstep); try done;
    [by rewrite Hst|].
  assert (is_Some (t_awaiting t)) as [aid Haw]
    by (by apply (task_ok_at _ _ _ Hk Hlk)).
  destruct (awaiting_index k t aid Hk Hlt (list_elem_of_lookup_2 _ _ _ Hlk) Haw)
    as (aidx & a & Hai & Ha & Haid & _).
  assert (a_expires_at a < ev_timestamp e)
    by (apply Hdead; [by eapply list_elem_of_lookup_2|congruence]).
  assert (process_live k e tid idx = Some (closed k aidx idx AExpired
            (t_set_last_event (ev_seq e) ∘ t_block ApprovalExpired), [])) as Hp.
  { unfold process_live, expired_approval. rewrite Hlk. simpl. rewrite Hst, Haw. simpl.
    rewrite Hai, Ha. simpl. rewrite (proj2 (Z.ltb_lt _ _)) by done. simpl.
    unfold upd_approval, set_blocked. rewrite Ha. simpl.
    erewrite upd_task_with by exact Hlk. simpl.
    erewrite upd_task_with by (apply with_task_at_lookup; exact Hlk). simpl.
    by rewrite with_task_at_compose. }
  eexists. split; [by apply Hstep|]. exists aid. split; [done|].
  unfold task_status, block_reason, task_awaiting. rewrite <-Hid.
  edestruct (closed_views k aidx idx AExpired) as [Htask Happ]; [done|exact Hlk|..|];
    [|exact Hai|exact Ha|rewrite Htask]; done.
Qed.

Lemma kernel_approval_expiry_witness :
  ∃ k' aid, step demo_waiting (demo_kill 6 999999) = Some (k', [AppendEvent (Some 7)]) ∧
    task_status k' 7 = Some TBlocked ∧ approval_status k' aid = Some AExpired.
Proof.
  destruct (kernel_approval_expiry demo_policy (rev demo_events) demo_waiting
              (demo_kill 6 999999) 7 (demo_task demo_waiting)
              (reach_after demo_policy demo_events)) as (k' & Hs & aid & _ & Hst & _ & _ & Ha).
  - vm_compute. reflexivity.
  - vm_compute. reflexivity.
  - vm_compute. reflexivity.
  - reflexivity.
  - vm_compute. reflexivity.
  - intros a Ha _. vm_compute in Ha. apply list_elem_of_singleton in Ha as ->.
    vm_compute. reflexivity.
  - exists k', aid. exact (conj Hs (conj Hst Ha)).
Defined.

(** Before the deadline the expiry sweep does nothing. *)
Lemma expired_approval_none k e idx t :
  tasks k !! idx = Some t →
  (∀ aid aidx a, t_awaiting t = Some aid → approval_index k aid = Some aidx →
     approvals k !! aidx = Some a → ev_timestamp e ≤ a_expires_at a) →
  expired_approval k e idx = Some None.
Proof.
  intros Ht Hd. unfold expired_approval. rewrite Ht. simpl. case_bool_decide; [|done].
  destruct (t_awaiting t) as [aid|]; [|done].
  destruct (approval_index k aid) as [aidx|] eqn:Hai; [|done].
  destruct (approval_index_Some _ _ _ Hai) as (a & Ha & _). rewrite Ha. simpl.
  specialize (Hd aid aidx a eq_refl Hai Ha). by rewrite (proj2 (Z.ltb_ge _ _)).
Qed.

(** The normal path of [process_live], from the result of the job update and the dispatch. *)
Lemma process_live_normal k e tid idx k0 k1 acts t1 :
  expired_approval k e idx = Some None → charge_budget k e idx = Some (k0, None) →
  (k2 ← apply_job k0 e; dispatch k2 e idx) = Some (k1, acts) → tasks k1 !! idx = Some t1 →
  ∃ r acts', process_live k e tid idx =
    Some (set_ready (with_task_at k1 idx (t_set_last_event (ev_seq e))) r,
          acts ++ (if task_is_terminal (t_status t1) then [TaskFinished tid] else []) ++ acts').
Proof.
  intros Hexp Hch Hd Hl. unfold process_live. rewrite Hexp. simpl. rewrite Hch. simpl.
  destruct (apply_job k0 e) as [k2|]; simpl in *; [|done]. rewrite Hd. simpl. rewrite Hl. simpl.
  erewrite upd_task_with by exact Hl. simpl.
  destruct (drain_ready_spec (with_task_at k1 idx (t_set_last_event (ev_seq e))))
    as (r & acts' & Hdr & _). rewrite Hdr. simpl. by eexists _, _.
Qed.

Lemma resolve_grant k e idx t aid aidx a j :
  tasks k !! idx = Some t → resolvable k e t aid aidx a →
  ev_timestamp e ≤ a_expires_at a → ev_resolution e = Some Approve → a_job a = Some j →
  is_runnable_job k j (t_id t) = true →
  resolve_approval k e idx = Some (closed k aidx idx AApproved t_resume, [RunTool j]).
Proof.
  intros Ht [H1 H2 H3 H4 H5 H6 H7] Htime Hres Hj Hrun. unfold resolve_approval.
  rewrite (bool_decide_true (ev_actor e = AUser)) by done. simpl. rewrite H2, Ht. simpl.
  rewrite (bool_decide_true (t_awaiting t = Some aid)) by done. simpl. rewrite H4, H5. simpl.
  rewrite (bool_decide_true (a_status a = APending)) by done. simpl. rewrite H7. simpl.
  rewrite (proj2 (Z.ltb_ge _ _)) by done. rewrite Hres.
  unfold upd_approval. rewrite H5. simpl. rewrite list_lookup_alter_eq, H5. simpl. rewrite Ht.
  simpl. erewrite upd_task_with by exact Ht. simpl.
  erewrite upd_task_with by (apply with_task_at_lookup; exact Ht). simpl.
  rewrite with_task_at_compose.
  erewrite upd_task_with by (apply with_task_at_lookup; exact Ht). simpl.
  rewrite with_task_at_compose, Hj.
  change (is_runnable_job (with_task_at _ _ _) j (t_id t)) with (is_runnable_job k j (t_id t)).
  by rewrite Hrun.
Qed.

(** A human's approval takes effect: a fresh, in-time [Approve] by the user, bound to
    the tool call of the approval a task waits for, releases exactly that approval's
    runnable job, marks the approval [Approved] and resumes the task to [Running]. *)
Theorem kernel_grant_releases p h k e tid t a j :
  reach p h k → Z.of_nat (length (approvals k)) < u128_MAX →
  task k tid = Some t → t_status t = TAwaitingApproval → is_replay k e = false →
  ev_task_id e = Some tid → ev_kind e = ApprovalResolved →
  ev_budget_delta e = None → ev_job_id e = None →
  a ∈ approvals k → t_awaiting t = Some (a_id a) → human_grant e a →
  a_job a = Some j → is_runnable_job k j tid = true →
  ∃ k' acts, step k e = Some (k', AppendEvent (Some tid) :: RunTool j :: acts) ∧
    task_status k' tid = Some TRunning ∧ approval_status k' (a_id a) = Some AApproved.
Proof.
  intros Hr Hlt Ht Hst Hrep Htid Hkind Hdelta Hjob Hin Haw [G1 G2 G3 G4 G5] Hj Hrun.
  pose proof (reach_inv _ _ _ Hr) as Hk.
  destruct (step_live k e tid t Ht) as (idx & Hidx & Hlk & Hid & Hstep); try done;
    [by rewrite Hst|by rewrite Hkind|].
  destruct (awaiting_index k t (a_id a) Hk Hlt (list_elem_of_lookup_2 _ _ _ Hlk) Haw)
    as (aidx & a' & Hai & Ha & Haid & Hpend & _).
  apply list_elem_of_lookup in Hin as (i & Hi).
  assert (i = aidx) as ->.
  { apply (approval_id_inj (length (approvals k))); [done|by eapply lookup_lt_Some..|].
    rewrite <-(inv_approval_ids k Hk _ _ Hi), <-(inv_approval_ids k Hk _ _ Ha). congruence. }
  rewrite Hi in Ha. injection Ha as <-.
  set (k1 := closed k aidx idx AApproved t_resume).
  assert (dispatch k e idx = Some (k1, [RunTool j])) as Hd.
  { unfold dispatch. rewrite Hlk. simpl. rewrite Hkind.
    eapply resolve_grant; [done|by split|done..|by rewrite Hid]. }
  assert (tasks k1 !! idx = Some (t_resume t)) as Hl1
    by (simpl; by rewrite list_lookup_alter_eq, Hlk).
  destruct (process_live_normal k e tid idx k k1 [RunTool j] (t_resume t)) as (r & acts & Hp);
    [| |unfold apply_job; rewrite Hkind, Hjob; exact Hd|exact Hl1|].
  { apply (expired_approval_none k e idx t Hlk). intros aid aidx' a' Haw' Hai' Ha'.
    rewrite Haw in Haw'. injection Haw' as <-. rewrite Hai in Hai'. injection Hai' as <-.
    rewrite Hi in Ha'. by injection Ha' as <-. }
  { unfold charge_budget. by rewrite Hdelta. }
  eexists _, acts. split; [by apply Hstep|].
  unfold k1, closed. rewrite with_task_at_compose. unfold task_status. rewrite <-Hid.
  destruct (closed_views k aidx idx AApproved (t_set_last_event (ev_seq e) ∘ t_resume) t
              (a_id a) a 0 0) as [Htask Happ]; [done|exact Hlk|done|exact Hai|exact Hi|].
  split; [|exact Happ].
  match goal with |- _ <$> task ?x ?y = _ =>
    change (task x y) with
      (task (set_seqs (closed k aidx idx AApproved (t_set_last_event (ev_seq e) ∘ t_resume)) 0 0) y)
  end. by rewrite Htask.
Qed.

Lemma kernel_grant_releases_witness :
  ∃ k' acts,
    step demo_waiting demo_grant = Some (k', AppendEvent (Some 7) :: RunTool 3 :: acts) ∧
    task_status k' 7 = Some TRunning ∧ approval_status k' 1 = Some AApproved.
Proof.
  apply (kernel_grant_releases demo_policy (rev demo_events) demo_waiting demo_grant 7
           (demo_task demo_waiting) (mkApproval 1 7 (Some 3) APending (mkOp (Some 55)) 301000) 3
           (reach_after demo_policy demo_events)); try (vm_compute; reflexivity).
  - apply (bool_decide_unpack _). vm_compute. exact I.
  - split; vm_compute; congruence.
Defined.

Lemma step_approvals_length k e k' acts :
  kernel_inv k → step k e = Some (k', acts) → (length (approvals k) ≤ length (approvals k'))%nat.
Proof.
  intros Hk Hs. destruct (step_approvals _ _ _ _ Hk Hs); rewrite ?length_alter, ?length_app; lia.
Qed.

(** A resolved approval is not touched by a step. *)
Lemma step_approval_final k e k' acts i a :
  kernel_inv k → step k e = Some (k', acts) → Z.of_nat (length (approvals k)) < u128_MAX →
  approvals k !! i = Some a → is_resolved (a_status a) = true → approvals k' !! i = Some a.
Proof.
  intros Hk Hs Hlt Ha Hres. destruct (step_approvals _ _ _ _ Hk Hs) as [|aidx a' s Ha' _ Hp _|].
  - done.
  - rewrite list_lookup_alter_ne; [done|]. intros ->. rewrite Ha in Ha'. simplify_eq.
    by rewrite Hp in Hres.
  - by apply lookup_app_l_Some.
Qed.

Lemma run_approvals_length p h k es k' actss :
  reach p h k → run k es = Some (k', actss) → (length (approvals k) ≤ length (approvals k'))%nat.
Proof.
  revert h k actss. induction es as [|e es IH]; intros h k actss Hr Hrun; simpl in Hrun.
  - by simplify_eq.
  - destruct (step k e) as [[k1 a1]|] eqn:Hs; simpl in Hrun; [|done].
    destruct (run k1 es) as [[k2 a2]|] eqn:Hrun2; simpl in Hrun; [|done]. simplify_eq.
    pose proof (step_approvals_length _ _ _ _ (reach_inv _ _ _ Hr) Hs).
    pose proof (IH _ _ _ (reach_step _ _ _ _ _ _ Hr Hs) Hrun2). lia.
Qed.

(** A decision is final: an approval that was approved, denied or expired keeps its
    entry unchanged through every later run (as long as fewer than [u128::MAX] approvals
    were minted, after which the id counter saturates and ids repeat). *)
Theorem kernel_approval_final p h k es k' actss i a :
  reach p h k → run k es = Some (k', actss) → Z.of_nat (length (approvals k')) < u128_MAX →
  approvals k !! i = Some a → is_resolved (a_status a) = true → approvals k' !! i = Some a.
Proof.
  revert h k actss. induction es as [|e es IH]; intros h k actss Hr Hrun Hlt Ha Hres;
    simpl in Hrun.
  - by simplify_eq.
  - destruct (step k e) as [[k1 a1]|] eqn:Hs; simpl in Hrun; [|done].
    destruct (run k1 es) as [[k2 a2]|] eqn:Hrun2; simpl in Hrun; [|done]. simplify_eq.
    pose proof (reach_inv _ _ _ Hr) as Hk.
    pose proof (step_approvals_length _ _ _ _ Hk Hs).
    pose proof (reach_step _ _ _ _ _ _ Hr Hs) as Hr1.
    pose proof (run_approvals_length _ _ _ _ _ _ Hr1 Hrun2).
    eapply (IH _ _ _ Hr1 Hrun2); [lia| |done].
    eapply step_approval_final; [exact Hk|exact Hs|lia|done..].
Qed.

(** A late, contradicting resolution after the grant. *)
Definition demo_late_deny : Event :=
  with_timestamp
    (with_resolution
       (with_tool_call
          (with_approval (with_task (event_inbound ApprovalResolved 7 AUser) 7) 1) 55)
       Deny) 2500.

Lemma kernel_approval_final_witness :
  let k := kernel_after demo_policy (demo_events ++ [demo_grant]) in
  let a := mkApproval 1 7 (Some 3) AApproved (mkOp (Some 55)) 301000 in
  ∃ k' actss, run k [demo_late_deny] = Some (k', actss) ∧ approvals k' !! 0%nat = Some a.
Proof.
  intros k a. eexists _, _. split; [vm_compute; reflexivity|].
  eapply (kernel_approval_final demo_policy (rev (demo_events ++ [demo_grant])) k
            [demo_late_deny] _ _ 0%nat a (reach_after demo_policy _));
    vm_compute; reflexivity.
Defined.

(** A grant in a history (latest event first): [e] granted the approval entry [a] of
    position [i], and an event that came before [e] requested it; between the two the entry
    was minted, and it was still pending when [e] was applied. *)
Definition granted_after_request (p : PolicySnapshot) (h : list Event) (i : nat)
    (a : ApprovalEntry) : Prop :=
  ∃ later e between e0 before k0,
    h = later ++ e :: between ++ e0 :: before ∧ human_grant e a ∧ request_of p a e0 ∧
    reach p (between ++ e0 :: before) k0 ∧
    approvals k0 !! i = Some (a_set_status APending a).

Lemma granted_later p e h i a :
  granted_after_request p h i a → granted_after_request p (e :: h) i a.
Proof.
  intros (later & e1 & btw & e0 & before & k0 & -> & H). by exists (e :: later), e1, btw, e0, before, k0.
Qed.

(** C4: Only a human approves, and only what was asked before. Every approval of a reachable
    kernel that is [Approved] was approved by an event of the history that an authorized
    user sent, within the deadline, for exactly that approval id and tool call; strictly
    before that event the history holds the request it was minted from, which the policy
    sent to approval; and the entry was still pending when the approving event came. *)
Theorem kernel_approved_by_human p h k i a :
  reach p h k → approvals k !! i = Some a → a_status a = AApproved →
  granted_after_request p h i a.
Proof.
  intros Hr. revert i a.
  induction Hr as [|h k e k' acts Hr IH Hs]; intros i a Ha Hst; [done|].
  destruct (step_approvals _ _ _ _ (reach_inv _ _ _ Hr) Hs) as [|aidx a' s Ha' _ Hp Hg|a' _ Hpd _].
  - apply granted_later. by eapply IH.
  - destruct (decide (aidx = i)) as [->|Hne].
    + rewrite list_lookup_alter_eq, Ha' in Ha. simpl in Ha. simplify_eq. simpl in Hst.
      destruct (Hg Hst) as [Hgrant Hpend]. subst s.
      destruct (reach_requested _ _ _ a' Hr) as (e0 & He0 & Hq);
        [by eapply list_elem_of_lookup_2|].
      apply list_elem_of_split in He0 as (between & before & ->).
      exists [], e, between, e0, before, k. split; [done|].
      split; [by destruct Hgrant|]. split; [by apply request_of_status|].
      split; [done|]. rewrite Ha'. destruct a'; simpl in *. by subst.
    + rewrite list_lookup_alter_ne in Ha by done. apply granted_later. by eapply IH.
  - apply lookup_app_Some in Ha as [Ha|[Hlen Ha]]; [apply granted_later; by eapply IH|].
    apply list_lookup_singleton_Some in Ha as [_ ->]. congruence.
Qed.

Lemma kernel_approved_by_human_witness :
  granted_after_request demo_policy (rev (demo_events ++ [demo_grant])) 0
    (mkApproval 1 7 (Some 3) AApproved (mkOp (Some 55)) 301000).
Proof.
  apply (kernel_approved_by_human demo_policy _ _ 0%nat _
           (reach_after demo_policy (demo_events ++ [demo_grant])));
    vm_compute; reflexivity.
Defined.

(** ** Budgets *)

(** The budget pause: a fresh event for a live task that is not waiting for an
    approval, whose cost takes some axis over its limit, stores the recorded budget, moves
    the task to [Blocked(BudgetExhausted)] on the first axis over its limit and does
    nothing else: no job changes, no effect and no model request is released. *)
Theorem kernel_budget_pause p h k e tid t d axis :
  reach p h k → task k tid = Some t → task_is_terminal (t_status t) = false →
  t_status t ≠ TAwaitingApproval →
  ev_task_id e = Some tid → ev_kind e ≠ TaskCreated → is_replay k e = false →
  ev_budget_delta e = Some d → (record (t_budget t) d).2 = Exhausted axis →
  ∃ k', step k e = Some (k', [AppendEvent (Some tid)]) ∧
    task_status k' tid = Some TBlocked ∧ block_reason k' tid = Some (BudgetExhausted axis) ∧
    budget k' tid = Some (record (t_budget t) d).1 ∧
    jobs k' = jobs k ∧ approvals k' = approvals k ∧ ready k' = ready k.
Proof.
  intros Hr Ht Hlive Hna Htid Hkind Hrep Hd Hex. pose proof (reach_inv _ _ _ Hr) as Hk.
  destruct (step_live k e tid t Ht) as (idx & Hidx & Hlk & Hid & Hstep); try done.
  set (f := t_set_last_event (ev_seq e) ∘ t_block (BudgetExhausted axis) ∘ charged e).
  assert (process_live k e tid idx = Some (with_task_at k idx f, [])) as Hp.
  { unfold process_live, expired_approval. rewrite Hlk. simpl.
    rewrite (bool_decide_false (t_status t = TAwaitingApproval)) by done. simpl.
    assert (charge_check e t = Some axis) as Hc
      by (unfold charge_check; rewrite Hd; cbn [mbind option_bind]; by rewrite Hex).
    rewrite (charge_budget_spec _ _ _ _ Hlk), Hc. simpl. unfold set_blocked.
    erewrite upd_task_with by (apply with_task_at_lookup; exact Hlk). simpl.
    rewrite with_task_at_compose.
    erewrite upd_task_with by (apply with_task_at_lookup; exact Hlk). simpl.
    by rewrite with_task_at_compose. }
  eexists. split; [by apply Hstep|].
  assert (t_id (f t) = t_id t) as Hfid by (unfold f; simpl; apply charged_id).
  pose proof (task_alter k idx t f (t_id t) Hk Hlk Hfid) as Hta. rewrite decide_True in Hta by done.
  unfold task_status, block_reason, budget. rewrite <-Hid.
  change (task (set_seqs (with_task_at k idx f) _ _)) with
    (task (set_tasks k (alter f idx (tasks k)))). rewrite Hta.
  do 2 (split; [done|]). split; [|done]. unfold f, charged. simpl. by rewrite Hd.
Qed.

Definition demo_running : list Event := take 4 demo_events.
Definition demo_cost : BudgetDelta := BudgetDelta_of Tokens 1000001.
Definition demo_spend : Event :=
  with_budget_delta (with_job (with_task (event_inbound ModelOutputReceived 5 AModel) 7) 3)
    demo_cost.

Lemma kernel_budget_pause_witness :
  let k := kernel_after demo_policy demo_running in
  ∃ k', step k demo_spend = Some (k', [AppendEvent (Some 7)]) ∧
    task_status k' 7 = Some TBlocked ∧ block_reason k' 7 = Some (BudgetExhausted Tokens) ∧
    budget k' 7 = Some (record (t_budget (demo_task k)) demo_cost).1 ∧
    jobs k' = jobs k ∧ approvals k' = approvals k ∧ ready k' = ready k.
Proof.
  intros k.
  apply (kernel_budget_pause demo_policy (rev demo_running) k demo_spend 7 (demo_task k)
           demo_cost Tokens (reach_after demo_policy demo_running));
    try (vm_compute; reflexivity); vm_compute; discriminate.
Defined.

(** ** Resuming a paused task *)

(** A pause is recoverable: a fresh steer for a [Blocked] task, whatever the reason of
    the block, resumes it to [Running] and clears the reason (unless the steer itself
    exhausts the budget). *)
Theorem kernel_steer_resumes p h k e tid t :
  reach p h k → task k tid = Some t → t_status t = TBlocked → is_replay k e = false →
  ev_task_id e = Some tid → ev_kind e = UserSteerReceived →
  charge_check e t = None →
  ∃ k' acts, step k e = Some (k', acts) ∧ task_status k' tid = Some TRunning ∧
    block_reason k' tid = None.
Proof.
  intros Hr Ht Hst Hrep Htid Hkind Hch. pose proof (reach_inv _ _ _ Hr) as Hk.
  destruct (step_live k e tid t Ht) as (idx & Hidx & Hlk & Hid & Hstep); try done;
    [by rewrite Hst|by rewrite Hkind|].
  destruct (apply_job_spec (with_task_at k idx (charged e)) e) as (js & r & Haj & _).
  set (f := t_unblock TRunning ∘ charged e).
  set (k1 := with_task_at (with_jobs (with_task_at k idx (charged e)) js r) idx
               (t_unblock TRunning)).
  pose proof (with_task_at_lookup k idx (charged e) t Hlk) as Hl0.
  assert (tasks k1 !! idx = Some (f t)) as Hl1
    by (exact (with_task_at_lookup (with_jobs (with_task_at k idx (charged e)) js r) idx
                 (t_unblock TRunning) (charged e t) Hl0)).
  assert (dispatch (with_jobs (with_task_at k idx (charged e)) js r) e idx = Some (k1, []))
    as Hd.
  { unfold dispatch, with_jobs. cbn [tasks set_ready set_jobs]. rewrite Hl0.
    cbn [mbind option_bind]. rewrite Hkind, charged_status, Hst.
    cbv beta iota delta [task_next task_is_terminal set_task_status].
    rewrite bool_decide_false by done. erewrite upd_task_with; [done|]. exact Hl0. }
  destruct (process_live_normal k e tid idx (with_task_at k idx (charged e)) k1 [] (f t))
    as (r' & acts & Hp).
  - apply (expired_approval_none k e idx t Hlk). intros aid aidx a Haw.
    destruct (task_ok_at _ _ _ Hk Hlk) as (_ & Hw & _).
    rewrite Hst in Hw. destruct Hw as [_ Hw]. by discriminate Hw.
  - by rewrite (charge_budget_spec _ _ _ _ Hlk), Hch.
  - rewrite Haj. exact Hd.
  - exact Hl1.
  - eexists _, _. split; [by apply Hstep|].
    assert (t_id (t_set_last_event (ev_seq e) (f t)) = t_id t) as Hfid by (apply charged_id).
    pose proof (task_alter k idx t (t_set_last_event (ev_seq e) ∘ f) (t_id t) Hk Hlk Hfid) as Hta.
    rewrite decide_True in Hta by done. unfold task_status, block_reason. rewrite <-Hid.
    match goal with |- context [task ?x (t_id t)] =>
      replace (task x (t_id t)) with (Some (t_set_last_event (ev_seq e) (f t))) end; [done|].
    symmetry. etrans; [|exact Hta]. unfold task, k1. simpl. by rewrite !list_alter_alter_eq.
Qed.

Definition demo_steer (s : EventSeq) : Event :=
  with_task (event_inbound UserSteerReceived s AUser) 7.

Lemma kernel_steer_resumes_witness :
  let k := kernel_after demo_policy (demo_events ++ [demo_kill 6 999999]) in
  ∃ k' acts, step k (demo_steer 7) = Some (k', acts) ∧ task_status k' 7 = Some TRunning ∧
    block_reason k' 7 = None.
Proof.
  intros k.
  apply (kernel_steer_resumes demo_policy _ k (demo_steer 7) 7 (demo_task k)
           (reach_after demo_policy (demo_events ++ [demo_kill 6 999999])));
    vm_compute; reflexivity.
Defined.

(** ** Two behaviours worth knowing *)

(** A kill that arrives after the deadline of a pending approval is lost: the expiry
    sweep returns before the transition table is consulted, so a user's [TaskKilled] for
    an [AwaitingApproval] task leaves it [Blocked], not [Killed], its job stays leased, and
    a later steer sets the task running again. *)
Theorem kernel_kill_lost_at_expiry :
  ∃ k1 k2 a1 a2,
    task_status demo_waiting 7 = Some TAwaitingApproval ∧
    step demo_waiting (demo_kill 6 999999) = Some (k1, a1) ∧
    task_status k1 7 = Some TBlocked ∧ job_status k1 3 = Some JLeased ∧
    step k1 (demo_steer 7) = Some (k2, a2) ∧ task_status k2 7 = Some TRunning.
Proof.
  exists (step_or demo_waiting (demo_kill 6 999999)).1.
  exists (step_or (step_or demo_waiting (demo_kill 6 999999)).1 (demo_steer 7)).1.
  exists (step_or demo_waiting (demo_kill 6 999999)).2.
  exists (step_or (step_or demo_waiting (demo_kill 6 999999)).1 (demo_steer 7)).2.
  do 5 (refine (conj _ _); [first [apply step_or_eq | vm_compute; reflexivity]|]).
  vm_compute. reflexivity.
Qed.

(** Task 8 runs beside task 7. *)
Definition demo_two : Kernel :=
  kernel_after demo_policy (demo_running ++ [event_task_created 5 AUser 8 standard_task]).

(** A job event is not tied to the task of its job: an event that names task 8 and the
    leased job 3 of task 7 completes job 3, because [apply_job] looks the job up by its id
    alone. *)
Theorem kernel_foreign_job_event :
  ∃ k' acts,
    step demo_two (with_job (with_task (event_inbound ToolCallCompleted 6 AModel) 8) 3)
      = Some (k', acts) ∧
    (j_task <$> job demo_two 3) = Some 7 ∧ job_status demo_two 3 = Some JLeased ∧
    job_status k' 3 = Some JCompleted.
Proof.
  do 2 eexists. do 3 (refine (conj _ _); [first [apply step_or_eq | vm_compute; reflexivity]|]).
  vm_compute. reflexivity.
Qed.
