(* ===== verification/Flow.v ===== *)
(** * The flow engine (crate [crustcore-flow])

    [graph.rs] (nodes, typed state, validation), [predicate.rs], [budget.rs],
    [builder.rs], [drivers.rs] (the injected drivers, as a class), [outcome.rs]
    and [engine.rs] (the scheduler). Text is UTF-8 bytes. A [BTreeMap] is a gmap,
    or an association list sorted by key where the code walks it in order.

    The scheduler threads [&mut FlowState], [&mut FlowUsage] and the drivers'
    own world through an error monad. [run_from] has fuel for the calls in
    flight; [None] is running out of it, and [FlowTheorems.v] proves how much
    fuel is enough. *)

From S2P Require Import Prelude Text Redactor Types Policy.

Abbreviation NodeId := Z (only parsing).

(** ** Predicates and typed state *)

Inductive Predicate :=
| Flag (key : bytes)
| CounterAtLeast (key : bytes) (min : Z)
| OutputPresent (key : bytes)
| Not (inner : Predicate)
| And (a b : Predicate)
| Or (a b : Predicate)
| Always (v : bool).

Record FlowState := mkFlowState {
  outputs : gmap bytes bytes;
  flags : gmap bytes bool;
  counters : gmap bytes Z;
  fapprovals : list (Approved unit) }.

Definition FlowState_new : FlowState := mkFlowState ∅ ∅ ∅ [].

(** [set_output], [output], [set_flag], [flag], [set_counter], [counter], [add_approval],
    [has_valid_approval]. *)
Definition set_output (st : FlowState) (k v : bytes) : FlowState :=
  mkFlowState (<[k := v]> (outputs st)) (flags st) (counters st) (fapprovals st).
Definition output (st : FlowState) (k : bytes) : option bytes := outputs st !! k.
Definition set_flag (st : FlowState) (k : bytes) (v : bool) : FlowState :=
  mkFlowState (outputs st) (<[k := v]> (flags st)) (counters st) (fapprovals st).
Definition flag (st : FlowState) (k : bytes) : bool := default false (flags st !! k).
Definition set_counter (st : FlowState) (k : bytes) (v : Z) : FlowState :=
  mkFlowState (outputs st) (flags st) (<[k := v]> (counters st)) (fapprovals st).
Definition counter (st : FlowState) (k : bytes) : Z := default 0 (counters st !! k).
Definition add_approval (st : FlowState) (a : Approved unit) : FlowState :=
  mkFlowState (outputs st) (flags st) (counters st) (fapprovals st ++ [a]).
Definition has_valid_approval (st : FlowState) (now_millis : Z) : bool :=
  existsb (λ a, is_valid_at a now_millis) (fapprovals st).

(** [Predicate::eval]. *)
Fixpoint eval (p : Predicate) (st : FlowState) : bool :=
  match p with
  | Flag k => flag st k
  | CounterAtLeast k min => min <=? counter st k
  | OutputPresent k => bool_decide (is_Some (output st k))
  | Not inner => negb (eval inner st)
  | And a b => eval a st && eval b st
  | Or a b => eval a st || eval b st
  | Always v => v
  end.

Definition MAX_OUTPUT_BYTES : nat := N.to_nat (8 * 1024).

(** [declassify]: redact, then truncate on a char boundary. *)
Definition declassify (raw : bytes) (redactor : Redactor) : bytes :=
  let s := redact redactor raw in
  if decide (length s ≤ MAX_OUTPUT_BYTES)%nat then s
  else take (floor_char_boundary s MAX_OUTPUT_BYTES) s.

(** ** The graph *)

Record ToolSpec := mkToolSpec {
  tool_name : bytes;
  tool_reversibility : Reversibility;
  execution_capable : bool }.

(** [ToolSpec::fail_closed], [ToolSpec::requires_approval]. *)
Definition ToolSpec_fail_closed (name : bytes) : ToolSpec := mkToolSpec name Destructive true.
Definition tool_requires_approval (s : ToolSpec) : bool := requires_approval (tool_reversibility s).

Inductive Node :=
| NModel (prompt out_key : bytes) (next : NodeId)
| NTool (spec : ToolSpec) (args out_key : bytes) (next : NodeId)
| NVerify (on_fail : NodeId)
| NReview (out_key : bytes) (next : NodeId)
| NParallel (children : list NodeId) (max_concurrency : nat) (join : NodeId)
| NLoopUntil (body : NodeId) (until : Predicate) (max_iterations : Z) (next : NodeId)
| NRoute (predicate : Predicate) (if_true if_false : NodeId)
| NJoin (next : NodeId)
| NEnd.

Inductive FlowError :=
| UnknownNode (id : NodeId)
| NoEntry
| ApprovalRequired (id : NodeId)
| FPolicyDenied (id : NodeId) (reason : string)
| DriverErr (reason : bytes)
| BudgetExceeded (axis : string)
| StepCapExceeded.

(** [Flow]: the node map in key order, and the entry. *)
Record Flow := mkFlow { nodes : list (NodeId * Node); entry : NodeId }.

(** [Flow::node]. *)
Definition node (f : Flow) (id : NodeId) : option Node := bt_get (nodes f) id.

(** [node_targets]. *)
Definition node_targets (n : Node) : list NodeId :=
  match n with
  | NModel _ _ next | NReview _ next | NJoin next => [next]
  | NTool _ _ _ next => [next]
  | NVerify on_fail => [on_fail]
  | NParallel children _ join => children ++ [join]
  | NLoopUntil body _ _ next => [body; next]
  | NRoute _ t f => [t; f]
  | NEnd => []
  end.

(** [Flow::validate]: the first unknown target in key order. *)
Definition validate (f : Flow) : result FlowError unit :=
  match bt_get (nodes f) (entry f) with
  | None => Err NoEntry
  | Some _ =>
      match find (λ id, negb (bool_decide (is_Some (bt_get (nodes f) id))))
              (nodes f ≫= λ p, node_targets p.2) with
      | Some id => Err (UnknownNode id)
      | None => Ok tt
      end
  end.

(** ** The builder *)

Record FlowBuilder := mkBuilder
  { b_nodes : list (NodeId * Node); b_next_id : Z; b_entry : option NodeId }.

Definition FlowBuilder_new : FlowBuilder := mkBuilder [] 0 None.

(** [FlowBuilder::reserve]: [None] is the overflow panic of a debug build. *)
Definition reserve (b : FlowBuilder) : option (FlowBuilder * NodeId) :=
  if decide (b_next_id b + 1 ≤ u32_MAX)
  then Some (mkBuilder (b_nodes b) (b_next_id b + 1) (b_entry b), b_next_id b) else None.
Definition b_set_entry (b : FlowBuilder) (id : NodeId) : FlowBuilder :=
  mkBuilder (b_nodes b) (b_next_id b) (Some id).
(** The node constructors insert under their id; [parallel] raises a zero width to one. *)
Definition b_define (b : FlowBuilder) (id : NodeId) (n : Node) : FlowBuilder :=
  let n := match n with NParallel cs w j => NParallel cs (Nat.max w 1) j | _ => n end in
  mkBuilder (bt_insert (b_nodes b) id n) (b_next_id b) (b_entry b).
Definition b_tool_fail_closed (b : FlowBuilder) (id : NodeId) (name args out_key : bytes)
    (next : NodeId) : FlowBuilder :=
  b_define b id (NTool (ToolSpec_fail_closed name) args out_key next).
(** [FlowBuilder::build]. *)
Definition build (b : FlowBuilder) : result FlowError Flow :=
  match b_entry b with
  | None => Err NoEntry
  | Some e => let f := mkFlow (b_nodes b) e in _ ← validate f; Ok f
  end.

(** ** Budgets *)

Record FlowBudget := mkFlowBudget {
  max_model_cost : Z;
  max_wall_ms : Z;
  max_steps : Z;
  max_total_fanout : Z }.

Definition FlowBudget_fail_closed : FlowBudget := mkFlowBudget 0 0 64 0.

Inductive BudgetBreach := BModelCost | BWall | BSteps | BFanout.

(** [BudgetBreach::axis]. *)
Definition breach_axis (b : BudgetBreach) : string :=
  match b with
  | BModelCost => "model cost" | BWall => "wall time" | BSteps => "steps"
  | BFanout => "total fan-out"
  end.

Record FlowUsage := mkUsage { model_cost : Z; wall_ms : Z; steps : Z; fanout : Z }.
Definition FlowUsage_default : FlowUsage := mkUsage 0 0 0 0.

(** [charge_step], [charge_model], [charge_wall], [charge_fanout]. *)
Definition charge_step (u : FlowUsage) (b : FlowBudget) : result BudgetBreach FlowUsage :=
  let next := saturating_add u32_MAX (steps u) 1 in
  if max_steps b <? next then Err BSteps
  else Ok (mkUsage (model_cost u) (wall_ms u) next (fanout u)).
Definition charge_model (u : FlowUsage) (cost : Z) (b : FlowBudget)
    : result BudgetBreach FlowUsage :=
  let next := saturating_add u64_MAX (model_cost u) cost in
  if max_model_cost b <? next then Err BModelCost
  else Ok (mkUsage next (wall_ms u) (steps u) (fanout u)).
Definition charge_wall (u : FlowUsage) (ms : Z) (b : FlowBudget)
    : result BudgetBreach FlowUsage :=
  let next := saturating_add u64_MAX (wall_ms u) ms in
  if max_wall_ms b <? next then Err BWall
  else Ok (mkUsage (model_cost u) next (steps u) (fanout u)).
Definition charge_fanout (u : FlowUsage) (n : Z) (b : FlowBudget)
    : result BudgetBreach FlowUsage :=
  let next := saturating_add u32_MAX (fanout u) n in
  if max_total_fanout b <? next then Err BFanout
  else Ok (mkUsage (model_cost u) (wall_ms u) (steps u) next).

(** ** Drivers and outcomes *)

Inductive VerifyOutcome (P : Type) :=
| Verified (patch : P)
| VFailed (status : Z) (output : bytes)
| VRefused (reason : bytes).
Arguments Verified {P} _.
Arguments VFailed {P} _ _.
Arguments VRefused {P} _.

Inductive FlowOutcome (P : Type) := Completed (patch : P) | Finished.
Arguments Completed {P} _.
Arguments Finished {P}.

(** The four driver traits, over the world [W] the drivers act on and the patches [P] the
    verifier mints. *)
Class FlowDrivers (W P : Type) := {
  run_model : bytes → W → result bytes (bytes * Z) * W;
  run_tool : ToolSpec → bytes → W → result bytes bytes * W;
  verify_driver : W → VerifyOutcome P * W;
  review_driver : W → result bytes bytes * W }.

(** ** The engine *)

Record FlowEngine := mkEngine { e_policy : PolicySnapshot; e_redactor : Redactor; e_now : Z }.

(** [FlowEngine::gate_tool]. *)
Definition gate_tool (en : FlowEngine) (id : NodeId) (spec : ToolSpec) (st : FlowState)
    : result FlowError unit :=
  match classify (e_policy en) (tool_reversibility spec) with
  | PAllow =>
      if tool_requires_approval spec && negb (has_valid_approval st (e_now en))
      then Err (ApprovalRequired id) else Ok tt
  | PRequireApproval _ =>
      if has_valid_approval st (e_now en) then Ok tt else Err (ApprovalRequired id)
  | PDeny reason => Err (FPolicyDenied id reason)
  end.

Record FS (W : Type) := mkFS { fs_state : FlowState; fs_usage : FlowUsage; fs_world : W }.
Arguments mkFS {W} _ _ _.
Arguments fs_state {W} _.
Arguments fs_usage {W} _.
Arguments fs_world {W} _.

Definition M (W A : Type) : Type := FS W → option (result FlowError A * FS W).
#[export] Instance M_ret W : MRet (M W) := λ A a s, Some (Ok a, s).
#[export] Instance M_bind W : MBind (M W) := λ A B f c s,
  match c s with
  | Some (Ok a, s') => f a s'
  | Some (Err e, s') => Some (Err e, s')
  | None => None
  end.

(** The primitive actions: out of fuel, raising, reading and writing the state, charging
    the usage, calling a driver. *)
Definition out_of_fuel {W A} : M W A := λ s, None.
Definition lift {W A} (r : result FlowError A) : M W A := λ s, Some (r, s).
Definition get_state {W} : M W FlowState := λ s, Some (Ok (fs_state s), s).
Definition put_state {W} (f : FlowState → FlowState) : M W unit :=
  λ s, Some (Ok tt, mkFS (f (fs_state s)) (fs_usage s) (fs_world s)).
Definition charge {W} (c : FlowUsage → result BudgetBreach FlowUsage)
    (err : BudgetBreach → FlowError) : M W unit :=
  λ s, match c (fs_usage s) with
       | Ok u => Some (Ok tt, mkFS (fs_state s) u (fs_world s))
       | Err b => Some (Err (err b), s)
       end.
Definition call {W A} (f : W → A * W) : M W A :=
  λ s, let '(a, w) := f (fs_world s) in Some (Ok a, mkFS (fs_state s) (fs_usage s) w).

Fixpoint foreach {W A} (l : list A) (f : A → M W unit) : M W unit :=
  match l with
  | [] => mret tt
  | x :: l' => _ ← f x; foreach l' f
  end.

(** [children.chunks(width)]; the length is enough fuel for a positive width. *)
Fixpoint waves_fuel {A} (fuel width : nat) (l : list A) : list (list A) :=
  match fuel, l with
  | S fuel', _ :: _ => take width l :: waves_fuel fuel' width (drop width l)
  | _, _ => []
  end.
Definition waves {A} (width : nat) (l : list A) : list (list A) := waves_fuel (length l) width l.

Section Engine.
Context {W P : Type} {D : FlowDrivers W P}.
Context (en : FlowEngine) (flow : Flow) (b : FlowBudget).

Definition over_budget (br : BudgetBreach) : FlowError := BudgetExceeded (breach_axis br).

(** [map_err(|e| FlowError::Driver(e.0))]. *)
Definition driver_result {A} (r : result bytes A) : M W A := lift (map_err DriverErr r).

(** Record an untrusted output. *)
Definition record_output (out_key raw : bytes) : M W unit :=
  put_state (λ st, set_output st out_key (declassify raw (e_redactor en))).

(** [run_subgraph], over the recursive call. *)
Definition run_subgraph (rec : NodeId → M W (FlowOutcome P)) (start : NodeId)
    : M W (option (FlowOutcome P)) :=
  o ← rec start;
  match o with
  | Completed p => mret (Some (Completed p))
  | Finished => mret None
  end.

(** [run_parallel]. *)
Definition PARALLEL_ERROR : bytes :=
  lit "a verify completion inside a parallel child is not a valid plan; completion is reserved for the top-level verify path".
Definition run_parallel (rec : NodeId → M W (FlowOutcome P)) (children : list NodeId)
    (max_concurrency : nat) : M W unit :=
  let n := Z.min (Z.of_nat (length children)) u32_MAX in
  _ ← charge (λ u, charge_fanout u n b) over_budget;
  let width := Nat.max max_concurrency 1 in
  foreach (waves width children) (λ wave,
    foreach wave (λ child,
      o ← run_subgraph rec child;
      match o with
      | Some _ => lift (Err (DriverErr PARALLEL_ERROR))
      | None => mret tt
      end)).

(** The [while] of a [LoopUntil] node, with [n] iterations left; the number of iterations
    done, or the completion of the flow inside the body. *)
Fixpoint loop_until (rec : NodeId → M W (FlowOutcome P)) (body : NodeId) (until : Predicate)
    (n : nat) (iter : Z) : M W (Z + FlowOutcome P) :=
  match n with
  | O => mret (inl iter)
  | S n' =>
      st ← get_state;
      if eval until st then mret (inl iter) else
      o ← run_subgraph rec body;
      match o with
      | Some done => mret (inr done)
      | None => loop_until rec body until n' (iter + 1)
      end
  end.

Definition LOOP_ITERATIONS : bytes := lit "__loop_iterations".

(** [run_from]: one iteration of its loop per unit of fuel. *)
Fixpoint run_from (fuel : nat) (current : NodeId) : M W (FlowOutcome P) :=
  match fuel with
  | O => out_of_fuel
  | S fuel' =>
      _ ← charge (λ u, charge_step u b) (λ _, StepCapExceeded);
      n ← lift (ok_or (node flow current) (UnknownNode current));
      match n with
      | NModel prompt out_key next =>
          r ← call (run_model prompt);
          '(raw, cost) ← driver_result r;
          _ ← charge (λ u, charge_model u cost b) over_budget;
          _ ← record_output out_key raw;
          run_from fuel' next
      | NTool spec args out_key next =>
          st ← get_state;
          _ ← lift (gate_tool en current spec st);
          r ← call (run_tool spec args);
          raw ← driver_result r;
          _ ← record_output out_key raw;
          run_from fuel' next
      | NVerify on_fail =>
          o ← call verify_driver;
          match o with
          | Verified p => mret (Completed p)
          | VFailed _ _ | VRefused _ => run_from fuel' on_fail
          end
      | NReview out_key next =>
          r ← call review_driver;
          raw ← driver_result r;
          _ ← record_output out_key raw;
          run_from fuel' next
      | NParallel children width join =>
          _ ← run_parallel (run_from fuel') children width;
          run_from fuel' join
      | NLoopUntil body until max_iterations next =>
          r ← loop_until (run_from fuel') body until (Z.to_nat max_iterations) 0;
          match r with
          | inr done => mret done
          | inl iter =>
              _ ← put_state (λ st, set_counter st LOOP_ITERATIONS iter);
              run_from fuel' next
          end
      | NRoute predicate if_true if_false =>
          st ← get_state;
          run_from fuel' (if eval predicate st then if_true else if_false)
      | NJoin next => run_from fuel' next
      | NEnd => mret Finished
      end
  end.

(** [FlowEngine::run]: the outcome with the final state and usage. *)
Definition run_flow (fuel : nat) : M W (FlowOutcome P) :=
  _ ← lift (validate flow);
  _ ← (λ s, Some (Ok tt, mkFS (fs_state s) FlowUsage_default (fs_world s)) : option (result FlowError unit * FS W));
  run_from fuel (entry flow).

End Engine.
