(* ===== verification/Std.v ===== *)
(** * The standard library's text, number and map routines

    What several components use of Rust's standard library and the prelude does not have:
    lossy UTF-8 decoding, decimal formatting, updating and removing the entries of an
    ordered map. Strings are their UTF-8 bytes, as in [Text]. *)

From Stdlib Require Import Sorted.
From S2P Require Import Prelude Text.

(** ** Integers *)

(** [x.saturating_sub(y)] and [x.wrapping_add(y)] of unsigned integers of [w] bits. *)
Definition saturating_sub (x y : Z) : Z := Z.max 0 (x - y).
Definition wrapping_add (w x y : Z) : Z := (x + y) mod 2 ^ w.
Definition i64_MIN : Z := - 2 ^ 63.
Definition i64_MAX : Z := 2 ^ 63 - 1.

(** The value of [64] bits read as two's complement. *)
Definition signed64 (v : Z) : Z := if v <? 2 ^ 63 then v else v - 2 ^ 64.

(** ** Decimal formatting: [format!("{}", n)] *)
Fixpoint dec_fuel (fuel : nat) (n : Z) : bytes :=
  match fuel with
  | O => []
  | S fuel' => if n <? 10 then [48 + n] else dec_fuel fuel' (n / 10) ++ [48 + n mod 10]
  end.
(** A division by ten removes more than three bits: one digit per bit is enough fuel. *)
Definition dec_u (n : Z) : bytes := dec_fuel (S (Z.to_nat (Z.log2 n))) n.
Definition dec_i (n : Z) : bytes := if n <? 0 then 45 :: dec_u (- n) else dec_u n.

(** ** Lossy decoding: [String::from_utf8_lossy] *)

Definition REPLACEMENT : bytes := [239; 191; 189].

(** Where [utf8_head] fails: the length of the longest prefix of a well-formed sequence at
    the head of [s], at least one byte; it is replaced by one replacement character. *)
Definition lead3 (b0 b1 : Z) : bool :=
  (b0 =? 224) && in_range 160 191 b1 || in_range 225 236 b0 && is_cont b1
  || (b0 =? 237) && in_range 128 159 b1 || in_range 238 239 b0 && is_cont b1.
Definition lead4 (b0 b1 : Z) : bool :=
  (b0 =? 240) && in_range 144 191 b1 || in_range 241 243 b0 && is_cont b1
  || (b0 =? 244) && in_range 128 143 b1.
Definition broken_len (s : bytes) : nat :=
  match s with
  | b0 :: b1 :: s2 =>
      if lead3 b0 b1 then 2%nat
      else if lead4 b0 b1 then
        match s2 with b2 :: _ => if is_cont b2 then 3%nat else 2%nat | [] => 2%nat end
      else 1%nat
  | _ => 1%nat
  end.

Fixpoint lossy_fuel (fuel : nat) (s : bytes) : bytes :=
  match s, fuel with
  | [], _ | _, O => []
  | _, S fuel' =>
      match utf8_head s with
      | Some n => take n s ++ lossy_fuel fuel' (drop n s)
      | None => REPLACEMENT ++ lossy_fuel fuel' (drop (broken_len s) s)
      end
  end.
Definition from_utf8_lossy (s : bytes) : bytes := lossy_fuel (length s) s.

(** ** Ordered maps: [get_mut] with an update, [remove] *)
Definition bt_adjust {A} (f : A → A) (k : Z) (m : list (Z * A)) : list (Z * A) :=
  (λ p, if p.1 =? k then (p.1, f p.2) else p) <$> m.
Definition bt_remove {A} (k : Z) (m : list (Z * A)) : list (Z * A) :=
  filter (λ p, p.1 ≠ k) m.
(** The keys in the order of the map. *)
Definition bt_sorted {A} (m : list (Z * A)) : Prop := StronglySorted Z.lt m.*1.

(** ** Lemmas *)

Lemma signed64_mod v : i64_MIN ≤ v ≤ i64_MAX → signed64 (v mod 2 ^ 64) = v.
Proof.
  unfold i64_MIN, i64_MAX, signed64. intros Hv. destruct (Z.ltb_spec v 0).
  - assert (v mod 2 ^ 64 = v + 2 ^ 64) as -> by (symmetry; apply Z.mod_unique with (-1); lia).
    destruct (Z.ltb_spec (v + 2 ^ 64) (2 ^ 63)); lia.
  - rewrite Z.mod_small by lia. destruct (Z.ltb_spec v (2 ^ 63)); lia.
Qed.

Lemma to_le_bytes_mod n v : to_le_bytes n (v mod 256 ^ Z.of_nat n) = to_le_bytes n v.
Proof.
  revert v. induction n as [|n IH]; intros v; [done|].
  rewrite Nat2Z.inj_succ, Z.pow_succ_r by lia. unfold to_le_bytes; fold to_le_bytes.
  rewrite Z.rem_mul_r by lia. f_equal.
  - by rewrite Z.mul_comm, Z_mod_plus_full, Zmod_mod.
  - rewrite <-(IH (v / 256)). f_equal.
    rewrite (Z.mul_comm 256), Z.div_add by lia.
    rewrite Z.div_small by (apply Z.mod_pos_bound; lia). lia.
Qed.

(** Every well-formed character is at the front of a valid string. *)
Lemma utf8_head_le s n : utf8_head s = Some n → (0 < n ≤ length s)%nat.
Proof.
  intros H. unfold utf8_head in H. utf8_cases H; simpl; lia.
Qed.

Lemma broken_len_pos s : (0 < broken_len s)%nat.
Proof.
  unfold broken_len. destruct s as [|b0 [|b1 s2]]; try lia.
  destruct (lead3 b0 b1), (lead4 b0 b1); try lia. destruct s2 as [|b2 ?]; [lia|].
  destruct (is_cont b2); lia.
Qed.

(** More fuel than bytes changes nothing. *)
Lemma utf8_fuel_enough fuel s :
  (length s ≤ fuel)%nat → utf8_fuel fuel s = is_utf8 s.
Proof.
  unfold is_utf8. revert s.
  assert (∀ f1 f2 s, (length s ≤ f1)%nat → (length s ≤ f2)%nat → utf8_fuel f1 s = utf8_fuel f2 s)
    as Hgen; [|intros s Hs; by apply Hgen].
  induction f1 as [|f1 IH]; intros [|f2] s H1 H2; destruct s as [|b s];
    [done|simpl in *; lia|done|simpl in *; lia|done|simpl in *; lia|done|].
  cbn [utf8_fuel]. destruct (utf8_head (b :: s)) as [n|] eqn:E; [|done].
  apply utf8_head_le in E. apply IH; rewrite length_drop; simpl in *; lia.
Qed.

Lemma is_utf8_step s n :
  utf8_head s = Some n → is_utf8 s = is_utf8 (drop n s).
Proof.
  intros Hn. pose proof (utf8_head_le _ _ Hn) as Hle. unfold is_utf8 at 1.
  destruct s as [|b s]; [simpl in Hle; lia|]. cbn [length utf8_fuel]. rewrite Hn.
  apply utf8_fuel_enough. rewrite length_drop. simpl in *. lia.
Qed.

Lemma is_utf8_nonempty s : is_utf8 s = true → s ≠ [] → ∃ n, utf8_head s = Some n.
Proof.
  unfold is_utf8. destruct s as [|b s]; [done|]. cbn [length utf8_fuel].
  destruct (utf8_head (b :: s)) as [n|]; [eauto|done].
Qed.

(** A valid string is decoded as it is. *)
Lemma lossy_valid s : is_utf8 s = true → from_utf8_lossy s = s.
Proof.
  unfold from_utf8_lossy. assert (length s ≤ length s)%nat as Hf by done. revert Hf.
  generalize (length s) at 2 3. intros fuel. revert s.
  induction fuel as [|fuel IH]; intros s Hf Hs.
  - destruct s; [done|simpl in Hf; lia].
  - destruct s as [|b s]; [done|]. cbn [lossy_fuel].
    destruct (is_utf8_nonempty _ Hs) as [n Hn]; [done|]. rewrite Hn.
    pose proof (utf8_head_le _ _ Hn). rewrite IH; [apply take_drop| |].
    + rewrite length_drop. simpl in *. lia.
    + by rewrite <-(is_utf8_step _ _ Hn).
Qed.

Lemma lossy_fuel_valid fuel s : is_utf8 (lossy_fuel fuel s) = true.
Proof.
  revert s. induction fuel as [|fuel IH]; intros s; destruct s as [|b s]; try done.
  cbn [lossy_fuel]. destruct (utf8_head (b :: s)) as [n|] eqn:E.
  - pose proof (utf8_head_le _ _ E) as Hle. apply utf8_head_take in E.
    assert (length (take n (b :: s)) = n) as Hl by (rewrite length_take; lia).
    set (c := take n (b :: s)) in *. rewrite (is_utf8_step _ (length c)).
    + rewrite drop_app_length. apply IH.
    + apply utf8_head_app. by rewrite Hl.
  - rewrite (is_utf8_step _ 3); [apply IH|]. done.
Qed.

(** Whatever the bytes, the decoded text is valid and at most three times as long. *)
Lemma lossy_is_utf8 s : is_utf8 (from_utf8_lossy s) = true.
Proof. apply lossy_fuel_valid. Qed.

Lemma lossy_length s : (length (from_utf8_lossy s) ≤ 3 * length s)%nat.
Proof.
  unfold from_utf8_lossy. generalize (length s) at 1. intros fuel. revert s.
  induction fuel as [|fuel IH]; intros s; destruct s as [|b s]; [simpl; lia..|].
  cbn [lossy_fuel]. destruct (utf8_head (b :: s)) as [n|] eqn:E.
  - apply utf8_head_le in E. specialize (IH (drop n (b :: s))).
    rewrite length_app, length_take. rewrite length_drop in IH. lia.
  - pose proof (broken_len_pos (b :: s)) as Hp.
    specialize (IH (drop (broken_len (b :: s)) (b :: s))).
    rewrite length_app. change (length REPLACEMENT) with 3%nat.
    rewrite length_drop in IH. cbn [length] in *. lia.
Qed.

Lemma dec_fuel_length k fuel n : 0 ≤ n < 10 ^ Z.of_nat k → (length (dec_fuel fuel n) ≤ Nat.max 1 k)%nat.
Proof.
  revert k n. induction fuel as [|fuel IH]; intros k n Hn; cbn [dec_fuel]; [simpl; lia|].
  destruct (Z.ltb_spec n 10); [simpl; lia|]. rewrite length_app. cbn [length].
  destruct k as [|[|k]]; [simpl in Hn; lia|simpl in Hn; lia|].
  assert (0 ≤ n / 10 < 10 ^ Z.of_nat (S k)) as Hd.
  { split; [apply Z.div_pos; lia|]. apply Z.div_lt_upper_bound; [lia|].
    rewrite <-Z.pow_succ_r by lia. replace (Z.succ (Z.of_nat (S k))) with (Z.of_nat (S (S k))) by lia. apply Hn. }
  specialize (IH (S k) _ Hd). lia.
Qed.
Lemma dec_u_length k n : 0 ≤ n < 10 ^ Z.of_nat k → (length (dec_u n) ≤ Nat.max 1 k)%nat.
Proof. apply dec_fuel_length. Qed.
Lemma dec_fuel_digits fuel n d :
  0 ≤ n → d ∈ dec_fuel fuel n → 48 ≤ d ≤ 57.
Proof.
  revert n. induction fuel as [|fuel IH]; intros n Hn Hd; simpl in Hd; [by apply elem_of_nil in Hd|].
  destruct (Z.ltb_spec n 10).
  - apply list_elem_of_singleton in Hd. lia.
  - apply elem_of_app in Hd as [Hd|Hd]; [eapply IH; [|exact Hd]; apply Z.div_pos; lia|].
    apply list_elem_of_singleton in Hd. pose proof (Z.mod_pos_bound n 10). lia.
Qed.

Lemma dec_u_digits n d : 0 ≤ n → d ∈ dec_u n → 48 ≤ d ≤ 57.
Proof. apply dec_fuel_digits. Qed.

Lemma dec_u_nonempty n : dec_u n ≠ [].
Proof.
  unfold dec_u. simpl. destruct (n <? 10); [done|]. by destruct (dec_fuel _ _).
Qed.

(** *** Ordered maps *)

Lemma bt_adjust_keys {A} f k (m : list (Z * A)) : (bt_adjust f k m).*1 = m.*1.
Proof.
  unfold bt_adjust. induction m as [|[i a] m IH]; [done|]. rewrite !fmap_cons, IH. simpl.
  by destruct (i =? k).
Qed.

Lemma bt_get_adjust {A} f k (m : list (Z * A)) k' :
  bt_get (bt_adjust f k m) k' = if k =? k' then f <$> bt_get m k' else bt_get m k'.
Proof.
  unfold bt_adjust. induction m as [|[i a] m IH]; [by destruct (k =? k')|].
  rewrite fmap_cons. simpl. destruct (Z.eqb_spec i k) as [->|Hi]; rewrite !bt_get_cons, IH.
  - by destruct (k =? k').
  - destruct (Z.eqb_spec i k') as [->|], (Z.eqb_spec k k'); by subst.
Qed.

Lemma bt_insert_keys {A} (m : list (Z * A)) k a k' :
  k' ∈ (bt_insert m k a).*1 ↔ k' = k ∨ k' ∈ m.*1.
Proof.
  induction m as [|[i x] m IH]; cbn [bt_insert]; [rewrite !fmap_cons; set_solver|].
  destruct (Z.eqb_spec k i) as [->|Hi]; [set_solver|].
  destruct (k <? i); rewrite !fmap_cons, !elem_of_cons; [set_solver|]. rewrite IH. set_solver.
Qed.

Lemma bt_insert_sorted {A} (m : list (Z * A)) k a :
  bt_sorted m → bt_sorted (bt_insert m k a).
Proof.
  unfold bt_sorted. induction m as [|[i x] m IH]; cbn [bt_insert]; intros Hs;
    [repeat constructor|]. rewrite fmap_cons in Hs. apply StronglySorted_inv in Hs as [Hs Hi].
  simpl in Hi. destruct (Z.eqb_spec k i) as [->|Hne]; [by constructor|].
  destruct (Z.ltb_spec k i); rewrite !fmap_cons; simpl.
  - constructor; [by constructor|]. constructor; [done|].
    eapply Forall_impl; [exact Hi|]. intros j Hj. cbv beta in Hj. lia.
  - constructor; [by apply IH|]. apply Forall_forall. intros j [->|Hj]%bt_insert_keys; [lia|].
    rewrite Forall_forall in Hi. by apply Hi.
Qed.

Lemma bt_insert_fresh_length {A} (m : list (Z * A)) k a :
  k ∉ m.*1 → length (bt_insert m k a) = S (length m).
Proof.
  induction m as [|[i x] m IH]; cbn [bt_insert]; [done|]. rewrite fmap_cons, not_elem_of_cons.
  simpl. intros [Hk Hm]. rewrite (proj2 (Z.eqb_neq k i) Hk). destruct (k <? i); [done|].
  simpl. by rewrite IH.
Qed.

Lemma bt_insert_elem {A} (m : list (Z * A)) k a p :
  p ∈ bt_insert m k a → p = (k, a) ∨ p ∈ m.
Proof.
  induction m as [|[i x] m IH]; cbn [bt_insert]; [set_solver|].
  destruct (Z.eqb_spec k i) as [->|Hi]; [set_solver|].
  destruct (k <? i); [set_solver|]. rewrite !elem_of_cons. intros [?|?%IH]; tauto.
Qed.

Lemma bt_get_keys {A} (m : list (Z * A)) k : bt_get m k = None ↔ k ∉ m.*1.
Proof.
  induction m as [|[i x] m IH]; [set_solver|]. rewrite bt_get_cons, fmap_cons, not_elem_of_cons.
  simpl. destruct (Z.eqb_spec i k) as [->|]; [naive_solver|]. rewrite IH. naive_solver.
Qed.

Lemma bt_sorted_nodup {A} (m : list (Z * A)) : bt_sorted m → NoDup m.*1.
Proof.
  unfold bt_sorted. generalize (m.*1). intros l. induction 1 as [|i l Hs IH Hi]; constructor; [|done].
  rewrite Forall_forall in Hi. intros H%Hi. lia.
Qed.

Lemma bt_elem_get {A} (m : list (Z * A)) k a :
  NoDup m.*1 → (k, a) ∈ m → bt_get m k = Some a.
Proof.
  induction m as [|[i x] m IH]; [by intros _ ?%elem_of_nil|].
  rewrite fmap_cons, NoDup_cons, elem_of_cons, bt_get_cons. simpl. intros [Hi Hn] [[= -> ->]|Hin].
  - by rewrite Z.eqb_refl.
  - destruct (Z.eqb_spec i k) as [->|]; [|by apply IH]. destruct Hi.
    apply list_elem_of_fmap. by exists (k, a).
Qed.

Lemma bt_adjust_elem {A} f k (m : list (Z * A)) p :
  p ∈ bt_adjust f k m → p ∈ m ∨ ∃ a, (k, a) ∈ m ∧ p = (k, f a).
Proof.
  unfold bt_adjust. intros ([i a] & -> & Hin)%list_elem_of_fmap. simpl.
  destruct (Z.eqb_spec i k) as [->|]; eauto.
Qed.

Lemma bt_filter_sorted {A} (P : Z * A → Prop) `{!∀ p, Decision (P p)} (m : list (Z * A)) :
  bt_sorted m → bt_sorted (filter P m).
Proof.
  unfold bt_sorted. induction m as [|p m IH]; [done|]. rewrite fmap_cons.
  intros [Hs Hp]%StronglySorted_inv. rewrite filter_cons. case_decide; [|by apply IH].
  rewrite fmap_cons. constructor; [by apply IH|]. apply Forall_forall.
  intros j (q & -> & [_ Hq]%list_elem_of_filter)%list_elem_of_fmap. rewrite Forall_forall in Hp.
  apply Hp. apply list_elem_of_fmap. eauto.
Qed.

(** *** Filters *)

Lemma filter_all {A} (P : A → Prop) `{!∀ x, Decision (P x)} (l : list A) :
  (∀ x, x ∈ l → P x) → filter P l = l.
Proof.
  induction l as [|x l IH]; intros HPQ; [done|]. rewrite filter_cons, decide_True by (apply HPQ; left).
  f_equal. apply IH. intros y Hy. apply HPQ. by right.
Qed.

Lemma filter_ext_in {A} (P Q : A → Prop) `{!∀ x, Decision (P x), !∀ x, Decision (Q x)} (l : list A) :
  (∀ x, x ∈ l → P x ↔ Q x) → filter P l = filter Q l.
Proof.
  induction l as [|x l IH]; intros HPQ; [done|]. rewrite !filter_cons.
  rewrite IH by (intros y Hy; apply HPQ; by right). specialize (HPQ x (list_elem_of_here _ _)).
  repeat case_decide; tauto.
Qed.

(** A filter and the elements it drops split the length. *)
Lemma filter_omap_length {A B} (P : A → Prop) `{!∀ x, Decision (P x)} (f : A → option B) (l : list A) :
  (∀ x, x ∈ l → P x ↔ f x = None) → (length (filter P l) + length (omap f l))%nat = length l.
Proof.
  induction l as [|x l IH]; intros HPQ; [done|].
  assert (length (filter P l) + length (omap f l) = length l)%nat as IH'
    by (apply IH; intros y Hy; apply HPQ; by right).
  specialize (HPQ x (list_elem_of_here _ _)). rewrite filter_cons.
  assert (omap f (x :: l) = match f x with Some y => y :: omap f l | None => omap f l end) as ->
    by done.
  case_decide as HP.
  - rewrite (proj1 HPQ HP). cbn [length]. lia.
  - destruct (f x); [cbn [length]; lia|tauto].
Qed.

Lemma omap_cons_app {A B} (f : A → option B) x l : omap f (x :: l) = option_list (f x) ++ omap f l.
Proof. simpl. by destruct (f x). Qed.
