(* ===== verification/Chars.v ===== *)
(** * Characters

    Code that walks a string by [char] works on its list of Unicode scalar values; this file
    has UTF-8 encoding and decoding between the two, [str::trim], [str::split],
    [char::is_whitespace] and the parsing of decimal integers. *)

From S2P Require Import Prelude Text Std.

Abbreviation chars := (list Z) (only parsing).

(** The values of [char]. *)
Definition is_scalar (c : Z) : Prop := 0 ≤ c < 55296 ∨ 57344 ≤ c < 1114112.
#[export] Instance is_scalar_dec c : Decision (is_scalar c).
Proof. unfold is_scalar. apply _. Defined.

(** [char::from_u32]. *)
Definition from_u32 (v : Z) : option Z := if decide (is_scalar v) then Some v else None.

(** [char::encode_utf8] and its inverse at the head of a string. *)
Definition encode_char (c : Z) : bytes :=
  if c <? 128 then [c]
  else if c <? 2048 then [192 + c / 64; 128 + c mod 64]
  else if c <? 65536 then [224 + c / 4096; 128 + (c / 64) mod 64; 128 + c mod 64]
  else [240 + c / 262144; 128 + (c / 4096) mod 64; 128 + (c / 64) mod 64; 128 + c mod 64].
Definition to_utf8 (cs : chars) : bytes := cs ≫= encode_char.
Definition decode_char (s : bytes) : Z :=
  match s with
  | [b0] => b0
  | [b0; b1] => (b0 - 192) * 64 + (b1 - 128)
  | [b0; b1; b2] => (b0 - 224) * 4096 + (b1 - 128) * 64 + (b2 - 128)
  | [b0; b1; b2; b3] =>
      (b0 - 240) * 262144 + (b1 - 128) * 4096 + (b2 - 128) * 64 + (b3 - 128)
  | _ => 65533
  end.

(** [s.chars()] of a valid string; one character consumes at least a byte. *)
Fixpoint chars_fuel (fuel : nat) (s : bytes) : chars :=
  match fuel with
  | O => []
  | S fuel' =>
      match utf8_head s with
      | Some n => decode_char (take n s) :: chars_fuel fuel' (drop n s)
      | None => []
      end
  end.
Definition chars_of (s : bytes) : chars := chars_fuel (length s) s.

(** [s.len()] of a string given by its characters. *)
Definition byte_length (cs : chars) : nat := length (to_utf8 cs).
(** [BoundedText::truncated] on characters. *)
Definition truncated_chars (cs : chars) (max : nat) : chars := chars_of (truncated (to_utf8 cs) max).

(** [char::is_whitespace]. *)
Definition is_whitespace (c : Z) : bool :=
  in_range 9 13 c || (c =? 32) || (c =? 133) || (c =? 160) || (c =? 5760) || in_range 8192 8202 c
  || (c =? 8232) || (c =? 8233) || (c =? 8239) || (c =? 8287) || (c =? 12288).
Fixpoint trim_start (cs : chars) : chars :=
  match cs with
  | [] => []
  | c :: cs' => if is_whitespace c then trim_start cs' else cs
  end.
Definition trim_end (cs : chars) : chars := rev (trim_start (rev cs)).
Definition trim (cs : chars) : chars := trim_end (trim_start cs).

(** [s.split(sep)]: always at least one piece. *)
Fixpoint split_on (sep : Z) (cs : chars) : list chars :=
  match cs with
  | [] => [[]]
  | c :: cs' =>
      if c =? sep then [] :: split_on sep cs'
      else match split_on sep cs' with
           | [] => [[c]]
           | p :: ps => (c :: p) :: ps
           end
  end.
(** [parts.join(sep)]. *)
Fixpoint join_with (sep : Z) (parts : list chars) : chars :=
  match parts with
  | [] => []
  | [p] => p
  | p :: ps => p ++ sep :: join_with sep ps
  end.
(** [s.split_once(sep)]. *)
Fixpoint split_once (sep : Z) (cs : chars) : option (chars * chars) :=
  match cs with
  | [] => None
  | c :: cs' => if c =? sep then Some ([], cs') else prod_map (cons c) id <$> split_once sep cs'
  end.

(** ASCII digits and the integers they spell. *)
Definition is_digit (c : Z) : bool := in_range 48 57 c.
Definition digits_value (ds : chars) : Z := fold_left (λ v d, v * 10 + (d - 48)) ds 0.
(** [text.parse::<i64>()], [text.parse::<u32>()], [text.parse::<u64>()]: an optional sign, digits,
    a range check. *)
Definition all_digits (ds : chars) : bool := negb (bool_decide (ds = [])) && forallb is_digit ds.
Definition parse_digits (ds : chars) : option Z :=
  if all_digits ds then Some (digits_value ds) else None.
Definition parse_i64 (cs : chars) : option Z :=
  let v := match cs with
           | [] => None
           | c :: ds => if c =? 45 then Z.opp <$> parse_digits ds
                        else if c =? 43 then parse_digits ds else parse_digits cs
           end in
  v ≫= λ v, if decide (i64_MIN ≤ v ≤ i64_MAX) then Some v else None.
Definition parse_uint (max : Z) (cs : chars) : option Z :=
  let v := match cs with
           | [] => None
           | c :: ds => if c =? 43 then parse_digits ds else parse_digits cs
           end in
  v ≫= λ v, if v <=? max then Some v else None.

(** ** Lemmas *)

(** Encoding a character gives one well-formed sequence that decodes to it. *)
Lemma encode_char_head c :
  is_scalar c →
  utf8_head (encode_char c) = Some (length (encode_char c)) ∧ decode_char (encode_char c) = c.
Proof.
  intros Hc. unfold is_scalar in Hc. unfold encode_char.
  pose proof (Z.mod_pos_bound c 64). pose proof (Z.mod_pos_bound (c / 64) 64).
  pose proof (Z.mod_pos_bound (c / 4096) 64).
  pose proof (Z.div_mod c 64). pose proof (Z.div_mod (c / 64) 64).
  pose proof (Z.div_mod (c / 4096) 64).
  assert (c / 64 / 64 = c / 4096) by (by rewrite Z.div_div by lia).
  assert (c / 4096 / 64 = c / 262144) by (by rewrite Z.div_div by lia).
  assert (∀ lo hi x, in_range lo hi x = true ↔ lo ≤ x ≤ hi) as Hr
    by (intros; unfold in_range; rewrite andb_true_iff; lia).
  assert (∀ x, is_cont x = true ↔ 128 ≤ x ≤ 191) as Hk
    by (intros; unfold is_cont; rewrite andb_true_iff; lia).
  assert (∀ lo hi x, ¬ (lo ≤ x ≤ hi) → in_range lo hi x = false) as Hnr.
  { intros lo hi x Hn. apply not_true_is_false. by rewrite Hr. }
  destruct (Z.ltb_spec c 128).
  { cbn [utf8_head decode_char]. rewrite (proj2 (Hr 0 127 c)) by lia. done. }
  destruct (Z.ltb_spec c 2048).
  { cbn [utf8_head decode_char]. rewrite (Hnr 0 127), (proj2 (Hr 194 223 _)), (proj2 (Hk _)) by lia.
    split; [done|lia]. }
  destruct (Z.ltb_spec c 65536).
  { cbn [utf8_head decode_char].
    rewrite (Hnr 0 127), (Hnr 194 223) by lia. cbn [andb].
    rewrite (proj2 (Hk (128 + c mod 64))) by lia.
    rewrite (proj2 (Hk (128 + (c / 64) mod 64))) by lia.
    assert (((224 + c / 4096 =? 224) && in_range 160 191 (128 + (c / 64) mod 64)
      || in_range 225 236 (224 + c / 4096) && true
      || (224 + c / 4096 =? 237) && in_range 128 159 (128 + (c / 64) mod 64)
      || in_range 238 239 (224 + c / 4096) && true) = true) as ->; [|split; [done|lia]].
    rewrite !andb_true_r, !orb_true_iff, !andb_true_iff, !Hr, !Z.eqb_eq.
    destruct (Z.eq_dec (c / 4096) 0); [do 3 left; lia|].
    destruct (Z.le_gt_cases (c / 4096) 12); [left; left; right; lia|].
    destruct (Z.eq_dec (c / 4096) 13); [left; right; lia|]. right. lia. }
  cbn [utf8_head decode_char].
  rewrite (Hnr 0 127), (Hnr 194 223), (Hnr 225 236), (Hnr 238 239) by lia.
  rewrite !(proj2 (Z.eqb_neq _ _)) by lia. cbn [andb orb].
  rewrite (proj2 (Hk (128 + c mod 64))), (proj2 (Hk (128 + (c / 64) mod 64))),
    (proj2 (Hk (128 + (c / 4096) mod 64))) by lia.
  assert (((240 + c / 262144 =? 240) && in_range 144 191 (128 + (c / 4096) mod 64)
    || in_range 241 243 (240 + c / 262144) && true
    || (240 + c / 262144 =? 244) && in_range 128 143 (128 + (c / 4096) mod 64)) = true) as ->;
    [|split; [done|lia]].
  rewrite !andb_true_r, !orb_true_iff, !andb_true_iff, !Hr, !Z.eqb_eq.
  destruct (Z.eq_dec (c / 262144) 0); [do 2 left; lia|].
  destruct (Z.le_gt_cases (c / 262144) 3); [left; right; lia|]. right. lia.
Qed.

Lemma to_utf8_cons c cs : to_utf8 (c :: cs) = encode_char c ++ to_utf8 cs.
Proof. done. Qed.

Lemma to_utf8_valid cs : Forall is_scalar cs → is_utf8 (to_utf8 cs) = true.
Proof.
  induction 1 as [|c cs Hc _ IH]; [done|]. rewrite to_utf8_cons.
  destruct (encode_char_head c Hc) as [Hh _]. rewrite (is_utf8_step _ (length (encode_char c))).
  - by rewrite drop_app_length.
  - by apply utf8_head_app.
Qed.

Lemma chars_fuel_to_utf8 cs : Forall is_scalar cs → ∀ fuel,
  (length (to_utf8 cs) ≤ fuel)%nat → chars_fuel fuel (to_utf8 cs) = cs.
Proof.
  induction 1 as [|c cs Hc _ IH]; intros fuel Hf.
  - destruct fuel; [done|]. done.
  - rewrite to_utf8_cons in *. destruct (encode_char_head c Hc) as [Hh Hd].
    pose proof (utf8_head_le _ _ Hh) as Hle. rewrite length_app in Hf.
    destruct fuel as [|fuel]; [lia|]. cbn [chars_fuel]. rewrite (utf8_head_app _ _ Hh).
    rewrite take_app_length, drop_app_length, Hd, IH by lia. done.
Qed.

(** The characters of an encoded string are the string's. *)
Lemma chars_of_to_utf8 cs : Forall is_scalar cs → chars_of (to_utf8 cs) = cs.
Proof. intros Hcs. by apply chars_fuel_to_utf8. Qed.

Lemma truncated_chars_short cs max :
  Forall is_scalar cs → (byte_length cs ≤ max)%nat → truncated_chars cs max = cs.
Proof.
  intros Hcs Hl. unfold truncated_chars, truncated. rewrite decide_False by (unfold byte_length in Hl; lia).
  by apply chars_of_to_utf8.
Qed.

(** *** Decimal integers *)

Lemma digits_value_snoc ds d : digits_value (ds ++ [d]) = digits_value ds * 10 + (d - 48).
Proof. unfold digits_value. by rewrite fold_left_app. Qed.

Lemma digits_value_dec fuel n : 0 ≤ n < 2 ^ Z.of_nat fuel → digits_value (dec_fuel fuel n) = n.
Proof.
  revert n. induction fuel as [|fuel IH]; intros n Hn; cbn [dec_fuel].
  - simpl in Hn. cbn. lia.
  - rewrite Nat2Z.inj_succ, Z.pow_succ_r in Hn by lia. destruct (Z.ltb_spec n 10).
    + cbn. lia.
    + rewrite digits_value_snoc, IH.
      * pose proof (Z.div_mod n 10). lia.
      * split; [apply Z.div_pos; lia|]. apply Z.div_lt_upper_bound; lia.
Qed.

Lemma digits_value_dec_u n : 0 ≤ n → digits_value (dec_u n) = n.
Proof.
  intros Hn. apply digits_value_dec. split; [done|].
  destruct (Z.eq_dec n 0) as [->|]; [done|].
  rewrite Nat2Z.inj_succ, Z2Nat.id by apply Z.log2_nonneg. apply Z.log2_spec. lia.
Qed.

Lemma all_digits_dec_u n : 0 ≤ n → all_digits (dec_u n) = true.
Proof.
  intros Hn. unfold all_digits. rewrite bool_decide_eq_false_2 by apply dec_u_nonempty. simpl.
  apply forallb_forall. intros d Hd%list_elem_of_In. apply dec_u_digits in Hd; [|done].
  unfold is_digit, in_range. apply andb_true_iff. lia.
Qed.

Lemma dec_u_head n : 0 ≤ n → ∃ d ds, dec_u n = d :: ds ∧ 48 ≤ d ≤ 57.
Proof.
  intros Hn. destruct (dec_u n) as [|d ds] eqn:E; [by apply dec_u_nonempty in E|].
  exists d, ds. split; [done|]. apply (dec_u_digits n); [done|]. rewrite E. left.
Qed.

Lemma parse_digits_dec_u n : 0 ≤ n → parse_digits (dec_u n) = Some n.
Proof. intros Hn. unfold parse_digits. by rewrite all_digits_dec_u, digits_value_dec_u. Qed.

Lemma parse_i64_dec_i n : i64_MIN ≤ n ≤ i64_MAX → parse_i64 (dec_i n) = Some n.
Proof.
  intros Hn. unfold parse_i64, dec_i. destruct (Z.ltb_spec n 0).
  - rewrite Z.eqb_refl, parse_digits_dec_u by lia. simpl. rewrite Z.opp_involutive.
    by rewrite decide_True.
  - pose proof (parse_digits_dec_u n ltac:(lia)) as Hp.
    destruct (dec_u_head n) as (d & ds & E & Hd); [lia|]. rewrite E in *.
    rewrite !(proj2 (Z.eqb_neq _ _)), Hp by lia. simpl. by rewrite decide_True.
Qed.

Lemma parse_i64_dec_u n :
  0 ≤ n → parse_i64 (dec_u n) = if bool_decide (n ≤ i64_MAX) then Some n else None.
Proof.
  intros Hn. pose proof (parse_digits_dec_u n Hn) as Hp. unfold parse_i64.
  destruct (dec_u_head n Hn) as (d & ds & E & Hd). rewrite E in *.
  rewrite !(proj2 (Z.eqb_neq _ _)), Hp by lia. simpl. unfold i64_MIN.
  case_bool_decide; [by rewrite decide_True by lia|]. rewrite decide_False by lia. done.
Qed.
Lemma parse_uint_dec_u max n : 0 ≤ n ≤ max → parse_uint max (dec_u n) = Some n.
Proof.
  intros Hn. unfold parse_uint. pose proof (parse_digits_dec_u n ltac:(lia)) as Hp.
  destruct (dec_u_head n) as (d & ds & E & Hd); [lia|]. rewrite E in *.
  rewrite !(proj2 (Z.eqb_neq _ _)), Hp by lia. simpl. by rewrite (proj2 (Z.leb_le n max)) by lia.
Qed.

(** *** Splitting *)

Lemma split_on_clean sep p : (sep ∉ p) → split_on sep p = [p].
Proof.
  induction p as [|c p IH]; [done|]. rewrite not_elem_of_cons. intros [Hc Hp]. cbn [split_on].
  rewrite (proj2 (Z.eqb_neq c sep)) by congruence. by rewrite IH.
Qed.

Lemma split_on_app sep p rest :
  (sep ∉ p) → split_on sep (p ++ sep :: rest) = p :: split_on sep rest.
Proof.
  induction p as [|c p IH]; intros Hp; simpl app; cbn [split_on]; [by rewrite Z.eqb_refl|].
  apply not_elem_of_cons in Hp as [Hc Hp]. rewrite (proj2 (Z.eqb_neq c sep)) by congruence.
  by rewrite IH.
Qed.

Lemma split_on_sep sep a b : split_on sep (a ++ sep :: b) = split_on sep a ++ split_on sep b.
Proof.
  induction a as [|c a IH]; cbn [app split_on]; [by rewrite Z.eqb_refl|].
  destruct (c =? sep); [by rewrite IH|]. rewrite IH. destruct (split_on sep a) as [|p ps] eqn:E; [|done].
  by destruct a; cbn [split_on] in E; repeat case_match.
Qed.

(** Joining pieces that do not contain the separator and splitting gives the pieces. *)
Lemma split_join sep parts :
  parts ≠ [] → Forall (λ p, sep ∉ p) parts → split_on sep (join_with sep parts) = parts.
Proof.
  intros Hne Hall. induction Hall as [|p ps Hp Hps IH]; [done|].
  destruct ps as [|q ps]; [by apply split_on_clean|].
  change (join_with sep (p :: q :: ps)) with (p ++ sep :: join_with sep (q :: ps)).
  rewrite split_on_app by done. by rewrite IH.
Qed.

(** *** Scalar values *)

Lemma small_scalar c : 0 ≤ c < 55296 → is_scalar c.
Proof. unfold is_scalar. lia. Qed.
Lemma dec_u_scalar n : 0 ≤ n → Forall is_scalar (dec_u n).
Proof. intros Hn. apply Forall_forall. intros c Hc%dec_u_digits; [|done]. apply small_scalar. lia. Qed.
Lemma lit_scalar s : Forall is_scalar (lit s).
Proof. eapply Forall_impl; [apply lit_byte|]. unfold is_byte. intros c ?. apply small_scalar. lia. Qed.

(** What is decoded is scalar values, and encodes back to the text that was decoded. *)
Lemma radix a b m : 0 ≤ b < m → (a * m + b) / m = a ∧ (a * m + b) mod m = b.
Proof. intros Hb. rewrite Z.div_add_l, Z.div_small, Z.add_0_r by lia. rewrite Z.add_comm, Z.mod_add, Z.mod_small by lia. done. Qed.
Ltac bool_hyps := unfold is_cont, in_range in *; rewrite ?orb_true_iff, ?andb_true_iff, ?Z.leb_le, ?Z.eqb_eq in *.

Lemma encode2 a b : 2 ≤ a < 32 → 0 ≤ b < 64 → encode_char (a * 64 + b) = [192 + a; 128 + b].
Proof.
  intros Ha Hb. unfold encode_char. rewrite (proj2 (Z.ltb_ge _ 128)), (proj2 (Z.ltb_lt _ 2048)) by lia.
  by destruct (radix a b 64 Hb) as [-> ->].
Qed.
Lemma encode3 a b c : 0 ≤ a < 16 → 0 ≤ b < 64 → 0 ≤ c < 64 → 2048 ≤ a * 4096 + b * 64 + c →
  encode_char (a * 4096 + b * 64 + c) = [224 + a; 128 + b; 128 + c].
Proof.
  intros Ha Hb Hc Hv. unfold encode_char. rewrite (proj2 (Z.ltb_ge _ 128)), (proj2 (Z.ltb_ge _ 2048)), (proj2 (Z.ltb_lt _ 65536)) by lia.
  assert (0 ≤ b * 64 + c < 4096) as Hbc by lia.
  replace (a * 4096 + b * 64 + c) with (a * 4096 + (b * 64 + c)) by lia.
  destruct (radix a (b * 64 + c) 4096 Hbc) as [-> _].
  replace (a * 4096 + (b * 64 + c)) with ((a * 64 + b) * 64 + c) by lia.
  destruct (radix (a * 64 + b) c 64 Hc) as [-> ->]. by destruct (radix a b 64 Hb) as [_ ->].
Qed.
Lemma encode4 a b c d : 0 ≤ b < 64 → 0 ≤ c < 64 → 0 ≤ d < 64 → 65536 ≤ a * 262144 + b * 4096 + c * 64 + d →
  encode_char (a * 262144 + b * 4096 + c * 64 + d) = [240 + a; 128 + b; 128 + c; 128 + d].
Proof.
  intros Hb Hc Hd Hv. unfold encode_char. rewrite (proj2 (Z.ltb_ge _ 128)), (proj2 (Z.ltb_ge _ 2048)), (proj2 (Z.ltb_ge _ 65536)) by lia.
  replace (a * 262144 + b * 4096 + c * 64 + d) with (a * 262144 + (b * 4096 + c * 64 + d)) by lia.
  destruct (radix a (b * 4096 + c * 64 + d) 262144 ltac:(lia)) as [-> _].
  replace (a * 262144 + (b * 4096 + c * 64 + d)) with ((a * 64 + b) * 4096 + (c * 64 + d)) by lia.
  destruct (radix (a * 64 + b) (c * 64 + d) 4096 ltac:(lia)) as [-> _].
  replace ((a * 64 + b) * 4096 + (c * 64 + d)) with (((a * 64 + b) * 64 + c) * 64 + d) by lia.
  destruct (radix ((a * 64 + b) * 64 + c) d 64 Hd) as [-> ->].
  destruct (radix (a * 64 + b) c 64 Hc) as [_ ->]. by destruct (radix a b 64 Hb) as [_ ->].
Qed.
Lemma decode_head s n :
  utf8_head s = Some n → is_scalar (decode_char (take n s)) ∧ encode_char (decode_char (take n s)) = take n s.
Proof.
  intros H. unfold utf8_head in H. destruct s as [|b0 s1]; [done|]. unfold is_scalar.
  utf8_cases H; simpl take; rewrite ?take_0; cbn [decode_char]; bool_hyps.
  - split; [lia|]. unfold encode_char. by rewrite (proj2 (Z.ltb_lt b0 128)) by lia.
  - split; [lia|]. rewrite encode2 by lia. f_equal; [lia|]. f_equal. lia.
  - split; [lia|]. rewrite encode3 by lia. repeat f_equal; lia.
  - split; [lia|]. rewrite encode4 by lia. repeat f_equal; lia.
Qed.
Lemma chars_of_spec s : Forall is_scalar (chars_of s) ∧ (is_utf8 s = true → to_utf8 (chars_of s) = s).
Proof.
  unfold chars_of, is_utf8. generalize (length s) as fuel. intros fuel. revert s.
  induction fuel as [|fuel IH]; intros s; [by destruct s|]. destruct s as [|b s]; [done|]. cbn [chars_fuel utf8_fuel].
  destruct (utf8_head (b :: s)) as [n|] eqn:E; [|done]. destruct (decode_head _ _ E) as [Hs He].
  destruct (IH (drop n (b :: s))) as [Hf Hu]. split; [by constructor|]. intros H. by rewrite to_utf8_cons, He, Hu, take_drop.
Qed.
