(* ===== verification/TokenStream.v ===== *)
(** * Streaming redaction (crate [crustcore-secrets], [token_stream.rs])

    [TokenRedactor] buffers streamed tokens to a boundary and emits redacted
    chunks: up to the last newline, or, when the buffer is full, up to the
    longest suffix that begins a secret. [Redactor::longest_dangling_prefix] of
    [lib.rs] finds that suffix. [&mut self] is state passing; the emitted chunks
    are the results. *)

From S2P Require Import Prelude Text Redactor.

Definition NEWLINE : Z := 10.

(** ** The dangling prefix *)

(** The inner loop, from [k] down to [best]. *)
Fixpoint dangling_loop (t needle : bytes) (best k : nat) : nat :=
  match k with
  | O => best
  | S k' =>
      if decide (best < k)%nat then
        if bool_decide (drop (length t - k) t = take k needle) then k
        else dangling_loop t needle best k'
      else best
  end.

(** [Redactor::longest_dangling_prefix]. *)
Definition longest_dangling_prefix (r : Redactor) (t : bytes) : nat :=
  foldl (λ best n, dangling_loop t n.2 best (Nat.min (length t) (length n.2 - 1))) 0%nat (needles r).

(** ** The token redactor *)

Record TokenRedactor := mkTR { tr_buffer : bytes; tr_max_buffer : nat }.

(** [TokenRedactor::new]. *)
Definition TokenRedactor_new (max_buffer : nat) : TokenRedactor := mkTR [] (Nat.max max_buffer 1).

(** [buffer.rfind('\n')]. *)
Fixpoint rfind_newline (s : bytes) : option nat :=
  match s with
  | [] => None
  | c :: s' =>
      match rfind_newline s' with
      | Some i => Some (S i)
      | None => if c =? NEWLINE then Some 0%nat else None
      end
  end.

(** [suffix_boundary]. *)
Definition suffix_boundary (s : bytes) (window : nat) : nat :=
  floor_char_boundary s (length s - window).

(** Where [accept_token] cuts the buffer, if it emits. *)
Definition cut_point (r : Redactor) (s : bytes) (max_buffer : nat) : option nat :=
  match rfind_newline s with
  | Some nl => Some (S nl)
  | None =>
      if decide (max_buffer ≤ length s)%nat then
        let cut := suffix_boundary s (longest_dangling_prefix r s) in
        if decide (cut = 0%nat) then None else Some cut
      else None
  end.

(** [TokenRedactor::accept_token]. *)
Definition accept_token (r : Redactor) (tr : TokenRedactor) (token : bytes)
    : TokenRedactor * option bytes :=
  let buffer := tr_buffer tr ++ token in
  match cut_point r buffer (tr_max_buffer tr) with
  | Some cut => (mkTR (drop cut buffer) (tr_max_buffer tr), Some (redact r (take cut buffer)))
  | None => (mkTR buffer (tr_max_buffer tr), None)
  end.

(** [TokenRedactor::flush]. *)
Definition flush (r : Redactor) (tr : TokenRedactor) : TokenRedactor * option bytes :=
  match tr_buffer tr with
  | [] => (tr, None)
  | buffer => (mkTR [] (tr_max_buffer tr), Some (redact r buffer))
  end.

(** [redact_stream]: the chunks handed to [emit], in order. *)
Fixpoint stream_loop (r : Redactor) (tr : TokenRedactor) (tokens : list bytes) : list bytes :=
  match tokens with
  | [] => option_list (flush r tr).2
  | token :: tokens' =>
      let '(tr', chunk) := accept_token r tr token in
      option_list chunk ++ stream_loop r tr' tokens'
  end.
Definition redact_stream (r : Redactor) (max_buffer : nat) (tokens : list bytes) : list bytes :=
  stream_loop r (TokenRedactor_new max_buffer) tokens.

(** ** The raw chunks *)

(** The stream cut as the redactor cuts it, before redaction. *)
Fixpoint raw_chunks (r : Redactor) (max_buffer : nat) (buffer : bytes) (tokens : list bytes)
    : list bytes :=
  match tokens with
  | [] => match buffer with [] => [] | _ => [buffer] end
  | token :: tokens' =>
      let buffer := buffer ++ token in
      match cut_point r buffer max_buffer with
      | Some cut => take cut buffer :: raw_chunks r max_buffer (drop cut buffer) tokens'
      | None => raw_chunks r max_buffer buffer tokens'
      end
  end.

Lemma stream_loop_raw r tr tokens :
  stream_loop r tr tokens = redact r <$> raw_chunks r (tr_max_buffer tr) (tr_buffer tr) tokens.
Proof.
  revert tr. induction tokens as [|t tokens IH]; intros [buf max]; cbn [stream_loop raw_chunks].
  - unfold flush. by destruct buf.
  - unfold accept_token. cbn [tr_buffer tr_max_buffer].
    destruct (cut_point r (buf ++ t) max); cbn [option_list app fmap list_fmap]; by rewrite IH.
Qed.

Lemma raw_chunks_join r max buf tokens : mjoin (raw_chunks r max buf tokens) = buf ++ mjoin tokens.
Proof.
  revert buf. induction tokens as [|t tokens IH]; intros buf; cbn [raw_chunks].
  - destruct buf; cbn; by rewrite ?app_nil_r.
  - rewrite (mjoin_cons t), (app_assoc buf). destruct (cut_point r (buf ++ t) max) as [c|].
    + by rewrite mjoin_cons, IH, (app_assoc (take _ _)), take_drop.
    + apply IH.
Qed.

(** ** Where the cuts fall *)

Lemma dangling_loop_ge t v best k : (best ≤ dangling_loop t v best k)%nat.
Proof.
  induction k as [|k IH]; cbn [dangling_loop]; [done|].
  case_decide; [|done]. case_bool_decide; [lia|done].
Qed.

Definition dangles (t v : bytes) (k : nat) : Prop :=
  (k ≤ length t)%nat ∧ (k < length v)%nat ∧ drop (length t - k) t = take k v.

Lemma dangling_loop_max t v best k j :
  (j ≤ k)%nat → drop (length t - j) t = take j v → (j ≤ dangling_loop t v best k)%nat.
Proof.
  induction k as [|k IH]; intros Hj Hd; cbn [dangling_loop]; [lia|].
  case_decide; [|lia]. case_bool_decide as He; [lia|].
  apply IH; [|done]. destruct (decide (j = S k)); [by subst|lia].
Qed.

Lemma dangling_loop_cases t v best k :
  (k ≤ length t)%nat → (k < length v ∨ k = 0)%nat →
  dangling_loop t v best k = best ∨ dangles t v (dangling_loop t v best k).
Proof.
  induction k as [|k IH]; intros Ht Hv; cbn [dangling_loop]; [by left|].
  case_decide; [|by left]. case_bool_decide as He; [|apply IH; lia].
  right. split_and!; [lia|lia|done].
Qed.

(** The dangling prefix is the longest suffix that begins a secret, or empty. *)
Lemma longest_dangling_spec r t :
  let d := longest_dangling_prefix r t in
  (∀ n j, n ∈ needles r → dangles t n.2 j → (j ≤ d)%nat) ∧
  (d = 0%nat ∨ ∃ n, n ∈ needles r ∧ dangles t n.2 d).
Proof.
  unfold longest_dangling_prefix. induction (needles r) as [|n ns IH] using rev_ind.
  { cbn. split; [|by left]. intros n j Hn. inversion Hn. }
  rewrite foldl_snoc. set (b := foldl _ _ ns) in *.
  set (k := Nat.min (length t) (length n.2 - 1)). destruct IH as [Hmax Hd]. split.
  - intros n' j [Hn| ->%list_elem_of_singleton]%elem_of_app Hj.
    + pose proof (dangling_loop_ge t n.2 b k). specialize (Hmax n' j Hn Hj). lia.
    + destruct Hj as (? & ? & ?). apply dangling_loop_max; [lia|done].
  - destruct (dangling_loop_cases t n.2 b k) as [->|Hdan]; [lia|lia| |].
    + destruct Hd as [Hd|(n' & Hn & Hd)]; [by left|right]. exists n'. split; [|done].
      apply elem_of_app. by left.
    + right. exists n. split; [|done]. apply elem_of_app. right. by apply list_elem_of_singleton.
Qed.

Lemma rfind_newline_Some s i : rfind_newline s = Some i → s !! i = Some NEWLINE.
Proof.
  revert i. induction s as [|c s IH]; intros i; cbn [rfind_newline]; [done|].
  destruct (rfind_newline s) as [j|].
  - intros [= <-]. by apply IH.
  - destruct (Z.eqb_spec c NEWLINE) as [->|]; [|done]. by intros [= <-].
Qed.

Lemma rfind_newline_drop s i : rfind_newline s = Some i → rfind_newline (drop (S i) s) = None.
Proof.
  revert i. induction s as [|c s IH]; intros i; cbn [rfind_newline]; [done|].
  destruct (rfind_newline s) as [j|] eqn:E.
  - intros [= <-]. by apply IH.
  - destruct (c =? NEWLINE); [|done]. intros [= <-]. by rewrite drop_0 || cbn.
Qed.

(** What the streaming relies on: valid secrets without newlines, none of which ends as
    another, or itself, begins. *)
Definition streamable (r : Redactor) : Prop :=
  (∀ n, n ∈ needles r → is_utf8 n.2 = true ∧ n.2 ≠ [] ∧ (NEWLINE ∉ n.2)) ∧
  (∀ n m j, n ∈ needles r → m ∈ needles r → (0 < j < length n.2)%nat → (j < length m.2)%nat →
     drop (length n.2 - j) n.2 ≠ take j m.2).

Lemma is_utf8_first v b s : is_utf8 v = true → v = b :: s → is_cont b = false.
Proof.
  intros (cs & -> & Hcs)%is_utf8_chars Hv. destruct Hcs as [|c cs (b' & bs & -> & Hb & _) _]; [done|].
  rewrite mjoin_cons in Hv. by simplify_eq/=.
Qed.

(** The suffix that begins a valid secret starts at a char boundary, so the cut retains
    exactly it. *)
Lemma suffix_boundary_dangling r s :
  streamable r → suffix_boundary s (longest_dangling_prefix r s) = (length s - longest_dangling_prefix r s)%nat.
Proof.
  intros [Hr _]. destruct (longest_dangling_spec r s) as [_ Hd]. cbv zeta in Hd.
  set (d := longest_dangling_prefix r s) in *. unfold suffix_boundary.
  set (c := (length s - d)%nat) in *.
  assert (Hb : is_char_boundary s c = true); [|by destruct c; cbn [floor_char_boundary]; rewrite ?Hb].
  unfold is_char_boundary. case_decide; [done|]. destruct (s !! c) as [b|] eqn:Hc.
  - destruct Hd as [Hd|(n & Hn & Hl & Hlv & Hdan)]; [apply lookup_lt_Some in Hc; lia|].
    destruct (Hr n Hn) as (Hu & _ & _). fold c in Hdan.
    assert (Hs : drop c s = b :: drop (S c) s) by by apply drop_S.
    rewrite Hs in Hdan. destruct n as [l [|b' v]]; cbn in Hdan; [by rewrite take_nil in Hdan|].
    destruct d as [|d]; [done|]. cbn in Hdan. simplify_eq.
    apply negb_true_iff. by eapply is_utf8_first.
  - apply lookup_ge_None in Hc. apply bool_decide_eq_true. lia.
Qed.

(** An occurrence as a range of equal bytes. *)
Lemma occurs_lookup v s p i : occurs v s p → (i < length v)%nat → s !! (p + i)%nat = v !! i.
Proof.
  unfold occurs. intros Ho Hi. rewrite <- Ho. rewrite lookup_take_lt by lia. by rewrite lookup_drop.
Qed.

(** No occurrence of a secret in the stream straddles a cut, whatever follows. *)
Lemma cut_safe r s max c T n p :
  streamable r → cut_point r s max = Some c → n ∈ needles r → occurs n.2 (s ++ T) p →
  ¬ (p < c < p + length n.2)%nat.
Proof.
  destruct n as [lb v]. cbn [snd]. intros Hr Hc Hn Ho [Hpc Hcp]. pose proof Hr as [Hr1 Hr2].
  destruct (Hr1 _ Hn) as (_ & Hne & Hnl). unfold cut_point in Hc.
  destruct (rfind_newline s) as [nl|] eqn:Hrf.
  - simplify_eq. pose proof (rfind_newline_Some _ _ Hrf) as Hs. apply Hnl.
    pose proof (occurs_lookup v _ p (nl - p) Ho ltac:(cbn in *; lia)) as Hv.
    replace (p + (nl - p))%nat with nl in Hv by lia.
    rewrite (lookup_app_l_Some _ _ _ _ Hs) in Hv.
    apply (list_elem_of_lookup_2 _ (nl - p)). by symmetry.
  - case_decide as Hmax; [|done]. case_decide as H0; [done|]. simplify_eq.
    rewrite suffix_boundary_dangling in * by done.
    destruct (longest_dangling_spec r s) as [Hlong Hd]. cbv zeta in Hlong, Hd.
    set (d := longest_dangling_prefix r s) in *.
    assert (Hin : drop p (s ++ T) = drop p s ++ T) by (apply drop_app_le; lia).
    unfold occurs in Ho. rewrite Hin in Ho.
    destruct (decide (p + length v ≤ length s)%nat) as [Hend|Hend].
    + destruct Hd as [Hd|(m & Hm & Hdl & Hdm & Hdan)]; [cbn; lia|].
      set (c := (length s - d)%nat) in *. set (j := (p + length v - c)%nat).
      apply (Hr2 _ m j Hn Hm); [unfold j, c; cbn; lia..|].  cbn [snd].
      rewrite take_app_le in Ho by (rewrite length_drop; lia).
      replace (length v - j)%nat with (c - p)%nat by (unfold j; lia).
      rewrite <- Ho at 1. rewrite skipn_firstn_comm, drop_drop.
      replace (p + (c - p))%nat with c by lia. rewrite Hdan, take_take.
      f_equal. unfold j, c. lia.
    + assert (length s - p ≤ d)%nat; [|lia]. apply (Hlong _ _ Hn). split_and!; [lia|cbn; lia|].
      replace (length s - (length s - p))%nat with p by lia.  cbn [snd].
      rewrite <- Ho at 1. rewrite take_take, Nat.min_l by lia.
      rewrite take_app_le by (rewrite length_drop; lia).
      by rewrite take_ge by (rewrite length_drop; lia).
Qed.

(** An occurrence in a concatenation that misses the boundary lies on one side. *)
Lemma occurs_app_l v a b p :
  (p + length v ≤ length a)%nat → occurs v (a ++ b) p → occurs v a p.
Proof.
  unfold occurs. intros H Ho. rewrite drop_app_le in Ho by lia.
  by rewrite take_app_le in Ho by (rewrite length_drop; lia).
Qed.
Lemma occurs_app_r v a b p :
  (length a ≤ p)%nat → occurs v (a ++ b) p → occurs v b (p - length a).
Proof. unfold occurs. intros H. by rewrite drop_app_ge by done. Qed.

(** Every occurrence lies inside one chunk. *)
Definition in_one_chunk (chunks : list bytes) (v : bytes) (p : nat) : Prop :=
  ∃ pre c post q, chunks = pre ++ c :: post ∧ p = (length (mjoin pre) + q)%nat ∧ occurs v c q.

Lemma cut_point_le r s max c : cut_point r s max = Some c → (c ≤ length s)%nat.
Proof.
  unfold cut_point. destruct (rfind_newline _) as [nl|] eqn:Hrf; intros Hc.
  - apply rfind_newline_Some, lookup_lt_Some in Hrf. simplify_eq. lia.
  - repeat case_decide; simplify_eq. unfold suffix_boundary.
    pose proof (floor_char_boundary_spec s (length s - longest_dangling_prefix r s)). lia.
Qed.

Lemma raw_chunks_occurs r max buf tokens n p :
  streamable r → n ∈ needles r → occurs n.2 (buf ++ mjoin tokens) p →
  in_one_chunk (raw_chunks r max buf tokens) n.2 p.
Proof.
  intros Hr Hn. pose proof (proj1 Hr n Hn) as (_ & Hne & _).
  revert buf p. induction tokens as [|t tokens IH]; intros buf p Ho; cbn [raw_chunks].
  - cbn in Ho. rewrite app_nil_r in Ho. exists [], buf, [], p. split_and!; [|done..].
    destruct buf; [|done]. apply occurs_bound in Ho; [|done].
    destruct n as [l []]; cbn in *; [done|lia].
  - rewrite mjoin_cons, app_assoc in Ho.
    destruct (cut_point r (buf ++ t) max) as [c|] eqn:Hc; [|by apply (IH _ p)].
    pose proof (cut_safe r (buf ++ t) max c _ n p Hr Hc Hn Ho) as Hs.
    pose proof (cut_point_le _ _ _ _ Hc) as Hle.
    rewrite <- (take_drop c (buf ++ t)), <- app_assoc in Ho.
    assert (Hlen : length (take c (buf ++ t)) = c) by (by apply length_take_le).
    destruct (decide (p + length n.2 ≤ c)%nat).
    + exists [], (take c (buf ++ t)), (raw_chunks r max (drop c (buf ++ t)) tokens), p.
      split_and!; [done..|]. eapply occurs_app_l; [|exact Ho]. lia.
    + assert (Hcp : (c ≤ p)%nat).
      { destruct n as [l []]; cbn in *; [done|lia]. }
      apply occurs_app_r in Ho; [|lia]. destruct (IH _ _ Ho) as (pre & ch & post & q & -> & Hp & Hq).
      exists (take c (buf ++ t) :: pre), ch, post, q. split_and!; [done| |done].
      rewrite mjoin_cons, length_app. lia.
Qed.

Lemma rfind_newline_app a b :
  rfind_newline a = None → rfind_newline (a ++ b) = (λ i, length a + i)%nat <$> rfind_newline b.
Proof.
  induction a as [|c a IH]; cbn [rfind_newline app]; [by destruct (rfind_newline b)|].
  destruct (rfind_newline a); [done|]. destruct (c =? NEWLINE); [done|]. intros _.
  rewrite IH by done. by destruct (rfind_newline b).
Qed.

(** Latency: what stays in the buffer is shorter than the cap, than the longest secret, or
    than the token that brought a newline; and it holds no newline. *)
Lemma accept_token_buffer r tr token :
  streamable r → rfind_newline (tr_buffer tr) = None →
  let buffer := tr_buffer (accept_token r tr token).1 in
  rfind_newline buffer = None ∧
  (length buffer < Nat.max (tr_max_buffer tr) (Nat.max (max_needle_len r) (S (length token))))%nat.
Proof.
  intros Hr Hb. unfold accept_token, cut_point. set (s := tr_buffer tr ++ token).
  destruct (rfind_newline s) as [nl|] eqn:Hnl; cbn.
  - split; [by apply rfind_newline_drop|]. unfold s in Hnl |- *.
    rewrite rfind_newline_app in Hnl by done. destruct (rfind_newline token); [|done].
    simplify_eq/=. rewrite length_drop, length_app. lia.
  - case_decide as Hmax; cbn; [|split; [done|lia]].
    assert (Hd : (longest_dangling_prefix r s < Nat.max 1 (max_needle_len r))%nat).
    { destruct (longest_dangling_spec r s) as [_ [->|(n & Hn & _ & Hlt & _)]]; [lia|].
      assert (length n.2 ≤ max_needle_len r)%nat; [|lia]. clear -Hn. unfold max_needle_len.
      induction Hn; cbn; lia. }
    rewrite suffix_boundary_dangling by done.
    case_decide; cbn; [split; [done|lia]|]. rewrite length_drop. split; [|lia].
    assert (Hdrop : ∀ k x, rfind_newline x = None → rfind_newline (drop k x) = None).
    { clear. induction k as [|k IH]; intros [|c x]; cbn; try done.
      destruct (rfind_newline x) eqn:E; [done|]. intros _. by apply IH. }
    by apply Hdrop.
Qed.

(** ** Theorems *)

(** C21: streaming redaction is sound for secrets that are valid text without newlines and of
    which none ends as one begins. The emitted chunks are the redactions of consecutive
    pieces of the stream that together are the whole stream (nothing lost, repeated or
    reordered), however the tokens cut it; every occurrence of every secret in the stream
    lies inside one piece, where the redactor sees it whole; and after each token the buffer
    is bounded by the cap, the longest secret or that token. *)
Theorem stream_redaction_sound r max tokens :
  streamable r →
  (∃ raws, redact_stream r max tokens = redact r <$> raws ∧ mjoin raws = mjoin tokens ∧
     ∀ n p, n ∈ needles r → occurs n.2 (mjoin tokens) p → in_one_chunk raws n.2 p) ∧
  (∀ tr token, rfind_newline (tr_buffer tr) = None →
     let buffer := tr_buffer (accept_token r tr token).1 in
     rfind_newline buffer = None ∧
     (length buffer < Nat.max (tr_max_buffer tr) (Nat.max (max_needle_len r) (S (length token))))%nat).
Proof.
  intros Hr. split; [|intros; by apply accept_token_buffer].
  exists (raw_chunks r (Nat.max max 1) [] tokens). split_and!.
  - apply stream_loop_raw.
  - apply raw_chunks_join.
  - intros n p Hn Ho. by apply raw_chunks_occurs.
Qed.

Definition demo_redactor : Redactor :=
  register (register Redactor_new (lit "gh") (lit "ghp_1234")) (lit "sk") (lit "sk-xyz").

Lemma demo_redactor_streamable : streamable demo_redactor.
Proof.
  assert (Hb : forallb (λ n, is_utf8 n.2 && negb (bool_decide (n.2 = [])) && negb (bool_decide (NEWLINE ∈ n.2)) &&
    forallb (λ m, forallb (λ j, negb (bool_decide (drop (length n.2 - j) n.2 = take j m.2)))
      (seq 1 (Nat.min (length n.2) (length m.2) - 1))) (needles demo_redactor)) (needles demo_redactor) = true)
    by (vm_compute; reflexivity).
  rewrite forallb_forall in Hb. split.
  - intros n Hn%list_elem_of_In. specialize (Hb n Hn). rewrite !andb_true_iff, !negb_true_iff in Hb.
    destruct Hb as [[[? Hne] Hnl] _]. apply bool_decide_eq_false in Hne, Hnl. done.
  - intros n m j Hn%list_elem_of_In Hm%list_elem_of_In Hj Hjm He. specialize (Hb n Hn).
    apply andb_true_iff in Hb as [_ Hb]. rewrite forallb_forall in Hb. specialize (Hb m Hm).
    rewrite forallb_forall in Hb. specialize (Hb j ltac:(apply in_seq; lia)).
    apply negb_true_iff, bool_decide_eq_false in Hb. done.
Qed.

Lemma stream_redaction_sound_witness :
  redact_stream demo_redactor 6 [lit "use gh"; lit "p_12"; lit "34 and sk"; lit "-xyz"] =
    [lit "use "; lit "[REDACTED:gh] and "; lit "[REDACTED:sk]"] ∧
  ∃ raws, redact_stream demo_redactor 6 [lit "use gh"; lit "p_12"; lit "34 and sk"; lit "-xyz"]
    = redact demo_redactor <$> raws.
Proof.
  refine (conj _ _); [vm_compute; reflexivity|].
  destruct (stream_redaction_sound demo_redactor 6
    [lit "use gh"; lit "p_12"; lit "34 and sk"; lit "-xyz"] demo_redactor_streamable)
    as [(raws & H & _) _]. by exists raws.
Defined.

(** Without the side conditions the stream leaks: a secret that ends as a secret begins is cut
    when the buffer is full at its end, and a secret with a newline is cut at the newline; the
    chunks spell it in clear. *)
Theorem stream_border_leak :
  redact_stream (register Redactor_new (lit "k") (lit "aba")) 3 [lit "aba"] = [lit "ab"; lit "a"] ∧
  redact_stream (register (register Redactor_new (lit "a") (lit "TOKENONE99")) (lit "b") (lit "99TOKENTWO"))
    10 [lit "TOKENONE99"; lit "!"] = [lit "TOKENONE"; lit "99!"] ∧
  redact_stream (register Redactor_new (lit "pem") (lit "BEGIN" ++ [NEWLINE] ++ lit "KEY")) 64
    [lit "BEGIN" ++ [NEWLINE] ++ lit "KEY"] = [lit "BEGIN" ++ [NEWLINE]; lit "KEY"].
Proof. vm_compute. repeat split. Qed.
