(* ===== verification/Broker.v ===== *)
(** * The secret broker (crate [crustcore-secrets], [lib.rs])

    Stores of secret material, the broker that registers every stored value with
    its redactor and mints one-shot expiring views, and the credential proxy.
    The [SecretStore] trait is a class with the in-memory store as instance; the
    [Cell<bool>] of a view is state passing. That material and views have no
    [Clone], [Debug] or [Serialize] is left to the Rust type system. *)

From S2P Require Import Prelude Text Redactor Types.

Abbreviation SecretId := Z (only parsing).

Record SecretHandle := mkHandle { h_id : SecretId; h_label : bytes }.

Inductive SecretAvailability := Available | Unavailable | Missing.

(** ** Stores *)

(** [SecretStore], with the default [availability]. *)
Class SecretStore (S : Type) := {
  store_get : S → SecretId → option bytes;
  store_handles : S → list SecretHandle }.
Definition store_availability {S} `{SecretStore S} (s : S) (id : SecretId) : SecretAvailability :=
  match store_get s id with Some _ => Available | None => Missing end.

(** [InMemoryStore]: label and material by id, in key order. *)
Record InMemoryStore := mkStore { entries : list (SecretId * (bytes * bytes)) }.
Definition InMemoryStore_new : InMemoryStore := mkStore [].

(** [InMemoryStore::insert]. *)
Definition store_insert (s : InMemoryStore) (id : SecretId) (label value : bytes) : InMemoryStore :=
  mkStore (bt_insert (entries s) id (truncated label DEFAULT_MAX, value)).

#[export] Instance InMemoryStore_store : SecretStore InMemoryStore := {
  store_get s id := snd <$> bt_get (entries s) id;
  store_handles s := (λ e, mkHandle e.1 e.2.1) <$> entries s }.

(** ** The broker *)

Inductive ViewError := AlreadyConsumed | ViewExpired.
Inductive BrokerError := SecretUnavailable (id : SecretId).

Record SecretBroker (S : Type) := mkBroker { br_store : S; br_redactor : Redactor }.
Arguments mkBroker {S} _ _.
Arguments br_store {S} _.
Arguments br_redactor {S} _.

(** [SecretBroker::new]. *)
Definition SecretBroker_new {S} `{SecretStore S} (s : S) : SecretBroker S :=
  mkBroker s (foldl (λ r h, match store_get s (h_id h) with
                            | Some m => register r (h_label h) m
                            | None => r
                            end) Redactor_new (store_handles s)).

(** [SecretBroker::handles], [SecretBroker::availability]. *)
Definition broker_handles {S} `{SecretStore S} (b : SecretBroker S) : list SecretHandle :=
  store_handles (br_store b).
Definition broker_availability {S} `{SecretStore S} (b : SecretBroker S) (id : SecretId)
    : SecretAvailability := store_availability (br_store b) id.

Record ApprovedSecretView := mkView {
  v_material : bytes;
  v_secret_id : SecretId;
  v_approval_id : ApprovalId;
  v_expires_at : Timestamp;
  v_consumed : bool }.

(** [SecretBroker::authorize]. *)
Definition authorize {S} `{SecretStore S} (b : SecretBroker S) (id : SecretId)
    (approval_id : ApprovalId) (now : Timestamp) (ttl_millis : Z)
    : result BrokerError ApprovedSecretView :=
  material ← ok_or (store_get (br_store b) id) (SecretUnavailable id);
  Ok (mkView material id approval_id (saturating_add u64_MAX now ttl_millis) false).

(** [ApprovedSecretView::expose]. *)
Definition expose (v : ApprovedSecretView) (now : Timestamp)
    : ApprovedSecretView * result ViewError bytes :=
  if v_consumed v then (v, Err AlreadyConsumed)
  else if v_expires_at v <=? now then (v, Err ViewExpired)
  else (mkView (v_material v) (v_secret_id v) (v_approval_id v) (v_expires_at v) true,
        Ok (v_material v)).

(** ** The credential proxy *)

Record HeaderInjection := mkHeader { header_name : bytes; hi_value : bytes; hi_label : bytes }.

(** [HeaderInjection::reveal], [HeaderInjection::redacted]. *)
Definition reveal (h : HeaderInjection) : bytes := hi_value h.
Definition redacted (h : HeaderInjection) : bytes :=
  header_name h ++ lit ": " ++ redaction_marker (hi_label h).

(** [CredentialProxy::bearer]. *)
Definition bearer (v : ApprovedSecretView) (now : Timestamp) (label : bytes)
    : ApprovedSecretView * result ViewError HeaderInjection :=
  let '(v', r) := expose v now in
  (v', token ← r; Ok (mkHeader (lit "Authorization") (lit "Bearer " ++ token) label)).

(** A sequence of uses of one view, each at its time, directly or through the proxy. *)
Inductive Use := UExpose (now : Timestamp) | UBearer (now : Timestamp) (label : bytes).
Definition use_time (u : Use) : Timestamp := match u with UExpose n | UBearer n _ => n end.
Definition use_view (v : ApprovedSecretView) (u : Use) : ApprovedSecretView * option bytes :=
  match u with
  | UExpose now =>
      let '(v', r) := expose v now in (v', match r with Ok b => Some b | Err _ => None end)
  | UBearer now label =>
      let '(v', r) := bearer v now label in (v', match r with Ok h => Some (reveal h) | Err _ => None end)
  end.
Fixpoint use_all (v : ApprovedSecretView) (us : list Use) : list (option bytes) :=
  match us with
  | [] => []
  | u :: us' => let '(v', o) := use_view v u in o :: use_all v' us'
  end.

(** ** Lemmas *)

Lemma register_elem r label v n :
  n ∈ needles (register r label v) ↔ n ∈ needles r ∨ (v ≠ [] ∧ n = (label, v)).
Proof.
  unfold register. case_decide as Hv; [naive_solver|]. cbn [needles].
  rewrite sort_by_elem, elem_of_app, list_elem_of_singleton. naive_solver.
Qed.

(** Every value the store hands out under a listed handle is registered. *)
Lemma broker_registers {S} `{SecretStore S} (s : S) h m :
  h ∈ store_handles s → store_get s (h_id h) = Some m → m ≠ [] →
  (h_label h, m) ∈ needles (br_redactor (SecretBroker_new s)).
Proof.
  intros Hh Hm Hne. unfold SecretBroker_new. cbn [br_redactor].
  induction (store_handles s) as [|h' hs IH] using rev_ind; [inversion Hh|].
  rewrite foldl_snoc. apply elem_of_app in Hh as [Hh| ->%list_elem_of_singleton].
  - destruct (store_get s (h_id h')); [apply register_elem; left|]; by apply IH.
  - rewrite Hm. apply register_elem. by right.
Qed.

Lemma use_all_spent v us : v_consumed v = true → use_all v us = replicate (length us) None.
Proof.
  intros Hc. induction us as [|u us IH]; cbn [use_all replicate length]; [done|].
  destruct u; cbn; unfold bearer, expose; rewrite Hc; cbn; by rewrite IH.
Qed.

(** ** Theorems *)

(** What a use yields from the material [m]. *)
Definition yields (m : bytes) (u : Use) : bytes :=
  match u with UExpose _ => m | UBearer _ _ => lit "Bearer " ++ m end.

(** What one view yields over a sequence of uses: nothing but at the first use before expiry. *)
Definition one_shot (m : bytes) (expires : Timestamp) (us : list Use) : list (option bytes) :=
  match position (λ u, use_time u <? expires) us with
  | Some i => replicate i None ++ (Some ∘ yields m <$> option_list (us !! i)) ++
              replicate (length us - S i) None
  | None => replicate (length us) None
  end.

Lemma use_all_fresh v us :
  v_consumed v = false → use_all v us = one_shot (v_material v) (v_expires_at v) us.
Proof.
  intros Hc. unfold one_shot. induction us as [|u us IH]; [done|]. cbn [use_all position].
  destruct (Z.ltb_spec (use_time u) (v_expires_at v)) as [Hlt|Hge].
  - cbn [lookup list_lookup option_list fmap list_fmap replicate app length].
    rewrite Nat.sub_succ, Nat.sub_0_r.
    destruct u as [now|now lb]; cbn in Hlt |- *; unfold bearer, expose; rewrite Hc;
      rewrite (proj2 (Z.leb_gt _ _)) by lia; cbn; by rewrite use_all_spent.
  - assert (Hu : use_view v u = (v, None)).
    { destruct u; cbn in Hge |- *; unfold bearer, expose; rewrite Hc;
        by rewrite (proj2 (Z.leb_le _ _)) by lia. }
    rewrite Hu, IH. by destruct (position _ us).
Qed.

(** a secret view is one-shot, expiring and covered by the redactor. Over any sequence of
    uses, directly or through the credential proxy, an authorized view yields the stored
    secret exactly once, at the first use before [now + ttl], and nothing at any other; and no
    range that the broker's redactor copies from any text contains that secret. *)
Theorem secret_view_one_shot (s : InMemoryStore) id aid now ttl v :
  authorize (SecretBroker_new s) id aid now ttl = Ok v →
  ∃ m, store_get s id = Some m ∧
    (∀ us, use_all v us = one_shot m (saturating_add u64_MAX now ttl) us) ∧
    (is_utf8 m = true → m ≠ [] → ∀ text a b,
       PText a b ∈ redact_pieces (br_redactor (SecretBroker_new s)) text →
       contains (piece_text text (PText a b)) m = false).
Proof.
  unfold authorize. cbn [br_store SecretBroker_new].
  destruct (store_get s id) as [m|] eqn:Hm; cbn [ok_or mbind result_bind]; [|done]. intros [= <-].
  exists m. split_and!; [done|intros us; by apply use_all_fresh|].
  intros Hu Hne text a b Hin. cbn in Hm. destruct (bt_get (entries s) id) as [[lb m']|] eqn:Hg; [|done].
  injection Hm as ->. eapply (copied_no_secret _ _ _ _ lb); [exact Hin| |done..].
  apply (broker_registers s (mkHandle id lb)); [|cbn; by rewrite Hg|done].
  apply list_elem_of_fmap. exists (id, (lb, m)). split; [done|]. by apply bt_get_elem.
Qed.

Lemma secret_view_one_shot_witness :
  let s := store_insert InMemoryStore_new 7 (lit "gh") (lit "ghp_1234") in
  ∃ v, authorize (SecretBroker_new s) 7 1 100 50 = Ok v ∧
    use_all v [UExpose 160; UBearer 120 (lit "gh"); UExpose 121]
    = [None; Some (lit "Bearer ghp_1234"); None].
Proof.
  eexists. refine (conj eq_refl _).
  destruct (secret_view_one_shot (store_insert InMemoryStore_new 7 (lit "gh") (lit "ghp_1234"))
    7 1 100 50 _ eq_refl) as (m & Hm & Hu & _).
  rewrite Hu. vm_compute in Hm. injection Hm as <-. vm_compute. reflexivity.
Defined.
