(* ===== verification/Supervisor.v ===== *)
(** * Subagents and their supervisor (crate [crustcore-daemon])

    [supervisor.rs] (roles, the agent registry, budgets, the bounded scheduler, the
    blackboard, the integration gate), [exec.rs] (running one subagent and racing several),
    [reviewer.rs] (the panel of blocking reviewers) and [router.rs] (choosing executors);
    [RiskTier], [ExecutorKind] and [TaskShape] are [product.rs]'s. The executor that runs a
    worker and reruns the verifier is the trait [SubagentExecutor]: a class over the world it
    acts on. *)

From S2P Require Import Prelude Text Std.

(** ** Roles *)

Inductive Role :=
| RSupervisor | Planner | Researcher | RepoAnalyst | Architect | Implementer | Tester | Reviewer
| SecurityAuditor | DependencyAnalyst | ReleaseManager | DocumentationWriter | ExternalCodex
| ExternalClaudeCode | ExternalCommand.
#[export] Instance Role_eq_dec : EqDecision Role.
Proof. solve_decision. Defined.

Definition is_supervisor (r : Role) : bool := match r with RSupervisor => true | _ => false end.
Definition can_block_integration (r : Role) : bool :=
  match r with Reviewer | SecurityAuditor | Tester => true | _ => false end.
Definition is_external_worker (r : Role) : bool :=
  match r with ExternalCodex | ExternalClaudeCode | ExternalCommand => true | _ => false end.

(** ** Budgets and the scheduler *)

Record AgentBudget := mkAgentBudget { max_wall_ms : Z; max_output_bytes : Z; max_tokens : Z }.
Record AgentUsage := mkAgentUsage { u_wall_ms : Z; u_output_bytes : Z; u_tokens : Z }.
Definition AgentUsage_default : AgentUsage := mkAgentUsage 0 0 0.
Inductive BudgetError := BEWall | BEOutput | BETokens.
#[export] Instance BudgetError_eq_dec : EqDecision BudgetError.
Proof. solve_decision. Defined.

Definition charge (u delta : AgentUsage) (budget : AgentBudget) : result BudgetError AgentUsage :=
  let next := mkAgentUsage (saturating_add u64_MAX (u_wall_ms u) (u_wall_ms delta))
                (saturating_add u64_MAX (u_output_bytes u) (u_output_bytes delta))
                (saturating_add u64_MAX (u_tokens u) (u_tokens delta)) in
  if max_wall_ms budget <? u_wall_ms next then Err BEWall
  else if max_output_bytes budget <? u_output_bytes next then Err BEOutput
  else if max_tokens budget <? u_tokens next then Err BETokens
  else Ok next.

Inductive SpawnRefused := ConcurrencyCap.
Record Scheduler := mkScheduler { max_concurrent : Z; running : Z }.
Definition Scheduler_new (n : Z) : Scheduler := mkScheduler (Z.max n 1) 0.
Definition try_spawn (s : Scheduler) : result SpawnRefused Scheduler :=
  if max_concurrent s <=? running s then Err ConcurrencyCap
  else Ok (mkScheduler (max_concurrent s) (running s + 1)).
Definition finish (s : Scheduler) : Scheduler :=
  mkScheduler (max_concurrent s) (saturating_sub (running s) 1).

(** ** The registry of agents *)

Abbreviation AgentId := Z (only parsing).
Record AgentSpec := mkAgentSpec { as_id : AgentId; as_role : Role; as_budget : AgentBudget }.
Record AgentRegistry := mkAgentRegistry { agents : list (Z * AgentSpec) }.
Definition AgentRegistry_new : AgentRegistry := mkAgentRegistry [].
Definition agent_register (r : AgentRegistry) (s : AgentSpec) : AgentRegistry :=
  mkAgentRegistry (bt_insert (agents r) (as_id s) s).
Definition agent_get (r : AgentRegistry) (id : AgentId) : option AgentSpec := bt_get (agents r) id.
Definition agent_role (r : AgentRegistry) (id : AgentId) : option Role := as_role <$> agent_get r id.

(** ** The blackboard *)

(** No constructor names the user. *)
Inductive AgentTarget := TSupervisor | TAgent (id : AgentId) | BroadcastToTeam.
#[export] Instance AgentTarget_eq_dec : EqDecision AgentTarget.
Proof. solve_decision. Defined.
Inductive MessageKind :=
| Finding | Hypothesis_ | Question | Answer | Plan | PatchProposal | TestResult | Risk
| CapabilityRequest | Completion.
#[export] Instance MessageKind_eq_dec : EqDecision MessageKind.
Proof. solve_decision. Defined.
Record AgentMessage := mkAgentMessage {
  am_from : AgentId; am_from_role : Role; am_target : AgentTarget; am_kind : MessageKind;
  am_payload : bytes }.
Record Blackboard := mkBlackboard { messages : list AgentMessage }.
Definition Blackboard_new : Blackboard := mkBlackboard [].
Definition post (b : Blackboard) (m : AgentMessage) : Blackboard := mkBlackboard (messages b ++ [m]).
Definition messages_for (b : Blackboard) (t : AgentTarget) : list AgentMessage :=
  filter (λ m, am_target m = t ∨ am_target m = BroadcastToTeam) (messages b).
Definition of_kind (b : Blackboard) (k : MessageKind) : list AgentMessage :=
  filter (λ m, am_kind m = k) (messages b).

(** ** The integration gate *)

Inductive Verdict := VApprove | VBlock (reason : bytes).
Inductive IntegrationDecision :=
| Integrate | BlockedBy (role : Role) (reason : bytes) | NotVerified | MissingReview.

(** The loop over the verdicts, [saw] being [saw_blocking_review]. *)
Fixpoint decide_loop (saw : bool) (verdicts : list (Role * Verdict)) (verified : bool)
  : IntegrationDecision :=
  match verdicts with
  | [] => if negb saw then MissingReview else if negb verified then NotVerified else Integrate
  | (role, verdict) :: rest =>
      if negb (can_block_integration role) then decide_loop saw rest verified
      else match verdict with
           | VBlock reason => BlockedBy role reason
           | VApprove => decide_loop true rest verified
           end
  end.
Definition decide_integration (verdicts : list (Role * Verdict)) (verified : bool)
  : IntegrationDecision := decide_loop false verdicts verified.

(** ** The panel of reviewers *)

Inductive RiskTier := RLow | RStandard | RHigh | RCritical.
Definition risk_rank (r : RiskTier) : Z :=
  match r with RLow => 0 | RStandard => 1 | RHigh => 2 | RCritical => 3 end.
(** The derived [Ord]: [a >= b]. *)
Definition risk_geb (a b : RiskTier) : bool := risk_rank b <=? risk_rank a.
Inductive TaskShape :=
| SUnknown | BugFix | Feature | UiChange | DependencyChange | DocsOnly | WorkflowChange
| SecuritySensitive.
Inductive ExecutorKind := KNative | KCodex | KClaudeCode | KLocalModel | KExternalCommand | KMcpTool.
#[export] Instance RiskTier_eq_dec : EqDecision RiskTier.
Proof. solve_decision. Defined.
#[export] Instance TaskShape_eq_dec : EqDecision TaskShape.
Proof. solve_decision. Defined.
#[export] Instance ExecutorKind_eq_dec : EqDecision ExecutorKind.
Proof. solve_decision. Defined.

Definition required_reviewers (task : TaskShape) (risk : RiskTier) : list Role :=
  match task with
  | SecuritySensitive | WorkflowChange | DependencyChange => [Reviewer; SecurityAuditor]
  | _ => if risk_geb risk RHigh then [Reviewer] else []
  end.
Definition advisory_required (task : TaskShape) (risk : RiskTier) : bool :=
  negb (bool_decide (required_reviewers task risk = [])).

Inductive AdvisoryOutcome :=
| NotRequired | Pending (missing : list Role) | TimedOut (missing : list Role)
| Decided (d : IntegrationDecision).

Definition orchestrate_review (task : TaskShape) (risk : RiskTier)
    (verdicts : list (Role * Verdict)) (verified : bool) (waited_ms max_wait_ms : Z)
  : AdvisoryOutcome :=
  let required := required_reviewers task risk in
  match required with
  | [] => NotRequired
  | _ =>
      let missing := filter (λ r, negb (existsb (λ p, bool_decide (p.1 = r)) verdicts)) required in
      match missing with
      | _ :: _ => if max_wait_ms <=? waited_ms then TimedOut missing else Pending missing
      | [] => Decided (decide_integration verdicts verified)
      end
  end.

(** ** Routing *)

Definition MIN_FANOUT_CONTEXT_BUDGET : Z := 2.
Definition MAX_FANOUT : nat := 2.
Inductive BlockedReason := BRWorkflowChange | NoExecutorConfigured.
Inductive RoutingDecision :=
| SingleExecutor (k : ExecutorKind) | FanOut (ks : list ExecutorKind) | RequiresPlan
| RBlocked (r : BlockedReason).

(** [configured] is not empty: the code indexes [configured[0]]; [None] is that panic. *)
Definition pick_single (configured : list ExecutorKind) : option ExecutorKind :=
  if bool_decide (KNative ∈ configured) then Some KNative
  else if bool_decide (KClaudeCode ∈ configured) then Some KClaudeCode
  else head configured.

Fixpoint pick_fanout_loop (out configured : list ExecutorKind) : list ExecutorKind :=
  match configured with
  | [] => out
  | k :: rest =>
      if decide (MAX_FANOUT ≤ length out)%nat then out
      else if bool_decide (k ∈ out) then pick_fanout_loop out rest
      else pick_fanout_loop (out ++ [k]) rest
  end.
Definition pick_fanout (configured : list ExecutorKind) : list ExecutorKind :=
  pick_fanout_loop [] configured.

Definition decide_routing (task : TaskShape) (risk : RiskTier) (context_budget : Z)
    (configured : list ExecutorKind) : option RoutingDecision :=
  if bool_decide (task = WorkflowChange) then Some (RBlocked BRWorkflowChange)
  else if bool_decide (configured = []) then Some (RBlocked NoExecutorConfigured)
  else if bool_decide (task = SecuritySensitive) || risk_geb risk RCritical then Some RequiresPlan
  else if bool_decide (task = DocsOnly) || risk_geb RLow risk
  then SingleExecutor <$> pick_single configured
  else
    let fleet := pick_fanout configured in
    if (bool_decide (task = Feature) || bool_decide (task = UiChange)) && risk_geb RStandard risk
       && (MIN_FANOUT_CONTEXT_BUDGET <=? context_budget) && bool_decide (2 ≤ length fleet)%nat
    then Some (FanOut fleet)
    else SingleExecutor <$> pick_single configured.

(** ** Running subagents *)

Definition MAX_SUBAGENT_SUMMARY : nat := N.to_nat (8 * 1024).
Record SubagentTask := mkSubagentTask {
  st_task_id : Z; st_goal : bytes; st_verify_program : bytes; st_verify_args : list bytes }.
Record RawSubagentResult := mkRaw {
  rr_verified : bool; rr_self_claimed_done : bool; rr_summary : bytes; rr_usage : AgentUsage }.
Inductive ExecError := EBackend (reason : bytes).
(** [execute(&self, spec, task)]; what it does to the world (worktrees, processes) is [W]. *)
Class SubagentExecutor (W : Type) := {
  execute : AgentSpec → SubagentTask → W → result ExecError RawSubagentResult * W }.
Record SubagentOutcome := mkOutcome {
  so_agent : AgentId; so_role : Role; so_accepted : bool; so_self_claimed_done : bool;
  so_summary : bytes; so_usage : AgentUsage }.
Inductive RunRefused :=
| UnknownAgent | RConcurrency | RBudget (e : BudgetError) | RExec (e : ExecError).

Section exec.
Context {W : Type} `{!SubagentExecutor W}.

Definition run_charged (spec : AgentSpec) (task : SubagentTask) (usage : AgentUsage) (w : W)
  : result RunRefused (RawSubagentResult * AgentUsage) * W :=
  let (r, w) := execute spec task w in
  (raw ← map_err RExec r;
   next ← map_err RBudget (charge usage (rr_usage raw) (as_budget spec));
   Ok (raw, next), w).

(** What a run updates: the scheduler, the agent's usage, the blackboard, the world. The
    guard of the slot runs [finish] on every path after [try_spawn]. *)
Definition run_subagent (agent : AgentId) (registry : AgentRegistry) (task : SubagentTask)
    (scheduler : Scheduler) (usage : AgentUsage) (blackboard : Blackboard) (w : W)
  : result RunRefused SubagentOutcome * (Scheduler * AgentUsage * Blackboard * W) :=
  match agent_get registry agent with
  | None => (Err UnknownAgent, (scheduler, usage, blackboard, w))
  | Some spec =>
      match try_spawn scheduler with
      | Err _ => (Err RConcurrency, (scheduler, usage, blackboard, w))
      | Ok scheduler1 =>
          let (r, w1) := run_charged spec task usage w in
          match r with
          | Err e => (Err e, (finish scheduler1, usage, blackboard, w1))
          | Ok (raw, next_usage) =>
              let accepted := rr_verified raw in
              let summary := truncated (rr_summary raw) MAX_SUBAGENT_SUMMARY in
              let kind := if accepted then PatchProposal else TestResult in
              let blackboard1 :=
                post blackboard (mkAgentMessage agent (as_role spec) TSupervisor kind summary) in
              (Ok (mkOutcome agent (as_role spec) accepted (rr_self_claimed_done raw) summary
                     next_usage),
               (finish scheduler1, next_usage, blackboard1, w1))
          end
      end
  end.

Record FanoutPlan := mkFanoutPlan { fp_task : SubagentTask; fp_proposers : list AgentId }.
Record FanoutResult := mkFanoutResult {
  fr_results : list (AgentId * result RunRefused SubagentOutcome);
  fr_winner : option AgentId; fr_verified : bool }.
(** The state the race threads: scheduler, usages, blackboard, world. *)
Abbreviation Race := (Scheduler * list (Z * AgentUsage) * Blackboard * W)%type.

Fixpoint fanout_loop (registry : AgentRegistry) (task : SubagentTask)
    (results : list (AgentId * result RunRefused SubagentOutcome)) (proposers : list AgentId)
    (st : Race) : (list (AgentId * result RunRefused SubagentOutcome) * option AgentId) * Race :=
  match proposers with
  | [] => ((results, None), st)
  | agent :: rest =>
      let '(scheduler, usages, blackboard, w) := st in
      let usage := default AgentUsage_default (bt_get usages agent) in
      let '(r, (scheduler1, usage1, blackboard1, w1)) :=
        run_subagent agent registry task scheduler usage blackboard w in
      let st1 := (scheduler1, bt_insert usages agent usage1, blackboard1, w1) in
      let results1 := results ++ [(agent, r)] in
      match r with
      | Ok o => if so_accepted o then ((results1, Some agent), st1)
                else fanout_loop registry task results1 rest st1
      | Err _ => fanout_loop registry task results1 rest st1
      end
  end.

Definition run_fanout (plan : FanoutPlan) (registry : AgentRegistry) (st : Race)
  : FanoutResult * Race :=
  let '((results, winner), st) := fanout_loop registry (fp_task plan) [] (fp_proposers plan) st in
  (mkFanoutResult results winner (bool_decide (is_Some winner)), st).

End exec.

(** ** Lemmas *)

Definition within_budget (u : AgentUsage) (b : AgentBudget) : Prop :=
  u_wall_ms u ≤ max_wall_ms b ∧ u_output_bytes u ≤ max_output_bytes b ∧ u_tokens u ≤ max_tokens b.

(** A charge is applied when the sums, saturated, stay inside every axis of the budget. *)
Lemma charge_Ok u d b u' :
  charge u d b = Ok u' ↔
  within_budget u' b ∧
  u' = mkAgentUsage (saturating_add u64_MAX (u_wall_ms u) (u_wall_ms d))
         (saturating_add u64_MAX (u_output_bytes u) (u_output_bytes d))
         (saturating_add u64_MAX (u_tokens u) (u_tokens d)).
Proof.
  unfold charge, within_budget. cbn zeta. simpl. split.
  - destruct (Z.ltb_spec (max_wall_ms b) (saturating_add u64_MAX (u_wall_ms u) (u_wall_ms d)));
      [done|].
    destruct (Z.ltb_spec (max_output_bytes b)
                (saturating_add u64_MAX (u_output_bytes u) (u_output_bytes d))); [done|].
    destruct (Z.ltb_spec (max_tokens b) (saturating_add u64_MAX (u_tokens u) (u_tokens d))); [done|].
    intros [= <-]. simpl. split; [lia|done].
  - intros [(H1 & H2 & H3) ->]. simpl in *.
    by rewrite !(proj2 (Z.ltb_ge _ _)).
Qed.

Lemma charge_within u d b u' : charge u d b = Ok u' → within_budget u' b.
Proof. by intros [? _]%charge_Ok. Qed.

(** A slot that was reserved and released leaves the scheduler as it was. *)
Lemma spawn_finish s s' :
  0 ≤ running s → try_spawn s = Ok s' → finish s' = s.
Proof.
  unfold try_spawn, finish, saturating_sub. destruct s as [m r]. simpl.
  destruct (m <=? r); [done|]. intros Hr [= <-]. simpl. f_equal. lia.
Qed.

Lemma try_spawn_Ok s s' :
  try_spawn s = Ok s' ↔ running s < max_concurrent s ∧ s' = mkScheduler (max_concurrent s) (running s + 1).
Proof.
  unfold try_spawn. destruct (Z.leb_spec (max_concurrent s) (running s)); split; intros H1;
    crush_hyps; try lia; try done. by subst.
Qed.

(** The gate, as a statement about the verdicts of the blocking roles. *)
Lemma decide_loop_Integrate saw vs verified :
  decide_loop saw vs verified = Integrate ↔
  verified = true ∧ (saw = true ∨ ∃ r v, (r, v) ∈ vs ∧ can_block_integration r = true) ∧
  (∀ r v, (r, v) ∈ vs → can_block_integration r = true → v = VApprove).
Proof.
  revert saw. induction vs as [|[role v] vs IH]; intros saw; cbn [decide_loop].
  - split.
    + destruct saw, verified; [|done..]. intros _. split; [done|]. split; [by left|].
      by intros ?? ?%elem_of_nil.
    + intros (-> & [->|(? & ? & ?%elem_of_nil & _)] & _); done.
  - destruct (can_block_integration role) eqn:Hr; simpl.
    + destruct v as [|reason]; [|].
      * rewrite IH. split; intros (Hv & Hs & Hall); (split; [done|]); (split; [|]).
        -- right. exists role, VApprove. split; [left|done].
        -- intros r v [[= -> ->]|Hin]%elem_of_cons; [done|by apply Hall].
        -- by left.
        -- intros r v Hin. apply Hall. by right.
      * split; [done|]. intros (_ & _ & Hall). by specialize (Hall role (VBlock reason)
          (list_elem_of_here _ _) Hr).
    + rewrite IH. split; intros (Hv & Hs & Hall); (split; [done|]); (split; [|]).
      * destruct Hs as [?|(r & v' & ? & ?)]; [by left|right; exists r, v'; split; [by right|done]].
      * intros r v' [[= -> ->]|Hin]%elem_of_cons; [congruence|by apply Hall].
      * destruct Hs as [?|(r & v' & [[= -> ->]|Hin]%elem_of_cons & Hb)]; [by left|congruence|].
        right. eauto.
      * intros r v' Hin. apply Hall. by right.
Qed.

Lemma missing_nil (verdicts : list (Role * Verdict)) (required : list Role) :
  filter (λ r, negb (existsb (λ p, bool_decide (p.1 = r)) verdicts)) required = [] ↔
  ∀ r, r ∈ required → ∃ v, (r, v) ∈ verdicts.
Proof.
  split.
  - intros Hf r Hr. destruct (existsb (λ p, bool_decide (p.1 = r)) verdicts) eqn:E.
    + apply existsb_exists in E as ([r' v] & Hin & Hr'%bool_decide_eq_true).
      simpl in Hr'. subst r'. exists v. by apply list_elem_of_In.
    + assert (r ∈ filter (λ r, negb (existsb (λ p, bool_decide (p.1 = r)) verdicts)) required)
        as Hin by (apply list_elem_of_filter; by rewrite E).
      rewrite Hf in Hin. by apply elem_of_nil in Hin.
  - intros Hall. destruct (filter _ _) as [|r l] eqn:E; [done|].
    assert (r ∈ filter (λ r, negb (existsb (λ p, bool_decide (p.1 = r)) verdicts)) required)
      as [Hn Hr]%list_elem_of_filter by (rewrite E; left).
    destruct (Hall r Hr) as [v Hv]. apply Is_true_true, negb_true_iff in Hn.
    rewrite (proj2 (existsb_exists _ _)) in Hn; [done|].
    exists (r, v). split; [by apply list_elem_of_In|]. by apply bool_decide_eq_true.
Qed.

Lemma required_block task risk r :
  r ∈ required_reviewers task risk → can_block_integration r = true.
Proof.
  unfold required_reviewers. destruct task, (risk_geb risk RHigh); set_solver.
Qed.

(** ** Theorems *)

(** The panel of reviewers lets a change integrate exactly when the task needs a panel,
    every role of the panel has reported, the verifier has accepted the change and every
    verdict of a blocking role, required or not, is an approval; a verdict of any other role
    counts for nothing and no wait ends in a decision. *)
Theorem review_integrates_iff task risk verdicts verified waited max_wait :
  orchestrate_review task risk verdicts verified waited max_wait = Decided Integrate ↔
  advisory_required task risk = true ∧ verified = true ∧
  (∀ r, r ∈ required_reviewers task risk → ∃ v, (r, v) ∈ verdicts) ∧
  (∀ r v, (r, v) ∈ verdicts → can_block_integration r = true → v = VApprove).
Proof.
  unfold orchestrate_review, advisory_required. cbv zeta. rewrite <-(missing_nil verdicts).
  pose proof (required_block task risk) as Hblock.
  destruct (required_reviewers task risk) as [|r0 required] eqn:Hreq.
  { rewrite bool_decide_eq_true_2 by done. split; [done|]. by intros [? _]. }
  rewrite bool_decide_eq_false_2 by done.
  destruct (filter _ (r0 :: required)) as [|m missing] eqn:Hm.
  2: { destruct (max_wait <=? waited); (split; [done|]); by intros (_ & _ & ? & _). }
  pose proof (proj1 (missing_nil _ _) Hm r0 (list_elem_of_here _ _)) as [v Hv].
  split.
  - intros [= (? & _ & Hall)%decide_loop_Integrate]. done.
  - intros (_ & Hver & _ & Hall). f_equal. apply decide_loop_Integrate.
    split; [done|]. split; [|done]. right. exists r0, v. split; [done|]. apply Hblock. left.
Qed.

(** What a run that was not refused posts: one message, to the supervisor, under the role the
    registry has for the agent. *)
Definition message_of (p : AgentId * result RunRefused SubagentOutcome) : option AgentMessage :=
  match p.2 with
  | Ok o => Some (mkAgentMessage p.1 (so_role o) TSupervisor
                    (if so_accepted o then PatchProposal else TestResult) (so_summary o))
  | Err _ => None
  end.
Definition accepted_result (p : AgentId * result RunRefused SubagentOutcome) : Prop :=
  match p.2 with Ok o => so_accepted o = true | Err _ => False end.

Section fanout.
Context {W : Type} `{!SubagentExecutor W}.

(** The evidence behind an outcome: a registered agent, a run of the executor for it, a
    charge inside its budget, and acceptance that is the verifier's. *)
Definition justified (registry : AgentRegistry) (task : SubagentTask)
    (p : AgentId * result RunRefused SubagentOutcome) : Prop :=
  match p.2 with
  | Err _ => True
  | Ok o => ∃ spec raw w w',
      agent_get registry p.1 = Some spec ∧ execute spec task w = (Ok raw, w') ∧
      so_agent o = p.1 ∧ so_role o = as_role spec ∧ so_accepted o = rr_verified raw ∧
      within_budget (so_usage o) (as_budget spec) ∧
      so_summary o = truncated (rr_summary raw) MAX_SUBAGENT_SUMMARY
  end.

Lemma run_subagent_spec agent registry task s u b w r s' u' b' w' :
  0 ≤ running s →
  run_subagent agent registry task s u b w = (r, (s', u', b', w')) →
  s' = s ∧ justified registry task (agent, r) ∧
  messages b' = messages b ++ option_list (message_of (agent, r)) ∧
  match r with Ok o => u' = so_usage o | Err _ => u' = u end.
Proof.
  intros Hrun. unfold run_subagent.
  destruct (agent_get registry agent) as [spec|] eqn:Hspec.
  2: { intros [= <- <- <- <- <-]. simpl. by rewrite app_nil_r. }
  destruct (try_spawn s) as [s1|e] eqn:Hspawn.
  2: { intros [= <- <- <- <- <-]. simpl. by rewrite app_nil_r. }
  unfold run_charged. destruct (execute spec task w) as [[raw|e] w1] eqn:Hex; simpl.
  2: { intros [= <- <- <- <- <-]. simpl. rewrite app_nil_r. by rewrite (spawn_finish s s1). }
  destruct (charge u (rr_usage raw) (as_budget spec)) as [next|e] eqn:Hc; simpl.
  2: { intros [= <- <- <- <- <-]. simpl. rewrite app_nil_r. by rewrite (spawn_finish s s1). }
  intros [= <- <- <- <- <-]. rewrite (spawn_finish s s1) by done. split; [done|].
  split; [|done]. simpl. exists spec, raw, w, w1. repeat split; try done; by eapply charge_within.
Qed.

Lemma fanout_loop_spec registry task proposers : ∀ results s us b w results' winner s' us' b' w',
  0 ≤ running s →
  fanout_loop registry task results proposers (s, us, b, w)
    = ((results', winner), (s', us', b', w')) →
  ∃ new, results' = results ++ new ∧ s' = s ∧
    messages b' = messages b ++ omap message_of new ∧
    Forall (justified registry task) new ∧ new.*1 `prefix_of` proposers ∧
    match winner with
    | Some a => ∃ init o, new = init ++ [(a, Ok o)] ∧ so_accepted o = true ∧
                          Forall (λ p, ¬ accepted_result p) init
    | None => new.*1 = proposers ∧ Forall (λ p, ¬ accepted_result p) new
    end.
Proof.
  induction proposers as [|agent rest IH]; intros results s us b w results' winner s' us' b' w' Hrun.
  - intros [= <- <- <- <- <- <-]. exists []. simpl. by rewrite !app_nil_r.
  - cbn [fanout_loop].
    destruct (run_subagent _ _ _ _ _ _ _) as [r [[[s1 u1] b1] w1]] eqn:Hsub.
    apply run_subagent_spec in Hsub as (-> & Hj & Hb & _); [|done]. intros Hloop.
    assert ((r = r ∧ accepted_result (agent, r) ∧
             results' = results ++ [(agent, r)] ∧ winner = Some agent ∧ s' = s ∧ b' = b1) ∨
            (¬ accepted_result (agent, r) ∧
             fanout_loop registry task (results ++ [(agent, r)]) rest
               (s, bt_insert us agent u1, b1, w1) = ((results', winner), (s', us', b', w'))))
      as [(_ & Hacc & -> & -> & -> & ->)|[Hacc Hrest]].
    { destruct r as [o|e]; [|right; split; [tauto|done]]. unfold accepted_result. simpl.
      destruct (so_accepted o); [left|right]; [|by split]. injection Hloop. by intros <- <- <- <- <-. }
    + exists [(agent, r)]. split; [done|]. split; [done|].
      split; [rewrite Hb; simpl; by destruct (message_of (agent, r))|].
      split; [by constructor|]. split; [apply prefix_cons, prefix_nil|].
      destruct r as [o|e]; [|done]. exists [], o. split; [done|]. split; [done|constructor].
    + apply IH in Hrest as (new & -> & -> & Hb' & Hjs & Hpre & Hw); [|done].
      exists ((agent, r) :: new). rewrite <-app_assoc. split; [done|]. split; [done|].
      split; [rewrite Hb', Hb, <-app_assoc; simpl; by destruct (message_of (agent, r))|].
      split; [by constructor|]. split; [by apply prefix_cons|].
      destruct winner as [a|].
      * destruct Hw as (init & o & -> & Ho & Hinit). exists ((agent, r) :: init), o.
        split; [done|]. split; [done|]. by constructor.
      * destruct Hw as [<- Hn]. split; [done|]. by constructor.
Qed.

End fanout.

(** A race of proposers releases every slot it reserves, posts exactly one message to
    the supervisor for each run that was not refused, under the role of the registry and
    within the summary cap, and every outcome is backed by a run of the executor inside the
    agent's budget. The winner is the first proposer in order whose run the verifier
    accepted, and the race stops there; without a winner every proposer was tried and none
    was accepted. *)
Theorem fanout_exact {W} `{!SubagentExecutor W} plan registry s us b w res s' us' b' w' :
  0 ≤ running s →
  run_fanout plan registry (s, us, b, w) = (res, (s', us', b', w')) →
  s' = s ∧
  messages b' = messages b ++ omap message_of (fr_results res) ∧
  Forall (justified registry (fp_task plan)) (fr_results res) ∧
  (fr_results res).*1 `prefix_of` fp_proposers plan ∧
  fr_verified res = bool_decide (is_Some (fr_winner res)) ∧
  match fr_winner res with
  | Some a => ∃ init o, fr_results res = init ++ [(a, Ok o)] ∧ so_accepted o = true ∧
                        Forall (λ p, ¬ accepted_result p) init
  | None => (fr_results res).*1 = fp_proposers plan ∧
            Forall (λ p, ¬ accepted_result p) (fr_results res)
  end.
Proof.
  intros Hrun. unfold run_fanout.
  destruct (fanout_loop _ _ _ _ _) as [[results winner] [[[s1 us1] b1] w1]] eqn:Hl.
  apply fanout_loop_spec in Hl as (new & -> & -> & Hb & Hj & Hpre & Hw); [|done].
  intros [= <- <- <- <- <-]. done.
Qed.

(** A worker that lies about being done: the executor with its claims overwritten. *)
Definition claiming {W} (lie : RawSubagentResult → bool) (E : SubagentExecutor W)
  : SubagentExecutor W := {|
  execute := λ spec task w,
    let (r, w') := @execute W E spec task w in
    ((λ raw, mkRaw (rr_verified raw) (lie raw) (rr_summary raw) (rr_usage raw)) <$> r, w') |}.
(** An outcome without the claim it carries for contrast. *)
Definition unclaimed (r : result RunRefused SubagentOutcome) : result RunRefused SubagentOutcome :=
  (λ o, mkOutcome (so_agent o) (so_role o) (so_accepted o) false (so_summary o) (so_usage o)) <$> r.

Lemma run_subagent_claiming {W} (E : SubagentExecutor W) lie agent registry task s u b w :
  unclaimed (@run_subagent W (claiming lie E) agent registry task s u b w).1
    = unclaimed (@run_subagent W E agent registry task s u b w).1 ∧
  (@run_subagent W (claiming lie E) agent registry task s u b w).2
    = (@run_subagent W E agent registry task s u b w).2.
Proof.
  unfold run_subagent, run_charged. cbn [execute claiming].
  destruct (agent_get registry agent) as [spec|]; [|done].
  destruct (try_spawn s); [|done]. destruct (execute spec task w) as [[raw|e] w1]; [|done].
  simpl. by destruct (charge u (rr_usage raw) (as_budget spec)).
Qed.

Lemma fanout_loop_claiming {W} (E : SubagentExecutor W) lie registry task proposers :
  ∀ rs rs' st, prod_map id unclaimed <$> rs = prod_map id unclaimed <$> rs' →
  let L := @fanout_loop W (claiming lie E) registry task rs proposers st in
  let R := @fanout_loop W E registry task rs' proposers st in
  prod_map id unclaimed <$> L.1.1 = prod_map id unclaimed <$> R.1.1 ∧ L.1.2 = R.1.2 ∧ L.2 = R.2.
Proof.
  induction proposers as [|agent rest IH]; intros rs rs' [[[s us] b] w] Hrs; [done|].
  cbn [fanout_loop]. set (u := default AgentUsage_default (bt_get us agent)).
  pose proof (run_subagent_claiming E lie agent registry task s u b w) as [H1 H2].
  destruct (@run_subagent W (claiming lie E) agent registry task s u b w) as [r1 st1].
  destruct (@run_subagent W E agent registry task s u b w) as [r2 st2]. simpl in H1, H2. subst st2.
  destruct st1 as [[[s1 u1] b1] w1].
  assert (prod_map id unclaimed <$> rs ++ [(agent, r1)]
          = prod_map id unclaimed <$> rs' ++ [(agent, r2)]) as Hrs1
    by (rewrite !fmap_app, Hrs; simpl; by rewrite H1).
  destruct r1 as [o1|e1], r2 as [o2|e2]; simpl in H1; try done; [|by apply IH].
  injection H1 as H1 H3 H4 H5 H6. rewrite H4. destruct (so_accepted o2); [done|by apply IH].
Qed.

(** What a worker says about itself has no influence: whatever claims of being done the
    executor's results carry, the race has the same winner, the same results up to the
    recorded claims, the same usages, messages, slots and effects. *)
Theorem fanout_ignores_claims {W} (E : SubagentExecutor W) lie plan registry st :
  let L := @run_fanout W (claiming lie E) plan registry st in
  let R := @run_fanout W E plan registry st in
  fr_winner L.1 = fr_winner R.1 ∧ fr_verified L.1 = fr_verified R.1 ∧ L.2 = R.2 ∧
  prod_map id unclaimed <$> fr_results L.1 = prod_map id unclaimed <$> fr_results R.1.
Proof.
  cbv zeta. unfold run_fanout.
  pose proof (fanout_loop_claiming E lie registry (fp_task plan) (fp_proposers plan) [] [] st eq_refl)
    as (H1 & H2 & H3).
  destruct (@fanout_loop W (claiming lie E) _ _ _ _ _) as [[r1 w1] st1].
  destruct (@fanout_loop W E _ _ _ _ _) as [[r2 w2] st2]. simpl in *. by subst.
Qed.

(** An executor for the examples: the agent's id decides, the world counts the runs. *)
#[local] Instance demo_executor : SubagentExecutor Z := {|
  execute := λ spec task w,
    (if as_id spec =? 1 then Err (EBackend (lit "sandbox unavailable"))
     else Ok (mkRaw (3 <=? as_id spec) true (lit "patched") (mkAgentUsage 5 7 0)), w + 1) |}.
Definition demo_registry : AgentRegistry :=
  fold_left agent_register
    [mkAgentSpec 1 ExternalCodex (mkAgentBudget 10 10 10);
     mkAgentSpec 2 Implementer (mkAgentBudget 10 10 10);
     mkAgentSpec 3 ExternalClaudeCode (mkAgentBudget 10 10 10)] AgentRegistry_new.
Definition demo_plan : FanoutPlan := mkFanoutPlan (mkSubagentTask 9 (lit "fix") (lit "cargo") []) [1; 2; 8; 3; 2].

(** The race of the example: a failed executor, a run not accepted, an unknown agent, and
    the winner, after which agent 2 is not tried again. *)
Lemma fanout_exact_witness :
  ∃ res b', run_fanout demo_plan demo_registry (Scheduler_new 0, [], Blackboard_new, 0)
            = (res, (Scheduler_new 0, [(1, AgentUsage_default); (2, mkAgentUsage 5 7 0);
                       (3, mkAgentUsage 5 7 0); (8, AgentUsage_default)], b', 3)) ∧
    fr_winner res = Some 3 ∧ length (messages b') = 2%nat ∧
    Forall (justified demo_registry (fp_task demo_plan)) (fr_results res).
Proof.
  eexists _, _. split; [vm_compute; reflexivity|]. split; [reflexivity|]. split; [reflexivity|].
  eapply (fanout_exact demo_plan demo_registry (Scheduler_new 0) [] Blackboard_new 0);
    [vm_compute; congruence|vm_compute; reflexivity].
Defined.

Lemma pick_single_elem configured :
  configured ≠ [] → ∃ k, pick_single configured = Some k ∧ k ∈ configured.
Proof.
  intros Hne. unfold pick_single. case_bool_decide; [eauto|]. case_bool_decide; [eauto|].
  destruct configured as [|k l]; [done|]. exists k. split; [done|left].
Qed.

Lemma pick_fanout_loop_spec configured : ∀ out,
  NoDup out → (length out ≤ MAX_FANOUT)%nat →
  NoDup (pick_fanout_loop out configured) ∧ (length (pick_fanout_loop out configured) ≤ MAX_FANOUT)%nat ∧
  ∀ k, k ∈ pick_fanout_loop out configured → k ∈ out ∨ k ∈ configured.
Proof.
  induction configured as [|k l IH]; intros out Hnd Hlen; cbn [pick_fanout_loop]; [auto|].
  case_decide as Hfull; [auto|]. case_bool_decide as Hin.
  - destruct (IH out Hnd Hlen) as (? & ? & Hk). split; [done|]. split; [done|].
    intros k' Hk'. destruct (Hk k' Hk'); [by left|right; by right].
  - destruct (IH (out ++ [k])) as (? & ? & Hk).
    + apply NoDup_app. split; [done|]. split; [|apply NoDup_singleton].
      by intros x Hx ->%list_elem_of_singleton.
    + rewrite length_app. simpl. lia.
    + split; [done|]. split; [done|]. intros k' Hk'.
      destruct (Hk k' Hk') as [[?| ->%list_elem_of_singleton]%elem_of_app|?];
        [by left|right; left|right; by right].
Qed.

(** Routing is total and chooses only workers that are configured: a workflow change is
    never executed, a security-sensitive or critical one only ever gets a plan, and a
    fan-out is two distinct configured executors for a feature or UI change of at most
    standard risk that can pay for it. *)
Theorem routing_sound task risk context_budget configured :
  ∃ d, decide_routing task risk context_budget configured = Some d ∧
  match d with
  | SingleExecutor k => k ∈ configured ∧ task ≠ WorkflowChange ∧ task ≠ SecuritySensitive ∧ risk ≠ RCritical
  | FanOut ks => length ks = 2%nat ∧ NoDup ks ∧ (∀ k, k ∈ ks → k ∈ configured) ∧
                 (task = Feature ∨ task = UiChange) ∧ risk = RStandard ∧
                 MIN_FANOUT_CONTEXT_BUDGET ≤ context_budget
  | RequiresPlan => task = SecuritySensitive ∨ risk = RCritical
  | RBlocked BRWorkflowChange => task = WorkflowChange
  | RBlocked NoExecutorConfigured => configured = []
  end.
Proof.
  unfold decide_routing.
  case_bool_decide as Hw; [by eexists|]. case_bool_decide as Hc; [by eexists|].
  destruct (pick_single_elem configured Hc) as (k & Hk & Hin).
  case_bool_decide as Hs; simpl; [eexists; split; [done|by left]|].
  destruct (risk_geb risk RCritical) eqn:Hr; [eexists; split; [done|]; right; by destruct risk|].
  assert (risk ≠ RCritical) as Hrc by (by intros ->). rewrite Hk.
  assert (∃ d, SingleExecutor <$> Some k = Some d ∧ d = SingleExecutor k) as (d & Hd & ->) by eauto.
  destruct (bool_decide (task = DocsOnly) || risk_geb RLow risk) eqn:Hlow;
    [exists (SingleExecutor k); naive_solver|].
  cbv zeta. destruct (_ && _) eqn:Hf; [|exists (SingleExecutor k); naive_solver].
  eexists. split; [done|]. apply andb_true_iff in Hf as [Hf Hlen%bool_decide_eq_true].
  apply andb_true_iff in Hf as [Hf Hbud%Z.leb_le]. apply andb_true_iff in Hf as [Htask Hst].
  destruct (pick_fanout_loop_spec configured []) as (Hnd & Hmax & Hmem);
    [constructor|simpl; unfold MAX_FANOUT; lia|].
  unfold pick_fanout in *. unfold MAX_FANOUT in Hmax. split; [lia|]. split; [done|].
  split; [intros k' Hk'; destruct (Hmem k' Hk') as [?%elem_of_nil|?]; done|].
  apply orb_true_iff in Htask as [->%bool_decide_eq_true| ->%bool_decide_eq_true];
    (split; [by auto|]); (split; [|done]); destruct risk; vm_compute in Hlow, Hst; done.
Qed.
