(* ===== verification/Cursor.v ===== *)
(** * Bounded readers over bytes

    The cursor with which the source decodes its snapshot files: a read past the end is [None]. *)

From S2P Require Import Prelude Text Std.

(** The cursor, and the reader it gives: a step is [None] when the bytes run out. *)
Record SnapCursor := mkCursor { c_bytes : bytes; c_pos : nat }.
Definition Rd (A : Type) : Type := SnapCursor → option (A * SnapCursor).
#[export] Instance rd_ret : MRet Rd := λ A a c, Some (a, c).
#[export] Instance rd_bind : MBind Rd := λ A B f m c, '(a, c') ← m c; f a c'.
Definition cursor_take (n : nat) : Rd bytes := λ c,
  s ← slice (c_bytes c) (c_pos c) (c_pos c + n); Some (s, mkCursor (c_bytes c) (c_pos c + n)).
Definition rd_fail {A} : Rd A := λ _, None.
Definition read_u8 : Rd Z := s ← cursor_take 1; mret (from_le_bytes s).
Definition read_u32 : Rd Z := s ← cursor_take 4; mret (from_le_bytes s).
Definition read_u64 : Rd Z := s ← cursor_take 8; mret (from_le_bytes s).
Definition read_i64 : Rd Z := s ← cursor_take 8; mret (signed64 (from_le_bytes s)).

(** ** Lemmas *)

(** A reader reads [a] from [bs]: on a cursor with [bs] ahead it returns [a] and stops right
    after, whatever follows. *)
Definition rest (c : SnapCursor) : bytes := drop (c_pos c) (c_bytes c).
Definition reads {A} (m : Rd A) (bs : bytes) (a : A) : Prop :=
  ∀ c R, (c_pos c ≤ length (c_bytes c))%nat → rest c = bs ++ R →
  ∃ c', m c = Some (a, c') ∧ (c_pos c' ≤ length (c_bytes c'))%nat ∧ rest c' = R.

Lemma reads_ret {A} (a : A) : reads (mret a) [] a.
Proof. intros c R Hc Hr. by exists c. Qed.

Lemma reads_bind {A B} (m : Rd A) (f : A → Rd B) b1 b2 a b :
  reads m b1 a → reads (f a) b2 b → reads (x ← m; f x) (b1 ++ b2) b.
Proof.
  intros Hm Hf c R Hc Hr. rewrite <-app_assoc in Hr.
  destruct (Hm c _ Hc Hr) as (c1 & E1 & Hc1 & Hr1).
  destruct (Hf c1 R Hc1 Hr1) as (c2 & E2 & Hc2 & Hr2).
  exists c2. split; [|done]. unfold mbind, rd_bind. by rewrite E1; simpl.
Qed.

Lemma reads_map {A B} (m : Rd A) (f : A → B) bs a : reads m bs a → reads (x ← m; mret (f x)) bs (f a).
Proof. intros Hm. rewrite <-(app_nil_r bs). by eapply reads_bind; [|apply reads_ret]. Qed.

Lemma reads_take n bs : length bs = n → reads (cursor_take n) bs bs.
Proof.
  intros Hn c R Hc Hr. destruct (slice_at_intro n _ _ _ _ Hr Hn Hc) as (Hs & Hd & Hle).
  exists (mkCursor (c_bytes c) (c_pos c + n)). unfold cursor_take. rewrite Hs. simpl.
  split; [done|]. split; [lia|]. unfold rest. simpl. done.
Qed.

Lemma reads_uint n v :
  0 ≤ v < 256 ^ Z.of_nat n →
  reads (s ← cursor_take n; mret (from_le_bytes s)) (to_le_bytes n v) v.
Proof.
  intros Hv. rewrite <-(from_to_le_bytes n v) at 2 by done. apply reads_map, reads_take, length_to_le_bytes.
Qed.

Lemma reads_u8 v : 0 ≤ v < 256 → reads read_u8 [v] v.
Proof.
  intros Hv. assert (to_le_bytes 1 v = [v]) as Heq
    by (unfold to_le_bytes; by rewrite Z.mod_small by lia).
  rewrite <-Heq at 1. apply reads_uint. lia.
Qed.

Lemma reads_u64 v : is_uint 64 v → reads read_u64 (to_le_bytes 8 v) v.
Proof. unfold is_uint. intros Hv. apply reads_uint. change (Z.of_nat 8) with 8. lia. Qed.

Lemma reads_u32 v : is_uint 32 v → reads read_u32 (to_le_bytes 4 v) v.
Proof. unfold is_uint. intros Hv. apply reads_uint. change (Z.of_nat 4) with 4. lia. Qed.

Lemma reads_i64 v : i64_MIN ≤ v ≤ i64_MAX → reads read_i64 (to_le_bytes 8 v) v.
Proof.
  intros Hv. rewrite <-to_le_bytes_mod. change (256 ^ Z.of_nat 8) with (2 ^ 64).
  rewrite <-(app_nil_r (to_le_bytes 8 _)).
  eapply reads_bind; [apply reads_take, length_to_le_bytes|].
  rewrite from_to_le_bytes by (change (256 ^ Z.of_nat 8) with (2 ^ 64); apply Z.mod_pos_bound; lia).
  rewrite signed64_mod by done. apply reads_ret.
Qed.
Lemma reads_cons {A} b (f : Z → Rd A) bs a :
  0 ≤ b < 256 → reads (f b) bs a → reads (x ← read_u8; f x) (b :: bs) a.
Proof. intros Hb Hf. change (b :: bs) with ([b] ++ bs). eapply reads_bind; [by apply reads_u8|done]. Qed.

Lemma rd_bind_inv {A B} (m : Rd A) (f : A → Rd B) c b c' :
  (x ← m; f x) c = Some (b, c') → ∃ a c1, m c = Some (a, c1) ∧ f a c1 = Some (b, c').
Proof.
  unfold mbind, rd_bind. destruct (m c) as [[a c1]|]; [|done]. simpl. eauto.
Qed.

Lemma cursor_take_length n c s c' : cursor_take n c = Some (s, c') → length s = n.
Proof.
  unfold cursor_take. destruct (slice _ _ _) as [v|] eqn:E; [|done]. intros [= <- <-].
  apply slice_Some in E as (? & _ & ->). lia.
Qed.
