(* ===== verification/Registry.v ===== *)
(** * The registry of supervised tasks (crate [crustcore-daemon], [registry.rs])

    The lifecycle of chat-launched tasks: leases, heartbeats, cancellation, the [tick] that
    charges, expires and finalizes, and the [CCTS] dump from which a restarted daemon adopts
    its tasks. The map of slots is ordered by id, as the source's [BTreeMap]; a slot carries
    its id as well, as in the source. *)

From S2P Require Import Prelude Text Std Cursor Types Supervisor.

(** ** Leases, phases, slots *)

Definition LEASE_TTL_MS : Z := 60000.
Definition default_task_budget : AgentBudget := mkAgentBudget (30 * 60 * 1000) (Z.shiftl 1 20) 1000000.

Abbreviation LeaseOwner := Z (only parsing).
Abbreviation ChatId := Z (only parsing).
Record Lease := mkTaskLease { owner : LeaseOwner; expires_at : Timestamp; heartbeat_at : Timestamp }.
Definition Lease_granted (o : LeaseOwner) (now : Timestamp) : Lease :=
  mkTaskLease o (saturating_add u64_MAX now LEASE_TTL_MS) now.
Definition Lease_refresh (l : Lease) (now : Timestamp) : Lease :=
  mkTaskLease (owner l) (saturating_add u64_MAX now LEASE_TTL_MS) now.
Definition expired_at (l : Lease) (now : Timestamp) : bool := expires_at l <? now.

Inductive TaskDone :=
| DCompleted | DCancelled | DKilled | DExpired | DBudgetExhausted (e : BudgetError).
Inductive TaskPhase := PPending | PRunning | PCancelling | PDone (d : TaskDone).
#[export] Instance TaskDone_eq_dec : EqDecision TaskDone.
Proof. solve_decision. Defined.
#[export] Instance TaskPhase_eq_dec : EqDecision TaskPhase.
Proof. solve_decision. Defined.

Definition done_label (d : TaskDone) : bytes :=
  match d with
  | DCompleted => lit "completed"
  | DCancelled => lit "cancelled"
  | DKilled => lit "killed"
  | DExpired => lit "expired (stalled, reclaimed)"
  | DBudgetExhausted _ => lit "killed (budget exhausted)"
  end.
Definition is_terminal (p : TaskPhase) : bool := match p with PDone _ => true | _ => false end.
Definition is_active (p : TaskPhase) : bool :=
  match p with PPending | PRunning | PCancelling => true | PDone _ => false end.

Record TaskSlot := mkSlot {
  s_id : Z; s_chat : ChatId; s_phase : TaskPhase; s_lease : Lease; s_budget : AgentBudget;
  s_usage : AgentUsage; s_started_at : Timestamp; s_last_charge_at : Timestamp }.
Definition set_phase (s : TaskSlot) (p : TaskPhase) : TaskSlot :=
  mkSlot (s_id s) (s_chat s) p (s_lease s) (s_budget s) (s_usage s) (s_started_at s)
    (s_last_charge_at s).
Definition set_lease (s : TaskSlot) (l : Lease) : TaskSlot :=
  mkSlot (s_id s) (s_chat s) (s_phase s) l (s_budget s) (s_usage s) (s_started_at s)
    (s_last_charge_at s).
Definition set_usage (s : TaskSlot) (u : AgentUsage) (now : Timestamp) : TaskSlot :=
  mkSlot (s_id s) (s_chat s) (s_phase s) (s_lease s) (s_budget s) u (s_started_at s) now.

Inductive RegistryAction :=
| SendLine (chat : ChatId) (line : bytes)
| RequestCancel (id : Z)
| HardKill (id : Z)
| Finalize (id : Z) (done : TaskDone).
Inductive AdmitError := AdmitConcurrencyCap.

Record TaskRegistry := mkTaskRegistry {
  slots : list (Z * TaskSlot); sched : Scheduler; r_owner : LeaseOwner; next_id : Z }.
Definition TaskRegistry_new (n : Z) (o : LeaseOwner) : TaskRegistry :=
  mkTaskRegistry [] (Scheduler_new n) o 1.
(** [if let Some(slot) = self.slots.get_mut(&id) { ... }]. *)
Definition with_slot (r : TaskRegistry) (id : Z) (f : TaskSlot → TaskSlot) : TaskRegistry :=
  mkTaskRegistry (bt_adjust f id (slots r)) (sched r) (r_owner r) (next_id r).

(** ** Operations *)

Definition admit_task (r : TaskRegistry) (chat : ChatId) (budget : AgentBudget) (now : Timestamp)
  : result AdmitError Z * TaskRegistry :=
  match try_spawn (sched r) with
  | Err _ => (Err AdmitConcurrencyCap, r)
  | Ok sched1 =>
      let id := next_id r in
      (Ok id,
       mkTaskRegistry
         (bt_insert (slots r) id
            (mkSlot id chat PPending (Lease_granted (r_owner r) now) budget AgentUsage_default now now))
         sched1 (r_owner r) (wrapping_add 64 (next_id r) 1))
  end.

Definition mark_running (r : TaskRegistry) (id : Z) (now : Timestamp) : TaskRegistry :=
  with_slot r id (λ s,
    if bool_decide (s_phase s = PPending)
    then set_lease (set_phase s PRunning) (Lease_refresh (s_lease s) now) else s).

(** The charge shared by [observe_progress] and [tick]: the wall time since the last charge
    and the output; a breach ends the task. *)
Definition charge_slot (s : TaskSlot) (output_bytes : Z) (now : Timestamp) : TaskSlot :=
  let delta := mkAgentUsage (saturating_sub now (s_last_charge_at s)) output_bytes 0 in
  match charge (s_usage s) delta (s_budget s) with
  | Ok next => set_usage s next now
  | Err e => set_phase s (PDone (DBudgetExhausted e))
  end.

Definition observe_progress (r : TaskRegistry) (id : Z) (output_bytes : Z) (now : Timestamp)
  : TaskRegistry :=
  with_slot r id (λ s,
    if is_terminal (s_phase s) then s
    else charge_slot (set_lease s (Lease_refresh (s_lease s) now)) output_bytes now).

Definition heartbeat (r : TaskRegistry) (id : Z) (now : Timestamp) : TaskRegistry :=
  with_slot r id (λ s,
    if negb (is_terminal (s_phase s)) then set_lease s (Lease_refresh (s_lease s) now) else s).

Definition observe_finished (r : TaskRegistry) (id : Z) : TaskRegistry :=
  with_slot r id (λ s,
    if negb (is_terminal (s_phase s)) then set_phase s (PDone DCompleted) else s).

Definition request_cancel (r : TaskRegistry) (id : Z) (chat : ChatId) : bool * TaskRegistry :=
  match bt_get (slots r) id with
  | Some s =>
      if (s_chat s =? chat) && is_active (s_phase s)
      then (true, with_slot r id (λ s, set_phase s PCancelling)) else (false, r)
  | None => (false, r)
  end.

Definition request_kill (r : TaskRegistry) (id : Z) (chat : ChatId) : bool * TaskRegistry :=
  match bt_get (slots r) id with
  | Some s =>
      if (s_chat s =? chat) && negb (is_terminal (s_phase s))
      then (true, with_slot r id (λ s, set_phase s (PDone DKilled))) else (false, r)
  | None => (false, r)
  end.

(** Phase 1 of [tick], for one slot: what it becomes and the actions it pushes. *)
Definition tick_slot (now : Timestamp) (s : TaskSlot) : TaskSlot * list RegistryAction :=
  match s_phase s with
  | PRunning | PPending =>
      let s1 := charge_slot s 0 now in
      if is_terminal (s_phase s1) then (s1, [])
      else if expired_at (s_lease s1) now then (set_phase s1 (PDone DExpired), []) else (s1, [])
  | PCancelling =>
      (if expired_at (s_lease s) now then set_phase s (PDone DKilled) else s, [RequestCancel (s_id s)])
  | PDone _ => (s, [])
  end.

(** Phase 2: the terminal tasks, and what finalizing one of them emits and frees. *)
Definition terminal_of (s : TaskSlot) : option (Z * ChatId * TaskDone) :=
  match s_phase s with PDone d => Some (s_id s, s_chat s, d) | _ => None end.
Definition needs_kill (d : TaskDone) : bool :=
  match d with DKilled | DBudgetExhausted _ => true | _ => false end.
Definition finalize_actions (t : Z * ChatId * TaskDone) : list RegistryAction :=
  let '(id, chat, d) := t in
  (if needs_kill d then [HardKill id] else []) ++
  [SendLine chat (lit "task #" ++ dec_u id ++ lit " " ++ done_label d ++ lit "."); Finalize id d].
Definition finalize_one (acc : list (Z * TaskSlot) * Scheduler * list RegistryAction)
    (t : Z * ChatId * TaskDone) : list (Z * TaskSlot) * Scheduler * list RegistryAction :=
  let '(ss, sc, acts) := acc in (bt_remove t.1.1 ss, finish sc, acts ++ finalize_actions t).

Definition tick (r : TaskRegistry) (now : Timestamp) : list RegistryAction * TaskRegistry :=
  let stepped := (λ p, (p.1, (tick_slot now p.2).1)) <$> slots r in
  let actions1 := slots r ≫= (λ p, (tick_slot now p.2).2) in
  let terminal := omap (λ p, terminal_of p.2) stepped in
  let '(ss, sc, acts) := fold_left finalize_one terminal (stepped, sched r, actions1) in
  (acts, mkTaskRegistry ss sc (r_owner r) (next_id r)).

Definition len_active (r : TaskRegistry) : nat :=
  length (filter (λ p, is_active (s_phase p.2)) (slots r)).

Record TaskRow := mkTaskRow {
  row_id : Z; row_chat : ChatId; row_phase : TaskPhase; row_wall_ms : Z; row_output_bytes : Z;
  row_lease_ttl_ms : Z }.
Definition snapshot (r : TaskRegistry) (now : Timestamp) : list TaskRow :=
  (λ p, let s := p.2 in
        mkTaskRow (s_id s) (s_chat s) (s_phase s) (u_wall_ms (s_usage s)) (u_output_bytes (s_usage s))
          (saturating_sub (expires_at (s_lease s)) now)) <$> slots r.
Definition snapshot_get (rows : list TaskRow) (id : Z) : option TaskRow :=
  find (λ r, row_id r =? id) rows.

(** The loop of [sole_active_for]: a second match is ambiguous. *)
Fixpoint sole_loop (chat : ChatId) (found : option Z) (ss : list (Z * TaskSlot)) : option Z :=
  match ss with
  | [] => found
  | (_, s) :: rest =>
      if (s_chat s =? chat) && is_active (s_phase s) then
        match found with Some _ => None | None => sole_loop chat (Some (s_id s)) rest end
      else sole_loop chat found rest
  end.
Definition sole_active_for (r : TaskRegistry) (chat : ChatId) : option Z :=
  sole_loop chat None (slots r).

(** ** Recovery across processes *)

Record TaskSnapshot := mkTaskSnapshot {
  ts_id : Z; ts_chat : ChatId; ts_phase : TaskPhase; ts_lease_remaining_ms : Z;
  ts_budget : AgentBudget; ts_usage : AgentUsage; ts_worktree_path : option bytes }.
Definition snapshot_of (now : Timestamp) (s : TaskSlot) : TaskSnapshot :=
  mkTaskSnapshot (s_id s) (s_chat s) (s_phase s) (saturating_sub (expires_at (s_lease s)) now)
    (s_budget s) (s_usage s) None.
Definition snapshot_all (r : TaskRegistry) (now : Timestamp) : list TaskSnapshot :=
  (λ p, snapshot_of now p.2) <$> filter (λ p, negb (is_terminal (s_phase p.2))) (slots r).

Inductive AdoptError := WorktreeGone | ADuplicate.
Definition adopt_from_snapshot (r : TaskRegistry) (snap : TaskSnapshot) (worktree_present : bool)
    (now : Timestamp) : result AdoptError Z * TaskRegistry :=
  match bt_get (slots r) (ts_id snap) with
  | Some _ => (Err ADuplicate, r)
  | None =>
      if negb worktree_present then (Err WorktreeGone, r)
      else
        let phase := match charge (ts_usage snap) AgentUsage_default (ts_budget snap) with
                     | Err axis => PDone (DBudgetExhausted axis)
                     | Ok _ => PPending
                     end in
        (Ok (ts_id snap),
         mkTaskRegistry
           (bt_insert (slots r) (ts_id snap)
              (mkSlot (ts_id snap) (ts_chat snap) phase (Lease_granted (r_owner r) now)
                 (ts_budget snap) (ts_usage snap) now now))
           (sched r) (r_owner r)
           (if next_id r <=? ts_id snap then wrapping_add 64 (ts_id snap) 1 else next_id r))
  end.

(** ** The dump *)

Definition SNAPSHOT_MAGIC : bytes := lit "CCTS".
Definition SNAPSHOT_VERSION : Z := 1.
Definition MAX_DUMP_SNAPSHOTS : Z := 4096.
Definition MAX_WORKTREE_PATH : Z := 4096.
Inductive SnapshotIoError := SIo (e : bytes) | BadFormat | BadVersion (v : Z) | BadContents.

Definition axis_byte (e : BudgetError) : Z := match e with BEWall => 0 | BEOutput => 1 | BETokens => 2 end.
Definition encode_phase (p : TaskPhase) : bytes :=
  match p with
  | PPending => [0]
  | PRunning => [1]
  | PCancelling => [2]
  | PDone d => 3 :: match d with
                    | DCompleted => [0] | DCancelled => [1] | DKilled => [2] | DExpired => [3]
                    | DBudgetExhausted e => [4; axis_byte e]
                    end
  end.
Definition encode_snapshot (s : TaskSnapshot) : bytes :=
  let path := default [] (ts_worktree_path s) in
  let plen := Nat.min (length path) (Z.to_nat MAX_WORKTREE_PATH) in
  to_le_bytes 8 (ts_id s) ++ to_le_bytes 8 (ts_chat s) ++ encode_phase (ts_phase s) ++
  to_le_bytes 8 (ts_lease_remaining_ms s) ++
  to_le_bytes 8 (max_wall_ms (ts_budget s)) ++ to_le_bytes 8 (max_output_bytes (ts_budget s)) ++
  to_le_bytes 8 (max_tokens (ts_budget s)) ++
  to_le_bytes 8 (u_wall_ms (ts_usage s)) ++ to_le_bytes 8 (u_output_bytes (ts_usage s)) ++
  to_le_bytes 8 (u_tokens (ts_usage s)) ++
  to_le_bytes 4 (Z.of_nat plen) ++ take plen path.
Definition encode_snapshots (snaps : list TaskSnapshot) : bytes :=
  SNAPSHOT_MAGIC ++ [SNAPSHOT_VERSION] ++ to_le_bytes 4 (Z.min (Z.of_nat (length snaps)) u32_MAX) ++
  (snaps ≫= encode_snapshot).

Definition decode_phase : Rd TaskPhase :=
  b ← read_u8;
  if b =? 0 then mret PPending
  else if b =? 1 then mret PRunning
  else if b =? 2 then mret PCancelling
  else if b =? 3 then
    d ← read_u8;
    if d =? 0 then mret (PDone DCompleted)
    else if d =? 1 then mret (PDone DCancelled)
    else if d =? 2 then mret (PDone DKilled)
    else if d =? 3 then mret (PDone DExpired)
    else if d =? 4 then
      a ← read_u8;
      mret (PDone (DBudgetExhausted
        (if a =? 0 then BEWall else if a =? 1 then BEOutput else BETokens)))
    else rd_fail
  else rd_fail.

Definition decode_snapshot : Rd TaskSnapshot :=
  id ← read_u64;
  chat ← read_i64;
  phase ← decode_phase;
  lease ← read_u64;
  wall ← read_u64; out ← read_u64; tokens ← read_u64;
  uwall ← read_u64; uout ← read_u64; utokens ← read_u64;
  plen ← read_u32;
  if MAX_WORKTREE_PATH <? plen then rd_fail
  else
    path_bytes ← cursor_take (Z.to_nat plen);
    mret (mkTaskSnapshot id chat phase lease (mkAgentBudget wall out tokens)
            (mkAgentUsage uwall uout utokens)
            (if plen =? 0 then None else Some (from_utf8_lossy path_bytes))).

(** [for _ in 0..count]. *)
Fixpoint decode_loop (count : nat) : Rd (list TaskSnapshot) :=
  match count with
  | O => mret []
  | S n => s ← decode_snapshot; rest ← decode_loop n; mret (s :: rest)
  end.

(** Every read after the version fails with [BadContents]. *)
Definition decode_snapshots (bs : bytes) : result SnapshotIoError (list TaskSnapshot) :=
  match cursor_take 4 (mkCursor bs 0) with
  | Some (m, c) =>
      if negb (bool_decide (m = SNAPSHOT_MAGIC)) then Err BadFormat
      else match read_u8 c with
           | None => Err BadFormat
           | Some (version, c) =>
               if negb (version =? SNAPSHOT_VERSION) then Err (BadVersion version)
               else match read_u32 c with
                    | None => Err BadContents
                    | Some (count, c) =>
                        if MAX_DUMP_SNAPSHOTS <? count then Err BadContents
                        else fst <$> ok_or (decode_loop (Z.to_nat count) c) BadContents
                    end
           end
  | None => Err BadFormat
  end.

(** ** The registry's invariant *)

Record registry_inv (r : TaskRegistry) : Prop := {
  ri_sorted : bt_sorted (slots r);
  ri_ids : ∀ k s, (k, s) ∈ slots r → s_id s = k ∧ 0 ≤ k < next_id r;
  ri_budget : ∀ k s, (k, s) ∈ slots r → is_terminal (s_phase s) = false →
              within_budget (s_usage s) (s_budget s);
  ri_cap : 0 ≤ running (sched r) ≤ max_concurrent (sched r);
  ri_next : 0 < next_id r <= u64_MAX }.
Definition balanced (r : TaskRegistry) : Prop := running (sched r) = Z.of_nat (length (slots r)).

(** An operation on one slot that keeps its id and its budget condition keeps the invariant. *)
Definition slot_ok (s : TaskSlot) : Prop :=
  is_terminal (s_phase s) = false → within_budget (s_usage s) (s_budget s).
Definition slot_keeps (f : TaskSlot → TaskSlot) : Prop :=
  ∀ s, s_id (f s) = s_id s ∧ (slot_ok s → slot_ok (f s)).

Lemma with_slot_inv r id f :
  registry_inv r → slot_keeps f → registry_inv (with_slot r id f).
Proof.
  intros [Hs Hi Hb Hc Hn] Hf. split; simpl; try done.
  - unfold bt_sorted. by rewrite bt_adjust_keys.
  - intros k s [Hin|(s0 & Hin & [= -> ->])]%bt_adjust_elem; [by apply Hi|].
    destruct (Hf s0) as [-> _]. by apply Hi.
  - intros k s [Hin|(s0 & Hin & [= -> ->])]%bt_adjust_elem; [by eapply Hb|].
    apply (Hf s0). intros ?. by eapply Hb.
Qed.

Lemma with_slot_balanced r id f : balanced r → balanced (with_slot r id f).
Proof. unfold balanced, with_slot, bt_adjust. simpl. by rewrite length_fmap. Qed.

Lemma slot_get_id r id s :
  registry_inv r → bt_get (slots r) id = Some s → s_id s = id ∧ (id, s) ∈ slots r.
Proof. intros Hr Hs%bt_get_elem. split; [by eapply (ri_ids r)|done]. Qed.

Lemma charge_slot_keeps n now : slot_keeps (λ s, charge_slot s n now).
Proof.
  intros s. unfold charge_slot. cbv zeta.
  destruct (charge (s_usage s) _ (s_budget s)) as [next|e] eqn:E; [|done].
  split; [done|]. intros _ _. by eapply charge_within.
Qed.

Lemma tick_slot_keeps now : slot_keeps (λ s, (tick_slot now s).1).
Proof.
  intros s. unfold tick_slot. destruct (charge_slot_keeps 0 now s) as [Hid Hok]. cbv beta in *.
  destruct (s_phase s); cbv zeta; repeat case_match; simpl; (split; [done|]); auto; done.
Qed.

(** *** What [tick] does, in closed form *)

Definition stepped (r : TaskRegistry) (now : Timestamp) : list (Z * TaskSlot) :=
  (λ p, (p.1, (tick_slot now p.2).1)) <$> slots r.
Definition ended (r : TaskRegistry) (now : Timestamp) : list (Z * ChatId * TaskDone) :=
  omap (λ p, terminal_of p.2) (stepped r now).

Lemma finish_iter n s :
  0 ≤ running s →
  Nat.iter n finish s = mkScheduler (max_concurrent s) (saturating_sub (running s) (Z.of_nat n)).
Proof.
  intros Hs. induction n as [|n IH]; simpl.
  - destruct s as [m k]. unfold saturating_sub. simpl in *. f_equal. lia.
  - rewrite IH. unfold finish, saturating_sub. simpl. f_equal. lia.
Qed.

Lemma finalize_fold ts : ∀ ss sc acts,
  fold_left finalize_one ts (ss, sc, acts) =
  (filter (λ p, p.1 ∉ (λ t, t.1.1) <$> ts) ss, Nat.iter (length ts) finish sc,
   acts ++ (ts ≫= finalize_actions)).
Proof.
  induction ts as [|t ts IH]; intros ss sc acts; cbn [fold_left].
  - simpl. rewrite app_nil_r. f_equal. f_equal. symmetry. apply filter_all.
    intros ? _. apply not_elem_of_nil.
  - unfold finalize_one at 2. rewrite IH. f_equal; [f_equal|].
    + unfold bt_remove. rewrite list_filter_filter. apply list_filter_iff. intros p.
      rewrite fmap_cons, not_elem_of_cons. tauto.
    + simpl. by rewrite Nat.iter_swap.
    + rewrite <-app_assoc. done.
Qed.

Lemma stepped_elem r now k s :
  (k, s) ∈ stepped r now ↔ ∃ s0, (k, s0) ∈ slots r ∧ s = (tick_slot now s0).1.
Proof.
  unfold stepped. rewrite list_elem_of_fmap. split.
  - intros ([k' s0] & [= -> ->] & Hin). eauto.
  - intros (s0 & Hin & ->). by exists (k, s0).
Qed.

Lemma stepped_keys r now : (stepped r now).*1 = (slots r).*1.
Proof. unfold stepped. rewrite <-list_fmap_compose. done. Qed.

Lemma stepped_id r now k s : registry_inv r → (k, s) ∈ stepped r now → s_id s = k ∧ 0 ≤ k < next_id r.
Proof.
  intros Hr (s0 & Hin & ->)%stepped_elem.
  destruct (tick_slot_keeps now s0) as [-> _]. by apply (ri_ids r).
Qed.

Lemma stepped_nodup r now : registry_inv r → NoDup (stepped r now).*1.
Proof. intros Hr. rewrite stepped_keys. apply bt_sorted_nodup, Hr. Qed.

(** A task is finalized exactly when its stepped slot is terminal. *)
Lemma ended_elem r now k s :
  registry_inv r → (k, s) ∈ stepped r now →
  k ∈ (λ t, t.1.1) <$> ended r now ↔ is_terminal (s_phase s) = true.
Proof.
  intros Hr Hin. rewrite list_elem_of_fmap. unfold ended. split.
  - intros ([[id chat] d] & Hk & ([k' s'] & Hin' & Ht)%list_elem_of_omap). simpl in Hk. subst id.
    simpl in Ht. unfold terminal_of in Ht. destruct (s_phase s') eqn:Hp; try done.
    injection Ht as Hk Hc ->. destruct (stepped_id _ _ _ _ Hr Hin') as [Hid _].
    assert (k' = k) as -> by congruence.
    pose proof (bt_elem_get _ _ _ (stepped_nodup r now Hr) Hin) as H1.
    pose proof (bt_elem_get _ _ _ (stepped_nodup r now Hr) Hin') as H2.
    assert (s' = s) as -> by congruence. by rewrite Hp.
  - destruct (stepped_id _ _ _ _ Hr Hin) as [Hid _]. intros Ht.
    destruct (s_phase s) as [| | |d] eqn:Hp; try done. exists (k, s_chat s, d). split; [done|].
    apply list_elem_of_omap. exists (k, s). split; [done|]. simpl. unfold terminal_of.
    by rewrite Hp, Hid.
Qed.

(** The step of the supervisor in closed form: the slots that are not terminal stay, in
    order, each other one is finalized and frees one slot. *)
Lemma tick_closed r now :
  registry_inv r →
  tick r now =
  ((slots r ≫= (λ p, (tick_slot now p.2).2)) ++ (ended r now ≫= finalize_actions),
   mkTaskRegistry (filter (λ p, is_terminal (s_phase p.2) = false) (stepped r now))
     (mkScheduler (max_concurrent (sched r))
        (saturating_sub (running (sched r)) (Z.of_nat (length (ended r now)))))
     (r_owner r) (next_id r)).
Proof.
  intros Hr. unfold tick. cbv zeta. fold (stepped r now). fold (ended r now).
  rewrite finalize_fold, finish_iter by apply (ri_cap r Hr). f_equal. f_equal.
  apply filter_ext_in. intros [k s] Hin. simpl.
  rewrite (ended_elem r now k s Hr Hin). by destruct (is_terminal _).
Qed.

Lemma tick_length r now :
  (length (filter (λ p, is_terminal (s_phase p.2) = false) (stepped r now)) + length (ended r now)
   = length (slots r))%nat.
Proof.
  unfold ended. rewrite filter_omap_length; [unfold stepped; by rewrite length_fmap|].
  intros [k s] _. simpl. unfold terminal_of. by destruct (s_phase s).
Qed.

Lemma tick_inv r now : registry_inv r → registry_inv (tick r now).2.
Proof.
  intros Hr. rewrite tick_closed by done. destruct Hr as [Hs Hi Hb Hc Hn]. split; simpl; try done.
  - apply bt_filter_sorted. unfold bt_sorted. by rewrite stepped_keys.
  - intros k s [_ Hin]%list_elem_of_filter. by eapply stepped_id.
  - intros k s [_ (s0 & Hin & ->)%stepped_elem]%list_elem_of_filter.
    destruct (tick_slot_keeps now s0) as [_ Hok]. apply Hok. intros ?. by eapply Hb.
  - unfold saturating_sub. lia.
Qed.

Lemma tick_balanced r now : registry_inv r → balanced r → balanced (tick r now).2.
Proof.
  intros Hr Hb. rewrite tick_closed by done. unfold balanced in *. simpl. rewrite Hb.
  pose proof (tick_length r now). unfold saturating_sub. lia.
Qed.

Lemma admit_inv r chat budget now id r' :
  registry_inv r → next_id r < u64_MAX → within_budget AgentUsage_default budget →
  admit_task r chat budget now = (Ok id, r') →
  registry_inv r' ∧ id = next_id r ∧ next_id r' = next_id r + 1 ∧ (id ∉ (slots r).*1) ∧
  (balanced r → balanced r').
Proof.
  intros [Hs Hi Hb Hc Hn] Hlt Hbud. unfold admit_task.
  destruct (try_spawn (sched r)) as [sc|] eqn:Hsp; [|done]. intros [= <- <-].
  apply try_spawn_Ok in Hsp as [Hcap ->].
  assert (next_id r ∉ (slots r).*1) as Hfresh.
  { intros ([k s] & Hk & Hin)%list_elem_of_fmap. simpl in Hk. subst k. apply Hi in Hin. lia. }
  assert (wrapping_add 64 (next_id r) 1 = next_id r + 1) as Hw
    by (unfold wrapping_add; apply Z.mod_small; unfold u64_MAX in *; lia).
  split; [|split; [done|split; [done|split; [done|]]]].
  - split; cbn [slots sched next_id]; rewrite ?Hw.
    + by apply bt_insert_sorted.
    + intros k s [[= -> ->]|Hin]%bt_insert_elem; [simpl; lia|]. apply Hi in Hin. lia.
    + intros k s [[= -> ->]|Hin]%bt_insert_elem; [done|by eapply Hb].
    + simpl. lia.
    + lia.
  - unfold balanced. simpl. rewrite bt_insert_fresh_length by done. lia.
Qed.

(** ** Histories *)

(** The operations the runtime calls, in the order it calls them. *)
Inductive RegOp :=
| OpAdmit (chat : ChatId) (budget : AgentBudget) (now : Timestamp)
| OpMarkRunning (id : Z) (now : Timestamp)
| OpProgress (id output_bytes : Z) (now : Timestamp)
| OpHeartbeat (id : Z) (now : Timestamp)
| OpFinished (id : Z)
| OpCancel (id : Z) (chat : ChatId)
| OpKill (id : Z) (chat : ChatId)
| OpTick (now : Timestamp).
Definition reg_step (r : TaskRegistry) (op : RegOp) : TaskRegistry :=
  match op with
  | OpAdmit chat budget now => (admit_task r chat budget now).2
  | OpMarkRunning id now => mark_running r id now
  | OpProgress id n now => observe_progress r id n now
  | OpHeartbeat id now => heartbeat r id now
  | OpFinished id => observe_finished r id
  | OpCancel id chat => (request_cancel r id chat).2
  | OpKill id chat => (request_kill r id chat).2
  | OpTick now => (tick r now).2
  end.
Definition op_ok (op : RegOp) : Prop :=
  match op with OpAdmit _ budget _ => within_budget AgentUsage_default budget | _ => True end.

(** The updates of one slot keep its id and budget condition. *)
Lemma updates_keep now n :
  slot_keeps (λ s, if bool_decide (s_phase s = PPending)
                   then set_lease (set_phase s PRunning) (Lease_refresh (s_lease s) now) else s) ∧
  slot_keeps (λ s, if is_terminal (s_phase s) then s
                   else charge_slot (set_lease s (Lease_refresh (s_lease s) now)) n now) ∧
  slot_keeps (λ s, if negb (is_terminal (s_phase s))
                   then set_lease s (Lease_refresh (s_lease s) now) else s) ∧
  slot_keeps (λ s, if negb (is_terminal (s_phase s)) then set_phase s (PDone DCompleted) else s) ∧
  slot_keeps (λ s, set_phase s (PDone DKilled)).
Proof.
  split_and!; intros s.
  - case_bool_decide as Hp; [|done]. split; [done|]. intros Hs _. apply Hs. by rewrite Hp.
  - destruct (is_terminal (s_phase s)) eqn:Hp; [done|].
    destruct (charge_slot_keeps n now (set_lease s (Lease_refresh (s_lease s) now))) as [? Hk].
    split; [done|]. intros Hs. by apply Hk.
  - destruct (is_terminal (s_phase s)) eqn:Hp; simpl; [done|]. split; [done|].
    intros Hs _. by apply Hs.
  - by destruct (is_terminal (s_phase s)).
  - done.
Qed.

(** A cancelled task was active, so inside its budget. *)
Lemma cancel_inv r id chat : registry_inv r → registry_inv (request_cancel r id chat).2.
Proof.
  intros Hr. unfold request_cancel. destruct (bt_get (slots r) id) as [s|] eqn:Hs; [|done].
  destruct ((s_chat s =? chat) && is_active (s_phase s)) eqn:Hg; [|done]. simpl.
  apply andb_true_iff in Hg as [_ Ha].
  destruct Hr as [Hso Hi Hb Hc Hn]. split; simpl; try done.
  - unfold bt_sorted. by rewrite bt_adjust_keys.
  - intros k s' [Hin|(s0 & Hin & [= -> ->])]%bt_adjust_elem; exact (Hi _ _ Hin).
  - intros k s' [Hin|(s0 & Hin & [= -> ->])]%bt_adjust_elem; [by eapply Hb|]. intros _. simpl.
    apply (bt_elem_get _ _ _ (bt_sorted_nodup _ Hso)) in Hin as Heq.
    assert (s0 = s) as -> by congruence. eapply Hb; [exact Hin|]. by destruct (s_phase s).
Qed.

Lemma reg_step_inv r op :
  registry_inv r → op_ok op → next_id r < u64_MAX →
  registry_inv (reg_step r op) ∧ next_id (reg_step r op) ≤ next_id r + 1 ∧
  (balanced r → balanced (reg_step r op)).
Proof.
  intros Hr Hop Hn. pose proof (λ now n, updates_keep now n) as Hk.
  destruct op as [chat budget now|id now|id n now|id now|id|id chat|id chat|now]; cbn [reg_step].
  - destruct (admit_task r chat budget now) as [[id|e] r'] eqn:Ha; simpl.
    + destruct (admit_inv _ _ _ _ _ _ Hr Hn Hop Ha) as (? & _ & -> & _ & ?).
      split; [done|]. split; [lia|done].
    + unfold admit_task in Ha. destruct (try_spawn (sched r)); simplify_eq.
      split; [done|]. split; [lia|done].
  - split; [apply with_slot_inv; [done|apply (Hk now 0)]|]. split; [simpl; lia|apply with_slot_balanced].
  - split; [apply with_slot_inv; [done|apply (Hk now n)]|]. split; [simpl; lia|apply with_slot_balanced].
  - split; [apply with_slot_inv; [done|apply (Hk now 0)]|]. split; [simpl; lia|apply with_slot_balanced].
  - split; [apply with_slot_inv; [done|apply (Hk 0 0)]|]. split; [simpl; lia|apply with_slot_balanced].
  - split; [by apply cancel_inv|]. unfold request_cancel. repeat case_match; simpl;
      (split; [lia|]); auto using with_slot_balanced.
  - split.
    + unfold request_kill. repeat case_match; try done. apply with_slot_inv; [done|apply (Hk 0 0)].
    + unfold request_kill. repeat case_match; simpl; (split; [lia|]); auto using with_slot_balanced.
  - split; [by apply tick_inv|]. split; [rewrite tick_closed by done; simpl; lia|].
    by apply tick_balanced.
Qed.

Lemma registry_new_inv n o : registry_inv (TaskRegistry_new n o) ∧ balanced (TaskRegistry_new n o).
Proof.
  split; [|done]. split; simpl; try by intros ?? ?%elem_of_nil.
  - constructor.
  - lia.
  - unfold u64_MAX. lia.
Qed.

Lemma run_ops_inv ops : ∀ r,
  registry_inv r → balanced r → Forall op_ok ops → next_id r + Z.of_nat (length ops) ≤ u64_MAX →
  registry_inv (fold_left reg_step ops r) ∧ balanced (fold_left reg_step ops r) ∧
  max_concurrent (sched (fold_left reg_step ops r)) = max_concurrent (sched r).
Proof.
  induction ops as [|op ops IH]; intros r Hr Hb Hops Hn; [done|].
  apply Forall_cons in Hops as [Hop Hops]. cbn [length] in Hn. cbn [fold_left].
  destruct (reg_step_inv r op Hr Hop) as (Hr' & Hn' & Hb'); [lia|].
  destruct (IH (reg_step r op)) as (? & ? & Hmax); [done|by apply Hb'|done|lia|].
  split; [done|]. split; [done|]. rewrite Hmax.
  destruct op; try done; cbn [reg_step].
  - unfold admit_task. destruct (try_spawn (sched r)) eqn:E; [|done]. by apply try_spawn_Ok in E as [_ ->].
  - unfold request_cancel. by repeat case_match.
  - unfold request_kill. by repeat case_match.
  - by rewrite tick_closed.
Qed.

(** *** Actions of a step *)

Lemma finalize_actions_elem t id d :
  Finalize id d ∈ finalize_actions t ↔ t.1.1 = id ∧ t.2 = d.
Proof.
  destruct t as [[i chat] d']. unfold finalize_actions. simpl. rewrite elem_of_app.
  destruct (needs_kill d'); rewrite !elem_of_cons, ?elem_of_nil; naive_solver.
Qed.

Lemma kill_actions_elem t id :
  HardKill id ∈ finalize_actions t ↔ t.1.1 = id ∧ needs_kill t.2 = true.
Proof.
  destruct t as [[i chat] d']. unfold finalize_actions. simpl. rewrite elem_of_app.
  destruct (needs_kill d'); rewrite !elem_of_cons, ?elem_of_nil; naive_solver.
Qed.

Lemma cancel_actions_elem r now a :
  a ∈ (slots r ≫= (λ p, (tick_slot now p.2).2)) →
  ∃ k s, (k, s) ∈ slots r ∧ s_phase s = PCancelling ∧ a = RequestCancel (s_id s).
Proof.
  intros ([k s] & Ha & Hin)%list_elem_of_bind. simpl in Ha. exists k, s. split; [done|].
  unfold tick_slot in Ha. destruct (s_phase s); cbv zeta in Ha;
    repeat case_match; simpl in Ha; apply list_elem_of_In in Ha; simpl in Ha; naive_solver.
Qed.

(** The tasks a step ends, by id. *)
Lemma ended_spec r now id chat d :
  registry_inv r →
  (id, chat, d) ∈ ended r now ↔
  ∃ s, bt_get (slots r) id = Some s ∧ s_chat (tick_slot now s).1 = chat ∧
       s_phase (tick_slot now s).1 = PDone d.
Proof.
  intros Hr. unfold ended. rewrite list_elem_of_omap. split.
  - intros ([k s] & Hin & Ht). simpl in Ht. destruct (stepped_id _ _ _ _ Hr Hin) as [Hid _].
    unfold terminal_of in Ht. destruct (s_phase s) as [| | |d'] eqn:Hp; try done.
    injection Ht as <- <- <-. apply stepped_elem in Hin as (s0 & Hin & ->).
    exists s0. rewrite Hid. split; [|done]. apply bt_elem_get; [apply bt_sorted_nodup, Hr|done].
  - intros (s & Hs & <- & Hp). destruct (slot_get_id _ _ _ Hr Hs) as [Hid Hin].
    exists (id, (tick_slot now s).1). split; [apply stepped_elem; eauto|]. simpl.
    unfold terminal_of. rewrite Hp. destruct (tick_slot_keeps now s) as [-> _]. by rewrite Hid.
Qed.

Lemma tick_finalize r now id d :
  registry_inv r →
  Finalize id d ∈ (tick r now).1 ↔
  ∃ s, bt_get (slots r) id = Some s ∧ s_phase (tick_slot now s).1 = PDone d.
Proof.
  intros Hr. rewrite tick_closed by done. simpl. rewrite elem_of_app. split.
  - intros [(? & ? & _ & _ & ?)%cancel_actions_elem|(t & Ht & Hin)%list_elem_of_bind]; [done|].
    apply finalize_actions_elem in Ht as [<- <-]. destruct t as [[id chat] d].
    apply (ended_spec r now id chat d Hr) in Hin as (s & ? & _ & ?). eauto.
  - intros (s & Hs & Hp). right. apply list_elem_of_bind.
    exists (id, s_chat (tick_slot now s).1, d).
    split; [by apply finalize_actions_elem|]. apply ended_spec; eauto.
Qed.

Lemma tick_hardkill r now id :
  registry_inv r →
  HardKill id ∈ (tick r now).1 ↔
  ∃ s d, bt_get (slots r) id = Some s ∧ s_phase (tick_slot now s).1 = PDone d ∧ needs_kill d = true.
Proof.
  intros Hr. rewrite tick_closed by done. simpl. rewrite elem_of_app. split.
  - intros [(? & ? & _ & _ & ?)%cancel_actions_elem|(t & Ht & Hin)%list_elem_of_bind]; [done|].
    apply kill_actions_elem in Ht as [<- Hk]. destruct t as [[id chat] d].
    apply (ended_spec r now id chat d Hr) in Hin as (s & ? & _ & ?). eauto.
  - intros (s & d & Hs & Hp & Hk). right. apply list_elem_of_bind.
    exists (id, s_chat (tick_slot now s).1, d).
    split; [by apply kill_actions_elem|]. apply ended_spec; eauto.
Qed.

Lemma tick_get r now id s :
  registry_inv r → bt_get (slots r) id = Some s →
  bt_get (slots (tick r now).2) id =
  if is_terminal (s_phase (tick_slot now s).1) then None else Some (tick_slot now s).1.
Proof.
  intros Hr Hs. apply (slot_get_id r) in Hs as [Hid Hin]; [|done].
  assert ((id, (tick_slot now s).1) ∈ stepped r now) as Hst by (apply stepped_elem; eauto).
  rewrite tick_closed by done. simpl. destruct (is_terminal _) eqn:Ht.
  - apply bt_get_keys. intros ([k s'] & Hk & [Hp Hin']%list_elem_of_filter)%list_elem_of_fmap.
    simpl in Hk, Hp. subst k. pose proof (stepped_nodup r now Hr) as Hnd.
    apply (bt_elem_get _ _ _ Hnd) in Hin'. apply (bt_elem_get _ _ _ Hnd) in Hst. congruence.
  - apply bt_elem_get; [|by apply list_elem_of_filter].
    apply bt_sorted_nodup, bt_filter_sorted. unfold bt_sorted. rewrite stepped_keys. apply Hr.
Qed.
