(* ===== verification/RegistryTheorems.v ===== *)
(** * Theorems about the registry of supervised tasks

    The cap on concurrent tasks over every history, the exact effect of a supervisor step,
    recovery of expired leases, owner-scoped control, and the dump: its round trip and a
    restart that adopts what was dumped. *)

From S2P Require Import Prelude Text Std Types Supervisor Cursor Registry.

(** ** Histories *)

(** C28: The concurrency cap: over every history of admissions, progress, heartbeats, ends,
    cancels, kills and steps (shorter than the id space), the scheduler counts exactly the
    tasks in the registry, which are never more than the cap, ids are unique and below the
    next one to issue, and the usage of every live task is inside its budget. *)
Theorem registry_concurrency cap o ops :
  Forall op_ok ops → Z.of_nat (length ops) < u64_MAX →
  let r := fold_left reg_step ops (TaskRegistry_new cap o) in
  registry_inv r ∧ running (sched r) = Z.of_nat (length (slots r)) ∧
  Z.of_nat (length (slots r)) ≤ Z.max cap 1 ∧ (len_active r ≤ length (slots r))%nat.
Proof.
  intros Hops Hlen. cbv zeta. destruct (registry_new_inv cap o) as [Hr Hb].
  destruct (run_ops_inv ops _ Hr Hb Hops) as (Hr' & Hb' & Hmax); [simpl; lia|].
  set (r := fold_left reg_step ops (TaskRegistry_new cap o)) in *. split; [done|].
  split; [done|]. unfold balanced in Hb'. rewrite <-Hb'. destruct (ri_cap r Hr').
  simpl in Hmax. split; [lia|]. unfold len_active. apply length_filter.
Qed.

Definition demo_ops : list RegOp :=
  [OpAdmit 7 default_task_budget 0; OpMarkRunning 1 10; OpAdmit 8 default_task_budget 20;
   OpAdmit 8 default_task_budget 30; OpProgress 1 100 40; OpCancel 2 8; OpTick 50; OpFinished 1;
   OpTick 60].

Lemma registry_concurrency_witness :
  let r := fold_left reg_step demo_ops (TaskRegistry_new 2 1) in
  (slots r).*1 = [2] ∧ running (sched r) = Z.of_nat (length (slots r)).
Proof.
  cbv zeta. split; [vm_compute; reflexivity|].
  apply (registry_concurrency 2 1 demo_ops).
  - repeat constructor; vm_compute; congruence.
  - vm_compute. reflexivity.
Defined.

(** A step of the supervisor decides every task: a task whose charge breaches its
    budget, whose lease has run out, or that was ended is finalized with that reason, removed
    and its slot freed, with a hard kill exactly for kills and budget breaches; every other
    task stays, charged to the instant; and nothing is finalized that was not a task. *)
Theorem tick_exact r now :
  registry_inv r →
  let acts := (tick r now).1 in
  let r' := (tick r now).2 in
  registry_inv r' ∧ (balanced r → balanced r') ∧
  (∀ id s, bt_get (slots r) id = Some s →
     match s_phase (tick_slot now s).1 with
     | PDone d => bt_get (slots r') id = None ∧ Finalize id d ∈ acts ∧
                  (HardKill id ∈ acts ↔ needs_kill d = true)
     | _ => bt_get (slots r') id = Some (tick_slot now s).1 ∧ (∀ d, Finalize id d ∉ acts) ∧
            (HardKill id ∉ acts)
     end) ∧
  (∀ id d, Finalize id d ∈ acts → ∃ s, bt_get (slots r) id = Some s).
Proof.
  intros Hr. cbv zeta. split; [by apply tick_inv|]. split; [by apply tick_balanced|]. split.
  - intros id s Hs. rewrite (tick_get r now id s Hr Hs).
    assert (∀ p, s_phase (tick_slot now s).1 = p → is_terminal p = false →
      (∀ d, Finalize id d ∉ (tick r now).1) ∧ (HardKill id ∉ (tick r now).1)) as Hlive.
    { intros p Hp Ht. split.
      - intros d (s' & Hs' & Hd)%tick_finalize; [|done]. assert (s' = s) as -> by congruence.
        by rewrite <-Hp, Hd in Ht.
      - intros (s' & d & Hs' & Hd & _)%tick_hardkill; [|done].
        assert (s' = s) as -> by congruence.
        by rewrite <-Hp, Hd in Ht. }
    destruct (s_phase (tick_slot now s).1) as [| | |d] eqn:Hp; simpl;
      [split; [done|exact (Hlive _ eq_refl eq_refl)]..|].
    split; [done|]. split; [apply tick_finalize; eauto|]. rewrite tick_hardkill by done. split.
    + intros (s' & d' & Hs' & Hd & ?). assert (s' = s) as -> by congruence.
      by rewrite Hp in Hd; injection Hd as <-.
    + intros ?. exists s, d. done.
  - intros id d (s & ? & _)%tick_finalize; eauto.
Qed.

(** A registry in which one task will expire, one was killed and one runs. *)
Definition demo_registry3 : TaskRegistry :=
  fold_left reg_step [OpAdmit 7 default_task_budget 0; OpAdmit 8 default_task_budget 0;
    OpAdmit 9 default_task_budget 0; OpHeartbeat 2 50000; OpKill 3 9] (TaskRegistry_new 4 1).
Lemma demo_registry3_inv : registry_inv demo_registry3.
Proof.
  destruct (registry_new_inv 4 1) as [Hr Hb]. unfold demo_registry3.
  apply run_ops_inv; [done|done| |vm_compute; congruence].
  repeat constructor; vm_compute; congruence.
Qed.

Lemma tick_exact_witness :
  (tick demo_registry3 60001).1 =
    [SendLine 7 (lit "task #1 expired (stalled, reclaimed)."); Finalize 1 DExpired;
     HardKill 3; SendLine 9 (lit "task #3 killed."); Finalize 3 DKilled] ∧
  registry_inv (tick demo_registry3 60001).2.
Proof.
  split; [vm_compute; reflexivity|].
  exact (proj1 (tick_exact demo_registry3 60001 demo_registry3_inv)).
Defined.

(** No task hangs and no healthy task is lost: a step after a task's lease has run out
    always finalizes it and frees its place, whatever it was doing; and a task that was
    heartbeaten at [t] is not expired by any step up to [LEASE_TTL_MS] later. *)
Theorem lease_recovery r id s now :
  registry_inv r → bt_get (slots r) id = Some s →
  (expires_at (s_lease s) < now →
   ∃ d, Finalize id d ∈ (tick r now).1 ∧ bt_get (slots (tick r now).2) id = None ∧
        match s_phase s with
        | PDone d0 => d = d0
        | PCancelling => d = DKilled
        | _ => d = DExpired ∨ ∃ e, d = DBudgetExhausted e
        end) ∧
  (∀ t, is_terminal (s_phase s) = false → t ≤ now ≤ t + LEASE_TTL_MS → t + LEASE_TTL_MS ≤ u64_MAX →
   Finalize id DExpired ∉ (tick (heartbeat r id t) now).1).
Proof.
  intros Hr Hs. split.
  - intros Hexp.
    assert (∃ d, s_phase (tick_slot now s).1 = PDone d ∧
      match s_phase s with
      | PDone d0 => d = d0
      | PCancelling => d = DKilled
      | _ => d = DExpired ∨ ∃ e, d = DBudgetExhausted e
      end) as (d & Hd & Hwhy).
    { unfold tick_slot. cbv zeta.
      assert (expired_at (s_lease s) now = true) as He by (unfold expired_at; by apply Z.ltb_lt).
      unfold charge_slot. cbv zeta.
      destruct (s_phase s) eqn:Hp; [destruct (charge _ _ _) as [u|e]; simpl; rewrite ?Hp; simpl..|
        |]; rewrite ?He; simpl; rewrite ?Hp; eauto. }
    exists d. split; [apply tick_finalize; eauto|]. split; [|done].
    rewrite (tick_get r now id s Hr Hs), Hd. done.
  - intros t Hp Hnow Ht Hf.
    assert (registry_inv (heartbeat r id t)) as Hr'
      by (apply with_slot_inv; [done|apply (updates_keep t 0)]).
    apply tick_finalize in Hf as (s' & Hs' & Hd); [|done].
    unfold heartbeat, with_slot in Hs'. simpl in Hs'. rewrite bt_get_adjust, Z.eqb_refl, Hs in Hs'.
    simpl in Hs'. rewrite Hp in Hs'. simpl in Hs'. injection Hs' as <-. revert Hd.
    unfold tick_slot, charge_slot, set_lease. cbn [s_phase s_lease s_usage s_budget s_last_charge_at].
    assert (expired_at (Lease_refresh (s_lease s) t) now = false) as He.
    { unfold expired_at, Lease_refresh, saturating_add. cbn [expires_at]. apply Z.ltb_ge. lia. }
    cbv zeta. destruct (s_phase s); try done;
      [destruct (charge _ _ _); cbn [set_usage set_phase s_phase s_lease is_terminal fst]..|];
      by rewrite ?He.
Qed.

Lemma lease_recovery_witness :
  ∃ d, Finalize 1 d ∈ (tick demo_registry3 60001).1 ∧
       bt_get (slots (tick demo_registry3 60001).2) 1 = None ∧
       (d = DExpired ∨ ∃ e, d = DBudgetExhausted e).
Proof.
  eapply (proj1 (lease_recovery demo_registry3 1 _ 60001 demo_registry3_inv
                   ltac:(vm_compute; reflexivity)));
    vm_compute; reflexivity.
Defined.

(** Control is scoped to the chat that launched a task: a cancel or kill from any other
    chat, or of a task that is not there or has ended, reports that it did not act and
    changes nothing; from its owner it acts on that task alone. *)
Theorem control_owner_scoped r id chat :
  registry_inv r →
  (let owned := ∃ s, bt_get (slots r) id = Some s ∧ s_chat s = chat ∧ is_terminal (s_phase s) = false in
   ((request_cancel r id chat).1 = true ↔ owned) ∧ ((request_kill r id chat).1 = true ↔ owned)) ∧
  ((request_cancel r id chat).1 = false → (request_cancel r id chat).2 = r) ∧
  ((request_kill r id chat).1 = false → (request_kill r id chat).2 = r) ∧
  (∀ id', id' ≠ id →
     bt_get (slots (request_cancel r id chat).2) id' = bt_get (slots r) id' ∧
     bt_get (slots (request_kill r id chat).2) id' = bt_get (slots r) id') ∧
  (∀ now, (request_kill r id chat).1 = true →
     Finalize id DKilled ∈ (tick (request_kill r id chat).2 now).1 ∧
     HardKill id ∈ (tick (request_kill r id chat).2 now).1).
Proof.
  intros Hr. assert (∀ s, is_active (s_phase s) = negb (is_terminal (s_phase s))) as Hact
    by (intros s; by destruct (s_phase s)).
  split_and!.
  - cbv zeta. unfold request_cancel, request_kill.
    destruct (bt_get (slots r) id) as [s|]; [|split; (split; [done|]); by intros (? & ? & _)].
    rewrite Hact. split; destruct (Z.eqb_spec (s_chat s) chat), (is_terminal (s_phase s)) eqn:Hp;
      simpl; split; intros; naive_solver.
  - unfold request_cancel. by repeat case_match.
  - unfold request_kill. by repeat case_match.
  - intros id' Hne. unfold request_cancel, request_kill.
    assert (∀ f, bt_get (slots (with_slot r id f)) id' = bt_get (slots r) id') as Hw.
    { intros f. simpl. rewrite bt_get_adjust. by rewrite (proj2 (Z.eqb_neq id id')). }
    split; repeat case_match; try done; apply Hw.
  - intros now. unfold request_kill. destruct (bt_get (slots r) id) as [s|] eqn:Hs; [|done].
    destruct ((s_chat s =? chat) && _); [|done]. intros _. cbn [snd].
    assert (registry_inv (with_slot r id (λ s, set_phase s (PDone DKilled)))) as Hr'
      by (apply with_slot_inv; [done|apply (updates_keep 0 0)]).
    assert (bt_get (slots (with_slot r id (λ s, set_phase s (PDone DKilled)))) id
            = Some (set_phase s (PDone DKilled))) as Hs'
      by (simpl; by rewrite bt_get_adjust, Z.eqb_refl, Hs).
    rewrite tick_finalize, tick_hardkill by done. eauto 10.
Qed.

Lemma control_owner_scoped_witness :
  (request_kill demo_registry3 1 7).1 = true ∧ (request_kill demo_registry3 1 8).1 = false ∧
  HardKill 1 ∈ (tick (request_kill demo_registry3 1 7).2 5).1.
Proof.
  split; [vm_compute; reflexivity|]. split; [vm_compute; reflexivity|].
  apply (control_owner_scoped demo_registry3 1 7 demo_registry3_inv). vm_compute. reflexivity.
Defined.

(** ** The dump *)

Lemma reads_phase p : reads decode_phase (encode_phase p) p.
Proof.
  unfold decode_phase. destruct p as [| | |d]; simpl; apply reads_cons; try lia; try apply reads_ret.
  destruct d as [| | | |e]; simpl; apply reads_cons; try lia; try apply reads_ret.
  simpl. apply reads_cons; [by destruct e|]. destruct e; apply reads_ret.
Qed.

(** The snapshots a dump can hold: fields of their machine widths, a path that is not empty,
    is text, and is within the cap. *)
Definition snapshot_wf (s : TaskSnapshot) : Prop :=
  is_uint 64 (ts_id s) ∧ i64_MIN ≤ ts_chat s ≤ i64_MAX ∧ is_uint 64 (ts_lease_remaining_ms s) ∧
  is_uint 64 (max_wall_ms (ts_budget s)) ∧ is_uint 64 (max_output_bytes (ts_budget s)) ∧
  is_uint 64 (max_tokens (ts_budget s)) ∧
  is_uint 64 (u_wall_ms (ts_usage s)) ∧ is_uint 64 (u_output_bytes (ts_usage s)) ∧
  is_uint 64 (u_tokens (ts_usage s)) ∧
  match ts_worktree_path s with
  | None => True
  | Some p => p ≠ [] ∧ is_utf8 p = true ∧ Z.of_nat (length p) ≤ MAX_WORKTREE_PATH
  end.

Lemma reads_snapshot s : snapshot_wf s → reads decode_snapshot (encode_snapshot s) s.
Proof.
  intros (H1 & H2 & H3 & H4 & H5 & H6 & H7 & H8 & H9 & Hpath).
  unfold decode_snapshot, encode_snapshot. cbv zeta.
  set (path := default [] (ts_worktree_path s)).
  assert (Z.of_nat (length path) ≤ MAX_WORKTREE_PATH) as Hlen.
  { unfold path. destruct (ts_worktree_path s); simpl; [tauto|unfold MAX_WORKTREE_PATH; lia]. }
  assert (Nat.min (length path) (Z.to_nat MAX_WORKTREE_PATH) = length path) as Hmin by lia.
  rewrite Hmin, firstn_all.
  do 2 (eapply reads_bind; [by first [apply reads_u64|apply reads_i64]|]).
  eapply reads_bind; [apply reads_phase|].
  do 7 (eapply reads_bind; [by apply reads_u64|]).
  eapply reads_bind; [apply reads_u32; unfold is_uint, MAX_WORKTREE_PATH in *; lia|].
  rewrite (proj2 (Z.ltb_ge _ _)) by done. rewrite Nat2Z.id.
  rewrite <-(app_nil_r path) at 2. eapply reads_bind; [by apply reads_take|].
  destruct s as [id chat ph lease [bw bo bt] [uw uo ut] wp]. simpl in *. destruct wp as [p|]; simpl in path.
  - destruct Hpath as (Hne & Hu & _). unfold path. rewrite lossy_valid by done.
    destruct p; [done|]. apply reads_ret.
  - apply reads_ret.
Qed.

Lemma reads_loop snaps :
  Forall snapshot_wf snaps → reads (decode_loop (length snaps)) (snaps ≫= encode_snapshot) snaps.
Proof.
  induction 1 as [|s snaps Hs _ IH]; [apply reads_ret|]. cbn [length decode_loop].
  change ((s :: snaps) ≫= encode_snapshot) with (encode_snapshot s ++ (snaps ≫= encode_snapshot)).
  eapply reads_bind; [by apply reads_snapshot|]. rewrite <-(app_nil_r (snaps ≫= _)).
  eapply reads_bind; [done|]. apply reads_ret.
Qed.

Lemma dump_roundtrip snaps R :
  Forall snapshot_wf snaps → Z.of_nat (length snaps) ≤ MAX_DUMP_SNAPSHOTS →
  decode_snapshots (encode_snapshots snaps ++ R) = Ok snaps.
Proof.
  intros Hwf Hlen. unfold decode_snapshots, encode_snapshots. rewrite <-!app_assoc.
  set (bs := SNAPSHOT_MAGIC ++ _).
  destruct (reads_take 4 SNAPSHOT_MAGIC eq_refl (mkCursor bs 0) _ ltac:(simpl; lia) eq_refl)
    as (c1 & -> & Hc1 & Hr1). rewrite bool_decide_eq_true_2 by done. cbn [negb].
  destruct (reads_u8 SNAPSHOT_VERSION ltac:(unfold SNAPSHOT_VERSION; lia) c1 _ Hc1 Hr1)
    as (c2 & -> & Hc2 & Hr2). rewrite Z.eqb_refl. cbn [negb].
  unfold MAX_DUMP_SNAPSHOTS in *.
  rewrite Z.min_l in Hr2 by (unfold u32_MAX; lia).
  destruct (reads_u32 (Z.of_nat (length snaps)) ltac:(unfold is_uint; lia) c2 _ Hc2 Hr2)
    as (c3 & -> & Hc3 & Hr3). rewrite (proj2 (Z.ltb_ge _ _)) by lia. rewrite Nat2Z.id.
  by destruct (reads_loop snaps Hwf c3 R Hc3 Hr3) as (c4 & -> & _ & _).
Qed.

Definition path_bounded (s : TaskSnapshot) : Prop :=
  ∀ p, ts_worktree_path s = Some p →
  is_utf8 p = true ∧ Z.of_nat (length p) ≤ 3 * MAX_WORKTREE_PATH.

Lemma decode_snapshot_bounded c s c' : decode_snapshot c = Some (s, c') → path_bounded s.
Proof.
  unfold decode_snapshot. intros H.
  do 10 (apply rd_bind_inv in H as (? & ? & _ & H)).
  apply rd_bind_inv in H as (plen & ? & _ & H).
  destruct (Z.ltb_spec MAX_WORKTREE_PATH plen) as [|Hle]; [discriminate H|].
  apply rd_bind_inv in H as (path & ? & Ht%cursor_take_length & H). injection H as <- _.
  intros p. simpl. destruct (plen =? 0); [done|]. intros [= <-].
  split; [apply lossy_is_utf8|]. pose proof (lossy_length path).
  unfold MAX_WORKTREE_PATH in *. lia.
Qed.

Lemma decode_loop_bounded n : ∀ c l c',
  decode_loop n c = Some (l, c') → length l = n ∧ Forall path_bounded l.
Proof.
  induction n as [|n IH]; intros c l c'; cbn [decode_loop]; [by intros [= <- _]|].
  intros (s & c1 & Hs & H)%rd_bind_inv. apply rd_bind_inv in H as (l' & c2 & [<- Hl]%IH & [= <- _]).
  split; [done|]. constructor; [|done]. by eapply decode_snapshot_bounded.
Qed.

(** The dump of task snapshots round-trips and fails closed: decoding an encoded list
    of at most [MAX_DUMP_SNAPSHOTS] snapshots gives back the list, whatever bytes follow it;
    and whatever bytes a file holds, decoding gives an error or at most [MAX_DUMP_SNAPSHOTS]
    snapshots whose paths are valid text of bounded length. *)
Theorem dump_decodes snaps R bs :
  (Forall snapshot_wf snaps → Z.of_nat (length snaps) ≤ MAX_DUMP_SNAPSHOTS →
   decode_snapshots (encode_snapshots snaps ++ R) = Ok snaps) ∧
  match decode_snapshots bs with
  | Ok l => Z.of_nat (length l) ≤ MAX_DUMP_SNAPSHOTS ∧ Forall path_bounded l
  | Err e => e = BadFormat ∨ e = BadContents ∨ ∃ v, v ≠ SNAPSHOT_VERSION ∧ e = BadVersion v
  end.
Proof.
  split; [apply dump_roundtrip|]. unfold decode_snapshots.
  destruct (cursor_take 4 _) as [[m c]|]; [|by left]. case_bool_decide; simpl; [|by left].
  destruct (read_u8 c) as [[v c1]|]; [|by left].
  destruct (Z.eqb_spec v SNAPSHOT_VERSION) as [|Hv]; simpl; [|eauto 6].
  destruct (read_u32 c1) as [[n c2]|]; [|auto].
  destruct (Z.ltb_spec MAX_DUMP_SNAPSHOTS n); [by auto|].
  destruct (decode_loop (Z.to_nat n) c2) as [[l c3]|] eqn:E; [|simpl; auto]. simpl.
  apply decode_loop_bounded in E as [-> Hl]. unfold MAX_DUMP_SNAPSHOTS in *. split; [lia|done].
Qed.

Definition demo_snapshot : TaskSnapshot :=
  mkTaskSnapshot 3 (-100) (PDone (DBudgetExhausted BEOutput)) 5 default_task_budget
    (mkAgentUsage 1 2 3) (Some (lit "/wt/3")).
Lemma dump_decodes_witness :
  decode_snapshots (encode_snapshots [demo_snapshot; demo_snapshot] ++ [9]) =
    Ok [demo_snapshot; demo_snapshot].
Proof.
  apply (dump_decodes [demo_snapshot; demo_snapshot] [9] []); [|vm_compute; congruence].
  repeat constructor; vm_compute; congruence.
Defined.

(** *** A restart *)

Lemma snapshot_all_find r now id :
  registry_inv r →
  find (λ s, ts_id s =? id) (snapshot_all r now) =
  s ← bt_get (slots r) id; if is_terminal (s_phase s) then None else Some (snapshot_of now s).
Proof.
  intros [Hso Hi _ _ _]. apply bt_sorted_nodup in Hso. unfold snapshot_all.
  revert Hso Hi. generalize (slots r) (next_id r). intros m n.
  induction m as [|[k s] m IH]; intros Hnd Hi; [done|].
  rewrite fmap_cons in Hnd. apply NoDup_cons in Hnd as [Hk Hnd]. simpl in Hk.
  specialize (IH Hnd (λ k s Hin, Hi k s (list_elem_of_further _ _ _ Hin))).
  destruct (Hi k s (list_elem_of_here _ _)) as [Hid _]. rewrite bt_get_cons, filter_cons.
  assert (∀ {B} (f : TaskSlot → option B), k = id → bt_get m id ≫= f = None) as Hnone.
  { intros B f ->. by rewrite (proj2 (bt_get_keys m id) Hk). }
  destruct (is_terminal (s_phase s)) eqn:Ht.
  - rewrite decide_False by (simpl; rewrite Ht; simpl; tauto). rewrite IH.
    destruct (Z.eqb_spec k id) as [Heq|]; [|done]. cbn [mbind option_bind]. rewrite Ht.
    by rewrite Hnone.
  - rewrite decide_True by (simpl; by rewrite Ht). rewrite fmap_cons. cbn [find snapshot_of ts_id snd].
    rewrite Hid, IH. destruct (k =? id); [|done]. cbn [mbind option_bind]. by rewrite Ht.
Qed.

Lemma snapshot_all_nodup r now : registry_inv r → NoDup (ts_id <$> snapshot_all r now).
Proof.
  intros Hr. assert (ts_id <$> snapshot_all r now =
    (filter (λ p, negb (is_terminal (s_phase p.2))) (slots r)).*1) as ->.
  { unfold snapshot_all. rewrite <-list_fmap_compose. apply list_fmap_ext.
    intros i [k s] [_ Hin]%list_elem_of_lookup_2%list_elem_of_filter. simpl.
    by apply (ri_ids r Hr) in Hin as [-> _]. }
  apply bt_sorted_nodup, bt_filter_sorted, Hr.
Qed.

(** The machine widths of what a slot holds. *)
Definition slot_wf (s : TaskSlot) : Prop :=
  i64_MIN ≤ s_chat s ≤ i64_MAX ∧ is_uint 64 (expires_at (s_lease s)) ∧
  is_uint 64 (max_wall_ms (s_budget s)) ∧ is_uint 64 (max_output_bytes (s_budget s)) ∧
  is_uint 64 (max_tokens (s_budget s)) ∧ is_uint 64 (u_wall_ms (s_usage s)) ∧
  is_uint 64 (u_output_bytes (s_usage s)) ∧ is_uint 64 (u_tokens (s_usage s)).

Lemma charge_nothing u b :
  is_uint 64 (u_wall_ms u) → is_uint 64 (u_output_bytes u) → is_uint 64 (u_tokens u) →
  within_budget u b → charge u AgentUsage_default b = Ok u.
Proof.
  unfold is_uint. intros H1 H2 H3 Hb. apply charge_Ok. split; [done|]. destruct u. simpl in *.
  f_equal; unfold saturating_add, u64_MAX; lia.
Qed.

(** A dump is read back as it was, when it has no more snapshots than the cap of the reader, and
    refused as a whole otherwise. *)
Lemma dump_read snaps :
  Forall snapshot_wf snaps →
  decode_snapshots (encode_snapshots snaps) =
    (if Z.of_nat (length snaps) <=? MAX_DUMP_SNAPSHOTS then Ok snaps else Err BadContents).
Proof.
  intros Hwf. destruct (Z.leb_spec (Z.of_nat (length snaps)) MAX_DUMP_SNAPSHOTS) as [Hle|Hgt].
  { rewrite <-(app_nil_r (encode_snapshots _)). by apply dump_roundtrip. }
  unfold decode_snapshots, encode_snapshots. set (bs := SNAPSHOT_MAGIC ++ _).
  destruct (reads_take 4 SNAPSHOT_MAGIC eq_refl (mkCursor bs 0) _ ltac:(simpl; lia) eq_refl)
    as (c1 & -> & Hc1 & Hr1). rewrite bool_decide_eq_true_2 by done. cbn [negb].
  destruct (reads_u8 SNAPSHOT_VERSION ltac:(unfold SNAPSHOT_VERSION; lia) c1 _ Hc1 Hr1)
    as (c2 & -> & Hc2 & Hr2). rewrite Z.eqb_refl. cbn [negb].
  destruct (reads_u32 (Z.min (Z.of_nat (length snaps)) u32_MAX)
    ltac:(unfold is_uint, u32_MAX; change (2 ^ 32) with 4294967296; lia) c2 _ Hc2 Hr2) as (c3 & -> & _).
  by rewrite (proj2 (Z.ltb_lt _ _)) by (unfold MAX_DUMP_SNAPSHOTS, u32_MAX in *; lia).
Qed.

(** What adopting the snapshot of a live slot gives, in a registry [r] that has no such id. *)
Definition readopted (r : TaskRegistry) (id : Z) (slot : TaskSlot) (now : Timestamp) : TaskRegistry :=
  mkTaskRegistry
    (bt_insert (slots r) id
       (mkSlot id (s_chat slot) PPending (Lease_granted (r_owner r) now) (s_budget slot) (s_usage slot) now now))
    (sched r) (r_owner r) (Z.max (next_id r) (id + 1)).

(** C29: Recovery across a restart. The dump of a registry that keeps the invariant of its operations
    (and whose numbers are in the ranges of their types) is read back exactly when it has at most 4096
    live tasks, and refused as a whole otherwise. It holds one snapshot for each live task and none
    for an ended one. Adopting the snapshot of a live task, into any registry and at any time: refuses
    a duplicate when the id is taken; refuses a task whose worktree is gone; and otherwise inserts the
    task under its id with its chat, budget and accumulated usage, waiting for a new worker under a
    fresh lease of the adopting owner, changes no other slot, and keeps its id from being issued
    again. *)
Theorem restart_recovers r now :
  registry_inv r → (∀ k s, (k, s) ∈ slots r → slot_wf s) → 0 ≤ now →
  let snaps := snapshot_all r now in
  decode_snapshots (encode_snapshots snaps) =
    (if Z.of_nat (length snaps) <=? MAX_DUMP_SNAPSHOTS then Ok snaps else Err BadContents) ∧
  NoDup (ts_id <$> snaps) ∧
  ∀ id, match find (λ s, ts_id s =? id) snaps with
    | None => ∀ slot, bt_get (slots r) id = Some slot → is_terminal (s_phase slot) = true
    | Some snap =>
        ∃ slot, bt_get (slots r) id = Some slot ∧ is_terminal (s_phase slot) = false ∧
        ∀ r' present now',
          adopt_from_snapshot r' snap present now' =
          match bt_get (slots r') id with
          | Some _ => (Err ADuplicate, r')
          | None => if present : bool then (Ok id, readopted r' id slot now') else (Err WorktreeGone, r')
          end
    end.
Proof.
  intros Hr Hwf Hnow snaps. split; [|split; [by apply snapshot_all_nodup|]].
  - apply dump_read, Forall_forall. intros ? ([k s] & -> & [_ Hin]%list_elem_of_filter)%list_elem_of_fmap.
    destruct (Hwf k s Hin) as (? & ? & ? & ? & ? & ? & ? & ?).
    destruct (ri_ids r Hr k s Hin) as [Hk ?]. pose proof (ri_next r Hr).
    unfold snapshot_wf, snapshot_of, is_uint, saturating_sub, u64_MAX in *. simpl.
    repeat split; try done; lia.
  - intros id. unfold snaps. rewrite snapshot_all_find by done.
    destruct (bt_get (slots r) id) as [s|] eqn:Hs; [|done]. cbn [mbind option_bind].
    destruct (is_terminal (s_phase s)) eqn:Ht; [by intros ? [= <-]|].
    destruct (slot_get_id r id s Hr Hs) as [Hid Hin]. exists s. split; [done|]. split; [done|].
    intros r' present now'. unfold adopt_from_snapshot. cbn [snapshot_of ts_id]. rewrite Hid.
    destruct (bt_get (slots r') id); [done|]. destruct present; [|done]. cbn [negb].
    destruct (Hwf id s Hin) as (? & ? & ? & ? & ? & ? & ? & ?). destruct (ri_ids r Hr id s Hin) as [_ ?].
    pose proof (ri_next r Hr). cbn [snapshot_of ts_usage ts_budget ts_chat].
    rewrite charge_nothing by (try done; by eapply (ri_budget r Hr)).
    unfold readopted. do 2 f_equal. unfold wrapping_add, u64_MAX in *. change (2 ^ 64) with 18446744073709551616.
    rewrite Z.mod_small by lia. destruct (Z.leb_spec (next_id r') id); lia.
Qed.

Lemma restart_recovers_witness :
  let snaps := snapshot_all demo_registry3 5 in
  decode_snapshots (encode_snapshots snaps) = Ok snaps ∧ length snaps = length (ts_id <$> snaps) ∧ snaps ≠ [].
Proof.
  intros snaps. split; [|split; [by rewrite length_fmap|by vm_compute]].
  refine (proj1 (restart_recovers demo_registry3 5 demo_registry3_inv _ _)).
  - intros k s Hin. apply list_elem_of_In in Hin. vm_compute in Hin.
    repeat destruct Hin as [[= <- <-]|Hin]; try done; vm_compute; repeat split; congruence.
  - lia.
Defined.

(** The adoption of a snapshot reserves no slot of the scheduler: with a cap of one, two
    adopted tasks and a third admitted one are live at once, and when the adopted ones end
    their release is charged to the admitted one. *)
Theorem adoption_bypasses_cap :
  let snap id := mkTaskSnapshot id 7 PRunning 0 default_task_budget AgentUsage_default None in
  let r0 := (adopt_from_snapshot (adopt_from_snapshot (TaskRegistry_new 1 9) (snap 1) true 0).2 (snap 2) true 0).2 in
  let r1 := (admit_task r0 7 default_task_budget 0).2 in
  max_concurrent (sched r1) = 1 ∧ len_active r1 = 3%nat ∧ running (sched r1) = 1 ∧
  let r2 := (tick (observe_finished r1 1) 1).2 in
  len_active r2 = 2%nat ∧ running (sched r2) = 0.
Proof. vm_compute. done. Qed.
