(* ===== verification/Session.v ===== *)
(** * Sessions (crate [crustcore-session])

    The application's view of a run: everything is derived from the event log, nothing is
    stored. [view.rs] selects the frames of a session, [resume.rs] reconstructs a view only
    from a log and receipts that verify, [snapshot.rs] projects the model-visible turns,
    [lease.rs] re-derives lease and cancellation, [compact.rs] shapes the history for a
    model's context, [artifact.rs] bounds reads by handle, [service.rs] is the facade. A
    borrowed log is the log itself. *)

From S2P Require Import Prelude Text Std Redactor Types Sha256 KernelState EventLog Receipts.

(** ** Views *)

Record SeqRange := mkSeqRange { sr_start : option EventSeq; sr_end : option EventSeq }.
Definition SeqRange_all : SeqRange := mkSeqRange None None.
Definition up_to (s : EventSeq) : SeqRange := mkSeqRange None (Some s).
Definition range_contains (r : SeqRange) (s : EventSeq) : bool :=
  match sr_start r with None => true | Some a => a <=? s end &&
  match sr_end r with None => true | Some b => s <=? b end.

(** [SessionId] is a task id. *)
Abbreviation SessionId := Z (only parsing).
Record SessionView := mkView {
  v_log : EventLog; v_session : SessionId; v_job : option JobId; v_range : SeqRange }.
Definition SessionView_new (log : EventLog) (session : SessionId) : SessionView :=
  mkView log session None SeqRange_all.
Definition view_with_job (v : SessionView) (j : JobId) : SessionView :=
  mkView (v_log v) (v_session v) (Some j) (v_range v).
Definition view_with_range (v : SessionView) (r : SeqRange) : SessionView :=
  mkView (v_log v) (v_session v) (v_job v) r.

Definition selects (v : SessionView) (f : EventFrame) : bool :=
  bool_decide (f_task_id f = Some (v_session v)) &&
  match v_job v with None => true | Some j => bool_decide (f_job_id f = Some j) end &&
  range_contains (v_range v) (f_seq f).
Definition frames (v : SessionView) : list Decoded :=
  filter (λ d, selects v (d_frame d)) (iter (log_bytes (v_log v))).
Definition frame_count (v : SessionView) : nat := length (frames v).

(** [max_by_key] keeps the last of equal maxima; the sequence numbers are all it looks at. *)
Definition max_seq (o : option EventSeq) (s : EventSeq) : option EventSeq :=
  Some match o with Some m => if m <? s then s else m | None => s end.
Definition head_seq (v : SessionView) : option EventSeq :=
  fold_left max_seq ((λ d, f_seq (d_frame d)) <$> frames v) None.

Definition frame_refs (log : EventLog) : list FrameRef :=
  (λ d, mkFrameRef (f_seq (d_frame d)) (bool_decide (f_kind (d_frame d) = ToolCallCompleted))
          (f_task_id (d_frame d)) (f_job_id (d_frame d))) <$> iter (log_bytes log).

Definition is_turn_kind (k : EventKind) : bool :=
  match k with
  | UserMessageQueued | UserSteerReceived | ModelOutputReceived | ToolCallCompleted => true
  | _ => false
  end.
Definition conversation_turns (v : SessionView) : list Decoded :=
  filter (λ d, is_turn_kind (f_kind (d_frame d))) (frames v).

(** ** Leases *)

Inductive CancellationState := Live | Killed | Failed.
Definition cancellation_is_live (c : CancellationState) : bool :=
  match c with Live => true | _ => false end.
Inductive LeaseStatus := LUnleased | Leased (job : JobId) (owner : LeaseOwner) (at_seq : EventSeq).
Record LeaseView := mkLeaseView {
  lv_lease : LeaseStatus; lv_cancellation : CancellationState; lv_terminal_seq : option EventSeq }.

Definition frame_lease_owner (d : Decoded) : option LeaseOwner :=
  if bool_decide (f_kind (d_frame d) = JobLeased)
  then from_le_bytes <$> slice (d_payload d) 0 8 else None.
Definition encode_lease_payload (owner : LeaseOwner) : bytes := to_le_bytes 8 owner.

Definition lease_step (lv : LeaseView) (d : Decoded) : LeaseView :=
  match f_kind (d_frame d) with
  | JobLeased =>
      match f_job_id (d_frame d), frame_lease_owner d with
      | Some job, Some owner =>
          mkLeaseView (Leased job owner (f_seq (d_frame d))) (lv_cancellation lv) (lv_terminal_seq lv)
      | _, _ => lv
      end
  | TaskKilled =>
      if cancellation_is_live (lv_cancellation lv)
      then mkLeaseView (lv_lease lv) Killed (Some (f_seq (d_frame d))) else lv
  | TaskFailed =>
      if cancellation_is_live (lv_cancellation lv)
      then mkLeaseView (lv_lease lv) Failed (Some (f_seq (d_frame d))) else lv
  | _ => lv
  end.
Definition LeaseView_derive (v : SessionView) : LeaseView :=
  fold_left lease_step (frames v) (mkLeaseView LUnleased Live None).
Definition lease_is_live (lv : LeaseView) : bool := cancellation_is_live (lv_cancellation lv).
Definition owned_by (lv : LeaseView) (owner : LeaseOwner) : bool :=
  match lv_lease lv with Leased _ o _ => o =? owner | LUnleased => false end.

(** ** Artifacts *)

Definition MAX_ARTIFACT_BYTES : nat := N.to_nat (64 * 1024).
(** A handle is the content hash; the store behind it is the trait [ArtifactResolver]. *)
Abbreviation ArtifactHandle := (list Z) (only parsing).
Class ArtifactResolver := { resolve : ArtifactHandle → option bytes }.
Definition artifact_exists `{ArtifactResolver} (h : ArtifactHandle) : bool :=
  bool_decide (is_Some (resolve h)).
Definition read_bounded `{ArtifactResolver} (h : ArtifactHandle) : option bytes :=
  take MAX_ARTIFACT_BYTES <$> resolve h.

(** ** Snapshots *)

Inductive TurnKind := TUser | TModel | TTool.
Definition turn_kind (k : EventKind) : option TurnKind :=
  match k with
  | UserMessageQueued | UserSteerReceived => Some TUser
  | ModelOutputReceived => Some TModel
  | ToolCallCompleted => Some TTool
  | _ => None
  end.
Record Turn := mkTurn {
  t_seq : EventSeq; t_kind : TurnKind; t_text : bytes; t_artifacts : list ArtifactHandle }.
Inductive SnapshotError := NoFramesAtOrBelow (s : EventSeq).
Record Snapshot := mkSnapshot {
  sn_session : SessionId; sn_at_seq : EventSeq; sn_head_hash : bytes; sn_turns : list Turn }.

(** The body of the loop for one frame: a turn, or nothing. *)
Definition turn_of (redactor : Redactor) (d : Decoded) : option Turn :=
  if negb (bool_decide (f_visibility (d_frame d) = ModelVisible)) then None
  else match turn_kind (f_kind (d_frame d)) with
       | None => None
       | Some kind =>
           Some (mkTurn (f_seq (d_frame d)) kind
                   (redact redactor (from_utf8_lossy (d_payload d))) [])
       end.
Definition Snapshot_derive (v : SessionView) (at_seq : EventSeq) (redactor : Redactor)
  : result SnapshotError Snapshot :=
  let bounded := view_with_range v (up_to at_seq) in
  let turns := omap (turn_of redactor) (frames bounded) in
  match head_seq bounded with
  | None => Err (NoFramesAtOrBelow at_seq)
  | Some at_ => Ok (mkSnapshot (v_session v) at_ (head_hash (v_log v)) turns)
  end.

(** ** Compaction *)

Definition MAX_COMPACT_BYTES : nat := N.to_nat (16 * 1024).
Definition MAX_COMPACT_TURNS : nat := 32.
Definition MAX_TURN_BYTES : nat := N.to_nat (2 * 1024).
Inductive CompactionMode := KeepLastN (n : nat) | SummarizeOlder (n : nat) | DropBulkToHandles.
(** A [CompactionPolicy] is its mode; every constructor clamps. *)
Definition CompactionPolicy_default : CompactionMode := DropBulkToHandles.
Definition keep_last_n (n : nat) : CompactionMode := KeepLastN (Nat.min n MAX_COMPACT_TURNS).
Definition summarize_older (n : nat) : CompactionMode := SummarizeOlder (Nat.min n MAX_COMPACT_TURNS).

(** [bound_str]. *)
Definition bound_str (s : bytes) (max : nat) : bytes :=
  if decide (length s ≤ max)%nat then s else take (floor_char_boundary s max) s.

Definition turn_prefix (k : TurnKind) : bytes :=
  lit match k with TUser => "user" | TModel => "model" | TTool => "tool" end.
Definition render_turn (redactor : Redactor) (t : Turn) : bytes :=
  turn_prefix (t_kind t) ++ lit ": " ++ bound_str (redact redactor (t_text t)) MAX_TURN_BYTES.

(** [lines.join("\n")], [s.lines().count()] guarded by [is_empty]. *)
Fixpoint join_lines (ls : list bytes) : bytes :=
  match ls with
  | [] => []
  | [l] => l
  | l :: ls' => l ++ [10] ++ join_lines ls'
  end.
Definition count_newlines (s : bytes) : nat := length (filter (λ b, b = 10) s).
Definition count_lines (s : bytes) : nat :=
  match last s with
  | None => 0
  | Some b => if b =? 10 then count_newlines s else S (count_newlines s)
  end.

Definition artifact_count (ts : list Turn) : nat := sum_list_with (λ t, length (t_artifacts t)) ts.

(** The lines of the mode, before the caps. *)
Definition mode_lines (mode : CompactionMode) (turns : list Turn) (redactor : Redactor) : list bytes :=
  let keep (summarize : bool) (n : nat) :=
    let keep_from := (length turns - n)%nat in
    let older := take keep_from turns in
    let kept := drop keep_from turns in
    (if negb (bool_decide (older = [])) && summarize
     then [lit "[summary: " ++ dec_u (Z.of_nat (length older)) ++ lit " earlier turn(s) omitted]"]
     else []) ++ (render_turn redactor <$> kept) in
  match mode with
  | DropBulkToHandles =>
      if bool_decide (turns = []) then []
      else [lit "[compacted: " ++ dec_u (Z.of_nat (length turns)) ++
            lit " turn(s) dropped to artifact handles]"]
  | KeepLastN n => keep false n
  | SummarizeOlder n => keep true n
  end.

(** The cap on lines: the last kept line becomes the marker. *)
Definition cap_lines (lines : list bytes) : list bytes :=
  if decide (MAX_COMPACT_TURNS < length lines)%nat then
    let overflow := (length lines - MAX_COMPACT_TURNS)%nat in
    take (MAX_COMPACT_TURNS - 1) lines ++
    [lit "[compacted: " ++ dec_u (Z.of_nat overflow) ++ lit " further line(s) omitted by turn cap]"]
  else lines.

Record CompactedHistory := mkCompacted {
  ch_text : bytes; ch_retained_turns : nat; ch_dropped_artifacts : nat }.
(** The bounded history before it is sealed by the redactor. *)
Definition compact_joined (mode : CompactionMode) (turns : list Turn) (redactor : Redactor) : bytes :=
  let joined := join_lines (cap_lines (mode_lines mode turns redactor)) in
  if decide (MAX_COMPACT_BYTES < length joined)%nat then bound_str joined MAX_COMPACT_BYTES else joined.
Definition compact (mode : CompactionMode) (turns : list Turn) (redactor : Redactor)
  : CompactedHistory :=
  let text := redact redactor (compact_joined mode turns redactor) in
  mkCompacted text (count_lines text) (artifact_count turns).
Definition byte_len (h : CompactedHistory) : nat := length (ch_text h).

(** ** Resuming *)

Inductive ResumeRefused :=
| LogBroken (frame_index : nat) (reason : BreakReason)
| RHeadMismatch
| ReceiptJoinBroken (index : nat) (reason : JoinBreak).

Definition log_break (frame_index : nat) (reason : BreakReason) : ResumeRefused :=
  match reason with HeadMismatch => RHeadMismatch | _ => LogBroken frame_index reason end.
Definition check_join (log : EventLog) (receipts : list ToolReceipt) : result ResumeRefused unit :=
  match verify_against_log receipts (frame_refs log) with
  | Joined _ => Ok tt
  | JBroken i reason => Err (ReceiptJoinBroken i reason)
  end.

Section Service.
Context `{HS : Hash}.

Definition resume (log : EventLog) (session : SessionId) (receipts : list ToolReceipt)
  : result ResumeRefused SessionView :=
  _ ← check_join log receipts;
  match verify (log_bytes log) with
  | Intact _ => Ok (SessionView_new log session)
  | Broken i reason => Err (log_break i reason)
  end.
Definition resume_to_head (log : EventLog) (session : SessionId) (receipts : list ToolReceipt)
    (expected_head : bytes) : result ResumeRefused SessionView :=
  _ ← check_join log receipts;
  match verify_to_head (log_bytes log) expected_head with
  | Intact _ => Ok (SessionView_new log session)
  | Broken i reason => Err (log_break i reason)
  end.

(** [Snapshot::verify_against]. *)
Definition verify_against (s : Snapshot) (log : EventLog) : bool :=
  is_intact (verify_to_head (log_bytes log) (sn_head_hash s)).

(** ** The facade *)

Record SessionService := mkService { sv_log : EventLog; sv_redactor : Redactor }.
Definition sv_open (s : SessionService) (session : SessionId) : SessionView :=
  SessionView_new (sv_log s) session.
Definition sv_list (s : SessionService) : list SessionId :=
  fold_left (λ seen d,
    match f_task_id (d_frame d) with
    | Some tid => if bool_decide (tid ∈ seen) then seen else seen ++ [tid]
    | None => seen
    end) (iter (log_bytes (sv_log s))) [].
Definition sv_snapshot (s : SessionService) (session : SessionId) (at_seq : EventSeq)
  : result SnapshotError Snapshot := Snapshot_derive (sv_open s session) at_seq (sv_redactor s).
Definition sv_resume (s : SessionService) (session : SessionId) (receipts : list ToolReceipt)
  : result ResumeRefused SessionView := resume (sv_log s) session receipts.
Definition sv_lease (s : SessionService) (session : SessionId) : LeaseView :=
  LeaseView_derive (sv_open s session).
Definition sv_compact (s : SessionService) (session : SessionId) (policy : CompactionMode)
  : CompactedHistory :=
  let view := sv_open s session in
  match head_seq view with
  | Some head =>
      match Snapshot_derive view head (sv_redactor s) with
      | Ok snap => compact policy (sn_turns snap) (sv_redactor s)
      | Err _ => compact policy [] (sv_redactor s)
      end
  | None => compact policy [] (sv_redactor s)
  end.

End Service.
