(* ===== verification/Json.v ===== *)
(** * The flat JSON codec (crate [crustcore-netproto], [json.rs])

    One object per line, scalar values only. Strings are lists of characters, as the parser
    of the source walks them; the parser's index is the rest of its input. *)

From S2P Require Import Prelude Text Std Chars.

(** The message of a [JsonError], by its reason. *)
Inductive JsonError :=
| ExpectedSepGot (got : option Z)
| Expected (ch : Z) (got : option Z)
| TrailingCharacters
| NestedValue
| UnexpectedStart (got : option Z)
| UnterminatedString
| DanglingEscape
| InvalidEscape (ch : Z)
| ShortEscape
| BadHexDigit (ch : Z)
| ExpectedDigits
| NonInteger
| OutOfRange (text : chars)
| InvalidToken (expected : string).

Inductive Scalar := Str (s : chars) | Int (i : Z) | Bool (b : bool) | Null.

(** ** Fields *)

Record Fields := mkFields { field_map : gmap chars Scalar }.
Definition field (f : Fields) (key : string) : option Scalar := field_map f !! lit key.
Definition f_str (f : Fields) (key : string) : option chars :=
  match field f key with Some (Str s) => Some s | _ => None end.
Definition f_int (f : Fields) (key : string) : option Z :=
  match field f key with Some (Int i) => Some i | _ => None end.
Definition f_uint (f : Fields) (key : string) : option Z :=
  match field f key with Some (Int i) => if 0 <=? i then Some i else None | _ => None end.
Definition f_bool (f : Fields) (key : string) : option bool :=
  match field f key with Some (Bool b) => Some b | _ => None end.

(** ** The parser *)

Abbreviation P A := (result JsonError (A * chars)) (only parsing).

Definition is_json_ws (c : Z) : bool := (c =? 32) || (c =? 9) || (c =? 13) || (c =? 10).
Fixpoint skip_ws (cs : chars) : chars :=
  match cs with
  | c :: cs' => if is_json_ws c then skip_ws cs' else cs
  | [] => []
  end.
Definition expect (ch : Z) (cs : chars) : result JsonError chars :=
  match cs with
  | c :: cs' => if c =? ch then Ok cs' else Err (Expected ch (Some c))
  | [] => Err (Expected ch None)
  end.
Definition eof (cs : chars) : result JsonError unit :=
  match cs with [] => Ok tt | _ => Err TrailingCharacters end.

(** [char::to_digit(16)]. *)
Definition hex_digit (c : Z) : option Z :=
  if in_range 48 57 c then Some (c - 48)
  else if in_range 97 102 c then Some (c - 87)
  else if in_range 65 70 c then Some (c - 55) else None.
Fixpoint read_hex (n : nat) (v : Z) (cs : chars) : P Z :=
  match n with
  | O => Ok (v, cs)
  | S n' =>
      match cs with
      | [] => Err ShortEscape
      | c :: cs' =>
          d ← ok_or (hex_digit c) (BadHexDigit c);
          read_hex n' (Z.lor (Z.shiftl v 4) d) cs'
      end
  end.
Definition read_hex4 : chars → P Z := read_hex 4 0.

Definition REPLACEMENT_CHAR : Z := 65533.
Definition parse_unicode_escape (cs : chars) : P Z :=
  '(hi, cs) ← read_hex4 cs;
  if in_range 55296 56319 hi then
    match cs with
    | c1 :: c2 :: cs2 =>
        if (c1 =? 92) && (c2 =? 117) then
          '(lo, cs3) ← read_hex4 cs2;
          if in_range 56320 57343 lo then
            let cp := 65536 + Z.shiftl (hi - 55296) 10 + (lo - 56320) in
            Ok (default REPLACEMENT_CHAR (from_u32 cp), cs3)
          else Ok (REPLACEMENT_CHAR, cs3)
        else Ok (REPLACEMENT_CHAR, cs)
    | _ => Ok (REPLACEMENT_CHAR, cs)
    end
  else Ok (default REPLACEMENT_CHAR (from_u32 hi), cs).

(** The loop after the opening quote; every turn consumes a character. *)
Fixpoint string_loop (fuel : nat) (out cs : chars) : P chars :=
  match fuel with
  | O => Err UnterminatedString
  | S fuel' =>
      match cs with
      | [] => Err UnterminatedString
      | ch :: cs =>
          if ch =? 34 then Ok (out, cs)
          else if ch =? 92 then
            match cs with
            | [] => Err DanglingEscape
            | esc :: cs =>
                if esc =? 34 then string_loop fuel' (out ++ [34]) cs
                else if esc =? 92 then string_loop fuel' (out ++ [92]) cs
                else if esc =? 47 then string_loop fuel' (out ++ [47]) cs
                else if esc =? 110 then string_loop fuel' (out ++ [10]) cs
                else if esc =? 114 then string_loop fuel' (out ++ [13]) cs
                else if esc =? 116 then string_loop fuel' (out ++ [9]) cs
                else if esc =? 98 then string_loop fuel' (out ++ [8]) cs
                else if esc =? 102 then string_loop fuel' (out ++ [12]) cs
                else if esc =? 117 then
                  '(c, cs) ← parse_unicode_escape cs; string_loop fuel' (out ++ [c]) cs
                else Err (InvalidEscape esc)
            end
          else string_loop fuel' (out ++ [ch]) cs
      end
  end.
Definition parse_string (cs : chars) : P chars :=
  cs ← expect 34 cs; string_loop (S (length cs)) [] cs.

Fixpoint span_digits (cs : chars) : chars * chars :=
  match cs with
  | c :: cs' => if is_digit c then prod_map (cons c) id (span_digits cs') else ([], cs)
  | [] => ([], [])
  end.
Definition parse_int (cs : chars) : P Scalar :=
  let '(sign, cs1) := match cs with
                      | c :: cs' => if c =? 45 then ([45], cs') else ([], cs)
                      | [] => ([], cs)
                      end in
  let '(digits, rest) := span_digits cs1 in
  if bool_decide (digits = []) then Err ExpectedDigits
  else if match rest with c :: _ => (c =? 46) || (c =? 101) || (c =? 69) | [] => false end
  then Err NonInteger
  else
    let text := sign ++ digits in
    match parse_i64 text with
    | Some i => Ok (Int i, rest)
    | None => Err (OutOfRange text)
    end.

(** [matches_keyword]: the rest after the keyword, if it is there. *)
Fixpoint matches_keyword (kw cs : chars) : option chars :=
  match kw, cs with
  | [], _ => Some cs
  | k :: kw', c :: cs' => if k =? c then matches_keyword kw' cs' else None
  | _ :: _, [] => None
  end.
Definition parse_bool (cs : chars) : P Scalar :=
  match matches_keyword (lit "true") cs with
  | Some rest => Ok (Bool true, rest)
  | None =>
      match matches_keyword (lit "false") cs with
      | Some rest => Ok (Bool false, rest)
      | None => Err (InvalidToken "true/false")
      end
  end.
Definition parse_null (cs : chars) : P Scalar :=
  match matches_keyword (lit "null") cs with
  | Some rest => Ok (Null, rest)
  | None => Err (InvalidToken "null")
  end.

Definition parse_scalar (cs : chars) : P Scalar :=
  match cs with
  | [] => Err (UnexpectedStart None)
  | c :: _ =>
      if c =? 34 then '(s, rest) ← parse_string cs; Ok (Str s, rest)
      else if (c =? 116) || (c =? 102) then parse_bool cs
      else if c =? 110 then parse_null cs
      else if (c =? 45) || is_digit c then parse_int cs
      else if (c =? 123) || (c =? 91) then Err NestedValue
      else Err (UnexpectedStart (Some c))
  end.

(** The loop over the members; a member consumes at least its opening quote. *)
Fixpoint members_loop (fuel : nat) (map : gmap chars Scalar) (cs : chars) : P (gmap chars Scalar) :=
  match fuel with
  | O => Err (ExpectedSepGot None)
  | S fuel' =>
      let cs := skip_ws cs in
      '(key, cs) ← parse_string cs;
      let cs := skip_ws cs in
      cs ← expect 58 cs;
      let cs := skip_ws cs in
      '(val, cs) ← parse_scalar cs;
      let map := <[key := val]> map in
      let cs := skip_ws cs in
      match cs with
      | c :: cs' =>
          if c =? 44 then members_loop fuel' map cs'
          else if c =? 125 then Ok (map, cs')
          else Err (ExpectedSepGot (Some c))
      | [] => Err (ExpectedSepGot None)
      end
  end.

Definition parse_flat_object (s : chars) : result JsonError Fields :=
  let cs := skip_ws s in
  cs ← expect 123 cs;
  let cs := skip_ws cs in
  match cs with
  | c :: cs' =>
      if c =? 125 then
        _ ← eof (skip_ws cs'); Ok (mkFields ∅)
      else
        '(map, cs) ← members_loop (S (length cs)) ∅ cs;
        _ ← eof (skip_ws cs); Ok (mkFields map)
  | [] =>
      '(map, cs) ← members_loop (S (length cs)) ∅ cs;
      _ ← eof (skip_ws cs); Ok (mkFields map)
  end.

(** ** The builder *)

(** One hexadecimal digit of [{:04x}]. *)
Definition hex_char (d : Z) : Z := if d <? 10 then 48 + d else 87 + d.
Definition hex4 (v : Z) : chars :=
  [hex_char (v / 4096 mod 16); hex_char (v / 256 mod 16); hex_char (v / 16 mod 16); hex_char (v mod 16)].
Definition escape_char (c : Z) : chars :=
  if c =? 34 then [92; 34]
  else if c =? 92 then [92; 92]
  else if c =? 10 then [92; 110]
  else if c =? 13 then [92; 114]
  else if c =? 9 then [92; 116]
  else if c <? 32 then [92; 117] ++ hex4 c
  else [c].
Definition encode_str (value : chars) : chars := [34] ++ (value ≫= escape_char) ++ [34].

Record Obj := mkObj { o_buf : chars; o_first : bool }.
Definition Obj_new : Obj := mkObj [123] true.
Definition obj_sep (o : Obj) : Obj :=
  if o_first o then mkObj (o_buf o) false else mkObj (o_buf o ++ [44]) false.
Definition obj_push (o : Obj) (s : chars) : Obj := mkObj (o_buf o ++ s) (o_first o).
Definition obj_key (o : Obj) (k : string) : Obj := obj_push (obj_sep o) (encode_str (lit k) ++ [58]).
Definition obj_str (k : string) (v : chars) (o : Obj) : Obj := obj_push (obj_key o k) (encode_str v).
Definition obj_int (k : string) (v : Z) (o : Obj) : Obj := obj_push (obj_key o k) (dec_i v).
Definition obj_uint (k : string) (v : Z) (o : Obj) : Obj := obj_push (obj_key o k) (dec_u v).
Definition obj_bool (k : string) (v : bool) (o : Obj) : Obj :=
  obj_push (obj_key o k) (lit (if v then "true" else "false")).
Definition obj_finish (o : Obj) : chars := o_buf o ++ [125].

(** ** Lemmas *)

(** A value the builder can append, and what the parser reads back. *)
Inductive Value := VStr (s : chars) | VInt (i : Z) | VUint (u : Z) | VBool (b : bool).
Definition scalar_of (v : Value) : Scalar :=
  match v with VStr s => Str s | VInt i | VUint i => Int i | VBool b => Bool b end.
Definition value_text (v : Value) : chars :=
  match v with
  | VStr s => encode_str s
  | VInt i => dec_i i
  | VUint u => dec_u u
  | VBool b => lit (if b then "true" else "false")
  end.
Definition put (o : Obj) (kv : string * Value) : Obj :=
  match kv.2 with
  | VStr s => obj_str kv.1 s o
  | VInt i => obj_int kv.1 i o
  | VUint u => obj_uint kv.1 u o
  | VBool b => obj_bool kv.1 b o
  end.
Definition encode_fields (l : list (string * Value)) : chars := obj_finish (fold_left put l Obj_new).
(** Characters are not negative; integers are in the range the parser accepts. *)
Definition value_ok (v : Value) : Prop :=
  match v with
  | VStr s => Forall (λ c, 0 ≤ c) s
  | VInt i => i64_MIN ≤ i ≤ i64_MAX
  | VUint u => 0 ≤ u ≤ i64_MAX
  | VBool _ => True
  end.
(** The machine widths of the members: a [u64] may lie beyond what the parser accepts. *)
Definition value_typed (v : Value) : Prop :=
  match v with VUint u => 0 ≤ u ≤ u64_MAX | _ => value_ok v end.
Definition too_large (v : Value) : option Z :=
  match v with VUint u => if i64_MAX <? u then Some u else None | _ => None end.
Lemma typed_fits v : value_typed v → too_large v = None → value_ok v.
Proof. destruct v as [| |u|]; try done. simpl. destruct (Z.ltb_spec i64_MAX u); [done|]. lia. Qed.
Lemma fits_typed v : value_ok v → value_typed v ∧ too_large v = None.
Proof.
  destruct v as [| |u|]; try done. simpl. intros Hu. rewrite (proj2 (Z.ltb_ge _ _)) by lia.
  split; [|done]. unfold u64_MAX, i64_MAX in *. lia.
Qed.
Definition fields_of (l : list (string * Value)) : Fields :=
  mkFields (fold_left (λ m kv, <[lit kv.1 := scalar_of kv.2]> m) l ∅).

Lemma unicode_escape_hex4 c R :
  0 ≤ c < 32 → parse_unicode_escape (hex4 c ++ R) = Ok (c, R).
Proof.
  intros Hc. destruct c as [|p|p]; [reflexivity| |lia].
  do 5 (destruct p as [p|p|]; [| |reflexivity]; try lia).
Qed.

Lemma escape_char_plain c :
  c ≠ 34 → c ≠ 92 → 32 ≤ c → escape_char c = [c].
Proof.
  intros H1 H2 H3. unfold escape_char.
  rewrite !(proj2 (Z.eqb_neq _ _)) by lia. by rewrite (proj2 (Z.ltb_ge c 32)).
Qed.

(** One character of a literal, escaped, is one turn of the loop. *)
Lemma string_loop_char fuel out c R :
  0 ≤ c →
  string_loop (S fuel) out (escape_char c ++ R) = string_loop fuel (out ++ [c]) R.
Proof.
  intros Hc.
  destruct (Z.eq_dec c 34) as [->|H1]; [reflexivity|].
  destruct (Z.eq_dec c 92) as [->|H2]; [reflexivity|].
  destruct (Z.eq_dec c 10) as [->|H3]; [reflexivity|].
  destruct (Z.eq_dec c 13) as [->|H4]; [reflexivity|].
  destruct (Z.eq_dec c 9) as [->|H5]; [reflexivity|].
  destruct (Z.lt_ge_cases c 32).
  - unfold escape_char. rewrite !(proj2 (Z.eqb_neq _ _)) by lia.
    rewrite (proj2 (Z.ltb_lt c 32)) by lia. rewrite <-app_assoc. cbn [app string_loop].
    change (92 =? 34) with false. change (92 =? 92) with true. cbv iota.
    change (117 =? 34) with false. change (117 =? 92) with false. change (117 =? 47) with false.
    change (117 =? 110) with false. change (117 =? 114) with false. change (117 =? 116) with false.
    change (117 =? 98) with false. change (117 =? 102) with false. change (117 =? 117) with true.
    cbv iota. by rewrite unicode_escape_hex4.
  - rewrite escape_char_plain by lia. cbn [app string_loop].
    by rewrite !(proj2 (Z.eqb_neq _ _)) by lia.
Qed.

Lemma string_loop_escape value : Forall (λ c, 0 ≤ c) value → ∀ fuel out R,
  (length value < fuel)%nat →
  string_loop fuel out ((value ≫= escape_char) ++ 34 :: R) = Ok (out ++ value, R).
Proof.
  induction 1 as [|c value Hc _ IH]; intros fuel out R Hf.
  - destruct fuel; [lia|]. simpl. by rewrite app_nil_r.
  - destruct fuel as [|fuel]; [lia|].
    change ((c :: value) ≫= escape_char) with (escape_char c ++ (value ≫= escape_char)).
    rewrite <-app_assoc, string_loop_char by done. simpl in Hf. rewrite IH by lia.
    by rewrite <-app_assoc.
Qed.

Lemma escape_length value : (length value ≤ length (value ≫= escape_char))%nat.
Proof.
  induction value as [|c value IH]; [done|].
  change ((c :: value) ≫= escape_char) with (escape_char c ++ (value ≫= escape_char)).
  rewrite length_app. simpl. assert (1 ≤ length (escape_char c))%nat; [|lia].
  unfold escape_char. repeat case_match; simpl; lia.
Qed.

Lemma parse_encode_str value R :
  Forall (λ c, 0 ≤ c) value → parse_string (encode_str value ++ R) = Ok (value, R).
Proof.
  intros Hv. unfold encode_str, parse_string. rewrite <-!app_assoc. cbn [app expect].
  rewrite Z.eqb_refl. cbn [mbind result_bind].
  apply (string_loop_escape value Hv (S (length _)) []).
  rewrite length_app. pose proof (escape_length value). lia.
Qed.

Lemma lit_nonneg s : Forall (λ c, 0 ≤ c) (lit s).
Proof. eapply Forall_impl; [apply lit_byte|]. unfold is_byte. intros c ?. lia. Qed.

Lemma span_digits_app ds R :
  Forall (λ c, is_digit c = true) ds → match R with c :: _ => is_digit c = false | [] => True end →
  span_digits (ds ++ R) = (ds, R).
Proof.
  intros Hds HR. induction Hds as [|d ds Hd _ IH]; simpl.
  - destruct R as [|c R]; [done|]. simpl. by rewrite HR.
  - by rewrite Hd, IH.
Qed.

(** What follows a value in an object. *)
Definition after_value (R : chars) : Prop := ∃ c R', R = c :: R' ∧ (c = 44 ∨ c = 125).

Lemma parse_int_text i R :
  after_value R →
  parse_int (dec_i i ++ R) =
    match parse_i64 (dec_i i) with Some n => Ok (Int n, R) | None => Err (OutOfRange (dec_i i)) end.
Proof.
  intros (c & R' & -> & Hc).
  assert (∀ n, 0 ≤ n → span_digits (dec_u n ++ c :: R') = (dec_u n, c :: R')) as Hspan.
  { intros n Hn. apply span_digits_app; [|by destruct Hc as [->| ->]].
    apply Forall_forall. intros d Hd%dec_u_digits; [|done]. unfold is_digit, in_range.
    apply andb_true_iff. lia. }
  assert (((c =? 46) || (c =? 101) || (c =? 69)) = false) as Hsep by (by destruct Hc as [->| ->]).
  unfold parse_int. unfold dec_i.
  destruct (Z.ltb_spec i 0).
  - rewrite <-app_comm_cons. rewrite Z.eqb_refl. rewrite Hspan by lia.
    rewrite bool_decide_eq_false_2 by apply dec_u_nonempty. by rewrite Hsep.
  - destruct (dec_u_head i) as (d & ds & E & Hd); [done|].
    assert ((match dec_u i ++ c :: R' with
             | c0 :: cs' => if c0 =? 45 then ([45], cs') else ([], dec_u i ++ c :: R')
             | [] => ([], dec_u i ++ c :: R')
             end) = ([], dec_u i ++ c :: R')) as ->.
    { rewrite E. cbn [app]. by rewrite (proj2 (Z.eqb_neq d 45)) by lia. }
    rewrite Hspan by done. rewrite bool_decide_eq_false_2 by apply dec_u_nonempty.
    by rewrite Hsep.
Qed.

Lemma parse_scalar_text i R :
  after_value R →
  parse_scalar (dec_i i ++ R) =
    match parse_i64 (dec_i i) with Some n => Ok (Int n, R) | None => Err (OutOfRange (dec_i i)) end.
Proof.
  intros HR.
  assert (∃ c cs, dec_i i ++ R = c :: cs ∧ (c = 45 ∨ 48 ≤ c ≤ 57)) as (c & cs & E & Hc).
  { unfold dec_i. destruct (Z.ltb_spec i 0); [eexists _, _; split; [done|by left]|].
    destruct (dec_u_head i) as (d & ds & -> & Hd); [done|]. eexists _, _. split; [done|by right]. }
  unfold parse_scalar. rewrite E. rewrite !(proj2 (Z.eqb_neq c 34)), (proj2 (Z.eqb_neq c 116)),
    (proj2 (Z.eqb_neq c 102)), (proj2 (Z.eqb_neq c 110)) by lia. cbn [orb].
  assert (((c =? 45) || is_digit c) = true) as ->.
  { apply orb_true_iff. unfold is_digit, in_range. rewrite andb_true_iff, Z.eqb_eq. lia. }
  rewrite <-E. by apply parse_int_text.
Qed.
Lemma parse_scalar_dec i R :
  i64_MIN ≤ i ≤ i64_MAX → after_value R → parse_scalar (dec_i i ++ R) = Ok (Int i, R).
Proof. intros Hi HR. by rewrite parse_scalar_text, (parse_i64_dec_i i Hi). Qed.
Lemma parse_scalar_large u R :
  i64_MAX < u → after_value R → parse_scalar (dec_u u ++ R) = Err (OutOfRange (dec_u u)).
Proof.
  intros Hu HR. pose proof (parse_scalar_text u R HR) as H. unfold dec_i, i64_MAX in *.
  rewrite (proj2 (Z.ltb_ge u 0)) in H by lia. rewrite H, parse_i64_dec_u by lia. unfold i64_MAX.
  by rewrite bool_decide_false by lia.
Qed.

Lemma parse_scalar_value v R :
  value_ok v → after_value R → parse_scalar (value_text v ++ R) = Ok (scalar_of v, R).
Proof.
  intros Hv HR. destruct v as [s|i|u|b]; cbn [value_text scalar_of].
  - unfold parse_scalar. destruct (encode_str s ++ R) as [|c cs] eqn:E; [done|].
    assert (c = 34) as -> by (by injection E). rewrite <-E. cbn match.
    by rewrite parse_encode_str.
  - by apply parse_scalar_dec.
  - simpl in Hv.
    assert (dec_u u = dec_i u) as -> by (unfold dec_i; by rewrite (proj2 (Z.ltb_ge u 0)) by lia).
    apply parse_scalar_dec; [|done]. unfold i64_MIN. lia.
  - by destruct b.
Qed.

Definition member (kv : string * Value) : chars := encode_str (lit kv.1) ++ 58 :: value_text kv.2.

(** What the builder writes: the members, separated by commas, in braces. *)
Lemma put_buf o kv :
  put o kv = mkObj (o_buf o ++ (if o_first o then [] else [44]) ++ member kv) false.
Proof.
  assert (put o kv = obj_push (obj_key o kv.1) (value_text kv.2)) as -> by (by destruct kv as [k []]).
  unfold obj_key, obj_push, obj_sep, member. destruct (o_first o);
    cbn [o_buf o_first app]; f_equal; by rewrite <-!app_assoc.
Qed.

Lemma fold_put_buf l o :
  o_first o = false → o_buf (fold_left put l o) = o_buf o ++ (l ≫= λ kv, 44 :: member kv).
Proof.
  revert o. induction l as [|kv l IH]; intros o Ho; cbn [fold_left]; [by rewrite app_nil_r|].
  rewrite IH by (by rewrite put_buf). rewrite put_buf, Ho. cbn [o_buf].
  by rewrite <-!app_assoc.
Qed.

Lemma encode_fields_cons kv l :
  encode_fields (kv :: l) = 123 :: member kv ++ (l ≫= λ kv, 44 :: member kv) ++ [125].
Proof.
  unfold encode_fields, obj_finish. cbn [fold_left]. rewrite fold_put_buf by (by rewrite put_buf).
  rewrite put_buf. cbn [o_buf o_first Obj_new]. rewrite <-!app_assoc. done.
Qed.

Lemma skip_ws_quote s R : skip_ws (encode_str s ++ R) = encode_str s ++ R.
Proof. done. Qed.

(** A value starts with no white space. *)
Lemma skip_ws_value v R : value_typed v → skip_ws (value_text v ++ R) = value_text v ++ R.
Proof.
  assert (∀ n, 0 ≤ n → skip_ws (dec_u n ++ R) = dec_u n ++ R) as Hdec.
  { intros n Hn. destruct (dec_u_head n Hn) as (d & ds & -> & Hd). cbn [app skip_ws].
    unfold is_json_ws. by rewrite !(proj2 (Z.eqb_neq _ _)) by lia. }
  intros Hv. destruct v as [s|i|u|b]; cbn [value_text].
  - done.
  - unfold dec_i. destruct (Z.ltb_spec i 0); [done|by apply Hdec].
  - apply Hdec. simpl in Hv. lia.
  - by destruct b.
Qed.

Lemma skip_ws_after R : after_value R → skip_ws R = R.
Proof. by intros (c & R' & -> & [->| ->]). Qed.

Lemma bind_Ok {E A B} (f : A → result E B) a : (Ok a ≫= f) = f a.
Proof. done. Qed.

Lemma members_loop_fields l : ∀ fuel m kv R,
  (length l < fuel)%nat → Forall (λ kv, value_ok kv.2) (kv :: l) →
  members_loop fuel m (member kv ++ (l ≫= λ kv, 44 :: member kv) ++ 125 :: R) =
  Ok (fold_left (λ m kv, <[lit kv.1 := scalar_of kv.2]> m) (kv :: l) m, R).
Proof.
  induction l as [|kv' l IH]; intros fuel m kv R Hf Hok;
    apply Forall_cons in Hok as [Hv Hok]; (destruct fuel as [|fuel]; [lia|]);
    cbn [members_loop]; unfold member at 1; rewrite <-app_assoc;
    rewrite skip_ws_quote, parse_encode_str by apply lit_nonneg;
    rewrite bind_Ok; cbn [app skip_ws]; change (is_json_ws 58) with false; cbv iota beta;
    cbn [expect]; rewrite Z.eqb_refl, bind_Ok, skip_ws_value by (by apply fits_typed).
  - rewrite parse_scalar_value; [done|done|]. eexists _, _. split; [reflexivity|auto].
  - change ((kv' :: l) ≫= λ kv, 44 :: member kv) with ((44 :: member kv') ++ (l ≫= λ kv, 44 :: member kv)).
    assert (after_value (((44 :: member kv') ++ (l ≫= λ kv, 44 :: member kv)) ++ 125 :: R)) as Haft
      by (eexists _, _; split; [reflexivity|auto]).
    rewrite parse_scalar_value, bind_Ok, (skip_ws_after _ Haft) by done. cbn [app].
    rewrite Z.eqb_refl, <-app_assoc. rewrite (IH fuel _ kv' R); [done|simpl in Hf; lia|done].
Qed.

(** The parser stops at the first member that is too large. *)
Lemma members_loop_refused l : ∀ fuel m kv R k u,
  (length l < fuel)%nat → Forall (λ kv, value_typed kv.2) (kv :: l) →
  find (λ kv, bool_decide (is_Some (too_large kv.2))) (kv :: l) = Some (k, VUint u) →
  members_loop fuel m (member kv ++ (l ≫= λ kv, 44 :: member kv) ++ 125 :: R) = Err (OutOfRange (dec_u u)).
Proof.
  induction l as [|kv' l IH]; intros fuel m kv R k u Hf Hok Hfind;
    apply Forall_cons in Hok as [Hv Hok]; (destruct fuel as [|fuel]; [lia|]);
    cbn [members_loop]; unfold member at 1; rewrite <-app_assoc;
    rewrite skip_ws_quote, parse_encode_str by apply lit_nonneg;
    rewrite bind_Ok; cbn [app skip_ws]; change (is_json_ws 58) with false; cbv iota beta;
    cbn [expect]; rewrite Z.eqb_refl, bind_Ok, skip_ws_value by done;
    cbn [find] in Hfind.
  all: match goal with |- context [parse_scalar (_ ++ ?rest)] =>
         assert (after_value rest) as Haft by (eexists _, _; split; [reflexivity|auto]) end.
  all: case_bool_decide as Hlarge;
    [injection Hfind as ->; simpl in Hlarge; destruct (Z.ltb_spec i64_MAX u); [|by destruct Hlarge];
     cbn [snd value_text]; by rewrite parse_scalar_large|].
  - done.
  - assert (value_ok kv.2) as Hfit by (apply typed_fits; [done|]; by apply eq_None_not_Some).
    rewrite parse_scalar_value, bind_Ok, (skip_ws_after _ Haft) by done.
    change ((kv' :: l) ≫= λ kv, 44 :: member kv) with ((44 :: member kv') ++ (l ≫= λ kv, 44 :: member kv)).
    cbn [app]. rewrite Z.eqb_refl, <-app_assoc. eapply IH; [simpl in Hf; lia|done|exact Hfind].
Qed.

(** No character of an encoded member is below a space. *)
Lemma encode_str_printable s : Forall (λ c, 0 ≤ c) s → Forall (λ c, 32 ≤ c) (encode_str s).
Proof.
  intros Hs. unfold encode_str. apply Forall_app. split; [by repeat constructor|].
  apply Forall_app. split; [|by repeat constructor].
  apply Forall_forall. intros c (d & Hc & Hd)%list_elem_of_bind.
  rewrite Forall_forall in Hs. specialize (Hs d Hd). unfold escape_char in Hc.
  assert (∀ h, 0 ≤ h → 32 ≤ hex_char h) as Hhex
    by (intros h ?; unfold hex_char; destruct (h <? 10); lia).
  repeat case_match; apply list_elem_of_In in Hc; simpl in Hc;
    try (destruct Hc as [<-|[<-|[]]]; lia); [|destruct Hc as [<-|[]]; lia].
  pose proof (Z.mod_pos_bound (d / 4096) 16). pose proof (Z.mod_pos_bound (d / 256) 16).
  pose proof (Z.mod_pos_bound (d / 16) 16). pose proof (Z.mod_pos_bound d 16).
  repeat destruct Hc as [<-|Hc]; try lia; try done; apply Hhex; lia.
Qed.

Lemma member_printable kv : value_typed kv.2 → Forall (λ c, 32 ≤ c) (member kv).
Proof.
  assert (∀ n, 0 ≤ n → Forall (λ c, 32 ≤ c) (dec_u n)) as Hdec.
  { intros n Hn. apply Forall_forall. intros c Hc%dec_u_digits; [|done]. lia. }
  destruct kv as [k v]. intros Hv. unfold member.
  apply Forall_app. split; [apply encode_str_printable, lit_nonneg|].
  constructor; [lia|]. destruct v as [s|i|u|b]; cbn [value_text snd]; simpl in Hv.
  - by apply encode_str_printable.
  - unfold dec_i. destruct (Z.ltb_spec i 0); [constructor; [lia|]|]; apply Hdec; lia.
  - apply Hdec. lia.
  - destruct b; repeat constructor; vm_compute; congruence.
Qed.

(** What the parser makes of an object is what the loop makes of its members. *)
Lemma parse_members kv l :
  parse_flat_object (encode_fields (kv :: l)) =
    '(map, cs) ← members_loop (S (length (member kv ++ (l ≫= λ kv, 44 :: member kv) ++ [125]))) ∅
                   (member kv ++ (l ≫= λ kv, 44 :: member kv) ++ [125]);
    _ ← eof (skip_ws cs); Ok (mkFields map).
Proof.
  rewrite encode_fields_cons. unfold parse_flat_object.
  cbn [skip_ws]. change (is_json_ws 123) with false. cbv iota. cbn [expect]. rewrite Z.eqb_refl.
  rewrite bind_Ok. set (X := (l ≫= _) ++ [125]).
  assert (skip_ws (member kv ++ X) = member kv ++ X) as -> by done.
  assert (∃ cs, member kv ++ X = 34 :: cs) as [cs Hcs] by (by eexists). by rewrite Hcs at 1.
Qed.
Lemma members_fuel kv l :
  (length l < S (length (member kv ++ (l ≫= λ kv, 44%Z :: member kv) ++ [125%Z])))%nat.
Proof.
  rewrite !length_app. simpl.
  assert (length l ≤ length (l ≫= λ kv, 44%Z :: member kv))%nat; [|lia].
  clear. induction l as [|kv l IH]; [done|].
  change ((kv :: l) ≫= λ kv, 44 :: member kv) with ((44 :: member kv) ++ (l ≫= λ kv, 44 :: member kv)).
  rewrite length_app. simpl. lia.
Qed.
Lemma parse_encode_fields l :
  Forall (λ kv, value_ok kv.2) l → parse_flat_object (encode_fields l) = Ok (fields_of l).
Proof.
  intros Hok. destruct l as [|kv l]; [done|].
  rewrite parse_members, members_loop_fields; [done|apply members_fuel|done].
Qed.
Lemma parse_encode_refused l k u :
  Forall (λ kv, value_typed kv.2) l → find (λ kv, bool_decide (is_Some (too_large kv.2))) l = Some (k, VUint u) →
  parse_flat_object (encode_fields l) = Err (OutOfRange (dec_u u)).
Proof.
  intros Hok Hfind. destruct l as [|kv l]; [done|].
  by rewrite parse_members, (members_loop_refused l _ _ _ _ k u (members_fuel kv l) Hok Hfind).
Qed.

Lemma encode_fields_printable l :
  Forall (λ kv, value_typed kv.2) l → Forall (λ c, 32 ≤ c) (encode_fields l).
Proof.
  intros Hok.
  destruct l as [|kv l]; [by repeat constructor|]. rewrite encode_fields_cons.
  apply Forall_cons in Hok as [Hkv Hl]. constructor; [lia|]. apply Forall_app.
  split; [by apply member_printable|]. apply Forall_app. split; [|by repeat constructor].
  apply Forall_forall. intros c (kv' & Hc & Hin)%list_elem_of_bind.
  apply elem_of_cons in Hc as [->|Hc]; [lia|]. rewrite Forall_forall in Hl.
  pose proof (member_printable kv' (Hl kv' Hin)) as Hm. by eapply Forall_forall in Hm.
Qed.

(** C39: The flat JSON codec round-trips: parsing the line the builder writes for any list of
    string, boolean, [i64] and [u64] members gives exactly those members (the last one of a
    repeated key), for every text, control characters, quotes and escapes included, provided that
    no [u64] member is above [i64::MAX]; otherwise the line is refused as out of range, for the first
    member that is. In both cases the line itself contains no character below a space, so no value
    can end it. *)
Theorem json_roundtrip l :
  Forall (λ kv, value_typed kv.2) l →
  parse_flat_object (encode_fields l) =
    match omap (λ kv, too_large kv.2) l with
    | [] => Ok (fields_of l)
    | u :: _ => Err (OutOfRange (dec_u u))
    end ∧
  Forall (λ c, 32 ≤ c) (encode_fields l).
Proof.
  intros Hok. split; [|by apply encode_fields_printable].
  destruct (omap _ l) as [|u us] eqn:E.
  - apply parse_encode_fields. rewrite Forall_forall in *. intros kv Hin. apply typed_fits; [by apply Hok|].
    apply eq_None_not_Some. intros [u Hu]. assert (u ∈ ([] : list Z)) as []%elem_of_nil.
    rewrite <-E. apply list_elem_of_omap. by exists kv.
  - assert (∃ k, find (λ kv, bool_decide (is_Some (too_large kv.2))) l = Some (k, VUint u)) as [k Hk];
      [|by eapply parse_encode_refused].
    clear Hok. induction l as [|[k v] l IH]; [done|]. cbn in E |- *. destruct (too_large v) as [u'|] eqn:Ev.
    + injection E as -> _. exists k. rewrite bool_decide_true by done.
      destruct v as [| |u0|]; try done. cbn in Ev. destruct (i64_MAX <? u0); [|done]. by injection Ev as ->.
    + rewrite bool_decide_false by (by intros []). by apply IH.
Qed.

Lemma json_roundtrip_witness :
  parse_flat_object (encode_fields [("kind", VStr [97; 34; 10; 92; 1; 9731]); ("n", VInt (-7)); ("b", VBool true)])
  = Ok (fields_of [("kind", VStr [97; 34; 10; 92; 1; 9731]); ("n", VInt (-7)); ("b", VBool true)]) ∧
  parse_flat_object (encode_fields [("n", VInt 3); ("u", VUint u64_MAX)]) = Err (OutOfRange (dec_u u64_MAX)).
Proof.
  split.
  - refine (proj1 (json_roundtrip [("kind", VStr [97; 34; 10; 92; 1; 9731]); ("n", VInt (-7)); ("b", VBool true)] _)).
    repeat constructor; vm_compute; congruence.
  - refine (proj1 (json_roundtrip [("n", VInt 3); ("u", VUint u64_MAX)] _)).
    repeat constructor; vm_compute; congruence.
Defined.

(** *** The fuel is enough *)

Lemma read_hex_length n v cs d cs' : read_hex n v cs = Ok (d, cs') → (length cs' ≤ length cs)%nat.
Proof.
  revert v cs. induction n as [|n IH]; intros v cs; cbn [read_hex]; [by intros [= <- <-]|].
  destruct cs as [|c cs]; [done|]. destruct (hex_digit c); [|done]. simpl. intros H%IH. lia.
Qed.

Lemma unicode_escape_length cs c cs' :
  parse_unicode_escape cs = Ok (c, cs') → (length cs' ≤ length cs)%nat.
Proof.
  unfold parse_unicode_escape, read_hex4.
  destruct (read_hex 4 0 cs) as [[hi cs1]|] eqn:E1; [|done]. cbn [mbind result_bind].
  apply read_hex_length in E1. destruct (in_range 55296 56319 hi); [|intros [= _ <-]; done].
  destruct cs1 as [|c1 [|c2 cs2]]; [intros [= _ <-]; done..|]. simpl in E1.
  destruct ((c1 =? 92) && (c2 =? 117)); [|intros [= _ <-]; simpl; lia].
  destruct (read_hex 4 0 cs2) as [[lo cs3]|] eqn:E2; [|done]. cbn [mbind result_bind].
  apply read_hex_length in E2. destruct (in_range _ _ lo); intros [= _ <-]; lia.
Qed.

(** The string loop never stops for want of fuel. *)
Lemma string_loop_fuel : ∀ f1 f2 out cs,
  (length cs < f1)%nat → (length cs < f2)%nat → string_loop f1 out cs = string_loop f2 out cs.
Proof.
  induction f1 as [|f1 IH]; intros [|f2] out cs H1 H2; try lia. cbn [string_loop].
  destruct cs as [|ch cs]; [done|]. simpl in H1, H2. destruct (ch =? 34); [done|].
  destruct (ch =? 92); [|apply IH; lia]. destruct cs as [|esc cs]; [done|]. simpl in H1, H2.
  repeat (match goal with |- (if ?b then _ else _) = _ => destruct b; [first [apply IH; lia|idtac]|] end);
    [|done].
  destruct (parse_unicode_escape cs) as [[c cs']|] eqn:E; [|done].
  apply unicode_escape_length in E. cbn [mbind result_bind]. apply IH; lia.
Qed.
