(* ===== verification/NetProto.v ===== *)
(** * The helper protocol (crate [crustcore-netproto], [lib.rs])

    Requests to and responses from the network helper, one flat JSON object per line; the
    bounded reading of lines, and the caller's client with its caps. Text is a list of
    characters; the wire is bytes. The textual form of an [f32] is Rust's formatting and
    parsing of floats, which the class [F32] stands for. *)

From S2P Require Import Prelude Text Std Chars Json.

Definition PROTOCOL_VERSION : Z := 1.
Definition MAX_LINE_BYTES : nat := N.to_nat (1024 * 1024).
Definition MAX_TEXT_BYTES : nat := N.to_nat (256 * 1024).
Definition MAX_REGISTRY_MODELS : nat := N.to_nat 4096.
Definition MAX_STREAM_BYTES : Z := 8 * 1024 * 1024.
Definition MAX_BATCH : nat := N.to_nat 256.
Definition MAX_DOCS : nat := N.to_nat 1024.
Definition MAX_EMBEDDING_DIMS : nat := N.to_nat 16384.

(** ** Roles and requests *)

Inductive Role := Advisor | Implementation | Review | Research | LocalFallback.
Definition role_str (r : Role) : chars :=
  lit match r with
      | Advisor => "advisor" | Implementation => "implementation" | Review => "review"
      | Research => "research" | LocalFallback => "local_fallback"
      end.
Definition role_from_token (s : chars) : Role :=
  if bool_decide (s = lit "advisor") then Advisor
  else if bool_decide (s = lit "review") then Review
  else if bool_decide (s = lit "research") then Research
  else if bool_decide (s = lit "local_fallback") then LocalFallback
  else Implementation.

Record Require_ := mkRequire { rq_tools : bool; rq_min_context : Z; rq_local_only : bool }.
Record CompleteRequest := mkComplete {
  cr_role : Role; cr_system : chars; cr_prompt : chars; cr_max_tokens : Z; cr_stream : bool;
  cr_max_cost_micros : Z; cr_require : Require_ }.
Record EmbedRequest := mkEmbed { er_role : Role; er_inputs : list chars; er_max_cost_micros : Z }.
Record RerankRequest := mkRerank {
  kr_role : Role; kr_query : chars; kr_documents : list chars; kr_max_cost_micros : Z }.
Inductive Request :=
| Probe
| Complete (c : CompleteRequest)
| Embed (e : EmbedRequest)
| Rerank (r : RerankRequest).

(** ** Responses *)

Record ModelInfo := mkModelInfo {
  mi_provider : chars; mi_model : chars; mi_healthy : bool; mi_context : Z; mi_tools : bool;
  mi_structured : bool; mi_streaming : bool; mi_cost_per_1k_micros : Z; mi_embeddings : bool;
  mi_rerank : bool; mi_embedding_dims : Z }.
Record Usage := mkUsage { us_input_tokens : Z; us_output_tokens : Z; us_cost_micros : Z }.
Record Final := mkFinal {
  fi_text : chars; fi_provider : chars; fi_model : chars; fi_usage : Usage;
  fi_fallbacks : list chars }.

(** [f32]: [is_finite], [to_string], [str::parse::<f32>()] and [0.0]. *)
Class F32 := {
  f32 : Type;
  f32_zero : f32;
  f32_is_finite : f32 → bool;
  f32_to_string : f32 → chars;
  f32_parse : chars → option f32 }.

Section Proto.
Context `{FL : F32}.

Record EmbeddingResult := mkEmbedding {
  em_vectors : list (list f32); em_usage : Usage; em_provider : chars; em_model : chars;
  em_fallbacks : list chars }.
Record RankingResult := mkRanking {
  ra_ranking : list (Z * f32); ra_usage : Usage; ra_provider : chars; ra_model : chars;
  ra_fallbacks : list chars }.
Inductive Response :=
| RModel (m : ModelInfo)
| RRegistryEnd
| RChunk (t : chars)
| RFinal (f : Final)
| REmbedding (e : EmbeddingResult)
| RRanking (r : RankingResult)
| RError (reason : chars).

Inductive ProtoError :=
| PIo (e : chars)
| PJson (e : JsonError)
| PUnknownKind (kind : option chars)
| PLineTooLong
| PRegistryOverflow
| PStreamOverflow
| PReported (reason : chars)
| PUnexpected (r : Response)
| PUnexpectedEof.

(** ** Lists in delimited strings *)

Definition clamp_count (len max : nat) : Z := Z.of_nat (Nat.min len max).
Definition fmt_f32 (x : f32) : chars := if f32_is_finite x then f32_to_string x else lit "0".
Definition parse_f32 (s : chars) : f32 :=
  match f32_parse s with Some x => if f32_is_finite x then x else f32_zero | None => f32_zero end.

Definition escape_delim (s : chars) : chars :=
  s ≫= λ c, if c =? 92 then [92; 92] else if c =? 10 then [92; 110] else [c].
Fixpoint unescape_delim (s : chars) : chars :=
  match s with
  | [] => []
  | c :: s' =>
      if c =? 92 then
        match s' with
        | [] => [92]
        | d :: s'' =>
            if d =? 110 then 10 :: unescape_delim s''
            else if d =? 92 then 92 :: unescape_delim s''
            else 92 :: d :: unescape_delim s''
        end
      else c :: unescape_delim s'
  end.
Definition bound_text (s : chars) : chars := truncated_chars s MAX_TEXT_BYTES.
Definition encode_texts (texts : list chars) (max : nat) : chars :=
  join_with 10 (escape_delim <$> take max texts).
Definition decode_texts (s : chars) (max : nat) : list chars :=
  if bool_decide (s = []) then []
  else (λ t, bound_text (unescape_delim t)) <$> take max (split_on 10 s).

Definition encode_vectors (vectors : list (list f32)) : chars :=
  join_with 59 ((λ v, join_with 44 (fmt_f32 <$> take MAX_EMBEDDING_DIMS v)) <$> take MAX_BATCH vectors).
Definition decode_vectors (s : chars) : list (list f32) :=
  if bool_decide (s = []) then []
  else (λ v, if bool_decide (v = []) then []
             else parse_f32 <$> take MAX_EMBEDDING_DIMS (split_on 44 v))
         <$> take MAX_BATCH (split_on 59 s).

Definition encode_ranking (ranking : list (Z * f32)) : chars :=
  join_with 59 ((λ p, dec_u p.1 ++ 44 :: fmt_f32 p.2) <$> take MAX_DOCS ranking).
Definition decode_ranking (s : chars) : list (Z * f32) :=
  if bool_decide (s = []) then []
  else omap (λ pair,
         '(idx_s, score_s) ← split_once 44 pair;
         idx ← parse_uint u32_MAX (trim idx_s);
         Some (idx, parse_f32 (trim score_s))) (take MAX_DOCS (split_on 59 s)).

Definition split_csv (s : chars) : list chars := if bool_decide (s = []) then [] else split_on 44 s.

(** ** Encoding *)

Definition encode_request (req : Request) : chars :=
  let o := obj_int "v" PROTOCOL_VERSION Obj_new in
  obj_finish
    match req with
    | Probe => obj_str "kind" (lit "probe") o
    | Complete c =>
        let o := obj_str "kind" (lit "complete") o in
        let o := obj_str "role" (role_str (cr_role c)) o in
        let o := obj_str "system" (cr_system c) o in
        let o := obj_str "prompt" (cr_prompt c) o in
        let o := obj_int "max_tokens" (cr_max_tokens c) o in
        let o := obj_bool "stream" (cr_stream c) o in
        let o := obj_uint "max_cost_micros" (cr_max_cost_micros c) o in
        let o := obj_bool "req_tools" (rq_tools (cr_require c)) o in
        let o := obj_int "req_min_context" (rq_min_context (cr_require c)) o in
        obj_bool "req_local_only" (rq_local_only (cr_require c)) o
    | Embed e =>
        let o := obj_str "kind" (lit "embed") o in
        let o := obj_str "role" (role_str (er_role e)) o in
        let o := obj_int "count" (clamp_count (length (er_inputs e)) MAX_BATCH) o in
        let o := obj_str "inputs" (encode_texts (er_inputs e) MAX_BATCH) o in
        obj_uint "max_cost_micros" (er_max_cost_micros e) o
    | Rerank r =>
        let o := obj_str "kind" (lit "rerank") o in
        let o := obj_str "role" (role_str (kr_role r)) o in
        let o := obj_str "query" (kr_query r) o in
        let o := obj_int "count" (clamp_count (length (kr_documents r)) MAX_DOCS) o in
        let o := obj_str "documents" (encode_texts (kr_documents r) MAX_DOCS) o in
        obj_uint "max_cost_micros" (kr_max_cost_micros r) o
    end.

(** The provider, model, usage and fallbacks that end three of the responses. *)
Definition obj_served (provider model : chars) (u : Usage) (fallbacks : list chars) (o : Obj) : Obj :=
  let o := obj_str "provider" provider o in
  let o := obj_str "model" model o in
  let o := obj_int "input_tokens" (us_input_tokens u) o in
  let o := obj_int "output_tokens" (us_output_tokens u) o in
  let o := obj_uint "cost_micros" (us_cost_micros u) o in
  obj_str "fallbacks" (join_with 44 fallbacks) o.

Definition encode_response (resp : Response) : chars :=
  let o := Obj_new in
  obj_finish
    match resp with
    | RModel m =>
        let o := obj_str "kind" (lit "model") o in
        let o := obj_str "provider" (mi_provider m) o in
        let o := obj_str "model" (mi_model m) o in
        let o := obj_bool "healthy" (mi_healthy m) o in
        let o := obj_int "context" (mi_context m) o in
        let o := obj_bool "tools" (mi_tools m) o in
        let o := obj_bool "structured" (mi_structured m) o in
        let o := obj_bool "streaming" (mi_streaming m) o in
        let o := obj_uint "cost_per_1k_micros" (mi_cost_per_1k_micros m) o in
        let o := obj_bool "embeddings" (mi_embeddings m) o in
        let o := obj_bool "rerank" (mi_rerank m) o in
        obj_int "embedding_dims" (mi_embedding_dims m) o
    | RRegistryEnd => obj_str "kind" (lit "registry_end") o
    | RChunk t => obj_str "text" t (obj_str "kind" (lit "chunk") o)
    | RFinal f =>
        let o := obj_str "kind" (lit "final") o in
        let o := obj_str "text" (fi_text f) o in
        obj_served (fi_provider f) (fi_model f) (fi_usage f) (fi_fallbacks f) o
    | REmbedding e =>
        let o := obj_str "kind" (lit "embedding") o in
        let o := obj_int "count" (clamp_count (length (em_vectors e)) MAX_BATCH) o in
        let o := obj_str "vectors" (encode_vectors (em_vectors e)) o in
        obj_served (em_provider e) (em_model e) (em_usage e) (em_fallbacks e) o
    | RRanking r =>
        let o := obj_str "kind" (lit "ranking") o in
        let o := obj_int "count" (clamp_count (length (ra_ranking r)) MAX_DOCS) o in
        let o := obj_str "ranking" (encode_ranking (ra_ranking r)) o in
        obj_served (ra_provider r) (ra_model r) (ra_usage r) (ra_fallbacks r) o
    | RError reason => obj_str "reason" reason (obj_str "kind" (lit "error") o)
    end.

(** ** Decoding *)

(** [f.str(k).unwrap_or("")], [f.uint(k).unwrap_or(0)], its [as u32], [f.bool(k).unwrap_or(false)]. *)
Definition str_or (f : Fields) (k : string) : chars := default [] (f_str f k).
Definition uint_or (f : Fields) (k : string) : Z := default 0 (f_uint f k).
Definition u32_or (f : Fields) (k : string) : Z := uint_or f k mod 2 ^ 32.
Definition bool_or (f : Fields) (k : string) : bool := default false (f_bool f k).
Definition role_or (f : Fields) : Role :=
  role_from_token (default (lit "implementation") (f_str f "role")).

Definition request_from_fields (f : Fields) : result ProtoError Request :=
  match f_str f "kind" with
  | Some k =>
      if bool_decide (k = lit "probe") then Ok Probe
      else if bool_decide (k = lit "complete") then
        Ok (Complete (mkComplete (role_or f)
              (truncated_chars (str_or f "system") MAX_TEXT_BYTES)
              (truncated_chars (str_or f "prompt") MAX_TEXT_BYTES)
              (u32_or f "max_tokens") (bool_or f "stream") (uint_or f "max_cost_micros")
              (mkRequire (bool_or f "req_tools") (u32_or f "req_min_context")
                 (bool_or f "req_local_only"))))
      else if bool_decide (k = lit "embed") then
        Ok (Embed (mkEmbed (role_or f) (decode_texts (str_or f "inputs") MAX_BATCH)
              (uint_or f "max_cost_micros")))
      else if bool_decide (k = lit "rerank") then
        Ok (Rerank (mkRerank (role_or f) (bound_text (str_or f "query"))
              (decode_texts (str_or f "documents") MAX_DOCS) (uint_or f "max_cost_micros")))
      else Err (PUnknownKind (Some k))
  | None => Err (PUnknownKind None)
  end.

Definition usage_from_fields (f : Fields) : Usage :=
  mkUsage (u32_or f "input_tokens") (u32_or f "output_tokens") (uint_or f "cost_micros").
Definition response_from_fields (f : Fields) : result ProtoError Response :=
  match f_str f "kind" with
  | Some k =>
      if bool_decide (k = lit "model") then
        Ok (RModel (mkModelInfo (str_or f "provider") (str_or f "model") (bool_or f "healthy")
              (u32_or f "context") (bool_or f "tools") (bool_or f "structured") (bool_or f "streaming")
              (uint_or f "cost_per_1k_micros") (bool_or f "embeddings") (bool_or f "rerank")
              (u32_or f "embedding_dims")))
      else if bool_decide (k = lit "registry_end") then Ok RRegistryEnd
      else if bool_decide (k = lit "chunk") then
        Ok (RChunk (truncated_chars (str_or f "text") MAX_TEXT_BYTES))
      else if bool_decide (k = lit "final") then
        Ok (RFinal (mkFinal (truncated_chars (str_or f "text") MAX_TEXT_BYTES) (str_or f "provider")
              (str_or f "model") (usage_from_fields f) (split_csv (str_or f "fallbacks"))))
      else if bool_decide (k = lit "embedding") then
        Ok (REmbedding (mkEmbedding (decode_vectors (str_or f "vectors")) (usage_from_fields f)
              (str_or f "provider") (str_or f "model") (split_csv (str_or f "fallbacks"))))
      else if bool_decide (k = lit "ranking") then
        Ok (RRanking (mkRanking (decode_ranking (str_or f "ranking")) (usage_from_fields f)
              (str_or f "provider") (str_or f "model") (split_csv (str_or f "fallbacks"))))
      else if bool_decide (k = lit "error") then Ok (RError (str_or f "reason"))
      else Err (PUnknownKind (Some k))
  | None => Err (PUnknownKind None)
  end.

(** ** Reading lines

    A [BufRead] is the chunks its [fill_buf] will return, none of them empty, until the end
    of the stream; [consume] leaves the rest of a chunk in front. *)
Abbreviation Reader := (list bytes) (only parsing).

Fixpoint read_line_bounded (r : Reader) (buf : bytes) (total max : nat)
  : result ProtoError (bytes * nat) * Reader :=
  match r with
  | [] => (Ok (buf, total), [])
  | available :: r' =>
      match position (λ b, b =? 10) available with
      | Some pos =>
          if decide (max < total + pos)%nat then (Err PLineTooLong, r)
          else let rest := drop (S pos) available in
               (Ok (buf ++ take pos available, (total + pos)%nat),
                if bool_decide (rest = []) then r' else rest :: r')
      | None =>
          if decide (max < total + length available)%nat then (Err PLineTooLong, r)
          else read_line_bounded r' (buf ++ available) (total + length available) max
      end
  end.

Definition read_fields (r : Reader) : result ProtoError (option Fields) * Reader :=
  let '(res, r) := read_line_bounded r [] 0 MAX_LINE_BYTES in
  (match res with
   | Err e => Err e
   | Ok (line, n) =>
       if decide (n = 0%nat) then Ok None
       else let trimmed := trim (chars_of (from_utf8_lossy line)) in
            if bool_decide (trimmed = []) then Ok None
            else Some <$> map_err PJson (parse_flat_object trimmed)
   end, r).
Definition read_request (r : Reader) : result ProtoError (option Request) * Reader :=
  let '(res, r) := read_fields r in
  (o ← res; match o with Some f => Some <$> request_from_fields f | None => Ok None end, r).
Definition read_response (r : Reader) : result ProtoError (option Response) * Reader :=
  let '(res, r) := read_fields r in
  (o ← res; match o with Some f => Some <$> response_from_fields f | None => Ok None end, r).

(** What [write_request] and [write_response] write. *)
Definition request_line (req : Request) : bytes := to_utf8 (encode_request req) ++ [10].
Definition response_line (resp : Response) : bytes := to_utf8 (encode_response resp) ++ [10].

(** ** The client

    The writer is what has been written so far (a pipe that accepts every write); a reader
    with [n] bytes ahead holds at most [n] lines, so that many turns are enough. *)
Definition bytes_ahead (r : Reader) : nat := sum_list_with length r.

Fixpoint probe_loop (fuel : nat) (models : list ModelInfo) (r : Reader)
  : result ProtoError (list ModelInfo) * Reader :=
  match fuel with
  | O => (Err PUnexpectedEof, r)
  | S fuel' =>
      let '(res, r) := read_response r in
      match res with
      | Err e => (Err e, r)
      | Ok (Some (RModel m)) =>
          if decide (MAX_REGISTRY_MODELS ≤ length models)%nat then (Err PRegistryOverflow, r)
          else probe_loop fuel' (models ++ [m]) r
      | Ok (Some RRegistryEnd) => (Ok models, r)
      | Ok (Some (RError e)) => (Err (PReported e), r)
      | Ok (Some other) => (Err (PUnexpected other), r)
      | Ok None => (Err PUnexpectedEof, r)
      end
  end.
Definition probe (w : bytes) (r : Reader) : result ProtoError (list ModelInfo) * bytes * Reader :=
  let '(res, r) := probe_loop (S (bytes_ahead r)) [] r in (res, w ++ request_line Probe, r).

(** [complete]: the chunks handed to [on_chunk], in order, come with the result. *)
Fixpoint complete_loop (fuel : nat) (streamed : Z) (shown : list chars) (r : Reader)
  : result ProtoError Final * list chars * Reader :=
  match fuel with
  | O => (Err PUnexpectedEof, shown, r)
  | S fuel' =>
      let '(res, r) := read_response r in
      match res with
      | Err e => (Err e, shown, r)
      | Ok (Some (RChunk t)) =>
          let streamed := saturating_add u64_MAX streamed (Z.of_nat (byte_length t)) in
          if MAX_STREAM_BYTES <? streamed then (Err PStreamOverflow, shown, r)
          else complete_loop fuel' streamed (shown ++ [t]) r
      | Ok (Some (RFinal f)) => (Ok f, shown, r)
      | Ok (Some (RError e)) => (Err (PReported e), shown, r)
      | Ok (Some other) => (Err (PUnexpected other), shown, r)
      | Ok None => (Err PUnexpectedEof, shown, r)
      end
  end.
Definition complete (req : CompleteRequest) (w : bytes) (r : Reader)
  : result ProtoError Final * list chars * bytes * Reader :=
  let '(res, shown, r) := complete_loop (S (bytes_ahead r)) 0 [] r in
  (res, shown, w ++ request_line (Complete req), r).

Definition embed (req : EmbedRequest) (w : bytes) (r : Reader)
  : result ProtoError EmbeddingResult * bytes * Reader :=
  let '(res, r) := read_response r in
  (match res with
   | Err e => Err e
   | Ok (Some (REmbedding e)) => Ok e
   | Ok (Some (RError e)) => Err (PReported e)
   | Ok (Some other) => Err (PUnexpected other)
   | Ok None => Err PUnexpectedEof
   end, w ++ request_line (Embed req), r).
Definition rerank (req : RerankRequest) (w : bytes) (r : Reader)
  : result ProtoError RankingResult * bytes * Reader :=
  let '(res, r) := read_response r in
  (match res with
   | Err e => Err e
   | Ok (Some (RRanking k)) => Ok k
   | Ok (Some (RError e)) => Err (PReported e)
   | Ok (Some other) => Err (PUnexpected other)
   | Ok None => Err PUnexpectedEof
   end, w ++ request_line (Rerank req), r).

End Proto.
