(* ===== verification/NetProtoTheorems.v ===== *)
(** * Theorems about the helper protocol

    Requests and responses survive the wire however the pipe cuts it, batches of texts
    round-trip, and the client's loops are bounded and end. *)

From S2P Require Import Prelude Text Std Chars Json NetProto.

(** ** Batches of texts *)

Lemma unescape_escape s : unescape_delim (escape_delim s) = s.
Proof.
  unfold escape_delim. induction s as [|c s IH]; [done|].
  change ((c :: s) ≫= _) with ((if c =? 92 then [92; 92] else if c =? 10 then [92; 110] else [c]) ++
    (s ≫= λ c, if c =? 92 then [92; 92] else if c =? 10 then [92; 110] else [c])).
  destruct (Z.eqb_spec c 92) as [->|H1]; [cbn; by rewrite IH|].
  destruct (Z.eqb_spec c 10) as [->|H2]; [cbn; by rewrite IH|].
  cbn [app unescape_delim]. rewrite (proj2 (Z.eqb_neq c 92)) by done. by rewrite IH.
Qed.

Lemma escape_no_newline s : (10 : Z) ∉ escape_delim s.
Proof.
  unfold escape_delim. intros (c & Hc & _)%list_elem_of_bind.
  destruct (Z.eqb_spec c 92); [|destruct (Z.eqb_spec c 10)]; apply list_elem_of_In in Hc;
    simpl in Hc; naive_solver lia.
Qed.

Lemma escape_nil s : escape_delim s = [] → s = [].
Proof.
  destruct s as [|c s]; [done|]. unfold escape_delim. simpl.
  by destruct (c =? 92), (c =? 10).
Qed.

(** A text the wire can carry as it is. *)
Definition text_ok (t : chars) : Prop := Forall is_scalar t ∧ (byte_length t ≤ MAX_TEXT_BYTES)%nat.

Lemma texts_roundtrip texts max :
  Forall text_ok texts → (length texts ≤ max)%nat → texts ≠ [[]] →
  decode_texts (encode_texts texts max) max = texts.
Proof.
  intros Hok Hlen Hne. unfold decode_texts, encode_texts. rewrite firstn_all2 by done.
  destruct texts as [|t ts]; [done|].
  assert (join_with 10 (escape_delim <$> t :: ts) ≠ []) as Hj.
  { destruct ts as [|u ts].
    - cbn. by intros ->%escape_nil.
    - rewrite !fmap_cons. cbn [join_with]. by destruct (escape_delim t). }
  rewrite bool_decide_eq_false_2 by done. rewrite split_join.
  - rewrite firstn_all2 by (by rewrite length_fmap). rewrite <-list_fmap_compose.
    rewrite <-(list_fmap_id (t :: ts)) at 2. apply list_fmap_ext.
    intros i x Hx%list_elem_of_lookup_2. unfold compose. rewrite unescape_escape.
    rewrite Forall_forall in Hok. destruct (Hok x Hx). by apply truncated_chars_short.
  - done.
  - apply Forall_forall. intros p (x & -> & _)%list_elem_of_fmap. apply escape_no_newline.
Qed.

(** ** Fields by name *)

Lemma lit_inj s t : lit s = lit t → s = t.
Proof.
  revert t. induction s as [|a s IH]; intros [|b t]; simpl; try done.
  intros [= Hab Hst]. f_equal; [|by apply IH].
  apply N2Z.inj, (f_equal Ascii.ascii_of_N) in Hab. by rewrite !Ascii.ascii_N_embedding in Hab.
Qed.

(** The value of the last member with a name. *)
Definition assoc_last (l : list (string * Value)) (k : string) : option Scalar :=
  fold_left (λ acc kv, if String.eqb kv.1 k then Some (scalar_of kv.2) else acc) l None.

Lemma field_fields_of l k : field (fields_of l) k = assoc_last l k.
Proof.
  unfold field, fields_of, assoc_last. cbn [field_map].
  assert (∀ (m : gmap chars Scalar) acc, m !! lit k = acc →
    fold_left (λ m kv, <[lit kv.1 := scalar_of kv.2]> m) l m !! lit k =
    fold_left (λ acc kv, if String.eqb kv.1 k then Some (scalar_of kv.2) else acc) l acc) as H;
    [|by apply H].
  induction l as [|[k' v] l IH]; intros m acc Hm; [done|]. cbn [fold_left fst snd]. apply IH.
  destruct (String.eqb_spec k' k) as [->|Hne]; [by rewrite lookup_insert_eq|].
  rewrite lookup_insert_ne; [done|]. by intros ?%lit_inj.
Qed.

(** Reads a field of a concrete list of members. *)
Ltac read_field :=
  unfold u32_or; unfold str_or, uint_or, bool_or, role_or; unfold f_str, f_uint, f_bool, f_int;
  rewrite !field_fields_of; unfold assoc_last;
  cbn [fold_left fst snd String.eqb Ascii.eqb Bool.eqb scalar_of default option_fmap].

(** ** Lines *)

Lemma position_newline line rest :
  (10 ∉ line) → position (λ b, b =? 10) (line ++ 10 :: rest) = Some (length line).
Proof.
  induction line as [|b line IH]; intros Hn; [done|]. apply not_elem_of_cons in Hn as [Hb Hn].
  cbn [app position]. rewrite (proj2 (Z.eqb_neq b 10)) by congruence. by rewrite IH.
Qed.

(** A line is read whole and nothing after it is consumed, however the stream is cut. *)
Lemma read_line_ok `{FL : F32} r : ∀ buf total max line rest,
  Forall (λ c, c ≠ []) r → mjoin r = line ++ 10 :: rest → (10 ∉ line) →
  (total + length line ≤ max)%nat →
  ∃ r', read_line_bounded r buf total max = (Ok (buf ++ line, (total + length line)%nat), r') ∧
        mjoin r' = rest ∧ Forall (λ c, c ≠ []) r'.
Proof.
  induction r as [|a r IH]; intros buf total max line rest Hne Hj Hn Hle.
  { by destruct line. }
  apply Forall_cons in Hne as [Ha Hr]. rewrite mjoin_cons in Hj. cbn [read_line_bounded].
  destruct (position (λ b, b =? 10) a) as [pos|] eqn:Hpos.
  - assert (position (λ b, b =? 10) (a ++ mjoin r) = Some pos) as Hpos'.
    { clear -Hpos. revert pos Hpos. induction a as [|b a IH]; intros pos; simpl; [done|].
      destruct (b =? 10); [done|]. destruct (position (λ b0, b0 =? 10) a) as [p|]; [|done].
      by rewrite (IH p). }
    rewrite Hj, position_newline in Hpos' by done. injection Hpos' as <-.
    apply position_Some in Hpos as (x & Hx & Hx10%Z.eqb_eq & _). subst x.
    apply lookup_lt_Some in Hx as Hlt.
    assert (take (length line) a = line ∧ drop (S (length line)) a ++ mjoin r = rest) as [-> Hrest].
    { pose proof (f_equal (take (length line)) Hj) as H1. rewrite take_app_length in H1.
      rewrite take_app_le in H1 by lia. split; [done|].
      pose proof (f_equal (drop (S (length line))) Hj) as H2.
      rewrite drop_app_le in H2 by lia. rewrite H2.
      replace (S (length line)) with (length (line ++ [10])) by (rewrite length_app; simpl; lia).
      change (line ++ 10 :: rest) with (line ++ [10] ++ rest). by rewrite app_assoc, drop_app_length. }
    rewrite decide_False by lia. eexists. split; [reflexivity|].
    case_bool_decide as Hd; [by rewrite Hd in Hrest|]. split; [by rewrite mjoin_cons|by constructor].
  - rewrite position_None in Hpos.
    assert (∃ line', line = a ++ line' ∧ mjoin r = line' ++ 10 :: rest) as (line' & -> & Hj').
    { assert (length a ≤ length line)%nat as Hal.
      { destruct (le_lt_dec (length a) (length line)) as [|Hlt]; [done|]. exfalso.
        assert (a !! length line = Some 10) as H10.
        { rewrite <-(lookup_app_l a (mjoin r)) by done. rewrite Hj.
          by rewrite lookup_app_r, Nat.sub_diag by lia. }
        apply list_elem_of_lookup_2, Hpos in H10. done. }
      exists (drop (length a) line). pose proof (f_equal (take (length a)) Hj) as H1.
      rewrite take_app_length, take_app_le in H1 by done.
      split; [by rewrite H1 at 1; rewrite take_drop|].
      pose proof (f_equal (drop (length a)) Hj) as H2. rewrite drop_app_length, drop_app_le in H2 by done.
      done. }
    rewrite length_app in Hle. rewrite decide_False by lia.
    apply not_elem_of_app in Hn as [_ Hn].
    destruct (IH (buf ++ a) (total + length a)%nat max line' rest Hr Hj' Hn ltac:(lia))
      as (r' & -> & Hr').
    exists r'. rewrite length_app, app_assoc, Nat.add_assoc. done.
Qed.

Lemma printable_no_newline cs : Forall (λ c, 32 ≤ c) cs → 10 ∉ to_utf8 cs.
Proof.
  intros Hcs (c & Hb & Hc)%list_elem_of_bind. rewrite Forall_forall in Hcs. specialize (Hcs c Hc).
  unfold encode_char in Hb.
  assert (0 ≤ c / 64) by (apply Z.div_pos; lia). assert (0 ≤ c / 4096) by (apply Z.div_pos; lia).
  assert (0 ≤ c / 262144) by (apply Z.div_pos; lia).
  pose proof (Z.mod_pos_bound c 64). pose proof (Z.mod_pos_bound (c / 64) 64).
  pose proof (Z.mod_pos_bound (c / 4096) 64).
  repeat case_match; apply list_elem_of_In in Hb; simpl in Hb; lia.
Qed.

Lemma trim_braces cs : trim (123 :: cs ++ [125]) = 123 :: cs ++ [125].
Proof.
  unfold trim, trim_end. cbn [trim_start]. change (is_whitespace 123) with false. cbv iota.
  change (123 :: cs ++ [125]) with ((123 :: cs) ++ [125]). rewrite rev_app_distr.
  change (rev [125] ++ rev (123 :: cs)) with (125 :: rev (123 :: cs)). cbn [trim_start].
  change (is_whitespace 125) with false. cbv iota.
  change (rev (125 :: rev (123 :: cs))) with (rev (rev (123 :: cs)) ++ [125]).
  by rewrite rev_involutive.
Qed.

(** The characters of a value. *)
Definition value_scalar (v : Value) : Prop :=
  match v with VStr s => Forall is_scalar s | _ => True end.


Lemma encode_str_scalar s : Forall is_scalar s → Forall is_scalar (encode_str s).
Proof.
  intros Hs. unfold encode_str. apply Forall_app. split; [by repeat constructor|].
  apply Forall_app. split; [|by repeat constructor].
  apply Forall_forall. intros c (d & Hc & Hd)%list_elem_of_bind.
  rewrite Forall_forall in Hs. specialize (Hs d Hd). unfold escape_char in Hc.
  assert (∀ v, is_scalar (hex_char (v mod 16))) as Hhex.
  { intros v. pose proof (Z.mod_pos_bound v 16). apply small_scalar. unfold hex_char.
    destruct (_ <? 10); lia. }
  repeat case_match; apply list_elem_of_In in Hc; simpl in Hc;
    try (destruct Hc as [<-|[<-|[]]]; apply small_scalar; lia); [|by destruct Hc as [<-|[]]].
  repeat destruct Hc as [<-|Hc]; try done; try apply Hhex; apply small_scalar; lia.
Qed.



Definition wire_ok (v : Value) : Prop := value_scalar v ∧ value_ok v.

Lemma member_scalar kv : wire_ok kv.2 → Forall is_scalar (member kv).
Proof.
  destruct kv as [k v]. intros [Hs Hv]. unfold member. apply Forall_app.
  split; [apply encode_str_scalar, lit_scalar|]. constructor; [apply small_scalar; lia|].
  destruct v as [s|i|u|b]; cbn [value_text snd] in *; simpl in Hv.
  - by apply encode_str_scalar.
  - unfold dec_i. destruct (Z.ltb_spec i 0); [constructor; [apply small_scalar; lia|]|];
      apply dec_u_scalar; lia.
  - apply dec_u_scalar. lia.
  - destruct b; apply lit_scalar.
Qed.

Lemma encode_fields_scalar l : Forall (λ kv, wire_ok kv.2) l → Forall is_scalar (encode_fields l).
Proof.
  intros Hl. destruct l as [|kv l]; [by repeat constructor|]. rewrite encode_fields_cons.
  apply Forall_cons in Hl as [Hkv Hl]. constructor; [apply small_scalar; lia|].
  apply Forall_app. split; [by apply member_scalar|].
  apply Forall_app. split; [|by repeat constructor].
  apply Forall_forall. intros c (kv' & Hc & Hin)%list_elem_of_bind.
  apply elem_of_cons in Hc as [->|Hc]; [apply small_scalar; lia|].
  rewrite Forall_forall in Hl. pose proof (member_scalar kv' (Hl kv' Hin)) as Hm.
  by eapply Forall_forall in Hm.
Qed.

Lemma encode_fields_braces l : ∃ cs, encode_fields l = 123 :: cs ++ [125].
Proof.
  destruct l as [|kv l]; [by exists []|]. rewrite encode_fields_cons. rewrite app_assoc. eauto.
Qed.

Section Wire.
Context `{FL : F32}.

(** An object line is read back as its fields, and the rest of the stream is left. *)
Lemma read_fields_encoded l r rest :
  Forall (λ kv, wire_ok kv.2) l → (byte_length (encode_fields l) ≤ MAX_LINE_BYTES)%nat →
  Forall (λ c, c ≠ []) r → mjoin r = to_utf8 (encode_fields l) ++ 10 :: rest →
  ∃ r', read_fields r = (Ok (Some (fields_of l)), r') ∧ mjoin r' = rest ∧ Forall (λ c, c ≠ []) r'.
Proof.
  intros Hl Hlen Hne Hj.
  assert (Forall (λ kv, value_ok kv.2) l) as Hok by (eapply Forall_impl; [exact Hl|]; by intros ? []).
  destruct (read_line_ok r [] 0 MAX_LINE_BYTES (to_utf8 (encode_fields l)) rest Hne Hj) as (r' & Hr & Hr').
  { apply printable_no_newline, encode_fields_printable. eapply Forall_impl; [exact Hok|]. intros kv H. by apply fits_typed. }
  { done. }
  exists r'. split; [|done]. unfold read_fields. rewrite Hr. cbn [app Nat.add].
  destruct (encode_fields_braces l) as [cs Hcs].
  rewrite decide_False by (rewrite Hcs, to_utf8_cons; done).
  rewrite lossy_valid by (by apply to_utf8_valid, encode_fields_scalar).
  rewrite chars_of_to_utf8 by (by apply encode_fields_scalar). cbv zeta.
  assert (trim (encode_fields l) = encode_fields l) as -> by (rewrite Hcs; apply trim_braces).
  rewrite bool_decide_eq_false_2 by (by rewrite Hcs). by rewrite parse_encode_fields.
Qed.

End Wire.

(** ** Requests *)

Definition cost_ok (c : Z) : Prop := 0 ≤ c ≤ i64_MAX.
Definition batch_ok (texts : list chars) (max : nat) : Prop :=
  Forall text_ok texts ∧ (length texts ≤ max)%nat ∧ texts ≠ [[]].
Definition request_ok (req : Request) : Prop :=
  match req with
  | Probe => True
  | Complete c => text_ok (cr_system c) ∧ text_ok (cr_prompt c) ∧ is_uint 32 (cr_max_tokens c) ∧
                  cost_ok (cr_max_cost_micros c) ∧ is_uint 32 (rq_min_context (cr_require c))
  | Embed e => batch_ok (er_inputs e) MAX_BATCH ∧ cost_ok (er_max_cost_micros e)
  | Rerank r => text_ok (kr_query r) ∧ batch_ok (kr_documents r) MAX_DOCS ∧
                cost_ok (kr_max_cost_micros r)
  end.

(** The members of a request's line. *)
Definition request_members (req : Request) : list (string * Value) :=
  ("v", VInt PROTOCOL_VERSION) ::
  match req with
  | Probe => [("kind", VStr (lit "probe"))]
  | Complete c =>
      [("kind", VStr (lit "complete")); ("role", VStr (role_str (cr_role c)));
       ("system", VStr (cr_system c)); ("prompt", VStr (cr_prompt c));
       ("max_tokens", VInt (cr_max_tokens c)); ("stream", VBool (cr_stream c));
       ("max_cost_micros", VUint (cr_max_cost_micros c));
       ("req_tools", VBool (rq_tools (cr_require c)));
       ("req_min_context", VInt (rq_min_context (cr_require c)));
       ("req_local_only", VBool (rq_local_only (cr_require c)))]
  | Embed e =>
      [("kind", VStr (lit "embed")); ("role", VStr (role_str (er_role e)));
       ("count", VInt (clamp_count (length (er_inputs e)) MAX_BATCH));
       ("inputs", VStr (encode_texts (er_inputs e) MAX_BATCH));
       ("max_cost_micros", VUint (er_max_cost_micros e))]
  | Rerank r =>
      [("kind", VStr (lit "rerank")); ("role", VStr (role_str (kr_role r)));
       ("query", VStr (kr_query r));
       ("count", VInt (clamp_count (length (kr_documents r)) MAX_DOCS));
       ("documents", VStr (encode_texts (kr_documents r) MAX_DOCS));
       ("max_cost_micros", VUint (kr_max_cost_micros r))]
  end.

Lemma encode_request_members req : encode_request req = encode_fields (request_members req).
Proof. by destruct req. Qed.

Lemma scalar_nonneg s : Forall is_scalar s → Forall (λ c, 0 ≤ c) s.
Proof. intros Hs. eapply Forall_impl; [exact Hs|]. unfold is_scalar. intros c ?. lia. Qed.

Lemma wire_str s : Forall is_scalar s → wire_ok (VStr s).
Proof. split; [done|]. by apply scalar_nonneg. Qed.

Lemma wire_int i : is_uint 32 i → wire_ok (VInt i).
Proof. unfold is_uint. split; [done|]. simpl. unfold i64_MIN, i64_MAX. lia. Qed.

Lemma wire_count n max : (max ≤ Z.to_nat (2 ^ 20))%nat → wire_ok (VInt (clamp_count n max)).
Proof. intros Hm. apply wire_int. unfold is_uint, clamp_count. lia. Qed.

Lemma role_scalar r : Forall is_scalar (role_str r).
Proof. apply lit_scalar. Qed.

Lemma escape_delim_scalar t : Forall is_scalar t → Forall is_scalar (escape_delim t).
Proof.
  intros Ht. apply Forall_forall. intros c (d & Hc & Hd)%list_elem_of_bind.
  rewrite Forall_forall in Ht. specialize (Ht d Hd).
  destruct (d =? 92); [|destruct (d =? 10)]; apply list_elem_of_In in Hc; simpl in Hc;
    repeat destruct Hc as [<-|Hc]; try done; apply small_scalar; lia.
Qed.

Lemma join_with_scalar sep parts :
  is_scalar sep → Forall (Forall is_scalar) parts → Forall is_scalar (join_with sep parts).
Proof.
  intros Hsep. induction 1 as [|p ps Hp Hps IH]; [constructor|]. destruct ps as [|q ps]; [done|].
  change (join_with sep (p :: q :: ps)) with (p ++ sep :: join_with sep (q :: ps)).
  apply Forall_app. split; [done|]. by constructor.
Qed.

Lemma encode_texts_scalar texts max :
  Forall text_ok texts → Forall is_scalar (encode_texts texts max).
Proof.
  intros Ht. apply join_with_scalar; [apply small_scalar; lia|].
  apply Forall_forall. intros p (t & -> & Hin)%list_elem_of_fmap. apply escape_delim_scalar.
  apply subseteq_take in Hin. rewrite Forall_forall in Ht. by apply Ht.
Qed.

Create HintDb wire.
#[local] Hint Resolve wire_str wire_int wire_count role_scalar lit_scalar encode_texts_scalar : wire.

Lemma request_members_ok req : request_ok req → Forall (λ kv, wire_ok kv.2) (request_members req).
Proof.
  assert (∀ b, wire_ok (VBool b)) as Hb by done.
  assert (∀ c, cost_ok c → wire_ok (VUint c)) as Hu by done.
  assert (MAX_BATCH ≤ Z.to_nat (2 ^ 20))%nat as H1 by (unfold MAX_BATCH; lia).
  assert (MAX_DOCS ≤ Z.to_nat (2 ^ 20))%nat as H2 by (unfold MAX_DOCS; lia).
  assert (wire_ok (VInt PROTOCOL_VERSION)) as Hv by (apply wire_int; unfold is_uint, PROTOCOL_VERSION; lia).
  destruct req as [|c|e|r]; unfold request_ok, batch_ok, text_ok, request_members; intros Hok;
    crush_hyps; repeat apply Forall_cons_2; try apply Forall_nil_2; cbn [snd]; auto with wire.
Qed.

Lemma role_roundtrip r : role_from_token (role_str r) = r.
Proof. by destruct r. Qed.

Lemma u32_small v : is_uint 32 v → v mod 2 ^ 32 = v.
Proof. intros Hv. by apply Z.mod_small. Qed.

Lemma request_fields_roundtrip `{FL : F32} req :
  request_ok req → request_from_fields (fields_of (request_members req)) = Ok req.
Proof.
  assert (∀ v, is_uint 32 v → (0 <=? v) = true) as Hp32 by (unfold is_uint; intros; lia).
  assert (∀ v, cost_ok v → (0 <=? v) = true) as Hpc by (unfold cost_ok; intros; lia).
  intros Hok. destruct req as [|c|e|r]; unfold request_from_fields; read_field; [done|..];
    cbn [bool_decide]; unfold request_ok, batch_ok, text_ok in Hok; crush_hyps.
  - destruct c as [role sys prompt mt st cost [t mc lo]]. simpl in *.
    rewrite role_roundtrip, !truncated_chars_short, (Hp32 mt), (Hp32 mc), (Hpc cost) by done.
    simpl. by rewrite !u32_small.
  - destruct e as [role inputs cost]. simpl in *. rewrite role_roundtrip, Hpc by done. simpl.
    by rewrite texts_roundtrip.
  - destruct r as [role q docs cost]. simpl in *. rewrite role_roundtrip, Hpc by done. simpl.
    unfold bound_text. by rewrite truncated_chars_short, texts_roundtrip.
Qed.

Lemma read_request_line `{FL : F32} req r rest :
  request_ok req → (byte_length (encode_request req) ≤ MAX_LINE_BYTES)%nat →
  Forall (λ c, c ≠ []) r → mjoin r = request_line req ++ rest →
  ∃ r', read_request r = (Ok (Some req), r') ∧ mjoin r' = rest ∧ Forall (λ c, c ≠ []) r'.
Proof.
  intros Hok Hlen Hne Hj. unfold request_line in Hj. rewrite <-app_assoc in Hj.
  rewrite encode_request_members in Hj, Hlen.
  destruct (read_fields_encoded (request_members req) r rest (request_members_ok req Hok) Hlen Hne Hj)
    as (r' & Hr & Hr' & Hne').
  exists r'. split; [|done]. unfold read_request. rewrite Hr, bind_Ok.
  by rewrite request_fields_roundtrip.
Qed.

(** A request survives the pipe: however the stream is cut into reads, reading from a
    stream that starts with the line written for a request returns that request and leaves
    exactly the rest of the stream, for every request within the protocol's caps (its
    numbers, texts and batches) whose line is within [MAX_LINE_BYTES]. *)
Theorem request_wire_roundtrip `{FL : F32} req r rest :
  request_ok req → (byte_length (encode_request req) ≤ MAX_LINE_BYTES)%nat →
  Forall (λ c, c ≠ []) r → mjoin r = request_line req ++ rest →
  ∃ r', read_request r = (Ok (Some req), r') ∧ mjoin r' = rest.
Proof.
  intros Hok Hlen Hne Hj. destruct (read_request_line req r rest Hok Hlen Hne Hj) as (r' & Hr & Hr' & _). eauto.
Qed.

(** A trivial float for the examples. *)
#[local] Instance demo_f32 : F32 := {|
  f32 := unit; f32_zero := tt; f32_is_finite := λ _, true; f32_to_string := λ _, lit "0";
  f32_parse := λ _, Some tt |}.

Definition demo_request : Request :=
  Embed (mkEmbed Research [lit "a b"; [10; 92; 9731]; []] 5).

Lemma request_wire_roundtrip_witness :
  let line := request_line demo_request in
  ∃ r', read_request [take 7 line; drop 7 line ++ [123; 125]] = (Ok (Some demo_request), r') ∧
        mjoin r' = [123; 125].
Proof.
  intros line.
  apply (request_wire_roundtrip demo_request [take 7 line; drop 7 line ++ [123; 125]] [123; 125]).
  - assert (∀ t, bool_decide (Forall is_scalar t) = true → (byte_length t ≤ 8)%nat → text_ok t) as Ht.
    { intros t Hb%bool_decide_eq_true Hl. split; [done|]. unfold MAX_TEXT_BYTES. lia. }
    split; [|unfold cost_ok, i64_MAX; simpl; lia].
    split; [|split; [cbn [er_inputs length]; unfold MAX_BATCH; lia|done]]. cbn [er_inputs].
    repeat (apply Forall_cons_2; [apply Ht; [vm_compute; reflexivity|apply Nat.leb_le; vm_compute; reflexivity]|]).
    apply Forall_nil_2.
  - unfold MAX_LINE_BYTES, byte_length. apply Nat.leb_le. vm_compute. reflexivity.
  - repeat constructor; vm_compute; congruence.
  - cbn [mjoin]. rewrite !mjoin_cons, app_nil_r, app_assoc. by rewrite take_drop.
Defined.

(** ** Responses *)

(** Fallback names that the comma-separated field can carry. *)
Definition names_ok (names : list chars) : Prop :=
  Forall (λ n, Forall is_scalar n ∧ (44 ∉ n)) names ∧ names ≠ [[]].
Definition usage_ok (u : Usage) : Prop :=
  is_uint 32 (us_input_tokens u) ∧ is_uint 32 (us_output_tokens u) ∧ cost_ok (us_cost_micros u).

Lemma csv_roundtrip names : names_ok names → split_csv (join_with 44 names) = names.
Proof.
  intros [Hn Hne]. unfold split_csv. destruct names as [|n ns]; [done|].
  rewrite bool_decide_eq_false_2.
  - apply split_join; [done|]. eapply Forall_impl; [exact Hn|]. by intros ? [].
  - destruct ns; [by destruct n|]. cbn [join_with]. by destruct n.
Qed.

Section Responses.
Context `{FL : F32}.

(** The responses whose payload is text and integers. *)
Definition response_ok (resp : Response) : Prop :=
  match resp with
  | RModel m => Forall is_scalar (mi_provider m) ∧ Forall is_scalar (mi_model m) ∧
      is_uint 32 (mi_context m) ∧ cost_ok (mi_cost_per_1k_micros m) ∧ is_uint 32 (mi_embedding_dims m)
  | RRegistryEnd => True
  | RChunk t => text_ok t
  | RFinal f => text_ok (fi_text f) ∧ Forall is_scalar (fi_provider f) ∧
      Forall is_scalar (fi_model f) ∧ usage_ok (fi_usage f) ∧ names_ok (fi_fallbacks f)
  | REmbedding _ | RRanking _ => False
  | RError reason => Forall is_scalar reason
  end.

Definition response_members (resp : Response) : list (string * Value) :=
  match resp with
  | RModel m =>
      [("kind", VStr (lit "model")); ("provider", VStr (mi_provider m)); ("model", VStr (mi_model m));
       ("healthy", VBool (mi_healthy m)); ("context", VInt (mi_context m)); ("tools", VBool (mi_tools m));
       ("structured", VBool (mi_structured m)); ("streaming", VBool (mi_streaming m));
       ("cost_per_1k_micros", VUint (mi_cost_per_1k_micros m)); ("embeddings", VBool (mi_embeddings m));
       ("rerank", VBool (mi_rerank m)); ("embedding_dims", VInt (mi_embedding_dims m))]
  | RRegistryEnd => [("kind", VStr (lit "registry_end"))]
  | RChunk t => [("kind", VStr (lit "chunk")); ("text", VStr t)]
  | RFinal f =>
      [("kind", VStr (lit "final")); ("text", VStr (fi_text f)); ("provider", VStr (fi_provider f));
       ("model", VStr (fi_model f)); ("input_tokens", VInt (us_input_tokens (fi_usage f)));
       ("output_tokens", VInt (us_output_tokens (fi_usage f)));
       ("cost_micros", VUint (us_cost_micros (fi_usage f)));
       ("fallbacks", VStr (join_with 44 (fi_fallbacks f)))]
  | RError reason => [("kind", VStr (lit "error")); ("reason", VStr reason)]
  | _ => []
  end.

Lemma response_members_ok resp :
  response_ok resp →
  encode_response resp = encode_fields (response_members resp) ∧
  Forall (λ kv, wire_ok kv.2) (response_members resp).
Proof.
  assert (∀ b, wire_ok (VBool b)) as Hb by done.
  assert (∀ c, cost_ok c → wire_ok (VUint c)) as Hu by done.
  assert (∀ names, names_ok names → Forall is_scalar (join_with 44 names)) as Hn.
  { intros names [Hn _]. apply join_with_scalar; [apply small_scalar; lia|].
    eapply Forall_impl; [exact Hn|]. by intros ? []. }
  intros Hok. split; [by destruct resp|].
  destruct resp; unfold response_ok, text_ok, usage_ok, response_members in *; crush_hyps; try done;
    repeat apply Forall_cons_2; try apply Forall_nil_2; cbn [snd]; auto with wire.
Qed.

Lemma response_fields_roundtrip resp :
  response_ok resp → response_from_fields (fields_of (response_members resp)) = Ok resp.
Proof.
  assert (∀ v, is_uint 32 v → (0 <=? v) = true) as Hp32 by (unfold is_uint; intros; lia).
  assert (∀ v, cost_ok v → (0 <=? v) = true) as Hpc by (unfold cost_ok; intros; lia).
  intros Hok. destruct resp as [m| |t|f|e|r|reason]; unfold response_ok in Hok; try done;
    unfold response_from_fields; unfold usage_from_fields; read_field; cbn [bool_decide]; try done.
  - destruct m as [p m h ctx to st sr cost em re ed]. simpl in *. crush_hyps.
    rewrite (Hp32 ctx), (Hp32 ed), (Hpc cost) by done. simpl. by rewrite !u32_small.
  - destruct Hok. by rewrite truncated_chars_short.
  - destruct f as [t p m [i o c] fb]. unfold text_ok, usage_ok in Hok. simpl in *. crush_hyps.
    rewrite truncated_chars_short, (Hp32 i), (Hp32 o), (Hpc c), csv_roundtrip by done. simpl.
    by rewrite !u32_small.
Qed.

Lemma read_response_line resp r rest :
  response_ok resp → (byte_length (encode_response resp) ≤ MAX_LINE_BYTES)%nat →
  Forall (λ c, c ≠ []) r → mjoin r = response_line resp ++ rest →
  ∃ r', read_response r = (Ok (Some resp), r') ∧ mjoin r' = rest ∧ Forall (λ c, c ≠ []) r'.
Proof.
  intros Hok Hlen Hne Hj. unfold response_line in Hj. rewrite <-app_assoc in Hj.
  destruct (response_members_ok resp Hok) as [Henc Hm]. rewrite Henc in Hj, Hlen.
  destruct (read_fields_encoded _ r rest Hm Hlen Hne Hj) as (r' & Hr & Hr').
  exists r'. split; [|done]. unfold read_response. rewrite Hr, bind_Ok.
  by rewrite response_fields_roundtrip.
Qed.

End Responses.

(** ** The client *)

Section Client.
Context `{FL : F32}.

Lemma bytes_ahead_cons a r : bytes_ahead (a :: r) = (length a + bytes_ahead r)%nat.
Proof. done. Qed.

(** A line that was read used up at least its bytes. *)
Lemma read_line_consumes r : ∀ buf total max b n r',
  read_line_bounded r buf total max = (Ok (b, n), r') →
  (n + bytes_ahead r' ≤ total + bytes_ahead r)%nat.
Proof.
  induction r as [|a r IH]; intros buf total max b n r'; cbn [read_line_bounded].
  { intros [= <- <- <-]. done. }
  destruct (position _ a) as [pos|] eqn:Hpos.
  - case_decide; [done|]. intros [= <- <- <-].
    apply position_Some in Hpos as (x & Hx%lookup_lt_Some & _).
    case_bool_decide as Hd; rewrite ?bytes_ahead_cons, ?length_drop; lia.
  - case_decide; [done|]. intros H1%IH. rewrite bytes_ahead_cons. lia.
Qed.

(** A message that was read used up at least one byte. *)
Lemma read_response_consumes r resp r' :
  read_response r = (Ok (Some resp), r') → (bytes_ahead r' < bytes_ahead r)%nat.
Proof.
  unfold read_response, read_fields.
  destruct (read_line_bounded r [] 0 MAX_LINE_BYTES) as [[[line n]|e] r1] eqn:Hr; [|done].
  apply read_line_consumes in Hr. case_decide as Hn; [done|]. cbv zeta.
  case_bool_decide; [done|]. destruct (parse_flat_object _) as [f|]; [|done].
  simpl. destruct (response_from_fields f); [|done]. intros [= _ <-]. lia.
Qed.

(** The client's loops never stop for want of fuel. *)
Lemma probe_loop_fuel : ∀ f1 f2 models r,
  (bytes_ahead r < f1)%nat → (bytes_ahead r < f2)%nat →
  probe_loop f1 models r = probe_loop f2 models r.
Proof.
  induction f1 as [|f1 IH]; intros [|f2] models r H1 H2; try lia. cbn [probe_loop].
  destruct (read_response r) as [[[resp|]|e] r'] eqn:Hr; [|done..].
  apply read_response_consumes in Hr. destruct resp; try done. case_decide; [done|]. apply IH; lia.
Qed.

Lemma complete_loop_fuel : ∀ f1 f2 streamed shown r,
  (bytes_ahead r < f1)%nat → (bytes_ahead r < f2)%nat →
  complete_loop f1 streamed shown r = complete_loop f2 streamed shown r.
Proof.
  induction f1 as [|f1 IH]; intros [|f2] streamed shown r H1 H2; try lia. cbn [complete_loop].
  destruct (read_response r) as [[[resp|]|e] r'] eqn:Hr; [|done..].
  apply read_response_consumes in Hr. destruct resp; try done. cbv zeta.
  destruct (_ <? _); [done|]. apply IH; lia.
Qed.

Definition shown_bytes (shown : list chars) : Z := Z.of_nat (sum_list_with byte_length shown).

Lemma shown_bytes_snoc shown t : shown_bytes (shown ++ [t]) = shown_bytes shown + Z.of_nat (byte_length t).
Proof. unfold shown_bytes. rewrite sum_list_with_app. simpl. lia. Qed.

Lemma complete_loop_bound fuel : ∀ streamed shown r,
  shown_bytes shown = streamed → streamed ≤ MAX_STREAM_BYTES →
  shown_bytes (complete_loop fuel streamed shown r).1.2 ≤ MAX_STREAM_BYTES.
Proof.
  induction fuel as [|fuel IH]; intros streamed shown r Hs Hle; cbn [complete_loop]; [simpl; lia|].
  destruct (read_response r) as [[[resp|]|e] r']; [|simpl; lia..].
  destruct resp as [m| |t|f|e|k|reason]; simpl; try lia. cbv zeta.
  destruct (Z.ltb_spec MAX_STREAM_BYTES (saturating_add u64_MAX streamed (Z.of_nat (byte_length t))));
    [simpl; lia|].
  assert (streamed + Z.of_nat (byte_length t) ≤ u64_MAX) as Hsat
    by (unfold saturating_add, u64_MAX, MAX_STREAM_BYTES in *; lia).
  apply IH; [|done]. rewrite shown_bytes_snoc, saturating_add_exact by done. lia.
Qed.

Lemma probe_loop_bound fuel : ∀ models r l,
  (length models ≤ MAX_REGISTRY_MODELS)%nat → (probe_loop fuel models r).1 = Ok l →
  (length l ≤ MAX_REGISTRY_MODELS)%nat.
Proof.
  induction fuel as [|fuel IH]; intros models r l Hle; cbn [probe_loop]; [done|].
  destruct (read_response r) as [[[resp|]|e] r']; [|done..].
  destruct resp; try done; simpl; [|by intros [= <-]]. case_decide; [done|].
  apply IH. rewrite length_app. cbn [length]. lia.
Qed.

(** The client is bounded against any helper: whatever bytes arrive, in whatever pieces
    and however many, a probe ends and returns at most [MAX_REGISTRY_MODELS] models, a
    completion ends having shown at most [MAX_STREAM_BYTES] bytes of chunks, and running
    either with more steps allowed changes nothing. *)
Theorem client_bounded w r req extra :
  (∀ l, (probe w r).1.1 = Ok l → (length l ≤ MAX_REGISTRY_MODELS)%nat) ∧
  shown_bytes (complete req w r).1.1.2 ≤ MAX_STREAM_BYTES ∧
  probe_loop (S (bytes_ahead r) + extra) [] r = probe_loop (S (bytes_ahead r)) [] r ∧
  complete_loop (S (bytes_ahead r) + extra) 0 [] r = complete_loop (S (bytes_ahead r)) 0 [] r.
Proof.
  split; [|split; [|split]].
  - intros l. unfold probe. destruct (probe_loop _ _ _) as [res r'] eqn:E. simpl. intros ->.
    eapply (probe_loop_bound (S (bytes_ahead r)) [] r); [simpl; lia|by rewrite E].
  - unfold complete. pose proof (complete_loop_bound (S (bytes_ahead r)) 0 [] r eq_refl) as Hb.
    destruct (complete_loop _ _ _ _) as [[res shown] r']. simpl in *. apply Hb.
    unfold MAX_STREAM_BYTES. lia.
  - apply probe_loop_fuel; lia.
  - apply complete_loop_fuel; lia.
Qed.

Definition line_ok (resp : Response) : Prop :=
  response_ok resp ∧ (byte_length (encode_response resp) ≤ MAX_LINE_BYTES)%nat.

(** The responses that end a completion, with what the client returns for them. *)
Definition ends (fin : Response) (res : result ProtoError Final) : Prop :=
  match fin with
  | RFinal f => res = Ok f
  | RError e => res = Err (PReported e)
  | _ => False
  end.
Lemma complete_loop_run fin res rest ts : ends fin res → ∀ fuel streamed shown r,
  Forall (λ t, line_ok (RChunk t)) ts → line_ok fin →
  Forall (λ c, c ≠ []) r →
  mjoin r = (ts ≫= λ t, response_line (RChunk t)) ++ response_line fin ++ rest →
  0 ≤ streamed → streamed + shown_bytes ts ≤ MAX_STREAM_BYTES → (length ts < fuel)%nat →
  ∃ r', complete_loop fuel streamed shown r = (res, shown ++ ts, r') ∧ mjoin r' = rest.
Proof.
  intros Hend.
  induction ts as [|t ts IH]; intros fuel streamed shown r Hts Hf Hne Hj H0 Hs Hfuel;
    (destruct fuel as [|fuel]; [lia|]); cbn [complete_loop].
  - destruct Hf as [Hf Hl]. destruct (read_response_line _ r rest Hf Hl Hne Hj) as (r' & -> & Hr & _).
    exists r'. rewrite app_nil_r. destruct fin; try done; by rewrite Hend.
  - apply Forall_cons in Hts as [[Ht Hl] Hts].
    change ((t :: ts) ≫= λ t, response_line (RChunk t))
      with (response_line (RChunk t) ++ (ts ≫= λ t, response_line (RChunk t))) in Hj.
    rewrite <-app_assoc in Hj.
    destruct (read_response_line _ r _ Ht Hl Hne Hj) as (r' & -> & Hr & Hne'). cbv zeta.
    assert (shown_bytes (t :: ts) = Z.of_nat (byte_length t) + shown_bytes ts) as Hsb
      by (unfold shown_bytes; simpl; lia).
    assert (0 ≤ shown_bytes ts) by (unfold shown_bytes; lia).
    rewrite saturating_add_exact by (unfold u64_MAX, MAX_STREAM_BYTES in *; lia).
    rewrite (proj2 (Z.ltb_ge _ _)) by lia.
    destruct (IH fuel (streamed + Z.of_nat (byte_length t)) (shown ++ [t]) r') as (r2 & -> & Hr2);
      try done; [lia|lia|simpl in Hfuel; lia|].
    exists r2. by rewrite <-app_assoc.
Qed.

Lemma lines_ahead ts : (length ts ≤ length (ts ≫= λ t, response_line (RChunk t)))%nat.
Proof.
  induction ts as [|t ts IH]; [done|].
  change ((t :: ts) ≫= λ t, response_line (RChunk t))
    with (response_line (RChunk t) ++ (ts ≫= λ t, response_line (RChunk t))).
  rewrite length_app. unfold response_line at 1. rewrite length_app. simpl. lia.
Qed.

Lemma bytes_ahead_join r : bytes_ahead r = length (mjoin r).
Proof. induction r as [|a r IH]; [done|]. by rewrite bytes_ahead_cons, mjoin_cons, length_app, IH. Qed.

(** A completion is delivered whole: when the helper writes any chunks within the stream
    cap and then the final result, however the pipe cuts them, the client writes its request,
    shows exactly those chunks in order, returns exactly that result and leaves what follows
    unread. *)
Theorem complete_delivers req w r ts f rest :
  Forall (λ t, line_ok (RChunk t)) ts → line_ok (RFinal f) → shown_bytes ts ≤ MAX_STREAM_BYTES →
  Forall (λ c, c ≠ []) r →
  mjoin r = (ts ≫= λ t, response_line (RChunk t)) ++ response_line (RFinal f) ++ rest →
  ∃ r', complete req w r = (Ok f, ts, w ++ request_line (Complete req), r') ∧ mjoin r' = rest.
Proof.
  intros Hts Hf Hs Hne Hj. unfold complete.
  destruct (complete_loop_run (RFinal f) (Ok f) rest ts eq_refl (S (bytes_ahead r)) 0 [] r) as (r' & -> & Hr'); try done.
  - rewrite bytes_ahead_join, Hj, length_app. pose proof (lines_ahead ts). lia.
  - by exists r'.
Qed.

End Client.

Lemma complete_delivers_witness :
  let f := mkFinal (lit "done") (lit "p") (lit "m") (mkUsage 1 2 3) [lit "a"; lit "b"] in
  let req := mkComplete Review [] (lit "hi") 10 true 0 (mkRequire false 0 true) in
  let stream := response_line (RChunk (lit "do")) ++ response_line (RFinal f) in
  ∃ r', complete req [] [stream ++ [7]] = (Ok f, [lit "do"], request_line (Complete req), r') ∧
        mjoin r' = [7].
Proof.
  intros f req stream.
  assert (∀ t, text_ok (lit t) ↔ (length (to_utf8 (lit t)) ≤ MAX_TEXT_BYTES)%nat) as Ht.
  { intros t. unfold text_ok, byte_length. split; [tauto|]. split; [apply lit_scalar|done]. }
  apply (complete_delivers req [] [stream ++ [7]] [lit "do"] f [7]).
  - apply Forall_singleton. split; [apply Ht, Nat.leb_le; vm_compute; reflexivity|].
    apply Nat.leb_le. vm_compute. reflexivity.
  - split; [|apply Nat.leb_le; vm_compute; reflexivity].
    split; [apply Ht, Nat.leb_le; vm_compute; reflexivity|].
    split; [apply lit_scalar|]. split; [apply lit_scalar|]. split; [repeat split; vm_compute; congruence|].
    split; [|done]. repeat (apply Forall_cons_2; [split; [apply lit_scalar|]|]); [| |constructor];
      intros [H|?%elem_of_nil]%elem_of_cons; done.
  - vm_compute. congruence.
  - apply Forall_singleton. vm_compute. congruence.
  - cbn [mjoin]. unfold stream. rewrite mjoin_cons, app_nil_r, <-app_assoc. done.
Defined.

(** ** Limits of the protocol

    A request that its own caps allow can be one the other side refuses or changes: a cost
    ceiling above [i64::MAX] is written but does not parse, a batch of one empty text arrives
    as an empty batch, names with a comma arrive split, and a text at its cap whose characters
    all need escapes makes a line above [MAX_LINE_BYTES]. *)
Theorem protocol_limits :
  (read_request [request_line (Embed (mkEmbed Research [lit "a"] (2 ^ 63)))]).1
    = Err (PJson (OutOfRange (dec_u (2 ^ 63)))) ∧
  decode_texts (encode_texts [[]] MAX_BATCH) MAX_BATCH = [] ∧
  split_csv (join_with 44 [lit "a,b"]) = [lit "a"; lit "b"] ∧
  let prompt := replicate MAX_TEXT_BYTES 1 in
  byte_length prompt = MAX_TEXT_BYTES ∧
  (MAX_LINE_BYTES < byte_length (encode_request
     (Complete (mkComplete Review [] prompt 10 true 0 (mkRequire false 0 true)))))%nat.
Proof.
  split; [vm_compute; reflexivity|]. split; [vm_compute; reflexivity|]. split; [reflexivity|].
  cbv zeta. split; [apply Nat.eqb_eq; vm_compute; reflexivity|].
  apply Nat.ltb_lt. vm_compute. reflexivity.
Qed.
