(* ===== verification/Strings.v ===== *)
(** * String routines on characters

    The [str] methods that the daemon's text logic uses, on lists of Unicode scalar values:
    lines, prefixes and suffixes, ASCII case, replacement, bounded truncation by characters. *)

From S2P Require Import Prelude Text Std Chars Redactor.

(** [s.strip_prefix(p)], [s.starts_with(p)], [s.ends_with(p)]. *)
Fixpoint strip_prefix (p s : chars) : option chars :=
  match p, s with
  | [], _ => Some s
  | a :: p', b :: s' => if a =? b then strip_prefix p' s' else None
  | _ :: _, [] => None
  end.
Definition starts_with (p s : chars) : bool := bool_decide (is_Some (strip_prefix p s)).
Definition ends_with (p s : chars) : bool := starts_with (rev p) (rev s).

(** [a == b] of two strings, and [matches!(s, "a" | "b" | ...)]. *)
Definition str_eq (a b : chars) : bool := bool_decide (a = b).
Definition one_of (l : list string) (s : chars) : bool := existsb (λ x, str_eq s (lit x)) l.

(** [s.strip_suffix(p)]. *)
Definition strip_suffix (p s : chars) : option chars :=
  if ends_with p s then Some (take (length s - length p) s) else None.
(** A literal with characters beyond ASCII. *)
Definition uni (s : string) : chars := chars_of (lit s).
(** [s.to_ascii_lowercase()], [s.replace(a, b)] of one character. *)
Definition ascii_lower (c : Z) : Z := if in_range 65 90 c then c + 32 else c.
Definition to_ascii_lowercase (s : chars) : chars := ascii_lower <$> s.
Definition replace_char (a b : Z) (s : chars) : chars := (λ c, if c =? a then b else c) <$> s.

Definition ascii_upper (c : Z) : Z := if in_range 97 122 c then c - 32 else c.
Definition to_ascii_uppercase (s : chars) : chars := ascii_upper <$> s.
(** [a.eq_ignore_ascii_case(b)]. *)
Definition eq_ignore_ascii_case (a b : chars) : bool := str_eq (to_ascii_lowercase a) (to_ascii_lowercase b).

(** [s.trim_start_matches("./")] and [s.trim_start_matches([..])]. *)
Fixpoint trim_dot_slash (s : chars) : chars :=
  match s with
  | c1 :: ((c2 :: s') as _t) => if (c1 =? 46) && (c2 =? 47) then trim_dot_slash s' else s
  | _ => s
  end.
Fixpoint skip_while (p : Z → bool) (s : chars) : chars :=
  match s with
  | c :: s' => if p c then skip_while p s' else s
  | [] => []
  end.
(** [s.split(p).next()]: up to the first separator. *)
Fixpoint take_until (p : Z → bool) (s : chars) : chars :=
  match s with
  | c :: s' => if p c then [] else c :: take_until p s'
  | [] => []
  end.

(** [s.split_whitespace()]: the maximal pieces without white space. *)
Fixpoint words_from (word s : chars) : list chars :=
  match s with
  | [] => match word with [] => [] | _ => [word] end
  | c :: s' =>
      if is_whitespace c then match word with [] => words_from [] s' | _ => word :: words_from [] s' end
      else words_from (word ++ [c]) s'
  end.
Definition split_whitespace (s : chars) : list chars := words_from [] s.

(** [s.rsplit('/').next()]: the text after the last slash. *)
Definition file_name (s : chars) : chars := default [] (last (split_on 47 s)).

(** [s.lines()]: the pieces between line feeds, a carriage return before a line feed dropped, and
    no piece after a final line feed. *)
Definition strip_cr (l : chars) : chars :=
  match last l with Some 13 => removelast l | _ => l end.
Fixpoint lines_of (ps : list chars) : list chars :=
  match ps with
  | [] => []
  | [p] => match p with [] => [] | _ => [p] end
  | p :: ps' => strip_cr p :: lines_of ps'
  end.
Definition lines (s : chars) : list chars := lines_of (split_on 10 s).

(** [char::is_ascii_alphanumeric], [char::is_control] (the category [Cc]), [char::len_utf8]. *)
Definition is_ascii_alphanumeric (c : Z) : bool :=
  in_range 48 57 c || in_range 65 90 c || in_range 97 122 c.
Definition is_control (c : Z) : bool := in_range 0 31 c || in_range 127 159 c.
Definition len_utf8 (c : Z) : nat := length (encode_char c).

(** The longest prefix of whole characters within [room] bytes. *)
Fixpoint take_bytes (room : nat) (s : chars) : chars :=
  match s with
  | c :: s' => if decide (room < len_utf8 c)%nat then [] else c :: take_bytes (room - len_utf8 c) s'
  | [] => []
  end.

(** ** Lemmas *)

Lemma byte_length_nil : byte_length [] = 0%nat.
Proof. done. Qed.
Lemma byte_length_cons c s : byte_length (c :: s) = (len_utf8 c + byte_length s)%nat.
Proof. unfold byte_length, len_utf8. by rewrite to_utf8_cons, length_app. Qed.
Lemma byte_length_app a b : byte_length (a ++ b) = (byte_length a + byte_length b)%nat.
Proof. induction a as [|c a IH]; [done|]. simpl app. rewrite !byte_length_cons, IH. lia. Qed.

Lemma len_utf8_bound c : (1 ≤ len_utf8 c ≤ 4)%nat.
Proof.
  unfold len_utf8, encode_char. destruct (c <? 128), (c <? 2048), (c <? 65536); simpl; lia.
Qed.

Lemma len_utf8_ascii c : c < 128 → len_utf8 c = 1%nat.
Proof. intros Hc. unfold len_utf8, encode_char. by rewrite (proj2 (Z.ltb_lt c 128)). Qed.

Lemma take_bytes_bound room s : (byte_length (take_bytes room s) ≤ room)%nat.
Proof.
  revert room. induction s as [|c s IH]; intros room; cbn [take_bytes]; [rewrite byte_length_nil; lia|].
  case_decide; [rewrite byte_length_nil; lia|]. rewrite byte_length_cons.
  specialize (IH (room - len_utf8 c)%nat). lia.
Qed.

Lemma take_bytes_prefix room s : take_bytes room s `prefix_of` s.
Proof.
  revert room. induction s as [|c s IH]; intros room; cbn [take_bytes]; [done|].
  case_decide; [apply prefix_nil|]. apply prefix_cons. apply IH.
Qed.

Lemma take_bytes_all room s : (byte_length s ≤ room)%nat → take_bytes room s = s.
Proof.
  revert room. induction s as [|c s IH]; intros room; cbn [take_bytes]; [done|].
  rewrite byte_length_cons. intros H. rewrite decide_False by lia. rewrite IH by lia. done.
Qed.

Lemma strip_prefix_Some p s r : strip_prefix p s = Some r ↔ s = p ++ r.
Proof.
  revert s. induction p as [|a p IH]; intros s; cbn [strip_prefix]; [naive_solver|].
  destruct s as [|b s]; [split; [done|]; intros H; discriminate H|]. destruct (Z.eqb_spec a b) as [->|Hab].
  - rewrite IH. split; [by intros ->|]. intros H. by injection H.
  - split; [done|]. intros H. injection H as H _. congruence.
Qed.

Lemma starts_with_spec p s : starts_with p s = true ↔ p `prefix_of` s.
Proof.
  unfold starts_with. rewrite bool_decide_eq_true. split.
  - intros [r Hr%strip_prefix_Some]. by exists r.
  - intros [r Hr]. exists r. by apply strip_prefix_Some.
Qed.

Lemma contains_spec s v : contains s v = true ↔ ∃ a z, s = a ++ v ++ z.
Proof.
  unfold contains. rewrite bool_decide_eq_true. split.
  - intros [n Hn]. revert n Hn. induction s as [|c s IH]; intros n; cbn [find_sub].
    + destruct (Redactor.starts_with v []) eqn:E; [|done]. intros _. apply bool_decide_eq_true in E.
      exists [], []. rewrite app_nil_r. rewrite take_nil in E. done.
    + destruct (Redactor.starts_with v (c :: s)) eqn:E.
      * intros _. apply bool_decide_eq_true in E. exists [], (drop (length v) (c :: s)). cbn [app].
        rewrite <-E at 1. by rewrite take_drop.
      * intros (m & Hm & _)%fmap_Some. destruct (IH m Hm) as (a & z & ->). by exists (c :: a), z.
  - intros (a & z & ->). induction a as [|c a IH]; cbn [app].
    + assert (Redactor.starts_with v (v ++ z) = true) as H.
      { apply bool_decide_eq_true. by rewrite take_app_length. }
      destruct (v ++ z); cbn [find_sub]; rewrite H; eauto.
    + cbn [find_sub]. destruct (Redactor.starts_with v _); [eauto|]. destruct IH as [n ->]. by eexists.
Qed.
Lemma one_of_spec l s : one_of l s = true ↔ ∃ x, x ∈ l ∧ s = lit x.
Proof.
  unfold one_of. rewrite existsb_exists. split.
  - intros (x & Hx & He). exists x. apply list_elem_of_In in Hx. split; [done|].
    by apply bool_decide_eq_true in He.
  - intros (x & Hx & ->). exists x. split; [by apply list_elem_of_In|]. by apply bool_decide_eq_true.
Qed.

(** Trimming text without white space at its ends changes nothing. *)
Lemma trim_clean s :
  (∀ c, head s = Some c → is_whitespace c = false) →
  (∀ c, last s = Some c → is_whitespace c = false) → trim s = s.
Proof.
  intros Hh Hl. destruct s as [|c s]; [done|]. unfold trim. cbn [trim_start].
  rewrite (Hh c) by done. unfold trim_end.
  destruct (rev (c :: s)) as [|d r] eqn:E.
  { apply (f_equal length) in E. rewrite length_rev in E. done. }
  cbn [trim_start]. rewrite Hl.
  - rewrite <-E. apply rev_involutive.
  - rewrite <-(rev_involutive (c :: s)), E. simpl. apply last_snoc.
Qed.

Lemma split_on_no_sep sep s p : p ∈ split_on sep s → sep ∉ p.
Proof.
  revert p. induction s as [|c s IH]; intros p; cbn [split_on].
  - intros ->%list_elem_of_singleton. apply not_elem_of_nil.
  - destruct (Z.eqb_spec c sep) as [->|Hc].
    + intros [->|Hp]%elem_of_cons; [apply not_elem_of_nil|]. by apply IH.
    + destruct (split_on sep s) as [|q ps]; intros Hp.
      * apply list_elem_of_singleton in Hp as ->. intros ->%list_elem_of_singleton. congruence.
      * apply elem_of_cons in Hp as [->|Hp].
        -- apply not_elem_of_cons. split; [congruence|]. apply IH. left.
        -- apply IH. by right.
Qed.

Lemma split_on_join sep s : join_with sep (split_on sep s) = s.
Proof.
  induction s as [|c s IH]; [done|]. cbn [split_on]. destruct (Z.eqb_spec c sep) as [->|Hc].
  - destruct (split_on sep s) as [|p ps] eqn:E.
    + by simpl in *; subst.
    + change (join_with sep ([] :: p :: ps)) with (sep :: join_with sep (p :: ps)). by rewrite IH.
  - destruct (split_on sep s) as [|p ps] eqn:E.
    + by simpl in *; subst.
    + destruct ps as [|q ps]; [by simpl in *; subst|].
      change (join_with sep ((c :: p) :: q :: ps)) with (c :: join_with sep (p :: q :: ps)). by rewrite IH.
Qed.

Lemma split_on_elem sep s p c : p ∈ split_on sep s → c ∈ p → c ∈ s.
Proof.
  revert p. induction s as [|x s IH]; intros p; cbn [split_on].
  - intros ->%list_elem_of_singleton. intros H. by apply not_elem_of_nil in H.
  - destruct (x =? sep).
    + intros [->|Hp]%elem_of_cons Hc; [by apply not_elem_of_nil in Hc|]. right. by apply (IH p).
    + destruct (split_on sep s) as [|q ps]; intros Hp Hc.
      * apply list_elem_of_singleton in Hp as ->. apply list_elem_of_singleton in Hc as ->. left.
      * apply elem_of_cons in Hp as [->|Hp].
        -- apply elem_of_cons in Hc as [->|Hc]; [left|]. right. apply (IH q); [left|done].
        -- right. apply (IH p); [by right|done].
Qed.

(** [lit] of a text of the basic character set is ASCII. *)
Lemma lit_ascii s : forallb (λ c, c <? 128) (lit s) = true → byte_length (lit s) = length (lit s).
Proof.
  induction (lit s) as [|c l IH]; [done|]. simpl. intros [Hc Hl]%andb_true_iff.
  rewrite byte_length_cons, len_utf8_ascii by lia. rewrite IH by done. done.
Qed.

(** The words of a text are not empty and have no white space. *)
Lemma words_from_ok word s :
  forallb (λ c, negb (is_whitespace c)) word = true →
  Forall (λ w, w ≠ [] ∧ forallb (λ c, negb (is_whitespace c)) w = true) (words_from word s).
Proof.
  revert word. induction s as [|c s IH]; intros word Hw; cbn [words_from].
  { destruct word; [constructor|]. by apply Forall_singleton. }
  destruct (is_whitespace c) eqn:Hc.
  - destruct word; [by apply IH|]. apply Forall_cons. split; [done|by apply IH].
  - apply IH. rewrite forallb_app, Hw. simpl. by rewrite Hc.
Qed.
Lemma split_whitespace_ok s :
  Forall (λ w, w ≠ [] ∧ forallb (λ c, negb (is_whitespace c)) w = true) (split_whitespace s).
Proof. by apply words_from_ok. Qed.

(** *** Numbers and splits *)

Lemma digits_value_nonneg ds : forallb is_digit ds = true → 0 ≤ digits_value ds.
Proof.
  induction ds as [|d ds IH] using rev_ind; [done|]. rewrite forallb_app, digits_value_snoc. cbn [forallb].
  intros [H1%IH H2]%andb_true_iff. rewrite andb_true_r in H2. unfold is_digit, in_range in H2. lia.
Qed.
Lemma parse_digits_nonneg ds v : parse_digits ds = Some v → 0 ≤ v.
Proof.
  unfold parse_digits, all_digits. destruct (_ && _) eqn:E; [|done]. intros [= <-].
  apply andb_true_iff in E as [_ E]. by apply digits_value_nonneg.
Qed.
Lemma parse_uint_range max cs v : parse_uint max cs = Some v → 0 ≤ v ≤ max.
Proof.
  unfold parse_uint. intros (w & Hw & Hv)%bind_Some. destruct (Z.leb_spec w max); [|done]. injection Hv as <-.
  split; [|done]. destruct cs as [|c cs]; [done|]. destruct (c =? 43); by apply parse_digits_nonneg in Hw.
Qed.

Lemma lines_of_ended ps : lines_of (ps ++ [[]]) = strip_cr <$> ps.
Proof. induction ps as [|p [|q ps] IH]; [done..|]. cbn [app lines_of fmap list_fmap] in *. by rewrite IH. Qed.
Lemma lines_ended a : lines (a ++ [10]) = strip_cr <$> split_on 10 a.
Proof. unfold lines. rewrite split_on_sep. cbn [split_on]. apply lines_of_ended. Qed.
Lemma ends_with_one c s : ends_with [c] s = true → ∃ q, s = q ++ [c].
Proof.
  destruct s as [|x s _] using rev_ind; [done|]. unfold ends_with. rewrite rev_unit. cbn [rev app].
  intros (r & Hr)%starts_with_spec. cbn in Hr. injection Hr as -> _. by exists s.
Qed.
Lemma split_once_app sep k v : (sep ∉ k) → split_once sep (k ++ sep :: v) = Some (k, v).
Proof.
  induction k as [|c k IH]; cbn [app split_once]; [by rewrite Z.eqb_refl|].
  rewrite not_elem_of_cons. intros [Hc Hk]. rewrite (proj2 (Z.eqb_neq c sep)) by congruence. by rewrite IH.
Qed.

(** *** Truncation *)

Lemma encode_char_is_char c : is_scalar c → is_char (encode_char c).
Proof.
  intros Hc. destruct (encode_char_head c Hc) as [Hh _]. apply utf8_head_char in Hh as [_ Hh].
  by rewrite firstn_all in Hh.
Qed.
Lemma to_utf8_mjoin cs : to_utf8 cs = mjoin (encode_char <$> cs).
Proof. induction cs as [|c cs IH]; [done|]. rewrite to_utf8_cons, IH. done. Qed.
Lemma to_utf8_app a b : to_utf8 (a ++ b) = to_utf8 a ++ to_utf8 b.
Proof. apply bind_app. Qed.
(** The end of a prefix is a boundary. *)
Lemma prefix_boundary p q : Forall is_scalar q → is_char_boundary (to_utf8 (p ++ q)) (byte_length p) = true.
Proof.
  intros Hq. rewrite to_utf8_app. unfold is_char_boundary, byte_length.
  destruct (decide _) as [_|_]; [done|]. rewrite lookup_app_r, Nat.sub_diag by done.
  destruct q as [|c q]; cbn.
  - apply bool_decide_eq_true. by rewrite app_nil_r.
  - apply Forall_cons in Hq as [Hc _]. destruct (encode_char_is_char c Hc) as (b & r & -> & Hb & _). cbn. by rewrite Hb.
Qed.
(** Truncated text is the longest prefix of whole characters within the bound. *)
Lemma truncated_chars_split cs max :
  Forall is_scalar cs →
  truncated_chars cs max `prefix_of` cs ∧ (byte_length (truncated_chars cs max) ≤ max)%nat ∧
  ∀ p, p `prefix_of` cs → (byte_length p ≤ max)%nat → p `prefix_of` truncated_chars cs max.
Proof.
  intros Hcs. destruct (decide (byte_length cs ≤ max)%nat) as [Hle|Hgt].
  { rewrite truncated_chars_short by done. done. }
  unfold truncated_chars, truncated. rewrite decide_True by (unfold byte_length in Hgt; lia).
  destruct (floor_char_boundary_spec (to_utf8 cs) max) as (Hle & Hb & Hmax).
  set (e := floor_char_boundary _ max) in *.
  assert (∃ a b, cs = a ++ b ∧ byte_length a = e) as (a & b & -> & Ha).
  { rewrite to_utf8_mjoin in Hb.
    destruct (boundary_split (encode_char <$> cs) e) as (l1 & l2 & Hl & He).
    - apply Forall_fmap. eapply Forall_impl; [exact Hcs|]. intros c. apply encode_char_is_char.
    - rewrite <-to_utf8_mjoin. unfold byte_length in Hgt. lia.
    - done.
    - apply fmap_app_inv in Hl as (a & b & -> & -> & ->). exists a, b. split; [done|].
      by rewrite <-He, <-to_utf8_mjoin. }
  rewrite to_utf8_app, <-Ha. unfold byte_length. rewrite take_app_length.
  apply Forall_app in Hcs as [Hsa Hsb]. rewrite chars_of_to_utf8 by done.
  split; [by eexists|]. split; [unfold byte_length in Ha; lia|].
  intros p Hp Hpl. change (byte_length p ≤ max)%nat in Hpl. assert (is_char_boundary (to_utf8 (a ++ b)) (byte_length p) = true) as Hpb.
  { destruct Hp as [r Hr]. rewrite Hr. apply prefix_boundary.
    assert (Forall is_scalar (p ++ r)) as Hpr by (rewrite <-Hr; by apply Forall_app). by apply Forall_app in Hpr as [_ ?]. }
  destruct (prefix_weak_total p a (a ++ b)) as [Hpa|[q ->]]; [done|by eexists|done|].
  assert (byte_length q = 0%nat) as Hq.
  { rewrite byte_length_app in *. destruct (decide (byte_length q = 0%nat)); [done|].
    rewrite Hmax in Hpb by lia. done. }
  destruct q as [|c q]; [by rewrite app_nil_r|]. rewrite byte_length_cons in Hq. pose proof (len_utf8_bound c). lia.
Qed.

(** ASCII text is its own encoding. *)
Lemma to_utf8_ascii cs : Forall (λ c, 0 ≤ c < 128) cs → to_utf8 cs = cs.
Proof.
  induction 1 as [|c cs Hc _ IH]; [done|]. rewrite to_utf8_cons, IH. unfold encode_char.
  assert ((c <? 128) = true) as -> by lia. done.
Qed.
