(* ===== verification/Order.v ===== *)
(** * Orders

    The order of strings, removing adjacent duplicates, and the facts on stable sorting that the
    components share. *)

From stdpp Require Import sorting.
From S2P Require Import Prelude Chars Redactor Strings.

(** The order of strings: by bytes, which is by code points. *)
Fixpoint chars_le (a b : chars) : bool :=
  match a, b with
  | [], _ => true
  | _ :: _, [] => false
  | x :: a', y :: b' => if x <? y then true else if y <? x then false else chars_le a' b'
  end.

(** [v.sort(); v.dedup()]. *)
Fixpoint dedup (l : list chars) : list chars :=
  match l with
  | x :: ((y :: _) as l') => if str_eq x y then dedup l' else x :: dedup l'
  | _ => l
  end.

(** ** Lemmas *)

Lemma chars_le_total a b : chars_le a b = false → chars_le b a = true.
Proof.
  revert b. induction a as [|x a IH]; intros [|y b]; try done. cbn [chars_le].
  destruct (Z.ltb_spec x y), (Z.ltb_spec y x); try done; try lia. apply IH.
Qed.
Lemma chars_le_trans a b c : chars_le a b = true → chars_le b c = true → chars_le a c = true.
Proof.
  revert b c. induction a as [|x a IH]; intros [|y b] [|z c]; try done. cbn [chars_le].
  destruct (Z.ltb_spec x y), (Z.ltb_spec y x), (Z.ltb_spec y z), (Z.ltb_spec z y), (Z.ltb_spec x z), (Z.ltb_spec z x);
    try done; try lia. apply IH.
Qed.
Lemma chars_le_antisym a b : chars_le a b = true → chars_le b a = true → a = b.
Proof.
  revert b. induction a as [|x a IH]; intros [|y b]; try done. cbn [chars_le].
  destruct (Z.ltb_spec x y), (Z.ltb_spec y x); try done; try lia. intros H1 H2. f_equal; [lia|by apply IH].
Qed.
Definition before (a b : chars) : Prop := chars_le a b = true.
#[export] Instance before_trans : Transitive before.
Proof. intros a b c. apply chars_le_trans. Qed.
#[export] Instance before_antisym : AntiSymm (=) before.
Proof. intros a b. apply chars_le_antisym. Qed.
Lemma sort_chars_sorted l : StronglySorted before (sort_by chars_le l).
Proof. apply sort_by_sorted; [done|by intros a b; apply chars_le_total|apply _]. Qed.

Lemma dedup_cons x y l : dedup (x :: y :: l) = if str_eq x y then dedup (y :: l) else x :: dedup (y :: l).
Proof. done. Qed.
Lemma dedup_elem x l : x ∈ dedup l ↔ x ∈ l.
Proof.
  induction l as [|y l IH]; [done|]. destruct l as [|z l]; [done|].
  rewrite dedup_cons. unfold str_eq. case_bool_decide as H; [subst; rewrite IH; set_solver|]. rewrite elem_of_cons, IH. set_solver.
Qed.
Lemma dedup_sorted l : StronglySorted before l → StronglySorted before (dedup l) ∧ NoDup (dedup l).
Proof.
  induction 1 as [|x l Hl IH Hx]; [split; constructor|]. destruct l as [|y l]; [split; repeat constructor; set_solver|].
  rewrite dedup_cons. unfold str_eq. case_bool_decide as Hne; [done|]. destruct IH as [Hs Hn]. split.
  - constructor; [done|]. apply Forall_forall. intros z. rewrite dedup_elem, Forall_forall in *. apply Hx.
  - constructor; [|done]. rewrite dedup_elem. intros Hin. apply Hne. rewrite Forall_forall in Hx.
    apply chars_le_antisym; [apply Hx; by left|]. apply elem_of_cons in Hin as [->|Hin]; [by apply (Hx y); left|].
    inversion Hl as [|? ? _ Hy]; subst. rewrite Forall_forall in Hy. by apply Hy.
Qed.

Lemma sorted_impl {B} (R S : B → B → Prop) l :
  (∀ a b, a ∈ l → b ∈ l → R a b → S a b) → StronglySorted R l → StronglySorted S l.
Proof.
  intros HRS. induction 1 as [|x l Hl IH Hx]; [constructor|]. constructor.
  - apply IH. intros a b Ha Hb. apply HRS; by right.
  - rewrite Forall_forall in *. intros y Hy. apply HRS; [by left|by right|by apply Hx].
Qed.

Section Sorting.
Context {A : Type} (le : A → A → bool).
Context (le_total : ∀ a b, le a b = false → le b a = true).
Context (le_trans : ∀ a b c, le a b = true → le b c = true → le a c = true).

Lemma sort_by_le_sorted l : StronglySorted (λ a b, le a b = true) (sort_by le l).
Proof. apply sort_by_sorted; [done|done|]. intros a b c. apply le_trans. Qed.
Lemma sort_by_id l : StronglySorted (λ a b, le a b = true) l → sort_by le l = l.
Proof.
  unfold sort_by. induction 1 as [|x l Hl IH Hx]; cbn [foldr]; [done|]. rewrite IH.
  destruct l as [|y l]; [done|]. cbn [insert_sorted]. apply Forall_cons in Hx as [-> _]. done.
Qed.
Lemma filter_insert (p : A → bool) x l :
  StronglySorted (λ a b, le a b = true) l →
  List.filter p (insert_sorted le x l) = if p x then insert_sorted le x (List.filter p l) else List.filter p l.
Proof.
  induction 1 as [|y l Hl IH Hy]; cbn [insert_sorted List.filter]; [done|].
  destruct (le x y) eqn:Exy; cbn [List.filter].
  - destruct (p x); [|done]. destruct (p y); [cbn [insert_sorted]; by rewrite Exy|].
    clear IH. assert (Forall (λ z, le x z = true) (List.filter p l)) as Hf.
    { apply Forall_forall. intros z [Hz _]%list_elem_of_In%filter_In. rewrite Forall_forall in Hy.
      apply (le_trans _ y); [done|]. apply Hy. by apply list_elem_of_In. }
    destruct (List.filter p l) as [|z k]; [done|]. cbn [insert_sorted]. apply Forall_cons in Hf as [-> _]. done.
  - rewrite IH. destruct (p x), (p y); try done. cbn [insert_sorted]. by rewrite Exy.
Qed.
Lemma filter_sort (p : A → bool) l : List.filter p (sort_by le l) = sort_by le (List.filter p l).
Proof.
  unfold sort_by. induction l as [|x l IH]; cbn [foldr List.filter]; [done|].
  rewrite filter_insert by apply sort_by_le_sorted. rewrite IH. by destruct (p x).
Qed.
End Sorting.

Lemma sort_by_unique {A} (le : A → A → bool) l1 l2 :
  (∀ a b, le a b = false → le b a = true) → (∀ a b c, le a b = true → le b c = true → le a c = true) →
  (∀ a b, a ∈ l1 → b ∈ l1 → le a b = true → le b a = true → a = b) →
  l1 ≡ₚ l2 → sort_by le l1 = sort_by le l2.
Proof.
  intros Ht Htr Ha Hp.
  pose proof (sort_by_le_sorted le Ht Htr l1) as H1. pose proof (sort_by_le_sorted le Ht Htr l2) as H2.
  assert (sort_by le l1 ≡ₚ sort_by le l2) as Hps by (by rewrite !sort_by_perm).
  assert (∀ a, a ∈ sort_by le l1 → a ∈ l1) as Hin by (intros a; by rewrite sort_by_elem).
  revert H1 H2 Hps Hin. generalize (sort_by le l1) as k1, (sort_by le l2) as k2. clear Hp.
  induction k1 as [|x k1 IH]; intros k2 H1 H2 Hps Hin; [by apply Permutation_nil_l in Hps|].
  destruct k2 as [|y k2]; [by apply Permutation_nil_r in Hps|].
  inversion_clear H1 as [|? ? Hk1 Hx]. inversion_clear H2 as [|? ? Hk2 Hy].
  rewrite Forall_forall in Hx, Hy.
  assert (x = y) as ->.
  { assert (x ∈ y :: k2) as Hxi by (rewrite <-Hps; by left). assert (y ∈ x :: k1) as Hyi by (rewrite Hps; by left).
    apply elem_of_cons in Hxi as [->|Hxi]; [done|]. apply elem_of_cons in Hyi as [->|Hyi]; [done|].
    apply Ha; [apply Hin; left|apply Hin; by right|by apply Hx|by apply Hy]. }
  f_equal. apply IH; [done..|by apply Permutation_cons_inv in Hps|]. intros a Hk. apply Hin. by right.
Qed.
Lemma sort_by_fmap {A B} (f : A → B) (le : A → A → bool) (le' : B → B → bool) l :
  (∀ a b, a ∈ l → b ∈ l → le' (f a) (f b) = le a b) → sort_by le' (f <$> l) = f <$> sort_by le l.
Proof.
  unfold sort_by. intros H. induction l as [|x l IH]; [done|]. cbn [fmap list_fmap foldr]. rewrite IH by (intros a b ??; apply H; by right).
  assert (∀ k, (∀ a, a ∈ k → a ∈ x :: l) → insert_sorted le' (f x) (f <$> k) = f <$> insert_sorted le x k) as Hi.
  { induction k as [|y k IHk]; intros Hk; [done|]. cbn [fmap list_fmap insert_sorted].
    rewrite H by (try (by left); apply Hk; by left). destruct (le x y); [done|]. cbn [fmap list_fmap].
    by rewrite IHk by (intros a ?; apply Hk; by right). }
  apply Hi. intros a. rewrite elem_of_cons. change (foldr (insert_sorted le) [] l) with (sort_by le l). rewrite sort_by_elem. by right.
Qed.
Lemma list_filter_fmap {A B} (f : A → B) (p : B → bool) l : List.filter p (f <$> l) = f <$> List.filter (λ a, p (f a)) l.
Proof. induction l as [|x l IH]; [done|]. cbn [fmap list_fmap List.filter]. rewrite IH. by destruct (p (f x)). Qed.

Lemma filter_perm {A} (p : A → bool) l1 l2 : l1 ≡ₚ l2 → List.filter p l1 ≡ₚ List.filter p l2.
Proof.
  induction 1 as [|x l1 l2 _ IH|x y l|l1 l2 l3 _ IH1 _ IH2]; cbn [List.filter]; [done| | |by etrans].
  - destruct (p x); [by rewrite IH|done].
  - destruct (p x), (p y); try done. constructor.
Qed.
