(* ===== verification/Profile.v ===== *)
(** * The repository profile [crustcore.yml]

    Models the profile of [crustcore-daemon/src/product.rs]: its data and defaults, and the parser
    of the YAML subset, line by line, with its errors. The file is controlled by the repository,
    so the parser is the boundary: what it accepts is bounded and typed, and what it refuses it
    refuses at a line. *)

From S2P Require Import Prelude Text Std Chars Redactor Supervisor Strings.

Definition PROFILE_FILE : chars := lit "crustcore.yml".
Definition DEFAULT_BRANCH_PREFIX : chars := lit "crustcore".
Definition DEFAULT_BASE_BRANCH : chars := lit "main".
Definition MAX_VERIFY_COMMANDS : nat := 32.
Definition MAX_EXECUTORS : nat := 8.
Definition MAX_LABELS : nat := 32.

(** ** Scalars *)

(** Outer quotes are removed from a trimmed value of at least two bytes; a quote is one byte, so
    looking at characters and at bytes is the same. *)
Definition clean_scalar (value : chars) : chars :=
  let trimmed := trim value in
  if decide (2 ≤ byte_length trimmed)%nat then
    match head trimmed, last trimmed with
    | Some a, Some b =>
        if ((a =? 34) && (b =? 34)) || ((a =? 39) && (b =? 39)) then removelast (tail trimmed) else trimmed
    | _, _ => trimmed
    end
  else trimmed.
Definition normalize_token (value : chars) : chars :=
  replace_char 45 95 (to_ascii_lowercase (trim (clean_scalar value))).

(** ** Data *)

Inductive PolicyMode := ReadOnly | Supervised | Verified | PApproved | Release.
#[export] Instance PolicyMode_eq_dec : EqDecision PolicyMode.
Proof. solve_decision. Defined.
Definition PolicyMode_parse (value : chars) : option PolicyMode :=
  let t := normalize_token value in
  if one_of ["readonly"; "read_only"]%string t then Some ReadOnly
  else if one_of ["supervised"]%string t then Some Supervised
  else if one_of ["verified"]%string t then Some Verified
  else if one_of ["approved"]%string t then Some PApproved
  else if one_of ["release"]%string t then Some Release
  else None.
Definition RiskTier_parse (value : chars) : option RiskTier :=
  let t := normalize_token value in
  if one_of ["low"]%string t then Some RLow
  else if one_of ["standard"; "normal"]%string t then Some RStandard
  else if one_of ["high"]%string t then Some RHigh
  else if one_of ["critical"]%string t then Some RCritical
  else None.
Definition ExecutorKind_parse (value : chars) : option ExecutorKind :=
  let t := normalize_token value in
  if one_of ["native"]%string t then Some KNative
  else if one_of ["codex"]%string t then Some KCodex
  else if one_of ["claude"; "claude_code"; "claudecode"]%string t then Some KClaudeCode
  else if one_of ["local"; "local_model"]%string t then Some KLocalModel
  else if one_of ["cmd"; "external"; "external_command"]%string t then Some KExternalCommand
  else if one_of ["mcp"; "mcp_tool"]%string t then Some KMcpTool
  else None.
Definition ExecutorKind_label (k : ExecutorKind) : chars :=
  match k with
  | KNative => lit "native"
  | KCodex => lit "codex"
  | KClaudeCode => lit "claude-code"
  | KLocalModel => lit "local-model"
  | KExternalCommand => lit "external-command"
  | KMcpTool => lit "mcp-tool"
  end.

Inductive CostClass := CLocal | CStandard | CPremium.
Inductive ContextMode := Targeted | RepoScale | ProjectScale.
Inductive TrustPosture := LocalOnly | ExternalWorker | ToolGateway.
Record ExecutorCapability := mkCapability {
  cap_kind : ExecutorKind;
  cap_languages : list chars;
  cap_cost : CostClass;
  cap_context : ContextMode;
  cap_sandbox_required : bool;
  cap_trust : TrustPosture
}.
Definition for_kind (kind : ExecutorKind) : ExecutorCapability :=
  let any := [lit "any"] in
  let main := [lit "rust"; lit "typescript"; lit "python"] in
  match kind with
  | KNative => mkCapability kind any CLocal Targeted true LocalOnly
  | KCodex => mkCapability kind main CPremium RepoScale true ExternalWorker
  | KClaudeCode => mkCapability kind main CPremium ProjectScale true ExternalWorker
  | KLocalModel => mkCapability kind any CLocal Targeted true ExternalWorker
  | KExternalCommand => mkCapability kind any CStandard Targeted true ExternalWorker
  | KMcpTool => mkCapability kind any CStandard Targeted true ToolGateway
  end.

Record SupervisorBudgetProfile := mkBudgetProfile {
  sb_max_wall_ms : Z;
  sb_max_output_bytes : Z;
  sb_max_tokens : Z;
  sb_repair_attempts : Z
}.
Definition SupervisorBudgetProfile_default : SupervisorBudgetProfile :=
  mkBudgetProfile (30 * 60 * 1000) (Z.shiftl 1 20) 1000000 2.
Record GitHubProductProfile := mkGitHubProfile {
  gh_repo : option chars;
  gh_base_branch : chars;
  gh_open_draft_pr : bool;
  gh_labels : list chars
}.
Definition GitHubProductProfile_default : GitHubProductProfile :=
  mkGitHubProfile None DEFAULT_BASE_BRANCH true [lit "crustcore"; lit "needs-human-review"].
Record UiProductProfile := mkUiProfile { ui_cockpit : bool; ui_telegram : bool }.
Definition UiProductProfile_default : UiProductProfile := mkUiProfile true false.
Record RepoProfile := mkProfile {
  rp_policy_mode : PolicyMode;
  rp_risk_tier : RiskTier;
  rp_branch_prefix : chars;
  rp_verify : list chars;
  rp_executors : list ExecutorKind;
  rp_budget : SupervisorBudgetProfile;
  rp_github : GitHubProductProfile;
  rp_ui : UiProductProfile
}.
Definition RepoProfile_default : RepoProfile :=
  mkProfile Supervised RStandard DEFAULT_BRANCH_PREFIX [] [KNative] SupervisorBudgetProfile_default
    GitHubProductProfile_default UiProductProfile_default.
Definition executor_capabilities (p : RepoProfile) : list ExecutorCapability := for_kind <$> rp_executors p.

(** Field updates. *)
Definition set_policy_mode (p : RepoProfile) m :=
  mkProfile m (rp_risk_tier p) (rp_branch_prefix p) (rp_verify p) (rp_executors p) (rp_budget p) (rp_github p) (rp_ui p).
Definition set_risk_tier (p : RepoProfile) r :=
  mkProfile (rp_policy_mode p) r (rp_branch_prefix p) (rp_verify p) (rp_executors p) (rp_budget p) (rp_github p) (rp_ui p).
Definition set_branch_prefix (p : RepoProfile) b :=
  mkProfile (rp_policy_mode p) (rp_risk_tier p) b (rp_verify p) (rp_executors p) (rp_budget p) (rp_github p) (rp_ui p).
Definition set_verify (p : RepoProfile) v :=
  mkProfile (rp_policy_mode p) (rp_risk_tier p) (rp_branch_prefix p) v (rp_executors p) (rp_budget p) (rp_github p) (rp_ui p).
Definition set_executors (p : RepoProfile) e :=
  mkProfile (rp_policy_mode p) (rp_risk_tier p) (rp_branch_prefix p) (rp_verify p) e (rp_budget p) (rp_github p) (rp_ui p).
Definition set_budget (p : RepoProfile) b :=
  mkProfile (rp_policy_mode p) (rp_risk_tier p) (rp_branch_prefix p) (rp_verify p) (rp_executors p) b (rp_github p) (rp_ui p).
Definition set_github (p : RepoProfile) g :=
  mkProfile (rp_policy_mode p) (rp_risk_tier p) (rp_branch_prefix p) (rp_verify p) (rp_executors p) (rp_budget p) g (rp_ui p).
Definition set_ui (p : RepoProfile) u :=
  mkProfile (rp_policy_mode p) (rp_risk_tier p) (rp_branch_prefix p) (rp_verify p) (rp_executors p) (rp_budget p) (rp_github p) u.
Definition gh_with_repo (g : GitHubProductProfile) r := mkGitHubProfile r (gh_base_branch g) (gh_open_draft_pr g) (gh_labels g).
Definition gh_with_base (g : GitHubProductProfile) b := mkGitHubProfile (gh_repo g) b (gh_open_draft_pr g) (gh_labels g).
Definition gh_with_draft (g : GitHubProductProfile) d := mkGitHubProfile (gh_repo g) (gh_base_branch g) d (gh_labels g).
Definition gh_with_labels (g : GitHubProductProfile) l := mkGitHubProfile (gh_repo g) (gh_base_branch g) (gh_open_draft_pr g) l.
Definition set_labels (p : RepoProfile) l := set_github p (gh_with_labels (rp_github p) l).

(** ** Errors *)

Record ProfileError := mkProfileError { pe_line : nat; pe_reason : chars }.
Abbreviation P := (result ProfileError).
Definition fail {A} (line : nat) (reason : chars) : P A := Err (mkProfileError line reason).
Definition quoted (msg : string) (v : chars) : chars := lit msg ++ lit " '" ++ v ++ lit "'".
(** [ProfileError]'s [Display]. *)
Definition profile_error_display (e : ProfileError) : chars :=
  PROFILE_FILE ++ lit ":" ++ dec_u (Z.of_nat (pe_line e)) ++ lit ": " ++ pe_reason e.

(** ** The pieces of the parser *)

Inductive Section_ := SecTop | SecVerify | SecExecutors | SecBudget | SecGithub | SecUi | SecLabels.
#[export] Instance Section_eq_dec : EqDecision Section_.
Proof. solve_decision. Defined.
Definition Section_parse (value : chars) : option Section_ :=
  let t := normalize_token value in
  if one_of ["verify"]%string t then Some SecVerify
  else if one_of ["executors"]%string t then Some SecExecutors
  else if one_of ["budget"; "budgets"]%string t then Some SecBudget
  else if one_of ["github"]%string t then Some SecGithub
  else if one_of ["ui"]%string t then Some SecUi
  else if one_of ["labels"]%string t then Some SecLabels
  else None.

Definition split_key_value (line : chars) (line_no : nat) : P (chars * chars) :=
  match split_once 58 line with
  | None => fail line_no (lit "expected key: value")
  | Some (key, value) =>
      let key := trim key in
      if str_eq key [] then fail line_no (lit "empty key") else Ok (key, trim value)
  end.
Definition split_csv (value : chars) : list chars :=
  filter (λ s, s ≠ []) (trim <$> split_on 44 value).
Definition parse_executor (value : chars) (line : nat) : P ExecutorKind :=
  ok_or (ExecutorKind_parse value) (mkProfileError line (quoted "unknown executor" value)).
Definition parse_u64 (value : chars) (line : nat) (key : chars) : P Z :=
  ok_or (parse_uint u64_MAX (clean_scalar value))
    (mkProfileError line (key ++ lit " must be an unsigned integer")).
Definition parse_bool (value : chars) (line : nat) (key : chars) : P bool :=
  let t := normalize_token value in
  if one_of ["true"; "yes"; "on"]%string t then Ok true
  else if one_of ["false"; "no"; "off"]%string t then Ok false
  else fail line (key ++ lit " must be true/false").
Definition too_many (max : nat) : chars :=
  lit "too many list entries (max " ++ dec_u (Z.of_nat max) ++ lit ")".
Definition push_nonempty (vec : list chars) (value : chars) (line max : nat) : P (list chars) :=
  if decide (max ≤ length vec)%nat then fail line (too_many max)
  else
    let cleaned := clean_scalar value in
    if str_eq cleaned [] then fail line (lit "list value cannot be empty")
    else Ok (vec ++ [cleaned]).
Definition ensure_capacity {A} (vec : list A) (line max : nat) : P unit :=
  if decide (max ≤ length vec)%nat then fail line (too_many max) else Ok tt.
Definition push_executor (vec : list ExecutorKind) (value : chars) (line : nat) : P (list ExecutorKind) :=
  _ ← ensure_capacity vec line MAX_EXECUTORS;
  k ← parse_executor value line;
  Ok (vec ++ [k]).

(** [for item in items { push(&mut vec, item)? }]. *)
Fixpoint push_all {A} (push : list A → chars → P (list A)) (vec : list A) (items : list chars) : P (list A) :=
  match items with
  | [] => Ok vec
  | item :: items' => vec ← push vec item; push_all push vec items'
  end.

Definition apply_top_scalar (out : RepoProfile) (key value : chars) (line : nat) : P RepoProfile :=
  let k := normalize_token key in
  if one_of ["policy_mode"; "policy"]%string k then
    m ← ok_or (PolicyMode_parse value) (mkProfileError line (quoted "unknown policy_mode" value));
    Ok (set_policy_mode out m)
  else if one_of ["risk_tier"; "risk"]%string k then
    r ← ok_or (RiskTier_parse value) (mkProfileError line (quoted "unknown risk_tier" value));
    Ok (set_risk_tier out r)
  else if one_of ["branch_prefix"]%string k then
    if str_eq (clean_scalar value) [] then fail line (lit "branch_prefix cannot be empty")
    else Ok (set_branch_prefix out (clean_scalar value))
  else if one_of ["verify"]%string k then
    v ← push_all (λ vec item, push_nonempty vec item line MAX_VERIFY_COMMANDS) [] (split_csv value);
    Ok (set_verify out v)
  else if one_of ["executors"]%string k then
    e ← push_all (λ vec item, push_executor vec item line) [] (split_csv value);
    Ok (set_executors out e)
  else if one_of ["labels"]%string k then
    l ← push_all (λ vec item, push_nonempty vec item line MAX_LABELS) [] (split_csv value);
    Ok (set_labels out l)
  else if one_of ["repo"]%string k then
    Ok (set_github out (gh_with_repo (rp_github out) (Some (clean_scalar value))))
  else if one_of ["base_branch"]%string k then
    Ok (set_github out (gh_with_base (rp_github out) (clean_scalar value)))
  else fail line (quoted "unknown key" k).

Definition apply_budget_scalar (out : RepoProfile) (key value : chars) (line : nat) : P RepoProfile :=
  let k := normalize_token key in
  let b := rp_budget out in
  if one_of ["max_wall_ms"]%string k then
    v ← parse_u64 value line key;
    Ok (set_budget out (mkBudgetProfile v (sb_max_output_bytes b) (sb_max_tokens b) (sb_repair_attempts b)))
  else if one_of ["max_output_bytes"]%string k then
    v ← parse_u64 value line key;
    Ok (set_budget out (mkBudgetProfile (sb_max_wall_ms b) v (sb_max_tokens b) (sb_repair_attempts b)))
  else if one_of ["max_tokens"]%string k then
    v ← parse_u64 value line key;
    Ok (set_budget out (mkBudgetProfile (sb_max_wall_ms b) (sb_max_output_bytes b) v (sb_repair_attempts b)))
  else if one_of ["repair_attempts"]%string k then
    v ← parse_u64 value line key;
    if v <=? u8_MAX then
      Ok (set_budget out (mkBudgetProfile (sb_max_wall_ms b) (sb_max_output_bytes b) (sb_max_tokens b) v))
    else fail line (lit "repair_attempts must fit in u8")
  else fail line (quoted "unknown budget key" k).
Definition apply_github_scalar (out : RepoProfile) (key value : chars) (line : nat) : P RepoProfile :=
  let k := normalize_token key in
  let g := rp_github out in
  if one_of ["repo"]%string k then Ok (set_github out (gh_with_repo g (Some (clean_scalar value))))
  else if one_of ["base_branch"]%string k then Ok (set_github out (gh_with_base g (clean_scalar value)))
  else if one_of ["open_draft_pr"]%string k then
    b ← parse_bool value line key; Ok (set_github out (gh_with_draft g b))
  else if one_of ["labels"]%string k then
    l ← push_all (λ vec item, push_nonempty vec item line MAX_LABELS) [] (split_csv value);
    Ok (set_labels out l)
  else fail line (quoted "unknown github key" k).
Definition apply_ui_scalar (out : RepoProfile) (key value : chars) (line : nat) : P RepoProfile :=
  let k := normalize_token key in
  if one_of ["cockpit"]%string k then
    b ← parse_bool value line key; Ok (set_ui out (mkUiProfile b (ui_telegram (rp_ui out))))
  else if one_of ["telegram"]%string k then
    b ← parse_bool value line key; Ok (set_ui out (mkUiProfile (ui_cockpit (rp_ui out)) b))
  else fail line (quoted "unknown ui key" k).

Definition apply_section_scalar (out : RepoProfile) (section : Section_) (key value : chars) (line : nat)
  : P RepoProfile :=
  match section with
  | SecBudget => apply_budget_scalar out key value line
  | SecGithub => apply_github_scalar out key value line
  | SecUi => apply_ui_scalar out key value line
  | SecVerify => v ← push_nonempty (rp_verify out) value line MAX_VERIFY_COMMANDS; Ok (set_verify out v)
  | SecExecutors => e ← push_executor (rp_executors out) value line; Ok (set_executors out e)
  | SecLabels => l ← push_nonempty (gh_labels (rp_github out)) value line MAX_LABELS; Ok (set_labels out l)
  | SecTop => apply_top_scalar out key value line
  end.

Definition apply_list_item (out : RepoProfile) (section : Section_) (item : chars) (line : nat) : P RepoProfile :=
  match section with
  | SecVerify => v ← push_nonempty (rp_verify out) item line MAX_VERIFY_COMMANDS; Ok (set_verify out v)
  | SecExecutors => e ← push_executor (rp_executors out) item line; Ok (set_executors out e)
  | SecLabels => l ← push_nonempty (gh_labels (rp_github out)) item line MAX_LABELS; Ok (set_labels out l)
  | _ => fail line (lit "list item is not inside verify/executors/labels")
  end.

(** ** The parser *)

(** The body of the loop over the lines: the profile and the section after one line. *)
Definition parse_line (st : RepoProfile * Section_) (line_no : nat) (raw : chars)
  : P (RepoProfile * Section_) :=
  let '(out, section) := st in
  let without_comment := match split_once 35 raw with Some (before, _) => before | None => raw end in
  if str_eq (trim without_comment) [] then Ok st
  else
    let indented := starts_with [32] without_comment || starts_with [9] without_comment in
    let line := trim without_comment in
    match strip_prefix (lit "- ") line with
    | Some item => out ← apply_list_item out section item line_no; Ok (out, section)
    | None =>
        '(key, value) ← split_key_value line line_no;
        if str_eq value [] then
          section ← ok_or (Section_parse key) (mkProfileError line_no (quoted "unknown section" key));
          let out := if decide (section = SecLabels) then set_labels out [] else out in
          let out := if decide (section = SecExecutors) then set_executors out [] else out in
          Ok (out, section)
        else if indented then
          out ← apply_section_scalar out section key value line_no; Ok (out, section)
        else
          out ← apply_top_scalar out key value line_no; Ok (out, SecTop)
    end.
Fixpoint parse_lines (st : RepoProfile * Section_) (idx : nat) (ls : list chars)
  : P (RepoProfile * Section_) :=
  match ls with
  | [] => Ok st
  | raw :: ls' => st ← parse_line st (S idx) raw; parse_lines st (S idx) ls'
  end.
Definition RepoProfile_parse (input : chars) : P RepoProfile :=
  fst <$> parse_lines (RepoProfile_default, SecTop) 0 (lines input).
