(* ===== verification/ProfileTheorems.v ===== *)
(** * Properties of the repository profile

    What the parser accepts is bounded and typed, what it refuses it refuses at the first line
    that is wrong, and every bounded profile of plain values can be written and read back. *)

From S2P Require Import Prelude Text Std Chars Redactor Supervisor Strings Profile.

(** ** Typing *)

(** The bounds of an accepted profile. *)
Definition list_ok (max : nat) (l : list chars) : Prop := (length l ≤ max)%nat ∧ Forall (λ s, s ≠ []) l.
Definition budget_ok (b : SupervisorBudgetProfile) : Prop :=
  is_uint 64 (sb_max_wall_ms b) ∧ is_uint 64 (sb_max_output_bytes b) ∧ is_uint 64 (sb_max_tokens b) ∧
  is_uint 8 (sb_repair_attempts b).
Definition profile_ok (p : RepoProfile) : Prop :=
  list_ok MAX_VERIFY_COMMANDS (rp_verify p) ∧ (length (rp_executors p) ≤ MAX_EXECUTORS)%nat ∧
  list_ok MAX_LABELS (gh_labels (rp_github p)) ∧ rp_branch_prefix p ≠ [] ∧ budget_ok (rp_budget p).

(** A computation whose results satisfy [Q]. *)
Definition yields {A} (r : P A) (Q : A → Prop) : Prop := ∀ a, r = Ok a → Q a.

Lemma yields_ok {A} (a : A) (Q : A → Prop) : Q a → yields (Ok a) Q.
Proof. by intros HQ a' [= <-]. Qed.
Lemma yields_fail {A} n m (Q : A → Prop) : yields (fail n m) Q.
Proof. by intros a. Qed.
Lemma yields_bind {A B} (r : P A) (f : A → P B) (R : A → Prop) (Q : B → Prop) :
  yields r R → (∀ a, R a → yields (f a) Q) → yields (r ≫= f) Q.
Proof. intros Hr Hf b Hb. destruct r as [a|e]; [|done]. by apply (Hf a (Hr a eq_refl)). Qed.
Lemma yields_any {A} (r : P A) : yields r (λ _, True).
Proof. done. Qed.
Lemma yields_ok_or {A} (o : option A) e : yields (ok_or o e) (λ a, o = Some a).
Proof. destruct o; intros a' H; by simplify_eq/=. Qed.
#[local] Hint Resolve yields_ok yields_fail yields_any : crust.

Lemma yields_push_nonempty max vec v n :
  list_ok max vec → yields (push_nonempty vec v n max) (list_ok max).
Proof.
  intros [Hl Hf]. unfold push_nonempty, str_eq. case_decide; [apply yields_fail|].
  case_bool_decide; [apply yields_fail|]. apply yields_ok. split.
  - rewrite length_app. simpl. lia.
  - apply Forall_app. split; [done|]. by apply Forall_singleton.
Qed.
Lemma yields_push_executor vec v n :
  yields (push_executor vec v n) (λ e, (length e ≤ MAX_EXECUTORS)%nat).
Proof.
  unfold push_executor, ensure_capacity. case_decide; [by intros a|].
  apply (yields_bind _ _ (λ _, True)); [done|]. intros _ _.
  apply (yields_bind _ _ (λ _, True)); [done|]. intros k _. apply yields_ok. rewrite length_app. simpl. lia.
Qed.
Lemma yields_push_all {A} (push : list A → chars → P (list A)) (Q : list A → Prop) items vec :
  (∀ v i, Q v → yields (push v i) Q) → Q vec → yields (push_all push vec items) Q.
Proof.
  intros Hp. revert vec. induction items as [|i items IH]; intros vec HQ; [by apply yields_ok|].
  apply (yields_bind _ _ Q); [by apply Hp|]. intros v' Hv'. by apply IH.
Qed.
Lemma list_ok_nil max : list_ok max [].
Proof. split; [simpl; lia|constructor]. Qed.

Lemma yields_texts max items n :
  yields (push_all (λ vec item, push_nonempty vec item n max) [] items) (list_ok max).
Proof. apply yields_push_all; [|apply list_ok_nil]. intros. by apply yields_push_nonempty. Qed.
Lemma yields_executors items n :
  yields (push_all (λ vec item, push_executor vec item n) [] items) (λ e, (length e ≤ MAX_EXECUTORS)%nat).
Proof. apply yields_push_all; [|simpl; lia]. intros. apply yields_push_executor. Qed.

Lemma yields_parse_u64 v n k : yields (parse_u64 v n k) (is_uint 64).
Proof.
  intros z Hz%yields_ok_or%parse_uint_range. unfold is_uint. unfold u64_MAX in Hz. lia.
Qed.

(** Each operation of the parser keeps a profile within its bounds. *)
Ltac profile_split := repeat (case_bool_decide || destruct (one_of _ _)).

Lemma top_scalar_ok out k v n : profile_ok out → yields (apply_top_scalar out k v n) profile_ok.
Proof.
  intros (Hv & He & Hl & Hb & Hg). unfold apply_top_scalar, str_eq.
  destruct (one_of _ _); [apply (yields_bind _ _ (λ _, True)); [done|]; intros; by apply yields_ok|].
  destruct (one_of _ _); [apply (yields_bind _ _ (λ _, True)); [done|]; intros; by apply yields_ok|].
  destruct (one_of _ _); [case_bool_decide; [apply yields_fail|by apply yields_ok]|].
  destruct (one_of _ _); [eapply yields_bind; [apply yields_texts|]; intros; by apply yields_ok|].
  destruct (one_of _ _); [eapply yields_bind; [apply yields_executors|]; intros; by apply yields_ok|].
  destruct (one_of _ _); [eapply yields_bind; [apply yields_texts|]; intros; by apply yields_ok|].
  destruct (one_of _ _); [by apply yields_ok|].
  destruct (one_of _ _); [by apply yields_ok|apply yields_fail].
Qed.

Lemma budget_scalar_ok out k v n : profile_ok out → yields (apply_budget_scalar out k v n) profile_ok.
Proof.
  intros (Hv & He & Hl & Hb & (Hw & Ho & Ht & Hr)). unfold apply_budget_scalar.
  destruct (one_of _ _); [eapply yields_bind; [apply yields_parse_u64|]; intros; by apply yields_ok|].
  destruct (one_of _ _); [eapply yields_bind; [apply yields_parse_u64|]; intros; by apply yields_ok|].
  destruct (one_of _ _); [eapply yields_bind; [apply yields_parse_u64|]; intros; by apply yields_ok|].
  destruct (one_of _ _); [|apply yields_fail].
  eapply yields_bind; [apply yields_parse_u64|]. intros a Ha. destruct (Z.leb_spec a u8_MAX); [|apply yields_fail].
  apply yields_ok. do 4 (split; [done|]). do 3 (split; [done|]). unfold is_uint, u8_MAX in *. simpl. lia.
Qed.

Lemma section_scalar_ok out s k v n : profile_ok out → yields (apply_section_scalar out s k v n) profile_ok.
Proof.
  intros Hp. pose proof Hp as (Hv & He & Hl & Hb & Hg). destruct s; cbn [apply_section_scalar].
  - by apply top_scalar_ok.
  - eapply yields_bind; [by apply yields_push_nonempty|]. intros; by apply yields_ok.
  - eapply yields_bind; [apply yields_push_executor|]. intros; by apply yields_ok.
  - by apply budget_scalar_ok.
  - unfold apply_github_scalar. destruct (one_of _ _); [by apply yields_ok|].
    destruct (one_of _ _); [by apply yields_ok|].
    destruct (one_of _ _); [apply (yields_bind _ _ (λ _, True)); [done|]; intros; by apply yields_ok|].
    destruct (one_of _ _); [|apply yields_fail].
    eapply yields_bind; [apply yields_texts|]. intros; by apply yields_ok.
  - unfold apply_ui_scalar.
    destruct (one_of _ _); [apply (yields_bind _ _ (λ _, True)); [done|]; intros; by apply yields_ok|].
    destruct (one_of _ _); [|apply yields_fail].
    apply (yields_bind _ _ (λ _, True)); [done|]; intros; by apply yields_ok.
  - eapply yields_bind; [by apply yields_push_nonempty|]. intros; by apply yields_ok.
Qed.

Lemma list_item_ok out s i n : profile_ok out → yields (apply_list_item out s i n) profile_ok.
Proof.
  intros (Hv & He & Hl & Hb & Hg). destruct s; cbn [apply_list_item]; try apply yields_fail.
  - eapply yields_bind; [by apply yields_push_nonempty|]. intros; by apply yields_ok.
  - eapply yields_bind; [apply yields_push_executor|]. intros; by apply yields_ok.
  - eapply yields_bind; [by apply yields_push_nonempty|]. intros; by apply yields_ok.
Qed.

Lemma parse_line_ok st n raw : profile_ok st.1 → yields (parse_line st n raw) (λ st', profile_ok st'.1).
Proof.
  destruct st as [out section]. intros Hp. simpl in Hp. unfold parse_line.
  destruct (str_eq _ []); [by apply yields_ok|]. destruct (strip_prefix _ _) as [item|].
  { eapply yields_bind; [by apply list_item_ok|]. intros; by apply yields_ok. }
  apply (yields_bind _ _ (λ _, True)); [done|]. intros [key value] _.
  destruct (str_eq _ []).
  - apply (yields_bind _ _ (λ _, True)); [done|]. intros s _. apply yields_ok. simpl.
    destruct Hp as (Hv & He & Hl & Hb & Hg). do 2 case_decide; simplify_eq;
      (split; [done|]; split; [try done; simpl; lia|]; split; [try done; apply list_ok_nil|done]).
  - destruct (_ || _).
    + eapply yields_bind; [by apply section_scalar_ok|]. intros; by apply yields_ok.
    + eapply yields_bind; [by apply top_scalar_ok|]. intros; by apply yields_ok.
Qed.

Lemma parse_lines_ok ls st i : profile_ok st.1 → yields (parse_lines st i ls) (λ st', profile_ok st'.1).
Proof.
  revert st i. induction ls as [|raw ls IH]; intros st i Hp; [by apply yields_ok|].
  eapply yields_bind; [by apply parse_line_ok|]. intros st' Hp'. by apply IH.
Qed.

Lemma default_profile_ok : profile_ok RepoProfile_default.
Proof. unfold profile_ok, list_ok, budget_ok, is_uint. vm_compute. repeat (constructor || intros ?); congruence || lia. Qed.

(** C40: Whatever a repository writes into its profile, an accepted profile is typed and bounded:
    at most [MAX_VERIFY_COMMANDS] verify commands and [MAX_LABELS] labels, none empty, at most
    [MAX_EXECUTORS] executors, a branch prefix that is not empty, and budget figures that fit
    their machine integers. *)
Theorem profile_typed input p : RepoProfile_parse input = Ok p → profile_ok p.
Proof.
  unfold RepoProfile_parse. destruct (parse_lines _ _ _) as [st|e] eqn:E; [|done]. intros [= <-].
  eapply parse_lines_ok; [|exact E]. apply default_profile_ok.
Qed.

(** ** Errors *)

Definition start : RepoProfile * Section_ := (RepoProfile_default, SecTop).

Lemma parse_lines_app st i a b :
  parse_lines st i (a ++ b) = parse_lines st i a ≫= λ st', parse_lines st' (i + length a) b.
Proof.
  revert st i. induction a as [|raw a IH]; intros st i; cbn [parse_lines app length].
  { by rewrite Nat.add_0_r. }
  destruct (parse_line st (S i) raw) as [st'|e]; [|done]. cbn. rewrite IH.
  by replace (i + S (length a))%nat with (S i + length a)%nat by lia.
Qed.

(** The errors of the pieces carry the line they are given. *)
Lemma bind_err {A B} (r : P A) (f : A → P B) e :
  r ≫= f = Err e → r = Err e ∨ ∃ a, r = Ok a ∧ f a = Err e.
Proof. destruct r; naive_solver. Qed.

Lemma parse_lines_err ls st i e :
  parse_lines st i ls = Err e →
  ∃ k raw st', ls !! k = Some raw ∧ parse_lines st i (take k ls) = Ok st' ∧
               parse_line st' (S (i + k)) raw = Err e.
Proof.
  revert st i. induction ls as [|raw ls IH]; intros st i H; [done|]. cbn [parse_lines] in H.
  apply bind_err in H as [H|(st' & Hl & H)].
  - exists 0%nat, raw, st. by rewrite Nat.add_0_r.
  - apply IH in H as (k & raw' & st'' & Hk & Hp & He). exists (S k), raw', st''.
    split; [done|]. cbn [take parse_lines]. rewrite Hl. split; [done|].
    by replace (i + S k)%nat with (S i + k)%nat by lia.
Qed.

Definition at_line {A} (n : nat) (r : P A) : Prop := ∀ e, r = Err e → pe_line e = n.
Lemma at_line_ok {A} n (a : A) : at_line n (Ok a).
Proof. by intros e. Qed.
Lemma at_line_fail {A} n m : at_line n (fail n m : P A).
Proof. by intros e [= <-]. Qed.
Lemma at_line_ok_or {A} n (o : option A) m : at_line n (ok_or o (mkProfileError n m)).
Proof. destruct o; [apply at_line_ok|apply at_line_fail]. Qed.
Lemma at_line_bind {A B} n (r : P A) (f : A → P B) :
  at_line n r → (∀ a, at_line n (f a)) → at_line n (r ≫= f).
Proof. intros Hr Hf e [H|(a & _ & H)]%bind_err; [by apply Hr|by apply (Hf a)]. Qed.
Lemma at_line_push_all {A} n (push : list A → chars → P (list A)) items vec :
  (∀ v i, at_line n (push v i)) → at_line n (push_all push vec items).
Proof.
  intros Hp. revert vec. induction items as [|i items IH]; intros vec; [apply at_line_ok|].
  by apply at_line_bind.
Qed.
Create HintDb at_line.
#[local] Hint Resolve at_line_ok at_line_fail at_line_ok_or at_line_push_all : at_line.
#[local] Hint Extern 1 (at_line _ (mbind _ _)) => apply at_line_bind : at_line.

Lemma at_line_parse_line st n raw : at_line n (parse_line st n raw).
Proof.
  assert (∀ vec v max, at_line n (push_nonempty vec v n max)) as Hn.
  { intros. unfold push_nonempty. case_decide; [apply at_line_fail|]. destruct (str_eq _ _); auto with at_line. }
  assert (∀ vec v, at_line n (push_executor vec v n)) as He.
  { intros. unfold push_executor, ensure_capacity. apply at_line_bind; [case_decide; auto with at_line|].
    intros _. apply at_line_bind; [apply at_line_ok_or|auto with at_line]. }
  assert (∀ v k, at_line n (parse_u64 v n k)) as Hu by (intros; apply at_line_ok_or).
  assert (∀ v k, at_line n (parse_bool v n k)) as Hb.
  { intros. unfold parse_bool. repeat destruct (one_of _ _); auto with at_line. }
  assert (∀ out k v, at_line n (apply_top_scalar out k v n)) as Ht.
  { intros. unfold apply_top_scalar. repeat destruct (one_of _ _); try destruct (str_eq _ _);
      auto 8 with at_line. }
  destruct st as [out section]. unfold parse_line. destruct (str_eq _ []); [apply at_line_ok|].
  destruct (strip_prefix _ _) as [item|].
  { apply at_line_bind; [|auto with at_line]. destruct section; simpl; auto with at_line. }
  apply at_line_bind.
  { unfold split_key_value. destruct (split_once _ _) as [[? ?]|]; [|auto with at_line].
    destruct (str_eq _ _); auto with at_line. }
  intros [key value]. destruct (str_eq _ []); [auto with at_line|].
  destruct (_ || _); [|auto with at_line]. apply at_line_bind; [|auto with at_line].
  destruct section; simpl; auto with at_line;
    unfold apply_budget_scalar, apply_github_scalar, apply_ui_scalar;
    repeat destruct (one_of _ _); auto 8 with at_line.
  apply at_line_bind; [done|]. intros a. destruct (a <=? u8_MAX); auto with at_line.
Qed.

(** A refusal is located and the first one: the reported line exists, the lines before it
    parse, and the error is the one that line gives after them; an accepted file is one whose
    every prefix of lines parses. *)
Theorem profile_error_located input :
  match RepoProfile_parse input with
  | Ok p => ∀ k, ∃ st, parse_lines start 0 (take k (lines input)) = Ok st
  | Err e => ∃ raw st, (1 ≤ pe_line e)%nat ∧ lines input !! (pe_line e - 1)%nat = Some raw ∧
      parse_lines start 0 (take (pe_line e - 1) (lines input)) = Ok st ∧
      parse_line st (pe_line e) raw = Err e
  end.
Proof.
  unfold RepoProfile_parse. fold start. destruct (parse_lines start 0 (lines input)) as [st|e] eqn:E; simpl.
  - intros k. rewrite <-(take_drop k (lines input)), parse_lines_app in E.
    destruct (parse_lines start 0 (take k (lines input))) as [st'|e]; [by exists st'|done].
  - apply parse_lines_err in E as (k & raw & st & Hk & Hp & He).
    pose proof (at_line_parse_line st (S (0 + k)) raw e He) as Hl. rewrite Hl.
    exists raw, st. replace (S (0 + k) - 1)%nat with k by lia. split; [lia|done].
Qed.

(** ** Writing a profile and reading it back *)

Definition mode_token (m : PolicyMode) : chars :=
  match m with
  | ReadOnly => lit "read_only" | Supervised => lit "supervised" | Verified => lit "verified"
  | PApproved => lit "approved" | Release => lit "release"
  end.
Definition risk_token (r : RiskTier) : chars :=
  match r with
  | RLow => lit "low" | RStandard => lit "standard" | RHigh => lit "high" | RCritical => lit "critical"
  end.
Definition bool_token (b : bool) : chars := if b then lit "true" else lit "false".

(** One scalar line, one list line, and the lines of a profile in the order of its sections. *)
Definition scalar_line (indent : chars) (key : string) (value : chars) : chars :=
  indent ++ lit key ++ lit ": " ++ value.
Definition item_line (value : chars) : chars := lit "  - " ++ value.
Definition section_line (key : string) : chars := lit key ++ lit ":".
Definition two : chars := [32; 32].
Definition profile_lines (p : RepoProfile) : list chars :=
  [scalar_line [] "policy_mode" (mode_token (rp_policy_mode p));
   scalar_line [] "risk_tier" (risk_token (rp_risk_tier p));
   scalar_line [] "branch_prefix" (rp_branch_prefix p)] ++
  [section_line "verify"] ++ (item_line <$> rp_verify p) ++
  [section_line "executors"] ++ (item_line ∘ ExecutorKind_label <$> rp_executors p) ++
  [section_line "labels"] ++ (item_line <$> gh_labels (rp_github p)) ++
  [section_line "budget";
   scalar_line two "max_wall_ms" (dec_u (sb_max_wall_ms (rp_budget p)));
   scalar_line two "max_output_bytes" (dec_u (sb_max_output_bytes (rp_budget p)));
   scalar_line two "max_tokens" (dec_u (sb_max_tokens (rp_budget p)));
   scalar_line two "repair_attempts" (dec_u (sb_repair_attempts (rp_budget p)));
   section_line "github"] ++
  (match gh_repo (rp_github p) with Some r => [scalar_line two "repo" r] | None => [] end) ++
  [scalar_line two "base_branch" (gh_base_branch (rp_github p));
   scalar_line two "open_draft_pr" (bool_token (gh_open_draft_pr (rp_github p)));
   section_line "ui";
   scalar_line two "cockpit" (bool_token (ui_cockpit (rp_ui p)));
   scalar_line two "telegram" (bool_token (ui_telegram (rp_ui p)))].
Definition write_profile (p : RepoProfile) : chars := join_with 10 (profile_lines p).

(** Text a line can carry as it is: not empty, no comment sign or line feed, no outer white space
    or quotes. *)
Definition plain (s : chars) : Prop :=
  s ≠ [] ∧ (35 ∉ s) ∧ (10 ∉ s) ∧ clean_scalar s = s ∧
  (∀ c, head s = Some c → is_whitespace c = false) ∧ (∀ c, last s = Some c → is_whitespace c = false).
Definition writable (p : RepoProfile) : Prop :=
  profile_ok p ∧ plain (rp_branch_prefix p) ∧ Forall plain (rp_verify p) ∧
  Forall plain (gh_labels (rp_github p)) ∧ plain (gh_base_branch (rp_github p)) ∧
  (∀ r, gh_repo (rp_github p) = Some r → plain r).

Lemma str_eq_ne a b : a ≠ b → str_eq a b = false.
Proof. intros. by apply bool_decide_eq_false_2. Qed.
Lemma split_once_none sep s : sep ∉ s → split_once sep s = None.
Proof.
  induction s as [|c s IH]; [done|]. rewrite not_elem_of_cons. intros [Hc Hs]. cbn [split_once].
  rewrite (proj2 (Z.eqb_neq c sep)) by congruence. by rewrite IH.
Qed.
Lemma trim_plain s : plain s → trim s = s.
Proof. intros (_ & _ & _ & _ & Hh & Hl). by apply trim_clean. Qed.

(** Blanks before a text that starts and ends with none are trimmed. *)
Lemma trim_blanks b s :
  forallb is_whitespace b = true → s ≠ [] →
  (∀ c, head s = Some c → is_whitespace c = false) → (∀ c, last s = Some c → is_whitespace c = false) →
  trim (b ++ s) = s.
Proof.
  intros Hb Hs Hh Hl. unfold trim. assert (trim_start (b ++ s) = s) as ->.
  { induction b as [|c b IH]; simpl app.
    - destruct s as [|c s]; [done|]. cbn [trim_start]. by rewrite (Hh c).
    - apply andb_true_iff in Hb as [Hc Hb]. cbn [trim_start]. rewrite Hc. by apply IH. }
  rewrite <-(trim_clean s) at 2 by done. unfold trim. f_equal.
  destruct s as [|c s]; [done|]. cbn [trim_start]. by rewrite (Hh c).
Qed.

(** A line of a key known to be plain and of a plain value splits into both. *)
Definition key_ok (k : string) : bool :=
  forallb (λ c, in_range 95 122 c) (lit k) && negb (bool_decide (lit k = [])).

Lemma key_ok_spec k :
  key_ok k = true → lit k ≠ [] ∧ (∀ c, c ∈ lit k → 95 ≤ c ≤ 122) ∧ trim (lit k) = lit k.
Proof.
  unfold key_ok. intros [Hf Hn]%andb_true_iff. rewrite forallb_forall in Hf.
  assert (∀ c, c ∈ lit k → 95 ≤ c ≤ 122) as Hr.
  { intros c Hc%list_elem_of_In. specialize (Hf c Hc). unfold in_range in Hf.
    apply andb_true_iff in Hf. lia. }
  apply negb_true_iff, bool_decide_eq_false in Hn. split; [done|]. split; [done|].
  assert (∀ c, 95 ≤ c ≤ 122 → is_whitespace c = false) as Hw.
  { intros c Hc. unfold is_whitespace, in_range. repeat (apply orb_false_iff; split);
      try (apply andb_false_iff); lia. }
  apply trim_clean; intros c Hc; apply Hw, Hr.
  - destruct (lit k); simplify_eq/=. left.
  - apply last_Some in Hc as [l' ->]. set_solver.
Qed.

Lemma key_elem k c : key_ok k = true → c ∈ lit k → 95 ≤ c ≤ 122.
Proof. intros (_ & H & _)%key_ok_spec. apply H. Qed.

Lemma last_app_ne {A} (a b : list A) : b ≠ [] → last (a ++ b) = last b.
Proof. intros Hb. induction a as [|x a IH]; [done|]. simpl app. rewrite last_cons, IH.
  destruct (last b) eqn:E; [done|]. by apply last_None in E. Qed.

Lemma dash_not_key k v : key_ok k = true → strip_prefix (lit "- ") (lit k ++ v) = None.
Proof.
  intros Hk. pose proof (key_ok_spec k Hk) as (Hn & Hr & _). change (lit "- ") with [45; 32].
  destruct (lit k) as [|c l]; [done|]. assert (95 ≤ c ≤ 122) by (apply Hr; left).
  cbn [app strip_prefix]. by rewrite (proj2 (Z.eqb_neq 45 c)) by lia.
Qed.

Lemma parse_scalar_line out s n indent k v :
  forallb (λ c, c =? 32) indent = true → key_ok k = true → plain v →
  parse_line (out, s) n (scalar_line indent k v) =
    if bool_decide (indent = []) then out ← apply_top_scalar out (lit k) v n; Ok (out, SecTop)
    else out ← apply_section_scalar out s (lit k) v n; Ok (out, s).
Proof.
  intros Hi Hk Hv. pose proof Hv as (Hne & H35 & H10 & Hc & Hh & Hl).
  pose proof (key_ok_spec k Hk) as (Hkn & Hkr & Hkt).
  assert (∀ c, c ∈ indent → c = 32) as Hi'.
  { intros c Hin. rewrite forallb_forall in Hi. apply list_elem_of_In, Hi in Hin. lia. }
  set (body := lit k ++ lit ": " ++ v).
  assert (last body = last v) as Hlast.
  { unfold body. rewrite app_assoc. by apply last_app_ne. }
  assert (trim (indent ++ body) = body) as Htrim.
  { apply trim_blanks.
    - apply forallb_forall. intros c Hc'%list_elem_of_In. by rewrite (Hi' c Hc').
    - unfold body. by destruct (lit k).
    - intros c Hc'. unfold body in Hc'. destruct (lit k) as [|c' l] eqn:E; [done|]. simpl in Hc'. simplify_eq.
      assert (95 ≤ c ≤ 122) by (apply Hkr; left). unfold is_whitespace, in_range.
      repeat (apply orb_false_iff; split); try (apply andb_false_iff); lia.
    - intros c. rewrite Hlast. apply Hl. }
  assert (split_once 35 (indent ++ body) = None) as H35'.
  { apply split_once_none. unfold body. rewrite !elem_of_app. intros [Hin|[Hin|[Hin|Hin]]]; [| |simpl in Hin; set_solver|done].
    - by apply Hi' in Hin.
    - apply Hkr in Hin. lia. }
  unfold parse_line, scalar_line. fold body. rewrite H35', Htrim.
  rewrite (str_eq_ne body []) by (unfold body; by destruct (lit k)).
  rewrite (dash_not_key k (lit ": " ++ v) Hk : strip_prefix _ body = None).
  unfold split_key_value. assert (split_once 58 body = Some (lit k, 32 :: v)) as ->.
  { unfold body. change (lit ": " ++ v) with (58 :: 32 :: v). apply split_once_app.
    intros Hin. apply Hkr in Hin. lia. }
  rewrite Hkt. rewrite (str_eq_ne (lit k) []) by done. cbn [mbind result_bind].
  rewrite (trim_blanks [32] v : _ → _ → _ → _ → trim (32 :: v) = v) by done. rewrite (str_eq_ne v []) by done.
  assert (starts_with [32] (indent ++ body) || starts_with [9] (indent ++ body)
          = negb (bool_decide (indent = []))) as ->; [|by destruct (bool_decide _)].
  destruct indent as [|c indent]; simpl app.
  - unfold body. destruct (lit k) as [|c l] eqn:E; [done|]. assert (95 ≤ c ≤ 122) by (apply Hkr; left).
    unfold starts_with. cbn [app strip_prefix]. rewrite !(proj2 (Z.eqb_neq _ c)) by lia. done.
  - rewrite (Hi' c) by left. unfold starts_with. cbn [strip_prefix]. done.
Qed.

Lemma parse_section_line st n k sec :
  key_ok k = true → Section_parse (lit k) = Some sec →
  parse_line st n (section_line k) =
    Ok (let out := if decide (sec = SecLabels) then set_labels st.1 [] else st.1 in
        if decide (sec = SecExecutors) then set_executors out [] else out, sec).
Proof.
  intros Hk Hs. destruct st as [out s]. pose proof (key_ok_spec k Hk) as (Hkn & Hkr & Hkt).
  unfold parse_line, section_line. rewrite split_once_none.
  2:{ rewrite elem_of_app. intros [Hin|Hin]; [apply Hkr in Hin; lia|simpl in Hin; set_solver]. }
  assert (trim (lit k ++ lit ":") = lit k ++ lit ":") as ->.
  { apply trim_clean.
    - intros c Hc. destruct (lit k) as [|c' l] eqn:E; [done|]. simpl in Hc. simplify_eq.
      assert (95 ≤ c ≤ 122) by (apply Hkr; left). unfold is_whitespace, in_range.
      repeat (apply orb_false_iff; split); try (apply andb_false_iff); lia.
    - intros c. change (lit ":") with [58]. rewrite last_snoc. by intros [= <-]. }
  rewrite (str_eq_ne (lit k ++ lit ":") []) by (by destruct (lit k)).
  rewrite (dash_not_key k _ Hk). unfold split_key_value.
  change (lit ":") with [58]. rewrite (split_once_app 58 (lit k) []).
  2:{ intros Hin. apply Hkr in Hin. lia. }
  rewrite Hkt. rewrite (str_eq_ne (lit k) []) by done. cbn [mbind result_bind].
  change (trim []) with (@nil Z). unfold str_eq. rewrite bool_decide_eq_true_2 by done. by rewrite Hs.
Qed.

Lemma parse_item_line out s n v :
  plain v → parse_line (out, s) n (item_line v) = out ← apply_list_item out s v n; Ok (out, s).
Proof.
  intros Hv. pose proof Hv as (Hne & H35 & H10 & Hc & Hh & Hl). unfold parse_line, item_line.
  rewrite split_once_none.
  2:{ rewrite elem_of_app. intros [Hin|Hin]; [simpl in Hin; set_solver|done]. }
  assert (trim (lit "  - " ++ v) = lit "- " ++ v) as ->.
  { change (lit "  - " ++ v) with ([32; 32] ++ (lit "- " ++ v)). apply trim_blanks; [done|done|by intros c [= <-]|].
    intros c. rewrite last_app_ne by done. apply Hl. }
  done.
Qed.

(** [ls] takes the parser from [st] to [st'], wherever it stands. *)
Definition runs (st : RepoProfile * Section_) (ls : list chars) (st' : RepoProfile * Section_) : Prop :=
  ∀ i, parse_lines st i ls = Ok st'.

Lemma runs_app st1 st2 st3 a b : runs st1 a st2 → runs st2 b st3 → runs st1 (a ++ b) st3.
Proof. intros Ha Hb i. rewrite parse_lines_app, Ha. cbn. apply Hb. Qed.
Lemma runs_cons st1 st2 st3 raw b :
  (∀ n, parse_line st1 n raw = Ok st2) → runs st2 b st3 → runs st1 (raw :: b) st3.
Proof. intros Ha Hb i. cbn [parse_lines]. rewrite Ha. cbn. apply Hb. Qed.
Lemma runs_one st1 st2 st3 raw b : runs st1 [raw] st2 → runs st2 b st3 → runs st1 (raw :: b) st3.
Proof. apply (runs_app st1 st2 st3 [raw] b). Qed.
Lemma runs_nil st : runs st [] st.
Proof. by intros i. Qed.

Lemma runs_items {A} (show : A → chars) (f : list A → RepoProfile) s max l pre :
  (∀ pre x n, (length pre < max)%nat → x ∈ l →
     apply_list_item (f pre) s (show x) n = Ok (f (pre ++ [x]))) →
  Forall (plain ∘ show) l → (length pre + length l ≤ max)%nat →
  runs (f pre, s) (item_line ∘ show <$> l) (f (pre ++ l), s).
Proof.
  revert pre. induction l as [|x l IH]; intros pre Hf Hl Hm; [rewrite app_nil_r; apply runs_nil|].
  apply Forall_cons in Hl as [Hx Hl]. simpl in Hm.
  apply (runs_cons _ (f (pre ++ [x]), s)).
  - intros n. change ((item_line ∘ show) x) with (item_line (show x)).
    rewrite parse_item_line by done. rewrite Hf; [done|lia|left].
  - replace (pre ++ x :: l) with ((pre ++ [x]) ++ l) by (by rewrite <-app_assoc).
    apply IH; [|done|rewrite length_app; simpl; lia]. intros. apply Hf; [done|by right].
Qed.

Lemma plain_ascii s : forallb (λ c, in_range 45 122 c) s = true → s ≠ [] → plain s.
Proof.
  intros Hf Hs. rewrite forallb_forall in Hf.
  assert (∀ c, c ∈ s → 45 ≤ c ≤ 122) as Hr.
  { intros c Hc%list_elem_of_In. specialize (Hf c Hc). unfold in_range in Hf. apply andb_true_iff in Hf. lia. }
  assert (∀ c, 45 ≤ c ≤ 122 → is_whitespace c = false) as Hw.
  { intros c Hc. unfold is_whitespace, in_range. repeat (apply orb_false_iff; split);
      try (apply andb_false_iff); lia. }
  assert (∀ c, head s = Some c → c ∈ s) as Hh by (destruct s; [done|]; intros c [= <-]; left).
  assert (∀ c, last s = Some c → c ∈ s) as Hl.
  { intros c [l' ->]%last_Some. set_solver. }
  assert (trim s = s) as Ht by (apply trim_clean; intros; apply Hw, Hr; auto).
  split; [done|]. split; [intros Hin; apply Hr in Hin; lia|]. split; [intros Hin; apply Hr in Hin; lia|].
  split; [|split; intros c Hc; apply Hw, Hr; auto].
  unfold clean_scalar. rewrite Ht. case_decide; [|done].
  destruct (head s) as [a|] eqn:E; [|done]. destruct (last s) as [b|]; [|done].
  assert (45 ≤ a ≤ 122) by auto. by rewrite !(proj2 (Z.eqb_neq a _)) by lia.
Qed.

Lemma dec_u_plain n : 0 ≤ n → plain (dec_u n).
Proof.
  intros Hn. apply plain_ascii; [|apply dec_u_nonempty]. apply forallb_forall.
  intros c Hc%list_elem_of_In. apply dec_u_digits in Hc; [|done]. unfold in_range. apply andb_true_iff. lia.
Qed.
Lemma bool_token_plain b : plain (bool_token b).
Proof. by destruct b; apply plain_ascii. Qed.

Lemma parse_u64_dec n line k : is_uint 64 n → parse_u64 (dec_u n) line k = Ok n.
Proof.
  intros Hn. unfold parse_u64, is_uint in *. destruct (dec_u_plain n) as (_ & _ & _ & -> & _); [lia|].
  by rewrite parse_uint_dec_u by (unfold u64_MAX; lia).
Qed.
Lemma parse_bool_token b line k : parse_bool (bool_token b) line k = Ok b.
Proof. by destruct b. Qed.

Lemma push_plain max vec v n : (length vec < max)%nat → plain v → push_nonempty vec v n max = Ok (vec ++ [v]).
Proof.
  intros Hl (Hne & _ & _ & Hc & _). unfold push_nonempty. rewrite decide_False by lia.
  by rewrite Hc, str_eq_ne.
Qed.
Lemma label_parse k : ExecutorKind_parse (ExecutorKind_label k) = Some k.
Proof. by destruct k. Qed.
Lemma label_plain k : plain (ExecutorKind_label k).
Proof. by destruct k; apply plain_ascii. Qed.

(** Lines of indented scalars in the sections that have keys. *)
Ltac scalar_step :=
  eapply runs_cons;
    [intros ?; rewrite parse_scalar_line by (reflexivity || assumption || auto using dec_u_plain, bool_token_plain);
     cbn [bool_decide decide]; reflexivity|].

Lemma runs_head p :
  plain (rp_branch_prefix p) →
  runs start
    [scalar_line [] "policy_mode" (mode_token (rp_policy_mode p));
     scalar_line [] "risk_tier" (risk_token (rp_risk_tier p));
     scalar_line [] "branch_prefix" (rp_branch_prefix p)]
    (set_branch_prefix (set_risk_tier (set_policy_mode RepoProfile_default (rp_policy_mode p))
        (rp_risk_tier p)) (rp_branch_prefix p), SecTop).
Proof.
  intros Hp. pose proof Hp as (Hne & _ & _ & Hc & _). unfold start.
  apply (runs_cons _ (set_policy_mode RepoProfile_default (rp_policy_mode p), SecTop)).
  { intros n. rewrite parse_scalar_line; [|done|done|by destruct (rp_policy_mode p); apply plain_ascii].
    by destruct (rp_policy_mode p). }
  apply (runs_cons _ (set_risk_tier (set_policy_mode RepoProfile_default (rp_policy_mode p)) (rp_risk_tier p), SecTop)).
  { intros n. rewrite parse_scalar_line; [|done|done|by destruct (rp_risk_tier p); apply plain_ascii].
    by destruct (rp_risk_tier p). }
  eapply runs_cons; [|apply runs_nil]. intros n. rewrite parse_scalar_line by done. cbn [bool_decide].
  rewrite bool_decide_eq_true_2 by done.
  change (apply_top_scalar ?o (lit "branch_prefix") ?v n) with
    (if str_eq (clean_scalar v) [] then fail n (lit "branch_prefix cannot be empty") else Ok (set_branch_prefix o (clean_scalar v))).
  by rewrite Hc, str_eq_ne.
Qed.

Lemma runs_section st k sec :
  key_ok k = true → Section_parse (lit k) = Some sec →
  runs st [section_line k]
    (let out := if decide (sec = SecLabels) then set_labels st.1 [] else st.1 in
     if decide (sec = SecExecutors) then set_executors out [] else out, sec).
Proof. intros Hk Hs. eapply runs_cons; [|apply runs_nil]. intros n. by apply parse_section_line. Qed.

(** The three list sections. *)
Lemma runs_verify out s l :
  rp_verify out = [] → Forall plain l → (length l ≤ MAX_VERIFY_COMMANDS)%nat →
  runs (out, s) ([section_line "verify"] ++ (item_line <$> l)) (set_verify out l, SecVerify).
Proof.
  intros Ho Hl Hm. eapply runs_app; [by apply (runs_section _ _ SecVerify)|].
  replace ((_, _) : RepoProfile * Section_) with (set_verify out [], SecVerify)
    by (destruct out; simpl in *; by subst).
  apply (runs_items id (set_verify out) SecVerify MAX_VERIFY_COMMANDS l []); [|done|done].
  intros pre x n Hpre Hx. cbn [apply_list_item]. rewrite push_plain; [done|done|].
  by eapply Forall_forall in Hl.
Qed.
Lemma runs_executors out s l :
  (length l ≤ MAX_EXECUTORS)%nat →
  runs (out, s) ([section_line "executors"] ++ (item_line ∘ ExecutorKind_label <$> l))
    (set_executors out l, SecExecutors).
Proof.
  intros Hm. eapply runs_app; [by apply (runs_section _ _ SecExecutors)|].
  apply (runs_items ExecutorKind_label (set_executors out) SecExecutors MAX_EXECUTORS l []); [| |done].
  - intros pre x n Hpre Hx. cbn [apply_list_item]. unfold push_executor, ensure_capacity, parse_executor.
    rewrite label_parse. simpl. by rewrite decide_False by lia.
  - apply Forall_forall. intros k _. apply label_plain.
Qed.
Lemma runs_labels out s l :
  Forall plain l → (length l ≤ MAX_LABELS)%nat →
  runs (out, s) ([section_line "labels"] ++ (item_line <$> l)) (set_labels out l, SecLabels).
Proof.
  intros Hl Hm. eapply runs_app; [by apply (runs_section _ _ SecLabels)|].
  apply (runs_items id (set_labels out) SecLabels MAX_LABELS l []); [|done|done].
  intros pre x n Hpre Hx. cbn [apply_list_item]. simpl gh_labels. rewrite push_plain; [done|done|].
  by eapply Forall_forall in Hl.
Qed.

(** The sections of scalars. *)
Lemma runs_scalar out out' s k v :
  key_ok k = true → plain v → (∀ n, apply_section_scalar out s (lit k) v n = Ok out') →
  runs (out, s) [scalar_line two k v] (out', s).
Proof.
  intros Hk Hv Ha. eapply runs_cons; [|apply runs_nil]. intros n.
  rewrite parse_scalar_line by done. rewrite bool_decide_eq_false_2 by done. by rewrite Ha.
Qed.

Lemma runs_budget out s b :
  budget_ok b →
  runs (out, s)
    [section_line "budget";
     scalar_line two "max_wall_ms" (dec_u (sb_max_wall_ms b));
     scalar_line two "max_output_bytes" (dec_u (sb_max_output_bytes b));
     scalar_line two "max_tokens" (dec_u (sb_max_tokens b));
     scalar_line two "repair_attempts" (dec_u (sb_repair_attempts b))]
    (set_budget out b, SecBudget).
Proof.
  intros (Hw & Ho & Ht & Hr). assert (∀ w n, is_uint w n → plain (dec_u n)) as Hpl.
  { intros w n [Hn _]. by apply dec_u_plain. }
  eapply runs_one; [by apply (runs_section _ _ SecBudget)|]. simpl.
  set (b0 := rp_budget out).
  eapply runs_one; [apply (runs_scalar _ (set_budget out (mkBudgetProfile (sb_max_wall_ms b) (sb_max_output_bytes b0) (sb_max_tokens b0) (sb_repair_attempts b0))));
    [done|eauto|]; intros n; simpl; unfold apply_budget_scalar; simpl; by rewrite parse_u64_dec|].
  eapply runs_one; [apply (runs_scalar _ (set_budget out (mkBudgetProfile (sb_max_wall_ms b) (sb_max_output_bytes b) (sb_max_tokens b0) (sb_repair_attempts b0))));
    [done|eauto|]; intros n; simpl; unfold apply_budget_scalar; simpl; by rewrite parse_u64_dec|].
  eapply runs_one; [apply (runs_scalar _ (set_budget out (mkBudgetProfile (sb_max_wall_ms b) (sb_max_output_bytes b) (sb_max_tokens b) (sb_repair_attempts b0))));
    [done|eauto|]; intros n; simpl; unfold apply_budget_scalar; simpl; by rewrite parse_u64_dec|].
  apply runs_scalar; [done|eauto|]. intros n. simpl. unfold apply_budget_scalar. simpl.
  rewrite parse_u64_dec by (unfold is_uint in *; lia). simpl.
  rewrite (proj2 (Z.leb_le _ u8_MAX)) by (unfold is_uint, u8_MAX in *; lia). by destruct b.
Qed.

Lemma runs_github out s g :
  plain (gh_base_branch g) → (∀ r, gh_repo g = Some r → plain r) → gh_repo (rp_github out) = None →
  gh_labels (rp_github out) = gh_labels g →
  runs (out, s)
    ([section_line "github"] ++
     (match gh_repo g with Some r => [scalar_line two "repo" r] | None => [] end) ++
     [scalar_line two "base_branch" (gh_base_branch g);
      scalar_line two "open_draft_pr" (bool_token (gh_open_draft_pr g))])
    (set_github out g, SecGithub).
Proof.
  intros Hb Hr Hn Hl. eapply runs_app; [by apply (runs_section _ _ SecGithub)|]. simpl.
  set (g0 := rp_github out) in *.
  apply (runs_app _ (set_github out (gh_with_repo g0 (gh_repo g)), SecGithub)).
  { destruct (gh_repo g) as [r|].
    - apply runs_scalar; [done|by apply Hr|]. intros n. destruct (Hr r eq_refl) as (_ & _ & _ & Hc & _).
      simpl. unfold apply_github_scalar. simpl. by rewrite Hc.
    - replace (set_github out (gh_with_repo g0 None)) with out; [apply runs_nil|].
      destruct out as [? ? ? ? ? ? [] ?]; simpl in *. by subst. }
  apply (runs_one _ (set_github out (gh_with_base (gh_with_repo g0 (gh_repo g)) (gh_base_branch g)), SecGithub)).
  { apply runs_scalar; [done|done|]. intros n. destruct Hb as (_ & _ & _ & Hc & _).
    simpl. unfold apply_github_scalar. simpl. by rewrite Hc. }
  apply runs_scalar; [done|apply bool_token_plain|]. intros n. simpl. unfold apply_github_scalar. simpl.
  rewrite parse_bool_token. simpl. destruct g; simpl in *. unfold gh_with_draft. simpl. by rewrite Hl.
Qed.

Lemma runs_ui out s u :
  runs (out, s)
    [section_line "ui"; scalar_line two "cockpit" (bool_token (ui_cockpit u));
     scalar_line two "telegram" (bool_token (ui_telegram u))] (set_ui out u, SecUi).
Proof.
  eapply runs_one; [by apply (runs_section _ _ SecUi)|]. simpl.
  apply (runs_one _ (set_ui out (mkUiProfile (ui_cockpit u) (ui_telegram (rp_ui out))), SecUi)).
  { apply runs_scalar; [done|apply bool_token_plain|]. intros n. simpl. unfold apply_ui_scalar. simpl.
    by rewrite parse_bool_token. }
  apply runs_scalar; [done|apply bool_token_plain|]. intros n. simpl. unfold apply_ui_scalar. simpl.
  rewrite parse_bool_token. by destruct u.
Qed.

Lemma runs_profile p : writable p → runs start (profile_lines p) (p, SecUi).
Proof.
  intros (((Hvl & _) & Hel & (Hll & _) & _ & Hbud) & Hb & Hv & Hl & Hbase & Hrepo). unfold profile_lines.
  eapply runs_app; [by apply runs_head|].
  rewrite (app_assoc [section_line "verify"]). eapply runs_app; [by apply runs_verify|].
  rewrite (app_assoc [section_line "executors"]). eapply runs_app; [by apply runs_executors|].
  rewrite (app_assoc [section_line "labels"]). eapply runs_app; [by apply runs_labels|].
  match goal with |- runs _ ([?a; ?b; ?c; ?d; ?e; ?f] ++ ?r ++ [?g; ?h; ?i; ?j; ?k]) _ =>
    change ([a; b; c; d; e; f] ++ r ++ [g; h; i; j; k]) with ([a; b; c; d; e] ++ [f] ++ r ++ ([g; h] ++ [i; j; k])) end.
  eapply runs_app; [by apply runs_budget|].
  rewrite (app_assoc _ [_; _]), (app_assoc [section_line "github"]).
  eapply runs_app; [by apply runs_github|].
  destruct p. apply runs_ui.
Qed.

(** Lines joined by line feeds are those lines. *)
Definition line_ok (l : chars) : Prop := l ≠ [] ∧ (10 ∉ l) ∧ last l ≠ Some 13.

Lemma lines_of_ok ls : Forall line_ok ls → lines_of ls = ls.
Proof.
  induction 1 as [|l ls (Hn & _ & H13) _ IH]; [done|]. cbn [lines_of].
  destruct ls as [|l' ls]; [by destruct l|]. rewrite IH. f_equal. unfold strip_cr.
  destruct (last l) as [c|]; [|done]. destruct c; try done. do 4 (destruct p; try done).
Qed.
Lemma lines_join ls : Forall line_ok ls → ls ≠ [] → lines (join_with 10 ls) = ls.
Proof.
  intros Hl Hne. unfold lines. rewrite split_join; [by apply lines_of_ok|done|].
  eapply Forall_impl; [exact Hl|]. by intros l (_ & H & _).
Qed.

Lemma plain_last v : plain v → last v ≠ Some 13.
Proof. intros (_ & _ & _ & _ & _ & Hl) H. by specialize (Hl 13 H). Qed.
Lemma scalar_line_ok indent k v :
  forallb (λ c, c =? 32) indent = true → key_ok k = true → plain v → line_ok (scalar_line indent k v).
Proof.
  intros Hi Hk Hv. pose proof (key_ok_spec k Hk) as (Hkn & Hkr & _). pose proof Hv as (Hne & _ & H10 & _).
  unfold scalar_line. split; [|split].
  - destruct indent, (lit k); done.
  - rewrite !elem_of_app. intros [Hin|[Hin|[Hin|Hin]]]; [| |simpl in Hin; set_solver|done].
    + rewrite forallb_forall in Hi. by apply list_elem_of_In, Hi in Hin.
    + apply Hkr in Hin. lia.
  - rewrite !app_assoc, last_app_ne by done. by apply plain_last.
Qed.
Lemma item_line_ok v : plain v → line_ok (item_line v).
Proof.
  intros Hv. pose proof Hv as (Hne & _ & H10 & _). unfold item_line. split; [done|]. split.
  - rewrite elem_of_app. intros [Hin|Hin]; [simpl in Hin; set_solver|done].
  - rewrite last_app_ne by done. by apply plain_last.
Qed.
Lemma section_line_ok k : key_ok k = true → line_ok (section_line k).
Proof.
  intros Hk. pose proof (key_ok_spec k Hk) as (Hkn & Hkr & _). unfold section_line. split; [by destruct (lit k)|].
  split; [|by rewrite last_app_ne].
  rewrite elem_of_app. intros [Hin|Hin]; [apply Hkr in Hin; lia|simpl in Hin; set_solver].
Qed.

Lemma profile_lines_ok p : writable p → Forall line_ok (profile_lines p).
Proof.
  intros ((_ & _ & _ & _ & (Hw & Ho & Ht & Hr)) & Hb & Hv & Hl & Hbase & Hrepo).
  assert (∀ w n, is_uint w n → plain (dec_u n)) as Hpl by (intros w n [Hn _]; by apply dec_u_plain).
  assert (plain (mode_token (rp_policy_mode p))) by (by destruct (rp_policy_mode p); apply plain_ascii).
  assert (plain (risk_token (rp_risk_tier p))) by (by destruct (rp_risk_tier p); apply plain_ascii).
  assert (∀ l, Forall plain l → Forall line_ok (item_line <$> l)) as Hit.
  { intros l Hp. apply Forall_fmap. eapply Forall_impl; [exact Hp|]. apply item_line_ok. }
  assert (Forall line_ok (item_line ∘ ExecutorKind_label <$> rp_executors p)).
  { apply Forall_fmap, Forall_forall. intros k _. apply item_line_ok, label_plain. }
  assert (Forall line_ok (match gh_repo (rp_github p) with Some r => [scalar_line two "repo" r] | None => [] end)).
  { destruct (gh_repo (rp_github p)); [|done]. apply Forall_singleton. apply scalar_line_ok; auto. }
  unfold profile_lines. rewrite !Forall_app, !Forall_cons.
  repeat split; auto; try apply section_line_ok; try apply scalar_line_ok; eauto using bool_token_plain.
Qed.

(** Every profile within the bounds whose texts are plain can be written: the text of its
    lines, in the order of the sections, parses to exactly that profile. *)
Theorem profile_roundtrip p : writable p → RepoProfile_parse (write_profile p) = Ok p.
Proof.
  intros Hp. unfold RepoProfile_parse, write_profile. rewrite lines_join; [|by apply profile_lines_ok|done].
  pose proof (runs_profile p Hp 0%nat) as Hr. unfold start in Hr. by rewrite Hr.
Qed.

(** ** Examples *)

Definition demo_profile : RepoProfile :=
  mkProfile Verified RHigh (lit "bot/x") [lit "cargo test -p a:b"; lit "make 'x'"]
    [KClaudeCode; KMcpTool; KNative] (mkBudgetProfile u64_MAX 0 10 255)
    (mkGitHubProfile (Some (lit "o/r")) (lit "dev") false []) (mkUiProfile false true).
Lemma plain_compute s :
  bool_decide (s ≠ []) && bool_decide (35 ∉ s) && bool_decide (10 ∉ s) && bool_decide (clean_scalar s = s)
  && match head s with Some c => negb (is_whitespace c) | None => true end
  && match last s with Some c => negb (is_whitespace c) | None => true end = true → plain s.
Proof.
  rewrite !andb_true_iff, !bool_decide_eq_true. intros (((((H1 & H2) & H3) & H4) & H5) & H6).
  do 4 (split; [done|]). split; intros c Hc; [rewrite Hc in H5|rewrite Hc in H6]; by apply negb_true_iff.
Qed.
Lemma demo_profile_writable : writable demo_profile.
Proof.
  split.
  - unfold profile_ok, list_ok, budget_ok, is_uint. vm_compute. repeat (constructor || intros ?); congruence || lia.
  - split; [by apply plain_compute|]. split; [repeat constructor; by apply plain_compute|].
    split; [constructor|]. split; [by apply plain_compute|]. intros r [= <-]. by apply plain_compute.
Qed.
Lemma profile_roundtrip_witness :
  writable demo_profile ∧ RepoProfile_parse (write_profile demo_profile) = Ok demo_profile.
Proof. split; [apply demo_profile_writable|]. apply (profile_roundtrip demo_profile demo_profile_writable). Defined.
Lemma profile_typed_witness :
  RepoProfile_parse (lit "risk: high") = Ok (set_risk_tier RepoProfile_default RHigh) ∧
  profile_ok (set_risk_tier RepoProfile_default RHigh).
Proof. split; [reflexivity|]. apply (profile_typed (lit "risk: high")). reflexivity. Defined.

(** The keys of the list sections are not checked: under [labels:] the indented line
    [base_branch: dev] adds the label [dev] and leaves the base branch as it was, and under
    [verify:] the line [tiemout: 30] adds the command [30]. *)
Theorem profile_list_sections_swallow_keys :
  RepoProfile_parse (join_with 10 [lit "github:"; lit "  labels:"; lit "    - a"; lit "  base_branch: dev"])
    = Ok (set_labels RepoProfile_default [lit "a"; lit "dev"]) ∧
  RepoProfile_parse (join_with 10 [lit "verify:"; lit "  tiemout: 30"])
    = Ok (set_verify RepoProfile_default [lit "30"]).
Proof. split; reflexivity. Qed.
