(* ===== verification/Planner.v ===== *)
(** * The verification planner

    Models the planner of [crustcore-daemon/src/product.rs]: the signals read off repository
    paths, the shape of a task from the paths it changes, the verifier plan with its gates,
    commands, warnings and strength, and the test graph. Paths come from the repository and from
    the model, so what the planner turns into a command line is the concern here. *)

From S2P Require Import Prelude Text Std Chars Redactor Supervisor Strings Profile.

(** [bound]: at most [max] bytes of whole characters and, when cut, an ellipsis. *)
Definition bound (s : chars) (max : nat) : chars :=
  if decide (byte_length s ≤ max)%nat then s else take_bytes max s ++ lit "...".

(** [s.contains(p)]. *)
Definition has (s : chars) (p : string) : bool := contains s (lit p).
Definition has_any (s : chars) (ps : list string) : bool := existsb (has s) ps.

(** ** Paths *)

Definition normalize_command (value : chars) : chars := to_ascii_lowercase (trim (clean_scalar value)).
Definition normalize_path (value : chars) : chars :=
  bound (trim_dot_slash (replace_char 92 47 (trim (clean_scalar value)))) 512.

Definition safe_segment_char (c : Z) : bool :=
  is_ascii_alphanumeric c || (c =? 46) || (c =? 45) || (c =? 95).
Definition bad_segment (segment : chars) : bool :=
  str_eq segment [] || str_eq segment (lit ".") || str_eq segment (lit "..")
  || starts_with [45] segment || negb (forallb safe_segment_char segment).
Definition safe_command_path (path : chars) : option chars :=
  if str_eq path [] || starts_with [47] path || starts_with [45] path || has path "//"
     || existsb bad_segment (split_on 47 path)
  then None else Some path.
Definition safe_crates_package_name (path : chars) : option chars :=
  match split_on 47 path with
  | first :: package :: _ =>
      if negb (str_eq first (lit "crates")) then None
      else if str_eq package [] || starts_with [45] package
              || negb (forallb (λ c, is_ascii_alphanumeric c || (c =? 45) || (c =? 95)) package)
      then None else Some package
  | _ => None
  end.

Definition is_rust_changed_path (path file : chars) : bool :=
  ends_with (lit ".rs") file || str_eq path (lit "Cargo.toml") || str_eq file (lit "Cargo.toml").
Definition is_python_test_path (path file : chars) : bool :=
  ends_with (lit ".py") file &&
  (starts_with (lit "tests/") path || starts_with (lit "test_") file || ends_with (lit "_test.py") file).
Definition is_javascript_test_path (file : chars) : bool :=
  existsb (λ s, ends_with (lit s) file)
    [".test.js"; ".test.jsx"; ".test.ts"; ".test.tsx"; ".spec.js"; ".spec.jsx"; ".spec.ts"; ".spec.tsx"]%string.
Definition is_python_project_marker (file : chars) : bool :=
  one_of ["pyproject.toml"; "setup.py"; "setup.cfg"; "requirements.txt"; "pytest.ini"; "tox.ini"]%string file.
Definition is_lockfile (file : chars) : bool :=
  one_of ["Cargo.lock"; "package-lock.json"; "pnpm-lock.yaml"; "yarn.lock"; "poetry.lock"; "uv.lock";
          "Pipfile.lock"]%string file.
Definition is_playwright_marker (path file : chars) : bool :=
  starts_with (lit "playwright.config.") file || starts_with (lit "tests/e2e/") path.
Definition is_cypress_marker (path file : chars) : bool :=
  starts_with (lit "cypress.config.") file || starts_with (lit "cypress/") path.
Definition is_cargo_deny_marker (path file : chars) : bool :=
  one_of ["deny.toml"; "cargo-deny.toml"]%string file || str_eq path (lit ".cargo/deny.toml").
Definition is_mdbook_marker (file : chars) : bool := str_eq file (lit "book.toml").
Definition is_markdownlint_marker (file : chars) : bool :=
  one_of [".markdownlint.json"; ".markdownlint.yaml"; ".markdownlint.yml"]%string file.
Definition is_security_sensitive_path (path : chars) : bool :=
  one_of ["CLAUDE.md"; "AGENTS.md"; "INVARIANTS.md"; "SECURITY.md"; "THREAT_MODEL.md"]%string path
  || existsb (λ p, starts_with (lit p) path)
       ["docs/policy"; "docs/secrets"; "docs/sandbox"; "docs/backend-contract"; "crates/crustcore-kernel/";
        "crates/crustcore-policy/"; "crates/crustcore-sandbox/"; "crates/crustcore-secrets/"]%string.
Definition is_workflow_path (path : chars) : bool := starts_with (lit ".github/workflows/") path.
Definition is_dependency_path (path : chars) : bool :=
  one_of ["Cargo.toml"; "Cargo.lock"; "package.json"; "package-lock.json"; "pnpm-lock.yaml"; "yarn.lock";
          "pyproject.toml"; "poetry.lock"; "uv.lock"; "requirements.txt"; "Pipfile.lock"]%string (file_name path).
Definition is_ui_path (path : chars) : bool :=
  existsb (λ p, starts_with (lit p) path) ["crates/crustcore-dev/"; "ui/"; "web/"; "frontend/"]%string
  || existsb (λ s, ends_with (lit s) (file_name path)) [".tsx"; ".jsx"; ".css"; ".scss"; ".sass"]%string.
Definition is_docs_path (path : chars) : bool :=
  starts_with (lit "docs/") path
  || one_of ["README.md"; "CHANGELOG.md"; "CONTRIBUTING.md"; "LICENSE"; "NOTICE"]%string (file_name path)
  || existsb (λ s, ends_with (lit s) (file_name path)) [".md"; ".mdx"; ".rst"; ".txt"]%string.

(** ** Signals *)

Record RepoSignals := mkSignals {
  cargo_manifest : bool;
  package_json : bool;
  python_project : bool;
  makefile : bool;
  browser_smoke_command : option chars;
  dependency_audit_command : option chars;
  docs_check_command : option chars;
  targeted_commands : list chars;
  lockfile : bool
}.
Definition RepoSignals_default : RepoSignals := mkSignals false false false false None None None [] false.

(** The body of the loop of [from_paths]; every test only ever sets. *)
Definition signal_step (s : RepoSignals) (raw_path : chars) : RepoSignals :=
  let path := normalize_path raw_path in
  if str_eq path [] then s
  else
    let file := file_name path in
    mkSignals
      (str_eq file (lit "Cargo.toml") || cargo_manifest s)
      (str_eq file (lit "package.json") || package_json s)
      (is_python_project_marker file || python_project s)
      (one_of ["Makefile"; "makefile"]%string file || makefile s)
      (if is_playwright_marker path file then Some (lit "npx playwright test")
       else if is_cypress_marker path file && bool_decide (browser_smoke_command s = None)
       then Some (lit "npx cypress run") else browser_smoke_command s)
      (if is_cargo_deny_marker path file then Some (lit "cargo deny check") else dependency_audit_command s)
      (if is_mdbook_marker file then Some (lit "mdbook test")
       else if is_markdownlint_marker file && bool_decide (docs_check_command s = None)
       then Some (lit "markdownlint .") else docs_check_command s)
      (targeted_commands s)
      (is_lockfile file || lockfile s).
Definition from_paths (paths : list chars) : RepoSignals := fold_left signal_step paths RepoSignals_default.

Definition push_unique_string (values : list chars) (value : chars) : list chars :=
  let cleaned := clean_scalar value in
  if str_eq cleaned [] || existsb (λ e, str_eq e cleaned) values then values else values ++ [cleaned].
Definition add_changed_path_targeted_command (s : RepoSignals) (commands : list chars) (raw_path : chars)
  : list chars :=
  let path := normalize_path raw_path in
  if str_eq path [] then commands
  else match safe_command_path path with
       | None => commands
       | Some safe_path =>
           let file := file_name safe_path in
           let commands :=
             if cargo_manifest s && is_rust_changed_path safe_path file then
               match safe_crates_package_name safe_path with
               | Some package => push_unique_string commands (lit "cargo test -p " ++ package)
               | None => push_unique_string commands (lit "cargo test")
               end
             else commands in
           let commands :=
             if python_project s && is_python_test_path safe_path file
             then push_unique_string commands (lit "python -m pytest " ++ safe_path) else commands in
           if package_json s && is_javascript_test_path file
           then push_unique_string commands (lit "npm test -- " ++ safe_path) else commands
       end.
Definition with_targeted (s : RepoSignals) (t : list chars) : RepoSignals :=
  mkSignals (cargo_manifest s) (package_json s) (python_project s) (makefile s) (browser_smoke_command s)
    (dependency_audit_command s) (docs_check_command s) t (lockfile s).
Definition with_changed_path_hints (s : RepoSignals) (paths : list chars) : RepoSignals :=
  let commands := fold_left (add_changed_path_targeted_command s) paths [] in
  with_targeted s (fold_left push_unique_string commands (targeted_commands s)).
Definition from_repo_and_changed_paths (repo_paths changed_paths : list chars) : RepoSignals :=
  with_changed_path_hints (from_paths repo_paths) changed_paths.
Definition signals_is_empty (s : RepoSignals) : bool :=
  negb (cargo_manifest s) && negb (package_json s) && negb (python_project s) && negb (makefile s)
  && bool_decide (browser_smoke_command s = None) && bool_decide (dependency_audit_command s = None)
  && bool_decide (docs_check_command s = None) && bool_decide (targeted_commands s = []) && negb (lockfile s).

(** ** The shape of a task *)

Record ShapeScan := mkScan { saw_path : bool; all_docs : bool; saw_dependency : bool; saw_ui : bool }.
(** The loop, and what follows it. *)
Fixpoint shape_loop (st : ShapeScan) (paths : list chars) : TaskShape :=
  match paths with
  | [] =>
      if negb (saw_path st) then SUnknown
      else if saw_dependency st then DependencyChange
      else if saw_ui st then UiChange
      else if all_docs st then DocsOnly
      else Feature
  | raw :: paths' =>
      let path := normalize_path raw in
      if str_eq path [] then shape_loop st paths'
      else if is_security_sensitive_path path then SecuritySensitive
      else if is_workflow_path path then WorkflowChange
      else shape_loop
             (mkScan true (all_docs st && is_docs_path path) (saw_dependency st || is_dependency_path path)
                (saw_ui st || is_ui_path path)) paths'
  end.
Definition from_changed_paths (paths : list chars) : TaskShape :=
  shape_loop (mkScan false true false false) paths.
Definition TaskShape_label (t : TaskShape) : chars :=
  match t with
  | SUnknown => lit "unknown"
  | BugFix => lit "bug-fix"
  | Feature => lit "feature"
  | UiChange => lit "ui-change"
  | DependencyChange => lit "dependency-change"
  | DocsOnly => lit "docs-only"
  | WorkflowChange => lit "workflow-change"
  | SecuritySensitive => lit "security-sensitive"
  end.

(** ** Gates *)

Inductive TaskGate :=
| GRegressionTest | GBrowserSmoke | GDependencySafety | GDocsCheck | GFullSuite | GWorkflowReview | GSecurityReview.
#[export] Instance TaskGate_eq_dec : EqDecision TaskGate.
Proof. solve_decision. Defined.
Definition TaskGate_label (g : TaskGate) : chars :=
  match g with
  | GRegressionTest => lit "regression-test"
  | GBrowserSmoke => lit "browser-smoke"
  | GDependencySafety => lit "dependency-safety"
  | GDocsCheck => lit "docs-check"
  | GFullSuite => lit "full-suite"
  | GWorkflowReview => lit "workflow-review"
  | GSecurityReview => lit "security-review"
  end.
Definition push_gate (gates : list TaskGate) (gate : TaskGate) : list TaskGate :=
  if decide (gate ∈ gates) then gates else gates ++ [gate].
Definition add_task_gates (task : TaskShape) (gates : list TaskGate) : list TaskGate :=
  match task with
  | BugFix => push_gate gates GRegressionTest
  | UiChange => push_gate gates GBrowserSmoke
  | DependencyChange => push_gate gates GDependencySafety
  | DocsOnly => push_gate gates GDocsCheck
  | WorkflowChange => push_gate gates GWorkflowReview
  | SecuritySensitive => push_gate gates GSecurityReview
  | Feature | SUnknown => gates
  end.
Definition gate_reason (gate : TaskGate) (task : TaskShape) (risk : RiskTier) : chars :=
  match gate with
  | GRegressionTest => lit "bug-fix tasks must prove the regression path"
  | GBrowserSmoke => lit "UI changes need browser-visible smoke coverage"
  | GDependencySafety => lit "dependency changes must cover the lockfile + a security audit"
  | GDocsCheck => lit "docs-only changes use a lighter docs/lint gate"
  | GFullSuite => lit "non-docs changes require a full-suite gate before completion"
  | GWorkflowReview => lit "workflow changes require typed approval + human review"
  | GSecurityReview =>
      if bool_decide (task = SecuritySensitive) then lit "security-sensitive paths require stronger review"
      else if risk_geb risk RHigh then lit "high risk tier requires a security review"
      else lit "security review required"
  end.

(** ** Commands *)

Inductive VerifierCommandStage := StTargeted | StFull | StReview.
#[export] Instance VerifierCommandStage_eq_dec : EqDecision VerifierCommandStage.
Proof. solve_decision. Defined.
Definition stage_label (s : VerifierCommandStage) : chars :=
  match s with StTargeted => lit "targeted" | StFull => lit "full" | StReview => lit "review" end.
Record PlannedVerifierCommand := mkCommand { pc_command : chars; pc_stage : VerifierCommandStage }.
Inductive EvidenceStrength := Weak | StandardEvidence | Strong.
#[export] Instance EvidenceStrength_eq_dec : EqDecision EvidenceStrength.
Proof. solve_decision. Defined.
Definition strength_label (s : EvidenceStrength) : chars :=
  match s with Weak => lit "weak" | StandardEvidence => lit "standard" | Strong => lit "strong" end.

Definition add_unique_command (commands : list PlannedVerifierCommand) (command : chars)
    (stage : VerifierCommandStage) : list PlannedVerifierCommand :=
  let cleaned := clean_scalar command in
  if str_eq cleaned [] || existsb (λ e, str_eq (pc_command e) cleaned) commands then commands
  else commands ++ [mkCommand cleaned stage].
Definition looks_full_command (normalized : chars) : bool :=
  has_any normalized
    ["xtask verify"; "test --workspace"; "cargo test"; "cargo nextest"; "pytest"; "npm test"; "pnpm test";
     "yarn test"; "make test"; "clippy --workspace"]%string.
Definition classify_verifier_command (command : chars) : VerifierCommandStage :=
  let normalized := normalize_command command in
  if has_any normalized ["manual review"; "manual_review"; "human review"; "human_review"]%string then StReview
  else if looks_full_command normalized then StFull else StTargeted.
Definition has_full_command (commands : list PlannedVerifierCommand) : bool :=
  existsb (λ c, bool_decide (pc_stage c = StFull)) commands.
Definition has_test_command (commands : list PlannedVerifierCommand) : bool :=
  existsb (λ c, has (normalize_command (pc_command c)) "test") commands.
Definition has_browser_command (commands : list PlannedVerifierCommand) : bool :=
  existsb (λ c, has_any (normalize_command (pc_command c)) ["playwright"; "cypress"; "browser"; "e2e"]%string) commands.
Definition has_dependency_audit (commands : list PlannedVerifierCommand) : bool :=
  existsb (λ c, has_any (normalize_command (pc_command c))
    ["audit"; "cargo_deny"; "cargo-deny"; "cargo deny"; "pip_audit"; "pip-audit"; "safety"]%string) commands.
Definition has_docs_command (commands : list PlannedVerifierCommand) : bool :=
  existsb (λ c, has_any (normalize_command (pc_command c)) ["docs"; "doc"; "md"]%string) commands.

Definition add_if (c : bool) (o : option chars) (commands : list PlannedVerifierCommand) :=
  match o with
  | Some command => if c then add_unique_command commands command StTargeted else commands
  | None => commands
  end.
Definition add_signal_commands (s : RepoSignals) (task : TaskShape) (commands : list PlannedVerifierCommand)
  : list PlannedVerifierCommand :=
  let commands := fold_left (λ cs c, add_unique_command cs c StTargeted) (targeted_commands s) commands in
  let commands := add_if (bool_decide (task = UiChange)) (browser_smoke_command s) commands in
  let commands := add_if (bool_decide (task = DependencyChange)) (dependency_audit_command s) commands in
  add_if (bool_decide (task = DocsOnly)) (docs_check_command s) commands.
Definition add_inferred_full_commands (s : RepoSignals) (commands : list PlannedVerifierCommand)
  : list PlannedVerifierCommand :=
  let add (c : bool) (t : string) cs := if c then add_unique_command cs (lit t) StFull else cs in
  add (makefile s) "make test"%string
    (add (python_project s) "python -m pytest"%string
      (add (package_json s) "npm test"%string
        (add (cargo_manifest s) "cargo test --workspace"%string commands))).

(** ** The test graph *)

Definition MAX_GATE_REASONS : nat := 16.
Definition MAX_TEST_GRAPH_ENTRIES : nat := 64.
Record TestGraphEntry := mkEntry { te_path : chars; te_affected : list chars }.
Definition TestGraph : Type := list TestGraphEntry.

Definition crate_of_path (path : chars) : option chars :=
  rest ← strip_prefix (lit "crates/") path;
  let krate := default [] (head (split_on 47 rest)) in
  if str_eq krate [] then None else Some krate.
Definition push_id (out : list chars) (s : chars) : list chars :=
  if str_eq s [] || existsb (str_eq s) out then out else out ++ [s].
Definition affected_tests_for_path (path : chars) (s : RepoSignals) : list chars :=
  let out := if is_security_sensitive_path path then push_id [] (lit "security-review") else [] in
  let file := file_name path in
  if ends_with (lit ".rs") path then
    let out := match crate_of_path path with
               | Some krate => push_id out (lit "cargo test -p " ++ krate)
               | None => out
               end in
    push_id out (if cargo_manifest s then lit "cargo test --workspace" else lit "cargo test")
  else if ends_with (lit ".ts") file || ends_with (lit ".tsx") file || ends_with (lit ".js") file then
    push_id out (lit "npm test")
  else if ends_with (lit ".py") file then push_id out (lit "python -m pytest")
  else out.
Fixpoint graph_loop (s : RepoSignals) (entries : TestGraph) (paths : list chars) : TestGraph :=
  match paths with
  | [] => entries
  | raw :: paths' =>
      if decide (MAX_TEST_GRAPH_ENTRIES ≤ length entries)%nat then entries
      else
        let path := normalize_path raw in
        if str_eq path [] || existsb (λ e, str_eq (te_path e) path) entries then graph_loop s entries paths'
        else
          let affected := affected_tests_for_path path s in
          match affected with
          | [] => graph_loop s entries paths'
          | _ => graph_loop s (entries ++ [mkEntry path affected]) paths'
          end
  end.
Definition from_signals_and_changed_paths (s : RepoSignals) (paths : list chars) : TestGraph :=
  graph_loop s [] paths.

Definition is_full_suite_id (id : chars) : bool :=
  one_of ["cargo test --workspace"; "npm test"; "python -m pytest"; "make test"; "security-review"]%string (trim id).
Definition push_bucket (b : list chars) (id : chars) : list chars :=
  if existsb (str_eq id) b then b else b ++ [id].
Definition order_step (b : list chars * list chars) (id : chars) : list chars * list chars :=
  if is_full_suite_id id then (b.1, push_bucket b.2 id) else (push_bucket b.1 id, b.2).
Definition command_order (g : TestGraph) : list chars :=
  let '(targeted, full) := fold_left order_step (g ≫= te_affected) ([], []) in
  targeted ++ filter (λ id, negb (existsb (str_eq id) targeted)) full.

(** *** Test manifests *)

Inductive ManifestKind := Pytest | Jest | CargoConfig.
Definition manifest_key (k : ManifestKind) : chars :=
  match k with Pytest => lit "markers" | Jest => lit "projects" | CargoConfig => lit "alias" end.
Definition manifest_step (key : chars) (groups : list chars) (line : chars) : list chars :=
  match strip_prefix key (trim line) with
  | None => groups
  | Some rest =>
      let value := skip_while (λ c, bool_decide (c ∈ [58; 61; 32; 91; 93; 34])) rest in
      let name := trim (take_until (λ c, bool_decide (c ∈ [58; 44; 34; 32])) value) in
      if negb (str_eq name []) && bool_decide (length groups < MAX_TEST_GRAPH_ENTRIES)%nat
      then push_unique_string groups name else groups
  end.
Definition parse_test_manifest (k : ManifestKind) (text : chars) : list chars :=
  fold_left (manifest_step (manifest_key k)) (take 1024 (lines text)) [].

(** ** The plan *)

Record VerifierPlan := mkPlan {
  vp_label : chars;
  vp_task : TaskShape;
  vp_commands : list PlannedVerifierCommand;
  vp_gates : list TaskGate;
  vp_warnings : list chars;
  vp_strength : EvidenceStrength;
  vp_gate_reasons : list (TaskGate * chars);
  vp_test_graph : TestGraph
}.

Definition W_NO_STACK : chars := lit "No repo stack or verifier command was detected; evidence is weak.".
Definition W_NO_COMMAND : chars :=
  lit "No verifier command is configured or inferred; completion cannot be evidenced.".
Definition W_NO_FULL : chars := lit "No full-suite verifier command is planned before completion.".
Definition W_NO_TEST : chars := lit "Bug fixes need regression-test evidence; no test command is planned.".
Definition W_NO_BROWSER : chars :=
  lit "UI changes need browser smoke evidence; no browser smoke command is planned.".
Definition W_NO_LOCKFILE : chars :=
  lit "Dependency changes need lockfile evidence; no lockfile signal was detected.".
Definition W_NO_AUDIT : chars :=
  lit "Dependency changes need audit/security evidence; no audit command is planned.".
Definition W_DOCS : chars :=
  lit "Docs-only changes are using general verifier evidence; docs-specific checks were not detected.".
Definition W_WORKFLOW : chars :=
  lit "Workflow changes require typed approval and human review before integration.".
Definition W_SECURITY : chars :=
  lit "Security-sensitive changes require stronger human review before integration.".

(** A warning, with whether it makes the evidence weak. *)
Definition warn (c : bool) (w : chars) (weak : bool) : list (chars * bool) := if c then [(w, weak)] else [].
(** The warnings of the plan in order. *)
Definition plan_warnings (profile : RepoProfile) (s : RepoSignals) (task : TaskShape)
    (commands : list PlannedVerifierCommand) : list (chars * bool) :=
  warn (signals_is_empty s && bool_decide (rp_verify profile = [])) W_NO_STACK true ++
  warn (bool_decide (length commands = 0%nat)) W_NO_COMMAND true ++
  warn (negb (bool_decide (task = DocsOnly)) && negb (has_full_command commands)) W_NO_FULL true ++
  match task with
  | BugFix => warn (negb (has_test_command commands)) W_NO_TEST true
  | UiChange =>
      warn (bool_decide (browser_smoke_command s = None) && negb (has_browser_command commands)) W_NO_BROWSER true
  | DependencyChange =>
      warn (negb (lockfile s)) W_NO_LOCKFILE true ++
      warn (bool_decide (dependency_audit_command s = None) && negb (has_dependency_audit commands)) W_NO_AUDIT true
  | DocsOnly =>
      warn (bool_decide (docs_check_command s = None) && negb (bool_decide (length commands = 0%nat))
            && negb (has_docs_command commands)) W_DOCS false
  | WorkflowChange => [(W_WORKFLOW, false)]
  | SecuritySensitive => [(W_SECURITY, false)]
  | Feature | SUnknown => []
  end.

Definition plan_gates (profile : RepoProfile) (task : TaskShape) : list TaskGate :=
  let gates := add_task_gates task [] in
  let gates := if risk_geb (rp_risk_tier profile) RHigh then push_gate gates GSecurityReview else gates in
  if bool_decide (task = DocsOnly) then gates else push_gate gates GFullSuite.
Definition plan_commands (profile : RepoProfile) (s : RepoSignals) (task : TaskShape)
  : list PlannedVerifierCommand :=
  let commands := add_signal_commands s task [] in
  let commands := fold_left (λ cs c, add_unique_command cs c (classify_verifier_command c)) (rp_verify profile) commands in
  if bool_decide (rp_verify profile = []) then add_inferred_full_commands s commands else commands.
Definition VerifierPlan_build (profile : RepoProfile) (s : RepoSignals) (task : TaskShape) : VerifierPlan :=
  let gates := plan_gates profile task in
  let commands := plan_commands profile s task in
  let ws := plan_warnings profile s task commands in
  let weak := existsb snd ws in
  let strength :=
    if weak then Weak
    else if bool_decide (rp_verify profile = []) || negb (bool_decide (ws.*1 = [])) then StandardEvidence
    else Strong in
  mkPlan (TaskShape_label task ++ lit " verifier plan (" ++ strength_label strength ++ lit ")")
    task commands gates ws.*1 strength
    ((λ g, (g, gate_reason g task (rp_risk_tier profile))) <$> take MAX_GATE_REASONS gates) [].

Definition plan_verification (profile : RepoProfile) (s : RepoSignals) (task : TaskShape) : VerifierPlan :=
  VerifierPlan_build profile s task.
Definition plan_verification_with_changed_paths (profile : RepoProfile) (s : RepoSignals) (task : TaskShape)
    (changed_paths : list chars) : VerifierPlan :=
  let plan := VerifierPlan_build profile s task in
  mkPlan (vp_label plan) (vp_task plan) (vp_commands plan) (vp_gates plan) (vp_warnings plan) (vp_strength plan)
    (vp_gate_reasons plan) (from_signals_and_changed_paths s changed_paths).
Definition command_lines (p : VerifierPlan) : list chars := pc_command <$> vp_commands p.
Definition reason_for (p : VerifierPlan) (gate : TaskGate) : option chars :=
  snd <$> find (λ gr, bool_decide (gr.1 = gate)) (vp_gate_reasons p).
