(* ===== verification/PlannerTheorems.v ===== *)
(** * Properties of the verification planner

    Hints made of hostile paths are safe command lines, the strength of a plan says what it
    claims, the shape of a task does not hide what it touches, and the test graph orders what it
    is given. *)

From S2P Require Import Prelude Text Std Chars Redactor Supervisor Strings Profile Planner.

(** ** Targeted commands *)

(** A package name and a relative path that are safe to put on a command line. *)
Definition package_safe (p : chars) : Prop :=
  p ≠ [] ∧ starts_with [45] p = false ∧ Forall (λ c, is_ascii_alphanumeric c || (c =? 45) || (c =? 95) = true) p.
Definition segment_safe (s : chars) : Prop :=
  s ≠ [] ∧ s ≠ lit "." ∧ s ≠ lit ".." ∧ starts_with [45] s = false ∧ Forall (λ c, safe_segment_char c = true) s.
Definition path_safe (p : chars) : Prop := Forall segment_safe (split_on 47 p).
Definition hint_safe (c : chars) : Prop :=
  c = lit "cargo test" ∨
  (∃ p, package_safe p ∧ c = lit "cargo test -p " ++ p) ∨
  (∃ p, path_safe p ∧ (c = lit "python -m pytest " ++ p ∨ c = lit "npm test -- " ++ p)).
(** The characters such a command can have: none that a shell reads as anything but text. *)
Definition inert_char (c : Z) : bool :=
  is_ascii_alphanumeric c || (c =? 46) || (c =? 45) || (c =? 95) || (c =? 47) || (c =? 32).

Lemma str_eq_true a b : str_eq a b = true ↔ a = b.
Proof. apply bool_decide_eq_true. Qed.
Lemma str_eq_false a b : str_eq a b = false ↔ a ≠ b.
Proof. apply bool_decide_eq_false. Qed.

Lemma safe_command_path_safe path p : safe_command_path path = Some p → p = path ∧ path_safe p.
Proof.
  unfold safe_command_path. destruct (_ || _) eqn:E; [done|]. intros [= <-]. split; [done|].
  apply orb_false_iff in E as [_ E]. apply Forall_forall. intros seg Hseg.
  assert (bad_segment seg = false) as Hb.
  { apply not_true_is_false. intros Hb. apply not_true_iff_false in E. apply E.
    apply existsb_exists. exists seg. split; [by apply list_elem_of_In|done]. }
  unfold bad_segment in Hb. rewrite !orb_false_iff, !str_eq_false, negb_false_iff in Hb.
  destruct Hb as ((((H1 & H2) & H3) & H4) & H5). do 4 (split; [done|]).
  apply Forall_forall. intros c Hc. rewrite forallb_forall in H5. by apply H5, list_elem_of_In.
Qed.

Lemma safe_package path p : safe_crates_package_name path = Some p → package_safe p.
Proof.
  unfold safe_crates_package_name. destruct (split_on 47 path) as [|f [|q ?]]; [done|done|].
  destruct (negb _); [done|]. destruct (_ || _) eqn:E; [done|]. intros [= <-].
  rewrite !orb_false_iff, str_eq_false, negb_false_iff in E. destruct E as ((H1 & H2) & H3).
  do 2 (split; [done|]). apply Forall_forall. intros c Hc. rewrite forallb_forall in H3.
  by apply H3, list_elem_of_In.
Qed.

(** Inert text is not white space at its ends and has no quotes. *)
Lemma inert_word c : inert_char c = true → c ≠ 32 → is_whitespace c = false ∧ c ≠ 34 ∧ c ≠ 39.
Proof.
  unfold inert_char, is_ascii_alphanumeric, is_whitespace, in_range.
  rewrite !orb_true_iff, !andb_true_iff, !orb_false_iff, !andb_false_iff. intros H Hc. lia.
Qed.

Lemma path_chars p c : path_safe p → c ∈ p → inert_char c = true ∧ c ≠ 32.
Proof.
  intros Hp Hc. rewrite <-(split_on_join 47 p) in Hc. unfold path_safe in Hp.
  induction Hp as [|s ss Hs Hss IH]; [by apply not_elem_of_nil in Hc|].
  assert (∀ x, x ∈ s → inert_char x = true ∧ x ≠ 32) as Hseg.
  { intros x Hx. destruct Hs as (_ & _ & _ & _ & Hf). rewrite Forall_forall in Hf. specialize (Hf x Hx).
    unfold safe_segment_char, inert_char, is_ascii_alphanumeric, in_range in *.
    rewrite !orb_true_iff, !andb_true_iff in *. lia. }
  destruct ss as [|s' ss]; [by apply Hseg|].
  change (join_with 47 (s :: s' :: ss)) with (s ++ 47 :: join_with 47 (s' :: ss)) in Hc.
  apply elem_of_app in Hc as [Hc|[->|Hc]%elem_of_cons]; [by apply Hseg|done|by apply IH].
Qed.
Lemma package_chars p c : package_safe p → c ∈ p → inert_char c = true ∧ c ≠ 32.
Proof.
  intros (_ & _ & Hf) Hc. rewrite Forall_forall in Hf. specialize (Hf c Hc).
  unfold inert_char, is_ascii_alphanumeric, in_range in *. rewrite !orb_true_iff, !andb_true_iff in *. lia.
Qed.
Lemma path_safe_ne p : path_safe p → p ≠ [].
Proof. intros Hp ->. apply Forall_cons in Hp as [(H & _) _]. done. Qed.

Lemma hint_chars c : hint_safe c →
  Forall (λ x, inert_char x = true) c ∧ (∃ x, head c = Some x ∧ inert_char x = true ∧ x ≠ 32) ∧
  (∃ x, last c = Some x ∧ inert_char x = true ∧ x ≠ 32).
Proof.
  assert (∀ (pre : chars) p, Forall (λ x, inert_char x = true) pre → (∃ x, head pre = Some x ∧ inert_char x = true ∧ x ≠ 32) →
    p ≠ [] → (∀ x, x ∈ p → inert_char x = true ∧ x ≠ 32) →
    Forall (λ x, inert_char x = true) (pre ++ p) ∧ (∃ x, head (pre ++ p) = Some x ∧ inert_char x = true ∧ x ≠ 32) ∧
    (∃ x, last (pre ++ p) = Some x ∧ inert_char x = true ∧ x ≠ 32)) as Happ.
  { intros pre p Hpre (x & Hx & Hxi) Hne Hp. split; [|split].
    - apply Forall_app. split; [done|]. apply Forall_forall. intros y Hy. by apply Hp.
    - exists x. by destruct pre.
    - destruct (last p) as [y|] eqn:E; [|by apply last_None in E].
      exists y. rewrite last_app, E. split; [done|]. apply Hp. apply last_Some in E as [l ->]. set_solver. }
  intros [->|[(p & Hp & ->)|(p & Hp & Hc)]].
  - split; [by repeat constructor|]. split; by eexists.
  - apply Happ; [by repeat constructor|by eexists|by destruct Hp|]. intros x. by apply package_chars.
  - destruct Hc as [->| ->]; (apply Happ; [by repeat constructor|by eexists|by apply path_safe_ne|]; intros x; by apply path_chars).
Qed.

Lemma clean_hint c : hint_safe c → clean_scalar c = c.
Proof.
  intros (_ & (x & Hx & Hxi) & (y & Hy & Hyi))%hint_chars.
  destruct (inert_word x) as (Hxw & Hx34 & Hx39); [apply Hxi..|].
  destruct (inert_word y) as (Hyw & _); [apply Hyi..|].
  unfold clean_scalar. rewrite trim_clean by (intros ?; rewrite ?Hx, ?Hy; by intros [= <-]).
  case_decide; [|done]. rewrite Hx, Hy. by rewrite !(proj2 (Z.eqb_neq x _)) by done.
Qed.

(** Commands are only ever added, and only the pushed one. *)
Lemma push_unique_elem vs v c : c ∈ push_unique_string vs v → c ∈ vs ∨ c = clean_scalar v.
Proof.
  unfold push_unique_string. destruct (_ || _); [by left|]. intros [H|H%list_elem_of_singleton]%elem_of_app; auto.
Qed.
Lemma push_unique_nodup vs v : NoDup vs → NoDup (push_unique_string vs v).
Proof.
  unfold push_unique_string. intros Hn. destruct (_ || _) eqn:E; [done|].
  apply orb_false_iff in E as [_ E]. apply NoDup_app. split; [done|]. split; [|apply NoDup_singleton].
  intros x Hx ->%list_elem_of_singleton. apply not_true_iff_false in E. apply E, existsb_exists.
  eexists. split; [by apply list_elem_of_In|]. by apply str_eq_true.
Qed.
Lemma push_unique_ne vs v : Forall (λ x, x ≠ []) vs → Forall (λ x, x ≠ []) (push_unique_string vs v).
Proof.
  unfold push_unique_string. intros Hn. destruct (_ || _) eqn:E; [done|].
  apply orb_false_iff in E as [E _]. apply Forall_app. split; [done|]. apply Forall_singleton. by apply str_eq_false.
Qed.

Lemma add_hint_safe s commands raw :
  Forall hint_safe commands → Forall hint_safe (add_changed_path_targeted_command s commands raw).
Proof.
  assert (∀ vs v, Forall hint_safe vs → hint_safe v → Forall hint_safe (push_unique_string vs v)) as Hpush.
  { intros vs v Hvs Hv. apply Forall_forall. intros c [Hc| ->]%push_unique_elem.
    - by eapply Forall_forall in Hvs.
    - by rewrite clean_hint. }
  intros Hc. unfold add_changed_path_targeted_command. destruct (str_eq _ []); [done|].
  destruct (safe_command_path _) as [p|] eqn:Hp; [|done]. apply safe_command_path_safe in Hp as [_ Hp].
  cbv zeta.
  assert (Forall hint_safe (if cargo_manifest s && is_rust_changed_path p (file_name p) then
            match safe_crates_package_name p with
            | Some package => push_unique_string commands (lit "cargo test -p " ++ package)
            | None => push_unique_string commands (lit "cargo test")
            end else commands)) as H1.
  { destruct (_ && _); [|done]. destruct (safe_crates_package_name p) as [q|] eqn:Hq.
    - apply Hpush; [done|]. right; left. exists q. split; [by eapply safe_package|done].
    - apply Hpush; [done|]. by left. }
  destruct (package_json s && is_javascript_test_path (file_name p)),
    (python_project s && is_python_test_path p (file_name p)); auto;
    repeat (apply Hpush); auto; right; right; eauto.
Qed.

Lemma fold_push_inv (Q : list chars → Prop) vs l :
  (∀ a v, v ∈ l → Q a → Q (push_unique_string a v)) → Q vs → Q (fold_left push_unique_string l vs).
Proof.
  revert vs. induction l as [|v l IH]; intros vs Hp HQ; [done|]. simpl. apply IH.
  - intros a x Hx. apply Hp. by right.
  - apply Hp; [left|done].
Qed.

(** The verifier hints made of changed paths are safe command lines, whatever the paths are:
    each is [cargo test], [cargo test -p] with a package name, or [pytest] or [npm test] with a
    relative path; names and path segments are not empty, not dots and never start as an option,
    no character of a command means anything to a shell, and no command is listed twice. *)
Theorem targeted_commands_safe repo_paths changed_paths :
  let cs := targeted_commands (from_repo_and_changed_paths repo_paths changed_paths) in
  NoDup cs ∧ ∀ c, c ∈ cs → hint_safe c ∧ Forall (λ x, inert_char x = true) c.
Proof.
  assert (targeted_commands (from_paths repo_paths) = []) as H0.
  { unfold from_paths. assert (targeted_commands RepoSignals_default = []) as H0 by done. revert H0.
    generalize RepoSignals_default. induction repo_paths as [|p ps IH]; intros s Hs; [done|]. simpl.
    apply IH. unfold signal_step. by destruct (str_eq _ []). }
  set (s := from_paths repo_paths) in *. set (cmds := fold_left (add_changed_path_targeted_command s) changed_paths []).
  assert (Forall hint_safe cmds) as Hc.
  { unfold cmds. assert (Forall hint_safe []) as Hn by constructor. revert Hn. generalize (@nil chars).
    induction changed_paths as [|p ps IH]; intros l Hl; [done|]. simpl. by apply IH, add_hint_safe. }
  cbv zeta. unfold from_repo_and_changed_paths, with_changed_path_hints. fold s cmds.
  cbn [with_targeted targeted_commands]. rewrite H0. split.
  - apply (fold_push_inv NoDup); [|constructor]. intros. by apply push_unique_nodup.
  - assert (Forall hint_safe (fold_left push_unique_string cmds [])) as Hf.
    { apply (fold_push_inv (Forall hint_safe)); [|constructor]. intros a v Hv Ha. apply Forall_forall.
      intros c [Hin| ->]%push_unique_elem; [by eapply Forall_forall in Ha|].
      rewrite clean_hint; by eapply Forall_forall in Hc. }
    intros c Hin. eapply Forall_forall in Hf; [|done]. split; [done|]. by apply hint_chars.
Qed.

(** ** The shape of a task *)

(** What the shape says, path by path: the first path that is sensitive or a workflow decides;
    otherwise dependencies, then the user interface, then documentation alone. *)
Definition shape_reference (paths : list chars) : TaskShape :=
  let ps := filter (λ p, p ≠ []) (normalize_path <$> paths) in
  match find (λ p, is_security_sensitive_path p || is_workflow_path p) ps with
  | Some p => if is_security_sensitive_path p then SecuritySensitive else WorkflowChange
  | None =>
      if bool_decide (ps = []) then SUnknown
      else if existsb is_dependency_path ps then DependencyChange
      else if existsb is_ui_path ps then UiChange
      else if forallb is_docs_path ps then DocsOnly
      else Feature
  end.

Lemma shape_loop_spec st paths :
  shape_loop st paths =
  let ps := filter (λ p, p ≠ []) (normalize_path <$> paths) in
  match find (λ p, is_security_sensitive_path p || is_workflow_path p) ps with
  | Some p => if is_security_sensitive_path p then SecuritySensitive else WorkflowChange
  | None =>
      if negb (saw_path st || negb (bool_decide (ps = []))) then SUnknown
      else if saw_dependency st || existsb is_dependency_path ps then DependencyChange
      else if saw_ui st || existsb is_ui_path ps then UiChange
      else if all_docs st && forallb is_docs_path ps then DocsOnly
      else Feature
  end.
Proof.
  revert st. induction paths as [|raw paths IH]; intros st; cbn [shape_loop].
  { simpl. by rewrite !orb_false_r, andb_true_r. }
  rewrite fmap_cons. set (path := normalize_path raw). destruct (str_eq path []) eqn:E.
  { apply str_eq_true in E. rewrite filter_cons_False by (intros H; by apply H). apply IH. }
  apply str_eq_false in E. rewrite filter_cons_True by done. cbv zeta. cbn [find].
  destruct (is_security_sensitive_path path) eqn:Hs; [cbn; by rewrite Hs|].
  destruct (is_workflow_path path) eqn:Hw; [cbn; by rewrite Hs|]. cbn [orb].
  rewrite IH. cbv zeta. destruct (find _ _); [done|]. cbn [saw_path saw_dependency saw_ui all_docs existsb forallb].
  rewrite (bool_decide_eq_false_2 (path :: _ = [])), orb_true_r by done. cbn [orb negb].
  by rewrite !orb_assoc, andb_assoc.
Qed.

(** The classification of a task is the reference one: the first changed path that is
    security-sensitive or a workflow decides, whatever else changes; otherwise any dependency
    file, then any user-interface file, then documentation alone, and a feature for the rest. *)
Theorem task_shape_exact paths : from_changed_paths paths = shape_reference paths.
Proof.
  unfold from_changed_paths, shape_reference. rewrite shape_loop_spec. cbv zeta. destruct (find _ _); [done|].
  cbn [saw_path saw_dependency saw_ui all_docs orb andb]. rewrite negb_involutive. done.
Qed.

(** ** The plan *)

(** What makes the evidence of a plan weak. *)
Definition weak_plan (s : RepoSignals) (task : TaskShape) (commands : list PlannedVerifierCommand) : Prop :=
  commands = [] ∨ (task ≠ DocsOnly ∧ has_full_command commands = false) ∨
  match task with
  | BugFix => has_test_command commands = false
  | UiChange => browser_smoke_command s = None ∧ has_browser_command commands = false
  | DependencyChange =>
      lockfile s = false ∨ (dependency_audit_command s = None ∧ has_dependency_audit commands = false)
  | _ => False
  end.

Lemma add_unique_props cs c st :
  NoDup (pc_command <$> cs) → Forall (λ x, x ≠ []) (pc_command <$> cs) →
  NoDup (pc_command <$> add_unique_command cs c st) ∧
  Forall (λ x, x ≠ []) (pc_command <$> add_unique_command cs c st).
Proof.
  intros Hn Hf. unfold add_unique_command. destruct (_ || _) eqn:E; [done|].
  apply orb_false_iff in E as [E1 E2]. apply str_eq_false in E1. rewrite fmap_app. split.
  - apply NoDup_app. split; [done|]. split; [|apply NoDup_singleton].
    intros x (e & -> & He)%list_elem_of_fmap Hx%list_elem_of_singleton.
    apply not_true_iff_false in E2. apply E2, existsb_exists. exists e. split; [by apply list_elem_of_In|].
    by apply str_eq_true.
  - apply Forall_app. split; [done|]. by apply Forall_singleton.
Qed.

Definition commands_ok (cs : list PlannedVerifierCommand) : Prop :=
  NoDup (pc_command <$> cs) ∧ Forall (λ x, x ≠ []) (pc_command <$> cs).
Lemma add_unique_ok cs c st : commands_ok cs → commands_ok (add_unique_command cs c st).
Proof. intros [Hn Hf]. by apply add_unique_props. Qed.
Lemma fold_unique_ok (st : chars → VerifierCommandStage) l cs :
  commands_ok cs → commands_ok (fold_left (λ cs c, add_unique_command cs c (st c)) l cs).
Proof. revert cs. induction l as [|c l IH]; intros cs Hc; [done|]. by apply IH, add_unique_ok. Qed.
Lemma add_if_ok c o cs : commands_ok cs → commands_ok (add_if c o cs).
Proof. destruct o, c; simpl; auto using add_unique_ok. Qed.
Lemma plan_commands_ok profile s task : commands_ok (plan_commands profile s task).
Proof.
  assert (commands_ok []) as H0 by (split; constructor).
  unfold plan_commands, add_signal_commands, add_inferred_full_commands. cbv zeta.
  set (cs := fold_left _ (rp_verify profile) _).
  assert (commands_ok cs) as H1.
  { apply fold_unique_ok. do 3 apply add_if_ok. by apply (fold_unique_ok (λ _, StTargeted)). }
  destruct (bool_decide (rp_verify profile = [])); [|exact H1].
  repeat match goal with |- context [if ?b then _ else _] => destruct b end; auto 6 using add_unique_ok.
Qed.

(** Without signals and configured commands there is nothing to plan. *)
Lemma plan_commands_empty profile s task :
  signals_is_empty s = true → rp_verify profile = [] → plan_commands profile s task = [].
Proof.
  unfold signals_is_empty. rewrite !andb_true_iff, !negb_true_iff, !bool_decide_eq_true.
  intros ((((((((H1 & H2) & H3) & H4) & H5) & H6) & H7) & H8) & H9) Hv.
  unfold plan_commands, add_signal_commands, add_inferred_full_commands, add_if.
  by rewrite H1, H2, H3, H4, H5, H6, H7, H8, Hv.
Qed.

Lemma warn_weak c w b : existsb snd (warn c w b) = c && b.
Proof. destruct c; simpl; [apply orb_false_r|done]. Qed.

Lemma plan_weak profile s task :
  let commands := plan_commands profile s task in
  existsb snd (plan_warnings profile s task commands) = true ↔ weak_plan s task commands.
Proof.
  cbv zeta. unfold plan_warnings, weak_plan. set (cs := plan_commands profile s task).
  rewrite !existsb_app, !orb_true_iff, !warn_weak, !andb_true_r.
  rewrite !andb_true_iff, !negb_true_iff, !bool_decide_eq_true, bool_decide_eq_false.
  assert (length cs = 0%nat ↔ cs = []) as Hlen by (split; [apply nil_length_inv|by intros ->]).
  assert (signals_is_empty s = true ∧ rp_verify profile = [] → cs = []) as He.
  { intros [H1 H2]. by apply plan_commands_empty. }
  assert (existsb snd match task with
    | BugFix => warn (negb (has_test_command cs)) W_NO_TEST true
    | UiChange => warn (bool_decide (browser_smoke_command s = None) && negb (has_browser_command cs)) W_NO_BROWSER true
    | DependencyChange => warn (negb (lockfile s)) W_NO_LOCKFILE true ++
        warn (bool_decide (dependency_audit_command s = None) && negb (has_dependency_audit cs)) W_NO_AUDIT true
    | DocsOnly => warn (bool_decide (docs_check_command s = None) && negb (bool_decide (length cs = 0%nat))
            && negb (has_docs_command cs)) W_DOCS false
    | WorkflowChange => [(W_WORKFLOW, false)]
    | SecuritySensitive => [(W_SECURITY, false)]
    | Feature | SUnknown => []
    end = true ↔ match task with
    | BugFix => has_test_command cs = false
    | UiChange => browser_smoke_command s = None ∧ has_browser_command cs = false
    | DependencyChange => lockfile s = false ∨ (dependency_audit_command s = None ∧ has_dependency_audit cs = false)
    | _ => False
    end) as Ht.
  { destruct task; rewrite ?existsb_app, ?warn_weak, ?andb_true_r, ?andb_false_r, ?orb_true_iff, ?andb_true_iff,
      ?negb_true_iff, ?bool_decide_eq_true; simpl; intuition congruence. }
  rewrite Ht. tauto.
Qed.

Lemma push_gate_elem gs g x : x ∈ push_gate gs g ↔ x ∈ gs ∨ x = g.
Proof. unfold push_gate. case_decide; set_solver. Qed.

(** A plan says what it can show. Its commands are distinct and not empty; the full suite is a
    gate of every task but documentation, a security review of every sensitive task or high risk,
    and every gate has a reason; the evidence is weak exactly when there is no command, no
    full-suite command, or the evidence particular to the task is missing; and it is strong
    exactly when it is not weak, the commands were configured and there is no warning, never for
    a workflow or a security-sensitive change. *)
Theorem plan_sound profile s task :
  let p := plan_verification profile s task in
  let cs := vp_commands p in
  NoDup (command_lines p) ∧ Forall (λ x, x ≠ []) (command_lines p) ∧
  (GFullSuite ∈ vp_gates p ↔ task ≠ DocsOnly) ∧
  (GSecurityReview ∈ vp_gates p ↔ task = SecuritySensitive ∨ risk_geb (rp_risk_tier profile) RHigh = true) ∧
  (∀ g, g ∈ vp_gates p ↔ is_Some (reason_for p g)) ∧
  (vp_strength p = Weak ↔ weak_plan s task cs) ∧
  (vp_strength p = Strong ↔ ¬ weak_plan s task cs ∧ rp_verify profile ≠ [] ∧ vp_warnings p = []) ∧
  (vp_strength p = Strong → task ≠ WorkflowChange ∧ task ≠ SecuritySensitive).
Proof.
  cbv zeta. pose proof (plan_weak profile s task) as Hw. cbv zeta in Hw.
  destruct (plan_commands_ok profile s task) as [Hn Hf].
  unfold plan_verification, VerifierPlan_build, command_lines, reason_for.
  cbn [vp_commands vp_gates vp_strength vp_warnings vp_gate_reasons].
  set (cs := plan_commands profile s task) in *. set (ws := plan_warnings profile s task cs) in *.
  assert ((W_WORKFLOW, false) ∉ ws → task ≠ WorkflowChange) as Hwf.
  { intros H ->. apply H. unfold ws, plan_warnings. rewrite !elem_of_app. right; right; right. left. }
  assert ((W_SECURITY, false) ∉ ws → task ≠ SecuritySensitive) as Hse.
  { intros H ->. apply H. unfold ws, plan_warnings. rewrite !elem_of_app. right; right; right. left. }
  split; [done|]. split; [done|].
  assert (∀ g, g ∈ plan_gates profile task ↔ is_Some (snd <$> find (λ gr : TaskGate * chars, bool_decide (gr.1 = g))
     ((λ g, (g, gate_reason g task (rp_risk_tier profile))) <$> take MAX_GATE_REASONS (plan_gates profile task)))) as Hg.
  { intros g. assert (take MAX_GATE_REASONS (plan_gates profile task) = plan_gates profile task) as ->.
    { unfold plan_gates. by destruct task, (risk_geb _ _). }
    induction (plan_gates profile task) as [|g' gs IH]; cbn [fmap list_fmap find].
    - split; [by intros ?%not_elem_of_nil|by intros [? ?]].
    - cbn [fst]. case_bool_decide as E; subst; [split; [done|]; intros; left|]. rewrite <-IH. set_solver. }
  split; [|split; [|split; [done|]]].
  { unfold plan_gates. destruct task, (risk_geb (rp_risk_tier profile) RHigh); cbn;
      rewrite ?push_gate_elem; set_solver. }
  { unfold plan_gates. destruct task, (risk_geb (rp_risk_tier profile) RHigh) eqn:Er; cbn;
      rewrite ?push_gate_elem; set_solver. }
  destruct (existsb snd ws) eqn:E; [split; [by rewrite <-Hw|]; split; [split; [done|tauto]|done]|].
  assert (¬ weak_plan s task cs) as Hnw by (intros H; by apply Hw in H).
  split; [split; [by destruct (_ || _)|done]|].
  destruct (bool_decide (rp_verify profile = []) || negb (bool_decide (ws.*1 = []))) eqn:E2.
  - split; [|done]. split; [done|]. intros (_ & Hv & Hws).
    rewrite bool_decide_eq_false_2, bool_decide_eq_true_2 in E2 by done. done.
  - apply orb_false_iff in E2 as [Hv Hws]. apply bool_decide_eq_false in Hv.
    apply negb_false_iff, bool_decide_eq_true in Hws. split; [done|]. intros _.
    assert (ws = []) as Hnil by (by destruct ws). rewrite Hnil in Hwf, Hse.
    split; [apply Hwf|apply Hse]; apply not_elem_of_nil.
Qed.

(** ** The test graph *)

(** The first occurrences of a list, in order. *)
Definition firsts (l : list chars) : list chars := fold_left push_bucket l [].

Lemma push_bucket_eq b id : push_bucket b id = if decide (id ∈ b) then b else b ++ [id].
Proof.
  unfold push_bucket. destruct (existsb (str_eq id) b) eqn:E.
  - rewrite decide_True; [done|]. apply existsb_exists in E as (x & Hx & ->%str_eq_true). by apply list_elem_of_In.
  - rewrite decide_False; [done|]. intros Hin. apply not_true_iff_false in E. apply E, existsb_exists.
    exists id. split; [by apply list_elem_of_In|by apply str_eq_true].
Qed.
Lemma firsts_snoc l x : firsts (l ++ [x]) = if decide (x ∈ firsts l) then firsts l else firsts l ++ [x].
Proof. unfold firsts. rewrite fold_left_app. simpl. apply push_bucket_eq. Qed.
Lemma firsts_elem l x : x ∈ firsts l ↔ x ∈ l.
Proof.
  induction l as [|y l IH] using rev_ind; [done|]. rewrite firsts_snoc. case_decide; set_solver.
Qed.
Lemma firsts_nodup l : NoDup (firsts l).
Proof.
  induction l as [|y l IH] using rev_ind; [constructor|]. rewrite firsts_snoc. case_decide; [done|].
  apply NoDup_app. split; [done|]. split; [|apply NoDup_singleton]. set_solver.
Qed.

(** The two buckets hold the first occurrences of their kind. *)
Lemma order_fold l :
  fold_left order_step l ([], []) =
  (filter (λ id, is_full_suite_id id = false) (firsts l), filter (λ id, is_full_suite_id id = true) (firsts l)).
Proof.
  induction l as [|x l IH] using rev_ind; [done|]. rewrite fold_left_app. simpl. rewrite IH.
  unfold order_step. cbn [fst snd]. rewrite firsts_snoc, !push_bucket_eq.
  destruct (decide (x ∈ firsts l)) as [Hin|Hin], (is_full_suite_id x) eqn:E.
  - by rewrite decide_True by (by apply list_elem_of_filter).
  - by rewrite decide_True by (by apply list_elem_of_filter).
  - rewrite decide_False by (intros [_ ?]%list_elem_of_filter; done). rewrite !filter_app.
    rewrite (filter_cons_False (λ id, is_full_suite_id id = false)), filter_cons_True by congruence.
    by rewrite filter_nil, app_nil_r.
  - rewrite decide_False by (intros [_ ?]%list_elem_of_filter; done). rewrite !filter_app.
    rewrite (filter_cons_False (λ id, is_full_suite_id id = true)), filter_cons_True by congruence.
    by rewrite filter_nil, app_nil_r.
Qed.

Lemma graph_loop_spec s es paths :
  (length es ≤ MAX_TEST_GRAPH_ENTRIES)%nat → NoDup (te_path <$> es) →
  let g := graph_loop s es paths in
  (length g ≤ MAX_TEST_GRAPH_ENTRIES)%nat ∧ NoDup (te_path <$> g) ∧
  ∀ e, e ∈ g → e ∈ es ∨ ∃ raw, raw ∈ paths ∧ te_path e = normalize_path raw ∧
    te_affected e = affected_tests_for_path (normalize_path raw) s ∧ te_affected e ≠ [].
Proof.
  revert es. induction paths as [|raw paths IH]; intros es Hl Hn; cbn [graph_loop]; cbv zeta.
  { split; [done|]. split; [done|]. by left. }
  case_decide as Hfull; [split; [done|]; split; [done|]; by left|].
  set (path := normalize_path raw). destruct (_ || _) eqn:E.
  { destruct (IH es Hl Hn) as (H1 & H2 & H3). split; [done|]. split; [done|].
    intros e [H|(r & Hr & ?)]%H3; [by left|]. right. exists r. split; [by right|done]. }
  apply orb_false_iff in E as [_ E2].
  destruct (affected_tests_for_path path s) as [|a as'] eqn:Ea.
  { destruct (IH es Hl Hn) as (H1 & H2 & H3). split; [done|]. split; [done|].
    intros e [H|(r & Hr & ?)]%H3; [by left|]. right. exists r. split; [by right|done]. }
  destruct (IH (es ++ [mkEntry path (a :: as')])) as (H1 & H2 & H3).
  - rewrite length_app. simpl. lia.
  - rewrite fmap_app. apply NoDup_app. split; [done|]. split; [|apply NoDup_singleton].
    intros x (e & -> & He)%list_elem_of_fmap Hx%list_elem_of_singleton.
    apply not_true_iff_false in E2. apply E2, existsb_exists. exists e. split; [by apply list_elem_of_In|].
    by apply str_eq_true.
  - split; [done|]. split; [done|]. intros e [H|(r & Hr & ?)]%H3.
    + apply elem_of_app in H as [H|H%list_elem_of_singleton]; [by left|]. right. exists raw. subst e. simpl.
      split; [left|]. fold path. by rewrite Ea.
    + right. exists r. split; [by right|done].
Qed.

(** The test graph is bounded and its order is the one promised: at most
    [MAX_TEST_GRAPH_ENTRIES] entries for distinct paths, each holding what its path affects; and
    the ranking lists every affected id exactly once, the narrow ones before the whole-suite
    ones, each group in the order in which the ids first appear. *)
Theorem test_graph_exact s paths :
  let g := from_signals_and_changed_paths s paths in
  let ids := firsts (g ≫= te_affected) in
  (length g ≤ MAX_TEST_GRAPH_ENTRIES)%nat ∧ NoDup (te_path <$> g) ∧
  (∀ e, e ∈ g → ∃ raw, raw ∈ paths ∧ te_path e = normalize_path raw ∧
     te_affected e = affected_tests_for_path (normalize_path raw) s ∧ te_affected e ≠ []) ∧
  NoDup (command_order g) ∧ (∀ id, id ∈ command_order g ↔ id ∈ g ≫= te_affected) ∧
  command_order g = filter (λ id, is_full_suite_id id = false) ids ++ filter (λ id, is_full_suite_id id = true) ids.
Proof.
  cbv zeta. destruct (graph_loop_spec s [] paths) as (Hl & Hn & He); [simpl; lia|constructor|].
  unfold from_signals_and_changed_paths. set (g := graph_loop s [] paths) in *.
  assert (command_order g = filter (λ id, is_full_suite_id id = false) (firsts (g ≫= te_affected)) ++
            filter (λ id, is_full_suite_id id = true) (firsts (g ≫= te_affected))) as Hord.
  { unfold command_order. rewrite order_fold. f_equal. apply filter_all. intros id [Hf _]%list_elem_of_filter.
    apply Is_true_true, negb_true_iff, not_true_is_false. intros (x & Hx & ->%str_eq_true)%existsb_exists.
    apply list_elem_of_In, list_elem_of_filter in Hx as [Hx _]. congruence. }
  split; [done|]. split; [done|]. split.
  { intros e [H|H]%He; [by apply not_elem_of_nil in H|done]. }
  rewrite Hord. split; [|split; [|done]].
  - apply NoDup_app. split; [apply NoDup_filter, firsts_nodup|]. split; [|apply NoDup_filter, firsts_nodup].
    intros x [H1 _]%list_elem_of_filter [H2 _]%list_elem_of_filter. congruence.
  - intros id. rewrite elem_of_app, !list_elem_of_filter, firsts_elem. destruct (is_full_suite_id id); intuition done.
Qed.

(** Unlike the hints, the ids of the test graph keep the crate name of a path as it is: a path can
    put any text after [cargo test -p]. *)
Theorem test_graph_unsanitized :
  command_order (from_signals_and_changed_paths RepoSignals_default [lit "crates/x; rm -rf ~/a.rs"])
    = [lit "cargo test -p x; rm -rf ~"; lit "cargo test"] ∧
  targeted_commands (from_repo_and_changed_paths [lit "Cargo.toml"] [lit "crates/x; rm -rf ~/a.rs"]) = [].
Proof. split; reflexivity. Qed.
