(* ===== verification/Evidence.v ===== *)
(** * Evidence bundles

    Models the evidence bundle of [crustcore-daemon/src/product.rs]: the lifecycle and CI states,
    the verdict, and the bounded JSON and Markdown exports. A bundle carries text that a worker
    produced; the exports go to an audit log, one line each, and into the body of a pull request. *)

From S2P Require Import Prelude Text Std Chars Redactor Supervisor Strings Profile Planner Json.

Definition EVIDENCE_BUNDLE_SCHEMA : chars := lit "crustcore.evidence_bundle.v1".
Definition MAX_EVIDENCE_EXPORT_COMMANDS : nat := 32.
Definition MAX_EVIDENCE_EXPORT_RISKS : nat := 32.
Definition MAX_EVIDENCE_EXPORT_REFS : nat := 64.

Inductive TaskLifecycle :=
| LQueued | LPlanning | LExecuting | LVerifying | LOpeningPr | LMonitoringCi | LRepairing | LBlocked | LCompleted.
#[export] Instance TaskLifecycle_eq_dec : EqDecision TaskLifecycle.
Proof. solve_decision. Defined.
Definition lifecycle_label (l : TaskLifecycle) : chars :=
  match l with
  | LQueued => lit "queued"
  | LPlanning => lit "planning"
  | LExecuting => lit "executing"
  | LVerifying => lit "verifying"
  | LOpeningPr => lit "opening-pr"
  | LMonitoringCi => lit "monitoring-ci"
  | LRepairing => lit "repairing"
  | LBlocked => lit "blocked"
  | LCompleted => lit "completed"
  end.
Definition lifecycle_is_terminal (l : TaskLifecycle) : bool :=
  match l with LBlocked | LCompleted => true | _ => false end.

Inductive CiState := CiUnknown | CiPending | CiPassed | CiFailed | CiSkipped.
#[export] Instance CiState_eq_dec : EqDecision CiState.
Proof. solve_decision. Defined.
Definition ci_label (c : CiState) : chars :=
  match c with
  | CiUnknown => lit "unknown"
  | CiPending => lit "pending"
  | CiPassed => lit "passed"
  | CiFailed => lit "failed"
  | CiSkipped => lit "skipped"
  end.

Record CommandEvidenceLine := mkEvidenceLine { el_command : chars; el_passed : bool; el_note : option chars }.
Definition CommandEvidenceLine_new (command : chars) (passed : bool) : CommandEvidenceLine :=
  mkEvidenceLine command passed None.
Definition with_note (l : CommandEvidenceLine) (note : chars) : CommandEvidenceLine :=
  mkEvidenceLine (el_command l) (el_passed l) (Some (bound note 512)).

Record EvidenceBundle := mkBundle {
  eb_run_id : chars;
  eb_lifecycle : TaskLifecycle;
  eb_verifier_plan : chars;
  eb_commands : list CommandEvidenceLine;
  eb_patch_hash : option chars;
  eb_ci : CiState;
  eb_risks : list chars;
  eb_receipts : list chars;
  eb_event_refs : list chars
}.
Definition EvidenceBundle_new (run_id : chars) : EvidenceBundle :=
  mkBundle run_id LQueued (lit "not selected") [] None CiUnknown [] [] [].
Definition from_verifier_plan (run_id : chars) (plan : VerifierPlan) : EvidenceBundle :=
  mkBundle run_id LPlanning (vp_label plan) [] None CiUnknown ((λ w, bound w 240) <$> vp_warnings plan) [] [].

Inductive EvidenceVerdict :=
| Sufficient | NoVerifierEvidence | FailedVerifier | MissingPatch | MissingReceipts | VCiFailed | VBlocked.
#[export] Instance EvidenceVerdict_eq_dec : EqDecision EvidenceVerdict.
Proof. solve_decision. Defined.
Definition verdict_label (v : EvidenceVerdict) : chars :=
  match v with
  | Sufficient => lit "sufficient"
  | NoVerifierEvidence => lit "no-verifier-evidence"
  | FailedVerifier => lit "failed-verifier"
  | MissingPatch => lit "missing-patch"
  | MissingReceipts => lit "missing-receipts"
  | VCiFailed => lit "ci-failed"
  | VBlocked => lit "blocked"
  end.
Definition verdict (b : EvidenceBundle) : EvidenceVerdict :=
  if bool_decide (eb_lifecycle b = LBlocked) then VBlocked
  else if bool_decide (length (eb_commands b) = 0%nat) then NoVerifierEvidence
  else if existsb (λ c, negb (el_passed c)) (eb_commands b) then FailedVerifier
  else if str_eq (default [] (eb_patch_hash b)) [] then MissingPatch
  else if bool_decide (eb_ci b = CiFailed) then VCiFailed
  else if bool_decide (eb_receipts b = []) then MissingReceipts
  else Sufficient.
Definition is_sufficient (b : EvidenceBundle) : bool := bool_decide (verdict b = Sufficient).
Definition export_is_truncated (b : EvidenceBundle) : bool :=
  bool_decide (MAX_EVIDENCE_EXPORT_COMMANDS < length (eb_commands b))%nat
  || bool_decide (MAX_EVIDENCE_EXPORT_RISKS < length (eb_risks b))%nat
  || bool_decide (MAX_EVIDENCE_EXPORT_REFS < length (eb_receipts b))%nat
  || bool_decide (MAX_EVIDENCE_EXPORT_REFS < length (eb_event_refs b))%nat.

(** ** JSON *)

Definition short_escape (c : Z) : option Z :=
  if c =? 34 then Some 34 else if c =? 92 then Some 92 else if c =? 10 then Some 110
  else if c =? 13 then Some 114 else if c =? 9 then Some 116 else if c =? 8 then Some 98
  else if c =? 12 then Some 102 else None.
Definition escaped_len (c : Z) : nat :=
  match short_escape c with
  | Some _ => 2
  | None => if is_control c then 6 else len_utf8 c
  end.
Definition escape_one (c : Z) : chars :=
  match short_escape c with
  | Some e => [92; e]
  | None => if is_control c then lit "\u" ++ hex4 c else [c]
  end.
(** The loop: the escaped text so far has [body] bytes; whether it was cut. *)
Fixpoint json_body (max body : nat) (s : chars) : chars * bool :=
  match s with
  | [] => ([], false)
  | c :: s' =>
      if decide (max < body + escaped_len c)%nat then ([], true)
      else prod_map (app (escape_one c)) id (json_body max (body + escaped_len c) s')
  end.
Definition json_string (value : chars) (max : nat) : chars :=
  let '(body, truncated) := json_body max 0 value in
  [34] ++ body ++ (if truncated then lit "..." else []) ++ [34].

(** Items separated by commas. *)
Definition push_json_string_array (values : list chars) (max_items max_value_len : nat) : chars :=
  lit "[" ++ join_with 44 ((λ v, json_string v max_value_len) <$> take max_items values) ++ lit "]".
Definition json_bool (b : bool) : chars := if b then lit "true" else lit "false".
Definition json_opt (o : option chars) (max : nat) : chars :=
  match o with Some v => json_string v max | None => lit "null" end.
(** The name of a member with its colon. *)
Definition jkey (k : string) : chars := [34] ++ lit k ++ [34; 58].
Definition export_command (c : CommandEvidenceLine) : chars :=
  lit "{" ++ jkey "command" ++ json_string (el_command c) 240 ++
  lit "," ++ jkey "passed" ++ json_bool (el_passed c) ++
  lit "," ++ jkey "note" ++ json_opt (el_note c) 512 ++ lit "}".
Definition export_json (b : EvidenceBundle) : chars :=
  lit "{" ++ jkey "schema" ++ json_string EVIDENCE_BUNDLE_SCHEMA 64 ++
  lit "," ++ jkey "run_id" ++ json_string (eb_run_id b) 160 ++
  lit "," ++ jkey "lifecycle" ++ json_string (lifecycle_label (eb_lifecycle b)) 32 ++
  lit "," ++ jkey "verdict" ++ json_string (verdict_label (verdict b)) 64 ++
  lit "," ++ jkey "verifier_plan" ++ json_string (eb_verifier_plan b) 240 ++
  lit "," ++ jkey "ci" ++ json_string (ci_label (eb_ci b)) 32 ++
  lit "," ++ jkey "human_review_required" ++ lit "true" ++
  lit "," ++ jkey "truncated" ++ json_bool (export_is_truncated b) ++
  lit "," ++ jkey "patch_hash" ++ json_opt (eb_patch_hash b) 128 ++
  lit "," ++ jkey "commands" ++ lit "[" ++
    join_with 44 (export_command <$> take MAX_EVIDENCE_EXPORT_COMMANDS (eb_commands b)) ++ lit "]" ++
  lit "," ++ jkey "risks" ++ push_json_string_array (eb_risks b) MAX_EVIDENCE_EXPORT_RISKS 240 ++
  lit "," ++ jkey "receipts" ++ push_json_string_array (eb_receipts b) MAX_EVIDENCE_EXPORT_REFS 160 ++
  lit "," ++ jkey "event_refs" ++ push_json_string_array (eb_event_refs b) MAX_EVIDENCE_EXPORT_REFS 160 ++
  lit "}".
Definition export_jsonl_line (b : EvidenceBundle) : chars := export_json b ++ [10].

(** ** Markdown *)

(** The dashes, ellipsis and red circle of the text are single characters. *)
Definition EM_DASH : Z := 8212.
Definition ELLIPSIS : Z := 8230.
Definition RED_CIRCLE : Z := 128308.
Definition NL : chars := [10].
Definition code (s : chars) : chars := [96] ++ s ++ [96].
Definition dash : chars := [32; EM_DASH; 32].
Definition append_overflow (total cap : nat) : chars :=
  if decide (cap < total)%nat then
    lit "- " ++ [ELLIPSIS] ++ dec_u (Z.of_nat (total - cap)) ++ lit " more (see the audit JSON for the full set)" ++ NL
  else [].
Definition NOTICE : chars :=
  lit "## CrustCore evidence-backed draft PR" ++ NL ++ NL ++
  [RED_CIRCLE] ++ lit " **Human review required before merge**" ++ dash ++
  lit "machine-produced change; a human approves the merge." ++ NL ++ NL.
Definition md_command (c : CommandEvidenceLine) : chars :=
  let status := if el_passed c then lit "passed" else lit "failed" in
  lit "- " ++ code (bound (el_command c) 240) ++ dash ++ status ++
  match el_note c with Some note => dash ++ bound note 240 | None => [] end ++ NL.
Definition md_list {A} (show : A → chars) (cap : nat) (l : list A) : chars :=
  (take cap l ≫= show) ++ append_overflow (length l) cap.
Definition to_markdown (b : EvidenceBundle) : chars :=
  NOTICE ++
  lit "- Run: " ++ code (bound (eb_run_id b) 160) ++ NL ++
  lit "- State: " ++ code (lifecycle_label (eb_lifecycle b)) ++ NL ++
  lit "- Evidence verdict: " ++ code (verdict_label (verdict b)) ++ NL ++
  lit "- Verifier plan: " ++ code (bound (eb_verifier_plan b) 240) ++ NL ++
  lit "- CI: " ++ code (ci_label (eb_ci b)) ++ NL ++
  match eb_patch_hash b with Some h => lit "- Patch: " ++ code (bound h 128) ++ NL | None => [] end ++
  NL ++ lit "### Verifier Commands" ++ NL ++
  (match eb_commands b with
   | [] => lit "- none recorded" ++ NL
   | cs => md_list md_command MAX_EVIDENCE_EXPORT_COMMANDS cs
   end) ++
  NL ++ lit "### Receipts" ++ NL ++
  (match eb_receipts b with
   | [] => lit "- none recorded" ++ NL
   | rs => md_list (λ r, lit "- " ++ code (bound r 160) ++ NL) MAX_EVIDENCE_EXPORT_REFS rs
   end) ++
  (match eb_risks b with
   | [] => []
   | rs => NL ++ lit "### Unresolved Risks" ++ NL ++
           md_list (λ r, lit "- " ++ bound r 240 ++ NL) MAX_EVIDENCE_EXPORT_RISKS rs
   end).
Definition draft_pr_body (b : EvidenceBundle) : chars := to_markdown b.
Definition to_json (b : EvidenceBundle) : chars := export_json b.

(** * Properties of evidence bundles

    When a bundle counts as complete, that its JSON strings read back as what was put in, and that
    the exports are bounded and stay on one line whatever text the bundle carries. *)

(** ** The verdict *)

(** A bundle is complete evidence exactly when the task is not blocked, at least one verifier
    command was recorded and all of them passed, a patch hash is there, CI has not failed and
    there is a receipt; and no plan, however strong, is evidence. *)
Theorem evidence_sufficient_iff b :
  (is_sufficient b = true ↔
     eb_lifecycle b ≠ LBlocked ∧ eb_commands b ≠ [] ∧ Forall (λ c, el_passed c = true) (eb_commands b) ∧
     (∃ h, eb_patch_hash b = Some h ∧ h ≠ []) ∧ eb_ci b ≠ CiFailed ∧ eb_receipts b ≠ []) ∧
  ∀ run plan, verdict (from_verifier_plan run plan) = NoVerifierEvidence.
Proof.
  split; [|done]. unfold is_sufficient. rewrite bool_decide_eq_true. unfold verdict.
  case_bool_decide as H1; [split; [done|]; by intros (? & _)|].
  case_bool_decide as H2; [split; [done|]; intros (_ & H & _); destruct (eb_commands b); done|].
  destruct (existsb _ _) eqn:H3.
  { split; [done|]. intros (_ & _ & H & _). apply existsb_exists in H3 as (c & Hc & Hn).
    eapply Forall_forall in H; [|by apply list_elem_of_In]. by rewrite H in Hn. }
  destruct (str_eq _ []) eqn:H4.
  { apply bool_decide_eq_true in H4. split; [done|]. intros (_ & _ & _ & (h & E & Hh) & _).
    rewrite E in H4. by simpl in H4. }
  case_bool_decide as H5; [split; [done|]; naive_solver|].
  case_bool_decide as H6; [split; [done|]; naive_solver|].
  split; [intros _|done]. apply bool_decide_eq_false in H4.
  split; [done|]. split; [intros E; apply H2; by rewrite E|]. split.
  { apply Forall_forall. intros c Hc. destruct (el_passed c) eqn:E; [done|]. exfalso.
    apply not_true_iff_false in H3. apply H3, existsb_exists. exists c. rewrite E. split; [by apply list_elem_of_In|done]. }
  split; [|done]. destruct (eb_patch_hash b) as [h|]; [by exists h|done].
Qed.

(** ** JSON strings *)

Lemma unicode_escape_control c R : 0 ≤ c < 160 → parse_unicode_escape (hex4 c ++ R) = Ok (c, R).
Proof.
  intros Hc. destruct c as [|p|p]; [reflexivity| |lia].
  do 7 (destruct p as [p|p|]; [| |reflexivity]). all: destruct p as [p|p|]; try lia; reflexivity.
Qed.

Lemma short_escape_spec c e :
  short_escape c = Some e →
  (c, e) ∈ [(34, 34); (92, 92); (10, 110); (13, 114); (9, 116); (8, 98); (12, 102)].
Proof.
  unfold short_escape. repeat case_match; intros [= <-];
    repeat match goal with H : (c =? _) = true |- _ => apply Z.eqb_eq in H; subst end; set_solver.
Qed.
Lemma short_escape_none c : short_escape c = None → c ≠ 34 ∧ c ≠ 92 ∧ c ≠ 10.
Proof. unfold short_escape. repeat case_match; try done. intros _. lia. Qed.

(** An escaped character is one turn of the parser. *)
Lemma string_loop_one fuel out c R :
  0 ≤ c → string_loop (S fuel) out (escape_one c ++ R) = string_loop fuel (out ++ [c]) R.
Proof.
  intros Hc. unfold escape_one. destruct (short_escape c) as [e|] eqn:E.
  - apply short_escape_spec in E. repeat (apply elem_of_cons in E as [[= -> ->]|E]; [reflexivity|]).
    by apply not_elem_of_nil in E.
  - destruct (is_control c) eqn:Ec.
    + assert (0 ≤ c < 160).
      { unfold is_control, in_range in Ec. rewrite orb_true_iff, !andb_true_iff in Ec. lia. }
      change (lit "\u") with [92; 117]. cbn [app string_loop]. cbn [Z.eqb Pos.eqb].
      rewrite unicode_escape_control by done. done.
    + apply short_escape_none in E as (H1 & H2 & _). cbn [app string_loop].
      by rewrite !(proj2 (Z.eqb_neq c _)) by done.
Qed.
Lemma string_loop_plain fuel out c R :
  c ≠ 34 → c ≠ 92 → string_loop (S fuel) out (c :: R) = string_loop fuel (out ++ [c]) R.
Proof. intros H1 H2. cbn [string_loop]. by rewrite !(proj2 (Z.eqb_neq c _)) by done. Qed.

Lemma hex_char_ascii x : 0 ≤ x < 16 → 48 ≤ hex_char x < 128.
Proof. intros Hx. unfold hex_char. case_match; lia. Qed.
Lemma hex4_ascii v : Forall (λ c, 48 ≤ c < 128) (hex4 v).
Proof. unfold hex4. repeat constructor; (apply hex_char_ascii; apply Z.mod_pos_bound; lia). Qed.

Lemma ascii_byte_length s : Forall (λ c, c < 128) s → byte_length s = length s.
Proof.
  induction 1 as [|c s Hc _ IH]; [done|]. rewrite byte_length_cons, len_utf8_ascii by done. by rewrite IH.
Qed.
Lemma escape_one_length c : byte_length (escape_one c) = escaped_len c.
Proof.
  unfold escape_one, escaped_len. destruct (short_escape c) as [e|] eqn:E.
  - apply short_escape_spec in E. repeat (apply elem_of_cons in E as [[= -> ->]|E]; [reflexivity|]).
    by apply not_elem_of_nil in E.
  - destruct (is_control c).
    + rewrite byte_length_app, (ascii_byte_length (hex4 c)); [done|].
      eapply Forall_impl; [apply hex4_ascii|]. simpl. lia.
    + rewrite byte_length_cons, byte_length_nil. lia.
Qed.
Lemma escape_one_no_newline c : 10 ∉ escape_one c.
Proof.
  unfold escape_one. destruct (short_escape c) as [e|] eqn:E.
  - apply short_escape_spec in E. repeat (apply elem_of_cons in E as [[= -> ->]|E]; [set_solver|]).
    by apply not_elem_of_nil in E.
  - destruct (is_control c).
    + rewrite elem_of_app. intros [H|H]; [change (lit "\u") with [92; 117] in H; set_solver|].
      pose proof (hex4_ascii c) as Hf. eapply Forall_forall in Hf; [|done]. simpl in Hf. lia.
    + apply short_escape_none in E as (_ & _ & H). intros Hc%list_elem_of_singleton. congruence.
Qed.

(** The loop keeps a prefix, escaped, within the cap; all of it unless it says otherwise. *)
Lemma json_body_spec max s body :
  (body ≤ max)%nat →
  let r := json_body max body s in
  ∃ p, p `prefix_of` s ∧ r.1 = p ≫= escape_one ∧ (body + byte_length r.1 ≤ max)%nat ∧
       (r.2 = false ↔ p = s) ∧ (r.2 = false ↔ (body + byte_length (s ≫= escape_one) ≤ max)%nat).
Proof.
  revert body. induction s as [|c s IH]; intros body Hb; cbn [json_body]; cbv zeta.
  { exists []. change (byte_length []) with 0%nat. cbn. repeat split; try done; lia. }
  change ((c :: s) ≫= escape_one) with (escape_one c ++ (s ≫= escape_one)).
  rewrite byte_length_app, escape_one_length. case_decide as Hd.
  { exists []. change (byte_length []) with 0%nat. cbn. split; [apply prefix_nil|]. repeat split; try done; lia. }
  destruct (IH (body + escaped_len c)%nat) as (p & Hp & Hr & Hl & He & Hx); [lia|].
  destruct (json_body max (body + escaped_len c) s) as [r t]. simpl in *. subst r.
  exists (c :: p). split; [by apply prefix_cons|].
  change ((c :: p) ≫= escape_one) with (escape_one c ++ (p ≫= escape_one)). split; [done|].
  rewrite byte_length_app, escape_one_length. split; [lia|]. split; [rewrite He; naive_solver|].
  rewrite Hx. split; lia.
Qed.

Lemma json_string_shape s max :
  ∃ p, p `prefix_of` s ∧
    json_string s max = [34] ++ (p ≫= escape_one) ++ (if bool_decide (p = s) then [] else lit "...") ++ [34] ∧
    (byte_length (p ≫= escape_one) ≤ max)%nat ∧ (p = s ↔ (byte_length (s ≫= escape_one) ≤ max)%nat).
Proof.
  destruct (json_body_spec max s 0) as (p & Hp & Hr & Hl & He & Hx); [lia|]. simpl in *.
  unfold json_string. destruct (json_body max 0 s) as [r t]. simpl in *. subst r. exists p.
  split; [done|]. split; [|split; [done|by rewrite <-He]].
  case_bool_decide as E; [by rewrite (proj2 He E)|]. destruct t; [done|]. by destruct E; apply He.
Qed.

Lemma json_string_bound s max : (byte_length (json_string s max) ≤ max + 5)%nat ∧ 10 ∉ json_string s max.
Proof.
  destruct (json_string_shape s max) as (p & _ & -> & Hl & _). rewrite !byte_length_app.
  assert (byte_length (if bool_decide (p = s) then [] else lit "...") ≤ 3)%nat.
  { destruct (bool_decide _); [rewrite byte_length_nil; lia|done]. }
  split; [change (byte_length [34]) with 1%nat; lia|].
  rewrite !elem_of_app, list_elem_of_bind. intros [H1|[(c & Hc & _)|[H1|H1]]]; [set_solver| | |set_solver].
  - by apply escape_one_no_newline in Hc.
  - destruct (bool_decide _); [by apply not_elem_of_nil in H1|]. change (lit "...") with [46; 46; 46] in H1. set_solver.
Qed.

(** The strings of an export are JSON and bounded: parsing the literal of any text gives the
    text back when its escaped form fits the cap, and otherwise a prefix of it with an ellipsis;
    the literal never exceeds the cap by more than its quotes and ellipsis and has no line feed. *)
Theorem evidence_json_exact s max rest :
  Forall (λ c, 0 ≤ c) s →
  ∃ p, p `prefix_of` s ∧
    parse_string (json_string s max ++ rest) = Ok (if bool_decide (p = s) then s else p ++ lit "...", rest) ∧
    (p = s ↔ (byte_length (s ≫= escape_one) ≤ max)%nat) ∧
    (byte_length (json_string s max) ≤ max + 5)%nat ∧ 10 ∉ json_string s max.
Proof.
  intros Hs. destruct (json_string_shape s max) as (p & Hp & E & Hl & Hx). exists p. split; [done|].
  split; [|split; [done|apply json_string_bound]]. rewrite E. rewrite <-!app_assoc.
  assert (∀ q, Forall (λ c, 0 ≤ c) q → ∀ fuel out R, (length q ≤ fuel)%nat →
    string_loop fuel out ((q ≫= escape_one) ++ R) = string_loop (fuel - length q) (out ++ q) R) as Hloop.
  { induction 1 as [|c q Hc _ IH]; intros fuel out R Hf; [by rewrite app_nil_r, Nat.sub_0_r|].
    destruct fuel as [|fuel]; [simpl in Hf; lia|].
    change ((c :: q) ≫= escape_one) with (escape_one c ++ (q ≫= escape_one)).
    rewrite <-app_assoc, string_loop_one by done. rewrite IH by (simpl in Hf; lia).
    rewrite <-app_assoc. done. }
  assert (∀ q : chars, (length q ≤ length (q ≫= escape_one))%nat) as Hlen.
  { induction q as [|c q IH]; [done|]. change ((c :: q) ≫= escape_one) with (escape_one c ++ (q ≫= escape_one)).
    rewrite length_app. assert (1 ≤ length (escape_one c))%nat; [|simpl; lia].
    unfold escape_one. repeat case_match; simpl; lia. }
  unfold parse_string. cbn [app expect]. rewrite Z.eqb_refl. cbn [mbind result_bind].
  assert (Forall (λ c, 0 ≤ c) p) as Hpn by (destruct Hp as [t ->]; by apply Forall_app in Hs as [? _]).
  specialize (Hlen p). rewrite Hloop by (done || rewrite !length_app; lia). cbn [app].
  rewrite !length_app. case_bool_decide as Ep.
  - subst p. cbn [app length]. match goal with |- string_loop ?f _ _ = _ => destruct f eqn:Ef; [lia|] end. done.
  - change (lit "...") with [46; 46; 46]. cbn [app length].
    match goal with |- string_loop ?f _ _ = _ => destruct f as [|[|[|[|f']]]] eqn:Ef; try lia end.
    rewrite !string_loop_plain by done. cbn [string_loop]. rewrite Z.eqb_refl. by rewrite <-!app_assoc.
Qed.
Lemma evidence_json_exact_witness :
  Forall (λ c, 0 ≤ c) [34; 10; 27; 8364] ∧
  ∃ p, p `prefix_of` [34; 10; 27; 8364] ∧
    parse_string (json_string [34; 10; 27; 8364] 12 ++ lit "x")
      = Ok (if bool_decide (p = [34; 10; 27; 8364]) then [34; 10; 27; 8364] else p ++ lit "...", lit "x").
Proof.
  split; [repeat constructor; lia|].
  destruct (evidence_json_exact [34; 10; 27; 8364] 12 (lit "x")) as (p & H1 & H2 & _); [repeat constructor; lia|].
  by exists p.
Defined.

(** ** The exports *)

(** [s] is one line of at most [n] bytes. *)
Definition line_within (n : nat) (s : chars) : Prop := (byte_length s ≤ n)%nat ∧ 10 ∉ s.

Lemma within_app n m a b : line_within n a → line_within m b → line_within (n + m) (a ++ b).
Proof. intros [Ha Ha'] [Hb Hb']. split; [rewrite byte_length_app; lia|]. by rewrite elem_of_app; intros [?|?]. Qed.
Lemma within_lit (t : string) n :
  (length (lit t) <=? n)%nat && forallb (λ c, (c <? 128) && negb (c =? 10)) (lit t) = true → line_within n (lit t).
Proof.
  intros [Hl Hf]%andb_true_iff. apply Nat.leb_le in Hl. rewrite forallb_forall in Hf. split.
  - rewrite ascii_byte_length; [done|]. apply Forall_forall. intros c Hc%list_elem_of_In%Hf.
    apply andb_true_iff in Hc as [? _]. lia.
  - intros Hc%list_elem_of_In%Hf. done.
Qed.
Lemma within_mono n m s : line_within n s → (n ≤ m)%nat → line_within m s.
Proof. intros [H1 H2] Hm. split; [lia|done]. Qed.
Lemma within_key k :
  forallb (λ c, (c <? 128) && negb (c =? 10)) (lit k) = true → line_within (length (lit k) + 3) (jkey k).
Proof.
  intros Hk. unfold jkey. replace (length (lit k) + 3)%nat with (1 + (length (lit k) + 2))%nat by lia.
  apply within_app; [by split; [|set_solver]|]. apply within_app; [|by split; [|set_solver]].
  apply within_lit. by rewrite Nat.leb_refl, Hk.
Qed.
Lemma within_string s max : line_within (max + 5) (json_string s max).
Proof. apply json_string_bound. Qed.
Lemma within_opt o max : line_within (max + 5) (json_opt o max).
Proof. destruct o; unfold json_opt; [apply within_string|]. apply (within_mono 4); [by apply within_lit|lia]. Qed.
Lemma within_bool b : line_within 5 (json_bool b).
Proof. by destruct b; apply within_lit. Qed.
Lemma within_join n l : Forall (line_within n) l → line_within (length l * S n) (join_with 44 l).
Proof.
  induction 1 as [|x l Hx Hl IH]; [split; [done|apply not_elem_of_nil]|].
  destruct l as [|y l]; [apply (within_mono n); [done|simpl; lia]|].
  change (join_with 44 (x :: y :: l)) with (x ++ [44] ++ join_with 44 (y :: l)).
  apply (within_mono (n + (1 + length (y :: l) * S n))); [|simpl; lia].
  apply within_app; [done|]. apply within_app; [by split; [|set_solver]|done].
Qed.
Lemma within_array vs items max : line_within (items * (max + 6) + 2) (push_json_string_array vs items max).
Proof.
  unfold push_json_string_array. apply (within_mono (1 + (items * (max + 6) + 1))); [|lia].
  apply within_app; [by apply within_lit|]. apply within_app; [|by apply within_lit].
  set (l := (λ v, json_string v max) <$> take items vs).
  apply (within_mono (length l * S (max + 5))).
  - apply within_join. apply Forall_fmap, Forall_forall. intros v _. apply within_string.
  - unfold l. rewrite length_fmap, length_take. nia.
Qed.

Ltac within_step :=
  lazymatch goal with
  | |- line_within _ (_ ++ _) => eapply within_app
  | |- line_within _ (lit ?t) =>
      let n := eval vm_compute in (length (lit t)) in apply (within_lit t n); vm_compute; reflexivity
  | |- line_within _ (jkey ?k) => apply (within_key k); vm_compute; reflexivity
  | |- line_within _ (json_string _ _) => apply within_string
  | |- line_within _ (json_opt _ _) => apply within_opt
  | |- line_within _ (json_bool _) => apply within_bool
  | |- line_within _ (push_json_string_array _ _ _) => apply within_array
  end.

Lemma within_command c : line_within 820 (export_command c).
Proof.
  unfold export_command. eapply within_mono; [repeat within_step|]. apply Nat.leb_le. vm_compute. reflexivity.
Qed.

(** 64 KiB. *)
Definition EXPORT_LIMIT : nat := 128 * 512.

Lemma export_json_within b : line_within EXPORT_LIMIT (export_json b).
Proof.
  unfold export_json. set (cs := join_with 44 (export_command <$> _)).
  assert (line_within (32 * 821) cs) as Hcs.
  { unfold cs. set (l := export_command <$> _). apply (within_mono (length l * 821)).
    - apply (within_join 820). apply Forall_fmap, Forall_forall. intros c _. apply within_command.
    - unfold l. rewrite length_fmap, length_take. unfold MAX_EVIDENCE_EXPORT_COMMANDS. lia. }
  eapply within_mono; [repeat (within_step || exact Hcs)|]. apply Nat.leb_le. vm_compute. reflexivity.
Qed.

(** Markdown is bounded too, but has lines. *)
Lemma bound_length s max : (byte_length (bound s max) ≤ max + 3)%nat.
Proof.
  unfold bound. case_decide; [lia|]. rewrite byte_length_app. pose proof (take_bytes_bound max s).
  change (byte_length (lit "...")) with 3%nat. lia.
Qed.
Lemma dec_u_bytes n : 0 ≤ n < 2 ^ 64 → (byte_length (dec_u n) ≤ 64)%nat.
Proof.
  intros Hn. rewrite ascii_byte_length.
  - pose proof (dec_u_length 20 n ltac:(lia)). lia.
  - apply Forall_forall. intros c Hc%dec_u_digits; lia.
Qed.
Lemma overflow_length total cap : Z.of_nat total < 2 ^ 64 → (byte_length (append_overflow total cap) ≤ 128)%nat.
Proof.
  intros Ht. unfold append_overflow. case_decide; [|rewrite byte_length_nil; lia]. rewrite !byte_length_app.
  assert (byte_length (dec_u (Z.of_nat (total - cap))) ≤ 64)%nat by (apply dec_u_bytes; lia).
  change (byte_length (lit "- ")) with 2%nat. change (byte_length [ELLIPSIS]) with 3%nat.
  change (byte_length (lit " more (see the audit JSON for the full set)")) with 43%nat.
  change (byte_length NL) with 1%nat. lia.
Qed.
Lemma md_list_length {A} (show : A → chars) n cap l :
  (∀ x, (byte_length (show x) ≤ n)%nat) → Z.of_nat (length l) < 2 ^ 64 →
  (byte_length (md_list show cap l) ≤ cap * n + 128)%nat.
Proof.
  intros Hs Hl. unfold md_list. rewrite byte_length_app. pose proof (overflow_length (length l) cap Hl).
  assert (∀ k : list A, (byte_length (k ≫= show) ≤ length k * n)%nat) as Hk.
  { induction k as [|x k IH]; [done|]. change ((x :: k) ≫= show) with (show x ++ (k ≫= show)).
    rewrite byte_length_app. specialize (Hs x). simpl. lia. }
  specialize (Hk (take cap l)). rewrite length_take in Hk. nia.
Qed.
Lemma code_length s : byte_length (code s) = (byte_length s + 2)%nat.
Proof. unfold code. rewrite !byte_length_app. change (byte_length [96]) with 1%nat. lia. Qed.

Lemma md_command_length c : (byte_length (md_command c) ≤ 512)%nat.
Proof.
  unfold md_command. rewrite !byte_length_app, code_length. pose proof (bound_length (el_command c) 240).
  change (byte_length (lit "- ")) with 2%nat. change (byte_length dash) with 5%nat. change (byte_length NL) with 1%nat.
  assert (byte_length (if el_passed c then lit "passed" else lit "failed") ≤ 6)%nat by (by destruct (el_passed c)).
  destruct (el_note c) as [n|]; [|rewrite byte_length_nil; lia]. rewrite byte_length_app.
  pose proof (bound_length n 240). change (byte_length dash) with 5%nat. lia.
Qed.

Lemma markdown_within b :
  Z.of_nat (length (eb_commands b)) < 2 ^ 64 → Z.of_nat (length (eb_receipts b)) < 2 ^ 64 →
  Z.of_nat (length (eb_risks b)) < 2 ^ 64 → (byte_length (to_markdown b) ≤ EXPORT_LIMIT)%nat.
Proof.
  intros Hc Hr Hk. unfold to_markdown. rewrite !byte_length_app, !code_length.
  pose proof (bound_length (eb_run_id b) 160). pose proof (bound_length (eb_verifier_plan b) 240).
  assert (byte_length (lifecycle_label (eb_lifecycle b)) ≤ 32)%nat by (by destruct (eb_lifecycle b); apply Nat.leb_le).
  assert (byte_length (verdict_label (verdict b)) ≤ 32)%nat by (by destruct (verdict b); apply Nat.leb_le).
  assert (byte_length (ci_label (eb_ci b)) ≤ 32)%nat by (by destruct (eb_ci b); apply Nat.leb_le).
  assert (byte_length (match eb_patch_hash b with Some h => lit "- Patch: " ++ code (bound h 128) ++ NL | None => [] end) ≤ 160)%nat.
  { destruct (eb_patch_hash b) as [h|]; [|rewrite byte_length_nil; lia].
    rewrite !byte_length_app, code_length. pose proof (bound_length h 128).
    change (byte_length (lit "- Patch: ")) with 9%nat. change (byte_length NL) with 1%nat. lia. }
  assert (byte_length (match eb_commands b with [] => lit "- none recorded" ++ NL
      | cs => md_list md_command MAX_EVIDENCE_EXPORT_COMMANDS cs end) ≤ 40 * 512)%nat.
  { destruct (eb_commands b) as [|x l]; [by apply Nat.leb_le|].
    pose proof (md_list_length md_command 512 MAX_EVIDENCE_EXPORT_COMMANDS (x :: l) md_command_length Hc).
    unfold MAX_EVIDENCE_EXPORT_COMMANDS in *. lia. }
  assert (byte_length (match eb_receipts b with [] => lit "- none recorded" ++ NL
      | rs => md_list (λ r, lit "- " ++ code (bound r 160) ++ NL) MAX_EVIDENCE_EXPORT_REFS rs end) ≤ 40 * 512)%nat.
  { destruct (eb_receipts b) as [|x l]; [by apply Nat.leb_le|].
    pose proof (md_list_length (λ r, lit "- " ++ code (bound r 160) ++ NL) 168 MAX_EVIDENCE_EXPORT_REFS (x :: l)) as Hl.
    unfold MAX_EVIDENCE_EXPORT_REFS in *. etransitivity; [apply Hl; [|done]|lia].
    intros r. rewrite !byte_length_app, code_length. pose proof (bound_length r 160).
    change (byte_length (lit "- ")) with 2%nat. change (byte_length NL) with 1%nat. lia. }
  assert (byte_length (match eb_risks b with [] => []
      | rs => NL ++ lit "### Unresolved Risks" ++ NL ++ md_list (λ r, lit "- " ++ bound r 240 ++ NL) MAX_EVIDENCE_EXPORT_RISKS rs end) ≤ 40 * 512)%nat.
  { destruct (eb_risks b) as [|x l]; [rewrite byte_length_nil; lia|]. rewrite !byte_length_app.
    pose proof (md_list_length (λ r, lit "- " ++ bound r 240 ++ NL) 246 MAX_EVIDENCE_EXPORT_RISKS (x :: l)) as Hl.
    unfold MAX_EVIDENCE_EXPORT_RISKS in *. change (byte_length NL) with 1%nat.
    change (byte_length (lit "### Unresolved Risks")) with 20%nat.
    assert (byte_length (md_list (λ r, lit "- " ++ bound r 240 ++ NL) 32 (x :: l)) ≤ 32 * 246 + 128)%nat; [|lia].
    apply Hl; [|done]. intros r. rewrite !byte_length_app. pose proof (bound_length r 240).
    change (byte_length (lit "- ")) with 2%nat. change (byte_length NL) with 1%nat. lia. }
  repeat match goal with |- context [byte_length ?t] =>
    lazymatch t with
    | lit _ => let n := eval vm_compute in (byte_length t) in change (byte_length t) with n
    | NL => change (byte_length t) with 1%nat
    | NOTICE => let n := eval vm_compute in (byte_length t) in change (byte_length t) with n
    end end.
  unfold EXPORT_LIMIT. lia.
Qed.

(** The exports of a bundle are bounded whatever it holds: the JSON is one line of at most
    [EXPORT_LIMIT] bytes, so a bundle is exactly one line of a JSONL file; the Markdown body is at
    most that long for lists that fit a machine word, and starts with the notice that a human has
    to review. *)
Theorem evidence_exports_bounded b :
  Z.of_nat (length (eb_commands b)) < 2 ^ 64 → Z.of_nat (length (eb_receipts b)) < 2 ^ 64 →
  Z.of_nat (length (eb_risks b)) < 2 ^ 64 →
  (byte_length (export_json b) ≤ EXPORT_LIMIT)%nat ∧ lines (export_jsonl_line b) = [export_json b] ∧
  (byte_length (to_markdown b) ≤ EXPORT_LIMIT)%nat ∧ NOTICE `prefix_of` to_markdown b.
Proof.
  intros Hc Hr Hk. destruct (export_json_within b) as [Hl Hn]. split; [done|]. split.
  { unfold export_jsonl_line, lines. rewrite split_on_app by done. cbn [split_on lines_of]. f_equal.
    unfold strip_cr. assert (last (export_json b) = Some 125) as ->; [|done].
    unfold export_json. rewrite !app_assoc. apply last_snoc. }
  split; [by apply markdown_within|by eexists].
Qed.
Definition demo_bundle : EvidenceBundle :=
  mkBundle (lit "r") LBlocked [] [mkEvidenceLine [7] false None] None CiFailed [[10]] [] [].
Lemma evidence_exports_bounded_witness :
  (byte_length (to_markdown demo_bundle) ≤ EXPORT_LIMIT)%nat ∧ NOTICE `prefix_of` to_markdown demo_bundle.
Proof.
  destruct (evidence_exports_bounded demo_bundle) as (_ & _ & H); [vm_compute; reflexivity..|]. exact H.
Defined.
