(* ===== verification/Sandbox.v ===== *)
(** * Running commands: the process runner and the sandbox

    Models [crustcore-runner/src/lib.rs] (command specifications, results and the bounded capture
    of a stream) and [crustcore-sandbox/src/lib.rs] (profiles, the sanitizing of the environment,
    the construction of the sandboxed command lines, the choice of a backend and the gate
    [run_command]). What runs a process is a class; which files exist on the host is a predicate.
    An environment is the list of its entries in the order of its keys, as the map iterates. *)

From S2P Require Import Prelude Text Std Chars Redactor Types Path Policy Strings.

(** ** The process runner *)

Abbreviation Env := (list (chars * chars)).
Record CommandSpec := mkSpec {
  cs_program : chars;
  cs_args : list chars;
  cs_cwd : option chars;
  cs_env : Env;
  cs_stdin : bytes;
  cs_timeout_ms : Z;
  cs_max_output_bytes : nat
}.
Definition CommandSpec_new (program : chars) : CommandSpec :=
  mkSpec program [] None [] [] (300 * 1000) (N.to_nat (8 * 1024 * 1024)).

Inductive ExitStatus := Code (c : Z) | Signal (s : Z) | ETimedOut.
#[export] Instance ExitStatus_eq_dec : EqDecision ExitStatus.
Proof. solve_decision. Defined.
Record CommandResult := mkResult { cr_status : ExitStatus; cr_stdout : bytes; cr_stderr : bytes; cr_truncated : bool }.
Definition is_success (r : CommandResult) : bool := match cr_status r with Code 0 => true | _ => false end.
Inductive RunError := Spawn (e : chars) | RunIo (e : chars).
Definition run_error_display (e : RunError) : chars :=
  match e with
  | Spawn m => lit "failed to spawn command: " ++ m
  | RunIo m => lit "command io error: " ++ m
  end.
(** The status of the process that led the group. *)
Definition from_std_status (code signal : option Z) : ExitStatus :=
  match code, signal with
  | Some c, _ => Code c
  | None, Some s => Signal s
  | None, None => Code (-1)
  end.

(** The capture of one stream: what was read so far and whether something was dropped. The loop
    ends with the stream; an empty read is its end. *)
Record Capture := mkCapture { cap_buf : bytes; cap_total : nat; cap_truncated : bool }.
Definition Capture_new : Capture := mkCapture [] 0 false.
Definition read_chunk (max : nat) (c : Capture) (chunk : bytes) : Capture :=
  if decide (cap_total c < max)%nat then
    let n := Nat.min (max - cap_total c) (length chunk) in
    mkCapture (cap_buf c ++ take n chunk) (cap_total c + n)
      (if decide (n < length chunk)%nat then true else cap_truncated c)
  else mkCapture (cap_buf c) (cap_total c) true.
Fixpoint spawn_reader (max : nat) (c : Capture) (reads : list bytes) : Capture :=
  match reads with
  | [] | [] :: _ => c
  | chunk :: reads' => spawn_reader max (read_chunk max c chunk) reads'
  end.

(** [run]: starting a process and waiting for it, over the state [W] of the host. *)
Class Runner (W : Type) := run : CommandSpec → W → result RunError CommandResult * W.

(** ** Profiles *)

Inductive ExecutionTier := TNone | TStructuredHost | TSandboxed | THostile.
#[export] Instance ExecutionTier_eq_dec : EqDecision ExecutionTier.
Proof. solve_decision. Defined.
Definition tier_rank (t : ExecutionTier) : Z :=
  match t with TNone => 0 | TStructuredHost => 1 | TSandboxed => 2 | THostile => 3 end.
Inductive NetworkPosture := DenyAll | Allowlist.
#[export] Instance NetworkPosture_eq_dec : EqDecision NetworkPosture.
Proof. solve_decision. Defined.
Record SandboxProfile := mkSandboxProfile {
  sp_id : Z;
  sp_tier : ExecutionTier;
  sp_network : NetworkPosture;
  sp_stripped_env : list chars
}.
Definition default_stripped_env : list chars :=
  lit <$>
  ["LD_PRELOAD"; "LD_LIBRARY_PATH"; "DYLD_INSERT_LIBRARIES"; "DYLD_LIBRARY_PATH"; "GIT_CONFIG"; "GIT_CONFIG_GLOBAL";
   "SSH_AUTH_SOCK"; "SSH_ASKPASS"; "AWS_ACCESS_KEY_ID"; "AWS_SECRET_ACCESS_KEY"; "GCP_CREDENTIALS";
   "AZURE_CLIENT_SECRET"; "NPM_TOKEN"; "BASH_ENV"; "ENV"; "SHELLOPTS"; "BASHOPTS"; "PROMPT_COMMAND"; "PS4";
   "PERL5OPT"; "PERL5DB"; "RUBYOPT"; "PYTHONSTARTUP"; "PYTHONINSPECT"; "NODE_OPTIONS"; "GEM_HOME"; "RUBYLIB";
   "PERLLIB"; "PYTHONHOME"; "JAVA_TOOL_OPTIONS"; "_JAVA_OPTIONS"; "JDK_JAVA_OPTIONS"; "GOFLAGS"; "GOENV";
   "ZDOTDIR"; "LESSOPEN"; "LESSCLOSE"]%string.
Definition default_sandboxed : SandboxProfile := mkSandboxProfile 1 TSandboxed DenyAll default_stripped_env.

Inductive SandboxError := NoBackend | Setup (e : chars).
Definition sandbox_error_display (e : SandboxError) : chars :=
  match e with
  | NoBackend => lit "no sandbox backend available on this host"
  | Setup m => lit "sandbox setup failed: " ++ m
  end.

(** ** The environment *)

Definition PATH_LIST_VARS : list string :=
  ["PATH"; "LD_LIBRARY_PATH"; "DYLD_LIBRARY_PATH"; "DYLD_FRAMEWORK_PATH"; "PYTHONPATH"; "NODE_PATH"; "GEM_PATH";
   "PERL5LIB"; "CLASSPATH"]%string.
Definition STRIPPED_PREFIXES : list string :=
  ["LD_"; "DYLD_"; "GIT_"; "AWS_"; "GCP_"; "GOOGLE_"; "AZURE_"; "NPM_"; "DOCKER_"]%string.
Definition HOME_DIR_VARS : list string := ["HOME"; "XDG_CONFIG_HOME"]%string.
Definition CREDENTIAL_WORDS : list string :=
  ["TOKEN"; "SECRET"; "PASSWORD"; "PASSWD"; "APIKEY"; "API_KEY"; "PRIVATE_KEY"; "CREDENTIAL"]%string.

Definition is_stripped (name : chars) (profile : SandboxProfile) : bool :=
  let upper := to_ascii_uppercase name in
  existsb (λ s, eq_ignore_ascii_case s name) (sp_stripped_env profile)
  || existsb (λ p, starts_with (lit p) upper) STRIPPED_PREFIXES
  || existsb (λ w, contains upper (lit w)) CREDENTIAL_WORDS.

Definition is_absolute (p : chars) : bool := match components p with RootDir :: _ => true | _ => false end.
(** [Path::starts_with]: by components. *)
Definition path_starts_with (p root : chars) : bool :=
  bool_decide (take (length (components root)) (components p) = components root).
Definition has_dots (p : chars) : bool :=
  existsb (λ c, bool_decide (c = ParentDir) || bool_decide (c = CurDir)) (components p).

Definition check_component (comp : chars) : result chars unit :=
  if str_eq comp [] then Err (lit "empty component (an empty entry means the current directory)")
  else if bool_decide (0 ∈ comp) then Err (lit "component contains a NUL byte")
  else if negb (is_absolute comp) then Err (lit "relative component '" ++ comp ++ lit "' (must be absolute)")
  else if has_dots comp then Err (lit "component '" ++ comp ++ lit "' contains '.' or '..'")
  else Ok tt.
(** [for x in l { f(x)? }]. *)
Fixpoint try_each {E A} (f : A → result E unit) (l : list A) : result E unit :=
  match l with
  | [] => Ok tt
  | x :: l' => _ ← f x; try_each f l'
  end.
Definition validate_path_list (value : chars) : result chars unit := try_each check_component (split_on 58 value).

Definition env_error {A} (name msg : chars) : result SandboxError A := Err (Setup (lit "env " ++ name ++ lit ": " ++ msg)).
Definition quote (s : chars) : chars := lit "'" ++ s ++ lit "'".
(** One entry that was not stripped: no NUL, a valid path list, a home outside the worktree. *)
Definition check_nul (name value : chars) : result SandboxError unit :=
  if bool_decide (0 ∈ value) then env_error name (lit "value contains a NUL byte") else Ok tt.
Definition check_outside (root name comp : chars) : result SandboxError unit :=
  if path_starts_with comp root
  then env_error name (lit "component " ++ quote comp ++ lit " is inside the (writable) worktree") else Ok tt.
Definition check_path_var (worktree : option chars) (name value : chars) : result SandboxError unit :=
  if one_of PATH_LIST_VARS name then
    _ ← map_err (λ e, Setup (lit "env " ++ name ++ lit ": " ++ e)) (validate_path_list value);
    match worktree with
    | Some root => try_each (check_outside root name) (split_on 58 value)
    | None => Ok tt
    end
  else Ok tt.
Definition check_home_var (worktree : option chars) (name value : chars) : result SandboxError unit :=
  if one_of HOME_DIR_VARS name then
    if negb (is_absolute value) then env_error name (quote value ++ lit " must be an absolute path")
    else match worktree with
         | Some root => if path_starts_with value root
                        then env_error name (quote value ++ lit " is inside the (writable) worktree") else Ok tt
         | None => Ok tt
         end
  else Ok tt.
Definition check_entry (worktree : option chars) (name value : chars) : result SandboxError unit :=
  _ ← check_nul name value;
  _ ← check_path_var worktree name value;
  check_home_var worktree name value.
Fixpoint sanitize_env (requested : Env) (profile : SandboxProfile) (worktree : option chars)
  : result SandboxError Env :=
  match requested with
  | [] => Ok []
  | (name, value) :: rest =>
      if is_stripped name profile then sanitize_env rest profile worktree
      else
        _ ← check_entry worktree name value;
        out ← sanitize_env rest profile worktree;
        Ok ((name, value) :: out)
  end.

(** ** Backends *)

(** The host: which paths exist and which are files. *)
Record Host := mkHost { host_exists : chars → bool; host_is_file : chars → bool }.
Definition find_executable (h : Host) (name : chars) : option chars :=
  find (host_is_file h)
    ((λ dir, lit dir ++ [47] ++ name) <$> ["/usr/bin"; "/bin"; "/usr/local/bin"; "/opt/homebrew/bin"]%string).

Definition SYSTEM_DIRS : list string := ["/usr"; "/bin"; "/sbin"; "/lib"; "/lib64"; "/etc"; "/opt"]%string.
Definition ro_bind (h : Host) (ro : string) : list chars :=
  if host_exists h (lit ro) then [lit "--ro-bind"; lit ro; lit ro] else [].
Definition bwrap_options (h : Host) (cwd : option chars) : list chars :=
  [lit "--die-with-parent"; lit "--unshare-all"; lit "--new-session"] ++
  (SYSTEM_DIRS ≫= ro_bind h) ++
  [lit "--proc"; lit "/proc"; lit "--dev"; lit "/dev"; lit "--tmpfs"; lit "/tmp"] ++
  match cwd with
  | Some d => [lit "--bind"; d; d; lit "--chdir"; d]
  | None => []
  end.
Definition bwrap_wrap (h : Host) (bwrap : chars) (inner : CommandSpec) : CommandSpec :=
  mkSpec bwrap (bwrap_options h (cs_cwd inner) ++ [lit "--"; cs_program inner] ++ cs_args inner) None
    (cs_env inner) (cs_stdin inner) (cs_timeout_ms inner) (cs_max_output_bytes inner).
Definition with_env (spec : CommandSpec) (env : Env) : CommandSpec :=
  mkSpec (cs_program spec) (cs_args spec) (cs_cwd spec) env (cs_stdin spec) (cs_timeout_ms spec) (cs_max_output_bytes spec).

Definition firecracker_wrap (firecracker : chars) (inner : CommandSpec) (vm_config : chars) : CommandSpec :=
  mkSpec firecracker ([lit "--no-api"; lit "--config-file"; vm_config; lit "--"; cs_program inner] ++ cs_args inner)
    (cs_cwd inner) (cs_env inner) (cs_stdin inner) (cs_timeout_ms inner) (cs_max_output_bytes inner).
Definition FC_NO_CWD : chars := lit "firecracker backend requires a worktree cwd to mount into the guest".
Definition firecracker_wrapped_spec (firecracker : chars) (inner : CommandSpec) (vm_config : chars)
  : result SandboxError CommandSpec :=
  match cs_cwd inner with
  | None => Err (Setup FC_NO_CWD)
  | Some _ => Ok (firecracker_wrap firecracker inner vm_config)
  end.

Section Backends.
Context {W : Type} {R : Runner W}.

Record SandboxBackend := mkBackend {
  provided_tier : ExecutionTier;
  backend_run : SandboxProfile → CommandSpec → W → result SandboxError CommandResult * W
}.

Definition bwrap_run (h : Host) (bwrap : chars) (profile : SandboxProfile) (spec : CommandSpec) (w : W)
  : result SandboxError CommandResult * W :=
  match sanitize_env (cs_env spec) profile (cs_cwd spec) with
  | Err e => (Err e, w)
  | Ok env =>
      let '(r, w) := run (bwrap_wrap h bwrap (with_env spec env)) w in
      (map_err (λ e, Setup (run_error_display e)) r, w)
  end.
Definition BubblewrapBackend (h : Host) (bwrap : chars) : SandboxBackend := mkBackend TSandboxed (bwrap_run h bwrap).

(** The two backends that are not wired up sanitize and refuse. *)
Definition firecracker_run (profile : SandboxProfile) (spec : CommandSpec) (w : W)
  : result SandboxError CommandResult * W :=
  (_ ← sanitize_env (cs_env spec) profile (cs_cwd spec);
   _ ← ok_or (cs_cwd spec) (Setup FC_NO_CWD);
   Err (Setup (lit "firecracker microVM boot is not yet wired up (TODO(B4-firecracker-live)); refusing rather than running unconfined")), w).
Definition FirecrackerBackend : SandboxBackend := mkBackend THostile firecracker_run.
Definition windows_run (profile : SandboxProfile) (spec : CommandSpec) (w : W)
  : result SandboxError CommandResult * W :=
  (_ ← sanitize_env (cs_env spec) profile (cs_cwd spec);
   Err (Setup (lit "windows-native confinement is not yet implemented (TODO(B4-windows-live)); refusing rather than running unconfined")), w).
Definition WindowsBackend : SandboxBackend := mkBackend TSandboxed windows_run.

(** The first of the backends of least tier among those that meet the required one. *)
Fixpoint min_tier (best : option SandboxBackend) (l : list SandboxBackend) : option SandboxBackend :=
  match l with
  | [] => best
  | b :: l' =>
      min_tier (match best with
                | None => Some b
                | Some x => if tier_rank (provided_tier b) <? tier_rank (provided_tier x) then Some b else Some x
                end) l'
  end.
Definition select_backend (required : ExecutionTier) (backends : list SandboxBackend)
  : result SandboxError SandboxBackend :=
  ok_or (min_tier None (filter (λ b, tier_rank required ≤ tier_rank (provided_tier b)) backends)) NoBackend.

(** The backends of a Linux build: bubblewrap, and Firecracker with its feature; each is there
    when it detects itself, which the Windows one never does there. *)
Definition host_backends (h : Host) (firecracker : bool) : list SandboxBackend :=
  match find_executable h (lit "bwrap") with Some b => [BubblewrapBackend h b] | None => [] end ++
  (if firecracker then
     match find_executable h (lit "firecracker") with Some _ => [FirecrackerBackend] | None => [] end
   else []).

Definition run_command (h : Host) (f : bool) (cap : SandboxExecCap) (profile : SandboxProfile)
    (spec : CommandSpec) (w : W) : result SandboxError CommandResult * W :=
  if negb (bool_decide (se_profile cap = sp_id profile)) then
    (Err (Setup (lit "sandbox capability profile ScopeId(" ++ dec_u (se_profile cap) ++
                 lit ") does not authorize profile ScopeId(" ++ dec_u (sp_id profile) ++ lit ")")), w)
  else match sp_tier profile with
       | TNone | TStructuredHost =>
           (Err (Setup (lit "this tier does not execute arbitrary commands (use the structured tools)")), w)
       | TSandboxed | THostile =>
           if decide (sp_network profile = Allowlist) then
             (Err (Setup (lit "network allowlist requires the egress proxy (not yet implemented)")), w)
           else
             match select_backend (sp_tier profile) (host_backends h f) with
             | Err e => (Err e, w)
             | Ok backend => backend_run backend profile spec w
             end
       end.
End Backends.

(** ** The Seatbelt profile text *)

Definition sbpl_escape (s : chars) : chars := s ≫= λ c, if (c =? 92) || (c =? 34) then [92; c] else [c].
Definition sbpl_str (s : chars) : chars := [34] ++ s ++ [34].
Definition subpath (s : chars) : chars := lit "(subpath " ++ sbpl_str s ++ lit ")".
Definition literal (s : chars) : chars := lit "(literal " ++ sbpl_str s ++ lit ")".
Definition line (s : chars) : chars := s ++ [10].
Definition indent (parts : list chars) : chars := lit "    " ++ join_with 32 parts.
Definition join_path (dir name : chars) : chars :=
  match last dir with Some 47 => dir ++ name | _ => dir ++ [47] ++ name end.
Definition build_seatbelt_profile (worktree tmpdir : chars) (cargo_home rustup_home : option chars) : chars :=
  let wt := sbpl_escape worktree in
  let tmp := sbpl_escape tmpdir in
  let lits l := (λ s, literal (lit s)) <$> l in
  let subs l := (λ s, subpath (lit s)) <$> l in
  line (lit "(version 1)") ++ line (lit "(allow default)") ++ line (lit "(deny network*)") ++
  line (lit "(deny file-write*)") ++ line (lit "(deny file-read*)") ++ line (lit "(allow file-read*") ++
  line (indent (lits ["/"; "/etc"; "/tmp"; "/var"]%string)) ++
  line (indent (subs ["/System"; "/usr"; "/bin"]%string)) ++
  line (indent (subs ["/sbin"; "/private/etc"; "/etc"]%string)) ++
  line (indent (subs ["/private/var/db/dyld"; "/private/var/db/timezone"]%string)) ++
  line (indent (lits ["/private/var/db/DarwinDirectory/local/recordStore.data"]%string)) ++
  line (indent (lits ["/private/var/db/eligibilityd/eligibility.plist"]%string)) ++
  line (indent (subs ["/Library/Apple"; "/Library/Developer"]%string)) ++
  line (indent (subs ["/Library/Filesystems/NetFSPlugins"]%string)) ++
  line (indent (subs ["/Library/Preferences/Logging"]%string)) ++
  line (indent (subs ["/Applications/Xcode.app"; "/opt"]%string)) ++
  line (indent (subs ["/dev"]%string ++ [subpath wt; subpath tmp]) ++ lit ")") ++
  match cargo_home with
  | Some path =>
      line (lit "(allow file-read* " ++ subpath (sbpl_escape path) ++ lit ")") ++
      (["credentials"; "credentials.toml"]%string ≫= λ name,
         line (lit "(deny file-read* " ++ literal (sbpl_escape (join_path path (lit name))) ++ lit ")"))
  | None => []
  end ++
  match rustup_home with
  | Some path => line (lit "(allow file-read* " ++ subpath (sbpl_escape path) ++ lit ")")
  | None => []
  end ++
  line (lit "(allow file-write*") ++ line (indent [subpath wt]) ++ line (indent [subpath tmp]) ++
  line (indent (lits ["/dev/null"; "/dev/zero"]%string)) ++
  line (indent (lits ["/dev/stdout"; "/dev/stderr"; "/dev/tty"]%string)) ++
  line (indent (lits ["/dev/dtracehelper"; "/dev/urandom"]%string) ++ lit ")").
