(* ===== verification/SandboxTheorems.v ===== *)
(** * Properties of the runner and the sandbox

    The capture of a stream is its bounded prefix, the sanitized environment is exactly the part
    of the requested one that is safe, and a command reaches a process only inside bubblewrap,
    for the profile its capability names, with the network denied. *)

From S2P Require Import Prelude Text Std Chars Redactor Types Path Policy Strings Sandbox.

(** ** Capture *)

(** The bytes up to the end of the stream. *)
Fixpoint stream_bytes (reads : list bytes) : bytes :=
  match reads with
  | [] | [] :: _ => []
  | chunk :: reads' => chunk ++ stream_bytes reads'
  end.

Lemma spawn_reader_spec max reads data c :
  cap_buf c = take max data → cap_total c = length (cap_buf c) →
  cap_truncated c = bool_decide (max < length data)%nat →
  let c' := spawn_reader max c reads in
  let all := data ++ stream_bytes reads in
  cap_buf c' = take max all ∧ cap_truncated c' = bool_decide (max < length all)%nat.
Proof.
  revert data c. induction reads as [|chunk reads IH]; intros data c Hb Ht Hc; cbn [spawn_reader stream_bytes].
  { by rewrite app_nil_r. }
  destruct chunk as [|x chunk]; [by rewrite app_nil_r|].
  set (ch := x :: chunk) in *. cbv zeta. rewrite app_assoc.
  rewrite Hb, length_take in Ht. unfold read_chunk. rewrite Ht.
  destruct (decide (length data < max)%nat) as [Hd|Hd].
  - replace (Nat.min max (length data)) with (length data) by lia. rewrite decide_True by lia.
    rewrite Hb, (firstn_all2 data) by lia.
    apply IH; cbn [cap_buf cap_total cap_truncated].
    + rewrite take_app, (firstn_all2 data) by lia. f_equal. destruct (decide (max - length data ≤ length ch)%nat).
      * f_equal. lia.
      * rewrite !firstn_all2 by lia. done.
    + rewrite length_app, length_take. lia.
    + rewrite Hc, length_app. rewrite (bool_decide_eq_false_2 (max < length data)%nat) by lia.
      destruct (decide (max < length data + length ch)%nat).
      * by rewrite decide_True, bool_decide_eq_true_2 by lia.
      * by rewrite decide_False, bool_decide_eq_false_2 by lia.
  - replace (Nat.min max (length data)) with max by lia. rewrite decide_False by lia.
    apply IH; cbn [cap_buf cap_total cap_truncated].
    + rewrite Hb. by rewrite take_app_le by lia.
    + rewrite Hb, length_take. lia.
    + rewrite length_app. unfold ch. simpl. by rewrite bool_decide_eq_true_2 by lia.
Qed.

(** The capture of a stream is bounded and says what it dropped: however the stream is cut
    into reads, what is kept is its first [max] bytes, and the truncation flag is set exactly when
    the stream is longer. *)
Theorem capture_exact max reads :
  let c := spawn_reader max Capture_new reads in
  cap_buf c = take max (stream_bytes reads) ∧
  cap_truncated c = bool_decide (max < length (stream_bytes reads))%nat.
Proof.
  apply (spawn_reader_spec max reads [] Capture_new); cbn; [by rewrite take_nil|done|].
  by rewrite bool_decide_eq_false_2 by lia.
Qed.

(** ** The environment *)

(** What an entry that crosses into the sandbox must satisfy. *)
Definition component_ok (worktree : option chars) (comp : chars) : Prop :=
  comp ≠ [] ∧ (0 ∉ comp) ∧ is_absolute comp = true ∧ (ParentDir ∉ components comp) ∧
  (∀ root, worktree = Some root → path_starts_with comp root = false).
Definition entry_ok (worktree : option chars) (name value : chars) : Prop :=
  (0 ∉ value) ∧
  (one_of PATH_LIST_VARS name = true → Forall (component_ok worktree) (split_on 58 value)) ∧
  (one_of HOME_DIR_VARS name = true → is_absolute value = true ∧
     ∀ root, worktree = Some root → path_starts_with value root = false).

Lemma try_each_ok {E A} (f : A → result E unit) l : try_each f l = Ok tt ↔ Forall (λ x, f x = Ok tt) l.
Proof.
  induction l as [|x l IH]; cbn [try_each]; [split; [constructor|done]|]. rewrite Forall_cons, <-IH.
  destruct (f x) as [[]|e]; cbn; naive_solver.
Qed.

(** A current-directory component only occurs at the front of a relative path. *)
Lemma absolute_no_cur p : is_absolute p = true → CurDir ∉ components p.
Proof.
  assert (∀ s, CurDir ∉ segment s) as Hseg.
  { intros s. unfold segment. repeat case_match; set_solver. }
  assert (∀ ss, CurDir ∉ ss ≫= segment) as Hsegs.
  { intros ss. rewrite list_elem_of_bind. intros (s & H & _). by apply Hseg in H. }
  unfold is_absolute, components. destruct (split_slash p) as [|[|c s] ss]; [done| |].
  - intros _. rewrite elem_of_app. intros [H|H]; [destruct ss; set_solver|by apply Hsegs in H].
  - intros Ha. case_bool_decide; [done|]. rewrite elem_of_app. intros [H1|H1]; [by apply Hseg in H1|by apply Hsegs in H1].
Qed.

Lemma check_component_ok comp :
  check_component comp = Ok tt ↔
  comp ≠ [] ∧ (0 ∉ comp) ∧ is_absolute comp = true ∧ ParentDir ∉ components comp.
Proof.
  unfold check_component, str_eq. case_bool_decide; [naive_solver|]. case_bool_decide; [naive_solver|].
  destruct (is_absolute comp) eqn:Ha; cbn [negb]; [|naive_solver].
  assert (has_dots comp = true ↔ ParentDir ∈ components comp) as Hd.
  { unfold has_dots. rewrite existsb_exists. split.
    - intros (c & Hc & [E|E]%orb_true_iff); apply bool_decide_eq_true in E as ->;
        apply list_elem_of_In in Hc; [done|]. by apply absolute_no_cur in Hc.
    - intros Hp. exists ParentDir. split; [by apply list_elem_of_In|]. by apply orb_true_iff; left; apply bool_decide_eq_true. }
  destruct (has_dots comp).
  - split; [done|]. intros (_ & _ & _ & H1). by destruct H1; apply Hd.
  - split; [intros _|done]. do 3 (split; [done|]). intros H1. by apply Hd in H1.
Qed.

Lemma bind_ok {E A B} (r : result E A) (f : A → result E B) b :
  r ≫= f = Ok b ↔ ∃ a, r = Ok a ∧ f a = Ok b.
Proof. destruct r; naive_solver. Qed.
Lemma bind_unit_ok {E} (r s : result E unit) : (_ ← r; s) = Ok tt ↔ r = Ok tt ∧ s = Ok tt.
Proof. rewrite bind_ok. split; [intros ([] & ? & ?)|intros [? ?]]; eauto. Qed.

Lemma check_path_var_ok worktree name value :
  check_path_var worktree name value = Ok tt ↔
  (one_of PATH_LIST_VARS name = true → Forall (component_ok worktree) (split_on 58 value)).
Proof.
  unfold check_path_var. destruct (one_of PATH_LIST_VARS name); [|naive_solver]. rewrite bind_unit_ok.
  assert (map_err (λ e, Setup (lit "env " ++ name ++ lit ": " ++ e)) (validate_path_list value) = Ok tt ↔
    Forall (λ comp, check_component comp = Ok tt) (split_on 58 value)) as ->.
  { rewrite <-try_each_ok. fold (validate_path_list value). destruct (validate_path_list value) as [[]|]; naive_solver. }
  assert (match worktree with Some root => try_each (check_outside root name) (split_on 58 value) | None => Ok tt end = Ok tt ↔
    ∀ root, worktree = Some root → Forall (λ comp, path_starts_with comp root = false) (split_on 58 value)) as ->.
  { destruct worktree as [root|]; [|naive_solver]. rewrite try_each_ok, !Forall_forall. unfold check_outside.
    split.
    - intros H root' [= <-]. apply Forall_forall. intros comp Hin. specialize (H comp Hin).
      by destruct (path_starts_with comp root).
    - intros H comp Hin. specialize (H root eq_refl). rewrite Forall_forall in H. by rewrite (H comp Hin). }
  rewrite !Forall_forall. unfold component_ok. setoid_rewrite check_component_ok. split.
  - intros [H1 H2] _ comp Hin. specialize (H1 comp Hin). destruct H1 as (? & ? & ? & ?). repeat split; try done.
    intros root Hr. specialize (H2 root Hr). rewrite Forall_forall in H2. by apply H2.
  - intros H. specialize (H eq_refl). split; [intros comp Hin; specialize (H comp Hin); naive_solver|].
    intros root Hr. apply Forall_forall. intros comp Hin. specialize (H comp Hin). naive_solver.
Qed.

Lemma check_entry_ok worktree name value : check_entry worktree name value = Ok tt ↔ entry_ok worktree name value.
Proof.
  unfold check_entry, entry_ok. rewrite !bind_unit_ok, check_path_var_ok.
  assert (check_nul name value = Ok tt ↔ 0 ∉ value) as ->.
  { unfold check_nul, env_error. case_bool_decide; naive_solver. }
  assert (check_home_var worktree name value = Ok tt ↔ (one_of HOME_DIR_VARS name = true →
    is_absolute value = true ∧ ∀ root, worktree = Some root → path_starts_with value root = false)) as ->; [|done].
  unfold check_home_var, env_error. destruct (one_of HOME_DIR_VARS name); [|naive_solver].
  destruct (is_absolute value); cbn [negb]; [|naive_solver]. destruct worktree as [root|]; [|naive_solver].
  destruct (path_starts_with value root) eqn:E; split; try done.
  - intros H. destruct (H eq_refl) as [_ H']. specialize (H' root eq_refl). congruence.
  - intros _ _. split; [done|]. by intros ? [= <-].
Qed.

(** The environment that reaches a sandbox is exactly the safe part of the one requested: it is
    refused when any variable that is not stripped has a NUL, a path list with an entry that is
    empty, relative, has a parent component or lies inside the worktree, or a home that is
    relative or inside the worktree; otherwise it is the requested entries, in order, without the
    stripped ones, among them every name of the profile's list in any case, every loader, Git or
    cloud prefix and every name that reads like a credential. *)
Theorem sanitize_env_exact requested profile worktree :
  match sanitize_env requested profile worktree with
  | Ok out => out = filter (λ e, is_stripped e.1 profile = false) requested ∧
              Forall (λ e, entry_ok worktree e.1 e.2) out
  | Err _ => ∃ name value, (name, value) ∈ requested ∧ is_stripped name profile = false ∧
                           ¬ entry_ok worktree name value
  end.
Proof.
  induction requested as [|[name value] rest IH]; cbn [sanitize_env]; [split; [done|constructor]|].
  destruct (is_stripped name profile) eqn:Hs.
  { destruct (sanitize_env rest profile worktree).
    - by rewrite filter_cons_False by (simpl; congruence).
    - destruct IH as (n & v & Hin & ?). exists n, v. split; [by right|done]. }
  destruct (check_entry worktree name value) as [[]|e] eqn:Hc; cbn [mbind result_bind].
  - apply check_entry_ok in Hc. destruct (sanitize_env rest profile worktree) as [out|e].
    + destruct IH as [-> Hf]. rewrite filter_cons_True by done. split; [done|]. by constructor.
    + destruct IH as (n & v & Hin & ?). exists n, v. split; [by right|done].
  - exists name, value. split; [left|]. split; [done|]. intros H%check_entry_ok. congruence.
Qed.

(** ** The gate *)

Section Gate.
Context {W : Type} {R : Runner W}.

Lemma min_tier_spec (l : list (SandboxBackend (W := W))) best b :
  min_tier best l = Some b →
  (best = Some b ∨ b ∈ l) ∧
  (∀ x, best = Some x ∨ x ∈ l → tier_rank (provided_tier b) ≤ tier_rank (provided_tier x)).
Proof.
  revert best. induction l as [|y l IH]; intros best H; cbn [min_tier] in H.
  { subst. split; [by left|]. intros x [[= ->]|Hx]; [lia|by apply not_elem_of_nil in Hx]. }
  apply IH in H as [Hb Hmin]. destruct best as [z|].
  - destruct (Z.ltb_spec (tier_rank (provided_tier y)) (tier_rank (provided_tier z))).
    + split; [destruct Hb as [[= ->]|Hb]; right; [left|by right]|].
      intros x [[= ->]|[->|Hx]%elem_of_cons]; [|apply Hmin; by left|apply Hmin; by right].
      specialize (Hmin y (or_introl eq_refl)). lia.
    + split; [destruct Hb as [Hb|Hb]; [by left|right; by right]|].
      intros x [[= ->]|[->|Hx]%elem_of_cons]; [apply Hmin; by left| |apply Hmin; by right].
      specialize (Hmin z (or_introl eq_refl)). lia.
  - split; [destruct Hb as [[= ->]|Hb]; right; [left|by right]|].
    intros x [?|[->|Hx]%elem_of_cons]; [done|apply Hmin; by left|apply Hmin; by right].
Qed.

(** A backend is chosen if one is strong enough, never a weaker one, and the weakest such. *)
Lemma select_backend_spec required (bs : list (SandboxBackend (W := W))) b :
  select_backend required bs = Ok b →
  b ∈ bs ∧ tier_rank required ≤ tier_rank (provided_tier b) ∧
  ∀ x, x ∈ bs → tier_rank required ≤ tier_rank (provided_tier x) →
       tier_rank (provided_tier b) ≤ tier_rank (provided_tier x).
Proof.
  unfold select_backend. destruct (min_tier _ _) as [x|] eqn:E; [|done]. intros [= ->].
  apply min_tier_spec in E as [[?|[Ht Hin]%list_elem_of_filter] Hmin]; [done|]. split; [done|]. split; [done|].
  intros x Hx Hr. apply Hmin. right. by apply list_elem_of_filter.
Qed.

(** What bubblewrap is run with. *)
Definition confined_spec (h : Host) (bwrap : chars) (env : Env) (spec : CommandSpec) : CommandSpec :=
  mkSpec bwrap
    (([lit "--die-with-parent"; lit "--unshare-all"; lit "--new-session"] ++ (SYSTEM_DIRS ≫= ro_bind h) ++
      [lit "--proc"; lit "/proc"; lit "--dev"; lit "/dev"; lit "--tmpfs"; lit "/tmp"] ++
      match cs_cwd spec with Some d => [lit "--bind"; d; d; lit "--chdir"; d] | None => [] end) ++
     [lit "--"; cs_program spec] ++ cs_args spec)
    None env (cs_stdin spec) (cs_timeout_ms spec) (cs_max_output_bytes spec).
Definition confined (h : Host) (cap : SandboxExecCap) (profile : SandboxProfile) (spec : CommandSpec) (w : W)
    (r : result SandboxError CommandResult) (w' : W) : Prop :=
  se_profile cap = sp_id profile ∧ sp_tier profile = TSandboxed ∧ sp_network profile = DenyAll ∧
  ∃ bwrap env, find_executable h (lit "bwrap") = Some bwrap ∧
    sanitize_env (cs_env spec) profile (cs_cwd spec) = Ok env ∧
    w' = (run (confined_spec h bwrap env spec) w).2 ∧
    r = map_err (λ e, Setup (run_error_display e)) (run (confined_spec h bwrap env spec) w).1.

Lemma run_command_cases h f cap profile spec w r w' :
  run_command h f cap profile spec w = (r, w') →
  (w' = w ∧ is_ok r = false) ∨ confined h cap profile spec w r w'.
Proof.
  unfold run_command. case_bool_decide as Hcap; cbn [negb]; [|intros [= <- <-]; by left].
  assert (sp_tier profile = TNone ∨ sp_tier profile = TStructuredHost ∨ sp_tier profile = TSandboxed ∨ sp_tier profile = THostile)
    as [E|[E|E]] by (destruct (sp_tier profile); auto); [rewrite E; intros [= <- <-]; by left..|].
  assert (∀ A (a b : A), match sp_tier profile with TNone | TStructuredHost => a | _ => b end = b) as ->
    by (by destruct E as [-> | ->]).
  case_decide as Hnet; [intros [= <- <-]; by left|].
  destruct (select_backend (sp_tier profile) (host_backends h f)) as [b|e] eqn:Hb; [|intros [= <- <-]; by left].
  apply select_backend_spec in Hb as (Hin & Ht & _). unfold host_backends in Hin.
  apply elem_of_app in Hin as [Hin|Hin].
  - destruct (find_executable h (lit "bwrap")) as [bw|] eqn:Hbw; [|by apply not_elem_of_nil in Hin].
    apply list_elem_of_singleton in Hin as ->. cbn [backend_run BubblewrapBackend provided_tier] in *.
    assert (sp_tier profile = TSandboxed) as Hts by (destruct E as [E|E]; [done|]; rewrite E in Ht; cbn in Ht; lia).
    unfold bwrap_run. destruct (sanitize_env _ _ _) as [env|e] eqn:He; [|intros [= <- <-]; by left].
    destruct (run _ w) as [r0 w0] eqn:Hr. intros [= <- <-]. right.
    split; [done|]. split; [done|]. split; [by destruct (sp_network profile)|]. exists bw, env.
    split; [done|]. split; [done|]. unfold confined_spec. unfold bwrap_wrap, bwrap_options, with_env in Hr.
    cbn in Hr |- *. by rewrite Hr.
  - destruct f; [|by apply not_elem_of_nil in Hin].
    destruct (find_executable h (lit "firecracker")); [|by apply not_elem_of_nil in Hin].
    apply list_elem_of_singleton in Hin as ->. cbn [backend_run FirecrackerBackend]. unfold firecracker_run.
    intros [= <- <-]. left. split; [done|]. destruct (sanitize_env _ _ _); [|done]. by destruct (cs_cwd spec).
Qed.
(** C24: A command reaches a process only confined: whatever is asked, either nothing ran, the
    host is as it was and the answer is a refusal, or the capability names the profile, its
    tier is the sandboxed one with the network denied, the environment passed the sanitizer,
    and what ran is bubblewrap with every namespace unshared, the system read-only, the working
    directory as the only writable bind, and the program and its arguments after the separator. *)
Theorem run_command_confined h f cap profile spec w r w' :
  run_command h f cap profile spec w = (r, w') →
  (w' = w ∧ is_ok r = false) ∨ confined h cap profile spec w r w'.
Proof. apply run_command_cases. Qed.
End Gate.

(** ** The Seatbelt profile *)

(** Reading a string of the profile language after its opening quote. *)
Fixpoint sbpl_read (out s : chars) : option (chars * chars) :=
  match s with
  | [] => None
  | c :: s' =>
      if c =? 34 then Some (out, s')
      else if c =? 92 then match s' with [] => None | e :: s'' => sbpl_read (out ++ [e]) s'' end
      else sbpl_read (out ++ [c]) s'
  end.

(** A path in a Seatbelt profile cannot leave its string, whatever characters it has: reading the
    string back gives the path and leaves what follows. *)
Theorem sbpl_escape_roundtrip s rest out :
  sbpl_read out (sbpl_escape s ++ 34 :: rest) = Some (out ++ s, rest).
Proof.
  revert out. induction s as [|c s IH]; intros out; [by rewrite app_nil_r|].
  unfold sbpl_escape. cbn [mbind list_bind]. fold (sbpl_escape s).
  replace (out ++ c :: s) with ((out ++ [c]) ++ s) by (by rewrite <-app_assoc).
  destruct ((c =? 92) || (c =? 34)) eqn:E; cbn [app sbpl_read].
  - cbn. apply IH.
  - apply orb_false_iff in E as [-> ->]. apply IH.
Qed.

(** ** Examples *)

Definition demo_host : Host := mkHost (λ _, false) (λ p, str_eq p (lit "/usr/bin/bwrap")).
Definition demo_runner : Runner (list CommandSpec) := λ spec w, (Ok (mkResult (Code 0) [] [] false), w ++ [spec]).
Definition demo_spec : CommandSpec :=
  mkSpec (lit "make") [lit "test"] (Some (lit "/work/t")) [(lit "API_KEY", lit "x"); (lit "PATH", lit "/bin")] [] 1000 10.
Definition demo_cap : SandboxExecCap := mkSandboxExecCap 1 7.
Definition demo_ran : list CommandSpec :=
  (run_command (R := demo_runner) demo_host false demo_cap default_sandboxed demo_spec []).2.
Lemma run_command_confined_witness :
  cs_env <$> demo_ran = [[(lit "PATH", lit "/bin")]] ∧
  ∃ r, run_command (R := demo_runner) demo_host false demo_cap default_sandboxed demo_spec [] = (r, demo_ran) ∧
       ((demo_ran = [] ∧ is_ok r = false) ∨ se_profile demo_cap = sp_id default_sandboxed).
Proof.
  split; [vm_compute; reflexivity|]. eexists. split; [unfold demo_ran; vm_compute; reflexivity|].
  destruct (run_command_confined (R := demo_runner) demo_host false demo_cap default_sandboxed demo_spec [] _ demo_ran
    ltac:(unfold demo_ran; vm_compute; reflexivity)) as [H|[H _]]; [by left|by right].
Defined.

(** The tests on paths are lexical: a home that goes through a parent component into the worktree
    passes, and a path list may have current-directory components inside. *)
Theorem env_lexical_limits :
  sanitize_env [(lit "HOME", lit "/tmp/../work")] default_sandboxed (Some (lit "/work"))
    = Ok [(lit "HOME", lit "/tmp/../work")] ∧
  is_ok (sanitize_env [(lit "HOME", lit "/work/x")] default_sandboxed (Some (lit "/work"))) = false ∧
  validate_path_list (lit "/usr/./bin") = Ok tt.
Proof. repeat split; vm_compute; reflexivity. Qed.
