(* ===== verification/Backend.v ===== *)
(** * The verification backend

    Models [crustcore-backend/src/{lib,verify,integrate}.rs]: the verify loop, the only place that
    mints a [VerifiedPatch], over any executor (the sandbox in production), and the gate that
    opens a pull request. *)

From S2P Require Import Prelude Text Std Chars Redactor Types Policy Sha256 Receipts Strings Sandbox SandboxTheorems.

(** ** Data *)

Definition MAX_VERIFY_OUTPUT : nat := N.to_nat (256 * 1024).

Inductive BackendKind := BNative | BCodex | BClaudeCode | BExternalCommand.
Record PatchRef := mkPatchRef { diff_hash : bytes }.
Record Risk := mkRisk { risk_summary : chars }.
Record CommandRecord := mkCommandRecord { cmd_command : chars }.
Record BackendResult := mkBackendResult {
  br_backend : BackendKind;
  br_summary : chars;
  br_patch : option PatchRef;
  br_self_claimed_done : bool;
  br_commands_run : list CommandRecord;
  br_risks : list Risk
}.
Record CommandEvidence := mkEvidence { ev_command : chars; ev_passed : bool }.
(** [VerifierName]: a bounded command line. *)
Definition VerifierName_new (name : chars) : chars := truncated_chars name DEFAULT_MAX.
Record VerifiedPatch := mkVerified {
  v_patch : PatchRef;
  v_verifier : chars;
  v_commands : list CommandEvidence;
  v_passed_at : Z;
  v_receipt : ToolReceipt
}.
Definition from_verifier (patch : PatchRef) (verifier : chars) (commands : list CommandEvidence) (passed_at : Z)
    (receipt : ToolReceipt) : VerifiedPatch := mkVerified patch verifier commands passed_at receipt.
Record Completion := mkCompletion { completed_patch : VerifiedPatch }.
Definition complete_task (patch : VerifiedPatch) : Completion := mkCompletion patch.

(** ** The verify loop *)

Record VerifySpec := mkVerifySpec { vs_program : chars; vs_args : list chars }.
(** [VerifySpec::detect]: the files of the repository, as a predicate on their names. *)
Definition detect (is_file : chars → bool) : option VerifySpec :=
  if is_file (lit "Cargo.toml") then Some (mkVerifySpec (lit "cargo") [lit "test"])
  else if is_file (lit "package.json") then Some (mkVerifySpec (lit "npm") [lit "test"; lit "--silent"])
  else if is_file (lit "Makefile") then Some (mkVerifySpec (lit "make") [lit "test"])
  else None.
Definition display (s : VerifySpec) : chars :=
  match vs_args s with
  | [] => vs_program s
  | args => vs_program s ++ [32] ++ join_with 32 args
  end.
Record VerifyIds := mkIds { id_task : Z; id_job : Z; id_tool_call : Z; id_event_seq : Z; id_now : Z }.
Inductive VerifyOutcome :=
| OVerified (p : VerifiedPatch)
| OFailed (status : ExitStatus) (output : bytes)
| ORefused (reason : chars).
Definition completed (o : VerifyOutcome) : bool := match o with OVerified _ => true | _ => false end.

(** What runs a command, over the state [W] of the host. *)
Definition Executor (W : Type) : Type := CommandSpec → W → result SandboxError CommandResult * W.

(** The command that is run, and the bytes the receipt binds. *)
Definition verify_command (worktree : chars) (spec : VerifySpec) : CommandSpec :=
  mkSpec (vs_program spec) (vs_args spec) (Some worktree) [] [] (cs_timeout_ms (CommandSpec_new [])) MAX_VERIFY_OUTPUT.
Definition verify_output (r : CommandResult) : bytes := take MAX_VERIFY_OUTPUT (cr_stdout r ++ cr_stderr r).
Definition verify_params (spec : VerifySpec) (ids : VerifyIds) (output : bytes) : ReceiptParams :=
  mkParams (id_task ids) (id_job ids) (id_tool_call ids) (lit "verify") (to_utf8 (display spec)) output []
    (id_event_seq ids).

Section Verify.
Context `{HS : Hash} `{MC : Mac} {W : Type}.

Definition run_verify_with (exec : Executor W) (worktree : chars) (spec : VerifySpec) (patch : PatchRef)
    (receipts : ReceiptChain) (ids : VerifyIds) (w : W) : VerifyOutcome * ReceiptChain * W :=
  let '(r, w) := exec (verify_command worktree spec) w in
  match r with
  | Err e => (ORefused (sandbox_error_display e), receipts, w)
  | Ok result =>
      let output := verify_output result in
      if negb (is_success result) then
        (OFailed (cr_status result) (truncated (from_utf8_lossy output) MAX_VERIFY_OUTPUT), receipts, w)
      else
        let cmdline := display spec in
        let '(receipts, receipt) := mint receipts (verify_params spec ids output) in
        let verifier := VerifierName_new cmdline in
        let evidence := [mkEvidence verifier true] in
        (OVerified (from_verifier patch verifier evidence (id_now ids) receipt), receipts, w)
  end.

(** In production the executor is the sandbox. *)
Definition run_verify {R : Runner W} (h : Host) (f : bool) (cap : SandboxExecCap) (profile : SandboxProfile)
    (worktree : chars) (spec : VerifySpec) (patch : PatchRef) (receipts : ReceiptChain) (ids : VerifyIds) (w : W)
  : VerifyOutcome * ReceiptChain * W :=
  run_verify_with (run_command h f cap profile) worktree spec patch receipts ids w.
End Verify.

(** ** Opening a pull request *)

(** The characters of a text held as UTF-8. *)
Definition text_chars (s : string) : chars := chars_of (lit s).

Record PrIntent := mkPrIntent {
  pi_repo : chars;
  pi_head_branch : chars;
  pi_base_branch : chars;
  pi_draft : bool;
  pi_title : chars;
  pi_body : chars;
  pi_approval_id : Z
}.
Inductive IntegrateError := ApprovalExpired | BranchNotUnderPrefix (b : chars).
Definition integrate_error_display (e : IntegrateError) : chars :=
  match e with
  | ApprovalExpired => lit "approval expired"
  | BranchNotUnderPrefix b => lit "branch '" ++ b ++ lit "' is not under the capability's prefix"
  end.

(** [s.trim_end_matches('/')]. *)
Definition trim_slashes (s : chars) : chars := rev (skip_while (λ c, c =? 47) (rev s)).
Definition branch_under_prefix (branch pre : chars) : bool :=
  if existsb (λ seg, str_eq seg (lit "..") || str_eq seg (lit ".")) (split_on 47 branch) then false
  else
    let pre := trim_slashes pre in
    if str_eq pre [] then false
    else str_eq branch pre || starts_with (pre ++ [47]) branch.

Definition NL : chars := [10].
Definition code (s : chars) : chars := [96] ++ s ++ [96].
Definition EM_DASH : Z := 8212.
Definition evidence_line (c : CommandEvidence) : chars :=
  lit "- " ++ code (ev_command c) ++ [32; EM_DASH; 32] ++ (if ev_passed c then lit "passed" else lit "FAILED") ++ NL.
Definition format_pr_body (p : VerifiedPatch) : chars :=
  lit "## CrustCore evidence-backed draft PR" ++ NL ++ NL ++
  lit "**Human review required before merge.** CrustCore verified this patch; it did not approve deployment, release, or merge." ++ NL ++ NL ++
  lit "### Verification" ++ NL ++ NL ++
  lit "**Verifier:** " ++ code (v_verifier p) ++ NL ++ NL ++
  lit "**Command evidence:**" ++ NL ++
  (match v_commands p with
   | [] => lit "- (none recorded)" ++ NL
   | cs => cs ≫= evidence_line
   end) ++
  NL ++ lit "### Patch and receipt references" ++ NL ++ NL ++
  lit "- Patch hash: " ++ code (hex_of (diff_hash (v_patch p))) ++ NL ++
  lit "- Receipt event seq: " ++ code (dec_u (r_event_seq (v_receipt p))) ++
  lit " (task " ++ code (dec_u (r_task_id (v_receipt p))) ++
  lit ", job " ++ code (dec_u (r_job_id (v_receipt p))) ++
  lit ", tool call " ++ code (dec_u (r_tool_call_id (v_receipt p))) ++ lit ")" ++ NL ++
  lit "- Receipt result hash: " ++ code (hex_of (r_result_hash (v_receipt p))) ++ NL ++
  NL ++ lit "### Risk notes" ++ NL ++ NL ++
  lit "- No unresolved risk was attached to this verified integration gate." ++ NL ++
  lit "- Review changed files, tests, and CI before merging." ++ NL ++
  NL ++ lit "Verification passed at t=" ++ dec_u (v_passed_at p) ++
  lit " ms (receipt-backed). A model's self-claim is **not** evidence; only the verifier's run is." ++ NL.

Definition open_pr (approval : Approved GitHubWriteCap) (patch : VerifiedPatch) (head_branch base_branch : chars)
    (now : Z) : result IntegrateError PrIntent :=
  if negb (is_valid_at approval now) then Err ApprovalExpired
  else
    let cap := ap_value approval in
    if negb (branch_under_prefix head_branch (text_chars (gh_branch_prefix cap))) then Err (BranchNotUnderPrefix head_branch)
    else
      Ok (mkPrIntent (text_chars (gh_repo cap)) head_branch base_branch true
            (lit "[crustcore] verified patch on " ++ head_branch) (format_pr_body patch) (ap_approval_id approval)).

(** ** Theorems *)

Section VerifyProps.
Context `{HS : Hash} `{MC : Mac} {W : Type}.

(** C23: Only a passing run mints a patch, and with it exactly its evidence. A verify loop completes
    if and only if its executor ran the command and the command exited with code zero; the patch
    is then the one given, stamped with the time given, under one receipt minted over the command
    line and the very bytes the command wrote (bounded), which extends the chain; in every other
    case nothing is minted and the chain is as it was. *)
Theorem verify_mints_iff (exec : Executor W) worktree spec patch receipts ids w :
  let '(o, receipts', w') := run_verify_with exec worktree spec patch receipts ids w in
  let '(r, w0) := exec (verify_command worktree spec) w in
  w' = w0 ∧
  match o with
  | OVerified p =>
      ∃ result, r = Ok result ∧ cr_status result = Code 0 ∧
        v_patch p = patch ∧ v_passed_at p = id_now ids ∧
        (receipts', v_receipt p) = mint receipts (verify_params spec ids (verify_output result)) ∧
        result_matches (v_receipt p) (verify_output result) = true ∧
        args_matches (v_receipt p) (to_utf8 (display spec)) = true ∧
        v_commands p = [mkEvidence (v_verifier p) true] ∧ v_verifier p = VerifierName_new (display spec)
  | OFailed st out => receipts' = receipts ∧ st ≠ Code 0 ∧ (length out ≤ MAX_VERIFY_OUTPUT)%nat ∧
                      ∃ result, r = Ok result ∧ cr_status result = st
  | ORefused _ => receipts' = receipts ∧ ∃ e, r = Err e
  end.
Proof.
  unfold run_verify_with. destruct (exec (verify_command worktree spec) w) as [[result|e] w0]; [|by eauto].
  unfold is_success. destruct (cr_status result) as [c|s|] eqn:Es;
    [destruct (decide (c = 0)) as [->|Hc]; [|destruct c; [done|..]]|..]; cbn [negb].
  1: { split; [done|]. exists result. do 4 (split; [done|]). split; [done|].
       unfold result_matches, args_matches, mint. cbn. rewrite !bool_decide_eq_true_2 by done. done. }
  all: split; [done|]; split; [done|]; split; [done|]; split; [|by eauto].
  all: unfold truncated; case_decide; [rewrite length_take; pose proof (floor_char_boundary_spec (from_utf8_lossy (verify_output result)) MAX_VERIFY_OUTPUT); lia|lia].
Qed.
End VerifyProps.

(** Completion has been through the sandbox: a production verify loop that completes ran its
    command inside bubblewrap under the profile its capability names, with an empty environment
    and in the worktree, and the process exited with code zero; the patch is the one given, and its
    receipt the one minted over what the process wrote. *)
Theorem verify_runs_confined `{HS : Hash} `{MC : Mac} {W : Type} {R : Runner W}
    h f cap profile worktree spec patch receipts ids (w : W) p receipts' w' :
  run_verify h f cap profile worktree spec patch receipts ids w = (OVerified p, receipts', w') →
  se_profile cap = sp_id profile ∧ sp_tier profile = TSandboxed ∧ sp_network profile = DenyAll ∧
  v_patch p = patch ∧
  ∃ bwrap result, find_executable h (lit "bwrap") = Some bwrap ∧
    run (confined_spec h bwrap [] (verify_command worktree spec)) w = (Ok result, w') ∧ cr_status result = Code 0 ∧
    (receipts', v_receipt p) = mint receipts (verify_params spec ids (verify_output result)).
Proof.
  unfold run_verify, run_verify_with. destruct (run_command h f cap profile _ w) as [r w0] eqn:Hr.
  apply run_command_cases in Hr as [[_ Hr]|(Hc & Ht & Hn & bw & env & Hb & He & Hw & ->)]; [by destruct r|].
  cbn [verify_command cs_env cs_cwd sanitize_env] in He. injection He as <-.
  destruct (run _ w) as [[result|e] w1] eqn:Hrun; cbn [map_err fst snd] in *; [|done].
  destruct (is_success result) eqn:Hs; cbn [negb]; [|intros H; by apply (f_equal (λ x, completed x.1.1)) in H].
  destruct (mint _ _) as [rc rcpt] eqn:Hm. intros H.
  assert (w' = w0) as -> by (by apply (f_equal snd) in H). apply (f_equal fst) in H. cbn [fst] in H. subst w0.
  assert (receipts' = rc) as -> by (by apply (f_equal snd) in H).
  assert (p = from_verifier patch (VerifierName_new (display spec)) [mkEvidence (VerifierName_new (display spec)) true] (id_now ids) rcpt) as ->
    by (apply (f_equal fst) in H; cbn [fst] in H; by injection H as <-).
  do 3 (split; [done|]). split; [done|]. exists bw, result. split; [done|]. split; [done|]. split; [|done].
  unfold is_success in Hs. by destruct (cr_status result) as [[]| |].
Qed.

(** *** Branches *)

Lemma split_on_ne sep s : split_on sep s ≠ [].
Proof. destruct s as [|c s]; cbn [split_on]; [done|]. repeat case_match; done. Qed.
Lemma join_with_app sep a b :
  a ≠ [] → b ≠ [] → join_with sep (a ++ b) = join_with sep a ++ sep :: join_with sep b.
Proof.
  intros Ha Hb. induction a as [|p a IH]; [done|]. destruct a as [|q a].
  - simpl. by destruct b.
  - change ((p :: q :: a) ++ b) with (p :: (q :: a) ++ b).
    change (join_with sep (p :: (q :: a) ++ b)) with (p ++ sep :: join_with sep ((q :: a) ++ b)).
    rewrite IH by done. change (join_with sep (p :: q :: a)) with (p ++ sep :: join_with sep (q :: a)).
    by rewrite <-app_assoc.
Qed.

(** Being under a prefix is about whole segments. *)
Definition under (branch pre : chars) : Prop :=
  trim_slashes pre ≠ [] ∧ (∃ rest, split_on 47 branch = split_on 47 (trim_slashes pre) ++ rest) ∧
  Forall (λ seg, seg ≠ lit "." ∧ seg ≠ lit "..") (split_on 47 branch).
Lemma branch_under_prefix_spec branch pre : branch_under_prefix branch pre = true ↔ under branch pre.
Proof.
  unfold branch_under_prefix, under. set (q := trim_slashes pre).
  assert (existsb (λ seg, str_eq seg (lit "..") || str_eq seg (lit ".")) (split_on 47 branch) = true ↔
    ¬ Forall (λ seg, seg ≠ lit "." ∧ seg ≠ lit "..") (split_on 47 branch)) as Hd.
  { split.
    - intros (x & Hx & Hor)%existsb_exists Hf. eapply Forall_forall in Hf; [|by apply list_elem_of_In].
      apply orb_true_iff in Hor as [E|E]; apply bool_decide_eq_true in E; tauto.
    - intros Hn. destruct (existsb _ _) eqn:E; [done|]. exfalso. apply Hn, Forall_forall. intros x Hx.
      assert ((str_eq x (lit "..") || str_eq x (lit ".")) = false) as Hx'.
      { apply not_true_is_false. intros Ht. apply not_true_iff_false in E. apply E, existsb_exists.
        exists x. split; [by apply list_elem_of_In|done]. }
      apply orb_false_iff in Hx' as [H1 H2]. by apply bool_decide_eq_false in H1, H2. }
  destruct (existsb _ _); [split; [done|]; intros (_ & _ & H); by apply Hd in H|].
  assert (Forall (λ seg, seg ≠ lit "." ∧ seg ≠ lit "..") (split_on 47 branch)) as Hf.
  { destruct (decide (Forall (λ seg, seg ≠ lit "." ∧ seg ≠ lit "..") (split_on 47 branch))) as [|H]; [done|].
    by apply Hd in H. }
  unfold str_eq. case_bool_decide as Hq; [naive_solver|]. rewrite orb_true_iff, bool_decide_eq_true, starts_with_spec.
  split.
  - intros [-> | [r ->]]; (split; [done|]; split; [|done]).
    + exists []. by rewrite app_nil_r.
    + exists (split_on 47 r). by rewrite <-app_assoc, <-split_on_sep.
  - intros (_ & [rest Hr] & _). rewrite <-(split_on_join 47 branch), Hr.
    destruct rest as [|s rest]; [left; by rewrite app_nil_r, split_on_join|]. right.
    rewrite join_with_app, split_on_join by (done || apply split_on_ne).
    exists (join_with 47 (s :: rest)). by rewrite <-app_assoc.
Qed.

(** A pull request opens only behind its gate: exactly when the approval has not expired and
    the head branch lies under the approved prefix, segment by segment and without dot segments;
    it is always a draft, in the repository of the approval, and its body is the evidence of the
    verified patch. *)
Theorem open_pr_gated approval patch head_branch base_branch now intent :
  open_pr approval patch head_branch base_branch now = Ok intent ↔
  now ≤ ap_expires_at approval ∧ under head_branch (text_chars (gh_branch_prefix (ap_value approval))) ∧
  intent = mkPrIntent (text_chars (gh_repo (ap_value approval))) head_branch base_branch true
             (lit "[crustcore] verified patch on " ++ head_branch) (format_pr_body patch) (ap_approval_id approval).
Proof.
  unfold open_pr, is_valid_at. rewrite <-branch_under_prefix_spec.
  destruct (Z.leb_spec now (ap_expires_at approval)); cbn [negb]; [|split; [done|lia]].
  destruct (branch_under_prefix _ _); cbn [negb]; naive_solver.
Qed.

(** ** Examples *)

Definition demo_vspec : VerifySpec := mkVerifySpec (lit "make") [lit "test"].
Definition demo_ids : VerifyIds := mkIds 1 2 3 4 5.
Definition demo_verify : VerifyOutcome * ReceiptChain * list CommandSpec :=
  run_verify (R := demo_runner) demo_host false demo_cap default_sandboxed (lit "/w") demo_vspec (mkPatchRef [])
    (ReceiptChain_new [1]) demo_ids [].
Lemma verify_runs_confined_witness :
  ∃ p c, demo_verify = (OVerified p, c, demo_verify.2) ∧ se_profile demo_cap = sp_id default_sandboxed.
Proof.
  assert (completed demo_verify.1.1 = true) as Hc by (vm_compute; reflexivity).
  destruct demo_verify as [[o c] w] eqn:E. cbn [fst snd] in Hc |- *. destruct o as [p| |]; [|discriminate..].
  unfold demo_verify in E.
  exists p, c. split; [reflexivity|].
  exact (proj1 (verify_runs_confined (R := demo_runner) demo_host false demo_cap default_sandboxed (lit "/w") demo_vspec
    (mkPatchRef []) (ReceiptChain_new [1]) demo_ids [] p c w E)).
Defined.
