(* ===== verification/GitHub.v ===== *)
(** * GitHub integration

    Models [crustcore-daemon/src/github.rs]: authentication modes, the registry of repositories,
    the checkpoint that validates a push before a credential is handed out, the credential-helper
    protocol, the merge gate, the check monitor with its bounded repair, and the ingestion of
    untrusted comments; [CheckState] is [crustcore-net/src/github.rs]'s. *)

From S2P Require Import Prelude Text Std Chars Redactor Types Policy Strings Backend.

(** ** Authentication modes *)

Inductive AuthMode := GitHubApp | FineGrainedPat | ClassicPat.
#[export] Instance AuthMode_eq_dec : EqDecision AuthMode.
Proof. solve_decision. Defined.
Definition auth_rank (m : AuthMode) : Z :=
  match m with GitHubApp => 0 | FineGrainedPat => 1 | ClassicPat => 2 end.
Definition is_discouraged (m : AuthMode) : bool := match m with ClassicPat => true | _ => false end.
Definition SECTION_SIGN : Z := 167.
Definition auth_warning (m : AuthMode) : option chars :=
  match m with
  | ClassicPat =>
      Some (lit "classic PAT has broad, long-lived scopes " ++ [EM_DASH] ++
            lit " prefer a GitHub App or a fine-grained PAT (docs/github.md " ++ [SECTION_SIGN] ++ lit "2)")
  | _ => None
  end.
(** [min_by_key]: the first of the modes of least rank. *)
Fixpoint strongest (modes : list AuthMode) : option AuthMode :=
  match modes with
  | [] => None
  | m :: ms =>
      match strongest ms with
      | Some b => if auth_rank b <? auth_rank m then Some b else Some m
      | None => Some m
      end
  end.

(** ** The registry of repositories *)

Record RepoRegistry := mkRegistry { rr_repos : gmap chars GitHubWriteCap }.
Definition RepoRegistry_new : RepoRegistry := mkRegistry ∅.
Definition cap_repo (cap : GitHubWriteCap) : chars := text_chars (gh_repo cap).
Definition cap_prefix (cap : GitHubWriteCap) : chars := text_chars (gh_branch_prefix cap).
Definition repo_register (r : RepoRegistry) (cap : GitHubWriteCap) : RepoRegistry :=
  mkRegistry (<[cap_repo cap := cap]> (rr_repos r)).
Definition cap_for (r : RepoRegistry) (repo : chars) : option GitHubWriteCap := rr_repos r !! repo.
Definition is_registered (r : RepoRegistry) (repo : chars) : bool := bool_decide (is_Some (rr_repos r !! repo)).

(** ** Pushes *)

Record PushRequest := mkPush { pr_repo : chars; pr_host : chars; pr_force : bool; pr_refspecs : list chars }.
Definition is_force_flag (token : chars) : bool := str_eq token (lit "-f") || starts_with (lit "--force") token.

(** One token of the argument list; the state is the force flag, whether the remote was seen, and
    the refspecs so far. *)
Definition argv_step (st : bool * bool * list chars) (tok : chars) : bool * bool * list chars :=
  let '(force, remote_seen, refspecs) := st in
  if str_eq tok (lit "push") && negb remote_seen && bool_decide (refspecs = []) then st
  else if is_force_flag tok then (true, remote_seen, refspecs)
  else if starts_with (lit "-") tok then st
  else if negb remote_seen then (force, true, refspecs)
  else (force, remote_seen, refspecs ++ [tok]).
Definition parse_push_argv (repo host : chars) (argv : list chars) : PushRequest :=
  let '(force, _, refspecs) := fold_left argv_step argv (false, false, []) in
  mkPush repo host force refspecs.

Inductive PushDenied :=
| PDHost (h : chars)
| PDRepoMismatch (requested allowed : chars)
| PDForcePush
| PDProtectedBranch (b : chars)
| PDBranchOutsidePrefix (b : chars).
Definition push_denied_display (d : PushDenied) : chars :=
  match d with
  | PDHost h => lit "push denied: unexpected host '" ++ h ++ lit "'"
  | PDRepoMismatch r a => lit "push denied: repo '" ++ r ++ lit "' != capability repo '" ++ a ++ lit "'"
  | PDForcePush => lit "push denied: force-push is deny-default"
  | PDProtectedBranch b => lit "push denied: protected branch '" ++ b ++ lit "'"
  | PDBranchOutsidePrefix b => lit "push denied: branch '" ++ b ++ lit "' is outside the capability prefix"
  end.
Definition ALLOWED_HOSTS : list string := ["github.com"; "api.github.com"]%string.

(** The destination of a refspec, and the branch it names. *)
Definition refspec_branch (spec : chars) : chars :=
  let dst := default spec (last (split_on 58 spec)) in
  default dst (strip_prefix (lit "refs/heads/") dst).
Definition validate_refspec (cap : GitHubWriteCap) (spec0 : chars) : result PushDenied unit :=
  let spec := trim spec0 in
  if decide (1 < length (split_whitespace spec))%nat then Err PDForcePush
  else
    match strip_prefix (lit "+") spec with
    | Some _ => Err PDForcePush
    | None =>
        let branch := refspec_branch spec in
        if str_eq branch (lit "main") || str_eq branch (lit "master") || str_eq branch (lit "HEAD")
        then Err (PDProtectedBranch branch)
        else if negb (branch_under_prefix branch (cap_prefix cap)) then Err (PDBranchOutsidePrefix branch)
        else Ok tt
    end.
Fixpoint validate_refspecs (cap : GitHubWriteCap) (specs : list chars) : result PushDenied unit :=
  match specs with
  | [] => Ok tt
  | s :: specs' =>
      match validate_refspec cap s with
      | Err e => Err e
      | Ok _ => validate_refspecs cap specs'
      end
  end.
Definition validate_push (cap : GitHubWriteCap) (req : PushRequest) : result PushDenied unit :=
  if negb (one_of ALLOWED_HOSTS (pr_host req)) then Err (PDHost (pr_host req))
  else if negb (str_eq (pr_repo req) (cap_repo cap)) then Err (PDRepoMismatch (pr_repo req) (cap_repo cap))
  else if pr_force req then Err PDForcePush
  else validate_refspecs cap (pr_refspecs req).

(** ** The credential helper *)

Definition GITHUB_HOST : chars := lit "github.com".
Record CredentialRequest := mkCredReq { cr_protocol : chars; cr_host : chars; cr_path : chars }.
Definition CredentialRequest_default : CredentialRequest := mkCredReq [] [] [].
(** [line.trim_end_matches('\r')]. *)
Definition trim_crs (s : chars) : chars := rev (skip_while (λ c, c =? 13) (rev s)).
Definition credential_field (req : CredentialRequest) (key value : chars) : CredentialRequest :=
  if str_eq key (lit "protocol") then mkCredReq value (cr_host req) (cr_path req)
  else if str_eq key (lit "host") then mkCredReq (cr_protocol req) value (cr_path req)
  else if str_eq key (lit "path") then mkCredReq (cr_protocol req) (cr_host req) value
  else req.
Fixpoint credential_lines (req : CredentialRequest) (ls : list chars) : CredentialRequest :=
  match ls with
  | [] => req
  | l :: ls' =>
      match trim_crs l with
      | [] => req
      | line =>
          match split_once 61 line with
          | None => credential_lines req ls'
          | Some (key, value) => credential_lines (credential_field req key (take 512 value)) ls'
          end
      end
  end.
Definition parse_credential_request (stdin : chars) : CredentialRequest :=
  credential_lines CredentialRequest_default (take 64 (lines stdin)).

Inductive CredentialDenied := WrongProtocol | WrongHost | RepoNotRegistered.

(** [s.trim_end_matches(suffix)] of a text: every repetition goes; a repetition is not empty, so
    the length is enough fuel. *)
Fixpoint trim_prefixes (fuel : nat) (p s : chars) : chars :=
  match fuel with
  | O => s
  | S fuel' => match strip_prefix p s with Some r => trim_prefixes fuel' p r | None => s end
  end.
Definition trim_end_str (suffix s : chars) : chars := rev (trim_prefixes (length s) (rev suffix) (rev s)).
Definition repo_from_credential_path (path : chars) : chars :=
  trim_end_str (lit ".git") (skip_while (λ c, c =? 47) path).
Definition authorize_credential (req : CredentialRequest) (registry : RepoRegistry)
  : result CredentialDenied chars :=
  if negb (str_eq (cr_protocol req) (lit "https")) then Err WrongProtocol
  else if negb (str_eq (cr_host req) GITHUB_HOST) then Err WrongHost
  else
    let repo := repo_from_credential_path (cr_path req) in
    if is_registered registry repo then Ok repo else Err RepoNotRegistered.
Definition credential_helper_response (token : chars) : chars :=
  lit "username=x-access-token" ++ NL ++ lit "password=" ++ token ++ NL.
Definition confining_git_config (helper_path : chars) : list chars :=
  [lit "-c"; lit "credential.helper="; lit "-c"; lit "credential.helper=" ++ helper_path;
   lit "-c"; lit "credential.useHttpPath=true"].

(** ** The merge gate *)

Inductive MergeDecision := MAuthorized | MRequiresApproval.
Definition decide_merge (approval : option (Approved GitHubWriteCap)) (now : Z) : MergeDecision :=
  match approval with
  | Some a => if is_valid_at a now then MAuthorized else MRequiresApproval
  | None => MRequiresApproval
  end.

(** ** Checks and repair *)

Inductive CheckOutcome := CPassed | CFailed.
Record RepairBudget := mkRepairBudget { max_attempts : Z }.
Inductive RepairDecision := RGreen | RSpawnRepair | RStopExhausted.
Definition repair_decision (outcome : CheckOutcome) (attempts_so_far : Z) (budget : RepairBudget) : RepairDecision :=
  match outcome with
  | CPassed => RGreen
  | CFailed => if attempts_so_far <? max_attempts budget then RSpawnRepair else RStopExhausted
  end.
Definition MAX_REPAIR_CONTEXT_CHECKS : nat := 16.
Inductive CheckState := KPending | KPassed | KFailed.
#[export] Instance CheckState_eq_dec : EqDecision CheckState.
Proof. solve_decision. Defined.
Definition aggregate_check_runs (runs : list CheckState) : CheckState :=
  if existsb (λ s, match s with KFailed => true | _ => false end) runs then KFailed
  else if bool_decide (runs = []) || existsb (λ s, match s with KPending => true | _ => false end) runs then KPending
  else KPassed.
Inductive MonitorDecision := MWait | MGreen | MSpawnRepair | MStopExhausted.
Definition monitor_decision (state : CheckState) (attempts_so_far : Z) (budget : RepairBudget) : MonitorDecision :=
  match state with
  | KPending => MWait
  | KPassed => MGreen
  | KFailed =>
      match repair_decision CFailed attempts_so_far budget with
      | RSpawnRepair => MSpawnRepair
      | RStopExhausted => MStopExhausted
      | RGreen => MGreen
      end
  end.

(** [names.join(", ")]. *)
Fixpoint join_str (sep : chars) (parts : list chars) : chars :=
  match parts with
  | [] => []
  | [p] => p
  | p :: ps => p ++ sep ++ join_str sep ps
  end.
Definition repair_task_goal (failed_checks : list chars) : chars :=
  match failed_checks with
  | [] => lit "Repair the failing CI checks on this branch."
  | _ =>
      let names := (λ n, truncated_chars n 120) <$> take MAX_REPAIR_CONTEXT_CHECKS failed_checks in
      let more := (length failed_checks - MAX_REPAIR_CONTEXT_CHECKS)%nat in
      let suffix := if decide (0 < more)%nat then lit " (+" ++ dec_u (Z.of_nat more) ++ lit " more)" else [] in
      lit "Repair the failing CI checks: " ++ join_str (lit ", ") names ++ suffix ++ lit "."
  end.

(** ** Untrusted comments *)

Record IngestedComment := mkComment { ic_content : bytes; ic_redacted : bytes; ic_author : bytes }.
Definition MAX_COMMENT_BYTES : nat := N.to_nat (64 * 1024).
(** [redactor.to_model_visible] is the redaction. *)
Definition ingest_comment (author raw : bytes) (redactor : Redactor) : IngestedComment :=
  let bounded := truncated raw MAX_COMMENT_BYTES in
  mkComment bounded (redact redactor bounded) (truncated author 256).

(** * What the GitHub checkpoint lets through

    The pushes that pass, as a condition on each refspec; the reading of an argument list; the
    credentials that are issued; the decisions of the check monitor. *)

(** ** Pushes *)

(** A refspec in scope: one word, not forced, to an unprotected branch under the prefix. *)
Definition protected_branch (b : chars) : Prop := b = lit "main" ∨ b = lit "master" ∨ b = lit "HEAD".
Definition refspec_in_scope (cap : GitHubWriteCap) (spec : chars) : Prop :=
  let s := trim spec in
  (length (split_whitespace s) ≤ 1)%nat ∧ head s ≠ Some 43 ∧
  ¬ protected_branch (refspec_branch s) ∧ under (refspec_branch s) (cap_prefix cap).

Lemma strip_plus s : strip_prefix (lit "+") s = None ↔ head s ≠ Some 43.
Proof.
  change (lit "+") with [43]. destruct s as [|c s]; cbn [strip_prefix head]; [naive_solver|].
  destruct (Z.eqb_spec 43 c) as [<-|]; naive_solver.
Qed.
Lemma protected_spec b :
  str_eq b (lit "main") || str_eq b (lit "master") || str_eq b (lit "HEAD") = false ↔ ¬ protected_branch b.
Proof.
  unfold str_eq, protected_branch. rewrite !orb_false_iff, !bool_decide_eq_false. tauto.
Qed.
Lemma validate_refspec_spec cap spec : validate_refspec cap spec = Ok tt ↔ refspec_in_scope cap spec.
Proof.
  unfold validate_refspec, refspec_in_scope. rewrite <-strip_plus, <-protected_spec, <-branch_under_prefix_spec.
  cbv zeta. set (s := trim spec).
  destruct (decide (1 < length (split_whitespace s))%nat); [split; [done|lia]|].
  destruct (strip_prefix (lit "+") s); [naive_solver|].
  destruct (str_eq (refspec_branch s) (lit "main") || _ || _); [naive_solver|].
  destruct (branch_under_prefix _ _); cbn [negb]; [|naive_solver]. split; [|done]. intros _. split; [lia|done].
Qed.
Lemma validate_refspecs_spec cap specs :
  validate_refspecs cap specs = Ok tt ↔ Forall (refspec_in_scope cap) specs.
Proof.
  induction specs as [|s specs IH]; cbn [validate_refspecs]; [done|].
  rewrite Forall_cons, <-validate_refspec_spec. destruct (validate_refspec cap s) as [[]|e]; naive_solver.
Qed.

(** The push checkpoint is exact: a push is let through if and only if its host is one of the known
    hosts, its repository is the capability's, it is not forced, and every refspec is in scope. *)
Lemma validate_push_ok cap req :
  validate_push cap req = Ok tt ↔
  (∃ h, h ∈ ALLOWED_HOSTS ∧ pr_host req = lit h) ∧ pr_repo req = cap_repo cap ∧ pr_force req = false ∧
  Forall (refspec_in_scope cap) (pr_refspecs req).
Proof.
  unfold validate_push. rewrite <-one_of_spec, <-validate_refspecs_spec.
  destruct (one_of ALLOWED_HOSTS (pr_host req)); cbn [negb]; [|naive_solver].
  unfold str_eq. case_bool_decide; cbn [negb]; [|naive_solver]. destruct (pr_force req); naive_solver.
Qed.

(** *** Argument lists *)

(** The words of an argument list that are not flags, after the verb. *)
Definition is_flag (tok : chars) : bool := starts_with (lit "-") tok.
Fixpoint skip_verb (ts : list chars) : list chars :=
  match ts with t :: ts' => if str_eq t (lit "push") then skip_verb ts' else ts | [] => [] end.
Definition positionals (argv : list chars) : list chars := skip_verb (List.filter (λ t, negb (is_flag t)) argv).

Lemma force_is_flag t : is_force_flag t = true → is_flag t = true.
Proof.
  unfold is_force_flag, is_flag. rewrite orb_true_iff, !starts_with_spec. unfold str_eq. rewrite bool_decide_eq_true.
  intros [-> |[r ->]]; [by exists (lit "f")|]. by exists (lit "-force" ++ r).
Qed.
Lemma push_not_flag t : str_eq t (lit "push") = true → is_flag t = false.
Proof. unfold str_eq. rewrite bool_decide_eq_true. by intros ->. Qed.

Lemma argv_fold_seen argv force refs :
  fold_left argv_step argv (force, true, refs) =
  (force || existsb is_force_flag argv, true, refs ++ List.filter (λ t, negb (is_flag t)) argv).
Proof.
  revert force refs. induction argv as [|t argv IH]; intros force refs; cbn [fold_left existsb List.filter].
  { by rewrite orb_false_r, app_nil_r. }
  unfold argv_step at 2. fold (is_flag t). rewrite andb_false_r, andb_false_l.
  destruct (is_force_flag t) eqn:Hf.
  - rewrite (force_is_flag _ Hf). rewrite IH. cbn [negb]. by rewrite orb_true_l, orb_true_r.
  - cbn [orb]. destruct (is_flag t); cbn [negb]; rewrite IH; [done|]. by rewrite <-app_assoc.
Qed.
Lemma argv_fold_unseen argv force :
  ∃ seen, fold_left argv_step argv (force, false, []) =
  (force || existsb is_force_flag argv, seen, tail (positionals argv)).
Proof.
  revert force. induction argv as [|t argv IH]; intros force; cbn [fold_left existsb].
  { exists false. by rewrite orb_false_r. }
  assert (argv_step (force, false, []) t =
    if str_eq t (lit "push") then (force, false, []) else if is_force_flag t then (true, false, [])
    else if is_flag t then (force, false, []) else (force, true, [])) as ->
    by (unfold argv_step; by destruct (str_eq t (lit "push"))).
  unfold positionals. cbn [List.filter].
  destruct (str_eq t (lit "push")) eqn:Hp.
  - pose proof (push_not_flag _ Hp) as Hn. rewrite Hn. cbn [negb skip_verb]. rewrite Hp.
    assert (is_force_flag t = false) as ->; [|by apply IH].
    destruct (is_force_flag t) eqn:E; [|done]. by rewrite (force_is_flag _ E) in Hn.
  - destruct (is_force_flag t) eqn:Hf.
    + rewrite (force_is_flag _ Hf). cbn [negb]. destruct (IH true) as [seen ->]. exists seen.
      by rewrite orb_true_l, orb_true_r.
    + cbn [orb]. destruct (is_flag t); cbn [negb]; [apply IH|]. cbn [skip_verb]. rewrite Hp.
      rewrite argv_fold_seen. by exists true.
Qed.

(** What an accepted command line can do: the argument list of a [git push] that is parsed
    and let through has no force flag in any place, and of its words that are not flags every one
    after the verb and the remote is a refspec in scope (one unforced refspec whose destination lies
    under the capability's prefix, whole segments and no dot segments, and is neither [main],
    [master] nor [HEAD]); the repository and the host are the ones
    the wrapper supplied, whatever the list says. *)
Theorem push_argv_scoped cap repo host argv :
  validate_push cap (parse_push_argv repo host argv) = Ok tt ↔
  (∃ h, h ∈ ALLOWED_HOSTS ∧ host = lit h) ∧ repo = cap_repo cap ∧
  Forall (λ t, is_force_flag t = false) argv ∧ Forall (refspec_in_scope cap) (tail (positionals argv)).
Proof.
  rewrite validate_push_ok. unfold parse_push_argv. destruct (argv_fold_unseen argv false) as [seen ->].
  cbn [pr_host pr_repo pr_force pr_refspecs orb]. split.
  - intros (Hh & Hr & Hf & Hs). do 2 (split; [done|]). split; [|done]. apply Forall_forall. intros t Ht. apply not_true_is_false.
    intros E. apply not_true_iff_false in Hf. apply Hf, existsb_exists. exists t. by rewrite <-list_elem_of_In.
  - intros (Hh & Hr & Hf & Hs). rewrite Forall_forall in Hf. do 2 (split; [done|]). split; [|done].
    apply not_true_is_false.
    intros (t & Ht%list_elem_of_In & E)%existsb_exists. by rewrite (Hf t Ht) in E.
Qed.

Definition demo_gh_cap : GitHubWriteCap :=
  (approve_github_write (mkAuthorizedUser 1) "o/r" "crustcore/" 1 1 5).1.
Definition demo_push (argv : list string) : result PushDenied unit :=
  validate_push demo_gh_cap (parse_push_argv (lit "o/r") (lit "github.com") (lit <$> argv)).
(** Pushes that name no refspec, and flags other than the spelled-out force flags, are not looked
    at: a mirror push, a push of all branches, a combined short flag with a force in it and the
    deletion of a branch under the prefix pass; a plain force and a protected branch do not. *)
Theorem push_flags_unseen :
  demo_push ["push"; "--mirror"; "origin"] = Ok tt ∧ demo_push ["push"; "--all"; "origin"] = Ok tt ∧
  demo_push ["push"; "origin"] = Ok tt ∧ demo_push ["push"; "-uf"; "origin"; "crustcore/x"] = Ok tt ∧
  demo_push ["push"; "--delete"; "origin"; "crustcore/x"] = Ok tt ∧
  demo_push ["push"; "origin"; ":crustcore/x"] = Ok tt ∧
  demo_push ["push"; "-f"; "origin"; "crustcore/x"] = Err PDForcePush ∧
  demo_push ["push"; "origin"; "crustcore/x"; "a:refs/heads/main"] = Err (PDProtectedBranch (lit "main")).
Proof. by vm_compute. Qed.

(** ** Credentials *)

Definition registry_of (caps : list GitHubWriteCap) : RepoRegistry := fold_left repo_register caps RepoRegistry_new.
Lemma registry_of_snoc caps cap : registry_of (caps ++ [cap]) = repo_register (registry_of caps) cap.
Proof. unfold registry_of. by rewrite fold_left_app. Qed.
Lemma registry_lookup caps repo cap :
  cap_for (registry_of caps) repo = Some cap → cap ∈ caps ∧ cap_repo cap = repo.
Proof.
  revert repo cap. induction caps as [|c caps IH] using rev_ind; intros repo cap; [done|].
  rewrite registry_of_snoc. unfold cap_for, repo_register. cbn [rr_repos].
  rewrite lookup_insert. case_decide as E.
  - intros [= <-]. split; [set_solver|done].
  - intros [? ?]%IH. set_solver.
Qed.
Lemma registry_known caps cap : cap ∈ caps → is_registered (registry_of caps) (cap_repo cap) = true.
Proof.
  unfold is_registered. rewrite bool_decide_eq_true. induction caps as [|c caps IH] using rev_ind; [set_solver|].
  rewrite registry_of_snoc. unfold repo_register. cbn [rr_repos]. rewrite elem_of_app, list_elem_of_singleton.
  rewrite lookup_insert. case_decide; [done|]. intros [Hin| ->]; [by apply IH|done].
Qed.

Lemma authorize_ok req reg repo :
  authorize_credential req reg = Ok repo ↔
  cr_protocol req = lit "https" ∧ cr_host req = lit "github.com" ∧
  repo = repo_from_credential_path (cr_path req) ∧ is_registered reg repo = true.
Proof.
  unfold authorize_credential, str_eq, GITHUB_HOST. case_bool_decide; cbn [negb]; [|split; [done|tauto]].
  case_bool_decide; cbn [negb]; [|split; [done|tauto]].
  destruct (is_registered reg (repo_from_credential_path (cr_path req))) eqn:E.
  - split; [by intros [= <-]|]. by intros (_ & _ & -> & _).
  - split; [done|]. intros (_ & _ & -> & H'). congruence.
Qed.

(** A credential goes only to a repository with a capability: whatever the helper is sent, with
    any sequence of registrations made, a credential is issued if and only if the request is for
    [https] on [github.com] and the repository its path names was registered; it is then bound to
    a registered capability for that very repository. *)
Theorem credential_scoped caps stdin repo :
  let req := parse_credential_request stdin in
  authorize_credential req (registry_of caps) = Ok repo ↔
  cr_protocol req = lit "https" ∧ cr_host req = lit "github.com" ∧
  repo = repo_from_credential_path (cr_path req) ∧
  ∃ cap, cap ∈ caps ∧ cap_for (registry_of caps) repo = Some cap ∧ cap_repo cap = repo.
Proof.
  intros req. rewrite authorize_ok. do 3 (apply and_iff_compat_l).
  unfold is_registered. rewrite bool_decide_eq_true. fold (cap_for (registry_of caps) repo). split.
  - intros [cap Hc]. exists cap. pose proof (registry_lookup _ _ _ Hc). naive_solver.
  - intros (cap & _ & Hc & _). by exists cap.
Qed.

(** A request as git writes it is read back: keys and values on lines of their own. *)
Definition credential_stdin (req : CredentialRequest) : chars :=
  lit "protocol=" ++ cr_protocol req ++ NL ++ lit "host=" ++ cr_host req ++ NL ++
  lit "path=" ++ cr_path req ++ NL ++ NL.
Definition field_ok (s : chars) : Prop := (10 ∉ s) ∧ (13 ∉ s) ∧ (length s ≤ 512)%nat.

Lemma trim_crs_clean s : (13 ∉ s) → trim_crs s = s.
Proof.
  intros H. unfold trim_crs. destruct (rev s) as [|c r] eqn:E; [by rewrite <-(rev_involutive s), E|].
  cbn [skip_while]. assert (c ∈ s) as Hc.
  { apply list_elem_of_In, in_rev. rewrite E. by left. }
  rewrite (proj2 (Z.eqb_neq c 13)) by congruence. by rewrite <-E, rev_involutive.
Qed.
Lemma strip_cr_clean s : (13 ∉ s) → strip_cr s = s.
Proof.
  intros H. unfold strip_cr. destruct (last s) as [c|] eqn:E; [|done].
  assert (c ≠ 13) as Hc by (intros ->; apply H, last_Some_elem_of; done).
  destruct c as [|p|p]; [done| |done]. do 4 (destruct p; try done).
Qed.
Lemma lines_cons p s : (10 ∉ p) → (13 ∉ p) → s ≠ [] → lines (p ++ NL ++ s) = p :: lines s.
Proof.
  intros Hn Hr Hs. unfold lines, NL. cbn [app]. rewrite split_on_app by done.
  pose proof (split_on_ne 10 s) as Hne. destruct (split_on 10 s) as [|q qs]; [done|].
  change (lines_of (p :: q :: qs)) with (strip_cr p :: lines_of (q :: qs)). by rewrite strip_cr_clean.
Qed.
Lemma credential_line req k v ls :
  (13 ∉ k) → (61 ∉ k) → field_ok v →
  credential_lines req ((k ++ 61 :: v) :: ls) = credential_lines (credential_field req k v) ls.
Proof.
  intros H13 H61 (_ & Hv13 & Hv). cbn [credential_lines]. rewrite trim_crs_clean by set_solver.
  pose proof (split_once_app 61 k v H61) as Hs. destruct k; cbn [app] in *; rewrite Hs, take_ge; done.
Qed.

(** What git writes is what the helper reads: a request printed in the key-value format with
    its terminating blank line is parsed to the very same fields. *)
Theorem credential_roundtrip req :
  field_ok (cr_protocol req) → field_ok (cr_host req) → field_ok (cr_path req) →
  parse_credential_request (credential_stdin req) = req.
Proof.
  intros Hp Hh Ha. unfold parse_credential_request, credential_stdin.
  change (lit "protocol=") with (lit "protocol" ++ [61]). change (lit "host=") with (lit "host" ++ [61]).
  change (lit "path=") with (lit "path" ++ [61]). rewrite <-!app_assoc.
  rewrite (app_assoc [61] (cr_protocol req)), (app_assoc (lit "protocol")).
  destruct Hp as (Hp1 & Hp2 & Hp3), Hh as (Hh1 & Hh2 & Hh3), Ha as (Ha1 & Ha2 & Ha3).
  rewrite lines_cons; [|set_solver..|done].
  rewrite (app_assoc [61] (cr_host req)), (app_assoc (lit "host")), lines_cons; [|set_solver..|done].
  rewrite (app_assoc [61] (cr_path req)), (app_assoc (lit "path")), lines_cons; [|set_solver..|done].
  change (lines NL) with ([[]] : list chars).
  rewrite take_ge by (simpl; lia). cbn [app].
  rewrite !credential_line by (done || vm_compute; set_solver). by destruct req.
Qed.
Lemma credential_roundtrip_witness :
  let req := mkCredReq (lit "https") (lit "github.com") (lit "o/r.git") in
  parse_credential_request (credential_stdin req) = req.
Proof.
  intros req. apply credential_roundtrip; (split; [|split]); try (vm_compute; lia);
  (intros H; apply list_elem_of_In in H; vm_compute in H; repeat destruct H as [H|H]; done).
Defined.

(** ** Checks *)

(** Repair is decided by the aggregated checks alone: a repair is started exactly when some
    check has failed and the budget has an attempt left; the change is surfaced as green exactly
    when there are checks and all have passed; otherwise the monitor waits (nothing failed, not
    everything concluded) or stops (the budget is spent). *)
Theorem monitor_exact runs attempts budget :
  match monitor_decision (aggregate_check_runs runs) attempts budget with
  | MSpawnRepair => KFailed ∈ runs ∧ attempts < max_attempts budget
  | MStopExhausted => KFailed ∈ runs ∧ max_attempts budget ≤ attempts
  | MGreen => runs ≠ [] ∧ Forall (λ s, s = KPassed) runs
  | MWait => (KFailed ∉ runs) ∧ (runs = [] ∨ KPending ∈ runs)
  end.
Proof.
  unfold aggregate_check_runs.
  destruct (existsb _ runs) eqn:Hf at 1.
  { apply existsb_exists in Hf as ([] & Hin%list_elem_of_In & Hs); try done. cbn.
    destruct (Z.ltb_spec attempts (max_attempts budget)); done. }
  assert (KFailed ∉ runs) as Hnf.
  { intros Hin%list_elem_of_In. apply not_true_iff_false in Hf. apply Hf, existsb_exists. by exists KFailed. }
  destruct (existsb _ runs) eqn:Hp at 1.
  { rewrite orb_true_r. cbn. apply existsb_exists in Hp as ([] & Hin%list_elem_of_In & Hs); try done.
    split; [done|by right]. }
  rewrite orb_false_r. case_bool_decide as Hn; cbn; [split; [done|by left]|]. split; [done|].
  apply Forall_forall. intros [] Hin; [|done|done]. exfalso. apply not_true_iff_false in Hp.
  apply Hp, existsb_exists. exists KPending. split; [by apply list_elem_of_In|done].
Qed.

(** The strongest mode is one of the given ones, and none of them is stronger. *)
Theorem strongest_spec modes m :
  strongest modes = Some m → m ∈ modes ∧ Forall (λ m', auth_rank m ≤ auth_rank m') modes.
Proof.
  revert m. induction modes as [|x modes IH]; cbn [strongest]; [done|]. intros m.
  destruct (strongest modes) as [b|] eqn:E.
  - destruct (IH b eq_refl) as [Hb Hle]. destruct (Z.ltb_spec (auth_rank b) (auth_rank x)); intros [= <-].
    + split; [by right|]. constructor; [lia|done].
    + split; [left|]. constructor; [done|]. eapply Forall_impl; [exact Hle|]. cbn. lia.
  - intros [= <-]. split; [left|]. constructor; [done|]. destruct modes as [|y modes]; [constructor|].
    cbn [strongest] in E. repeat case_match; done.
Qed.

(** A merge needs a live approval. *)
Theorem merge_needs_approval approval now :
  decide_merge approval now = MAuthorized ↔ ∃ a, approval = Some a ∧ now ≤ ap_expires_at a.
Proof.
  unfold decide_merge, is_valid_at. destruct approval as [a|]; [|naive_solver].
  destruct (Z.leb_spec now (ap_expires_at a)); naive_solver lia.
Qed.

(** What is kept of a comment is bounded, and so is its author. *)
Lemma truncated_length s max : (length (truncated s max) ≤ max)%nat.
Proof.
  unfold truncated. case_decide; [|lia]. rewrite length_take. pose proof (floor_char_boundary_spec s max). lia.
Qed.
Theorem comment_bounded author raw r :
  (length (ic_content (ingest_comment author raw r)) ≤ MAX_COMMENT_BYTES)%nat ∧
  (length (ic_author (ingest_comment author raw r)) ≤ 256)%nat.
Proof. split; apply truncated_length. Qed.
