(* ===== verification/Webhook.v ===== *)
(** * Webhooks

    Models [crustcore-daemon/src/webhook.rs]: the verification of an inbound webhook (bounds, the
    keyed MAC, the replay guard, the redacted envelope), the parsing of the raw HTTP request and
    the serving of one connection. The theorems: the verifier accepts exactly the authentic fresh
    deliveries, it refines a guard that remembers every accepted delivery in order, and requests
    that fail leave it untouched. *)

From S2P Require Import Prelude Text Std Chars Redactor Types Sha256 Strings.

(** ** Data *)

Definition MAX_WEBHOOK_BODY : nat := N.to_nat (1024 * 1024).
Definition MAX_WEBHOOK_SUMMARY : nat := N.to_nat (8 * 1024).
Definition MAX_SEEN_DELIVERIES : nat := N.to_nat 4096.
Definition MAX_DELIVERY_ID : nat := 128.

Record WebhookRequest := mkWebhook { wr_event : chars; wr_delivery_id : chars; wr_signature : chars; wr_body : bytes }.
Inductive WebhookReject := WTooLarge | WEmptyDelivery | WDeliveryIdTooLong | WBadSignature | WReplay.
Inductive GitHubEventKind := EkIssue | EkPullRequest | EkCheckSuite | EkIssueComment | EkPush | EkOther.
Record GitHubEnvelope := mkEnvelope { ge_kind : GitHubEventKind; ge_delivery_id : chars; ge_payload : bytes }.

(** ** The replay guard: the remembered ids in order, and as a set *)

Record ReplayGuard := mkGuard { rg_order : list chars; rg_set : gset chars }.
Definition ReplayGuard_new : ReplayGuard := mkGuard [] ∅.
(** [pop_front] and [set.remove] when the guard is full. *)
Definition evict (g : ReplayGuard) : ReplayGuard :=
  if decide (MAX_SEEN_DELIVERIES ≤ length (rg_order g))%nat then
    match rg_order g with
    | old :: order => mkGuard order (rg_set g ∖ {[old]})
    | [] => g
    end
  else g.
Definition accept (g : ReplayGuard) (id : chars) : bool * ReplayGuard :=
  if bool_decide (id ∈ rg_set g) then (false, g)
  else
    let g := evict g in
    (true, mkGuard (rg_order g ++ [id]) (rg_set g ∪ {[id]})).

(** ** The verifier *)

Record WebhookVerifier := mkVerifier { wv_secret : bytes; wv_seen : ReplayGuard }.
Definition WebhookVerifier_new (secret : bytes) : WebhookVerifier := mkVerifier secret ReplayGuard_new.
Definition signature_ok (v : WebhookVerifier) (signature : chars) (body : bytes) : bool :=
  match strip_prefix (lit "sha256=") signature with
  | None => false
  | Some hex =>
      match hex32_decode (to_utf8 hex) with
      | None => false
      | Some provided => ct_eq provided (hmac_sha256 (wv_secret v) body)
      end
  end.
Definition parse_kind (event : chars) : GitHubEventKind :=
  if str_eq event (lit "issues") then EkIssue
  else if str_eq event (lit "pull_request") then EkPullRequest
  else if one_of ["check_suite"; "check_run"] event then EkCheckSuite
  else if one_of ["issue_comment"; "pull_request_review_comment"] event then EkIssueComment
  else if str_eq event (lit "push") then EkPush
  else EkOther.
Definition envelope (req : WebhookRequest) (r : Redactor) : GitHubEnvelope :=
  mkEnvelope (parse_kind (wr_event req)) (truncated_chars (wr_delivery_id req) MAX_DELIVERY_ID)
    (truncated (redact r (from_utf8_lossy (wr_body req))) MAX_WEBHOOK_SUMMARY).
Definition verify (v : WebhookVerifier) (req : WebhookRequest) (r : Redactor)
  : result WebhookReject GitHubEnvelope * WebhookVerifier :=
  if decide (MAX_WEBHOOK_BODY < length (wr_body req))%nat then (Err WTooLarge, v)
  else if bool_decide (wr_delivery_id req = []) then (Err WEmptyDelivery, v)
  else if decide (MAX_DELIVERY_ID < byte_length (wr_delivery_id req))%nat then (Err WDeliveryIdTooLong, v)
  else if negb (signature_ok v (wr_signature req) (wr_body req)) then (Err WBadSignature, v)
  else
    let '(fresh, seen) := accept (wv_seen v) (wr_delivery_id req) in
    let v := mkVerifier (wv_secret v) seen in
    if negb fresh then (Err WReplay, v) else (Ok (envelope req r), v).

(** ** The HTTP edge *)

Record ParsedHttpWebhook := mkParsed { ph_event : chars; ph_delivery_id : chars; ph_signature : chars; ph_body : bytes }.
Inductive HttpParseError := HNotPost | HMalformed | HTooLarge.
Definition as_request (p : ParsedHttpWebhook) : WebhookRequest :=
  mkWebhook (ph_event p) (ph_delivery_id p) (ph_signature p) (ph_body p).

(** [windows(n).position(..)]: a window is as long as the needle. *)
Fixpoint window_position (needle h : bytes) : option nat :=
  match h with
  | [] => None
  | _ :: h' => if bool_decide (take (length needle) h = needle) then Some 0%nat else S <$> window_position needle h'
  end.
Definition find_subslice (haystack needle : bytes) : option nat :=
  if bool_decide (needle = []) || bool_decide (length haystack < length needle)%nat then None
  else window_position needle haystack.

(** [head.split("\r\n")]. *)
Fixpoint split_crlf (s : chars) : list chars :=
  match s with
  | [] => [[]]
  | c :: s' =>
      match s' with
      | d :: s'' =>
          if (c =? 13) && (d =? 10) then [] :: split_crlf s''
          else match split_crlf s' with p :: ps => (c :: p) :: ps | [] => [[c]] end
      | [] => [[c]]
      end
  end.
Definition CRLF2 : bytes := [13; 10; 13; 10].
Definition header_line (p : ParsedHttpWebhook) (line : chars) : ParsedHttpWebhook :=
  match split_once 58 line with
  | None => p
  | Some (name, value) =>
      let value := trim value in
      let name := trim name in
      if eq_ignore_ascii_case name (lit "X-GitHub-Event") then
        mkParsed value (ph_delivery_id p) (ph_signature p) (ph_body p)
      else if eq_ignore_ascii_case name (lit "X-GitHub-Delivery") then
        mkParsed (ph_event p) value (ph_signature p) (ph_body p)
      else if eq_ignore_ascii_case name (lit "X-Hub-Signature-256") then
        mkParsed (ph_event p) (ph_delivery_id p) value (ph_body p)
      else p
  end.
Definition parse_http_webhook (raw : bytes) : result HttpParseError ParsedHttpWebhook :=
  match find_subslice raw CRLF2 with
  | None => Err HMalformed
  | Some split =>
      let head := take split raw in
      let body := drop 4 (drop split raw) in
      if decide (MAX_WEBHOOK_BODY < length body)%nat then Err HTooLarge
      else if negb (is_utf8 head) then Err HMalformed
      else
        match split_crlf (chars_of head) with
        | [] => Err HMalformed
        | request_line :: ls =>
            match split_whitespace request_line with
            | m :: _ =>
                if eq_ignore_ascii_case m (lit "POST") then Ok (fold_left header_line ls (mkParsed [] [] [] body))
                else Err HNotPost
            | [] => Err HNotPost
            end
        end
  end.

(** One connection: the reads up to the end of the stream ([None] is a failed read), the status
    line that is written and the outcome. *)
Inductive HttpReply := R204 | R400 | R401 | R413.
Definition reply_bytes (r : HttpReply) : bytes :=
  let line := match r with
    | R204 => lit "HTTP/1.1 204 No Content"
    | R400 => lit "HTTP/1.1 400 Bad Request"
    | R401 => lit "HTTP/1.1 401 Unauthorized"
    | R413 => lit "HTTP/1.1 413 Payload Too Large"
    end in
  line ++ [13; 10] ++ lit "Content-Length: 0" ++ CRLF2.
Inductive ServeError := SIo | SOversized | SParse (e : HttpParseError) | SRejected (e : WebhookReject).
Definition max_request : nat := (MAX_WEBHOOK_BODY + N.to_nat (64 * 1024))%nat.
Fixpoint read_request (buf : bytes) (reads : list (option bytes)) : result ServeError bytes :=
  match reads with
  | [] | Some [] :: _ => Ok buf
  | None :: _ => Err SIo
  | Some chunk :: reads' =>
      let buf := buf ++ chunk in
      if decide (max_request < length buf)%nat then Err SOversized else read_request buf reads'
  end.
Definition serve_webhooks_once (reads : list (option bytes)) (v : WebhookVerifier) (r : Redactor)
  : result ServeError GitHubEnvelope * option HttpReply * WebhookVerifier :=
  match read_request [] reads with
  | Err SOversized => (Err SOversized, Some R413, v)
  | Err e => (Err e, None, v)
  | Ok buf =>
      match parse_http_webhook buf with
      | Err e => (Err (SParse e), Some R400, v)
      | Ok parsed =>
          let '(res, v) := verify v (as_request parsed) r in
          match res with
          | Ok env => (Ok env, Some R204, v)
          | Err e => (Err (SRejected e), Some R401, v)
          end
      end
  end.

(** ** The specification: all accepted deliveries, the most recent of which are refused *)

(** The last [N] elements. *)
Definition recent {A} (N : nat) (h : list A) : list A := drop (length h - N) h.
Definition authentic (secret : bytes) (req : WebhookRequest) : Prop :=
  (length (wr_body req) ≤ MAX_WEBHOOK_BODY)%nat ∧ wr_delivery_id req ≠ [] ∧
  (byte_length (wr_delivery_id req) ≤ MAX_DELIVERY_ID)%nat ∧
  ∃ hex, wr_signature req = lit "sha256=" ++ hex ∧ hex32_decode (to_utf8 hex) = Some (hmac_sha256 secret (wr_body req)).

Section Guard.
Context (N : nat) (HN : (0 < N)%nat).

Lemma recent_length {A} (h : list A) : (length (recent N h) ≤ N)%nat.
Proof. unfold recent. rewrite length_drop. lia. Qed.
Lemma tail_drop' {A} n (h : list A) : tail (drop n h) = drop (S n) h.
Proof. revert h. induction n as [|n IH]; intros [|x h]; try done. apply IH. Qed.
Lemma recent_snoc {A} (h : list A) x :
  recent N (h ++ [x]) =
  (if decide (N ≤ length (recent N h))%nat then tail (recent N h) else recent N h) ++ [x].
Proof.
  unfold recent. rewrite length_drop, length_app. cbn [length]. case_decide.
  - replace (length h + 1 - N)%nat with (S (length h - N)) by lia.
    rewrite drop_app_le by lia. f_equal. by rewrite tail_drop'.
  - replace (length h + 1 - N)%nat with 0%nat by lia. by replace (length h - N)%nat with 0%nat by lia.
Qed.
End Guard.

(** What a guard stands for. *)
Record guard_rel (g : ReplayGuard) (h : list chars) : Prop := {
  gr_order : rg_order g = recent MAX_SEEN_DELIVERIES h;
  gr_set : rg_set g = list_to_set (rg_order g);
  gr_nodup : NoDup (rg_order g)
}.

Lemma accept_rel g h id :
  guard_rel g h →
  (accept g id).1 = bool_decide (id ∉ recent MAX_SEEN_DELIVERIES h) ∧
  guard_rel (accept g id).2 (if (accept g id).1 then h ++ [id] else h).
Proof.
  intros [Ho Hs Hd]. unfold accept.
  assert (id ∈ rg_set g ↔ id ∈ recent MAX_SEEN_DELIVERIES h) as Hin.
  { by rewrite Hs, elem_of_list_to_set, Ho. }
  case_bool_decide as Hid; cbn [fst snd].
  { split; [|done]. symmetry. apply bool_decide_eq_false. tauto. }
  split; [symmetry; apply bool_decide_eq_true; tauto|].
  assert (0 < MAX_SEEN_DELIVERIES)%nat as HN by (unfold MAX_SEEN_DELIVERIES; lia).
  pose proof (recent_snoc MAX_SEEN_DELIVERIES HN h id) as Hsnoc. rewrite <-Ho in Hsnoc.
  unfold evict. case_decide as Hfull.
  - destruct (rg_order g) as [|old order] eqn:E; [cbn [length] in Hfull; lia|]. cbn [tail] in Hsnoc.
    apply NoDup_cons in Hd as [Hold Hd].
    rewrite Hs, elem_of_list_to_set, elem_of_cons in Hid.
    split; cbn [rg_order rg_set]; [done| |apply NoDup_app; split; [done|]; split; [|apply NoDup_singleton]; set_solver].
    rewrite Hs, list_to_set_app_L. cbn [list_to_set]. set_solver.
  - rewrite Hs, elem_of_list_to_set in Hid.
    split; cbn [rg_order rg_set]; [done| |apply NoDup_app; split; [done|]; split; [|apply NoDup_singleton]; set_solver].
    rewrite Hs, list_to_set_app_L. cbn [list_to_set]. set_solver.
Qed.


(** *** Signatures *)

Lemma hex_val_range c v : hex_val c = Some v → 0 ≤ v < 16.
Proof.
  unfold hex_val. repeat case_match; intros [= <-];
  repeat match goal with H : (_ && _) = true |- _ => apply andb_true_iff in H as [?%Z.leb_le ?%Z.leb_le] end; lia.
Qed.
Lemma hex32_decode_bytes s d : hex32_decode s = Some d → length d = 32%nat ∧ Forall is_byte d.
Proof.
  unfold hex32_decode. case_bool_decide as Hl; cbn [negb]; [|done]. intros H%mapM_Some. split.
  - rewrite <-(Forall2_length _ _ _ H). unfold chunks_exact. rewrite chunks_fuel_length, Hl by lia. done.
  - eapply Forall2_Forall_r; [exact H|]. apply Forall_true. intros pr b Hb. unfold hex_pair in Hb.
    destruct (hex_val (nth 0 pr 0)) as [hi|] eqn:Ehi; [|done]. cbn in Hb.
    destruct (hex_val (nth 1 pr 0)) as [lo|] eqn:Elo; [|done]. cbn in Hb. injection Hb as <-.
    apply hex_val_range in Ehi, Elo. rewrite lor_nibbles by lia. unfold is_byte. lia.
Qed.
Lemma hmac_bytes k m : length (hmac_sha256 k m) = 32%nat ∧ Forall is_byte (hmac_sha256 k m).
Proof. unfold hmac_sha256. split; [apply sha256_length|apply sha256_byte]. Qed.
Lemma signature_ok_spec v sig body :
  signature_ok v sig body = true ↔
  ∃ hex, sig = lit "sha256=" ++ hex ∧ hex32_decode (to_utf8 hex) = Some (hmac_sha256 (wv_secret v) body).
Proof.
  unfold signature_ok. destruct (strip_prefix _ sig) as [hex|] eqn:E.
  - apply strip_prefix_Some in E as ->. split.
    + destruct (hex32_decode (to_utf8 hex)) as [d|] eqn:Ed; [|done]. intros Hc. exists hex. split; [done|].
      destruct (hex32_decode_bytes _ _ Ed) as [Hl Hb]. destruct (hmac_bytes (wv_secret v) body) as [Hl' Hb'].
      rewrite ct_eq_spec in Hc by (done || congruence). apply bool_decide_eq_true in Hc. congruence.
    + intros (hex' & He & Hd). apply app_inv_head in He as <-. rewrite Hd.
      destruct (hmac_bytes (wv_secret v) body). rewrite ct_eq_spec by done. by apply bool_decide_eq_true.
  - split; [done|]. intros (hex & -> & _). by rewrite (proj2 (strip_prefix_Some _ _ hex)) in E.
Qed.

(** ** Theorems *)

(** One delivery against the history of accepted ones: it is accepted when it is authentic and not
    among the recent ones, and then remembered; otherwise nothing changes. *)
Inductive spec_verify (secret : bytes) (r : Redactor) (h : list chars) (req : WebhookRequest)
  : option GitHubEnvelope → list chars → Prop :=
| spec_accept :
    authentic secret req → (wr_delivery_id req ∉ recent MAX_SEEN_DELIVERIES h) →
    spec_verify secret r h req (Some (envelope req r)) (h ++ [wr_delivery_id req])
| spec_refuse :
    ¬ (authentic secret req ∧ wr_delivery_id req ∉ recent MAX_SEEN_DELIVERIES h) →
    spec_verify secret r h req None h.
Inductive spec_run (secret : bytes) (r : Redactor) : list chars → list WebhookRequest → list (option GitHubEnvelope) → Prop :=
| spec_done h : spec_run secret r h [] []
| spec_step h req o h' reqs os :
    spec_verify secret r h req o h' → spec_run secret r h' reqs os → spec_run secret r h (req :: reqs) (o :: os).

Definition outcome_envelope (o : result WebhookReject GitHubEnvelope) : option GitHubEnvelope :=
  match o with Ok e => Some e | Err _ => None end.
Fixpoint verify_all (v : WebhookVerifier) (reqs : list WebhookRequest) (r : Redactor)
  : list (result WebhookReject GitHubEnvelope) * WebhookVerifier :=
  match reqs with
  | [] => ([], v)
  | req :: reqs' =>
      let '(o, v) := verify v req r in
      let '(os, v) := verify_all v reqs' r in
      (o :: os, v)
  end.

Lemma verify_cases v req r :
  verify v req r =
  let '(fresh, seen) := accept (wv_seen v) (wr_delivery_id req) in
  if decide (MAX_WEBHOOK_BODY < length (wr_body req))%nat then (Err WTooLarge, v)
  else if bool_decide (wr_delivery_id req = []) then (Err WEmptyDelivery, v)
  else if decide (MAX_DELIVERY_ID < byte_length (wr_delivery_id req))%nat then (Err WDeliveryIdTooLong, v)
  else if negb (signature_ok v (wr_signature req) (wr_body req)) then (Err WBadSignature, v)
  else if negb fresh then (Err WReplay, mkVerifier (wv_secret v) seen)
  else (Ok (envelope req r), mkVerifier (wv_secret v) seen).
Proof. unfold verify. by destruct (accept _ _). Qed.

Lemma verify_spec v req r h :
  guard_rel (wv_seen v) h →
  ∃ h', spec_verify (wv_secret v) r h req (outcome_envelope (verify v req r).1) h' ∧
        wv_secret (verify v req r).2 = wv_secret v ∧ guard_rel (wv_seen (verify v req r).2) h'.
Proof.
  intros Hg. destruct (accept_rel _ _ (wr_delivery_id req) Hg) as [Hf Hg'].
  rewrite verify_cases. destruct (accept _ _) as [fresh seen]. cbn [fst snd] in *.
  destruct (decide (MAX_WEBHOOK_BODY < length (wr_body req))%nat);
    [exists h; split; [apply spec_refuse; unfold authentic; lia|done]|].
  destruct (bool_decide (wr_delivery_id req = [])) eqn:Hne;
    [apply bool_decide_eq_true in Hne; exists h; split; [apply spec_refuse; unfold authentic; tauto|done]|].
  apply bool_decide_eq_false in Hne.
  destruct (decide (MAX_DELIVERY_ID < byte_length (wr_delivery_id req))%nat);
    [exists h; split; [apply spec_refuse; unfold authentic; lia|done]|].
  pose proof (signature_ok_spec v (wr_signature req) (wr_body req)) as Hs.
  destruct (signature_ok _ _ _); cbn [negb].
  2: { exists h. split; [|done]. apply spec_refuse. intros [(_ & _ & _ & Ha) _]. by apply Hs in Ha. }
  destruct fresh; cbn [negb fst snd].
  - exists (h ++ [wr_delivery_id req]). split; [|done]. symmetry in Hf. apply bool_decide_eq_true in Hf.
    apply spec_accept; [|done]. split; [lia|]. split; [done|]. split; [lia|]. by apply Hs.
  - exists h. split; [|done]. symmetry in Hf. apply bool_decide_eq_false in Hf. apply spec_refuse. tauto.
Qed.

(** C34: The webhook verifier refines its specification over any sequence of requests: with only a
    bounded guard it answers exactly as a verifier that remembers every accepted delivery and
    accepts a request if and only if it is within the bounds, carries the keyed MAC of its body
    under the shared secret, and its delivery is not one of the most recent accepted ones; the
    guard never holds more than its bound, and requests that are refused leave no trace. *)
Theorem webhook_refines secret reqs r :
  let '(os, v) := verify_all (WebhookVerifier_new secret) reqs r in
  spec_run secret r [] reqs (outcome_envelope <$> os) ∧
  (length (rg_order (wv_seen v)) ≤ MAX_SEEN_DELIVERIES)%nat ∧
  rg_set (wv_seen v) = list_to_set (rg_order (wv_seen v)).
Proof.
  assert (∀ v h, guard_rel (wv_seen v) h →
    let '(os, v') := verify_all v reqs r in
    spec_run (wv_secret v) r h reqs (outcome_envelope <$> os) ∧ ∃ h', guard_rel (wv_seen v') h') as Hgen.
  { induction reqs as [|req reqs IH]; intros v h Hg; cbn [verify_all]; [split; [constructor|eauto]|].
    destruct (verify_spec v req r h Hg) as (h1 & Hs & Hk & Hg1).
    destruct (verify v req r) as [o v1]. cbn [fst snd] in *. specialize (IH v1 h1 Hg1).
    destruct (verify_all v1 reqs r) as [os v2]. destruct IH as [Hr Hex]. split; [|done].
    rewrite fmap_cons. rewrite Hk in Hr. by eapply spec_step. }
  assert (guard_rel ReplayGuard_new []) as H0 by (split; [done|done|constructor]).
  specialize (Hgen (WebhookVerifier_new secret) [] H0).
  destruct (verify_all _ reqs r) as [os v]. destruct Hgen as [Hr [h' [Ho Hset _]]].
  split; [done|]. split; [|done]. rewrite Ho. apply recent_length. unfold MAX_SEEN_DELIVERIES. lia.
Qed.

(** A connection is answered with success only for an authentic fresh delivery: whatever bytes
    arrive, in whatever pieces, if an envelope comes out then the request that was parsed from
    them is authentic under the secret and its delivery was not remembered; in every other case
    the verifier is as it was and the reply is an error or none. No more than the bounded size is
    ever buffered. *)
Theorem serve_authentic reads v r :
  let '(res, reply, v') := serve_webhooks_once reads v r in
  match res with
  | Ok env =>
      reply = Some R204 ∧
      ∃ buf parsed, read_request [] reads = Ok buf ∧ (length buf ≤ max_request)%nat ∧
        parse_http_webhook buf = Ok parsed ∧
        authentic (wv_secret v) (as_request parsed) ∧ (ph_delivery_id parsed ∉ rg_set (wv_seen v)) ∧
        ph_delivery_id parsed ∈ rg_set (wv_seen v') ∧ env = envelope (as_request parsed) r
  | Err _ => reply ≠ Some R204 ∧ v' = v
  end.
Proof.
  assert (∀ buf0 buf, (length buf0 ≤ max_request)%nat → read_request buf0 reads = Ok buf →
            (length buf ≤ max_request)%nat) as Hbuf.
  { induction reads as [|[[|b chunk]|] reads IH]; intros buf0 buf Hb; cbn [read_request]; [naive_solver..| |done].
    case_decide; [done|]. apply IH. lia. }
  unfold serve_webhooks_once. destruct (read_request [] reads) as [buf|e] eqn:Er; [|by destruct e].
  destruct (parse_http_webhook buf) as [parsed|e] eqn:Ep; [|done]. rewrite verify_cases.
  unfold accept, as_request. cbn [wr_delivery_id wr_body wr_signature].
  pose proof (signature_ok_spec v (ph_signature parsed) (ph_body parsed)) as Hs.
  case_bool_decide as Hin.
  all: destruct (decide (MAX_WEBHOOK_BODY < length (ph_body parsed))%nat); [done|].
  all: destruct (bool_decide (ph_delivery_id parsed = [])) eqn:Hne; [done|]; apply bool_decide_eq_false in Hne.
  all: destruct (decide (MAX_DELIVERY_ID < byte_length (ph_delivery_id parsed))%nat); [done|].
  all: destruct (signature_ok _ _ _); cbn [negb]; [|done].
  - split; [done|]. by destruct v.
  - split; [done|]. exists buf, parsed. split; [done|].
    split; [apply (Hbuf []); [cbn [length]; lia|done]|]. split; [done|].
    split; [|split; [done|split; [cbn; set_solver|done]]].
    unfold authentic. cbn [wr_delivery_id wr_body wr_signature]. split; [lia|]. split; [done|]. split; [lia|].
    by apply Hs.
Qed.
