(* ===== verification/Dispatch.v ===== *)
(** * Commands from comments, repositories for launches, scores for candidates

    Models three small pure modules of the daemon: [github_commands.rs] (the slash commands of a
    comment), [multirepo.rs] (which bound repository a launch is for) and [score.rs] (the score of
    a candidate and the choice of the best). *)

From S2P Require Import Prelude Text Std Chars Redactor Types Strings Supervisor.

(** ** Slash commands *)

Definition MAX_GOAL : nat := 512.
Definition MAX_DIR : nat := 256.
Definition MAX_RISK_REASON : nat := 200.
Inductive GithubCommand :=
| GRun (goal : chars) (dir : option chars)
| GRetry (id : Z)
| GCancel (id : Z)
| GExplain (id : Z)
| GRiskDetected (reason : chars).

(** [bound]: the first [max] characters. *)
Definition bound (s : chars) (max : nat) : chars := take max s.
Definition risk (reason : chars) : GithubCommand := GRiskDetected (bound reason MAX_RISK_REASON).
Definition parse_id (token : option chars) : option Z := token ≫= parse_uint u64_MAX.
Definition ELLIPSIS : Z := 8230.

(** The loop over the words of [run]: the words of the goal so far, the directory, whether words
    belong to the goal. The result is the goal's words and the directory, or the refusal. *)
Fixpoint run_args (goal_parts : list chars) (dir : option chars) (in_goal : bool) (tokens : list chars)
  : result GithubCommand (list chars * option chars) :=
  match tokens with
  | [] => Ok (goal_parts, dir)
  | t :: ts =>
      if str_eq t (lit "--goal") then run_args goal_parts dir true ts
      else if str_eq t (lit "--dir") then
        match ts with
        | d :: ts' => run_args goal_parts (Some (bound d MAX_DIR)) false ts'
        | [] => Err (risk (lit "--dir requires a path"))
        end
      else if starts_with (lit "--") t then Err (risk (lit "unknown flag: " ++ t))
      else if in_goal then run_args (goal_parts ++ [t]) dir in_goal ts
      else Err (risk (lit "run args must be flag-style (--goal " ++ [ELLIPSIS] ++ lit ")"))
  end.
Definition parse_run (rest : chars) : GithubCommand :=
  let args := match strip_prefix (lit "run") rest with Some a => trim a | None => [] end in
  match run_args [] None false (split_whitespace args) with
  | Err g => g
  | Ok (goal_parts, dir) =>
      let goal := bound (trim (join_with 32 goal_parts)) MAX_GOAL in
      match goal with
      | [] => risk (lit "run requires --goal <text>")
      | _ => GRun goal dir
      end
  end.
Definition with_id (verb : chars) (mk : Z → GithubCommand) (token : option chars) : GithubCommand :=
  match parse_id token with
  | Some id => mk id
  | None => risk (verb ++ lit " requires a numeric task id")
  end.
Definition parse_one (rest : chars) : GithubCommand :=
  match split_whitespace rest with
  | [] => risk (lit "empty /crustcore command")
  | verb :: ts =>
      if str_eq verb (lit "run") then parse_run rest
      else if str_eq verb (lit "retry") then with_id verb GRetry (head ts)
      else if str_eq verb (lit "cancel") then with_id verb GCancel (head ts)
      else if str_eq verb (lit "explain") then with_id verb GExplain (head ts)
      else risk (lit "unknown /crustcore verb: " ++ verb)
  end.
(** The rest of a line that is a command: the name, then white space or the end. *)
Definition command_rest (line : chars) : option chars :=
  match strip_prefix (lit "/crustcore") (trim line) with
  | Some [] => Some []
  | Some ((c :: _) as rest) => if is_whitespace c then Some rest else None
  | None => None
  end.
Fixpoint first_command (ls : list chars) : option GithubCommand :=
  match ls with
  | [] => None
  | l :: ls' =>
      match command_rest l with
      | Some rest => Some (parse_one (trim rest))
      | None => first_command ls'
      end
  end.
Definition parse_command (text : chars) : option GithubCommand := first_command (take 256 (lines text)).
Definition extra_command_lines (text : chars) : nat :=
  (length (List.filter (λ l, starts_with (lit "/crustcore") (trim l)) (take 256 (lines text))) - 1)%nat.

(** ** Repositories *)

Record RepoBinding := mkBinding {
  rb_id : chars;
  rb_path : chars;
  rb_verify : list chars;
  rb_base_branch : chars;
  rb_keywords : list chars
}.

Section MultiRepo.
(** [str::to_lowercase], over the tables of Unicode. *)
Context (to_lowercase : chars → chars).

Definition RepoBinding_new (id path : chars) : RepoBinding :=
  mkBinding id path [] (lit "main") [to_lowercase id].
Definition with_keywords (b : RepoBinding) (kws : list chars) : RepoBinding :=
  mkBinding (rb_id b) (rb_path b) (rb_verify b) (rb_base_branch b) (rb_keywords b ++ (to_lowercase <$> kws)).
Definition binding_matches (b : RepoBinding) (intent_lower : chars) : bool :=
  existsb (λ k, negb (str_eq k []) && contains intent_lower k) (rb_keywords b).
Definition classify_repo (intent : chars) (repos : list RepoBinding) : option chars :=
  let lower := to_lowercase intent in
  match List.filter (λ r, binding_matches r lower) repos with
  | [only] => Some (rb_id only)
  | _ :: _ :: _ => None
  | [] => match repos with [r] => Some (rb_id r) | _ => None end
  end.
Definition parse_repo_binding (arg : chars) : option RepoBinding :=
  '(id, path) ← split_once 61 arg;
  let id := trim id in
  let path := trim path in
  if str_eq id [] || str_eq path [] then None else Some (RepoBinding_new id path).
Fixpoint parse_bindings_from (out : list RepoBinding) (args : list chars) : result chars (list RepoBinding) :=
  match args with
  | [] => Ok out
  | arg :: args' =>
      match parse_repo_binding arg with
      | None => Err arg
      | Some b =>
          if existsb (λ b', str_eq (rb_id b') (rb_id b)) out then Err arg
          else parse_bindings_from (out ++ [b]) args'
      end
  end.
Definition parse_repo_bindings (args : list chars) : result chars (list RepoBinding) := parse_bindings_from [] args.
End MultiRepo.

(** ** Scores *)

Record PatchMetadata := mkMeta {
  pm_verified : bool;
  pm_diff_bytes : Z;
  pm_gates_passed : Z;
  pm_security_review_passed : bool
}.

(** [n as f32] of an unsigned integer: rounded to [24] significant bits, ties to even. *)
Definition f32_of_u64 (n : Z) : Z :=
  let e := Z.log2 n - 23 in
  if e <=? 0 then n
  else
    let q := n / 2 ^ e in
    let r := n mod 2 ^ e in
    let up := (2 ^ (e - 1) <? r) || (r =? 2 ^ (e - 1)) && Z.odd q in
    (if up then q + 1 else q) * 2 ^ e.

(** A score in units of [1/1024]: every sum below is a whole number of units less than [2^24] in
    absolute value, so the single-precision sums of the code are exact. *)
Definition UNIT : Z := 1024.
Definition VERIFIED_BONUS : Z := 100 * UNIT.
Definition score_candidate (meta : PatchMetadata) (risk : RiskTier) : Z :=
  let s := 0 in
  let s := if pm_verified meta then s + VERIFIED_BONUS else s in
  let s := s - Z.min (f32_of_u64 (pm_diff_bytes meta)) (50 * UNIT) in
  let s := s + Z.min (pm_gates_passed meta) 10 * 2 * UNIT in
  if pm_security_review_passed meta then
    let s := s + 5 * UNIT in
    if risk_geb risk RHigh then s + 3 * UNIT else s
  else s.

Section Best.
Context {T : Type}.
(** The loop of [pick_best]; the incumbent is displaced by a strictly better score only. *)
Definition best_step (risk : RiskTier) (best : option (T * Z)) (c : T * PatchMetadata) : option (T * Z) :=
  let s := score_candidate c.2 risk in
  let displaces := match best with None => true | Some (_, best_score) => best_score <? s end in
  if displaces then Some (c.1, s) else best.
Definition pick_best (candidates : list (T * PatchMetadata)) (risk : RiskTier) : option T :=
  fst <$> fold_left (best_step risk) candidates None.
End Best.

(** * Commands, routing and scores: theorems

    Every well-formed command is read back from the comment that carries it; whatever a comment
    says, what is kept is bounded; a launch goes to a repository only when the choice is
    unambiguous; the best candidate is the first of the highest score, and a verified one whenever
    there is one. *)

(** ** Words *)

Definition clean (w : chars) : Prop := w ≠ [] ∧ forallb (λ c, negb (is_whitespace c)) w = true.

Ltac clean_list := repeat first [assumption | apply Forall_nil_2 | apply Forall_cons_2].

Lemma clean_elem w c : clean w → c ∈ w → is_whitespace c = false.
Proof.
  intros [_ Hw] Hc%list_elem_of_In. rewrite forallb_forall in Hw. apply Hw in Hc.
  by apply negb_true_iff in Hc.
Qed.
Lemma words_from_word w p s :
  forallb (λ c, negb (is_whitespace c)) p = true → words_from w (p ++ s) = words_from (w ++ p) s.
Proof.
  revert w. induction p as [|c p IH]; intros w; cbn [app]; [by rewrite app_nil_r|].
  cbn [forallb]. intros [Hc Hp]%andb_true_iff. cbn [words_from]. apply negb_true_iff in Hc. rewrite Hc, IH by done.
  by rewrite <-app_assoc.
Qed.
Lemma join_cons sep t ts : ts ≠ [] → join_with sep (t :: ts) = t ++ sep :: join_with sep ts.
Proof. by destruct ts. Qed.
Lemma split_whitespace_join ts : Forall clean ts → split_whitespace (join_with 32 ts) = ts.
Proof.
  unfold split_whitespace. induction 1 as [|t ts [Hne Ht] Hts IH]; [done|].
  destruct ts as [|u ts].
  - cbn [join_with]. rewrite <-(app_nil_r t) at 1. rewrite words_from_word by done. by destruct t.
  - rewrite join_cons, words_from_word by done. cbn [app words_from]. change (is_whitespace 32) with true. cbv iota.
    rewrite IH. by destruct t.
Qed.
Lemma join_head ts c : Forall clean ts → head (join_with 32 ts) = Some c → is_whitespace c = false.
Proof.
  destruct 1 as [|t ts Ht Hts]; [done|]. destruct t as [|d t]; [by destruct Ht|].
  destruct ts; cbn; intros [= <-]; apply (clean_elem _ _ Ht); left.
Qed.
Lemma join_last ts c : Forall clean ts → last (join_with 32 ts) = Some c → is_whitespace c = false.
Proof.
  induction 1 as [|t ts Ht Hts IH]; [done|]. destruct ts as [|u ts].
  - cbn [join_with]. intros Hl. apply (clean_elem _ _ Ht). by apply last_Some_elem_of.
  - rewrite join_cons by done. rewrite last_app, last_cons.
    destruct (last (join_with 32 (u :: ts))) eqn:E; [by intros [= <-]; apply IH|].
    apply last_None in E. apply Forall_cons in Hts as [[Hu _] _].
    destruct u; [done|]. by destruct ts.
Qed.
Lemma trim_join ts : Forall clean ts → trim (join_with 32 ts) = join_with 32 ts.
Proof. intros H. apply trim_clean; intros c; [by apply join_head|by apply join_last]. Qed.
Lemma trim_space s : trim (32 :: s) = trim s.
Proof. done. Qed.

(** ** Slash commands *)

(** The words of a command as a comment spells it. *)
Definition goal_word (w : chars) : Prop := clean w ∧ starts_with (lit "--") w = false.
Definition render_tokens (verb : chars) (args : list chars) : list chars := lit "/crustcore" :: verb :: args.
Definition render (c : GithubCommand) : option chars :=
  let line verb args := Some (join_with 32 (render_tokens (lit verb) args)) in
  match c with
  | GRun goal dir =>
      line "run"%string (lit "--goal" :: split_whitespace goal ++ match dir with Some d => [lit "--dir"; d] | None => [] end)
  | GRetry id => line "retry"%string [dec_u id]
  | GCancel id => line "cancel"%string [dec_u id]
  | GExplain id => line "explain"%string [dec_u id]
  | GRiskDetected _ => None
  end.
(** The commands that can be asked for. *)
Definition askable (c : GithubCommand) : Prop :=
  match c with
  | GRun goal dir =>
      (∃ ws, goal = join_with 32 ws ∧ ws ≠ [] ∧ Forall goal_word ws) ∧ (length goal ≤ MAX_GOAL)%nat ∧
      match dir with Some d => clean d ∧ (length d ≤ MAX_DIR)%nat | None => True end
  | GRetry id | GCancel id | GExplain id => 0 ≤ id ≤ u64_MAX
  | GRiskDetected _ => False
  end.

Lemma lit_clean_run : clean (lit "run") ∧ clean (lit "--goal") ∧ clean (lit "--dir") ∧ clean (lit "/crustcore") ∧
  clean (lit "retry") ∧ clean (lit "cancel") ∧ clean (lit "explain").
Proof. repeat split; done. Qed.
Lemma dec_clean n : 0 ≤ n → clean (dec_u n).
Proof.
  intros Hn. split; [apply dec_u_nonempty|]. apply forallb_forall. intros d Hd%list_elem_of_In.
  apply dec_u_digits in Hd; [|done]. unfold is_whitespace, in_range. lia.
Qed.
Lemma goal_word_clean ws : Forall goal_word ws → Forall clean ws.
Proof. intros H. eapply Forall_impl; [exact H|]. by intros w []. Qed.

Lemma command_line verb args :
  Forall clean args → clean verb →
  ∃ rest, command_rest (join_with 32 (render_tokens verb args)) = Some rest ∧
    trim rest = join_with 32 (verb :: args).
Proof.
  intros Ha Hv. unfold render_tokens, command_rest.
  assert (Forall clean (lit "/crustcore" :: verb :: args)) as Hall.
  { pose proof lit_clean_run as (_ & _ & _ & Hc & _). clean_list. }
  rewrite trim_join, join_cons by done.
  rewrite (proj2 (strip_prefix_Some _ _ (32 :: join_with 32 (verb :: args))) eq_refl).
  exists (32 :: join_with 32 (verb :: args)). split; [done|]. rewrite trim_space, trim_join; [done|].
  by apply Forall_cons in Hall as [_ Hall].
Qed.

Lemma run_args_goal ws parts dir rest :
  Forall goal_word ws → run_args parts dir true (ws ++ rest) = run_args (parts ++ ws) dir true rest.
Proof.
  revert parts. induction ws as [|w ws IH]; intros parts Hw; cbn [app]; [by rewrite app_nil_r|].
  apply Forall_cons in Hw as [[_ Hd] Hw]. cbn [run_args].
  destruct (str_eq w (lit "--goal")) eqn:E1.
  { apply bool_decide_eq_true in E1 as ->. done. }
  destruct (str_eq w (lit "--dir")) eqn:E2.
  { apply bool_decide_eq_true in E2 as ->. done. }
  rewrite Hd. rewrite IH by done. by rewrite <-app_assoc.
Qed.
Lemma parse_run_ok ws dir :
  ws ≠ [] → Forall goal_word ws → (length (join_with 32 ws) ≤ MAX_GOAL)%nat →
  match dir with Some d => clean d ∧ (length d ≤ MAX_DIR)%nat | None => True end →
  let args := lit "--goal" :: ws ++ match dir with Some d => [lit "--dir"; d] | None => [] end in
  parse_run (join_with 32 (lit "run" :: args)) = GRun (join_with 32 ws) dir.
Proof.
  intros Hne Hws Hl Hd args. pose proof lit_clean_run as (_ & Hg & Hdir & _).
  assert (Forall clean args) as Hargs.
  { subst args. constructor; [done|]. apply Forall_app. split; [by apply goal_word_clean|].
    destruct dir as [d|]; [|constructor]. destruct Hd. clean_list. }
  unfold parse_run. rewrite join_cons by done.
  rewrite (proj2 (strip_prefix_Some _ _ (32 :: join_with 32 args)) eq_refl).
  rewrite trim_space, trim_join, split_whitespace_join by done. subst args.
  assert (run_args [] None false (lit "--goal" :: ws ++ match dir with Some d => [lit "--dir"; d] | None => [] end)
    = Ok (ws, dir)) as ->.
  { change (run_args [] None false (lit "--goal" :: ?t)) with (run_args [] None true t).
    rewrite run_args_goal by done. cbn [app]. destruct dir as [d|]; [|done].
    cbn [run_args]. rewrite (bool_decide_eq_false_2 (lit "--dir" = lit "--goal")) || idtac.
    change (str_eq (lit "--dir") (lit "--goal")) with false. change (str_eq (lit "--dir") (lit "--dir")) with true.
    cbv iota. unfold bound. rewrite take_ge; [done|]. by destruct Hd. }
  rewrite trim_join by by apply goal_word_clean. unfold bound. rewrite take_ge by done.
  destruct (join_with 32 ws) eqn:E; [|done]. destruct Hws as [|w ws [[Hw _] _]]; [done|].
  destruct w; [done|]. by destruct ws.
Qed.

(** The verbs that take a task id. *)
Ltac id_command verb id Hverb :=
  let Hid := fresh in
  assert (clean (dec_u id)) as Hid by (apply dec_clean; lia);
  destruct (command_line (lit verb) [dec_u id]) as (rest & -> & ->); [clean_list|exact Hverb|];
  unfold parse_one; rewrite split_whitespace_join by clean_list;
  cbn -[dec_u u64_MAX]; unfold with_id, parse_id; cbn -[dec_u u64_MAX]; rewrite parse_uint_dec_u.

(** Commands are read back from the comments that carry them: in a comment whose first command
    line spells a command (any lines that are not commands before it, any lines after it), that
    very command is what is parsed, with its goal, directory or task id. *)
Theorem command_roundtrip text pre post cmd line :
  askable cmd → render cmd = Some line → take 256 (lines text) = pre ++ line :: post →
  Forall (λ l, command_rest l = None) pre → parse_command text = Some cmd.
Proof.
  intros Hok Hr Ht Hpre. unfold parse_command. rewrite Ht. clear Ht text.
  assert (first_command (pre ++ line :: post) = first_command (line :: post)) as ->.
  { induction Hpre as [|l pre Hl _ IH]; [done|]. cbn [app first_command]. by rewrite Hl. }
  pose proof lit_clean_run as (Hrun & Hg & Hdir & _ & Hretry & Hcancel & Hexplain).
  cbn [first_command]. destruct cmd as [goal dir|id|id|id|]; cbn [render] in Hr; [| | | |done].
  all: apply Some_inj in Hr; subst line; cbn [askable] in Hok.
  - destruct Hok as ((ws & -> & Hne & Hws) & Hl & Hd). pose proof (goal_word_clean _ Hws) as Hcl.
    rewrite (split_whitespace_join ws) by done.
    set (args := lit "--goal" :: ws ++ match dir with Some d => [lit "--dir"; d] | None => [] end).
    assert (Forall clean args) as Hargs.
    { subst args. constructor; [done|]. apply Forall_app. split; [done|].
      destruct dir as [d|]; [|constructor]. destruct Hd. clean_list. }
    destruct (command_line (lit "run") args Hargs Hrun) as (rest & -> & ->).
    f_equal. unfold parse_one. rewrite split_whitespace_join by clean_list.
    change (str_eq (lit "run") (lit "run")) with true. cbv iota. by apply parse_run_ok.
  - by id_command "retry"%string id Hretry.
  - by id_command "cancel"%string id Hcancel.
  - by id_command "explain"%string id Hexplain.
Qed.

Definition demo_comment : chars :=
  lit "please look at this" ++ [10] ++ lit "/crustcore run --goal fix the parser --dir crates/a" ++ [10] ++ lit "thanks".
Lemma command_roundtrip_witness :
  parse_command demo_comment = Some (GRun (lit "fix the parser") (Some (lit "crates/a"))).
Proof.
  apply (command_roundtrip demo_comment [lit "please look at this"] [lit "thanks"] _
    (lit "/crustcore run --goal fix the parser --dir crates/a")); [|by vm_compute..|repeat constructor].
  split; [|split; [vm_compute; lia|]]; [exists [lit "fix"; lit "the"; lit "parser"]|]; repeat (split || constructor || done).
Defined.

(** What a command keeps of a comment is bounded, whatever the comment. *)
Definition command_bounded (c : GithubCommand) : Prop :=
  match c with
  | GRun goal dir => goal ≠ [] ∧ (length goal ≤ MAX_GOAL)%nat ∧ (∀ d, dir = Some d → (length d ≤ MAX_DIR)%nat)
  | GRetry id | GCancel id | GExplain id => 0 ≤ id ≤ u64_MAX
  | GRiskDetected r => (length r ≤ MAX_RISK_REASON)%nat
  end.
Lemma risk_bounded s : command_bounded (risk s).
Proof. unfold command_bounded, risk, bound. rewrite length_take. lia. Qed.
Lemma run_args_bounded parts dir g ts :
  (∀ d, dir = Some d → (length d ≤ MAX_DIR)%nat) →
  match run_args parts dir g ts with
  | Err c => command_bounded c
  | Ok (_, dir') => ∀ d, dir' = Some d → (length d ≤ MAX_DIR)%nat
  end.
Proof.
  remember (length ts) as n eqn:Hn. assert (length ts ≤ n)%nat as Hle by lia. clear Hn.
  revert parts dir g ts Hle. induction n as [|n IH]; intros parts dir g ts Hle Hd; (destruct ts as [|t ts]; [done|]).
  { cbn [length] in Hle. lia. }
  cbn [length] in Hle. cbn [run_args].
  destruct (str_eq t (lit "--goal")); [apply IH; [lia|done]|].
  destruct (str_eq t (lit "--dir")).
  { destruct ts as [|d ts]; [apply risk_bounded|]. cbn [length] in Hle. apply IH; [lia|].
    intros d' Hd'. apply Some_inj in Hd'. subst d'. unfold bound. rewrite length_take. lia. }
  destruct (starts_with (lit "--") t); [apply risk_bounded|].
  destruct g; [apply IH; [lia|done]|apply risk_bounded].
Qed.
Lemma with_id_bounded verb mk t :
  (∀ id, 0 ≤ id ≤ u64_MAX → command_bounded (mk id)) → command_bounded (with_id verb mk t).
Proof.
  intros Hmk. unfold with_id, parse_id. destruct t as [t|]; cbn -[u64_MAX]; [|apply risk_bounded].
  destruct (parse_uint u64_MAX t) as [v|] eqn:E; [|apply risk_bounded]. apply Hmk. by apply parse_uint_range in E.
Qed.
Lemma parse_one_bounded rest : command_bounded (parse_one rest).
Proof.
  unfold parse_one. destruct (split_whitespace rest) as [|verb ts]; [apply risk_bounded|].
  destruct (str_eq verb (lit "run")).
  { unfold parse_run. pose proof (run_args_bounded [] None false (split_whitespace
      match strip_prefix (lit "run") rest with Some a => trim a | None => [] end) ltac:(done)) as Hb.
    destruct (run_args _ _ _ _) as [[parts dir]|c]; [|done].
    destruct (bound _ MAX_GOAL) as [|c g] eqn:E; [apply risk_bounded|]. split; [done|]. split; [|done].
    rewrite <-E. unfold bound. rewrite length_take. lia. }
  destruct (str_eq verb (lit "retry")); [by apply with_id_bounded|].
  destruct (str_eq verb (lit "cancel")); [by apply with_id_bounded|].
  destruct (str_eq verb (lit "explain")); [by apply with_id_bounded|]. apply risk_bounded.
Qed.
Theorem parse_command_bounded text :
  match parse_command text with Some c => command_bounded c | None => True end.
Proof.
  unfold parse_command. induction (take 256 (lines text)) as [|l ls IH]; cbn [first_command]; [done|].
  destruct (command_rest l); [apply parse_one_bounded|done].
Qed.
(** A line that only begins like a command is counted as an extra command although it is none. *)
Theorem extra_lines_overcount :
  let text := lit "/crustcorelike" ++ [10] ++ lit "/crustcore retry 7" in
  parse_command text = Some (GRetry 7) ∧ extra_command_lines text = 1%nat.
Proof. by vm_compute. Qed.

(** ** Routing *)

Section Routing.
Context (to_lowercase : chars → chars).

(** A keyword of the binding occurs in the text. *)
Definition mentions (text : chars) (b : RepoBinding) : Prop :=
  ∃ k, k ∈ rb_keywords b ∧ k ≠ [] ∧ ∃ a z, text = a ++ k ++ z.
Lemma matches_spec b text : binding_matches b text = true ↔ mentions text b.
Proof.
  unfold binding_matches, mentions. rewrite existsb_exists. unfold str_eq. split.
  - intros (k & Hk%list_elem_of_In & [Hn Hc]%andb_true_iff). exists k. split; [done|].
    apply negb_true_iff, bool_decide_eq_false in Hn. split; [done|]. by apply contains_spec.
  - intros (k & Hk & Hn & Hc). exists k. split; [by apply list_elem_of_In|]. rewrite bool_decide_eq_false_2 by done.
    cbn [negb andb]. by apply contains_spec.
Qed.

Lemma parse_bindings_nodup out args repos :
  NoDup (rb_id <$> out) → parse_bindings_from to_lowercase out args = Ok repos → NoDup (rb_id <$> repos).
Proof.
  revert out. induction args as [|arg args IH]; intros out Hn; cbn [parse_bindings_from]; [by intros [= <-]|].
  destruct (parse_repo_binding to_lowercase arg) as [b|]; [|done].
  destruct (existsb _ out) eqn:E; [done|]. apply IH. rewrite fmap_app. apply NoDup_app. split; [done|].
  split; [|apply NoDup_singleton]. intros x (b' & -> & Hb')%list_elem_of_fmap Hx%list_elem_of_singleton.
  apply not_true_iff_false in E. apply E, existsb_exists. exists b'. split; [by apply list_elem_of_In|].
  by apply bool_decide_eq_true.
Qed.
Lemma filter_single {A} (p : A → bool) l r :
  List.filter p l = [r] → r ∈ l ∧ p r = true ∧ ∀ x, x ∈ l → p x = true → x = r.
Proof.
  intros H. assert (In r (List.filter p l)) as [Hin Hp]%filter_In by (rewrite H; by left).
  split; [by apply list_elem_of_In|]. split; [done|]. intros x Hx%list_elem_of_In Hpx.
  assert (In x (List.filter p l)) as Hi by (by apply filter_In). rewrite H in Hi. by destruct Hi as [|[]].
Qed.
Lemma filter_unique {A} (p : A → bool) l r :
  NoDup l → r ∈ l → p r = true → (∀ x, x ∈ l → p x = true → x = r) → List.filter p l = [r].
Proof.
  induction 1 as [|x l Hx Hn IH]; [set_solver|]. intros Hr Hp Hu. cbn [List.filter].
  destruct (p x) eqn:E.
  - assert (x = r) as -> by (apply Hu; [left|done]). f_equal.
    destruct (List.filter p l) as [|y ys] eqn:Ef; [done|]. exfalso. assert (In y (List.filter p l)) as [Hy Hpy]%filter_In
      by (rewrite Ef; by left). apply list_elem_of_In in Hy. assert (y = r) as -> by (apply Hu; [by right|done]). done.
  - apply IH; [|done|intros y Hy; apply Hu; by right]. apply elem_of_cons in Hr as [->|]; [congruence|done].
Qed.

(** A launch is routed only when the choice is clear: among the repositories bound on the
    command line (whose ids are then distinct), a launch goes to one if and only if that one alone
    is mentioned by a keyword, or none is mentioned and it is the only one bound; otherwise it is
    left open. The text of the launch only selects: it never supplies a path. *)
Theorem launch_routed args repos intent id :
  parse_repo_bindings to_lowercase args = Ok repos →
  classify_repo to_lowercase intent repos = Some id ↔
  ∃ r, r ∈ repos ∧ rb_id r = id ∧
    (mentions (to_lowercase intent) r ∧ (∀ r', r' ∈ repos → mentions (to_lowercase intent) r' → r' = r) ∨
     (∀ r', r' ∈ repos → ¬ mentions (to_lowercase intent) r') ∧ repos = [r]).
Proof.
  intros Hp. assert (NoDup repos) as Hnd.
  { eapply NoDup_fmap_1. eapply (parse_bindings_nodup [] args); [constructor|done]. }
  unfold classify_repo. cbv zeta. set (lower := to_lowercase intent). split.
  - destruct (List.filter _ repos) as [|r [|r2 rs]] eqn:E; [| |done].
    + destruct repos as [|r [|]]; [done| |done]. intros [= <-]. exists r. split; [left|]. split; [done|]. right.
      split; [|done]. intros r' Hr' Hm%matches_spec.
      assert (In r' (List.filter (λ r, binding_matches r lower) [r])) as Hi
        by (apply filter_In; split; [by apply list_elem_of_In|done]). by rewrite E in Hi.
    + intros [= <-]. apply filter_single in E as (Hr & Hm & Hu). exists r. split; [done|]. split; [done|]. left.
      split; [by apply matches_spec|]. intros r' Hr' Hm'. apply Hu; [done|]. by apply matches_spec.
  - intros (r & Hr & <- & [[Hm Hu]|[Hn ->]]).
    + rewrite (filter_unique _ _ r); [done|done|done|by apply matches_spec|]. intros x Hx Hmx. apply Hu; [done|].
      by apply matches_spec.
    + cbn [List.filter]. destruct (binding_matches r lower) eqn:E; [|done].
      apply matches_spec in E. by apply Hn in E; [|left].
Qed.
End Routing.

Lemma launch_routed_witness :
  ∃ repos, parse_repo_bindings to_ascii_lowercase [lit "app=/srv/app"; lit "infra=/srv/infra"] = Ok repos ∧
    (classify_repo to_ascii_lowercase (lit "Fix the Infra deploy") repos = Some (lit "infra") ↔
     ∃ r, r ∈ repos ∧ rb_id r = lit "infra" ∧
       (mentions (to_ascii_lowercase (lit "Fix the Infra deploy")) r ∧
          (∀ r', r' ∈ repos → mentions (to_ascii_lowercase (lit "Fix the Infra deploy")) r' → r' = r) ∨
        (∀ r', r' ∈ repos → ¬ mentions (to_ascii_lowercase (lit "Fix the Infra deploy")) r') ∧ repos = [r])).
Proof.
  eexists. split; [vm_compute; reflexivity|].
  apply (launch_routed to_ascii_lowercase [lit "app=/srv/app"; lit "infra=/srv/infra"]). vm_compute; reflexivity.
Defined.

(** ** Scores *)

Definition meta_ok (m : PatchMetadata) : Prop := 0 ≤ pm_diff_bytes m ≤ u64_MAX ∧ 0 ≤ pm_gates_passed m ≤ u32_MAX.

(** The rounding of the size to single precision is invisible below the cap. *)
Lemma f32_capped n : 0 ≤ n → Z.min (f32_of_u64 n) (50 * UNIT) = Z.min n (50 * UNIT).
Proof.
  intros Hn. unfold f32_of_u64, UNIT. cbv zeta. destruct (Z.leb_spec (Z.log2 n - 23) 0) as [|He]; [done|].
  set (e := Z.log2 n - 23) in *.
  assert (0 < n) as Hp by (destruct (Z.eq_dec n 0) as [->|]; [simpl in *; lia|lia]).
  destruct (Z.log2_spec n Hp) as [Hlo _].
  assert (2 ^ Z.log2 n = 2 ^ 23 * 2 ^ e) as Hpow by (rewrite <-Z.pow_add_r by lia; f_equal; lia).
  assert (2 ≤ 2 ^ e) as H2 by (change 2 with (2 ^ 1) at 1; apply Z.pow_le_mono_r; lia).
  assert (2 ^ 23 ≤ n / 2 ^ e) as Hq by (apply Z.div_le_lower_bound; lia).
  assert (50 * 1024 ≤ n / 2 ^ e * 2 ^ e) by nia.
  rewrite !Z.min_r; [done|nia|]. destruct (_ || _); nia.
Qed.
Lemma score_verified m r : meta_ok m → pm_verified m = true → 50 * UNIT ≤ score_candidate m r.
Proof.
  intros [Hd Hg] Hv. unfold score_candidate. rewrite Hv, f32_capped by lia. unfold VERIFIED_BONUS, UNIT.
  destruct (pm_security_review_passed m), (risk_geb r RHigh); lia.
Qed.
Lemma score_unverified m r : meta_ok m → pm_verified m = false → score_candidate m r ≤ 28 * UNIT.
Proof.
  intros [Hd Hg] Hv. unfold score_candidate. rewrite Hv, f32_capped by lia. unfold UNIT.
  destruct (pm_security_review_passed m), (risk_geb r RHigh); lia.
Qed.

Section BestProps.
Context {T : Type} (r : RiskTier).
Implicit Types (cs : list (T * PatchMetadata)).
Definition first_best cs (x : T) (m : PatchMetadata) : Prop :=
  ∃ l1 l2, cs = l1 ++ (x, m) :: l2 ∧
    Forall (λ c, score_candidate c.2 r < score_candidate m r) l1 ∧
    Forall (λ c, score_candidate c.2 r ≤ score_candidate m r) l2.
Lemma best_fold cs :
  match fold_left (best_step r) cs None with
  | None => cs = []
  | Some (x, s) => ∃ m, s = score_candidate m r ∧ first_best cs x m
  end.
Proof.
  induction cs as [|[y my] cs IH] using rev_ind; [done|]. rewrite fold_left_app. cbn [fold_left].
  destruct (fold_left (best_step r) cs None) as [[x s]|]; unfold best_step; cbn [snd fst].
  - destruct IH as (m & -> & l1 & l2 & -> & H1 & H2).
    destruct (Z.ltb_spec (score_candidate m r) (score_candidate my r)) as [Hlt|Hge].
    + exists my. split; [done|]. exists (l1 ++ (x, m) :: l2), []. split; [done|]. split; [|constructor].
      apply Forall_app. split; [eapply Forall_impl; [exact H1|cbn; lia]|].
      constructor; [done|eapply Forall_impl; [exact H2|cbn; lia]].
    + exists m. split; [done|]. exists l1, (l2 ++ [(y, my)]). rewrite <-app_assoc. split; [done|].
      split; [done|]. apply Forall_app. split; [done|]. by constructor.
  - subst cs. exists my. split; [done|]. exists [], []. repeat constructor.
Qed.

(** The best candidate is the first one of the highest score, there is one whenever there are
    candidates, and correctness dominates: if any candidate is verified, the one picked is
    verified, whatever the sizes of the diffs, the gates and the reviews say. *)
Theorem pick_best_exact cs :
  Forall (λ c, meta_ok c.2) cs → cs ≠ [] →
  ∃ x m, pick_best cs r = Some x ∧ first_best cs x m ∧
    ((∃ c, c ∈ cs ∧ pm_verified c.2 = true) → pm_verified m = true).
Proof.
  intros Hok Hne. unfold pick_best. pose proof (best_fold cs) as Hb.
  destruct (fold_left _ cs None) as [[x s]|]; [|done]. destruct Hb as (m & -> & Hfb).
  exists x, m. split; [done|]. split; [done|]. intros ([y my] & Hin & Hv). cbn [snd] in Hv.
  destruct (pm_verified m) eqn:Em; [done|]. exfalso. rewrite Forall_forall in Hok.
  destruct Hfb as (l1 & l2 & -> & H1 & H2).
  pose proof (score_verified my r (Hok _ Hin) Hv) as Hhi.
  assert (meta_ok m) as Hm by (apply (Hok (x, m)); set_solver).
  pose proof (score_unverified m r Hm Em) as Hlo. unfold UNIT in *.
  rewrite Forall_forall in H1, H2. apply elem_of_app in Hin as [Hin|Hin]; [apply H1 in Hin; cbn in Hin; lia|].
  apply elem_of_cons in Hin as [[= -> ->]|Hin]; [congruence|]. apply H2 in Hin. cbn in Hin. lia.
Qed.
End BestProps.

Definition demo_metas : list (Z * PatchMetadata) :=
  [(1, mkMeta false 10 10 true); (2, mkMeta true (2 ^ 40) 0 false); (3, mkMeta true (2 ^ 41) 0 false)].
Lemma pick_best_exact_witness :
  pick_best demo_metas RHigh = Some 2 ∧ ∃ x m, pick_best demo_metas RHigh = Some x ∧ first_best RHigh demo_metas x m.
Proof.
  split; [vm_compute; reflexivity|].
  destruct (pick_best_exact RHigh demo_metas) as (x & m & H1 & H2 & _); [|done|exists x, m; exact (conj H1 H2)].
  repeat constructor; vm_compute; discriminate.
Defined.
