(* ===== verification/Engine.v ===== *)
(** * The model-routing engine of the network helper

    Models [crustcore-net/src/lib.rs] and [crustcore-net/src/modality.rs]: the probed registry of
    models, the choice of candidates under hard constraints, the cost ceiling, the fallback chain,
    the fusion panel, the shared ledger, the sanitizing of untrusted rankings and vectors, and the
    request loop that serves them over the helper protocol. Providers are records of functions
    over the state [W] of the outside world; a provider that is called returns the chunks it
    streamed together with its result. [None] is a panic (an index out of range). *)

From S2P Require Import Prelude Text Std Chars Redactor Json NetProto.

(** [x.saturating_mul(y)]. *)
Definition saturating_mul (max x y : Z) : Z := Z.min max (x * y).

(** ** Cards, candidates, errors *)

Record ModelCard := mkCard {
  mc_model : chars; mc_healthy : bool; mc_context : Z; mc_tools : bool; mc_structured : bool;
  mc_streaming : bool; mc_cost_per_1k_micros : Z; mc_local : bool; mc_embeddings : bool;
  mc_rerank : bool; mc_embedding_dims : Z }.
Definition to_info (c : ModelCard) (provider : chars) : ModelInfo :=
  mkModelInfo provider (mc_model c) (mc_healthy c) (mc_context c) (mc_tools c) (mc_structured c)
    (mc_streaming c) (mc_cost_per_1k_micros c) (mc_embeddings c) (mc_rerank c) (mc_embedding_dims c).
Definition est_cost_micros (c : ModelCard) (max_tokens : Z) : Z :=
  saturating_mul u64_MAX (mc_cost_per_1k_micros c) max_tokens / 1000.

Record Completion := mkCompletion { co_text : chars; co_usage : Usage }.
Inductive ProviderError := Unavailable (e : chars) | Capability (e : chars) | OtherError (e : chars).
Definition provider_error_display (e : ProviderError) : chars :=
  match e with
  | Unavailable e => lit "unavailable: " ++ e
  | Capability e => lit "capability: " ++ e
  | OtherError e => e
  end.
Inductive RouteError := NoModelForConstraints (s : chars) | OverBudget (s : chars) | AllProvidersFailed (s : chars).
Definition route_reason (e : RouteError) : chars :=
  match e with
  | NoModelForConstraints s => lit "no model satisfies constraints: " ++ s
  | OverBudget s => lit "over budget: " ++ s
  | AllProvidersFailed s => lit "all providers failed: " ++ s
  end.
(** [Candidate] and [ModalCandidate] have the same fields. *)
Record Candidate := mkCandidate { ca_provider_idx : nat; ca_provider_id : chars; ca_card : ModelCard }.

Record BudgetLedger := mkLedger {
  le_requests : Z; le_input_tokens : Z; le_output_tokens : Z; le_cost_micros : Z; le_fallbacks : Z }.
Definition BudgetLedger_default : BudgetLedger := mkLedger 0 0 0 0 0.
(** [Engine::account] and [accumulate]: the same sums. *)
Definition account (l : BudgetLedger) (u : Usage) (fallbacks : nat) : BudgetLedger :=
  mkLedger (saturating_add u64_MAX (le_requests l) 1)
    (saturating_add u64_MAX (le_input_tokens l) (us_input_tokens u))
    (saturating_add u64_MAX (le_output_tokens l) (us_output_tokens u))
    (saturating_add u64_MAX (le_cost_micros l) (us_cost_micros u))
    (saturating_add u64_MAX (le_fallbacks l) (Z.of_nat fallbacks)).

(** ** Choosing candidates *)

(** [a] is not after [b] in the order of the role. *)
Definition role_le (role : Role) (a b : ModelCard) : bool :=
  let cost_le := mc_cost_per_1k_micros a <=? mc_cost_per_1k_micros b in
  match role with
  | Advisor | Review =>
      (mc_context b <? mc_context a) || (mc_context a =? mc_context b) && cost_le
  | Research => cost_le
  | LocalFallback =>
      match mc_local a, mc_local b with
      | true, false => true
      | false, true => false
      | _, _ => cost_le
      end
  | Implementation =>
      (mc_cost_per_1k_micros a <? mc_cost_per_1k_micros b)
      || (mc_cost_per_1k_micros a =? mc_cost_per_1k_micros b) && (mc_context b <=? mc_context a)
  end.
Definition sort_for_role (role : Role) (l : list Candidate) : list Candidate :=
  sort_by (λ a b, role_le role (ca_card a) (ca_card b)) l.

(** The hard constraints. *)
Definition satisfies (req : CompleteRequest) (m : ModelCard) : bool :=
  let q := cr_require req in
  mc_healthy m && (negb (rq_tools q) || mc_tools m) && (rq_min_context q <=? mc_context m)
  && (negb (rq_local_only q) || mc_local m).
Definition why_none (req : CompleteRequest) : chars :=
  let q := cr_require req in
  let why := (if rq_tools q then [lit "tools"] else []) ++ (if rq_local_only q then [lit "local-only"] else [])
             ++ (if 0 <? rq_min_context q then [lit "min-context"] else []) in
  match why with
  | [] => lit "no healthy model"
  | _ => lit "requires " ++ join_with 43 why
  end.
Definition select_candidates (registry : list Candidate) (req : CompleteRequest)
  : result RouteError (list Candidate) :=
  match List.filter (λ c, satisfies req (ca_card c)) registry with
  | [] => Err (NoModelForConstraints (why_none req))
  | kept => Ok (sort_for_role (cr_role req) kept)
  end.
Definition apply_budget (candidates : list Candidate) (req : CompleteRequest)
  : result RouteError (list Candidate) :=
  if cr_max_cost_micros req =? 0 then Ok candidates
  else
    match List.filter (λ c, est_cost_micros (ca_card c) (cr_max_tokens req) <=? cr_max_cost_micros req) candidates with
    | [] => Err (OverBudget (lit "ceiling " ++ dec_u (cr_max_cost_micros req) ++ lit " micros too low for "
                             ++ dec_u (cr_max_tokens req) ++ lit " output tokens"))
    | affordable => Ok affordable
    end.
Definition ensure_local_fallback (candidates : list Candidate) : list Candidate :=
  List.filter (λ c, negb (mc_local (ca_card c))) candidates ++ List.filter (λ c, mc_local (ca_card c)) candidates.

Inductive Modality := MCompletion | MEmbedding | MRerank.
Definition offers (modality : Modality) (require_dims : Z) (m : ModelCard) : bool :=
  mc_healthy m &&
  match modality with
  | MCompletion => true
  | MEmbedding => mc_embeddings m && ((require_dims =? 0) || (mc_embedding_dims m =? require_dims))
  | MRerank => mc_rerank m
  end.
Definition why_none_for (modality : Modality) (require_dims : Z) : chars :=
  match modality with
  | MCompletion => lit "no healthy model"
  | MEmbedding =>
      if 0 <? require_dims then lit "requires embeddings+" ++ dec_u require_dims ++ lit "-dims"
      else lit "requires embeddings"
  | MRerank => lit "requires rerank"
  end.
Definition select_candidates_for (modality : Modality) (registry : list Candidate) (role : Role) (require_dims : Z)
  : result RouteError (list Candidate) :=
  match List.filter (λ c, offers modality require_dims (ca_card c)) registry with
  | [] => Err (NoModelForConstraints (why_none_for modality require_dims))
  | kept => Ok (sort_for_role role kept)
  end.
Definition apply_budget_for (candidates : list Candidate) (est_output_tokens max_cost_micros : Z)
  : result RouteError (list Candidate) :=
  if max_cost_micros =? 0 then Ok candidates
  else
    match List.filter (λ c, saturating_mul u64_MAX (mc_cost_per_1k_micros (ca_card c)) est_output_tokens / 1000
                            <=? max_cost_micros) candidates with
    | [] => Err (OverBudget (lit "ceiling " ++ dec_u max_cost_micros ++ lit " micros too low for ~"
                             ++ dec_u est_output_tokens ++ lit " tokens"))
    | affordable => Ok affordable
    end.

(** ** The fallback chain

    [call] runs one candidate; the chain stops at the first success and remembers the providers
    that failed before it. The three modalities have the same loop. *)
Section Chain.
Context {S A : Type} (call : Candidate → S → option (result ProviderError A * S)).
Fixpoint try_candidates (cands : list Candidate) (fallbacks : list chars) (last_err : chars) (s : S)
  : option (result RouteError (A * list chars * Candidate) * S) :=
  match cands with
  | [] => Some (Err (AllProvidersFailed last_err), s)
  | cand :: cands' =>
      '(res, s) ← call cand s;
      match res with
      | Ok a => Some (Ok (a, fallbacks, cand), s)
      | Err e =>
          try_candidates cands' (fallbacks ++ [ca_provider_id cand])
            (ca_provider_id cand ++ lit ": " ++ provider_error_display e) s
      end
  end.
End Chain.
Definition NO_CANDIDATES : chars := lit "no candidates".

Section Engine.
Context `{FL : F32} {W : Type}.

(** ** Providers *)

Record Provider := mkProvider {
  p_id : chars;
  p_probe : W → list ModelCard * W;
  p_complete : chars → CompleteRequest → W → result ProviderError Completion * list chars * W
}.
Record Engine := mkEngine { en_providers : list Provider; en_ledger : BudgetLedger }.
Definition Engine_new (providers : list Provider) : Engine := mkEngine providers BudgetLedger_default.

(** The cards of every provider in turn, with the provider's index. *)
Fixpoint probe_all (probes : list (chars * (W → list ModelCard * W))) (idx : nat) (w : W) : list Candidate * W :=
  match probes with
  | [] => ([], w)
  | (id, probe) :: probes' =>
      let '(cards, w) := probe w in
      let '(rest, w) := probe_all probes' (S idx) w in
      ((mkCandidate idx id <$> cards) ++ rest, w)
  end.
Definition registry_indexed (en : Engine) (w : W) : list Candidate * W :=
  probe_all ((λ p, (p_id p, p_probe p)) <$> en_providers en) 0 w.
Definition registry (en : Engine) (w : W) : list (chars * ModelCard) * W :=
  let '(cs, w) := registry_indexed en w in ((λ c, (ca_provider_id c, ca_card c)) <$> cs, w).

(** [run_reliable]: the state of the chain is the world and the chunks streamed so far. *)
Definition call_provider (providers : list Provider) (req : CompleteRequest) (cand : Candidate) (s : W * list chars)
  : option (result ProviderError Completion * (W * list chars)) :=
  provider ← providers !! ca_provider_idx cand;
  let '(res, chunks, w) := p_complete provider (mc_model (ca_card cand)) req s.1 in
  Some (res, (w, s.2 ++ chunks)).
Definition run_reliable (providers : list Provider) (cands : list Candidate) (req : CompleteRequest) (s : W * list chars)
  : option (result RouteError Final * (W * list chars)) :=
  '(res, s) ← try_candidates (call_provider providers req) cands [] NO_CANDIDATES s;
  Some (match res with
        | Ok (c, fallbacks, cand) =>
            Ok (mkFinal (truncated_chars (co_text c) MAX_TEXT_BYTES) (ca_provider_id cand) (mc_model (ca_card cand))
                  (co_usage c) fallbacks)
        | Err e => Err e
        end, s).

Definition complete_inner (en : Engine) (req : CompleteRequest) (local_fallback : bool) (w : W)
  : option (result RouteError Final * list chars * Engine * W) :=
  let '(reg, w) := registry_indexed en w in
  match (cands ← select_candidates reg req; apply_budget cands req) with
  | Err e => Some (Err e, [], en, w)
  | Ok cands =>
      let cands := if local_fallback then ensure_local_fallback cands else cands in
      '(res, (w, chunks)) ← run_reliable (en_providers en) cands req (w, []);
      Some (res, chunks,
            match res with
            | Ok fin => mkEngine (en_providers en) (account (en_ledger en) (fi_usage fin) (length (fi_fallbacks fin)))
            | Err _ => en
            end, w)
  end.
Definition Engine_complete (en : Engine) (req : CompleteRequest) (w : W) := complete_inner en req false w.
Definition complete_with_local_fallback (en : Engine) (req : CompleteRequest) (w : W) := complete_inner en req true w.

(** ** The fusion panel *)

Record PanelEntry := mkPanel { pe_provider : chars; pe_model : chars; pe_completion : result ProviderError Completion }.
Fixpoint run_panel (providers : list Provider) (cands : list Candidate) (req : CompleteRequest) (w : W)
  : option (list PanelEntry * W) :=
  match cands with
  | [] => Some ([], w)
  | cand :: cands' =>
      provider ← providers !! ca_provider_idx cand;
      let '(res, _, w) := p_complete provider (mc_model (ca_card cand)) req w in
      '(panel, w) ← run_panel providers cands' req w;
      Some (mkPanel (ca_provider_id cand) (mc_model (ca_card cand)) res :: panel, w)
  end.
Definition run_fusion (providers : list Provider) (cands : list Candidate) (req : CompleteRequest) (n : nat) (w : W)
  : option (list PanelEntry * W) := run_panel providers (take (Nat.min n (length cands)) cands) req w.
Definition panel_account (l : BudgetLedger) (e : PanelEntry) : BudgetLedger :=
  match pe_completion e with Ok c => account l (co_usage c) 0 | Err _ => l end.
Definition fusion_panel (en : Engine) (req : CompleteRequest) (n : nat) (w : W)
  : option (result RouteError (list PanelEntry) * Engine * W) :=
  let '(reg, w) := registry_indexed en w in
  match (cands ← select_candidates reg req; apply_budget cands req) with
  | Err e => Some (Err e, en, w)
  | Ok cands =>
      '(panel, w) ← run_fusion (en_providers en) cands req n w;
      Some (Ok panel, mkEngine (en_providers en) (fold_left panel_account panel (en_ledger en)), w)
  end.

(** ** Embedding and reranking *)

Record EmbeddingRequest := mkEmbReq { eq_role : Role; eq_inputs : list chars; eq_max_cost_micros : Z }.
Definition EmbeddingRequest_new (role : Role) (inputs : list chars) (max_cost_micros : Z) : EmbeddingRequest :=
  mkEmbReq role (bound_text <$> take MAX_BATCH inputs) max_cost_micros.
Record EmbeddingResponse := mkEmbResp { ep_vectors : list (list f32); ep_usage : Usage }.
Record RankRequest := mkRankReq { kq_role : Role; kq_query : chars; kq_documents : list chars; kq_max_cost_micros : Z }.
Definition RankRequest_new (role : Role) (query : chars) (documents : list chars) (max_cost_micros : Z) : RankRequest :=
  mkRankReq role (bound_text query) (bound_text <$> take MAX_DOCS documents) max_cost_micros.
Definition doc_count (r : RankRequest) : nat := length (kq_documents r).
Record RerankResponse := mkRankResp { kp_ranking : list (Z * f32); kp_usage : Usage }.

Definition finite_or_zero (x : f32) : f32 := if f32_is_finite x then x else f32_zero.
Definition sanitize_vectors (raw : list (list f32)) : list (list f32) :=
  (λ v, finite_or_zero <$> take MAX_EMBEDDING_DIMS v) <$> take MAX_BATCH raw.

(** The rough count of tokens, [as u32]. *)
Definition est_batch_tokens (texts : list chars) : Z :=
  (Z.of_nat (sum_list_with byte_length texts) / 4 + 1) mod 2 ^ 32.
Definition est_text_tokens (s : chars) : Z := (Z.of_nat (byte_length s) / 4 + 1) mod 2 ^ 32.

Record EmbedProvider := mkEmbedProvider {
  eb_id : chars;
  eb_probe : W → list ModelCard * W;
  eb_embed : chars → EmbeddingRequest → W → result ProviderError EmbeddingResponse * W
}.
Record RerankProvider := mkRerankProvider {
  rk_id : chars;
  rk_probe : W → list ModelCard * W;
  rk_rerank : chars → RankRequest → W → result ProviderError RerankResponse * W
}.
Definition embed_registry (ps : list EmbedProvider) (w : W) : list Candidate * W :=
  probe_all ((λ p, (eb_id p, eb_probe p)) <$> ps) 0 w.
Definition rerank_registry (ps : list RerankProvider) (w : W) : list Candidate * W :=
  probe_all ((λ p, (rk_id p, rk_probe p)) <$> ps) 0 w.

(** What a modality returns: the response, the fallbacks, the provider, the model. *)
Definition served {A} (r : result RouteError (A * list chars * Candidate)) : result RouteError (A * list chars * chars * chars) :=
  match r with
  | Ok (a, fallbacks, cand) => Ok (a, fallbacks, ca_provider_id cand, mc_model (ca_card cand))
  | Err e => Err e
  end.
Definition embed_engine (ps : list EmbedProvider) (req : EmbeddingRequest) (ledger : BudgetLedger) (w : W)
  : option (result RouteError (EmbeddingResponse * list chars * chars * chars) * BudgetLedger * W) :=
  let '(reg, w) := embed_registry ps w in
  match (cands ← select_candidates_for MEmbedding reg (eq_role req) 0;
         apply_budget_for cands (est_batch_tokens (eq_inputs req)) (eq_max_cost_micros req)) with
  | Err e => Some (Err e, ledger, w)
  | Ok cands =>
      '(res, w) ← try_candidates (λ cand w,
          p ← ps !! ca_provider_idx cand; Some (eb_embed p (mc_model (ca_card cand)) req w)) cands [] NO_CANDIDATES w;
      let res := match res with
                 | Ok (resp, fb, cand) => Ok (mkEmbResp (sanitize_vectors (ep_vectors resp)) (ep_usage resp), fb, cand)
                 | Err e => Err e
                 end in
      Some (served res, match res with Ok (resp, fb, _) => account ledger (ep_usage resp) (length fb) | Err _ => ledger end, w)
  end.
Definition rerank_engine (ps : list RerankProvider) (req : RankRequest) (ledger : BudgetLedger) (w : W)
  : option (result RouteError (RerankResponse * list chars * chars * chars) * BudgetLedger * W) :=
  let '(reg, w) := rerank_registry ps w in
  let est := saturating_add u32_MAX (est_batch_tokens (kq_documents req)) (est_text_tokens (kq_query req)) in
  match (cands ← select_candidates_for MRerank reg (kq_role req) 0;
         apply_budget_for cands est (kq_max_cost_micros req)) with
  | Err e => Some (Err e, ledger, w)
  | Ok cands =>
      '(res, w) ← try_candidates (λ cand w,
          p ← ps !! ca_provider_idx cand; Some (rk_rerank p (mc_model (ca_card cand)) req w)) cands [] NO_CANDIDATES w;
      Some (served res, match res with Ok (resp, fb, _) => account ledger (kp_usage resp) (length fb) | Err _ => ledger end, w)
  end.

(** ** Serving requests: the lines that are written, in order *)

Definition serve_one (en : Engine) (embedders : option (list EmbedProvider)) (rerankers : option (list RerankProvider))
    (req : Request) (w : W) : option (list Response * Engine * W) :=
  match req with
  | Probe =>
      let info := λ c, RModel (to_info (ca_card c) (ca_provider_id c)) in
      let '(cs, w) := registry_indexed en w in
      let '(es, w) := match embedders with Some ps => embed_registry ps w | None => ([], w) end in
      let '(rs, w) := match rerankers with Some ps => rerank_registry ps w | None => ([], w) end in
      Some ((info <$> cs) ++ (info <$> es) ++ (info <$> rs) ++ [RRegistryEnd], en, w)
  | Complete c =>
      '(res, chunks, en, w) ← Engine_complete en c w;
      let streamed := if cr_stream c then (λ t, RChunk (truncated_chars t MAX_TEXT_BYTES)) <$> chunks else [] in
      Some (streamed ++ [match res with Ok fin => RFinal fin | Err e => RError (route_reason e) end], en, w)
  | Embed e =>
      match embedders with
      | None => Some ([RError (route_reason (NoModelForConstraints (lit "requires embeddings")))], en, w)
      | Some ps =>
          let mreq := EmbeddingRequest_new (er_role e) (er_inputs e) (er_max_cost_micros e) in
          '(res, ledger, w) ← embed_engine ps mreq (en_ledger en) w;
          Some ([match res with
                 | Ok (resp, fallbacks, provider, model) =>
                     REmbedding (mkEmbedding (ep_vectors resp) (ep_usage resp) provider model fallbacks)
                 | Err e => RError (route_reason e)
                 end], mkEngine (en_providers en) ledger, w)
      end
  | Rerank r =>
      match rerankers with
      | None => Some ([RError (route_reason (NoModelForConstraints (lit "requires rerank")))], en, w)
      | Some ps =>
          let mreq := RankRequest_new (kr_role r) (kr_query r) (kr_documents r) (kr_max_cost_micros r) in
          '(res, ledger, w) ← rerank_engine ps mreq (en_ledger en) w;
          Some ([match res with
                 | Ok (resp, fallbacks, provider, model) =>
                     RRanking (mkRanking ((λ p, (p.1 mod 2 ^ 32, p.2)) <$> kp_ranking resp) (kp_usage resp) provider model fallbacks)
                 | Err e => RError (route_reason e)
                 end], mkEngine (en_providers en) ledger, w)
      end
  end.

(** [serve]: until the end of the input or a line that is no request. Every turn consumes at least
    a byte, so the bytes ahead are enough turns. *)
Fixpoint serve_loop (fuel : nat) (en : Engine) (embedders : option (list EmbedProvider))
    (rerankers : option (list RerankProvider)) (r : list bytes) (out : bytes) (w : W)
  : option (result ProtoError unit * Engine * list bytes * bytes * W) :=
  match fuel with
  | O => Some (Ok tt, en, r, out, w)
  | S fuel' =>
      let '(res, r) := read_request r in
      match res with
      | Err e => Some (Err e, en, r, out, w)
      | Ok None => Some (Ok tt, en, r, out, w)
      | Ok (Some req) =>
          '(resps, en, w) ← serve_one en embedders rerankers req w;
          serve_loop fuel' en embedders rerankers r (out ++ (resps ≫= response_line)) w
      end
  end.
Definition serve (en : Engine) (r : list bytes) (out : bytes) (w : W) :=
  serve_loop (S (bytes_ahead r)) en None None r out w.

Record MultiModalEngine := mkMultiModal {
  mm_completion : Engine; mm_embed : option (list EmbedProvider); mm_rerank : option (list RerankProvider) }.
Definition completion_only (en : Engine) : MultiModalEngine := mkMultiModal en None None.
Definition mm_serve (mm : MultiModalEngine) (r : list bytes) (out : bytes) (w : W) :=
  serve_loop (S (bytes_ahead r)) (mm_completion mm) (mm_embed mm) (mm_rerank mm) r out w.
End Engine.
Arguments Provider : clear implicits.
Arguments Engine : clear implicits.
Arguments mkEngine {W}.
Arguments mkProvider {W}.

(** ** Rankings: [f32::partial_cmp], total on finite values *)

Class F32Cmp `{FL : F32} := {
  f32_partial_cmp : f32 → f32 → option comparison;
  f32_key : f32 → Z;
  f32_zero_finite : f32_is_finite f32_zero = true;
  f32_cmp_finite x y :
    f32_is_finite x = true → f32_is_finite y = true → f32_partial_cmp x y = Some (f32_key x ?= f32_key y) }.
Section Ranking.
Context `{FC : F32Cmp}.
(** [b] before [a] when its score is greater; incomparable scores are equal. *)
Definition rank_le (a b : Z * f32) : bool :=
  match default Eq (f32_partial_cmp b.2 a.2) with Gt => false | _ => true end.
Fixpoint rank_loop (doc_count : nat) (seen : list Z) (out raw : list (Z * f32)) : list (Z * f32) :=
  match raw with
  | [] => out
  | (idx, score) :: raw' =>
      if idx <? 0 then rank_loop doc_count seen out raw'
      else if Z.of_nat doc_count <=? idx then rank_loop doc_count seen out raw'
      else if bool_decide (idx ∈ seen) then rank_loop doc_count seen out raw'
      else rank_loop doc_count (idx :: seen) (out ++ [(idx, finite_or_zero score)]) raw'
  end.
Definition sanitize_ranking (raw : list (Z * f32)) (doc_count : nat) : list (Z * f32) :=
  sort_by rank_le (rank_loop doc_count [] [] (take MAX_DOCS raw)).
End Ranking.

(** ** The deterministic providers of the default build *)

Inductive MockBehavior := Echo | AlwaysFail (reason : chars).
Record MockProvider := mkMock { mk_id : chars; mk_cards : list ModelCard; mk_behavior : MockBehavior }.
Definition est_tokens (s : chars) : Z := est_text_tokens s.
(** The slices of at least [step] bytes that end on a character. *)
Fixpoint mock_chunks (step : nat) (cur : chars) (s : chars) : list chars :=
  match s with
  | [] => match cur with [] => [] | _ => [cur] end
  | c :: s' =>
      let cur := cur ++ [c] in
      if decide (step ≤ byte_length cur)%nat then cur :: mock_chunks step [] s' else mock_chunks step cur s'
  end.
Definition mock_complete (m : MockProvider) (model : chars) (req : CompleteRequest)
  : result ProviderError Completion * list chars :=
  match mk_behavior m with
  | AlwaysFail reason => (Err (Unavailable reason), [])
  | Echo =>
      let answer := lit "[" ++ mk_id m ++ lit "/" ++ model ++ lit "] " ++ cr_prompt req in
      let step := Nat.max (byte_length answer / 3) 1 in
      let output_tokens := est_tokens answer in
      let input_tokens := est_tokens (cr_prompt req) + est_tokens (cr_system req) in
      let card_cost := default 0 (mc_cost_per_1k_micros <$> find (λ c, bool_decide (mc_model c = model)) (mk_cards m)) in
      (Ok (mkCompletion answer (mkUsage input_tokens output_tokens
             (saturating_mul u64_MAX card_cost output_tokens / 1000))), mock_chunks step [] answer)
  end.
Definition mock_provider {W} (m : MockProvider) : Provider W :=
  mkProvider (mk_id m) (λ w, (mk_cards m, w)) (λ model req w, (mock_complete m model req, w)).

Definition remote_strong : ModelCard := mkCard (lit "strong-1") true 128000 true true true 15000 false false false 0.
Definition remote_fast : ModelCard := mkCard (lit "fast-1") true 32000 true true true 1000 false false false 0.
Definition local_small : ModelCard := mkCard (lit "local-1") true 16000 false false true 0 true false false 0.
Definition default_mock_engine {W} : Engine W :=
  Engine_new [mock_provider (mkMock (lit "mock-remote") [remote_strong; remote_fast] Echo);
              mock_provider (mkMock (lit "mock-local") [local_small] Echo)].
