(* ===== verification/EngineTheorems.v ===== *)
(** * The routing engine: theorems

    The chain of candidates is exactly the eligible and affordable models of the probed registry,
    in the order of the role; a request is served by the first of them that does not fail; local
    models come last when asked for; untrusted rankings come out in range, without duplicates and
    in order; and a request written by the client is answered, over any pipe, by what the engine
    routed. *)

From Stdlib Require Import Sorted.
From S2P Require Import Prelude Text Std Chars Redactor Strings Order Json NetProto NetProtoTheorems Engine.

(** ** Sorting *)

(** Sorting by a comparison that decides the relation on the elements at hand. *)
Lemma sort_by_sorted_on {A} (le : A → A → bool) (R : A → A → Prop) (P : A → Prop) l :
  (∀ a b, P a → P b → le a b = true → R a b) → (∀ a b, P a → P b → le a b = false → R b a) → Transitive R →
  Forall P l → StronglySorted R (sort_by le l).
Proof.
  intros Ht Hf Htr. unfold sort_by. induction 1 as [|x l Hx Hl IH]; cbn [foldr]; [constructor|].
  assert (Forall P (foldr (insert_sorted le) [] l)) as Hk by (by rewrite (sort_by_perm le l)). revert Hk.
  induction IH as [|y k Hk IH Hy]; cbn [insert_sorted]; [repeat constructor|]. rewrite Forall_cons. intros [HPy HPk].
  destruct (le x y) eqn:E.
  - constructor; [by constructor|]. constructor; [by apply Ht|]. eapply Forall_impl; [exact Hy|].
    intros z Hz. by etrans; [apply Ht|].
  - constructor; [by apply IH|]. apply Forall_forall. intros z [->|Hz]%insert_sorted_elem; [by apply Hf|].
    by eapply Forall_forall in Hy.
Qed.

(** The order of a role on candidates. *)
Definition before (role : Role) (a b : Candidate) : Prop := role_le role (ca_card a) (ca_card b) = true.
Lemma role_le_total role a b : role_le role a b = false → role_le role b a = true.
Proof.
  unfold role_le. destruct role; try (destruct (mc_local a), (mc_local b)); lia || done.
Qed.
Lemma role_le_trans role a b c : role_le role a b = true → role_le role b c = true → role_le role a c = true.
Proof.
  unfold role_le. destruct role; try (destruct (mc_local a), (mc_local b), (mc_local c)); lia || done.
Qed.
Lemma sort_for_role_sorted role l : StronglySorted (before role) (sort_for_role role l).
Proof.
  apply sort_by_sorted; [done|by intros a b; apply role_le_total|].
  intros a b c Hab Hbc. by eapply role_le_trans.
Qed.
Lemma filter_sorted {A} (R : A → A → Prop) (p : A → bool) l :
  StronglySorted R l → StronglySorted R (List.filter p l).
Proof.
  induction 1 as [|x l Hl IH Hx]; cbn [List.filter]; [constructor|]. destruct (p x); [|done]. constructor; [done|].
  apply Forall_forall. intros y [Hy _]%list_elem_of_In%filter_In. rewrite Forall_forall in Hx. apply Hx.
  by apply list_elem_of_In.
Qed.

(** ** The chain *)

Section ChainProps.
Context {S A : Type} (call : Candidate → S → option (result ProviderError A * S)).
Inductive all_fail : list Candidate → S → S → Prop :=
| fail_nil s : all_fail [] s s
| fail_cons cand cands s s1 s2 e :
    call cand s = Some (Err e, s1) → all_fail cands s1 s2 → all_fail (cand :: cands) s s2.
Lemma try_candidates_spec cands : ∀ fb le s,
  (∀ cand, cand ∈ cands → ∀ s, is_Some (call cand s)) →
  ∃ res s', try_candidates call cands fb le s = Some (res, s') ∧
    match res with
    | Ok (a, fb', cand) =>
        ∃ pre post s1, cands = pre ++ cand :: post ∧ all_fail pre s s1 ∧
          call cand s1 = Some (Ok a, s') ∧ fb' = fb ++ (ca_provider_id <$> pre)
    | Err e => all_fail cands s s' ∧ ∃ m, e = AllProvidersFailed m
    end.
Proof.
  induction cands as [|cand cands IH]; intros fb le s Hok; cbn [try_candidates].
  { eexists _, s. split; [done|]. split; [constructor|eauto]. }
  destruct (Hok cand (list_elem_of_here _ _) s) as [[res s1] Hc]. rewrite Hc. cbn [mbind option_bind].
  destruct res as [a|e].
  - exists (Ok (a, fb, cand)), s1. split; [done|]. exists [], cands, s. split; [done|].
    split; [constructor|]. split; [done|]. by rewrite app_nil_r.
  - destruct (IH (fb ++ [ca_provider_id cand]) (ca_provider_id cand ++ lit ": " ++ provider_error_display e) s1)
      as (res & s' & -> & Hres).
    { intros c Hin. apply Hok. by right. }
    exists res, s'. split; [done|]. destruct res as [[[a fb'] c]|e'].
    + destruct Hres as (pre & post & s2 & -> & Hf & Hcall & ->). exists (cand :: pre), post, s2.
      split; [done|]. split; [by econstructor|]. split; [done|]. by rewrite <-app_assoc.
    + destruct Hres as [Hf Hm]. split; [by econstructor|done].
Qed.
End ChainProps.

Section EngineProps.
Context `{FL : F32} {W : Type}.
Implicit Types (en : Engine W) (w : W).

(** ** The registry *)

Lemma probe_all_idx (probes : list (chars * (W → list ModelCard * W))) : ∀ idx w cand,
  cand ∈ (probe_all probes idx w).1 →
  ∃ i p, ca_provider_idx cand = (idx + i)%nat ∧ probes !! i = Some p ∧ ca_provider_id cand = p.1.
Proof.
  induction probes as [|[id probe] probes IH]; intros idx w cand; cbn [probe_all]; [set_solver|].
  destruct (probe w) as [cards w1]. specialize (IH (S idx) w1 cand).
  destruct (probe_all probes (S idx) w1) as [rest w2]. cbn [fst] in *. rewrite elem_of_app. intros [Hin|Hin].
  - apply list_elem_of_fmap in Hin as (card & -> & _). exists 0%nat, (id, probe). cbn. split; [lia|done].
  - destruct (IH Hin) as (i & p & -> & Hp & ->). exists (S i), p. split; [lia|done].
Qed.
Lemma registry_in_range en w cand :
  cand ∈ (registry_indexed en w).1 →
  ∃ p, en_providers en !! ca_provider_idx cand = Some p ∧ ca_provider_id cand = p_id p.
Proof.
  intros (i & q & Hi & Hq & Hid)%probe_all_idx. cbn in Hi. rewrite list_lookup_fmap in Hq.
  destruct (en_providers en !! i) as [p|] eqn:E; [|done]. injection Hq as <-. exists p. by rewrite Hi.
Qed.

(** ** Candidates *)

Definition affordable (req : CompleteRequest) (m : ModelCard) : bool :=
  (cr_max_cost_micros req =? 0) || (est_cost_micros m (cr_max_tokens req) <=? cr_max_cost_micros req).
(** The models a request may be sent to, in the order they are tried. *)
Definition route_list (reg : list Candidate) (req : CompleteRequest) (cands : list Candidate) : Prop :=
  cands ≡ₚ List.filter (λ c, satisfies req (ca_card c) && affordable req (ca_card c)) reg ∧
  StronglySorted (before (cr_role req)) cands.

Lemma filter_filter {A} (p q : A → bool) l : List.filter q (List.filter p l) = List.filter (λ x, p x && q x) l.
Proof. induction l as [|x l IH]; [done|]. cbn. destruct (p x); cbn; destruct (q x); by rewrite IH. Qed.
Lemma filter_nil_none {A} (p : A → bool) l : List.filter p l = [] → ∀ x, x ∈ l → p x = false.
Proof.
  intros H x Hx. destruct (p x) eqn:E; [|done].
  assert (In x (List.filter p l)) as Hi by (apply filter_In; by rewrite <-list_elem_of_In). by rewrite H in Hi.
Qed.
Lemma candidates_spec reg req :
  match (cands ← select_candidates reg req; apply_budget cands req) with
  | Ok cands => route_list reg req cands ∧ cands ≠ []
  | Err (NoModelForConstraints _) => ∀ c, c ∈ reg → satisfies req (ca_card c) = false
  | Err (OverBudget _) =>
      (∃ c, c ∈ reg ∧ satisfies req (ca_card c) = true) ∧
      ∀ c, c ∈ reg → satisfies req (ca_card c) = true → affordable req (ca_card c) = false
  | Err (AllProvidersFailed _) => False
  end.
Proof.
  unfold select_candidates.
  destruct (List.filter (λ c, satisfies req (ca_card c)) reg) as [|k ks] eqn:Ek; cbn [mbind result_bind].
  { intros c Hc. by apply (filter_nil_none _ _ Ek). }
  rewrite <-Ek. set (kept := List.filter _ reg) in *.
  assert (∀ c, c ∈ kept ↔ c ∈ reg ∧ satisfies req (ca_card c) = true) as Hkept.
  { intros c. unfold kept. by rewrite !list_elem_of_In, filter_In. }
  unfold apply_budget, affordable, route_list. destruct (Z.eqb_spec (cr_max_cost_micros req) 0) as [H0|H0].
  - unfold affordable. rewrite (proj2 (Z.eqb_eq _ _) H0). cbn [orb]. split; [split|].
    + etrans; [apply sort_by_perm|]. unfold kept. erewrite filter_ext; [reflexivity|]. intros c. cbv beta. by rewrite andb_true_r.
    + apply sort_for_role_sorted.
    + intros H. assert (k ∈ sort_for_role (cr_role req) kept) as Hk by (apply sort_by_elem; rewrite Ek; left).
      rewrite H in Hk. by apply not_elem_of_nil in Hk.
  - set (p := λ c, est_cost_micros (ca_card c) (cr_max_tokens req) <=? cr_max_cost_micros req).
    destruct (List.filter p _) as [|a aff] eqn:Ea.
    + split; [exists k; apply Hkept; rewrite Ek; left|]. intros c Hc Hs. cbn [orb].
      apply (filter_nil_none _ _ Ea). apply sort_by_elem. by apply Hkept.
    + rewrite <-Ea. split; [|by rewrite Ea]. split.
      * etrans; [apply filter_perm, sort_by_perm|]. unfold kept. rewrite filter_filter. unfold affordable.
        rewrite (proj2 (Z.eqb_neq _ _) H0). done.
      * apply filter_sorted, sort_for_role_sorted.
Qed.

(** ** Completions *)

Lemma call_provider_some en req w cand s :
  cand ∈ (registry_indexed en w).1 → is_Some (call_provider (en_providers en) req cand s).
Proof.
  intros (p & Hp & _)%registry_in_range. unfold call_provider. rewrite Hp. cbn [mbind option_bind].
  destruct (p_complete p _ req s.1) as [[res ch] w']. eauto.
Qed.
Lemma route_list_elem reg req cands c :
  route_list reg req cands → c ∈ cands →
  c ∈ reg ∧ satisfies req (ca_card c) = true ∧ affordable req (ca_card c) = true.
Proof.
  intros [Hp _] Hc. rewrite Hp, list_elem_of_In, filter_In in Hc. destruct Hc as [Hc Hb].
  apply andb_true_iff in Hb. by rewrite list_elem_of_In.
Qed.
Lemma local_fallback_elem cands c : c ∈ ensure_local_fallback cands ↔ c ∈ cands.
Proof.
  unfold ensure_local_fallback. rewrite elem_of_app, !list_elem_of_In, !filter_In.
  destruct (mc_local (ca_card c)); cbn; naive_solver.
Qed.

(** What one completion does, whatever the chain of candidates. *)
Lemma complete_inner_spec en req lf w :
  let '(reg, w0) := registry_indexed en w in
  ∃ res chunks en' w', complete_inner en req lf w = Some (res, chunks, en', w') ∧
  match res with
  | Err (NoModelForConstraints _) => (∀ c, c ∈ reg → satisfies req (ca_card c) = false) ∧ chunks = [] ∧ en' = en ∧ w' = w0
  | Err (OverBudget _) =>
      (∀ c, c ∈ reg → satisfies req (ca_card c) = true → affordable req (ca_card c) = false) ∧ chunks = [] ∧ en' = en ∧ w' = w0
  | Err (AllProvidersFailed _) =>
      ∃ cands, route_list reg req cands ∧ en' = en ∧
        all_fail (call_provider (en_providers en) req) (if lf then ensure_local_fallback cands else cands)
          (w0, []) (w', chunks)
  | Ok fin =>
      ∃ cands pre cand post w1 chunks1 c,
        route_list reg req cands ∧ (if lf then ensure_local_fallback cands else cands) = pre ++ cand :: post ∧
        all_fail (call_provider (en_providers en) req) pre (w0, []) (w1, chunks1) ∧
        call_provider (en_providers en) req cand (w1, chunks1) = Some (Ok c, (w', chunks)) ∧
        fin = mkFinal (truncated_chars (co_text c) MAX_TEXT_BYTES) (ca_provider_id cand) (mc_model (ca_card cand))
                (co_usage c) (ca_provider_id <$> pre) ∧
        en' = mkEngine (en_providers en) (account (en_ledger en) (co_usage c) (length pre))
  end.
Proof.
  pose proof (λ c s, call_provider_some en req w c s) as Hsome. unfold complete_inner.
  destruct (registry_indexed en w) as [reg w0] eqn:Ereg. cbn [fst] in Hsome.
  pose proof (candidates_spec reg req) as Hc.
  destruct (select_candidates reg req ≫= λ cands, apply_budget cands req) as [cands|e].
  - destruct Hc as [Hr _]. set (chain := if lf then ensure_local_fallback cands else cands).
    unfold run_reliable.
    destruct (try_candidates_spec (call_provider (en_providers en) req) chain [] NO_CANDIDATES (w0, []))
      as (res & [w' chunks] & Ht & Hres).
    { intros cand Hcand s. apply Hsome. eapply route_list_elem; [exact Hr|]. subst chain.
      destruct lf; [by apply local_fallback_elem|done]. }
    rewrite Ht. cbn [mbind option_bind]. destruct res as [[[c fb] cand]|e].
    + eexists _, _, _, _. split; [done|]. cbn [fi_usage fi_fallbacks].
      destruct Hres as (pre & post & [w1 ch1] & Hchain & Hf & Hcall & ->).
      exists cands, pre, cand, post, w1, ch1, c. split; [done|]. split; [done|]. split; [done|]. split; [done|].
      split; [done|]. by rewrite <-(length_fmap ca_provider_id pre).
    + destruct Hres as [Hf [m ->]]. eexists _, _, _, _. split; [done|]. by exists cands.
  - eexists _, _, _, _. split; [done|]. destruct e; try done. naive_solver.
Qed.

(** A completion is routed exactly: the engine never panics, and a request is answered by the
    first model that does not fail among precisely the probed models that satisfy its hard
    constraints and its cost ceiling, tried in the order of its role; the answer names that model
    and, in order, the providers that failed before it, and the ledger grows by exactly its usage.
    A refusal says truthfully why: no probed model satisfies the constraints, none of those that
    do is affordable, or every one of them failed; it costs nothing. *)
Theorem completion_routed en req w :
  let '(reg, w0) := registry_indexed en w in
  ∃ res chunks en' w', Engine_complete en req w = Some (res, chunks, en', w') ∧
  match res with
  | Err (NoModelForConstraints _) => (∀ c, c ∈ reg → satisfies req (ca_card c) = false) ∧ chunks = [] ∧ en' = en ∧ w' = w0
  | Err (OverBudget _) =>
      (∀ c, c ∈ reg → satisfies req (ca_card c) = true → affordable req (ca_card c) = false) ∧ chunks = [] ∧ en' = en ∧ w' = w0
  | Err (AllProvidersFailed _) =>
      ∃ cands, route_list reg req cands ∧ en' = en ∧
        all_fail (call_provider (en_providers en) req) cands (w0, []) (w', chunks)
  | Ok fin =>
      ∃ cands pre cand post w1 chunks1 c,
        route_list reg req cands ∧ cands = pre ++ cand :: post ∧
        all_fail (call_provider (en_providers en) req) pre (w0, []) (w1, chunks1) ∧
        call_provider (en_providers en) req cand (w1, chunks1) = Some (Ok c, (w', chunks)) ∧
        fin = mkFinal (truncated_chars (co_text c) MAX_TEXT_BYTES) (ca_provider_id cand) (mc_model (ca_card cand))
                (co_usage c) (ca_provider_id <$> pre) ∧
        en' = mkEngine (en_providers en) (account (en_ledger en) (co_usage c) (length pre))
  end.
Proof. apply (complete_inner_spec en req false w). Qed.

(** With the local fallback, a local model answers only after every remote candidate failed. *)
Lemma local_last cands pre cand post :
  ensure_local_fallback cands = pre ++ cand :: post → mc_local (ca_card cand) = true →
  ∀ c, c ∈ cands → mc_local (ca_card c) = false → c ∈ pre.
Proof.
  unfold ensure_local_fallback. set (remote := List.filter _ cands). set (local := List.filter _ cands).
  intros H Hl c Hc Hr. assert (c ∈ remote) as Hin.
  { subst remote. apply list_elem_of_In, filter_In. split; [by apply list_elem_of_In|]. by rewrite Hr. }
  assert (∀ x, x ∈ remote → mc_local (ca_card x) = false) as Hrem.
  { intros x Hx%list_elem_of_In%filter_In. destruct Hx as [_ Hx]. by apply negb_true_iff in Hx. }
  destruct (decide (length remote ≤ length pre)%nat) as [Hle|Hgt].
  - assert (take (length remote) (remote ++ local) = take (length remote) (pre ++ cand :: post)) as Ht by (by rewrite H).
    rewrite take_app_length, take_app_le in Ht by done. rewrite Ht in Hin.
    apply list_elem_of_lookup_1 in Hin as [i Hi]. apply lookup_take_Some in Hi as [Hi _]. by eapply list_elem_of_lookup_2.
  - exfalso. assert ((remote ++ local) !! length pre = Some cand) as Hlk.
    { rewrite H. by rewrite list_lookup_middle. }
    rewrite lookup_app_l in Hlk by lia. apply list_elem_of_lookup_2, Hrem in Hlk. congruence.
Qed.

(** The local fallback is a last resort: when a completion with local fallback is answered by a
    local model, every remote model that satisfied the constraints and the ceiling was tried first
    and failed, and is named among the fallbacks. *)
Theorem local_is_last_resort en req w fin chunks en' w' :
  complete_with_local_fallback en req w = Some (Ok fin, chunks, en', w') →
  ∃ cand, cand ∈ (registry_indexed en w).1 ∧ fi_provider fin = ca_provider_id cand ∧ fi_model fin = mc_model (ca_card cand) ∧
    satisfies req (ca_card cand) = true ∧ affordable req (ca_card cand) = true ∧
    (mc_local (ca_card cand) = true →
     ∀ c, c ∈ (registry_indexed en w).1 → satisfies req (ca_card c) = true → affordable req (ca_card c) = true →
       mc_local (ca_card c) = false → ca_provider_id c ∈ fi_fallbacks fin).
Proof.
  unfold complete_with_local_fallback. pose proof (complete_inner_spec en req true w) as Hs.
  destruct (registry_indexed en w) as [reg w0]. cbn [fst].
  destruct Hs as (res & ch & e2 & w2 & -> & Hres). intros [= -> -> -> ->].
  destruct Hres as (cands & pre & cand & post & w1 & ch1 & c & Hr & Hchain & _ & _ & -> & _).
  assert (cand ∈ cands) as Hcand by (apply local_fallback_elem; rewrite Hchain; set_solver).
  destruct (route_list_elem _ _ _ _ Hr Hcand) as (Hin & Hsat & Haff).
  exists cand. cbn [fi_provider fi_model fi_fallbacks]. do 5 (split; [done|]).
  intros Hl d Hd Hds Hda Hdr. apply list_elem_of_fmap. exists d. split; [done|].
  apply (local_last _ _ _ _ Hchain Hl); [|done]. destruct Hr as [Hp _].
  rewrite Hp, list_elem_of_In, filter_In. rewrite <-list_elem_of_In. split; [done|]. by rewrite Hds, Hda.
Qed.
End EngineProps.

(** The ledger is only written: what is routed, and to whom, does not depend on it. *)
Theorem routing_ignores_ledger `{FL : F32} {W} (ps : list (Provider W)) l1 l2 req lf w :
  (λ x, (x.1.1.1, x.1.1.2, x.2)) <$> complete_inner (mkEngine ps l1) req lf w =
  (λ x, (x.1.1.1, x.1.1.2, x.2)) <$> complete_inner (mkEngine ps l2) req lf w.
Proof.
  unfold complete_inner, registry_indexed. cbn [en_providers]. destruct (probe_all _ _ _) as [reg w0].
  destruct (_ ≫= _); [|done]. destruct (run_reliable _ _ _ _) as [[res [w' ch]]|]; done.
Qed.

(** ** Rankings *)

Section RankingProps.
Context `{FC : F32Cmp}.
(** The first score given for a document. *)
Definition first_score (raw : list (Z * f32)) (i : Z) : option f32 := snd <$> find (λ p, p.1 =? i) raw.

Lemma finite_or_zero_finite x : f32_is_finite (finite_or_zero x) = true.
Proof. unfold finite_or_zero. destruct (f32_is_finite x) eqn:E; [done|apply f32_zero_finite]. Qed.

Lemma rank_loop_spec n raw : ∀ seen out,
  NoDup out.*1 → (∀ i, i ∈ seen ↔ i ∈ out.*1) →
  NoDup (rank_loop n seen out raw).*1 ∧ (length (rank_loop n seen out raw) ≤ length out + length raw)%nat ∧
  ∀ p, p ∈ rank_loop n seen out raw ↔
    p ∈ out ∨ 0 ≤ p.1 < Z.of_nat n ∧ (p.1 ∉ seen) ∧ ∃ s, first_score raw p.1 = Some s ∧ p.2 = finite_or_zero s.
Proof.
  induction raw as [|[i s] raw IH]; intros seen out Hn Hs; cbn [rank_loop].
  { split; [done|]. split; [lia|]. intros p. unfold first_score. cbn. naive_solver. }
  assert (∀ j, first_score ((i, s) :: raw) j = if i =? j then Some s else first_score raw j) as Hfs.
  { intros j. unfold first_score. cbn. by destruct (i =? j). }
  assert (∀ P : Prop, (¬ (0 ≤ i < Z.of_nat n) ∨ i ∈ seen) → P →
    NoDup (rank_loop n seen out raw).*1 ∧ (length (rank_loop n seen out raw) ≤ length out + length ((i, s) :: raw))%nat ∧
    ∀ p, p ∈ rank_loop n seen out raw ↔ p ∈ out ∨ 0 ≤ p.1 < Z.of_nat n ∧ (p.1 ∉ seen) ∧
      ∃ s0, first_score ((i, s) :: raw) p.1 = Some s0 ∧ p.2 = finite_or_zero s0) as Hskip.
  { intros _ Hi _. destruct (IH seen out Hn Hs) as (H1 & H2 & H3). split; [done|]. split; [cbn [length]; lia|].
    intros p. rewrite H3, Hfs. destruct (Z.eqb_spec i p.1) as [<-|]; [|done]. naive_solver. }
  destruct (Z.ltb_spec i 0); [apply (Hskip True); [lia|done]|].
  destruct (Z.leb_spec (Z.of_nat n) i); [apply (Hskip True); [lia|done]|].
  case_bool_decide as Hin; [apply (Hskip True); [by right|done]|]. clear Hskip.
  destruct (IH (i :: seen) (out ++ [(i, finite_or_zero s)])) as (H1 & H2 & H3).
  { rewrite fmap_app. apply NoDup_app. split; [done|]. split; [|apply NoDup_singleton].
    intros j Hj. rewrite <-Hs in Hj. cbn. intros ->%list_elem_of_singleton. done. }
  { intros j. rewrite fmap_app, elem_of_app, elem_of_cons, Hs. cbn. rewrite list_elem_of_singleton. tauto. }
  split; [done|]. rewrite length_app in H2. split; [cbn [length] in *; lia|]. intros p.
  rewrite H3, elem_of_app, list_elem_of_singleton, Hfs, not_elem_of_cons. destruct p as [j t]. cbn [fst snd].
  destruct (Z.eqb_spec i j) as [->|Hne]; [|naive_solver].
  split; [intros [[?|[= ->]]|?]; [by left|right; split; [lia|]; split; [done|]; by exists s|tauto]|].
  intros [?|(_ & _ & s0 & [= <-] & ->)]; [by left; left|by left; right].
Qed.

Definition score_ge (a b : Z * f32) : Prop := f32_key b.2 ≤ f32_key a.2.

Lemma rank_sorted l : Forall (λ p, f32_is_finite p.2 = true) l → StronglySorted score_ge (sort_by rank_le l).
Proof.
  apply sort_by_sorted_on; [| |intros a b c; unfold score_ge; lia].
  all: intros a b Ha Hb; unfold rank_le, score_ge; rewrite f32_cmp_finite by done; cbn [default].
  all: destruct (Z.compare_spec (f32_key b.2) (f32_key a.2)); done || lia.
Qed.

(** An untrusted ranking comes out sound: every index is a document of the request, none
    occurs twice, every score is finite, the scores descend, there are no more than the cap, and
    nothing else is lost or invented: a pair is in the result if and only if its document is in
    range and the (sanitized) score is the first one given for it. *)
Theorem ranking_sanitized raw n :
  let out := sanitize_ranking raw n in
  NoDup out.*1 ∧ (length out ≤ MAX_DOCS)%nat ∧ StronglySorted score_ge out ∧
  (∀ p, p ∈ out → f32_is_finite p.2 = true) ∧
  ∀ p, p ∈ out ↔ 0 ≤ p.1 < Z.of_nat n ∧ ∃ s, first_score (take MAX_DOCS raw) p.1 = Some s ∧ p.2 = finite_or_zero s.
Proof.
  intros out. destruct (rank_loop_spec n (take MAX_DOCS raw) [] []) as (H1 & H2 & H3); [constructor|done|].
  set (l := rank_loop n [] [] (take MAX_DOCS raw)) in *.
  assert (∀ p, p ∈ l ↔ 0 ≤ p.1 < Z.of_nat n ∧
    ∃ s, first_score (take MAX_DOCS raw) p.1 = Some s ∧ p.2 = finite_or_zero s) as Hl.
  { intros p. rewrite H3. split; [intros [?%not_elem_of_nil|]; [done|tauto]|]. intros []. right.
    split; [done|]. split; [apply not_elem_of_nil|done]. }
  assert (∀ p, p ∈ l → f32_is_finite p.2 = true) as Hfin.
  { intros p (_ & s & _ & ->)%Hl. apply finite_or_zero_finite. }
  assert (out ≡ₚ l) as Hp by apply sort_by_perm.
  assert (StronglySorted score_ge out) as Hsorted by (by apply rank_sorted, Forall_forall).
  split; [by rewrite Hp|]. split; [rewrite Hp; rewrite length_take in H2; cbn [length] in H2; lia|]. split; [done|].
  split; intros p; rewrite Hp; [apply Hfin|apply Hl].
Qed.
End RankingProps.

(** ** From the client through the pipe and back *)

Section EndToEnd.
Context `{FL : F32} {W : Type}.

(** What the helper streams, and its last word. *)
Definition shown_chunks (req : CompleteRequest) (chunks : list chars) : list chars :=
  if cr_stream req then (λ t, truncated_chars t MAX_TEXT_BYTES) <$> chunks else [].
Definition last_word (res : result RouteError Final) : Response :=
  match res with Ok fin => RFinal fin | Err e => RError (route_reason e) end.
Definition client_result (res : result RouteError Final) : result ProtoError Final :=
  match res with Ok fin => Ok fin | Err e => Err (PReported (route_reason e)) end.

Lemma read_request_eof : read_request [] = (Ok None, []).
Proof. done. Qed.
Lemma mjoin_nil_clean (r : list bytes) : Forall (λ c, c ≠ []) r → mjoin r = [] → r = [].
Proof. destruct 1 as [|c r Hc _]; [done|]. rewrite mjoin_cons. by destruct c. Qed.
Lemma request_line_length req : (0 < length (request_line req))%nat.
Proof. unfold request_line. rewrite length_app. cbn. lia. Qed.

Lemma serve_completion (en en' : Engine W) c w res chunks w' r :
  request_ok (Complete c) → (byte_length (encode_request (Complete c)) ≤ MAX_LINE_BYTES)%nat →
  Forall (λ x, x ≠ []) r → mjoin r = request_line (Complete c) →
  Engine_complete en c w = Some (res, chunks, en', w') →
  serve en r [] w =
    Some (Ok tt, en', [], (shown_chunks c chunks ≫= λ t, response_line (RChunk t)) ++ response_line (last_word res), w').
Proof.
  intros Hok Hlen Hne Hj Hc. rewrite <-(app_nil_r (request_line _)) in Hj.
  destruct (read_request_line _ r [] Hok Hlen Hne Hj) as (r' & Hr & Hr' & Hne'). rewrite app_nil_r in Hj.
  unfold serve. rewrite bytes_ahead_join, Hj. pose proof (request_line_length (Complete c)) as Hl.
  destruct (length (request_line (Complete c))) as [|n]; [lia|]. cbn [serve_loop]. rewrite Hr.
  cbn [serve_one]. rewrite Hc. cbn [mbind option_bind].
  rewrite (mjoin_nil_clean r' Hne' Hr'). rewrite read_request_eof. cbn [app].
  rewrite bind_app. cbn [mbind list_bind]. rewrite app_nil_r. fold (last_word res).
  assert ((if cr_stream c then (λ t, RChunk (truncated_chars t MAX_TEXT_BYTES)) <$> chunks else []) ≫= response_line =
    shown_chunks c chunks ≫= λ t, response_line (RChunk t)) as Hs; [|by rewrite <-Hs].
  unfold shown_chunks. destruct (cr_stream c); [|done]. by rewrite !list_fmap_bind.
Qed.

(** What a completion and its outcome must keep to, so that they fit the lines of the protocol. *)
Definition fits_wire (c : CompleteRequest) (res : result RouteError Final) (chunks : list chars) : Prop :=
  Forall (λ t, line_ok (RChunk t)) (shown_chunks c chunks) ∧ shown_bytes (shown_chunks c chunks) ≤ MAX_STREAM_BYTES ∧
  line_ok (last_word res).

(** C33: A completion within the limits of the wire goes through from the client to the providers and
    back. For a request whose texts are strings of at most 256 KiB, whose cost ceiling is at most
    [i64::MAX] and whose line is at most 1 MiB, the engine answers without a panic, and leaves its
    outcome: the chunks it streamed, its final answer or its refusal. If that outcome fits the wire
    too (every chunk shown and the last word are valid lines of at most 1 MiB, the streamed text is
    at most 8 MiB, the cost at most [i64::MAX], the names of the providers that failed are without a
    comma), then the line the client writes is read by the helper however the pipe cuts it, and what
    the helper then writes is read by the client, however the pipe cuts it, as exactly that
    outcome: the chunks, and the final answer or the reason of the refusal; nothing is left in
    either pipe, and the engine of the helper is left as the routing leaves it. *)
Theorem helper_end_to_end (en : Engine W) c w r :
  request_ok (Complete c) → (byte_length (encode_request (Complete c)) ≤ MAX_LINE_BYTES)%nat →
  Forall (λ x, x ≠ []) r → mjoin r = request_line (Complete c) →
  ∃ res chunks en' w', Engine_complete en c w = Some (res, chunks, en', w') ∧
  (fits_wire c res chunks →
   ∃ out, serve en r [] w = Some (Ok tt, en', [], out, w') ∧
    ∀ r2, Forall (λ x, x ≠ []) r2 → mjoin r2 = out →
      ∃ r2', complete c [] r2 = (client_result res, shown_chunks c chunks, request_line (Complete c), r2') ∧
             mjoin r2' = []).
Proof.
  intros Hok Hlen Hne Hj. pose proof (complete_inner_spec en c false w) as Hspec.
  destruct (registry_indexed en w) as [reg w0]. destruct Hspec as (res & chunks & en' & w' & Hc & _).
  exists res, chunks, en', w'. split; [exact Hc|]. intros (Hch & Hsb & Hlast).
  eexists. split; [by eapply serve_completion|].
  intros r2 Hne2 Hj2.
  unfold complete.
  destruct (complete_loop_run (last_word res) (client_result res) [] (shown_chunks c chunks)
    ltac:(by destruct res) (S (bytes_ahead r2)) 0 [] r2) as (r' & -> & Hr'); try done.
  - by rewrite app_nil_r.
  - rewrite bytes_ahead_join, Hj2, length_app. pose proof (lines_ahead (shown_chunks c chunks)). lia.
  - by exists r'.
Qed.
End EndToEnd.

(** ** Examples *)

#[local] Instance unit_f32 : F32 := {|
  f32 := unit; f32_zero := tt; f32_is_finite := λ _, true; f32_to_string := λ _, lit "0";
  f32_parse := λ _, Some tt |}.
Definition demo_completion (local_only : bool) : CompleteRequest :=
  mkComplete Review [] (lit "hi") 10 true 0 (mkRequire false 0 local_only).
Definition broken_remote : Provider unit := mock_provider (mkMock (lit "r") [remote_strong] (AlwaysFail (lit "down"))).
Definition demo_engine : Engine unit := Engine_new [broken_remote; mock_provider (mkMock (lit "l") [local_small] Echo)].

Lemma local_is_last_resort_witness :
  ∃ fin chunks en' w', complete_with_local_fallback demo_engine (demo_completion false) tt = Some (Ok fin, chunks, en', w') ∧
    fi_model fin = lit "local-1" ∧ lit "r" ∈ fi_fallbacks fin.
Proof.
  assert (match complete_with_local_fallback demo_engine (demo_completion false) tt with
          | Some (Ok f, _, _, _) => bool_decide (fi_model f = lit "local-1") | _ => false end = true) as Hm
    by (vm_compute; reflexivity).
  destruct (complete_with_local_fallback demo_engine (demo_completion false) tt) as [[[[[fin|e] ch] en'] w']|] eqn:E;
    [|discriminate Hm..].
  apply bool_decide_eq_true in Hm. exists fin, ch, en', w'. split; [reflexivity|]. split; [exact Hm|].
  destruct (local_is_last_resort demo_engine (demo_completion false) tt fin ch en' w' E)
    as (cand & Hin & _ & Hmodel & _ & _ & Hl).
  assert (mc_local (ca_card cand) = true) as Hloc.
  { rewrite Hmodel in Hm. vm_compute in Hin. repeat (apply elem_of_cons in Hin as [->|Hin]); [discriminate Hm|done|].
    by apply not_elem_of_nil in Hin. }
  apply (Hl Hloc (mkCandidate 0 (lit "r") remote_strong)); [|reflexivity..].
  vm_compute. left.
Defined.

Definition demo_final : Final :=
  mkFinal (lit "[mock-remote/strong-1] hi") (lit "mock-remote") (lit "strong-1") (mkUsage 2 7 105) [].
Definition demo_shown : list chars := [lit "[mock-re"; lit "mote/str"; lit "ong-1] h"; lit "i"].
Lemma helper_end_to_end_witness :
  ∃ en' out r2', serve default_mock_engine [request_line (Complete (demo_completion false))] [] tt
                  = Some (Ok tt, en', [], out, tt) ∧
    complete (demo_completion false) [] [out] =
      (Ok demo_final, demo_shown, request_line (Complete (demo_completion false)), r2').
Proof.
  assert (∀ t, bool_decide (Forall is_scalar t) = true → (byte_length t ≤ 64)%nat → text_ok t) as Ht.
  { intros t Hb%bool_decide_eq_true Hl. split; [done|]. unfold MAX_TEXT_BYTES. lia. }
  assert ((λ x, (x.1.1.1, x.1.1.2)) <$> Engine_complete default_mock_engine (demo_completion false) tt
    = Some (Ok demo_final, demo_shown)) as Hrun by (vm_compute; reflexivity).
  destruct (helper_end_to_end (W := unit) default_mock_engine (demo_completion false) tt
    [request_line (Complete (demo_completion false))]) as (res & ch & en' & [] & E & Hwire).
  - split; [apply Ht; [vm_compute; reflexivity|apply Nat.leb_le; vm_compute; reflexivity]|].
    split; [apply Ht; [vm_compute; reflexivity|apply Nat.leb_le; vm_compute; reflexivity]|].
    repeat split; vm_compute; congruence.
  - apply Nat.leb_le. vm_compute. reflexivity.
  - apply Forall_singleton. vm_compute. congruence.
  - reflexivity.
  - rewrite E in Hrun. apply Some_inj in Hrun. cbn [fst snd] in Hrun. apply pair_equal_spec in Hrun as [-> ->].
    destruct Hwire as (out & Hout & Hclient).
    { split; [|split].
      - vm_compute shown_chunks. repeat (apply Forall_cons_2; [split;
          [apply Ht; [vm_compute; reflexivity|apply Nat.leb_le; vm_compute; reflexivity]
          |apply Nat.leb_le; vm_compute; reflexivity]|]). apply Forall_nil_2.
      - vm_compute. congruence.
      - split; [|apply Nat.leb_le; vm_compute; reflexivity].
        split; [apply Ht; [vm_compute; reflexivity|apply Nat.leb_le; vm_compute; reflexivity]|].
        split; [apply lit_scalar|]. split; [apply lit_scalar|]. split; [repeat split; vm_compute; congruence|].
        split; [apply Forall_nil_2|done]. }
    destruct (Hclient [out]) as (r2' & Hc & _).
    + apply Forall_singleton. intros ->. apply (f_equal (λ x, match x with Some (_, _, _, o, _) => length o | None => 0%nat end)) in Hout.
      vm_compute in Hout. discriminate.
    + apply app_nil_r.
    + eexists _, out, r2'. split; [exact Hout|]. exact Hc.
Defined.
