(* ===== verification/Worker.v ===== *)
(** * External workers

    Models [crustcore-backend/src/worker.rs]: the contract handed to an external worker, the
    command that runs it, the guard manifest that detects writes outside the worktree, the
    re-derivation of the change from the worktree, and the supervisor's validation of the result.
    The host (directories with their metadata, the file system that paths are confined in, and
    the output of the git wrappers) is a class over its state. [None] is a panic. *)

From S2P Require Import Prelude Text Std Chars Redactor Types Path Policy Sha256 Strings Sandbox Backend Json.

Definition MAX_WORKER_OUTPUT : nat := N.to_nat (4 * 1024 * 1024).
Definition MAX_SUMMARY : nat := N.to_nat (4 * 1024).
Definition MAX_DIFF_BYTES : nat := N.to_nat (1024 * 1024).
Definition MAX_GUARD_ENTRIES : nat := N.to_nat 50000.
Definition MAX_GUARD_DEPTH : nat := 32.
Definition SAFE_PATH : chars := lit "/usr/bin:/bin:/usr/local/bin:/opt/homebrew/bin".
Definition DONE_MARKER : chars := lit "[[CRUSTCORE_DONE]]".

(** ** The contract *)

Inductive WorkerNetwork := NetDeny.
Inductive WorkerSecrets := SecretsNone.
Definition network_str (n : WorkerNetwork) : chars := match n with NetDeny => lit "deny" end.
Definition secrets_str (s : WorkerSecrets) : chars := match s with SecretsNone => lit "none" end.
Record WorkerInput := mkInput {
  wi_task_id : Z;
  wi_goal : chars;
  wi_repo_root : chars;
  wi_allowed_roots : list chars;
  wi_forbidden_paths : list chars;
  wi_network : WorkerNetwork;
  wi_secrets : WorkerSecrets;
  wi_max_seconds : Z;
  wi_max_output_mb : Z
}.
Definition default_forbidden_paths : list chars := [lit "~/.ssh"; lit "~/.config"; lit "/etc"; lit "/var"].

(** [to_string_lossy] of a path. *)
Definition component_bytes (c : Component) : bytes :=
  match c with RootDir => [] | CurDir => [46] | ParentDir => [46; 46] | Normal n => n end.
Definition path_text (p : list Component) : chars :=
  chars_of (from_utf8_lossy
    match p with
    | [RootDir] => [47]
    | _ => join_with 47 (component_bytes <$> p)
    end).
Definition for_task (task_id : Z) (goal : chars) (worktree : WorktreeRoot) : WorkerInput :=
  let root := path_text (root_path worktree) in
  mkInput task_id (truncated_chars goal DEFAULT_MAX) root [root; lit "/tmp"] default_forbidden_paths
    NetDeny SecretsNone 1800 50.

(** The hand-written JSON. *)
Definition json_escape (c : Z) : chars :=
  if c =? 34 then [92; 34] else if c =? 92 then [92; 92] else if c =? 10 then [92; 110]
  else if c =? 13 then [92; 114] else if c =? 9 then [92; 116]
  else if c <? 32 then lit "\u" ++ hex4 c else [c].
Definition json_str (value : chars) : chars := [34] ++ (value ≫= json_escape) ++ [34].
Definition json_key (key : string) : chars := [34] ++ lit key ++ [34; 58].
Definition json_kv_str (key : string) (value : chars) : chars := json_key key ++ json_str value.
Definition json_kv_arr (key : string) (values : list chars) : chars :=
  json_key key ++ [91] ++ join_with 44 (json_str <$> values) ++ [93].
Definition to_json (i : WorkerInput) : chars :=
  [123] ++ join_with 44
    [json_kv_str "task_id" (hex_of (to_be_bytes 16 (wi_task_id i)));
     json_kv_str "goal" (wi_goal i);
     json_kv_str "repo_root" (wi_repo_root i);
     json_kv_arr "allowed_roots" (wi_allowed_roots i);
     json_kv_arr "forbidden_paths" (wi_forbidden_paths i);
     json_kv_str "network" (network_str (wi_network i));
     json_kv_str "secrets" (secrets_str (wi_secrets i));
     json_key "max_seconds" ++ dec_u (wi_max_seconds i);
     json_key "max_output_mb" ++ dec_u (wi_max_output_mb i);
     json_kv_arr "must_return" (lit <$> ["summary"; "diff"; "tests_run"; "commands_run"; "risks"; "files_changed"])]
  ++ [125].

(** ** Backends *)

Record WorkerCommand := mkWorkerCommand { wc_program : chars; wc_args : list chars; wc_stdin : bytes }.
Record WorkerClaims := mkClaims { wk_self_claimed_done : bool; wk_commands_run : list CommandRecord; wk_risks : list Risk }.
Definition find_subslice (haystack needle : bytes) : bool :=
  bool_decide (needle = []) || contains haystack needle.
(** The trait, with the default reading of a transcript. *)
Record CodingBackend := mkBackend_ {
  cb_kind : BackendKind;
  build_command : WorkerInput → WorkerCommand;
  parse_transcript : bytes → WorkerClaims
}.
Definition default_parse_transcript (transcript : bytes) : WorkerClaims :=
  mkClaims (find_subslice transcript (to_utf8 DONE_MARKER)) [] [].
Definition command_backend (kind : BackendKind) (program : chars) (args : list chars) : CodingBackend :=
  mkBackend_ kind (λ i, mkWorkerCommand program args (to_utf8 (to_json i))) default_parse_transcript.
Definition ExternalCommandBackend (program : chars) (args : list chars) : CodingBackend :=
  command_backend BExternalCommand program args.
Definition CodexBackend : CodingBackend := command_backend BCodex (lit "codex") [].
Definition ClaudeCodeBackend : CodingBackend := command_backend BClaudeCode (lit "claude") [].

Inductive Sensitivity := SNormal | SSensitive (reason : chars).
Record ChangedFile := mkChanged { cf_path : chars; cf_sensitivity : Sensitivity }.
Inductive WorkerError :=
| WNoChanges
| WOutOfRootWrite (p : chars)
| WEscapingChange (p : chars)
| WSandbox (e : chars)
| WGit (e : chars).
Definition worker_error_display (e : WorkerError) : chars :=
  match e with
  | WNoChanges => lit "worker produced no worktree changes"
  | WOutOfRootWrite p => lit "worker wrote outside the worktree: " ++ p
  | WEscapingChange p => lit "worker change escapes the worktree root: " ++ p
  | WSandbox e => lit "worker sandbox error: " ++ e
  | WGit e => lit "worktree diff extraction failed: " ++ e
  end.
Record UnverifiedPatch := mkUnverified { up_patch : PatchRef }.
Record WorkerProduct := mkProduct {
  wp_result : BackendResult;
  wp_patch : UnverifiedPatch;
  wp_diff : bytes;
  wp_changed_files : list ChangedFile;
  wp_transcript : bytes;
  wp_claims : WorkerClaims
}.

Definition build_command_spec (backend : CodingBackend) (input : WorkerInput) (worktree : WorktreeRoot) : CommandSpec :=
  let wc := build_command backend input in
  mkSpec (wc_program wc) (wc_args wc) (Some (path_text (root_path worktree))) [(lit "PATH", SAFE_PATH)] (wc_stdin wc)
    (wi_max_seconds input * 1000) MAX_WORKER_OUTPUT.

Fixpoint summary_lines (out : chars) (ls : list chars) : chars :=
  match ls with
  | [] => out
  | l :: ls' =>
      match trim l with
      | [] => summary_lines out ls'
      | line =>
          let out := (match out with [] => [] | _ => out ++ [10] end) ++ line in
          if decide (MAX_SUMMARY ≤ byte_length out)%nat then out else summary_lines out ls'
      end
  end.
Definition summarize (transcript : chars) : chars :=
  match summary_lines [] (lines transcript) with
  | [] => lit "(worker produced no transcript output)"
  | out => out
  end.

(** ** The files that changed *)

Definition porcelain_records (porcelain : bytes) : list bytes :=
  List.filter (λ r, negb (bool_decide (r = []))) (split_on 0 porcelain).
(** Slicing off the boundary of a character panics. *)
Definition porcelain_path (record : bytes) : option (option bytes) :=
  if decide (length record < 4)%nat then Some None
  else if negb (is_char_boundary record 3) then None
  else
    match rev (skip_while (λ c, c =? 10) (rev (drop 3 record))) with
    | [] => Some None
    | path => Some (Some path)
    end.

Definition DEP_MANIFESTS : list string :=
  ["cargo.toml"; "cargo.lock"; "package.json"; "package-lock.json"; "yarn.lock"; "pnpm-lock.yaml"; "go.mod"; "go.sum";
   "requirements.txt"; "pyproject.toml"; "poetry.lock"; "gemfile"; "gemfile.lock"]%string.
Definition CRED_NEEDLES : list string :=
  ["secret"; "credential"; "id_rsa"; "id_ed25519"; ".env"; ".npmrc"; ".pypirc"; ".netrc"]%string.
Definition classify (path : chars) : Sensitivity :=
  let lower := to_ascii_lowercase path in
  let base := file_name lower in
  if starts_with (lit ".github/workflows/") lower || contains lower (lit "/.github/workflows/")
  then SSensitive (lit "ci-workflow")
  else if str_eq lower (lit ".git") || starts_with (lit ".git/") lower || contains lower (lit "/.git/")
  then SSensitive (lit "git-metadata")
  else if one_of DEP_MANIFESTS base then SSensitive (lit "dependency-manifest")
  else if existsb (λ n, contains base (lit n)) CRED_NEEDLES || ends_with (lit ".pem") base || ends_with (lit ".key") base
  then SSensitive (lit "possible-credential")
  else SNormal.

(** ** The guard manifest *)

#[export] Instance Component_countable : Countable Component.
Proof.
  apply (inj_countable' (λ c, match c with RootDir => inl 0 | CurDir => inl 1 | ParentDir => inl 2 | Normal n => inr n end)
    (λ s, match s with inl 0 => RootDir | inl 1 => CurDir | inl _ => ParentDir | inr n => Normal n end)).
  by intros [].
Defined.
Inductive FileKind := KDir | KFile | KSymlink.
#[export] Instance FileKind_eq_dec : EqDecision FileKind.
Proof. solve_decision. Defined.
Record Metadata := mkMeta_ { md_kind : FileKind; md_len : Z; md_mtime : option Z }.
Record GuardEntry := mkGuardEntry { ge_is_dir : bool; ge_len : Z; ge_mtime : option Z }.
#[export] Instance GuardEntry_eq_dec : EqDecision GuardEntry.
Proof. solve_decision. Defined.
Abbreviation GuardMap := (gmap (list Component) GuardEntry).
Record GuardManifest := mkManifest {
  gm_entries : GuardMap;
  gm_roots : list (list Component);
  gm_excluded : list (list Component);
  gm_truncated : bool
}.

(** [PathBuf]'s order: by components, names by their bytes. *)
Fixpoint bytes_le (a b : bytes) : bool :=
  match a, b with
  | [], _ => true
  | _ :: _, [] => false
  | x :: a', y :: b' => (x <? y) || (x =? y) && bytes_le a' b'
  end.
Definition component_rank (c : Component) : Z :=
  match c with RootDir => 0 | CurDir => 1 | ParentDir => 2 | Normal _ => 3 end.
Definition component_le (a b : Component) : bool :=
  match a, b with
  | Normal x, Normal y => bytes_le x y
  | _, _ => component_rank a <=? component_rank b
  end.
Fixpoint path_le (a b : list Component) : bool :=
  match a, b with
  | [], _ => true
  | _ :: _, [] => false
  | x :: a', y :: b' => if bool_decide (x = y) then path_le a' b' else component_le x y
  end.
Definition in_order (m : GuardMap) : list (list Component * GuardEntry) :=
  sort_by (λ x y, path_le x.1 y.1) (map_to_list m).

Class WorkerHost (W : Type) := {
  (** The entries of a directory, with the metadata of each that can be read. *)
  read_dir : W → list Component → option (list (bytes * option Metadata));
  worker_fs : W → Fs;
  (** What the git wrappers of the worktree crate return. *)
  git_status_all : W → result chars bytes;
  git_worktree_diff : W → result chars bytes }.

Section Worker.
Context {W : Type} {WH : WorkerHost W}.

Definition excluded (exclude : list (list Component)) (path : list Component) : bool :=
  existsb (λ ex, bool_decide (ex `prefix_of` path)) exclude.
Definition entry_of (m : Metadata) : GuardEntry := mkGuardEntry (bool_decide (md_kind m = KDir)) (md_len m) (md_mtime m).

(** The loop over the entries of one directory; [down] walks a subdirectory. *)
Fixpoint walk_entries (down : list Component → GuardMap * bool → GuardMap * bool) (exclude : list (list Component))
    (dir : list Component) (es : list (bytes * option Metadata)) (st : GuardMap * bool) : GuardMap * bool :=
  match es with
  | [] => st
  | (name, meta) :: es' =>
      if decide (MAX_GUARD_ENTRIES ≤ size st.1)%nat then (st.1, true)
      else
        let path := dir ++ [Normal name] in
        if excluded exclude path then walk_entries down exclude dir es' st
        else
          match meta with
          | None => walk_entries down exclude dir es' st
          | Some m =>
              let st := (<[path := entry_of m]> st.1, st.2) in
              let st := if bool_decide (md_kind m = KDir) then down path st else st in
              walk_entries down exclude dir es' st
          end
  end.
(** [levels] directories may still be entered: the depth cap, counted down. *)
Fixpoint walk_guard (levels : nat) (w : W) (exclude : list (list Component)) (dir : list Component) (st : GuardMap * bool)
  : GuardMap * bool :=
  match levels with
  | O => (st.1, true)
  | S levels' =>
      match read_dir w dir with
      | None => st
      | Some es => walk_entries (walk_guard levels' w exclude) exclude dir es st
      end
  end.
Definition snapshot (w : W) (roots exclude : list (list Component)) : GuardManifest :=
  let '(entries, truncated) := fold_left (λ st root, walk_guard (S MAX_GUARD_DEPTH) w exclude root st) roots (∅, false) in
  mkManifest entries roots exclude truncated.
Definition snapshot_parent (w : W) (worktree : WorktreeRoot) : GuardManifest :=
  match parent (root_path worktree) with
  | Some p => snapshot w [p] [root_path worktree]
  | None => mkManifest ∅ [] [] false
  end.
Definition guard_check (g : GuardManifest) (w : W) : result WorkerError unit :=
  let now := gm_entries (snapshot w (gm_roots g) (gm_excluded g)) in
  match find (λ e, negb (bool_decide (now !! e.1 = Some e.2))) (in_order (gm_entries g)) with
  | Some (path, _) => Err (WOutOfRootWrite (path_text path))
  | None =>
      match find (λ e, negb (bool_decide (is_Some (gm_entries g !! e.1)))) (in_order now) with
      | Some (path, _) => Err (WOutOfRootWrite (path_text path))
      | None => Ok tt
      end
  end.

(** ** Validation *)

Fixpoint confine_records (w : W) (worktree : WorktreeRoot) (out : list ChangedFile) (records : list bytes)
  : option (result WorkerError (list ChangedFile)) :=
  match records with
  | [] => Some (Ok out)
  | record :: records' =>
      path ← porcelain_path record;
      match path with
      | None => confine_records w worktree out records'
      | Some path =>
          match confine_read (worker_fs w) worktree path with
          | Err _ => Some (Err (WEscapingChange (chars_of path)))
          | Ok _ => confine_records w worktree (out ++ [mkChanged (chars_of path) (classify (chars_of path))]) records'
          end
      end
  end.
Definition confine_worktree_changes (w : W) (worktree : WorktreeRoot) : option (result WorkerError (list ChangedFile)) :=
  match git_status_all w with
  | Err e => Some (Err (WGit e))
  | Ok porcelain => confine_records w worktree [] (porcelain_records porcelain)
  end.
Definition extract_change (w : W) : result WorkerError (bytes * bytes) :=
  status ← map_err WGit (git_status_all w);
  diff ← map_err WGit (git_worktree_diff w);
  Ok (status, take MAX_DIFF_BYTES diff).

Definition sensitive_risks (files : list ChangedFile) : list Risk :=
  omap (λ cf, match cf_sensitivity cf with
    | SSensitive reason =>
        Some (mkRisk (truncated_chars (lit "sensitive file changed (" ++ reason ++ lit "): " ++ cf_path cf) DEFAULT_MAX))
    | SNormal => None
    end) files.
(** The product, from what the executor returned and what the worktree then holds. *)
Definition worker_product (backend : CodingBackend) (output : bytes) (files : list ChangedFile) (status diff : bytes)
  : WorkerProduct :=
  let transcript := truncated (from_utf8_lossy output) MAX_WORKER_OUTPUT in
  let claims := parse_transcript backend output in
  let patch := mkPatchRef (sha256 (status ++ diff)) in
  let summary := truncated_chars (summarize (chars_of transcript)) MAX_SUMMARY in
  mkProduct
    (mkBackendResult (cb_kind backend) summary (Some patch) (wk_self_claimed_done claims) (wk_commands_run claims)
       (wk_risks claims ++ sensitive_risks files))
    (mkUnverified patch) diff files transcript claims.

Definition run_external_worker_with (exec : Executor W) (backend : CodingBackend) (input : WorkerInput)
    (worktree : WorktreeRoot) (w : W) : option (result WorkerError WorkerProduct * W) :=
  let spec := build_command_spec backend input worktree in
  let guard := snapshot_parent w worktree in
  let '(r, w) := exec spec w in
  match r with
  | Err e => Some (Err (WSandbox (sandbox_error_display e)), w)
  | Ok result =>
      match guard_check guard w with
      | Err e => Some (Err e, w)
      | Ok _ =>
          let output := take MAX_WORKER_OUTPUT (cr_stdout result ++ cr_stderr result) in
          changed ← confine_worktree_changes w worktree;
          match changed with
          | Err e => Some (Err e, w)
          | Ok files =>
              match extract_change w with
              | Err e => Some (Err e, w)
              | Ok (status, diff) =>
                  Some (match files with
                        | [] => Err WNoChanges
                        | _ => Ok (worker_product backend output files status diff)
                        end, w)
              end
          end
      end
  end.
Definition run_external_worker {R : Runner W} (h : Host) (f : bool) (cap : SandboxExecCap) (profile : SandboxProfile)
    (backend : CodingBackend) (input : WorkerInput) (worktree : WorktreeRoot) (w : W)
  : option (result WorkerError WorkerProduct * W) :=
  run_external_worker_with (run_command h f cap profile) backend input worktree w.
End Worker.
