(* ===== verification/WorkerTheorems.v ===== *)
(** * External workers: theorems

    The guard manifest records exactly what lies outside the worktree, within its caps, so that its
    check passes only when nothing there changed; a product is accepted only after the guard and
    the confinement of every changed path; the patch is a function of the worktree alone, whatever
    the worker prints; in production the worker ran inside the sandbox. *)

From S2P Require Import Prelude Text Std Chars Redactor Types Path Policy Sha256 Strings Sandbox SandboxTheorems Backend Worker.

(** ** The walk *)

Section Guard.
Context {W : Type} {WH : WorkerHost W} (w : W) (exclude : list (list Component)).

(** What a walk from [dir] is meant to record: every entry that can be reached through real
    directories without passing an excluded path. *)
Inductive under_root : list Component → list Component → GuardEntry → Prop :=
| ur_here dir es name m :
    read_dir w dir = Some es → (name, Some m) ∈ es → excluded exclude (dir ++ [Normal name]) = false →
    under_root dir (dir ++ [Normal name]) (entry_of m)
| ur_down dir es name m path e :
    read_dir w dir = Some es → (name, Some m) ∈ es → excluded exclude (dir ++ [Normal name]) = false →
    md_kind m = KDir → under_root (dir ++ [Normal name]) path e → under_root dir path e.

Lemma under_root_prefix dir path e : under_root dir path e → ∃ name rest, path = dir ++ Normal name :: rest.
Proof.
  induction 1 as [dir es name m _ _ _|dir es name m path e _ _ _ _ _ (n & rest & ->)].
  - by exists name, [].
  - exists name, (Normal n :: rest). by rewrite <-app_assoc.
Qed.

(** What a walk of one directory has to do. *)
Definition walks (f : list Component → GuardMap * bool → GuardMap * bool) : Prop := ∀ dir st m',
  f dir st = (m', false) →
  st.2 = false ∧
  ((∀ name rest, st.1 !! (dir ++ Normal name :: rest) = None) →
   ∀ path e, m' !! path = Some e ↔ st.1 !! path = Some e ∨ under_root dir path e).

Lemma app_names_inj (dir : list Component) a b ra rb :
  dir ++ Normal a :: ra = dir ++ Normal b :: rb → a = b ∧ ra = rb.
Proof. intros H%app_inv_head. by injection H as -> ->. Qed.

Lemma walk_entries_spec down dir (Hdown : walks down) es : ∀ st m',
  NoDup es.*1 → walk_entries down exclude dir es st = (m', false) →
  st.2 = false ∧
  ((∀ name rest, name ∈ es.*1 → st.1 !! (dir ++ Normal name :: rest) = None) →
   ∀ path e, m' !! path = Some e ↔ st.1 !! path = Some e ∨
     ∃ name m, (name, Some m) ∈ es ∧ excluded exclude (dir ++ [Normal name]) = false ∧
       (path = dir ++ [Normal name] ∧ e = entry_of m ∨ md_kind m = KDir ∧ under_root (dir ++ [Normal name]) path e)).
Proof.
  induction es as [|[name meta] es IH]; intros st m' Hnd; cbn [walk_entries].
  { intros ->. cbn [snd fst]. split; [done|]. intros _ path e. split; [by left|]. intros [?|(n & m & Hn & _)]; [done|].
    by apply not_elem_of_nil in Hn. }
  rewrite fmap_cons, NoDup_cons in Hnd. cbn [fst] in Hnd. destruct Hnd as [Hname Hnd].
  case_decide as Hcap; [done|].
  destruct (excluded exclude (dir ++ [Normal name])) eqn:Hex.
  { intros H. destruct (IH st m' Hnd H) as [H2 Hspec]. split; [done|]. intros Hf path e.
    rewrite Hspec by (intros n rest Hn; apply Hf; rewrite fmap_cons; by right).
    split; (intros [?|(n & m & Hn & Hne & Hp)]; [by left|right; exists n, m; split; [|done]]); [by right|].
    apply elem_of_cons in Hn as [[= -> _]|]; [congruence|done]. }
  destruct meta as [m|].
  2: { intros H. destruct (IH st m' Hnd H) as [H2 Hspec]. split; [done|]. intros Hf path e.
    rewrite Hspec by (intros n rest Hn; apply Hf; rewrite fmap_cons; by right).
    split; (intros [?|(n & m & Hn & Hne & Hp)]; [by left|right; exists n, m; split; [|done]]); [by right|].
    by apply elem_of_cons in Hn as [[= -> ?]|]. }
  set (p0 := dir ++ [Normal name]). set (st1 := (<[p0 := entry_of m]> st.1, st.2)).
  set (st2 := if bool_decide (md_kind m = KDir) then down p0 st1 else st1). intros H.
  destruct (IH st2 m' Hnd H) as [H2 Hspec]. clear IH H.
  assert (st.2 = false ∧ ((∀ rest, st.1 !! (dir ++ Normal name :: rest) = None) → ∀ path e,
    st2.1 !! path = Some e ↔ (<[p0 := entry_of m]> st.1) !! path = Some e ∨ md_kind m = KDir ∧ under_root p0 path e))
    as [Hst Hst2].
  { unfold st2 in *. case_bool_decide as Hk; [|split; [done|]; intros _ path e; cbn [fst]; naive_solver].
    destruct (down p0 st1) as [m2 t2] eqn:Ed. cbn [snd] in H2. subst t2.
    destruct (Hdown _ _ _ Ed) as [Ht Hs]. split; [exact Ht|]. intros Hf path e. cbn [fst].
    rewrite Hs; [cbn [fst]; naive_solver|]. intros n rest. unfold st1. cbn [fst]. unfold p0. rewrite <-app_assoc. cbn [app].
    rewrite lookup_insert_ne; [apply Hf|]. intros Heq%app_names_inj. naive_solver. }
  split; [exact Hst|]. intros Hf path e.
  specialize (Hst2 (λ rest, Hf name rest ltac:(rewrite fmap_cons; left))).
  assert (∀ path e, (<[p0 := entry_of m]> st.1) !! path = Some e ↔ st.1 !! path = Some e ∨ path = p0 ∧ e = entry_of m) as Hins.
  { intros p x. rewrite lookup_insert. case_decide as Hp; [|naive_solver]. subst p.
    unfold p0. rewrite (Hf name []) by (rewrite fmap_cons; left). naive_solver. }
  rewrite Hspec.
  - rewrite Hst2, Hins. split.
    + intros [[[?|[-> ->]]|[Hk Hu]]|(n & m1 & Hn & Hne & Hp)]; [by left|right; exists name, m; split; [left|]; naive_solver..|].
      right. exists n, m1. split; [by right|done].
    + intros [?|(n & m1 & Hn & Hne & Hp)]; [naive_solver|]. apply elem_of_cons in Hn as [[= -> ->]|Hn]; [naive_solver|].
      right. by exists n, m1.
  - intros n rest Hn. destruct (st2.1 !! _) as [x|] eqn:E; [|done]. exfalso. apply Hst2 in E as [E|[_ E]].
    + apply Hins in E as [E|[E _]]; [by rewrite (Hf n rest) in E by (rewrite fmap_cons; by right)|].
      unfold p0 in E. apply app_names_inj in E as [-> _]. done.
    + apply under_root_prefix in E as (n2 & rest2 & E). unfold p0 in E. rewrite <-app_assoc in E.
      apply app_names_inj in E as [-> _]. done.
Qed.

(** No directory lists a name twice. *)
Context (Hdirs : ∀ dir es, read_dir w dir = Some es → NoDup es.*1).

Lemma walk_guard_spec levels : walks (walk_guard levels w exclude).
Proof.
  induction levels as [|levels IH]; intros dir st m'; cbn [walk_guard]; [done|].
  destruct (read_dir w dir) as [es|] eqn:Er.
  2: { intros ->. split; [done|]. intros _ path e. cbn [fst]. split; [by left|]. intros [?|Hu]; [done|].
       destruct Hu as [? ? ? ? H|? ? ? ? ? ? H]; congruence. }
  intros H. destruct (walk_entries_spec _ dir IH es st m' (Hdirs _ _ Er) H) as [H2 Hs]. split; [done|].
  intros Hf path e. rewrite Hs by (intros; apply Hf). apply or_iff_compat_l. split.
  - intros (name & m & Hin & Hne & [[-> ->]|[Hk Hu]]); [by eapply ur_here|by eapply ur_down].
  - intros Hu. destruct Hu as [dir es' name m Hr Hin Hne|dir es' name m path e Hr Hin Hne Hk Hu];
      rewrite Er in Hr; injection Hr as <-; exists name, m; naive_solver.
Qed.

Lemma guard_snapshot_exact root :
  gm_truncated (snapshot w [root] exclude) = false →
  ∀ path e, gm_entries (snapshot w [root] exclude) !! path = Some e ↔ under_root root path e.
Proof.
  unfold snapshot. cbn [fold_left]. destruct (walk_guard _ w exclude root (∅, false)) as [m t] eqn:E.
  cbn [gm_truncated gm_entries]. intros -> path e. destruct (walk_guard_spec _ _ _ _ E) as [_ Hs].
  rewrite Hs by (intros; apply lookup_empty). cbn [fst]. rewrite lookup_empty. naive_solver.
Qed.
End Guard.

(** ** The check *)

Lemma in_order_elem (m : GuardMap) p e : (p, e) ∈ in_order m ↔ m !! p = Some e.
Proof. unfold in_order. by rewrite sort_by_elem, elem_of_map_to_list. Qed.
Lemma find_none_in {A} (f : A → bool) l : find f l = None ↔ ∀ x, x ∈ l → f x = false.
Proof.
  induction l as [|y l IH]; cbn [find]; [split; [by intros _ ? ?%not_elem_of_nil|done]|].
  destruct (f y) eqn:E.
  - split; [done|]. intros H. by rewrite (H y (list_elem_of_here _ _)) in E.
  - rewrite IH. split; [intros H x [->|]%elem_of_cons; auto|]. intros H x Hx. apply H. by right.
Qed.

Section Check.
Context {W : Type} {WH : WorkerHost W}.

(** The check passes exactly when the two snapshots are the same. *)
Lemma guard_check_ok g (w : W) :
  guard_check g w = Ok tt ↔ gm_entries (snapshot w (gm_roots g) (gm_excluded g)) = gm_entries g.
Proof.
  unfold guard_check. set (now := gm_entries (snapshot w _ _)).
  destruct (find _ (in_order (gm_entries g))) as [[p e]|] eqn:E1.
  { split; [done|]. intros Hn. apply find_some in E1 as [Hin%list_elem_of_In%in_order_elem Hb]. cbn [fst snd] in Hb.
    rewrite Hn, bool_decide_eq_true_2 in Hb by done. done. }
  assert (∀ p e, gm_entries g !! p = Some e → now !! p = Some e) as H1.
  { intros p e Hp%in_order_elem. pose proof (proj1 (find_none_in _ _) E1 _ Hp) as Hf. cbn [fst snd] in Hf.
    apply negb_false_iff in Hf. by apply bool_decide_eq_true in Hf. }
  destruct (find _ (in_order now)) as [[p e]|] eqn:E2.
  { split; [done|]. intros Hn. apply find_some in E2 as [Hin%list_elem_of_In%in_order_elem Hb]. cbn [fst snd] in Hb.
    rewrite <-Hn, Hin, bool_decide_eq_true_2 in Hb by done. done. }
  split; [|done]. intros _. apply map_eq. intros p. destruct (now !! p) as [e|] eqn:En.
  - pose proof (proj1 (find_none_in _ _) E2 (p, e) (proj2 (in_order_elem _ _ _) En)) as Hf. cbn [fst] in Hf.
    apply negb_false_iff, bool_decide_eq_true in Hf. destruct Hf as [e' He']. rewrite He'. apply H1 in He'. congruence.
  - destruct (gm_entries g !! p) as [e|] eqn:Eg; [|done]. apply H1 in Eg. congruence.
Qed.

(** The guard sees every change outside the worktree: for two states of the host in which the
    directory above the worktree is within the caps of the walk, the check passes if and only if
    the files and directories there (outside the worktree) are the same, with the same sizes and
    times; anything added, removed or modified is reported. *)
Theorem guard_detects (w w' : W) worktree root :
  (∀ v : W, v = w ∨ v = w' → ∀ dir es, read_dir v dir = Some es → NoDup es.*1) →
  parent (root_path worktree) = Some root →
  gm_truncated (snapshot w [root] [root_path worktree]) = false →
  gm_truncated (snapshot w' [root] [root_path worktree]) = false →
  guard_check (snapshot_parent w worktree) w' = Ok tt ↔
  ∀ path e, under_root w [root_path worktree] root path e ↔ under_root w' [root_path worktree] root path e.
Proof.
  intros Hd Hp Ht Ht'. rewrite guard_check_ok. unfold snapshot_parent. rewrite Hp.
  assert (gm_roots (snapshot w [root] [root_path worktree]) = [root] ∧
          gm_excluded (snapshot w [root] [root_path worktree]) = [root_path worktree]) as [-> ->].
  { unfold snapshot. by destruct (fold_left _ _ _). }
  pose proof (guard_snapshot_exact w _ (Hd w (or_introl eq_refl)) root Ht) as H1.
  pose proof (guard_snapshot_exact w' _ (Hd w' (or_intror eq_refl)) root Ht') as H2. split.
  - intros Heq path e. by rewrite <-H1, <-H2, Heq.
  - intros Heq. apply map_eq. intros path. apply option_eq. intros e. by rewrite H1, H2, Heq.
Qed.
End Check.

(** ** Products *)

Section Product.
Context {W : Type} {WH : WorkerHost W}.

(** The file of a record of the status, if it has one. *)
Definition record_file (w : W) worktree (record : bytes) (cf : ChangedFile) : Prop :=
  ∃ path, porcelain_path record = Some (Some path) ∧ is_ok (confine_read (worker_fs w) worktree path) = true ∧
    cf = mkChanged (chars_of path) (classify (chars_of path)).
Lemma confine_records_ok (w : W) worktree records : ∀ out files,
  confine_records w worktree out records = Some (Ok files) →
  ∃ new, files = out ++ new ∧ Forall (λ cf, ∃ record, record ∈ records ∧ record_file w worktree record cf) new ∧
    Forall (λ record, porcelain_path record = Some None ∨ ∃ cf, cf ∈ new ∧ record_file w worktree record cf) records.
Proof.
  induction records as [|record records IH]; intros out files; cbn [confine_records].
  { intros [= <-]. exists []. rewrite app_nil_r. repeat constructor. }
  destruct (porcelain_path record) as [[path|]|] eqn:Ep; cbn [mbind option_bind]; [| |done].
  - destruct (confine_read (worker_fs w) worktree path) as [c|] eqn:Ec; [|done].
    set (cf := mkChanged (chars_of path) (classify (chars_of path))).
    intros (new & -> & Hn & Hr)%IH. exists (cf :: new). rewrite <-app_assoc. split; [done|].
    assert (record_file w worktree record cf) as Hcf by (exists path; rewrite Ec; done). split; constructor.
    + exists record. split; [left|done].
    + eapply Forall_impl; [exact Hn|]. intros x (rec & Hin & Hx). exists rec. split; [by right|done].
    + right. exists cf. split; [left|done].
    + eapply Forall_impl; [exact Hr|]. intros rec [?|(x & Hin & Hx)]; [by left|]. right. exists x. split; [by right|done].
  - intros (new & -> & Hn & Hr)%IH. exists new. split; [done|]. split.
    + eapply Forall_impl; [exact Hn|]. intros x (rec & Hin & Hx). exists rec. split; [by right|done].
    + constructor; [by left|done].
Qed.

(** What an accepted run went through. *)
Lemma worker_ok exec backend input worktree (w : W) product w' :
  run_external_worker_with exec backend input worktree w = Some (Ok product, w') →
  ∃ result status diff,
    exec (build_command_spec backend input worktree) w = (Ok result, w') ∧
    guard_check (snapshot_parent w worktree) w' = Ok tt ∧
    git_status_all w' = Ok status ∧ git_worktree_diff w' = Ok diff ∧
    confine_records w' worktree [] (porcelain_records status) = Some (Ok (wp_changed_files product)) ∧
    wp_changed_files product ≠ [] ∧
    product = worker_product backend (take MAX_WORKER_OUTPUT (cr_stdout result ++ cr_stderr result))
                (wp_changed_files product) status (take MAX_DIFF_BYTES diff).
Proof.
  unfold run_external_worker_with. destruct (exec _ w) as [[result|e] w1]; [|done].
  destruct (guard_check _ w1) as [[]|e] eqn:Hg; [|done]. unfold confine_worktree_changes, extract_change.
  destruct (git_status_all w1) as [status|e] eqn:Hs; cbn [mbind option_bind result_bind map_err]; [|done].
  destruct (confine_records w1 worktree [] (porcelain_records status)) as [[files|e]|] eqn:Hc; [|done..].
  destruct (git_worktree_diff w1) as [diff|e] eqn:Hd; cbn [mbind result_bind map_err]; [|done].
  destruct files as [|cf files]; [done|]. intros [= <- <-]. exists result, status, diff. cbn [wp_changed_files worker_product].
  done.
Qed.

Lemma product_patch backend output files status diff product :
  product = worker_product backend output files status diff →
  wp_patch product = mkUnverified (mkPatchRef (sha256 (status ++ diff))).
Proof. intros ->. reflexivity. Qed.
Lemma product_diff backend output files status diff product :
  product = worker_product backend output files status diff → wp_diff product = diff.
Proof. intros ->. reflexivity. Qed.
Lemma product_result backend output files status diff product :
  product = worker_product backend output files status diff → br_patch (wp_result product) = Some (up_patch (wp_patch product)).
Proof. intros ->. reflexivity. Qed.

(** C25: A worker's result is accepted only after validation, and is only a proposal: the command
    that ran had nothing in its environment but a fixed path, in the worktree; nothing outside the
    worktree changed by the guard; there is at least one changed file; every file of the git
    status is confined to the worktree and classified; and the patch is the digest of the status
    and the diff that git reports of the worktree. *)
Theorem worker_validated exec backend input worktree (w : W) product w' :
  run_external_worker_with exec backend input worktree w = Some (Ok product, w') →
  cs_env (build_command_spec backend input worktree) = [(lit "PATH", SAFE_PATH)] ∧
  cs_cwd (build_command_spec backend input worktree) = Some (path_text (root_path worktree)) ∧
  (∃ result, exec (build_command_spec backend input worktree) w = (Ok result, w')) ∧
  guard_check (snapshot_parent w worktree) w' = Ok tt ∧
  wp_changed_files product ≠ [] ∧
  ∃ status diff, git_status_all w' = Ok status ∧ git_worktree_diff w' = Ok diff ∧
    up_patch (wp_patch product) = mkPatchRef (sha256 (status ++ take MAX_DIFF_BYTES diff)) ∧
    br_patch (wp_result product) = Some (up_patch (wp_patch product)) ∧
    Forall (λ cf, ∃ record, record ∈ porcelain_records status ∧ record_file w' worktree record cf) (wp_changed_files product) ∧
    Forall (λ record, porcelain_path record = Some None ∨
              ∃ cf, cf ∈ wp_changed_files product ∧ record_file w' worktree record cf) (porcelain_records status).
Proof.
  intros (result & status & diff & He & Hg & Hs & Hd & Hc & Hne & Hp)%worker_ok.
  do 2 (split; [done|]). split; [by exists result|]. do 2 (split; [done|]). exists status, diff. do 2 (split; [done|]).
  rewrite (product_patch _ _ _ _ _ _ Hp) at 1. split; [reflexivity|]. split; [exact (product_result _ _ _ _ _ _ Hp)|].
  destruct (confine_records_ok _ _ _ _ _ Hc) as (new & Hnew & H1 & H2). cbn [app] in Hnew. rewrite Hnew. done.
Qed.

(** What a worker says does not matter to what it proposes: two runs that leave the host in the
    same state and are both accepted propose the same patch, the same diff and the same changed
    files, whatever the backends print, claim or call themselves. *)
Theorem worker_claims_ignored exec1 exec2 b1 b2 i1 i2 worktree (w1 w2 w' : W) p1 p2 :
  run_external_worker_with exec1 b1 i1 worktree w1 = Some (Ok p1, w') →
  run_external_worker_with exec2 b2 i2 worktree w2 = Some (Ok p2, w') →
  wp_patch p1 = wp_patch p2 ∧ wp_diff p1 = wp_diff p2 ∧ wp_changed_files p1 = wp_changed_files p2.
Proof.
  intros (r1 & s1 & d1 & _ & _ & Hs1 & Hd1 & Hc1 & _ & Hp1)%worker_ok.
  intros (r2 & s2 & d2 & _ & _ & Hs2 & Hd2 & Hc2 & _ & Hp2)%worker_ok.
  rewrite Hs1 in Hs2. injection Hs2 as <-. rewrite Hd1 in Hd2. injection Hd2 as <-.
  rewrite Hc1 in Hc2. apply Some_inj in Hc2. apply (f_equal (λ x, match x with Ok l => l | Err _ => [] end)) in Hc2.
  cbn iota beta in Hc2. rewrite (product_patch _ _ _ _ _ _ Hp1), (product_patch _ _ _ _ _ _ Hp2).
  rewrite (product_diff _ _ _ _ _ _ Hp1), (product_diff _ _ _ _ _ _ Hp2). split_and!; [reflexivity|reflexivity|exact Hc2].
Qed.
End Product.

(** Sanitizing only removes. *)
Lemma sanitize_env_subset requested profile worktree env :
  sanitize_env requested profile worktree = Ok env → ∀ e, e ∈ env → e ∈ requested.
Proof.
  revert env. induction requested as [|[name value] rest IH]; intros env; cbn [sanitize_env].
  { intros [= <-] e He. by apply not_elem_of_nil in He. }
  destruct (is_stripped name profile); [intros H e He; right; by eapply IH|].
  destruct (check_entry worktree name value); cbn [mbind result_bind]; [|done].
  destruct (sanitize_env rest profile worktree) as [out|]; cbn [mbind result_bind]; [|done].
  intros [= <-] e [->|He]%elem_of_cons; [left|right]. by eapply IH.
Qed.

(** In production a worker runs confined: an accepted product comes from a command that ran
    inside bubblewrap under the profile its capability names, with the network denied, in the
    worktree, and with an environment of one variable, the fixed path. *)
Theorem worker_confined {W : Type} {WH : WorkerHost W} {R : Runner W} h f cap profile backend input worktree (w : W) product w' :
  run_external_worker h f cap profile backend input worktree w = Some (Ok product, w') →
  se_profile cap = sp_id profile ∧ sp_tier profile = TSandboxed ∧ sp_network profile = DenyAll ∧
  ∃ bwrap env result, find_executable h (lit "bwrap") = Some bwrap ∧
    run (confined_spec h bwrap env (build_command_spec backend input worktree)) w = (Ok result, w') ∧
    Forall (λ e, e = (lit "PATH", SAFE_PATH)) env.
Proof.
  intros (result & status & diff & He & _)%worker_ok.
  apply run_command_cases in He as [[_ He]|(Hc & Ht & Hn & bw & env & Hb & Hs & Hw & Hr)]; [done|].
  do 3 (split; [done|]). exists bw, env. destruct (run _ w) as [[res|e] w1]; [|done]. cbn [fst snd map_err] in *.
  injection Hr as <-. subst w1. exists result. split; [done|]. split; [done|].
  cbn [build_command_spec cs_env cs_cwd] in Hs. apply Forall_forall. intros e He.
  apply (sanitize_env_subset _ _ _ _ Hs) in He. by apply list_elem_of_singleton in He.
Qed.

(** ** Examples *)

(** A host whose state is its tree above the worktree [/b/w] and what git says of the worktree. *)
Record DemoHost := mkDemoHost { dh_siblings : list (bytes * option Metadata); dh_status : bytes; dh_ran : list CommandSpec }.
Definition demo_wt_fs : Fs := mkFs
  (list_to_map [([], Dir); ([lit "b"], Dir); ([lit "b"; lit "w"], Dir); ([lit "b"; lit "w"; lit "a.rs"], File)]) [].
#[local] Instance demo_worker_host : WorkerHost DemoHost := {|
  read_dir := λ w dir, if bool_decide (dir = [RootDir; Normal (lit "b")]) then Some (dh_siblings w) else None;
  worker_fs := λ _, demo_wt_fs;
  git_status_all := λ w, Ok (dh_status w);
  git_worktree_diff := λ _, Ok (lit "+x") |}.
Definition demo_wt : WorktreeRoot := mkRoot (components (lit "/b/w")).
Definition demo_siblings : list (bytes * option Metadata) :=
  [(lit "w", Some (mkMeta_ KDir 1 (Some 1))); (lit "notes", Some (mkMeta_ KFile 5 (Some 7)))].
Definition demo_status : bytes := lit " M a.rs" ++ [0].
(** A worker that changes the status of the worktree and prints that it is done. *)
#[local] Instance demo_worker_runner : Runner DemoHost := λ spec w,
  (Ok (mkResult (Code 0) (to_utf8 DONE_MARKER) [] false), mkDemoHost (dh_siblings w) demo_status (dh_ran w ++ [spec])).
Definition demo_w0 : DemoHost := mkDemoHost demo_siblings [] [].
Definition demo_input : WorkerInput := for_task 1 (lit "fix") demo_wt.
Definition demo_worker : option (result WorkerError WorkerProduct * DemoHost) :=
  run_external_worker demo_host false demo_cap default_sandboxed CodexBackend demo_input demo_wt demo_w0.
Lemma demo_worker_accepted : ∃ p w', demo_worker = Some (Ok p, w').
Proof.
  assert (match demo_worker with Some (Ok _, _) => true | _ => false end = true) as H by (vm_compute; reflexivity).
  destruct demo_worker as [[[p|e] w']|]; [by exists p, w'|discriminate..].
Qed.

Lemma guard_detects_witness :
  guard_check (snapshot_parent demo_w0 demo_wt) demo_w0 = Ok tt ↔
  ∀ path e, under_root demo_w0 [root_path demo_wt] [RootDir; Normal (lit "b")] path e ↔
            under_root demo_w0 [root_path demo_wt] [RootDir; Normal (lit "b")] path e.
Proof.
  apply (guard_detects demo_w0 demo_w0 demo_wt [RootDir; Normal (lit "b")]);
    [|vm_compute; reflexivity|vm_compute; reflexivity|vm_compute; reflexivity].
  assert (NoDup demo_siblings.*1) as Hn by (apply (bool_decide_eq_true_1 (NoDup demo_siblings.*1)); vm_compute; reflexivity).
  intros v [-> | ->] dir es; cbn; (case_bool_decide; [|discriminate]); intros [= <-]; exact Hn.
Defined.
Lemma worker_validated_witness :
  ∃ p w', demo_worker = Some (Ok p, w') ∧ wp_changed_files p ≠ [] ∧
    guard_check (snapshot_parent demo_w0 demo_wt) w' = Ok tt.
Proof.
  destruct demo_worker_accepted as (p & w' & E). exists p, w'. split; [exact E|].
  destruct (worker_validated (run_command demo_host false demo_cap default_sandboxed) CodexBackend demo_input demo_wt
    demo_w0 p w' E) as (_ & _ & _ & Hg & Hne & _). exact (conj Hne Hg).
Defined.
Lemma worker_claims_ignored_witness :
  ∃ p w', demo_worker = Some (Ok p, w') ∧ wp_patch p = wp_patch p.
Proof.
  destruct demo_worker_accepted as (p & w' & E). exists p, w'. split; [exact E|].
  exact (proj1 (worker_claims_ignored (run_command demo_host false demo_cap default_sandboxed)
    (run_command demo_host false demo_cap default_sandboxed) CodexBackend CodexBackend demo_input demo_input demo_wt
    demo_w0 demo_w0 w' p p E E)).
Defined.
Lemma worker_confined_witness :
  ∃ p w', demo_worker = Some (Ok p, w') ∧ sp_network default_sandboxed = DenyAll.
Proof.
  destruct demo_worker_accepted as (p & w' & E). exists p, w'. split; [exact E|].
  exact (proj1 (proj2 (proj2 (worker_confined demo_host false demo_cap default_sandboxed CodexBackend demo_input demo_wt
    demo_w0 p w' E)))).
Defined.

(** Below the depth cap the guard is blind: on a chain of directories deeper than the cap a file
    that appears at the bottom passes the check, although the walk says that it was truncated. *)
#[local] Instance deep_host : WorkerHost bool := {|
  read_dir := λ (grown : bool) (dir : list Component),
    if decide (length dir < 36)%nat then Some [(lit "d", Some (mkMeta_ KDir 1 (Some 1)))]
    else if grown then Some [(lit "planted", Some (mkMeta_ KFile 9 (Some 9)))] else Some [];
  worker_fs := λ _, demo_wt_fs; git_status_all := λ _, Ok []; git_worktree_diff := λ _, Ok [] |}.
Theorem guard_blind_below_cap :
  let wt := mkRoot [RootDir; Normal (lit "w")] in
  guard_check (snapshot_parent false wt) true = Ok tt ∧
  gm_truncated (snapshot_parent false wt) = true.
Proof. by vm_compute. Qed.
