(* ===== verification/Worktree.v ===== *)
(** * Worktree tools (crate [crustcore-worktree])

    [tools.rs]: the file tools that need both a capability and a confined path, the search, the
    hardened git invocations and the neutralisation of attribute drivers; [lib.rs]: the life of a
    disposable worktree. The file system is that of the path resolver with the contents of its
    files; what the source uses of [std::fs] (creating directories, opening for writing, reading) is
    modelled on it. [git] is a parameter: a function of the command, its input and the store that
    returns a spawn error or an exit status with the chunks of the two streams.

    Each following of a link by an open has the resolver's whole budget of links, where the system
    counts them together; permissions are not modelled. *)

From S2P Require Import Prelude Text Std Chars Redactor Types Policy Strings Path.

Definition DEFAULT_MAX_READ : nat := N.to_nat (8 * 1024 * 1024).
Definition MAX_GIT_OUTPUT : nat := N.to_nat (4 * 1024 * 1024).

(** ** Files *)

Record Store := mkStore { st_fs : Fs; st_data : gmap (list bytes) bytes }.
Inductive FsError := FsOs (e : IoError) | AlreadyExists | IsADirectory | NoTree.
Inductive ToolError := CapRootMismatch | GitDir | ToolIo (e : FsError) | SpawnFailed (e : chars) | ToolGit (e : chars).

Definition put_inode (s : Store) (loc : list bytes) (i : Inode) : Store :=
  mkStore (mkFs (<[loc := i]> (inodes (st_fs s))) (cwd (st_fs s))) (st_data s).
(** The parent directory of a path and its last name. *)
Definition parent_dir (fs : Fs) (cur : list bytes) (p : list Component) : result FsError (list bytes) :=
  dir ← map_err FsOs (walk fs MAX_SYMLINKS cur (removelast p));
  match inodes fs !! dir with
  | Some Dir => Ok dir
  | Some _ => Err (FsOs NotADirectory)
  | None => Err (FsOs NotFound)
  end.
(** [mkdir(2)]. *)
Definition mkdir (s : Store) (p : list Component) : result FsError Store :=
  match last p with
  | Some (Normal n) =>
      dir ← parent_dir (st_fs s) (cwd (st_fs s)) p;
      match inodes (st_fs s) !! (dir ++ [n]) with
      | Some _ => Err AlreadyExists
      | None => Ok (put_inode s (dir ++ [n]) Dir)
      end
  | _ => _ ← map_err FsOs (canonicalize (st_fs s) p); Err AlreadyExists
  end.
(** [Path::is_dir] of a path. *)
Definition path_is_dir (fs : Fs) (p : list Component) : bool :=
  match canonicalize fs p with Ok loc => is_dir fs loc | Err _ => false end.
(** [std::fs::create_dir_all], on the reversed components; what was created before a failure stays. *)
Fixpoint create_dir_rev (s : Store) (rp : list Component) : result FsError unit * Store :=
  match rp with
  | [] => (Ok tt, s)
  | c :: rparent =>
      match mkdir s (rev rp) with
      | Ok s' => (Ok tt, s')
      | Err (FsOs NotFound) =>
          match c with
          | RootDir => (Err NoTree, s)
          | _ =>
              match create_dir_rev s rparent with
              | (Err e, s1) => (Err e, s1)
              | (Ok _, s1) =>
                  match mkdir s1 (rev rp) with
                  | Ok s' => (Ok tt, s')
                  | Err e => if path_is_dir (st_fs s1) (rev rp) then (Ok tt, s1) else (Err e, s1)
                  end
              end
          end
      | Err e => if path_is_dir (st_fs s) (rev rp) then (Ok tt, s) else (Err e, s)
      end
  end.
Definition create_dir_all (s : Store) (p : list Component) : result FsError unit * Store := create_dir_rev s (rev p).
(** The parent of a path is created, if it has one. *)
Definition create_parent (s : Store) (p : list Component) : result FsError unit * Store :=
  match parent p with Some par => create_dir_all s par | None => (Ok tt, s) end.
(** Where an open that creates and truncates lands: the last link is followed. *)
Fixpoint open_create (links : nat) (fs : Fs) (cur : list bytes) (p : list Component) : result FsError (list bytes) :=
  match last p with
  | Some (Normal n) =>
      dir ← parent_dir fs cur p;
      match inodes fs !! (dir ++ [n]) with
      | None | Some File => Ok (dir ++ [n])
      | Some Dir => Err IsADirectory
      | Some (Symlink t) =>
          match links with
          | O => Err (FsOs FilesystemLoop)
          | S links' => open_create links' fs dir (components t)
          end
      end
  | _ => Err IsADirectory
  end.
(** [std::fs::write]. *)
Definition fs_write (s : Store) (p : list Component) (data : bytes) : result FsError Store :=
  loc ← open_create MAX_SYMLINKS (st_fs s) (cwd (st_fs s)) p;
  let s' := put_inode s loc File in
  Ok (mkStore (st_fs s') (<[loc := data]> (st_data s'))).
(** The contents of the file a path names. *)
Definition fs_read (s : Store) (p : list Component) : result FsError bytes :=
  loc ← map_err FsOs (canonicalize (st_fs s) p);
  match inodes (st_fs s) !! loc with
  | Some File => Ok (default [] (st_data s !! loc))
  | Some _ => Err IsADirectory
  | None => Err (FsOs NotFound)
  end.

(** ** The file tools *)

(** A capability is its root. *)
Record ReadCap := mkReadCap { rc_root : WorktreeRoot }.
Record WriteCap := mkWriteCap { wc_root : WorktreeRoot }.
Definition roots_match (a b : WorktreeRoot) : bool := bool_decide (root_path a = root_path b).
Definition is_dot_git (c : Component) : bool :=
  let name := match c with Normal n => n | RootDir => [47] | CurDir => [46] | ParentDir => [46; 46] end in
  is_utf8 name && eq_ignore_ascii_case name (lit ".git").
(** A canonical path as text. *)
Definition loc_text (loc : list bytes) : bytes :=
  match loc with [] => [47] | _ => loc ≫= λ n, 47 :: from_utf8_lossy n end.
(** [str::to_lowercase] is Unicode's. *)
Definition refuse_real_git_dir (to_lowercase : bytes → bytes) (fs : Fs) (root : WorktreeRoot) (target : list Component)
  : result ToolError unit :=
  match canonicalize fs (root_path root) with
  | Err _ => Ok tt
  | Ok root_canon =>
      let git_dir := root_canon ++ [lit ".git"] in
      match deepest_existing_canonical fs target with
      | Err _ => Ok tt
      | Ok existing =>
          let a := to_lowercase (loc_text existing) in
          let g := to_lowercase (loc_text git_dir) in
          if str_eq a g || starts_with (g ++ [47]) a then Err GitDir else Ok tt
      end
  end.
Definition read_file (s : Store) (cap : ReadCap) (path : ConfinedReadPath) (max_bytes : nat) : result ToolError bytes :=
  if negb (roots_match (rc_root cap) (cr_root path)) then Err CapRootMismatch
  else data ← map_err ToolIo (fs_read s (read_to_path path)); Ok (take max_bytes data).
Definition write_file (to_lowercase : bytes → bytes) (s : Store) (cap : WriteCap) (path : ConfinedWritePath) (data : bytes)
  : result ToolError unit * Store :=
  if negb (roots_match (wc_root cap) (cw_root path)) then (Err CapRootMismatch, s)
  else if existsb is_dot_git (cw_relative path) then (Err GitDir, s)
  else
    let target := write_to_path path in
    match refuse_real_git_dir to_lowercase (st_fs s) (wc_root cap) target with
    | Err e => (Err e, s)
    | Ok _ =>
        match create_parent s target with
        | (Err e, s1) => (Err (ToolIo e), s1)
        | (Ok _, s1) =>
            match fs_write s1 target data with
            | Ok s2 => (Ok tt, s2)
            | Err e => (Err (ToolIo e), s1)
            end
        end
    end.

(** ** Search *)

Record SearchHit := mkHit { sh_path : bytes; sh_line : Z; sh_text : chars }.
(** The loop of [scan_file] over the numbered lines. *)
Fixpoint scan_lines (rel : bytes) (needle : chars) (max_hits : nat) (i : Z) (ls : list chars) (hits : list SearchHit)
  : list SearchHit :=
  match ls with
  | [] => hits
  | line :: rest =>
      if (max_hits <=? length hits)%nat then hits else
      scan_lines rel needle max_hits (i + 1) rest
        (if contains line needle then hits ++ [mkHit rel (saturating_add u32_MAX (i mod 2 ^ 32) 1) (take 512 line)] else hits)
  end.
Definition rel_text (root file : list bytes) : bytes :=
  from_utf8_lossy (join_with 47 (drop (length root) file)).
Definition scan_file (s : Store) (root file : list bytes) (needle : chars) (max_hits : nat) (hits : list SearchHit)
  : list SearchHit :=
  let buf := take DEFAULT_MAX_READ (default [] (st_data s !! file)) in
  scan_lines (rel_text root file) needle max_hits 0 (lines (chars_of (from_utf8_lossy buf))) hits.

Section Search.
(** [read_dir] of a canonical directory: the names of its entries in the system's order. *)
Context (s : Store) (read_dir : list bytes → option (list bytes)) (needle : chars) (max_hits : nat) (root : list bytes).
(** The loop over the entries: stop, or the directories pushed and the hits so far. *)
Fixpoint scan_entries (dir : list bytes) (es : list bytes) (stack : list (list bytes)) (hits : list SearchHit)
  : bool * list (list bytes) * list SearchHit :=
  match es with
  | [] => (false, stack, hits)
  | n :: rest =>
      if (max_hits <=? length hits)%nat then (true, stack, hits) else
      match inodes (st_fs s) !! (dir ++ [n]) with
      | None | Some (Symlink _) => scan_entries dir rest stack hits
      | Some Dir =>
          if is_utf8 n && eq_ignore_ascii_case n (lit ".git") then scan_entries dir rest stack hits
          else scan_entries dir rest ((dir ++ [n]) :: stack) hits
      | Some File => scan_entries dir rest stack (scan_file s root (dir ++ [n]) needle max_hits hits)
      end
  end.
(** [while let Some(dir) = stack.pop()]; [None] when the fuel runs out. *)
Fixpoint search_loop (fuel : nat) (stack : list (list bytes)) (hits : list SearchHit) : option (list SearchHit) :=
  match stack with
  | [] => Some hits
  | dir :: stack =>
      match fuel with
      | O => None
      | S fuel' =>
          match read_dir dir with
          | None => search_loop fuel' stack hits
          | Some es =>
              let '(stop, stack, hits) := scan_entries dir es stack hits in
              if stop then Some hits else search_loop fuel' stack hits
          end
      end
  end.
End Search.
(** Every directory is popped at most once: one more turn than there are inodes is enough. *)
Definition search (s : Store) (read_dir : list bytes → option (list bytes)) (cap : ReadCap) (needle : chars)
    (max_hits : nat) : result ToolError (option (list SearchHit)) :=
  root ← map_err (λ e, ToolIo (FsOs e)) (canonicalize (st_fs s) (root_path (rc_root cap)));
  Ok (search_loop s read_dir needle max_hits root (S (size (inodes (st_fs s)))) [root] []).

(** ** Git *)

Record GitCommand := mkGit { gc_dir : list Component; gc_env : list (string * string); gc_args : list chars }.
Definition GIT_ENV : list (string * string) :=
  [("PATH", "/usr/bin:/bin:/usr/local/bin:/opt/homebrew/bin"); ("HOME", "/dev/null"); ("GIT_CONFIG_NOSYSTEM", "1");
   ("GIT_CONFIG_GLOBAL", "/dev/null"); ("GIT_CONFIG_SYSTEM", "/dev/null"); ("GIT_TERMINAL_PROMPT", "0");
   ("GIT_OPTIONAL_LOCKS", "0")].
Definition GIT_FLAGS : list chars :=
  lit <$> ["-c"; "core.hooksPath=/dev/null"; "-c"; "core.pager=cat"; "-c"; "core.fsmonitor=false"; "-c";
           "core.attributesFile=/dev/null"].
(** [hardened_git] with the arguments a caller appends. *)
Definition hardened_git (worktree : list Component) (args : list chars) : GitCommand :=
  mkGit worktree GIT_ENV (GIT_FLAGS ++ args).
(** [spawn_capped_reader]: the buffer after the chunks of a stream. *)
Fixpoint capped_read (cap : nat) (buf : bytes) (chunks : list bytes) : bytes :=
  match chunks with
  | [] => buf
  | c :: rest =>
      capped_read cap (if (length buf <? cap)%nat then buf ++ take (Nat.min (cap - length buf) (length c)) c else buf) rest
  end.
Record GitExit := mkExit { ge_success : bool; ge_stdout : list bytes; ge_stderr : list bytes }.

Definition patch_creates_symlink (patch : bytes) : bool :=
  existsb (λ line,
    (starts_with (lit "new file mode ") line || starts_with (lit "old mode ") line
     || starts_with (lit "new mode ") line || starts_with (lit "deleted file mode ") line)
    && ends_with (lit "120000") (trim_end line))
  (lines (chars_of (from_utf8_lossy patch))).
Definition NEUTRALIZER : chars := lit "* -filter".
(** The attributes file with the neutraliser as its last line, unless it has it. *)
Definition neutralized (existing : chars) : option chars :=
  if existsb (λ l, str_eq (trim l) NEUTRALIZER) (lines existing) then None
  else Some ((if negb (str_eq existing []) && negb (ends_with [10] existing) then existing ++ [10] else existing)
             ++ NEUTRALIZER ++ [10]).

Section Git.
Context (git : GitCommand → option bytes → Store → result chars GitExit * Store).
Definition run_git (c : GitCommand) (stdin : option bytes) (s : Store) : result ToolError chars * Store :=
  let '(r, s) := git c stdin s in
  (match r with
   | Err e => Err (SpawnFailed e)
   | Ok x =>
       if ge_success x then Ok (chars_of (from_utf8_lossy (capped_read MAX_GIT_OUTPUT [] (ge_stdout x))))
       else Err (ToolGit (trim (chars_of (from_utf8_lossy (capped_read MAX_GIT_OUTPUT [] (ge_stderr x))))))
   end, s).
Definition is_symlink (fs : Fs) (p : list Component) : bool :=
  match symlink_metadata fs p with Ok (Symlink _) => true | _ => false end.
Definition ATTRIBUTES_ARGS : list chars := lit <$> ["rev-parse"; "--git-path"; "info/attributes"].
(** [neutralize_attribute_drivers] once the path of the attributes file is known. *)
Definition neutralize_at (path : list Component) (s : Store) : result ToolError unit * Store :=
  if existsb (is_symlink (st_fs s)) (option_list (parent path) ++ [path])
  then (Err (ToolGit (lit "refusing: .git/info attributes path is a symlink")), s)
  else
    match create_parent s path with
    | (Err e, s1) => (Err (ToolIo e), s1)
    | (Ok _, s1) =>
        let existing := match fs_read s1 path with Ok b => if is_utf8 b then chars_of b else [] | Err _ => [] end in
        match neutralized existing with
        | Some content =>
            match fs_write s1 path (to_utf8 content) with
            | Ok s2 => (Ok tt, s2)
            | Err e => (Err (ToolIo e), s1)
            end
        | None => (Ok tt, s1)
        end
    end.
Definition neutralize_attribute_drivers (worktree : list Component) (s : Store) : result ToolError unit * Store :=
  match run_git (hardened_git worktree ATTRIBUTES_ARGS) None s with
  | (Err _, s) => (Ok tt, s)
  | (Ok rel, s) =>
      let rel := trim rel in
      if str_eq rel [] then (Ok tt, s) else neutralize_at (join worktree (components (to_utf8 rel))) s
  end.
(** A neutralised git command. *)
Definition neutral_git (worktree : list Component) (args : list string) (stdin : option bytes) (s : Store)
  : result ToolError chars * Store :=
  match neutralize_attribute_drivers worktree s with
  | (Err e, s) => (Err e, s)
  | (Ok _, s) => run_git (hardened_git worktree (lit <$> args)) stdin s
  end.
Definition git_status (cap : ReadCap) : Store → result ToolError chars * Store :=
  neutral_git (root_path (rc_root cap)) ["status"; "--porcelain"] None.
Definition git_status_all (cap : ReadCap) : Store → result ToolError chars * Store :=
  neutral_git (root_path (rc_root cap)) ["status"; "--porcelain"; "-z"; "--untracked-files=all"; "--no-renames"] None.
Definition git_diff (cap : ReadCap) : Store → result ToolError chars * Store :=
  neutral_git (root_path (rc_root cap)) ["diff"; "--no-color"; "--no-ext-diff"; "--no-textconv"] None.
Definition git_worktree_diff (cap : ReadCap) (s : Store) : result ToolError chars * Store :=
  match neutralize_attribute_drivers (root_path (rc_root cap)) s with
  | (Err e, s) => (Err e, s)
  | (Ok _, s) =>
      let '(_, s) := run_git (hardened_git (root_path (rc_root cap)) (lit <$> ["add"; "--intent-to-add"; "--"; "."])) None s in
      run_git (hardened_git (root_path (rc_root cap))
        (lit <$> ["diff"; "HEAD"; "--no-color"; "--no-ext-diff"; "--no-textconv"])) None s
  end.
Definition git_log (cap : ReadCap) (max_entries : Z) : Store → result ToolError chars * Store :=
  run_git (hardened_git (root_path (rc_root cap))
    ((lit <$> ["log"; "--oneline"; "--no-color"; "-n"]) ++ [dec_u max_entries])) None.
Definition git_apply (cap : WriteCap) (patch : bytes) (s : Store) : result ToolError unit * Store :=
  if patch_creates_symlink patch then
    (Err (ToolGit (lit "refusing a patch that creates or retargets a symlink (mode 120000)")), s)
  else
    let '(r, s) := neutral_git (root_path (wc_root cap)) ["apply"; "--whitespace=nowarn"] (Some patch) s in
    ((λ _, tt) <$> r, s).

(** ** Disposable worktrees *)

Record WorktreeManager := mkManager { wm_repo_root : list Component; wm_base : list Component }.
Inductive WorktreeError := WtGit (e : chars) | WtIo (e : FsError) | WtSpawn (e : chars) | WtPath (e : chars) | WtOpen (e : PathError).
Definition tool_error_fmt (e : ToolError) : chars :=
  match e with
  | CapRootMismatch => lit "capability root does not match the path's worktree root"
  | GitDir => lit "refusing to write into the .git directory"
  | ToolIo _ => lit "tool io error: "
  | SpawnFailed e => lit "tool io error: " ++ e
  | ToolGit e => lit "git error: " ++ e
  end.
Definition worktree_error_of (e : ToolError) : WorktreeError :=
  match e with
  | ToolGit e => WtGit e
  | ToolIo e => WtIo e
  | SpawnFailed e => WtSpawn e
  | other => WtGit (tool_error_fmt other)
  end.
(** [format!("cc-wt-{:032x}", task)]. *)
Fixpoint hex_digits (n : nat) (v : Z) : bytes :=
  match n with
  | O => []
  | S n' => hex_digits n' (v / 16) ++ [let d := v mod 16 in if d <? 10 then 48 + d else 87 + d]
  end.
Definition worktree_path (m : WorktreeManager) (task : Z) : list Component :=
  wm_base m ++ [Normal (lit "cc-wt-" ++ hex_digits 32 task)].
(** The text of a path: a [RootDir] is the leading separator. *)
Definition path_text (p : list Component) : bytes :=
  let name c := match c with Normal n => n | CurDir => [46] | ParentDir => [46; 46] | RootDir => [] end in
  match p with
  | RootDir :: [] => [47]
  | _ => join_with 47 (name <$> p)
  end.
Definition is_registered_worktree (m : WorktreeManager) (path : list Component) (s : Store) : bool * Store :=
  match canonicalize (st_fs s) path with
  | Err _ => (false, s)
  | Ok want =>
      match run_git (hardened_git (wm_repo_root m) (lit <$> ["worktree"; "list"; "--porcelain"])) None s with
      | (Err _, s) => (false, s)
      | (Ok out, s) =>
          (existsb (λ p, match canonicalize (st_fs s) (components (to_utf8 p)) with
                         | Ok loc => bool_decide (loc = want)
                         | Err _ => false
                         end)
             (omap (strip_prefix (lit "worktree ")) (lines out)), s)
      end
  end.
Definition info_attributes_path (m : WorktreeManager) (s : Store) : option (list Component) * Store :=
  match run_git (hardened_git (wm_repo_root m) ATTRIBUTES_ARGS) None s with
  | (Err _, s) => (None, s)
  | (Ok rel, s) =>
      let rel := trim rel in
      (if str_eq rel [] then None else Some (join (wm_repo_root m) (components (to_utf8 rel))), s)
  end.
(** [std::fs::remove_file]: the entry itself, a link not followed. *)
Definition remove_file (s : Store) (p : list Component) : result FsError Store :=
  match last p with
  | Some (Normal n) =>
      dir ← parent_dir (st_fs s) (cwd (st_fs s)) p;
      match inodes (st_fs s) !! (dir ++ [n]) with
      | None => Err (FsOs NotFound)
      | Some Dir => Err IsADirectory
      | Some _ => Ok (mkStore (mkFs (delete (dir ++ [n]) (inodes (st_fs s))) (cwd (st_fs s)))
                        (delete (dir ++ [n]) (st_data s)))
      end
  | _ => Err IsADirectory
  end.
Definition or_same {E} (s : Store) (r : result E Store) : Store := match r with Ok s' => s' | Err _ => s end.
(** The attributes file is put back: the bytes it had, or no file. *)
Definition restore_attributes (attr : option (list Component)) (original : option bytes) (s : Store) : Store :=
  match attr with
  | None => s
  | Some p =>
      match original with
      | Some b => or_same s (fs_write s p b)
      | None => or_same s (remove_file s p)
      end
  end.
Definition path_exists (fs : Fs) (p : list Component) : bool := is_ok (canonicalize fs p).
Definition create_for (m : WorktreeManager) (task : Z) (s : Store) : result WorktreeError WorktreeRoot * Store :=
  let path := worktree_path m task in
  let '(registered, s) := is_registered_worktree m path s in
  if registered then (map_err WtOpen (open_root (st_fs s) path), s)
  else if path_exists (st_fs s) path then
    (Err (WtPath (chars_of (from_utf8_lossy (path_text path)) ++
                  lit " already exists but is not a worktree registered to this repo; remove it")), s)
  else
    match create_dir_all s (wm_base m) with
    | (Err e, s) => (Err (WtIo e), s)
    | (Ok _, s) =>
        let '(_, s) := run_git (hardened_git (wm_repo_root m) (lit <$> ["worktree"; "prune"])) None s in
        if negb (is_utf8 (path_text path)) then (Err (WtPath (lit "worktree path is not valid UTF-8")), s) else
        let '(attr, s) := info_attributes_path m s in
        let original := attr ≫= λ p, match fs_read s p with Ok b => Some b | Err _ => None end in
        match neutralize_attribute_drivers (wm_repo_root m) s with
        | (Err e, s) => (Err (worktree_error_of e), s)
        | (Ok _, s) =>
            let '(added, s) := run_git (hardened_git (wm_repo_root m)
              ((lit <$> ["worktree"; "add"; "--detach"]) ++ [chars_of (path_text path); lit "HEAD"])) None s in
            let s := restore_attributes attr original s in
            match added with
            | Err e => (Err (worktree_error_of e), s)
            | Ok _ => (map_err WtOpen (open_root (st_fs s) path), s)
            end
        end
    end.
Definition head_commit (root : WorktreeRoot) (s : Store) : result WorktreeError chars * Store :=
  let '(r, s) := run_git (hardened_git (root_path root) (lit <$> ["rev-parse"; "HEAD"])) None s in
  (trim <$> map_err worktree_error_of r, s).
Definition remove_worktree (m : WorktreeManager) (root : WorktreeRoot) (s : Store) : result WorktreeError unit * Store :=
  if negb (is_utf8 (path_text (root_path root))) then (Err (WtPath (lit "worktree path is not valid UTF-8")), s) else
  let '(r, s) := run_git (hardened_git (wm_repo_root m)
    ((lit <$> ["worktree"; "remove"; "--force"]) ++ [chars_of (path_text (root_path root))])) None s in
  let '(_, s) := run_git (hardened_git (wm_repo_root m) (lit <$> ["worktree"; "prune"])) None s in
  match r with
  | Ok _ => (Ok tt, s)
  | Err e => if path_exists (st_fs s) (root_path root) then (Err (worktree_error_of e), s) else (Ok tt, s)
  end.
End Git.
