(* ===== verification/WorktreeTheorems.v ===== *)
(** * Theorems of the worktree tools

    A write through a confined path lands inside the worktree and outside its git directory, and
    what it creates on the way are directories of the worktree; the search ends, within its bound,
    on files of the worktree; git runs hardened, with the attribute drivers neutralised first. *)

From S2P Require Import Prelude Text Std Chars Redactor Types Policy Strings Path Worktree.

#[local] Opaque MAX_SYMLINKS DEFAULT_MAX_READ.

(** ** Directories *)

(** An entry has a parent directory. *)
Definition tree (fs : Fs) : Prop := ∀ loc n x, inodes fs !! (loc ++ [n]) = Some x → inodes fs !! loc = Some Dir.
Definition extends (fs fs' : Fs) : Prop :=
  cwd fs' = cwd fs ∧ ∀ loc x, inodes fs !! loc = Some x → inodes fs' !! loc = Some x.

Lemma tree_below fs loc k : tree fs → inodes fs !! loc = None → inodes fs !! (loc ++ k) = None.
Proof.
  intros Ht Hn. induction k as [|n k IH] using rev_ind; [by rewrite app_nil_r|].
  rewrite app_assoc. destruct (inodes fs !! ((loc ++ k) ++ [n])) eqn:E; [|done]. apply Ht in E. congruence.
Qed.

Lemma walk_extends fs fs' k cur cs loc :
  extends fs fs' → walk fs k cur cs = Ok loc → walk fs' k cur cs = Ok loc.
Proof.
  intros [_ He]. revert cur cs. induction k as [k IHk] using lt_wf_ind. intros cur cs. revert cur.
  induction cs as [|c cs IH]; intros cur; [by rewrite !walk_nil|]. rewrite !walk_cons.
  destruct c as [| | |n]; [by apply IH|..];
    (destruct (inodes fs !! cur) as [[]|] eqn:Ec; try done; rewrite (He _ _ Ec)); [by apply IH|by apply IH|].
  destruct (inodes fs !! (cur ++ [n])) as [[| |t]|] eqn:En; try done; rewrite (He _ _ En); [by apply IH|by apply IH|].
  destruct k as [|k]; [done|]. apply IHk. lia.
Qed.

Lemma canon_abs fs L : canonicalize fs (abs_path L) = walk fs MAX_SYMLINKS [] (names L).
Proof. unfold canonicalize, abs_path. by rewrite walk_cons. Qed.
Lemma canon_extends fs fs' L loc :
  extends fs fs' → canonicalize fs (abs_path L) = Ok loc → canonicalize fs' (abs_path L) = Ok loc.
Proof. intros He. rewrite !canon_abs. by apply walk_extends. Qed.

Lemma names_snoc L n : names (L ++ [n]) = names L ++ [Normal n].
Proof. unfold names. by rewrite fmap_app. Qed.

(** The resolution of a path with one more name. *)
Lemma canon_snoc fs L n :
  canonicalize fs (abs_path (L ++ [n])) =
  match canonicalize fs (abs_path L) with
  | Err e => Err e
  | Ok dir =>
      match inodes fs !! dir with
      | None => Err NotFound
      | Some Dir =>
          match inodes fs !! (dir ++ [n]) with
          | None => Err NotFound
          | Some (Symlink _) => canonicalize fs (abs_path (L ++ [n]))
          | Some _ => Ok (dir ++ [n])
          end
      | Some _ => Err NotADirectory
      end
  end.
Proof.
  rewrite !canon_abs, names_snoc.
  destruct (walk_app_eq fs MAX_SYMLINKS [] (names L) [Normal n]) as [(e & -> & ->)|(k' & mid & _ & -> & ->)]; [done|].
  rewrite walk_cons. destruct (inodes fs !! mid) as [[]|]; try done.
  destruct (inodes fs !! (mid ++ [n])) as [[]|]; by rewrite ?walk_nil.
Qed.

Lemma parent_dir_abs fs cur L n :
  parent_dir fs cur (abs_path (L ++ [n])) =
  match canonicalize fs (abs_path L) with
  | Err e => Err (FsOs e)
  | Ok dir =>
      match inodes fs !! dir with
      | Some Dir => Ok dir
      | Some _ => Err (FsOs NotADirectory)
      | None => Err (FsOs NotFound)
      end
  end.
Proof.
  unfold parent_dir. assert (removelast (abs_path (L ++ [n])) = abs_path L) as ->
    by (unfold abs_path; by rewrite names_snoc, app_comm_cons, removelast_last).
  rewrite canon_abs. unfold abs_path. rewrite walk_cons. by destruct (walk fs MAX_SYMLINKS [] (names L)) as [dir|e].
Qed.
Lemma last_abs L n : last (abs_path (L ++ [n])) = Some (Normal n).
Proof. unfold abs_path. by rewrite names_snoc, app_comm_cons, last_snoc. Qed.
Lemma parent_abs L n : parent (abs_path (L ++ [n])) = Some (abs_path L).
Proof. unfold parent. rewrite last_abs. unfold abs_path. by rewrite names_snoc, app_comm_cons, removelast_last. Qed.
Lemma rev_abs L n : rev (abs_path (L ++ [n])) = Normal n :: rev (abs_path L).
Proof. unfold abs_path. by rewrite names_snoc, app_comm_cons, rev_unit. Qed.
Lemma rev_abs_nonempty L : ∃ c r, rev (abs_path L) = c :: r.
Proof. destruct L as [|n L _] using rev_ind; [by exists RootDir, []|]. rewrite rev_abs. by eexists _, _. Qed.

Lemma deepest_snoc fs L n :
  canonicalize fs (abs_path (L ++ [n])) = Err NotFound →
  deepest_existing_canonical fs (abs_path (L ++ [n])) = deepest_existing_canonical fs (abs_path L).
Proof.
  intros Hc. unfold deepest_existing_canonical. destruct (rev_abs_nonempty L) as (c & r & Hr).
  rewrite rev_abs, Hr. cbn [deepest_rev]. rewrite <-Hr, <-rev_abs, rev_involutive, Hc. done.
Qed.

Lemma mkdir_abs s L n :
  mkdir s (abs_path (L ++ [n])) =
  match parent_dir (st_fs s) (cwd (st_fs s)) (abs_path (L ++ [n])) with
  | Err e => Err e
  | Ok dir => match inodes (st_fs s) !! (dir ++ [n]) with
              | Some _ => Err AlreadyExists
              | None => Ok (put_inode s (dir ++ [n]) Dir)
              end
  end.
Proof. unfold mkdir. rewrite last_abs. by destruct (parent_dir _ _ _). Qed.

(** What [create_dir_all] did to reach the directory [e ++ k] from the existing directory [e]. *)
Record grown (s s' : Store) (e k : list bytes) : Prop := mk_grown
  { gr_ext : extends (st_fs s) (st_fs s'); gr_tree : tree (st_fs s'); gr_data : st_data s' = st_data s;
    gr_dir : inodes (st_fs s') !! (e ++ k) = Some Dir;
    gr_same : k = [] → s' = s;
    gr_new : k ≠ [] → inodes (st_fs s) !! (e ++ k) = None;
    gr_change : ∀ loc, inodes (st_fs s') !! loc ≠ inodes (st_fs s) !! loc →
                ∃ k0, k0 ≠ [] ∧ k0 `prefix_of` k ∧ loc = e ++ k0 ∧ inodes (st_fs s') !! loc = Some Dir }.

Lemma grown_refl s e : tree (st_fs s) → inodes (st_fs s) !! e = Some Dir → grown s s e [].
Proof. intros Ht He. split; rewrite ?app_nil_r; done. Qed.

Lemma grown_snoc s s1 e k n :
  grown s s1 e k → inodes (st_fs s1) !! (e ++ k ++ [n]) = None →
  grown s (put_inode s1 (e ++ k ++ [n]) Dir) e (k ++ [n]).
Proof.
  intros [[Hcwd Hext] Ht Hd Hdir Hsame Hnew Hch] Hn. unfold put_inode.
  assert (inodes (st_fs s) !! (e ++ k ++ [n]) = None) as Hs.
  { destruct (inodes (st_fs s) !! (e ++ k ++ [n])) eqn:E; [|done]. apply Hext in E. congruence. }
  split; cbn [st_fs inodes cwd st_data].
  - split; [done|]. cbn. intros loc x Hl. rewrite lookup_insert_ne by congruence. by apply Hext.
  - intros loc m x. cbn. destruct (decide (e ++ k ++ [n] = loc ++ [m])) as [Heq|Hne].
    + rewrite app_assoc in Heq. apply app_inj_tail in Heq as [<- <-]. intros _.
      rewrite lookup_insert_ne; [done|]. intros Hbad. apply (f_equal length) in Hbad. rewrite !length_app in Hbad. simpl in Hbad. lia.
    + rewrite lookup_insert_ne by done. intros Hx%Ht. rewrite lookup_insert_ne; [done|]. intros <-. congruence.
  - done.
  - cbn. by rewrite lookup_insert_eq.
  - by destruct k.
  - intros _. done.
  - intros loc. cbn. destruct (decide (e ++ k ++ [n] = loc)) as [<-|Hne].
    + intros _. exists (k ++ [n]). rewrite lookup_insert_eq. by destruct k.
    + rewrite lookup_insert_ne by done. intros (k0 & ? & [q ->] & -> & ?)%Hch.
      exists k0. split; [done|]. split; [|done]. exists (q ++ [n]). by rewrite app_assoc.
Qed.

(** An existing directory is left as it is. *)
Lemma existing_grown s L :
  tree (st_fs s) → path_is_dir (st_fs s) (abs_path L) = true →
  ∃ e, deepest_existing_canonical (st_fs s) (abs_path L) = Ok e ∧
       canonicalize (st_fs s) (abs_path L) = Ok (e ++ []) ∧ grown s s e [].
Proof.
  intros Ht Hp. unfold path_is_dir in Hp. destruct (canonicalize (st_fs s) (abs_path L)) as [loc|] eqn:E; [|done].
  exists loc. rewrite app_nil_r. split; [by apply deepest_existing|]. split; [done|].
  apply grown_refl; [done|]. unfold is_dir in Hp. by destruct (inodes (st_fs s) !! loc) as [[]|].
Qed.
Lemma mkdir_root s : mkdir s (abs_path []) = Err AlreadyExists.
Proof.
  unfold mkdir. assert (last (abs_path []) = Some RootDir) as -> by done.
  rewrite canon_abs. cbn [names fmap list_fmap]. rewrite walk_nil. done.
Qed.
Lemma create_existing s L :
  path_is_dir (st_fs s) (abs_path L) = true → create_dir_rev s (rev (abs_path L)) = (Ok tt, s).
Proof.
  intros Hp. destruct L as [|m L _] using rev_ind.
  - change (rev (abs_path [])) with [RootDir]. cbn [create_dir_rev]. change (rev [RootDir]) with (abs_path []).
    by rewrite mkdir_root, Hp.
  - rewrite rev_abs. cbn [create_dir_rev]. rewrite <-rev_abs, rev_involutive, mkdir_abs, parent_dir_abs.
    pose proof Hp as Hc. unfold path_is_dir in Hc. rewrite canon_snoc in Hc.
    destruct (canonicalize (st_fs s) (abs_path L)) as [dir|e]; [|done].
    destruct (inodes (st_fs s) !! dir) as [[]|]; try done.
    destruct (inodes (st_fs s) !! (dir ++ [m])); [|done]. by rewrite Hp.
Qed.

(** One more directory under one that was created or found. *)
Lemma create_one s s1 L n e k :
  grown s s1 e k → canonicalize (st_fs s1) (abs_path L) = Ok (e ++ k) →
  inodes (st_fs s1) !! (e ++ k ++ [n]) = None →
  mkdir s1 (abs_path (L ++ [n])) = Ok (put_inode s1 (e ++ k ++ [n]) Dir) ∧
  canonicalize (st_fs (put_inode s1 (e ++ k ++ [n]) Dir)) (abs_path (L ++ [n])) = Ok (e ++ k ++ [n]).
Proof.
  intros Hg Hcan Hn. pose proof (gr_dir _ _ _ _ Hg) as Hd.
  split; [by rewrite mkdir_abs, parent_dir_abs, Hcan, Hd, <-app_assoc, Hn|].
  assert (extends (st_fs s1) (st_fs (put_inode s1 (e ++ k ++ [n]) Dir))) as Hx.
  { split; [done|]. intros loc x Hl. cbn. rewrite lookup_insert_ne; [done|]. congruence. }
  rewrite canon_snoc, (canon_extends _ _ _ _ Hx Hcan), (proj2 Hx _ _ Hd), <-app_assoc. cbn. by rewrite lookup_insert_eq.
Qed.

(** Below a directory that was missing there is nothing, and nothing was created beside the path. *)
Lemma grown_child s s1 e k n :
  tree (st_fs s) → grown s s1 e k → k ≠ [] → inodes (st_fs s1) !! (e ++ k ++ [n]) = None.
Proof.
  intros Ht Hg Hk. destruct (inodes (st_fs s1) !! (e ++ k ++ [n])) eqn:Ec; [|done]. exfalso.
  assert (inodes (st_fs s) !! (e ++ k ++ [n]) = None) as Hno.
  { rewrite app_assoc. apply tree_below; [done|]. by apply (gr_new _ _ _ _ Hg). }
  destruct (gr_change _ _ _ _ Hg (e ++ k ++ [n])) as (k0 & _ & Hpre & Heq & _); [congruence|].
  apply app_inv_head in Heq. subst k0. apply prefix_length in Hpre. rewrite length_app in Hpre. simpl in Hpre. lia.
Qed.

Definition reached (s s' : Store) (L l : list bytes) : Prop :=
  ∃ e k, deepest_existing_canonical (st_fs s) (abs_path L) = Ok e ∧ k `suffix_of` l ∧
    canonicalize (st_fs s') (abs_path L) = Ok (e ++ k) ∧ grown s s' e k.

Lemma create_step s s' L l n :
  tree (st_fs s) → (∀ s1, create_dir_rev s (rev (abs_path L)) = (Ok tt, s1) → reached s s1 L l) →
  create_dir_rev s (rev (abs_path (L ++ [n]))) = (Ok tt, s') → reached s s' (L ++ [n]) (l ++ [n]).
Proof.
  intros Ht IH Hc. destruct (path_is_dir (st_fs s) (abs_path (L ++ [n]))) eqn:Hp.
  { rewrite create_existing in Hc by done. injection Hc as <-.
    destruct (existing_grown s _ Ht Hp) as (e & ? & ? & ?). exists e, [].
    split; [done|]. split; [exists (l ++ [n]); by rewrite app_nil_r|done]. }
  rewrite rev_abs in Hc. cbn [create_dir_rev] in Hc. rewrite <-rev_abs, rev_involutive in Hc.
  destruct (mkdir s (abs_path (L ++ [n]))) as [s1|err] eqn:Em.
  - injection Hc as <-. rewrite mkdir_abs, parent_dir_abs in Em.
    destruct (canonicalize (st_fs s) (abs_path L)) as [dir|e] eqn:EL; [|done].
    destruct (inodes (st_fs s) !! dir) as [[]|] eqn:Ed; try done.
    destruct (inodes (st_fs s) !! (dir ++ [n])) eqn:En; [done|]. injection Em as <-.
    pose proof (grown_refl s dir Ht Ed) as Hg. rewrite <-(app_nil_r dir) in EL.
    destruct (create_one s s L n dir [] Hg EL En) as [_ Hcan]. exists dir, [n].
    split; [|split; [by exists l|split; [exact Hcan|exact (grown_snoc s s dir [] n Hg En)]]].
    rewrite app_nil_r in EL. rewrite deepest_snoc; [by apply deepest_existing|]. by rewrite canon_snoc, EL, Ed, En.
  - rewrite Hp in Hc. destruct err as [[]| | |]; try done.
    destruct (create_dir_rev s (rev (abs_path L))) as [[[]|] s1] eqn:E1; [|done].
    destruct (IH s1 eq_refl) as (e & k & Hdeep & [q ->] & Hcan & Hg).
    assert (canonicalize (st_fs s) (abs_path (L ++ [n])) = Err NotFound ∧ k ≠ []) as [Hnf Hk].
    { rewrite mkdir_abs, parent_dir_abs in Em. rewrite canon_snoc.
      destruct (canonicalize (st_fs s) (abs_path L)) as [dir|er] eqn:EL.
      - destruct (inodes (st_fs s) !! dir) as [[]|] eqn:Ed; try done;
          [by destruct (inodes (st_fs s) !! (dir ++ [n]))|]. split; [done|].
        intros ->. pose proof (gr_same _ _ _ _ Hg eq_refl) as ->. pose proof (gr_dir _ _ _ _ Hg) as Hd.
        rewrite app_nil_r in *. rewrite EL in Hcan. injection Hcan as ->. congruence.
      - injection Em as ->. split; [done|]. intros ->. pose proof (gr_same _ _ _ _ Hg eq_refl) as ->. congruence. }
    pose proof (grown_child s s1 e k n Ht Hg Hk) as Hchild.
    destruct (create_one s s1 L n e k Hg Hcan Hchild) as [Hmk Hcan']. rewrite Hmk in Hc. injection Hc as <-.
    exists e, (k ++ [n]). split; [by rewrite deepest_snoc|]. split; [exists q; by rewrite app_assoc|].
    split; [exact Hcan'|by apply grown_snoc].
Qed.

(** [create_dir_all] below an existing directory: the deepest existing ancestor is a directory [e],
    and the rest of the path is created under it. *)
Lemma create_grown s R l s' :
  tree (st_fs s) → path_is_dir (st_fs s) (abs_path R) = true →
  create_dir_rev s (rev (abs_path (R ++ l))) = (Ok tt, s') → reached s s' (R ++ l) l.
Proof.
  intros Ht HR. revert s'. induction l as [|n l IH] using rev_ind; intros s'; rewrite ?app_nil_r.
  - rewrite create_existing by done. intros [= <-]. destruct (existing_grown s R Ht HR) as (e & ? & ? & ?).
    by exists e, [].
  - rewrite app_assoc. by apply create_step.
Qed.

(** ** Writes *)

Lemma open_root_canonical fs p r :
  real fs (cwd fs) → open_root fs p = Ok r →
  ∃ rc, root_path r = abs_path rc ∧ canonicalize fs (abs_path rc) = Ok rc ∧ inodes fs !! rc = Some Dir.
Proof.
  intros Hcwd. unfold open_root. destruct (canonicalize fs p) as [rc|] eqn:E; [|done]. cbn [map_err mbind result_bind].
  destruct (is_dir fs rc) eqn:Hd; [|done]. intros [= <-]. exists rc. split; [done|].
  apply canonicalize_walk, walk_real in E; [|done]. split.
  - rewrite canon_abs, <-(app_nil_r (names rc)), walk_abs by done. by rewrite walk_nil.
  - unfold is_dir in Hd. by destruct (inodes fs !! rc) as [[]|].
Qed.

Lemma abs_app rc l : abs_path rc ++ names l = abs_path (rc ++ l).
Proof. unfold abs_path, names. by rewrite fmap_app. Qed.

(** Where a write below a created or found parent lands. *)
Lemma fs_write_child s s1 e k L n data s2 :
  tree (st_fs s) → grown s s1 e k → canonicalize (st_fs s1) (abs_path L) = Ok (e ++ k) →
  (k = [] → ∀ t, inodes (st_fs s) !! (e ++ [n]) ≠ Some (Symlink t)) →
  fs_write s1 (abs_path (L ++ [n])) data = Ok s2 →
  s2 = mkStore (st_fs (put_inode s1 (e ++ k ++ [n]) File)) (<[e ++ k ++ [n] := data]> (st_data s1)) ∧
  (inodes (st_fs s) !! (e ++ k ++ [n]) = None ∨ inodes (st_fs s) !! (e ++ k ++ [n]) = Some File).
Proof.
  intros Ht Hg Hcan Hlink. unfold fs_write. rewrite app_assoc.
  assert (open_create MAX_SYMLINKS (st_fs s1) (cwd (st_fs s1)) (abs_path (L ++ [n])) =
    match inodes (st_fs s1) !! ((e ++ k) ++ [n]) with
    | None | Some File => Ok ((e ++ k) ++ [n])
    | Some Dir => Err IsADirectory
    | Some (Symlink t) =>
        match MAX_SYMLINKS with O => Err (FsOs FilesystemLoop) | S l' => open_create l' (st_fs s1) (e ++ k) (components t) end
    end) as ->.
  { destruct MAX_SYMLINKS; cbn [open_create]; rewrite last_abs, parent_dir_abs, Hcan, (gr_dir _ _ _ _ Hg);
      cbn [mbind result_bind]; by destruct (inodes (st_fs s1) !! ((e ++ k) ++ [n])) as [[]|]. }
  destruct (decide (k = [])) as [->|Hk].
  - pose proof (gr_same _ _ _ _ Hg eq_refl) as ->. rewrite app_nil_r. specialize (Hlink eq_refl).
    cbn [app]. destruct (inodes (st_fs s) !! (e ++ [n])) as [[| |t]|] eqn:E; cbn [mbind result_bind];
      [done| |by destruct (Hlink t)|]; intros [= <-]; (split; [done|by auto]).
  - rewrite <-app_assoc. rewrite (grown_child s s1 e k n Ht Hg Hk). cbn [mbind result_bind]. intros [= <-].
    split; [done|]. left. rewrite app_assoc. apply tree_below; [done|]. by apply (gr_new _ _ _ _ Hg).
Qed.

Lemma loc_text_app a b : b ≠ [] → a ≠ [] → loc_text (a ++ b) = loc_text a ++ (b ≫= λ n, 47 :: from_utf8_lossy n).
Proof. intros Hb Ha. destruct a; [done|]. unfold loc_text. cbn [app]. by rewrite app_comm_cons, bind_app. Qed.

Definition splits_at_slash (f : bytes → bytes) : Prop := ∀ x y, f (x ++ 47 :: y) = f x ++ 47 :: f y.

(** The guard of the git directory: what it lets through does not resolve into it. *)
Lemma refuse_real_git_dir_Ok lower fs r rc target e :
  splits_at_slash lower → root_path r = abs_path rc → canonicalize fs (abs_path rc) = Ok rc →
  deepest_existing_canonical fs target = Ok e → refuse_real_git_dir lower fs r target = Ok tt →
  ¬ (rc ++ [lit ".git"]) `prefix_of` e.
Proof.
  intros Hl Hr Hrc He. unfold refuse_real_git_dir. rewrite Hr, Hrc, He. cbv zeta.
  destruct (str_eq _ _ || _) eqn:E; [done|]. intros _ [q ->]. apply orb_false_iff in E as [E1 E2].
  apply bool_decide_eq_false in E1. destruct q as [|n q]; [by rewrite app_nil_r in E1|].
  apply bool_decide_eq_false in E2. apply E2.
  rewrite (loc_text_app (rc ++ [lit ".git"]) (n :: q)); [|done|by intros [_ ?]%app_nil]. cbn [mbind list_bind app]. rewrite Hl.
  eexists. apply strip_prefix_Some. by rewrite <-app_assoc.
Qed.

(** What the guard looks at, for a target whose parent was found or created. *)
Lemma target_deepest s s1 e k L n :
  deepest_existing_canonical (st_fs s) (abs_path L) = Ok e → canonicalize (st_fs s1) (abs_path L) = Ok (e ++ k) →
  grown s s1 e k →
  inodes (st_fs s) !! (e ++ k ++ [n]) = None ∨ inodes (st_fs s) !! (e ++ k ++ [n]) = Some File →
  ∃ m, deepest_existing_canonical (st_fs s) (abs_path (L ++ [n])) = Ok (e ++ m).
Proof.
  intros Hd Hcan Hg Hn. destruct (canonicalize (st_fs s) (abs_path L)) as [d|err] eqn:Ec.
  - pose proof (deepest_existing _ _ _ Ec) as Hd'. rewrite Hd in Hd'. injection Hd' as <-.
    pose proof (canon_extends _ _ _ _ (gr_ext _ _ _ _ Hg) Ec) as Hc'. rewrite Hcan in Hc'. injection Hc' as Hk.
    assert (k = []) as -> by (by apply (app_inv_head e); rewrite app_nil_r).
    pose proof (gr_same _ _ _ _ Hg eq_refl) as ->. pose proof (gr_dir _ _ _ _ Hg) as Hdir. rewrite app_nil_r in Hdir. cbn [app] in Hn.
    destruct Hn as [Hn|Hn].
    + exists []. rewrite app_nil_r, deepest_snoc; [done|]. by rewrite canon_snoc, Ec, Hdir, Hn.
    + exists [n]. apply deepest_existing. by rewrite canon_snoc, Ec, Hdir, Hn.
  - assert (err = NotFound) as ->.
    { destruct (rev_abs_nonempty L) as (c & r & Hr). unfold deepest_existing_canonical in Hd. rewrite Hr in Hd.
      cbn [deepest_rev] in Hd. rewrite <-Hr, rev_involutive, Ec in Hd. by destruct err. }
    exists []. rewrite app_nil_r, deepest_snoc; [done|]. by rewrite canon_snoc, Ec.
Qed.

(** No location a write reaches below the root is in the git directory. *)
Lemma outside_git rc e m l n k0 :
  rc `prefix_of` e → ¬ (rc ++ [lit ".git"]) `prefix_of` (e ++ m) →
  existsb is_dot_git (names (l ++ [n])) = false → (∀ x, x ∈ k0 → x ∈ l ++ [n]) →
  ¬ (rc ++ [lit ".git"]) `prefix_of` (e ++ k0).
Proof.
  intros [m0 ->] Hno Hlex Hk [q Hq]. rewrite <-!app_assoc in Hq. apply app_inv_head in Hq. cbn [app] in Hq.
  destruct m0 as [|x m0]; cbn [app] in Hq.
  - assert (lit ".git" ∈ l ++ [n]) as Hin by (apply Hk; rewrite Hq; by left).
    assert (existsb is_dot_git (names (l ++ [n])) = true) as Ht; [|congruence].
    apply existsb_exists. exists (Normal (lit ".git")). split; [|by vm_compute].
    apply list_elem_of_In. by apply list_elem_of_fmap_2.
  - assert (x = lit ".git") as -> by (by apply (f_equal head), Some_inj in Hq).
    apply Hno. exists (m0 ++ m). by rewrite <-!app_assoc.
Qed.

(** C27: A write the tool reports done went to one file under the canonical root of the worktree, and
    outside its git directory, whatever links and spellings the path has; all else it changed is
    that it created directories there. *)
Theorem write_file_sound lower s p0 r rel p cap data s' :
  tree (st_fs s) → real (st_fs s) (cwd (st_fs s)) → splits_at_slash lower →
  open_root (st_fs s) p0 = Ok r → confine_write (st_fs s) r rel = Ok p →
  write_file lower s cap p data = (Ok tt, s') →
  ∃ rc loc, root_path r = abs_path rc ∧
    rc `prefix_of` loc ∧ ¬ (rc ++ [lit ".git"]) `prefix_of` loc ∧
    inodes (st_fs s') !! loc = Some File ∧ st_data s' = <[loc := data]> (st_data s) ∧
    ∀ loc', loc' ≠ loc → inodes (st_fs s') !! loc' ≠ inodes (st_fs s) !! loc' →
      inodes (st_fs s') !! loc' = Some Dir ∧ rc `prefix_of` loc' ∧ ¬ (rc ++ [lit ".git"]) `prefix_of` loc'.
Proof.
  intros Htree Hcwd Hlow Hopen Hconf Hw. destruct (open_root_canonical _ _ _ Hcwd Hopen) as (rc & Hr & Hrc & Hdir).
  apply confine_write_Ok in Hconf as (rc' & l & n & Hrc' & -> & Hlink & Hunder).
  rewrite Hr, Hrc in Hrc'. injection Hrc' as <-. rewrite !abs_app in *. rewrite app_assoc in Hlink.
  unfold write_file in Hw. destruct (negb _) eqn:Eroot; [done|]. cbn [cw_relative] in Hw.
  apply negb_false_iff, bool_decide_eq_true in Eroot. cbn [cw_root] in Eroot.
  destruct (existsb is_dot_git _) eqn:Hlex; [done|].
  assert (write_to_path (mkWrite r (names (l ++ [n]))) = abs_path ((rc ++ l) ++ [n])) as Htarget.
  { unfold write_to_path. cbn [cw_root cw_relative]. by rewrite join_names, Hr, abs_app, app_assoc. }
  rewrite Htarget in Hw. destruct (refuse_real_git_dir _ _ _ _) as [[]|] eqn:Eg; [|done].
  unfold create_parent in Hw. rewrite parent_abs in Hw.
  destruct (create_dir_all s (abs_path (rc ++ l))) as [[[]|] s1] eqn:Ec; [|done].
  assert (path_is_dir (st_fs s) (abs_path rc) = true) as Hpd by (unfold path_is_dir, is_dir; by rewrite Hrc, Hdir).
  destruct (create_grown s rc l s1 Htree Hpd Ec) as (e & k & Hdeep & [kq Hk] & Hcan & Hg).
  assert (rc `prefix_of` e) as Hpre.
  { unfold assert_under_root in Hunder. rewrite Hdeep in Hunder. cbn in Hunder. by case_bool_decide. }
  destruct (fs_write s1 _ data) as [s2|] eqn:Ew; [|done]. injection Hw as ->.
  assert (k = [] → ∀ t, inodes (st_fs s) !! (e ++ [n]) ≠ Some (Symlink t)) as Hnl.
  { intros -> t Ht. pose proof (gr_same _ _ _ _ Hg eq_refl) as ->. pose proof (gr_dir _ _ _ _ Hg) as Hd.
    rewrite app_nil_r in *. apply (Hlink t). rewrite <-app_assoc, <-abs_app.
    erewrite symlink_metadata_link; [by rewrite Ht| |exact Hd]. by rewrite abs_app. }
  destruct (fs_write_child s s1 e k _ n data s' Htree Hg Hcan Hnl Ew) as [-> Hwas].
  destruct (target_deepest s s1 e k _ n Hdeep Hcan Hg Hwas) as [m Hm].
  assert (root_path (wc_root cap) = abs_path rc) as Hcap by congruence.
  pose proof (refuse_real_git_dir_Ok lower _ _ rc _ _ Hlow Hcap Hrc Hm Eg) as Hgit.
  assert (∀ k0, k0 `prefix_of` k ++ [n] → ¬ (rc ++ [lit ".git"]) `prefix_of` (e ++ k0)) as Hout.
  { intros k0 [q Hq]. apply (outside_git rc e m l n); [done..|]. intros x Hx.
    assert (x ∈ k ++ [n]) as Hin by (rewrite Hq; apply elem_of_app; by left). rewrite Hk. set_solver. }
  exists rc, (e ++ k ++ [n]). split; [done|]. split; [by apply prefix_app_r|]. split; [by apply Hout|].
  cbn [st_fs st_data put_inode inodes]. split; [by rewrite lookup_insert_eq|]. split; [by rewrite (gr_data _ _ _ _ Hg)|].
  intros loc' Hne. rewrite lookup_insert_ne by done. intros (k0 & _ & Hp0 & -> & Hd)%(gr_change _ _ _ _ Hg).
  split; [done|]. split; [by apply prefix_app_r|]. apply Hout. by apply prefix_app_r.
Qed.

(** ** Search *)

Lemma elem_of_rev {A} (x : A) (l : list A) : x ∈ rev l ↔ x ∈ l.
Proof. by rewrite <-Permutation_rev. Qed.

(** The hits of a file with no bound on their number. *)
Fixpoint line_hits (rel : bytes) (needle : chars) (i : Z) (ls : list chars) : list SearchHit :=
  match ls with
  | [] => []
  | line :: rest =>
      (if contains line needle then [mkHit rel (saturating_add u32_MAX (i mod 2 ^ 32) 1) (take 512 line)] else [])
      ++ line_hits rel needle (i + 1) rest
  end.
Definition file_hits (s : Store) (root file : list bytes) (needle : chars) : list SearchHit :=
  line_hits (rel_text root file) needle 0
    (lines (chars_of (from_utf8_lossy (take DEFAULT_MAX_READ (default [] (st_data s !! file)))))).


Lemma scan_lines_all rel needle max_hits i ls hits :
  (length hits ≤ max_hits)%nat →
  scan_lines rel needle max_hits i ls hits = take max_hits (hits ++ line_hits rel needle i ls).
Proof.
  revert i hits. induction ls as [|l ls IH]; intros i hits Hl; cbn [scan_lines line_hits].
  { by rewrite app_nil_r, take_ge. }
  destruct (Nat.leb_spec max_hits (length hits)) as [Hm|Hm].
  - assert (length hits = max_hits) as <- by lia. by rewrite take_app_length.
  - destruct (contains l needle); rewrite IH; rewrite ?length_app; cbn [app]; simpl; try lia; rewrite <-?app_assoc; done.
Qed.

Section SearchTheorems.
Context (s : Store) (read_dir : list bytes → option (list bytes)) (needle : chars) (max_hits : nat) (root : list bytes).

(** A listing's files and directories: links are not followed, git directories not entered. *)
Definition entry_hits (dir : list bytes) (n : bytes) : list SearchHit :=
  match inodes (st_fs s) !! (dir ++ [n]) with Some File => file_hits s root (dir ++ [n]) needle | _ => [] end.
Definition is_subdir (dir : list bytes) (n : bytes) : bool :=
  match inodes (st_fs s) !! (dir ++ [n]) with
  | Some Dir => negb (is_utf8 n && eq_ignore_ascii_case n (lit ".git"))
  | _ => false
  end.
Definition listing (dir : list bytes) : list bytes := default [] (read_dir dir).
Definition subdirs (dir : list bytes) (es : list bytes) : list (list bytes) :=
  (λ n, dir ++ [n]) <$> filter (λ n, is_subdir dir n = true) es.
Definition dir_hits (dir : list bytes) : list SearchHit := listing dir ≫= entry_hits dir.
Definition child (d d' : list bytes) : Prop := d' ∈ subdirs d (listing d).

Lemma subdirs_app dir es1 es2 : subdirs dir (es1 ++ es2) = subdirs dir es1 ++ subdirs dir es2.
Proof. unfold subdirs. by rewrite filter_app, fmap_app. Qed.
Lemma scan_entry dir n es stack hits :
  (length hits < max_hits)%nat →
  scan_entries s needle max_hits root dir (n :: es) stack hits =
  scan_entries s needle max_hits root dir es (rev (subdirs dir [n]) ++ stack) (take max_hits (hits ++ entry_hits dir n)).
Proof.
  intros Hl. cbn [scan_entries]. destruct (Nat.leb_spec max_hits (length hits)) as [Hm|_]; [lia|].
  unfold subdirs, entry_hits. rewrite filter_cons, filter_nil. unfold is_subdir.
  destruct (inodes (st_fs s) !! (dir ++ [n])) as [[| |t]|] eqn:E;
    [|rewrite decide_False by done|rewrite app_nil_r, (take_ge hits) by lia; by rewrite decide_False by done..].
  { rewrite app_nil_r, (take_ge hits) by lia. destruct (is_utf8 n && _); by case_decide. }
  unfold scan_file. by rewrite scan_lines_all by lia.
Qed.
Lemma scan_entries_all dir es stack hits :
  (length hits ≤ max_hits)%nat →
  ∃ stop stack', scan_entries s needle max_hits root dir es stack hits
    = (stop, stack', take max_hits (hits ++ (es ≫= entry_hits dir))) ∧
    if stop then (max_hits ≤ length (hits ++ (es ≫= entry_hits dir)))%nat else stack' = rev (subdirs dir es) ++ stack.
Proof.
  revert stack hits. induction es as [|n es IH]; intros stack hits Hl.
  { exists false, stack. cbn. by rewrite app_nil_r, take_ge. }
  destruct (decide (max_hits ≤ length hits)%nat) as [Hm|Hm].
  { exists true, stack. cbn [scan_entries]. rewrite (proj2 (Nat.leb_le _ _)) by done.
    assert (length hits = max_hits) as <- by lia. rewrite take_app_length, length_app. split; [done|lia]. }
  rewrite scan_entry by lia. cbn [mbind list_bind].
  destruct (IH (rev (subdirs dir [n]) ++ stack) (take max_hits (hits ++ entry_hits dir n))) as (b & st & -> & Hb);
    [rewrite length_take; lia|].
  exists b, st. rewrite take_app_take, <-app_assoc. split; [done|]. destruct b.
  - rewrite length_app, length_take in Hb. rewrite !length_app in *. lia.
  - rewrite Hb. change (n :: es) with ([n] ++ es). by rewrite subdirs_app, rev_app_distr, app_assoc.
Qed.

(** The directories the search pops, in its order. *)
Fixpoint walk_dirs (fuel : nat) (stack : list (list bytes)) : option (list (list bytes)) :=
  match stack with
  | [] => Some []
  | d :: stack =>
      match fuel with
      | O => None
      | S fuel' => cons d <$> walk_dirs fuel' (rev (subdirs d (listing d)) ++ stack)
      end
  end.
Lemma search_loop_all fuel stack ds hits :
  (length hits ≤ max_hits)%nat → walk_dirs fuel stack = Some ds →
  search_loop s read_dir needle max_hits root fuel stack hits = Some (take max_hits (hits ++ (ds ≫= dir_hits))).
Proof.
  revert stack ds hits. induction fuel as [|fuel IH]; intros [|d stack] ds hits Hl; cbn [walk_dirs search_loop]; try done;
    try (intros [= <-]; cbn; by rewrite app_nil_r, take_ge).
  intros (ds' & Hw & ->)%fmap_Some. cbn [mbind list_bind]. unfold dir_hits at 1. unfold listing in *.
  destruct (read_dir d) as [es|]; cbn [default] in *; [|by apply IH].
  destruct (scan_entries_all d es stack hits Hl) as (b & st & -> & Hb). destruct b.
  - f_equal. rewrite app_assoc, (take_app_le (hits ++ _)) by done. done.
  - subst st. rewrite (IH _ ds'); [|rewrite length_take; lia|done]. by rewrite take_app_take, <-app_assoc.
Qed.
Lemma walk_dirs_reach fuel stack ds d :
  walk_dirs fuel stack = Some ds → d ∈ ds ↔ ∃ d0, d0 ∈ stack ∧ rtc child d0 d.
Proof.
  revert stack ds. induction fuel as [|fuel IH]; intros [|x stack] ds; cbn [walk_dirs]; try done;
    try (intros [= <-]; set_solver).
  intros (ds' & Hw & ->)%fmap_Some. rewrite elem_of_cons, (IH _ _ Hw). split.
  - intros [->|(d0 & H0 & Hr)]; [by exists x; split; [left|]|]. rewrite elem_of_app, elem_of_rev in H0.
    destruct H0 as [H0|H0]; [exists x; split; [by left|by eapply rtc_l]|exists d0; split; [by right|done]].
  - intros (d0 & [->|H0]%elem_of_cons & Hr).
    + inversion Hr as [|y z ? Hc Hr']; subst; [by left|right]. exists z. split; [|done]. apply elem_of_app. left. by apply elem_of_rev.
    + right. exists d0. split; [|done]. apply elem_of_app. by right.
Qed.

Context (Hread : ∀ d es, read_dir d = Some es → NoDup es).
(** What is on the stack or was popped: every location once, and below the root only directories
    whose parent was popped. *)
Definition visiting (stack seen : list (list bytes)) : Prop :=
  NoDup (stack ++ seen) ∧
  ∀ x, x ∈ stack ++ seen → x = root ∨ ∃ d n, x = d ++ [n] ∧ d ∈ seen ∧ root `prefix_of` d ∧ is_Some (inodes (st_fs s) !! x).
Lemma visiting_fuel stack seen : visiting stack seen → (length stack + length seen ≤ S (size (inodes (st_fs s))))%nat.
Proof.
  intros [Hnd Hall]. rewrite <-length_app, <-size_dom.
  change (S (size (dom (inodes (st_fs s))))) with (length (root :: elements (dom (inodes (st_fs s))))).
  apply submseteq_length, NoDup_submseteq; [done|]. intros x [->|(d & n & _ & _ & _ & Hx)]%Hall; [by left|].
  right. apply elem_of_elements. by apply elem_of_dom.
Qed.
Lemma visiting_pop d stack seen :
  visiting (d :: stack) seen → visiting (rev (subdirs d (listing d)) ++ stack) (d :: seen).
Proof.
  intros [Hnd Hall].
  assert (root `prefix_of` d) as Hroot.
  { destruct (Hall d) as [->|(d' & n & -> & _ & ? & _)]; [by left|done|by apply prefix_app_r]. }
  assert (∀ x, x ∈ subdirs d (listing d) → (x ∉ (d :: stack) ++ seen) ∧ ∃ n, x = d ++ [n] ∧ is_Some (inodes (st_fs s) !! x)) as Hc.
  { intros x (n & -> & [Hn _]%list_elem_of_filter)%list_elem_of_fmap. split.
    - intros [Hbad|(d' & n' & Heq & Hd' & _)]%Hall.
      + apply prefix_length in Hroot. apply (f_equal length) in Hbad. rewrite length_app in Hbad. simpl in Hbad. lia.
      + apply app_inj_tail in Heq as [<- _]. apply NoDup_app in Hnd as (_ & Hdis & _). by apply (Hdis d); [left|].
    - exists n. split; [done|]. unfold is_subdir in Hn. by destruct (inodes _ !! _). }
  assert (NoDup (subdirs d (listing d))) as Hsub.
  { apply (NoDup_fmap_2 _). apply NoDup_filter. unfold listing. destruct (read_dir d) as [es|] eqn:E; [by eapply Hread|apply NoDup_nil_2]. }
  split.
  - rewrite <-Permutation_rev, <-app_assoc. apply NoDup_app. split; [done|]. split.
    + intros x Hx Hin. apply Hc in Hx as [Hx _]. apply Hx. set_solver.
    + by rewrite <-Permutation_middle.
  - intros x. rewrite !elem_of_app, elem_of_rev, elem_of_cons. intros Hx.
    assert (x ∈ subdirs d (listing d) ∨ x ∈ (d :: stack) ++ seen) as [Hs|Hs] by (set_solver).
    + apply Hc in Hs as (_ & n & -> & Hi). right. exists d, n. split; [done|]. split; [by left|done].
    + destruct (Hall _ Hs) as [->|(d' & n & -> & Hd' & Hp & Hi)]; [by left|]. right. exists d', n. split; [done|]. split; [by right|done].
Qed.
Lemma walk_dirs_total fuel stack seen :
  visiting stack seen → (S (size (inodes (st_fs s))) ≤ fuel + length seen)%nat →
  ∃ ds, walk_dirs fuel stack = Some ds ∧ NoDup (ds ++ seen).
Proof.
  revert stack seen. induction fuel as [|fuel IH]; intros [|d stack] seen Hv Hf; cbn [walk_dirs];
    try (exists []; split; [done|exact (proj1 Hv)]).
  - pose proof (visiting_fuel _ _ Hv) as Hlen. simpl in Hlen. lia.
  - destruct (IH _ (d :: seen) (visiting_pop _ _ _ Hv)) as (ds & -> & Hnd); [simpl; lia|].
    exists (d :: ds). split; [done|]. cbn [app]. by rewrite Permutation_middle.
Qed.
End SearchTheorems.

(** The search ends and returns the first [max_hits] hits of all there are: the lines with the
    needle in the files of the directories below the root, each directory read once, with no link
    followed and no git directory entered. *)
Theorem search_exact s read_dir cap needle max_hits root :
  (∀ d es, read_dir d = Some es → NoDup es) →
  canonicalize (st_fs s) (root_path (rc_root cap)) = Ok root →
  ∃ ds, search s read_dir cap needle max_hits =
          Ok (Some (take max_hits (ds ≫= dir_hits s read_dir needle root))) ∧
        NoDup ds ∧ ∀ d, d ∈ ds ↔ rtc (child s read_dir) root d.
Proof.
  intros Hread Hroot. unfold search. rewrite Hroot. cbn [map_err mbind result_bind].
  destruct (walk_dirs_total s read_dir root Hread (S (size (inodes (st_fs s)))) [root] []) as (ds & Hw & Hnd).
  - split; [apply NoDup_singleton|]. intros x Hx. left. set_solver.
  - simpl. lia.
  - exists ds. rewrite (search_loop_all s read_dir needle max_hits root _ _ ds [] (Nat.le_0_l _) Hw).
    split; [done|]. rewrite app_nil_r in Hnd. split; [done|]. intros d. rewrite (walk_dirs_reach _ _ _ _ _ _ Hw). set_solver.
Qed.


(** ** Attribute drivers *)

(** What is written keeps the attributes there were, ends with the neutralizing line and is left
    alone the next time. *)
Theorem neutralized_last existing content :
  neutralized existing = Some content →
  ∃ kept, content = kept ++ NEUTRALIZER ++ [10] ∧ (kept = existing ∨ kept = existing ++ [10]) ∧
    last (lines content) = Some NEUTRALIZER ∧ neutralized content = None.
Proof.
  unfold neutralized at 1. destruct (existsb _ _); [done|]. intros <-%Some_inj.
  set (kept := if negb (str_eq existing []) && negb (ends_with [10] existing) then existing ++ [10] else existing).
  exists kept. split; [done|]. split; [unfold kept; destruct (negb _ && negb _); auto|].
  assert (∃ ps, lines (kept ++ NEUTRALIZER ++ [10]) = ps ++ [NEUTRALIZER]) as [ps Hps].
  { assert (kept = [] ∨ ∃ q, kept = q ++ [10]) as [->|[q ->]].
    - unfold kept, str_eq. case_bool_decide as He; cbn [negb andb]; [by left|]. right.
      destruct (ends_with [10] existing) eqn:Ee; cbn [negb]; [by apply ends_with_one|by exists existing].
    - exists []. by vm_compute.
    - exists (strip_cr <$> split_on 10 q). rewrite app_assoc, lines_ended, <-app_assoc. cbn [app].
      rewrite split_on_sep, fmap_app. f_equal. }
  rewrite Hps, last_snoc. split; [done|]. unfold neutralized. rewrite Hps.
  rewrite (proj2 (existsb_exists _ _)); [done|]. exists NEUTRALIZER.
  split; [apply list_elem_of_In, elem_of_app; right; by left|by vm_compute].
Qed.
Lemma neutralized_last_witness :
  ∃ kept, lit "*.rs diff=rust" ++ [10] ++ NEUTRALIZER ++ [10] = kept ++ NEUTRALIZER ++ [10].
Proof.
  destruct (neutralized_last (lit "*.rs diff=rust") (lit "*.rs diff=rust" ++ [10] ++ NEUTRALIZER ++ [10])
    ltac:(vm_compute; reflexivity)) as (kept & H & _).
  exists kept. exact H.
Defined.

(** The neutralizing line counts wherever it stands, and a later line wins over it in git: an
    attributes file that names a filter after it is left as it is. *)
Theorem neutralizer_not_last :
  let file := NEUTRALIZER ++ [10] ++ lit "*.rs filter=x" ++ [10] in
  neutralized file = None ∧ last (lines file) = Some (lit "*.rs filter=x").
Proof. vm_compute. done. Qed.

(** ** Examples *)

Lemma tree_decided fs :
  map_Forall (λ loc _, loc = [] ∨ is_dir fs (removelast loc) = true) (inodes fs) → tree fs.
Proof.
  intros H loc n x Hx. destruct (H _ _ Hx) as [Hl|Hl]; [by destruct loc|]. rewrite removelast_last in Hl.
  unfold is_dir in Hl. by destruct (inodes fs !! loc) as [[]|].
Qed.
#[local] Transparent MAX_SYMLINKS DEFAULT_MAX_READ.
Definition demo_store : Store :=
  mkStore demo_fs (list_to_map [([lit "w"; lit "src"; lit "a.rs"], lit "fn a()" ++ [10] ++ lit "fn b()")]).
Definition demo_path : ConfinedWritePath := mkWrite demo_root (names [lit "in"; lit "new"; lit "b.rs"]).
Lemma demo_tree : tree (st_fs demo_store).
Proof. apply tree_decided. apply (bool_decide_unpack _). by vm_compute. Qed.
Lemma ascii_splits : splits_at_slash to_ascii_lowercase.
Proof. intros x y. unfold to_ascii_lowercase. by rewrite fmap_app. Qed.

(** A write through a link, into a directory that is created. *)
Example demo_write :
  (λ p, inodes (st_fs (write_file to_ascii_lowercase demo_store (mkWriteCap demo_root) demo_path (lit "x")).2) !! p)
    <$> [[lit "w"; lit "src"; lit "new"]; [lit "w"; lit "src"; lit "new"; lit "b.rs"]; [lit "w"; lit "in"; lit "new"]]
  = [Some Dir; Some File; None].
Proof. by vm_compute. Qed.

Lemma write_file_sound_witness :
  ∃ rc loc, root_path demo_root = abs_path rc ∧ rc `prefix_of` loc ∧
    inodes (st_fs (write_file to_ascii_lowercase demo_store (mkWriteCap demo_root) demo_path (lit "x")).2) !! loc = Some File.
Proof.
  destruct (write_file_sound to_ascii_lowercase demo_store (components (lit "/w")) demo_root (lit "in/new/b.rs")
    demo_path (mkWriteCap demo_root) (lit "x")
    (write_file to_ascii_lowercase demo_store (mkWriteCap demo_root) demo_path (lit "x")).2
    demo_tree demo_cwd_real ascii_splits)
    as (rc & loc & H1 & H2 & _ & H3 & _); [vm_compute; reflexivity..|].
  exists rc, loc. exact (conj H1 (conj H2 H3)).
Defined.

Definition demo_list (d : list bytes) : option (list bytes) :=
  if bool_decide (d = [lit "w"]) then Some [lit "in"; lit "src"; lit "out"]
  else if bool_decide (d = [lit "w"; lit "src"]) then Some [lit "a.rs"] else None.
Lemma demo_list_nodup d es : demo_list d = Some es → NoDup es.
Proof.
  unfold demo_list. repeat case_bool_decide; intros Hd; try done; apply Some_inj in Hd; subst es;
    apply (bool_decide_unpack _); by vm_compute.
Qed.
Lemma search_exact_witness :
  ∃ ds, search demo_store demo_list (mkReadCap demo_root) (lit "fn") 1 =
    Ok (Some (take 1 (ds ≫= dir_hits demo_store demo_list (lit "fn") [lit "w"]))).
Proof.
  destruct (search_exact demo_store demo_list (mkReadCap demo_root) (lit "fn") 1 [lit "w"] demo_list_nodup
    ltac:(vm_compute; reflexivity)) as (ds & Hds & _).
  exists ds. exact Hds.
Defined.
