(* ===== verification/Serde.v ===== *)
(** * JSON values

    The values of [serde_json], a third-party library: a class of the operations the sources use, the
    laws of them that the theorems rely on, and a concrete instance the examples run on. *)

From S2P Require Import Prelude Std Chars Redactor Strings.

Class SerdeJson := {
  Value : Type;
  v_null : Value;
  v_bool : bool → Value;
  v_str : chars → Value;
  v_int : Z → Value;
  v_obj : list (chars * Value) → Value;
  v_arr : list Value → Value;
  v_get : Value → chars → option Value;
  v_as_bool : Value → option bool;
  v_as_str : Value → option chars;
  v_as_i64 : Value → option Z;
  v_as_u64 : Value → option Z;
  v_as_array : Value → option (list Value);
  v_is_null : Value → bool;
  v_to_vec : Value → result chars bytes;
  v_from_slice : bytes → result chars Value }.
(** What the source relies on: the members of an object that was built, and strings. *)
Class SerdeJsonLaws `{J : SerdeJson} : Prop := {
  get_obj fields k : v_get (v_obj fields) k = snd <$> List.find (λ f, str_eq f.1 k) fields;
  str_str s : v_as_str (v_str s) = Some s }.

Definition field `{SerdeJson} (k : string) (v : Value) : chars * Value := (lit k, v).
(** [v["k"]]: [Null] when there is no such member. *)
Definition v_index `{SerdeJson} (v : Value) (k : string) : Value := default v_null (v_get v (lit k)).
(** [to_vec(&v).unwrap_or_default()]. *)
Definition to_vec_or_empty `{SerdeJson} (v : Value) : bytes := match v_to_vec v with Ok b => b | Err _ => [] end.

(** ** A concrete instance *)

Module Demo.
Inductive JV := JNull | JBool (b : bool) | JStr (s : chars) | JInt (n : Z) | JObj (fields : list (chars * JV)) | JArr (l : list JV).
Fixpoint render (v : JV) : bytes :=
  match v with
  | JNull => lit "null"
  | JBool b => lit (if b then "true" else "false")
  | JStr s => [34] ++ to_utf8 s ++ [34]
  | JInt n => dec_i n
  | JObj fs => [123] ++ join_with 44 (List.map (λ f, [34] ++ to_utf8 f.1 ++ [34; 58] ++ render f.2) fs) ++ [125]
  | JArr l => [91] ++ join_with 44 (List.map render l) ++ [93]
  end.
(** Values are parsed by a table: what each body stands for. *)
Definition json (parse : bytes → result chars JV) : SerdeJson := {|
  Value := JV; v_null := JNull; v_bool := JBool; v_str := JStr; v_int := JInt; v_obj := JObj; v_arr := JArr;
  v_get v k := match v with JObj fs => snd <$> List.find (λ f, str_eq f.1 k) fs | _ => None end;
  v_as_bool v := match v with JBool b => Some b | _ => None end;
  v_as_str v := match v with JStr s => Some s | _ => None end;
  v_as_i64 v := match v with JInt n => Some n | _ => None end;
  v_as_u64 v := match v with JInt n => if 0 <=? n then Some n else None | _ => None end;
  v_as_array v := match v with JArr l => Some l | _ => None end;
  v_is_null v := match v with JNull => true | _ => false end;
  v_to_vec v := Ok (render v);
  v_from_slice := parse |}.
Lemma json_laws parse : SerdeJsonLaws (J := json parse).
Proof. split; reflexivity. Qed.
End Demo.
