(* ===== verification/Http.v ===== *)
(** * HTTP clients (crate [crustcore-net]: [transport.rs], [credsource.rs], [github.rs])

    The transport boundary and its replaying client, the credential boundary, and the REST client of
    GitHub over them. The client that opens sockets is the third-party [ureq]: an instance of
    [HttpClient] over a state of its own. A secret is wiped when it is dropped, which is not modelled. *)

From S2P Require Import Prelude Text Std Chars Redactor Strings Types Policy Backend GitHub Serde NetProto.

(** ** The transport *)

Record HttpResponse := mkResponse { hr_status : Z; hr_body : chars }.
Definition resp_is_success (r : HttpResponse) : bool := (200 <=? hr_status r) && (hr_status r <? 300).
Inductive TransportError := TeTimeout | TeConnect (e : chars) | TeIo (e : chars).
Definition transport_error_fmt (e : TransportError) : chars :=
  match e with
  | TeTimeout => lit "request timed out"
  | TeConnect e => lit "connect failed: " ++ e
  | TeIo e => lit "io error: " ++ e
  end.
Definition MAX_BODY_BYTES : Z := MAX_STREAM_BYTES.
Abbreviation Headers := (list (chars * chars)) (only parsing).
(** A client over a state [W]; the middle result of [post_lines] is what [on_line] was given. *)
Class HttpClient (W : Type) := {
  post_lines : chars → Headers → bytes → W → result TransportError HttpResponse * list chars * W;
  http_get : chars → Headers → W → result TransportError HttpResponse * W;
  post_json : chars → Headers → bytes → W → result TransportError HttpResponse * W }.

Record Canned := mkCanned { ca_status : Z; ca_lines : list chars; ca_body : chars }.
Definition canned_streaming (lines : list chars) : Canned := mkCanned 200 lines [].
Definition canned_with_body (status : Z) (body : chars) : Canned := mkCanned status [] body.
Definition bound_body (s : chars) : chars := truncated_chars s (Z.to_nat MAX_BODY_BYTES).
(** The lines that are delivered before the bound is passed. *)
Fixpoint canned_lines (sent : Z) (lines : list chars) : list chars :=
  match lines with
  | [] => []
  | l :: rest =>
      let sent := saturating_add u64_MAX sent (Z.of_nat (byte_length l)) in
      if MAX_BODY_BYTES <? sent then [] else l :: canned_lines sent rest
  end.
Definition replay_next (w : list Canned) : result TransportError Canned * list Canned :=
  match w with
  | c :: rest => (Ok c, rest)
  | [] => (Err (TeIo (lit "replay exhausted")), [])
  end.
Definition replay_body (w : list Canned) : result TransportError HttpResponse * list Canned :=
  let '(r, w) := replay_next w in ((λ c, mkResponse (ca_status c) (bound_body (ca_body c))) <$> r, w).
#[export] Instance ReplayClient : HttpClient (list Canned) := {|
  post_lines _ _ _ w :=
    match replay_next w with
    | (Err e, w) => (Err e, [], w)
    | (Ok c, w) =>
        if resp_is_success (mkResponse (ca_status c) []) then
          (Ok (mkResponse (ca_status c) []), canned_lines 0 (ca_lines c), w)
        else (Ok (mkResponse (ca_status c) (bound_body (ca_body c))), [], w)
    end;
  http_get _ _ w := replay_body w;
  post_json _ _ _ w := replay_body w |}.

(** ** Credentials *)

Inductive AuthStyle := Bearer | XApiKey.
Class CredentialSource (C : Type) := {
  header_for : C → chars → AuthStyle → option (chars * chars);
  bot_token : C → chars → option chars }.
Abbreviation StaticCredentials := (gmap chars chars) (only parsing).
Definition creds_with (c : StaticCredentials) (label key : chars) : StaticCredentials := <[label := key]> c.
#[export] Instance static_credentials : CredentialSource StaticCredentials := {|
  header_for c label style :=
    key ← c !! label;
    Some match style with
         | Bearer => (lit "Authorization", lit "Bearer " ++ key)
         | XApiKey => (lit "x-api-key", key)
         end;
  bot_token c label := c !! label |}.

(** ** GitHub *)

Definition GITHUB_API : chars := lit "https://api.github.com".
Definition GITHUB_API_VERSION : chars := lit "2022-11-28".
Record CreatePrRequest := mkCreatePr {
  cp_repo : chars; cp_head : chars; cp_base : chars; cp_title : chars; cp_body : chars; cp_draft : bool }.
Record PrCreated := mkPrCreated { pc_number : Z; pc_html_url : chars }.
Record CreateCommentRequest := mkCreateComment { cc_repo : chars; cc_issue_number : Z; cc_body : chars }.
Inductive GitHubError :=
| GhUnauthorized | GhNotFound | GhUnprocessable (m : chars) | GhRateLimited | GhServerError (status : Z)
| GhTransport (e : chars) | GhBadResponse (m : chars).
Definition github_error_fmt (e : GitHubError) : chars :=
  match e with
  | GhUnauthorized => lit "unauthorized"
  | GhNotFound => lit "not found"
  | GhUnprocessable m => lit "unprocessable: " ++ m
  | GhRateLimited => lit "rate limited"
  | GhServerError s => lit "server error " ++ dec_u s
  | GhTransport e => lit "transport: " ++ e
  | GhBadResponse m => lit "bad response: " ++ m
  end.
(** [pr_intent_to_create_request]. *)
Definition pr_intent_to_create_request (i : PrIntent) : CreatePrRequest :=
  mkCreatePr (pi_repo i) (pi_head_branch i) (pi_base_branch i) (pi_title i) (pi_body i) (pi_draft i).

(** [s.trim_end_matches('/')]: [Backend.trim_slashes]. *)
Record RestGitHub (C : Type) := mkRestGitHub { rg_base_url : chars; rg_secret_label : chars; rg_creds : C }.
#[global] Arguments mkRestGitHub {C}.
#[global] Arguments rg_base_url {C}.
#[global] Arguments rg_secret_label {C}.
#[global] Arguments rg_creds {C}.
Definition RestGitHub_new {C} (base_url secret_label : chars) (creds : C) : RestGitHub C :=
  mkRestGitHub (trim_slashes base_url) secret_label creds.

Section GitHub.
Context `{J : SerdeJson} {C : Type} `{CredentialSource C} {W : Type} `{HttpClient W}.

Definition github_headers (g : RestGitHub C) : Headers :=
  [(lit "Accept", lit "application/vnd.github+json"); (lit "X-GitHub-Api-Version", GITHUB_API_VERSION);
   (lit "User-Agent", lit "crustcore"); (lit "Content-Type", lit "application/json")] ++
  option_list (header_for (rg_creds g) (rg_secret_label g) Bearer).
Definition create_pull_body (req : CreatePrRequest) : bytes :=
  to_vec_or_empty (v_obj [field "title" (v_str (cp_title req)); field "head" (v_str (cp_head req));
    field "base" (v_str (cp_base req)); field "body" (v_str (cp_body req)); field "draft" (v_bool (cp_draft req))]).
Definition github_map_status (status : Z) (body : chars) : GitHubError :=
  if (status =? 401) || (status =? 403) then
    if contains (to_ascii_lowercase body) (lit "rate limit") then GhRateLimited else GhUnauthorized
  else if status =? 404 then GhNotFound
  else if status =? 422 then
    GhUnprocessable (default (lit "validation failed")
      (match v_from_slice (to_utf8 body) with Ok v => v_as_str (v_index v "message") | Err _ => None end))
  else if status =? 429 then GhRateLimited
  else if in_range 500 599 status then GhServerError status
  else GhUnprocessable (lit "http " ++ dec_u status).
(** The value of a successful response. *)
Definition github_value (r : result TransportError HttpResponse) : result GitHubError Value :=
  match r with
  | Err e => Err (GhTransport (transport_error_fmt e))
  | Ok resp =>
      if negb (resp_is_success resp) then Err (github_map_status (hr_status resp) (hr_body resp))
      else map_err GhBadResponse (v_from_slice (to_utf8 (hr_body resp)))
  end.
Definition create_pull (g : RestGitHub C) (req : CreatePrRequest) (w : W) : result GitHubError PrCreated * W :=
  let '(r, w) := post_json (rg_base_url g ++ lit "/repos/" ++ cp_repo req ++ lit "/pulls") (github_headers g)
                   (create_pull_body req) w in
  (v ← github_value r;
   match v_as_u64 (v_index v "number") with
   | None => Err (GhBadResponse (lit "missing PR number"))
   | Some number => Ok (mkPrCreated number (default [] (v_as_str (v_index v "html_url"))))
   end, w).
Fixpoint check_runs (any_failed : bool) (runs : list Value) : CheckState :=
  match runs with
  | [] => if any_failed then KFailed else KPassed
  | run :: rest =>
      if negb (bool_decide (v_as_str (v_index run "status") = Some (lit "completed"))) then KPending
      else
        let fine := match v_as_str (v_index run "conclusion") with
                    | Some c => one_of ["success"; "neutral"; "skipped"]%string c
                    | None => false
                    end in
        check_runs (any_failed || negb fine) rest
  end.
Definition aggregate_checks (v : Value) : CheckState :=
  match v_as_array (v_index v "check_runs") with
  | None | Some [] => KPending
  | Some runs => check_runs false runs
  end.
Definition check_state (g : RestGitHub C) (repo git_ref : chars) (w : W) : result GitHubError CheckState * W :=
  let '(r, w) := http_get (rg_base_url g ++ lit "/repos/" ++ repo ++ lit "/commits/" ++ git_ref ++ lit "/check-runs")
                   (github_headers g) w in
  (aggregate_checks <$> github_value r, w).
Definition create_comment (g : RestGitHub C) (req : CreateCommentRequest) (w : W) : result GitHubError Z * W :=
  let '(r, w) := post_json (rg_base_url g ++ lit "/repos/" ++ cc_repo req ++ lit "/issues/" ++
                     dec_u (cc_issue_number req) ++ lit "/comments")
                   (github_headers g) (to_vec_or_empty (v_obj [field "body" (v_str (cc_body req))])) w in
  (v ← github_value r;
   match v_as_u64 (v_index v "id") with
   | None => Err (GhBadResponse (lit "missing comment id"))
   | Some id => Ok id
   end, w).
End GitHub.
