(* ===== verification/Task.v ===== *)
(** * Chat-launched tasks (crate [crustcore-daemon], [task.rs])

    One task end to end: the checks of its configuration, its audit log and receipt, the disposable
    worktree, the external worker, the commit, the verify run, the confined push and the draft pull
    request, the completion. The flow is written in a state monad over the host that also collects
    what it does to the outside, in order; [None] is a panic of the thread.

    The pieces it composes are the models of their crates: worktrees, workers, the verify loop, the
    event log, receipts, the pull-request gate, the push checkpoint, the REST client. Parameters: the
    clock, the cancel flag, the environment, the files and processes of the operating system. *)

From S2P Require Import Prelude Text Std Chars Redactor Types Policy Sha256 Strings Path KernelState EventLog.
From S2P Require Import Receipts Sandbox Backend GitHub Worker Worktree Serde Http.

(** ** Configuration *)

Inductive TaskBackend := TbNative | TbCodex | TbClaudeCode | TbCmd (program : chars) (args : list chars).
Record PrTarget := mkPrTarget {
  pt_repo : string; pt_base_branch : string; pt_branch_prefix : string; pt_credential_file : list Component }.
Record TaskSpec := mkTaskSpec {
  tk_repo_root : list Component; tk_verify : list chars; tk_backend : TaskBackend; tk_pr : option PrTarget }.

Definition slug_segment (s : chars) : bool :=
  negb (str_eq s []) && negb (one_of ["."; ".."]%string s) &&
  forallb (λ c, is_digit c || in_range 65 90 c || in_range 97 122 c || (c =? 46) || (c =? 95) || (c =? 45)) s.
Definition valid_repo_slug (repo : chars) : bool :=
  if str_eq repo [] || (200 <? Z.of_nat (byte_length repo)) then false
  else
    match split_once 47 repo with
    | None => false
    | Some (owner, name) => negb (existsb (Z.eqb 47) name) && slug_segment owner && slug_segment name
    end.
(** [byte.is_ascii_graphic()] but for the characters git reserves. *)
Definition branch_char (c : Z) : bool :=
  in_range 33 126 c && negb (existsb (Z.eqb c) [126; 94; 58; 63; 42; 91; 92]).
Definition branch_segment (s : chars) : bool :=
  negb (str_eq s []) && negb (one_of ["."; ".."]%string s) && negb (ends_with (lit ".lock") s) && forallb branch_char s.
Definition valid_git_branch (branch : chars) : bool :=
  negb (str_eq branch []) && (Z.of_nat (byte_length branch) <=? 255) && negb (str_eq branch (lit "@")) &&
  negb (starts_with [47] branch || starts_with [46] branch) && negb (ends_with [47] branch || ends_with [46] branch) &&
  negb (contains branch (lit "..")) && negb (contains branch (lit "//")) && negb (contains branch (lit "@{")) &&
  forallb branch_segment (split_on 47 branch).
Definition validate_pr_target (t : PrTarget) : result chars unit :=
  if negb (valid_repo_slug (text_chars (pt_repo t))) then Err (lit "PR repo must be a safe owner/name GitHub slug")
  else if negb (valid_git_branch (text_chars (pt_base_branch t))) then Err (lit "PR base must be a valid Git branch name")
  else if negb (valid_git_branch (trim_slashes (text_chars (pt_branch_prefix t)) ++ lit "/probe")) then
    Err (lit "PR branch prefix must be a valid Git branch prefix")
  else Ok tt.

Definition MAX_VERIFY_TAIL : nat := 1500.
Definition bound_tail (s : chars) : chars :=
  let s := trim s in
  if (byte_length s <=? MAX_VERIFY_TAIL)%nat then s else truncated_chars s MAX_VERIFY_TAIL ++ uni "… (truncated)".
Definition backend_for (b : TaskBackend) : CodingBackend :=
  match b with
  | TbCodex => CodexBackend
  | TbClaudeCode => ClaudeCodeBackend
  | TbCmd p a => ExternalCommandBackend p a
  | TbNative => ExternalCommandBackend (lit "true") []
  end.
(** The wall clock in milliseconds above the process and the counter. *)
Definition task_id_of (now pid counter : Z) : Z := Z.lor (Z.shiftl now 64) (Z.lor (Z.shiftl pid 32) counter).

(** ** The host *)

Inductive FsOp :=
| RemoveDirAll (p : chars) | CreateDir (p : chars) (mode : Z) | CurrentExe | MakeSymlink (target : bytes) (link : chars)
| CreateNew (p : chars) (mode : Z) | WriteAll (p : chars) (data : bytes) | SyncAll (p : chars).
Record FileMeta := mkFileMeta { fm_symlink : bool; fm_is_file : bool; fm_len : Z; fm_mode : Z }.
Record TrustedGit := mkTrusted { tg_dir : list Component; tg_env : list (string * string); tg_args : list chars }.
Record GitOutput := mkGitOutput { go_success : bool; go_stdout : bytes; go_stderr : bytes }.
Class TaskHost (W : Type) := {
  process_id : Z;
  env_var : string → option (list Component);
  temp_dir : list Component;
  clock : W → Z * W;
  fetch_task_id : W → Z * W;
  cancel_flag : W → bool * W;
  load_or_create : list Component → W → result chars bytes * W;
  write_atomic : list Component → bytes → W → result chars unit * W;
  command_output : TrustedGit → W → result chars GitOutput * W;
  file_op : FsOp → W → result chars bytes * W;
  file_metadata : list Component → W → result chars FileMeta * W;
  file_read : list Component → W → result chars bytes * W;
  git_spawn : GitCommand → option bytes → Store → result chars GitExit * Store;
  store_of : W → Store;
  with_store : Store → W → W;
  (** The texts of errors of the operating system, and [{:?}] of a string. *)
  os_error : FsError → chars;
  path_io_error : IoReason → chars;
  debug_str : chars → chars }.

(** What a task does to the outside. *)
Inductive TaskEffect :=
| Said (line : chars)
| Persisted (path : list Component) (log : bytes) (ok : bool)
| WorktreeMade (root : WorktreeRoot)
| WorktreeRemoved (root : WorktreeRoot)
| WorkerRan (ok : bool)
| VerifyRan (o : VerifyOutcome)
| GitRan (c : TrustedGit) (ok : bool)
| FsDid (op : FsOp) (ok : bool)
| PullAsked (req : CreatePrRequest) (r : result GitHubError PrCreated).
Definition TM (W A : Type) : Type := W → option A * list TaskEffect * W.
#[export] Instance TM_ret W : MRet (TM W) := λ A a w, (Some a, [], w).
#[export] Instance TM_bind W : MBind (TM W) := λ A B f m w,
  match m w with
  | (None, tr, w) => (None, tr, w)
  | (Some a, tr, w) => let '(b, tr', w) := f a w in (b, tr ++ tr', w)
  end.

Section Task.
Context {W : Type} {TH : TaskHost W} {R : Runner W} {WH : WorkerHost W} {HC : HttpClient W}.
Context `{J : SerdeJson} `{HS : Hash} `{MC : Mac} (host : Host) (hostile : bool).

Definition lift {A} (f : W → A * W) : TM W A := λ w, let '(a, w) := f w in (Some a, [], w).
Definition emit (e : TaskEffect) : TM W unit := λ w, (Some tt, [e], w).
Definition on_store {A} (f : Store → A * Store) : TM W A :=
  lift (λ w, let '(a, s) := f (store_of w) in (a, with_store s w)).
Definition or_panic {A} (f : W → option (A * W)) : TM W A := λ w,
  match f w with Some (a, w) => (Some a, [], w) | None => (None, [], w) end.
Definition tell (line : chars) : TM W unit := emit (Said line).
Definition now_ts : TM W Z := lift clock.

(** ** The audit log *)

Definition task_state_root : list Component :=
  match env_var "CRUSTCORE_STATE" with
  | Some p => p
  | None =>
      match env_var "XDG_STATE_HOME" with
      | Some p => join p [Normal (lit "crustcore")]
      | None =>
          match env_var "HOME" with
          | Some p => join p [Normal (lit ".local"); Normal (lit "state"); Normal (lit "crustcore")]
          | None => join temp_dir [Normal (lit "crustcore-state")]
          end
      end
  end.
Definition next_task_id : TM W Z :=
  counter ← lift fetch_task_id; now ← now_ts; mret (task_id_of now process_id counter).
Record TaskAudit := mkAudit { au_log : EventLog; au_path : list Component }.
Definition TaskAudit_new (task : Z) : TaskAudit :=
  mkAudit EventLog_new
    (join task_state_root [Normal (lit "runs"); Normal (lit "task-" ++ hex_digits 32 task ++ lit ".cclog")]).
Definition audit_append (a : TaskAudit) (seq : Z) (kind : EventKind) (task : Z) (job : option Z) (payload : bytes)
  : TM W TaskAudit :=
  now ← now_ts;
  let meta := meta_task (meta_timestamp (meta_visibility (meta_actor (FrameMeta_new seq kind) AAdapter) Internal) now) task in
  let meta := match job with Some j => meta_job meta j | None => meta end in
  mret (mkAudit (append (au_log a) meta payload).1 (au_path a)).
(** [EventLog::store_atomic]: the write itself, through a temporary file, is the host's. *)
Definition store_atomic (a : TaskAudit) : TM W (result chars unit) :=
  if negb (is_intact (verify (log_bytes (au_log a)))) then
    mret (Err (lit "refusing to persist a broken event log"))
  else
    r ← lift (write_atomic (au_path a) (log_bytes (au_log a)));
    _ ← emit (Persisted (au_path a) (log_bytes (au_log a)) (is_ok r));
    mret r.

(** ** The token and its helper *)

Definition read_owner_only_token (path : list Component) : TM W (result chars chars) :=
  meta ← lift (file_metadata path);
  match meta with
  | Err e => mret (Err (lit "cannot inspect GitHub token file: " ++ e))
  | Ok meta =>
      if fm_symlink meta || negb (fm_is_file meta) || (16 * 1024 <? fm_len meta) then
        mret (Err (lit "GitHub token file must be a small regular file, not a symlink"))
      else if negb (Z.land (fm_mode meta) 63 =? 0) then
        mret (Err (lit "GitHub token file permissions must be owner-only (0600)"))
      else
        bs ← lift (file_read path);
        match bs with
        | Err e => mret (Err (lit "cannot read GitHub token file: " ++ e))
        | Ok bs =>
            if negb (is_utf8 bs) then mret (Err (lit "GitHub token file is not valid UTF-8"))
            else
              let text := chars_of bs in
              let token := match strip_suffix [13; 10] text with
                           | Some t => t
                           | None => default text (strip_suffix [10] text)
                           end in
              if str_eq token [] || negb (str_eq (trim token) token) || existsb (λ c, (c =? 13) || (c =? 10)) token
              then mret (Err (lit "GitHub token file must contain exactly one non-empty token"))
              else mret (Ok token)
        end
  end.
Record CredentialHelperLease := mkLease { cl_dir : chars; cl_helper_command : chars }.
Definition fs_op (op : FsOp) : TM W (result chars bytes) :=
  r ← lift (file_op op); _ ← emit (FsDid op (is_ok r)); mret r.
Definition lease_dir (task : Z) : chars :=
  lit "/tmp/crustcore-credential-" ++ dec_u process_id ++ lit "-" ++ hex_digits 32 task.
(** [file.write_all] and [file.sync_all] of the configuration. *)
Definition lease_write (dir config helper repo token : chars) : TM W (result chars CredentialHelperLease) :=
  r ← fs_op (CreateNew config 384);
  match r with
  | Err e => mret (Err (lit "cannot create credential config: " ++ e))
  | Ok _ =>
      r ← fs_op (WriteAll config (to_utf8 (lit "CCGH1" ++ [10] ++ repo ++ [10] ++ token)));
      match r with
      | Err e => mret (Err (lit "cannot write credential config: " ++ e))
      | Ok _ =>
          r ← fs_op (SyncAll config);
          match r with
          | Err e => mret (Err (lit "cannot sync credential config: " ++ e))
          | Ok _ => mret (Ok (mkLease dir (helper ++ lit " credential-helper " ++ config)))
          end
      end
  end.
Definition lease_create (task : Z) (repo token : chars) : TM W (result chars CredentialHelperLease) :=
  let dir := lease_dir task in
  _ ← fs_op (RemoveDirAll dir);
  r ← fs_op (CreateDir dir 448);
  match r with
  | Err e => mret (Err (lit "cannot create credential-helper dir: " ++ e))
  | Ok _ =>
      let helper := dir ++ lit "/helper" in
      exe ← fs_op CurrentExe;
      match exe with
      | Err e => mret (Err (lit "cannot locate daemon executable: " ++ e))
      | Ok exe =>
          r ← fs_op (MakeSymlink exe helper);
          match r with
          | Err e => mret (Err (lit "cannot link credential helper: " ++ e))
          | Ok _ => lease_write dir (dir ++ lit "/config") helper repo token
          end
      end
  end.
Definition lease_drop (l : CredentialHelperLease) : TM W unit := _ ← fs_op (RemoveDirAll (cl_dir l)); mret tt.

(** ** The commit and the push *)

Definition TRUSTED_ENV : list (string * string) :=
  [("PATH", "/usr/bin:/bin:/usr/sbin:/sbin:/opt/homebrew/bin:/usr/local/bin"); ("HOME", "/dev/null");
   ("GIT_CONFIG_NOSYSTEM", "1"); ("GIT_CONFIG_GLOBAL", "/dev/null"); ("GIT_TERMINAL_PROMPT", "0")].
Definition trusted_git (worktree : WorktreeRoot) (args : list chars) : TM W (result chars GitOutput) :=
  let c := mkTrusted (root_path worktree) TRUSTED_ENV
    ((lit <$> ["-c"; "core.hooksPath=/dev/null"; "-c"; "commit.gpgSign=false"; "-c"; "core.fsmonitor=false"]) ++ args) in
  r ← lift (command_output c);
  _ ← emit (GitRan c (match r with Ok o => go_success o | Err _ => false end));
  mret r.
Definition stderr_tail (o : GitOutput) : chars := bound_tail (chars_of (from_utf8_lossy (go_stderr o))).
Definition prepare_pr_commit (worktree : WorktreeRoot) : TM W (result chars PatchRef) :=
  add ← trusted_git worktree (lit <$> ["add"; "-A"; "--"; "."]);
  match add with
  | Err e => mret (Err (lit "cannot stage verified candidate: " ++ e))
  | Ok o =>
      if negb (go_success o) then mret (Err (lit "staging verified candidate failed: " ++ stderr_tail o))
      else
        commit ← trusted_git worktree (lit <$> ["-c"; "user.name=CrustCore"; "-c"; "user.email=crustcore@localhost";
                                                "commit"; "-q"; "-m"; "CrustCore verified candidate"]);
        match commit with
        | Err e => mret (Err (lit "cannot commit candidate: " ++ e))
        | Ok o =>
            if negb (go_success o) then mret (Err (lit "candidate commit failed: " ++ stderr_tail o))
            else
              head ← trusted_git worktree (lit <$> ["rev-parse"; "HEAD"]);
              match head with
              | Err e => mret (Err (lit "cannot resolve candidate commit: " ++ e))
              | Ok o =>
                  if negb (go_success o) then mret (Err (lit "cannot resolve candidate commit"))
                  else mret (Ok (mkPatchRef (sha256 (go_stdout o))))
              end
        end
  end.
Definition push_refspec (intent : PrIntent) : chars := lit "HEAD:refs/heads/" ++ pi_head_branch intent.
Definition push_denied_debug (d : PushDenied) : chars :=
  match d with
  | PDHost h => lit "Host(" ++ debug_str h ++ lit ")"
  | PDRepoMismatch r a => lit "RepoMismatch { requested: " ++ debug_str r ++ lit ", allowed: " ++ debug_str a ++ lit " }"
  | PDForcePush => lit "ForcePush"
  | PDProtectedBranch b => lit "ProtectedBranch(" ++ debug_str b ++ lit ")"
  | PDBranchOutsidePrefix b => lit "BranchOutsidePrefix(" ++ debug_str b ++ lit ")"
  end.
(** The push with the helper, and the request for the draft. *)
Definition push_with (helper : CredentialHelperLease) (token : chars) (intent : PrIntent) (worktree : WorktreeRoot)
    (target : PrTarget) : TM W (result chars PrCreated) :=
  let remote := lit "https://github.com/" ++ text_chars (pt_repo target) ++ lit ".git" in
  pushed ← trusted_git worktree
    (confining_git_config (cl_helper_command helper) ++
     [lit "push"; lit "--porcelain"; lit "--"; remote; push_refspec intent]);
  match pushed with
  | Err e => mret (Err (lit "cannot launch confined git push: " ++ e))
  | Ok o =>
      if negb (go_success o) then mret (Err (lit "git push failed: " ++ stderr_tail o))
      else
        let api := RestGitHub_new GITHUB_API (lit "github") (creds_with ∅ (lit "github") token) in
        let req := pr_intent_to_create_request intent in
        r ← lift (create_pull api req);
        _ ← emit (PullAsked req r);
        mret (map_err (λ e, lit "GitHub draft PR creation failed: " ++ github_error_fmt e) r)
  end.
Definition push_and_create_pr (cap : Approved GitHubWriteCap) (intent : PrIntent) (worktree : WorktreeRoot)
    (target : PrTarget) (task : Z) : TM W (result chars PrCreated) :=
  match validate_push (ap_value cap) (mkPush (text_chars (pt_repo target)) GITHUB_HOST false [push_refspec intent]) with
  | Err e => mret (Err (lit "push policy refused: " ++ push_denied_debug e))
  | Ok _ =>
      token ← read_owner_only_token (pt_credential_file target);
      match token with
      | Err e => mret (Err e)
      | Ok token =>
          lease ← lease_create task (text_chars (pt_repo target)) token;
          match lease with
          | Err e => mret (Err e)
          | Ok helper =>
              r ← push_with helper token intent worktree target;
              _ ← lease_drop helper;
              mret r
          end
      end
  end.
Definition open_draft_pr (cap : Approved GitHubWriteCap) (verified : VerifiedPatch) (spec : TaskSpec)
    (verify_spec : VerifySpec) (worktree : WorktreeRoot) (head_branch : chars) (task : Z) : TM W (result chars chars) :=
  match tk_pr spec with
  | None => mret (Err (lit "PR target disappeared before integration"))
  | Some target =>
      now ← now_ts;
      match open_pr cap verified head_branch (text_chars (pt_base_branch target)) now with
      | Err e => mret (Err (lit "PR policy refused: " ++ integrate_error_display e))
      | Ok intent =>
          created ← push_and_create_pr cap intent worktree target task;
          mret ((λ c, uni "✅ VERIFIED — '" ++ display verify_spec ++ lit "' passed. Draft PR #" ++ dec_u (pc_number c) ++
                   lit " opened: " ++ bound_tail (pc_html_url c)) <$> created)
      end
  end.

(** ** The flow *)

Definition store_is_file (s : Store) (p : list Component) : bool :=
  match canonicalize (st_fs s) p with
  | Ok loc => match inodes (st_fs s) !! loc with Some File => true | _ => false end
  | Err _ => false
  end.
Definition resolve_verify (spec : TaskSpec) : TM W (result chars VerifySpec) :=
  match tk_verify spec with
  | program :: args => mret (Ok (mkVerifySpec program args))
  | [] =>
      found ← on_store (λ s, (detect (λ name, store_is_file s (join (tk_repo_root spec) [Normal (to_utf8 name)])), s));
      mret (match found with
            | Some v => Ok v
            | None => Err (lit "no verify command given and none could be detected (no Cargo.toml/package.json/Makefile)")
            end)
  end.
Definition worktree_error_display (e : WorktreeError) : chars :=
  match e with
  | WtGit e => lit "git worktree error: " ++ e
  | WtIo e => lit "worktree io error: " ++ os_error e
  | WtSpawn e => lit "worktree io error: " ++ e
  | WtPath e => lit "worktree path error: " ++ e
  | WtOpen e =>
      lit "worktree path error: " ++
      match e with
      | NullByte => lit "NullByte"
      | AbsoluteNotAllowed => lit "AbsoluteNotAllowed"
      | Escape => lit "Escape"
      | SymlinkEscape => lit "SymlinkEscape"
      | Io e => lit "Io(" ++ debug_str (path_io_error e) ++ lit ")"
      end
  end.
Definition exit_status_debug (s : ExitStatus) : chars :=
  match s with
  | Code c => lit "Code(" ++ dec_i c ++ lit ")"
  | Signal s => lit "Signal(" ++ dec_i s ++ lit ")"
  | ETimedOut => lit "TimedOut"
  end.

(** What the stages after the worktree share. *)
Record Run := mkRun {
  ru_spec : TaskSpec; ru_goal : chars; ru_pr_cap : option (Approved GitHubWriteCap); ru_verify : VerifySpec;
  ru_task : Z; ru_key : bytes; ru_manager : WorktreeManager; ru_worktree : WorktreeRoot }.
Definition run_job (r : Run) : option Z := Some (ru_task r).
Definition task_profile : SandboxProfile := default_sandboxed.
Definition task_cap : option SandboxExecCap :=
  match authorize_reversible (mkPolicy Supervised) 1 with
  | Ok issuer => Some (sandbox_exec issuer (sp_id task_profile))
  | Err _ => None
  end.
(** [let _ = manager.remove(&worktree)]. *)
Definition teardown (r : Run) : TM W unit :=
  _ ← on_store (remove_worktree git_spawn (ru_manager r) (ru_worktree r)); emit (WorktreeRemoved (ru_worktree r)).
(** A run that ends early: the log is persisted, the worktree removed. *)
Definition abandon (r : Run) (a : TaskAudit) (msg : chars) : TM W chars :=
  _ ← store_atomic a; _ ← teardown r; mret msg.

(** What a passing run is turned into; [Err] leaves the function at once, before the teardown. *)
Definition frame_refs (a : TaskAudit) : list FrameRef :=
  (λ d, mkFrameRef (f_seq (d_frame d)) (bool_decide (f_kind (d_frame d) = ToolCallCompleted))
          (f_task_id (d_frame d)) (f_job_id (d_frame d))) <$> iter (log_bytes (au_log a)).
Definition complete_plain (r : Run) (a : TaskAudit) (verified : VerifiedPatch) : TM W (result chars chars) :=
  a ← audit_append a 8 TaskCompleted (ru_task r) None (lit "task completed");
  stored ← store_atomic a;
  match stored with
  | Err e => mret (Err (uni "⛔ audit persistence failed; task not completed: " ++ e))
  | Ok _ =>
      let _ := complete_task verified in
      mret (Ok (uni "✅ VERIFIED — '" ++ display (ru_verify r) ++ lit "' passed; task completed."))
  end.
Definition complete_with_pr (r : Run) (a : TaskAudit) (verified : VerifiedPatch) (cap : Approved GitHubWriteCap)
    (branch : option chars) : TM W (result chars chars) :=
  branch ← or_panic (λ w, b ← branch; Some (b, w));
  opened ← open_draft_pr cap verified (ru_spec r) (ru_verify r) (ru_worktree r) branch (ru_task r);
  match opened with
  | Ok message =>
      a ← audit_append a 8 GitHubOperationCompleted (ru_task r) (run_job r) (lit "draft PR opened");
      a ← audit_append a 9 TaskCompleted (ru_task r) None (lit "task completed");
      stored ← store_atomic a;
      mret (Ok (match stored with
                | Err e => uni "⛔ draft PR opened but final audit persistence failed: " ++ e
                | Ok _ => message
                end))
  | Err e =>
      a ← audit_append a 8 TaskFailed (ru_task r) None (lit "integration failed");
      _ ← store_atomic a;
      mret (Ok (uni "⛔ verified, but draft PR integration failed: " ++ e))
  end.
Definition on_verified (r : Run) (a : TaskAudit) (receipts : ReceiptChain) (verified : VerifiedPatch)
    (branch : option chars) : TM W (result chars chars) :=
  let receipt := v_receipt verified in
  a ← audit_append a 6 ToolCallCompleted (ru_task r) (run_job r) (receipt_to_bytes receipt);
  a ← audit_append a 7 PatchVerified (ru_task r) (run_job r) (lit "patch verified");
  if negb (receipt_is_intact (receipt_verify receipts [receipt])) ||
     negb (is_joined (verify_against_log [receipt] (frame_refs a))) then
    _ ← teardown r; mret (Err (uni "⛔ audit receipt/event-log join failed; task not completed."))
  else
    stored ← store_atomic a;
    match stored with
    | Err e => _ ← teardown r; mret (Err (uni "⛔ audit persistence failed; task not completed: " ++ e))
    | Ok _ =>
        match ru_pr_cap r with
        | Some cap => complete_with_pr r a verified cap branch
        | None => complete_plain r a verified
        end
    end.
Definition on_outcome (r : Run) (a : TaskAudit) (receipts : ReceiptChain) (o : VerifyOutcome) (branch : option chars)
  : TM W (result chars chars) :=
  match o with
  | OVerified verified => on_verified r a receipts verified branch
  | OFailed status output =>
      a ← audit_append a 6 CommandCompleted (ru_task r) (run_job r) (lit "verify failed");
      a ← audit_append a 7 PatchRejected (ru_task r) (run_job r) (lit "patch rejected");
      a ← audit_append a 8 TaskFailed (ru_task r) None (lit "task failed");
      _ ← store_atomic a;
      mret (Ok (uni "❌ VERIFY FAILED (" ++ exit_status_debug status ++ lit "): " ++ bound_tail (chars_of output)))
  | ORefused reason =>
      a ← audit_append a 6 TaskFailed (ru_task r) None (lit "verify refused");
      _ ← store_atomic a;
      mret (Ok (uni "⛔ VERIFY REFUSED: " ++ bound_tail reason))
  end.
Definition verify_stage (r : Run) (cap : SandboxExecCap) (a : TaskAudit) (patch : PatchRef) (branch : option chars)
  : TM W chars :=
  _ ← tell (uni "🔬 verifying: " ++ display (ru_verify r) ++ uni "…");
  a ← audit_append a 4 PatchProposed (ru_task r) (run_job r) (lit "patch proposed");
  a ← audit_append a 5 ToolCallStarted (ru_task r) (run_job r) (lit "verify started");
  now ← now_ts;
  let ids := mkIds (ru_task r) (ru_task r) 1 6 now in
  '(outcome, receipts) ← lift (run_verify host hostile cap task_profile (Worker.path_text (root_path (ru_worktree r)))
                                 (ru_verify r) patch (ReceiptChain_new (ru_key r)) ids);
  _ ← emit (VerifyRan outcome);
  summary ← on_outcome r a receipts outcome branch;
  match summary with
  | Err returned => mret returned
  | Ok summary => _ ← teardown r; mret summary
  end.
Definition commit_stage (r : Run) (cap : SandboxExecCap) (a : TaskAudit) (patch : PatchRef) : TM W chars :=
  let verify_or_cancel patch branch :=
    cancelled ← lift cancel_flag;
    if cancelled : bool then
      a ← audit_append a 4 PatchProposed (ru_task r) (run_job r) (lit "patch proposed");
      a ← audit_append a 5 TaskKilled (ru_task r) None (lit "task cancelled");
      abandon r a (uni "⛔ CANCELLED before verify.")
    else verify_stage r cap a patch branch in
  match ru_pr_cap r with
  | None => verify_or_cancel patch None
  | Some pr_cap =>
      let branch := text_chars (gh_branch_prefix (ap_value pr_cap)) ++ lit "/chat-" ++ hex_digits 32 (ru_task r) in
      committed ← prepare_pr_commit (ru_worktree r);
      match committed with
      | Ok patch => verify_or_cancel patch (Some branch)
      | Err e =>
          a ← audit_append a 4 TaskFailed (ru_task r) (run_job r) (lit "commit failed");
          abandon r a (uni "⛔ PR candidate preparation failed: " ++ e)
      end
  end.
Definition candidate_stage (r : Run) (cap : SandboxExecCap) (a : TaskAudit) : TM W chars :=
  match tk_backend (ru_spec r) with
  | TbNative =>
      head ← on_store (head_commit git_spawn (ru_worktree r));
      commit_stage r cap a (mkPatchRef (sha256 (to_utf8 (match head with Ok h => h | Err _ => [] end))))
  | _ =>
      _ ← tell (uni "🛠️ running worker (sandboxed)…");
      product ← or_panic (run_external_worker host hostile cap task_profile (backend_for (tk_backend (ru_spec r)))
                            (for_task (ru_task r) (ru_goal r) (ru_worktree r)) (ru_worktree r));
      _ ← emit (WorkerRan (is_ok product));
      match product with
      | Ok product => commit_stage r cap a (up_patch (wp_patch product))
      | Err e =>
          a ← audit_append a 4 TaskFailed (ru_task r) (run_job r) (lit "task failed");
          abandon r a (uni "❌ WORKER REJECTED: " ++ bound_tail (worker_error_display e))
      end
  end.
Definition leased_stage (r : Run) (a : TaskAudit) : TM W chars :=
  a ← audit_append a 3 JobLeased (ru_task r) (run_job r) (lit "job leased");
  _ ← tell (uni "📂 worktree ready…");
  cap ← or_panic (λ w, c ← task_cap; Some (c, w));
  cancelled ← lift cancel_flag;
  if cancelled : bool then
    a ← audit_append a 4 TaskKilled (ru_task r) None (lit "task cancelled");
    abandon r a (uni "⛔ CANCELLED before work started.")
  else candidate_stage r cap a.
(** [WorktreeManager::new]. *)
Definition task_manager (spec : TaskSpec) : WorktreeManager :=
  mkManager (tk_repo_root spec) (join temp_dir [Normal (lit "crustcore-worktrees")]).
Definition start_stage (spec : TaskSpec) (goal : chars) (pr_cap : option (Approved GitHubWriteCap)) (v : VerifySpec)
  : TM W chars :=
  task ← next_task_id;
  a ← audit_append (TaskAudit_new task) 1 TaskCreated task None (lit "task created");
  a ← audit_append a 2 JobQueued task (Some task) (lit "job queued");
  key ← lift (load_or_create (join task_state_root [Normal (lit "receipt.key")]));
  match key with
  | Err e => mret (uni "⛔ receipt key unavailable: " ++ e)
  | Ok key =>
      worktree ← on_store (create_for git_spawn (task_manager spec) task);
      match worktree with
      | Err e =>
          a ← audit_append a 3 TaskFailed task None (lit "task failed");
          _ ← store_atomic a;
          mret (uni "❌ could not create worktree: " ++ worktree_error_display e)
      | Ok worktree =>
          _ ← emit (WorktreeMade worktree);
          leased_stage (mkRun spec goal pr_cap v task key (task_manager spec) worktree) a
      end
  end.
Definition run_one_task (spec : TaskSpec) (goal : chars) (pr_cap : option (Approved GitHubWriteCap)) : TM W chars :=
  v ← resolve_verify spec;
  match v with
  | Err e => mret (uni "⛔ " ++ e)
  | Ok v =>
      let native := match tk_backend spec with TbNative => true | _ => false end in
      if native && negb (str_eq (trim goal) []) then
        mret (uni "⛔ native is verify-only; configure codex, claude, or cmd for coding tasks.")
      else
        match tk_pr spec with
        | Some target =>
            match validate_pr_target target with
            | Err e => mret (uni "⛔ invalid PR configuration: " ++ e)
            | Ok _ => start_stage spec goal pr_cap v
            end
        | None => start_stage spec goal pr_cap v
        end
  end.
End Task.
