(* ===== verification/TaskTheorems.v ===== *)
(** * Chat-launched tasks: theorems

    A task refines a protocol of what it does to the outside: a small machine over its effects, in
    which a completed task is logged only after a verified patch, a pull request is asked for only with
    an approval and after the verification is on disk, and the worktree goes last. *)

From S2P Require Import Prelude Text Std Chars Redactor Types Policy Sha256 Strings Path KernelState EventLog EventLogProps.
From S2P Require Import EventLogTheorems Receipts ReceiptsTheorems Sandbox Backend GitHub Worker Worktree Serde Http Task.

(** ** Runs of the monad, backwards *)

(** A computation can give this result and these effects, from some state. *)
Definition does {W A} (m : TM W A) (a : option A) (tr : list TaskEffect) : Prop := ∃ w w', m w = (a, tr, w').

Section Does.
Context {W : Type}.

Lemma does_bind {A B} (m : TM W A) (f : A → TM W B) b tr :
  does (m ≫= f) b tr →
  (∃ a t1 t2, does m (Some a) t1 ∧ does (f a) b t2 ∧ tr = t1 ++ t2) ∨ b = None ∧ does m None tr.
Proof.
  intros (w & w' & H). unfold mbind, TM_bind in H. destruct (m w) as [[[a|] t1] w1] eqn:Em.
  - destruct (f a w1) as [[b' t2] w2] eqn:Ef. injection H as -> <- ->. left. exists a, t1, t2.
    split; [by exists w, w1|]. split; [by exists w1, w'|done].
  - injection H as <- <- <-. right. split; [done|]. by exists w, w1.
Qed.
Lemma does_ret {A} (a : A) b tr : does (mret a : TM W A) b tr → b = Some a ∧ tr = [].
Proof. intros (w & w' & [= <- <- _]). done. Qed.
Lemma does_lift {A} (f : W → A * W) b tr : does (lift f) b tr → ∃ w, b = Some (f w).1 ∧ tr = [].
Proof. intros (w & w' & H). unfold lift in H. destruct (f w) as [a w1] eqn:E. exists w. rewrite E. by injection H as <- <- _. Qed.
Lemma does_emit e b tr : does (emit e : TM W unit) b tr → b = Some tt ∧ tr = [e].
Proof. intros (w & w' & [= <- <- _]). done. Qed.
Lemma does_or_panic {A} (f : W → option (A * W)) b tr : does (or_panic f) b tr → tr = [].
Proof. intros (w & w' & H). unfold or_panic in H. destruct (f w) as [[a w1]|]; by injection H as _ <- _. Qed.
(** Every run yields a result, and effects of one sort alone. *)
Definition only {A} (P : TaskEffect → Prop) (m : TM W A) : Prop := ∀ a tr, does m a tr → Forall P tr ∧ is_Some a.
Lemma only_ret {A} P (a : A) : only P (mret a : TM W A).
Proof. intros b tr H. apply does_ret in H as [-> ->]. by split. Qed.
Lemma only_lift {A} P (f : W → A * W) : only P (lift f).
Proof. intros b tr H. apply does_lift in H as (w & -> & ->). by split. Qed.
Lemma only_emit (P : TaskEffect → Prop) e : P e → only P (emit e : TM W unit).
Proof. intros He b tr H. apply does_emit in H as [-> ->]. split; [by repeat constructor|done]. Qed.
Lemma only_bind {A B} P (m : TM W A) (f : A → TM W B) : only P m → (∀ a, only P (f a)) → only P (m ≫= f).
Proof.
  intros Hm Hf b tr H. apply does_bind in H as [(a & t1 & t2 & H1 & H2 & ->)|[-> H]]; [|by destruct (Hm _ _ H) as [_ [? ?]]].
  destruct (Hm _ _ H1) as [Ht1 _], (Hf a _ _ H2) as [Ht2 Hb]. split; [by apply Forall_app_2|done].
Qed.
Lemma bind_only {A B} P (m : TM W A) (k : A → TM W B) b tr :
  only P m → does (m ≫= k) b tr → ∃ a t1 t2, tr = t1 ++ t2 ∧ Forall P t1 ∧ does (k a) b t2.
Proof.
  intros Hm H. apply does_bind in H as [(a & t1 & t2 & H1 & H2 & ->)|[-> H]]; [|by destruct (Hm _ _ H) as [_ [? ?]]].
  exists a, t1, t2. split; [done|]. split; [by apply (Hm _ _ H1)|done].
Qed.
End Does.
Ltac only_cases :=
  repeat first
    [ apply only_ret | apply only_lift | apply only_bind; [|intros ?] | case_match
    | match goal with |- only _ (let '_ := ?x in _) => destruct x end ].

(** ** The audit log *)

(** What an entry of the log holds beside its number, its time and its task. *)
Abbreviation Entry := (EventKind * option Z * bytes)%type (only parsing).
Definition entry_rec (task : Z) (i : nat) (e : Entry) (now : Z) : Rec :=
  (mkMeta (Z.of_nat (S i)) now (Some task) e.1.2 AAdapter e.1.1 Internal Clean, e.2).
(** The records of a list of entries, whatever the clock said. *)
Definition records (task : Z) (es : list Entry) (rs : list Rec) : Prop :=
  Forall2 (λ p r, ∃ now, is_uint 64 now ∧ r = entry_rec task p.1 p.2 now) (imap pair es) rs.
Definition entry_ok (e : Entry) : Prop :=
  id_wf e.1.2 ∧ Forall is_byte e.2 ∧ Z.of_nat (length e.2) ≤ u32_MAX.

Section Audit.
Context `{HS : Hash}.

(** These bytes are the log of these entries, which are well typed. *)
Definition logged (task : Z) (es : list Entry) (bs : bytes) : Prop :=
  is_uint 128 task ∧ Forall entry_ok es ∧ Z.of_nat (length es) ≤ 2 ^ 63 ∧ ∃ rs, records task es rs ∧ bs = log_bytes (log_of rs).

Lemma records_nil task : records task [] [].
Proof. constructor. Qed.
Lemma records_snoc task es rs e now :
  records task es rs → is_uint 64 now → records task (es ++ [e]) (rs ++ [entry_rec task (length es) e now]).
Proof.
  intros Hr Hn. unfold records. rewrite imap_app. apply Forall2_app; [exact Hr|]. repeat constructor.
  exists now. cbn. by rewrite Nat.add_0_r.
Qed.
Lemma records_length task es rs : records task es rs → length rs = length es.
Proof. intros H%Forall2_length. by rewrite length_imap in H. Qed.
Lemma records_lookup task es rs i r :
  records task es rs → rs !! i = Some r → ∃ e now, es !! i = Some e ∧ is_uint 64 now ∧ r = entry_rec task i e now.
Proof.
  intros H Hi. destruct (Forall2_lookup_r _ _ _ _ _ H Hi) as (p & Hp & now & Hn & ->).
  rewrite list_lookup_imap in Hp. destruct (es !! i) as [e|] eqn:E; [|done]. injection Hp as <-. by exists e, now.
Qed.
Lemma records_wf task es rs :
  is_uint 128 task → Forall entry_ok es → Z.of_nat (length es) ≤ 2 ^ 63 → records task es rs → Forall record_wf rs.
Proof.
  intros Ht Hes Hlen Hr. apply Forall_lookup. intros i r Hi.
  destruct (records_lookup _ _ _ _ _ Hr Hi) as (e & now & He & Hn & ->).
  rewrite Forall_lookup in Hes. destruct (Hes _ _ He) as (Hj & Hb & Hl).
  apply lookup_lt_Some in He. split; [|done..]. split; cbn; [|done..]. unfold is_uint.
  split; [lia|]. change (2 ^ 64) with 18446744073709551616. change (2 ^ 63) with 9223372036854775808 in Hlen. lia.
Qed.
Lemma seqs_snoc rs r n :
  seqs_above n rs →
  match last rs, n with Some s, _ => m_seq s.1 < m_seq r.1 | None, Some s => s < m_seq r.1 | None, None => True end →
  seqs_above n (rs ++ [r]).
Proof.
  revert n. induction rs as [|x rs IH]; intros n; [by destruct n|]. intros [H1 H2] Hl. split; [done|].
  apply IH; [done|]. destruct rs as [|y rs]; [exact Hl|]. rewrite last_cons_cons in Hl.
  destruct (last (y :: rs)) eqn:E; [exact Hl|by apply last_None in E].
Qed.
Lemma records_seqs task es rs : records task es rs → seqs_above None rs.
Proof.
  revert rs. induction es as [|e es IH] using rev_ind; intros rs Hr.
  { unfold records in Hr. cbn in Hr. by apply Forall2_nil_inv_l in Hr as ->. }
  pose proof (records_length _ _ _ Hr) as Hl. destruct rs as [|r rs _] using rev_ind; [rewrite length_app in Hl; simpl in Hl; lia|].
  assert (records task es rs) as Hrs.
  { unfold records in *. rewrite imap_app in Hr. rewrite !length_app in Hl. simpl in Hl.
    apply Forall2_app_inv in Hr as [? _]; [done|]. rewrite length_imap. lia. }
  apply seqs_snoc; [by apply IH|]. pose proof (records_length _ _ _ Hrs) as Hl'.
  destruct (last rs) as [s|] eqn:Es; [|done]. rewrite last_lookup in Es.
  destruct (records_lookup _ _ _ _ _ Hrs Es) as (? & ? & _ & _ & ->).
  destruct (records_lookup _ _ _ (length rs) r Hr) as (? & ? & _ & _ & ->).
  { rewrite lookup_app_r, Nat.sub_diag by lia. done. }
  cbn. destruct rs; [done|]. simpl in *. lia.
Qed.
(** The log of well-formed entries verifies, with one frame for each. *)
Lemma logged_intact task es bs :
  logged task es bs → EventLog.verify bs = Intact (length es).
Proof.
  intros (Ht & Hes & Hlen & rs & Hr & ->). unfold EventLog.verify, log_of. cbn [log_bytes].
  rewrite (walk_chain rs rs) by eauto using records_wf, records_seqs. cbn [snd]. f_equal. by apply records_length in Hr.
Qed.
(** The kinds of the frames, in order, as a reader finds them. *)
Lemma logged_frames task es bs :
  logged task es bs →
  (λ d, (f_seq (d_frame d), f_kind (d_frame d), f_task_id (d_frame d), f_job_id (d_frame d))) <$> iter bs =
  imap (λ i e, (Z.of_nat (S i), e.1.1, Some task, e.1.2)) es.
Proof.
  intros (Ht & Hes & Hlen & rs & Hr & ->). pose proof (records_wf _ _ _ Ht Hes Hlen Hr) as Hwf. unfold log_of, iter. cbn [log_bytes].
  pose proof (iter_from_chain rs (length (encode_chain GENESIS_PREV_HASH rs)) [] GENESIS_PREV_HASH Hwf GENESIS_length
    (encode_chain_length _ _)) as Hit. cbn [app length] in Hit.
  set (ds := iter_from _ _ _) in *.
  change (λ d : Decoded, _) with ((λ f : EventFrame, (f_seq f, f_kind f, f_task_id f, f_job_id f)) ∘ d_frame).
  rewrite list_fmap_compose, Hit. generalize GENESIS_PREV_HASH. clear Hit ds Hwf.
  intros prev. trans ((λ r : Rec, (m_seq r.1, m_kind r.1, m_task_id r.1, m_job_id r.1)) <$> rs).
  { clear. revert prev. induction rs as [|r rs IH]; intros prev; [done|]. cbn [chain_frames fmap list_fmap fst]. by rewrite IH. }
  apply list_eq. intros i. rewrite list_lookup_fmap, list_lookup_imap. pose proof (records_length _ _ _ Hr) as Hl.
  destruct (rs !! i) as [r|] eqn:Ei.
  - by destruct (records_lookup _ _ _ _ _ Hr Ei) as (e & now & -> & _ & ->).
  - apply lookup_ge_None in Ei. by rewrite (proj2 (lookup_ge_None es i)) by lia.
Qed.
End Audit.

(** ** Reading a run *)

(** The hardened git call: where it runs, its environment, its flags before the arguments. *)
Definition trusted (root : WorktreeRoot) (args : list chars) : TrustedGit :=
  mkTrusted (root_path root) TRUSTED_ENV
    ((lit <$> ["-c"; "core.hooksPath=/dev/null"; "-c"; "commit.gpgSign=false"; "-c"; "core.fsmonitor=false"]) ++ args).

(** What Rust's types give: [u64] milliseconds and counters, a [u32] process id. *)
Class TaskHostLaws (W : Type) `{TH : TaskHost W} : Prop := {
  clock_u64 w : is_uint 64 (clock w).1;
  process_id_u32 : is_uint 32 process_id;
  fetch_u64 w : is_uint 64 (fetch_task_id w).1 }.

Lemma lor_uint n a b : 0 ≤ n → is_uint n a → is_uint n b → is_uint n (Z.lor a b).
Proof.
  intros Hn [Ha Ha'] [Hb Hb']. assert (0 ≤ Z.lor a b) as H0 by (by apply Z.lor_nonneg). split; [done|].
  destruct (Z.eq_dec (Z.lor a b) 0) as [->|Hne]; [by apply Z.pow_pos_nonneg|].
  apply Z.log2_lt_pow2; [lia|]. rewrite Z.log2_lor by done.
  destruct (Z.eq_dec n 0) as [->|Hpos]; [change (2 ^ 0) with 1 in *; assert (a = 0) as -> by lia; assert (b = 0) as -> by lia; done|].
  assert (∀ x, 0 ≤ x → x < 2 ^ n → Z.log2 x < n) as Hlog.
  { intros x Hx Hlt. destruct (Z.eq_dec x 0) as [->|]; [rewrite Z.log2_nonpos; lia|]. apply Z.log2_lt_pow2; lia. }
  apply Z.max_lub_lt; by apply Hlog.
Qed.
Lemma task_id_uint now pid counter :
  is_uint 64 now → is_uint 32 pid → is_uint 64 counter → is_uint 128 (task_id_of now pid counter).
Proof.
  unfold is_uint, task_id_of. intros Hn Hp Hc. rewrite !Z.shiftl_mul_pow2 by lia.
  change (2 ^ 128) with (2 ^ 64 * 2 ^ 64). change (2 ^ 64) with 18446744073709551616 in *. change (2 ^ 32) with 4294967296 in *.
  apply (lor_uint 128); [lia|unfold is_uint; change (2 ^ 128) with (18446744073709551616 * 18446744073709551616); lia|].
  assert (is_uint 64 (Z.lor (pid * 4294967296) counter)) as [H1 H2].
  { apply lor_uint; [lia|unfold is_uint; change (2 ^ 64) with 18446744073709551616; lia|done]. }
  change (2 ^ 64) with 18446744073709551616 in H2. unfold is_uint. change (2 ^ 128) with (18446744073709551616 * 18446744073709551616). lia.
Qed.

Section Reading.
Context {W : Type} {TH : TaskHost W} `{HS : Hash} {B : Type}.
Implicit Types (b : option B) (tr : list TaskEffect).

Lemma bind_lift {A} (f : W → A * W) (k : A → TM W B) b tr : does (lift f ≫= k) b tr → ∃ w, does (k (f w).1) b tr.
Proof.
  intros (w & w' & H). unfold mbind, TM_bind, lift in H. destruct (f w) as [a w1] eqn:E. exists w. rewrite E. cbn.
  destruct (k a w1) as [[b' t] w2] eqn:Ek. exists w1, w2. by injection H as <- <- ->.
Qed.
Lemma bind_emit e (k : unit → TM W B) b tr : does (emit e ≫= k) b tr → ∃ t, tr = e :: t ∧ does (k tt) b t.
Proof.
  intros (w & w' & H). unfold mbind, TM_bind, emit in H. destruct (k tt w) as [[b' t] w2] eqn:Ek. exists t.
  injection H as <- <- ->. split; [done|]. by exists w, w'.
Qed.
Lemma bind_panic {A} (f : W → option (A * W)) (k : A → TM W B) b tr :
  does (or_panic f ≫= k) b tr → b = None ∧ tr = [] ∨ ∃ a w w', f w = Some (a, w') ∧ does (k a) b tr.
Proof.
  intros (w & w' & H). unfold mbind, TM_bind, or_panic in H. destruct (f w) as [[a w1]|] eqn:E.
  - right. destruct (k a w1) as [[b' t] w2] eqn:Ek. injection H as <- <- ->. exists a, w, w1. split; [done|]. by exists w1, w'.
  - left. by injection H as <- <- _.
Qed.
Lemma bind_assoc {A C} (m : TM W A) (f : A → TM W C) (k : C → TM W B) b tr :
  does ((m ≫= f) ≫= k) b tr → does (m ≫= (λ a, f a ≫= k)) b tr.
Proof.
  intros (w & w' & H). exists w, w'. unfold mbind, TM_bind in *. destruct (m w) as [[[a|] t1] w1]; [|done].
  destruct (f a w1) as [[[c|] t2] w2]; [|done]. destruct (k c w2) as [[b' t3] w3]. by rewrite app_assoc.
Qed.
Lemma bind_ret {A} (a : A) (k : A → TM W B) b tr : does (mret a ≫= k) b tr → does (k a) b tr.
Proof.
  intros (w & w' & H). unfold mbind, TM_bind, mret, TM_ret in H. exists w, w'. by destruct (k a w) as [[b' t] w2].
Qed.
Lemma bind_store {A} (f : Store → A * Store) (k : A → TM W B) b tr :
  does (on_store f ≫= k) b tr → ∃ s, does (k (f s).1) b tr.
Proof.
  intros (w & H)%bind_lift. destruct (f (store_of w)) as [a s] eqn:E. exists (store_of w). by rewrite E.
Qed.

(** ** The audit log of a run *)

Definition audited (task : Z) (es : list Entry) (a : TaskAudit) : Prop :=
  (∃ rs, records task es rs ∧ au_log a = log_of rs) ∧ Forall entry_ok es ∧ au_path a = au_path (TaskAudit_new task).
Context {TL : TaskHostLaws W} (task : Z) (task_u128 : is_uint 128 task).

Lemma audited_new : audited task [] (TaskAudit_new task).
Proof. split; [exists []; split; [constructor|done]|split; [constructor|done]]. Qed.
Lemma bind_audit es a seq kind job payload (k : TaskAudit → TM W B) b tr :
  audited task es a → seq = Z.of_nat (S (length es)) → entry_ok (kind, job, payload) →
  does (audit_append a seq kind task job payload ≫= k) b tr →
  ∃ a', audited task (es ++ [(kind, job, payload)]) a' ∧ does (k a') b tr.
Proof.
  intros [(rs & Hr & Ha) [Hes Hpath]] -> Hok H%bind_assoc. apply bind_lift in H as (w & H). apply bind_ret in H.
  eexists. split; [|exact H]. split; [|split; [by apply Forall_app_2; [|constructor]|exact Hpath]].
  exists (rs ++ [entry_rec task (length es) (kind, job, payload) (clock w).1]). split; [apply records_snoc; [done|apply clock_u64]|].
  cbn [au_log]. rewrite Ha, log_append_refines by apply Hok. cbn [fst]. by destruct job.
Qed.
Lemma bind_persist es a (k : result chars unit → TM W B) b tr :
  audited task es a → (length es ≤ 20)%nat → does (store_atomic a ≫= k) b tr →
  ∃ res log t, tr = Persisted (au_path (TaskAudit_new task)) log (is_ok res) :: t ∧ logged task es log ∧ does (k res) b t.
Proof.
  intros [(rs & Hr & Ha) [Hes Hpath]] Hlen H. unfold store_atomic in H. rewrite Hpath in H.
  assert (logged task es (log_bytes (au_log a))) as Hlog by (rewrite Ha; split_and!; [done|done|lia|by exists rs]).
  rewrite (logged_intact task es) in H by done. cbn [is_intact negb] in H.
  apply bind_assoc, bind_lift in H as (w & H). apply bind_assoc, bind_emit in H as (t & -> & H). apply bind_ret in H. by eexists _, _, _.
Qed.
Lemma bind_teardown r (k : unit → TM W B) b tr :
  does (teardown r ≫= k) b tr → ∃ t, tr = WorktreeRemoved (ru_worktree r) :: t ∧ does (k tt) b t.
Proof. intros H%bind_assoc. apply bind_store in H as (s & H). by apply bind_emit in H. Qed.
Lemma bind_fs op (k : result chars bytes → TM W B) b tr :
  does (fs_op op ≫= k) b tr →
  ∃ w t, tr = FsDid op (is_ok (file_op op w).1) :: t ∧ does (k (file_op op w).1) b t.
Proof.
  intros H%bind_assoc. apply bind_lift in H as (w & H). apply bind_assoc, bind_emit in H as (t & -> & H). apply bind_ret in H. by eexists w, _.
Qed.
Lemma bind_git root args (k : result chars GitOutput → TM W B) b tr :
  does (trusted_git root args ≫= k) b tr →
  ∃ res t, tr = GitRan (trusted root args) (match res with Ok o => go_success o | Err _ => false end) :: t ∧ does (k res) b t.
Proof.
  intros H%bind_assoc. apply bind_lift in H as (w & H). apply bind_assoc, bind_emit in H as (t & -> & H). apply bind_ret in H.
  eexists _, t. split; [reflexivity|exact H].
Qed.
(** A computation without effects and without a panic. *)
Lemma bind_silent {A} (m : TM W A) (k : A → TM W B) b tr :
  only (λ _, False) m → does (m ≫= k) b tr → ∃ a, does m (Some a) [] ∧ does (k a) b tr.
Proof.
  intros Hm H. apply does_bind in H as [(a & t1 & t2 & H1 & H2 & ->)|[-> H]]; [|by destruct (Hm _ _ H) as [_ [? ?]]].
  destruct (Hm _ _ H1) as [Ht _]. destruct t1 as [|e t1]; [by exists a|]. by apply Forall_cons in Ht as [[] _].
Qed.
End Reading.

Lemma entry_text_ok k j s : id_wf j → (String.length s ≤ 100)%nat → entry_ok (k, j, lit s).
Proof.
  intros Hj Hs. split; [done|]. split; [apply lit_byte|]. cbn [snd].
  assert (length (lit s) = String.length s) as ->; [|unfold u32_MAX; lia].
  clear. unfold lit. induction s as [|c s IH]; [done|]. cbn. by rewrite <-IH.
Qed.
Ltac reassoc H := repeat match type of H with does ((_ ≫= _) ≫= _) _ _ => apply bind_assoc in H end.
(** The next operation of a run: an entry of the log, or its persistence. *)
Ltac audit H :=
  reassoc H; eapply bind_audit in H as (?a & ?Ha & H);
  [|eassumption|reflexivity|apply entry_text_ok; [first [exact I|assumption]|cbn; lia]].
Ltac persist H :=
  reassoc H; eapply bind_persist in H as (?res & ?log & ?t & -> & ?Hlog & H); [| |eassumption|cbn; lia]; [|eassumption].

(** ** The protocol *)

(** The status the kernel's table gives to a task whose log this is. *)
Definition replay (es : list Entry) : TaskStatus :=
  fold_left (λ st e, match task_next st e.1.1 with TMove s => s | _ => st end) es TCreated.
Definition unfinished (es : list Entry) : Prop :=
  (replay es = TFailed ∨ replay es = TKilled) ∧
  Forall (λ e, e.1.1 ≠ ToolCallCompleted ∧ e.1.1 ≠ PatchVerified ∧ e.1.1 ≠ TaskCompleted) es.

(** A log that ends in failure or in a kill before any verification. *)
Ltac unfinished := (split; [first [by left|by right]|repeat constructor; cbn; congruence]).

Section Protocol.
Context {W : Type} {TH : TaskHost W} {R : Runner W} {WH : WorkerHost W} {HC : HttpClient W}.
Context `{J : SerdeJson} `{HS : Hash} `{MC : Mac} (host : Host) (hostile : bool).
Context (task : Z) (spec : TaskSpec) (cap : option (Approved GitHubWriteCap)) (vspec : VerifySpec) (key : bytes).

Definition entry (k : EventKind) (job : bool) (payload : string) : Entry :=
  (k, if job then Some task else None, lit payload).
Definition opening : list Entry := [entry TaskCreated false "task created"; entry JobQueued true "job queued"].
Definition leased : list Entry := opening ++ [entry JobLeased true "job leased"].
Definition proposed : list Entry :=
  leased ++ [entry PatchProposed true "patch proposed"; entry ToolCallStarted true "verify started"].
Definition verified_log (p : VerifiedPatch) : list Entry :=
  proposed ++ [(ToolCallCompleted, Some task, receipt_to_bytes (v_receipt p)); entry PatchVerified true "patch verified"].

(** A run of the verify loop of this task in that worktree had this outcome. *)
Definition sandbox_cap : SandboxExecCap := mkSandboxExecCap (sp_id task_profile) 1.
Definition ran (root : WorktreeRoot) (o : VerifyOutcome) (receipts : ReceiptChain) : Prop := ∃ patch now w w',
  run_verify host hostile sandbox_cap task_profile (Worker.path_text (root_path root)) vspec patch (ReceiptChain_new key)
    (mkIds task task 1 6 now) w = (o, receipts, w').
(** The patch was minted from a run of the verify command in the sandbox that exited with zero: its
    receipt is the first of a chain under the key of the host, over the very bytes the run wrote. *)
Definition minted (root : WorktreeRoot) (p : VerifiedPatch) : Prop :=
  ∃ w w' result now,
    run_command host hostile (mkSandboxExecCap (sp_id task_profile) 1) task_profile
      (verify_command (Worker.path_text (root_path root)) vspec) w = (Ok result, w') ∧
    is_success result = true ∧
    v_receipt p = (mint (ReceiptChain_new key)
                     (verify_params vspec (mkIds task task 1 6 now) (verify_output result))).2 ∧
    v_verifier p = VerifierName_new (display vspec) ∧ v_commands p = [mkEvidence (v_verifier p) true] ∧ v_passed_at p = now.
(** The intent of the gate for a patch: the approval is live and the head is under its prefix. *)
Definition intended (a : Approved GitHubWriteCap) (target : PrTarget) (p : VerifiedPatch) (i : PrIntent) : Prop :=
  ∃ now head, tk_pr spec = Some target ∧
    open_pr a p head (text_chars (pt_base_branch target)) now = Ok i ∧
    validate_push (ap_value a) (mkPush (text_chars (pt_repo target)) GITHUB_HOST false [push_refspec i]) = Ok tt.

(** What goes outside, command by command: the commit of the candidate, the files of the credential
    helper, the push through it, and the request. *)
Definition commit_argv : list (list chars) :=
  [lit <$> ["add"; "-A"; "--"; "."];
   lit <$> ["-c"; "user.name=CrustCore"; "-c"; "user.email=crustcore@localhost";
            "commit"; "-q"; "-m"; "CrustCore verified candidate"];
   lit <$> ["rev-parse"; "HEAD"]].
Definition commits : nat := match cap with Some _ => length commit_argv | None => 0 end.
Definition the_lease : CredentialHelperLease :=
  mkLease (lease_dir task) ((lease_dir task ++ lit "/helper") ++ lit " credential-helper " ++ lease_dir task ++ lit "/config").
Definition lease_ops (target : PrTarget) (token : chars) (exe : bytes) : list FsOp :=
  [RemoveDirAll (lease_dir task); CreateDir (lease_dir task) 448; CurrentExe;
   MakeSymlink exe (lease_dir task ++ lit "/helper"); CreateNew (lease_dir task ++ lit "/config") 384;
   WriteAll (lease_dir task ++ lit "/config") (to_utf8 (lit "CCGH1" ++ [10] ++ text_chars (pt_repo target) ++ [10] ++ token));
   SyncAll (lease_dir task ++ lit "/config")].
Definition reads (target : PrTarget) (token : chars) : Prop :=
  does (read_owner_only_token (pt_credential_file target) : TM W _) (Some (Ok token)) [].
Definition push_git (root : WorktreeRoot) (i : PrIntent) (target : PrTarget) : TrustedGit :=
  trusted root (confining_git_config (cl_helper_command the_lease) ++
    [lit "push"; lit "--porcelain"; lit "--"; lit "https://github.com/" ++ text_chars (pt_repo target) ++ lit ".git"; push_refspec i]).
Definition asked (token : chars) (req : CreatePrRequest) (r : result GitHubError PrCreated) : Prop :=
  ∃ w : W, r = (create_pull (RestGitHub_new GITHUB_API (lit "github") (creds_with ∅ (lit "github") token)) req w).1.
(** A log of this task is written to the file of this task. *)
Definition wrote (path : list Component) (es : list Entry) (log : bytes) : Prop :=
  path = au_path (TaskAudit_new task) ∧ logged task es log.

Inductive Phase :=
| PStart | PMade (root : WorktreeRoot) | PReady (root : WorktreeRoot) | PWorking (root : WorktreeRoot)
| PCandidate (root : WorktreeRoot) (n : nat) | PVerifying (root : WorktreeRoot) | PAbandoned (root : WorktreeRoot)
| PVerified (root : WorktreeRoot) (p : VerifiedPatch) | PRecorded (root : WorktreeRoot) (p : VerifiedPatch)
| PLeasing (root : WorktreeRoot) (p : VerifiedPatch) (i : PrIntent) (token : chars) (n : nat)
| PPushed (root : WorktreeRoot) (p : VerifiedPatch) (i : PrIntent) (token : chars)
| PReleasing (root : WorktreeRoot) (p : VerifiedPatch) (opened : bool)
| PFailed (root : WorktreeRoot) (p : VerifiedPatch) | POpened (root : WorktreeRoot) (p : VerifiedPatch)
| PClosing (root : WorktreeRoot) | PDone | PLeaked (root : WorktreeRoot).

(** A candidate with [n] commands of its commit done; a native task has one without a worker. *)
Definition candidate (ph : Phase) (root : WorktreeRoot) (n : nat) : Prop :=
  ph = PCandidate root n ∨ tk_backend spec = TbNative ∧ n = 0%nat ∧ ph = PReady root.
(** Operation [n] of the lease comes next. *)
Definition leasing (ph : Phase) (root : WorktreeRoot) (p : VerifiedPatch) (i : PrIntent) (token : chars) (n : nat) : Prop :=
  ph = PLeasing root p i token n ∨ n = 0%nat ∧ ph = PRecorded root p.

Inductive step : Phase → TaskEffect → Phase → Prop :=
| st_no_worktree path log ok es : wrote path es log → unfinished es → step PStart (Persisted path log ok) PDone
| st_made root :
    (∃ s, (create_for git_spawn (task_manager spec) task s).1 = Ok root) → step PStart (WorktreeMade root) (PMade root)
| st_ready root : step (PMade root) (Said (uni "📂 worktree ready…")) (PReady root)
| st_started root :
    tk_backend spec ≠ TbNative → step (PReady root) (Said (uni "🛠️ running worker (sandboxed)…")) (PWorking root)
| st_worker root ok : step (PWorking root) (WorkerRan ok) (if ok then PCandidate root 0 else PAbandoned root)
| st_commit ph root n argv ok :
    is_Some cap → candidate ph root n → commit_argv !! n = Some argv →
    step ph (GitRan (trusted root argv) ok) (if ok then PCandidate root (S n) else PAbandoned root)
| st_verifying ph root :
    candidate ph root commits → step ph (Said (uni "🔬 verifying: " ++ display vspec ++ uni "…")) (PVerifying root)
| st_cancelled_early root path log ok es :
    wrote path es log → unfinished es → step (PReady root) (Persisted path log ok) (PClosing root)
| st_cancelled ph root path log ok es :
    candidate ph root commits → wrote path es log → unfinished es → step ph (Persisted path log ok) (PClosing root)
| st_verdict root o receipts :
    ran root o receipts →
    step (PVerifying root) (VerifyRan o) (match o with OVerified p => PVerified root p | _ => PAbandoned root end)
| st_abandoned root path log ok es :
    wrote path es log → unfinished es → step (PAbandoned root) (Persisted path log ok) (PClosing root)
| st_recorded root p path log ok :
    wrote path (verified_log p) log →
    step (PVerified root p) (Persisted path log ok) (if ok then PRecorded root p else PClosing root)
| st_completed root p path log ok :
    cap = None → wrote path (verified_log p ++ [entry TaskCompleted false "task completed"]) log →
    step (PRecorded root p) (Persisted path log ok) (if ok then PClosing root else PLeaked root)
| st_refused root p path log ok :
    is_Some cap → wrote path (verified_log p ++ [entry TaskFailed false "integration failed"]) log →
    step (PRecorded root p) (Persisted path log ok) (PClosing root)
| st_lease ph root p a target i token exe n op ok :
    cap = Some a → intended a target p i → reads target token → leasing ph root p i token n →
    lease_ops target token exe !! n = Some op → (n = 3%nat → ∃ w, (file_op CurrentExe w).1 = Ok exe) →
    step ph (FsDid op ok) (if ok || (n =? 0)%nat then PLeasing root p i token (S n) else PFailed root p)
| st_pushed root p a target i token ok :
    cap = Some a → intended a target p i → reads target token →
    step (PLeasing root p i token 7) (GitRan (push_git root i target) ok)
      (if ok then PPushed root p i token else PReleasing root p false)
| st_asked root p i token r :
    asked token (pr_intent_to_create_request i) r →
    step (PPushed root p i token) (PullAsked (pr_intent_to_create_request i) r) (PReleasing root p (is_ok r))
| st_released root p opened ok :
    step (PReleasing root p opened) (FsDid (RemoveDirAll (lease_dir task)) ok) (if opened then POpened root p else PFailed root p)
| st_completed_pr root p path log ok :
    wrote path (verified_log p ++ [entry GitHubOperationCompleted true "draft PR opened";
                                   entry TaskCompleted false "task completed"]) log →
    step (POpened root p) (Persisted path log ok) (PClosing root)
| st_failed root p path log ok :
    wrote path (verified_log p ++ [entry TaskFailed false "integration failed"]) log →
    step (PFailed root p) (Persisted path log ok) (PClosing root)
| st_removed root : step (PClosing root) (WorktreeRemoved root) PDone.

Inductive steps : Phase → list TaskEffect → Phase → Prop :=
| steps_nil ph : steps ph [] ph
| steps_cons ph e ph1 tr ph2 : step ph e ph1 → steps ph1 tr ph2 → steps ph (e :: tr) ph2.
(** Where a run may end: in [PDone], or with its worktree left behind; a panic, anywhere. *)
Definition ends (ph : Phase) (m : option chars) (tr : list TaskEffect) : Prop :=
  ∃ ph', steps ph tr ph' ∧ (m ≠ None → ph' = PDone ∨ ∃ root, ph' = PLeaked root).

Lemma ends_step ph e ph1 m tr : step ph e ph1 → ends ph1 m tr → ends ph m (e :: tr).
Proof. intros H (ph' & Hs & Hm). exists ph'. split; [by econstructor|done]. Qed.
Lemma ends_done m : ends PDone m [].
Proof. exists PDone. split; [constructor|by left]. Qed.
Lemma ends_panic ph : ends ph None [].
Proof. exists ph. split; [constructor|done]. Qed.
Hint Resolve ends_done ends_panic : core.

(** ** The receipt of a verified run *)

Context {TL : TaskHostLaws W} (task_u128 : is_uint 128 task).

Lemma receipt_bytes_byte rc : receipt_wf rc → Forall is_byte (receipt_to_bytes rc).
Proof.
  intros Hwf. unfold receipt_to_bytes. repeat apply Forall_app_2; try apply to_le_bytes_byte; try apply lit_byte; try apply Hwf.
  assert (Forall digest (take (length (r_artifact_hashes rc) `min` MAX_RECEIPT_ARTIFACTS) (r_artifact_hashes rc))) as Hd
    by apply Forall_take, Hwf.
  induction Hd as [|h hs [_ Hh] _ IH]; [constructor|]. by apply Forall_app_2.
Qed.
Definition verify_call (now : Z) (result : CommandResult) : ReceiptParams :=
  verify_params vspec (mkIds task task 1 6 now) (verify_output result).
Lemma call_typed now result : params_typed (verify_call now result).
Proof.
  split; [exact task_u128|exact task_u128| |constructor|]; unfold is_uint; cbn; [change (2 ^ 128) with (2 ^ 64 * 2 ^ 64)|];
    change (2 ^ 64) with 18446744073709551616; lia.
Qed.
Lemma mint_one c ps : mint_all c [ps] = ((mint c ps).1, [(mint c ps).2]).
Proof. cbn. by destruct (mint c ps). Qed.
Lemma minted_wf now result : receipt_wf (mint (ReceiptChain_new key) (verify_call now result)).2.
Proof.
  pose proof (mint_wf (ReceiptChain_new key) [verify_call now result] genesis_digest
    ltac:(constructor; [apply call_typed|constructor])) as H.
  rewrite mint_one in H. by apply Forall_cons in H as [H _].
Qed.
Lemma receipt_entry_ok now result p :
  v_receipt p = (mint (ReceiptChain_new key) (verify_call now result)).2 →
  entry_ok (ToolCallCompleted, Some task, receipt_to_bytes (v_receipt p)).
Proof.
  intros ->. pose proof (minted_wf now result) as Hwf. split; [exact task_u128|]. split; [by apply receipt_bytes_byte|].
  cbn [snd]. rewrite length_receipt by done. pose proof (rw_bounded _ Hwf). unfold RECEIPT_FIXED_BYTES, MAX_RECEIPT_ARTIFACTS, u32_MAX in *. lia.
Qed.
(** The receipt of a run always joins the log of the run. *)
Lemma receipt_joins now result p a :
  let call := mint (ReceiptChain_new key) (verify_call now result) in
  v_receipt p = call.2 → audited task (verified_log p) a →
  receipt_is_intact (receipt_verify call.1 [v_receipt p]) = true ∧
  is_joined (verify_against_log [v_receipt p] (frame_refs a)) = true.
Proof.
  cbv zeta. intros Hp [(rs & Hrs & Ha) [Hes _]]. rewrite Hp. split.
  - pose proof (minted_wf now result) as Hwf. pose proof (mint_linked (ReceiptChain_new key) [verify_call now result]) as Hl.
    cbv zeta in Hl. rewrite mint_one in Hl. cbn [fst snd] in Hl. destruct Hl as (Hl & _ & _ & _ & Hk).
    unfold receipt_verify, receipt_walk. rewrite Hk. change (c_key (ReceiptChain_new key)) with key.
    set (rc := (mint (ReceiptChain_new key) (verify_call now result)).2) in *.
    assert (receipt_walk_loop key GENESIS_RECEIPT_HASH 0 [rc] = (RIntact 1, receipts_head GENESIS_RECEIPT_HASH [rc])) as ->; [|done].
    apply receipt_walk_linked; [constructor; [by apply receipt_wf_typed|constructor]|]. done.
  - assert (frame_refs a = (λ x, mkFrameRef x.1.1.1 (bool_decide (x.1.1.2 = ToolCallCompleted)) x.1.2 x.2) <$>
        imap (λ i e, (Z.of_nat (S i), e.1.1, Some task, e.1.2)) (verified_log p)) as Hf.
    { rewrite <-(logged_frames task (verified_log p) (log_bytes (au_log a)));
        [|split_and!; [done|done|cbn; lia|by exists rs; rewrite Ha]].
      unfold frame_refs. by rewrite <-list_fmap_compose. }
    unfold verify_against_log. cbn [join_loop]. unfold by_seq. rewrite by_seq_lookup, Hf, lookup_empty.
    assert (r_event_seq (mint (ReceiptChain_new key) (verify_call now result)).2 = 6) as -> by done.
    assert (r_task_id (mint (ReceiptChain_new key) (verify_call now result)).2 = task ∧
            r_job_id (mint (ReceiptChain_new key) (verify_call now result)).2 = task) as [-> ->] by done.
    assert (List.find (λ f, bool_decide (fr_seq f = 6))
      ((λ x, mkFrameRef x.1.1.1 (bool_decide (x.1.1.2 = ToolCallCompleted)) x.1.2 x.2) <$>
       imap (λ i e, (Z.of_nat (S i), e.1.1, Some task, e.1.2)) (verified_log p)) = Some (mkFrameRef 6 true (Some task) (Some task))) as ->
      by reflexivity.
    cbn [fr_tool_completed fr_task_id fr_job_id negb]. by rewrite !bool_decide_eq_true_2.
Qed.

(** ** The stages *)

Context (goal : chars) (manager : WorktreeManager) (root : WorktreeRoot).
Definition this_run : Run := mkRun spec goal cap vspec task key manager root.
(** What [verify_stage] does with the summary of the outcome. *)
Definition close (summary : result chars chars) : TM W chars :=
  match summary with
  | Err returned => mret returned
  | Ok summary => _ ← teardown this_run; mret summary
  end.

Lemma close_ends msg m tr : does (close (Ok msg)) m tr → ends (PClosing root) m tr.
Proof.
  intros H. unfold close in H. apply bind_teardown in H as (t & -> & H). apply does_ret in H as [-> ->].
  eapply ends_step; [constructor|apply ends_done].
Qed.
Lemma abandon_ends ph es a msg m tr :
  audited task es a → (length es ≤ 20)%nat →
  (∀ path log ok, wrote path es log → step ph (Persisted path log ok) (PClosing root)) →
  does (abandon this_run a msg) m tr → ends ph m tr.
Proof.
  intros Ha Hl Hph H. unfold abandon in H. eapply bind_persist in H as (res & log & t & -> & Hlog & H); [|done..].
  apply bind_teardown in H as (t2 & -> & H). apply does_ret in H as [-> ->].
  eapply ends_step; [apply Hph; by split|]. eapply ends_step; [constructor|apply ends_done].
Qed.
Lemma plain_ends a p m tr :
  audited task (verified_log p) a → cap = None →
  does (complete_plain this_run a p ≫= close) m tr → ends (PRecorded root p) m tr.
Proof.
  intros Ha Hc H. unfold complete_plain in H. audit H.
  persist H.
  destruct res as [[]|e]; apply bind_ret in H.
  - apply close_ends in H. eapply ends_step; [by eapply (st_completed root p _ _ true)|done].
  - apply does_ret in H as [-> ->]. eapply ends_step; [by eapply (st_completed root p _ _ false)|].
    exists (PLeaked root). split; [constructor|]. intros _. right. by exists root.
Qed.

(** *** The pull request *)

Lemma read_token_silent path : only (λ _, False) (read_owner_only_token path : TM W _).
Proof. unfold read_owner_only_token. only_cases. Qed.
Lemma ends_app ph t1 ph1 m t2 : steps ph t1 ph1 → ends ph1 m t2 → ends ph m (t1 ++ t2).
Proof. induction 1 as [|ph e ph' tr ph2 Hs _ IH]; [done|]. intros H. cbn [app]. eapply ends_step; [done|by apply IH]. Qed.

Section Push.
Context (p : VerifiedPatch) (a : Approved GitHubWriteCap) (target : PrTarget) (i : PrIntent) (token : chars).
Context (cap_is : cap = Some a) (intent : intended a target p i) (token_read : reads target token).

(** The next operation of the lease, from here to there. *)
Lemma lease_op exe n op ok ph :
  leasing ph root p i token n → lease_ops target token exe !! n = Some op →
  (n = 3%nat → ∃ w, (file_op CurrentExe w).1 = Ok exe) →
  step ph (FsDid op ok) (if ok || (n =? 0)%nat then PLeasing root p i token (S n) else PFailed root p).
Proof. intros. by eapply st_lease. Qed.

Section Lease.
Context (k : result chars CredentialHelperLease → TM W chars) (m : option chars).
Context (k_ok : ∀ t, does (k (Ok the_lease)) m t → ends (PLeasing root p i token 7) m t).
Context (k_err : ∀ e t, does (k (Err e)) m t → ends (PFailed root p) m t).

Lemma lease_write_ends tr :
  does (lease_write (lease_dir task) (lease_dir task ++ lit "/config") (lease_dir task ++ lit "/helper")
          (text_chars (pt_repo target)) token ≫= k) m tr →
  ends (PLeasing root p i token 4) m tr.
Proof.
  intros H. unfold lease_write in H.
  apply bind_assoc, bind_fs in H as (w1 & t1 & -> & H). eapply ends_step; [eapply (lease_op [] 4); [by left|done|done]|].
  destruct (file_op _ w1).1; [|by apply bind_ret, k_err in H].
  apply bind_assoc, bind_fs in H as (w2 & t2 & -> & H). eapply ends_step; [eapply (lease_op [] 5); [by left|done|done]|].
  destruct (file_op _ w2).1; [|by apply bind_ret, k_err in H].
  apply bind_assoc, bind_fs in H as (w3 & t3 & -> & H). eapply ends_step; [eapply (lease_op [] 6); [by left|done|done]|].
  by destruct (file_op _ w3).1; [apply bind_ret, k_ok in H|apply bind_ret, k_err in H].
Qed.
Lemma lease_create_ends tr :
  does (lease_create task (text_chars (pt_repo target)) token ≫= k) m tr → ends (PRecorded root p) m tr.
Proof.
  intros H. unfold lease_create in H.
  apply bind_assoc, bind_fs in H as (w0 & t0 & -> & H). eapply ends_step; [eapply (lease_op [] 0); [by right|done|done]|].
  rewrite orb_true_r.
  apply bind_assoc, bind_fs in H as (w1 & t1 & -> & H). eapply ends_step; [eapply (lease_op [] 1); [by left|done|done]|].
  destruct (file_op _ w1).1; [|by apply bind_ret, k_err in H].
  apply bind_assoc, bind_fs in H as (w2 & t2 & -> & H). eapply ends_step; [eapply (lease_op [] 2); [by left|done|done]|].
  destruct (file_op _ w2).1 as [exe|] eqn:Eexe; [|by apply bind_ret, k_err in H].
  apply bind_assoc, bind_fs in H as (w3 & t3 & -> & H).
  eapply ends_step; [eapply (lease_op exe 3); [by left|done|intros _; by exists w2]|].
  destruct (file_op _ w3).1; [|by apply bind_ret, k_err in H]. by apply lease_write_ends.
Qed.
End Lease.

Lemma push_with_ends (k : result chars PrCreated → TM W chars) m tr :
  (∀ r t, does (k r) m t → ends (PReleasing root p (is_ok r)) m t) →
  does (push_with the_lease token i root target ≫= k) m tr → ends (PLeasing root p i token 7) m tr.
Proof.
  intros Hk H. unfold push_with in H. apply bind_assoc, bind_git in H as (res & t & -> & H).
  eapply ends_step; [by eapply (st_pushed root p a target i token)|].
  destruct res as [o|e]; [|apply bind_ret, Hk in H; exact H].
  destruct (go_success o); cbn [negb] in H; [|apply bind_ret, Hk in H; exact H].
  apply bind_assoc, bind_lift in H as (w & H). apply bind_assoc, bind_emit in H as (t2 & -> & H). apply bind_ret, Hk in H.
  eapply ends_step; [constructor; by exists w|]. by destruct (create_pull _ _ w).1.
Qed.
Lemma lease_drop_ends (opened : bool) (k : unit → TM W chars) m tr :
  (∀ t, does (k tt) m t → ends (if opened then POpened root p else PFailed root p) m t) →
  does (lease_drop the_lease ≫= k) m tr → ends (PReleasing root p opened) m tr.
Proof.
  intros Hk H. unfold lease_drop in H. apply bind_assoc, bind_fs in H as (w & t & -> & H).
  apply bind_ret, Hk in H. eapply ends_step; [constructor|exact H].
Qed.
End Push.
Lemma push_and_create_ends a target p i (k : result chars PrCreated → TM W chars) m tr :
  cap = Some a →
  (∃ now head, tk_pr spec = Some target ∧ open_pr a p head (text_chars (pt_base_branch target)) now = Ok i) →
  (∀ c t, does (k (Ok c)) m t → ends (POpened root p) m t) →
  (∀ e t, does (k (Err e)) m t → ends (PFailed root p) m t ∧ ends (PRecorded root p) m t) →
  does (push_and_create_pr a i root target task ≫= k) m tr → ends (PRecorded root p) m tr.
Proof.
  intros Hc (now & head & Ht & Ho) Hok Herr H. unfold push_and_create_pr in H.
  destruct (validate_push _ _) as [[]|e] eqn:Ev; [|by apply bind_ret, Herr in H as [_ H]].
  apply bind_assoc, bind_silent in H as (token & Htoken & H); [|apply read_token_silent].
  destruct token as [token|e]; [|by apply bind_ret, Herr in H as [_ H]].
  assert (intended a target p i) as Hi by (by exists now, head).
  apply bind_assoc in H. eapply (lease_create_ends p a target i token); [done..| | |exact H].
  2:{ intros e t Hd. by apply bind_ret, Herr in Hd as [Hd _]. }
  intros t Hd. apply bind_assoc in Hd. eapply (push_with_ends p a target i token); [done..| |exact Hd].
  intros r t1 Hr. apply bind_assoc in Hr. eapply lease_drop_ends; [|exact Hr].
  intros t2 H2. apply bind_ret in H2. destruct r as [c|e]; [by eapply Hok|by eapply Herr].
Qed.
Lemma pr_ends a p prc branch m tr :
  audited task (verified_log p) a → cap = Some prc →
  does (complete_with_pr this_run a p prc branch ≫= close) m tr → ends (PRecorded root p) m tr.
Proof.
  intros Ha Hc H. unfold complete_with_pr in H. apply bind_assoc, bind_panic in H as [[-> ->]|(head & _ & _ & _ & H)]; [apply ends_panic|].
  assert (∀ e t ph, (∀ path log ok, wrote path (verified_log p ++ [entry TaskFailed false "integration failed"]) log →
      step ph (Persisted path log ok) (PClosing root)) →
    does ((a ← audit_append a 8 TaskFailed (ru_task this_run) None (lit "integration failed");
           _ ← store_atomic a;
           mret (Ok (uni "⛔ verified, but draft PR integration failed: " ++ e))) ≫= close) m t → ends ph m t) as Hfail.
  { intros e t ph Hph Hd. audit Hd.
    persist Hd.
    apply bind_ret, close_ends in Hd. eapply ends_step; [apply Hph; by split|done]. }
  apply bind_assoc in H. unfold open_draft_pr in H. cbn [this_run ru_spec ru_verify ru_worktree ru_task] in H.
  destruct (tk_pr spec) as [target|] eqn:Et.
  2:{ apply bind_ret in H. eapply Hfail; [|exact H]. intros. eapply st_refused; [by rewrite Hc|done]. }
  apply bind_assoc, bind_lift in H as (w & H). destruct (open_pr _ _ _ _ _) as [i|e] eqn:Eo.
  2:{ apply bind_ret in H. eapply Hfail; [|exact H]. intros. eapply st_refused; [by rewrite Hc|done]. }
  apply bind_assoc in H. eapply push_and_create_ends; [exact Hc|by eexists _, _|..|exact H].
  - intros c t Hd. apply bind_ret in Hd. apply bind_assoc in Hd. audit Hd.
    audit Hd.
    persist Hd.
    apply bind_ret, close_ends in Hd. eapply ends_step; [|exact Hd]. eapply (st_completed_pr root p). split; [done|]. by rewrite <-app_assoc in Hlog.
  - intros e t Hd. apply bind_ret in Hd. split; (eapply Hfail; [|exact Hd]); intros.
    + by eapply st_failed.
    + eapply st_refused; [by rewrite Hc|done].
Qed.

(** *** The outcome of the verify run *)

Lemma ran_minted p receipts :
  ran root (OVerified p) receipts →
  minted root p ∧ ∃ now result, receipts = (mint (ReceiptChain_new key) (verify_call now result)).1 ∧
    v_receipt p = (mint (ReceiptChain_new key) (verify_call now result)).2.
Proof.
  intros (patch & now & w & w' & H). unfold run_verify, run_verify_with in H.
  destruct (run_command _ _ _ _ _ w) as [[result|e] w1] eqn:Er; [|done].
  destruct (is_success result) eqn:Es; cbn [negb] in H; [|done].
  fold (verify_call now result) in H. destruct (mint _ _) as [c rc] eqn:Em. injection H as <- <- _. split.
  - exists w, w1, result, now. split; [done|]. split; [done|]. split; [|done]. unfold verify_call in Em. by rewrite Em.
  - exists now, result. by rewrite Em.
Qed.
Lemma outcome_ends a receipts o branch m tr :
  audited task proposed a → ran root o receipts →
  does (on_outcome this_run a receipts o branch ≫= close) m tr → ends (PVerifying root) m (VerifyRan o :: tr).
Proof.
  intros Ha Hran H. eapply ends_step; [by eapply st_verdict|]. destruct o as [p|status output|reason].
  - destruct (ran_minted _ _ Hran) as (Hm & now & result & Hrc & Hp).
    unfold on_outcome, on_verified in H. reassoc H.
    eapply bind_audit in H as (a1 & Ha1 & H); [|exact Ha|reflexivity|by eapply receipt_entry_ok]. audit H.
    assert (audited task (verified_log p) a0) as Ha' by (by rewrite <-app_assoc in Ha0).
    destruct (receipt_joins now result p a0 Hp Ha') as [Hi Hj]. rewrite <-Hrc in Hi. rewrite Hi, Hj in H. cbn [negb orb] in H.
    persist H. destruct res as [[]|e].
    + eapply ends_step; [eapply (st_recorded root p _ _ true); by split|]. change (ru_pr_cap this_run) with cap in H.
      assert ((∃ prc, cap = Some prc) ∨ cap = None) as [[prc Ec]|Ec] by (destruct cap; eauto); rewrite Ec in H.
      * by eapply pr_ends.
      * by eapply plain_ends.
    + eapply ends_step; [eapply (st_recorded root p _ _ false); by split|]. reassoc H.
      apply bind_teardown in H as (t2 & -> & H). apply bind_ret, does_ret in H as [-> ->].
      eapply ends_step; [constructor|apply ends_done].
  - unfold on_outcome in H. audit H. audit H. audit H. persist H.
    apply bind_ret, close_ends in H. eapply ends_step; [eapply st_abandoned; [by split|]|exact H].
    split; [by left|]. repeat constructor; cbn; congruence.
  - unfold on_outcome in H. audit H. persist H.
    apply bind_ret, close_ends in H. eapply ends_step; [eapply st_abandoned; [by split|]|exact H].
    split; [by left|]. repeat constructor; cbn; congruence.
Qed.

(** *** The rest of the flow *)

Lemma verify_ends ph a patch branch m tr :
  candidate ph root commits → audited task leased a →
  does (verify_stage host hostile this_run sandbox_cap a patch branch) m tr → ends ph m tr.
Proof.
  intros Hph Ha H. unfold verify_stage in H. apply bind_emit in H as (t1 & -> & H). eapply ends_step; [by apply st_verifying|].
  audit H. audit H. apply bind_lift in H as (w0 & H). apply bind_lift in H as (w & H).
  destruct (run_verify _ _ _ _ _ _ _ _ _ w) as [[o receipts] w'] eqn:Er. cbn [fst] in H.
  apply bind_emit in H as (t2 & -> & H). eapply outcome_ends; [|by eexists _, _, _, _|exact H].
  by rewrite <-app_assoc in Ha1.
Qed.
(** The end of a command of the commit that failed. *)
Ltac refused Herr :=
  intros [o|e] t Hr Hd; cbn beta iota in Hd; [rewrite (Hr o eq_refl) in Hd; cbn [negb] in Hd|]; by apply bind_ret, Herr in Hd.
(** The commit, command by command. *)
Lemma commit_argv_ends ph n argv (k : result chars GitOutput → TM W chars) m tr :
  is_Some cap → candidate ph root n → commit_argv !! n = Some argv →
  (∀ o t, go_success o = true → does (k (Ok o)) m t → ends (PCandidate root (S n)) m t) →
  (∀ r t, (∀ o, r = Ok o → go_success o = false) → does (k r) m t → ends (PAbandoned root) m t) →
  does (trusted_git root argv ≫= k) m tr → ends ph m tr.
Proof.
  intros Hc Hph Hargv Hok Herr H. apply bind_git in H as (res & t & -> & H).
  eapply ends_step; [by eapply st_commit|]. destruct res as [o|e]; [|eapply Herr; [|exact H]; done].
  destruct (go_success o) eqn:Eo; [by eapply Hok|]. eapply Herr; [|exact H]. by intros ? [= <-].
Qed.
Lemma prepare_ends ph (k : result chars PatchRef → TM W chars) m tr :
  is_Some cap → candidate ph root 0 →
  (∀ patch t, does (k (Ok patch)) m t → ends (PCandidate root 3) m t) →
  (∀ e t, does (k (Err e)) m t → ends (PAbandoned root) m t) →
  does (prepare_pr_commit root ≫= k) m tr → ends ph m tr.
Proof.
  intros Hc Hph Hok Herr H. unfold prepare_pr_commit in H. apply bind_assoc in H.
  eapply (commit_argv_ends ph 0); [done..| | |exact H]; [|refused Herr].
  intros o1 t1 E1 H1. cbn beta iota in H1. rewrite E1 in H1. cbn [negb] in H1. apply bind_assoc in H1.
  eapply (commit_argv_ends _ 1); [done|by left|done| | |exact H1]; [|refused Herr].
  intros o2 t2 E2 H2. cbn beta iota in H2. rewrite E2 in H2. cbn [negb] in H2. apply bind_assoc in H2.
  eapply (commit_argv_ends _ 2); [done|by left|done| | |exact H2]; [|refused Herr].
  intros o3 t3 E3 H3. cbn beta iota in H3. rewrite E3 in H3. cbn [negb] in H3. by apply bind_ret, Hok in H3.
Qed.
Lemma commit_ends ph a patch m tr :
  candidate ph root 0 → audited task leased a →
  does (commit_stage host hostile this_run sandbox_cap a patch) m tr → ends ph m tr.
Proof.
  intros Hph Ha H. unfold commit_stage in H. cbv zeta in H. change (ru_pr_cap this_run) with cap in H.
  assert (∀ ph patch branch t, candidate ph root commits →
    does (cancelled ← lift cancel_flag;
          if cancelled : bool then
            a ← audit_append a 4 PatchProposed (ru_task this_run) (run_job this_run) (lit "patch proposed");
            a ← audit_append a 5 TaskKilled (ru_task this_run) None (lit "task cancelled");
            abandon this_run a (uni "⛔ CANCELLED before verify.")
          else verify_stage host hostile this_run sandbox_cap a patch branch) m t → ends ph m t) as Hgo.
  { intros ph' patch' branch t Hph' Hd. apply bind_lift in Hd as (w & Hd). destruct (cancel_flag w).1; [|by eapply verify_ends].
    audit Hd. audit Hd. eapply abandon_ends; [eassumption|cbn; lia| |exact Hd]. intros. eapply st_cancelled; [done..|unfinished]. }
  assert ((∃ prc, cap = Some prc) ∨ cap = None) as [[prc Ec]|Ec] by (destruct cap; eauto); rewrite Ec in H.
  2:{ eapply Hgo; [|exact H]. unfold commits. by rewrite Ec. }
  eapply prepare_ends; [by rewrite Ec|exact Hph| | |exact H].
  - intros p t Hd. eapply Hgo; [|exact Hd]. unfold commits. rewrite Ec. by left.
  - intros e t Hd. audit Hd. eapply abandon_ends; [eassumption|cbn; lia| |exact Hd]. intros. eapply st_abandoned; [done|unfinished].
Qed.
Lemma candidate_ends a m tr :
  audited task leased a → does (candidate_stage host hostile this_run sandbox_cap a) m tr → ends (PReady root) m tr.
Proof.
  intros Ha H. unfold candidate_stage in H. change (ru_spec this_run) with spec in H.
  assert (∀ b t, tk_backend spec ≠ TbNative →
    does (_ ← tell (uni "🛠️ running worker (sandboxed)…");
          product ← or_panic (run_external_worker host hostile sandbox_cap task_profile b
            (for_task (ru_task this_run) (ru_goal this_run) (ru_worktree this_run)) (ru_worktree this_run));
          _ ← emit (WorkerRan (is_ok product));
          match product with
          | Ok product => commit_stage host hostile this_run sandbox_cap a (up_patch (wp_patch product))
          | Err e =>
              a ← audit_append a 4 TaskFailed (ru_task this_run) (run_job this_run) (lit "task failed");
              abandon this_run a (uni "❌ WORKER REJECTED: " ++ bound_tail (worker_error_display e))
          end) m t → ends (PReady root) m t) as Hworker.
  { intros b t Hb Hd. apply bind_emit in Hd as (t1 & -> & Hd). eapply ends_step; [by constructor|].
    apply bind_panic in Hd as [[-> ->]|(product & _ & _ & _ & Hd)]; [apply ends_panic|].
    apply bind_emit in Hd as (t2 & -> & Hd). eapply ends_step; [constructor|].
    destruct product as [p|e]; cbn [is_ok]; [eapply commit_ends; [by left|done..]|].
    audit Hd. eapply abandon_ends; [eassumption|cbn; lia| |exact Hd]. intros. eapply st_abandoned; [done|unfinished]. }
  destruct (tk_backend spec) eqn:Eb; [|by eapply Hworker..].
  apply bind_store in H as (s & H). eapply commit_ends; [by right|done..].
Qed.
Lemma leased_ends a m tr :
  audited task opening a → does (leased_stage host hostile this_run a) m tr → ends (PMade root) m tr.
Proof.
  intros Ha H. unfold leased_stage in H. audit H. apply bind_emit in H as (t1 & -> & H). eapply ends_step; [constructor|].
  apply bind_panic in H as [[-> ->]|(c & w & w' & Hc & H)]; [apply ends_panic|].
  assert (task_cap = Some sandbox_cap) as Hcap by reflexivity. rewrite Hcap in Hc. injection Hc as <- <-. apply bind_lift in H as (w1 & H).
  destruct (cancel_flag w1).1; [|by eapply candidate_ends].
  audit H. eapply abandon_ends; [eassumption|cbn; lia| |exact H]. intros. eapply st_cancelled_early; [done|unfinished].
Qed.
End Protocol.

(** Which phases a step out of a candidate, or of a lease, may start from. *)
Ltac phases :=
  repeat match goal with
    | H : candidate _ _ _ _ |- _ => destruct H as [->|(_ & _ & ->)]
    | H : leasing _ _ _ _ _ _ |- _ => destruct H as [->|[_ ->]]
    end.

(** ** The refinement *)

Section Tasks.
Context {W : Type} {TH : TaskHost W} {R : Runner W} {WH : WorkerHost W} {HC : HttpClient W} {TL : TaskHostLaws W}.
Context `{J : SerdeJson} `{HS : Hash} `{MC : Mac} (host : Host) (hostile : bool).

(** Where the parts of a run come from: the verify command is the one of the specification, or the one
    detected in its repository when it gives none; the task has a fresh id; the key of its receipts is
    the one on disk. *)
Definition verify_of (spec : TaskSpec) (v : VerifySpec) : Prop :=
  match tk_verify spec with
  | program :: args => v = mkVerifySpec program args
  | [] => ∃ s, detect (λ name, store_is_file s (join (tk_repo_root spec) [Normal (to_utf8 name)])) = Some v
  end.
Definition begun (spec : TaskSpec) (task : Z) (v : VerifySpec) (key : bytes) : Prop :=
  is_uint 128 task ∧ does (next_task_id : TM W Z) (Some task) [] ∧ verify_of spec v ∧
  ∃ w, (load_or_create (join task_state_root [Normal (lit "receipt.key")]) w).1 = Ok key.

Lemma next_task_id_silent : only (λ _, False) (next_task_id : TM W Z).
Proof. unfold next_task_id, now_ts. only_cases. Qed.
Lemma next_task_id_uint task : does (next_task_id : TM W Z) (Some task) [] → is_uint 128 task.
Proof.
  intros H. unfold next_task_id, now_ts in H. apply bind_lift in H as (w1 & H). apply bind_lift in H as (w2 & H).
  apply does_ret in H as [[= ->] _]. apply task_id_uint; [apply clock_u64|apply process_id_u32|apply fetch_u64].
Qed.
Lemma start_ends spec goal cap v m tr :
  verify_of spec v → does (start_stage host hostile spec goal cap v) m tr →
  m ≠ None ∧ tr = [] ∨
  ∃ task key, begun spec task v key ∧ ends host hostile task spec cap v key PStart m tr.
Proof.
  intros Hv H. unfold start_stage in H. apply bind_silent in H as (task & Htask & H); [|apply next_task_id_silent].
  pose proof (next_task_id_uint _ Htask) as task_u128.
  pose proof (audited_new task) as Ha. audit H. audit H. apply bind_lift in H as (w3 & H).
  destruct (load_or_create _ w3).1 as [key|e] eqn:Ekey; [right|by apply does_ret in H as [-> ->]; left].
  exists task, key. split; [split_and!; [done..|by exists w3]|].
  apply bind_store in H as (s & H). destruct (create_for _ _ _ s).1 as [root|e] eqn:Eroot.
  - apply bind_emit in H as (t & -> & H). eapply ends_step; [apply st_made; by exists s|].
    eapply leased_ends; [exact _|exact task_u128|eassumption|exact H].
  - audit H. persist H. apply does_ret in H as [-> ->].
    eapply ends_step; [eapply st_no_worktree; [by split|]|apply ends_done]. split; [by left|]. repeat constructor; cbn; congruence.
Qed.

(** The effects of a run are a path of the protocol. *)
Lemma run_path spec goal cap m tr :
  does (run_one_task host hostile spec goal cap) m tr →
  m ≠ None ∧ tr = [] ∨
  (∀ target, tk_pr spec = Some target → validate_pr_target target = Ok tt) ∧
  (tk_backend spec = TbNative → trim goal = []) ∧
  ∃ task v key, begun spec task v key ∧ ends host hostile task spec cap v key PStart m tr.
Proof.
  match goal with |- does _ m tr → ?G => set (concl := G) end. intros H. unfold run_one_task in H.
  assert (∀ (msg : chars) t, does (mret msg : TM W chars) m t → t = tr → m ≠ None ∧ tr = []) as Hnone.
  { intros msg t Hd <-. by apply does_ret in Hd as [-> ->]. }
  assert (∀ v, verify_of spec v →
    does (if (match tk_backend spec with TbNative => true | _ => false end) && negb (str_eq (trim goal) []) then
        mret (uni "⛔ native is verify-only; configure codex, claude, or cmd for coding tasks.")
      else
        match tk_pr spec with
        | Some target =>
            match validate_pr_target target with
            | Err e => mret (uni "⛔ invalid PR configuration: " ++ e)
            | Ok _ => start_stage host hostile spec goal cap v
            end
        | None => start_stage host hostile spec goal cap v
        end) m tr → concl) as Hgo.
  { intros v Hv Hd. destruct (_ && _) eqn:En; [left; by eapply Hnone|].
    assert (tk_backend spec = TbNative → trim goal = []) as Hn.
    { intros Hb. rewrite Hb in En. cbn [andb] in En. apply negb_false_iff in En. unfold str_eq in En. by apply bool_decide_eq_true in En. }
    assert ((∀ target, tk_pr spec = Some target → validate_pr_target target = Ok tt) →
      does (start_stage host hostile spec goal cap v) m tr → concl) as Hstart.
    { intros Ht Hs. apply (start_ends _ _ _ _ _ _ Hv) in Hs as [?|(task & key & Hb & He)]; [by left|right].
      split; [done|]. split; [done|]. by exists task, v, key. }
    destruct (tk_pr spec) as [target|] eqn:Et; [|by apply Hstart].
    destruct (validate_pr_target target) as [[]|e] eqn:Ev; [|left; by eapply Hnone].
    apply Hstart; [|done]. by intros ? [= <-]. }
  unfold resolve_verify in H. unfold verify_of in Hgo. destruct (tk_verify spec) as [|program args] eqn:Ev.
  - apply bind_assoc, bind_store in H as (s & H). apply bind_ret in H. cbn [fst] in H.
    destruct (detect _) as [v|] eqn:Ed; [|left; by eapply Hnone]. apply (Hgo v); [by exists s|exact H].
  - apply bind_ret in H. by apply (Hgo (mkVerifySpec program args)).
Qed.

(** ** What the protocol promises *)

Context (task : Z) (spec : TaskSpec) (cap : option (Approved GitHubWriteCap)) (v : VerifySpec) (key : bytes).
Abbreviation tstep := (step host hostile task spec cap v key).
Abbreviation tsteps := (steps host hostile task spec cap v key).

Definition asks (tr : list TaskEffect) : nat :=
  length (List.filter (λ e, match e with PullAsked _ _ => true | _ => false end) tr).
Definition verify_runs (tr : list TaskEffect) : nat :=
  length (List.filter (λ e, match e with VerifyRan _ => true | _ => false end) tr).
(** [e] happened, when what came before it was as [P] says. *)
Definition after (P : list TaskEffect → Prop) (e : TaskEffect) (past : list TaskEffect) : Prop :=
  ∃ t1 t2, past = t1 ++ e :: t2 ∧ P t1.
Definition ran_well (p : VerifiedPatch) : list TaskEffect → Prop := after (λ _, True) (VerifyRan (OVerified p)).
Definition passed (past : list TaskEffect) (root : WorktreeRoot) (p : VerifiedPatch) : Prop :=
  ran_well p past ∧ minted host hostile task v key root p.
Definition on_disk (p : VerifiedPatch) (past : list TaskEffect) : Prop :=
  ∃ path log, wrote task path (verified_log task p) log ∧ after (ran_well p) (Persisted path log true) past.
Definition pushed (past : list TaskEffect) (root : WorktreeRoot) (p : VerifiedPatch) (i : PrIntent) : Prop :=
  ∃ a target, cap = Some a ∧ intended spec a target p i ∧ after (on_disk p) (GitRan (push_git task root i target) true) past.
Definition root_of (ph : Phase) : option WorktreeRoot :=
  match ph with
  | PStart | PDone => None
  | PMade r | PReady r | PWorking r | PCandidate r _ | PVerifying r | PAbandoned r | PVerified r _ | PRecorded r _
  | PLeasing r _ _ _ _ | PPushed r _ _ _ | PReleasing r _ _ | PFailed r _ | POpened r _ | PClosing r | PLeaked r => Some r
  end.
(** Each step of the protocol goes up, so that no part of it is done twice. *)
Definition rank (ph : Phase) : nat :=
  match ph with
  | PStart => 0 | PMade _ => 1 | PReady _ => 2 | PWorking _ => 3 | PCandidate _ n => 4 + min n 3 | PVerifying _ => 8
  | PAbandoned _ | PVerified _ _ => 9 | PRecorded _ _ => 10 | PLeasing _ _ _ _ n => 10 + min n 7 | PPushed _ _ _ _ => 18
  | PReleasing _ _ _ => 19 | PFailed _ _ | POpened _ _ => 20 | PClosing _ | PLeaked _ => 21 | PDone => 22
  end.
Lemma after_snoc P e past x : after P e past → after P e (past ++ [x]).
Proof. intros (t1 & t2 & -> & H). exists t1, (t2 ++ [x]). by rewrite <-app_assoc. Qed.
Lemma after_now (P : list TaskEffect → Prop) e past : P past → after P e (past ++ [e]).
Proof. intros H. by exists past, []. Qed.
Lemma after_in P e past : after P e past → e ∈ past.
Proof. intros (t1 & t2 & -> & _). apply elem_of_app. right. by left. Qed.
(** What has happened when a phase is reached. *)
Definition recorded (past : list TaskEffect) (root : WorktreeRoot) (p : VerifiedPatch) : Prop :=
  passed past root p ∧ on_disk p past.
Definition events (ph : Phase) (past : list TaskEffect) : Prop :=
  match ph with
  | PStart | PMade _ | PReady _ | PWorking _ | PCandidate _ _ | PVerifying _ | PAbandoned _ => asks past = 0%nat
  | PVerified root p => passed past root p ∧ asks past = 0%nat
  | PRecorded root p | PLeasing root p _ _ _ => recorded past root p ∧ asks past = 0%nat
  | PPushed root p i _ => recorded past root p ∧ pushed past root p i ∧ asks past = 0%nat
  | PFailed root p => passed past root p ∧ (asks past ≤ 1)%nat
  | PReleasing root p opened =>
      passed past root p ∧ (opened = true → ∃ req c, PullAsked req (Ok c) ∈ past) ∧ (asks past ≤ 1)%nat
  | POpened root p => passed past root p ∧ (∃ req c, PullAsked req (Ok c) ∈ past) ∧ (asks past ≤ 1)%nat
  | PClosing _ | PDone | PLeaked _ => (asks past ≤ 1)%nat
  end.
Definition history (ph : Phase) (past : list TaskEffect) : Prop :=
  events ph past ∧ (ph = PStart → past = []) ∧ ∀ root, root_of ph = Some root → head past = Some (WorktreeMade root).

Lemma asks_app a b : asks (a ++ b) = (asks a + asks b)%nat.
Proof. unfold asks. by rewrite List.filter_app, length_app. Qed.
Lemma step_rank ph e ph1 : tstep ph e ph1 → (rank ph < rank ph1)%nat.
Proof.
  assert (∀ {A} (l : list A) n x, l !! n = Some x → (n < length l)%nat) as Hlt by (intros; by eapply lookup_lt_Some).
  intros H. destruct H; try destruct ok; try destruct o; try destruct opened; cbn [rank is_ok]; try lia.
  all: match goal with
       | H : candidate _ _ _ _, H1 : commit_argv !! _ = _ |- _ => apply Hlt in H1; cbn in H1; destruct H as [->|(_ & -> & ->)]
       | H : candidate _ _ _ _ |- _ => destruct H as [->|(_ & _ & ->)]
       | H : leasing _ _ _ _ _ _, H1 : lease_ops _ _ _ _ !! _ = _ |- _ =>
           apply Hlt in H1; cbn in H1; destruct H as [->|[-> ->]]
       end; cbn [orb rank Nat.eqb]; try lia.
  by destruct n; cbn [Nat.eqb rank]; lia.
Qed.
Lemma steps_rank ph tr ph' : tsteps ph tr ph' → (length tr + rank ph ≤ rank ph')%nat.
Proof. induction 1 as [|ph e ph1 tr ph2 Hst Hs IH]; [done|]. apply step_rank in Hst. cbn [length]. lia. Qed.
Lemma steps_verify_runs ph tr ph' : tsteps ph tr ph' → (verify_runs tr ≤ if rank ph <=? 8 then 1 else 0)%nat.
Proof.
  induction 1 as [|ph e ph1 tr ph2 Hst Hs IH]; [cbn; lia|]. pose proof (step_rank _ _ _ Hst) as Hr.
  assert (verify_runs (e :: tr) = (match e with VerifyRan _ => 1 | _ => 0 end) + verify_runs tr)%nat as -> by (by destruct e).
  assert ((∃ o, e = VerifyRan o) ∨ match e with VerifyRan _ => 1%nat | _ => 0%nat end = 0%nat) as [[o ->]| ->]
    by (destruct e; eauto).
  - inversion Hst; subst. destruct o; cbn [rank] in *; cbn in IH |- *; lia.
  - destruct (Nat.leb_spec (rank ph) 8), (Nat.leb_spec (rank ph1) 8); lia.
Qed.
Lemma rank_le ph : (rank ph ≤ 22)%nat.
Proof. destruct ph; cbn [rank]; lia. Qed.
Lemma events_step ph e ph1 past : tstep ph e ph1 → events ph past → events ph1 (past ++ [e]).
Proof.
  assert (∀ root p, passed past root p → passed (past ++ [e]) root p) as Hp by (intros ? ? []; split; [by apply after_snoc|done]).
  assert (∀ p, on_disk p past → on_disk p (past ++ [e])) as Hd.
  { intros ? (path & log & ? & ?). exists path, log. split; [done|by apply after_snoc]. }
  assert (∀ root p, recorded past root p → recorded (past ++ [e]) root p) as Hr by (intros ? ? []; split; auto).
  assert (asks (past ++ [e]) = (asks past + match e with PullAsked _ _ => 1 | _ => 0 end)%nat) as Hasks.
  { rewrite asks_app. by destruct e. }
  intros Hs Hh. destruct Hs; phases;
    try destruct ok; cbn [events is_ok orb] in *; try (naive_solver lia).
  - destruct o as [p|?|?]; cbn [events]; try lia. split; [split; [by apply after_now|by eapply ran_minted]|lia].
  - destruct Hh as [[??] ?]. split; [split; [by apply Hp|]|lia]. exists path, log. split; [done|by apply after_now].
  - destruct (n =? 0)%nat; cbn [events]; [naive_solver lia|]. destruct Hh as [[??] ?]. split; [by apply Hp|lia].
  - destruct (n =? 0)%nat; cbn [events]; [naive_solver lia|]. destruct Hh as [[??] ?]. split; [by apply Hp|lia].
  - destruct Hh as (? & ?). split_and!; [by apply Hr| |lia]. exists a, target. split_and!; [done..|]. apply after_now. by match goal with H : recorded past _ _ |- _ => apply H end.
  - destruct Hh as ([??] & ? & ?). split_and!; [by apply Hp| |lia].
    destruct r as [c|er]; [|done]. intros _. exists (pr_intent_to_create_request i), c. set_solver.
  - destruct Hh as (? & Ho & ?), opened; cbn [events]; split_and!; try lia; try by apply Hp.
    destruct (Ho eq_refl) as (req & c & ?). exists req, c. set_solver.
  - destruct Hh as (? & Ho & ?), opened; cbn [events]; split_and!; try lia; try by apply Hp.
    destruct (Ho eq_refl) as (req & c & ?). exists req, c. set_solver.
Qed.
Lemma step_root ph e ph1 root :
  tstep ph e ph1 → root_of ph1 = Some root → root_of ph = Some root ∨ ph = PStart ∧ e = WorktreeMade root.
Proof.
  intros H. destruct H; phases; repeat match goal with
    | |- context [match ?o with OVerified _ => _ | _ => _ end] => destruct o
    | |- context [if ?b then _ else _] => destruct b
    end; cbn; intros Hr; simplify_eq; auto.
Qed.
Lemma history_step ph e ph1 past : tstep ph e ph1 → history ph past → history ph1 (past ++ [e]).
Proof.
  intros Hs (He & H0 & Hroot). split; [by eapply events_step|]. split.
  - intros ->. apply step_rank in Hs. cbn [rank] in Hs. lia.
  - intros root Hr. destruct (step_root _ _ _ _ Hs Hr) as [Hr1|[-> ->]]; [|by rewrite H0].
    apply Hroot in Hr1. by destruct past.
Qed.
Lemma history_nil : history PStart [].
Proof. done. Qed.
Lemma history_asks ph past : history ph past → (asks past ≤ 1)%nat.
Proof. intros [H _]. destruct ph; cbn [events] in H; destruct_and?; lia. Qed.
(** Every effect of a path is a step from a phase whose history is the path before it. *)
Lemma steps_at ph past tr ph' e :
  tsteps ph tr ph' → history ph past → e ∈ tr →
  ∃ t1 t2 ph1 ph2, tr = t1 ++ e :: t2 ∧ history ph1 (past ++ t1) ∧ tstep ph1 e ph2 ∧ tsteps ph2 t2 ph'.
Proof.
  intros Hs. revert past. induction Hs as [|ph e0 ph1 tr ph2 Hst Hs IH]; intros past Hh He; [by apply not_elem_of_nil in He|].
  pose proof (history_step _ _ _ _ Hst Hh) as Hh1. apply elem_of_cons in He as [->|He].
  - exists [], tr, ph, ph1. rewrite app_nil_r. done.
  - destruct (IH _ Hh1 He) as (t1 & t2 & pa & pb & -> & Ha & Hab & Hb). exists (e0 :: t1), t2, pa, pb.
    rewrite <-app_assoc in Ha. done.
Qed.
Lemma history_end ph past tr ph' : tsteps ph tr ph' → history ph past → history ph' (past ++ tr).
Proof.
  intros Hs. revert past. induction Hs as [|ph e ph1 tr ph2 Hst Hs IH]; intros past Hh; [by rewrite app_nil_r|].
  pose proof (IH _ (history_step _ _ _ _ Hst Hh)) as H. by rewrite <-app_assoc in H.
Qed.
Lemma path_at tr ph' e :
  tsteps PStart tr ph' → e ∈ tr →
  ∃ t1 t2 ph1 ph2, tr = t1 ++ e :: t2 ∧ history ph1 t1 ∧ tstep ph1 e ph2 ∧ (asks tr ≤ 1)%nat.
Proof.
  intros Hs Hin. destruct (steps_at _ _ _ _ _ Hs history_nil Hin) as (t1 & t2 & ph1 & ph2 & -> & Hh & Hst & _).
  exists t1, t2, ph1, ph2. split_and!; [done..|]. exact (history_asks _ _ (history_end _ _ _ _ Hs history_nil)).
Qed.
Lemma steps_snoc ph tr e ph' : tsteps ph (tr ++ [e]) ph' → ∃ ph1, tsteps ph tr ph1 ∧ tstep ph1 e ph'.
Proof.
  revert ph. induction tr as [|x tr IH]; intros ph H; cbn [app] in H; inversion H as [|? ? ph1 ? ? Hst Hs]; subst.
  - inversion Hs; subst. exists ph. split; [constructor|done].
  - destruct (IH _ Hs) as (ph2 & ? & ?). exists ph2. split; [by econstructor|done].
Qed.
(** The only worktree a path makes is the one of its phase. *)
Lemma made_once tr ph root : tsteps PStart tr ph → WorktreeMade root ∈ tr → head tr = Some (WorktreeMade root).
Proof.
  intros Hs Hin. destruct (steps_at _ _ _ _ _ Hs history_nil Hin) as (t1 & t2 & ph1 & ph2 & -> & (_ & H0 & _) & Hst & _).
  inversion Hst; subst;
    phases.
  cbn [app] in H0. by rewrite H0.
Qed.
(** A path that is over removed the worktree last, or left it behind by the failed write of a log. *)
Lemma torn_down tr ph root :
  tsteps PStart tr ph → WorktreeMade root ∈ tr → (ph = PDone ∨ ∃ r, ph = PLeaked r) →
  last tr = Some (WorktreeRemoved root) ∨
  cap = None ∧ ph = PLeaked root ∧ ∃ path log, last tr = Some (Persisted path log false).
Proof.
  intros Hs Hin Hph. pose proof (made_once _ _ _ Hs Hin) as Hhd.
  destruct tr as [|e tr _] using rev_ind; [done|]. rewrite last_snoc.
  destruct (steps_snoc _ _ _ _ Hs) as (ph1 & H1 & Hlast). pose proof (history_end _ _ _ _ H1 history_nil) as (_ & H0 & Hroot).
  cbn [app] in H0, Hroot. assert (∀ r, root_of ph1 = Some r → r = root) as Hr.
  { intros r Hr. apply Hroot in Hr. destruct tr; [done|]. cbn in Hr, Hhd. congruence. }
  destruct Hph as [->|[r ->]]; inversion Hlast; subst; try (by case_match).
  all: phases.
  - rewrite H0 in Hhd by done. done.
  - left. by rewrite (Hr _ eq_refl).
  - destruct ok; [done|]. simplify_eq. right. rewrite (Hr _ eq_refl). eauto.
Qed.

(** Which kinds the frames of a logged list have. *)
Lemma logged_kind es log k :
  logged task es log → (∃ d, d ∈ iter log ∧ f_kind (d_frame d) = k) ↔ ∃ e, e ∈ es ∧ e.1.1 = k.
Proof.
  intros H. pose proof (logged_frames _ _ _ H) as Hf.
  assert ((λ d, f_kind (d_frame d)) <$> iter log = (λ e : Entry, e.1.1) <$> es) as Hk.
  { trans ((λ x : Z * EventKind * option Z * option Z, x.1.1.2) <$> imap (λ i e, (Z.of_nat (S i), e.1.1, Some task, e.1.2)) es).
    - rewrite <-Hf, <-list_fmap_compose. done.
    - rewrite fmap_imap. clear. apply list_eq. intros i. rewrite list_lookup_imap, list_lookup_fmap. by destruct (es !! i). }
  split.
  - intros (d & Hd & <-). assert (f_kind (d_frame d) ∈ (λ e : Entry, e.1.1) <$> es) as Hin.
    { rewrite <-Hk. apply list_elem_of_fmap. by exists d. }
    apply list_elem_of_fmap in Hin as (e & ? & ?). by exists e.
  - intros (e & He & <-). assert (e.1.1 ∈ (λ d, f_kind (d_frame d)) <$> iter log) as Hin.
    { rewrite Hk. apply list_elem_of_fmap. by exists e. }
    apply list_elem_of_fmap in Hin as (d & ? & ?). by exists d.
Qed.
Lemma logged_at es log i e :
  logged task es log → es !! i = Some e →
  ∃ d, d ∈ iter log ∧ f_seq (d_frame d) = Z.of_nat (S i) ∧ f_kind (d_frame d) = e.1.1 ∧ f_task_id (d_frame d) = Some task.
Proof.
  intros H He. pose proof (logged_frames _ _ _ H) as Hf.
  assert ((λ d, (f_seq (d_frame d), f_kind (d_frame d), f_task_id (d_frame d), f_job_id (d_frame d))) <$> iter log !! i =
    Some (Z.of_nat (S i), e.1.1, Some task, e.1.2)) as Hi by (rewrite <-list_lookup_fmap, Hf, list_lookup_imap, He; done).
  apply fmap_Some in Hi as (d & Hd & [= -> -> -> _]). exists d. split; [by eapply list_elem_of_lookup_2|done].
Qed.
Lemma never_completed es log :
  logged task es log → Forall (λ e, e.1.1 ≠ TaskCompleted) es → ¬ ∃ d, d ∈ iter log ∧ f_kind (d_frame d) = TaskCompleted.
Proof. intros Hl Hes (e & He & Hk)%(logged_kind _ _ _ Hl). rewrite Forall_forall in Hes. by apply (Hes e). Qed.
Lemma unfinished_open es : unfinished es → Forall (λ e : Entry, e.1.1 ≠ TaskCompleted) es.
Proof. intros [_ H]. eapply Forall_impl; [exact H|]. naive_solver. Qed.
Lemma verified_open p : Forall (λ e : Entry, e.1.1 ≠ TaskCompleted) (verified_log task p).
Proof. unfold verified_log, proposed, leased, opening, entry. cbn [app]. repeat (apply Forall_cons; split; [cbn; congruence|]). by apply Forall_nil. Qed.
End Tasks.

Section Promises.
Context {W : Type} {TH : TaskHost W} {R : Runner W} {WH : WorkerHost W} {HC : HttpClient W} {TL : TaskHostLaws W}.
Context `{J : SerdeJson} `{HS : Hash} `{MC : Mac} (host : Host) (hostile : bool).


(** C14: A task is logged as completed only when it is. Every log that a run writes verifies, and goes to
    the task's own file. If it holds a frame that completes the task, then before, in order of the
    trace: the run made its worktree first; the sandbox ran there the verify command of the task's own
    specification (or the one detected in its repository when it gives none) to exit zero, and minted
    the patch under the key on disk; the log holds the completed tool call that its receipt names; and
    with an approval to open a pull request, the API had answered that it is open. *)
Theorem task_completed_verified spec goal cap m tr path log ok :
  does (run_one_task host hostile spec goal cap) m tr → Persisted path log ok ∈ tr →
  (∃ n, EventLog.verify log = Intact n) ∧
  ∃ task v key, begun spec task v key ∧ path = au_path (TaskAudit_new task) ∧
  ((∃ d, d ∈ iter log ∧ f_kind (d_frame d) = TaskCompleted) →
   ∃ p root t1 t2, tr = WorktreeMade root :: t1 ++ Persisted path log ok :: t2 ∧
     VerifyRan (OVerified p) ∈ t1 ∧ minted host hostile task v key root p ∧
     (∃ d, d ∈ iter log ∧ f_seq (d_frame d) = r_event_seq (v_receipt p) ∧ f_kind (d_frame d) = ToolCallCompleted ∧
           f_task_id (d_frame d) = Some task) ∧
     (is_Some cap → ∃ req c, PullAsked req (Ok c) ∈ t1)).
Proof.
  intros H Hin. apply run_path in H as [[_ ->]|(_ & _ & task & v & key & Hb & ph & Hs & _)]; [by apply not_elem_of_nil in Hin|].
  destruct (path_at _ _ _ _ _ _ _ _ _ _ Hs Hin) as (t1 & t2 & ph1 & ph2 & -> & (Hh & _ & Hroot) & Hst & _).
  assert (∃ es, wrote task path es log) as (es0 & Hpath & Hes0) by (inversion Hst; subst; eauto).
  split; [eexists; by apply (logged_intact task es0)|]. exists task, v, key. split; [done|]. split; [done|].
  intros Hc. clear es0 Hes0 Hin.
  assert (∀ root p es, root_of ph1 = Some root → passed host hostile task v key t1 root p →
    logged task (verified_log task p ++ es) log → (is_Some cap → ∃ req c, PullAsked req (Ok c) ∈ t1) →
    ∃ p root t1' t2', t1 ++ Persisted path log ok :: t2 = WorktreeMade root :: t1' ++ Persisted path log ok :: t2' ∧
      VerifyRan (OVerified p) ∈ t1' ∧ minted host hostile task v key root p ∧
      (∃ d, d ∈ iter log ∧ f_seq (d_frame d) = r_event_seq (v_receipt p) ∧ f_kind (d_frame d) = ToolCallCompleted ∧
            f_task_id (d_frame d) = Some task) ∧
      (is_Some cap → ∃ req c, PullAsked req (Ok c) ∈ t1')) as Hdone.
  { intros root p es Hr [Hv%after_in Hm] Hl Ha. apply Hroot in Hr. destruct t1 as [|e t1]; [done|]. injection Hr as ->.
    apply elem_of_cons in Hv as [?|Hv]; [done|]. exists p, root, t1, t2. split_and!; [done..| |].
    - destruct (logged_at _ _ _ 5 (ToolCallCompleted, Some task, receipt_to_bytes (v_receipt p)) Hl) as (d & ? & Hd & ? & ?); [done|].
      exists d. split_and!; [done| |done..]. rewrite Hd. by destruct Hm as (w & w' & res & now & _ & _ & -> & _).
    - intros Hcap. destruct (Ha Hcap) as (req & c & [?|?]%elem_of_cons); [done|]. by exists req, c. }
  assert (∀ p k, logged task (verified_log task p ++ [entry task TaskFailed false k]) log → False) as Hfail.
  { intros p k Hl. eapply never_completed; [exact Hl| |exact Hc]. apply Forall_app_2; [apply verified_open|].
    apply Forall_cons. split; [cbn; congruence|by apply Forall_nil]. }
  inversion Hst; subst; phases; cbn [events] in Hh; destruct_and?;
    repeat match goal with H : wrote _ _ _ _ |- _ => destruct H as [_ H] | H : recorded _ _ _ _ _ _ _ _ |- _ => destruct H as [? ?] end.
  all: try (exfalso; eapply never_completed; [eassumption|by apply unfinished_open|exact Hc]).
  all: try (exfalso; by eapply Hfail).
  - exfalso. eapply never_completed; [eassumption|apply verified_open|exact Hc].
  - eapply Hdone; [done|eassumption..|]. by intros [? ?].
  - eapply Hdone; [done|eassumption..|done].
Qed.

(** C13: A task refines the protocol of its effects, which goes up and never back: whatever the clock, the
    files, the processes, the workers, the network and the cancel flag do, the effects of a run are a
    path of the protocol, so that it has at most 22 of them and at most one verify run. The worktree
    comes first, made for the fresh id of the task; in it the worker, if the backend is not native,
    and with pull requests the three git commands of the commit, each after the last one passed; then
    one run of the verify loop on the verify command of the task; after a pass, the log that records
    it; then, without pull requests, the log that completes the task; with them, the seven operations
    on the files of the credential, in order and on the paths of this task, one push, one request,
    the removal of the credential, the log of the outcome; and last the removal of the worktree, or
    the write of the completing log that failed. A run whose configuration is refused does nothing,
    and one that does something has a valid target and, for a native backend, no goal. *)
Theorem task_refines_protocol spec goal cap m tr :
  does (run_one_task host hostile spec goal cap) m tr →
  m ≠ None ∧ tr = [] ∨
  (∀ target, tk_pr spec = Some target → validate_pr_target target = Ok tt) ∧
  (tk_backend spec = TbNative → trim goal = []) ∧
  ∃ task v key ph, begun spec task v key ∧
    steps host hostile task spec cap v key PStart tr ph ∧ (length tr ≤ 22)%nat ∧ (verify_runs tr ≤ 1)%nat ∧
    (m ≠ None → (ph = PDone ∨ ∃ root, ph = PLeaked root) ∧
       ∀ root, WorktreeMade root ∈ tr →
         last tr = Some (WorktreeRemoved root) ∨
         cap = None ∧ ph = PLeaked root ∧ ∃ path log, last tr = Some (Persisted path log false)).
Proof.
  intros H. apply run_path in H as [H|(Ht & Hn & task & v & key & Hb & ph & Hs & Hm)]; [by left|right].
  split; [done|]. split; [done|]. exists task, v, key, ph. split; [done|]. split; [done|]. split_and!.
  - pose proof (steps_rank _ _ _ _ _ _ _ _ _ _ Hs). pose proof (rank_le ph). cbn [rank] in *. lia.
  - exact (steps_verify_runs _ _ _ _ _ _ _ _ _ _ Hs).
  - intros Hsome. split; [by apply Hm|]. intros root Hmade. by eapply torn_down; [..|by apply Hm].
Qed.
End Promises.

(** ** Examples *)

(** A run with a pull request on a host where all goes well: git makes the worktrees it is asked for. *)
Module Demo.
Definition git_run (c : GitCommand) (_ : option bytes) (s : Store) : result chars GitExit * Store :=
  (Ok (mkExit true [] []),
   match rev (gc_args c) with
   | _ :: path :: _ =>
       if bool_decide (lit "add" ∈ gc_args c) then put_inode s (omap (λ c, match c with Normal n => Some n | _ => None end) (components (to_utf8 path))) Dir else s
   | _ => s
   end).
(** Its disk has room for logs of that many bytes. *)
Definition task_host (room : nat) : TaskHost Store := {|
  process_id := 7; env_var _ := None; temp_dir := components (lit "/tmp"); clock w := (1000, w);
  fetch_task_id w := (1, w); cancel_flag w := (false, w); load_or_create _ w := (Ok (repeat 0 32), w);
  write_atomic _ log w := (if (length log <=? room)%nat then Ok tt else Err (lit "disk full"), w); command_output _ w := (Ok (mkGitOutput true [] []), w); file_op _ w := (Ok [], w);
  file_metadata _ w := (Ok (mkFileMeta false true 5 384), w); file_read _ w := (Ok (lit "token"), w);
  git_spawn := git_run; store_of w := w; with_store s _ := s; os_error _ := []; path_io_error _ := []; debug_str s := s |}.
Lemma task_laws room : TaskHostLaws Store (TH := task_host room).
Proof. by split. Qed.
#[local] Existing Instance task_laws.
#[local] Instance roomy_host : TaskHost Store := task_host 4000.
#[local] Instance task_runner : Runner Store := λ _ w, (Ok (mkResult (Code 0) [] [] false), w).
#[local] Instance task_workers : WorkerHost Store := {|
  read_dir _ _ := None; worker_fs := st_fs; Worker.git_status_all _ := Ok []; Worker.git_worktree_diff _ := Ok [] |}.
#[local] Instance task_http : HttpClient Store := {|
  post_lines _ _ _ w := (Err TeTimeout, [], w); http_get _ _ w := (Err TeTimeout, w);
  post_json _ _ _ w := (Ok (mkResponse 201 (lit "{}")), w) |}.
#[local] Instance task_json : SerdeJson := Serde.Demo.json (λ _, Ok (Serde.Demo.JObj [(lit "number", Serde.Demo.JInt 4)])).
(** A toy digest and key, so that the run evaluates fast. *)
#[local] Instance task_hash : Hash := {| hash _ := repeat 0 32; hash_length _ := eq_refl; hash_byte _ := ltac:(by apply (bool_decide_unpack _)) |}.
#[local] Instance task_mac : Mac := {| mac _ _ := repeat 0 32; mac_length _ _ := eq_refl; mac_byte _ _ := ltac:(by apply (bool_decide_unpack _)) |}.
Definition w0 : Store := mkStore (mkFs (list_to_map [([], Dir); ([lit "r"], Dir); ([lit "tmp"], Dir)]) []) ∅.
Definition spec : TaskSpec :=
  mkTaskSpec (components (lit "/r")) (lit <$> ["cargo"; "test"]) TbNative
    (Some (mkPrTarget "o/r" "main" "crustcore" (components (lit "/t")))).
Definition cap : Approved GitHubWriteCap := mkApproved (mkGitHubWriteCap "o/r" "crustcore" 1) 1 (mkAuthorizedUser 7) 2000.
Definition plain : TaskSpec := mkTaskSpec (tk_repo_root spec) (tk_verify spec) TbNative None.
Definition bwrap_host : Host := mkHost (λ _, false) (λ p, str_eq p (lit "/usr/bin/bwrap")).
Definition out := run_one_task bwrap_host false spec [] (Some cap) w0.
Definition is_pull (e : TaskEffect) : option (CreatePrRequest * result GitHubError PrCreated) :=
  match e with PullAsked req r => Some (req, r) | _ => None end.
Definition is_log (e : TaskEffect) : option (list Component * bytes * bool) :=
  match e with Persisted path log ok => Some (path, log, ok) | _ => None end.
(** What a run asked for, logged and left: the head branch, the number of frames of its logs, the worktree removed last. *)
Definition shape {A} (o : option A * list TaskEffect * Store) : option (list chars * list nat * chars) :=
  _ ← o.1.1;
  root ← last o.1.2 ≫= λ e, match e with WorktreeRemoved root => Some root | _ => None end;
  Some (cp_head <$> (omap is_pull o.1.2).*1, (λ l, length (iter l.1.2)) <$> omap is_log o.1.2,
        chars_of (Worker.path_text (root_path root))).
Lemma shape_effects {A} (o : option A * list TaskEffect * Store) h hs n ns root :
  shape o = Some (h :: hs, n :: ns, root) → omap is_pull o.1.2 ≠ [] ∧ omap is_log o.1.2 ≠ [].
Proof.
  unfold shape. destruct o.1.1; [|done]. cbn [mbind option_bind]. destruct (last o.1.2 ≫= _); [|done]. cbn [mbind option_bind].
  by destruct (omap is_pull o.1.2), (omap is_log o.1.2).
Qed.
Example demo_task : shape out =
  Some ([lit "crustcore/chat-00000000000003e80000000700000001"], [7; 9]%nat,
        lit "/tmp/crustcore-worktrees/cc-wt-00000000000003e80000000700000001").
Proof. vm_compute. reflexivity. Qed.
Lemma does_run {W A} (m : TM W A) w : does m (m w).1.1 (m w).1.2.
Proof. exists w, (m w).2. by destruct (m w) as [[? ?] ?]. Qed.
Lemma demo_does : does (run_one_task bwrap_host false spec [] (Some cap)) out.1.1 out.1.2.
Proof. exact (does_run _ w0). Qed.
#[local] Opaque out.
Lemma demo_pull : ∃ req r, PullAsked req r ∈ out.1.2.
Proof.
  assert (∃ x, x ∈ omap is_pull out.1.2) as [[req r] (e & He & Hp)%list_elem_of_omap].
  { pose proof (proj1 (shape_effects _ _ _ _ _ _ demo_task)) as H. destruct (omap is_pull out.1.2) as [|x xs]; [by destruct H|]. exists x. by left. }
  destruct e; try done. injection Hp as -> ->. by exists req, r.
Qed.
Lemma demo_log : ∃ path log ok, Persisted path log ok ∈ out.1.2.
Proof.
  assert (∃ x, x ∈ omap is_log out.1.2) as [[[path log] ok] (e & He & Hp)%list_elem_of_omap].
  { pose proof (proj2 (shape_effects _ _ _ _ _ _ demo_task)) as H. destruct (omap is_log out.1.2) as [|x xs]; [by destruct H|]. exists x. by left. }
  destruct e; try done. injection Hp as -> -> ->. by exists path, log, ok.
Qed.

(** When the write of the log that completes a plain task fails, the worktree stays on disk. *)
Example worktree_left_behind :
  let out := run_one_task (TH := task_host 1500) bwrap_host false plain [] None w0 in
  (bool_decide (is_Some out.1.1),
   existsb (λ e, match e with WorktreeMade _ => true | _ => false end) out.1.2,
   existsb (λ e, match e with WorktreeRemoved _ => true | _ => false end) out.1.2,
   (λ l, length (iter l.1.2)) <$> omap is_log out.1.2) = (true, true, false, [7; 8]%nat).
Proof. vm_compute. reflexivity. Qed.
(** A prefix with a slash at its end is accepted, and the branch that is made of it is none. *)
Example slash_prefix_dead :
  validate_pr_target (mkPrTarget "o/r" "main" "crustcore/" (components (lit "/t"))) = Ok tt ∧
  valid_git_branch (lit "crustcore/" ++ lit "/chat-" ++ hex_digits 32 1) = false.
Proof. split; vm_compute; reflexivity. Qed.

Lemma task_completed_verified_witness : ∃ path log ok n, Persisted path log ok ∈ out.1.2 ∧ EventLog.verify log = Intact n.
Proof.
  destruct demo_log as (path & log & ok & H).
  destruct (task_completed_verified bwrap_host false spec [] (Some cap) _ _ path log ok demo_does H) as [[n Hn] _].
  exists path, log, ok, n. exact (conj H Hn).
Defined.
Lemma task_refines_protocol_witness :
  ∃ task v key ph, out.1.2 ≠ [] ∧ steps bwrap_host false task spec (Some cap) v key PStart out.1.2 ph.
Proof.
  assert (out.1.2 ≠ []) as Hne by (destruct demo_pull as (? & ? & H); destruct out.1.2; [by apply not_elem_of_nil in H|done]).
  destruct (task_refines_protocol bwrap_host false spec [] (Some cap) _ _ demo_does)
    as [[_ H]|(_ & _ & task & v & key & ph & _ & H & _)]; [by destruct Hne|].
  exists task, v, key, ph. exact (conj Hne H).
Defined.
End Demo.
