(* ===== verification/Telegram.v ===== *)
(** * The Telegram channel

    Models [crustcore-daemon/src/telegram.rs]: the allowlist of chats, the typed commands, the
    normalisation of an update into an envelope, the deduplication of update ids, the routing to
    runtime events, the approvals bound to an operation, the renderer of replies, the suppressor
    of abuse reports and the poller that composes them. The Bot API ([TelegramApi]) is a parameter:
    a function from an offset to a batch of updates or an error. *)

From S2P Require Import Prelude Text Std Chars Redactor Types Sha256 Policy Strings.

Definition MAX_INBOUND_TEXT : nat := N.to_nat (8 * 1024).
Definition DEDUPE_WINDOW : nat := N.to_nat 4096.

(** ** The allowlist *)

Record ChatAllowlist := mkChatAllowlist { al_ids : gset Z; al_wildcard : bool }.
Definition deny_all : ChatAllowlist := mkChatAllowlist ∅ false.
Definition allowlist_of (ids : list Z) : ChatAllowlist := mkChatAllowlist (list_to_set ids) false.
Definition allowlist_wildcard : ChatAllowlist := mkChatAllowlist ∅ true.
Definition chat_allows (a : ChatAllowlist) (chat : Z) : bool :=
  al_wildcard a || bool_decide (chat ∈ al_ids a).
(** [chat.0 as u64]: the cast of an [i64] wraps. *)
Definition authorized_user (a : ChatAllowlist) (chat : Z) : option AuthorizedUser :=
  if chat_allows a chat then Some (mkAuthorizedUser (chat mod 2 ^ 64)) else None.

(** ** Updates and commands *)

Record RawUpdate := mkRaw
  { ru_update_id : Z; ru_chat_id : Z; ru_message_id : Z; ru_from_user_id : Z;
    ru_from_username : option chars; ru_text : option chars; ru_callback_data : option chars }.

Inductive Command :=
| CStatus | CTasks | CTask (id : Z) | CApprove (id : Z) | CDeny (id : Z) | CPause (id : Z)
| CResume (id : Z) | CCancel (id : Z) | CKill (id : Z) | CDiff (id : Z) | CLogs (id : Z)
| CBudget | CPolicy | CRepo | CHelp | CUnknown (raw : chars).

(** [Command::parse]: the verb and its first argument. *)
Definition command_parse (text : chars) : Command :=
  match split_whitespace text with
  | [] => CUnknown text
  | verb :: toks =>
      let id := head toks ≫= parse_uint u128_MAX in
      let numbered mk := match id with Some i => mk i | None => CUnknown text end in
      if str_eq verb (lit "/status") then CStatus
      else if str_eq verb (lit "/tasks") then CTasks
      else if str_eq verb (lit "/budget") then CBudget
      else if str_eq verb (lit "/policy") then CPolicy
      else if str_eq verb (lit "/repo") then CRepo
      else if str_eq verb (lit "/help") then CHelp
      else if str_eq verb (lit "/task") then numbered CTask
      else if str_eq verb (lit "/approve") then numbered CApprove
      else if str_eq verb (lit "/deny") then numbered CDeny
      else if str_eq verb (lit "/pause") then numbered CPause
      else if str_eq verb (lit "/resume") then numbered CResume
      else if str_eq verb (lit "/cancel") then numbered CCancel
      else if str_eq verb (lit "/kill") then numbered CKill
      else if str_eq verb (lit "/diff") then numbered CDiff
      else if str_eq verb (lit "/logs") then numbered CLogs
      else CUnknown text
  end.

(** ** Callbacks *)

Record CallbackData := mkCallback { cb_approval_id : Z; cb_decision : ApprovalResolution; cb_op_hash : bytes }.

(** [u8::from_str_radix(s, 16)]: an optional [+] before at least one digit; a value above 255 is
    an error. *)
Definition digit16 (c : Z) : option Z :=
  if in_range 48 57 c then Some (c - 48)
  else if in_range 97 102 c then Some (c - 87)
  else if in_range 65 70 c then Some (c - 55)
  else None.
Fixpoint radix16 (v : Z) (ds : bytes) : option Z :=
  match ds with
  | [] => Some v
  | c :: ds' =>
      d ← digit16 c;
      let v' := v * 16 + d in
      if v' <=? u8_MAX then radix16 v' ds' else None
  end.
Definition u8_from_hex (s : bytes) : option Z :=
  match s with
  | [] => None
  | [c] => if (c =? 43) || (c =? 45) then None else radix16 0 s
  | c :: s' => if c =? 43 then radix16 0 s' else radix16 0 s
  end.
(** [s.get(a..b)] of a string: within bounds and at character boundaries. *)
Definition str_get (s : bytes) (a b : nat) : option bytes :=
  if is_char_boundary s a && is_char_boundary s b then slice s a b else None.
(** The loop over the bytes of the output; [n] bytes from index [i] on. *)
Fixpoint hash_loop (hex : bytes) (i n : nat) : option bytes :=
  match n with
  | O => Some []
  | S n' =>
      s ← str_get hex (i * 2) (i * 2 + 2);
      b ← u8_from_hex s;
      rest ← hash_loop hex (S i) n';
      Some (b :: rest)
  end.
Definition parse_hash_hex (hex : chars) : option bytes :=
  if negb (byte_length hex =? 64)%nat then None else hash_loop (to_utf8 hex) 0 32.

Definition decision_of (verb : chars) : option ApprovalResolution :=
  if str_eq verb (lit "approve") then Some Approve
  else if str_eq verb (lit "deny") then Some Deny
  else None.
(** [CallbackData::parse]: exactly four parts. *)
Definition callback_parse (data : chars) : option CallbackData :=
  match split_on 58 data with
  | tag :: rest =>
      if negb (str_eq tag (lit "ap")) then None else
      match rest with
      | id :: rest =>
          approval_id ← parse_uint u128_MAX id;
          match rest with
          | verb :: rest =>
              decision ← decision_of verb;
              match rest with
              | [hex] => op_hash ← parse_hash_hex hex; Some (mkCallback approval_id decision op_hash)
              | _ => None
              end
          | [] => None
          end
      | [] => None
      end
  | [] => None
  end.

(** ** Normalisation *)

Inductive EnvelopeKind := EKCommand (c : Command) | EKText | EKCallback (cb : CallbackData) | EKSteerButton.
Record InboundEnvelope := mkEnvelope
  { ie_source_chat_id : Z; ie_update_id : Z; ie_message_id : Z; ie_received_at : Timestamp;
    ie_kind : EnvelopeKind; ie_text : chars; ie_steer : bool }.
Inductive RejectReason := NotAllowlisted | Duplicate | Empty | BadCallback.

(** [chat.rs]'s [STEER_BUTTON_DATA]. *)
Definition STEER_BUTTON_DATA : chars := lit "steer".
Definition clean_text (text : chars) : chars :=
  let spaced := filter (λ c, is_control c = false) ((λ c, if is_whitespace c then 32 else c) <$> text) in
  join_with 32 (split_whitespace spaced).
(** The message path: the kind, the steer flag and the content of a cleaned text. *)
Definition classify_text (cleaned : chars) : EnvelopeKind * bool * chars :=
  match strip_prefix [33] cleaned with
  | Some rest => (EKText, true, trim rest)
  | None =>
      if starts_with [47] cleaned then (EKCommand (command_parse cleaned), false, cleaned)
      else (EKText, false, cleaned)
  end.
Definition normalize (raw : RawUpdate) (allowlist : ChatAllowlist) (now : Timestamp)
  : result RejectReason InboundEnvelope :=
  let chat := ru_chat_id raw in
  if negb (chat_allows allowlist chat) then Err NotAllowlisted else
  match ru_callback_data raw with
  | Some cb =>
      kind ← (if str_eq cb STEER_BUTTON_DATA then Ok EKSteerButton
              else cb' ← ok_or (callback_parse cb) BadCallback; Ok (EKCallback cb'));
      Ok (mkEnvelope chat (ru_update_id raw) (ru_message_id raw) now kind
            (truncated_chars [] MAX_INBOUND_TEXT) false)
  | None =>
      let cleaned := clean_text (default [] (ru_text raw)) in
      if str_eq cleaned [] then Err Empty else
      let '(kind, steer, content) := classify_text cleaned in
      Ok (mkEnvelope chat (ru_update_id raw) (ru_message_id raw) now kind
            (truncated_chars content MAX_INBOUND_TEXT) steer)
  end.

(** ** Deduplication *)

Record Deduper := mkDeduper { dd_floor : Z; dd_window : list Z; dd_seen : gset Z }.
Definition Deduper_new : Deduper := mkDeduper i64_MIN [] ∅.
(** [while window.len() > DEDUPE_WINDOW]: one element leaves per turn, so the length is enough
    fuel. *)
Fixpoint evict_fuel (fuel : nat) (d : Deduper) : Deduper :=
  match fuel with
  | O => d
  | S fuel' =>
      if (length (dd_window d) <=? DEDUPE_WINDOW)%nat then d else
      match dd_window d with
      | [] => d
      | evicted :: w =>
          evict_fuel fuel' (mkDeduper (Z.max (dd_floor d) evicted) w (dd_seen d ∖ {[evicted]}))
      end
  end.
Definition evict (d : Deduper) : Deduper := evict_fuel (length (dd_window d)) d.
Definition accept (d : Deduper) (update_id : Z) : Deduper * bool :=
  if bool_decide (update_id ∈ dd_seen d) then (d, false)
  else if update_id <=? dd_floor d then (d, false)
  else (evict (mkDeduper (dd_floor d) (dd_window d ++ [update_id]) (dd_seen d ∪ {[update_id]})), true).

(** ** Routing *)

Inductive RuntimeEvent :=
| QueuedTurn (text : chars) | RSteer (text : chars) | RCommand (c : Command)
| ApprovalCallback (cb : CallbackData) | RSteerButton.
Definition route (e : InboundEnvelope) : RuntimeEvent :=
  match ie_kind e with
  | EKCommand c => RCommand c
  | EKCallback cb => ApprovalCallback cb
  | EKSteerButton => RSteerButton
  | EKText => if ie_steer e then RSteer (ie_text e) else QueuedTurn (ie_text e)
  end.

(** ** Approvals *)

Record ApprovalNonce := mkNonce { an_approval_id : Z; an_op_hash : bytes; an_expires_at : Timestamp }.
Definition hash_hex (b : bytes) : chars := hex_of b.
Definition resolution_verb (d : ApprovalResolution) : chars :=
  match d with Approve => lit "approve" | Deny => lit "deny" end.
Definition callback_data (n : ApprovalNonce) (d : ApprovalResolution) : chars :=
  lit "ap:" ++ dec_u (an_approval_id n) ++ lit ":" ++ resolution_verb d ++ lit ":" ++ hash_hex (an_op_hash n).

Record ApprovedOperation := mkApprovedOp { ao_approval_id : Z; ao_op_hash : bytes; ao_summary : chars }.
Inductive ApprovalOutcome :=
| OApproved (token : Approved ApprovedOperation)
| ODenied (approval_id : Z)
| RejectedNotAllowlisted | RejectedUnknownNonce | RejectedExpired | RejectedOpMismatch.
Record Pending := mkPending { pd_op_hash : bytes; pd_summary : chars; pd_expires_at : Timestamp }.
Record ApprovalEngine := mkApprovals { ae_pending : gmap Z Pending }.
Definition ApprovalEngine_new : ApprovalEngine := mkApprovals ∅.

Definition request (e : ApprovalEngine) (approval_id : Z) (operation summary : chars) (expires_at : Timestamp)
  : ApprovalEngine * ApprovalNonce :=
  let op_hash := sha256 (to_utf8 operation) in
  (mkApprovals (<[approval_id := mkPending op_hash (truncated_chars summary DEFAULT_MAX) expires_at]> (ae_pending e)),
   mkNonce approval_id op_hash expires_at).
Definition is_pending (e : ApprovalEngine) (approval_id : Z) : bool :=
  bool_decide (is_Some (ae_pending e !! approval_id)).
Definition resolve (e : ApprovalEngine) (approval_id : Z) (decision : ApprovalResolution) (chat : Z)
    (allowlist : ChatAllowlist) (now : Timestamp) (callback_op_hash : option bytes)
  : ApprovalEngine * ApprovalOutcome :=
  match authorized_user allowlist chat with
  | None => (e, RejectedNotAllowlisted)
  | Some user =>
      match ae_pending e !! approval_id with
      | None => (e, RejectedUnknownNonce)
      | Some pending =>
          let consumed := mkApprovals (delete approval_id (ae_pending e)) in
          if pd_expires_at pending <? now then (consumed, RejectedExpired) else
          if match callback_op_hash with
             | Some h => negb (bool_decide (h = pd_op_hash pending))
             | None => false
             end
          then (e, RejectedOpMismatch)
          else
            match decision with
            | Deny => (consumed, ODenied approval_id)
            | Approve =>
                let op := mkApprovedOp approval_id (pd_op_hash pending) (pd_summary pending) in
                (consumed, OApproved (approve user op approval_id (pd_expires_at pending)))
            end
      end
  end.

(** ** Rendering

    A reply is what the redactor makes of the rendered text ([ModelVisibleText]). *)

Record StatusSnapshot := mkStatus
  { ss_active_tasks : Z; ss_budget_used : Z; ss_budget_limit : Z; ss_healthy : bool }.
Section Rendering.
Context (redactor : Redactor).
Definition model_visible (text : chars) : bytes := redact redactor (to_utf8 text).
Definition render_status (s : StatusSnapshot) : bytes :=
  model_visible (lit "status: " ++ dec_u (ss_active_tasks s) ++ lit " active task(s); budget " ++
    dec_u (ss_budget_used s) ++ lit "/" ++ dec_u (ss_budget_limit s) ++ lit " micros; channel " ++
    (if ss_healthy s then lit "ok" else lit "degraded")).
Definition approval_request (summary : chars) (nonce : ApprovalNonce) : bytes :=
  model_visible (lit "approval needed (id " ++ dec_u (an_approval_id nonce) ++ lit "): " ++ summary ++
    [10] ++ lit "[approve] [deny]").
Definition verifier_result (passed : bool) (evidence : chars) : bytes :=
  model_visible (lit "verify " ++ (if passed then lit "PASSED" else lit "FAILED") ++ lit ": " ++ evidence).
Definition render_logs (raw_logs : chars) : bytes := model_visible raw_logs.
Definition notice (text : chars) : bytes := model_visible text.
End Rendering.

(** ** Abuse suppression *)

Definition ABUSE_WINDOW_MS : Z := 60000.
Definition MAX_TRACKED_CHATS : nat := N.to_nat 4096.
(** A [BTreeMap] iterated in key order. *)
Record AbuseSuppressor := mkSuppressor { as_window_ms : Z; as_last : list (Z * Z) }.
Definition AbuseSuppressor_new (window_ms : Z) : AbuseSuppressor := mkSuppressor window_ms [].
(** [iter().min_by_key(|(_, &t)| t)]: the first entry of least timestamp. *)
Fixpoint oldest (m : list (Z * Z)) : option (Z * Z) :=
  match m with
  | [] => None
  | p :: m' =>
      match oldest m' with
      | Some q => if q.2 <? p.2 then Some q else Some p
      | None => Some p
      end
  end.
Definition make_room (m : list (Z * Z)) : list (Z * Z) :=
  if (MAX_TRACKED_CHATS <=? length m)%nat then
    match oldest m with Some (k, _) => bt_remove k m | None => m end
  else m.
Definition should_surface (s : AbuseSuppressor) (chat : Z) (now : Timestamp) : AbuseSuppressor * bool :=
  match bt_get (as_last s) chat with
  | Some last =>
      if saturating_sub now last <? as_window_ms s then (s, false)
      else (mkSuppressor (as_window_ms s) (bt_insert (as_last s) chat now), true)
  | None => (mkSuppressor (as_window_ms s) (bt_insert (make_room (as_last s)) chat now), true)
  end.
Definition tracked (s : AbuseSuppressor) : nat := length (as_last s).

(** ** The poller *)

Inductive TgError := TgTransport (e : chars) | TgApi (e : chars).
Definition tg_error_fmt (e : TgError) : chars :=
  match e with TgTransport e => lit "telegram transport: " ++ e | TgApi e => lit "telegram api: " ++ e end.
Record TelegramPoller := mkPoller
  { po_offset : Z; po_deduper : Deduper; po_allowlist : ChatAllowlist; po_rejected : Z;
    po_suppressor : AbuseSuppressor }.
Definition TelegramPoller_new (allowlist : ChatAllowlist) : TelegramPoller :=
  mkPoller 0 Deduper_new allowlist 0 (AbuseSuppressor_new ABUSE_WINDOW_MS).
Definition saturating_succ (x : Z) : Z := Z.min i64_MAX (x + 1).
(** The body of the loop over a batch: the poller after an update, and its event. *)
Definition poll_update (now : Timestamp) (p : TelegramPoller) (raw : RawUpdate)
  : TelegramPoller * list (Z * RuntimeEvent) :=
  let offset := Z.max (po_offset p) (saturating_succ (ru_update_id raw)) in
  let '(deduper, fresh) := accept (po_deduper p) (ru_update_id raw) in
  let p1 := mkPoller offset deduper (po_allowlist p) (po_rejected p) (po_suppressor p) in
  if negb fresh then (p1, []) else
  match normalize raw (po_allowlist p) now with
  | Ok envelope => (p1, [(ie_source_chat_id envelope, route envelope)])
  | Err NotAllowlisted =>
      let '(suppressor, surface) := should_surface (po_suppressor p) (ru_chat_id raw) now in
      (mkPoller offset deduper (po_allowlist p)
         (if surface then saturating_add u32_MAX (po_rejected p) 1 else po_rejected p) suppressor, [])
  | Err _ => (p1, [])
  end.
Fixpoint poll_batch (now : Timestamp) (p : TelegramPoller) (updates : list RawUpdate)
  : TelegramPoller * list (Z * RuntimeEvent) :=
  match updates with
  | [] => (p, [])
  | raw :: rest =>
      let '(p1, ev) := poll_update now p raw in
      let '(p2, evs) := poll_batch now p1 rest in
      (p2, ev ++ evs)
  end.
Definition poll_routed (p : TelegramPoller) (get_updates : Z → result TgError (list RawUpdate)) (now : Timestamp)
  : TelegramPoller * result TgError (list (Z * RuntimeEvent)) :=
  match get_updates (po_offset p) with
  | Ok updates => let '(p', evs) := poll_batch now p updates in (p', Ok evs)
  | Err e => (p, Err e)
  end.
Definition poll_once (p : TelegramPoller) (get_updates : Z → result TgError (list RawUpdate)) (now : Timestamp)
  : TelegramPoller * result TgError (list RuntimeEvent) :=
  let '(p', r) := poll_routed p get_updates now in (p', (λ evs, evs.*2) <$> r).
