(* ===== verification/TelegramTheorems.v ===== *)
(** * Theorems of the Telegram channel

    The callback of an approval button parses back to the nonce it came from; a text that is
    queued for the model is never a command; an update id yields an event at most once over any
    history of polls, and only for an allowlisted chat; an approval token names the operation that
    was requested, and a pending approval is spent at most once; the suppressor is bounded. *)

From S2P Require Import Prelude Text Std Chars Redactor Types Sha256 Policy Strings Telegram.

(** ** Callback round trip *)

Lemma digit16_hex d : 0 ≤ d < 16 → digit16 (hex_digit d) = Some d.
Proof.
  intros Hd. assert (d = 0 ∨ d = 1 ∨ d = 2 ∨ d = 3 ∨ d = 4 ∨ d = 5 ∨ d = 6 ∨ d = 7 ∨ d = 8 ∨ d = 9
    ∨ d = 10 ∨ d = 11 ∨ d = 12 ∨ d = 13 ∨ d = 14 ∨ d = 15) as Hc by lia.
  repeat destruct Hc as [->|Hc]; try reflexivity. subst. reflexivity.
Qed.
Lemma hex_digit_ascii d : 0 ≤ d < 16 → 48 ≤ hex_digit d < 128 ∧ hex_digit d ≠ 58.
Proof. intros Hd. unfold hex_digit. case_match; lia. Qed.

Lemma u8_from_hex_byte b : is_byte b → u8_from_hex (hex_byte b) = Some b.
Proof.
  intros Hb. unfold is_byte in Hb. unfold u8_from_hex, hex_byte.
  assert (0 ≤ b / 16 < 16) as H1 by (split; [apply Z.div_pos; lia|apply Z.div_lt_upper_bound; lia]).
  pose proof (Z.mod_pos_bound b 16 ltac:(lia)) as H2.
  destruct (Z.eqb_spec (hex_digit (b / 16)) 43) as [E|_]; [pose proof (hex_digit_ascii _ H1); lia|].
  cbn [radix16]. rewrite !digit16_hex by done. cbn [mbind option_bind].
  pose proof (Z.div_mod b 16).
  assert ((0 * 16 + b / 16 <=? u8_MAX) = true) as -> by (unfold u8_MAX; lia).
  assert (((0 * 16 + b / 16) * 16 + b mod 16 <=? u8_MAX) = true) as -> by (unfold u8_MAX; lia).
  f_equal. lia.
Qed.

Lemma hex_of_ascii l : Forall is_byte l → Forall (λ c, 48 ≤ c < 128 ∧ c ≠ 58) (hex_of l).
Proof.
  induction 1 as [|b l Hb _ IH]; [constructor|].
  change (hex_of (b :: l)) with (hex_byte b ++ hex_of l). unfold hex_byte, is_byte in *.
  repeat constructor; try done; (apply hex_digit_ascii + idtac);
    first [split; [apply Z.div_pos; lia|apply Z.div_lt_upper_bound; lia]|apply Z.mod_pos_bound; lia].
Qed.
Lemma ascii_boundary s i : Forall (λ c, 0 ≤ c < 128) s → (i ≤ length s)%nat → is_char_boundary s i = true.
Proof.
  intros Hs Hi. unfold is_char_boundary. destruct (decide (i = 0%nat)); [done|].
  destruct (s !! i) as [b|] eqn:E.
  - eapply Forall_lookup_1 in E; [|exact Hs]. unfold is_cont. simpl in E. apply negb_true_iff, andb_false_iff. lia.
  - apply lookup_ge_None in E. apply bool_decide_eq_true. lia.
Qed.

Lemma hash_loop_hex l pre :
  Forall is_byte l → Forall is_byte pre →
  hash_loop (hex_of pre ++ hex_of l) (length pre) (length l) = Some l.
Proof.
  intros Hl. revert pre. induction Hl as [|b l Hb Hl IH]; intros pre Hpre; [done|].
  change (hex_of (b :: l)) with (hex_byte b ++ hex_of l). cbn [length hash_loop].
  set (s := hex_of pre ++ hex_byte b ++ hex_of l).
  assert (Forall (λ c, 0 ≤ c < 128) s) as Hs.
  { assert (s = hex_of (pre ++ [b] ++ l)) as ->.
    { unfold s, hex_of. rewrite !bind_app. done. }
    eapply Forall_impl; [apply hex_of_ascii|simpl; lia]. apply Forall_app. split; [done|]. by constructor. }
  assert (length s = (2 * length pre + (2 + 2 * length l)))%nat as Hlen.
  { unfold s. rewrite !length_app, !length_hex_of. simpl. lia. }
  unfold str_get. rewrite !ascii_boundary by (done || lia). cbn [andb].
  assert (slice s (length pre * 2) (length pre * 2 + 2) = Some (hex_byte b)) as ->.
  { replace (length pre * 2)%nat with (length (hex_of pre)) by (rewrite length_hex_of; lia).
    apply (slice_app (hex_of pre) (hex_byte b) (hex_of l)). }
  cbn [mbind option_bind]. rewrite u8_from_hex_byte by done. cbn [mbind option_bind].
  specialize (IH (pre ++ [b])). rewrite length_app in IH. simpl in IH.
  replace (S (length pre)) with (length pre + 1)%nat by lia.
  replace s with (hex_of (pre ++ [b]) ++ hex_of l).
  - rewrite IH; [done|]. apply Forall_app. split; [done|]. by constructor.
  - unfold s, hex_of. rewrite bind_app, <-app_assoc. simpl. done.
Qed.

Lemma parse_hash_hex_of l : Forall is_byte l → length l = 32%nat → parse_hash_hex (hex_of l) = Some l.
Proof.
  intros Hl Hn. pose proof (hex_of_ascii l Hl) as Ha. unfold parse_hash_hex, byte_length.
  rewrite to_utf8_ascii by (eapply Forall_impl; [exact Ha|simpl; lia]).
  rewrite length_hex_of, Hn. cbn [Nat.mul Nat.add Nat.eqb negb].
  rewrite <-Hn. by apply (hash_loop_hex l []).
Qed.

Lemma colon_free_dec n : 0 ≤ n → 58 ∉ dec_u n.
Proof. intros Hn Hin. apply dec_u_digits in Hin; lia. Qed.
Lemma colon_free_verb d : 58 ∉ resolution_verb d.
Proof. destruct d; apply (bool_decide_unpack _); by vm_compute. Qed.
Lemma decision_of_verb d : decision_of (resolution_verb d) = Some d.
Proof. by destruct d. Qed.

Lemma callback_data_parts id d h :
  0 ≤ id → (58 ∉ h) →
  split_on 58 (lit "ap:" ++ dec_u id ++ lit ":" ++ resolution_verb d ++ lit ":" ++ h)
  = [lit "ap"; dec_u id; resolution_verb d; h].
Proof.
  intros Hid Hh. change (lit "ap:") with (lit "ap" ++ [58]). change (lit ":") with [58].
  rewrite <-!app_assoc. cbn [app]. rewrite split_on_app by (apply (bool_decide_unpack _); by vm_compute).
  change (58 :: ?x) with ([58] ++ x). cbn [app].
  rewrite (split_on_app 58 (dec_u id)) by by apply colon_free_dec.
  rewrite (split_on_app 58 (resolution_verb d)) by apply colon_free_verb.
  by rewrite split_on_clean.
Qed.

(** A button's data parses back to the approval, the decision and the operation hash of the nonce
    it was made from. *)
Theorem callback_roundtrip n d :
  0 ≤ an_approval_id n ≤ u128_MAX → Forall is_byte (an_op_hash n) → length (an_op_hash n) = 32%nat →
  callback_parse (callback_data n d) = Some (mkCallback (an_approval_id n) d (an_op_hash n)).
Proof.
  intros Hid Hb Hl. unfold callback_parse, callback_data, hash_hex.
  rewrite callback_data_parts; [|lia|].
  2:{ intros Hin. pose proof (hex_of_ascii _ Hb) as Ha. rewrite Forall_forall in Ha.
      by destruct (Ha _ Hin) as [_ []]. }
  assert (str_eq (lit "ap") (lit "ap") = true) as -> by done. cbn [negb].
  rewrite parse_uint_dec_u by done. cbn [mbind option_bind]. rewrite decision_of_verb.
  cbn [mbind option_bind]. by rewrite parse_hash_hex_of.
Qed.

(** The tolerance of the hash parser: a sign in front of a digit is read as a zero. *)
Lemma parse_hash_hex_sign :
  parse_hash_hex (lit "+f+f+f+f+f+f+f+f+f+f+f+f+f+f+f+f+f+f+f+f+f+f+f+f+f+f+f+f+f+f+f+f")
  = Some (replicate 32 15).
Proof. vm_compute. reflexivity. Qed.

(** ** Deduplication *)

(** The ids of a list that are accepted, in order. *)
Fixpoint accept_all (d : Deduper) (ids : list Z) : Deduper * list Z :=
  match ids with
  | [] => (d, [])
  | i :: rest =>
      let '(d1, fresh) := accept d i in
      let '(d2, got) := accept_all d1 rest in
      (d2, if fresh then i :: got else got)
  end.

(** What the deduper knows of the ids accepted so far. *)
Record dd_ok (hist : list Z) (d : Deduper) : Prop := mk_dd_ok
  { ok_seen : dd_seen d = list_to_set (dd_window d);
    ok_nodup : NoDup (dd_window d);
    ok_covered : ∀ x, x ∈ hist → x ∈ dd_window d ∨ x ≤ dd_floor d;
    ok_window : ∀ x, x ∈ dd_window d → x ∈ hist;
    ok_floor : dd_floor d = i64_MIN ∨ (dd_floor d ∈ hist ∧ (DEDUPE_WINDOW < length hist)%nat);
    ok_length : (length (dd_window d) ≤ length hist)%nat }.

Lemma dd_ok_new : dd_ok [] Deduper_new.
Proof. split; simpl; try set_solver; by (left || constructor). Qed.

Lemma evict_fuel_ok hist fuel d : dd_ok hist d → dd_ok hist (evict_fuel fuel d).
Proof.
  revert d. induction fuel as [|fuel IH]; intros d Hd; [done|]. cbn [evict_fuel].
  destruct (length (dd_window d) <=? DEDUPE_WINDOW)%nat eqn:Hlen; [done|].
  apply Nat.leb_gt in Hlen. destruct (dd_window d) as [|x w] eqn:Hw; [done|]. apply IH.
  destruct Hd as [Hs Hn Hc Hin Hf Hl]. rewrite Hw in *. apply NoDup_cons in Hn as [Hx Hn].
  split; cbn [dd_floor dd_window dd_seen].
  - rewrite Hs. set_solver.
  - done.
  - intros y Hy. destruct (Hc y Hy) as [[->|?]%elem_of_cons|?]; [right; lia|by left|right; lia].
  - intros y Hy. apply Hin. by right.
  - destruct (Z.max_spec (dd_floor d) x) as [[_ ->]|[_ ->]]; [|destruct Hf as [Hf|Hf]; [by left|by right]].
    right. split; [apply Hin; by left|lia].
  - simpl in Hl. lia.
Qed.

Lemma evict_fuel_bound fuel d :
  (length (dd_window d) ≤ fuel + DEDUPE_WINDOW)%nat →
  (length (dd_window (evict_fuel fuel d)) ≤ DEDUPE_WINDOW)%nat.
Proof.
  revert d. induction fuel as [|fuel IH]; intros d Hd; [done|]. cbn [evict_fuel].
  destruct (length (dd_window d) <=? DEDUPE_WINDOW)%nat eqn:Hlen; [by apply Nat.leb_le|].
  destruct (dd_window d) as [|x w] eqn:Hw; [rewrite Hw; simpl; lia|]. apply IH. simpl in *. lia.
Qed.

(** What is in the history is refused; what is accepted is new and is recorded. *)
Lemma accept_ok hist d i :
  dd_ok hist d →
  (i ∈ hist → accept d i = (d, false)) ∧
  ((accept d i).2 = true → (i ∉ hist) ∧ dd_ok (hist ++ [i]) (accept d i).1) ∧
  ((accept d i).2 = false → (accept d i).1 = d ∧ (i ∈ hist ∨ i ≤ i64_MIN ∨ (DEDUPE_WINDOW < length hist)%nat)).
Proof.
  intros Hd. pose proof Hd as [Hs Hn Hc Hin Hf Hl]. unfold accept.
  destruct (bool_decide_reflect (i ∈ dd_seen d)) as [Hi|Hi]; cbn [fst snd].
  { split; [done|]. split; [done|]. intros _. split; [done|]. left. apply Hin.
    rewrite Hs in Hi. by apply elem_of_list_to_set in Hi. }
  rewrite Hs, elem_of_list_to_set in Hi.
  destruct (Z.leb_spec i (dd_floor d)) as [Hle|Hgt]; cbn [fst snd].
  { split; [done|]. split; [done|]. intros _. split; [done|].
    destruct Hf as [Hf|[_ Hf]]; [right; left; lia|by right; right]. }
  split; [|split; [|done]].
  { intros Hh. destruct (Hc i Hh); [done|lia]. }
  intros _. split; [intros Hh; destruct (Hc i Hh); [done|lia]|]. apply evict_fuel_ok.
  split; cbn [dd_floor dd_window dd_seen].
  - rewrite Hs. set_solver.
  - apply NoDup_app. split; [done|]. split; [|apply NoDup_singleton]. set_solver.
  - intros y [Hy|Hy]%elem_of_app; [|left; set_solver]. destruct (Hc y Hy); [left; set_solver|by right].
  - intros y [Hy|Hy]%elem_of_app; [|set_solver]. apply elem_of_app. left. by apply Hin.
  - destruct Hf as [?|[? ?]]; [by left|right]. rewrite length_app. split; [set_solver|lia].
  - rewrite !length_app. simpl. lia.
Qed.

Lemma accept_bound d i :
  (length (dd_window d) ≤ DEDUPE_WINDOW)%nat → (length (dd_window (accept d i).1) ≤ DEDUPE_WINDOW)%nat.
Proof.
  intros Hd. unfold accept. destruct (bool_decide _); [done|]. destruct (_ <=? _); [done|].
  cbn [fst]. apply evict_fuel_bound. cbn [dd_window]. lia.
Qed.

(** Over any sequence of ids: none is accepted twice, and until the window has overflowed none is
    lost. *)
Theorem dedupe_exact hist d ids :
  dd_ok hist d →
  let got := (accept_all d ids).2 in
  dd_ok (hist ++ got) (accept_all d ids).1 ∧
  (NoDup hist → NoDup (hist ++ got)) ∧
  ((length (hist ++ got) ≤ DEDUPE_WINDOW)%nat → ∀ i, i ∈ ids → i64_MIN < i → i ∈ hist ++ got).
Proof.
  revert hist d. induction ids as [|i rest IH]; intros hist d Hd; cbn zeta.
  { cbn [accept_all fst snd]. rewrite app_nil_r. split; [done|]. split; [done|]. set_solver. }
  cbn [accept_all]. destruct (accept_ok hist d i Hd) as (_ & Hnew & Hold).
  destruct (accept d i) as [d1 fresh] eqn:Ha. cbn [fst snd] in *.
  destruct (accept_all d1 rest) as [d2 got] eqn:Hg. cbn [fst snd]. destruct fresh.
  - destruct (Hnew eq_refl) as [Hi Hd1]. specialize (IH _ _ Hd1). rewrite Hg in IH. cbn [fst snd] in IH.
    rewrite <-app_assoc in IH. cbn [app] in IH. destruct IH as (H1 & H2 & H3).
    split; [done|]. split.
    + intros Hnd. apply H2. apply NoDup_app. split; [done|]. split; [set_solver|apply NoDup_singleton].
    + intros Hlen j [->|Hj]%elem_of_cons Hmin; [set_solver|by apply H3].
  - destruct (Hold eq_refl) as [-> Hwhy]. specialize (IH _ _ Hd). rewrite Hg in IH. cbn [fst snd] in IH.
    destruct IH as (H1 & H2 & H3). split; [done|]. split; [done|].
    intros Hlen j [->|Hj]%elem_of_cons Hmin; [|by apply H3].
    destruct Hwhy as [?|[?|?]]; [set_solver|lia|]. rewrite length_app in Hlen. lia.
Qed.

(** ** Normalisation and routing *)

(** The event an update is worth, read off the stages: nothing unless it normalises. *)
Definition event_of (al : ChatAllowlist) (now : Timestamp) (raw : RawUpdate) : option (Z * RuntimeEvent) :=
  match normalize raw al now with
  | Ok e => Some (ie_source_chat_id e, route e)
  | Err _ => None
  end.

Lemma normalize_Ok raw al now e :
  normalize raw al now = Ok e →
  chat_allows al (ru_chat_id raw) = true ∧ ie_source_chat_id e = ru_chat_id raw ∧
  ie_update_id e = ru_update_id raw ∧ ie_received_at e = now.
Proof.
  unfold normalize. destruct (chat_allows al (ru_chat_id raw)); cbn [negb]; [|done].
  destruct (ru_callback_data raw) as [cb|].
  - destruct (str_eq cb _); cbn [mbind result_bind]; [by intros [= <-]|].
    destruct (callback_parse cb); cbn [ok_or mbind result_bind]; [by intros [= <-]|done].
  - destruct (str_eq _ []); [done|]. destruct (classify_text _) as [[k s] c]. by intros [= <-].
Qed.

Lemma event_of_allowed al now raw ev :
  event_of al now raw = Some ev → chat_allows al ev.1 = true ∧ ev.1 = ru_chat_id raw.
Proof.
  unfold event_of. destruct (normalize raw al now) as [e|] eqn:E; [|done]. intros [= <-].
  apply normalize_Ok in E as (Ha & Hc & _). cbn [fst]. by rewrite Hc.
Qed.

Lemma clean_words_chars ws c :
  c ∈ join_with 32 ws → c = 32 ∨ ∃ w, w ∈ ws ∧ c ∈ w.
Proof.
  induction ws as [|w ws IH]; [set_solver|]. destruct ws as [|w' ws]; [simpl; set_solver|].
  change (join_with 32 (w :: w' :: ws)) with (w ++ 32 :: join_with 32 (w' :: ws)).
  rewrite elem_of_app, elem_of_cons. intros [?|[?|Hc]]; [set_solver|by left|].
  apply IH in Hc as [?|(v & ? & ?)]; [by left|]. right. exists v. set_solver.
Qed.
Lemma words_from_elem word s w c : w ∈ words_from word s → c ∈ w → c ∈ word ++ s.
Proof.
  revert word. induction s as [|x s IH]; intros word; cbn [words_from].
  - destruct word as [|y word]; [by intros H%elem_of_nil|]. intros ->%list_elem_of_singleton Hc.
    by rewrite app_nil_r.
  - destruct (is_whitespace x).
    + destruct word as [|y word]; [intros H Hc; apply (IH [] H) in Hc; set_solver|].
      intros [->|H]%elem_of_cons Hc; [set_solver|]. apply (IH [] H) in Hc. set_solver.
    + intros H Hc. apply (IH _ H) in Hc. set_solver.
Qed.
(** A cleaned text holds no control character and no white space but the space. *)
Lemma clean_text_chars text c : c ∈ clean_text text → is_control c = false ∧ (is_whitespace c = true → c = 32).
Proof.
  unfold clean_text. intros [->|(w & Hw & Hc)]%clean_words_chars; [done|].
  pose proof (split_whitespace_ok (filter (λ c, is_control c = false)
    ((λ c, if is_whitespace c then 32 else c) <$> text))) as Hall.
  rewrite Forall_forall in Hall. destruct (Hall w Hw) as [_ Hws].
  apply (words_from_elem [] _ _ _ Hw) in Hc as Hin. cbn [app] in Hin.
  apply list_elem_of_filter in Hin as [Hctl _]. split; [done|].
  rewrite forallb_forall in Hws. rewrite list_elem_of_In in Hc. apply Hws in Hc.
  intros Ht. by rewrite Ht in Hc.
Qed.

(** A text that starts with a slash is a command, whatever its verb: only other texts reach a
    model. *)
Theorem slash_never_queued al now raw chat text :
  event_of al now raw = Some (chat, QueuedTurn text) →
  ru_callback_data raw = None ∧
  text = truncated_chars (clean_text (default [] (ru_text raw))) MAX_INBOUND_TEXT ∧
  clean_text (default [] (ru_text raw)) ≠ [] ∧
  starts_with [47] (clean_text (default [] (ru_text raw))) = false ∧
  starts_with [33] (clean_text (default [] (ru_text raw))) = false.
Proof.
  unfold event_of, normalize. destruct (chat_allows al _); cbn [negb]; [|done].
  destruct (ru_callback_data raw) as [cb|].
  { destruct (str_eq cb _); cbn [mbind result_bind]; [by intros [=]|].
    destruct (callback_parse cb); cbn [ok_or mbind result_bind]; [by intros [=]|done]. }
  set (t := clean_text _). destruct (str_eq t []) eqn:He; [by intros [=]|].
  apply bool_decide_eq_false in He.
  unfold classify_text. destruct (strip_prefix [33] t) eqn:E33; [by intros [=]|].
  destruct (starts_with [47] t) eqn:E47; cbn [route ie_kind ie_steer ie_text]; [by intros [=]|].
  intros [= _ Ht]. split; [done|]. split; [exact (eq_sym Ht)|]. split; [done|]. split; [done|].
  apply bool_decide_eq_false. rewrite E33. by intros [? ?].
Qed.

(** ** The poller *)

Lemma poll_update_spec now p raw :
  let '(p', evs) := poll_update now p raw in
  po_allowlist p' = po_allowlist p ∧
  po_deduper p' = (accept (po_deduper p) (ru_update_id raw)).1 ∧
  po_offset p' = Z.max (po_offset p) (saturating_succ (ru_update_id raw)) ∧
  evs = (if (accept (po_deduper p) (ru_update_id raw)).2
         then option_list (event_of (po_allowlist p) now raw) else []).
Proof.
  unfold poll_update, event_of. destruct (accept (po_deduper p) (ru_update_id raw)) as [d fresh].
  destruct fresh; cbn [negb fst snd]; [|done].
  destruct (normalize raw (po_allowlist p) now) as [e|[]]; try done.
  by destruct (should_surface _ _ _) as [s b].
Qed.

(** A poll keeps the allowlist and reports only chats of it. *)
Lemma poll_batch_allowed now p batch :
  po_allowlist (poll_batch now p batch).1 = po_allowlist p ∧
  ∀ e, e ∈ (poll_batch now p batch).2 → chat_allows (po_allowlist p) e.1 = true.
Proof.
  revert p. induction batch as [|raw batch IH]; intros p; [split; [done|set_solver]|]. cbn [poll_batch].
  pose proof (poll_update_spec now p raw) as Hu. destruct (poll_update now p raw) as [p1 ev].
  destruct Hu as (Ha & _ & _ & ->). specialize (IH p1). destruct (poll_batch now p1 batch) as [p2 evs].
  cbn [fst snd] in *. destruct IH as [H1 H2]. rewrite Ha in *. split; [done|].
  intros e [He|He]%elem_of_app; [|by apply H2].
  destruct (accept _ _).2; [|by apply elem_of_nil in He].
  destruct (event_of (po_allowlist p) now raw) as [x|] eqn:E; cbn in He; [|by apply elem_of_nil in He].
  apply list_elem_of_singleton in He as ->. by apply event_of_allowed in E as [? _].
Qed.
Lemma poll_routed_allowed p upd now :
  po_allowlist (poll_routed p upd now).1 = po_allowlist p ∧
  ∀ evs e, (poll_routed p upd now).2 = Ok evs → e ∈ evs → chat_allows (po_allowlist p) e.1 = true.
Proof.
  unfold poll_routed. destruct (upd (po_offset p)) as [batch|e]; [|done].
  pose proof (poll_batch_allowed now p batch) as [H1 H2]. destruct (poll_batch now p batch) as [p' evs].
  cbn [fst snd] in *. split; [done|]. intros ? e [= <-]. apply H2.
Qed.

(** A history of polls: the time of each and the batch it fetched. *)
Definition deliveries (runs : list (Timestamp * list RawUpdate)) : list (Timestamp * RawUpdate) :=
  runs ≫= λ r, pair r.1 <$> r.2.
Fixpoint poll_history (p : TelegramPoller) (runs : list (Timestamp * list RawUpdate))
  : TelegramPoller * list (Z * RuntimeEvent) :=
  match runs with
  | [] => (p, [])
  | (now, batch) :: rest =>
      let '(p1, evs) := poll_routed p (λ _, Ok batch) now in
      let '(p2, evs') := poll_history p1 rest in
      (p2, (match evs with Ok l => l | Err _ => [] end) ++ evs')
  end.
Fixpoint poll_each (p : TelegramPoller) (xs : list (Timestamp * RawUpdate))
  : TelegramPoller * list (Z * RuntimeEvent) :=
  match xs with
  | [] => (p, [])
  | (now, raw) :: rest =>
      let '(p1, ev) := poll_update now p raw in
      let '(p2, evs) := poll_each p1 rest in
      (p2, ev ++ evs)
  end.
Lemma poll_each_app p xs ys :
  poll_each p (xs ++ ys) =
  let '(p1, e1) := poll_each p xs in let '(p2, e2) := poll_each p1 ys in (p2, e1 ++ e2).
Proof.
  revert p. induction xs as [|[now raw] xs IH]; intros p; cbn [app poll_each].
  - by destruct (poll_each p ys).
  - destruct (poll_update now p raw) as [p1 ev]. rewrite IH. destruct (poll_each p1 xs) as [p2 e1].
    destruct (poll_each p2 ys) as [p3 e2]. by rewrite app_assoc.
Qed.
Lemma poll_batch_each now p batch : poll_batch now p batch = poll_each p (pair now <$> batch).
Proof.
  revert p. induction batch as [|raw batch IH]; intros p; [done|]. cbn [poll_batch fmap list_fmap poll_each].
  destruct (poll_update now p raw) as [p1 ev]. by rewrite IH.
Qed.
Lemma poll_history_each p runs : poll_history p runs = poll_each p (deliveries runs).
Proof.
  revert p. induction runs as [|[now batch] runs IH]; intros p; [done|].
  change (deliveries ((now, batch) :: runs)) with ((pair now <$> batch) ++ deliveries runs).
  cbn [poll_history]. unfold poll_routed. rewrite poll_batch_each, poll_each_app.
  destruct (poll_each p (pair now <$> batch)) as [p1 e1]. rewrite IH. done.
Qed.

Definition delivered_id (x : Timestamp * RawUpdate) : Z := ru_update_id x.2.

Lemma poll_each_exact al hist p xs :
  po_allowlist p = al → dd_ok hist (po_deduper p) → NoDup hist →
  ∃ processed,
    processed `sublist_of` xs ∧
    dd_ok (hist ++ (delivered_id <$> processed)) (po_deduper (poll_each p xs).1) ∧
    NoDup (hist ++ (delivered_id <$> processed)) ∧
    (poll_each p xs).2 = omap (λ x, event_of al x.1 x.2) processed ∧
    ((length (hist ++ (delivered_id <$> processed)) ≤ DEDUPE_WINDOW)%nat →
     ∀ x, x ∈ xs → i64_MIN < delivered_id x → delivered_id x ∈ hist ++ (delivered_id <$> processed)) ∧
    po_offset p ≤ po_offset (poll_each p xs).1 ∧
    ∀ x, x ∈ xs → saturating_succ (delivered_id x) ≤ po_offset (poll_each p xs).1.
Proof.
  revert hist p. induction xs as [|[now raw] xs IH]; intros hist p Hal Hd Hnd.
  { exists []. cbn [poll_each fst snd fmap list_fmap]. rewrite app_nil_r.
    split; [constructor|]. repeat (split; [done|]). set_solver. }
  cbn [poll_each]. pose proof (poll_update_spec now p raw) as Hu.
  destruct (poll_update now p raw) as [p1 ev]. destruct Hu as (Ha1 & Hd1 & Ho1 & ->).
  destruct (accept_ok hist (po_deduper p) (ru_update_id raw) Hd) as (_ & Hnew & Hold).
  destruct (accept (po_deduper p) (ru_update_id raw)) as [d1 fresh]. cbn [fst snd] in *. subst d1.
  destruct fresh.
  - destruct (Hnew eq_refl) as [Hi Hok].
    destruct (IH (hist ++ [ru_update_id raw]) p1) as (pr & Hsub & Hok2 & Hnd2 & He & Hlost & Hmono & Hoff);
      [congruence|done|apply NoDup_app; split; [done|]; split; [set_solver|apply NoDup_singleton]|].
    destruct (poll_each p1 xs) as [p2 evs]. cbn [fst snd] in *.
    exists ((now, raw) :: pr). rewrite <-app_assoc in *. cbn [app fmap list_fmap] in *.
    split; [by constructor|]. split; [done|]. split; [done|].
    split; [by rewrite omap_cons_app, <-He, Hal|].
    split; [|split; [lia|]].
    + intros Hlen x [->|Hx]%elem_of_cons Hmin; [|by apply Hlost]. unfold delivered_id. set_solver.
    + intros x [->|Hx]%elem_of_cons; [unfold delivered_id; simpl; lia|by apply Hoff].
  - destruct (Hold eq_refl) as [Hsame Hwhy]. rewrite Hsame in *.
    destruct (IH hist p1) as (pr & Hsub & Hok2 & Hnd2 & He & Hlost & Hmono & Hoff); [congruence|congruence|done|].
    destruct (poll_each p1 xs) as [p2 evs]. cbn [fst snd app] in *. exists pr.
    split; [by constructor|]. split; [done|]. split; [done|]. split; [done|].
    split; [|split; [lia|]].
    + intros Hlen x [->|Hx]%elem_of_cons Hmin; [|by apply Hlost]. unfold delivered_id in *. cbn [snd] in *.
      destruct Hwhy as [?|[?|?]]; [set_solver|lia|]. rewrite length_app in Hlen. lia.
    + intros x [->|Hx]%elem_of_cons; [unfold delivered_id; simpl; lia|by apply Hoff].
Qed.

(** C31: Over any history of polls: the events are those of a subsequence of the delivered updates in
    which no update id occurs twice, each from an allowlisted chat; until the window has
    overflowed every delivered id is in it; and the offset is past every delivered update. *)
Theorem telegram_exactly_once al runs :
  let '(p, evs) := poll_history (TelegramPoller_new al) runs in
  ∃ processed,
    processed `sublist_of` deliveries runs ∧
    NoDup (delivered_id <$> processed) ∧
    evs = omap (λ x, event_of al x.1 x.2) processed ∧
    (∀ ev, ev ∈ evs → chat_allows al ev.1 = true) ∧
    ((length processed ≤ DEDUPE_WINDOW)%nat →
     ∀ x, x ∈ deliveries runs → i64_MIN < delivered_id x → delivered_id x ∈ delivered_id <$> processed) ∧
    (length (dd_window (po_deduper p)) ≤ length processed)%nat ∧
    ∀ x, x ∈ deliveries runs → saturating_succ (delivered_id x) ≤ po_offset p.
Proof.
  rewrite poll_history_each.
  destruct (poll_each_exact al [] (TelegramPoller_new al) (deliveries runs) eq_refl dd_ok_new (NoDup_nil_2))
    as (pr & Hsub & Hok & Hnd & He & Hlost & _ & Hoff).
  destruct (poll_each _ _) as [p evs]. cbn [fst snd app] in *. exists pr.
  split; [done|]. split; [done|]. split; [done|]. split; [|split; [|split; [|done]]].
  - intros ev. rewrite He, list_elem_of_omap. intros (x & _ & Hx). by apply event_of_allowed in Hx as [? _].
  - intros Hlen. apply Hlost. by rewrite length_fmap.
  - pose proof (ok_length _ _ Hok) as Hl. by rewrite length_fmap in Hl.
Qed.

(** ** Approvals *)

(** The outcome of a resolution, read off its conditions: the first that fails decides, and only an
    expiry or a decision spends the approval. *)
Lemma resolve_spec e id d chat al now h :
  let '(e', out) := resolve e id d chat al now h in
  match out with
  | RejectedNotAllowlisted => chat_allows al chat = false ∧ e' = e
  | RejectedUnknownNonce => chat_allows al chat = true ∧ ae_pending e !! id = None ∧ e' = e
  | RejectedExpired => chat_allows al chat = true ∧
      (∃ p, ae_pending e !! id = Some p ∧ pd_expires_at p < now) ∧ ae_pending e' = delete id (ae_pending e)
  | RejectedOpMismatch => chat_allows al chat = true ∧
      (∃ p h', ae_pending e !! id = Some p ∧ now ≤ pd_expires_at p ∧ h = Some h' ∧ h' ≠ pd_op_hash p) ∧ e' = e
  | ODenied i => chat_allows al chat = true ∧ d = Deny ∧ i = id ∧
      (∃ p, ae_pending e !! id = Some p ∧ now ≤ pd_expires_at p ∧ (h = None ∨ h = Some (pd_op_hash p))) ∧
      ae_pending e' = delete id (ae_pending e)
  | OApproved tok => chat_allows al chat = true ∧ d = Approve ∧
      (∃ p, ae_pending e !! id = Some p ∧ now ≤ pd_expires_at p ∧ (h = None ∨ h = Some (pd_op_hash p)) ∧
        tok = mkApproved (mkApprovedOp id (pd_op_hash p) (pd_summary p)) id (mkAuthorizedUser (chat mod 2 ^ 64))
                (pd_expires_at p)) ∧
      ae_pending e' = delete id (ae_pending e)
  end.
Proof.
  unfold resolve, authorized_user. destruct (chat_allows al chat); [|done].
  destruct (ae_pending e !! id) as [p|] eqn:Hp; [|done].
  destruct (Z.ltb_spec (pd_expires_at p) now) as [Hx|Hx]; [by eauto 10|].
  destruct h as [h|]; [destruct (bool_decide_reflect (h = pd_op_hash p)) as [->|Hh]|]; cbn [negb];
    [destruct d|..|destruct d]; eauto 12.
Qed.

(** What can happen to the engine. *)
Inductive ApOp :=
| ApRequest (id : Z) (operation summary : chars) (expires_at : Timestamp)
| ApResolve (id : Z) (d : ApprovalResolution) (chat : Z) (al : ChatAllowlist) (now : Timestamp) (h : option bytes).
Definition ap_id (o : ApOp) : Z := match o with ApRequest id _ _ _ | ApResolve id _ _ _ _ _ => id end.
Definition ap_step (e : ApprovalEngine) (o : ApOp) : ApprovalEngine * option ApprovalOutcome :=
  match o with
  | ApRequest id op summary exp => ((request e id op summary exp).1, None)
  | ApResolve id d chat al now h => let '(e', out) := resolve e id d chat al now h in (e', Some out)
  end.
(** The engine after a sequence, with the outcome of each operation. *)
Fixpoint ap_run (e : ApprovalEngine) (ops : list ApOp) : ApprovalEngine * list (ApOp * option ApprovalOutcome) :=
  match ops with
  | [] => (e, [])
  | o :: os =>
      let '(e1, out) := ap_step e o in
      let '(e2, tr) := ap_run e1 os in
      (e2, (o, out) :: tr)
  end.
(** An operation that leaves the pending approval [id] as it is. *)
Definition leaves (id : Z) (x : ApOp * option ApprovalOutcome) : Prop :=
  ap_id x.1 = id → x.2 = Some RejectedNotAllowlisted ∨ x.2 = Some RejectedOpMismatch.

Lemma ap_step_pending e o id p :
  ae_pending (ap_step e o).1 !! id = Some p →
  (∃ op summary exp, o = ApRequest id op summary exp ∧
     p = mkPending (sha256 (to_utf8 op)) (truncated_chars summary DEFAULT_MAX) exp) ∨
  (ae_pending e !! id = Some p ∧ leaves id (o, (ap_step e o).2)).
Proof.
  destruct o as [i op summary exp|i d chat al now h]; cbn [ap_step].
  - cbn [request fst snd ae_pending]. destruct (decide (i = id)) as [->|Hne].
    + rewrite lookup_insert_eq. intros [= <-]. left. by eexists _, _, _.
    + rewrite lookup_insert_ne by done. intros Hp. right. split; [done|]. by intros Hi.
  - pose proof (resolve_spec e i d chat al now h) as Hr. destruct (resolve e i d chat al now h) as [e' out].
    cbn [fst snd]. intros Hp. right. unfold leaves. cbn [fst snd ap_id].
    destruct (decide (i = id)) as [->|Hne].
    + destruct out; crush_hyps; subst; auto;
        repeat match goal with H : ae_pending e' = delete _ _ |- _ => rewrite H, lookup_delete_eq in Hp end; congruence.
    + split; [|done]. destruct out; crush_hyps; subst; try done;
        match goal with H : ae_pending e' = delete _ _ |- _ => by rewrite H, lookup_delete_ne in Hp end.
Qed.

(** A pending approval is the last request of its id, and nothing since has spent it. *)
Lemma ap_run_pending e ops id p :
  ae_pending (ap_run e ops).1 !! id = Some p →
  (ae_pending e !! id = Some p ∧ Forall (leaves id) (ap_run e ops).2) ∨
  ∃ pre op summary exp post,
    (ap_run e ops).2 = pre ++ (ApRequest id op summary exp, None) :: post ∧
    p = mkPending (sha256 (to_utf8 op)) (truncated_chars summary DEFAULT_MAX) exp ∧
    Forall (leaves id) post.
Proof.
  revert e. induction ops as [|o ops IH]; intros e Hp; [left; by split|].
  cbn [ap_run] in *. pose proof (ap_step_pending e o id p) as Hs.
  destruct (ap_step e o) as [e1 out] eqn:Eo. specialize (IH e1).
  destruct (ap_run e1 ops) as [e2 tr]. cbn [fst snd] in *.
  destruct (IH Hp) as [[H1 Htr]|(pre & op & su & ex & post & -> & ? & ?)].
  - destruct (Hs H1) as [(op & su & ex & -> & ->)|[H0 Hl]].
    + right. cbn [ap_step] in Eo. injection Eo as <- <-. by eexists [], op, su, ex, tr.
    + left. split; [done|]. by constructor.
  - right. by exists ((o, out) :: pre), op, su, ex, post.
Qed.

(** C30: An approval is minted only by an [Approve] from an allowlisted chat, before the expiry, for the
    operation of the last request of its id, which nothing since has spent; and it spends it. *)
Theorem approval_provenance ops id d chat al now h tok e' :
  resolve (ap_run ApprovalEngine_new ops).1 id d chat al now h = (e', OApproved tok) →
  d = Approve ∧ chat_allows al chat = true ∧ is_pending e' id = false ∧
  ∃ pre op summary exp post,
    (ap_run ApprovalEngine_new ops).2 = pre ++ (ApRequest id op summary exp, None) :: post ∧
    Forall (leaves id) post ∧ now ≤ exp ∧ (h = None ∨ h = Some (sha256 (to_utf8 op))) ∧
    is_valid_at tok now = true ∧
    ap_value tok = mkApprovedOp id (sha256 (to_utf8 op)) (truncated_chars summary DEFAULT_MAX) ∧
    ap_approved_by tok = mkAuthorizedUser (chat mod 2 ^ 64).
Proof.
  intros Hr. pose proof (resolve_spec (ap_run ApprovalEngine_new ops).1 id d chat al now h) as Hs.
  rewrite Hr in Hs. destruct Hs as (Ha & -> & (p & Hp & Hx & Hh & ->) & He').
  split; [done|]. split; [done|]. split.
  { apply bool_decide_eq_false. rewrite He', lookup_delete_eq. by intros [? ?]. }
  destruct (ap_run_pending _ _ _ _ Hp) as [[H _]|(pre & op & su & ex & post & -> & -> & Hpost)].
  { unfold ApprovalEngine_new in H. cbn [ae_pending] in H. by rewrite lookup_empty in H. }
  exists pre, op, su, ex, post. cbn [pd_expires_at pd_op_hash pd_summary] in *.
  repeat (split; [done|]). split; [|done]. unfold is_valid_at. cbn [ap_expires_at]. lia.
Qed.

(** At the command [/approve 7] of chat 5, after a request of approval 7. *)
Definition approval_example : list ApOp :=
  [ApRequest 7 (lit "push") (lit "s") 100; ApResolve 7 Approve 9 (allowlist_of [5]) 10 None].
Lemma approval_provenance_witness :
  ∃ pre op summary exp post,
    (ap_run ApprovalEngine_new approval_example).2 = pre ++ (ApRequest 7 op summary exp, None) :: post ∧
    Forall (leaves 7) post ∧ 50 ≤ exp.
Proof.
  destruct (resolve (ap_run ApprovalEngine_new approval_example).1 7 Approve 5 (allowlist_of [5]) 50 None)
    as [e' out] eqn:E.
  assert (∃ tok, out = OApproved tok) as [tok ->].
  { pose proof (f_equal snd E) as E2. cbn [snd] in E2. rewrite <-E2. by eexists. }
  destruct (approval_provenance _ _ _ _ _ _ _ _ _ E) as (_ & _ & _ & pre & op & su & ex & post & H1 & H2 & H3 & _).
  by exists pre, op, su, ex, post.
Defined.

(** ** The suppressor *)

Lemma bt_insert_length_le {A} (m : list (Z * A)) k a : (length (bt_insert m k a) ≤ S (length m))%nat.
Proof.
  induction m as [|[i x] m IH]; cbn [bt_insert]; [done|].
  destruct (k =? i); [simpl; lia|]. destruct (k <? i); simpl; lia.
Qed.
Lemma bt_insert_length_present {A} (m : list (Z * A)) k a v :
  bt_sorted m → bt_get m k = Some v → length (bt_insert m k a) = length m.
Proof.
  unfold bt_sorted. induction m as [|[i x] m IH]; [done|]. cbn [fmap list_fmap fst].
  intros Hs. inversion Hs as [|? ? Hs' Hi]; subst. rewrite bt_get_cons. cbn [bt_insert].
  destruct (Z.eqb_spec i k) as [->|Hne]; [by rewrite Z.eqb_refl|]. intros Hg.
  rewrite (proj2 (Z.eqb_neq k i)) by congruence.
  assert (i < k) as Hlt. { rewrite Forall_forall in Hi. apply Hi. apply bt_get_elem in Hg.
    change k with (k, v).1. by apply list_elem_of_fmap_2. }
  rewrite (proj2 (Z.ltb_ge k i)) by lia. simpl. by rewrite IH.
Qed.
Lemma oldest_elem m q : oldest m = Some q → q ∈ m.
Proof.
  revert q. induction m as [|p m IH]; intros q; [done|]. cbn [oldest].
  destruct (oldest m) as [q'|]; [|intros [= <-]; by left].
  destruct (q'.2 <? p.2); intros [= <-]; [right; by apply IH|by left].
Qed.
Lemma oldest_least m q : oldest m = Some q → ∀ p, p ∈ m → q.2 ≤ p.2.
Proof.
  revert q. induction m as [|p m IH]; intros q; [done|]. cbn [oldest].
  destruct (oldest m) as [q'|] eqn:E.
  - specialize (IH q' eq_refl). destruct (Z.ltb_spec q'.2 p.2); intros [= <-] r [->|Hr]%elem_of_cons;
      try lia; specialize (IH r Hr); lia.
  - intros [= <-] r [->|Hr]%elem_of_cons; [done|]. destruct m as [|x m]; [set_solver|].
    cbn [oldest] in E. destruct (oldest m) as [y|]; [by destruct (y.2 <? x.2)|done].
Qed.
Lemma bt_remove_shorter {A} k (m : list (Z * A)) : (k ∈ m.*1) → (length (bt_remove k m) < length m)%nat.
Proof.
  unfold bt_remove. induction m as [|[i x] m IH]; [set_solver|]. cbn [fmap list_fmap fst].
  rewrite filter_cons. intros Hk. destruct (decide _) as [Hd|Hd]; cbn [length].
  - apply elem_of_cons in Hk as [->|Hk]; [by destruct Hd|]. apply IH in Hk. lia.
  - pose proof (length_filter (λ p : Z * A, p.1 ≠ k) m). lia.
Qed.

Definition suppressor_ok (s : AbuseSuppressor) : Prop :=
  bt_sorted (as_last s) ∧ (tracked s ≤ MAX_TRACKED_CHATS)%nat.

(** The suppressor tracks at most its bound of chats, and a report of a chat is at least a window
    after the last one it still tracks. *)
Lemma suppressor_bounded s chat now :
  suppressor_ok s →
  suppressor_ok (should_surface s chat now).1 ∧
  ((should_surface s chat now).2 = true →
     bt_get (as_last (should_surface s chat now).1) chat = Some now ∧
     ∀ t, bt_get (as_last s) chat = Some t → as_window_ms s ≤ saturating_sub now t) ∧
  ((should_surface s chat now).2 = false → (should_surface s chat now).1 = s).
Proof.
  intros [Hs Hl]. unfold tracked in *. unfold should_surface.
  destruct (bt_get (as_last s) chat) as [t|] eqn:E.
  - destruct (Z.ltb_spec (saturating_sub now t) (as_window_ms s)) as [Hw|Hw]; cbn [fst snd]; [done|].
    split; [|split; [|done]].
    + split; cbn [as_last tracked]; [by apply bt_insert_sorted|].
      unfold tracked. cbn [as_last]. by erewrite bt_insert_length_present.
    + intros _. cbn [as_last]. rewrite bt_get_insert, Z.eqb_refl. split; [done|]. by intros ? [= <-].
  - cbn [fst snd]. split; [|split; [|done]].
    2:{ intros _. cbn [as_last]. by rewrite bt_get_insert, Z.eqb_refl. }
    unfold make_room. destruct (Nat.leb_spec MAX_TRACKED_CHATS (length (as_last s))) as [Hf|Hf].
    + destruct (oldest (as_last s)) as [[k x]|] eqn:Eo.
      * split; cbn [as_last]; [by apply bt_insert_sorted, bt_filter_sorted|]. unfold tracked. cbn [as_last].
        pose proof (bt_insert_length_le (bt_remove k (as_last s)) chat now).
        pose proof (bt_remove_shorter k (as_last s)) as Hr. apply oldest_elem in Eo.
        assert (k ∈ (as_last s).*1) as Hk by (change k with (k, x).1; by apply list_elem_of_fmap_2).
        specialize (Hr Hk). lia.
      * destruct (as_last s) as [|[i y] m]; [|cbn [oldest] in Eo; destruct (oldest m) as [z|];
          [by destruct (z.2 <? (i, y).2)|done]].
        exfalso. unfold MAX_TRACKED_CHATS in Hf. cbn [length] in Hf. lia.
    + split; cbn [as_last]; [by apply bt_insert_sorted|]. unfold tracked. cbn [as_last].
      pose proof (bt_insert_length_le (as_last s) chat now). lia.
Qed.
