(* ===== verification/BotApi.v ===== *)
(** * The Telegram Bot API (crate [crustcore-net], [telegram.rs]; crate [crustcore-daemon], the live adapter)

    Inline keyboards and their bounds, the REST client of the Bot API over an HTTP transport and a
    credential source, the decoding of updates, and the adapter to the updates of the daemon. *)

From S2P Require Import Prelude Text Std Chars Redactor Strings Types Serde Http Telegram.

(** ** Keyboards *)

Abbreviation InlineKeyboard := (list (list (chars * chars))) (only parsing).
Definition single_row (buttons : list (chars * chars)) : InlineKeyboard := [buttons].
Definition kb_is_empty (k : InlineKeyboard) : bool := forallb (λ r, bool_decide (r = [])) k.
Definition INLINE_KEYBOARD_MAX_ROWS : nat := 8.
Definition INLINE_KEYBOARD_MAX_COLS : nat := 8.
Definition INLINE_KEYBOARD_MAX_FIELD_BYTES : nat := 64.
Definition truncate_field (s : chars) : chars := truncated_chars s INLINE_KEYBOARD_MAX_FIELD_BYTES.
(** [InlineKeyboard::to_json]: the texts and the data of the buttons that are serialised. *)
Definition kb_wire (k : InlineKeyboard) : InlineKeyboard :=
  (λ row, (λ b, (truncate_field b.1, truncate_field b.2)) <$> take INLINE_KEYBOARD_MAX_COLS row) <$>
  take INLINE_KEYBOARD_MAX_ROWS (filter (λ r, r ≠ []) k).
Definition kb_json `{SerdeJson} (k : InlineKeyboard) : Value :=
  v_obj [field "inline_keyboard" (v_arr ((λ row, v_arr ((λ b,
    v_obj [field "text" (v_str b.1); field "callback_data" (v_str b.2)]) <$> row)) <$> kb_wire k))].

(** ** The client *)

Definition TELEGRAM_API : chars := lit "https://api.telegram.org".
Definition LONG_POLL_SECS : Z := 50.
Definition UPDATE_BATCH_LIMIT : Z := 100.
(** The update of the wire; the daemon's [RawUpdate] has the same fields. *)
Record TgUpdate := mkTgUpdate
  { tu_update_id : Z; tu_chat_id : Z; tu_message_id : Z; tu_from_user_id : Z;
    tu_from_username : option chars; tu_text : option chars; tu_callback_data : option chars }.
Inductive NetTgError :=
| NtUnauthorized | NtRateLimited | NtServerError (status : Z) | NtApi (m : chars) | NtTransport (e : chars)
| NtBadResponse (m : chars).
Definition net_tg_error_fmt (e : NetTgError) : chars :=
  match e with
  | NtUnauthorized => lit "unauthorized"
  | NtRateLimited => lit "rate limited"
  | NtServerError s => lit "server error " ++ dec_u s
  | NtApi m => lit "api error: " ++ m
  | NtTransport e => lit "transport: " ++ e
  | NtBadResponse m => lit "bad response: " ++ m
  end.
Record RestTelegram (C : Type) := mkRestTelegram { rt_base_url : chars; rt_secret_label : chars; rt_creds : C }.
#[global] Arguments mkRestTelegram {C}.
#[global] Arguments rt_base_url {C}.
#[global] Arguments rt_secret_label {C}.
#[global] Arguments rt_creds {C}.
Definition RestTelegram_new {C} (base_url secret_label : chars) (creds : C) : RestTelegram C :=
  mkRestTelegram (rev (skip_while (Z.eqb 47) (rev base_url))) secret_label creds.
Definition telegram_headers : Headers :=
  [(lit "Content-Type", lit "application/json"); (lit "Accept", lit "application/json")].
Definition telegram_map_status (status : Z) : NetTgError :=
  if status =? 401 then NtUnauthorized
  else if status =? 429 then NtRateLimited
  else if in_range 500 599 status then NtServerError status
  else NtApi (lit "http " ++ dec_u status).

Section Client.
Context `{J : SerdeJson} {C : Type} `{CredentialSource C} {W : Type} `{HttpClient W}.

(** The URL holds the token; with no token there is none. *)
Definition method_url (t : RestTelegram C) (method : chars) : option chars :=
  token ← bot_token (rt_creds t) (rt_secret_label t);
  Some (rt_base_url t ++ lit "/bot" ++ token ++ lit "/" ++ method).
Definition get_updates_body (offset : Z) : bytes :=
  to_vec_or_empty (v_obj [field "offset" (v_int offset); field "limit" (v_int UPDATE_BATCH_LIMIT);
    field "timeout" (v_int LONG_POLL_SECS);
    field "allowed_updates" (v_arr [v_str (lit "message"); v_str (lit "callback_query")])]).
Definition send_message_body (chat_id : Z) (text : chars) (reply_markup : option InlineKeyboard) : bytes :=
  to_vec_or_empty (v_obj ([field "chat_id" (v_int chat_id); field "text" (v_str text)] ++
    match reply_markup with
    | Some kb => if kb_is_empty kb then [] else [field "reply_markup" (kb_json kb)]
    | None => []
    end)).
Definition parse_envelope (body : chars) : result NetTgError Value :=
  v ← map_err NtBadResponse (v_from_slice (to_utf8 body));
  if bool_decide (v_as_bool (v_index v "ok") = Some true) then Ok (v_index v "result")
  else Err (NtApi (default (lit "ok: false") (v_as_str (v_index v "description")))).
Definition id_of (v : Value) (k : string) : Z := default 0 (v_as_i64 (v_index v k)).
Definition decode_update (u : Value) : TgUpdate :=
  match v_get u (lit "callback_query") ≫= (λ c, if v_is_null c then None else Some c) with
  | Some cq =>
      let msg := v_index cq "message" in
      mkTgUpdate (id_of u "update_id") (id_of (v_index msg "chat") "id") (id_of msg "message_id")
        (id_of (v_index cq "from") "id") (v_as_str (v_index (v_index cq "from") "username"))
        None (v_as_str (v_index cq "data"))
  | None =>
      let msg := v_index u "message" in
      mkTgUpdate (id_of u "update_id") (id_of (v_index msg "chat") "id") (id_of msg "message_id")
        (id_of (v_index msg "from") "id") (v_as_str (v_index (v_index msg "from") "username"))
        (v_as_str (v_index msg "text")) None
  end.
(** One call of the API: a request with the token in its path, and the result of its envelope. *)
Definition bot_call (t : RestTelegram C) (method : chars) (body : bytes) (w : W) : result NetTgError Value * W :=
  match method_url t method with
  | None => (Err NtUnauthorized, w)
  | Some url =>
      let '(r, w) := post_json url telegram_headers body w in
      (match r with
       | Err e => Err (NtTransport (transport_error_fmt e))
       | Ok resp =>
           if negb (resp_is_success resp) then Err (telegram_map_status (hr_status resp))
           else parse_envelope (hr_body resp)
       end, w)
  end.
Definition get_updates (t : RestTelegram C) (offset : Z) (w : W) : result NetTgError (list TgUpdate) * W :=
  let '(r, w) := bot_call t (lit "getUpdates") (get_updates_body offset) w in
  (v ← r;
   match v_as_array v with
   | None => Err (NtBadResponse (lit "result is not an array"))
   | Some arr => Ok (decode_update <$> take (Z.to_nat UPDATE_BATCH_LIMIT) arr)
   end, w).
Definition send_message (t : RestTelegram C) (chat_id : Z) (text : chars) (reply_markup : option InlineKeyboard) (w : W)
  : result NetTgError Z * W :=
  let '(r, w) := bot_call t (lit "sendMessage") (send_message_body chat_id text reply_markup) w in
  (v ← r;
   match v_as_i64 (v_index v "message_id") with
   | None => Err (NtBadResponse (lit "missing message_id"))
   | Some id => Ok id
   end, w).

(** ** The live adapter of the daemon *)

Definition raw_update_from_net (u : TgUpdate) : RawUpdate :=
  mkRaw (tu_update_id u) (tu_chat_id u) (tu_message_id u) (tu_from_user_id u) (tu_from_username u) (tu_text u)
    (tu_callback_data u).
Definition tg_error_from_net (e : NetTgError) : TgError :=
  match e with
  | NtApi m => TgApi m
  | other => TgTransport (net_tg_error_fmt other)
  end.
Definition live_get_updates (t : RestTelegram C) (offset : Z) (w : W) : result TgError (list RawUpdate) * W :=
  let '(r, w) := get_updates t offset w in
  ((λ us : list TgUpdate, raw_update_from_net <$> us) <$> map_err tg_error_from_net r, w).
Definition live_send_message (t : RestTelegram C) (chat : Z) (text : bytes) (reply_markup : option InlineKeyboard) (w : W)
  : result TgError Z * W :=
  let '(r, w) := send_message t chat (chars_of text) reply_markup w in (map_err tg_error_from_net r, w).
End Client.
