(* ===== verification/Runtime.v ===== *)
(** * The runtime loop of the Telegram bot

    Models [crustcore-daemon/src/chat.rs] (the bridge from the channel to the chat session),
    [crustcore-daemon/src/runtime.rs] (the dispatch of an event, the actions it asks for, the gate
    of a draft pull request on an approval, the supervision of the tasks and the serve loop that
    composes them) and the inline keyboards of [crustcore-net/src/telegram.rs].

    Parameters: the model consult, the Bot API (a batch or an error per poll; sending a message is
    an effect of the run) and the task threads (what a handle drained and whether it finished, per
    supervision step). A turn of the serve loop is a function; the loop itself is an iteration over
    a list of turns. *)

From S2P Require Import Prelude Text Std Chars Redactor Types Sha256 Policy Strings Json NetProto Supervisor Registry.
From S2P Require Import Dispatch Telegram BotApi Chat Task.

(** ** The bridge *)

Inductive ChatReply :=
| Answer (text : bytes) | StartTask (route : ChatRoute) (prompt : chars) | Quiet | ReplyCommand | ReplyApproval.
Record ChatBridge := mkBridge { br_session : ChatSession; br_steer_armed : bool }.
Definition ChatBridge_new (r : Redactor) (c : ChatConfig) : ChatBridge := mkBridge (ChatSession_new r c) false.
Definition arm_steer (b : ChatBridge) : ChatBridge := mkBridge (br_session b) true.

Section Loop.
Context (is_alphanumeric : Z → bool) {W : Type} (model : Consult W).
(** [ChatBridge::turn]. *)
Definition bridge_turn (b : ChatBridge) (text : chars) (steer : bool) (w : W) : ChatBridge * ChatReply * W :=
  let raw := if steer && negb (starts_with [33] text) then 33 :: text else text in
  let '(s, _) := submit (br_session b) raw in
  match next_turn s with
  | (s, Some turn_text) =>
      let '(t, w) := handle is_alphanumeric s turn_text model w in
      (mkBridge s (br_steer_armed b),
       match t with
       | TAnswer a => Answer a
       | TNotice n => Answer n
       | TStartTask r prompt => StartTask r prompt
       end, w)
  | (s, None) => (mkBridge s (br_steer_armed b), Quiet, w)
  end.
(** [ChatBridge::dispatch]. *)
Definition bridge_dispatch (b : ChatBridge) (ev : RuntimeEvent) (w : W) : ChatBridge * ChatReply * W :=
  match ev with
  | RCommand _ => (b, ReplyCommand, w)
  | ApprovalCallback _ => (b, ReplyApproval, w)
  | RSteerButton => (arm_steer b, Quiet, w)
  | RSteer text => bridge_turn b text true w
  | QueuedTurn text =>
      if br_steer_armed b then bridge_turn (mkBridge (br_session b) false) text true w
      else bridge_turn b text false w
  end.

(** ** Keyboards *)

Definition steer_button : InlineKeyboard := single_row [(uni "🛑 Steer", STEER_BUTTON_DATA)].
Definition approval_keyboard (n : ApprovalNonce) : InlineKeyboard :=
  single_row [(uni "✅ approve", callback_data n Approve); (uni "🚫 deny", callback_data n Deny)].

(** ** Dispatch *)

Definition budget_for_route (r : ChatRoute) : AgentBudget :=
  match r with
  | QuickFix => mkAgentBudget (5 * 60 * 1000) (256 * 1024) 100000
  | Feature | Continue => mkAgentBudget (15 * 60 * 1000) (512 * 1024) 500000
  | Project | Converse => default_task_budget
  end.
(** [BoundedText::truncated] of a repository or a branch prefix. *)
Fixpoint text_of (l : bytes) : string :=
  match l with [] => EmptyString | b :: l' => String (Ascii.ascii_of_N (Z.to_N b)) (text_of l') end.
Definition truncated_text (s : string) : string := text_of (truncated (lit s) DEFAULT_MAX).
Definition mint_github_write_cap (al : ChatAllowlist) (chat : Z) (repo branch_prefix : string)
    (approval_id : Z) (expires_at : Timestamp) : option (Approved GitHubWriteCap) :=
  user ← authorized_user al chat;
  Some (approve_github_write user (truncated_text repo) (truncated_text branch_prefix) 1 approval_id expires_at).2.
Definition pr_approval_match (ev : RuntimeEvent) (approval_id : Z) : option (ApprovalResolution * option bytes) :=
  match ev with
  | ApprovalCallback cb =>
      if cb_approval_id cb =? approval_id then Some (cb_decision cb, Some (cb_op_hash cb)) else None
  | RCommand (CApprove id) => if id =? approval_id then Some (Approve, None) else None
  | RCommand (CDeny id) => if id =? approval_id then Some (Deny, None) else None
  | _ => None
  end.
Record Outbound := mkOutbound { ob_chat : Z; ob_text : bytes; ob_keyboard : option InlineKeyboard }.
Inductive LoopAction :=
| LaunchTask (route : ChatRoute) (prompt : chars) (chat : Z)
| CancelTask (chat : Z) (id : Z)
| KillTask (chat : Z) (id : Z).
(** [Dispatch]. *)
Record Dispatched := mkDispatched { di_outbound : list Outbound; di_action : option LoopAction }.
Definition say (chat : Z) (text : bytes) : Dispatched := mkDispatched [mkOutbound chat text None] None.
Definition say_kb (chat : Z) (text : bytes) (k : InlineKeyboard) : Dispatched :=
  mkDispatched [mkOutbound chat text (Some k)] None.
Definition quiet : Dispatched := mkDispatched [] None.
Definition HELP_TEXT : chars :=
  uni "CrustCore runtime — talk to me, or use a command:" ++ [10] ++
  lit "  (plain text)   chat: I answer, or start the work if it's a task." ++ [10] ++
  lit "  !<text>        steer: redirect the in-flight reasoning." ++ [10] ++
  lit "  /cancel <id>   gracefully cancel task <id> (stay in the conversation)." ++ [10] ++
  lit "  /kill <id>     immediately kill task <id>." ++ [10] ++
  lit "  /status        active tasks, budget, channel health." ++ [10] ++
  lit "  /tasks         list active tasks with status." ++ [10] ++
  lit "  /task <id>     detail on one task." ++ [10] ++
  lit "  /budget        budget consumption." ++ [10] ++
  lit "  /approve <id>  approve a pending irreversible action." ++ [10] ++
  lit "  /deny <id>     deny a pending approval." ++ [10] ++
  lit "  /help          this listing." ++ [10] ++
  lit "Completion is verifier-owned: a task is done only when your verify command passes " ++
  lit "in a sandbox; irreversible actions need your /approve.".
Record DispatchCtx := mkCtx
  { cx_redactor : Redactor; cx_allowlist : ChatAllowlist; cx_status : StatusSnapshot;
    cx_registry : list TaskRow; cx_now : Timestamp }.

Definition phase_label (p : TaskPhase) : chars :=
  match p with
  | PPending => lit "pending" | PRunning => lit "running" | PCancelling => lit "cancelling"
  | PDone d => done_label d
  end.
Definition task_row_line (row : TaskRow) : chars :=
  [10] ++ lit "  #" ++ dec_u (row_id row) ++ lit " [" ++ phase_label (row_phase row) ++ lit "] " ++
  dec_u (row_wall_ms row) ++ uni "ms · " ++ dec_u (row_output_bytes row) ++ uni "B · lease " ++
  dec_u (row_lease_ttl_ms row / 1000) ++ lit "s".
Definition render_task_list (rows : list TaskRow) : chars :=
  match rows with
  | [] => lit "no active tasks."
  | _ => dec_u (Z.of_nat (length rows)) ++ lit " task(s):" ++ (rows ≫= task_row_line)
  end.
Definition render_task_detail (rows : list TaskRow) (id : Z) : chars :=
  match snapshot_get rows id with
  | Some row =>
      lit "task #" ++ dec_u (row_id row) ++ lit ": " ++ phase_label (row_phase row) ++ uni " · wall " ++
      dec_u (row_wall_ms row) ++ uni "ms · output " ++ dec_u (row_output_bytes row) ++
      uni "B · lease expires in " ++ dec_u (row_lease_ttl_ms row / 1000) ++ lit "s"
  | None => lit "no task #" ++ dec_u id ++ lit "."
  end.
Definition outcome_text (o : ApprovalOutcome) : chars :=
  match o with
  | OApproved _ => uni "✅ approved — the operation is authorized."
  | ODenied id => uni "🚫 denied approval " ++ dec_u id ++ lit "."
  | RejectedNotAllowlisted => lit "ignored: not an allowlisted chat."
  | RejectedUnknownNonce => uni "⚠️ no pending approval with that id (this was logged)."
  | RejectedExpired => uni "⌛ that approval expired — re-request it."
  | RejectedOpMismatch => uni "⚠️ that approval did not match the operation (this was logged)."
  end.
Definition render_approval_outcome (r : Redactor) (o : ApprovalOutcome) : bytes := notice r (outcome_text o).
(** [id as u64]. *)
Definition task_id_of (id : Z) : Z := id mod 2 ^ 64.
(** [registry.get(tid).map(|row| row.chat) == Some(chat)]. *)
Definition owns (rows : list TaskRow) (id chat : Z) : bool :=
  match snapshot_get rows id with Some row => row_chat row =? chat | None => false end.

Definition dispatch_command (chat : Z) (c : Command) (approvals : ApprovalEngine) (ctx : DispatchCtx)
  : ApprovalEngine * Dispatched :=
  let r := cx_redactor ctx in
  match c with
  | CHelp => (approvals, say chat (notice r HELP_TEXT))
  | CStatus => (approvals, say chat (render_status r (cx_status ctx)))
  | CTasks => (approvals, say chat (notice r (render_task_list (cx_registry ctx))))
  | CTask id => (approvals, say chat (notice r (render_task_detail (cx_registry ctx) (task_id_of id))))
  | CBudget =>
      (approvals, say chat (notice r (lit "budget " ++ dec_u (ss_budget_used (cx_status ctx)) ++ lit "/" ++
                    dec_u (ss_budget_limit (cx_status ctx)) ++ lit " micros")))
  | CApprove id =>
      let '(approvals, o) := resolve approvals id Approve chat (cx_allowlist ctx) (cx_now ctx) None in
      (approvals, say chat (render_approval_outcome r o))
  | CDeny id =>
      let '(approvals, o) := resolve approvals id Deny chat (cx_allowlist ctx) (cx_now ctx) None in
      (approvals, say chat (render_approval_outcome r o))
  | CCancel id =>
      (approvals,
       if owns (cx_registry ctx) (task_id_of id) chat then
         mkDispatched [mkOutbound chat (notice r (uni "⏹️ cancelling task #" ++ dec_u id ++ lit " (graceful).")) None]
           (Some (CancelTask chat (task_id_of id)))
       else say chat (notice r (lit "no task #" ++ dec_u id ++ lit " you can cancel.")))
  | CKill id =>
      (approvals,
       if owns (cx_registry ctx) (task_id_of id) chat then
         mkDispatched [mkOutbound chat (notice r (uni "🛑 killing task #" ++ dec_u id ++ lit " (immediate).")) None]
           (Some (KillTask chat (task_id_of id)))
       else say chat (notice r (lit "no task #" ++ dec_u id ++ lit " you can kill.")))
  | CPause _ | CResume _ | CDiff _ | CLogs _ | CPolicy | CRepo =>
      (approvals, say chat (notice r
         (lit "received. This runtime supports /help /status /tasks /task /budget /approve " ++
          lit "/deny /cancel /kill and plain-text chat.")))
  | CUnknown raw => (approvals, say chat (notice r (lit "unknown command '" ++ raw ++ lit "'. Try /help.")))
  end.

Definition dispatch_event (chat : Z) (ev : RuntimeEvent) (b : ChatBridge) (approvals : ApprovalEngine)
    (ctx : DispatchCtx) (w : W) : ChatBridge * ApprovalEngine * Dispatched * W :=
  let r := cx_redactor ctx in
  match ev with
  | RCommand c => let '(approvals, d) := dispatch_command chat c approvals ctx in (b, approvals, d, w)
  | ApprovalCallback cb =>
      let '(approvals, o) := resolve approvals (cb_approval_id cb) (cb_decision cb) chat (cx_allowlist ctx)
                               (cx_now ctx) (Some (cb_op_hash cb)) in
      (b, approvals, say chat (render_approval_outcome r o), w)
  | RSteerButton =>
      (arm_steer b, approvals,
       say chat (notice r (uni "🛑 steer armed — send your next message to redirect.")), w)
  | QueuedTurn _ | RSteer _ =>
      let '(b, reply, w) := bridge_dispatch b ev w in
      (b, approvals,
       match reply with
       | Answer a => say_kb chat a steer_button
       | StartTask route prompt =>
           mkDispatched [mkOutbound chat (notice r (uni "🛠️ on it — starting a " ++ route_str route ++
                           lit " task: " ++ prompt)) None] (Some (LaunchTask route prompt chat))
       | Quiet | ReplyCommand | ReplyApproval => quiet
       end, w)
  end.

(** [github_command_to_action]. *)
Definition github_command_to_action (c : GithubCommand) (chat : Z) (route : ChatRoute) : option LoopAction :=
  match c with
  | GRun goal dir =>
      Some (LaunchTask route (match dir with Some d => goal ++ lit " (in " ++ d ++ lit ")" | None => goal end) chat)
  | GRetry id => Some (LaunchTask route (lit "retry task " ++ dec_u id) chat)
  | GCancel id => Some (CancelTask chat id)
  | GExplain _ | GRiskDetected _ => None
  end.

(** ** The serve loop *)

Definition MAX_CONCURRENT_TASKS : Z := 4.
Definition PR_APPROVAL_TTL_MS : Z := 300000.
(** A handle of a task thread: what it was spawned with, and its cancel flag. *)
Record TaskHandle := mkHandle
  { th_chat : Z; th_prompt : chars; th_pr_cap : option (Approved GitHubWriteCap); th_cancelled : bool }.
Record TaskRunner := mkRunner { tr_registry : TaskRegistry; tr_handles : list (Z * TaskHandle) }.
Definition TaskRunner_new : TaskRunner := mkRunner (TaskRegistry_new MAX_CONCURRENT_TASKS 1) [].
Record PendingTask := mkPendingTask { pk_prompt : chars; pk_chat : Z; pk_approval_id : Z; pk_route : ChatRoute }.

(** What a run does to the world. *)
Inductive Effect :=
| Sent (o : Outbound)
| Spawned (id : Z) (h : TaskHandle)
| CancelRequested (id : Z)
| Dropped (id : Z).

Definition launch (t : TaskRunner) (prompt : chars) (chat : Z) (cap : option (Approved GitHubWriteCap))
    (budget : AgentBudget) (now : Timestamp) : TaskRunner * option (Z * TaskHandle) :=
  match admit_task (tr_registry t) chat budget now with
  | (Err _, reg) => (mkRunner reg (tr_handles t), None)
  | (Ok id, reg) =>
      let h := mkHandle chat prompt cap false in
      (mkRunner (mark_running reg id now) (bt_insert (tr_handles t) id h), Some (id, h))
  end.

Context (redactor : Redactor) (allowlist : ChatAllowlist) (task_spec : option TaskSpec).

(** Phase two of [pump] for one handle: the drained lines and the finished flag. *)
Definition pump_lines (now : Timestamp) (id chat : Z) (ls : list chars) (reg : TaskRegistry)
  : TaskRegistry * list Effect :=
  foldl (λ '(reg, fx) line,
    (observe_progress reg id (Z.of_nat (byte_length line)) now,
     fx ++ [Sent (mkOutbound chat (notice redactor line) None)])) (reg, []) ls.
Definition pump_handle (now : Timestamp) (drained : Z → list chars * bool)
    (acc : TaskRegistry * list Effect) (p : Z * TaskHandle) : TaskRegistry * list Effect :=
  let '(reg, fx) := acc in
  let '(ls, finished) := drained p.1 in
  let '(reg, fx') := pump_lines now p.1 (th_chat p.2) ls reg in
  ((if finished then observe_finished reg p.1 else heartbeat reg p.1 now), fx ++ fx').
(** Phase three: one action of the registry against the handles. *)
Definition run_action (acc : list (Z * TaskHandle) * list Effect) (a : RegistryAction)
  : list (Z * TaskHandle) * list Effect :=
  let '(hs, fx) := acc in
  match a with
  | SendLine chat line => (hs, fx ++ [Sent (mkOutbound chat (redact redactor line) None)])
  | RequestCancel id =>
      match bt_get hs id with
      | Some h => (bt_adjust (λ h, mkHandle (th_chat h) (th_prompt h) (th_pr_cap h) true) id hs,
                   fx ++ [CancelRequested id])
      | None => (hs, fx)
      end
  | HardKill id | Finalize id _ => (bt_remove id hs, fx ++ [Dropped id])
  end.
Definition pump (now : Timestamp) (drained : Z → list chars * bool) (t : TaskRunner) : TaskRunner * list Effect :=
  let '(reg, fx) := foldl (pump_handle now drained) (tr_registry t, []) (tr_handles t) in
  let '(acts, reg) := tick reg now in
  let '(hs, fx) := foldl run_action (tr_handles t, fx) acts in
  (mkRunner reg hs, fx).

Record Serve := mkServe
  { sv_poller : TelegramPoller; sv_bridge : ChatBridge; sv_approvals : ApprovalEngine; sv_runner : TaskRunner;
    sv_pending : option PendingTask; sv_next_approval_id : Z }.
Definition notify (chat : Z) (text : chars) : Effect := Sent (mkOutbound chat (notice redactor text) None).
(** The operation a gated launch asks the approval of. *)
Definition pr_operation (prompt : chars) : chars := lit "run this task and open a draft PR: " ++ prompt.

Definition launch_action (s : Serve) (route : ChatRoute) (prompt : chars) (chat : Z) (now : Timestamp)
  : Serve * list Effect :=
  match sv_pending s with
  | Some _ => (s, [notify chat (uni "an approval is already pending — approve or deny it first.")])
  | None =>
      match task_spec with
      | Some spec =>
          match tk_pr spec with
          | Some _ =>
              let approval_id := sv_next_approval_id s in
              let op := pr_operation prompt in
              let expires := saturating_add u64_MAX now PR_APPROVAL_TTL_MS in
              let '(approvals, nonce) := request (sv_approvals s) approval_id op op expires in
              (mkServe (sv_poller s) (sv_bridge s) approvals (sv_runner s)
                 (Some (mkPendingTask prompt chat approval_id route)) (wrapping_add 128 approval_id 1),
               [Sent (mkOutbound chat (notice redactor
                   (uni "🔒 This runs the task and, if it verifies, opens a *draft* PR — that needs your approval."
                    ++ [10] ++ uni "• " ++ op)) (Some (approval_keyboard nonce)))])
          | None =>
              match launch (sv_runner s) prompt chat None (budget_for_route route) now with
              | (t, Some (id, h)) =>
                  (mkServe (sv_poller s) (sv_bridge s) (sv_approvals s) t None (sv_next_approval_id s),
                   [Spawned id h; notify chat (uni "▶️ started task #" ++ dec_u id ++ lit ".")])
              | (t, None) =>
                  (mkServe (sv_poller s) (sv_bridge s) (sv_approvals s) t None (sv_next_approval_id s),
                   [notify chat (lit "at capacity (" ++ dec_u MAX_CONCURRENT_TASKS ++
                      uni " tasks running) — /cancel one first, then retry.")])
              end
          end
      | None =>
          (s, [notify chat (lit "I can chat here, but task execution needs a bound repo + verify " ++
                            lit "command (start me with --dir and --verify).")])
      end
  end.
Definition set_runner (s : Serve) (t : TaskRunner) : Serve :=
  mkServe (sv_poller s) (sv_bridge s) (sv_approvals s) t (sv_pending s) (sv_next_approval_id s).
Definition handle_action (s : Serve) (a : option LoopAction) (now : Timestamp) : Serve * list Effect :=
  match a with
  | Some (LaunchTask route prompt chat) => launch_action s route prompt chat now
  | Some (CancelTask chat id) =>
      let '(_, reg) := request_cancel (tr_registry (sv_runner s)) id chat in
      (set_runner s (mkRunner reg (tr_handles (sv_runner s))), [])
  | Some (KillTask chat id) =>
      let '(_, reg) := request_kill (tr_registry (sv_runner s)) id chat in
      (set_runner s (mkRunner reg (tr_handles (sv_runner s))), [])
  | None => (s, [])
  end.

(** [resolve_pending_pr], followed by the loop's [pending_task = None]. *)
Definition resolve_pending_pr (s : Serve) (pending : PendingTask) (decision : ApprovalResolution)
    (op_hash : option bytes) (chat : Z) (now : Timestamp) : Serve * list Effect :=
  let '(approvals, outcome) := resolve (sv_approvals s) (pk_approval_id pending) decision chat allowlist now op_hash in
  let done t := mkServe (sv_poller s) (sv_bridge s) approvals t None (sv_next_approval_id s) in
  match outcome with
  | OApproved _ =>
      let target := task_spec ≫= tk_pr in
      let expires := saturating_add u64_MAX now PR_APPROVAL_TTL_MS in
      match task_spec, target with
      | Some _, Some t =>
          match mint_github_write_cap allowlist chat (pt_repo t) (pt_branch_prefix t) (pk_approval_id pending) expires with
          | Some cap =>
              match launch (sv_runner s) (pk_prompt pending) (pk_chat pending) (Some cap)
                      (budget_for_route (pk_route pending)) now with
              | (tr, Some (id, h)) =>
                  (done tr, [Spawned id h; notify chat (uni "✅ approved — running; I'll open a draft PR if it verifies.")])
              | (tr, None) =>
                  (done tr, [notify chat (uni "✅ approved, but at task capacity — retry once a task frees up.")])
              end
          | None => (done (sv_runner s), [notify chat (uni "⚠️ could not authorize a PR for this chat (ignored).")])
          end
      | _, _ => (done (sv_runner s), [notify chat (uni "⚠️ PR mode is not configured — nothing to run.")])
      end
  | other => (done (sv_runner s), [Sent (mkOutbound chat (render_approval_outcome redactor other) None)])
  end.

(** The body of the loop over the polled events. *)
Definition serve_dispatch (s : Serve) (chat : Z) (ev : RuntimeEvent) (now : Timestamp) (w : W)
  : Serve * list Effect * W :=
  let status := mkStatus (Z.of_nat (len_active (tr_registry (sv_runner s)))) 0 0 true in
  let ctx := mkCtx redactor allowlist status (snapshot (tr_registry (sv_runner s)) now) now in
  let '(b, approvals, d, w) := dispatch_event chat ev (sv_bridge s) (sv_approvals s) ctx w in
  let s1 := mkServe (sv_poller s) b approvals (sv_runner s) (sv_pending s) (sv_next_approval_id s) in
  let '(s2, fx) := handle_action s1 (di_action d) now in
  (s2, (Sent <$> di_outbound d) ++ fx, w).
Definition serve_event (s : Serve) (e : Z * RuntimeEvent) (now : Timestamp) (w : W) : Serve * list Effect * W :=
  let '(chat, ev) := e in
  match sv_pending s ≫= (λ p, pair p <$> pr_approval_match ev (pk_approval_id p)) with
  | Some (p, (decision, op_hash)) => (resolve_pending_pr s p decision op_hash chat now, w)
  | None => serve_dispatch s chat ev now w
  end.
Fixpoint serve_events (s : Serve) (evs : list (Z * RuntimeEvent)) (now : Timestamp) (w : W)
  : Serve * list Effect * W :=
  match evs with
  | [] => (s, [], w)
  | e :: rest =>
      let '(s, fx, w) := serve_event s e now w in
      let '(s, fx', w) := serve_events s rest now w in
      (s, fx ++ fx', w)
  end.
(** One turn of the loop: supervise, poll, dispatch. *)
Record Round := mkRound
  { rd_now : Timestamp; rd_drained : Z → list chars * bool; rd_updates : Z → result TgError (list RawUpdate) }.
Definition serve_round (s : Serve) (r : Round) (w : W) : Serve * list Effect * W :=
  let '(t, fx) := pump (rd_now r) (rd_drained r) (sv_runner s) in
  let '(p, polled) := poll_routed (sv_poller s) (rd_updates r) (rd_now r) in
  let s1 := mkServe p (sv_bridge s) (sv_approvals s) t (sv_pending s) (sv_next_approval_id s) in
  match polled with
  | Ok evs => let '(s2, fx', w) := serve_events s1 evs (rd_now r) w in (s2, fx ++ fx', w)
  | Err _ => (s1, fx, w)
  end.
Fixpoint serve_rounds (s : Serve) (rs : list Round) (w : W) : Serve * list Effect * W :=
  match rs with
  | [] => (s, [], w)
  | r :: rest =>
      let '(s, fx, w) := serve_round s r w in
      let '(s, fx', w) := serve_rounds s rest w in
      (s, fx ++ fx', w)
  end.
(** The state [run_serve_loop] starts the loop in. *)
Definition Serve_new (config : ChatConfig) : Serve :=
  mkServe (TelegramPoller_new allowlist) (ChatBridge_new redactor config) ApprovalEngine_new TaskRunner_new None 1.
End Loop.
