(* ===== verification/RuntimeTheorems.v ===== *)
(** * Theorems of the runtime loop

    What a dispatched event can ask for; that a task is spawned with the right to open a pull
    request only when an allowlisted chat approved exactly that launch; and three places where the
    loop does not do what it means to. *)

From S2P Require Import Prelude Text Std Chars Redactor Types Sha256 Policy Strings Json NetProto Supervisor Registry.
From S2P Require Import Dispatch Telegram TelegramTheorems BotApi Chat Task Runtime.

Section Theorems.
Context (al : Z → bool) {W : Type} (model : Consult W).

(** ** Dispatch *)

Definition action_chat (a : LoopAction) : Z :=
  match a with LaunchTask _ _ c | CancelTask c _ | KillTask c _ => c end.

Lemma dispatch_command_action chat c ap ctx a :
  di_action (dispatch_command chat c ap ctx).2 = Some a →
  (∃ id, c = CCancel id ∧ a = CancelTask chat (task_id_of id) ∧ owns (cx_registry ctx) (task_id_of id) chat = true) ∨
  (∃ id, c = CKill id ∧ a = KillTask chat (task_id_of id) ∧ owns (cx_registry ctx) (task_id_of id) chat = true).
Proof.
  destruct c; cbn [dispatch_command snd]; try done; try (by destruct (resolve _ _ _ _ _ _ _)).
  - destruct (owns _ _ _) eqn:E; [|done]. intros [= <-]. left. eauto.
  - destruct (owns _ _ _) eqn:E; [|done]. intros [= <-]. right. eauto.
Qed.

(** An event asks for a launch only when it is a text of that chat that was routed to execution,
    and for the end of a task only when it is that chat's own command on a task of its own; every
    reply goes to the chat the event came from. *)
Theorem dispatch_scoped chat ev b ap ctx w :
  let '(_, _, d, _) := dispatch_event al model chat ev b ap ctx w in
  Forall (λ o, ob_chat o = chat) (di_outbound d) ∧
  ∀ a, di_action d = Some a →
    action_chat a = chat ∧
    match a with
    | LaunchTask _ _ _ => ∃ text, ev = QueuedTurn text ∨ ev = RSteer text
    | CancelTask _ id | KillTask _ id => owns (cx_registry ctx) id chat = true
    end.
Proof.
  assert (∀ c, Forall (λ o, ob_chat o = chat) (di_outbound (dispatch_command chat c ap ctx).2)) as Hout.
  { intros c. destruct c; cbn [dispatch_command snd]; try (by repeat constructor);
      try (by destruct (resolve _ _ _ _ _ _ _); repeat constructor).
    all: destruct (owns _ _ _); by repeat constructor. }
  assert (∀ text, ev = QueuedTurn text ∨ ev = RSteer text →
    let '(_, _, d, _) := dispatch_event al model chat ev b ap ctx w in
    Forall (λ o, ob_chat o = chat) (di_outbound d) ∧
    ∀ a, di_action d = Some a → ∃ r p, a = LaunchTask r p chat) as Htext.
  { intros text [-> | ->]; cbn [dispatch_event].
    all: destruct (bridge_dispatch al model b _ w) as [[b' reply] w']; destruct reply; cbn;
      (split; [by repeat constructor|]); intros a [= <-]; eauto. }
  destruct ev as [text|text|c|cb|].
  - specialize (Htext text (or_introl eq_refl)). destruct (dispatch_event _ _ _ _ _ _ _ _) as [[[b' ap'] d] w'].
    destruct Htext as [H1 H2]. split; [done|]. intros a (r & p & ->)%H2. eauto.
  - specialize (Htext text (or_intror eq_refl)). destruct (dispatch_event _ _ _ _ _ _ _ _) as [[[b' ap'] d] w'].
    destruct Htext as [H1 H2]. split; [done|]. intros a (r & p & ->)%H2. eauto.
  - cbn [dispatch_event]. specialize (Hout c). pose proof (λ a, dispatch_command_action chat c ap ctx a) as Hc.
    destruct (dispatch_command chat c ap ctx) as [ap' d]. cbn [snd] in *. split; [done|].
    intros a [(id & -> & -> & Ho)|(id & -> & -> & Ho)]%Hc; done.
  - cbn [dispatch_event]. destruct (resolve _ _ _ _ _ _ _) as [ap' o]. split; [by repeat constructor|done].
  - cbn [dispatch_event]. split; [by repeat constructor|done].
Qed.

(** Commands, callbacks and the button never reach the model. *)
Theorem model_only_for_text chat ev b ap ctx w :
  (∀ text, ev ≠ QueuedTurn text) → (∀ text, ev ≠ RSteer text) →
  (dispatch_event al model chat ev b ap ctx w).2 = w.
Proof.
  intros H1 H2. destruct ev as [text|text|c|cb|]; [by destruct (H1 text)|by destruct (H2 text)|..];
    cbn [dispatch_event]; [by destruct (dispatch_command _ _ _ _)|by destruct (resolve _ _ _ _ _ _ _)|done].
Qed.
End Theorems.

(** ** The gate of a pull request *)

Section Gate.
Context (al : Z → bool) {W : Type} (model : Consult W).
Context (redactor : Redactor) (allowlist : ChatAllowlist) (spec : option TaskSpec) (config : ChatConfig).

Definition with_poller (s : Serve) (p : TelegramPoller) : Serve :=
  mkServe p (sv_bridge s) (sv_approvals s) (sv_runner s) (sv_pending s) (sv_next_approval_id s).

(** The states of the loop: it supervises, polls, and handles events of allowlisted chats. *)
Inductive reach : Serve → Prop :=
| reach_new : reach (Serve_new redactor allowlist config)
| reach_pump s now drained : reach s → reach (set_runner s (pump redactor now drained (sv_runner s)).1)
| reach_poll s updates now : reach s → reach (with_poller s (poll_routed (sv_poller s) updates now).1)
| reach_event s chat ev now w :
    reach s → chat_allows allowlist chat = true →
    reach (serve_event al model redactor allowlist spec s (chat, ev) now w).1.1.

(** The launch that waits for an approval: its chat is allowlisted, the loop is configured for pull
    requests, and the pending approval of its id, if any, is that of this launch. *)
Definition pending_ok (s : Serve) : Prop :=
  ∀ p, sv_pending s = Some p →
    chat_allows allowlist (pk_chat p) = true ∧ is_Some (spec ≫= tk_pr) ∧
    ∀ pd, ae_pending (sv_approvals s) !! pk_approval_id p = Some pd →
          pd_op_hash pd = sha256 (to_utf8 (pr_operation (pk_prompt p))).

(** What the loop tells the dispatcher beside the event. *)
Definition event_ctx (s : Serve) (now : Timestamp) : DispatchCtx :=
  mkCtx redactor allowlist (mkStatus (Z.of_nat (len_active (tr_registry (sv_runner s)))) 0 0 true)
    (snapshot (tr_registry (sv_runner s)) now) now.
(** Why the event [ev] of [chat], handled in the state [s], spawned a task. *)
Definition launch_cause (s : Serve) (chat : Z) (ev : RuntimeEvent) (now : Timestamp) (w : W) (h : TaskHandle) : Prop :=
  match th_pr_cap h with
  | None =>
      spec ≫= tk_pr = None ∧ sv_pending s = None ∧ th_chat h = chat ∧
      (∃ text, ev = QueuedTurn text ∨ ev = RSteer text) ∧
      ∃ route, di_action (dispatch_event al model chat ev (sv_bridge s) (sv_approvals s) (event_ctx s now) w).1.2 =
                 Some (LaunchTask route (th_prompt h) chat)
  | Some cap =>
      ∃ p target op_hash e' tok,
        sv_pending s = Some p ∧ spec ≫= tk_pr = Some target ∧
        pr_approval_match ev (pk_approval_id p) = Some (Approve, op_hash) ∧
        resolve (sv_approvals s) (pk_approval_id p) Approve chat allowlist now op_hash = (e', OApproved tok) ∧
        ao_op_hash (ap_value tok) = sha256 (to_utf8 (pr_operation (th_prompt h))) ∧
        th_prompt h = pk_prompt p ∧ th_chat h = pk_chat p ∧
        ap_approved_by cap = mkAuthorizedUser (chat mod 2 ^ 64) ∧
        ap_approval_id cap = pk_approval_id p ∧
        gh_repo (ap_value cap) = truncated_text (pt_repo target) ∧
        gh_branch_prefix (ap_value cap) = truncated_text (pt_branch_prefix target)
  end.

Lemma resolve_keeps e id d chat a now h i pd :
  ae_pending (resolve e id d chat a now h).1 !! i = Some pd → ae_pending e !! i = Some pd.
Proof.
  pose proof (resolve_spec e id d chat a now h) as Hr. destruct (resolve e id d chat a now h) as [e' out].
  cbn [fst]. destruct out; crush_hyps; subst; try done;
    match goal with H : ae_pending e' = delete _ _ |- _ => rewrite H; apply lookup_delete_Some end.
Qed.
Lemma dispatch_keeps chat ev b ap ctx w i pd :
  ae_pending (dispatch_event al model chat ev b ap ctx w).1.1.2 !! i = Some pd → ae_pending ap !! i = Some pd.
Proof.
  destruct ev as [text|text|c|cb|]; cbn [dispatch_event]; try done.
  - by destruct (bridge_dispatch al model b _ w) as [[b' reply] w'].
  - by destruct (bridge_dispatch al model b _ w) as [[b' reply] w'].
  - destruct c; cbn [dispatch_command]; try done;
      match goal with |- context [resolve ?e ?x ?d ?c ?a ?n ?h] =>
        pose proof (resolve_keeps e x d c a n h i pd) as H; destruct (resolve e x d c a n h) end; exact H.
  - match goal with |- context [resolve ?e ?x ?d ?c ?a ?n ?h] =>
      pose proof (resolve_keeps e x d c a n h i pd) as H; destruct (resolve e x d c a n h) end; exact H.
Qed.

Lemma launch_spec t prompt chat cap budget now t' id h :
  launch t prompt chat cap budget now = (t', Some (id, h)) → h = mkHandle chat prompt cap false.
Proof.
  unfold launch. destruct (admit_task _ _ _ _) as [[i|e] reg]; [|done]. by intros [= _ _ <-].
Qed.

(** What one event does: the launch that waits stays the approved one, and a spawned task has its
    cause. *)
Definition event_safe (s : Serve) (chat : Z) (ev : RuntimeEvent) (now : Timestamp) (w : W) (s' : Serve) (fx : list Effect) : Prop :=
  pending_ok s' ∧
  ∀ id h, Spawned id h ∈ fx → chat_allows allowlist (th_chat h) = true ∧ launch_cause s chat ev now w h.

Lemma resolve_pending_safe s p ev d op_hash chat now w :
  sv_pending s = Some p → pr_approval_match ev (pk_approval_id p) = Some (d, op_hash) → pending_ok s →
  event_safe s chat ev now w (resolve_pending_pr redactor allowlist spec s p d op_hash chat now).1
    (resolve_pending_pr redactor allowlist spec s p d op_hash chat now).2.
Proof.
  intros Hp Hm Hok. destruct (Hok p Hp) as (Hchat & _ & Hpd). unfold resolve_pending_pr.
  pose proof (resolve_spec (sv_approvals s) (pk_approval_id p) d chat allowlist now op_hash) as Hr.
  destruct (resolve (sv_approvals s) (pk_approval_id p) d chat allowlist now op_hash) as [e' out] eqn:Er.
  destruct out as [tok| | | | |];
    try (split; [done|intros id h [=]%list_elem_of_singleton]).
  destruct Hr as (Ha & -> & (pd & Hpend & Hexp & Hh & ->) & He').
  destruct spec as [sp|] eqn:Hs; cbn [mbind option_bind];
    [|split; [done|intros id h [=]%list_elem_of_singleton]].
  destruct (tk_pr sp) as [target|] eqn:Ht; [|split; [done|intros id h [=]%list_elem_of_singleton]].
  unfold mint_github_write_cap, authorized_user. rewrite Ha. cbn [mbind option_bind].
  destruct (launch _ _ _ _ _ _) as [t' [[id h]|]] eqn:El;
    [|split; [done|intros id h [=]%list_elem_of_singleton]].
  apply launch_spec in El as ->. split; [done|].
  intros i h [Hin|[=]%list_elem_of_singleton]%elem_of_cons. injection Hin as _ ->. cbn [th_chat]. split; [done|].
  unfold launch_cause. cbn [th_pr_cap th_prompt th_chat]. eexists p, target, op_hash, e', _.
  split; [done|]. split; [by rewrite Hs|]. split; [done|]. split; [exact Er|].
  cbn [ap_value ao_op_hash]. by rewrite (Hpd _ Hpend).
Qed.

Lemma launch_action_safe s s0 route prompt chat ev now w :
  sv_pending s = sv_pending s0 → pending_ok s → chat_allows allowlist chat = true →
  (∃ text, ev = QueuedTurn text ∨ ev = RSteer text) →
  di_action (dispatch_event al model chat ev (sv_bridge s0) (sv_approvals s0) (event_ctx s0 now) w).1.2 =
    Some (LaunchTask route prompt chat) →
  event_safe s0 chat ev now w (launch_action redactor spec s route prompt chat now).1
    (launch_action redactor spec s route prompt chat now).2.
Proof.
  intros Hsame Hok Hchat Hev Hdi. unfold launch_action. destruct (sv_pending s) as [p|] eqn:Hp.
  { split; [done|]. intros id h [=]%list_elem_of_singleton. }
  destruct spec as [sp|] eqn:Hs; [|split; [done|intros id h [=]%list_elem_of_singleton]].
  destruct (tk_pr sp) as [target|] eqn:Ht.
  - cbn [request fst snd]. split; [|intros id h [=]%list_elem_of_singleton].
    intros p. cbn [fst sv_pending sv_approvals]. intros [= <-]. cbn [pk_chat pk_approval_id pk_prompt].
    split; [done|]. split; [rewrite Hs; cbn; rewrite Ht; by eexists|]. intros pd. cbn [ae_pending].
    rewrite lookup_insert_eq. by intros [= <-].
  - destruct (launch _ _ _ _ _ _) as [t' [[id h]|]] eqn:El; cbn [fst snd].
    + apply launch_spec in El as ->. split; [done|].
      intros i h [Hin|[=]%list_elem_of_singleton]%elem_of_cons. injection Hin as _ ->. cbn [th_chat]. split; [done|].
      unfold launch_cause. cbn [th_pr_cap th_chat th_prompt]. rewrite Hs, <-Hsame. split_and!; try done. by exists route.
    + split; [done|intros id h [=]%list_elem_of_singleton].
Qed.

Lemma serve_dispatch_safe s chat ev now w :
  pending_ok s → chat_allows allowlist chat = true →
  event_safe s chat ev now w (serve_dispatch al model redactor allowlist spec s chat ev now w).1.1
    (serve_dispatch al model redactor allowlist spec s chat ev now w).1.2.
Proof.
  intros Hok Hchat. unfold serve_dispatch. fold (event_ctx s now). set (ctx := event_ctx s now).
  pose proof (dispatch_scoped al model chat ev (sv_bridge s) (sv_approvals s) ctx w) as Hd.
  assert (∀ x, (dispatch_event al model chat ev (sv_bridge s) (sv_approvals s) ctx w) = x → di_action (dispatch_event al model chat ev (sv_bridge s) (sv_approvals s) (event_ctx s now) w).1.2 = di_action x.1.2) as Hsame by (by intros ? <-).
  pose proof (λ i pd, dispatch_keeps chat ev (sv_bridge s) (sv_approvals s) ctx w i pd) as Hk.
  destruct (dispatch_event al model chat ev (sv_bridge s) (sv_approvals s) ctx w) as [[[b ap] d] w']. specialize (Hsame _ eq_refl).
  cbn [fst snd] in *. destruct Hd as [_ Hact].
  set (s1 := mkServe _ _ _ _ _ _).
  assert (pending_ok s1) as Hok1.
  { intros p Hp. destruct (Hok p Hp) as (? & ? & Hpd). split; [done|]. split; [done|]. intros pd Hl. by apply Hpd, Hk. }
  assert (∀ fx, (∀ id h, Spawned id h ∈ (Sent <$> di_outbound d) ++ fx → Spawned id h ∈ fx)) as Hsent.
  { intros fx id h [(o & [=] & _)%list_elem_of_fmap|?]%elem_of_app. done. }
  assert (∀ s2 fx, event_safe s chat ev now w s2 fx →
    event_safe s chat ev now w s2 ((Sent <$> di_outbound d) ++ fx)) as Hpre.
  { intros s2 fx [H1 H2]. split; [done|]. intros id h Hin. by apply (H2 id), Hsent. }
  destruct (di_action d) as [[route prompt c|c id|c id]|] eqn:Ed; cbn [handle_action].
  - destruct (Hact _ eq_refl) as [Hc Htext]. cbn [action_chat] in Hc. subst c.
    pose proof (launch_action_safe s1 s route prompt chat ev now w eq_refl Hok1 Hchat Htext Hsame) as Hl.
    destruct (launch_action _ _ _ _ _ _ _) as [s2 fx]. by apply Hpre.
  - destruct (request_cancel _ _ _) as [ok reg]. apply Hpre. split; [done|by intros ? ? ?%elem_of_nil].
  - destruct (request_kill _ _ _) as [ok reg]. apply Hpre. split; [done|by intros ? ? ?%elem_of_nil].
  - apply Hpre. split; [done|by intros ? ? ?%elem_of_nil].
Qed.

Lemma serve_event_safe s chat ev now w :
  pending_ok s → chat_allows allowlist chat = true →
  event_safe s chat ev now w (serve_event al model redactor allowlist spec s (chat, ev) now w).1.1
    (serve_event al model redactor allowlist spec s (chat, ev) now w).1.2.
Proof.
  intros Hok Hchat. unfold serve_event.
  destruct (sv_pending s) as [p|] eqn:Hp; [|by apply serve_dispatch_safe]. cbn [mbind option_bind].
  destruct (pr_approval_match ev (pk_approval_id p)) as [[d oh]|] eqn:Hm; [|by apply serve_dispatch_safe].
  cbn [fmap option_fmap option_map fst]. by apply resolve_pending_safe.
Qed.

Lemma reach_ok s : reach s → pending_ok s.
Proof.
  induction 1 as [|s now dr _ IH|s upd now _ IH|s chat ev now w _ IH Ha]; [done|done|done|].
  by apply serve_event_safe.
Qed.

Lemma serve_event_poller s e now w :
  sv_poller (serve_event al model redactor allowlist spec s e now w).1.1 = sv_poller s.
Proof.
  destruct e as [chat ev]. unfold serve_event.
  assert (sv_poller (serve_dispatch al model redactor allowlist spec s chat ev now w).1.1 = sv_poller s) as Hd.
  { unfold serve_dispatch. destruct (dispatch_event _ _ _ _ _ _ _ _) as [[[b ap] d] w'].
    destruct (di_action d) as [[route prompt c|c id|c id]|]; cbn [handle_action]; [|by destruct (request_cancel _ _ _)|by destruct (request_kill _ _ _)|done].
    unfold launch_action. cbn [sv_pending]. destruct (sv_pending s); [done|]. destruct spec as [sp|]; [|done].
    destruct (tk_pr sp); [done|]. by destruct (launch _ _ _ _ _ _) as [t [[id h]|]]. }
  destruct (sv_pending s ≫= _) as [[p [d oh]]|]; [|done]. cbn [fst]. unfold resolve_pending_pr.
  destruct (resolve _ _ _ _ _ _ _) as [e' out]. destruct out; try done.
  destruct spec as [sp|]; [|done]. cbn [mbind option_bind]. destruct (tk_pr sp); [|done].
  destruct (mint_github_write_cap _ _ _ _ _ _); [|done]. by destruct (launch _ _ _ _ _ _) as [t' [[id h]|]].
Qed.

Lemma reach_allowlist s : reach s → po_allowlist (sv_poller s) = allowlist.
Proof.
  induction 1 as [|s now dr _ IH|s upd now _ IH|s chat ev now w _ IH Ha]; [done|done| |by rewrite serve_event_poller].
  cbn [with_poller sv_poller]. by rewrite (proj1 (poll_routed_allowed _ _ _)).
Qed.

(** The state of a turn once the batch is fetched, before its first event is handled. *)
Definition polled (s : Serve) (r : Round) : Serve :=
  with_poller (set_runner s (pump redactor (rd_now r) (rd_drained r) (sv_runner s)).1)
    (poll_routed (sv_poller s) (rd_updates r) (rd_now r)).1.
Abbreviation event := (serve_event al model redactor allowlist spec).
Abbreviation events := (serve_events al model redactor allowlist spec).
Abbreviation round := (serve_round al model redactor allowlist spec).
Abbreviation rounds := (serve_rounds al model redactor allowlist spec).

Lemma events_reach s evs now w :
  reach s → (∀ e, e ∈ evs → chat_allows allowlist e.1 = true) → reach (events s evs now w).1.1.
Proof.
  revert s w. induction evs as [|[chat ev] evs IH]; intros s w Hs Hall; [done|]. cbn [serve_events].
  pose proof (reach_event s chat ev now w Hs (Hall (chat, ev) ltac:(by left))) as Hr.
  destruct (event s (chat, ev) now w) as [[s1 fx] w1]. cbn [fst snd] in *.
  specialize (IH s1 w1 Hr ltac:(intros e He; apply Hall; by right)).
  by destruct (events s1 evs now w1) as [[s2 fx'] w2].
Qed.
(** A task is spawned by one event, in the state that the events before it left. *)
Lemma events_spawn s evs now w id h :
  Spawned id h ∈ (events s evs now w).1.2 →
  ∃ evs1 e evs2, evs = evs1 ++ e :: evs2 ∧
    Spawned id h ∈ (event (events s evs1 now w).1.1 e now (events s evs1 now w).2).1.2.
Proof.
  revert s w. induction evs as [|e evs IH]; intros s w; [by intros ?%elem_of_nil|]. cbn [serve_events].
  destruct (event s e now w) as [[s1 fx] w1] eqn:Ee. specialize (IH s1 w1).
  destruct (events s1 evs now w1) as [[s2 fx'] w2] eqn:Es. cbn [fst snd] in *.
  intros [Hin|Hin]%elem_of_app.
  - exists [], e, evs. cbn. by rewrite Ee.
  - destruct (IH Hin) as (evs1 & e' & evs2 & -> & H). exists (e :: evs1), e', evs2. split; [done|].
    cbn [serve_events]. rewrite Ee. by destruct (events s1 evs1 now w1) as [[? ?] ?].
Qed.

Lemma pump_lines_spawn now i chat ls reg id h : Spawned id h ∉ (pump_lines redactor now i chat ls reg).2.
Proof.
  unfold pump_lines. match goal with |- _ ∉ (foldl ?f _ _).2 => set (step := f) end.
  assert (∀ fx reg, Spawned id h ∉ fx → Spawned id h ∉ (foldl step (reg, fx) ls).2) as Hgen.
  { induction ls as [|l ls IH]; intros fx reg0 H0; [done|]. cbn [foldl]. apply IH. set_solver. }
  apply Hgen, not_elem_of_nil.
Qed.
Lemma pump_spawn now drained t id h : Spawned id h ∉ (pump redactor now drained t).2.
Proof.
  unfold pump. destruct (foldl _ (tr_registry t, []) (tr_handles t)) as [reg fx] eqn:E.
  assert (Spawned id h ∉ fx) as Hfx.
  { change fx with (reg, fx).2. rewrite <-E. clear E. assert (Spawned id h ∉ ([] : list Effect)) as H0 by apply not_elem_of_nil.
    revert H0. generalize ([] : list Effect) as fx0. generalize (tr_registry t) as reg0.
    induction (tr_handles t) as [|p hs IH]; intros reg0 fx0 H0; [done|]. cbn [foldl]. unfold pump_handle at 2.
    destruct (drained p.1) as [ls fin]. pose proof (pump_lines_spawn now p.1 (th_chat p.2) ls reg0 id h) as Hl.
    destruct (pump_lines _ _ _ _ _ _) as [reg1 fx1]. apply IH. set_solver. }
  destruct (tick reg now) as [acts reg']. destruct (foldl _ (tr_handles t, fx) acts) as [hs fx'] eqn:E2. cbn [snd].
  change fx' with (hs, fx').2. rewrite <-E2. clear E E2. revert fx Hfx. generalize (tr_handles t) as hs0.
  induction acts as [|a acts IH]; intros hs0 fx Hfx; [done|]. cbn [foldl].
  destruct a as [c l|i|i|i d]; cbn [run_action]; [apply IH; set_solver| |apply IH; set_solver|apply IH; set_solver].
  destruct (bt_get hs0 i); apply IH; set_solver.
Qed.

Lemma round_reach s r w : reach s → reach (polled s r) ∧ reach (round s r w).1.1.
Proof.
  intros Hs.
  pose proof (reach_poll _ (rd_updates r) (rd_now r) (reach_pump s (rd_now r) (rd_drained r) Hs)) as Hr.
  cbn [set_runner sv_poller] in Hr. split; [exact Hr|]. unfold serve_round.
  pose proof (poll_routed_allowed (sv_poller s) (rd_updates r) (rd_now r)) as [_ Hev]. rewrite (reach_allowlist s Hs) in Hev.
  destruct (pump redactor (rd_now r) (rd_drained r) (sv_runner s)) as [t fx].
  destruct (poll_routed (sv_poller s) (rd_updates r) (rd_now r)) as [p polled]. cbn [fst snd] in *.
  destruct polled as [evs|e]; [|exact Hr].
  pose proof (events_reach _ evs (rd_now r) w Hr (λ e, Hev evs e eq_refl)) as H1.
  unfold with_poller, set_runner in H1. cbn [sv_bridge sv_approvals sv_runner sv_pending sv_next_approval_id] in H1.
  by destruct (serve_events _ _ _ _ _ _ evs (rd_now r) w) as [[s2 fx'] w2].
Qed.
Lemma round_spawn s r w id h :
  Spawned id h ∈ (round s r w).1.2 →
  ∃ evs, (poll_routed (sv_poller s) (rd_updates r) (rd_now r)).2 = Ok evs ∧
         Spawned id h ∈ (events (polled s r) evs (rd_now r) w).1.2.
Proof.
  unfold serve_round, polled. pose proof (pump_spawn (rd_now r) (rd_drained r) (sv_runner s) id h) as Hp.
  destruct (pump redactor (rd_now r) (rd_drained r) (sv_runner s)) as [t fx].
  destruct (poll_routed (sv_poller s) (rd_updates r) (rd_now r)) as [p polled]. cbn [fst snd] in *.
  destruct polled as [evs|e]; [|done]. intros Hin. exists evs. split; [done|]. revert Hin.
  unfold with_poller, set_runner. cbn [sv_bridge sv_approvals sv_runner sv_pending sv_next_approval_id].
  destruct (serve_events _ _ _ _ _ _ evs (rd_now r) w) as [[s2 fx'] w2]. cbn [fst snd].
  by intros [?|?]%elem_of_app.
Qed.
Lemma rounds_reach s rs w : reach s → reach (rounds s rs w).1.1.
Proof.
  revert s w. induction rs as [|r rs IH]; intros s w Hs; [done|]. cbn [serve_rounds].
  pose proof (proj2 (round_reach s r w Hs)) as H1. destruct (round s r w) as [[s1 fx] w1]. cbn [fst snd] in *.
  specialize (IH s1 w1 H1). by destruct (rounds s1 rs w1) as [[s2 fx'] w2].
Qed.
Lemma rounds_spawn s rs w id h :
  Spawned id h ∈ (rounds s rs w).1.2 →
  ∃ rs1 r rs2, rs = rs1 ++ r :: rs2 ∧ Spawned id h ∈ (round (rounds s rs1 w).1.1 r (rounds s rs1 w).2).1.2.
Proof.
  revert s w. induction rs as [|r rs IH]; intros s w; [by intros ?%elem_of_nil|]. cbn [serve_rounds].
  destruct (round s r w) as [[s1 fx] w1] eqn:Er. specialize (IH s1 w1).
  destruct (rounds s1 rs w1) as [[s2 fx'] w2] eqn:Es. cbn [fst snd] in *.
  intros [Hin|Hin]%elem_of_app.
  - exists [], r, rs. cbn. by rewrite Er.
  - destruct (IH Hin) as (rs1 & r' & rs2 & -> & H). exists (r :: rs1), r', rs2. split; [done|].
    cbn [serve_rounds]. rewrite Er. by destruct (rounds s1 rs1 w1) as [[? ?] ?].
Qed.

(** The events of a batch are those of its updates. *)
Lemma poll_batch_source now p batch e :
  e ∈ (poll_batch now p batch).2 → ∃ raw, raw ∈ batch ∧ event_of (po_allowlist p) now raw = Some e.
Proof.
  revert p. induction batch as [|raw batch IH]; intros p; [by intros ?%elem_of_nil|]. cbn [poll_batch].
  pose proof (poll_update_spec now p raw) as Hu. destruct (poll_update now p raw) as [p1 ev].
  destruct Hu as (Ha & _ & _ & ->). specialize (IH p1). destruct (poll_batch now p1 batch) as [p2 evs].
  cbn [fst snd] in *. rewrite Ha in IH. intros [He|He]%elem_of_app.
  - exists raw. split; [by left|]. destruct (accept _ _).2; [|by apply elem_of_nil in He].
    destruct (event_of _ now raw) as [x|]; cbn in He; [|by apply elem_of_nil in He].
    by apply list_elem_of_singleton in He as ->.
  - destruct (IH He) as (raw' & ? & ?). exists raw'. split; [by right|done].
Qed.
Lemma poll_routed_source p upd now evs e :
  (poll_routed p upd now).2 = Ok evs → e ∈ evs →
  ∃ batch raw, upd (po_offset p) = Ok batch ∧ raw ∈ batch ∧ event_of (po_allowlist p) now raw = Some e.
Proof.
  unfold poll_routed. destruct (upd (po_offset p)) as [batch|er]; [|done].
  pose proof (poll_batch_source now p batch e) as H. destruct (poll_batch now p batch) as [p' evs'].
  intros [= <-] He. destruct (H He) as (raw & ? & ?). by exists batch, raw.
Qed.
End Gate.

(** C16: Over any run of the loop, whatever the model, the updates and the tasks do: every task that is
    spawned is spawned by one event of one turn, and that event is the one of an update that the
    turn's poll fetched, from an allowlisted chat. In the very state in which the loop handles that
    event, after the turns and the events before it: either no pull request is configured, no launch
    waits for an approval, the event is a text, and the dispatcher asked to launch exactly that
    prompt for that chat; or a launch waits, the event answers it with [Approve], never with [Deny],
    the engine accepts that answer for the approval of exactly that prompt, and the task gets the
    prompt and the chat of the launch, with a right that names the configured repository and prefix,
    the approval and the approving chat. The chat of the task is allowlisted. *)
Theorem serve_launch_authorized {W} (al : Z → bool) (model : Consult W) redactor allowlist spec config rs w id h :
  Spawned id h ∈ (serve_rounds al model redactor allowlist spec (Serve_new redactor allowlist config) rs w).1.2 →
  chat_allows allowlist (th_chat h) = true ∧
  ∃ rs1 r rs2 evs1 chat ev evs2 batch raw,
    rs = rs1 ++ r :: rs2 ∧
    let before := serve_rounds al model redactor allowlist spec (Serve_new redactor allowlist config) rs1 w in
    let s0 := before.1.1 in
    rd_updates r (po_offset (sv_poller s0)) = Ok batch ∧ raw ∈ batch ∧
    event_of allowlist (rd_now r) raw = Some (chat, ev) ∧ chat_allows allowlist chat = true ∧
    (poll_routed (sv_poller s0) (rd_updates r) (rd_now r)).2 = Ok (evs1 ++ (chat, ev) :: evs2) ∧
    let turn := serve_events al model redactor allowlist spec (polled redactor s0 r) evs1 (rd_now r) before.2 in
    Spawned id h ∈ (serve_event al model redactor allowlist spec turn.1.1 (chat, ev) (rd_now r) turn.2).1.2 ∧
    launch_cause al model redactor allowlist spec turn.1.1 chat ev (rd_now r) turn.2 h.
Proof.
  intros Hin. destruct (rounds_spawn _ _ _ _ _ _ _ _ _ _ Hin) as (rs1 & r & rs2 & -> & Hr).
  set (before := serve_rounds _ _ _ _ _ _ rs1 w) in *.
  assert (reach al model redactor allowlist spec config before.1.1) as Hs0 by (apply rounds_reach; constructor).
  destruct (round_spawn _ _ _ _ _ _ _ _ _ _ Hr) as (evs & Hevs & He).
  destruct (events_spawn _ _ _ _ _ _ _ _ _ _ _ He) as (evs1 & [chat ev] & evs2 & -> & Hev).
  assert ((chat, ev) ∈ evs1 ++ (chat, ev) :: evs2) as Hmem by (apply elem_of_app; right; by left).
  destruct (poll_routed_source _ _ _ _ _ Hevs Hmem) as (batch & raw & Hb & Hraw & Hof).
  pose proof (poll_routed_allowed (sv_poller before.1.1) (rd_updates r) (rd_now r)) as [_ Hall].
  rewrite (reach_allowlist _ _ _ _ _ _ _ Hs0) in Hof, Hall.
  assert (chat_allows allowlist chat = true) as Hchat by exact (Hall _ _ Hevs Hmem).
  assert (reach al model redactor allowlist spec config
    (serve_events al model redactor allowlist spec (polled redactor before.1.1 r) evs1 (rd_now r) before.2).1.1) as Hturn.
  { apply events_reach; [by apply (round_reach _ _ _ _ _ _ _ _ before.2)|]. intros e Hine. apply (Hall _ _ Hevs), elem_of_app. by left. }
  destruct (proj2 (serve_event_safe al model redactor allowlist spec _ chat ev (rd_now r) _
    (reach_ok _ _ _ _ _ _ _ Hturn) Hchat) id h Hev) as [Hh Hcause].
  split; [done|]. exists rs1, r, rs2, evs1, chat, ev, evs2, batch, raw. done.
Qed.

(** Two turns of a loop that opens pull requests: chat 5 asks for a fix, then approves it. *)
Definition approve_round (now : Timestamp) (n : Z) (text : string) : Round :=
  mkRound now (λ _, ([], false)) (λ _, Ok [mkRaw n 5 n 5 None (Some (lit text)) None]).
Definition approve_spec : TaskSpec :=
  mkTaskSpec [] (lit <$> ["cargo"; "test"]) TbNative (Some (mkPrTarget "o/r" "main" "crustcore" [])).
Definition approve_run : Serve * list Effect * unit :=
  serve_rounds (λ c, in_range 97 122 c) (λ _ w, (None, w)) Redactor_new (allowlist_of [5]) (Some approve_spec)
    (Serve_new Redactor_new (allowlist_of [5]) ChatConfig_default)
    [approve_round 10 1 "fix the typo"; approve_round 20 2 "/approve 1"] tt.
Definition spawned (fx : list Effect) : list (Z * TaskHandle) :=
  omap (λ e, match e with Spawned id h => Some (id, h) | _ => None end) fx.
Lemma serve_launch_authorized_witness :
  ∃ id h, Spawned id h ∈ approve_run.1.2 ∧ ap_approval_id <$> th_pr_cap h = Some 1 ∧
    chat_allows (allowlist_of [5]) (th_chat h) = true.
Proof.
  assert ((λ p, ap_approval_id <$> th_pr_cap p.2) <$> spawned approve_run.1.2 = [Some 1]) as E by (vm_compute; reflexivity).
  destruct (spawned approve_run.1.2) as [|[id h] l] eqn:El; [discriminate E|]. exists id, h.
  assert (Spawned id h ∈ approve_run.1.2) as Hin.
  { assert ((id, h) ∈ spawned approve_run.1.2) as H by (rewrite El; left).
    apply list_elem_of_omap in H as (e & He & Hs). destruct e; try discriminate Hs. injection Hs as -> ->. exact He. }
  split; [exact Hin|]. split; [by injection E|].
  exact (proj1 (serve_launch_authorized _ _ _ _ _ _ _ _ id h Hin)).
Defined.

(** ** The buttons of an approval *)

Lemma ascii_truncated cs max : Forall (λ c, 0 ≤ c < 128) cs → truncated_chars cs max = take max cs.
Proof.
  intros Ha. assert (Forall is_scalar cs) as Hs by (eapply Forall_impl; [exact Ha|]; intros c ?; simpl in *; apply small_scalar; lia).
  destruct (truncated_chars_split cs max Hs) as (Hp & Hl & Hmax).
  assert (∀ p, p `prefix_of` cs → byte_length p = length p) as Hlen.
  { intros p [q ->]. apply Forall_app in Ha as [Ha _]. unfold byte_length. by rewrite to_utf8_ascii. }
  assert (take max cs `prefix_of` truncated_chars cs max) as Ht.
  { apply Hmax; [apply prefix_take|]. rewrite Hlen by apply prefix_take. rewrite length_take. lia. }
  symmetry. apply (prefix_length_eq _ _ Ht). rewrite Hlen in Hl by done. apply prefix_length in Hp.
  rewrite length_take. lia.
Qed.

(** The data of an approval button does not fit the field of a keyboard: it is cut on the wire, and
    what comes back when the button is pressed is never a callback. *)
Theorem approval_button_dead n d :
  0 ≤ an_approval_id n ≤ u128_MAX → Forall is_byte (an_op_hash n) → length (an_op_hash n) = 32%nat →
  callback_parse (truncate_field (callback_data n d)) = None.
Proof.
  intros Hid Hb Hl. unfold truncate_field, callback_data, hash_hex.
  pose proof (hex_of_ascii _ Hb) as Hhex.
  assert (length (dec_u (an_approval_id n)) ≤ 39)%nat as Hdec.
  { apply (dec_u_length 39). assert (u128_MAX < 10 ^ Z.of_nat 39) by (by vm_compute). lia. }
  assert (length (resolution_verb d) ≤ 7)%nat as Hverb by (destruct d; vm_compute; lia).
  set (pre := lit "ap:" ++ dec_u (an_approval_id n) ++ lit ":" ++ resolution_verb d ++ lit ":").
  assert (0 < length pre ≤ 51)%nat as Hpre.
  { unfold pre. rewrite !length_app. change (length (lit "ap:")) with 3%nat. change (length (lit ":")) with 1%nat. lia. }
  replace (lit "ap:" ++ dec_u (an_approval_id n) ++ lit ":" ++ resolution_verb d ++ lit ":" ++ hex_of (an_op_hash n))
    with (pre ++ hex_of (an_op_hash n)) by (unfold pre; by rewrite <-!app_assoc).
  rewrite ascii_truncated.
  2:{ apply Forall_app. split; [|eapply Forall_impl; [exact Hhex|simpl; lia]]. unfold pre.
      repeat (apply Forall_app; split); try (by apply (bool_decide_unpack _); vm_compute).
      - apply Forall_forall. intros c Hc%dec_u_digits; lia.
      - destruct d; by apply (bool_decide_unpack _); vm_compute. }
  rewrite take_app_ge by (unfold INLINE_KEYBOARD_MAX_FIELD_BYTES; lia).
  set (h := take _ (hex_of _)).
  assert (length h < 64)%nat as Hh by (unfold h; rewrite length_take; unfold INLINE_KEYBOARD_MAX_FIELD_BYTES; lia).
  assert (Forall (λ c, 48 ≤ c < 128 ∧ c ≠ 58) h) as Hha by by apply Forall_take.
  unfold pre. rewrite <-!app_assoc. unfold callback_parse. rewrite callback_data_parts; [|lia|].
  2:{ intros Hin. rewrite Forall_forall in Hha. by destruct (Hha _ Hin) as [_ []]. }
  destruct (negb _); [done|]. rewrite parse_uint_dec_u by done. cbn [mbind option_bind]. rewrite decision_of_verb.
  cbn [mbind option_bind]. unfold parse_hash_hex, byte_length.
  rewrite to_utf8_ascii by (eapply Forall_impl; [exact Hha|simpl; lia]).
  destruct (Nat.eqb_spec (length h) 64); [lia|done].
Qed.
Lemma approval_button_dead_witness :
  callback_parse (truncate_field (callback_data (mkNonce 1 (replicate 32 171) 0) Approve)) = None.
Proof.
  apply (approval_button_dead (mkNonce 1 (replicate 32 171) 0) Approve).
  - cbn. unfold u128_MAX. lia.
  - apply (bool_decide_unpack _). by vm_compute.
  - reflexivity.
Defined.

(** ** Launches that are lost, ids that wrap *)

(** A callback of the pending launch with a wrong hash is refused and does not spend the approval,
    yet the loop forgets the launch: approving it afterwards starts nothing. *)
Theorem mismatch_forgets_launch {W} (al : Z → bool) (model : Consult W) redactor allowlist spec s p pd d bad chat now w :
  sv_pending s = Some p → ae_pending (sv_approvals s) !! pk_approval_id p = Some pd →
  chat_allows allowlist chat = true → now ≤ pd_expires_at pd → bad ≠ pd_op_hash pd →
  let s1 := (serve_event al model redactor allowlist spec s
               (chat, ApprovalCallback (mkCallback (pk_approval_id p) d bad)) now w).1.1 in
  sv_pending s1 = None ∧ is_pending (sv_approvals s1) (pk_approval_id p) = true ∧
  ∀ chat' now' w' id h,
    Spawned id h ∉ (serve_event al model redactor allowlist spec s1
                      (chat', RCommand (CApprove (pk_approval_id p))) now' w').1.2.
Proof.
  intros Hp Hpd Hc Hx Hbad. unfold serve_event at 1. rewrite Hp. cbn [mbind option_bind pr_approval_match cb_approval_id].
  rewrite Z.eqb_refl. cbn [fmap option_fmap option_map cb_decision cb_op_hash].
  unfold resolve_pending_pr, resolve, authorized_user. rewrite Hc, Hpd.
  rewrite (proj2 (Z.ltb_ge _ _)) by lia. rewrite bool_decide_false by done. cbn [negb fst sv_pending sv_approvals].
  split; [done|]. split; [apply bool_decide_eq_true; by eexists|].
  intros chat' now' w' id h. unfold serve_event. cbn [sv_pending mbind option_bind].
  unfold serve_dispatch. cbn [dispatch_event dispatch_command].
  destruct (resolve _ _ _ _ _ _ _) as [e' o]. cbn [handle_action di_action say di_outbound fst snd].
  rewrite app_nil_r. by intros [=]%list_elem_of_singleton.
Qed.
Definition mismatch_example : Serve :=
  mkServe (TelegramPoller_new (allowlist_of [5])) (ChatBridge_new Redactor_new ChatConfig_default)
    (mkApprovals {[ 1 := mkPending (replicate 32 7) [] 100 ]}) TaskRunner_new
    (Some (mkPendingTask (lit "go") 5 1 QuickFix)) 2.
Lemma mismatch_forgets_launch_witness :
  sv_pending (serve_event (λ _, true) (λ _ (w : unit), (None, w)) Redactor_new (allowlist_of [5]) None mismatch_example
    (5, ApprovalCallback (mkCallback 1 Approve (replicate 32 8))) 50 tt).1.1 = None.
Proof.
  refine (proj1 (mismatch_forgets_launch (λ _, true) (λ _ (w : unit), (None, w)) Redactor_new (allowlist_of [5]) None
    mismatch_example (mkPendingTask (lit "go") 5 1 QuickFix) (mkPending (replicate 32 7) [] 100) Approve
    (replicate 32 8) 5 50 tt _ _ _ _ _)).
  - reflexivity.
  - reflexivity.
  - by vm_compute.
  - cbn. lia.
  - by vm_compute.
Defined.

(** The id of a command is cut to 64 bits: a number beyond them ends the task it is congruent to. *)
Theorem cancel_id_wraps chat id ap ctx :
  0 ≤ id < 2 ^ 64 → owns (cx_registry ctx) id chat = true →
  di_action (dispatch_command chat (CCancel (id + 2 ^ 64)) ap ctx).2 = Some (CancelTask chat id).
Proof.
  intros Hid Ho. cbn [dispatch_command snd]. assert (task_id_of (id + 2 ^ 64) = id) as ->.
  { unfold task_id_of. rewrite <-(Z.mul_1_l (2 ^ 64)) at 1. rewrite Z.mod_add by lia. by apply Z.mod_small. }
  by rewrite Ho.
Qed.
