(* ===== verification/Index.v ===== *)
(** * Repository memory and code index (crate [crustcore-index])

    [lib.rs]: the memory store with its queries and its snapshot codec, the repository map, the
    capsule, the grep lookup and the packing of redacted context; [exec.rs]: the hardened git
    listings and their parsers. Text is its characters. [char::is_alphanumeric] is Unicode's and
    [git] a process: both are parameters. Sets and histograms are [gset] and [gmap], walked in the
    order of their keys as the source's ordered maps are. *)

From S2P Require Import Prelude Text Std Cursor Chars Redactor Strings Order Sha256 Types Worktree.

Definition MAX_CONTEXT_BUNDLE : nat := N.to_nat (16 * 1024).
Definition MAX_CONTEXT_FRAGMENTS : nat := 32.
Definition MAX_FRAGMENT_BYTES : nat := 2048.
Definition MAX_REPO_MAP_ENTRIES : nat := 256.
Definition MAX_FAILURE_MSG : nat := 1024.
Definition MEMORY_MAGIC : bytes := lit "CCMS".
Definition MEMORY_VERSION : Z := 1.
Definition MAX_MEMORY_ENTRIES : Z := 64 * 1024.
Definition MAX_MEMORY_FIELD : nat := N.to_nat (64 * 1024).

(** ** Memory *)

Inductive MemoryKind := RepoSummary | CommandMemory | Convention | Failure.
Inductive MemorySource := RepoFile | ToolObservation | PriorRun | UserNote.
#[export] Instance MemoryKind_eq_dec : EqDecision MemoryKind.
Proof. solve_decision. Defined.
#[export] Instance MemorySource_eq_dec : EqDecision MemorySource.
Proof. solve_decision. Defined.
Record MemoryEntry := mkEntry { me_kind : MemoryKind; me_key : chars; me_value : chars; me_source : MemorySource }.
Abbreviation MemoryStore := (list MemoryEntry) (only parsing).
Definition kind_eqb (a b : MemoryKind) : bool := bool_decide (a = b).
Definition put (s : MemoryStore) (e : MemoryEntry) : MemoryStore := s ++ [e].
Definition by_kind (s : MemoryStore) (k : MemoryKind) : list MemoryEntry := List.filter (λ e, kind_eqb (me_kind e) k) s.

(** ** Relevance *)

Section Tokens.
Context (is_alphanumeric : Z → bool).
(** [s.split(|c| !c.is_alphanumeric())]. *)
Fixpoint split_by (p : Z → bool) (s : chars) : list chars :=
  match s with
  | [] => [[]]
  | c :: s' =>
      if p c then [] :: split_by p s'
      else match split_by p s' with [] => [[c]] | w :: ws => (c :: w) :: ws end
  end.
Definition tokenize (s : chars) : list chars :=
  to_ascii_lowercase <$> List.filter (λ t, negb (str_eq t [])) (split_by (λ c, negb (is_alphanumeric c)) s).
Definition relevance (query_tokens : list chars) (text : chars) : nat :=
  let hay := to_ascii_lowercase text in
  length (fold_left (λ seen t, if negb (existsb (str_eq t) seen) && contains hay t then t :: seen else seen) query_tokens []).
(** The items with a positive score, best first, ties in their order. *)
Definition scored {A} (tokens : list chars) (text : A → chars) (items : list A) : list A :=
  let l := omap (λ '(i, a), let score := relevance tokens (text a) in
                            if (0 <? score)%nat then Some (score, i, a) else None) (imap (λ i a, (i, a)) items) in
  snd <$> sort_by (λ a b, (b.1.1 <? a.1.1)%nat || ((a.1.1 =? b.1.1)%nat && (a.1.2 <=? b.1.2)%nat)) l.
Definition entry_text (e : MemoryEntry) : chars := me_key e ++ lit " " ++ me_value e.
Definition store_search (s : MemoryStore) (query : chars) : list MemoryEntry :=
  match tokenize query with
  | [] => []
  | tokens => scored tokens entry_text s
  end.
End Tokens.

(** ** Prior failures *)

Definition changed_paths_text (paths : list chars) : chars :=
  join_with 10 (dedup (sort_by chars_le (List.filter (λ p, negb (str_eq p [])) paths))).
Definition changed_paths_key (paths : list chars) : chars :=
  hex_of (take 16 (sha256 (to_utf8 (changed_paths_text paths)))).
Definition record_failure (r : Redactor) (s : MemoryStore) (key msg : chars) : MemoryStore :=
  put s (mkEntry Failure (truncated_chars key MAX_MEMORY_FIELD)
           (truncated_chars (chars_of (redact r (to_utf8 msg))) MAX_FAILURE_MSG) PriorRun).
Definition record_successful_verifier (s : MemoryStore) (key command : chars) (wall_ms : Z) : MemoryStore :=
  put s (mkEntry CommandMemory (truncated_chars key MAX_MEMORY_FIELD)
           (truncated_chars (command ++ [9] ++ dec_u wall_ms) MAX_MEMORY_FIELD) PriorRun).
Definition get_prior_failure (s : MemoryStore) (key : chars) : option MemoryEntry :=
  List.find (λ e, kind_eqb (me_kind e) Failure && str_eq (me_key e) key) (rev s).
Definition passed_keys (s : MemoryStore) : gset chars := list_to_set (me_key <$> by_kind s CommandMemory).
Fixpoint flaky_loop (passed seen : gset chars) (s : MemoryStore) : list MemoryEntry :=
  match s with
  | [] => []
  | e :: s' =>
      if kind_eqb (me_kind e) Failure && bool_decide (me_key e ∈ passed) then
        if bool_decide (me_key e ∈ seen) then flaky_loop passed seen s'
        else e :: flaky_loop passed ({[me_key e]} ∪ seen) s'
      else flaky_loop passed seen s'
  end.
Definition flaky_test_hints (s : MemoryStore) : list MemoryEntry := flaky_loop (passed_keys s) ∅ s.

(** ** The snapshot *)

Inductive MemoryStoreError := MIo (e : chars) | MBadFormat | MBadVersion (v : Z) | MBadContents.
Definition memory_error_fmt (e : MemoryStoreError) : chars :=
  match e with
  | MIo e => lit "memory store io: " ++ e
  | MBadFormat => lit "not a memory-store snapshot"
  | MBadVersion v => lit "unsupported memory snapshot version " ++ dec_u v
  | MBadContents => lit "malformed memory snapshot"
  end.
Definition kind_to_u8 (k : MemoryKind) : Z :=
  match k with RepoSummary => 0 | CommandMemory => 1 | Convention => 2 | Failure => 3 end.
Definition u8_to_kind (b : Z) : option MemoryKind :=
  if b =? 0 then Some RepoSummary else if b =? 1 then Some CommandMemory
  else if b =? 2 then Some Convention else if b =? 3 then Some Failure else None.
Definition source_to_u8 (s : MemorySource) : Z :=
  match s with RepoFile => 0 | ToolObservation => 1 | PriorRun => 2 | UserNote => 3 end.
Definition u8_to_source (b : Z) : option MemorySource :=
  if b =? 0 then Some RepoFile else if b =? 1 then Some ToolObservation
  else if b =? 2 then Some PriorRun else if b =? 3 then Some UserNote else None.
Definition bounded_field (s : chars) : bytes := truncated (to_utf8 s) MAX_MEMORY_FIELD.
(** A field is within its cap, so its length fits a [u32]. *)
Definition write_field (data : bytes) : bytes := to_le_bytes 4 (Z.of_nat (length data)) ++ data.
Definition write_entry (e : MemoryEntry) : bytes :=
  [kind_to_u8 (me_kind e); source_to_u8 (me_source e)] ++
  write_field (bounded_field (me_key e)) ++ write_field (bounded_field (me_value e)).
(** What [save] writes to the file. *)
Definition save (s : MemoryStore) : result MemoryStoreError bytes :=
  if u32_MAX <? Z.of_nat (length s) then Err MBadContents
  else Ok (MEMORY_MAGIC ++ [MEMORY_VERSION] ++ to_le_bytes 4 (Z.of_nat (length s)) ++ (s ≫= write_entry)).
Definition opt_fail {A} (o : option A) : Rd A := match o with Some a => mret a | None => rd_fail end.
Definition read_field : Rd chars :=
  len ← read_u32;
  if Z.of_nat MAX_MEMORY_FIELD <? len then rd_fail
  else raw ← cursor_take (Z.to_nat len); mret (chars_of (from_utf8_lossy raw)).
Definition read_entry : Rd MemoryEntry :=
  k ← read_u8; kind ← opt_fail (u8_to_kind k);
  b ← read_u8; source ← opt_fail (u8_to_source b);
  key ← read_field; value ← read_field;
  mret (mkEntry kind (truncated_chars key MAX_MEMORY_FIELD) (truncated_chars value MAX_MEMORY_FIELD) source).
Fixpoint read_entries (count : nat) : Rd (list MemoryEntry) :=
  match count with
  | O => mret []
  | S n => e ← read_entry; rest ← read_entries n; mret (e :: rest)
  end.
(** [load] of the bytes of the file. *)
Definition decode_snapshot (bs : bytes) : result MemoryStoreError MemoryStore :=
  match cursor_take 4 (mkCursor bs 0) with
  | None => Err MBadFormat
  | Some (m, c) =>
      if negb (bool_decide (m = MEMORY_MAGIC)) then Err MBadFormat else
      match read_u8 c with
      | None => Err MBadFormat
      | Some (version, c) =>
          if negb (version =? MEMORY_VERSION) then Err (MBadVersion version) else
          match read_u32 c with
          | None => Err MBadContents
          | Some (count, c) =>
              if MAX_MEMORY_ENTRIES <? count then Err MBadContents
              else fst <$> ok_or (read_entries (Z.to_nat count) c) MBadContents
          end
      end
  end.

(** ** The repository map *)

Record RepoMap := mkRepoMap {
  rm_file_count : nat; rm_by_extension : list (chars * nat); rm_top_dirs : list chars; rm_markers : list chars }.
(** [s.rsplit_once(sep)]. *)
Definition rsplit_once (sep : Z) (s : chars) : option (chars * chars) :=
  '(b, a) ← split_once sep (rev s); Some (rev a, rev b).
Definition is_project_marker : chars → bool :=
  one_of ["Cargo.toml"; "Cargo.lock"; "package.json"; "pyproject.toml"; "go.mod"; "Makefile"; "CMakeLists.txt";
          "build.gradle"; "pom.xml"; "Gemfile"; "requirements.txt"].
Record MapState := mkMapState { ms_count : nat; ms_ext : gmap chars nat; ms_dirs : gset chars; ms_markers : gset chars }.
Definition top_dir (p : chars) : chars :=
  match split_once 47 p with
  | Some (dir, _) => if str_eq dir [] then lit "." else dir
  | None => lit "."
  end.
Definition extension (base : chars) : option chars :=
  match rsplit_once 46 base with
  | Some (_, e) => if str_eq e [] then None else Some (to_ascii_lowercase e)
  | None => None
  end.
Definition map_path (st : MapState) (raw : chars) : MapState :=
  let p := trim raw in
  if str_eq p [] then st else
  let base := file_name p in
  mkMapState (S (ms_count st))
    (match extension base with
     | Some e => <[e := S (default 0%nat (ms_ext st !! e))]> (ms_ext st)
     | None => ms_ext st
     end)
    ({[top_dir p]} ∪ ms_dirs st)
    (if negb (existsb (Z.eqb 47) p) && is_project_marker base then {[base]} ∪ ms_markers st else ms_markers st).
Definition ext_le (a b : chars * nat) : bool := (b.2 <? a.2)%nat || ((a.2 =? b.2)%nat && chars_le a.1 b.1).
Definition from_paths (paths : list chars) : RepoMap :=
  let st := fold_left map_path paths (mkMapState 0 ∅ ∅ ∅) in
  mkRepoMap (ms_count st)
    (take MAX_REPO_MAP_ENTRIES (sort_by ext_le (map_to_list (ms_ext st))))
    (take MAX_REPO_MAP_ENTRIES (sort_by chars_le (elements (ms_dirs st))))
    (sort_by chars_le (elements (ms_markers st))).

Record RepoCapsule := mkCapsule { rc_repo : chars; rc_summary : chars }.
(** [v.join(", ")]. *)
Fixpoint join_comma (l : list chars) : chars :=
  match l with
  | [] => []
  | [x] => x
  | x :: l' => x ++ lit ", " ++ join_comma l'
  end.
Definition capsule_from_map (repo : chars) (m : RepoMap) : RepoCapsule :=
  let langs := (λ '(e, n), e ++ [215] ++ dec_u (Z.of_nat n)) <$> take 4 (rm_by_extension m) in
  let markers := match rm_markers m with [] => lit "none" | l => join_comma l end in
  let exts := match langs with [] => lit "n/a" | l => join_comma l end in
  mkCapsule repo (truncated_chars
    (dec_u (Z.of_nat (rm_file_count m)) ++ lit " files across " ++ dec_u (Z.of_nat (length (rm_top_dirs m))) ++
     lit " top-level dirs; top exts: " ++ exts ++ lit "; build markers: " ++ markers ++ lit ".") 2048).

(** ** Code intelligence *)

Record SymbolRef := mkSymbol { sy_path : chars; sy_line : Z; sy_snippet : chars }.
Record SourceLine := mkSourceLine { sl_path : chars; sl_line : Z; sl_text : chars }.
Class CodeIntel := lookup_symbol : chars → list SymbolRef.
Definition symbol_of (l : SourceLine) : SymbolRef :=
  mkSymbol (sl_path l) (sl_line l) (truncated_chars (sl_text l) MAX_FRAGMENT_BYTES).
Definition grep_lookup (ls : list SourceLine) (name : chars) : list SymbolRef :=
  if str_eq name [] then [] else
  symbol_of <$> take MAX_CONTEXT_FRAGMENTS (List.filter (λ l, contains (sl_text l) name) ls).
#[export] Instance GrepCodeIntel (ls : list SourceLine) : CodeIntel := grep_lookup ls.

(** ** Context *)

Record ContextCandidate := mkCandidate { cc_source : MemorySource; cc_kind : MemoryKind; cc_text : chars }.
Record ContextFragment := mkFragment { cf_source : MemorySource; cf_kind : MemoryKind; cf_text : chars }.
Record ContextBundle := mkBundle { cb_fragments : list ContextFragment; cb_dropped : nat }.
Definition bundle_bytes (b : ContextBundle) : nat := sum_list_with (λ f, byte_length (cf_text f)) (cb_fragments b).
Definition to_model_visible (r : Redactor) (text : chars) : chars := chars_of (redact r (to_utf8 text)).
(** A candidate's text as the model may see it. *)
Definition fragment_text (r : Redactor) (text : chars) : chars :=
  truncated_chars (to_model_visible r text) MAX_FRAGMENT_BYTES.
(** The loop over the candidates: the fragments kept, with the bytes used so far. *)
Fixpoint pack (r : Redactor) (kept used : nat) (cs : list ContextCandidate) : list ContextFragment :=
  match cs with
  | [] => []
  | c :: cs' =>
      if (MAX_CONTEXT_FRAGMENTS <=? kept)%nat then [] else
      let bounded := fragment_text r (cc_text c) in
      let len := byte_length bounded in
      if (MAX_CONTEXT_BUNDLE <? used + len)%nat then pack r kept used cs'
      else mkFragment (cc_source c) (cc_kind c) (to_model_visible Redactor_new bounded)
           :: pack r (S kept) (used + len) cs'
  end.
Definition build_bundle (ordered : list ContextCandidate) (total : nat) (r : Redactor) : ContextBundle :=
  let fragments := pack r 0 0 ordered in mkBundle fragments (total - length fragments).
Definition select_context (is_alphanumeric : Z → bool) (query : chars) (cs : list ContextCandidate) (r : Redactor)
  : ContextBundle :=
  build_bundle (scored (tokenize is_alphanumeric query) cc_text cs) (length cs) r.

(** ** Listings of a repository ([exec.rs]) *)

Definition MAX_GIT_OUTPUT_BYTES : nat := N.to_nat (8 * 1024 * 1024).
Definition MAX_GIT_OUTPUT_LINES : nat := N.to_nat 200000.
Definition MAX_GIT_LINE_BYTES : nat := N.to_nat (8 * 1024).
Definition MAX_GIT_STDERR : nat := N.to_nat (64 * 1024).
Inductive ExecError := ExSpawn (e : chars) | ExGit (e : chars) | BadPattern.
Definition exec_error_fmt (e : ExecError) : chars :=
  match e with
  | ExSpawn e => lit "git spawn: " ++ e
  | ExGit e => lit "git error: " ++ e
  | BadPattern => lit "rejected git grep pattern"
  end.
Definition hardened_git (repo : list Path.Component) (args : list chars) : GitCommand :=
  mkGit repo
    [("PATH", "/usr/bin:/bin:/usr/local/bin:/opt/homebrew/bin"); ("HOME", "/dev/null"); ("GIT_CONFIG_NOSYSTEM", "1");
     ("GIT_CONFIG_GLOBAL", "/dev/null"); ("GIT_CONFIG_SYSTEM", "/dev/null"); ("GIT_TERMINAL_PROMPT", "0");
     ("GIT_OPTIONAL_LOCKS", "0")]%string
    ((lit <$> ["-c"; "core.hooksPath=/dev/null"; "-c"; "core.pager=cat"; "-c"; "core.fsmonitor=false"; "-c";
               "core.attributesFile=/dev/null"]) ++ args).
(** An exit code (none for a signal) with the chunks of the two streams. *)
Record ExecExit := mkExecExit { ex_code : option Z; ex_stdout : list bytes; ex_stderr : list bytes }.
Definition run_capped (git : GitCommand → result chars ExecExit) (cmd : GitCommand) (ok_codes : list Z)
  : result ExecError (chars * bool * chars) :=
  x ← map_err ExSpawn (git cmd);
  Ok (chars_of (from_utf8_lossy (capped_read MAX_GIT_OUTPUT_BYTES [] (ex_stdout x))),
      match ex_code x with Some c => (c =? 0) || existsb (Z.eqb c) ok_codes | None => false end,
      trim (chars_of (from_utf8_lossy (capped_read MAX_GIT_STDERR [] (ex_stderr x))))).
(** [s.trim_end_matches(['\r'])]. *)
Definition trim_end_cr (s : chars) : chars := rev (skip_while (Z.eqb 13) (rev s)).
Definition bounded_tail (s : chars) : chars := truncated_chars (trim s) 1024.
(** The loop over the lines, with the bound on what is kept. *)
Fixpoint parse_lines {A} (f : chars → option A) (room : nat) (ls : list chars) : list A :=
  match ls with
  | [] => []
  | raw :: rest =>
      match room with
      | O => []
      | S room' =>
          match f raw with
          | Some a => a :: parse_lines f room' rest
          | None => parse_lines f room rest
          end
      end
  end.
Definition ls_line (raw : chars) : option chars :=
  let line := trim (trim_end_cr raw) in
  if str_eq line [] then None else Some (truncated_chars line MAX_GIT_LINE_BYTES).
Definition parse_ls_files (stdout : chars) : list chars := parse_lines ls_line MAX_GIT_OUTPUT_LINES (lines stdout).
Definition grep_line (raw : chars) : option SourceLine :=
  '(path, rest) ← split_once 58 (trim_end_cr raw);
  '(num, text) ← split_once 58 rest;
  if str_eq path [] then None else
  line_no ← parse_uint u32_MAX num;
  if line_no =? 0 then None
  else Some (mkSourceLine (truncated_chars path MAX_GIT_LINE_BYTES) line_no (truncated_chars text MAX_GIT_LINE_BYTES)).
Definition parse_grep_lines (stdout : chars) : list SourceLine := parse_lines grep_line MAX_GIT_OUTPUT_LINES (lines stdout).
Definition list_files (git : GitCommand → result chars ExecExit) (repo : list Path.Component) : result ExecError (list chars) :=
  '(stdout, success, stderr) ← run_capped git (hardened_git repo (lit <$> ["ls-files"; "--"])) [];
  if success : bool then Ok (parse_ls_files stdout) else Err (ExGit (bounded_tail stderr)).
Definition grep_lines (git : GitCommand → result chars ExecExit) (repo : list Path.Component) (pattern : chars)
  : result ExecError (list SourceLine) :=
  if str_eq pattern [] then Err BadPattern else
  '(stdout, success, stderr) ← run_capped git (hardened_git repo
     ((lit <$> ["grep"; "-I"; "-n"; "-F"; "--no-color"; "-e"]) ++ [pattern; lit "--"])) [1];
  if success : bool then Ok (parse_grep_lines stdout) else Err (ExGit (bounded_tail stderr)).
