(* ===== verification/IndexTheorems.v ===== *)
(** * Repository memory and code index: theorems

    The snapshot of the memory restores what it held within its caps and fails closed on anything
    else; searches return exactly the relevant entries in order; a bundle of context stays within
    its bounds and holds nothing but redacted text; the map counts the files it was given; the
    grep listing is read back as it was written. *)

From stdpp Require Import sorting.
From S2P Require Import Prelude Text Std Cursor Chars Redactor Strings Order Sha256 Types Path Worktree Index.

#[local] Opaque MAX_MEMORY_FIELD MAX_CONTEXT_BUNDLE MAX_FRAGMENT_BYTES MAX_GIT_LINE_BYTES MAX_GIT_OUTPUT_LINES.

(** ** The snapshot *)

Definition entry_text_ok (e : MemoryEntry) : Prop := Forall is_scalar (me_key e) ∧ Forall is_scalar (me_value e).
(** An entry within the bounds of the snapshot. *)
Definition bounded_entry (e : MemoryEntry) : MemoryEntry :=
  mkEntry (me_kind e) (truncated_chars (me_key e) MAX_MEMORY_FIELD) (truncated_chars (me_value e) MAX_MEMORY_FIELD) (me_source e).

Lemma truncated_scalar s max : Forall is_scalar (truncated_chars s max).
Proof. apply chars_of_spec. Qed.
Lemma truncated_idem s max : Forall is_scalar s → truncated_chars (truncated_chars s max) max = truncated_chars s max.
Proof. intros Hs. apply truncated_chars_short; [apply truncated_scalar|]. by apply truncated_chars_split. Qed.

Lemma max_field : Z.of_nat MAX_MEMORY_FIELD = 65536.
Proof. Transparent MAX_MEMORY_FIELD. unfold MAX_MEMORY_FIELD. rewrite N_nat_Z. done. Qed.
#[local] Opaque MAX_MEMORY_FIELD.

Lemma reads_field s :
  Forall is_scalar s → reads read_field (write_field (bounded_field s)) (truncated_chars s MAX_MEMORY_FIELD).
Proof.
  intros Hs. destruct (truncated_valid_maximal (to_utf8 s) MAX_MEMORY_FIELD (to_utf8_valid s Hs)) as (Hlen & Hu & _).
  unfold write_field, read_field, bounded_field. pose proof max_field as Hm.
  eapply reads_bind; [apply reads_u32; unfold is_uint; lia|].
  rewrite (proj2 (Z.ltb_ge _ _)) by lia. rewrite Nat2Z.id. unfold truncated_chars.
  rewrite <-(lossy_valid (truncated (to_utf8 s) MAX_MEMORY_FIELD)) at 3 by done.
  by apply (reads_map _ (λ raw, chars_of (from_utf8_lossy raw))), reads_take.
Qed.
Lemma reads_entry e : entry_text_ok e → reads read_entry (write_entry e) (bounded_entry e).
Proof.
  intros [Hk Hv]. unfold write_entry, read_entry. cbn [app].
  apply reads_cons; [by destruct (me_kind e)|].
  change (?b :: ?r) with ([] ++ b :: r). eapply reads_bind; [|].
  { assert (u8_to_kind (kind_to_u8 (me_kind e)) = Some (me_kind e)) as -> by (by destruct (me_kind e)). apply reads_ret. }
  apply reads_cons; [by destruct (me_source e)|].
  change (?b ++ ?r) with ([] ++ b ++ r). eapply reads_bind.
  { assert (u8_to_source (source_to_u8 (me_source e)) = Some (me_source e)) as -> by (by destruct (me_source e)). apply reads_ret. }
  eapply reads_bind; [by apply reads_field|].
  rewrite <-(app_nil_r (write_field _)). eapply reads_bind; [by apply reads_field|].
  unfold bounded_entry. rewrite <-(truncated_idem (me_key e)), <-(truncated_idem (me_value e)) at 2 by done. apply reads_ret.
Qed.
Lemma reads_entries s : Forall entry_text_ok s → reads (read_entries (length s)) (s ≫= write_entry) (bounded_entry <$> s).
Proof.
  induction 1 as [|e s He _ IH]; [apply reads_ret|]. cbn [length read_entries fmap list_fmap mbind list_bind].
  eapply reads_bind; [by apply reads_entry|]. rewrite <-(app_nil_r (mbind _ _)).
  eapply reads_bind; [exact IH|apply reads_ret].
Qed.

Lemma decode_header count c R :
  0 ≤ count ≤ u32_MAX →
  decode_snapshot (MEMORY_MAGIC ++ [MEMORY_VERSION] ++ to_le_bytes 4 count ++ R) = c →
  (MAX_MEMORY_ENTRIES < count ∧ c = Err MBadContents) ∨
  (count ≤ MAX_MEMORY_ENTRIES ∧ ∃ cur, (c_pos cur ≤ length (c_bytes cur))%nat ∧ rest cur = R ∧
    c = fst <$> ok_or (read_entries (Z.to_nat count) cur) MBadContents).
Proof.
  unfold u32_MAX. intros Hcount <-. unfold decode_snapshot. set (bs := MEMORY_MAGIC ++ _).
  destruct (reads_take 4 MEMORY_MAGIC eq_refl (mkCursor bs 0) _ ltac:(simpl; lia) eq_refl)
    as (c1 & -> & Hc1 & Hr1). rewrite bool_decide_eq_true_2 by done. cbn [negb].
  destruct (reads_u8 MEMORY_VERSION ltac:(unfold MEMORY_VERSION; lia) c1 _ Hc1 Hr1)
    as (c2 & -> & Hc2 & Hr2). rewrite Z.eqb_refl. cbn [negb].
  destruct (reads_u32 count ltac:(unfold is_uint; lia) c2 _ Hc2 Hr2) as (c3 & -> & Hc3 & Hr3).
  destruct (Z.ltb_spec MAX_MEMORY_ENTRIES count); [by left|]. right. split; [done|]. by exists c3.
Qed.

(** What is saved is loaded again, whatever follows in the file: every entry, its key and its value
    cut to the cap of a field on a character boundary. *)
Theorem memory_roundtrip s R :
  Forall entry_text_ok s → Z.of_nat (length s) ≤ MAX_MEMORY_ENTRIES →
  ∃ bs, save s = Ok bs ∧ decode_snapshot (bs ++ R) = Ok (bounded_entry <$> s) ∧
    (Forall (λ e, byte_length (me_key e) ≤ MAX_MEMORY_FIELD ∧ byte_length (me_value e) ≤ MAX_MEMORY_FIELD)%nat s →
     bounded_entry <$> s = s).
Proof.
  intros Hs Hlen. unfold save. unfold MAX_MEMORY_ENTRIES in Hlen.
  rewrite (proj2 (Z.ltb_ge u32_MAX _)) by (unfold u32_MAX; lia). eexists. split; [done|]. split.
  - rewrite <-!app_assoc. destruct (decode_header (Z.of_nat (length s)) _ ((s ≫= write_entry) ++ R)
      ltac:(unfold u32_MAX; lia) eq_refl) as [[Hbig _]|(_ & cur & Hc & Hr & Heq)]; [unfold MAX_MEMORY_ENTRIES in Hbig; lia|].
    rewrite Nat2Z.id in Heq. destruct (reads_entries s Hs cur R Hc Hr) as (c' & Hread & _). rewrite Hread in Heq.
    exact Heq.
  - intros Hb. rewrite <-(list_fmap_id s) at 2. apply list_fmap_ext. intros i e He.
    apply list_elem_of_lookup_2 in He. rewrite Forall_forall in Hs, Hb.
    destruct (Hs e He) as [Hk Hv]. destruct (Hb e He) as [Hbk Hbv].
    unfold bounded_entry. rewrite !truncated_chars_short by done. by destruct e.
Qed.

(** A store with more entries than a load accepts is saved all the same: what was saved cannot be
    loaded. *)
Theorem memory_save_over_cap s :
  MAX_MEMORY_ENTRIES < Z.of_nat (length s) ≤ u32_MAX →
  ∃ bs, save s = Ok bs ∧ decode_snapshot bs = Err MBadContents.
Proof.
  intros [Hbig Hlen]. unfold save. rewrite (proj2 (Z.ltb_ge _ _)) by done. eexists. split; [done|].
  destruct (decode_header (Z.of_nat (length s)) _ (s ≫= write_entry) ltac:(lia) eq_refl) as [[_ H]|[H _]]; [done|lia].
Qed.

Lemma read_entry_bounded c e c' :
  read_entry c = Some (e, c') →
  (byte_length (me_key e) ≤ MAX_MEMORY_FIELD)%nat ∧ (byte_length (me_value e) ≤ MAX_MEMORY_FIELD)%nat.
Proof.
  unfold read_entry. intros H. do 4 (apply rd_bind_inv in H as (? & ? & _ & H)).
  apply rd_bind_inv in H as (k & ? & Hk & H). apply rd_bind_inv in H as (v & ? & Hv & H). injection H as <- _. cbn.
  assert (∀ c0 t c1, read_field c0 = Some (t, c1) → Forall is_scalar t) as Hf.
  { intros c0 t c1 Ht. apply rd_bind_inv in Ht as (? & ? & _ & Ht). case_match; [done|].
    apply rd_bind_inv in Ht as (? & ? & _ & Ht). injection Ht as <- _. apply chars_of_spec. }
  split; apply truncated_chars_split; by eapply Hf.
Qed.

(** Whatever the file holds, a load returns a store within the caps or an error. *)
Theorem memory_load_bounded bs :
  match decode_snapshot bs with
  | Ok s => Z.of_nat (length s) ≤ MAX_MEMORY_ENTRIES ∧
            Forall (λ e, byte_length (me_key e) ≤ MAX_MEMORY_FIELD ∧ byte_length (me_value e) ≤ MAX_MEMORY_FIELD)%nat s
  | Err e => e = MBadFormat ∨ (∃ v, v ≠ MEMORY_VERSION ∧ e = MBadVersion v) ∨ e = MBadContents
  end.
Proof.
  unfold decode_snapshot. destruct (cursor_take 4 _) as [[m c]|]; [|by left]. case_bool_decide; simpl; [|by left].
  destruct (read_u8 c) as [[v c1]|]; [|by left]. destruct (Z.eqb_spec v MEMORY_VERSION); simpl; [|naive_solver].
  destruct (read_u32 c1) as [[n c2]|] eqn:En; [|auto]. destruct (Z.ltb_spec MAX_MEMORY_ENTRIES n); [auto|].
  destruct (read_entries (Z.to_nat n) c2) as [[s c3]|] eqn:Er; simpl; [|auto].
  assert (length s = Z.to_nat n ∧ Forall (λ e, byte_length (me_key e) ≤ MAX_MEMORY_FIELD ∧
    byte_length (me_value e) ≤ MAX_MEMORY_FIELD)%nat s) as [-> Hs].
  { clear -Er. revert c2 s c3 Er. induction (Z.to_nat n) as [|k IH]; intros c2 s c3 Er; [by injection Er as <- _|].
    cbn [read_entries] in Er. apply rd_bind_inv in Er as (e & c4 & He & Er). apply rd_bind_inv in Er as (l & c5 & Hl & Er).
    injection Er as <- _. destruct (IH _ _ _ Hl) as [Hlen Hf]. split; [by rewrite length_cons, Hlen|].
    constructor; [by eapply read_entry_bounded|done]. }
  split; [|done]. unfold MAX_MEMORY_ENTRIES in *. lia.
Qed.

(** ** Keys of changed paths *)

(** The key of a set of changed paths depends only on the set: not on the order of the paths, nor
    on repetitions, nor on empty ones. *)
Theorem changed_paths_key_set l1 l2 :
  (∀ p, p ≠ [] → p ∈ l1 ↔ p ∈ l2) → changed_paths_key l1 = changed_paths_key l2.
Proof.
  intros H. unfold changed_paths_key, changed_paths_text. do 5 f_equal.
  destruct (dedup_sorted _ (sort_chars_sorted (List.filter (λ p, negb (str_eq p [])) l1))) as [S1 N1].
  destruct (dedup_sorted _ (sort_chars_sorted (List.filter (λ p, negb (str_eq p [])) l2))) as [S2 N2].
  apply (StronglySorted_unique before); [done..|]. apply NoDup_Permutation; [done..|].
  intros p. rewrite !dedup_elem, !sort_by_elem, !list_elem_of_In, !filter_In, <-!list_elem_of_In.
  unfold str_eq. case_bool_decide as He; cbn [negb]; [naive_solver|]. by rewrite (H p He).
Qed.
Lemma changed_paths_key_set_witness :
  changed_paths_key [lit "b"; lit "a"; []; lit "b"] = changed_paths_key [lit "a"; lit "b"].
Proof. refine (changed_paths_key_set _ _ _). intros p Hp. set_solver. Defined.

(** A line feed in a path makes one path look like two. *)
Example changed_paths_collide :
  changed_paths_key [lit "a" ++ [10] ++ lit "b"] = changed_paths_key [lit "a"; lit "b"].
Proof. unfold changed_paths_key. do 4 f_equal. Qed.

(** ** Search *)

Section Scored.
Context {A : Type} (tokens : list chars) (text : A → chars).
Abbreviation score a := (relevance tokens (text a)).
Definition triple_le (a b : nat * nat * A) : bool := (b.1.1 <? a.1.1)%nat || ((a.1.1 =? b.1.1)%nat && (a.1.2 <=? b.1.2)%nat).
Lemma triple_le_spec a b : triple_le a b = true ↔ (b.1.1 < a.1.1 ∨ a.1.1 = b.1.1 ∧ a.1.2 ≤ b.1.2)%nat.
Proof. unfold triple_le. by rewrite orb_true_iff, andb_true_iff, Nat.ltb_lt, Nat.eqb_eq, Nat.leb_le. Qed.
Lemma triple_total a b : triple_le a b = false → triple_le b a = true.
Proof. rewrite <-not_true_iff_false, !triple_le_spec. lia. Qed.
Lemma triple_trans a b c : triple_le a b = true → triple_le b c = true → triple_le a c = true.
Proof. rewrite !triple_le_spec. lia. Qed.
(** The positive items with their scores and indices from [n] on. *)
Fixpoint triples (n : nat) (items : list A) : list (nat * nat * A) :=
  match items with
  | [] => []
  | a :: rest => if (0 <? score a)%nat then (score a, n, a) :: triples (S n) rest else triples (S n) rest
  end.
Lemma triples_eq n items :
  omap (λ '(i, a), if (0 <? score a)%nat then Some (score a, i, a) else None) (imap (λ i a, ((n + i)%nat, a)) items)
  = triples n items.
Proof.
  revert n. induction items as [|a items IH]; intros n; [done|].
  assert (imap (λ i b, ((n + i)%nat, b)) (a :: items) = (n, a) :: imap (λ i b, ((S n + i)%nat, b)) items) as ->.
  { cbn. f_equal; [by rewrite Nat.add_0_r|]. apply imap_ext. intros i x _. cbn. f_equal. lia. }
  cbn [omap list_omap triples]. rewrite <-IH. by destruct (0 <? score a)%nat.
Qed.
Lemma triples_wf n items : Forall (λ t, t.1.1 = score t.2 ∧ (n ≤ t.1.2)%nat) (triples n items).
Proof.
  revert n. induction items as [|a items IH]; intros n; [constructor|]. cbn [triples].
  assert (Forall (λ t, t.1.1 = score t.2 ∧ (n ≤ t.1.2)%nat) (triples (S n) items)) as Hs.
  { eapply Forall_impl; [apply IH|]. intros t [-> ?]. split; [done|lia]. }
  destruct (0 <? score a)%nat; [|done]. by constructor.
Qed.
Lemma triples_class n k items :
  StronglySorted (λ a b, triple_le a b = true) (List.filter (λ t, (t.1.1 =? k)%nat) (triples n items)) ∧
  snd <$> List.filter (λ t, (t.1.1 =? k)%nat) (triples n items) =
  List.filter (λ a, (0 <? score a)%nat && (score a =? k)%nat) items.
Proof.
  revert n. induction items as [|a items IH]; intros n; [split; constructor|]. cbn [triples List.filter].
  destruct (IH (S n)) as [Hs He]. destruct (0 <? score a)%nat; cbn [andb List.filter]; [|done]. cbn [fst].
  destruct (Nat.eqb_spec (score a) k) as [Hk|]; [|done]. cbn [fmap list_fmap snd]. split; [|by f_equal].
  constructor; [done|]. apply Forall_forall. intros t [Ht Hk']%list_elem_of_In%filter_In.
  pose proof (triples_wf (S n) items) as Hw. rewrite Forall_forall in Hw.
  apply list_elem_of_In, Hw in Ht as [_ Hn]. apply Nat.eqb_eq in Hk'. rewrite triple_le_spec. cbn. lia.
Qed.
Lemma scored_eq items : scored tokens text items = snd <$> sort_by triple_le (triples 0 items).
Proof. unfold scored. do 2 f_equal. apply (triples_eq 0). Qed.
Lemma fmap_sorted {B} (R : A → A → Prop) (f : B → A) l : StronglySorted (λ a b, R (f a) (f b)) l → StronglySorted R (f <$> l).
Proof.
  induction 1 as [|x l Hl IH Hx]; cbn; [constructor|]. constructor; [done|]. by apply Forall_fmap.
Qed.
Lemma scored_exact items :
  StronglySorted (λ a b, (score b ≤ score a)%nat) (scored tokens text items) ∧
  ∀ k, List.filter (λ a, (score a =? k)%nat) (scored tokens text items) =
       List.filter (λ a, (0 <? score a)%nat && (score a =? k)%nat) items.
Proof.
  rewrite scored_eq. pose proof (triples_wf 0 items) as Hw. rewrite Forall_forall in Hw.
  assert (∀ t, t ∈ sort_by triple_le (triples 0 items) → t.1.1 = score t.2) as Hk.
  { intros t Ht%sort_by_elem. by apply Hw. }
  split.
  - apply fmap_sorted. eapply sorted_impl; [|apply (sort_by_le_sorted triple_le triple_total triple_trans)].
    intros a b Ha Hb. rewrite <-(Hk a Ha), <-(Hk b Hb), triple_le_spec. lia.
  - intros k. destruct (triples_class 0 k items) as [Hs He]. rewrite <-He.
    rewrite <-(sort_by_id triple_le _ Hs), <-(filter_sort triple_le triple_total triple_trans). clear He Hs.
    revert Hk. generalize (sort_by triple_le (triples 0 items)). intros l.
    induction l as [|t l IH]; intros Hk; [done|]. cbn [fmap list_fmap List.filter].
    rewrite <-(Hk t) by (by left). specialize (IH (λ u Hu, Hk u (list_elem_of_further _ _ _ Hu))).
    destruct (t.1.1 =? k)%nat; cbn [fmap list_fmap]; [by f_equal|done].
Qed.
End Scored.

(** A search of the store returns the entries that share a token with the query, most shared tokens
    first, and among equals in the order they were recorded. *)
Theorem store_search_exact is_alphanumeric s query :
  let tokens := tokenize is_alphanumeric query in
  StronglySorted (λ a b, relevance tokens (entry_text b) ≤ relevance tokens (entry_text a))%nat
    (store_search is_alphanumeric s query) ∧
  ∀ k, List.filter (λ e, relevance tokens (entry_text e) =? k)%nat (store_search is_alphanumeric s query) =
       List.filter (λ e, (0 <? relevance tokens (entry_text e)) && (relevance tokens (entry_text e) =? k))%nat s.
Proof.
  cbv zeta. unfold store_search. destruct (tokenize is_alphanumeric query) as [|t tokens] eqn:E; [|apply scored_exact].
  split; [constructor|]. intros k. induction s as [|e s IH]; [done|]. cbn [List.filter]. by rewrite <-IH.
Qed.

(** ** Context *)

Lemma visible_fresh s : Forall is_scalar s → to_model_visible Redactor_new s = s.
Proof. intros Hs. unfold to_model_visible. rewrite redact_clean by done. by apply chars_of_to_utf8. Qed.
Lemma fragment_scalar r t : Forall is_scalar (fragment_text r t).
Proof. apply truncated_scalar. Qed.
Lemma fragment_prefix r t :
  fragment_text r t `prefix_of` to_model_visible r t ∧ (byte_length (fragment_text r t) ≤ MAX_FRAGMENT_BYTES)%nat.
Proof.
  destruct (truncated_chars_split (to_model_visible r t) MAX_FRAGMENT_BYTES) as (? & ? & _); [|done].
  apply chars_of_spec.
Qed.

Lemma pack_ok r kept used cs :
  (kept ≤ MAX_CONTEXT_FRAGMENTS)%nat → (used ≤ MAX_CONTEXT_BUNDLE)%nat →
  (kept + length (pack r kept used cs) ≤ MAX_CONTEXT_FRAGMENTS)%nat ∧
  (used + sum_list_with (λ f, byte_length (cf_text f)) (pack r kept used cs) ≤ MAX_CONTEXT_BUNDLE)%nat ∧
  ∃ ds, ds `sublist_of` cs ∧
    pack r kept used cs = (λ c, mkFragment (cc_source c) (cc_kind c) (fragment_text r (cc_text c))) <$> ds.
Proof.
  revert kept used. induction cs as [|c cs IH]; intros kept used Hk Hu; cbn [pack].
  { simpl. split; [lia|]. split; [lia|]. by exists []. }
  destruct (Nat.leb_spec MAX_CONTEXT_FRAGMENTS kept) as [|Hlt].
  { simpl. split; [lia|]. split; [lia|]. exists []. split; [apply sublist_nil_l|done]. }
  destruct (Nat.ltb_spec MAX_CONTEXT_BUNDLE (used + byte_length (fragment_text r (cc_text c)))) as [|Hle].
  { destruct (IH kept used Hk Hu) as (? & ? & ds & ? & ?). split; [done|]. split; [done|]. exists ds. split; [by apply sublist_cons|done]. }
  rewrite visible_fresh by apply fragment_scalar.
  destruct (IH (S kept) (used + byte_length (fragment_text r (cc_text c)))%nat) as (H1 & H2 & ds & Hds & He); [lia|lia|].
  cbn [length sum_list_with cf_text]. split; [lia|]. split; [lia|].
  exists (c :: ds). split; [by apply sublist_skip|]. cbn [fmap list_fmap]. by rewrite <-He.
Qed.

(** A bundle of context: within its bounds, with every candidate accounted for, made of the start of
    the redacted text of relevant candidates in the order of their relevance. *)
Theorem select_context_bounded is_alphanumeric query cs r :
  let b := select_context is_alphanumeric query cs r in
  let tokens := tokenize is_alphanumeric query in
  (length (cb_fragments b) ≤ MAX_CONTEXT_FRAGMENTS)%nat ∧ (bundle_bytes b ≤ MAX_CONTEXT_BUNDLE)%nat ∧
  (length (cb_fragments b) + cb_dropped b = length cs)%nat ∧
  ∃ ds, ds `sublist_of` scored tokens cc_text cs ∧
    Forall2 (λ c f, cf_source f = cc_source c ∧ cf_kind f = cc_kind c ∧ c ∈ cs ∧
                    (0 < relevance tokens (cc_text c))%nat ∧
                    cf_text f `prefix_of` to_model_visible r (cc_text c) ∧
                    (byte_length (cf_text f) ≤ MAX_FRAGMENT_BYTES)%nat) ds (cb_fragments b).
Proof.
  cbv zeta. unfold select_context, build_bundle, bundle_bytes. set (l := scored _ _ _). cbn [cb_fragments cb_dropped].
  destruct (pack_ok r 0 0 l) as (H1 & H2 & ds & Hsub & He); [lia..|].
  assert (∀ c, c ∈ l → c ∈ cs ∧ (0 < relevance (tokenize is_alphanumeric query) (cc_text c))%nat) as Hl.
  { intros c Hc. destruct (scored_exact (tokenize is_alphanumeric query) cc_text cs) as [_ Hf].
    assert (c ∈ List.filter (λ a, relevance (tokenize is_alphanumeric query) (cc_text a) =?
      relevance (tokenize is_alphanumeric query) (cc_text c))%nat l) as Hin.
    { apply list_elem_of_In, filter_In. split; [by apply list_elem_of_In|apply Nat.eqb_refl]. }
    unfold l in Hin. rewrite Hf in Hin. apply list_elem_of_In, filter_In in Hin as [Hin Hp].
    apply andb_true_iff in Hp as [Hp _]. split; [by apply list_elem_of_In|by apply Nat.ltb_lt]. }
  assert (length l ≤ length cs)%nat as Hlen.
  { unfold l. rewrite scored_eq, length_fmap, (sort_by_perm _ _). clear. generalize 0%nat.
    induction cs as [|c cs IH]; intros n; [done|]. cbn [triples]. destruct (0 <? _)%nat; cbn [length];
      specialize (IH (S n)); lia. }
  split; [done|]. split; [done|]. split.
  - pose proof (sublist_length _ _ Hsub). rewrite He, length_fmap. lia.
  - exists ds. split; [done|]. rewrite He. apply Forall2_fmap_r, Forall_Forall2_diag, Forall_forall. intros c Hc.
    destruct (Hl c) as [Hin Hrel]; [by eapply elem_of_sublist|]. destruct (fragment_prefix r (cc_text c)). done.
Qed.

(** ** The repository map *)

Definition nonblank (p : chars) : bool := negb (str_eq (trim p) []).
Definition has_ext (e : chars) (p : chars) : bool := nonblank p && bool_decide (extension (file_name (trim p)) = Some e).
Definition ext_count (e : chars) (paths : list chars) : nat := length (List.filter (has_ext e) paths).

Lemma file_name_plain s : (47 ∉ s) → file_name s = s.
Proof. intros H. unfold file_name. by rewrite split_on_clean. Qed.
Lemma marker_plain x : is_project_marker x = true → (47 ∉ x) ∧ x ≠ [].
Proof.
  intros (s & Hs & ->)%one_of_spec. assert (bool_decide (47 ∉ lit s) && bool_decide (lit s ≠ []) = true) as H.
  { repeat (apply elem_of_cons in Hs as [->|Hs]; [by vm_compute|]). by apply elem_of_nil in Hs. }
  apply andb_true_iff in H as [?%bool_decide_eq_true ?%bool_decide_eq_true]. done.
Qed.
Lemma marker_of_path p x :
  negb (existsb (Z.eqb 47) (trim p)) && is_project_marker (file_name (trim p)) = true ∧ file_name (trim p) = x ↔
  is_project_marker x = true ∧ trim p = x.
Proof.
  assert (existsb (Z.eqb 47) (trim p) = false ↔ (47 ∉ trim p)) as Hex.
  { rewrite <-not_true_iff_false, existsb_exists. split; intros H Hin; apply H.
    - exists 47. split; [by apply list_elem_of_In|done].
    - destruct Hin as (c & Hc%list_elem_of_In & <-%Z.eqb_eq). done. }
  rewrite andb_true_iff, negb_true_iff, Hex. split.
  - intros [[Hn Hm] <-]. rewrite (file_name_plain _ Hn) in *. done.
  - intros [Hm <-]. destruct (marker_plain _ Hm) as [Hn _]. by rewrite (file_name_plain _ Hn).
Qed.
Lemma map_path_blank st p : nonblank p = false → map_path st p = st.
Proof. unfold nonblank, map_path. by intros ->%negb_false_iff. Qed.
Lemma fold_count ps st : ms_count (fold_left map_path ps st) = (ms_count st + length (List.filter nonblank ps))%nat.
Proof.
  revert st. induction ps as [|p ps IH]; intros st; cbn [fold_left List.filter]; [simpl; lia|]. rewrite IH.
  destruct (nonblank p) eqn:E; [|by rewrite map_path_blank]. unfold nonblank in E. apply negb_true_iff in E.
  unfold map_path. rewrite E. cbn [ms_count length]. lia.
Qed.
Lemma map_path_ext st p e :
  default 0%nat (ms_ext (map_path st p) !! e) = (default 0%nat (ms_ext st !! e) + if has_ext e p then 1 else 0)%nat.
Proof.
  unfold map_path, has_ext, nonblank. destruct (str_eq (trim p) []); cbn [negb andb]; [lia|]. cbn [ms_ext].
  destruct (extension _) as [x|]; [|rewrite bool_decide_eq_false_2 by done; lia].
  destruct (decide (x = e)) as [->|Hne].
  - rewrite bool_decide_eq_true_2 by done. rewrite lookup_insert_eq. simpl. lia.
  - rewrite bool_decide_eq_false_2 by congruence. rewrite lookup_insert_ne by done. lia.
Qed.
Lemma fold_ext ps st e :
  default 0%nat (ms_ext (fold_left map_path ps st) !! e) = (default 0%nat (ms_ext st !! e) + ext_count e ps)%nat.
Proof.
  unfold ext_count. revert st. induction ps as [|p ps IH]; intros st; cbn [fold_left List.filter]; [simpl; lia|].
  rewrite IH, map_path_ext. destruct (has_ext e p); cbn [length]; lia.
Qed.
Lemma fold_ext_pos ps st e :
  (∀ x, ms_ext st !! x ≠ Some 0%nat) → ms_ext (fold_left map_path ps st) !! e ≠ Some 0%nat.
Proof.
  revert st. induction ps as [|p ps IH]; intros st H; cbn [fold_left]; [done|]. apply IH. intros x.
  unfold map_path. destruct (str_eq _ _); [done|]. cbn [ms_ext]. destruct (extension _) as [y|]; [|done].
  destruct (decide (y = x)) as [->|]; [by rewrite lookup_insert_eq|by rewrite lookup_insert_ne].
Qed.
Lemma fold_dirs ps st d :
  d ∈ ms_dirs (fold_left map_path ps st) ↔ d ∈ ms_dirs st ∨ ∃ p, p ∈ ps ∧ nonblank p = true ∧ top_dir (trim p) = d.
Proof.
  revert st. induction ps as [|p ps IH]; intros st; cbn [fold_left]; [set_solver|]. rewrite IH.
  setoid_rewrite elem_of_cons.
  destruct (nonblank p) eqn:E; [|rewrite map_path_blank by done; naive_solver congruence].
  assert (ms_dirs (map_path st p) = {[top_dir (trim p)]} ∪ ms_dirs st) as ->; [|rewrite elem_of_union, elem_of_singleton; naive_solver].
  unfold nonblank in E. apply negb_true_iff in E. unfold map_path. by rewrite E.
Qed.
Lemma map_path_markers st p x :
  x ∈ ms_markers (map_path st p) ↔ x ∈ ms_markers st ∨ is_project_marker x = true ∧ trim p = x.
Proof.
  rewrite <-marker_of_path. destruct (nonblank p) eqn:E.
  - unfold nonblank in E. apply negb_true_iff in E. unfold map_path. rewrite E. cbn [ms_markers].
    destruct (negb _ && _); [set_solver|naive_solver].
  - rewrite map_path_blank by done. unfold nonblank, str_eq in E. apply negb_false_iff, bool_decide_eq_true in E.
    rewrite E. naive_solver.
Qed.
Lemma fold_markers ps st x :
  x ∈ ms_markers (fold_left map_path ps st) ↔ x ∈ ms_markers st ∨ is_project_marker x = true ∧ ∃ p, p ∈ ps ∧ trim p = x.
Proof.
  revert st. induction ps as [|p ps IH]; intros st; cbn [fold_left]; [set_solver|].
  rewrite IH, map_path_markers. set_solver.
Qed.
Lemma ext_le_spec a b : ext_le a b = true ↔ (b.2 < a.2)%nat ∨ a.2 = b.2 ∧ before a.1 b.1.
Proof. unfold ext_le, before. by rewrite orb_true_iff, andb_true_iff, Nat.ltb_lt, Nat.eqb_eq. Qed.
Lemma ext_sorted l : StronglySorted (λ a b, ext_le a b = true) (sort_by ext_le l).
Proof.
  apply sort_by_le_sorted.
  - intros a b. rewrite <-not_true_iff_false, !ext_le_spec. intros H.
    destruct (decide (b.2 = a.2)); [|lia]. destruct (chars_le b.1 a.1) eqn:E; [by right|].
    exfalso. apply H. right. split; [done|]. by apply chars_le_total.
  - intros a b c. rewrite !ext_le_spec. intros [?|[? ?]] [?|[? ?]]; [lia..|]. right. split; [lia|]. by etrans.
Qed.

(** The map of a repository: all its files counted; the 256 most frequent extensions with exact
    counts, most frequent first; the first 256 of its top directories; its project markers. *)
Theorem repo_map_exact paths :
  let m := from_paths paths in
  rm_file_count m = length (List.filter nonblank paths) ∧
  (∃ all, rm_by_extension m = take MAX_REPO_MAP_ENTRIES all ∧ NoDup all.*1 ∧
     StronglySorted (λ a b, (b.2 < a.2)%nat ∨ a.2 = b.2 ∧ before a.1 b.1) all ∧
     ∀ e n, (e, n) ∈ all ↔ n = ext_count e paths ∧ (0 < n)%nat) ∧
  (∃ all, rm_top_dirs m = take MAX_REPO_MAP_ENTRIES all ∧ StronglySorted before all ∧ NoDup all ∧
     ∀ d, d ∈ all ↔ ∃ p, p ∈ paths ∧ nonblank p = true ∧ top_dir (trim p) = d) ∧
  (∀ x, x ∈ rm_markers m ↔ is_project_marker x = true ∧ ∃ p, p ∈ paths ∧ trim p = x).
Proof.
  cbv zeta. unfold from_paths. set (st := fold_left _ _ _).
  cbn [rm_file_count rm_by_extension rm_top_dirs rm_markers]. split; [apply fold_count|]. split; [|split].
  - exists (sort_by ext_le (map_to_list (ms_ext st))). split; [done|].
    split; [rewrite (sort_by_perm ext_le); apply NoDup_fst_map_to_list|]. split.
    + eapply sorted_impl; [|apply ext_sorted]. intros a b _ _ H. by apply ext_le_spec.
    + intros e n. rewrite sort_by_elem, elem_of_map_to_list.
      pose proof (fold_ext paths (mkMapState 0 ∅ ∅ ∅) e) as He. fold st in He. cbn [ms_ext] in He. rewrite lookup_empty in He.
      assert (ms_ext st !! e ≠ Some 0%nat) as Hp by (apply fold_ext_pos; intros x; cbn [ms_ext]; by rewrite lookup_empty).
      destruct (ms_ext st !! e) as [k|]; simpl in He; split.
      * intros [= <-]. split; [lia|]. destruct k; [done|lia].
      * intros [-> _]. f_equal. lia.
      * done.
      * lia.
  - exists (sort_by chars_le (elements (ms_dirs st))). split; [done|]. split; [apply sort_chars_sorted|].
    split; [rewrite (sort_by_perm chars_le); apply NoDup_elements|]. intros d.
    rewrite sort_by_elem, elem_of_elements. unfold st. rewrite fold_dirs. set_solver.
  - intros x. rewrite sort_by_elem, elem_of_elements. unfold st. rewrite fold_markers. set_solver.
Qed.

(** ** Listings *)

Definition grep_print (l : SourceLine) : chars := sl_path l ++ [58] ++ dec_u (sl_line l) ++ [58] ++ sl_text l.
Definition source_ok (l : SourceLine) : Prop :=
  (58 ∉ sl_path l) ∧ (10 ∉ sl_path l) ∧ sl_path l ≠ [] ∧ Forall is_scalar (sl_path l) ∧
  (byte_length (sl_path l) ≤ MAX_GIT_LINE_BYTES)%nat ∧
  0 < sl_line l ≤ u32_MAX ∧
  (10 ∉ sl_text l) ∧ last (sl_text l) ≠ Some 13 ∧ Forall is_scalar (sl_text l) ∧
  (byte_length (sl_text l) ≤ MAX_GIT_LINE_BYTES)%nat.
Lemma split_on_lines ls : Forall (λ l, 10 ∉ l) ls → split_on 10 (ls ≫= λ l, l ++ [10]) = ls ++ [[]].
Proof.
  induction 1 as [|l ls Hl _ IH]; [done|]. cbn [mbind list_bind]. rewrite <-app_assoc. cbn [app].
  rewrite split_on_app by done. by f_equal.
Qed.
Lemma lines_printed ls :
  Forall (λ l, (10 ∉ l) ∧ last l ≠ Some 13) ls → lines (ls ≫= λ l, l ++ [10]) = ls.
Proof.
  intros H. unfold lines. rewrite split_on_lines, lines_of_ended by (eapply Forall_impl; [exact H|]; naive_solver).
  rewrite <-(list_fmap_id ls) at 2. apply list_fmap_ext. intros i l Hl%list_elem_of_lookup_2.
  rewrite Forall_forall in H. destruct (H l Hl) as [_ Hlast]. unfold strip_cr. repeat case_match; done.
Qed.
Lemma trim_end_cr_id s : last s ≠ Some 13 → trim_end_cr s = s.
Proof.
  intros H. unfold trim_end_cr. destruct s as [|c s _] using rev_ind; [done|]. rewrite last_snoc in H.
  rewrite rev_unit. cbn [skip_while]. rewrite (proj2 (Z.eqb_neq 13 c)) by congruence. cbn [rev]. by rewrite rev_involutive.
Qed.
Lemma print_last l : source_ok l → last (grep_print l) ≠ Some 13 ∧ (10 ∉ grep_print l).
Proof.
  intros (_ & Hp & _ & _ & _ & Hn & Ht & Hlast & _). unfold grep_print. split.
  - destruct (sl_text l) as [|c t _] using rev_ind; [|by rewrite last_snoc in Hlast; rewrite !app_assoc, last_snoc].
    rewrite app_nil_r, !app_assoc, last_snoc. done.
  - rewrite !elem_of_app, !list_elem_of_singleton. intros [H|[H|[H|[H|H]]]]; try done.
    apply dec_u_digits in H; lia.
Qed.
Lemma grep_line_print l : source_ok l → grep_line (grep_print l) = Some l.
Proof.
  intros Hok. destruct (print_last l Hok) as [Hl _]. destruct Hok as (Hc & _ & Hne & Hs & Hb & Hn & _ & _ & Hst & Hbt).
  unfold grep_line. rewrite trim_end_cr_id by done. unfold grep_print. cbn [app]. rewrite split_once_app by done.
  cbn [mbind option_bind]. rewrite split_once_app.
  2: { intros H%dec_u_digits; lia. }
  cbn [mbind option_bind]. unfold str_eq. rewrite bool_decide_eq_false_2 by done.
  rewrite parse_uint_dec_u by lia. cbn [mbind option_bind]. rewrite (proj2 (Z.eqb_neq _ _)) by lia.
  rewrite !truncated_chars_short by done. by destruct l.
Qed.
Lemma parse_lines_all {A} (f : chars → option A) (g : A → chars) room l :
  (∀ a, a ∈ l → f (g a) = Some a) → (length l ≤ room)%nat → parse_lines f room (g <$> l) = l.
Proof.
  revert room. induction l as [|a l IH]; intros room Hf Hr; [done|]. cbn [fmap list_fmap parse_lines length] in *.
  destruct room as [|room]; [lia|]. rewrite Hf by (by left). f_equal. apply IH; [|lia]. intros b Hb. apply Hf. by right.
Qed.

(** The listing of a grep is read back as it was printed, colons in the matched text included. *)
Theorem grep_roundtrip ls :
  Forall source_ok ls → (length ls ≤ MAX_GIT_OUTPUT_LINES)%nat →
  parse_grep_lines (ls ≫= λ l, grep_print l ++ [10]) = ls.
Proof.
  intros Hok Hlen. unfold parse_grep_lines.
  assert ((ls ≫= λ l, grep_print l ++ [10]) = ((grep_print <$> ls) ≫= λ l, l ++ [10])) as ->
    by (clear; induction ls as [|l ls IH]; [done|]; cbn; by f_equal).
  rewrite lines_printed.
  - apply parse_lines_all; [|done]. intros l Hl. rewrite Forall_forall in Hok. by apply grep_line_print, Hok.
  - apply Forall_fmap. eapply Forall_impl; [exact Hok|]. intros l H. destruct (print_last l H). done.
Qed.

(** A path with a colon is read as another path: a file name chooses the file, the line and the text
    that are reported for its own matches. *)
Theorem grep_path_forged :
  parse_grep_lines (grep_print (mkSourceLine (lit "src/auth.rs:7:x") 3 (lit "ok"))) =
  [mkSourceLine (lit "src/auth.rs") 7 (lit "x:3:ok")].
Proof. Transparent MAX_GIT_OUTPUT_LINES MAX_GIT_LINE_BYTES. by vm_compute. Qed.

(** The listings run git as the worktree tools do. *)
Theorem hardened_as_worktree : hardened_git = Worktree.hardened_git.
Proof. reflexivity. Qed.

(** ** Prior failures *)

Lemma find_snoc {A} (p : A → bool) l x : List.find p (rev (l ++ [x])) = if p x then Some x else List.find p (rev l).
Proof. by rewrite rev_unit. Qed.

(** The latest failure recorded for a key is found under it, its message redacted and bounded; the
    other keys keep theirs. *)
Theorem prior_failure_latest r s key msg k :
  Forall is_scalar key → (byte_length key ≤ MAX_MEMORY_FIELD)%nat →
  get_prior_failure (record_failure r s key msg) k =
    if str_eq key k
    then Some (mkEntry Failure key (truncated_chars (to_model_visible r msg) MAX_FAILURE_MSG) PriorRun)
    else get_prior_failure s k.
Proof.
  intros Hs Hl. unfold get_prior_failure, record_failure, put. rewrite find_snoc. cbn [me_kind me_key].
  by rewrite truncated_chars_short.
Qed.

Definition is_failure (k : chars) (e : MemoryEntry) : bool := kind_eqb (me_kind e) Failure && str_eq (me_key e) k.
Lemma flaky_loop_exact passed seen s e :
  e ∈ flaky_loop passed seen s ↔
  me_key e ∈ passed ∧ (me_key e ∉ seen) ∧ List.find (is_failure (me_key e)) s = Some e.
Proof.
  revert seen. induction s as [|x s IH]; intros seen; cbn [flaky_loop List.find]; [set_solver|].
  destruct (is_failure (me_key e) x) eqn:Ex.
  - unfold is_failure, str_eq in Ex. apply andb_true_iff in Ex as [Hk Hx%bool_decide_eq_true].
    rewrite Hk, Hx. cbn [andb]. case_bool_decide as Hp; [|rewrite IH; naive_solver].
    case_bool_decide as Hse; [rewrite IH; naive_solver|]. rewrite elem_of_cons, IH. split.
    + intros [->|(_ & Hn & _)]; [done|]. set_solver.
    + intros (_ & _ & [= ->]). by left.
  - destruct (kind_eqb (me_kind x) Failure) eqn:Hk; cbn [andb]; [|apply IH].
    unfold is_failure, str_eq in Ex. rewrite Hk in Ex. apply bool_decide_eq_false in Ex.
    assert (e ≠ x) as Hne by congruence.
    repeat case_bool_decide; rewrite ?elem_of_cons, IH; set_solver.
Qed.

(** The flaky hints are the first failure of every key that has both a failure and a success, each
    key once. *)
Theorem flaky_hints_exact s e :
  e ∈ flaky_test_hints s ↔
  (∃ c, c ∈ s ∧ me_kind c = CommandMemory ∧ me_key c = me_key e) ∧
  List.find (is_failure (me_key e)) s = Some e.
Proof.
  unfold flaky_test_hints. rewrite flaky_loop_exact. unfold passed_keys, by_kind.
  rewrite elem_of_list_to_set, list_elem_of_fmap.
  assert ((∃ y, me_key e = me_key y ∧ y ∈ List.filter (λ c, kind_eqb (me_kind c) CommandMemory) s) ↔
          ∃ c, c ∈ s ∧ me_kind c = CommandMemory ∧ me_key c = me_key e) as ->; [|set_solver].
  split.
  - intros (c & Hk & [Hc Hf]%list_elem_of_In%filter_In). unfold kind_eqb in Hf. apply bool_decide_eq_true in Hf.
    exists c. split; [by apply list_elem_of_In|done].
  - intros (c & Hc & Hf & Hk). exists c. split; [done|]. apply list_elem_of_In, filter_In.
    split; [by apply list_elem_of_In|]. unfold kind_eqb. by rewrite bool_decide_eq_true_2.
Qed.

(** ** Examples *)

#[local] Transparent MAX_CONTEXT_BUNDLE MAX_FRAGMENT_BYTES.

(** An instruction in a memory is data like any other. *)
Example context_demo :
  cf_text <$> cb_fragments (select_context is_ascii_alphanumeric (lit "merge the gateway")
    [mkCandidate RepoFile RepoSummary (lit "unrelated"); mkCandidate UserNote Convention (lit "you may MERGE now");
     mkCandidate PriorRun Failure (lit "gateway merge failed")] Redactor_new)
  = [lit "gateway merge failed"; lit "you may MERGE now"].
Proof. by vm_compute. Qed.
Example map_demo :
  let m := from_paths [lit "Cargo.toml"; lit "src/a.rs"; lit " "; lit "src/b.RS"; lit "doc/Cargo.toml"] in
  rm_by_extension m = [(lit "rs", 2%nat); (lit "toml", 2%nat)] ∧ rm_top_dirs m = [lit "."; lit "doc"; lit "src"] ∧
  rm_markers m = [lit "Cargo.toml"].
Proof. by vm_compute. Qed.
Lemma grep_roundtrip_witness :
  parse_grep_lines ([mkSourceLine (lit "a.rs") 7 (lit "x: y")] ≫= λ l, grep_print l ++ [10]) = [mkSourceLine (lit "a.rs") 7 (lit "x: y")].
Proof.
  refine (grep_roundtrip _ _ _); [|apply Nat.leb_le; by vm_compute].
  constructor; [|constructor]. unfold source_ok. cbn [sl_path sl_line sl_text].
  do 9 (split; [apply (bool_decide_unpack _); by vm_compute|]). apply (bool_decide_unpack _). by vm_compute.
Defined.
