(* ===== verification/Embed.v ===== *)
(** * Embeddings (crate [crustcore-index], [embed.rs])

    The embedder of tests and the one over the network helper, cosine similarity, the memory scanned by
    brute force, the index of random hyperplanes, and the selection of context by similarity.

    An [f32] is its bit pattern, decoded to a [spec_float]; arithmetic rounds to nearest, ties to even, as
    IEEE 754 asks. An [f64] is a [spec_float]. *)

From Stdlib Require Import SpecFloat.
From S2P Require Import Prelude Text Std Chars Redactor Strings Order Json NetProto Index.

(** ** Floats *)

Definition f32_decode (b : Z) : spec_float :=
  let s := Z.testbit b 31 in
  let e := Z.land (Z.shiftr b 23) 255 in
  let m := Z.land b 8388607 in
  if e =? 255 then if m =? 0 then S754_infinity s else S754_nan
  else if e =? 0 then match m with Zpos p => S754_finite s p (-149) | _ => S754_zero s end
  else match m + 8388608 with Zpos p => S754_finite s p (e - 150) | _ => S754_nan end.
Definition f32_encode (x : spec_float) : Z :=
  let sign (s : bool) := if s then 2147483648 else 0 in
  match x with
  | S754_zero s => sign s
  | S754_infinity s => sign s + 2139095040
  | S754_nan => 2143289344
  | S754_finite s m e => if Zpos m <? 8388608 then sign s + Zpos m else sign s + (e + 150) * 8388608 + (Zpos m - 8388608)
  end.
Definition f32_finite (b : Z) : bool := negb (Z.land (Z.shiftr b 23) 255 =? 255).
Definition f32_add (a b : Z) : Z := f32_encode (SFadd 24 128 (f32_decode a) (f32_decode b)).
Definition f32_sub (a b : Z) : Z := f32_encode (SFsub 24 128 (f32_decode a) (f32_decode b)).
Definition f32_mul (a b : Z) : Z := f32_encode (SFmul 24 128 (f32_decode a) (f32_decode b)).
Definition f32_div (a b : Z) : Z := f32_encode (SFdiv 24 128 (f32_decode a) (f32_decode b)).
(** [n as f32], for an unsigned integer. *)
Definition f32_of_uint (n : Z) : Z := f32_encode (binary_normalize 24 128 n 0 false).
Definition f32_gt (a b : Z) : bool := SFltb (f32_decode b) (f32_decode a).
Definition f32_ge (a b : Z) : bool := SFleb (f32_decode b) (f32_decode a).
(** The order of [f32::total_cmp]: the bits as a signed integer, those of a negative number turned over. *)
Definition total_key (b : Z) : Z := if b <? 2147483648 then b else -1 - (b - 2147483648).
Definition total_lt (a b : Z) : bool := total_key a <? total_key b.

(** A value at the precision of another format; [f64::from] and [as f32]. *)
Definition sf_round (prec emax : Z) (x : spec_float) : spec_float :=
  match x with S754_finite s m e => binary_round prec emax s m e | _ => x end.
Definition f64_of_f32 (b : Z) : spec_float := sf_round 53 1024 (f32_decode b).
Definition f32_of_f64 (x : spec_float) : Z := f32_encode (sf_round 24 128 x).
Abbreviation f64_zero := (S754_zero false).
Definition f64_add := SFadd 53 1024.
Definition f64_mul := SFmul 53 1024.
Definition f64_div := SFdiv 53 1024.
Definition f64_sqrt := SFsqrt 53 1024.
Definition f64_finite (x : spec_float) : bool := match x with S754_zero _ | S754_finite _ _ _ => true | _ => false end.

(** The floats of the helper protocol, with the formatting and the parsing of the standard library. *)
#[local] Instance F32_bits (show : Z → chars) (parse : chars → option Z) : F32 :=
  { f32 := Z; f32_zero := 0; f32_is_finite := f32_finite; f32_to_string := show; f32_parse := parse }.

(** ** Embedders *)

Definition EMBED_DIM : nat := 256.
(** [embed] of the trait: the state is what an implementation holds behind a shared reference. *)
Class Embedder (E : Type) := embed_text : E → chars → list Z * E.

(** [v[i] += 1.0], which is out of range for no token. *)
Definition bump (v : list Z) (i : nat) : list Z := alter (λ x, f32_add x (f32_of_uint 1)) i v.
Definition fnv1a (bs : bytes) : Z :=
  fold_left (λ h b, (Z.lxor h b * 1099511628211) mod 2 ^ 64) bs 14695981039346656037.
Definition tokens_of (text : chars) : list chars :=
  List.filter (λ t, negb (str_eq t [])) (split_by (λ c, negb (is_ascii_alphanumeric c)) text).
Definition fallback_embedding (text : chars) (dim : nat) : list Z :=
  if (dim =? 0)%nat then []
  else fold_left (λ v t, bump v (Z.to_nat (fnv1a (to_utf8 (to_ascii_lowercase t)) mod Z.of_nat dim))) (tokens_of text)
         (replicate dim 0).
(** The loop of [HashEmbedder::embed] is that of the fallback at its own dimension. *)
Definition hash_embed (text : chars) : list Z :=
  fold_left (λ v t, bump v (Z.to_nat (fnv1a (to_utf8 (to_ascii_lowercase t)) mod Z.of_nat EMBED_DIM))) (tokens_of text)
    (replicate EMBED_DIM 0).
Inductive HashEmbedder := mkHashEmbedder.
#[export] Instance HashEmbedder_embed : Embedder HashEmbedder := λ e text, (hash_embed text, e).

(** The embedder over the helper: its client is what was written so far and the reads to come. *)
Definition DEFAULT_EMBED_ROLE : Role := Research.
Record NetEmbedder := mkNetEmbedder {
  ne_written : bytes; ne_reader : list bytes; ne_role : Role; ne_fallback_dim : nat; ne_max_cost_micros : Z }.
Definition NetEmbedder_new (w : bytes) (r : list bytes) : NetEmbedder := mkNetEmbedder w r DEFAULT_EMBED_ROLE EMBED_DIM 0.
Definition with_role (e : NetEmbedder) (role : Role) : NetEmbedder :=
  mkNetEmbedder (ne_written e) (ne_reader e) role (ne_fallback_dim e) (ne_max_cost_micros e).
Definition with_max_cost_micros (e : NetEmbedder) (micros : Z) : NetEmbedder :=
  mkNetEmbedder (ne_written e) (ne_reader e) (ne_role e) (ne_fallback_dim e) micros.
Definition with_fallback_dim (e : NetEmbedder) (dim : nat) : NetEmbedder :=
  mkNetEmbedder (ne_written e) (ne_reader e) (ne_role e) dim (ne_max_cost_micros e).

Section Net.
Context (show : Z → chars) (parse : chars → option Z).
#[local] Instance net_f32 : F32 := F32_bits show parse.
(** The failures of a round trip: the protocol's, or a reply without vectors. *)
Inductive EmbedFailure := EfProto (e : @ProtoError net_f32) | EfNoVectors.
Definition try_embed (e : NetEmbedder) (text : chars) : result EmbedFailure (list Z) * NetEmbedder :=
  let '(res, w, r) := embed (FL := net_f32) (mkEmbed (ne_role e) [text] (ne_max_cost_micros e))
                        (ne_written e) (ne_reader e) in
  (match res with
   | Err p => Err (EfProto p)
   | Ok out => match em_vectors out with v :: _ => Ok v | [] => Err EfNoVectors end
   end, mkNetEmbedder w r (ne_role e) (ne_fallback_dim e) (ne_max_cost_micros e)).
#[export] Instance NetEmbedder_embed : Embedder NetEmbedder := λ e text,
  let '(res, e') := try_embed e text in
  (match res with Ok v => v | Err _ => fallback_embedding text (ne_fallback_dim e) end, e').
End Net.

(** ** Similarity *)

Definition dot_step (acc : spec_float * spec_float * spec_float) (p : Z * Z) : spec_float * spec_float * spec_float :=
  let '(dot, na, nb) := acc in
  let x := f64_of_f32 p.1 in let y := f64_of_f32 p.2 in
  (f64_add dot (f64_mul x y), f64_add na (f64_mul x x), f64_add nb (f64_mul y y)).
Definition cosine (a b : list Z) : Z :=
  if negb (length a =? length b)%nat then 0 else
  let '(dot, na, nb) := fold_left dot_step (zip a b) (f64_zero, f64_zero, f64_zero) in
  if SFleb na f64_zero || SFleb nb f64_zero then 0 else
  let sim := f64_div dot (f64_mul (f64_sqrt na) (f64_sqrt nb)) in
  if f64_finite sim then f32_of_f64 sim else 0.

(** The scores with their positions, the positive ones, best first, ties in order of position. *)
Definition score_le (a b : Z * nat) : bool :=
  total_lt b.1 a.1 || ((total_key b.1 =? total_key a.1) && (a.2 <=? b.2)%nat).
Definition positive (s : Z) : bool := f32_gt s 0.
Definition best_first (scores : list (Z * nat)) : list nat :=
  snd <$> sort_by score_le (List.filter (λ p, positive p.1) scores).

(** ** The memory scanned by brute force *)

Abbreviation VectorMemory := (list (MemoryEntry * list Z)) (only parsing).
Definition VectorMemory_put (m : VectorMemory) (e : MemoryEntry) (v : list Z) : VectorMemory := m ++ [(e, v)].
(** The entries at given positions; an index out of range would panic. *)
Definition entries_at {A B} (m : list (A * B)) (idxs : list nat) : option (list A) := mapM (λ i, fst <$> m !! i) idxs.
Definition VectorMemory_nearest (m : VectorMemory) (query : list Z) (k : nat) : option (list MemoryEntry) :=
  entries_at m (take k (best_first (imap (λ i '(_, emb), (cosine query emb, i)) m))).

(** ** The index of random hyperplanes *)

Definition ANN_SEED : Z := 11400714819323198485.
Definition ANN_BITS : nat := 8.
Definition ANN_TABLES : nat := 10.
Definition ANN_MAX_VECTORS : Z := 100000.
Definition ANN_MAX_RADIUS : Z := 2.

(** [SplitMix64]; its state is the integer. *)
Definition SplitMix64_next (state : Z) : Z * Z :=
  let state := (state + 11400714819323198485) mod 2 ^ 64 in
  let z := Z.lxor state (Z.shiftr state 30) * 13787848793156543929 mod 2 ^ 64 in
  let z := Z.lxor z (Z.shiftr z 27) * 10723151780598845931 mod 2 ^ 64 in
  (Z.lxor z (Z.shiftr z 31), state).
Definition next_unit_f32 (state : Z) : Z * Z :=
  let '(u, state) := SplitMix64_next state in
  let unit := f32_div (f32_of_uint (Z.shiftr u 40)) (f32_of_uint (Z.shiftl 1 24)) in
  (f32_sub (f32_mul unit (f32_of_uint 2)) (f32_of_uint 1), state).
(** [n] values drawn one after the other. *)
Fixpoint draw {A} (next : Z → A * Z) (n : nat) (state : Z) : list A * Z :=
  match n with
  | O => ([], state)
  | S n' => let '(x, state) := next state in let '(l, state) := draw next n' state in (x :: l, state)
  end.

Record AnnIndex := mkAnn {
  an_dim : nat; an_tables : list (list (list Z)); an_entries : list (MemoryEntry * list Z);
  an_buckets : list (gmap Z (list nat)) }.
Definition AnnIndex_new (dim : nat) : AnnIndex :=
  mkAnn dim (draw (draw (draw next_unit_f32 dim) ANN_BITS) ANN_TABLES ANN_SEED).1 [] (replicate ANN_TABLES ∅).

Definition dot_product (v plane : list Z) : spec_float :=
  fold_left (λ d p, f64_add d (f64_mul (f64_of_f32 p.1) (f64_of_f32 p.2))) (zip v plane) f64_zero.
(** The bit of one plane. *)
Definition plane_bit (v plane : list Z) : bool :=
  (length v =? length plane)%nat && let d := dot_product v plane in f64_finite d && SFltb f64_zero d.
Definition plane_signature (v : list Z) (planes : list (list Z)) : Z :=
  fold_left (λ sig p, if plane_bit v p.2 then Z.lor sig (Z.shiftl 1 (Z.of_nat p.1)) else sig)
    (imap (λ i plane, (i, plane)) planes) 0.
Definition signature (idx : AnnIndex) (t : nat) (v : list Z) : option Z := plane_signature v <$> an_tables idx !! t.

(** The loop of [put] over the tables; a bucket that is not there would panic. *)
Fixpoint fill_buckets (v : list Z) (i : nat) (tables : list (list (list Z))) (buckets : list (gmap Z (list nat)))
  : option (list (gmap Z (list nat))) :=
  match tables, buckets with
  | [], _ => Some buckets
  | _ :: _, [] => None
  | planes :: ts, b :: bs =>
      let sig := plane_signature v planes in
      rest ← fill_buckets v i ts bs; Some (<[sig := default [] (b !! sig) ++ [i]]> b :: rest)
  end.
Definition AnnIndex_put (idx : AnnIndex) (e : MemoryEntry) (v : list Z) : option (bool * AnnIndex) :=
  if (ANN_MAX_VECTORS <=? Z.of_nat (length (an_entries idx))) || negb (length v =? an_dim idx)%nat then Some (false, idx)
  else buckets ← fill_buckets v (length (an_entries idx)) (an_tables idx) (an_buckets idx);
       Some (true, mkAnn (an_dim idx) (an_tables idx) (an_entries idx ++ [(e, v)]) buckets).

(** [flip_combinations]: the masks handed to [emit], in order. *)
Fixpoint flip_combinations (bits remaining start : nat) (acc : Z) : list Z :=
  match remaining with
  | O => [acc]
  | S r => seq start (S bits - S r - start) ≫= λ pos,
             flip_combinations bits r (S pos) (Z.lor acc (Z.shiftl 1 (Z.of_nat pos)))
  end.
Definition hamming_ball (base : Z) (radius : nat) : list Z :=
  base :: (seq 1 radius ≫= λ r, Z.lxor base <$> flip_combinations ANN_BITS r 0 0).

(** The indices of a bucket: those not seen before become candidates. *)
Fixpoint probe_bucket (idxs : list nat) (seen : list bool) (cands : list nat) : option (list bool * list nat) :=
  match idxs with
  | [] => Some (seen, cands)
  | i :: idxs' =>
      s ← seen !! i;
      if s : bool then probe_bucket idxs' seen cands else probe_bucket idxs' (<[i := true]> seen) (cands ++ [i])
  end.
Fixpoint probe_sigs (b : gmap Z (list nat)) (sigs : list Z) (seen : list bool) (cands : list nat)
  : option (list bool * list nat) :=
  match sigs with
  | [] => Some (seen, cands)
  | sig :: sigs' =>
      match b !! sig with
      | Some idxs => '(seen, cands) ← probe_bucket idxs seen cands; probe_sigs b sigs' seen cands
      | None => probe_sigs b sigs' seen cands
      end
  end.
Fixpoint probe_tables (query : list Z) (radius : nat) (tables : list (list (list Z))) (buckets : list (gmap Z (list nat)))
    (seen : list bool) (cands : list nat) : option (list bool * list nat) :=
  match tables, buckets with
  | [], _ => Some (seen, cands)
  | _ :: _, [] => None
  | planes :: ts, b :: bs =>
      '(seen, cands) ← probe_sigs b (hamming_ball (plane_signature query planes) radius) seen cands;
      probe_tables query radius ts bs seen cands
  end.
Definition capped_radius (radius : Z) : nat := Z.to_nat (Z.min (Z.min radius ANN_MAX_RADIUS) (Z.of_nat ANN_BITS)).
Definition AnnIndex_nearest (idx : AnnIndex) (query : list Z) (k : nat) (radius : Z) : option (list MemoryEntry) :=
  if bool_decide (an_entries idx = []) || (k =? 0)%nat then Some [] else
  '(_, cands) ← probe_tables query (capped_radius radius) (an_tables idx) (an_buckets idx)
                  (replicate (length (an_entries idx)) false) [];
  scores ← mapM (λ i, '(_, emb) ← an_entries idx !! i; Some (cosine query emb, i)) cands;
  entries_at (an_entries idx) (take k (best_first scores)).

(** ** Selecting context by similarity *)

Definition semantic_select (query : list Z) (cs : list (ContextCandidate * list Z)) (r : Redactor) : option ContextBundle :=
  ordered ← entries_at cs (best_first (imap (λ i '(_, emb), (cosine query emb, i)) cs));
  Some (build_bundle ordered (length cs) r).
