(* ===== verification/EmbedTheorems.v ===== *)
(** * Embeddings: theorems

    The scan returns exactly the positively similar entries, best first; the index of hyperplanes returns
    what the scan would over the entries within the probed distance, whatever the order in which it meets
    them; what the selection shows is bounded and redacted; the embedder of tests counts tokens, and
    the embedder over the helper falls back on it. *)

From Stdlib Require Import SpecFloat.
From stdpp Require Import sorting.
From S2P Require Import Prelude Text Std Chars Redactor Strings Order Json NetProto Index IndexTheorems Embed.

#[local] Opaque cosine f32_gt.

(** ** Scores *)

Lemma score_le_total a b : score_le a b = false → score_le b a = true.
Proof.
  unfold score_le, total_lt. destruct (Z.ltb_spec (total_key b.1) (total_key a.1)); [done|].
  destruct (Z.eqb_spec (total_key b.1) (total_key a.1)) as [->|]; cbn.
  - rewrite Z.ltb_irrefl, Z.eqb_refl. cbn. rewrite Nat.leb_gt, Nat.leb_le. lia.
  - intros _. rewrite (proj2 (Z.ltb_lt _ _)) by lia. done.
Qed.
Lemma score_le_spec a b :
  score_le a b = true ↔ total_key b.1 < total_key a.1 ∨ (total_key b.1 = total_key a.1 ∧ (a.2 ≤ b.2)%nat).
Proof. unfold score_le, total_lt. rewrite orb_true_iff, andb_true_iff, Z.ltb_lt, Z.eqb_eq, Nat.leb_le. done. Qed.
Lemma score_le_trans a b c : score_le a b = true → score_le b c = true → score_le a c = true.
Proof. rewrite !score_le_spec. lia. Qed.

(** ** Ranking *)

(** The similarity of the entry at a position, and the order of the results. *)
Definition sim_at {B} (m : list (B * list Z)) (query : list Z) (i : nat) : Z :=
  match m !! i with Some (_, v) => cosine query v | None => 0 end.
Definition ranks (sim : nat → Z) (i j : nat) : bool := score_le (sim i, i) (sim j, j).

Lemma ranks_total sim i j : ranks sim i j = false → ranks sim j i = true.
Proof. apply score_le_total. Qed.
Lemma ranks_trans sim i j k : ranks sim i j = true → ranks sim j k = true → ranks sim i k = true.
Proof. apply score_le_trans. Qed.
Lemma ranks_antisym sim i j : ranks sim i j = true → ranks sim j i = true → i = j.
Proof. unfold ranks. rewrite !score_le_spec. cbn. lia. Qed.

Lemma best_first_fmap sim idxs :
  best_first ((λ i, (sim i, i)) <$> idxs) = sort_by (ranks sim) (List.filter (λ i, positive (sim i)) idxs).
Proof.
  unfold best_first. rewrite list_filter_fmap, (sort_by_fmap _ (ranks sim)) by done.
  rewrite <-list_fmap_compose. etrans; [|apply list_fmap_id]. by apply list_fmap_ext.
Qed.
Lemma scores_of {B} (m : list (B * list Z)) query :
  imap (λ i '(_, emb), (cosine query emb, i)) m = (λ i, (sim_at m query i, i)) <$> seq 0 (length m).
Proof.
  apply list_eq. intros i. rewrite list_lookup_imap, list_lookup_fmap.
  destruct (m !! i) as [[b v]|] eqn:E.
  - rewrite lookup_seq_lt by (by eapply lookup_lt_Some). cbn. unfold sim_at. by rewrite E.
  - rewrite lookup_seq_ge by (by apply lookup_ge_None). done.
Qed.
Lemma entries_at_some {A B} (m : list (A * B)) idxs :
  Forall (λ i, i < length m)%nat idxs → ∃ es, entries_at m idxs = Some es ∧ Forall2 (λ i e, ∃ b, m !! i = Some (e, b)) idxs es.
Proof.
  induction 1 as [|i idxs Hi Hf (es & He & H2)]; [by exists []|].
  destruct (lookup_lt_is_Some_2 m i Hi) as [[a b] Hl]. exists (a :: es).
  unfold entries_at in *. cbn [mapM]. rewrite Hl. cbn. rewrite He. split; [done|]. constructor; [by exists b|done].
Qed.
Lemma entries_at_same {A B} (m m' : list (A * B)) (f : nat → nat) idxs :
  (∀ i, i ∈ idxs → m' !! i = m !! f i) → entries_at m (f <$> idxs) = entries_at m' idxs.
Proof.
  unfold entries_at. intros H. induction idxs as [|i idxs IH]; [done|]. cbn [fmap list_fmap mapM].
  rewrite <-(H i) by (by left). rewrite IH by (intros j ?; apply H; by right). done.
Qed.

(** The memory returns, for any query and any bound, the first entries of one list of positions, in
    which a position is exactly when its entry is positively similar, and once; it is sorted by
    falling similarity, and by position where two are as similar. The scan never indexes out of range. *)
Theorem nearest_exact (m : VectorMemory) query k :
  ∃ l es, VectorMemory_nearest m query k = Some es ∧
    Forall2 (λ i e, ∃ v, m !! i = Some (e, v)) (take k l) es ∧
    NoDup l ∧ StronglySorted (λ i j, ranks (sim_at m query) i j = true) l ∧
    (∀ i, i ∈ l ↔ ∃ e v, m !! i = Some (e, v) ∧ positive (cosine query v) = true).
Proof.
  unfold VectorMemory_nearest. rewrite scores_of, best_first_fmap.
  set (l := sort_by _ _). exists l.
  assert (∀ i, i ∈ l ↔ ∃ e v, m !! i = Some (e, v) ∧ positive (cosine query v) = true) as Hl.
  { intros i. unfold l. rewrite sort_by_elem, list_elem_of_In, filter_In, in_seq. unfold sim_at. split.
    - intros [Hi Hp]. destruct (lookup_lt_is_Some_2 m i) as [[e v] E]; [lia|]. rewrite E in Hp. eauto.
    - intros (e & v & E & Hp). rewrite E. split; [|done]. apply lookup_lt_Some in E. lia. }
  destruct (entries_at_some m (take k l)) as (es & He & H2).
  { apply Forall_take, Forall_forall. intros i (e & v & E & _)%Hl. by eapply lookup_lt_Some. }
  exists es. split; [done|]. split; [done|]. split; [|split; [|done]].
  - unfold l. rewrite sort_by_perm. apply NoDup_ListNoDup, List.NoDup_filter, NoDup_ListNoDup, NoDup_seq.
  - apply sort_by_le_sorted; [apply ranks_total|apply ranks_trans].
Qed.

Lemma scan_total (m : VectorMemory) query k : is_Some (VectorMemory_nearest m query k).
Proof. destruct (nearest_exact m query k) as (l & es & H & _). by exists es. Qed.

(** ** Signatures and distances *)

(** The number of the [ANN_BITS] bits that two signatures differ in. *)
Definition hamming (a b : Z) : nat := length (List.filter (λ i, Z.testbit (Z.lxor a b) (Z.of_nat i)) (seq 0 ANN_BITS)).

Lemma lor_bit_range x i : 0 ≤ x < 256 → (i < 8)%nat → 0 ≤ Z.lor x (Z.shiftl 1 (Z.of_nat i)) < 256.
Proof.
  intros Hx Hi. rewrite Z.shiftl_1_l.
  assert (x = x mod 2 ^ 8) as -> by (by rewrite Z.mod_small). assert (2 ^ Z.of_nat i = 2 ^ Z.of_nat i mod 2 ^ 8) as ->.
  { rewrite Z.mod_small; [done|]. split; [lia|]. apply Z.pow_lt_mono_r; lia. }
  rewrite <-!Z.land_ones, <-Z.land_lor_distr_l, Z.land_ones by lia. by apply Z.mod_pos_bound.
Qed.
Lemma plane_signature_range v planes : length planes = ANN_BITS → 0 ≤ plane_signature v planes < 256.
Proof.
  intros Hl. unfold plane_signature.
  assert (Forall (λ p, p.1 < 8)%nat (imap (λ i plane, (i, plane)) planes)) as Hf.
  { apply Forall_forall. intros [i p] (j & Hj)%list_elem_of_lookup. rewrite list_lookup_imap in Hj.
    destruct (planes !! j) eqn:E; [|done]. cbn in Hj. simplify_eq. apply lookup_lt_Some in E. rewrite Hl in E. exact E. }
  revert Hf. generalize (imap (λ i plane, (i, plane)) planes). intros l.
  assert (∀ x, 0 ≤ x < 256 → Forall (λ p, p.1 < 8)%nat l → 0 ≤ fold_left (λ sig p,
    if plane_bit v p.2 then Z.lor sig (Z.shiftl 1 (Z.of_nat p.1)) else sig) l x < 256) as H; [|intros Hf; apply H; [lia|done]].
  induction l as [|[i p] l IH]; intros x Hx Hf; [done|].
  apply Forall_cons in Hf as [Hi Hf]. cbn [fold_left]. apply IH; [|done].
  cbn [fst snd] in *. destruct (plane_bit v p); [by apply lor_bit_range|done].
Qed.

Lemma ball_xor base r : hamming_ball base r = Z.lxor base <$> hamming_ball 0 r.
Proof.
  unfold hamming_ball. cbn [fmap list_fmap]. rewrite Z.lxor_0_r. f_equal.
  generalize (seq 1 r). induction l as [|n l IH]; [done|]. change (?x :: l ≫= ?f) with (f x ++ (l ≫= f)). cbn [mbind list_bind].
  change (mbind ?f l) with (l ≫= f). rewrite fmap_app, IH. f_equal.
  rewrite <-list_fmap_compose. apply list_fmap_ext. intros i x _. cbn. by rewrite Z.lxor_0_l.
Qed.
Lemma ball_zero : 
  Forall (λ r, Forall (λ x, bool_decide (x ∈ hamming_ball 0 r) = (hamming 0 x <=? r)%nat) (seqZ 0 256)) [0; 1; 2]%nat.
Proof. apply (bool_decide_unpack _). by vm_compute. Qed.
(** What is probed is exactly what is within the radius. *)
Lemma hamming_ball_spec base sig r :
  0 ≤ base < 256 → 0 ≤ sig < 256 → (r ≤ 2)%nat → sig ∈ hamming_ball base r ↔ (hamming base sig ≤ r)%nat.
Proof.
  intros Hb Hs Hr.
  assert (0 ≤ Z.lxor base sig < 256) as Hx.
  { assert (base = base mod 2 ^ 8) as -> by (by rewrite Z.mod_small). assert (sig = sig mod 2 ^ 8) as -> by (by rewrite Z.mod_small).
    rewrite <-!Z.land_ones by lia. assert (∀ a b, Z.lxor (Z.land a (Z.ones 8)) (Z.land b (Z.ones 8)) = Z.land (Z.lxor a b) (Z.ones 8)) as ->.
    { intros a b. apply Z.bits_inj'. intros n Hn. rewrite Z.lxor_spec, !Z.land_spec, Z.lxor_spec. by destruct (Z.testbit a n), (Z.testbit b n), (Z.testbit (Z.ones 8) n). }
    rewrite Z.land_ones by lia. by apply Z.mod_pos_bound. }
  assert (hamming base sig = hamming 0 (Z.lxor base sig)) as -> by (unfold hamming; by rewrite Z.lxor_0_l).
  assert (sig ∈ hamming_ball base r ↔ Z.lxor base sig ∈ hamming_ball 0 r) as ->.
  { rewrite ball_xor, list_elem_of_fmap. split.
    - intros (m & -> & Hm). by rewrite <-Z.lxor_assoc, Z.lxor_nilpotent, Z.lxor_0_l.
    - intros Hm. exists (Z.lxor base sig). by rewrite <-Z.lxor_assoc, Z.lxor_nilpotent, Z.lxor_0_l. }
  assert (r ∈ [0; 1; 2]%nat) as Hri by (rewrite !elem_of_cons; lia).
  pose proof (proj1 (Forall_forall _ _) ball_zero r Hri) as Hf. cbv beta in Hf. rewrite Forall_forall in Hf.
  specialize (Hf (Z.lxor base sig) ltac:(apply elem_of_seqZ; lia)).
  rewrite <-Nat.leb_le, <-Hf. by rewrite bool_decide_eq_true.
Qed.

(** ** The index of hyperplanes *)

(** A bucket holds exactly the entries with its signature. *)
Definition bucket_ok (entries : list (MemoryEntry * list Z)) (planes : list (list Z)) (b : gmap Z (list nat)) : Prop :=
  length planes = ANN_BITS ∧
  ∀ sig i, i ∈ default [] (b !! sig) ↔ ∃ e v, entries !! i = Some (e, v) ∧ plane_signature v planes = sig.
Record ann_ok (idx : AnnIndex) : Prop := {
  ao_buckets : Forall2 (bucket_ok (an_entries idx)) (an_tables idx) (an_buckets idx);
  ao_bound : Z.of_nat (length (an_entries idx)) ≤ ANN_MAX_VECTORS;
  ao_dims : Forall (λ p, length p.2 = an_dim idx) (an_entries idx) }.

Lemma draw_length {A} (next : Z → A * Z) n s : length (draw next n s).1 = n.
Proof.
  revert s. induction n as [|n IH]; intros s; [done|]. cbn [draw]. destruct (next s) as [x s1].
  specialize (IH s1). destruct (draw next n s1). cbn in *. by rewrite IH.
Qed.
Lemma draw_forall {A} (P : A → Prop) (next : Z → A * Z) n s : (∀ s, P (next s).1) → Forall P (draw next n s).1.
Proof.
  intros H. revert s. induction n as [|n IH]; intros s; [constructor|]. cbn [draw]. pose proof (H s) as Hx.
  destruct (next s) as [x s1]. specialize (IH s1). destruct (draw next n s1). by constructor.
Qed.
Lemma fill_buckets_ok entries e v tables buckets :
  Forall2 (bucket_ok entries) tables buckets →
  ∃ buckets', fill_buckets v (length entries) tables buckets = Some buckets' ∧
    Forall2 (bucket_ok (entries ++ [(e, v)])) tables buckets'.
Proof.
  induction 1 as [|planes b ts bs [Hl Hb] _ (bs' & IH & Hbs)]; [by exists []|]. cbn [fill_buckets]. rewrite IH. cbn.
  eexists. split; [done|]. constructor; [|done]. split; [done|]. intros sig i.
  assert ((∃ e0 v0, (entries ++ [(e, v)]) !! i = Some (e0, v0) ∧ plane_signature v0 planes = sig) ↔
          i ∈ default [] (b !! sig) ∨ (i = length entries ∧ plane_signature v planes = sig)) as ->.
  { rewrite Hb. split.
    - intros (e0 & v0 & [H|[-> H]]%lookup_snoc_Some & Hs); [left; exists e0, v0; naive_solver|naive_solver].
    - intros [(e0 & v0 & H & Hs)|[-> Hs]].
      + exists e0, v0. split; [|done]. by apply lookup_app_l_Some.
      + exists e, v. split; [|done]. by rewrite lookup_app_r, Nat.sub_diag. }
  destruct (decide (plane_signature v planes = sig)) as [<-|Hne].
  - rewrite lookup_insert_eq. cbn. rewrite elem_of_app, list_elem_of_singleton. naive_solver.
  - rewrite lookup_insert_ne by done. naive_solver.
Qed.

(** The index starts and stays well formed: in every table a bucket holds exactly the entries
    whose signature it is, the entries are within their bound and of one dimension. Recording an entry never
    panics; it is refused exactly at the bound or with another dimension, and then nothing changes. *)
Lemma ann_wf :
  (∀ dim, ann_ok (AnnIndex_new dim)) ∧
  (∀ idx e v, ann_ok idx → ∃ ok idx', AnnIndex_put idx e v = Some (ok, idx') ∧ ann_ok idx' ∧
     if ok : bool then an_entries idx' = an_entries idx ++ [(e, v)]
     else idx' = idx ∧ (Z.of_nat (length (an_entries idx)) = ANN_MAX_VECTORS ∨ length v ≠ an_dim idx)).
Proof.
  split.
  - intros dim. split; [|by vm_compute|constructor]. unfold AnnIndex_new. cbn [an_entries an_tables an_buckets].
    apply Forall2_same_length_lookup_2; [by rewrite draw_length, length_replicate|].
    intros i planes b Hp [-> _]%lookup_replicate. split.
    + assert (Forall (λ l, length l = ANN_BITS)
        (draw (draw (draw next_unit_f32 dim) ANN_BITS) ANN_TABLES ANN_SEED).1) as Hf.
      { apply draw_forall. intros s. apply draw_length. }
      rewrite Forall_lookup in Hf. by eapply Hf.
    + intros sig j. rewrite lookup_empty. cbn. rewrite elem_of_nil. split; [done|]. by intros (? & ? & ? & _).
  - intros idx e v [H1 H2 H3]. unfold AnnIndex_put.
    destruct (Z.leb_spec ANN_MAX_VECTORS (Z.of_nat (length (an_entries idx)))) as [Hle|Hlt].
    { exists false, idx. split; [done|]. split; [by split|]. split; [done|]. left. lia. }
    destruct (Nat.eqb_spec (length v) (an_dim idx)) as [Hd|Hd]; cbn.
    2:{ exists false, idx. split; [done|]. split; [by split|]. split; [done|]. by right. }
    destruct (fill_buckets_ok _ e v _ _ H1) as (bs' & -> & Hbs). cbn. eexists true, _. split; [done|]. split; [|done].
    split; cbn; [done|rewrite length_app; cbn; lia|]. apply Forall_app. split; [done|]. by constructor.
Qed.

(** What the probes find: candidates are in range, without duplicates, and marked as seen. *)
Record probe_ok (n : nat) (seen : list bool) (cands : list nat) : Prop := {
  po_length : length seen = n;
  po_seen : ∀ i, seen !! i = Some true ↔ i ∈ cands;
  po_nodup : NoDup cands }.

Lemma probe_bucket_ok n idxs seen cands :
  probe_ok n seen cands → Forall (λ i, i < n)%nat idxs →
  ∃ seen' cands', probe_bucket idxs seen cands = Some (seen', cands') ∧ probe_ok n seen' cands' ∧
    ∀ i, i ∈ cands' ↔ i ∈ cands ∨ i ∈ idxs.
Proof.
  revert seen cands. induction idxs as [|i idxs IH]; intros seen cands Hok Hf.
  { exists seen, cands. split; [done|]. split; [done|]. intros i. rewrite elem_of_nil. naive_solver. }
  apply Forall_cons in Hf as [Hi Hf]. cbn [probe_bucket]. destruct Hok as [Hl Hs Hn].
  destruct (lookup_lt_is_Some_2 seen i) as [s E]; [lia|]. rewrite E. cbn. destruct s.
  - destruct (IH seen cands) as (seen' & cands' & -> & Hok' & Hin); [by split|done|].
    exists seen', cands'. split; [done|]. split; [done|]. intros j. rewrite Hin, elem_of_cons. apply Hs in E. naive_solver.
  - assert (i ∉ cands) as Hni by (rewrite <-Hs; congruence).
    destruct (IH (<[i:=true]> seen) (cands ++ [i])) as (seen' & cands' & -> & Hok' & Hin); [|done|].
    + split; [by rewrite length_insert| |].
      * intros j. rewrite elem_of_app, list_elem_of_singleton, <-Hs. destruct (decide (i = j)) as [<-|Hne].
        -- rewrite list_lookup_insert_eq by lia. naive_solver.
        -- rewrite list_lookup_insert_ne by done. naive_solver.
      * apply NoDup_app. split; [done|]. split; [|apply NoDup_singleton]. intros j Hj ->%list_elem_of_singleton. done.
    + exists seen', cands'. split; [done|]. split; [done|]. intros j. rewrite Hin, elem_of_app, list_elem_of_singleton, elem_of_cons. tauto.
Qed.
Lemma probe_sigs_ok n (b : gmap Z (list nat)) sigs seen cands :
  (∀ sig i, i ∈ default [] (b !! sig) → i < n)%nat → probe_ok n seen cands →
  ∃ seen' cands', probe_sigs b sigs seen cands = Some (seen', cands') ∧ probe_ok n seen' cands' ∧
    ∀ i, i ∈ cands' ↔ i ∈ cands ∨ ∃ sig, sig ∈ sigs ∧ i ∈ default [] (b !! sig).
Proof.
  intros Hb. revert seen cands. induction sigs as [|sig sigs IH]; intros seen cands Hok.
  { exists seen, cands. split; [done|]. split; [done|]. intros i. split; [by left|]. intros [?|(sig & []%elem_of_nil & _)]. done. }
  cbn [probe_sigs]. assert (∃ seen1 cands1, probe_bucket (default [] (b !! sig)) seen cands = Some (seen1, cands1) ∧
    probe_ok n seen1 cands1 ∧ ∀ i, i ∈ cands1 ↔ i ∈ cands ∨ i ∈ default [] (b !! sig)) as (seen1 & cands1 & E & Hok1 & H1).
  { apply probe_bucket_ok; [done|]. apply Forall_forall. apply Hb. }
  destruct (IH seen1 cands1 Hok1) as (seen' & cands' & E' & Hok' & H').
  exists seen', cands'. split; [|split; [done|]].
  - destruct (b !! sig) as [idxs|]; cbn in E.
    + rewrite E. exact E'.
    + simplify_eq. exact E'.
  - intros i. rewrite H', H1. setoid_rewrite elem_of_cons. naive_solver.
Qed.

(** The entries the probes of a query reach: those whose signature is, in some table, within the radius. *)
Definition near (tables : list (list (list Z))) (query : list Z) (radius : nat) (p : MemoryEntry * list Z) : bool :=
  existsb (λ planes, hamming (plane_signature query planes) (plane_signature p.2 planes) <=? radius)%nat tables.
Definition near_at (idx : AnnIndex) (query : list Z) (radius : nat) (i : nat) : bool :=
  match an_entries idx !! i with Some p => near (an_tables idx) query radius p | None => false end.

Lemma probe_tables_ok entries query radius tables buckets seen cands :
  (radius ≤ 2)%nat → Forall2 (bucket_ok entries) tables buckets → probe_ok (length entries) seen cands →
  ∃ seen' cands', probe_tables query radius tables buckets seen cands = Some (seen', cands') ∧
    probe_ok (length entries) seen' cands' ∧
    ∀ i, i ∈ cands' ↔ i ∈ cands ∨ ∃ p, entries !! i = Some p ∧ near tables query radius p = true.
Proof.
  intros Hr Hb. revert seen cands. induction Hb as [|planes b ts bs [Hl Hb] _ IH]; intros seen cands Hok.
  { exists seen, cands. split; [done|]. split; [done|]. intros i. split; [by left|]. by intros [?|(? & ? & ?)]. }
  cbn [probe_tables].
  destruct (probe_sigs_ok (length entries) b (hamming_ball (plane_signature query planes) radius) seen cands)
    as (seen1 & cands1 & -> & Hok1 & H1); [|done|].
  { intros sig i (e & v & E & _)%Hb. by eapply lookup_lt_Some. }
  cbn. destruct (IH seen1 cands1 Hok1) as (seen' & cands' & -> & Hok' & H').
  exists seen', cands'. split; [done|]. split; [done|]. intros i. rewrite H', H1.
  assert ((∃ sig, sig ∈ hamming_ball (plane_signature query planes) radius ∧ i ∈ default [] (b !! sig)) ↔
    ∃ p, entries !! i = Some p ∧ (hamming (plane_signature query planes) (plane_signature p.2 planes) ≤ radius)%nat) as ->.
  { split.
    - intros (sig & Hs & (e & v & E & <-)%Hb). exists (e, v). split; [done|]. cbn.
      by apply hamming_ball_spec in Hs; [|by apply plane_signature_range..|].
    - intros ([e v] & E & Hh). exists (plane_signature v planes). split.
      + by apply hamming_ball_spec; [apply plane_signature_range..| |].
      + apply Hb. by exists e, v. }
  unfold near. cbn [existsb]. setoid_rewrite orb_true_iff. setoid_rewrite Nat.leb_le. naive_solver.
Qed.

Lemma filter_at {A} (p : A → bool) (m : list A) :
  ∃ f : nat → nat, (∀ i j, i < length (List.filter p m) → j < length (List.filter p m) → i ≤ j ↔ f i ≤ f j)%nat ∧
    (∀ i, i < length (List.filter p m) → List.filter p m !! i = m !! f i)%nat ∧
    f <$> seq 0 (length (List.filter p m)) =
      List.filter (λ i, match m !! i with Some a => p a | None => false end) (seq 0 (length m)).
Proof.
  induction m as [|a m (f & Hm & Hl & Hs)]; [by exists id|]. cbn [List.filter length].
  assert (∀ h, List.filter (λ i, match (a :: m) !! i with Some a => p a | None => false end) (S <$> h) =
               S <$> List.filter (λ i, match m !! i with Some a => p a | None => false end) h) as Hsh
    by (intros h; rewrite list_filter_fmap; done).
  destruct (p a) eqn:E.
  - exists (λ i, match i with O => O | S i' => S (f i') end). cbn [length]. split; [|split].
    + intros [|i] [|j] Hi Hj; [lia..|]. rewrite <-!Nat.succ_le_mono. apply Hm; lia.
    + intros [|i] Hi; [done|]. cbn. apply Hl. lia.
    + cbn [seq fmap list_fmap]. rewrite <-fmap_S_seq, <-list_fmap_compose.
      change (seq 0 (S (length m))) with (0%nat :: seq 1 (length m)). cbn [List.filter]. cbn [lookup list_lookup]. rewrite E.
      rewrite <-(fmap_S_seq 0 (length m)), Hsh, <-Hs, <-list_fmap_compose. done.
  - exists (S ∘ f). split; [|split].
    + intros i j Hi Hj. cbn. rewrite <-Nat.succ_le_mono. by apply Hm.
    + intros i Hi. cbn. by apply Hl.
    + change (seq 0 (S (length m))) with (0%nat :: seq 1 (length m)). cbn [List.filter]. cbn [lookup list_lookup]. rewrite E.
      rewrite <-(fmap_S_seq 0 (length m)), Hsh, <-Hs, <-list_fmap_compose. done.
Qed.

(** On a well-formed index, whatever the order in which the buckets present the entries. *)
Lemma nearest_near idx query k radius :
  ann_ok idx →
  AnnIndex_nearest idx query k radius =
    VectorMemory_nearest (List.filter (near (an_tables idx) query (capped_radius radius)) (an_entries idx)) query k.
Proof.
  intros [Hb Hn _]. unfold AnnIndex_nearest.
  set (nr := near (an_tables idx) query (capped_radius radius)). set (m := List.filter nr (an_entries idx)).
  destruct (bool_decide (an_entries idx = [])) eqn:E1; cbn.
  { apply bool_decide_eq_true in E1. unfold m. rewrite E1. by destruct k. }
  destruct (Nat.eqb_spec k 0) as [->|Hk]; [done|].
  destruct (probe_tables_ok (an_entries idx) query (capped_radius radius) _ _ (replicate (length (an_entries idx)) false) []
    ltac:(unfold capped_radius, ANN_MAX_RADIUS; lia) Hb) as (seen & cands & -> & [_ _ Hnd] & Hin).
  { split; [by rewrite length_replicate| |constructor]. intros i. split; [by intros [? _]%lookup_replicate|by intros ?%elem_of_nil]. }
  cbn.
  assert (mapM (λ i, '(_, emb) ← an_entries idx !! i; Some (cosine query emb, i)) cands =
          Some ((λ i, (sim_at (an_entries idx) query i, i)) <$> cands)) as ->.
  { apply mapM_Some, Forall2_fmap_r, Forall_Forall2_diag, Forall_forall. intros i [[]%elem_of_nil|([e v] & E & _)]%Hin.
    cbn. unfold sim_at. rewrite E. reflexivity. }
  cbn. rewrite best_first_fmap. unfold VectorMemory_nearest. rewrite scores_of, best_first_fmap.
  destruct (filter_at nr (an_entries idx)) as (f & Hm & Hl & Hs). fold m in Hm, Hl, Hs.
  set (sim := sim_at (an_entries idx) query). set (sim' := sim_at m query).
  assert (∀ i, (i < length m)%nat → sim' i = sim (f i)) as Hsim by (intros i Hi; unfold sim, sim', sim_at; by rewrite Hl).
  assert (sort_by (ranks sim) (List.filter (λ i, positive (sim i)) cands) =
          f <$> sort_by (ranks sim') (List.filter (λ i, positive (sim' i)) (seq 0 (length m)))) as ->.
  { rewrite <-(sort_by_fmap f (ranks sim') (ranks sim)).
    - apply sort_by_unique; [apply ranks_total|apply ranks_trans|intros i j _ _; apply ranks_antisym|].
      assert (f <$> List.filter (λ i, positive (sim' i)) (seq 0 (length m)) =
              List.filter (λ i, positive (sim i)) (f <$> seq 0 (length m))) as ->.
      { rewrite list_filter_fmap. f_equal. apply List.filter_ext_in. intros i Hi%in_seq. by rewrite Hsim by lia. }
      apply filter_perm. rewrite Hs. apply NoDup_Permutation; [done| |].
      + apply NoDup_ListNoDup, List.NoDup_filter, NoDup_ListNoDup, NoDup_seq.
      + intros i. rewrite Hin, elem_of_nil, list_elem_of_In, filter_In, in_seq. split.
        * intros [[]|(p & E & Hp)]. rewrite E. split; [|done]. apply lookup_lt_Some in E. lia.
        * intros [_ Hp]. right. destruct (an_entries idx !! i) as [p|]; [|done]. by exists p.
    - intros i j Hi Hj. apply list_elem_of_In, filter_In in Hi as [Hi%in_seq _].
      apply list_elem_of_In, filter_In in Hj as [Hj%in_seq _]. unfold ranks. apply eq_true_iff_eq.
      rewrite !score_le_spec. cbn [fst snd]. rewrite !Hsim by lia. rewrite (Hm i j) by lia. done. }
  rewrite <-fmap_take. apply entries_at_same. intros i Hi. apply Hl.
  apply elem_of_take in Hi as (j & Hj & _). apply list_elem_of_lookup_2 in Hj.
  rewrite sort_by_elem, list_elem_of_In, filter_In, in_seq in Hj. lia.
Qed.

(** An index is recorded into one entry after the other; it keeps those of its dimension, up to its bound. *)
Definition put_all (idx : AnnIndex) (puts : list (MemoryEntry * list Z)) : option AnnIndex :=
  foldl (λ acc p, idx ← acc; snd <$> AnnIndex_put idx p.1 p.2) (Some idx) puts.
Definition kept (dim : nat) (puts : list (MemoryEntry * list Z)) : list (MemoryEntry * list Z) :=
  take (Z.to_nat ANN_MAX_VECTORS) (List.filter (λ p, length p.2 =? dim)%nat puts).

Lemma put_fields idx e v ok idx' :
  AnnIndex_put idx e v = Some (ok, idx') → an_dim idx' = an_dim idx ∧ an_tables idx' = an_tables idx.
Proof.
  unfold AnnIndex_put. destruct (_ || _); [by intros [= _ <-]|].
  destruct (fill_buckets _ _ _ _); [|done]. by intros [= _ <-].
Qed.
Lemma put_all_ok dim puts :
  ∃ idx, put_all (AnnIndex_new dim) puts = Some idx ∧ ann_ok idx ∧ an_dim idx = dim ∧
    an_tables idx = an_tables (AnnIndex_new dim) ∧ an_entries idx = kept dim puts.
Proof.
  induction puts as [|[e v] puts (idx & Hput & Hok & Hd & Ht & He)] using rev_ind.
  { exists (AnnIndex_new dim). split; [done|]. split; [by apply ann_wf|]. split_and!; [done..|]. unfold kept. cbn [List.filter]. by rewrite firstn_nil. }
  unfold put_all in *. rewrite foldl_app, Hput. cbn [foldl fst snd mbind option_bind].
  destruct (proj2 ann_wf idx e v Hok) as (ok & idx' & E & Hok' & Hstep). rewrite E. exists idx'. split; [done|]. split; [done|].
  destruct (put_fields _ _ _ _ _ E) as [-> ->]. split; [done|]. split; [done|].
  unfold AnnIndex_put in E. rewrite He, Hd in *. unfold kept in *. rewrite List.filter_app. cbn [List.filter snd].
  set (l := List.filter _ puts) in *. rewrite length_take in *. set (n := Z.to_nat ANN_MAX_VECTORS) in *.
  assert (Z.of_nat n = ANN_MAX_VECTORS) as Hn by (unfold n; rewrite Z2Nat.id; [done|by vm_compute]).
  destruct (Z.leb_spec ANN_MAX_VECTORS (Z.of_nat (n `min` length l))) as [Hle|Hlt].
  { cbn [orb] in E. injection E as <- <-. rewrite He. rewrite take_app_le by lia. done. }
  destruct (Nat.eqb_spec (length v) dim) as [Hv|Hv]; cbn [orb negb] in E; rewrite (firstn_all2 l) in * by lia.
  - destruct (fill_buckets _ _ _ _); cbn [mbind option_bind] in E; [|discriminate E]. injection E as <- <-. cbn [an_entries].
    symmetry. apply take_ge. rewrite length_app. cbn. lia.
  - injection E as <- <-. rewrite He, app_nil_r. by rewrite firstn_all2 by lia.
Qed.

(** C22: The index is the scan, restricted, and it never panics. Recording any sequence of vectors into a new
    index succeeds and keeps those of its dimension, in order, up to its bound; then for any query, bound
    and radius the search succeeds, and returns what the brute-force scan returns over the kept entries
    whose signature is within the capped radius of the query's in some table, in the same order. *)
Theorem ann_refines_scan dim puts query k radius :
  ∃ idx es, put_all (AnnIndex_new dim) puts = Some idx ∧ an_entries idx = kept dim puts ∧
    AnnIndex_nearest idx query k radius = Some es ∧
    VectorMemory_nearest
      (List.filter (near (an_tables (AnnIndex_new dim)) query (capped_radius radius)) (kept dim puts)) query k = Some es.
Proof.
  destruct (put_all_ok dim puts) as (idx & Hput & Hok & _ & Ht & He).
  destruct (scan_total (List.filter (near (an_tables (AnnIndex_new dim)) query (capped_radius radius)) (kept dim puts)) query k)
    as [es Hes].
  exists idx, es. split; [done|]. split; [done|]. split; [|done]. by rewrite (nearest_near _ _ _ _ Hok), Ht, He.
Qed.

(** ** Selecting context *)

(** A bundle packed from candidates in some order: bounded, and made of the start of their redacted text. *)
Lemma build_bundle_ok ordered total r :
  (length ordered ≤ total)%nat →
  let b := build_bundle ordered total r in
  (length (cb_fragments b) ≤ MAX_CONTEXT_FRAGMENTS)%nat ∧ (bundle_bytes b ≤ MAX_CONTEXT_BUNDLE)%nat ∧
  (length (cb_fragments b) + cb_dropped b = total)%nat ∧
  ∃ ds, ds `sublist_of` ordered ∧
    Forall2 (λ c f, cf_source f = cc_source c ∧ cf_kind f = cc_kind c ∧
                    cf_text f `prefix_of` to_model_visible r (cc_text c) ∧
                    (byte_length (cf_text f) ≤ MAX_FRAGMENT_BYTES)%nat) ds (cb_fragments b).
Proof.
  cbv zeta. intros Hl. unfold build_bundle, bundle_bytes. cbn [cb_fragments cb_dropped].
  destruct (pack_ok r 0 0 ordered) as (H1 & H2 & ds & Hsub & He); [lia..|].
  split; [done|]. split; [done|]. split.
  - pose proof (sublist_length _ _ Hsub). rewrite He, length_fmap. lia.
  - exists ds. split; [done|]. rewrite He. apply Forall2_fmap_r, Forall_Forall2_diag, Forall_forall. intros c _.
    by destruct (fragment_prefix r (cc_text c)).
Qed.

Lemma Forall2_sublist_r {A B} (P : A → B → Prop) l es ds :
  Forall2 P l es → ds `sublist_of` es → ∃ l', l' `sublist_of` l ∧ Forall2 P l' ds.
Proof.
  intros H2 Hsub. revert l H2. induction Hsub as [|c ds es Hsub IH|c ds es Hsub IH]; intros l H2.
  - inversion H2. by exists [].
  - inversion_clear H2 as [|i ? l0 ? Hi H2']. destruct (IH l0 H2') as (l' & Hs & HF).
    exists (i :: l'). split; [by apply sublist_skip|by constructor].
  - inversion_clear H2 as [|i ? l0 ? Hi H2']. destruct (IH l0 H2') as (l' & Hs & HF).
    exists l'. split; [by apply sublist_cons|done].
Qed.
Lemma sorted_sublist {A} (R : A → A → Prop) l' l : l' `sublist_of` l → StronglySorted R l → StronglySorted R l'.
Proof.
  induction 1 as [|x l1 l2 Hl' IH|x l1 l2 Hl' IH]; intros Hs; [constructor| |].
  - inversion_clear Hs as [|? ? Hk Hx]. constructor; [by apply IH|]. rewrite Forall_forall in *. intros y Hy. apply Hx.
    by eapply elem_of_sublist.
  - inversion_clear Hs. by apply IH.
Qed.

(** Selecting context by similarity never panics; the bundle is within its bounds and accounts for
    every candidate; it is made of the start of the redacted text of positively similar candidates,
    best first. *)
Theorem semantic_select_bounded query (cs : list (ContextCandidate * list Z)) r :
  ∃ b l, semantic_select query cs r = Some b ∧
    (length (cb_fragments b) ≤ MAX_CONTEXT_FRAGMENTS)%nat ∧ (bundle_bytes b ≤ MAX_CONTEXT_BUNDLE)%nat ∧
    (length (cb_fragments b) + cb_dropped b = length cs)%nat ∧
    NoDup l ∧ StronglySorted (λ i j, ranks (sim_at cs query) i j = true) l ∧
    Forall2 (λ i f, ∃ c v, cs !! i = Some (c, v) ∧ positive (cosine query v) = true ∧
                    cf_source f = cc_source c ∧ cf_kind f = cc_kind c ∧
                    cf_text f `prefix_of` to_model_visible r (cc_text c) ∧
                    (byte_length (cf_text f) ≤ MAX_FRAGMENT_BYTES)%nat) l (cb_fragments b).
Proof.
  unfold semantic_select. rewrite scores_of, best_first_fmap. set (l := sort_by _ _).
  assert (∀ i, i ∈ l → ∃ c v, cs !! i = Some (c, v) ∧ positive (cosine query v) = true) as Hl.
  { intros i. unfold l. rewrite sort_by_elem, list_elem_of_In, filter_In, in_seq. unfold sim_at. intros [Hi Hp].
    destruct (lookup_lt_is_Some_2 cs i) as [[c v] E]; [lia|]. rewrite E in Hp. eauto. }
  destruct (entries_at_some cs l) as (es & He & H2).
  { apply Forall_forall. intros i (c & v & E & _)%Hl. by eapply lookup_lt_Some. }
  rewrite He. cbn.
  assert (length es ≤ length cs)%nat as Hlen.
  { rewrite <-(Forall2_length _ _ _ H2). unfold l. rewrite sort_by_perm.
    etrans; [apply List.filter_length_le|]. by rewrite length_seq. }
  destruct (build_bundle_ok es (length cs) r Hlen) as (B1 & B2 & B3 & ds & Hsub & HF).
  destruct (Forall2_sublist_r _ _ _ _ H2 Hsub) as (l' & Hl' & Hd).
  exists (build_bundle es (length cs) r), l'. do 4 (split; [done|]). split; [|split].
  - eapply sublist_NoDup; [|exact Hl']. unfold l. rewrite sort_by_perm.
    apply NoDup_ListNoDup, List.NoDup_filter, NoDup_ListNoDup, NoDup_seq.
  - apply (sorted_sublist _ _ _ Hl'), sort_by_le_sorted; [apply ranks_total|apply ranks_trans].
  - assert (Forall (λ i, i ∈ l) l') as Hin by (apply Forall_forall; intros i Hi; by eapply elem_of_sublist).
    revert Hd Hin HF. generalize (cb_fragments (build_bundle es (length cs) r)). intros fs. clear -Hl. intros Hd. revert fs.
    induction Hd as [|i c l' ds (v & E) _ IH]; intros fs Hin HF; inversion HF as [|? f ? fs' Hf HF']; subst; [constructor|].
    apply Forall_cons in Hin as [Hi Hin]. constructor; [|by apply IH].
    destruct (Hl i Hi) as (c' & v' & E' & Hp). rewrite E in E'. injection E' as <- <-.
    exists c, v. by destruct Hf as (? & ? & ? & ?).
Qed.

(** ** Embedders *)

(** The component a token counts for. *)
Definition component (dim : nat) (t : chars) : nat := Z.to_nat (fnv1a (to_utf8 (to_ascii_lowercase t)) mod Z.of_nat dim).
Definition occurrences (dim : nat) (j : nat) (ts : list chars) : nat := length (List.filter (λ t, component dim t =? j)%nat ts).
(** Adding one is exact as far as texts within the bounds of a chunk or a query can go. *)
Lemma f32_succ n : 0 ≤ n < 4096 → f32_add (f32_of_uint n) (f32_of_uint 1) = f32_of_uint (n + 1).
Proof.
  intros Hn. assert (Forall (λ n, f32_add (f32_of_uint n) (f32_of_uint 1) = f32_of_uint (n + 1)) (seqZ 0 4096)) as H
    by (apply (bool_decide_unpack _); by vm_compute).
  rewrite Forall_forall in H. apply H, elem_of_seqZ. lia.
Qed.

(** For a text of at most 4096 tokens, the embedding of the fallback has the dimension asked for and
    counts, in every component, the tokens that hash to it, exactly; at dimension 256 it is the embedder of tests. *)
Theorem fallback_counts text dim :
  (0 < dim)%nat → (length (tokens_of text) ≤ Z.to_nat 4096)%nat →
  length (fallback_embedding text dim) = dim ∧
  (∀ j, (j < dim)%nat → fallback_embedding text dim !! j = Some (f32_of_uint (Z.of_nat (occurrences dim j (tokens_of text))))) ∧
  (dim = EMBED_DIM → fallback_embedding text dim = hash_embed text).
Proof.
  intros Hd Hl. unfold fallback_embedding. rewrite (proj2 (Nat.eqb_neq _ _)) by lia.
  change (λ v t, bump v (Z.to_nat (fnv1a (to_utf8 (to_ascii_lowercase t)) mod Z.of_nat dim))) with (λ v t, bump v (component dim t)).
  assert (∀ ts, (length ts ≤ Z.to_nat 4096)%nat →
    length (fold_left (λ v t, bump v (component dim t)) ts (replicate dim 0)) = dim ∧
    ∀ j, (j < dim)%nat → fold_left (λ v t, bump v (component dim t)) ts (replicate dim 0) !! j =
                         Some (f32_of_uint (Z.of_nat (occurrences dim j ts)))) as H.
  { intros ts. induction ts as [|t ts IH] using rev_ind; intros Hts.
    - split; [apply length_replicate|]. intros j Hj. by apply lookup_replicate_2.
    - rewrite length_app in Hts. cbn in Hts. destruct IH as [I1 I2]; [lia|].
      rewrite fold_left_app. cbn [fold_left]. unfold bump at 1 3. rewrite length_alter. split; [done|].
      intros j Hj. unfold occurrences. rewrite List.filter_app, length_app. cbn [List.filter].
      assert (length (List.filter (λ t, (component dim t =? j)%nat) ts) ≤ length ts)%nat by apply List.filter_length_le.
      destruct (Nat.eqb_spec (component dim t) j) as [->|Hne].
      + rewrite list_lookup_alter_eq, I2 by done. cbn [fmap option_fmap option_map]. rewrite f32_succ by (unfold occurrences; lia).
        cbn [length]. do 2 f_equal. unfold occurrences. lia.
      + rewrite list_lookup_alter_ne, I2 by done. cbn [length]. by rewrite Nat.add_0_r. }
  destruct (H _ Hl) as [H1 H2]. split; [done|]. split; [done|]. by intros ->.
Qed.

Section Net.
Context (show : Z → chars) (parse : chars → option Z).
(** One embedding writes one request and nothing else, and keeps the settings; the vector is the first of the
    reply when there is one, and the fallback's otherwise, of the dimension that was set. *)
Theorem net_embed_exact (e : NetEmbedder) text :
  let '(v, e') := @embed_text _ (NetEmbedder_embed show parse) e text in
  ne_written e' = ne_written e ++ request_line (Embed (mkEmbed (ne_role e) [text] (ne_max_cost_micros e))) ∧
  ne_role e' = ne_role e ∧ ne_fallback_dim e' = ne_fallback_dim e ∧ ne_max_cost_micros e' = ne_max_cost_micros e ∧
  match read_response (FL := F32_bits show parse) (ne_reader e) with
  | (Ok (Some (REmbedding out)), r) =>
      ne_reader e' = r ∧ v = match em_vectors out with v :: _ => v | [] => fallback_embedding text (ne_fallback_dim e) end
  | (_, r) => ne_reader e' = r ∧ v = fallback_embedding text (ne_fallback_dim e)
  end.
Proof.
  unfold embed_text, NetEmbedder_embed, try_embed, embed. unfold net_f32.
  destruct (read_response (ne_reader e)) as [[[[]|]|] r]; cbn; try (by split_and!).
  by destruct (em_vectors e0).
Qed.
End Net.

Module Demo.
Definition one : Z := f32_of_uint 1.
Definition demo_entry (k : Z) : MemoryEntry := mkEntry RepoSummary [k] [] RepoFile.
(** Two entries of dimension two, and one that is refused. *)
Example demo_index :
  (λ i, (an_entries i).*2) <$> put_all (AnnIndex_new 2) [(demo_entry 97, [one; 0]); (demo_entry 99, [one]); (demo_entry 98, [one; one])] =
    Some [[one; 0]; [one; one]] ∧
  (put_all (AnnIndex_new 2) [(demo_entry 97, [one; 0]); (demo_entry 98, [one; one])] ≫= λ i, AnnIndex_nearest i [one; one] 1 1) =
    Some [demo_entry 98].
Proof. split; vm_compute; reflexivity. Qed.
(** A reply whose first vector is empty is taken as it is, and an empty vector is similar to nothing. *)
Definition no_float (s : chars) : option Z := if str_eq s (lit "0") then Some 0 else None.
Example empty_vector_taken :
  let reply := response_line (FL := F32_bits (λ _, lit "0") no_float)
                 (REmbedding (@mkEmbedding (F32_bits (λ _, lit "0") no_float) [[]; [0]] (mkUsage 0 0 0) (lit "p") (lit "m") [])) in
  (@embed_text _ (NetEmbedder_embed (λ _, lit "0") no_float) (NetEmbedder_new [] [reply]) (lit "a query")).1 = [].
Proof. apply (bool_decide_unpack _). by vm_compute. Qed.
End Demo.
