(* ===== verification/Rag.v ===== *)
(** * The retrieval index (crate [crustcore-index-rag])

    Chunks of repository files ([chunk/]), vector stores ([store/]), the indexer ([index.rs]) and the query
    planner ([plan.rs]), over the embeddings of [Embed.v]. The content of a file is its UTF-8 bytes, for the
    chunker slices it by byte offsets; a slice off a character boundary panics, which is [None]. *)

From S2P Require Import Prelude Text Std Cursor Chars Redactor Strings Order Index Embed.

#[local] Open Scope nat_scope.

(** ** Chunk identifiers and tags ([store/mod.rs]) *)

Definition MAX_NEAREST_K : nat := 64.
Definition MAX_STORE_HITS : nat := 256.
Abbreviation ChunkId := chars (only parsing).
Record ByteSpan := mkSpan { bsp_start : nat; bsp_end : nat }.
Definition ByteSpan_new (start end_ : nat) : ByteSpan := mkSpan start (end_ `max` start).
Record ChunkMeta := mkMeta {
  cm_path : chars; cm_span : ByteSpan; cm_symbol : option chars; cm_source : MemorySource; cm_redact_required : bool }.
Definition ChunkMeta_new (path : chars) (span : ByteSpan) (source : MemorySource) : ChunkMeta :=
  mkMeta path span None source true.
Definition with_symbol (m : ChunkMeta) (symbol : chars) : ChunkMeta :=
  mkMeta (cm_path m) (cm_span m) (Some symbol) (cm_source m) (cm_redact_required m).
Definition DEFAULT_NAMESPACE : chars := lit "default".

Abbreviation StoreItem := (chars * list Z * ChunkMeta)%type (only parsing).
Abbreviation StoreHit := (chars * Z * ChunkMeta)%type (only parsing).
Class VectorStore (S : Type) := {
  upsert : list StoreItem → S → S;
  store_nearest : S → list Z → nat → Z → list StoreHit;
  store_delete : chars → S → S;
  set_namespace : chars → S → S;
  namespace : S → chars;
  store_len : S → nat }.

(** ** The chunker ([chunk/mod.rs]) *)

Definition MAX_CHUNK_BYTES : nat := 2048.
Definition DEFAULT_TARGET_BYTES : nat := 1024.
Definition DEFAULT_OVERLAP_BYTES : nat := 128.
Definition MAX_CHUNKS_PER_FILE : nat := 4096.
Record Chunk := mkChunk { ck_id : chars; ck_content : bytes; ck_meta : ChunkMeta }.
Record Chunker := mkChunker { target_bytes : nat; overlap_bytes : nat; max_chunk_bytes : nat }.
Definition Chunker_new : Chunker := mkChunker DEFAULT_TARGET_BYTES DEFAULT_OVERLAP_BYTES MAX_CHUNK_BYTES.
Definition with_target_bytes (c : Chunker) (target : nat) : Chunker :=
  mkChunker ((target `max` 1) `min` max_chunk_bytes c) (overlap_bytes c) (max_chunk_bytes c).
Definition with_overlap_bytes (c : Chunker) (overlap : nat) : Chunker :=
  mkChunker (target_bytes c) (overlap `min` (target_bytes c - 1)) (max_chunk_bytes c).

(** The free function [floor_char_boundary] clamps its index first. *)
Definition floor_boundary (s : bytes) (i : nat) : nat := floor_char_boundary s (i `min` length s).
(** The loop of [next_char_boundary]: at most the rest of the string. *)
Fixpoint next_loop (s : bytes) (fuel i : nat) : nat :=
  match fuel with
  | O => i
  | S f => if (i <? length s)%nat && negb (is_char_boundary s i) then next_loop s f (S i) else i
  end.
Definition next_char_boundary (s : bytes) (i : nat) : nat := next_loop s (length s) ((i + 1) `min` length s).

(** One sub-unit of a unit from [s], and the loop over a unit: a turn consumes a byte at least. *)
Definition subunit_end (c : Chunker) (content : bytes) (s end_ : nat) : nat :=
  let e := (s + max_chunk_bytes c) `min` end_ in
  let e := (floor_boundary content e `max` (s + 1)) `min` end_ in
  let e := floor_boundary content e in
  if (e <=? s)%nat then next_char_boundary content s `min` end_ else e.
Fixpoint subunits (c : Chunker) (content : bytes) (fuel s end_ : nat) : list (nat * nat) :=
  match fuel with
  | O => []
  | S f =>
      if (s <? end_)%nat then let e := subunit_end c content s end_ in (s, e) :: subunits c content f e end_ else []
  end.
Definition bounded_units (c : Chunker) (content : bytes) (units : list (nat * nat)) : list (nat * nat) :=
  units ≫= λ '(start, end_),
    let start := start `min` length content in
    let end_ := end_ `min` length content in
    if (end_ <=? start)%nat then [] else subunits c content (end_ - start) start end_.

(** The units packed behind the first: where the chunk ends, and the first unit left out. The subtraction of
    the source is on [usize]. *)
Fixpoint pack_units (target chunk_start chunk_end j : nat) (rest : list (nat * nat)) : option (nat * nat) :=
  match rest with
  | [] => Some (chunk_end, j)
  | (_, e) :: rest' =>
      if (e <? chunk_start)%nat then None
      else if (target <? e - chunk_start)%nat then Some (chunk_end, j)
      else pack_units target chunk_start e (S j) rest'
  end.
(** Where the next chunk starts: the first unit in the overlap, if any, and always a later one. *)
Definition next_unit (bounded : list (nat * nat)) (i j next_start chunk_start : nat) : nat :=
  let found := find (λ k, match bounded !! k with
                          | Some (s, _) => (next_start <=? s)%nat && (chunk_start <? s)%nat
                          | None => false
                          end) (seq i (j - i)) in
  default j found `max` (i + 1).
Definition chunk_of (path : chars) (content : bytes) (source : MemorySource) (symbol : option chars)
    (span : ByteSpan) : option Chunk :=
  if is_char_boundary content (bsp_start span) && is_char_boundary content (bsp_end span) then
    text ← slice content (bsp_start span) (bsp_end span);
    let meta := ChunkMeta_new path span source in
    Some (mkChunk (path ++ lit "#" ++ dec_u (Z.of_nat (bsp_start span)) ++ lit "-" ++ dec_u (Z.of_nat (bsp_end span)))
            text (match symbol with Some sym => with_symbol meta sym | None => meta end))
  else None.
(** The chunk that starts with a unit, and the unit of the next. *)
Definition next_chunk (c : Chunker) (path : chars) (content : bytes) (source : MemorySource) (symbol : option chars)
    (bounded : list (nat * nat)) (i : nat) (first : nat * nat) : option (Chunk * nat) :=
  let '(chunk_start, e0) := first in
  '(chunk_end, j) ← pack_units (target_bytes c) chunk_start e0 (i + 1) (drop (i + 1) bounded);
  if (chunk_end <? chunk_start)%nat then None else
  let chunk_end :=
    if (max_chunk_bytes c <? chunk_end - chunk_start)%nat then
      floor_boundary content (floor_boundary content (chunk_start + max_chunk_bytes c) `max` (chunk_start + 1))
    else chunk_end in
  chunk ← chunk_of path content source symbol (ByteSpan_new chunk_start chunk_end);
  Some (chunk, next_unit bounded i j (chunk_end - overlap_bytes c) chunk_start).
(** The loop: a turn moves on by a unit at least, and the room for chunks ends it too. *)
Fixpoint pack_chunks (c : Chunker) (path : chars) (content : bytes) (source : MemorySource) (symbol : option chars)
    (bounded : list (nat * nat)) (room i : nat) : option (list Chunk) :=
  match room with
  | O => Some []
  | S room' =>
      match bounded !! i with
      | None => Some []
      | Some first =>
          '(chunk, i') ← next_chunk c path content source symbol bounded i first;
          rest ← pack_chunks c path content source symbol bounded room' i';
          Some (chunk :: rest)
      end
  end.
Definition assemble (c : Chunker) (path : chars) (content : bytes) (units : list (nat * nat)) (source : MemorySource)
    (symbol : option chars) : option (list Chunk) :=
  pack_chunks c path content source symbol (bounded_units c content units) MAX_CHUNKS_PER_FILE 0.

(** The loop over the bytes of a range: a unit ends behind each line feed; what is left is one more. *)
Fixpoint line_loop (start i : nat) (bs : bytes) : list (nat * nat) :=
  match bs with
  | [] => if (start <? i)%nat then [(start, i)] else []
  | b :: bs' => if (b =? 10)%Z then (start, S i) :: line_loop (S i) (S i) bs' else line_loop start (S i) bs'
  end.
Definition line_units (content : bytes) : list (nat * nat) := line_loop 0 0 content.
Definition chunk (c : Chunker) (path : chars) (content : bytes) (source : MemorySource) : option (list Chunk) :=
  assemble c path content (line_units content) source None.

(** ** Symbols ([chunk/symbol.rs]) *)

Record SymbolSpan := mkSymSpan { ss_name : chars; ss_start : nat; ss_end : nat }.
Definition bounded_line_units (content : bytes) (from to : nat) : list (nat * nat) :=
  let from := from `min` length content in
  let to := to `min` length content in
  if (to <=? from)%nat then [] else line_loop from from (take (to - from) (drop from content)).
Definition clamp_span (len : nat) (s : SymbolSpan) : SymbolSpan :=
  mkSymSpan (ss_name s) (ss_start s `min` len) ((ss_end s `min` len) `max` (ss_start s `min` len)).
Definition span_le (a b : SymbolSpan) : bool :=
  (ss_start a <? ss_start b)%nat || ((ss_start a =? ss_start b)%nat && (ss_end a <=? ss_end b)%nat).
Definition clean_spans (len : nat) (symbols : list SymbolSpan) : list SymbolSpan :=
  sort_by span_le (List.filter (λ s, ss_start s <? ss_end s)%nat (clamp_span len <$> symbols)).
Fixpoint symbol_loop (c : Chunker) (path : chars) (content : bytes) (source : MemorySource) (cursor : nat)
    (spans : list SymbolSpan) : option (list Chunk) :=
  match spans with
  | [] =>
      if (cursor <? length content)%nat
      then assemble c path content (bounded_line_units content cursor (length content)) source None
      else Some []
  | s :: spans' =>
      if (ss_start s <? cursor)%nat then symbol_loop c path content source cursor spans' else
      gap ← (if (cursor <? ss_start s)%nat
             then assemble c path content (bounded_line_units content cursor (ss_start s)) source None else Some []);
      region ← assemble c path content [(ss_start s, ss_end s)] source (Some (ss_name s));
      rest ← symbol_loop c path content source (ss_end s) spans';
      Some (gap ++ region ++ rest)
  end.
Definition chunk_with_symbols (c : Chunker) (path : chars) (content : bytes) (source : MemorySource)
    (symbols : list SymbolSpan) : option (list Chunk) :=
  match symbols with
  | [] => chunk c path content source
  | _ => symbol_loop c path content source 0 (clean_spans (length content) symbols)
  end.

Fixpoint line_starts_loop (i : nat) (bs : bytes) : list nat :=
  match bs with
  | [] => []
  | b :: bs' => if (b =? 10)%Z then S i :: line_starts_loop (S i) bs' else line_starts_loop (S i) bs'
  end.
Definition line_start_offsets (content : bytes) : list nat := 0%nat :: line_starts_loop 0 content.
(** [dedup_by_key] on the offset. *)
Fixpoint dedup_offsets (l : list (nat * chars)) : list (nat * chars) :=
  match l with
  | x :: l' =>
      x :: (fix go (last : nat) (l : list (nat * chars)) := match l with
            | y :: l' => if (y.1 =? last)%nat then go last l' else y :: go y.1 l'
            | [] => []
            end) x.1 l'
  | [] => []
  end.
Definition located (content : bytes) (intel : CodeIntel) (names : list chars) : list (nat * chars) :=
  names ≫= λ name, omap (λ sref,
    if (sy_line sref =? 0)%Z then None
    else off ← line_start_offsets content !! (Z.to_nat (sy_line sref) - 1)%nat; Some (off, name)) (intel name).
Fixpoint spans_between (len : nat) (l : list (nat * chars)) : list SymbolSpan :=
  match l with
  | [] => []
  | (start, name) :: l' =>
      let end_ := match l' with (o, _) :: _ => o | [] => len end in
      if (start <? end_)%nat then mkSymSpan name start end_ :: spans_between len l' else spans_between len l'
  end.
Definition symbol_spans_from_intel (content : bytes) (intel : CodeIntel) (names : list chars) : list SymbolSpan :=
  spans_between (length content) (dedup_offsets (sort_by (λ a b, a.1 <=? b.1)%nat (located content intel names))).

(** ** The local store ([store/local.rs]) *)

Record Stored := mkStored { st_embedding : list Z; st_meta : ChunkMeta; st_seq : Z }.
Record LocalVectorStore := mkLocal {
  ls_namespaces : gmap chars (gmap chars Stored); ls_namespace : chars; ls_next_seq : Z }.
Definition LocalVectorStore_new : LocalVectorStore := mkLocal ∅ DEFAULT_NAMESPACE 0.
Definition active (s : LocalVectorStore) : option (gmap chars Stored) := ls_namespaces s !! ls_namespace s.
(** A map in the order of its keys. *)
Definition by_key {A} (m : gmap chars A) : list (chars * A) := sort_by (λ a b, chars_le a.1 b.1) (map_to_list m).

Definition local_insert (st : gmap chars Stored * Z) (item : StoreItem) : gmap chars Stored * Z :=
  let '(id, embedding, meta) := item in (<[id := mkStored embedding meta st.2]> st.1, (st.2 + 1)%Z).
Definition local_upsert (items : list StoreItem) (s : LocalVectorStore) : LocalVectorStore :=
  let '(ns, seq) := fold_left local_insert items (default ∅ (active s), ls_next_seq s) in
  mkLocal (<[ls_namespace s := ns]> (ls_namespaces s)) (ls_namespace s) seq.
(** [floor.max(0.0)], which is zero for a NaN. *)
Definition effective_floor (floor : Z) : Z := if f32_gt floor 0 then floor else 0%Z.
Definition passes (floor score : Z) : bool := positive score && f32_ge score (effective_floor floor).
Definition seq_le {A} (a b : Z * Z * A) : bool :=
  total_lt b.1.1 a.1.1 || ((total_key b.1.1 =? total_key a.1.1)%Z && (a.1.2 <=? b.1.2)%Z).
Definition local_nearest (s : LocalVectorStore) (query : list Z) (k : nat) (floor : Z) : list StoreHit :=
  match active s with
  | None => []
  | Some ns =>
      (λ '(score, _, (id, st)), (id, score, st_meta st)) <$>
      take k (sort_by seq_le (List.filter (λ h, passes floor h.1.1)
        ((λ p, (cosine query (st_embedding p.2), st_seq p.2, p)) <$> by_key ns)))
  end.
Definition local_delete (id : chars) (s : LocalVectorStore) : LocalVectorStore :=
  mkLocal (alter (delete id) (ls_namespace s) (ls_namespaces s)) (ls_namespace s) (ls_next_seq s).
Definition local_set_namespace (ns : chars) (s : LocalVectorStore) : LocalVectorStore :=
  mkLocal (ls_namespaces s) ns (ls_next_seq s).
Definition local_len (s : LocalVectorStore) : nat := match active s with Some ns => size ns | None => 0 end.
#[export] Instance LocalVectorStore_store : VectorStore LocalVectorStore :=
  { upsert := local_upsert; store_nearest := local_nearest; store_delete := local_delete;
    set_namespace := local_set_namespace; namespace := ls_namespace; store_len := local_len }.

(** ** The snapshot of the local store ([store/local.rs], module [persist]) *)

Definition RAG_MAGIC : bytes := lit "CCRG".
Definition RAG_VERSION : Z := 1.
Definition MAX_NAMESPACES : Z := 4 * 1024.
Definition MAX_ENTRIES_PER_NS : Z := 256 * 1024.
Definition MAX_EMBED_DIM : Z := 64 * 1024.
Definition MAX_FIELD_BYTES : Z := 64 * 1024.
Inductive SnapshotError := SnapIo (e : chars) | SnapBadFormat | SnapBadVersion (v : Z) | SnapBadContents.

Definition write_count (n : nat) : result SnapshotError bytes :=
  if (u32_MAX <? Z.of_nat n)%Z then Err SnapBadContents else Ok (to_le_bytes 4 (Z.of_nat n)).
Definition write_field (data : bytes) : result SnapshotError bytes := len ← write_count (length data); Ok (len ++ data).
Definition write_embedding (v : list Z) : result SnapshotError bytes :=
  dim ← write_count (length v); Ok (dim ++ (v ≫= to_le_bytes 4)).
Definition source_to_u8 (s : MemorySource) : Z :=
  match s with RepoFile => 0 | ToolObservation => 1 | PriorRun => 2 | UserNote => 3 end.
Definition u8_to_source (b : Z) : option MemorySource :=
  (if b =? 0 then Some RepoFile else if b =? 1 then Some ToolObservation
   else if b =? 2 then Some PriorRun else if b =? 3 then Some UserNote else None)%Z.
(** The symbol, behind a byte that says whether there is one. *)
Definition write_symbol (symbol : option chars) : result SnapshotError bytes :=
  match symbol with Some sym => f ← write_field (to_utf8 sym); Ok (1%Z :: f) | None => Ok [0%Z] end.
Definition write_meta (m : ChunkMeta) : result SnapshotError bytes :=
  path ← write_field (to_utf8 (cm_path m));
  start ← write_count (bsp_start (cm_span m));
  end_ ← write_count (bsp_end (cm_span m));
  symbol ← write_symbol (cm_symbol m);
  Ok (path ++ start ++ end_ ++ symbol ++ [source_to_u8 (cm_source m); Z.b2z (cm_redact_required m)]).
Definition write_stored (p : chars * Stored) : result SnapshotError bytes :=
  id ← write_field (to_utf8 p.1);
  emb ← write_embedding (st_embedding p.2);
  meta ← write_meta (st_meta p.2);
  Ok (id ++ to_le_bytes 8 (st_seq p.2) ++ emb ++ meta).
(** What a loop writes: the first failure ends it. *)
Fixpoint write_all {A} (f : A → result SnapshotError bytes) (l : list A) : result SnapshotError bytes :=
  match l with
  | [] => Ok []
  | a :: l' => x ← f a; xs ← write_all f l'; Ok (x ++ xs)
  end.
Definition write_namespace (p : chars * gmap chars Stored) : result SnapshotError bytes :=
  name ← write_field (to_utf8 p.1);
  count ← write_count (size p.2);
  entries ← write_all write_stored (by_key p.2);
  Ok (name ++ count ++ entries).
(** [save], up to the write of the file. *)
Definition rag_save (s : LocalVectorStore) : result SnapshotError bytes :=
  name ← write_field (to_utf8 (ls_namespace s));
  count ← write_count (size (ls_namespaces s));
  body ← write_all write_namespace (by_key (ls_namespaces s));
  Ok (RAG_MAGIC ++ [RAG_VERSION] ++ to_le_bytes 8 (ls_next_seq s) ++ name ++ count ++ body).

Definition read_field : Rd chars :=
  len ← read_u32;
  if (MAX_FIELD_BYTES <? len)%Z then rd_fail
  else raw ← cursor_take (Z.to_nat len); mret (chars_of (from_utf8_lossy raw)).
(** [n] times the same reader. *)
Fixpoint read_many {A} (n : nat) (m : Rd A) : Rd (list A) :=
  match n with O => mret [] | S n' => a ← m; l ← read_many n' m; mret (a :: l) end.
Definition read_embedding : Rd (list Z) :=
  dim ← read_u32; if (MAX_EMBED_DIM <? dim)%Z then rd_fail else read_many (Z.to_nat dim) read_u32.
Definition read_bool : Rd bool :=
  b ← read_u8; if (b =? 0)%Z then mret false else if (b =? 1)%Z then mret true else rd_fail.
Definition rd_of {A} (o : option A) : Rd A := match o with Some a => mret a | None => rd_fail end.
Definition read_symbol : Rd (option chars) :=
  present ← read_bool; if present : bool then s ← read_field; mret (Some s) else mret None.
Definition read_meta : Rd ChunkMeta :=
  path ← read_field;
  start ← read_u32;
  end_ ← read_u32;
  symbol ← read_symbol;
  b ← read_u8;
  source ← rd_of (u8_to_source b);
  redact ← read_bool;
  mret (mkMeta path (ByteSpan_new (Z.to_nat start) (Z.to_nat end_)) symbol source redact).
Definition read_stored : Rd (chars * Stored) :=
  id ← read_field;
  seq ← read_u64;
  embedding ← read_embedding;
  meta ← read_meta;
  mret (id, mkStored embedding meta seq).
Definition insert_all {A} (l : list (chars * A)) : gmap chars A := fold_left (λ m p, <[p.1 := p.2]> m) l ∅.
Definition read_namespace : Rd (chars * gmap chars Stored) :=
  name ← read_field;
  count ← read_u32;
  if (MAX_ENTRIES_PER_NS <? count)%Z then rd_fail
  else entries ← read_many (Z.to_nat count) read_stored; mret (name, insert_all entries).
Definition read_body : Rd LocalVectorStore :=
  next_seq ← read_u64;
  active ← read_field;
  count ← read_u32;
  if (MAX_NAMESPACES <? count)%Z then rd_fail
  else namespaces ← read_many (Z.to_nat count) read_namespace;
       mret (mkLocal (insert_all namespaces) (if str_eq active [] then DEFAULT_NAMESPACE else active) next_seq).
Definition rag_decode (bs : bytes) : result SnapshotError LocalVectorStore :=
  match cursor_take 4 (mkCursor bs 0) with
  | None => Err SnapBadFormat
  | Some (magic, c) =>
      if negb (bool_decide (magic = RAG_MAGIC)) then Err SnapBadFormat else
      match read_u8 c with
      | None => Err SnapBadFormat
      | Some (version, c) =>
          if negb (version =? RAG_VERSION)%Z then Err (SnapBadVersion version)
          else match read_body c with Some (s, _) => Ok s | None => Err SnapBadContents end
      end
  end.

(** ** The store of tests ([store/mock.rs]) *)

Record MockHit := mkMockHit { mh_id : chars; mh_score : Z; mh_meta : ChunkMeta }.
Definition MockHit_new (id : chars) (score : Z) (path : chars) : MockHit :=
  mkMockHit id score (ChunkMeta_new path (ByteSpan_new 0 0) RepoFile).
Record MockVectorStore := mkMock {
  mk_upserted : list StoreItem; mk_canned : option (list MockHit); mk_namespace : chars }.
Definition MockVectorStore_new : MockVectorStore := mkMock [] None DEFAULT_NAMESPACE.
Definition with_canned_hits (s : MockVectorStore) (hits : list MockHit) : MockVectorStore :=
  mkMock (mk_upserted s) (Some hits) (mk_namespace s).
Definition mock_nearest (s : MockVectorStore) (query : list Z) (k : nat) (floor : Z) : list StoreHit :=
  match mk_canned s with
  | Some hits => (λ h, (mh_id h, mh_score h, mh_meta h)) <$> hits
  | None =>
      let scored := sort_by (λ a b : Z * nat * StoreItem, score_le a.1 b.1)
        (List.filter (λ h : Z * nat * StoreItem, passes floor h.1.1)
           (imap (λ i item, (cosine query item.1.2, i, item)) (mk_upserted s))) in
      (λ '(score, _, (id, _, meta)), (id, score, meta)) <$> take k scored
  end.
#[export] Instance MockVectorStore_store : VectorStore MockVectorStore :=
  { upsert := λ items s, mkMock (mk_upserted s ++ items) (mk_canned s) (mk_namespace s);
    store_nearest := mock_nearest;
    store_delete := λ id s, mkMock (List.filter (λ p, negb (str_eq p.1.1 id)) (mk_upserted s)) (mk_canned s) (mk_namespace s);
    set_namespace := λ ns s, mkMock (mk_upserted s) (mk_canned s) ns;
    namespace := mk_namespace; store_len := λ s, length (mk_upserted s) }.

(** ** Indexing ([index.rs]) *)

Definition MAX_INDEX_FILES : nat := N.to_nat (64 * 1024).
Definition MAX_INDEX_CHUNKS : Z := 256 * 1024.
Class ChunkResolver (R : Type) := resolve : R → chars → option (chars * list Z).
Record IndexedContent := mkIndexed { by_id : gmap chars (chars * list Z) }.
#[export] Instance IndexedContent_resolver : ChunkResolver IndexedContent := λ r id, by_id r !! id.

Section Indexing.
Context {E S : Type} {EM : Embedder E} {VS : VectorStore S}.
(** What the loops thread: the chunks so far, the resolver, the batch and the embedder. *)
Record IndexState := mkIndexState {
  ix_total : Z; ix_content : gmap chars (chars * list Z); ix_batch : list StoreItem; ix_embedder : E }.
Definition index_chunk (st : IndexState) (c : Chunk) : IndexState :=
  let text := chars_of (ck_content c) in
  let '(v, e) := embed_text (ix_embedder st) text in
  mkIndexState (ix_total st + 1) (<[ck_id c := (text, v)]> (ix_content st)) (ix_batch st ++ [(ck_id c, v, ck_meta c)]) e.
Fixpoint index_chunks (cs : list Chunk) (st : IndexState) : IndexState :=
  match cs with
  | [] => st
  | c :: cs' => if (MAX_INDEX_CHUNKS <=? ix_total st)%Z then st else index_chunks cs' (index_chunk st c)
  end.
Fixpoint index_files (c : Chunker) (source : MemorySource) (files : list (chars * bytes)) (st : IndexState)
  : option IndexState :=
  match files with
  | [] => Some st
  | (path, content) :: files' =>
      cs ← chunk c path content source;
      let st := index_chunks cs st in
      if (MAX_INDEX_CHUNKS <=? ix_total st)%Z then Some st else index_files c source files' st
  end.
Definition index_repo (files : list (chars * bytes)) (c : Chunker) (e : E) (store : S) (source : MemorySource)
  : option (IndexedContent * S * E) :=
  st ← index_files c source (take MAX_INDEX_FILES files) (mkIndexState 0 ∅ [] e);
  Some (mkIndexed (ix_content st), upsert (ix_batch st) store, ix_embedder st).
End Indexing.

(** ** The query planner ([plan.rs]) *)

Definition MAX_QUERY_BYTES : nat := 4096.
Record RetrievalPlan := mkPlan { rp_namespace : chars; rp_k : nat; rp_floor : Z }.
(** [floor.clamp(0.0, 1.0)], of a finite floor. *)
Definition clamp_unit (x : Z) : Z := if f32_gt 0 x then 0%Z else if f32_gt x (f32_of_uint 1) then f32_of_uint 1 else x.
Definition RetrievalPlan_new (ns : chars) (k : nat) (floor : Z) : RetrievalPlan :=
  mkPlan ns ((k `max` 1) `min` MAX_NEAREST_K) (if f32_finite floor then clamp_unit floor else 0%Z).
Definition source_to_kind (s : MemorySource) : MemoryKind :=
  match s with RepoFile | UserNote => Convention | ToolObservation | PriorRun => CommandMemory end.
(** [hits.retain] with a set of the ids seen. *)
Fixpoint dedup_hits (seen : list chars) (hits : list StoreHit) : list StoreHit :=
  match hits with
  | [] => []
  | h :: hits' => if bool_decide (h.1.1 ∈ seen) then dedup_hits seen hits' else h :: dedup_hits (h.1.1 :: seen) hits'
  end.

Section Planner.
Context {E S R : Type} {EM : Embedder E} {VS : VectorStore S} {CR : ChunkResolver R}.
Definition candidate_of (resolver : R) (h : StoreHit) : option (ContextCandidate * list Z) :=
  '(content, emb) ← resolve resolver h.1.1;
  Some (mkCandidate (cm_source h.2) (source_to_kind (cm_source h.2)) content, emb).
Definition planner_run (e : E) (redactor : Redactor) (query : chars) (plan : RetrievalPlan) (store : S) (resolver : R)
  : option ContextBundle * S * E :=
  let '(q, e) := embed_text e (truncated_chars query MAX_QUERY_BYTES) in
  let store := set_namespace (rp_namespace plan) store in
  let k := (rp_k plan `max` 1) `min` MAX_NEAREST_K in
  let hits := dedup_hits [] (take MAX_STORE_HITS (store_nearest store q k (rp_floor plan))) in
  (semantic_select q (omap (candidate_of resolver) hits) redactor, store, e).
End Planner.
