(* ===== verification/RagTheorems.v ===== *)
(** * The retrieval index: theorems

    Chunking never panics on a string, is bounded and loses nothing; a symbol span off a character boundary is
    what makes it panic; indexing stores exactly chunks of the files; a query shows bounded and redacted text
    of resolved chunks, whatever the store returns; a snapshot of the local store is read back as it was. *)

From stdpp Require Import sorting.
From S2P Require Import Prelude Text Std Cursor Chars Redactor Strings Order Index IndexTheorems Embed EmbedTheorems Rag.

#[local] Open Scope nat_scope.
#[local] Opaque MAX_CHUNKS_PER_FILE MAX_CHUNK_BYTES.

(** ** Boundaries of valid text *)

Lemma boundary_join cs1 cs2 :
  Forall is_char cs2 → is_char_boundary (mjoin (cs1 ++ cs2)) (length (mjoin cs1)) = true.
Proof.
  intros H2. rewrite join_app. unfold is_char_boundary. case_decide; [done|].
  rewrite lookup_app_r by done. rewrite Nat.sub_diag. destruct H2 as [|c cs2 (b & bs & -> & Hb & _) _]; cbn.
  - apply bool_decide_eq_true. rewrite length_app. cbn. lia.
  - by rewrite Hb.
Qed.
Lemma char_short c : is_char c → 0 < length c ≤ 4.
Proof.
  intros (b & bs & -> & _ & _ & H). split; [cbn; lia|]. revert H. unfold utf8_head.
  destruct bs as [|b1 [|b2 [|b3 bs]]]; repeat case_match; intros Hh; try discriminate Hh; cbn in *; try lia; injection Hh; lia.
Qed.
(** From a boundary before the end, the next is at most four bytes away. *)
Lemma boundary_next s i :
  is_utf8 s = true → is_char_boundary s i = true → i < length s →
  ∃ k, i < k ≤ i + 4 ∧ k ≤ length s ∧ is_char_boundary s k = true.
Proof.
  intros (cs & -> & Hcs)%is_utf8_chars Hb Hi.
  destruct (boundary_split cs i Hcs ltac:(lia) Hb) as (cs1 & [|c cs2] & Heq & Hl); subst cs.
  { rewrite app_nil_r in Hi. lia. }
  apply Forall_app in Hcs as [Hcs1 [Hc Hcs2]%Forall_cons]. exists (length (mjoin (cs1 ++ [c]))).
  pose proof (char_short c Hc).
  assert (length (mjoin (cs1 ++ [c])) = length (mjoin cs1) + length c) as Hlc
    by (rewrite join_app, length_app; cbn; by rewrite app_nil_r).
  change (c :: cs2) with ([c] ++ cs2). rewrite (app_assoc cs1), Hlc. split; [lia|]. split.
  - rewrite join_app, length_app. lia.
  - rewrite <-Hlc. by apply boundary_join.
Qed.
(** Behind a line feed there is a boundary: no character of more than one byte holds one. *)
Lemma boundary_lf s i : is_utf8 s = true → s !! i = Some 10%Z → is_char_boundary s (S i) = true.
Proof.
  intros (cs & -> & Hcs)%is_utf8_chars Hi.
  assert (∀ cs1, is_char_boundary (mjoin (cs1 ++ cs)) (S (length (mjoin cs1) + i)) = true) as H; [|by apply (H [])].
  revert i Hi. induction Hcs as [|c cs Hc Hcs IH]; intros i Hi cs1; [done|].
  cbn in Hi. destruct (decide (i < length c)) as [Hlt|Hge].
  - rewrite lookup_app_l in Hi by done. assert (length c = 1 ∧ i = 0) as [Hl1 ->].
    { destruct Hc as (b & bs & -> & _ & Hbs & Hh). destruct i as [|i]; cbn in Hi.
      - injection Hi as ->. cbn in Hh. injection Hh as Hh. cbn. lia.
      - apply (Forall_lookup_1 _ _ _ _ Hbs) in Hi. done. }
    change (c :: cs) with ([c] ++ cs). rewrite app_assoc.
    assert (S (length (mjoin cs1) + 0) = length (mjoin (cs1 ++ [c]))) as ->
      by (rewrite join_app, length_app; cbn; rewrite app_nil_r; lia). by apply boundary_join.
  - rewrite lookup_app_r in Hi by lia. specialize (IH _ Hi (cs1 ++ [c])).
    rewrite <-app_assoc in IH. cbn in IH. rewrite <-IH. f_equal. rewrite join_app, length_app. cbn. rewrite app_nil_r. lia.
Qed.

(** ** Chains of spans *)

(** Spans one behind the other from [a] to [b], none empty, each ending at a boundary. *)
Fixpoint chain (content : bytes) (a : nat) (l : list (nat * nat)) (b : nat) : Prop :=
  match l with
  | [] => a = b
  | (s, e) :: l' => s = a ∧ s < e ∧ is_char_boundary content e = true ∧ chain content e l' b
  end.
Lemma chain_app content a l1 m l2 b : chain content a l1 m → chain content m l2 b → chain content a (l1 ++ l2) b.
Proof. revert a. induction l1 as [|[s e] l1 IH]; intros a; cbn; [by intros ->|]. intros (-> & ? & ? & H) H2. eauto. Qed.
Lemma chain_le content a l b : chain content a l b → a ≤ b.
Proof. revert a. induction l as [|[s e] l IH]; intros a; cbn; [lia|]. intros (-> & ? & _ & H%IH). lia. Qed.
Lemma chain_lookup content a l b i s e :
  chain content a l b → l !! i = Some (s, e) → a ≤ s ∧ s < e ∧ e ≤ b ∧ (0 < i → a < s) ∧ (S i = length l → e = b) ∧
    is_char_boundary content e = true ∧ chain content e (drop (S i) l) b.
Proof.
  revert a i. induction l as [|[s0 e0] l IH]; intros a [|i]; cbn [chain lookup list_lookup]; try done.
  - intros (-> & Hlt & Hb & H) [= -> ->]. pose proof (chain_le _ _ _ _ H). split_and!; try lia; try done.
    destruct l; cbn in *; [done|lia].
  - intros (-> & Hlt & Hb & H) Hl. destruct (IH e0 i H Hl) as (? & ? & ? & ? & ? & ? & ?).
    split_and!; try lia; try done. cbn. auto with lia.
Qed.
Lemma chain_order content a l b i j p q :
  chain content a l b → l !! i = Some p → l !! j = Some q → i < j → p.2 ≤ q.1.
Proof.
  intros H Hi Hj Hlt. destruct p as [s e], q as [s' e']. destruct (chain_lookup _ _ _ _ _ _ _ H Hi) as (_ & _ & _ & _ & _ & _ & Hd).
  assert (drop (S i) l !! (j - S i) = Some (s', e')) as Hl by (rewrite lookup_drop; rewrite <-Hj; f_equal; lia).
  by destruct (chain_lookup _ _ _ _ _ _ _ Hd Hl) as (? & _).
Qed.
Lemma chain_boundary content a l b i s e :
  is_char_boundary content a = true → chain content a l b → l !! i = Some (s, e) → is_char_boundary content s = true.
Proof.
  revert a i. induction l as [|[s0 e0] l IH]; intros a [|i]; cbn [chain lookup list_lookup]; try done.
  - by intros Ha (-> & _) [= -> _].
  - intros _ (_ & _ & He & H) Hl. by eapply IH.
Qed.

Lemma line_loop_chain content bs start i :
  start ≤ i → (∀ k, bs !! k = Some 10%Z → is_char_boundary content (S (i + k)) = true) →
  is_char_boundary content (i + length bs) = true → chain content start (line_loop start i bs) (i + length bs).
Proof.
  revert start i. induction bs as [|b bs IH]; intros start i Hle Hlf Hend; cbn [line_loop length].
  - rewrite Nat.add_0_r in *. destruct (Nat.ltb_spec start i); cbn; [done|lia].
  - assert (∀ k, bs !! k = Some 10%Z → is_char_boundary content (S (S i + k)) = true) as Hlf'
      by (intros k Hk; replace (S (S i + k)) with (S (i + S k)) by lia; by apply Hlf).
    cbn [length] in Hend. rewrite Nat.add_succ_r in *. destruct (Z.eqb_spec b 10) as [->|].
    + cbn [chain]. split; [done|]. split; [lia|]. split; [rewrite <-(Nat.add_0_r i); by apply (Hlf 0)|]. apply (IH (S i) (S i)); [lia|exact Hlf'|exact Hend].
    + apply (IH start (S i)); [lia|done|done].
Qed.

(** ** The chunker *)

(** The chunkers the constructors can build. *)
Definition chunker_ok (c : Chunker) : Prop := max_chunk_bytes c = MAX_CHUNK_BYTES ∧ 1 ≤ target_bytes c ≤ max_chunk_bytes c.

Lemma floor_above s a m :
  is_char_boundary s a = true → a ≤ m → m ≤ length s →
  a ≤ floor_boundary s m ∧ floor_boundary s m ≤ m ∧ is_char_boundary s (floor_boundary s m) = true.
Proof.
  intros Ha Hle Hm. unfold floor_boundary. rewrite Nat.min_l by done. destruct (floor_char_boundary_spec s m) as (H1 & H2 & H3).
  split; [|done]. destruct (decide (a ≤ floor_char_boundary s m)); [done|]. rewrite H3 in Ha by lia. done.
Qed.
Lemma floor_same s a : is_char_boundary s a = true → a ≤ length s → floor_boundary s a = a.
Proof. intros Ha Hl. destruct (floor_above s a a Ha (le_n _) Hl) as (? & ? & _). lia. Qed.

Lemma subunit_end_ok c content s end_ :
  4 ≤ max_chunk_bytes c → is_utf8 content = true → is_char_boundary content s = true →
  is_char_boundary content end_ = true → s < end_ → end_ ≤ length content →
  s < subunit_end c content s end_ ≤ end_ ∧ subunit_end c content s end_ ≤ s + max_chunk_bytes c ∧
  is_char_boundary content (subunit_end c content s end_) = true.
Proof.
  intros Hm Hu Hs He Hlt Hle. unfold subunit_end. set (e0 := (s + max_chunk_bytes c) `min` end_).
  destruct (boundary_next content s Hu Hs ltac:(lia)) as (k & Hk & Hkl & Hkb).
  assert (∃ k, s < k ≤ e0 ∧ is_char_boundary content k = true) as (k' & Hk' & Hkb').
  { destruct (decide (k ≤ end_)); [exists k|exists end_]; (split; [lia|done]). }
  destruct (floor_above content k' e0 Hkb' ltac:(lia) ltac:(lia)) as (F1 & F2 & F3).
  rewrite (Nat.max_l (floor_boundary content e0)) by lia. rewrite (Nat.min_l (floor_boundary content e0)) by lia.
  rewrite (floor_same _ _ F3) by lia. destruct (Nat.leb_spec (floor_boundary content e0) s); [lia|]. split; [lia|]. split; [lia|done].
Qed.

(** Spans no longer than the cap. *)
Definition short (max : nat) (l : list (nat * nat)) : Prop := Forall (λ p, p.2 - p.1 ≤ max) l.
Lemma subunits_chain c content fuel s end_ :
  4 ≤ max_chunk_bytes c → is_utf8 content = true → is_char_boundary content s = true →
  is_char_boundary content end_ = true → s ≤ end_ → end_ ≤ length content → end_ - s ≤ fuel →
  chain content s (subunits c content fuel s end_) end_ ∧ short (max_chunk_bytes c) (subunits c content fuel s end_).
Proof.
  intros Hm Hu Hs He Hle Hlen Hf. revert s Hs Hle Hf. induction fuel as [|fuel IH]; intros s Hs Hle Hf; cbn [subunits].
  { split; [cbn; lia|constructor]. }
  destruct (Nat.ltb_spec s end_) as [Hlt|]; [|split; [cbn; lia|constructor]].
  destruct (subunit_end_ok c content s end_ Hm Hu Hs He Hlt Hlen) as (H1 & H2 & H3).
  destruct (IH (subunit_end c content s end_) H3 ltac:(lia) ltac:(lia)) as [I1 I2].
  split; [cbn; split_and!; [done|lia|done|done]|]. constructor; [cbn; lia|done].
Qed.
Lemma bounded_units_chain c content a units b :
  4 ≤ max_chunk_bytes c → is_utf8 content = true → is_char_boundary content a = true → b ≤ length content →
  chain content a units b →
  chain content a (bounded_units c content units) b ∧ short (max_chunk_bytes c) (bounded_units c content units).
Proof.
  intros Hm Hu Ha Hb. revert a Ha. induction units as [|[s e] units IH]; intros a Ha; cbn [chain].
  { intros ->. split; [done|constructor]. }
  intros (-> & Hlt & He & Hc). pose proof (chain_le _ _ _ _ Hc). destruct (IH e He Hc) as [I1 I2].
  change (bounded_units c content ((a, e) :: units)) with
    ((if e `min` length content <=? a `min` length content then []
      else subunits c content (e `min` length content - a `min` length content) (a `min` length content) (e `min` length content))
     ++ bounded_units c content units).
  rewrite !Nat.min_l by lia. destruct (Nat.leb_spec e a); [lia|].
  destruct (subunits_chain c content (e - a) a e Hm Hu Ha He) as [S1 S2]; [lia..|].
  split; [by eapply chain_app|by apply Forall_app].
Qed.

Lemma pack_units_ok content target s e0 j rest b :
  chain content e0 rest b → s < e0 →
  ∃ ce n, pack_units target s e0 j rest = Some (ce, j + n) ∧ n ≤ length rest ∧ chain content ce (drop n rest) b ∧ e0 ≤ ce ∧
    (ce = e0 ∨ ce - s ≤ target).
Proof.
  revert e0 j. induction rest as [|[s1 e1] rest IH]; intros e0 j Hc Hlt; cbn [pack_units].
  { exists e0, 0. rewrite Nat.add_0_r. split_and!; [done|done|done|lia|by left]. }
  destruct Hc as (-> & He & Hb & Hc). destruct (Nat.ltb_spec e1 s); [lia|]. destruct (Nat.ltb_spec target (e1 - s)).
  { exists e0, 0. rewrite Nat.add_0_r. split_and!; [done|cbn; lia|done|lia|by left]. }
  destruct (IH e1 (S j) Hc ltac:(lia)) as (ce & n & -> & Hn & Hd & Hle & Hor).
  exists ce, (S n). split; [f_equal; f_equal; lia|]. split; [cbn; lia|]. split; [done|]. split; [lia|]. right. destruct Hor as [->|]; lia.
Qed.

(** A chunk is a slice of the content at boundaries, within the cap, tagged as what it is. *)
Definition span_of (ck : Chunk) : ByteSpan := cm_span (ck_meta ck).
Record chunk_fine (c : Chunker) (path : chars) (content : bytes) (source : MemorySource) (symbol : option chars)
    (ck : Chunk) : Prop := {
  cf_slice : slice content (bsp_start (span_of ck)) (bsp_end (span_of ck)) = Some (ck_content ck);
  cf_start : is_char_boundary content (bsp_start (span_of ck)) = true;
  cf_end : is_char_boundary content (bsp_end (span_of ck)) = true;
  cf_size : 0 < length (ck_content ck) ≤ max_chunk_bytes c;
  cf_id : ck_id ck = path ++ lit "#" ++ dec_u (Z.of_nat (bsp_start (span_of ck))) ++ lit "-" ++ dec_u (Z.of_nat (bsp_end (span_of ck)));
  cf_meta : ck_meta ck = mkMeta path (span_of ck) symbol source true }.

Lemma chunk_of_ok c path content source symbol s e :
  is_char_boundary content s = true → is_char_boundary content e = true → s < e → e ≤ length content →
  e - s ≤ max_chunk_bytes c →
  ∃ ck, chunk_of path content source symbol (ByteSpan_new s e) = Some ck ∧
    chunk_fine c path content source symbol ck ∧ span_of ck = mkSpan s e.
Proof.
  intros Hs He Hlt Hle Hsz. unfold chunk_of, ByteSpan_new. rewrite Nat.max_l by lia. cbn [bsp_start bsp_end]. rewrite Hs, He. cbn.
  unfold slice. rewrite decide_True by lia. cbn. eexists. split; [done|]. split.
  - split; unfold span_of; destruct symbol; cbn; try done; unfold slice; rewrite ?decide_True by lia; try done;
      rewrite length_take, length_drop; lia.
  - by destruct symbol.
Qed.

Lemma next_unit_ok content a b bounded i j ns s e0 :
  chain content a bounded b → bounded !! i = Some (s, e0) → i < j → j ≤ length bounded →
  let k := next_unit bounded i j ns s in i < k ≤ j.
Proof.
  intros Hc Hi Hlt Hj. unfold next_unit. cbv zeta.
  destruct (find _ _) as [k|] eqn:E; cbn; [|lia]. apply find_some in E as [Hin _]. apply in_seq in Hin. lia.
Qed.

Lemma chain_split content a l b j :
  chain content a l b → ∃ m, chain content a (take j l) m ∧ chain content m (drop j l) b.
Proof.
  revert a j. induction l as [|[s e] l IH]; intros a [|j]; cbn; [by eauto..|].
  intros (-> & Hlt & Hb & H). destruct (IH e j H) as (m & H1 & H2). exists m. done.
Qed.
Lemma chain_start content a a' l b : chain content a l b → chain content a' l b → a = a'.
Proof. destruct l as [|[s e] l]; cbn; [by intros -> ->|]. by intros (-> & _) (-> & _). Qed.

Section Packing.
Context (c : Chunker) (path : chars) (content : bytes) (source : MemorySource) (symbol : option chars).
Context (a b : nat) (bounded : list (nat * nat)).
Context (Hok : chunker_ok c) (Hc : chain content a bounded b) (Hshort : short (max_chunk_bytes c) bounded).
Context (Ha : is_char_boundary content a = true) (Hb : b ≤ length content).

Lemma next_chunk_ok i s e0 :
  bounded !! i = Some (s, e0) →
  ∃ ck i', next_chunk c path content source symbol bounded i (s, e0) = Some (ck, i') ∧
    chunk_fine c path content source symbol ck ∧ bsp_start (span_of ck) = s ∧ bsp_end (span_of ck) ≤ b ∧ i < i' ∧
    (∀ s' e', bounded !! i' = Some (s', e') → s < s' ≤ bsp_end (span_of ck)) ∧
    (bounded !! i' = None → bsp_end (span_of ck) = b).
Proof.
  intros Hi. destruct (chain_lookup _ _ _ _ _ _ _ Hc Hi) as (_ & Hlt & _ & _ & _ & _ & Hd).
  assert (e0 - s ≤ max_chunk_bytes c) as Hsz by (by apply (Forall_lookup_1 _ _ _ _ Hshort) in Hi).
  unfold next_chunk. rewrite (Nat.add_1_r i).
  destruct (pack_units_ok content (target_bytes c) s e0 (S i) _ b Hd Hlt) as (ce & n & -> & Hn & Hdn & Hle & Hor).
  cbn [mbind option_bind]. rewrite length_drop in Hn. rewrite drop_drop in Hdn.
  destruct (Nat.ltb_spec ce s); [lia|]. destruct Hok as [_ Htarget].
  assert (ce - s ≤ max_chunk_bytes c) by (destruct Hor as [->|]; lia).
  destruct (Nat.ltb_spec (max_chunk_bytes c) (ce - s)); [lia|].
  destruct (chain_split _ _ _ _ (S i + n) Hc) as (m & Ht & Hm). rewrite (chain_start _ _ _ _ _ Hm Hdn) in Ht.
  pose proof (chain_le _ _ _ _ Hdn) as Hceb. apply lookup_lt_Some in Hi as Hil.
  assert (is_char_boundary content ce = true) as Hceb'.
  { destruct (lookup_lt_is_Some_2 (take (S i + n) bounded) (i + n)) as [[s1 e1] E]; [rewrite length_take; lia|].
    destruct (chain_lookup _ _ _ _ _ _ _ Ht E) as (_ & _ & _ & _ & Hend & Hbd & _). rewrite <-Hend; [done|].
    rewrite length_take. lia. }
  destruct (chunk_of_ok c path content source symbol s ce) as (ck & -> & Hfine & Hspan);
    [exact (chain_boundary _ _ _ _ _ _ _ Ha Hc Hi)|done|lia|lia|done|].
  cbn. destruct (next_unit_ok content a b bounded i (S i + n) (ce - overlap_bytes c) s e0 Hc Hi) as [N1 N2]; [lia|lia|].
  exists ck, (next_unit bounded i (S i + n) (ce - overlap_bytes c) s). rewrite Hspan. cbn [bsp_start bsp_end].
  split; [done|]. split; [done|]. split; [done|]. split; [lia|]. split; [done|]. split.
  - intros s' e' Hs'. pose proof (chain_order _ _ _ _ _ _ _ _ Hc Hi Hs' N1) as Ho. cbn in Ho. split; [lia|].
    destruct (decide (next_unit bounded i (S i + n) (ce - overlap_bytes c) s < S i + n)) as [Hl|Hl].
    + assert (take (S i + n) bounded !! next_unit bounded i (S i + n) (ce - overlap_bytes c) s = Some (s', e')) as Ht'
        by (by rewrite lookup_take_lt).
      destruct (chain_lookup _ _ _ _ _ _ _ Ht Ht') as (_ & ? & ? & _). lia.
    + replace (next_unit bounded i (S i + n) (ce - overlap_bytes c) s) with (S i + n) in Hs' by lia.
      assert (drop (S i + n) bounded !! 0 = Some (s', e')) as Hd' by (by rewrite lookup_drop, Nat.add_0_r).
      destruct (drop (S i + n) bounded) as [|[s2 e2] l2]; [done|]. destruct Hdn as (-> & _). cbn in Hd'. by injection Hd' as -> _.
  - intros Hnone%lookup_ge_None. rewrite drop_ge in Hdn by lia. exact Hdn.
Qed.

(** The offset in a unit that a chunk which starts there, or later, covers. *)
Definition covered (cs : list Chunk) (p : nat) : Prop := ∃ ck, ck ∈ cs ∧ bsp_start (span_of ck) ≤ p < bsp_end (span_of ck).

Lemma pack_chunks_ok room i :
  ∃ cs, pack_chunks c path content source symbol bounded room i = Some cs ∧ length cs ≤ room ∧
    Forall (chunk_fine c path content source symbol) cs ∧
    Forall (λ ck, match bounded !! i with Some p => p.1 ≤ bsp_start (span_of ck) | None => False end) cs ∧
    StronglySorted (λ k1 k2, bsp_start (span_of k1) < bsp_start (span_of k2)) cs ∧
    (length cs < room → match bounded !! i with Some p => ∀ q, p.1 ≤ q < b → covered cs q | None => True end).
Proof.
  revert i. induction room as [|room IH]; intros i; cbn [pack_chunks].
  { exists []. split; [done|]. split; [done|]. split; [constructor|]. split; [constructor|]. split; [constructor|lia]. }
  destruct (bounded !! i) as [[s e0]|] eqn:Ei.
  2:{ exists []. split; [done|]. split; [cbn; lia|]. repeat first [apply Forall_nil_2|split|constructor]. }
  destruct (next_chunk_ok i s e0 Ei) as (ck & i' & -> & Hf & Hs & Heb & Hi' & Hnext & Hlast). cbn.
  destruct (IH i') as (cs & -> & Hl & HF & Hst & Hsort & Hcov). cbn. exists (ck :: cs). split; [done|]. cbn [length].
  assert (Forall (λ ck', s < bsp_start (span_of ck')) cs) as Hgt.
  { eapply Forall_impl; [exact Hst|]. intros ck' H. cbv beta in H. destruct (bounded !! i') as [[s' e']|]; [|done].
    destruct (Hnext s' e' eq_refl). cbn in H. lia. }
  split; [lia|]. split; [by constructor|]. split.
  { constructor; [cbn; lia|]. eapply Forall_impl; [exact Hgt|]. cbn. lia. }
  split.
  { constructor; [done|]. rewrite Hs. exact Hgt. }
  intros Hroom q Hq. cbn in Hq. destruct (decide (q < bsp_end (span_of ck))) as [Hlt|Hge].
  { exists ck. split; [left|lia]. }
  destruct (bounded !! i') as [[s' e']|] eqn:Ei'.
  - destruct (Hnext s' e' eq_refl) as [? Hle]. destruct (Hcov ltac:(lia) q) as (ck' & Hin & Hp); [cbn; lia|].
    exists ck'. split; [by right|done].
  - rewrite Hlast in Hge by done. lia.
Qed.
End Packing.

#[local] Transparent MAX_CHUNK_BYTES.
Lemma max_four c : chunker_ok c → 4 ≤ max_chunk_bytes c.
Proof. intros [-> _]. unfold MAX_CHUNK_BYTES. lia. Qed.
#[local] Opaque MAX_CHUNK_BYTES.

Lemma assemble_ok c path content source symbol a units b :
  chunker_ok c → is_utf8 content = true → is_char_boundary content a = true → b ≤ length content →
  chain content a units b →
  ∃ cs, assemble c path content units source symbol = Some cs ∧ length cs ≤ MAX_CHUNKS_PER_FILE ∧
    Forall (chunk_fine c path content source symbol) cs ∧
    StronglySorted (λ k1 k2, bsp_start (span_of k1) < bsp_start (span_of k2)) cs ∧
    (length cs < MAX_CHUNKS_PER_FILE → ∀ q, a ≤ q < b → covered cs q).
Proof.
  intros Hok Hu Ha Hb Hc. destruct (bounded_units_chain c content a units b (max_four c Hok) Hu Ha Hb Hc) as [Hbc Hs].
  destruct (pack_chunks_ok c path content source symbol a b _ Hok Hbc Hs Ha Hb MAX_CHUNKS_PER_FILE 0)
    as (cs & E & Hl & HF & _ & Hsort & Hcov).
  exists cs. unfold assemble. do 4 (split; [done|]). intros Hroom q Hq. specialize (Hcov Hroom).
  destruct (bounded_units c content units) as [|[s e] l]; cbn in *; [lia|]. destruct Hbc as (-> & _). by apply Hcov.
Qed.

Lemma line_units_chain content : is_utf8 content = true → chain content 0 (line_units content) (length content).
Proof.
  intros Hu. apply (line_loop_chain content content 0 0); [lia| |].
  - intros k Hk. by apply boundary_lf.
  - unfold is_char_boundary. case_decide; [done|]. rewrite lookup_ge_None_2 by lia. by apply bool_decide_eq_true.
Qed.
Lemma boundary_zero s : is_char_boundary s 0 = true.
Proof. done. Qed.

(** Chunking a file never panics on a string. At most 4096 chunks come out, with rising starts; each is a
    slice of the content from boundary to boundary, at most the cap long and not empty, tagged for redaction and
    named by its path and span; and below that number of chunks every byte of the file is in one of them. *)
Theorem chunk_exact c path content source :
  chunker_ok c → is_utf8 content = true →
  ∃ cs, chunk c path content source = Some cs ∧ length cs ≤ MAX_CHUNKS_PER_FILE ∧
    Forall (chunk_fine c path content source None) cs ∧
    StronglySorted (λ k1 k2, bsp_start (span_of k1) < bsp_start (span_of k2)) cs ∧
    (length cs < MAX_CHUNKS_PER_FILE → ∀ q, q < length content → covered cs q).
Proof.
  intros Hok Hu. destruct (assemble_ok c path content source None 0 (line_units content) (length content))
    as (cs & E & Hl & HF & Hs & Hcov); [done|done|apply boundary_zero|done|by apply line_units_chain|].
  exists cs. do 4 (split; [done|]). intros Hroom q Hq. apply Hcov; [done|lia].
Qed.
(** The chunkers that can be built are such. *)
Lemma chunkers_ok :
  chunker_ok Chunker_new ∧
  (∀ c n, chunker_ok c → chunker_ok (with_target_bytes c n)) ∧ (∀ c n, chunker_ok c → chunker_ok (with_overlap_bytes c n)).
Proof.
  split; [split; [done|]; apply (bool_decide_unpack _); by vm_compute|].
  split; intros c n [H1 H2]; (split; [done|]); cbn; lia.
Qed.

(** ** Symbols *)

Definition span_clean (content : bytes) (s : SymbolSpan) : Prop :=
  is_char_boundary content (ss_start s `min` length content) = true ∧ is_char_boundary content (ss_end s `min` length content) = true.
(** A chunk of a file, tagged with some symbol or none. *)
Definition chunk_some (c : Chunker) (path : chars) (content : bytes) (source : MemorySource) (ck : Chunk) : Prop :=
  ∃ symbol, chunk_fine c path content source symbol ck.

Lemma bounded_lines_chain content from to :
  is_utf8 content = true → is_char_boundary content to = true → from ≤ to → to ≤ length content →
  chain content from (bounded_line_units content from to) to.
Proof.
  intros Hu Ht Hle Hlen. unfold bounded_line_units. rewrite !Nat.min_l by lia. destruct (Nat.leb_spec to from); [cbn; lia|].
  assert (length (take (to - from) (drop from content)) = to - from) as Hl by (rewrite length_take, length_drop; lia).
  pose proof (line_loop_chain content (take (to - from) (drop from content)) from from ltac:(lia)) as Hch.
  rewrite Hl in Hch. replace (from + (to - from)) with to in Hch by lia. apply Hch; [|done].
  intros k Hk. assert (k < to - from) by (apply lookup_lt_Some in Hk; lia).
  rewrite lookup_take_lt, lookup_drop in Hk by done. by apply boundary_lf.
Qed.

(** Every chunk the loop adds is a chunk of the file, and what is behind the cursor is covered while no
    region has more chunks than a file may. *)
Lemma symbol_loop_ok c path content source cursor spans :
  chunker_ok c → is_utf8 content = true → is_char_boundary content cursor = true → cursor ≤ length content →
  Forall (λ s, ss_start s < ss_end s ∧ ss_end s ≤ length content ∧ is_char_boundary content (ss_start s) = true ∧
               is_char_boundary content (ss_end s) = true) spans →
  ∃ cs, symbol_loop c path content source cursor spans = Some cs ∧ Forall (chunk_some c path content source) cs ∧
    (length cs < MAX_CHUNKS_PER_FILE → ∀ q, cursor ≤ q < length content → covered cs q).
Proof.
  intros Hok Hu. revert cursor. induction spans as [|s spans IH]; intros cursor Hcb Hcl HF; cbn [symbol_loop].
  - destruct (Nat.ltb_spec cursor (length content)) as [Hlt|]; [|exists []; split; [done|]; split; [constructor|lia]].
    destruct (assemble_ok c path content source None cursor (bounded_line_units content cursor (length content)) (length content))
      as (cs & E & _ & Hf & _ & Hcov); [done|done|done|done| |].
    { apply bounded_lines_chain; [done| |lia|done]. unfold is_char_boundary. case_decide; [done|].
      rewrite lookup_ge_None_2 by lia. by apply bool_decide_eq_true. }
    exists cs. split; [done|]. split; [|done]. eapply Forall_impl; [exact Hf|]. intros ck H. by exists None.
  - apply Forall_cons in HF as [(Hlt & Hle & Hsb & Heb) HF].
    destruct (Nat.ltb_spec (ss_start s) cursor) as [Hsk|Hge]; [by apply IH|].
    destruct (IH (ss_end s) Heb Hle HF) as (rest & -> & Hfr & Hcr).
    destruct (assemble_ok c path content source (Some (ss_name s)) (ss_start s) [(ss_start s, ss_end s)] (ss_end s))
      as (reg & -> & _ & Hfg & _ & Hcg); [done|done|done|lia|done|].
    assert (∃ gap, (if cursor <? ss_start s then assemble c path content (bounded_line_units content cursor (ss_start s)) source None
                    else Some []) = Some gap ∧ Forall (chunk_fine c path content source None) gap ∧
                   (length gap < MAX_CHUNKS_PER_FILE → ∀ q, cursor ≤ q < ss_start s → covered gap q)) as (gap & -> & Hfp & Hcp).
    { destruct (Nat.ltb_spec cursor (ss_start s)) as [Hc|]; [|exists []; split; [done|]; split; [constructor|lia]].
      destruct (assemble_ok c path content source None cursor (bounded_line_units content cursor (ss_start s)) (ss_start s))
        as (gap & E & _ & Hf & _ & Hcov); [done|done|done|lia|apply bounded_lines_chain; [done|done|lia|lia]|]. by exists gap. }
    cbn. exists (gap ++ reg ++ rest). split; [done|]. split.
    + apply Forall_app. split; [|apply Forall_app; split; [|done]]; (eapply Forall_impl; [eassumption|]); intros ck Hck; by eexists.
    + rewrite !length_app. intros Hroom q Hq.
      destruct (decide (q < ss_start s)); [destruct (Hcp ltac:(lia) q ltac:(lia)) as (ck & ? & ?)|
        destruct (decide (q < ss_end s)); [destruct (Hcg ltac:(lia) q ltac:(lia)) as (ck & ? & ?)|
          destruct (Hcr ltac:(lia) q ltac:(lia)) as (ck & ? & ?)]]; exists ck; (split; [set_solver|done]).
Qed.

(** Chunking by symbols, whatever their spans are (inverted, overlapping, beyond the end), as long as they
    start and end at character boundaries: it never panics, every chunk is a bounded slice of the file, and
    below 4096 chunks every byte of the file is in one. *)
Theorem symbol_chunks_exact c path content source symbols :
  chunker_ok c → is_utf8 content = true → Forall (span_clean content) symbols →
  ∃ cs, chunk_with_symbols c path content source symbols = Some cs ∧ Forall (chunk_some c path content source) cs ∧
    (length cs < MAX_CHUNKS_PER_FILE → ∀ q, q < length content → covered cs q).
Proof.
  intros Hok Hu Hcl. unfold chunk_with_symbols. destruct symbols as [|s0 symbols0] eqn:Es.
  { destruct (chunk_exact c path content source Hok Hu) as (cs & E & _ & HF & _ & Hcov). exists cs. split; [done|].
    split; [|done]. eapply Forall_impl; [exact HF|]. intros ck H. by exists None. }
  rewrite <-Es in *. clear Es s0 symbols0.
  destruct (symbol_loop_ok c path content source 0 (clean_spans (length content) symbols) Hok Hu (boundary_zero _))
    as (cs & E & HF & Hcov); [lia| |].
  - apply Forall_forall. intros s. unfold clean_spans. rewrite sort_by_elem, list_elem_of_In, filter_In, <-list_elem_of_In, list_elem_of_fmap.
    intros [(s1 & -> & Hs1) Hlt%Nat.ltb_lt]. rewrite Forall_forall in Hcl. destruct (Hcl s1 Hs1) as [H1 H2].
    cbn in *. destruct (Nat.max_spec (ss_end s1 `min` length content) (ss_start s1 `min` length content)) as [[? ->]|[? ->]];
      split_and!; try done; lia.
  - exists cs. split; [done|]. split; [done|]. intros Hroom q Hq. apply Hcov; [done|lia].
Qed.

Lemma line_starts_ok content i bs off :
  (∀ k, bs !! k = Some 10%Z → is_char_boundary content (S (i + k)) = true) → i + length bs = length content →
  off ∈ line_starts_loop i bs → is_char_boundary content off = true ∧ off ≤ length content.
Proof.
  revert i. induction bs as [|b bs IH]; intros i Hlf Hl; cbn [line_starts_loop length] in *; [by intros ?%elem_of_nil|].
  assert (∀ k, bs !! k = Some 10%Z → is_char_boundary content (S (S i + k)) = true) as Hlf'
    by (intros k Hk; replace (S (S i + k)) with (S (i + S k)) by lia; by apply Hlf).
  destruct (Z.eqb_spec b 10) as [->|].
  - intros [->|Hin]%elem_of_cons; [|apply (IH (S i)); [done|lia|done]]. split; [|lia].
    rewrite <-(Nat.add_0_r i). by apply (Hlf 0).
  - intros Hin. apply (IH (S i)); [done|lia|done].
Qed.
Lemma dedup_offsets_in l p : p ∈ dedup_offsets l → p ∈ l.
Proof.
  destruct l as [|x l]; [done|]. cbn [dedup_offsets]. intros [->|H]%elem_of_cons; [left|right]. revert H. generalize (x.1) as last.
  induction l as [|y l IH]; intros last; [done|]. destruct (y.1 =? last); [intros H; right; by eapply IH|].
  intros [->|H]%elem_of_cons; [left|right; by eapply IH].
Qed.
Lemma spans_between_in len l s :
  s ∈ spans_between len l → (∃ n, (ss_start s, n) ∈ l) ∧ ss_start s < ss_end s ∧ (ss_end s = len ∨ ∃ n, (ss_end s, n) ∈ l).
Proof.
  induction l as [|[st nm] l IH]; cbn [spans_between]; [by intros ?%elem_of_nil|].
  assert (s ∈ spans_between len l → (∃ n, (ss_start s, n) ∈ (st, nm) :: l) ∧ ss_start s < ss_end s ∧
    (ss_end s = len ∨ ∃ n, (ss_end s, n) ∈ (st, nm) :: l)) as Hrest.
  { intros ((n & Hn) & Hlt & Hor)%IH. split; [exists n; by right|]. split; [done|].
    destruct Hor as [?|(m & Hm)]; [by left|right; exists m; by right]. }
  destruct (Nat.ltb_spec st match l with (o, _) :: _ => o | [] => len end) as [Hlt|]; [|exact Hrest].
  intros [->|Hin]%elem_of_cons; [|by apply Hrest]. cbn. split; [exists nm; left|]. split; [done|].
  destruct l as [|[o m] l]; [by left|right; exists m; right; left].
Qed.

(** The spans derived from a symbol index start at lines of the file and end at lines or at its end, whatever
    the index answers: they are clean, so that chunking by them never panics. *)
Theorem intel_spans_clean c path content source intel names :
  chunker_ok c → is_utf8 content = true →
  Forall (λ s, span_clean content s ∧ ss_start s < ss_end s ≤ length content) (symbol_spans_from_intel content intel names) ∧
  is_Some (chunk_with_symbols c path content source (symbol_spans_from_intel content intel names)).
Proof.
  intros Hok Hu.
  assert (∀ off, off ∈ line_start_offsets content → is_char_boundary content off = true ∧ off ≤ length content) as Hoff.
  { intros off. unfold line_start_offsets. intros [->|Hin]%elem_of_cons; [split; [done|lia]|].
    apply (line_starts_ok content 0 content); [|done|done]. intros k Hk. by apply boundary_lf. }
  assert (is_char_boundary content (length content) = true) as Hend.
  { unfold is_char_boundary. case_decide; [done|]. rewrite lookup_ge_None_2 by lia. by apply bool_decide_eq_true. }
  assert (∀ off n, (off, n) ∈ dedup_offsets (sort_by (λ a b, a.1 <=? b.1) (located content intel names)) →
    is_char_boundary content off = true ∧ off ≤ length content) as Hloc.
  { intros off n. intros H%dedup_offsets_in. rewrite sort_by_elem in H. unfold located in H.
    apply list_elem_of_bind in H as (name & H & _). apply list_elem_of_omap in H as (sref & _ & H).
    destruct (sy_line sref =? 0)%Z; [done|]. destruct (line_start_offsets content !! _) as [o|] eqn:E; [|done].
    cbn in H. injection H as <- _. apply Hoff. by eapply list_elem_of_lookup_2. }
  assert (Forall (λ s, span_clean content s ∧ ss_start s < ss_end s ≤ length content) (symbol_spans_from_intel content intel names)) as HF.
  { apply Forall_forall. intros s ((n & Hn) & Hlt & Hor)%spans_between_in.
    destruct (Hloc _ _ Hn) as [Hb1 Hl1].
    assert (is_char_boundary content (ss_end s) = true ∧ ss_end s ≤ length content) as [Hb2 Hl2]
      by (destruct Hor as [->|(m & Hm)]; [done|by apply (Hloc _ m)]).
    split; [|lia]. unfold span_clean. by rewrite !Nat.min_l by lia. }
  split; [exact HF|].
  destruct (symbol_chunks_exact c path content source (symbol_spans_from_intel content intel names) Hok Hu) as (cs & -> & _); [|by eexists].
  eapply Forall_impl; [exact HF|]. by intros s [? _].
Qed.

(** ** Indexing *)

Section Indexing.
Context {E S : Type} {EM : Embedder E} {VS : VectorStore S}.

(** What the resolver and the batch hold: chunks of the files, in step. *)
Definition from_files (c : Chunker) (source : MemorySource) (files : list (chars * bytes)) (ck : Chunk) : Prop :=
  ∃ path content, (path, content) ∈ files ∧ chunk_fine c path content source None ck.
Record indexed_ok (P : Chunk → Prop) (st : IndexState (E := E)) : Prop := {
  io_total : ix_total st = Z.of_nat (length (ix_batch st));
  io_bound : (ix_total st ≤ MAX_INDEX_CHUNKS)%Z;
  io_batch : Forall (λ p, ∃ ck, P ck ∧ p.1.1 = ck_id ck ∧ p.2 = ck_meta ck ∧
                          is_Some (ix_content st !! ck_id ck)) (ix_batch st);
  io_content : map_Forall (λ id p, ∃ ck, P ck ∧ id = ck_id ck ∧ p.1 = chars_of (ck_content ck)) (ix_content st) }.

Lemma index_chunks_ok P cs st : Forall P cs → indexed_ok P st → indexed_ok P (index_chunks cs st).
Proof.
  intros Hcs. revert st. induction Hcs as [|ck cs Hck _ IH]; intros st Hst; [done|]. cbn [index_chunks].
  destruct (Z.leb_spec MAX_INDEX_CHUNKS (ix_total st)); [done|]. apply IH. destruct Hst as [H1 H2 H3 H4].
  unfold index_chunk. destruct (embed_text (ix_embedder st) (chars_of (ck_content ck))) as [v e]. split; cbn.
  - rewrite H1, length_app. cbn. lia.
  - lia.
  - apply Forall_app. split.
    + eapply Forall_impl; [exact H3|]. intros p (k & Hk & Hid & Hm & Hi). exists k. split_and!; [done..|].
      destruct (decide (ck_id ck = ck_id k)) as [->|Hne]; [rewrite lookup_insert_eq; by eexists|by rewrite lookup_insert_ne].
    + constructor; [|constructor]. exists ck. cbn. rewrite lookup_insert_eq. split_and!; [done..|by eexists].
  - apply map_Forall_insert_2; [|done]. by exists ck.
Qed.
Lemma index_files_ok c source all files st :
  chunker_ok c → Forall (λ f, is_utf8 f.2 = true) files → (∀ f, f ∈ files → f ∈ all) →
  indexed_ok (from_files c source all) st →
  ∃ st', index_files c source files st = Some st' ∧ indexed_ok (from_files c source all) st'.
Proof.
  intros Hok Hu. revert st. induction Hu as [|[path content] files Hf Hu IH]; intros st Hin Hst; [by exists st|].
  cbn [index_files]. destruct (chunk_exact c path content source Hok Hf) as (cs & -> & _ & HF & _). cbn.
  assert (indexed_ok (from_files c source all) (index_chunks cs st)) as Hst'.
  { apply index_chunks_ok; [|done]. eapply Forall_impl; [exact HF|]. intros ck Hck. exists path, content. split; [apply Hin; left|done]. }
  destruct (Z.leb_spec MAX_INDEX_CHUNKS (ix_total (index_chunks cs st))); [by eexists|].
  apply IH; [|done]. intros f Hfi. apply Hin. by right.
Qed.

(** Indexing never panics on files that are strings. It gives the store one batch, of at most the cap, of chunks
    of the files, each of which the resolver resolves; and whatever the resolver resolves is the text of a
    chunk of one of the files, under the id of that chunk. *)
Theorem index_repo_exact files c (e : E) (store : S) source :
  chunker_ok c → Forall (λ f, is_utf8 f.2 = true) files →
  ∃ r batch e', index_repo files c e store source = Some (r, upsert batch store, e') ∧
    (Z.of_nat (length batch) ≤ MAX_INDEX_CHUNKS)%Z ∧
    Forall (λ p, ∃ ck, from_files c source files ck ∧ p.1.1 = ck_id ck ∧ p.2 = ck_meta ck ∧ is_Some (resolve r (ck_id ck))) batch ∧
    ∀ id text v, resolve r id = Some (text, v) → ∃ ck, from_files c source files ck ∧ id = ck_id ck ∧ text = chars_of (ck_content ck).
Proof.
  intros Hok Hu. unfold index_repo.
  destruct (index_files_ok c source files (take MAX_INDEX_FILES files) (mkIndexState 0 ∅ [] e) Hok) as (st & -> & [H1 H2 H3 H4]).
  - by apply Forall_take.
  - intros f Hf. apply elem_of_take in Hf as (i & Hi & _). by eapply list_elem_of_lookup_2.
  - split; cbn; [done|by vm_compute|constructor|apply map_Forall_empty].
  - cbn. eexists _, _, _. split; [done|]. split; [lia|]. split; [done|]. intros id text v Hr.
    destruct (H4 id _ Hr) as (ck & Hck & -> & Ht). cbn in Ht. by exists ck.
Qed.
End Indexing.

(** ** The planner *)


Section Planner.
Context {E S R : Type} {EM : Embedder E} {VS : VectorStore S} {CR : ChunkResolver R}.

End Planner.

(** ** The local store *)

(** In every namespace the sequence numbers are distinct and behind the counter. *)
Record local_ok (s : LocalVectorStore) : Prop := {
  lo_seq : ∀ ns m id st, ls_namespaces s !! ns = Some m → m !! id = Some st → (0 ≤ st_seq st < ls_next_seq s)%Z;
  lo_distinct : ∀ ns m id1 id2 st1 st2, ls_namespaces s !! ns = Some m → m !! id1 = Some st1 → m !! id2 = Some st2 →
    st_seq st1 = st_seq st2 → id1 = id2;
  lo_counter : (0 ≤ ls_next_seq s)%Z }.

Lemma local_insert_ok items m n :
  (0 ≤ n)%Z → (∀ id st, m !! id = Some st → (0 ≤ st_seq st < n)%Z) →
  (∀ id1 id2 st1 st2, m !! id1 = Some st1 → m !! id2 = Some st2 → st_seq st1 = st_seq st2 → id1 = id2) →
  let r := fold_left local_insert items (m, n) in
  (n ≤ r.2)%Z ∧ (∀ id st, r.1 !! id = Some st → (0 ≤ st_seq st < r.2)%Z) ∧
  (∀ id1 id2 st1 st2, r.1 !! id1 = Some st1 → r.1 !! id2 = Some st2 → st_seq st1 = st_seq st2 → id1 = id2).
Proof.
  cbv zeta. revert m n. induction items as [|[[id v] meta] items IH]; intros m n Hn Hm Hd; [done|].
  cbn [fold_left local_insert fst snd].
  destruct (IH (<[id:=mkStored v meta n]> m) (n + 1)%Z) as (I1 & I2 & I3); [lia| | |split; [lia|done]].
  - intros id' st. rewrite lookup_insert_Some. intros [[<- <-]|[_ H%Hm]]; cbn; lia.
  - intros id1 id2 st1 st2. rewrite !lookup_insert_Some.
    intros [[<- <-]|[H1 H1']] [[<- <-]|[H2 H2']]; cbn; [done| | |by eapply Hd].
    + apply Hm in H2'. lia.
    + apply Hm in H1'. lia.
Qed.

(** The local store keeps its invariant: in every namespace the sequence numbers, by which ties are broken, are
    distinct, so that results are deterministic. And the other namespaces are not touched by an operation on the active one. *)
Theorem local_invariant :
  local_ok LocalVectorStore_new ∧
  (∀ s items, local_ok s → local_ok (local_upsert items s)) ∧
  (∀ s id, local_ok s → local_ok (local_delete id s)) ∧
  (∀ s ns, local_ok s → local_ok (local_set_namespace ns s)) ∧
  (∀ s items id ns, ns ≠ ls_namespace s → ls_namespaces (local_upsert items s) !! ns = ls_namespaces s !! ns ∧
                                         ls_namespaces (local_delete id s) !! ns = ls_namespaces s !! ns).
Proof.
  split; [split; cbn; [intros ns m id st; by rewrite lookup_empty|intros ns m id1 id2 st1 st2; by rewrite lookup_empty|done]|].
  split; [|split; [|split; [by intros s ns [H1 H2 H3]; split|]]].
  - intros s items [H1 H2 H3]. unfold local_upsert, active.
    destruct (local_insert_ok items (default ∅ (ls_namespaces s !! ls_namespace s)) (ls_next_seq s)) as (I1 & I2 & I3); [done| | |].
    + intros id st. destruct (ls_namespaces s !! ls_namespace s) as [m|] eqn:E; cbn; [apply (H1 _ m id st E)|by rewrite lookup_empty].
    + intros id1 id2 st1 st2. destruct (ls_namespaces s !! ls_namespace s) as [m|] eqn:E; cbn; [apply (H2 _ m id1 id2 st1 st2 E)|by rewrite lookup_empty].
    + destruct (fold_left local_insert items _) as [m n]. cbn in *. split; cbn.
      * intros ns m' id st. rewrite lookup_insert_Some. intros [[<- <-]|[_ Hm']] Hst; [by apply (I2 id)|].
        specialize (H1 _ _ _ _ Hm' Hst). lia.
      * intros ns m' id1 id2 st1 st2. rewrite lookup_insert_Some. intros [[<- <-]|[_ Hm']]; [apply I3|by apply (H2 ns m')].
      * lia.
  - intros s id [H1 H2 H3]. split; cbn; [| |done].
    + intros ns m id' st. rewrite lookup_alter_Some. intros [(<- & m0 & Hm0 & ->)|[_ Hm]]; [|by apply (H1 ns m)].
      intros [_ Hst]%lookup_delete_Some. by apply (H1 (ls_namespace s) m0 id').
    + intros ns m id1 id2 st1 st2. rewrite lookup_alter_Some. intros [(<- & m0 & Hm0 & ->)|[_ Hm]]; [|by apply (H2 ns m)].
      intros [_ Hst1]%lookup_delete_Some [_ Hst2]%lookup_delete_Some. by apply (H2 (ls_namespace s) m0).
  - intros s items id ns Hne. unfold local_upsert, local_delete. destruct (fold_left local_insert items _) as [m n]. cbn.
    rewrite lookup_insert_ne, lookup_alter_ne by done. done.
Qed.

Definition hit_rank (query : list Z) (p : chars * Stored) : Z * Z * (chars * Stored) :=
  (cosine query (st_embedding p.2), st_seq p.2, p).
Lemma seq_le_total {A} (a b : Z * Z * A) : seq_le a b = false → seq_le b a = true.
Proof.
  unfold seq_le, total_lt. destruct (Z.ltb_spec (total_key b.1.1) (total_key a.1.1)); [done|].
  destruct (Z.eqb_spec (total_key b.1.1) (total_key a.1.1)) as [->|]; cbn.
  - rewrite Z.ltb_irrefl, Z.eqb_refl. cbn. rewrite Z.leb_gt, Z.leb_le. lia.
  - intros _. rewrite (proj2 (Z.ltb_lt _ _)) by lia. done.
Qed.
Lemma seq_le_trans {A} (a b c : Z * Z * A) : seq_le a b = true → seq_le b c = true → seq_le a c = true.
Proof. unfold seq_le, total_lt. rewrite !orb_true_iff, !andb_true_iff, !Z.ltb_lt, !Z.eqb_eq, !Z.leb_le. lia. Qed.

(** A query of the local store returns the first [k] of one list of the entries of the active namespace, in
    which an entry is exactly when its similarity is positive and not below the floor, and once, sorted by
    falling similarity and by age where two are as similar. *)
Theorem local_nearest_exact s query k floor :
  ∃ l : list (chars * Stored),
    local_nearest s query k floor = (λ p, (p.1, cosine query (st_embedding p.2), st_meta p.2)) <$> take k l ∧
    NoDup l ∧ StronglySorted (λ p q, seq_le (hit_rank query p) (hit_rank query q) = true) l ∧
    ∀ id st, (id, st) ∈ l ↔ (∃ m, active s = Some m ∧ m !! id = Some st) ∧ passes floor (cosine query (st_embedding st)) = true.
Proof.
  unfold local_nearest. destruct (active s) as [m|]; [|exists []; split; [by rewrite take_nil|]; split; [constructor|];
    split; [constructor|]; intros id st; rewrite elem_of_nil; naive_solver].
  change (λ p, (cosine query (st_embedding p.2), st_seq p.2, p)) with (hit_rank query).
  rewrite list_filter_fmap, (sort_by_fmap (hit_rank query) (λ p q, seq_le (hit_rank query p) (hit_rank query q)) seq_le) by done.
  exists (sort_by (λ p q, seq_le (hit_rank query p) (hit_rank query q)) (List.filter (λ a, passes floor (hit_rank query a).1.1) (by_key m))).
  rewrite <-fmap_take, <-list_fmap_compose. split; [apply list_fmap_ext; by intros ? [id st] _|].
  assert (NoDup (by_key m)) as Hnd by (unfold by_key; rewrite sort_by_perm; apply NoDup_map_to_list).
  split; [|split].
  - rewrite sort_by_perm. by apply NoDup_ListNoDup, List.NoDup_filter, NoDup_ListNoDup.
  - apply sort_by_le_sorted; [intros p q; apply seq_le_total|intros p q r; apply seq_le_trans].
  - intros id st. rewrite sort_by_elem, list_elem_of_In, filter_In, <-list_elem_of_In. unfold by_key.
    rewrite sort_by_elem, elem_of_map_to_list. cbn. naive_solver.
Qed.

(** ** The snapshot *)

#[local] Opaque MAX_FIELD_BYTES MAX_EMBED_DIM MAX_ENTRIES_PER_NS MAX_NAMESPACES.

(** What the caps of a load allow. *)
Definition field_ok (s : chars) : Prop := Forall is_scalar s ∧ (Z.of_nat (byte_length s) ≤ MAX_FIELD_BYTES)%Z.
Record meta_ok (m : ChunkMeta) : Prop := {
  mo_path : field_ok (cm_path m);
  mo_symbol : match cm_symbol m with Some s => field_ok s | None => True end;
  mo_span : bsp_start (cm_span m) ≤ bsp_end (cm_span m) ∧ (Z.of_nat (bsp_end (cm_span m)) ≤ u32_MAX)%Z }.
Record stored_ok (p : chars * Stored) : Prop := {
  so_id : field_ok p.1;
  so_dim : (Z.of_nat (length (st_embedding p.2)) ≤ MAX_EMBED_DIM)%Z;
  so_bits : Forall (is_uint 32) (st_embedding p.2);
  so_meta : meta_ok (st_meta p.2);
  so_seq : is_uint 64 (st_seq p.2) }.
Definition namespace_ok (p : chars * gmap chars Stored) : Prop :=
  field_ok p.1 ∧ (Z.of_nat (size p.2) ≤ MAX_ENTRIES_PER_NS)%Z ∧ Forall stored_ok (by_key p.2).
Record snapshot_ok (s : LocalVectorStore) : Prop := {
  sn_active : field_ok (ls_namespace s) ∧ ls_namespace s ≠ [];
  sn_count : (Z.of_nat (size (ls_namespaces s)) ≤ MAX_NAMESPACES)%Z;
  sn_spaces : Forall namespace_ok (by_key (ls_namespaces s));
  sn_seq : is_uint 64 (ls_next_seq s) }.

(** A writer and a reader of one thing. *)
Definition writes {A} (w : result SnapshotError bytes) (m : Rd A) (a : A) : Prop := ∃ bs, w = Ok bs ∧ reads m bs a.

#[local] Transparent MAX_FIELD_BYTES MAX_EMBED_DIM MAX_ENTRIES_PER_NS MAX_NAMESPACES.
Lemma caps_u32 : (MAX_FIELD_BYTES ≤ u32_MAX ∧ MAX_EMBED_DIM ≤ u32_MAX ∧ MAX_ENTRIES_PER_NS ≤ u32_MAX ∧ MAX_NAMESPACES ≤ u32_MAX)%Z.
Proof. unfold MAX_FIELD_BYTES, MAX_EMBED_DIM, MAX_ENTRIES_PER_NS, MAX_NAMESPACES, u32_MAX. lia. Qed.
#[local] Opaque MAX_FIELD_BYTES MAX_EMBED_DIM MAX_ENTRIES_PER_NS MAX_NAMESPACES.

Lemma write_count_ok n : (Z.of_nat n ≤ u32_MAX)%Z → write_count n = Ok (to_le_bytes 4 (Z.of_nat n)) ∧ reads read_u32 (to_le_bytes 4 (Z.of_nat n)) (Z.of_nat n).
Proof.
  intros Hn. unfold write_count. destruct (Z.ltb_spec u32_MAX (Z.of_nat n)); [lia|]. split; [done|].
  apply reads_u32. unfold is_uint, u32_MAX in *. lia.
Qed.
Lemma writes_field s : field_ok s → writes (write_field (to_utf8 s)) read_field s.
Proof.
  intros [Hs Hl]. destruct caps_u32 as (Hc & _). unfold byte_length in Hl.
  destruct (write_count_ok (length (to_utf8 s)) ltac:(lia)) as [E Hr]. unfold writes, write_field. rewrite E. cbn.
  eexists. split; [done|]. eapply reads_bind; [exact Hr|]. cbn beta.
  destruct (Z.ltb_spec MAX_FIELD_BYTES (Z.of_nat (length (to_utf8 s)))); [lia|]. rewrite Nat2Z.id.
  assert (chars_of (from_utf8_lossy (to_utf8 s)) = s) as Hrt.
  { rewrite lossy_valid by (by apply to_utf8_valid). by apply chars_of_to_utf8. }
  assert (reads (raw ← cursor_take (length (to_utf8 s)); mret (chars_of (from_utf8_lossy raw))) (to_utf8 s)
    (chars_of (from_utf8_lossy (to_utf8 s)))) as Hx by (apply (reads_map _ (λ raw, chars_of (from_utf8_lossy raw))); by apply reads_take).
  rewrite Hrt in Hx. exact Hx.
Qed.
Lemma reads_many {A} (m : Rd A) (bss : list bytes) (l : list A) :
  Forall2 (reads m) bss l → reads (read_many (length l) m) (mjoin bss) l.
Proof.
  induction 1 as [|bs a bss l Hr _ IH]; cbn [read_many length mjoin list_join]; [apply reads_ret|].
  eapply reads_bind; [exact Hr|]. rewrite <-(app_nil_r (mjoin bss)). eapply reads_bind; [exact IH|]. apply reads_ret.
Qed.
Lemma writes_all {A} (w : A → result SnapshotError bytes) (m : Rd A) l :
  Forall (λ a, writes (w a) m a) l → writes (write_all w l) (read_many (length l) m) l.
Proof.
  intros HF. assert (∃ bss, write_all w l = Ok (mjoin bss) ∧ Forall2 (reads m) bss l) as (bss & E & H2).
  { induction HF as [|a l (bs & E & Hr) _ (bss & E2 & H2)]; [by exists []|]. exists (bs :: bss). cbn [write_all].
    rewrite E. cbn. rewrite E2. cbn. split; [done|by constructor]. }
  exists (mjoin bss). split; [exact E|]. by apply reads_many.
Qed.

Lemma writes_embedding v :
  (Z.of_nat (length v) ≤ MAX_EMBED_DIM)%Z → Forall (is_uint 32) v → writes (write_embedding v) read_embedding v.
Proof.
  intros Hl Hv. destruct caps_u32 as (_ & Hc & _). destruct (write_count_ok (length v) ltac:(lia)) as [E Hr].
  unfold writes, write_embedding. rewrite E. cbn. eexists. split; [done|]. eapply reads_bind; [exact Hr|]. cbn beta.
  destruct (Z.ltb_spec MAX_EMBED_DIM (Z.of_nat (length v))); [lia|]. rewrite Nat2Z.id.
  assert (Forall2 (reads read_u32) (to_le_bytes 4 <$> v) v) as H2.
  { apply Forall2_fmap_l, Forall_Forall2_diag. eapply Forall_impl; [exact Hv|]. intros x Hx. by apply reads_u32. }
  pose proof (reads_many _ _ _ H2) as Hm.
  assert (mjoin (to_le_bytes 4 <$> v) = v ≫= to_le_bytes 4) as <-; [|exact Hm].
  clear. induction v as [|x v IH]; [done|]. cbn. by f_equal.
Qed.
Lemma reads_rag_bool b : reads read_bool [Z.b2z b] b.
Proof. unfold read_bool. apply reads_cons; [by destruct b|]. destruct b; apply reads_ret. Qed.
Lemma writes_symbol o : match o with Some s => field_ok s | None => True end → writes (write_symbol o) read_symbol o.
Proof.
  intros Ho. unfold writes, write_symbol, read_symbol. destruct o as [sym|].
  - destruct (writes_field _ Ho) as (bf & -> & Rf). cbn. eexists. split; [done|].
    change (1%Z :: bf) with ([Z.b2z true] ++ bf). eapply reads_bind; [apply reads_rag_bool|]. cbn. by apply reads_map.
  - exists [0%Z]. split; [done|]. change [0%Z] with ([Z.b2z false] ++ []). eapply reads_bind; [apply reads_rag_bool|]. apply reads_ret.
Qed.
Lemma writes_meta m : meta_ok m → writes (write_meta m) read_meta m.
Proof.
  intros [Hp Hsym [Hle Hend]]. destruct (writes_field _ Hp) as (bp & Ep & Rp).
  destruct (write_count_ok (bsp_start (cm_span m)) ltac:(lia)) as [Es Rs].
  destruct (write_count_ok (bsp_end (cm_span m)) Hend) as [Ee Re]. destruct (writes_symbol _ Hsym) as (bsy & Esy & Rsy).
  unfold writes, write_meta. rewrite Ep. cbn [mbind result_bind]. rewrite Es. cbn [mbind result_bind].
  rewrite Ee. cbn [mbind result_bind]. rewrite Esy. cbn [mbind result_bind]. eexists. split; [done|].
  unfold read_meta. eapply reads_bind; [exact Rp|]. eapply reads_bind; [exact Rs|]. eapply reads_bind; [exact Re|].
  eapply reads_bind; [exact Rsy|].
  apply reads_cons; [by destruct (cm_source m)|]. change [Z.b2z (cm_redact_required m)] with ([] ++ [Z.b2z (cm_redact_required m)]). eapply reads_bind.
  { assert (u8_to_source (source_to_u8 (cm_source m)) = Some (cm_source m)) as -> by (by destruct (cm_source m)). apply reads_ret. }
  rewrite <-(app_nil_r [_]). eapply reads_bind; [apply reads_rag_bool|].
  rewrite !Nat2Z.id. unfold ByteSpan_new. rewrite Nat.max_l by done.
  destruct m as [p [st en] sy so re]. cbn. apply reads_ret.
Qed.
Lemma writes_stored p : stored_ok p → writes (write_stored p) read_stored p.
Proof.
  intros [Hid Hdim Hbits Hmeta Hseq]. destruct (writes_field _ Hid) as (bi & Ei & Ri).
  destruct (writes_embedding _ Hdim Hbits) as (be & Ee & Re). destruct (writes_meta _ Hmeta) as (bm & Em & Rm).
  unfold writes, write_stored. rewrite Ei. cbn [mbind result_bind]. rewrite Ee. cbn [mbind result_bind].
  rewrite Em. cbn [mbind result_bind]. eexists. split; [done|]. unfold read_stored.
  eapply reads_bind; [exact Ri|]. eapply reads_bind; [by apply reads_u64|]. eapply reads_bind; [exact Re|].
  rewrite <-(app_nil_r bm). eapply reads_bind; [exact Rm|]. destruct p as [id [v m q]]. apply reads_ret.
Qed.

Lemma insert_all_union {A} (l : list (chars * A)) (m0 : gmap chars A) :
  NoDup l.*1 → fold_left (λ m p, <[p.1 := p.2]> m) l m0 = list_to_map l ∪ m0.
Proof.
  revert m0. induction l as [|[k a] l IH]; intros m0 Hnd; cbn [fold_left].
  - cbn. by rewrite (left_id_L ∅ (∪)).
  - cbn in Hnd. apply NoDup_cons in Hnd as [Hk Hnd]. rewrite IH by done. cbn [list_to_map fst snd]. cbn.
    rewrite <-insert_union_l, insert_union_r; [done|]. by apply not_elem_of_list_to_map_1.
Qed.
Lemma by_key_keys {A} (m : gmap chars A) : by_key m ≡ₚ map_to_list m.
Proof. apply sort_by_perm. Qed.
Lemma insert_all_by_key {A} (m : gmap chars A) : insert_all (by_key m) = m.
Proof.
  assert (NoDup (by_key m).*1) as Hnd by (rewrite by_key_keys; apply NoDup_fst_map_to_list).
  unfold insert_all. rewrite insert_all_union by done. rewrite (right_id_L ∅ (∪)).
  by rewrite (list_to_map_proper _ _ Hnd (by_key_keys m)), list_to_map_to_list.
Qed.
Lemma by_key_length {A} (m : gmap chars A) : length (by_key m) = size m.
Proof. rewrite by_key_keys. apply length_map_to_list. Qed.

Lemma writes_namespace p : namespace_ok p → writes (write_namespace p) read_namespace p.
Proof.
  intros (Hn & Hc & HF). destruct caps_u32 as (_ & _ & Hmax & _). destruct (writes_field _ Hn) as (bn & En & Rn).
  destruct (write_count_ok (size p.2) (Z.le_trans _ _ _ Hc Hmax)) as [Ec Rc].
  destruct (writes_all write_stored read_stored (by_key p.2)) as (bs & Es & Rs).
  { eapply Forall_impl; [exact HF|]. intros q. apply writes_stored. }
  unfold writes, write_namespace. rewrite En. cbn [mbind result_bind]. rewrite Ec. cbn [mbind result_bind].
  rewrite Es. cbn [mbind result_bind]. eexists. split; [done|]. unfold read_namespace.
  eapply reads_bind; [exact Rn|]. eapply reads_bind; [exact Rc|]. cbn beta.
  destruct (Z.ltb_spec MAX_ENTRIES_PER_NS (Z.of_nat (size p.2))); [lia|]. rewrite Nat2Z.id, <-by_key_length.
  rewrite <-(app_nil_r bs). eapply reads_bind; [exact Rs|]. rewrite insert_all_by_key. destruct p. apply reads_ret.
Qed.

(** A store within the caps is saved, and loaded again as it was, whatever follows in the file. *)
Theorem rag_snapshot_roundtrip s R :
  snapshot_ok s → ∃ bs, rag_save s = Ok bs ∧ rag_decode (bs ++ R) = Ok s.
Proof.
  intros [[Ha Hne] Hc HF Hq]. destruct caps_u32 as (_ & _ & _ & Hmax). destruct (writes_field _ Ha) as (bn & En & Rn).
  destruct (write_count_ok (size (ls_namespaces s)) (Z.le_trans _ _ _ Hc Hmax)) as [Ec Rc].
  destruct (writes_all write_namespace read_namespace (by_key (ls_namespaces s))) as (bs & Es & Rs).
  { eapply Forall_impl; [exact HF|]. intros q. apply writes_namespace. }
  unfold rag_save. rewrite En. cbn [mbind result_bind]. rewrite Ec. cbn [mbind result_bind]. rewrite Es. cbn [mbind result_bind].
  eexists. split; [done|]. rewrite <-!app_assoc. unfold rag_decode. set (all := RAG_MAGIC ++ _).
  destruct (reads_take 4 RAG_MAGIC eq_refl (mkCursor all 0) _ ltac:(cbn; lia) eq_refl) as (c1 & -> & Hc1 & Hr1).
  rewrite bool_decide_eq_true_2 by done. cbn [negb].
  destruct (reads_u8 RAG_VERSION ltac:(unfold RAG_VERSION; lia) c1 _ Hc1 Hr1) as (c2 & -> & Hc2 & Hr2). rewrite Z.eqb_refl. cbn [negb].
  assert (reads read_body (to_le_bytes 8 (ls_next_seq s) ++ bn ++ to_le_bytes 4 (Z.of_nat (size (ls_namespaces s))) ++ bs) s) as Hb.
  { unfold read_body. eapply reads_bind; [by apply reads_u64|]. eapply reads_bind; [exact Rn|]. eapply reads_bind; [exact Rc|]. cbn beta.
    destruct (Z.ltb_spec MAX_NAMESPACES (Z.of_nat (size (ls_namespaces s)))); [lia|]. rewrite Nat2Z.id, <-by_key_length.
    rewrite <-(app_nil_r bs). eapply reads_bind; [exact Rs|]. rewrite insert_all_by_key.
    unfold str_eq. rewrite bool_decide_eq_false_2 by done. destruct s. apply reads_ret. }
  destruct (Hb c2 R Hc2) as (c3 & -> & _); [by rewrite Hr2, <-!app_assoc|done].
Qed.

(** A store with the empty name for its active namespace is saved, and comes back in another one; a path
    beyond the cap of a field is saved, and cannot be loaded. *)
Theorem rag_snapshot_limits :
  (∃ bs s, rag_save (local_set_namespace [] LocalVectorStore_new) = Ok bs ∧ rag_decode bs = Ok s ∧ ls_namespace s = DEFAULT_NAMESPACE) ∧
  (∀ ns, Forall is_scalar ns → (MAX_FIELD_BYTES < Z.of_nat (byte_length ns) ≤ u32_MAX)%Z →
     ∃ bs, rag_save (local_set_namespace ns LocalVectorStore_new) = Ok bs ∧ rag_decode bs = Err SnapBadContents).
Proof.
  split.
  - eexists _, _. split; [vm_compute; reflexivity|]. split; [vm_compute; reflexivity|done].
  - intros ns Hs [Hbig Hlen]. unfold byte_length in *.
    destruct (write_count_ok (length (to_utf8 ns)) Hlen) as [E Hr].
    unfold rag_save, local_set_namespace. cbn [ls_namespace ls_namespaces ls_next_seq]. unfold write_field. rewrite E. cbn [mbind result_bind].
    eexists. split; [reflexivity|]. unfold rag_decode. rewrite <-?app_assoc. set (all := RAG_MAGIC ++ _).
    destruct (reads_take 4 RAG_MAGIC eq_refl (mkCursor all 0) _ ltac:(cbn; lia) eq_refl) as (c1 & -> & Hc1 & Hr1).
    rewrite bool_decide_eq_true_2 by done. cbn [negb].
    destruct (reads_u8 RAG_VERSION ltac:(unfold RAG_VERSION; lia) c1 _ Hc1 Hr1) as (c2 & -> & Hc2 & Hr2). rewrite Z.eqb_refl. cbn [negb].
    destruct (read_body c2) as [[s0 c']|] eqn:E5; [exfalso|done].
    destruct (reads_u64 0 ltac:(unfold is_uint; lia) c2 _ Hc2 Hr2) as (c3 & E3 & Hc3 & Hr3).
    destruct (Hr c3 _ Hc3 Hr3) as (c4 & E4 & _).
    apply rd_bind_inv in E5 as (q & c3' & E3' & E5). rewrite E3 in E3'. injection E3' as <- <-.
    apply rd_bind_inv in E5 as (name & c5 & E5 & _). apply rd_bind_inv in E5 as (len & c4' & E4' & E5).
    rewrite E4 in E4'. injection E4' as <- <-.
    destruct (Z.ltb_spec MAX_FIELD_BYTES (Z.of_nat (length (to_utf8 ns)))); [done|lia].
Qed.

Module Demo.
(** A file of three lines is one chunk, and two more that are the ends of the first. *)
Example overlap_repeats :
  (λ cs : list Chunk, ck_content <$> cs) <$> chunk Chunker_new (lit "f") (to_utf8 (chars_of [97; 10; 98; 10; 99; 10]%Z)) RepoFile =
  Some [[97; 10; 98; 10; 99; 10]; [98; 10; 99; 10]; [99; 10]]%Z.
Proof. vm_compute. reflexivity. Qed.
(** A symbol span inside a character panics. *)
Example span_inside_char_panics :
  chunk_with_symbols Chunker_new (lit "f") [195; 169]%Z RepoFile [mkSymSpan (lit "s") 1 2] = None.
Proof. vm_compute. reflexivity. Qed.
Definition demo_file : bytes := [97; 10; 195; 169; 10; 98]%Z.
Lemma chunk_exact_witness : ∃ cs, chunk Chunker_new (lit "f") demo_file RepoFile = Some cs ∧ length cs ≤ MAX_CHUNKS_PER_FILE.
Proof.
  destruct (chunk_exact Chunker_new (lit "f") demo_file RepoFile (proj1 chunkers_ok) eq_refl) as (cs & E & Hl & _). by exists cs.
Defined.
Definition demo_meta : ChunkMeta := ChunkMeta_new (lit "f") (ByteSpan_new 0 2) RepoFile.
Definition demo_store : LocalVectorStore := local_upsert [(lit "f#0-2", [f32_of_uint 1], demo_meta)] LocalVectorStore_new.
Lemma rag_snapshot_roundtrip_witness : ∃ bs, rag_save demo_store = Ok bs ∧ rag_decode (bs ++ []) = Ok demo_store.
Proof.
  apply (rag_snapshot_roundtrip demo_store []). split.
  - split; [|done]. split; [|by vm_compute]. apply (bool_decide_unpack _). by vm_compute.
  - by vm_compute.
  - change (by_key (ls_namespaces demo_store)) with [(DEFAULT_NAMESPACE, {[lit "f#0-2" := mkStored [f32_of_uint 1] demo_meta 0]} : gmap chars Stored)].
    constructor; [|constructor]. split; [split; [apply (bool_decide_unpack _); by vm_compute|by vm_compute]|]. split; [by vm_compute|].
    change (by_key _) with [(lit "f#0-2", mkStored [f32_of_uint 1] demo_meta 0)]. constructor; [|constructor]. split.
    + split; [apply (bool_decide_unpack _); by vm_compute|by vm_compute].
    + by vm_compute.
    + constructor; [|constructor]. apply (bool_decide_unpack _). by vm_compute.
    + split; [split; [apply (bool_decide_unpack _); by vm_compute|by vm_compute]|done|]. split; [cbn; lia|by vm_compute].
    + apply (bool_decide_unpack _). by vm_compute.
  - apply (bool_decide_unpack _). by vm_compute.
Defined.
End Demo.
