(* ===== verification/Mcp.v ===== *)
(** * MCP gateway and server (crate [crustcore-mcp])

    [transport.rs]: the JSON-RPC envelope, the framed reader, the stdio and HTTP transports;
    [lib.rs]: the registry, the gateway check, the gated call with its credential, the filtering of
    results; [server.rs]: the curated server. JSON values are [serde_json]'s, a class of the
    operations the source uses; a stream is the bytes it still holds and how it ends; the peer of a
    stdio server and the HTTP agent are parameters. *)

From stdpp Require Import sorting.
From S2P Require Import Prelude Text Std Chars Redactor Strings Order Types Sha256 Receipts Broker Serde.

(** ** Streams *)

Definition MAX_MESSAGE_BYTES : Z := 8 * 1024 * 1024.
Definition MAX_HEADER_BYTES : nat := N.to_nat (8 * 1024).
Inductive McpError := McpTransportError (e : chars) | Rpc (code : Z) (message : chars) | BadResponse (e : chars).
Definition mcp_error_fmt (e : McpError) : chars :=
  match e with
  | McpTransportError e => lit "mcp transport: " ++ e
  | Rpc code message => lit "mcp rpc " ++ dec_i code ++ lit ": " ++ message
  | BadResponse e => lit "mcp bad response: " ++ e
  end.

(** The bytes a stream still gives and the error it then gives, none for its end. *)
Record Stream := mkStream { s_data : bytes; s_end : option chars }.
(** The bytes before the first [d], with it. *)
Fixpoint upto (d : Z) (l : bytes) : option bytes :=
  match l with
  | [] => None
  | c :: l' => if c =? d then Some [c] else cons c <$> upto d l'
  end.
(** [reader.take(limit).read_until(b'\n')]. *)
Definition read_until (limit : nat) (s : Stream) : result McpError bytes * Stream :=
  match upto 10 (take limit (s_data s)) with
  | Some line => (Ok line, mkStream (drop (length line) (s_data s)) (s_end s))
  | None =>
      if (limit <=? length (s_data s))%nat then (Ok (take limit (s_data s)), mkStream (drop limit (s_data s)) (s_end s))
      else match s_end s with
           | Some e => (Err (McpTransportError e), mkStream [] (s_end s))
           | None => (Ok (s_data s), mkStream [] None)
           end
  end.
Definition EOF_TEXT : chars := lit "failed to fill whole buffer".
(** [reader.read_exact(&mut buf)] of [len] bytes. *)
Definition read_exact (len : Z) (s : Stream) : result McpError bytes * Stream :=
  if len <=? Z.of_nat (length (s_data s)) then
    (Ok (take (Z.to_nat len) (s_data s)), mkStream (drop (Z.to_nat len) (s_data s)) (s_end s))
  else (Err (McpTransportError (default EOF_TEXT (s_end s))), mkStream [] (s_end s)).

(** ** Framing *)

Definition trim_end_newlines (s : chars) : chars := rev (skip_while (λ c, (c =? 13) || (c =? 10)) (rev s)).
Definition usize_MAX : Z := u64_MAX.
(** The loop over the header lines; every line has a byte, so the cap is enough fuel. *)
Fixpoint read_headers (fuel : nat) (header_total : nat) (content_len : option Z) (s : Stream)
  : result McpError (option Z) * Stream :=
  match fuel with
  | O => (Err (BadResponse (lit "headers exceed size cap")), s)
  | S fuel' =>
      if (MAX_HEADER_BYTES <=? header_total)%nat then (Err (BadResponse (lit "headers exceed size cap")), s) else
      match read_until (MAX_HEADER_BYTES - header_total) s with
      | (Err e, s) => (Err e, s)
      | (Ok [], s) => (Err (McpTransportError (lit "server closed the connection")), s)
      | (Ok line, s) =>
          let trimmed := trim_end_newlines (chars_of (from_utf8_lossy line)) in
          match trimmed with
          | [] => (Ok content_len, s)
          | _ =>
              read_headers fuel' (header_total + length line)
                (match strip_prefix (lit "Content-Length:") trimmed with
                 | Some v => parse_uint usize_MAX (trim v)
                 | None => content_len
                 end) s
          end
      end
  end.
(** The body of a framed message. *)
Definition read_body (s : Stream) : result McpError bytes * Stream :=
  match read_headers (S MAX_HEADER_BYTES) 0 None s with
  | (Err e, s) => (Err e, s)
  | (Ok None, s) => (Err (BadResponse (lit "no Content-Length")), s)
  | (Ok (Some len), s) =>
      if MAX_MESSAGE_BYTES <? len then (Err (BadResponse (lit "message exceeds size cap")), s)
      else read_exact len s
  end.
Definition frame (body : bytes) : bytes :=
  lit "Content-Length: " ++ dec_u (Z.of_nat (length body)) ++ [13; 10; 13; 10] ++ body.

Section Transport.
Context `{J : SerdeJson}.

Definition read_framed_message (s : Stream) : result McpError Value * Stream :=
  match read_body s with
  | (Err e, s) => (Err e, s)
  | (Ok buf, s) => (map_err BadResponse (v_from_slice buf), s)
  end.
Definition build_request_envelope (id : Z) (method : chars) (params : Value) : Value :=
  v_obj [field "jsonrpc" (v_str (lit "2.0")); field "id" (v_int id); field "method" (v_str method); field "params" params].
Definition parse_rpc_result (v : Value) : result McpError Value :=
  match (err ← v_get v (lit "error"); if v_is_null err then None else Some err) with
  | Some err =>
      Err (Rpc (default 0 (v_get err (lit "code") ≫= v_as_i64))
               (default (lit "error") (v_get err (lit "message") ≫= v_as_str)))
  | None => ok_or (v_get v (lit "result")) (BadResponse (lit "no result/error member"))
  end.

(** A transport over the state [W] of its connection. *)
Class McpTransport (W : Type) :=
  transport_call : chars → Value → option HeaderInjection → W → result McpError Value * W.

(** The stdio transport: the id, what the peer wrote and was not read, and the peer, which answers
    what is written to it with more output. *)
Record StdioMcp (P : Type) := mkStdio { st_next_id : Z; st_out : Stream; st_peer : P }.
#[global] Arguments mkStdio {P}.
#[global] Arguments st_next_id {P}.
#[global] Arguments st_out {P}.
#[global] Arguments st_peer {P}.
Definition stdio_call {P} (peer : P → bytes → result chars Stream * P)
    (method : chars) (params : Value) (_auth : option HeaderInjection) (w : StdioMcp P)
  : result McpError Value * StdioMcp P :=
  let id := st_next_id w in
  let w := mkStdio (Z.min i64_MAX (id + 1)) (st_out w) (st_peer w) in
  match v_to_vec (build_request_envelope id method params) with
  | Err e => (Err (BadResponse e), w)
  | Ok body =>
      match peer (st_peer w) (frame body) with
      | (Err e, p) => (Err (McpTransportError e), mkStdio (st_next_id w) (st_out w) p)
      | (Ok more, p) =>
          let out := mkStream (s_data (st_out w) ++ s_data more) (s_end more) in
          let '(r, rest) := read_framed_message out in
          (r ≫= parse_rpc_result, mkStdio (st_next_id w) rest p)
      end
  end.

(** The HTTP transport: the agent is given the URL, the header and the body. *)
Definition parse_response (s : Stream) : result McpError Value :=
  let got := take (Z.to_nat (MAX_MESSAGE_BYTES + 1)) (s_data s) in
  match (if MAX_MESSAGE_BYTES <? Z.of_nat (length (s_data s)) then None else s_end s) with
  | Some e => Err (McpTransportError e)
  | None =>
      if MAX_MESSAGE_BYTES <? Z.of_nat (length got) then Err (BadResponse (lit "response exceeds size cap"))
      else v ← map_err BadResponse (v_from_slice got); parse_rpc_result v
  end.
Record HttpMcp (N : Type) := mkHttp { ht_url : chars; ht_next_id : Z; ht_net : N }.
#[global] Arguments mkHttp {N}.
#[global] Arguments ht_url {N}.
#[global] Arguments ht_next_id {N}.
#[global] Arguments ht_net {N}.
Definition http_call {N} (post : N → chars → list (bytes * bytes) → bytes → result chars Stream * N)
    (method : chars) (params : Value) (auth : option HeaderInjection) (w : HttpMcp N)
  : result McpError Value * HttpMcp N :=
  let id := ht_next_id w in
  let w := mkHttp (ht_url w) (Z.min i64_MAX (id + 1)) (ht_net w) in
  match v_to_vec (build_request_envelope id method params) with
  | Err e => (Err (BadResponse e), w)
  | Ok body =>
      match (match auth with
             | None => Some []
             | Some h => if is_utf8 (reveal h) then Some [(header_name h, reveal h)] else None
             end) with
      | None => (Err (McpTransportError (lit "auth header is not valid UTF-8")), w)
      | Some headers =>
          match post (ht_net w) (ht_url w) ((lit "Content-Type", lit "application/json") :: headers) body with
          | (Err e, n) => (Err (McpTransportError e), mkHttp (ht_url w) (ht_next_id w) n)
          | (Ok s, n) => (parse_response s, mkHttp (ht_url w) (ht_next_id w) n)
          end
      end
  end.

Record ToolDescriptor := mkDescriptor { td_name : chars; td_description : chars }.
Definition describe_tool (t : Value) : option ToolDescriptor :=
  name ← (v_get t (lit "name") ≫= v_as_str);
  Some (mkDescriptor name (default [] (v_get t (lit "description") ≫= v_as_str))).
Definition tools_of (v : Value) : result McpError (list ToolDescriptor) :=
  match v_get v (lit "tools") ≫= v_as_array with
  | Some tools => Ok (omap describe_tool tools)
  | None => Err (BadResponse (lit "tools/list: no tools array"))
  end.
Definition list_tools {W} `{McpTransport W} (w : W) : result McpError (list ToolDescriptor) * W :=
  let '(r, w) := transport_call (lit "tools/list") (v_obj []) None w in (r ≫= tools_of, w).
End Transport.

(** The bytes that are hashed: each name with a zero after it. *)
Definition manifest_text (tools : list ToolDescriptor) : bytes :=
  dedup (sort_by chars_le (td_name <$> tools)) ≫= λ n, to_utf8 n ++ [0].
Definition manifest_hash `{Hash} (tools : list ToolDescriptor) : bytes := hash (manifest_text tools).

(** ** The registry and the gate *)

Inductive TrustLevel := Untrusted | SemiTrusted | Trusted.
Inductive McpServerSource := LocalBinary (p : chars) | RemoteUrl (u : chars) | Package (p : chars).
Inductive TransportKind := Stdio | Http.
Inductive McpAuthMode := AuthNone | BrokerSecret (id : SecretId).
Inductive ToolDecision := Allow | Ask | Deny.
Record McpToolPolicy := mkToolPolicy { tp_tool : chars; tp_decision : ToolDecision }.
Record McpServerRecord := mkServerRecord {
  sr_id : Z; sr_source : McpServerSource; sr_transport : TransportKind; sr_version : option chars;
  sr_manifest_hash : option bytes; sr_auth : McpAuthMode; sr_trust_level : TrustLevel;
  sr_allowed_repos : list chars; sr_tool_policies : list McpToolPolicy }.
Definition tool_decision (r : McpServerRecord) (tool : chars) : option ToolDecision :=
  tp_decision <$> List.find (λ p, str_eq (tp_tool p) tool) (sr_tool_policies r).
Definition allows_repo (r : McpServerRecord) (repo : chars) : bool := existsb (λ x, str_eq x repo) (sr_allowed_repos r).
Abbreviation McpRegistry := (gmap Z McpServerRecord) (only parsing).
Definition register_server (g : McpRegistry) (r : McpServerRecord) : McpRegistry := <[sr_id r := r]> g.

Inductive GatewayDeny := UnknownServer | ManifestDrift | RepoNotAllowed | ToolNotAllowed | ToolDenied.
Inductive GatewayDecision := GAllow | GAsk | GDeny (d : GatewayDeny).
Definition gateway_check (g : McpRegistry) (server : Z) (tool repo : chars) (live_manifest_hash : option bytes)
  : GatewayDecision :=
  match g !! server with
  | None => GDeny UnknownServer
  | Some record =>
      if (match sr_manifest_hash record, live_manifest_hash with
          | Some pinned, Some live => negb (bool_decide (pinned = live))
          | _, _ => false
          end) then GDeny ManifestDrift
      else if negb (allows_repo record repo) then GDeny RepoNotAllowed
      else match tool_decision record tool with
           | None => GDeny ToolNotAllowed
           | Some Deny => GDeny ToolDenied
           | Some Ask => GAsk
           | Some Allow => GAllow
           end
  end.

(** ** Results *)

Definition MAX_MCP_SUMMARY : nat := N.to_nat (16 * 1024).
Record McpResult := mkMcpResult { mr_summary : chars; mr_artifact_hash : bytes; mr_receipt : ToolReceipt }.
Record McpCallIds := mkCallIds { ci_task_id : Z; ci_job_id : Z; ci_tool_call_id : Z; ci_event_seq : Z }.
Definition to_model_visible (r : Redactor) (text : chars) : chars := chars_of (redact r (to_utf8 text)).
(** [ModelVisibleTextExt::bounded]. *)
Definition bounded (mvt : chars) (max : nat) : chars := to_model_visible Redactor_new (truncated_chars mvt max).
Definition wrap_untrusted (r : Redactor) (text : chars) : chars := bounded (to_model_visible r text) MAX_MCP_SUMMARY.

Section Gateway.
Context `{HS : Hash} `{MC : Mac} `{J : SerdeJson}.

Definition call_params (tool_name : chars) (args result artifact : bytes) (ids : McpCallIds) : ReceiptParams :=
  mkParams (ci_task_id ids) (ci_job_id ids) (ci_tool_call_id ids) (to_utf8 tool_name) args result [artifact] (ci_event_seq ids).
Definition filter_result (server : Z) (tool : chars) (call_args raw_output : bytes) (r : Redactor)
    (receipts : ReceiptChain) (ids : McpCallIds) : McpResult * ReceiptChain :=
  let artifact_hash := hash raw_output in
  let summary := bounded (to_model_visible r (chars_of (from_utf8_lossy raw_output))) MAX_MCP_SUMMARY in
  let tool_name := lit "mcp:" ++ dec_u server ++ lit ":" ++ tool in
  let '(chain, receipt) := mint receipts (call_params tool_name call_args (to_utf8 summary) artifact_hash ids) in
  (mkMcpResult summary artifact_hash receipt, chain).

Inductive CallOutcome :=
| Done (r : McpResult) | Denied (d : GatewayDeny) | NeedsApproval | CredentialUnavailable (id : SecretId).
Record McpAuthContext (S : Type) := mkAuthContext {
  ac_broker : SecretBroker S; ac_approval_id : ApprovalId; ac_now : Timestamp; ac_ttl_millis : Z; ac_label : bytes }.
#[global] Arguments mkAuthContext {S}.
#[global] Arguments ac_broker {S}.
#[global] Arguments ac_approval_id {S}.
#[global] Arguments ac_now {S}.
#[global] Arguments ac_ttl_millis {S}.
#[global] Arguments ac_label {S}.
Definition resolve_auth {S} `{SecretStore S} (auth : McpAuthMode) (ctx : option (McpAuthContext S))
  : result SecretId (option HeaderInjection) :=
  match auth with
  | AuthNone => Ok None
  | BrokerSecret id =>
      ctx ← ok_or ctx id;
      view ← map_err (λ _, id) (authorize (ac_broker ctx) id (ac_approval_id ctx) (ac_now ctx) (ac_ttl_millis ctx));
      let '(_, r) := bearer view (ac_now ctx) (ac_label ctx) in
      injection ← map_err (λ _, id) r;
      Ok (Some injection)
  end.

Record ToolCall := mkToolCall {
  tc_server : Z; tc_tool : chars; tc_repo : chars; tc_args : Value; tc_live_manifest_hash : option bytes }.
(** [unwrap_or_default]. *)
Definition to_bytes (v : Value) : bytes := match v_to_vec v with Ok b => b | Err _ => [] end.
Definition call_tool {W S} `{!McpTransport W} `{!SecretStore S} (g : McpRegistry) (c : ToolCall)
    (ctx : option (McpAuthContext S)) (r : Redactor) (ids : McpCallIds) (w : W) (receipts : ReceiptChain)
  : result McpError CallOutcome * W * ReceiptChain :=
  match gateway_check g (tc_server c) (tc_tool c) (tc_repo c) (tc_live_manifest_hash c) with
  | GDeny reason => (Ok (Denied reason), w, receipts)
  | GAsk => (Ok NeedsApproval, w, receipts)
  | GAllow =>
      let auth_mode := match g !! tc_server c with Some rec => sr_auth rec | None => AuthNone end in
      match resolve_auth auth_mode ctx with
      | Err secret_id => (Ok (CredentialUnavailable secret_id), w, receipts)
      | Ok injection =>
          match transport_call (lit "tools/call")
                  (v_obj [field "name" (v_str (tc_tool c)); field "arguments" (tc_args c)]) injection w with
          | (Err e, w) => (Err e, w, receipts)
          | (Ok raw, w) =>
              let '(result, receipts) :=
                filter_result (tc_server c) (tc_tool c) (to_bytes (tc_args c)) (to_bytes raw) r receipts ids in
              (Ok (Done result), w, receipts)
          end
      end
  end.

(** ** Stubs *)

Record StubDescriptor := mkStub { sd_server : Z; sd_tool : chars; sd_signature : chars }.
Definition generate_stubs (record : McpServerRecord) (used_tools : list chars) : list StubDescriptor :=
  (λ t, mkStub (sr_id record) t (lit "fn " ++ t ++ lit "(args: Json) -> McpResult")) <$>
  List.filter (λ t, match tool_decision record t with Some (Allow | Ask) => true | _ => false end) used_tools.

(** ** The server *)

Definition ERR_METHOD_NOT_FOUND : Z := -32601.
Definition ERR_TOOL_NOT_EXPOSED : Z := -32001.
Definition ERR_TOOL_DENIED : Z := -32002.
Definition ERR_TOOL_NEEDS_APPROVAL : Z := -32003.
Definition ERR_TOOL_FAILED : Z := -32004.
Record ExposedTool := mkExposed { et_name : chars; et_description : chars; et_decision : ToolDecision }.
Abbreviation McpServer := (gmap chars ExposedTool) (only parsing).
Definition expose_tool (s : McpServer) (t : ExposedTool) : McpServer := <[et_name t := t]> s.
Definition server_decision (s : McpServer) (tool : chars) : option ToolDecision := et_decision <$> s !! tool.
(** A handler runs a tool on its arguments, over the state [H] of the host. *)
Class ToolHandler (H : Type) := execute : chars → bytes → H → result chars bytes * H.

Definition rpc_result (id v : Value) : Value :=
  v_obj [field "jsonrpc" (v_str (lit "2.0")); field "id" id; field "result" v].
Definition rpc_error (id : Value) (code : Z) (message : chars) : Value :=
  v_obj [field "jsonrpc" (v_str (lit "2.0")); field "id" id;
         field "error" (v_obj [field "code" (v_int code); field "message" (v_str message)])].
Definition tools_list (s : McpServer) : Value :=
  v_obj [field "tools" (v_arr ((λ t, v_obj [field "name" (v_str (et_name t));
    field "description" (v_str (truncated_chars (et_description t) MAX_MCP_SUMMARY))]) <$>
      omap (λ k, s !! k) (sort_by chars_le (elements (dom s)))))].
(** The version of the crate, a constant of the build. *)
Definition initialize_result (version : chars) : Value :=
  v_obj [field "protocolVersion" (v_str (lit "2024-11-05"));
         field "serverInfo" (v_obj [field "name" (v_str (lit "crustcore")); field "version" (v_str version)]);
         field "capabilities" (v_obj [field "tools" (v_obj [])])].
Definition handle_call {H} `{ToolHandler H} (s : McpServer) (id request : Value) (r : Redactor) (ids : McpCallIds)
    (h : H) (receipts : ReceiptChain) : Value * H * ReceiptChain :=
  let params := v_get request (lit "params") in
  match params ≫= λ p, v_get p (lit "name") ≫= v_as_str with
  | None => (rpc_error id ERR_TOOL_NOT_EXPOSED (lit "missing tool name"), h, receipts)
  | Some tool =>
      match server_decision s tool with
      | None => (rpc_error id ERR_TOOL_NOT_EXPOSED (lit "tool not exposed"), h, receipts)
      | Some Deny => (rpc_error id ERR_TOOL_DENIED (lit "tool denied"), h, receipts)
      | Some Ask => (rpc_error id ERR_TOOL_NEEDS_APPROVAL (lit "tool requires approval"), h, receipts)
      | Some Allow =>
          let args := to_bytes (default v_null (params ≫= λ p, v_get p (lit "arguments"))) in
          match execute tool args h with
          | (Err e, h) =>
              (rpc_error id ERR_TOOL_FAILED (truncated_chars (to_model_visible r e) MAX_MCP_SUMMARY), h, receipts)
          | (Ok output, h) =>
              let summary := truncated_chars (to_model_visible r (chars_of (from_utf8_lossy output))) MAX_MCP_SUMMARY in
              let '(chain, _receipt) := mint receipts
                (call_params (lit "mcp-server:" ++ tool) args (to_utf8 summary) (hash output) ids) in
              (rpc_result id (v_obj [field "content" (v_arr [v_obj [field "type" (v_str (lit "text"));
                                                                   field "text" (v_str summary)]])]), h, chain)
          end
      end
  end.
Definition handle_request {H} `{ToolHandler H} (version : chars) (s : McpServer) (request : Value) (r : Redactor)
    (ids : McpCallIds) (h : H) (receipts : ReceiptChain) : Value * H * ReceiptChain :=
  let id := default v_null (v_get request (lit "id")) in
  let method := default [] (v_get request (lit "method") ≫= v_as_str) in
  if str_eq method (lit "initialize") then (rpc_result id (initialize_result version), h, receipts)
  else if str_eq method (lit "tools/list") then (rpc_result id (tools_list s), h, receipts)
  else if str_eq method (lit "tools/call") then handle_call s id request r ids h receipts
  else (rpc_error id ERR_METHOD_NOT_FOUND (lit "method not found"), h, receipts).
End Gateway.

(** * MCP gateway and server: theorems

    A call reaches a server only when the registry allows it, and with the credential it requires; what
    comes back is redacted, bounded and receipted; the curated server runs its handler for exposed
    and allowed tools only; a framed message is read back as it was written, whatever follows it. *)

#[local] Opaque MAX_HEADER_BYTES MAX_MCP_SUMMARY.

(** ** Framing *)

Lemma upto_app d a l : (d ∉ a) → upto d (a ++ d :: l) = Some (a ++ [d]).
Proof.
  induction a as [|c a IH]; intros Ha; cbn [app upto]; [by rewrite Z.eqb_refl|].
  apply not_elem_of_cons in Ha as [Hc Ha]. rewrite (proj2 (Z.eqb_neq c d)) by congruence. by rewrite IH.
Qed.
Lemma upto_take d l line : upto d l = Some line → ∀ limit, (length line ≤ limit)%nat → upto d (take limit l) = Some line.
Proof.
  revert line. induction l as [|c l IH]; intros line H limit Hl; [done|]. cbn [upto] in H.
  destruct limit as [|limit].
  - destruct (c =? d); [injection H as <-|apply fmap_Some in H as (? & _ & ->)]; simpl in Hl; lia.
  - cbn [take upto]. destruct (c =? d); [done|]. apply fmap_Some in H as (r & Hr & ->). rewrite (IH r); [done..|]. simpl in Hl. lia.
Qed.
Lemma read_line limit a l e :
  (10 ∉ a) → (S (length a) ≤ limit)%nat →
  read_until limit (mkStream (a ++ 10 :: l) e) = (Ok (a ++ [10]), mkStream l e).
Proof.
  intros Ha Hl. unfold read_until. cbn [s_data s_end].
  rewrite (upto_take _ _ (a ++ [10])); [|by apply upto_app|rewrite length_app; simpl; lia].
  do 2 f_equal. replace (a ++ 10 :: l) with ((a ++ [10]) ++ l) by (by rewrite <-app_assoc). apply drop_app_length.
Qed.

(** Reading never gives more than was asked, and removes what it gives. *)
Lemma upto_prefix d l line : upto d l = Some line → ∃ r, l = line ++ r ∧ line ≠ [].
Proof.
  revert line. induction l as [|c l IH]; intros line H; [done|]. cbn [upto] in H. destruct (c =? d).
  - injection H as <-. by exists l.
  - apply fmap_Some in H as (k & Hk & ->). destruct (IH k Hk) as (r & -> & _). by exists r.
Qed.
Lemma read_until_split limit s line s' :
  read_until limit s = (Ok line, s') → s_data s = line ++ s_data s' ∧ (length line ≤ limit)%nat.
Proof.
  unfold read_until. destruct (upto 10 (take limit (s_data s))) as [k|] eqn:E.
  - intros [= <- <-]. apply upto_prefix in E as (r & Hr & _). cbn [s_data].
    rewrite <-(take_drop limit (s_data s)), Hr, <-app_assoc, drop_app_length. split; [done|].
    apply (f_equal length) in Hr. rewrite length_take, length_app in Hr. lia.
  - destruct (Nat.leb_spec limit (length (s_data s))).
    + intros [= <- <-]. cbn [s_data]. rewrite take_drop, length_take. split; [done|lia].
    + destruct (s_end s); [done|]. intros [= <- <-]. cbn [s_data]. rewrite app_nil_r. split; [done|lia].
Qed.
Lemma max_header : Z.of_nat MAX_HEADER_BYTES = 8192.
Proof. Transparent MAX_HEADER_BYTES. unfold MAX_HEADER_BYTES. by rewrite N_nat_Z. Qed.
#[local] Opaque MAX_HEADER_BYTES.

(** A header line, and the empty line that ends the headers. *)
Lemma read_headers_step fuel total cl a l e t :
  (10 ∉ a) → (total + S (length a) ≤ MAX_HEADER_BYTES)%nat →
  trim_end_newlines (chars_of (from_utf8_lossy (a ++ [10]))) = t →
  read_headers (S fuel) total cl (mkStream (a ++ 10 :: l) e) =
  if bool_decide (t = []) then (Ok cl, mkStream l e)
  else read_headers fuel (total + S (length a))
         (match strip_prefix (lit "Content-Length:") t with
          | Some v => parse_uint usize_MAX (trim v) | None => cl end) (mkStream l e).
Proof.
  intros Ha Hl Ht. cbn [read_headers]. rewrite (proj2 (Nat.leb_gt _ _)) by lia. rewrite read_line by (done || lia).
  assert (S (length a) = length (a ++ [10])) as -> by (rewrite length_app; simpl; lia).
  destruct (a ++ [10]) as [|c k] eqn:E; [by destruct a|]. rewrite Ht. by destruct t.
Qed.

Lemma no_newline_dec n : 0 ≤ n → 10 ∉ dec_u n.
Proof. intros Hn H%dec_u_digits; lia. Qed.
Lemma trim_newline s c : c = 13 ∨ c = 10 → trim_end_newlines (s ++ [c]) = trim_end_newlines s.
Proof. unfold trim_end_newlines. rewrite rev_unit. by intros [-> | ->]. Qed.
Lemma trim_no_newline s c : c ≠ 13 → c ≠ 10 → trim_end_newlines (s ++ [c]) = s ++ [c].
Proof.
  intros H1 H2. unfold trim_end_newlines. rewrite rev_unit. cbn [skip_while].
  rewrite (proj2 (Z.eqb_neq c 13)), (proj2 (Z.eqb_neq c 10)) by done. cbn [orb rev]. by rewrite rev_involutive.
Qed.
Lemma dec_u_snoc n : 0 ≤ n → ∃ k c, dec_u n = k ++ [c] ∧ 48 ≤ c ≤ 57.
Proof.
  intros Hn. destruct (dec_u n) as [|c k _] eqn:E using rev_ind; [by apply dec_u_nonempty in E|].
  exists k, c. split; [done|]. apply (dec_u_digits n); [done|]. rewrite E. apply elem_of_app. right. by left.
Qed.
Lemma trim_dec n : 0 ≤ n → trim (dec_u n) = dec_u n.
Proof.
  intros Hn. assert (∀ c, 48 ≤ c ≤ 57 → is_whitespace c = false) as Hw by (intros; unfold is_whitespace, in_range; lia).
  apply trim_clean; intros c Hc; apply Hw.
  - destruct (dec_u_head n Hn) as (d & r & E & Hd). rewrite E in Hc. injection Hc as <-. done.
  - destruct (dec_u_snoc n Hn) as (k & d & E & Hd). rewrite E, last_snoc in Hc. injection Hc as <-. done.
Qed.
Lemma header_text n :
  0 ≤ n → trim_end_newlines (chars_of (from_utf8_lossy ((lit "Content-Length: " ++ dec_u n ++ [13]) ++ [10])))
  = lit "Content-Length: " ++ dec_u n.
Proof.
  intros Hn. set (t := (lit "Content-Length: " ++ dec_u n ++ [13]) ++ [10]).
  assert (Forall (λ c, 0 ≤ c < 128) t) as Ha.
  { unfold t. repeat (apply Forall_app; split); [apply (bool_decide_unpack _); by vm_compute| | |];
      [apply Forall_forall; intros c Hc%dec_u_digits; lia|repeat constructor; lia..]. }
  assert (Forall is_scalar t) as Hs by (eapply Forall_impl; [exact Ha|]; intros c ?; simpl in *; apply small_scalar; lia).
  assert (chars_of (from_utf8_lossy t) = t) as ->.
  { rewrite <-(to_utf8_ascii t Ha) at 1. rewrite lossy_valid by (by apply to_utf8_valid). by apply chars_of_to_utf8. }
  unfold t. rewrite trim_newline by auto. rewrite app_assoc, trim_newline by auto.
  destruct (dec_u_snoc n Hn) as (k & c & -> & Hc). rewrite app_assoc. apply trim_no_newline; lia.
Qed.

(** A framed message is read back, and only it is taken from the stream. *)
Theorem frame_roundtrip body rest e :
  Z.of_nat (length body) ≤ MAX_MESSAGE_BYTES →
  read_body (mkStream (frame body ++ rest) e) = (Ok body, mkStream rest e).
Proof.
  intros Hb. set (n := Z.of_nat (length body)) in *. assert (0 ≤ n) as Hn by lia. pose proof max_header as Hm.
  assert (frame body ++ rest = (lit "Content-Length: " ++ dec_u n ++ [13]) ++ 10 :: [13] ++ 10 :: body ++ rest) as ->.
  { unfold frame. rewrite <-!app_assoc. done. }
  assert (length (dec_u n) ≤ 7)%nat as Hd by (apply (dec_u_length 7); unfold MAX_MESSAGE_BYTES in *; lia).
  assert (10 ∉ lit "Content-Length: " ++ dec_u n ++ [13]) as Hnl.
  { rewrite !elem_of_app, list_elem_of_singleton. intros [H|[H|H]]; [|by apply no_newline_dec in H|done].
    revert H. apply (bool_decide_unpack _). by vm_compute. }
  assert (length (lit "Content-Length: " ++ dec_u n ++ [13%Z]) ≤ 24)%nat as Hlen.
  { rewrite !length_app. change (length (lit "Content-Length: ")) with 16%nat. simpl. lia. }
  unfold read_body. rewrite (read_headers_step MAX_HEADER_BYTES 0 None _ _ e _ Hnl ltac:(lia) (header_text n Hn)).
  rewrite bool_decide_eq_false_2 by done.
  assert (strip_prefix (lit "Content-Length:") (lit "Content-Length: " ++ dec_u n) = Some (32 :: dec_u n)) as Hstrip
    by (by apply strip_prefix_Some).
  rewrite Hstrip. change (trim (32 :: dec_u n)) with (trim (dec_u n)). rewrite trim_dec by done.
  rewrite parse_uint_dec_u by (unfold usize_MAX, u64_MAX, MAX_MESSAGE_BYTES in *; lia).
  assert (∃ fuel, MAX_HEADER_BYTES = S fuel) as [fuel Ef] by (exists (pred MAX_HEADER_BYTES); lia). rewrite Ef.
  rewrite (read_headers_step fuel _ _ [13] (body ++ rest) e []);
    [|apply (bool_decide_unpack _); by vm_compute|change (length [13%Z]) with 1%nat; lia|by vm_compute].
  rewrite bool_decide_eq_true_2 by done. rewrite (proj2 (Z.ltb_ge _ _)) by done. unfold read_exact. cbn [s_data s_end].
  rewrite (proj2 (Z.leb_le _ _)) by (rewrite length_app; lia). unfold n. by rewrite Nat2Z.id, take_app_length, drop_app_length.
Qed.

Lemma read_headers_consumed fuel total cl s r s' :
  (total ≤ MAX_HEADER_BYTES)%nat → read_headers fuel total cl s = (Ok r, s') →
  ∃ h, s_data s = h ++ s_data s' ∧ (total + length h ≤ MAX_HEADER_BYTES)%nat.
Proof.
  revert total cl s. induction fuel as [|fuel IH]; intros total cl s Ht; cbn [read_headers]; [done|].
  destruct (Nat.leb_spec MAX_HEADER_BYTES total); [done|].
  destruct (read_until _ s) as [[line|e] s1] eqn:E; [|done]. apply read_until_split in E as [Hs Hl].
  destruct line as [|c line]; [done|]. destruct (trim_end_newlines _).
  - intros [= _ <-]. exists (c :: line). split; [done|]. lia.
  - intros H2. apply IH in H2 as (h & Hh & Hlen); [|lia]. exists ((c :: line) ++ h).
    rewrite Hs, Hh, <-app_assoc, length_app. split; [done|]. lia.
Qed.

(** Whatever a server writes, a message takes at most the header cap and the message cap from its
    stream, and the body is what the stream had after the headers. *)
Theorem read_body_bounded s body s' :
  read_body s = (Ok body, s') →
  ∃ h, s_data s = h ++ body ++ s_data s' ∧ (length h ≤ MAX_HEADER_BYTES)%nat ∧
       Z.of_nat (length body) ≤ MAX_MESSAGE_BYTES.
Proof.
  unfold read_body. destruct (read_headers _ 0 None s) as [[[len|]|e] s1] eqn:E; try done.
  apply read_headers_consumed in E as (h & Hh & Hlen); [|lia]. destruct (Z.ltb_spec MAX_MESSAGE_BYTES len); [done|].
  unfold read_exact. destruct (Z.leb_spec len (Z.of_nat (length (s_data s1)))); [|done]. intros [= <- <-].
  exists h. cbn [s_data]. rewrite take_drop, length_take. split; [done|]. unfold MAX_MESSAGE_BYTES in *. lia.
Qed.

(** ** The surface of a server *)

Lemma names_sorted tools :
  StronglySorted before (dedup (sort_by chars_le (td_name <$> tools))) ∧
  NoDup (dedup (sort_by chars_le (td_name <$> tools))).
Proof. apply dedup_sorted, sort_chars_sorted. Qed.
Lemma zero_sep_inj (l k : list bytes) :
  Forall (λ n, 0 ∉ n) l → Forall (λ n, 0 ∉ n) k → (l ≫= λ n, n ++ [0]) = (k ≫= λ n, n ++ [0]) → l = k.
Proof.
  assert (∀ a x y m, (0 ∉ a) → (0 ∉ m) → a ++ 0 :: x = m ++ 0 :: y → a = m ∧ x = y) as Hcut.
  { induction a as [|c a IH]; intros x y [|d m] Ha Hm H.
    - by injection H as ->.
    - injection H as <- _. set_solver.
    - injection H as -> _. set_solver.
    - injection H as -> H. apply not_elem_of_cons in Ha as [_ Ha]. apply not_elem_of_cons in Hm as [_ Hm].
      by destruct (IH x y m Ha Hm H) as [-> ->]. }
  intros Hl. revert k. induction Hl as [|a l Ha _ IH]; intros [|b k] Hk H.
  - done.
  - by destruct b.
  - by destruct a.
  - apply Forall_cons in Hk as [Hb Hk]. cbn [mbind list_bind] in H. rewrite <-!app_assoc in H. cbn [app] in H.
    apply Hcut in H as [-> H]; [|done..]. f_equal. by apply IH.
Qed.
Lemma encode_no_zero c : is_scalar c → c ≠ 0 → 0 ∉ encode_char c.
Proof.
  unfold is_scalar, encode_char. intros Hc Hz. pose proof (Z.mod_pos_bound c 64). pose proof (Z.mod_pos_bound (c / 64) 64).
  pose proof (Z.mod_pos_bound (c / 4096) 64).
  assert (0 ≤ c / 64) by (apply Z.div_pos; lia). assert (0 ≤ c / 4096) by (apply Z.div_pos; lia).
  assert (0 ≤ c / 262144) by (apply Z.div_pos; lia).
  repeat case_match; rewrite ?elem_of_cons; intros Hin; destruct_or? Hin; try lia; by apply elem_of_nil in Hin.
Qed.
Lemma utf8_no_zero s : Forall is_scalar s → (0 ∉ s) → 0 ∉ to_utf8 s.
Proof.
  intros Hs Hz [c [Hc Hin]]%list_elem_of_bind. rewrite Forall_forall in Hs.
  apply (encode_no_zero c) in Hc; [done|by apply Hs|]. by intros ->.
Qed.
Lemma to_utf8_inj a b : Forall is_scalar a → Forall is_scalar b → to_utf8 a = to_utf8 b → a = b.
Proof. intros Ha Hb H. by rewrite <-(chars_of_to_utf8 a Ha), <-(chars_of_to_utf8 b Hb), H. Qed.

Definition names_ok (tools : list ToolDescriptor) : Prop :=
  Forall (λ t, Forall is_scalar (td_name t) ∧ (0 ∉ td_name t)) tools.
Lemma manifest_names tools :
  names_ok tools → Forall (λ n, Forall is_scalar n ∧ (0 ∉ n)) (dedup (sort_by chars_le (td_name <$> tools))).
Proof.
  intros H. apply Forall_forall. intros n. rewrite dedup_elem, sort_by_elem, list_elem_of_fmap.
  intros (t & -> & Ht). unfold names_ok in H. rewrite Forall_forall in H. by apply H.
Qed.

(** What is hashed of a server's surface is the set of the names of its tools, when no name has a zero
    byte: not their order or their number, and nothing of the descriptions. *)
Theorem manifest_text_exact t1 t2 :
  names_ok t1 → names_ok t2 →
  manifest_text t1 = manifest_text t2 ↔ ∀ n, n ∈ td_name <$> t1 ↔ n ∈ td_name <$> t2.
Proof.
  intros H1 H2. pose proof (manifest_names _ H1) as N1. pose proof (manifest_names _ H2) as N2.
  destruct (names_sorted t1) as [S1 D1], (names_sorted t2) as [S2 D2]. unfold manifest_text.
  set (l1 := dedup (sort_by chars_le (td_name <$> t1))) in *. set (l2 := dedup (sort_by chars_le (td_name <$> t2))) in *.
  assert (∀ n, n ∈ l1 ↔ n ∈ td_name <$> t1) as E1 by (intros n; unfold l1; by rewrite dedup_elem, sort_by_elem).
  assert (∀ n, n ∈ l2 ↔ n ∈ td_name <$> t2) as E2 by (intros n; unfold l2; by rewrite dedup_elem, sort_by_elem).
  split.
  - intros Heq. assert (to_utf8 <$> l1 = to_utf8 <$> l2) as Hu.
    { apply zero_sep_inj; [| |by rewrite !list_fmap_bind];
        (apply Forall_fmap; eapply Forall_impl; [eassumption|]; intros n [? ?]; by apply utf8_no_zero). }
    assert (l1 = l2) as Hl.
    { revert Hu N1 N2. clear. generalize l1, l2. clear. intros l. induction l as [|a l IH]; intros [|b k] H Ha Hb; try done.
      injection H as Hab H. apply Forall_cons in Ha as [[Hsa _] Ha]. apply Forall_cons in Hb as [[Hsb _] Hb].
      f_equal; [by apply to_utf8_inj|by apply IH]. }
    intros n. by rewrite <-E1, <-E2, Hl.
  - intros Hset. assert (l1 = l2) as ->; [|done]. apply (StronglySorted_unique before); [done..|].
    apply NoDup_Permutation; [done..|]. intros n. by rewrite E1, E2.
Qed.

(** A zero in a name makes one tool hash as two: the pinned hash of a server does not notice that
    its tools were replaced by another. *)
Theorem manifest_zero_collides `{HS : Hash} :
  let pinned := [mkDescriptor (lit "read") []; mkDescriptor (lit "write") []] in
  let live := [mkDescriptor (lit "read" ++ [0] ++ lit "write") []] in
  manifest_hash pinned = manifest_hash live ∧ (td_name <$> pinned) ≠ (td_name <$> live).
Proof.
  cbv zeta. split; [|done]. unfold manifest_hash. f_equal.
Qed.

(** ** The gate *)

Definition no_drift (record : McpServerRecord) (live : option bytes) : Prop :=
  ∀ pinned h, sr_manifest_hash record = Some pinned → live = Some h → pinned = h.

(** The gate allows a call exactly when the server is registered, its surface is the pinned one as far
    as both are known, the repository is in its scope, and its first policy for the tool allows it. *)
Lemma gateway_allow_iff g server tool repo live :
  gateway_check g server tool repo live = GAllow ↔
  ∃ record, g !! server = Some record ∧ no_drift record live ∧ repo ∈ sr_allowed_repos record ∧
            tool_decision record tool = Some Allow.
Proof.
  unfold gateway_check. destruct (g !! server) as [record|]; [|split; [done|by intros (? & ? & _)]].
  assert ((match sr_manifest_hash record, live with
           | Some pinned, Some live => negb (bool_decide (pinned = live)) | _, _ => false end) = false ↔ no_drift record live) as Hdrift.
  { unfold no_drift. destruct (sr_manifest_hash record) as [p|], live as [l|]; try (split; [intros _ ? ? ? ?; congruence|done]).
    rewrite negb_false_iff, bool_decide_eq_true. split; [by intros -> ? ? [= <-] [= <-]|]. intros H. by apply H. }
  assert (allows_repo record repo = true ↔ repo ∈ sr_allowed_repos record) as Hrepo.
  { unfold allows_repo. rewrite existsb_exists. unfold str_eq. split.
    - intros (x & Hx%list_elem_of_In & ->%bool_decide_eq_true). done.
    - intros Hin. exists repo. split; [by apply list_elem_of_In|by apply bool_decide_eq_true]. }
  match goal with |- context [if ?b then GDeny ManifestDrift else _] => destruct b eqn:Ed end.
  { split; [done|]. intros (r & [= <-] & Hd & _). apply Hdrift in Hd. congruence. }
  destruct (allows_repo record repo) eqn:Er; cbn [negb].
  - destruct (tool_decision record tool) as [[]|] eqn:Et; (split; [try done|]).
    + intros _. exists record. split; [done|]. split; [by apply Hdrift|]. split; [by apply Hrepo|done].
    + by intros _.
    + intros (r & [= <-] & _ & _ & ?). congruence.
    + intros (r & [= <-] & _ & _ & ?). congruence.
    + intros (r & [= <-] & _ & _ & ?). congruence.
  - split; [done|]. intros (r & [= <-] & _ & Hr & _). apply Hrepo in Hr. congruence.
Qed.

(** ** The gated call *)

Lemma summary_ok r text :
  bounded (to_model_visible r text) MAX_MCP_SUMMARY `prefix_of` to_model_visible r text ∧
  (byte_length (bounded (to_model_visible r text) MAX_MCP_SUMMARY) ≤ MAX_MCP_SUMMARY)%nat.
Proof.
  assert (Forall is_scalar (to_model_visible r text)) as Hs by apply chars_of_spec.
  destruct (truncated_chars_split _ MAX_MCP_SUMMARY Hs) as (Hp & Hl & _).
  unfold bounded. assert (Forall is_scalar (truncated_chars (to_model_visible r text) MAX_MCP_SUMMARY)) as Ht by apply chars_of_spec.
  assert (∀ t, Forall is_scalar t → to_model_visible Redactor_new t = t) as ->; [|done|done].
  intros t Hst. unfold to_model_visible. rewrite redact_clean by done. by apply chars_of_to_utf8.
Qed.

Section CallTheorems.
Context `{HS : Hash} `{MC : Mac} `{J : SerdeJson} {W S : Type} `{!McpTransport W} `{!SecretStore S}.

(** The header a server's record asks for: none, or the bearer of the secret it names, which the
    broker's store holds. *)
Definition authenticated (record : McpServerRecord) (ctx : option (McpAuthContext S)) (inj : option HeaderInjection) : Prop :=
  match sr_auth record with
  | AuthNone => inj = None
  | BrokerSecret id =>
      ∃ c material h, ctx = Some c ∧ store_get (br_store (ac_broker c)) id = Some material ∧
        inj = Some h ∧ header_name h = lit "Authorization" ∧ reveal h = lit "Bearer " ++ material
  end.
Lemma resolve_auth_Ok record ctx inj :
  resolve_auth (sr_auth record) ctx = Ok inj → authenticated record ctx inj.
Proof.
  unfold resolve_auth, authenticated. destruct (sr_auth record) as [|id]; [by intros [= <-]|].
  destruct ctx as [c|]; [|done]. cbn [ok_or mbind result_bind]. unfold authorize.
  destruct (store_get _ id) as [material|] eqn:E; [|done]. cbn [ok_or mbind result_bind map_err].
  unfold bearer, expose. cbn [v_consumed v_expires_at v_material]. destruct (_ <=? _); [done|].
  cbn [mbind result_bind map_err]. intros [= <-]. by eexists c, material, _.
Qed.

(** What a call does: nothing at all unless the registry allows it and the credential it needs is at
    hand; then one request with that credential in its header and nowhere else, whose answer becomes
    a redacted and bounded summary with a receipt, or whose error is returned. *)
Lemma call_tool_cases g c (ctx : option (McpAuthContext S)) r ids (w : W) rc :
  (∃ out, call_tool g c ctx r ids w rc = (Ok out, w, rc) ∧
     match out with
     | Denied d => gateway_check g (tc_server c) (tc_tool c) (tc_repo c) (tc_live_manifest_hash c) = GDeny d
     | NeedsApproval => gateway_check g (tc_server c) (tc_tool c) (tc_repo c) (tc_live_manifest_hash c) = GAsk
     | CredentialUnavailable id =>
         gateway_check g (tc_server c) (tc_tool c) (tc_repo c) (tc_live_manifest_hash c) = GAllow ∧
         resolve_auth (BrokerSecret id) ctx = Err id
     | Done _ => False
     end) ∨
  (∃ record inj, gateway_check g (tc_server c) (tc_tool c) (tc_repo c) (tc_live_manifest_hash c) = GAllow ∧
     g !! tc_server c = Some record ∧ authenticated record ctx inj ∧
     let '(res, w') := transport_call (lit "tools/call")
        (v_obj [field "name" (v_str (tc_tool c)); field "arguments" (tc_args c)]) inj w in
     match res with
     | Err e => call_tool g c ctx r ids w rc = (Err e, w', rc)
     | Ok raw =>
         let '(m, rc') := filter_result (tc_server c) (tc_tool c) (to_bytes (tc_args c)) (to_bytes raw) r rc ids in
         call_tool g c ctx r ids w rc = (Ok (Done m), w', rc')
     end).
Proof.
  unfold call_tool. destruct (gateway_check _ _ _ _ _) as [| |d] eqn:Eg; [|left; by eexists|left; by eexists].
  pose proof Eg as (record & Hrec & _)%gateway_allow_iff. rewrite Hrec.
  destruct (resolve_auth (sr_auth record) ctx) as [inj|id] eqn:Ea.
  - right. exists record, inj. split; [done|]. split; [done|]. split; [by apply resolve_auth_Ok|].
    destruct (transport_call _ _ inj w) as [[raw|e] w']; [|done].
    by destruct (filter_result _ _ _ _ _ _ _) as [m rc'].
  - left. exists (CredentialUnavailable id). split; [done|]. split; [done|].
    destruct (sr_auth record) as [|id'] eqn:Es; [done|].
    assert (id' = id) as ->; [|done].
    unfold resolve_auth in Ea. destruct ctx as [cx|]; cbn [ok_or mbind result_bind] in Ea; [|by injection Ea].
    destruct (map_err _ (authorize _ _ _ _ _)) as [view|?] eqn:Em; cbn [mbind result_bind] in Ea.
    + destruct (bearer _ _ _) as [? [inj|?]]; cbn in Ea; [done|by injection Ea].
    + injection Ea as <-. destruct (authorize _ _ _ _ _); cbn in Em; [done|by injection Em].
Qed.

(** C32: A server is called only for a tool that the registry allows in that repository, with its surface
    not known to have changed, and a server that needs a secret is only called with it; a result that
    is shown is the start of the redacted answer, within its bound, with a receipt over exactly the
    text shown, the arguments and the whole answer. *)
Theorem mcp_call_gated g c (ctx : option (McpAuthContext S)) r ids (w : W) rc out w' rc' :
  call_tool g c ctx r ids w rc = (out, w', rc') →
  (w' ≠ w ∨ rc' ≠ rc ∨ (∃ m, out = Ok (Done m)) ∨ (∃ e, out = Err e)) →
  ∃ record inj res,
    g !! tc_server c = Some record ∧ no_drift record (tc_live_manifest_hash c) ∧
    tc_repo c ∈ sr_allowed_repos record ∧ tool_decision record (tc_tool c) = Some Allow ∧
    authenticated record ctx inj ∧
    transport_call (lit "tools/call")
      (v_obj [field "name" (v_str (tc_tool c)); field "arguments" (tc_args c)]) inj w = (res, w') ∧
    match res with
    | Err e => out = Err e ∧ rc' = rc
    | Ok raw =>
        ∃ m, out = Ok (Done m) ∧ mr_artifact_hash m = hash (to_bytes raw) ∧
          mr_summary m `prefix_of` to_model_visible r (chars_of (from_utf8_lossy (to_bytes raw))) ∧
          (byte_length (mr_summary m) ≤ MAX_MCP_SUMMARY)%nat ∧
          (rc', mr_receipt m) = mint rc (call_params (lit "mcp:" ++ dec_u (tc_server c) ++ lit ":" ++ tc_tool c)
            (to_bytes (tc_args c)) (to_utf8 (mr_summary m)) (hash (to_bytes raw)) ids)
    end.
Proof.
  intros Hc Hobs. destruct (call_tool_cases g c ctx r ids w rc) as [(o & Ho & Hcase)|(record & inj & Hg & Hrec & Ha & Ht)].
  - rewrite Hc in Ho. injection Ho as -> -> ->.
    destruct Hobs as [?|[?|[[m [= ->]]|[e He]]]]; done.
  - apply gateway_allow_iff in Hg as (record' & Hr & Hd & Hrepo & Htool). rewrite Hrec in Hr. injection Hr as <-.
    destruct (transport_call _ _ inj w) as [res w2] eqn:Et. exists record, inj, res. do 5 (split; [done|]).
    destruct res as [raw|e].
    + unfold filter_result in Ht. destruct (mint rc _) as [chain receipt] eqn:Em. rewrite Hc in Ht. injection Ht as -> -> ->.
      split; [done|]. eexists. split; [done|]. cbn [mr_artifact_hash mr_summary mr_receipt].
      destruct (summary_ok r (chars_of (from_utf8_lossy (to_bytes raw)))) as [? ?]. by rewrite <-Em.
    + rewrite Hc in Ht. by injection Ht as -> -> ->.
Qed.
End CallTheorems.

(** ** Stdio *)

(** A message without result or error, as a notification is, is taken for the answer to a request;
    the answer itself stays in the stream and is returned for the next request. *)
Theorem stdio_notification_desync `{J : SerdeJson} {P : Type} (peer : P → bytes → result chars Stream * P)
    note reply1 more m1 m2 args1 args2 b1 b2 v1 v2 w p1 p2 :
  s_data (st_out w) = [] →
  v_to_vec (build_request_envelope (st_next_id w) m1 args1) = Ok b1 →
  v_to_vec (build_request_envelope (Z.min i64_MAX (st_next_id w + 1)) m2 args2) = Ok b2 →
  peer (st_peer w) (frame b1) = (Ok (mkStream (frame note ++ frame reply1) None), p1) →
  peer p1 (frame b2) = (Ok more, p2) →
  Z.of_nat (length note) ≤ MAX_MESSAGE_BYTES → Z.of_nat (length reply1) ≤ MAX_MESSAGE_BYTES →
  v_from_slice note = Ok v1 → v_get v1 (lit "error") = None → v_get v1 (lit "result") = None →
  v_from_slice reply1 = Ok v2 →
  let '(r1, w1) := stdio_call peer m1 args1 None w in
  let '(r2, _) := stdio_call peer m2 args2 None w1 in
  r1 = Err (BadResponse (lit "no result/error member")) ∧ r2 = parse_rpc_result v2.
Proof.
  intros Hempty Hb1 Hb2 Hp1 Hp2 Hn Hr Hv1 He Hres Hv2. unfold stdio_call at 1. cbn [st_next_id st_peer st_out].
  rewrite Hb1, Hp1, Hempty. cbn [app s_data s_end]. unfold read_framed_message.
  rewrite frame_roundtrip by done. rewrite Hv1. cbn [map_err mbind result_bind].
  unfold stdio_call. cbn [st_next_id st_peer st_out s_data s_end]. rewrite Hb2, Hp2. unfold read_framed_message.
  rewrite frame_roundtrip by done. rewrite Hv2. cbn [map_err mbind result_bind]. split; [|done].
  unfold parse_rpc_result. by rewrite He, Hres.
Qed.

(** ** The server *)

Section ServeTheorems.
Context `{HS : Hash} `{MC : Mac} `{J : SerdeJson} {H : Type} `{!ToolHandler H}.

(** The handler runs, and a receipt is minted, only for a call of a tool that is exposed and allowed;
    what leaves is the start of the redacted output, or of the redacted error, within its bound. *)
Theorem serve_gated version s request r ids (h : H) rc reply h' rc' :
  handle_request version s request r ids h rc = (reply, h', rc') →
  (h' ≠ h ∨ rc' ≠ rc) →
  ∃ params tool args out,
    v_get request (lit "method") ≫= v_as_str = Some (lit "tools/call") ∧
    v_get request (lit "params") = Some params ∧ v_get params (lit "name") ≫= v_as_str = Some tool ∧
    server_decision s tool = Some Allow ∧ execute tool args h = (out, h') ∧
    ∃ text shown, shown `prefix_of` to_model_visible r text ∧ (byte_length shown ≤ MAX_MCP_SUMMARY)%nat ∧
      match out with
      | Err e => text = e ∧ rc' = rc ∧ reply = rpc_error (default v_null (v_get request (lit "id"))) ERR_TOOL_FAILED shown
      | Ok output =>
          text = chars_of (from_utf8_lossy output) ∧
          rc' = (mint rc (call_params (lit "mcp-server:" ++ tool) args (to_utf8 shown) (hash output) ids)).1 ∧
          reply = rpc_result (default v_null (v_get request (lit "id")))
            (v_obj [field "content" (v_arr [v_obj [field "type" (v_str (lit "text")); field "text" (v_str shown)]])])
      end.
Proof.
  unfold handle_request. intros Hreq Hobs. unfold str_eq in Hreq.
  destruct (bool_decide (_ = lit "initialize")); [injection Hreq as _ <- <-; naive_solver|].
  destruct (bool_decide (_ = lit "tools/list")); [injection Hreq as _ <- <-; naive_solver|].
  case_bool_decide as Hm; [|injection Hreq as _ <- <-; naive_solver].
  assert (v_get request (lit "method") ≫= v_as_str = Some (lit "tools/call")) as Hmeth
    by (destruct (v_get request (lit "method") ≫= v_as_str); simpl in Hm; [by f_equal|done]).
  unfold handle_call in Hreq. destruct (v_get request (lit "params")) as [params|] eqn:Ep; cbn [mbind option_bind] in Hreq;
    [|injection Hreq as _ <- <-; naive_solver].
  destruct (v_get params (lit "name") ≫= v_as_str) as [tool|] eqn:En; [|cbn in Hreq; injection Hreq as _ <- <-; naive_solver].
  destruct (server_decision s tool) as [[]|] eqn:Ed; try (injection Hreq as _ <- <-; naive_solver).
  set (args := to_bytes _) in Hreq. exists params, tool, args.
  assert (∀ t, truncated_chars (to_model_visible r t) MAX_MCP_SUMMARY `prefix_of` to_model_visible r t ∧
    (byte_length (truncated_chars (to_model_visible r t) MAX_MCP_SUMMARY) ≤ MAX_MCP_SUMMARY)%nat) as Hcut.
  { intros t. destruct (truncated_chars_split (to_model_visible r t) MAX_MCP_SUMMARY) as (? & ? & _); [apply chars_of_spec|done]. }
  destruct (execute tool args h) as [[output|e] h2]; cbn beta in Hreq.
  - exists (Ok output). destruct (mint rc _) as [chain receipt] eqn:Em. injection Hreq as <- <- <-.
    do 5 (split; [done|]). destruct (Hcut (chars_of (from_utf8_lossy output))) as [Hp Hl].
    eexists _, _. split; [exact Hp|]. split; [exact Hl|]. split; [done|]. split; [|done]. by rewrite Em.
  - exists (Err e). injection Hreq as <- <- <-. do 5 (split; [done|]). destruct (Hcut e) as [Hp Hl].
    eexists _, _. split; [exact Hp|]. split; [exact Hl|]. done.
Qed.
End ServeTheorems.

(** ** Examples *)

#[local] Transparent MAX_HEADER_BYTES MAX_MCP_SUMMARY.

Import Serde.Demo.
#[local] Existing Instance json_laws.
#[local] Instance demo_json : SerdeJson := json (λ b, if starts_with [34] b then Ok (JStr (chars_of b)) else Ok JNull).
(** A transport that notes the headers it is given. *)
#[local] Instance demo_transport : McpTransport (list (option HeaderInjection)) :=
  λ _ _ auth w, (Ok (JStr (lit "token tk-12345 ok")), w ++ [auth]).
#[local] Instance demo_handler : ToolHandler nat := λ tool _ h, (Ok (to_utf8 tool), S h).

Definition demo_record : McpServerRecord :=
  mkServerRecord 7 (Package (lit "p")) Http None None (BrokerSecret 1) Untrusted [lit "o/r"] [mkToolPolicy (lit "read") Allow].
Definition demo_broker : SecretBroker InMemoryStore :=
  SecretBroker_new (store_insert InMemoryStore_new 1 (lit "mcp") (lit "tk-12345")).
Definition demo_ctx : McpAuthContext InMemoryStore := mkAuthContext demo_broker 3 100 50 (lit "mcp").
Definition demo_call : ToolCall := mkToolCall 7 (lit "read") (lit "o/r") (JObj []) None.
Definition demo_ids : McpCallIds := mkCallIds 1 2 3 4.
Definition demo_outcome :=
  call_tool {[7 := demo_record]} demo_call (Some demo_ctx) (br_redactor demo_broker) demo_ids [] (ReceiptChain_new (lit "k")).

Lemma mcp_call_gated_witness :
  ∃ record inj, ({[7 := demo_record]} : gmap Z McpServerRecord) !! 7 = Some record ∧
    authenticated record (Some demo_ctx) inj ∧
    length (match demo_outcome with (_, w, _) => w end) = 1%nat.
Proof.
  destruct (mcp_call_gated {[7 := demo_record]} demo_call (Some demo_ctx) (br_redactor demo_broker) demo_ids []
    (ReceiptChain_new (lit "k")) demo_outcome.1.1 demo_outcome.1.2 demo_outcome.2) as (record & inj & _ & H1 & _ & _ & _ & H2 & _).
  - by destruct demo_outcome as [[? ?] ?] eqn:E.
  - left. vm_compute. discriminate.
  - exists record, inj. split; [exact H1|]. split; [exact H2|]. vm_compute. reflexivity.
Defined.
Lemma serve_gated_witness :
  ∃ tool, server_decision {[lit "verify" := mkExposed (lit "verify") [] Allow]} tool = Some Allow.
Proof.
  set (s := {[lit "verify" := mkExposed (lit "verify") [] Allow]} : gmap chars ExposedTool).
  set (q := JObj [(lit "method", JStr (lit "tools/call")); (lit "params", JObj [(lit "name", JStr (lit "verify"))])] : @Value demo_json).
  set (o := handle_request (lit "1") s q Redactor_new demo_ids 0%nat (ReceiptChain_new (lit "k"))).
  destruct (serve_gated (lit "1") s q Redactor_new demo_ids 0%nat (ReceiptChain_new (lit "k")) o.1.1 o.1.2 o.2)
    as (params & tool & args & out & _ & _ & _ & H1 & _).
  - by destruct o as [[? ?] ?] eqn:E.
  - left. vm_compute. discriminate.
  - exists tool. exact H1.
Defined.
Lemma manifest_text_exact_witness :
  manifest_text [mkDescriptor (lit "b") (lit "x"); mkDescriptor (lit "a") []] =
  manifest_text [mkDescriptor (lit "a") (lit "y"); mkDescriptor (lit "b") []; mkDescriptor (lit "a") []].
Proof.
  apply (manifest_text_exact [mkDescriptor (lit "b") (lit "x"); mkDescriptor (lit "a") []]
    [mkDescriptor (lit "a") (lit "y"); mkDescriptor (lit "b") []; mkDescriptor (lit "a") []]);
    [apply (bool_decide_unpack _); by vm_compute..|]. intros n. set_solver.
Defined.
