(* ===== verification/Debug.v ===== *)
(** * Derived debug output

    What [{:?}] writes for a value whose type derives [Debug]: structures with named fields, tuple
    structures and variants, lists, strings. Which characters of a string are printed as they are is
    a table of Unicode, an argument. *)

From S2P Require Import Prelude Text Std Chars Redactor Strings.

Inductive Dbg :=
| DInt (n : Z) | DBool (b : bool) | DStr (s : chars) | DList (l : list Dbg)
| DTuple (name : string) (args : list Dbg)
| DStruct (name : string) (fields : list (string * Dbg)).
Definition DUnit (name : string) : Dbg := DStruct name [].
Definition DOption (o : option Dbg) : Dbg := match o with Some d => DTuple "Some" [d] | None => DUnit "None" end.

(** The pieces with a comma and a space between. *)
Fixpoint commas (l : list chars) : chars :=
  match l with
  | [] => []
  | [x] => x
  | x :: rest => x ++ lit ", " ++ commas rest
  end.
(** [{:x}]: no leading zeros. *)
Fixpoint hex_lower (fuel : nat) (n : Z) : chars :=
  match fuel with
  | O => []
  | S fuel' => (if n <? 16 then [] else hex_lower fuel' (n / 16)) ++ [let d := n mod 16 in if d <? 10 then 48 + d else 87 + d]
  end.

Section Render.
Context (printable : Z → bool).
Definition debug_char (c : Z) : chars :=
  if c =? 0 then lit "\0"
  else if c =? 9 then lit "\t"
  else if c =? 10 then lit "\n"
  else if c =? 13 then lit "\r"
  else if (c =? 34) || (c =? 92) then [92; c]
  else if printable c then [c]
  else lit "\u{" ++ hex_lower 6 c ++ lit "}".
Definition debug_string (s : chars) : chars := [34] ++ (s ≫= debug_char) ++ [34].
Fixpoint debug_fmt (d : Dbg) : chars :=
  match d with
  | DInt n => dec_i n
  | DBool b => lit (if b then "true" else "false")
  | DStr s => debug_string s
  | DList l => lit "[" ++ commas (List.map debug_fmt l) ++ lit "]"
  | DTuple name args => lit name ++ lit "(" ++ commas (List.map debug_fmt args) ++ lit ")"
  | DStruct name [] => lit name
  | DStruct name fields =>
      lit name ++ lit " { " ++ commas (List.map (λ f, lit f.1 ++ lit ": " ++ debug_fmt f.2) fields) ++ lit " }"
  end.
End Render.
