(* ===== verification/Dev.v ===== *)
(** * The developer console (crate [crustcore-dev])

    A local web console over the event log. Requests are bounded as they are built, authenticated by
    the token of the launch, refused off loopback, and looked up in a table of routes; reads get views,
    and the one route that mutates hands an operation-bound resolution to the backend. The backend is
    an interface: its reads give no new state. The web server itself, a third-party library, is
    modelled as far as the source translates its requests and responses. *)

From S2P Require Import Prelude Text Std Chars Redactor Strings Sha256 Types EventLog Receipts Debug.

(** ** Requests ([request.rs]) *)

Definition MAX_HEADER_BYTES : Z := 8 * 1024.
Definition MAX_HEADERS : Z := 64.
Definition MAX_PATH_BYTES : Z := 4 * 1024.
Definition MAX_QUERY_BYTES : Z := 8 * 1024.
Definition MAX_BODY_BYTES : Z := 64 * 1024.
Definition MAX_QUERY_PARAMS : Z := 64.

Inductive Method := Get | Post.
#[export] Instance Method_eq_dec : EqDecision Method.
Proof. solve_decision. Defined.
Definition method_parse (s : chars) : option Method :=
  let s := to_ascii_uppercase s in
  if str_eq s (lit "GET") then Some Get else if str_eq s (lit "POST") then Some Post else None.

Inductive RequestError := UnknownVerb | PathTooLong | QueryTooLarge | HeaderTooLarge | BodyTooLarge.
Definition request_error_fmt (e : RequestError) : chars :=
  lit match e with
      | UnknownVerb => "unknown HTTP verb"
      | PathTooLong => "request path too long"
      | QueryTooLarge => "query string too large"
      | HeaderTooLarge => "header value too large"
      | BodyTooLarge => "request body too large"
      end.
Record DevRequest := mkRequest {
  rq_method : Method; rq_path : chars; rq_headers : gmap chars chars; rq_query : gmap chars chars;
  rq_body : bytes; rq_peer_is_loopback : bool }.

Definition str_len (s : chars) : Z := Z.of_nat (byte_length s).
Fixpoint header_map (m : gmap chars chars) (headers : list (chars * chars)) : result RequestError (gmap chars chars) :=
  match headers with
  | [] => Ok m
  | (k, v) :: rest =>
      if MAX_HEADERS <=? Z.of_nat (size m) then Err HeaderTooLarge
      else if (MAX_HEADER_BYTES <? str_len k) || (MAX_HEADER_BYTES <? str_len v) then Err HeaderTooLarge
      else header_map (<[to_ascii_lowercase k := v]> m) rest
  end.
Fixpoint query_map (m : gmap chars chars) (qbytes : Z) (query : list (chars * chars))
  : result RequestError (gmap chars chars) :=
  match query with
  | [] => Ok m
  | (k, v) :: rest =>
      if MAX_QUERY_PARAMS <=? Z.of_nat (size m) then Err QueryTooLarge
      else
        let qbytes := saturating_add u64_MAX (saturating_add u64_MAX qbytes (str_len k)) (str_len v) in
        if MAX_QUERY_BYTES <? qbytes then Err QueryTooLarge
        else query_map (<[k := v]> m) qbytes rest
  end.
Definition DevRequest_new (method path : chars) (headers query : list (chars * chars)) (body : bytes)
  : result RequestError DevRequest :=
  match method_parse method with
  | None => Err UnknownVerb
  | Some method =>
      if MAX_PATH_BYTES <? str_len path then Err PathTooLong
      else
        hmap ← header_map ∅ headers;
        qmap ← query_map ∅ 0 query;
        if MAX_BODY_BYTES <? Z.of_nat (length body) then Err BodyTooLarge
        else Ok (mkRequest method path hmap qmap body true)
  end.
Definition with_peer_loopback (r : DevRequest) (is_loopback : bool) : DevRequest :=
  mkRequest (rq_method r) (rq_path r) (rq_headers r) (rq_query r) (rq_body r) is_loopback.
Definition header (r : DevRequest) (name : chars) : option chars := rq_headers r !! to_ascii_lowercase name.
Definition query (r : DevRequest) (name : chars) : option chars := rq_query r !! name.

Inductive Status := SOk | BadRequest | Unauthorized | Forbidden | NotFound | Conflict.
#[export] Instance Status_eq_dec : EqDecision Status.
Proof. solve_decision. Defined.
Definition status_code (s : Status) : Z :=
  match s with SOk => 200 | BadRequest => 400 | Unauthorized => 401 | Forbidden => 403 | NotFound => 404 | Conflict => 409 end.
Record DevResponse := mkDevResponse { rs_status : Status; rs_body : chars }.
Definition resp_ok (body : chars) : DevResponse := mkDevResponse SOk body.

(** ** Routes ([route_class.rs]) *)

Inductive RouteClass := ReadOnly | Mutating.
Definition is_mutating (c : RouteClass) : bool := match c with Mutating => true | ReadOnly => false end.
Record RouteSpec := mkRoute { rt_path : string; rt_method : Method; rt_class : RouteClass }.
Definition route_read (path : string) : RouteSpec := mkRoute path Get ReadOnly.
Definition route_mutating (path : string) : RouteSpec := mkRoute path Post Mutating.
Definition ROUTES : list RouteSpec :=
  [route_read "/"; route_read "/assets"; route_read "/ws"; route_read "/inspector"; route_read "/replay";
   route_read "/provider"; route_read "/mcp"; route_read "/flow"; route_read "/sessions"; route_read "/approvals";
   route_read "/cockpit"; route_mutating "/approvals/resolve"].
Definition lookup_route (m : Method) (path : chars) : option RouteSpec :=
  List.find (λ r, bool_decide (rt_method r = m) && str_eq (lit (rt_path r)) path) ROUTES.

(** ** Authentication ([auth.rs]) *)

Definition TOKEN_BYTES : nat := 32.
Record BearerToken := mkToken { bt_bytes : bytes }.
Definition reveal_once (t : BearerToken) : chars := hex_of (bt_bytes t).
Definition slices_eq (a b : bytes) : bool := (length a =? length b)%nat && ct_eq a b.
Fixpoint decode_hex (s : bytes) : option bytes :=
  match s with
  | [] => Some []
  | hi :: lo :: rest =>
      hi ← hex_val hi; lo ← hex_val lo; rest ← decode_hex rest; Some (Z.lor (Z.shiftl hi 4) lo :: rest)
  | [_] => None
  end.
Definition token_matches (t : BearerToken) (presented : chars) : bool :=
  match decode_hex (to_utf8 presented) with
  | None => false
  | Some decoded => (length decoded =? TOKEN_BYTES)%nat && slices_eq (bt_bytes t) decoded
  end.
Inductive AuthOutcome := Authorized | MissingToken | BadToken.
Definition authenticate (t : BearerToken) (req : DevRequest) : AuthOutcome :=
  match header req (lit "authorization") with
  | None => MissingToken
  | Some h =>
      match (match strip_prefix (lit "Bearer ") h with Some r => Some r | None => strip_prefix (lit "bearer ") h end) with
      | None => MissingToken
      | Some rest => if token_matches t (trim rest) then Authorized else BadToken
      end
  end.
(** What the source of random bytes leaves in the buffer, if it opens at all. *)
Definition mint_launch_token (urandom : option (bytes → bytes)) : BearerToken :=
  let buf := repeat 0 TOKEN_BYTES in
  mkToken (match urandom with Some fill => fill buf | None => buf end).

(** ** The launch configuration ([config.rs]) *)

Inductive IpAddr := V4 (a b c d : Z) | V6 (segments : list Z).
(** [IpAddr::is_loopback]. *)
Definition ip_is_loopback (ip : IpAddr) : bool :=
  match ip with V4 a _ _ _ => a =? 127 | V6 s => bool_decide (s = [0; 0; 0; 0; 0; 0; 0; 1]) end.
Definition LOOPBACK : IpAddr := V4 127 0 0 1.
Definition DEFAULT_PORT : Z := 8787.
Inductive ConfigError := OffLoopbackNotAcknowledged (ip : IpAddr).
Record DevConfig := mkConfig { cf_host : IpAddr; cf_port : Z; cf_mutation_enabled : bool; cf_off_loopback : bool }.
Definition DevConfig_default : DevConfig := mkConfig LOOPBACK DEFAULT_PORT false false.
Definition set_port (c : DevConfig) (port : Z) : DevConfig :=
  mkConfig (cf_host c) port (cf_mutation_enabled c) (cf_off_loopback c).
Definition bind_host (c : DevConfig) (host : IpAddr) (acknowledge_exposure : bool) : result ConfigError DevConfig :=
  if ip_is_loopback host then Ok (mkConfig host (cf_port c) (cf_mutation_enabled c) false)
  else if negb acknowledge_exposure then Err (OffLoopbackNotAcknowledged host)
  else Ok (mkConfig host (cf_port c) (cf_mutation_enabled c) true).
Definition enable_mutation (c : DevConfig) : DevConfig := mkConfig (cf_host c) (cf_port c) true (cf_off_loopback c).

(** ** Views and the backend ([backend.rs]) *)

Record ReplayRow := mkReplayRow {
  rr_seq : EventSeq; rr_kind : chars; rr_model_visible : bool; rr_redacted : bool; rr_artifact : option bytes }.
Record ReplayView := mkReplay { rv_chain : ChainStatus; rv_join : option JoinStatus; rv_rows : list ReplayRow }.
Record TaskRow := mkTaskRow {
  tr_task_id : Z; tr_frames : nat; tr_first_seq : EventSeq; tr_last_seq : EventSeq; tr_terminal : option chars }.
Record RunInspectorView := mkInspector { iv_chain : ChainStatus; iv_total_frames : nat; iv_tasks : list TaskRow }.
Record ModelCardView := mkCardView {
  cv_provider : chars; cv_model : chars; cv_healthy : bool; cv_context : Z; cv_tools : bool; cv_cost : Z }.
Record McpServerView := mkServerView {
  ms_server_id : Z; ms_source : chars; ms_manifest_intact : bool; ms_tool_decisions : list (chars * chars) }.
Record FlowGraphView := mkGraphView { gv_nodes : list (Z * chars); gv_edges : list (Z * Z); gv_entry : Z }.
Record FlowStepView := mkStepView { sv_node_id : Z; sv_kind : chars; sv_note : chars; sv_finished : bool }.
Record ApprovalView := mkApprovalView {
  av_approval_id : Z; av_op_hash_hex : chars; av_summary : chars; av_expires_at_millis : Z }.
Inductive DispatchResult := DApproved (approval_id : Z) | DDenied (approval_id : Z) | DRejected (reason : chars).
Class DevBackend (B : Type) := {
  run_inspector : B → RunInspectorView;
  replay : B → ReplayView;
  provider_cards : B → list ModelCardView;
  mcp_servers : B → list McpServerView;
  flow_graph : B → FlowGraphView;
  flow_step : B → Z → option FlowStepView;
  sessions : B → list Z;
  pending_approvals : B → list ApprovalView;
  dispatch_resolution : B → Z → bool → chars → DispatchResult * B }.

(** ** The cockpit ([views/cockpit.rs]) *)

Definition MAX_COCKPIT_TASKS : nat := 256.
Definition MAX_COCKPIT_APPROVALS : nat := 64.
Record TaskDetailView := mkDetail {
  td_task_id : Z; td_frames : nat; td_first_seq : Z; td_last_seq : Z; td_terminal : option chars; td_evidence : list chars }.
Definition detail_from_row (row : TaskRow) : TaskDetailView :=
  let refs := [lit "frames: " ++ dec_u (Z.of_nat (tr_frames row));
               lit "seq: " ++ dec_u (tr_first_seq row) ++ lit ".." ++ dec_u (tr_last_seq row)] in
  let refs := match tr_terminal row with Some t => refs ++ [lit "terminal: " ++ t] | None => refs end in
  mkDetail (tr_task_id row) (tr_frames row) (tr_first_seq row) (tr_last_seq row) (tr_terminal row) refs.
(** [ApprovalFormView::from_view] copies the four fields. *)
Record ApprovalFormView := mkForm {
  fv_approval_id : Z; fv_op_hash_hex : chars; fv_summary : chars; fv_expires_at_millis : Z }.
Definition form_from_view (a : ApprovalView) : ApprovalFormView :=
  mkForm (av_approval_id a) (av_op_hash_hex a) (av_summary a) (av_expires_at_millis a).
Record CockpitView := mkCockpit {
  ck_chain_intact : bool; ck_tasks : list TaskDetailView; ck_approvals : list ApprovalFormView }.
Definition build_cockpit {B} `{DevBackend B} (b : B) : CockpitView :=
  mkCockpit (is_intact (iv_chain (run_inspector b)))
    (detail_from_row <$> take MAX_COCKPIT_TASKS (iv_tasks (run_inspector b)))
    (form_from_view <$> take MAX_COCKPIT_APPROVALS (pending_approvals b)).

(** ** The snapshot stream ([stream.rs]) *)

Definition MAX_SNAPSHOT_APPROVALS : nat := 256.
Definition MAX_SNAPSHOT_TASKS : nat := 256.
Record SnapshotCursor := mkCursor { cu_frames : nat; cu_pending : Z; cu_seq : Z }.
Definition cursor_start : SnapshotCursor := mkCursor 0 0 0.
Record DevSnapshot := mkSnapshot {
  ds_inspector : RunInspectorView; ds_approvals : list ApprovalView; ds_frames : nat; ds_pending : Z }.
(** [cursor.seq + 1] would overflow after 2^64 frames. *)
Definition next_snapshot {B} `{DevBackend B} (b : B) (cursor : SnapshotCursor) : option DevSnapshot * SnapshotCursor :=
  let inspector := run_inspector b in
  let approvals := pending_approvals b in
  let frames := iv_total_frames inspector in
  let pending := Z.of_nat (length approvals) mod 2 ^ 32 in
  let changed := (cu_seq cursor =? 0) || negb (frames =? cu_frames cursor)%nat || negb (pending =? cu_pending cursor) in
  if negb changed then (None, cursor)
  else
    (Some (mkSnapshot (mkInspector (iv_chain inspector) frames (take MAX_SNAPSHOT_TASKS (iv_tasks inspector)))
             (take MAX_SNAPSHOT_APPROVALS approvals) frames pending),
     mkCursor frames pending (cu_seq cursor + 1)).
(** The ticks of an open stream: the backend as it is at each. *)
Fixpoint snapshot_ticks {B} `{DevBackend B} (cursor : SnapshotCursor) (ticks : list B) : list (Z * DevSnapshot) :=
  match ticks with
  | [] => []
  | b :: rest =>
      let '(frame, cursor) := next_snapshot b cursor in
      match frame with Some f => [(cu_seq cursor, f)] | None => [] end ++ snapshot_ticks cursor rest
  end.

(** ** What the views are written as *)

Definition dbg_some {A} (f : A → Dbg) (o : option A) : Dbg := DOption (f <$> o).
Definition dbg_chain (s : ChainStatus) : Dbg :=
  match s with
  | Intact n => DStruct "Intact" [("frames", DInt (Z.of_nat n))]
  | Broken i r =>
      DStruct "Broken" [("frame_index", DInt (Z.of_nat i)); ("reason", DUnit match r with
        | BadMagic => "BadMagic" | BadVersion => "BadVersion" | BadDiscriminant => "BadDiscriminant"
        | Truncated => "Truncated" | PayloadHashMismatch => "PayloadHashMismatch"
        | FrameHashMismatch => "FrameHashMismatch" | PrevHashMismatch => "PrevHashMismatch"
        | NonMonotonicSeq => "NonMonotonicSeq" | HeadMismatch => "HeadMismatch" end)]
  end%string.
Definition dbg_join (s : JoinStatus) : Dbg :=
  match s with
  | Joined n => DStruct "Joined" [("count", DInt (Z.of_nat n))]
  | JBroken i r =>
      DStruct "Broken" [("index", DInt (Z.of_nat i)); ("reason", DUnit match r with
        | NoFrameAtSeq => "NoFrameAtSeq" | NotAToolCompletion => "NotAToolCompletion"
        | TaskMismatch => "TaskMismatch" | JobMismatch => "JobMismatch" end)]
  end%string.
Definition dbg_seq (s : EventSeq) : Dbg := DTuple "EventSeq" [DInt s].
Definition dbg_task (t : TaskRow) : Dbg :=
  DStruct "TaskRow" [("task_id", DTuple "TaskId" [DInt (tr_task_id t)]); ("frames", DInt (Z.of_nat (tr_frames t)));
    ("first_seq", dbg_seq (tr_first_seq t)); ("last_seq", dbg_seq (tr_last_seq t)); ("terminal", dbg_some DStr (tr_terminal t))]%string.
Definition dbg_inspector (v : RunInspectorView) : Dbg :=
  DStruct "RunInspectorView" [("chain", dbg_chain (iv_chain v)); ("total_frames", DInt (Z.of_nat (iv_total_frames v)));
    ("tasks", DList (dbg_task <$> iv_tasks v))]%string.
Definition dbg_row (r : ReplayRow) : Dbg :=
  DStruct "ReplayRow" [("seq", dbg_seq (rr_seq r)); ("kind", DStr (rr_kind r)); ("model_visible", DBool (rr_model_visible r));
    ("redacted", DBool (rr_redacted r)); ("artifact", dbg_some (λ a, DTuple "ArtifactId" [DList (DInt <$> a)]) (rr_artifact r))]%string.
Definition dbg_replay (v : ReplayView) : Dbg :=
  DStruct "ReplayView" [("chain", dbg_chain (rv_chain v)); ("join", dbg_some dbg_join (rv_join v));
    ("rows", DList (dbg_row <$> rv_rows v))]%string.
Definition dbg_card (c : ModelCardView) : Dbg :=
  DStruct "ModelCardView" [("provider", DStr (cv_provider c)); ("model", DStr (cv_model c)); ("healthy", DBool (cv_healthy c));
    ("context", DInt (cv_context c)); ("tools", DBool (cv_tools c)); ("cost_per_1k_micros", DInt (cv_cost c))]%string.
Definition dbg_pair (p : chars * chars) : Dbg := DTuple "" [DStr p.1; DStr p.2].
Definition dbg_server (s : McpServerView) : Dbg :=
  DStruct "McpServerView" [("server_id", DInt (ms_server_id s)); ("source", DStr (ms_source s));
    ("manifest_intact", DBool (ms_manifest_intact s)); ("tool_decisions", DList (dbg_pair <$> ms_tool_decisions s))]%string.
Definition dbg_graph (g : FlowGraphView) : Dbg :=
  DStruct "FlowGraphView" [("nodes", DList ((λ n : Z * chars, DTuple "" [DInt n.1; DStr n.2]) <$> gv_nodes g));
    ("edges", DList ((λ e : Z * Z, DTuple "" [DInt e.1; DInt e.2]) <$> gv_edges g)); ("entry", DInt (gv_entry g))]%string.
Definition dbg_sessions (l : list Z) : Dbg :=
  DStruct "SessionListView" [("sessions", DList ((λ t, DTuple "TaskId" [DInt t]) <$> l))]%string.
Definition dbg_approval (a : ApprovalView) : Dbg :=
  DStruct "ApprovalView" [("approval_id", DInt (av_approval_id a)); ("op_hash_hex", DStr (av_op_hash_hex a));
    ("summary", DStr (av_summary a)); ("expires_at_millis", DInt (av_expires_at_millis a))]%string.
Definition dbg_detail (t : TaskDetailView) : Dbg :=
  DStruct "TaskDetailView" [("task_id", DInt (td_task_id t)); ("frames", DInt (Z.of_nat (td_frames t)));
    ("first_seq", DInt (td_first_seq t)); ("last_seq", DInt (td_last_seq t)); ("terminal", dbg_some DStr (td_terminal t));
    ("evidence", DStruct "EvidenceSummaryView" [("refs", DList (DStr <$> td_evidence t))])]%string.
Definition dbg_form (a : ApprovalFormView) : Dbg :=
  DStruct "ApprovalFormView" [("approval_id", DInt (fv_approval_id a)); ("op_hash_hex", DStr (fv_op_hash_hex a));
    ("summary", DStr (fv_summary a)); ("expires_at_millis", DInt (fv_expires_at_millis a))]%string.
Definition dbg_cockpit (c : CockpitView) : Dbg :=
  DStruct "CockpitView" [("chain_intact", DBool (ck_chain_intact c)); ("tasks", DList (dbg_detail <$> ck_tasks c));
    ("approvals", DList (dbg_form <$> ck_approvals c))]%string.
Definition dbg_snapshot (s : DevSnapshot) : Dbg :=
  DStruct "DevSnapshot" [("inspector", dbg_inspector (ds_inspector s)); ("approvals", DList (dbg_approval <$> ds_approvals s));
    ("frames", DInt (Z.of_nat (ds_frames s))); ("pending", DInt (ds_pending s))]%string.

(** ** Resolutions and the router ([mutation.rs]) *)

Inductive MutationError := MutationDisabled | MalformedResolution | BadOpHash.
Record ApprovalDispatch := mkDispatch { ad_approval_id : Z; ad_approve : bool; ad_op_hash_hex : chars }.
Record DispatchFields := mkFields { df_id : option Z; df_approve : option bool; df_hash : option chars }.
Definition is_hexdigit (b : Z) : bool := is_digit b || in_range 97 102 b || in_range 65 70 b.
Definition dispatch_field (d : DispatchFields) (pair : chars) : DispatchFields :=
  match split_once 61 pair with
  | None => d
  | Some (k, v) =>
      if str_eq k (lit "approval_id") then mkFields (parse_uint u128_MAX v) (df_approve d) (df_hash d)
      else if str_eq k (lit "decision") then
        mkFields (df_id d) (if str_eq v (lit "approve") then Some true else if str_eq v (lit "deny") then Some false else None)
          (df_hash d)
      else if str_eq k (lit "op_hash") && (byte_length v =? 64)%nat && forallb is_hexdigit (to_utf8 v) then
        mkFields (df_id d) (df_approve d) (Some (to_ascii_lowercase v))
      else d
  end.
Definition dispatch_parse (body : bytes) : result MutationError ApprovalDispatch :=
  if negb (is_utf8 body) then Err MalformedResolution
  else
    let d := fold_left dispatch_field (split_on 38 (chars_of body)) (mkFields None None None) in
    match df_id d, df_approve d, df_hash d with
    | None, _, _ | _, None, _ => Err MalformedResolution
    | Some _, Some _, None => Err BadOpHash
    | Some id, Some approve, Some h => Ok (mkDispatch id approve h)
    end.

Section Router.
Context {B : Type} `{DevBackend B} (printable : Z → bool) (INSPECTOR_HTML INSPECTOR_CSS : chars).

(** [MutationGate::dispatch]. *)
Definition gate_dispatch (config : DevConfig) (b : B) (d : ApprovalDispatch) : result MutationError DispatchResult * B :=
  if negb (cf_mutation_enabled config) then (Err MutationDisabled, b)
  else let '(r, b) := dispatch_resolution b (ad_approval_id d) (ad_approve d) (ad_op_hash_hex d) in (Ok r, b).
Definition WS_NOTE : string :=
  "websocket snapshot streaming not yet wired; poll the read endpoints".
Definition ws_body : chars :=
  lit "{" ++ [34] ++ lit "streaming" ++ [34] ++ lit ":false," ++ [34] ++ lit "note" ++ [34] ++ lit ":" ++
  [34] ++ lit WS_NOTE ++ [34] ++ lit "}".
Definition handle_read (b : B) (req : DevRequest) : DevResponse :=
  let view d := resp_ok (debug_fmt printable d) in
  let path := rq_path req in
  if str_eq path (lit "/") then resp_ok INSPECTOR_HTML
  else if str_eq path (lit "/assets") then resp_ok INSPECTOR_CSS
  else if str_eq path (lit "/ws") then resp_ok ws_body
  else if str_eq path (lit "/inspector") then view (dbg_inspector (run_inspector b))
  else if str_eq path (lit "/replay") then view (dbg_replay (replay b))
  else if str_eq path (lit "/provider") then view (DList (dbg_card <$> provider_cards b))
  else if str_eq path (lit "/mcp") then view (DList (dbg_server <$> mcp_servers b))
  else if str_eq path (lit "/flow") then view (dbg_graph (flow_graph b))
  else if str_eq path (lit "/sessions") then view (dbg_sessions (sessions b))
  else if str_eq path (lit "/approvals") then view (DList (dbg_approval <$> pending_approvals b))
  else if str_eq path (lit "/cockpit") then view (dbg_cockpit (build_cockpit b))
  else mkDevResponse NotFound (lit "no such read view").
Definition handle_mutate (b : B) (config : DevConfig) (req : DevRequest) : DevResponse * B :=
  if negb (bool_decide (rq_method req = Post)) || negb (str_eq (rq_path req) (lit "/approvals/resolve")) then
    (mkDevResponse NotFound (lit "no such mutating route"), b)
  else
    match dispatch_parse (rq_body req) with
    | Err BadOpHash => (mkDevResponse BadRequest (lit "operation hash missing/malformed"), b)
    | Err _ => (mkDevResponse BadRequest (lit "malformed resolution"), b)
    | Ok d =>
        let '(r, b) := gate_dispatch config b d in
        (match r with
         | Err MutationDisabled => mkDevResponse Forbidden (lit "mutating routes are disabled")
         | Err MalformedResolution => mkDevResponse BadRequest (lit "malformed approval resolution")
         | Err BadOpHash => mkDevResponse BadRequest (lit "operation hash missing or malformed")
         | Ok (DApproved id) => resp_ok (lit "approved:" ++ dec_u id)
         | Ok (DDenied id) => resp_ok (lit "denied:" ++ dec_u id)
         | Ok (DRejected reason) => mkDevResponse Conflict reason
         end, b)
    end.
Definition route (b : B) (auth : BearerToken) (config : DevConfig) (req : DevRequest) : DevResponse * B :=
  match authenticate auth req with
  | MissingToken | BadToken => (mkDevResponse Unauthorized (lit "unauthorized"), b)
  | Authorized =>
      if negb (rq_peer_is_loopback req) then (mkDevResponse Forbidden (lit "non-loopback peer rejected"), b)
      else
        match lookup_route (rq_method req) (rq_path req) with
        | None => (mkDevResponse NotFound (lit "no such route"), b)
        | Some spec =>
            match rt_class spec with
            | ReadOnly => (handle_read b req, b)
            | Mutating => handle_mutate b config req
            end
        end
  end.

(** ** Serving ([serve.rs])

    A request as the web server gives it; [None] is a header value that is not text. *)
Record HttpRequest := mkHttp {
  ht_method : chars; ht_path : chars; ht_headers : list (chars * option chars); ht_query : option chars;
  ht_peer : IpAddr; ht_body : bytes }.
Record HttpReply := mkReply { hr_code : Z; hr_content_type : string; hr_text : chars }.
Definition parse_query (q : chars) : list (chars * chars) := omap (split_once 61) (split_on 38 q).
Definition content_type (path : chars) (s : Status) : string :=
  if bool_decide (s = SOk) then
    if str_eq path (lit "/") then "text/html; charset=utf-8"
    else if str_eq path (lit "/assets") then "text/css; charset=utf-8"
    else if str_eq path (lit "/ws") then "application/json; charset=utf-8"
    else "text/plain; charset=utf-8"
  else "text/plain; charset=utf-8".
Definition into_response (path : chars) (r : DevResponse) : HttpReply :=
  mkReply (status_code (rs_status r)) (content_type path (rs_status r)) (rs_body r).
Definition dev_request_from (h : HttpRequest) : result HttpReply DevRequest :=
  let hdrs := omap (λ kv : chars * option chars, v ← kv.2; Some (kv.1, v)) (ht_headers h) in
  let query := match ht_query h with Some q => parse_query q | None => [] end in
  match DevRequest_new (ht_method h) (ht_path h) hdrs query (ht_body h) with
  | Ok r => Ok (with_peer_loopback r (ip_is_loopback (ht_peer h)))
  | Err e => Err (into_response (ht_path h) (mkDevResponse BadRequest (request_error_fmt e)))
  end.
Definition dispatch (b : B) (auth : BearerToken) (config : DevConfig) (h : HttpRequest) : HttpReply * B :=
  match dev_request_from h with
  | Err reply => (reply, b)
  | Ok req => let '(r, b) := route b auth config req in (into_response (ht_path h) r, b)
  end.
(** The stream opens, with the ticks it emits, or the reply of the gate. *)
Definition ws_stream (b : B) (auth : BearerToken) (config : DevConfig) (h : HttpRequest) (ticks : list B)
  : result HttpReply (list (Z * chars)) * B :=
  match dev_request_from h with
  | Err reply => (Err reply, b)
  | Ok req =>
      let '(gate, b) := route b auth config req in
      if bool_decide (rs_status gate = SOk) then
        (Ok ((λ e, (e.1, debug_fmt printable (dbg_snapshot e.2))) <$> snapshot_ticks cursor_start ticks), b)
      else (Err (into_response (ht_path h) gate), b)
  end.
End Router.
