(* ===== verification/DevBackend.v ===== *)
(** * The console's views and its in-memory backend (crate [crustcore-dev], [views/], [backend.rs])

    The views over the log, the receipts, the registries and the flow graph, and the backend that holds
    them and forwards resolutions to the approval engine. *)

From S2P Require Import Prelude Text Std Chars Redactor Strings Sha256 Types Policy KernelState EventLog Receipts Session.
From S2P Require Import Flow Mcp Telegram Debug Dev.

Definition redact_text (r : Redactor) (s : chars) : chars := chars_of (redact r (to_utf8 s)).

Section Views.
Context `{HS : Hash}.

(** ** [views/inspector.rs], [views/replay.rs] *)

Definition inspector_render (log : EventLog) : RunInspectorView :=
  let report := inspect (log_bytes log) in
  mkInspector (ir_status report) (ir_total_frames report)
    ((λ t, mkTaskRow (ts_task_id t) (ts_frames t) (ts_first_seq t) (ts_last_seq t) (kind_name <$> ts_terminal t)) <$>
      ir_tasks report).
Definition sessions_render (log : EventLog) (r : Redactor) : list Z := sv_list (mkService log r).
Definition is_redacted (s : RedactionState) : bool := match s with Redacted => true | Clean => false end.
Definition replay_row (f : EventFrame) : ReplayRow :=
  mkReplayRow (f_seq f) (kind_name (f_kind f)) (match f_visibility f with ModelVisible => true | Internal => false end)
    (is_redacted (f_redaction f)) None.
Definition replay_render (log : EventLog) (receipts : list ToolReceipt) : ReplayView :=
  let frames := d_frame <$> iter (log_bytes log) in
  mkReplay (EventLog.verify (log_bytes log))
    (match receipts with
     | [] => None
     | _ => Some (verify_against_log receipts
              ((λ f, mkFrameRef (f_seq f) (bool_decide (f_kind f = ToolCallCompleted)) (f_task_id f) (f_job_id f)) <$> frames))
     end)
    (replay_row <$> frames).
End Views.

(** ** [views/provider.rs], [views/mcp.rs] *)

Definition cards_render (cards : list ModelCardView) (r : Redactor) : list ModelCardView :=
  (λ c, mkCardView (redact_text r (cv_provider c)) (redact_text r (cv_model c)) (cv_healthy c) (cv_context c) (cv_tools c)
          (cv_cost c)) <$> cards.
Definition servers_render (servers : list McpServerView) (r : Redactor) : list McpServerView :=
  (λ s, mkServerView (ms_server_id s) (redact_text r (ms_source s)) (ms_manifest_intact s)
          ((λ td : chars * chars, (redact_text r td.1, td.2)) <$> ms_tool_decisions s)) <$> servers.
Definition decision_label (d : GatewayDecision) : chars :=
  match d with
  | GAllow => lit "allow"
  | GAsk => lit "ask"
  | GDeny reason =>
      lit "deny (" ++ lit match reason with
        | UnknownServer => "UnknownServer" | ManifestDrift => "ManifestDrift" | RepoNotAllowed => "RepoNotAllowed"
        | ToolNotAllowed => "ToolNotAllowed" | ToolDenied => "ToolDenied" end ++ lit ")"
  end.
Definition source_label (r : McpServerRecord) : chars :=
  match sr_source r with
  | LocalBinary p => lit "local:" ++ p
  | RemoteUrl u => lit "remote:" ++ u
  | Package p => lit "package:" ++ p
  end.
Definition from_record (g : gmap Z McpServerRecord) (record : McpServerRecord) (repo : chars)
    (live_manifest_hash : option bytes) (r : Redactor) : McpServerView :=
  mkServerView (sr_id record) (redact_text r (source_label record))
    (match sr_manifest_hash record, live_manifest_hash with
     | Some registered, Some live => bool_decide (registered = live)
     | _, _ => true
     end)
    ((λ p, (redact_text r (tp_tool p),
            decision_label (gateway_check g (sr_id record) (tp_tool p) repo live_manifest_hash))) <$> sr_tool_policies record).

(** ** [views/flow.rs] *)

Definition successors (n : Node) : list Z :=
  match n with
  | NModel _ _ next | NTool _ _ _ next | NReview _ next | NJoin next => [next]
  | NVerify on_fail => [on_fail]
  | NParallel children _ join => children ++ [join]
  | NLoopUntil body _ _ next => [body; next]
  | NRoute _ if_true if_false => [if_true; if_false]
  | NEnd => []
  end.
Definition kind_label (n : Node) : chars :=
  lit match n with
      | NModel _ _ _ => "model" | NTool _ _ _ _ => "tool" | NVerify _ => "verify" | NReview _ _ => "review"
      | NParallel _ _ _ => "parallel" | NLoopUntil _ _ _ _ => "loop_until" | NRoute _ _ _ => "route"
      | NJoin _ => "join" | NEnd => "end"
      end.
Definition simulated_note (n : Node) : chars :=
  match n with
  | NModel _ out_key _ => lit "would call model -> " ++ chars_of out_key ++ lit " (no-op driver)"
  | NTool spec _ out_key _ =>
      lit "would run tool " ++ chars_of (tool_name spec) ++ lit " -> " ++ chars_of out_key ++ lit " (no-op driver)"
  | NVerify _ => lit "would run verify (no-op: mints no VerifiedPatch, completes no task)"
  | NReview out_key _ => lit "would request review -> " ++ chars_of out_key ++ lit " (no-op)"
  | NParallel _ max_concurrency _ =>
      lit "would fan out (max_concurrency=" ++ dec_u (Z.of_nat max_concurrency) ++ lit ")"
  | NLoopUntil _ _ max_iterations _ => lit "would loop (max_iterations=" ++ dec_u max_iterations ++ lit ")"
  | NRoute _ _ _ => lit "would branch (both successors shown; predicate not run)"
  | NJoin _ => lit "would join parallel branches"
  | NEnd => lit "end of flow"
  end.
(** The ids from zero to the number of nodes. *)
Definition node_ids (f : Flow) : list Z := Z.of_nat <$> seq 0 (length (nodes f)).
Definition render_graph (f : Flow) : FlowGraphView :=
  let present := omap (λ id, n ← node f id; Some (id, n)) (node_ids f) in
  mkGraphView ((λ p, (p.1, kind_label p.2)) <$> present) (present ≫= λ p, (λ to, (p.1, to)) <$> successors p.2) (entry f).
Definition simulate_step (f : Flow) (from_node : Z) (r : Redactor) : option FlowStepView :=
  n ← node f from_node;
  Some (mkStepView from_node (kind_label n) (redact_text r (simulated_note n))
          (match n with NVerify _ | NEnd => true | _ => false end)).

(** ** The in-memory backend *)

Record MockDevBackend := mkBackend {
  mb_log : EventLog; mb_receipts : list ToolReceipt; mb_redactor : Redactor; mb_cards : list ModelCardView;
  mb_servers : list McpServerView; mb_flow : option Flow; mb_pending : list ApprovalView; mb_engine : ApprovalEngine;
  mb_allowlist : ChatAllowlist; mb_chat : Z; mb_now : Timestamp }.
Definition MockDevBackend_new : MockDevBackend :=
  mkBackend EventLog_new [] Redactor_new [] [] None [] ApprovalEngine_new deny_all 0 0.
Definition with_allowlisted_chat (b : MockDevBackend) (chat : Z) : MockDevBackend :=
  mkBackend (mb_log b) (mb_receipts b) (mb_redactor b) (mb_cards b) (mb_servers b) (mb_flow b) (mb_pending b) (mb_engine b)
    (allowlist_of [chat]) chat (mb_now b).
Definition at_time (b : MockDevBackend) (now : Timestamp) : MockDevBackend :=
  mkBackend (mb_log b) (mb_receipts b) (mb_redactor b) (mb_cards b) (mb_servers b) (mb_flow b) (mb_pending b) (mb_engine b)
    (mb_allowlist b) (mb_chat b) now.
Definition with_approvals (b : MockDevBackend) (pending : list ApprovalView) (engine : ApprovalEngine) : MockDevBackend :=
  mkBackend (mb_log b) (mb_receipts b) (mb_redactor b) (mb_cards b) (mb_servers b) (mb_flow b) pending engine
    (mb_allowlist b) (mb_chat b) (mb_now b).
Definition request_approval (b : MockDevBackend) (approval_id : Z) (operation summary : chars) (expires_at : Timestamp)
  : MockDevBackend * chars :=
  let '(engine, nonce) := request (mb_engine b) approval_id operation summary expires_at in
  let op_hash_hex := hex_of (an_op_hash nonce) in
  (with_approvals b (mb_pending b ++
     [mkApprovalView approval_id op_hash_hex (redact_text (mb_redactor b) summary) expires_at]) engine, op_hash_hex).
Definition mock_dispatch (b : MockDevBackend) (approval_id : Z) (approve : bool) (op_hash_hex : chars)
  : DispatchResult * MockDevBackend :=
  let decision := if approve then Approve else Types.Deny in
  let '(engine, outcome) :=
    resolve (mb_engine b) approval_id decision (mb_chat b) (mb_allowlist b) (mb_now b) (hex32_decode (to_utf8 op_hash_hex)) in
  (match outcome with
   | OApproved _ => DApproved approval_id
   | ODenied id => DDenied id
   | RejectedNotAllowlisted => DRejected (lit "not allowlisted")
   | RejectedUnknownNonce => DRejected (lit "unknown approval")
   | RejectedExpired => DRejected (lit "approval expired")
   | RejectedOpMismatch => DRejected (lit "operation mismatch")
   end,
   with_approvals b (filter (λ a, av_approval_id a ≠ approval_id) (mb_pending b)) engine).
#[export] Instance mock_backend `{HS : Hash} : DevBackend MockDevBackend := {|
  run_inspector b := inspector_render (mb_log b);
  replay b := replay_render (mb_log b) (mb_receipts b);
  provider_cards b := cards_render (mb_cards b) (mb_redactor b);
  mcp_servers b := servers_render (mb_servers b) (mb_redactor b);
  flow_graph b := match mb_flow b with Some f => render_graph f | None => mkGraphView [] [] 0 end;
  flow_step b from := f ← mb_flow b; simulate_step f from (mb_redactor b);
  sessions b := sessions_render (mb_log b) (mb_redactor b);
  pending_approvals := mb_pending;
  dispatch_resolution := mock_dispatch |}.
