(* ===== verification/DevTheorems.v ===== *)
(** * The developer console: theorems

    Which spellings of the launch token are accepted; the bounds of a request; what a resolution in a
    body is; that nothing but an authenticated, local, unlocked and well-formed resolution reaches the
    backend, and what it does to the approval engine there; the stream of snapshots. *)

From S2P Require Import Prelude Text Std Chars Redactor Strings Sha256 Types Policy KernelState EventLog Receipts Session.
From S2P Require Import Flow Mcp Telegram TelegramTheorems Debug Dev DevBackend.

(** ** Hexadecimal *)

Definition is_hex (c : Z) : Prop := is_Some (hex_val c).
Lemma hex_val_spec c n : hex_val c = Some n ↔ 0 ≤ n < 16 ∧ ascii_lower c = hex_digit n ∧ 48 ≤ c < 128.
Proof.
  unfold hex_val, ascii_lower, hex_digit, in_range.
  destruct (Z.leb_spec 48 c), (Z.leb_spec c 57), (Z.leb_spec 97 c), (Z.leb_spec c 102), (Z.leb_spec 65 c), (Z.leb_spec c 70),
    (Z.leb_spec c 90), (Z.ltb_spec n 10); cbn [andb]; try lia; split; intros Hc; try done; try lia;
    try (injection Hc as <-; lia); try (f_equal; lia).
Qed.
Lemma lower_hex c : is_hexdigit c = true → is_Some (hex_val c) ∧ hex_val (ascii_lower c) = hex_val c.
Proof.
  unfold is_hexdigit, is_digit, hex_val, ascii_lower, in_range. intros Hc.
  destruct (Z.leb_spec 48 c), (Z.leb_spec c 57), (Z.leb_spec 97 c), (Z.leb_spec c 102), (Z.leb_spec 65 c), (Z.leb_spec c 70),
    (Z.leb_spec c 90); cbn [andb orb] in *; try lia; try done; split; eauto; try done;
    repeat match goal with |- context [?a <=? ?b] => destruct (Z.leb_spec a b) end; cbn [andb]; try lia; try done; f_equal; lia.
Qed.

Lemma lower_hex_digit c v : ascii_lower c = hex_digit v → 0 ≤ v < 16 → 48 ≤ c < 128.
Proof.
  unfold ascii_lower, hex_digit, in_range. destruct (Z.leb_spec 65 c), (Z.leb_spec c 90), (Z.ltb_spec v 10); cbn [andb]; lia.
Qed.
Lemma nibbles b : is_byte b → 0 ≤ b / 16 < 16 ∧ 0 ≤ b mod 16 < 16.
Proof.
  intros Hb. unfold is_byte in Hb. pose proof (Z.mod_pos_bound b 16 ltac:(lia)).
  split; [split; [apply Z.div_pos|apply Z.div_lt_upper_bound]; lia|lia].
Qed.
Lemma hex_of_cons b d : hex_of (b :: d) = hex_digit (b / 16) :: hex_digit (b mod 16) :: hex_of d.
Proof. done. Qed.
(** Two digits for each byte, in either case. *)
Lemma decode_hex_spec s d : decode_hex s = Some d ↔ to_ascii_lowercase s = hex_of d ∧ Forall is_byte d.
Proof.
  assert (∀ n s d, (length s ≤ n)%nat → decode_hex s = Some d ↔ to_ascii_lowercase s = hex_of d ∧ Forall is_byte d) as H;
    [|by eapply H].
  clear s d. induction n as [|n IH]; intros s d Hn.
  { destruct s; [|simpl in Hn; lia]. cbn. split; [by intros [= <-]|]. intros (He & _). by destruct d. }
  destruct s as [|hi [|lo s]]; cbn [decode_hex].
  - split; [by intros [= <-]|]. intros (He & _). by destruct d.
  - split; [done|]. intros (He & _). apply (f_equal length) in He. rewrite length_hex_of in He.
    unfold to_ascii_lowercase in He. rewrite length_fmap in He. simpl in He. lia.
  - cbn [length] in Hn. split.
    + destruct (hex_val hi) as [h|] eqn:Eh; [|done]. destruct (hex_val lo) as [l|] eqn:El; [|done].
      cbn [mbind option_bind]. destruct (decode_hex s) as [d'|] eqn:Es; [|done]. cbn [mbind option_bind]. intros [= <-].
      apply hex_val_spec in Eh as (Hh & Eh & ?), El as (Hl & El & ?). apply IH in Es as (Es & Hb); [|lia].
      rewrite lor_nibbles by lia. split; [|constructor; [unfold is_byte; lia|done]].
      rewrite hex_of_cons. cbn [to_ascii_lowercase fmap list_fmap]. rewrite Eh, El, <-Es.
      rewrite Z.div_add_l, Z.div_small, Z.add_0_r, Z.add_comm, Z.mod_add, Z.mod_small by lia. done.
    + intros (He & Hb). destruct d as [|b d]; [done|]. rewrite hex_of_cons in He. cbn [to_ascii_lowercase fmap list_fmap] in He.
      injection He as Eh El Es. apply Forall_cons in Hb as [Hb Hd]. destruct (nibbles b Hb) as [Hq Hr].
      rewrite (proj2 (hex_val_spec hi (b / 16))), (proj2 (hex_val_spec lo (b mod 16)))
        by (split_and!; try lia; try done; eapply lower_hex_digit; eauto).
      cbn [mbind option_bind]. rewrite (proj2 (IH s d ltac:(lia))) by done. cbn [mbind option_bind].
      rewrite lor_nibbles by lia. do 2 f_equal. pose proof (Z.div_mod b 16 ltac:(lia)). lia.
Qed.
Lemma spelled_ascii s d : to_ascii_lowercase s = hex_of d → Forall is_byte d → Forall (λ c, 0 ≤ c < 128) s.
Proof.
  intros He Hd. revert s He. induction Hd as [|b d Hb Hd IH]; intros s He.
  { by destruct s. }
  rewrite hex_of_cons in He. destruct s as [|hi [|lo s]]; try done. cbn [to_ascii_lowercase fmap list_fmap] in He.
  injection He as Eh El Es. destruct (nibbles b Hb) as [Hq Hr].
  repeat constructor; try (by apply IH); eapply lower_hex_digit in Eh, El; eauto; lia.
Qed.
Lemma to_utf8_all_ascii s : Forall (λ c, 0 ≤ c < 128) (to_utf8 s) → to_utf8 s = s.
Proof.
  induction s as [|c s IH]; [done|]. rewrite to_utf8_cons. intros [Hc Hs]%Forall_app. rewrite (IH Hs).
  unfold encode_char in *. destruct (Z.ltb_spec c 128); [done|]. exfalso.
  assert (0 ≤ c / 64 ∧ 0 ≤ c / 4096 ∧ 0 ≤ c / 262144) as (? & ? & ?) by (split_and!; apply Z.div_pos; lia).
  destruct (c <? 2048), (c <? 65536); apply Forall_cons in Hc as [Hc _]; lia.
Qed.
Lemma decode_utf8_spec s d :
  decode_hex (to_utf8 s) = Some d ↔ to_ascii_lowercase s = hex_of d ∧ Forall is_byte d.
Proof.
  rewrite decode_hex_spec. split; intros [He Hd]; (split; [|done]).
  - by rewrite (to_utf8_all_ascii s (spelled_ascii _ _ He Hd)) in He.
  - by rewrite (to_utf8_ascii s (spelled_ascii _ _ He Hd)).
Qed.

Lemma hex32_decode_hex s : length s = 64%nat → hex32_decode s = decode_hex s.
Proof.
  intros Hl. unfold hex32_decode. rewrite bool_decide_eq_true_2 by done. cbn [negb]. unfold chunks_exact.
  assert (∀ m s fuel, length s = (2 * m)%nat → (length s ≤ fuel)%nat → mapM hex_pair (chunks_fuel fuel 2 s) = decode_hex s) as H.
  { clear s Hl; induction m as [|m IH]; intros s fuel Hm Hf.
    - destruct s; [|done]. by destruct fuel.
    - destruct s as [|hi [|lo s]]; [done|simpl in Hm; lia|]. cbn [length] in *. destruct fuel as [|fuel]; [lia|].
      cbn [chunks_fuel]. rewrite decide_True by (cbn; lia). cbn [take drop mapM decode_hex]. rewrite drop_0, take_0, IH by lia.
      unfold hex_pair at 1. cbn [nth]. destruct (hex_val hi); [|done]. cbn [mbind option_bind].
      by destruct (hex_val lo). }
  by apply (H 32%nat).
Qed.
Lemma hex32_spec s d :
  Forall is_byte d → length d = 32%nat → hex32_decode s = Some d ↔ to_ascii_lowercase s = hex_of d.
Proof.
  intros Hd Hl. split.
  - unfold hex32_decode. case_bool_decide as Hs; [|done]. intros H. apply (decode_hex_spec s d). rewrite <-hex32_decode_hex by done.
    unfold hex32_decode. by rewrite bool_decide_eq_true_2.
  - intros H. rewrite hex32_decode_hex; [by apply decode_hex_spec|].
    apply (f_equal length) in H. unfold to_ascii_lowercase in H. rewrite length_fmap, length_hex_of in H. lia.
Qed.

(** ** Authentication *)

Definition token_ok (t : BearerToken) : Prop := length (bt_bytes t) = TOKEN_BYTES ∧ Forall is_byte (bt_bytes t).
(** The request has the token of the launch: a bearer header with its digits, in either case, and
    white space around them. *)
Definition presents (t : BearerToken) (req : DevRequest) : Prop :=
  ∃ h rest, header req (lit "authorization") = Some h ∧ (h = lit "Bearer " ++ rest ∨ h = lit "bearer " ++ rest) ∧
    to_ascii_lowercase (trim rest) = reveal_once t.
Lemma token_matches_spec t s : token_ok t → token_matches t s = true ↔ to_ascii_lowercase s = reveal_once t.
Proof.
  intros [Hl Hb]. unfold token_matches, reveal_once. split.
  - destruct (decode_hex (to_utf8 s)) as [d|] eqn:E; [|done]. apply decode_utf8_spec in E as [E Hd].
    intros [Hld Hs]%andb_true_iff. apply Nat.eqb_eq in Hld. unfold slices_eq in Hs. apply andb_true_iff in Hs as [_ Hs].
    rewrite ct_eq_spec in Hs by (try done; congruence). apply bool_decide_eq_true in Hs as ->. done.
  - intros H. rewrite (proj2 (decode_utf8_spec s (bt_bytes t))) by done. rewrite Hl, Nat.eqb_refl. cbn [andb].
    unfold slices_eq. rewrite Nat.eqb_refl, ct_eq_spec by done. by apply bool_decide_eq_true.
Qed.
Lemma authenticate_exact t req : token_ok t → authenticate t req = Authorized ↔ presents t req.
Proof.
  intros Ht. unfold authenticate, presents. destruct (header req _) as [h|]; [|split; [done|by intros (? & ? & ? & _)]].
  destruct (strip_prefix (lit "Bearer ") h) as [r|] eqn:E1.
  { apply strip_prefix_Some in E1 as ->. split.
    - destruct (token_matches t (trim r)) eqn:E; [|done]. intros _. apply token_matches_spec in E; [|done]. eauto 10.
    - intros (h' & rest & [= <-] & [H|H] & Hs).
      + apply (inj (app (lit "Bearer "))) in H as ->. by rewrite (proj2 (token_matches_spec t (trim rest) Ht)).
      + exfalso. vm_compute in H. done. }
  destruct (strip_prefix (lit "bearer ") h) as [r|] eqn:E2.
  - apply strip_prefix_Some in E2 as ->. split.
    + destruct (token_matches t (trim r)) eqn:E; [|done]. intros _. apply token_matches_spec in E; [|done]. eauto 10.
    + intros (h' & rest & [= <-] & [H|H] & Hs).
      * exfalso. vm_compute in H. done.
      * apply (inj (app (lit "bearer "))) in H as ->. by rewrite (proj2 (token_matches_spec t (trim rest) Ht)).
  - split; [done|]. intros (h' & rest & [= <-] & H & _). exfalso.
    destruct H as [->| ->]; [apply (eq_None_not_Some (strip_prefix (lit "Bearer ") (lit "Bearer " ++ rest))) in E1; apply E1|
                             apply (eq_None_not_Some (strip_prefix (lit "bearer ") (lit "bearer " ++ rest))) in E2; apply E2];
      exists rest; by apply strip_prefix_Some.
Qed.

(** ** Requests *)

(** The value that a list of headers gives a name: the last one wins, whatever the case. *)
Definition last_header (headers : list (chars * chars)) (name : chars) : option chars :=
  snd <$> last (List.filter (λ kv, str_eq (to_ascii_lowercase kv.1) (to_ascii_lowercase name)) headers).
Lemma header_map_spec hs m m' :
  header_map m hs = Ok m' →
  (∀ name, m' !! to_ascii_lowercase name =
    match last_header hs name with Some v => Some v | None => m !! to_ascii_lowercase name end) ∧
  (Z.of_nat (size m) ≤ MAX_HEADERS → Z.of_nat (size m') ≤ MAX_HEADERS) ∧
  Forall (λ kv, str_len kv.1 ≤ MAX_HEADER_BYTES ∧ str_len kv.2 ≤ MAX_HEADER_BYTES) hs.
Proof.
  revert m. induction hs as [|[k v] hs IH]; intros m H; cbn [header_map] in H; [by injection H as <-|].
  destruct (Z.leb_spec MAX_HEADERS (Z.of_nat (size m))); [done|].
  destruct (Z.ltb_spec MAX_HEADER_BYTES (str_len k)), (Z.ltb_spec MAX_HEADER_BYTES (str_len v)); try done.
  cbn [orb] in H. destruct (IH _ H) as (Hl & Hs & Hf). split; [|split; [|by constructor]].
  - intros name. rewrite Hl. unfold last_header. cbn [List.filter fst]. destruct (str_eq _ _) eqn:E.
    + unfold str_eq in E. apply bool_decide_eq_true in E. rewrite E, lookup_insert, decide_True by done.
      destruct (List.filter _ hs) as [|x xs] eqn:Ef; [done|]. rewrite last_cons_cons. by destruct (last (x :: xs)) eqn:El; [|apply last_None in El].
    + unfold str_eq in E. apply bool_decide_eq_false in E. by rewrite lookup_insert_ne by done.
  - intros _. apply Hs. pose proof (map_size_insert (to_ascii_lowercase k) v m) as Hi.
    destruct (m !! to_ascii_lowercase k); unfold id in Hi; lia.
Qed.
Lemma query_map_spec qs m n m' :
  query_map m n qs = Ok m' →
  0 ≤ n ≤ MAX_QUERY_BYTES → (Z.of_nat (size m) ≤ MAX_QUERY_PARAMS) →
  Z.of_nat (size m') ≤ MAX_QUERY_PARAMS ∧ n + foldr (λ kv s, str_len kv.1 + str_len kv.2 + s) 0 qs ≤ MAX_QUERY_BYTES.
Proof.
  revert m n. induction qs as [|[k v] qs IH]; intros m n H Hn Hm; cbn [query_map] in H; [injection H as <-; cbn; lia|].
  destruct (Z.leb_spec MAX_QUERY_PARAMS (Z.of_nat (size m))); [done|].
  set (t := saturating_add _ _ _) in H. destruct (Z.ltb_spec MAX_QUERY_BYTES t); [done|].
  assert (0 ≤ str_len k ∧ 0 ≤ str_len v) as [? ?] by (unfold str_len; lia).
  assert (t = n + str_len k + str_len v) as Et.
  { unfold t, saturating_add, u64_MAX, MAX_QUERY_BYTES in *. lia. }
  destruct (IH _ _ H) as [? ?]; [lia| |].
  - pose proof (map_size_insert k v m) as Hi. destruct (m !! k); unfold id in Hi; lia.
  - split; [done|]. cbn [foldr fst snd]. lia.
Qed.
(** A request that is built is within every bound, and has what it was built of. *)
Theorem dev_request_bounded method path headers q body r :
  DevRequest_new method path headers q body = Ok r →
  method_parse method = Some (rq_method r) ∧ rq_path r = path ∧ rq_body r = body ∧
  str_len path ≤ MAX_PATH_BYTES ∧ Z.of_nat (length body) ≤ MAX_BODY_BYTES ∧
  Z.of_nat (size (rq_headers r)) ≤ MAX_HEADERS ∧ (∀ name, header r name = last_header headers name) ∧
  Forall (λ kv, str_len kv.1 ≤ MAX_HEADER_BYTES ∧ str_len kv.2 ≤ MAX_HEADER_BYTES) headers ∧
  Z.of_nat (size (rq_query r)) ≤ MAX_QUERY_PARAMS ∧
  foldr (λ kv s, str_len kv.1 + str_len kv.2 + s) 0 q ≤ MAX_QUERY_BYTES.
Proof.
  unfold DevRequest_new. destruct (method_parse method) as [m|]; [|done].
  destruct (Z.ltb_spec MAX_PATH_BYTES (str_len path)); [done|].
  destruct (header_map ∅ headers) as [hm|] eqn:Eh; [|done]. cbn [mbind result_bind].
  destruct (query_map ∅ 0 q) as [qm|] eqn:Eq; [|done]. cbn [mbind result_bind].
  destruct (Z.ltb_spec MAX_BODY_BYTES (Z.of_nat (length body))); [done|]. intros [= <-]. cbn [rq_method rq_path rq_body rq_headers rq_query].
  destruct (header_map_spec _ _ _ Eh) as (Hl & Hs & Hf).
  destruct (query_map_spec _ _ _ _ Eq) as [Hq Hb]; [unfold MAX_QUERY_BYTES; lia|rewrite map_size_empty; unfold MAX_QUERY_PARAMS; lia|].
  rewrite map_size_empty in Hs. split_and!; try done; try lia.
  - apply Hs. unfold MAX_HEADERS. lia.
  - intros name. unfold header. cbn [rq_headers]. rewrite Hl. by destruct (last_header headers name).
Qed.

(** ** Resolutions in a body *)

Definition op_hash_ok (x : chars) : Prop := ∃ h, Forall is_byte h ∧ length h = 32%nat ∧ x = hex_of h.
Lemma hexdigits_decode s n :
  forallb is_hexdigit s = true → length s = (2 * n)%nat → ∃ d, decode_hex s = Some d.
Proof.
  revert s. induction n as [|n IH]; intros s Hs Hl; [destruct s; [by exists []|done]|].
  destruct s as [|hi [|lo s]]; [done|simpl in Hl; lia|]. cbn [forallb] in Hs.
  apply andb_true_iff in Hs as [Hhi [Hlo Hs]%andb_true_iff]. destruct (IH s Hs) as [d Hd]; [simpl in Hl; lia|].
  apply lower_hex in Hhi as [[h Hh] _], Hlo as [[l Hlo'] _]. cbn [decode_hex]. rewrite Hh, Hlo', Hd. by eexists.
Qed.
Lemma hexdigits_ascii s : forallb is_hexdigit s = true → Forall (λ c, 0 ≤ c < 128) s.
Proof.
  intros H. apply Forall_forall. intros c Hc. rewrite forallb_forall in H. specialize (H c (proj1 (list_elem_of_In _ _) Hc)).
  apply lower_hex in H as [[n Hn] _]. apply hex_val_spec in Hn. lia.
Qed.
Lemma lower_op_hash v :
  (byte_length v =? 64)%nat = true → forallb is_hexdigit (to_utf8 v) = true → op_hash_ok (to_ascii_lowercase v).
Proof.
  intros Hl%Nat.eqb_eq Hf. pose proof (to_utf8_all_ascii v (hexdigits_ascii _ Hf)) as Ev. unfold byte_length in Hl. rewrite Ev in *.
  destruct (hexdigits_decode v 32 Hf Hl) as [d Hd]. apply decode_hex_spec in Hd as [Hd Hb].
  exists d. split; [done|]. split; [|done]. apply (f_equal length) in Hd. unfold to_ascii_lowercase in Hd.
  rewrite length_fmap, length_hex_of in Hd. lia.
Qed.
Definition fields_ok (d : DispatchFields) : Prop :=
  (∀ id, df_id d = Some id → 0 ≤ id ≤ u128_MAX) ∧ (∀ x, df_hash d = Some x → op_hash_ok x).
Lemma fields_step d pair : fields_ok d → fields_ok (dispatch_field d pair).
Proof.
  intros [Hi Hh]. unfold dispatch_field. destruct (split_once 61 pair) as [[k v]|]; [|done].
  destruct (str_eq k (lit "approval_id")).
  { split; [|done]. cbn [df_id]. intros id H. by eapply parse_uint_range. }
  destruct (str_eq k (lit "decision")); [done|].
  destruct (str_eq k (lit "op_hash")); [|done]. destruct (byte_length v =? 64)%nat eqn:El; [|done].
  destruct (forallb is_hexdigit (to_utf8 v)) eqn:Ef; [|done]. cbn [andb]. split; [done|]. cbn [df_hash]. intros x [= <-].
  by apply lower_op_hash.
Qed.
Lemma dispatch_parse_ok body d : dispatch_parse body = Ok d → 0 ≤ ad_approval_id d ≤ u128_MAX ∧ op_hash_ok (ad_op_hash_hex d).
Proof.
  unfold dispatch_parse. destruct (negb _); [done|].
  assert (∀ l f, fields_ok f → fields_ok (fold_left dispatch_field l f)) as Hfold
    by (induction l as [|p l IH]; intros f Hf; [done|]; apply IH, fields_step, Hf).
  specialize (Hfold (split_on 38 (chars_of body)) (mkFields None None None) ltac:(by split)).
  destruct (fold_left _ _ _) as [[id|] [a|] [x|]]; cbn [df_id df_approve df_hash]; try done. intros [= <-].
  destruct Hfold as [Hi Hh]. split; [by apply Hi|by apply Hh].
Qed.

(** ** What a resolution does in the engine *)

Lemma authorized_iff al chat u : authorized_user al chat = Some u → chat_allows al chat = true.
Proof. unfold authorized_user. by destruct (chat_allows al chat). Qed.
(** The backend takes a resolution, changes nothing but the approvals, and those of that id only; it
    reports it as resolved only for an allowlisted chat, in time, when the hash that came with it is
    the hash of the pending operation, and the approval is then spent. *)
Lemma mock_dispatch_spec b id approve x r b' :
  op_hash_ok x → mock_dispatch b id approve x = (r, b') →
  (∃ e, b' = with_approvals b (filter (λ a, av_approval_id a ≠ id) (mb_pending b)) e ∧
        ∀ k, k ≠ id → ae_pending e !! k = ae_pending (mb_engine b) !! k) ∧
  match r with
  | DRejected _ => True
  | DApproved k | DDenied k =>
      k = id ∧ r = (if approve then DApproved id else DDenied id) ∧
      chat_allows (mb_allowlist b) (mb_chat b) = true ∧ is_pending (mb_engine b') id = false ∧
      ∃ pd, ae_pending (mb_engine b) !! id = Some pd ∧ x = hex_of (pd_op_hash pd) ∧ mb_now b ≤ pd_expires_at pd
  end.
Proof.
  intros (h & Hb & Hl & ->) H. unfold mock_dispatch in H.
  assert (hex32_decode (to_utf8 (hex_of h)) = Some h) as Hd.
  { rewrite to_utf8_ascii; [by apply (hex32_roundtrip h [])|].
    eapply Forall_impl; [by apply hex_of_ascii|]. intros c Hc. simpl in Hc. lia. }
  rewrite Hd in H. unfold resolve in H. destruct (authorized_user _ _) as [u|] eqn:Eu.
  2:{ injection H as <- <-. split; [|done]. by eexists. }
  apply authorized_iff in Eu. destruct (ae_pending (mb_engine b) !! id) as [pd|] eqn:Ep.
  2:{ injection H as <- <-. split; [|done]. by eexists. }
  assert (∀ k, k ≠ id → ae_pending (mkApprovals (delete id (ae_pending (mb_engine b)))) !! k = ae_pending (mb_engine b) !! k) as Hdel
    by (intros k Hk; cbn [ae_pending]; by rewrite lookup_delete_ne by done).
  destruct (Z.ltb_spec (pd_expires_at pd) (mb_now b)).
  { injection H as <- <-. split; [|done]. by eexists. }
  destruct (bool_decide (h = pd_op_hash pd)) eqn:Eh; cbn [negb] in H.
  2:{ injection H as <- <-. split; [|done]. by eexists. }
  apply bool_decide_eq_true in Eh as ->.
  assert (is_pending (mkApprovals (delete id (ae_pending (mb_engine b)))) id = false) as Hgone.
  { unfold is_pending. cbn [ae_pending]. rewrite lookup_delete_eq. by apply bool_decide_eq_false; intros [? ?]. }
  destruct approve; injection H as <- <-; (split; [by eexists|]); split_and!; try done; by exists pd.
Qed.

(** ** The router *)

Section Router.
Context {B : Type} `{D : DevBackend B} (printable : Z → bool) (html css : chars).

(** The backend changes only by a resolution that is authenticated, local, unlocked and well formed;
    without the token nothing is answered but that. *)
Lemma route_cases b t cfg req resp b' :
  token_ok t → route printable html css b t cfg req = (resp, b') →
  (¬ presents t req ∧ resp = mkDevResponse Unauthorized (lit "unauthorized") ∧ b' = b) ∨
  presents t req ∧
  ((b' = b ∧ (rq_peer_is_loopback req = false → rs_status resp = Forbidden) ∧
             (rs_status resp = SOk → rq_method req = Get ∧ resp = handle_read printable html css b req)) ∨
   rq_peer_is_loopback req = true ∧ rq_method req = Post ∧ rq_path req = lit "/approvals/resolve" ∧
   cf_mutation_enabled cfg = true ∧
   ∃ d r, dispatch_parse (rq_body req) = Ok d ∧
     dispatch_resolution b (ad_approval_id d) (ad_approve d) (ad_op_hash_hex d) = (r, b') ∧
     resp = match r with
            | DApproved id => resp_ok (lit "approved:" ++ dec_u id)
            | DDenied id => resp_ok (lit "denied:" ++ dec_u id)
            | DRejected reason => mkDevResponse Conflict reason
            end).
Proof.
  intros Ht H. unfold route in H. pose proof (authenticate_exact t req Ht) as Ha.
  destruct (authenticate t req) eqn:E; [right|left; injection H as <- <-; naive_solver..].
  split; [by apply Ha|]. clear Ha E. destruct (rq_peer_is_loopback req) eqn:El; cbn [negb] in H; [|left; by injection H as <- <-].
  destruct (lookup_route _ _) as [spec|] eqn:Es; [|left; by injection H as <- <-].
  apply List.find_some in Es as [Hin Hs]. apply andb_true_iff in Hs as [Hm Hp].
  apply bool_decide_eq_true in Hm. unfold str_eq in Hp. apply bool_decide_eq_true in Hp.
  destruct (rt_class spec) eqn:Ec.
  { left. injection H as <- <-. split; [done|]. split; [done|]. intros _. split; [|done].
    rewrite <-Hm. cbn [ROUTES In] in Hin. repeat (destruct Hin as [<-|Hin]; [try done|]). done. }
  assert (rq_method req = Post ∧ rq_path req = lit "/approvals/resolve") as [Hpost Hpath].
  { rewrite <-Hm, <-Hp. cbn [ROUTES In] in Hin. repeat (destruct Hin as [<-|Hin]; [try done|]). done. }
  unfold handle_mutate in H. rewrite Hpost, Hpath in H. rewrite bool_decide_eq_true_2 in H by done.
  unfold str_eq in H. rewrite bool_decide_eq_true_2 in H by done. cbn [negb orb] in H.
  destruct (dispatch_parse (rq_body req)) as [d|e] eqn:Ed; [|left; destruct e; by injection H as <- <-].
  unfold gate_dispatch in H. destruct (cf_mutation_enabled cfg) eqn:Em; cbn [negb] in H; [|left; by injection H as <- <-].
  right. split_and!; try done. destruct (dispatch_resolution _ _ _ _) as [r b1] eqn:Er. injection H as <- <-.
  exists d, r. split_and!; try done.
Qed.
End Router.

(** ** End to end *)

Section EndToEnd.
Context `{HS : Hash} (printable : Z → bool) (html css : chars).

(** C35: An approval is resolved over the console only as the operator was shown it. Whatever is sent,
    the backend changes only when the request has the token of the launch, comes from a loopback
    address, posts to the one route that mutates, the launch unlocked it, and the body is a
    resolution. Then all that changes is what is pending under its id, and the reply says approved or
    denied only if the resolving chat is allowlisted, the operation with exactly the hash of the body
    was pending under that id, in time, and the approval is now spent. *)
Theorem dev_resolution_bound t cfg b h reply b' :
  token_ok t → dispatch printable html css b t cfg h = (reply, b') → b' ≠ b →
  ∃ req d, dev_request_from h = Ok req ∧ presents t req ∧ ip_is_loopback (ht_peer h) = true ∧
    method_parse (ht_method h) = Some Post ∧ ht_path h = lit "/approvals/resolve" ∧
    cf_mutation_enabled cfg = true ∧ dispatch_parse (ht_body h) = Ok d ∧
    (∃ e, b' = with_approvals b (filter (λ a, av_approval_id a ≠ ad_approval_id d) (mb_pending b)) e ∧
      ∀ k, k ≠ ad_approval_id d → ae_pending e !! k = ae_pending (mb_engine b) !! k) ∧
    (hr_code reply = 409 ∨
     hr_code reply = 200 ∧ chat_allows (mb_allowlist b) (mb_chat b) = true ∧
     hr_text reply = lit (if ad_approve d then "approved:" else "denied:") ++ dec_u (ad_approval_id d) ∧
     is_pending (mb_engine b') (ad_approval_id d) = false ∧
     ∃ pd, ae_pending (mb_engine b) !! ad_approval_id d = Some pd ∧
       ad_op_hash_hex d = hex_of (pd_op_hash pd) ∧ mb_now b ≤ pd_expires_at pd).
Proof.
  intros Ht H Hne. unfold dispatch in H. destruct (dev_request_from h) as [req|e] eqn:Er; [|by injection H as <- <-].
  destruct (route printable html css b t cfg req) as [resp b1] eqn:Ert. injection H as <- <-.
  destruct (route_cases _ _ _ _ _ _ _ _ _ Ht Ert) as [(_ & _ & ?)|[Hp [[? _]|(Hloop & Hm & Hpath & Hon & d & r & Hd & Hr & ->)]]];
    [done..|].
  unfold dev_request_from in Er. destruct (DevRequest_new _ _ _ _ _) as [r0|] eqn:En; [|done]. injection Er as <-.
  destruct (dev_request_bounded _ _ _ _ _ _ En) as (Hmeth & Hp0 & Hb0 & _).
  cbn [with_peer_loopback rq_method rq_path rq_body rq_peer_is_loopback] in *.
  destruct (dispatch_parse_ok _ _ Hd) as [_ Hok]. destruct (mock_dispatch_spec _ _ _ _ _ _ Hok Hr) as [He Hres].
  exists (with_peer_loopback r0 (ip_is_loopback (ht_peer h))), d. split_and!; try done; try congruence.
  destruct r as [k|k|reason]; [right|right|by left]; destruct Hres as (-> & Hr' & Hc & Hg & Hpd);
    destruct (ad_approve d); try discriminate Hr'; done.
Qed.
End EndToEnd.

(** The body of a form is read back. *)
Definition resolution_body (d : ApprovalDispatch) : chars :=
  join_with 38 [lit "approval_id=" ++ dec_u (ad_approval_id d);
                lit "decision=" ++ lit (if ad_approve d then "approve" else "deny");
                lit "op_hash=" ++ ad_op_hash_hex d].
Lemma hex_digit_hexdigit n : 0 ≤ n < 16 → is_hexdigit (hex_digit n) = true.
Proof.
  intros Hn. unfold is_hexdigit, is_digit, hex_digit, in_range. destruct (Z.ltb_spec n 10);
    repeat match goal with |- context [?a <=? ?b] => destruct (Z.leb_spec a b) end; try lia; done.
Qed.
Lemma op_hash_chars x :
  op_hash_ok x → length x = 64%nat ∧ Forall (λ c, 48 ≤ c < 128) x ∧ forallb is_hexdigit x = true ∧ to_ascii_lowercase x = x.
Proof.
  intros (h & Hb & Hl & ->). split; [by rewrite length_hex_of, Hl|]. clear Hl.
  assert (to_ascii_lowercase (hex_of h) = hex_of h) as Hlow.
  { apply (decode_hex_spec (hex_of h) h). clear -Hb. induction Hb as [|b h Hb _ IH]; [done|]. rewrite hex_of_cons. cbn [decode_hex].
    destruct (nibbles b Hb). rewrite !hex_val_digit by done. cbn [mbind option_bind]. rewrite IH. cbn [mbind option_bind].
    rewrite lor_nibbles by done. do 2 f_equal. pose proof (Z.div_mod b 16 ltac:(lia)). lia. }
  split; [|split; [|done]].
  - eapply Forall_impl; [by apply hex_of_ascii|]. intros c Hc. simpl in Hc. lia.
  - clear Hlow. induction Hb as [|b h Hb _ IH]; [done|]. rewrite hex_of_cons. cbn [forallb]. destruct (nibbles b Hb).
    by rewrite !hex_digit_hexdigit, IH by done.
Qed.
Lemma Forall_joined (P : Z → Prop) sep parts : P sep → Forall (Forall P) parts → Forall P (join_with sep parts).
Proof.
  intros Hsep. induction 1 as [|p ps Hp Hps IH]; [constructor|]. destruct ps as [|q ps]; [done|].
  change (join_with sep (p :: q :: ps)) with (p ++ sep :: join_with sep (q :: ps)). apply Forall_app_2; [done|by constructor].
Qed.
Theorem dispatch_roundtrip d :
  0 ≤ ad_approval_id d ≤ u128_MAX → op_hash_ok (ad_op_hash_hex d) → dispatch_parse (to_utf8 (resolution_body d)) = Ok d.
Proof.
  intros Hid Hx. destruct (op_hash_chars _ Hx) as (Hl & Hc & Hh & Hlow). destruct d as [id approve x]. cbn [ad_approval_id ad_op_hash_hex] in *.
  assert (∀ c, c ∈ dec_u id → 48 ≤ c ≤ 57) as Hdig by (intros c; apply dec_u_digits; lia).
  set (parts := [lit "approval_id=" ++ dec_u id; lit "decision=" ++ lit (if approve then "approve" else "deny"); lit "op_hash=" ++ x]).
  assert (Forall (λ p, (38 ∉ p) ∧ Forall (λ c, 0 ≤ c < 128) p) parts) as Hparts.
  { repeat constructor; rewrite ?not_elem_of_app, ?Forall_app;
      repeat match goal with |- _ ∧ _ => split end;
      try (apply (bool_decide_unpack _); by vm_compute); try (destruct approve; apply (bool_decide_unpack _); by vm_compute).
    - intros Hin%Hdig. lia.
    - apply Forall_forall. intros c ?%Hdig. lia.
    - intros Hin. rewrite Forall_forall in Hc. specialize (Hc _ Hin). lia.
    - eapply Forall_impl; [exact Hc|]. intros c ?; simpl in *; lia. }
  change (resolution_body (mkDispatch id approve x)) with (join_with 38 parts).
  assert (Forall (λ c, 0 ≤ c < 128) (join_with 38 parts)) as Ha.
  { apply Forall_joined; [lia|]. eapply Forall_impl; [exact Hparts|by intros ? []]. }
  assert (Forall is_scalar (join_with 38 parts)) as Hs.
  { eapply Forall_impl; [exact Ha|]. intros c ?. simpl in *. apply small_scalar. lia. }
  unfold dispatch_parse. rewrite to_utf8_valid by done. cbn [negb]. rewrite chars_of_to_utf8 by done.
  rewrite split_join; [|done|eapply Forall_impl; [exact Hparts|by intros ? []]].
  cbn [fold_left parts]. unfold dispatch_field.
  change (lit "approval_id=") with (lit "approval_id" ++ [61]). change (lit "decision=") with (lit "decision" ++ [61]).
  change (lit "op_hash=") with (lit "op_hash" ++ [61]). rewrite <-!app_assoc. cbn [app].
  rewrite !split_once_app by (apply (bool_decide_unpack _); by vm_compute).
  change (str_eq (lit "approval_id") (lit "approval_id")) with true.
  change (str_eq (lit "decision") (lit "approval_id")) with false. change (str_eq (lit "decision") (lit "decision")) with true.
  change (str_eq (lit "op_hash") (lit "approval_id")) with false. change (str_eq (lit "op_hash") (lit "decision")) with false.
  change (str_eq (lit "op_hash") (lit "op_hash")) with true. cbn [andb df_id df_approve df_hash].
  rewrite parse_uint_dec_u by done.
  assert (to_utf8 x = x) as Ex by (apply to_utf8_ascii; eapply Forall_impl; [exact Hc|]; intros c ?; simpl in *; lia).
  unfold byte_length. rewrite Ex, Hl, Hh, Hlow. cbn [Nat.eqb andb df_id df_approve df_hash].
  by destruct approve.
Qed.

(** ** The stream *)

Section Stream.
Context {B : Type} `{D : DevBackend B}.
(** What a snapshot is compared by: the two counts. *)
Definition signals (b : B) : nat * Z :=
  (iv_total_frames (run_inspector b), Z.of_nat (length (pending_approvals b)) mod 2 ^ 32).
(** The ticks at which they are not those of the last tick that was shown. *)
Fixpoint changes (shown : option (nat * Z)) (ticks : list B) : list B :=
  match ticks with
  | [] => []
  | b :: rest => if bool_decide (shown = Some (signals b)) then changes shown rest else b :: changes (Some (signals b)) rest
  end.
Definition snapshot_of (b : B) : DevSnapshot :=
  mkSnapshot (mkInspector (iv_chain (run_inspector b)) (signals b).1 (take MAX_SNAPSHOT_TASKS (iv_tasks (run_inspector b))))
    (take MAX_SNAPSHOT_APPROVALS (pending_approvals b)) (signals b).1 (signals b).2.

(** An open stream shows the first state, and then each tick at which a count differs from the last
    one shown, numbered without gaps, its lists cut to their caps. *)
Theorem snapshot_stream_exact ticks :
  snapshot_ticks cursor_start ticks = imap (λ i b, (Z.of_nat i + 1, snapshot_of b)) (changes None ticks).
Proof.
  assert (∀ ticks c shown k, cu_seq c = Z.of_nat k → (k = 0%nat ∧ shown = None ∨ k ≠ 0%nat ∧ shown = Some (cu_frames c, cu_pending c)) →
    snapshot_ticks c ticks = imap (λ i b, (Z.of_nat (k + i) + 1, snapshot_of b)) (changes shown ticks)) as H;
    [|by apply (H _ _ _ 0%nat); [|left]].
  clear ticks. induction ticks as [|b ticks IH]; intros c shown k Hk Hs; [done|]. cbn [snapshot_ticks changes].
  unfold next_snapshot. fold (signals b).1.
  destruct (bool_decide (shown = Some (signals b))) eqn:E.
  - apply bool_decide_eq_true in E. destruct Hs as [[_ Hs]|[Hk0 Hs]]; [congruence|]. rewrite E in Hs. unfold signals in Hs. injection Hs as Hf Hp.
    rewrite Hk, Hf, Hp, Nat.eqb_refl, Z.eqb_refl, (proj2 (Z.eqb_neq _ 0)) by lia. cbn [negb orb app]. apply IH; [done|].
    right. split; [done|]. rewrite E. unfold signals. by rewrite Hf, Hp.
  - apply bool_decide_eq_false in E.
    assert ((cu_seq c =? 0) || negb (iv_total_frames (run_inspector b) =? cu_frames c)%nat
            || negb (Z.of_nat (length (pending_approvals b)) mod 2 ^ 32 =? cu_pending c) = true) as ->.
    { destruct Hs as [[-> _]|[Hk0 ->]]; [by rewrite Hk|]. destruct (Nat.eqb_spec (iv_total_frames (run_inspector b)) (cu_frames c)) as [Hf|];
        [|by rewrite orb_true_r].
      destruct (Z.eqb_spec (Z.of_nat (length (pending_approvals b)) mod 2 ^ 32) (cu_pending c)) as [Hp|]; [|by rewrite !orb_true_r].
      destruct E. unfold signals. by rewrite Hf, Hp. }
    cbn [negb]. cbn [app cu_seq imap]. f_equal.
    + rewrite Hk, Nat.add_0_r. done.
    + rewrite (IH _ (Some (signals b)) (S k)); [|cbn [cu_seq]; lia|by right].
      apply imap_ext. intros i x _. cbn. do 2 f_equal. lia.
Qed.
End Stream.

(** ** Examples *)

Module Demo.
Definition token : BearerToken := mkToken (repeat 10 32).
Definition op : chars := lit "merge".
Definition shown : MockDevBackend * chars :=
  request_approval (at_time (with_allowlisted_chat MockDevBackend_new 7) 50) 5 op (lit "merge the branch") 100.
Definition config : DevConfig := enable_mutation DevConfig_default.
Definition press (hash_hex : chars) : HttpRequest :=
  mkHttp (lit "post") (lit "/approvals/resolve") [(lit "Authorization", Some (lit "Bearer " ++ reveal_once token))] None
    (V4 127 0 0 1) (to_utf8 (resolution_body (mkDispatch 5 true hash_hex))).
Definition answer (hash_hex : chars) : HttpReply * MockDevBackend :=
  dispatch (λ _, true) [] [] shown.1 token config (press hash_hex).
Example demo_press :
  (hr_code (answer shown.2).1, hr_text (answer shown.2).1, mb_pending (answer shown.2).2) = (200, lit "approved:5", []) ∧
  hr_code (answer (hex_of (repeat 0 32))).1 = 409.
Proof. vm_compute. done. Qed.
Lemma dev_resolution_bound_witness :
  ∃ req, dev_request_from (press shown.2) = Ok req ∧ presents token req ∧ cf_mutation_enabled config = true.
Proof.
  destruct (dev_resolution_bound (λ _, true) [] [] token config shown.1 (press shown.2) (answer shown.2).1 (answer shown.2).2)
    as (req & d & H1 & H2 & _ & _ & _ & H3 & _).
  - split; [reflexivity|]. apply (bool_decide_unpack _). by vm_compute.
  - unfold answer. by destruct (dispatch _ _ _ _ _ _ _).
  - intros E%(f_equal mb_pending). vm_compute in E. done.
  - exists req. exact (conj H1 (conj H2 H3)).
Defined.

(** A hash that is none binds to nothing: given to the backend itself, it approves whatever is pending. *)
Example malformed_hash_approves : (mock_dispatch shown.1 5 true (lit "00")).1 = DApproved 5.
Proof. vm_compute. reflexivity. Qed.
(** A resolution that is refused for its hash takes the approval out of the list all the same, while it
    is still pending in the engine. *)
Example refused_hides_approval :
  let b := (answer (hex_of (repeat 0 32))).2 in mb_pending b = [] ∧ is_pending (mb_engine b) 5 = true.
Proof. vm_compute. done. Qed.
(** One approval answered and another asked for between two ticks: the counts are the same, and the
    stream goes on showing the first. *)
Example stale_snapshot :
  let b2 := (request_approval (answer shown.2).2 6 (lit "deploy") (lit "deploy it") 100).1 in
  snapshot_ticks cursor_start [shown.1; b2] = snapshot_ticks cursor_start [shown.1] ∧
  (av_approval_id <$> mb_pending shown.1, av_approval_id <$> mb_pending b2) = ([5], [6]).
Proof. vm_compute. done. Qed.
(** Without its source of random bytes the launch goes on with a token of zeros. *)
Example token_without_randomness : reveal_once (mint_launch_token None) = repeat 48 64.
Proof. reflexivity. Qed.
(** A flow with an id that was reserved and not used: the graph leaves its last node out. *)
Example graph_gap :
  let f := mkFlow [(0, NJoin 2); (2, NEnd)] 0 in
  validate f = Ok tt ∧ gv_nodes (render_graph f) = [(0, lit "join")] ∧ gv_edges (render_graph f) = [(0, 2)].
Proof. vm_compute. done. Qed.
End Demo.
