(* ===== verification/Admin.v ===== *)
(** * Remote administration (crate [crustcore-daemon], [admin.rs])

    The admin socket: a framed nonce, then a framed command, dispatched to the registry of tasks as
    the operator. What the connection delivers before it ends is a stream; writing the reply is taken
    to succeed. *)

From S2P Require Import Prelude Text Std Chars Strings Sha256 Types Supervisor Registry RegistryTheorems.

Definition MAX_ADMIN_FRAME : Z := 64 * 1024.
Definition MAX_STATUS_ROWS : nat := 256.

Inductive AdminCommand := AStatus | ATaskDetail (id : Z) | ACancel (id : Z) | AKill (id : Z).
Definition parse_admin_command (line : chars) : option AdminCommand :=
  match split_whitespace line with
  | [] => None
  | verb :: rest =>
      let id := head rest ≫= parse_uint u64_MAX in
      if str_eq verb (lit "status") then Some AStatus
      else if str_eq verb (lit "detail") then ATaskDetail <$> id
      else if str_eq verb (lit "cancel") then ACancel <$> id
      else if str_eq verb (lit "kill") then AKill <$> id
      else None
  end.

Inductive AdminResponse := ASnapshot (s : chars) | ADetail (s : chars) | AActed | ANotActed | ABadRequest | AUnauthorized.
Definition render_response (r : AdminResponse) : chars :=
  match r with
  | ASnapshot s | ADetail s => s
  | AActed => lit "ok: acted"
  | ANotActed => lit "ok: no-op (not owned / unknown / terminal)"
  | ABadRequest => lit "error: bad request"
  | AUnauthorized => lit "error: unauthorized"
  end.

(** ** Frames *)

Inductive AdminError := FrameTooLarge.
Definition frame (payload : bytes) : bytes :=
  let len := Z.of_nat (length payload) in
  to_le_bytes 4 (if len <=? u32_MAX then len else u32_MAX) ++ payload.
Definition try_deframe (buf : bytes) : result AdminError (option (bytes * nat)) :=
  if (length buf <? 4)%nat then Ok None
  else
    let len := from_le_bytes (take 4 buf) in
    if MAX_ADMIN_FRAME <? len then Err FrameTooLarge
    else
      let n := Z.to_nat len in
      if (length buf <? 4 + n)%nat then Ok None else Ok (Some (take n (drop 4 buf), (4 + n)%nat)).

(** No early return on the first byte that differs. *)
Definition admin_authenticate (provided expected : bytes) : bool :=
  if negb (length provided =? length expected)%nat || (length expected =? 0)%nat then false else ct_eq provided expected.

(** ** Commands *)

Definition phase_debug (p : TaskPhase) : chars :=
  match p with
  | PPending => lit "Pending"
  | PRunning => lit "Running"
  | PCancelling => lit "Cancelling"
  | PDone d =>
      lit "Done(" ++
      match d with
      | DCompleted => lit "Completed"
      | DCancelled => lit "Cancelled"
      | DKilled => lit "Killed"
      | DExpired => lit "Expired"
      | DBudgetExhausted e =>
          lit "BudgetExhausted(" ++ lit match e with BEWall => "Wall" | BEOutput => "Output" | BETokens => "Tokens" end ++ lit ")"
      end ++ lit ")"
  end.
Definition render_row (row : TaskRow) : chars :=
  lit "task " ++ dec_u (row_id row) ++ lit " chat " ++ dec_i (row_chat row) ++ lit " " ++ phase_debug (row_phase row) ++
  lit " " ++ dec_u (row_wall_ms row) ++ lit "ms".
Definition render_snapshot (rows : list TaskRow) : chars :=
  lit "tasks: " ++ dec_u (Z.of_nat (length rows)) ++ [10] ++
  (take MAX_STATUS_ROWS rows ≫= λ row, render_row row ++ [10]).
Definition dispatch_admin (cmd : AdminCommand) (r : TaskRegistry) (operator : Z) (now : Timestamp)
  : AdminResponse * TaskRegistry :=
  match cmd with
  | AStatus => (ASnapshot (render_snapshot (snapshot r now)), r)
  | ATaskDetail id =>
      (match snapshot_get (snapshot r now) id with Some row => ADetail (render_row row) | None => ANotActed end, r)
  | ACancel id => let '(acted, r) := request_cancel r id operator in (if acted then AActed else ANotActed, r)
  | AKill id => let '(acted, r) := request_kill r id operator in (if acted then AActed else ANotActed, r)
  end.

(** ** Connections *)

(** What the peer sends, and the error at the end of it, if it is not just its end. *)
Record Incoming := mkIncoming { in_data : bytes; in_error : option chars }.
Inductive IoFailure := UnexpectedEof | TooLarge | OtherIo (e : chars).
Definition read_exact (n : nat) (s : Incoming) : result IoFailure bytes * Incoming :=
  if (n <=? length (in_data s))%nat then (Ok (take n (in_data s)), mkIncoming (drop n (in_data s)) (in_error s))
  else (Err (match in_error s with Some e => OtherIo e | None => UnexpectedEof end), mkIncoming [] (in_error s)).
Definition read_frame (s : Incoming) : result IoFailure (option bytes) * Incoming :=
  match read_exact 4 s with
  | (Err UnexpectedEof, s) => (Ok None, s)
  | (Err e, s) => (Err e, s)
  | (Ok b, s) =>
      let len := from_le_bytes b in
      if MAX_ADMIN_FRAME <? len then (Err TooLarge, s)
      else let '(r, s) := read_exact (Z.to_nat len) s in (Some <$> r, s)
  end.
(** The reply that is written, if any. *)
Definition serve_admin_connection (s : Incoming) (r : TaskRegistry) (operator : Z) (expected_nonce : bytes) (now : Timestamp)
  : result IoFailure (option bytes) * TaskRegistry :=
  match read_frame s with
  | (Err e, _) => (Err e, r)
  | (Ok None, _) => (Ok None, r)
  | (Ok (Some nonce), s) =>
      if negb (admin_authenticate nonce expected_nonce) then
        (Ok (Some (frame (to_utf8 (render_response AUnauthorized)))), r)
      else
        match read_frame s with
        | (Err e, _) => (Err e, r)
        | (Ok None, _) => (Ok None, r)
        | (Ok (Some cmd_bytes), _) =>
            let '(response, r) :=
              match parse_admin_command (chars_of (from_utf8_lossy cmd_bytes)) with
              | Some cmd => dispatch_admin cmd r operator now
              | None => (ABadRequest, r)
              end in
            (Ok (Some (frame (to_utf8 (render_response response)))), r)
        end
  end.

(** * Remote administration: theorems

    Frames are read back exactly as they are written; nothing but the nonce opens the socket; an
    operator acts on the tasks of their own chat only; every reply fits a frame. *)

(** ** Frames *)

Lemma frame_length p : length (frame p) = (4 + length p)%nat.
Proof. unfold frame. by rewrite length_app, length_to_le_bytes. Qed.
Lemma frame_small p : Z.of_nat (length p) ≤ MAX_ADMIN_FRAME → frame p = to_le_bytes 4 (Z.of_nat (length p)) ++ p.
Proof. intros Hp. unfold frame. by rewrite (proj2 (Z.leb_le _ _)) by (unfold u32_MAX, MAX_ADMIN_FRAME in *; lia). Qed.
Lemma frame_head p R :
  Z.of_nat (length p) ≤ MAX_ADMIN_FRAME →
  take 4 (frame p ++ R) = to_le_bytes 4 (Z.of_nat (length p)) ∧ from_le_bytes (take 4 (frame p ++ R)) = Z.of_nat (length p) ∧
  drop 4 (frame p ++ R) = p ++ R.
Proof.
  intros Hp. rewrite frame_small, <-app_assoc by done.
  rewrite take_app_length', drop_app_length' by (by rewrite length_to_le_bytes). split; [done|]. split; [|done].
  apply from_to_le_bytes. change (256 ^ Z.of_nat 4) with 4294967296. unfold MAX_ADMIN_FRAME in Hp. lia.
Qed.
(** A buffer whose first four bytes are a length within the bound, and has that many more, starts
    with a frame. *)
Lemma frame_of buf n :
  Forall is_byte buf → (4 ≤ length buf)%nat → from_le_bytes (take 4 buf) = Z.of_nat n → (4 + n ≤ length buf)%nat →
  Z.of_nat n ≤ MAX_ADMIN_FRAME → buf = frame (take n (drop 4 buf)) ++ drop (4 + n) buf.
Proof.
  intros Hb H4 Hn Hlen Hmax. assert (length (take n (drop 4 buf)) = n) as Hl by (rewrite length_take, length_drop; lia).
  rewrite frame_small by (by rewrite Hl). rewrite Hl, <-Hn, to_from_le_bytes_n by (first [by apply Forall_take|rewrite length_take; lia]).
  by rewrite <-app_assoc, <-drop_drop, !take_drop.
Qed.

(** A frame is taken off the front of a buffer if and only if it is there whole; what is cut short
    waits for more, and a length over the bound is refused. *)
Theorem deframe_exact buf :
  Forall is_byte buf →
  match try_deframe buf with
  | Ok (Some (p, n)) => n = (4 + length p)%nat ∧ Z.of_nat (length p) ≤ MAX_ADMIN_FRAME ∧ buf = frame p ++ drop n buf
  | Ok None => ∀ p R, Z.of_nat (length p) ≤ MAX_ADMIN_FRAME → buf ≠ frame p ++ R
  | Err FrameTooLarge => (4 ≤ length buf)%nat ∧ MAX_ADMIN_FRAME < from_le_bytes (take 4 buf)
  end.
Proof.
  intros Hb. unfold try_deframe. destruct (Nat.ltb_spec (length buf) 4) as [H4|H4].
  { intros p R Hp ->. rewrite length_app, frame_length in H4. lia. }
  destruct (Z.ltb_spec MAX_ADMIN_FRAME (from_le_bytes (take 4 buf))) as [Hbig|Hok]; [done|].
  pose proof (from_le_bytes_range (take 4 buf) (Forall_take _ _ _ Hb)) as [H0 _].
  set (n := Z.to_nat (from_le_bytes (take 4 buf))). assert (from_le_bytes (take 4 buf) = Z.of_nat n) as Hn by (unfold n; lia).
  destruct (Nat.ltb_spec (length buf) (4 + n)) as [Hs|Hs].
  - intros p R Hp ->. destruct (frame_head p R Hp) as (_ & Hh & _). rewrite Hh in Hn. rewrite length_app, frame_length in Hs. lia.
  - rewrite length_take, length_drop. split; [lia|]. split; [lia|]. by apply frame_of; try lia.
Qed.
Corollary deframe_frame p R :
  Z.of_nat (length p) ≤ MAX_ADMIN_FRAME → try_deframe (frame p ++ R) = Ok (Some (p, (4 + length p)%nat)).
Proof.
  intros Hp. destruct (frame_head p R Hp) as (_ & Hh & Hd). unfold try_deframe.
  rewrite Hh, Hd, Nat2Z.id, length_app, frame_length, (proj2 (Z.ltb_ge _ _)) by done.
  rewrite (proj2 (Nat.ltb_ge _ _)), (proj2 (Nat.ltb_ge _ _)) by lia. by rewrite take_app_length.
Qed.

(** ** Connections *)

Lemma read_frame_spec s b s' :
  Forall is_byte (in_data s) → read_frame s = (Ok (Some b), s') →
  Z.of_nat (length b) ≤ MAX_ADMIN_FRAME ∧ in_data s = frame b ++ in_data s' ∧ in_error s' = in_error s.
Proof.
  intros Hb H. unfold read_frame, read_exact in H. destruct (Nat.leb_spec 4 (length (in_data s))) as [H4|];
    [|by destruct (in_error s)].
  cbn [in_data in_error] in H. destruct (Z.ltb_spec MAX_ADMIN_FRAME (from_le_bytes (take 4 (in_data s)))); [done|].
  pose proof (from_le_bytes_range (take 4 (in_data s)) (Forall_take _ _ _ Hb)) as [Hpos _].
  set (n := Z.to_nat _) in H. assert (from_le_bytes (take 4 (in_data s)) = Z.of_nat n) as Hn by (unfold n; lia).
  destruct (Nat.leb_spec n (length (drop 4 (in_data s)))) as [Hs|]; [|by destruct (in_error s)].
  rewrite length_drop in Hs. injection H as <- <-. cbn [in_data in_error]. rewrite length_take, length_drop.
  split; [lia|]. split; [|done]. rewrite drop_drop. apply frame_of; try done; lia.
Qed.
Lemma admin_authenticate_spec a b :
  Forall is_byte a → Forall is_byte b → admin_authenticate a b = true ↔ a = b ∧ b ≠ [].
Proof.
  intros Ha Hb. unfold admin_authenticate. destruct (Nat.eqb_spec (length a) (length b)) as [Hl|Hl]; cbn [negb orb].
  2:{ split; [done|]. by intros [-> _]. }
  destruct (Nat.eqb_spec (length b) 0) as [H0|H0].
  { split; [done|]. intros [_ Hne]. by destruct b. }
  rewrite ct_eq_spec, bool_decide_eq_true by done. split; [|by intros [-> _]]. intros ->. split; [done|]. by intros ->.
Qed.

(** Whatever a connection sends, the registry changes only when it opens with the nonce of the launch,
    which is not empty, and goes on with the command to cancel or kill a task that the operator owns
    and that has not ended; then the reply says so, that command is all that was done, and every other
    task is as it was. *)
Theorem admin_gated s r operator nonce now res r' :
  Forall is_byte (in_data s) → Forall is_byte nonce → registry_inv r →
  serve_admin_connection s r operator nonce now = (res, r') → r' ≠ r →
  nonce ≠ [] ∧ res = Ok (Some (frame (lit "ok: acted"))) ∧
  ∃ line rest id, in_data s = frame nonce ++ frame line ++ rest ∧
    (parse_admin_command (chars_of (from_utf8_lossy line)) = Some (ACancel id) ∧ r' = (request_cancel r id operator).2 ∨
     parse_admin_command (chars_of (from_utf8_lossy line)) = Some (AKill id) ∧ r' = (request_kill r id operator).2) ∧
    (∃ slot, bt_get (slots r) id = Some slot ∧ s_chat slot = operator ∧ is_terminal (s_phase slot) = false) ∧
    ∀ id', id' ≠ id → bt_get (slots r') id' = bt_get (slots r) id'.
Proof.
  intros Hb Hn Hr H Hne. unfold serve_admin_connection in H.
  destruct (read_frame s) as [[[b|]|e] s1] eqn:E1; [|by injection H as <- <-..].
  destruct (read_frame_spec _ _ _ Hb E1) as (_ & Hd1 & _).
  assert (Forall is_byte b ∧ Forall is_byte (in_data s1)) as [Hbb Hb1].
  { rewrite Hd1 in Hb. apply Forall_app in Hb as [Hf ?]. split; [|done]. unfold frame in Hf. by apply Forall_app in Hf as [_ ?]. }
  destruct (admin_authenticate b nonce) eqn:Ea; cbn [negb] in H; [|by injection H as <- <-].
  apply admin_authenticate_spec in Ea as [-> Hnonce]; [|done..].
  destruct (read_frame s1) as [[[line|]|e] s2] eqn:E2; [|by injection H as <- <-..].
  destruct (read_frame_spec _ _ _ Hb1 E2) as (_ & Hd2 & _). split; [done|].
  destruct (parse_admin_command (chars_of (from_utf8_lossy line))) as [cmd|] eqn:Ec; [|by injection H as <- <-].
  destruct cmd as [|id|id|id]; cbn [dispatch_admin] in H; try (by injection H as <- <-);
    destruct (control_owner_scoped r id operator Hr) as ((Hc & Hk) & Hcn & Hkn & Hother & _).
  - destruct (request_cancel r id operator) as [acted r1] eqn:Er. injection H as <- <-. cbn [fst snd] in *.
    destruct acted; [|by destruct Hne; apply Hcn]. split; [by rewrite to_utf8_ascii by (apply (bool_decide_unpack _); by vm_compute)|].
    exists line, (in_data s2), id. rewrite Er. split_and!; [by rewrite Hd1, Hd2|by left|by apply Hc|]. intros id' Hid. by apply Hother.
  - destruct (request_kill r id operator) as [acted r1] eqn:Er. injection H as <- <-. cbn [fst snd] in *.
    destruct acted; [|by destruct Hne; apply Hkn]. split; [by rewrite to_utf8_ascii by (apply (bool_decide_unpack _); by vm_compute)|].
    exists line, (in_data s2), id. rewrite Er. split_and!; [by rewrite Hd1, Hd2|by right|by apply Hk|]. intros id' Hid. by apply Hother.
Qed.

(** ** Replies *)

Record row_typed (row : TaskRow) : Prop := {
  rt_id : is_uint 64 (row_id row);
  rt_chat : - 2 ^ 63 ≤ row_chat row < 2 ^ 63;
  rt_wall : is_uint 64 (row_wall_ms row) }.
Abbreviation ascii := (Forall (λ c, 0 ≤ c < 128)) (only parsing).
Lemma dec_u64 n : is_uint 64 n → ascii (dec_u n) ∧ (length (dec_u n) ≤ 20)%nat.
Proof.
  unfold is_uint. intros Hn. split.
  - apply Forall_forall. intros c Hc%dec_u_digits; lia.
  - pose proof (dec_u_length 20 n). assert (2 ^ 64 < 10 ^ Z.of_nat 20) by (by vm_compute). lia.
Qed.
Lemma dec_i64 n : - 2 ^ 63 ≤ n < 2 ^ 63 → ascii (dec_i n) ∧ (length (dec_i n) ≤ 20)%nat.
Proof.
  intros Hn. unfold dec_i. assert (2 ^ 63 < 10 ^ Z.of_nat 19) as H63 by (by vm_compute).
  destruct (Z.ltb_spec n 0); (split; [try (constructor; [lia|]); apply Forall_forall; intros c Hc%dec_u_digits; lia|]); cbn [length].
  - pose proof (dec_u_length 19 (- n)). lia.
  - pose proof (dec_u_length 19 n). lia.
Qed.
Lemma phase_ascii p : ascii (phase_debug p) ∧ (length (phase_debug p) ≤ 30)%nat.
Proof.
  destruct p as [| | |[| | | |[]]]; split; first [apply (bool_decide_unpack _); by vm_compute|vm_compute; lia].
Qed.
Lemma row_bounded row : row_typed row → ascii (render_row row) ∧ (length (render_row row) ≤ 105)%nat.
Proof.
  intros [Hi Hc Hw]. destruct (dec_u64 _ Hi), (dec_i64 _ Hc), (dec_u64 _ Hw), (phase_ascii (row_phase row)). unfold render_row. split.
  - repeat apply Forall_app_2; try done; apply (bool_decide_unpack _); by vm_compute.
  - rewrite !length_app. change (length (lit "task ")) with 5%nat. change (length (lit " chat ")) with 6%nat.
    change (length (lit " ")) with 1%nat. change (length (lit "ms")) with 2%nat. lia.
Qed.
(** The status of any number of tasks fits a frame: what the peer is sent, it can read. *)
Theorem status_fits rows :
  Forall row_typed rows → is_uint 64 (Z.of_nat (length rows)) →
  try_deframe (frame (to_utf8 (render_response (ASnapshot (render_snapshot rows))))) =
    Ok (Some (render_snapshot rows, (4 + length (render_snapshot rows))%nat)).
Proof.
  intros Hr Hl. cbn [render_response].
  assert (ascii (render_snapshot rows) ∧ (length (render_snapshot rows) ≤ 28 + 256 * 106)%nat) as [Ha Hlen].
  { destruct (dec_u64 _ Hl) as [Hd Hd']. unfold render_snapshot.
    assert (∀ l, Forall row_typed l → ascii (l ≫= λ row, render_row row ++ [10]) ∧
      (length (l ≫= λ row, render_row row ++ [10%Z]) ≤ length l * 106)%nat) as Hrows.
    { induction 1 as [|row l Hrow _ [IHa IHl]]; [split; [constructor|done]|]. rewrite bind_cons. destruct (row_bounded _ Hrow).
      split; [apply Forall_app_2; [apply Forall_app_2; [done|apply Forall_singleton; lia]|done]|]. rewrite !length_app. cbn [length]. lia. }
    destruct (Hrows (take MAX_STATUS_ROWS rows) (Forall_take _ _ _ Hr)) as [Hra Hrl]. split.
    - repeat apply Forall_app_2; try done; apply (bool_decide_unpack _); by vm_compute.
    - rewrite !length_app. change (length (lit "tasks: ")) with 7%nat. change (length [10]) with 1%nat.
      rewrite length_take in Hrl. unfold MAX_STATUS_ROWS in *. lia. }
  rewrite to_utf8_ascii by done. rewrite <-(app_nil_r (frame _)), deframe_frame; [done|]. unfold MAX_ADMIN_FRAME. lia.
Qed.

(** ** Examples *)

Module Demo.
Definition nonce : bytes := lit "n0nce".
Definition kill1 (operator : Z) (nonce : bytes) :=
  serve_admin_connection (mkIncoming (frame nonce ++ frame (lit "kill 1")) None) demo_registry3 operator (lit "n0nce") 5.
Example demo_kill :
  ((kill1 7 nonce).1, (kill1 8 nonce).1, (kill1 7 (lit "guess")).1) =
  (Ok (Some (frame (lit "ok: acted"))), Ok (Some (frame (lit "ok: no-op (not owned / unknown / terminal)"))),
   Ok (Some (frame (lit "error: unauthorized")))).
Proof. vm_compute. reflexivity. Qed.
Lemma admin_gated_witness : ∃ id, (kill1 7 nonce).2 = (request_kill demo_registry3 id 7).2 ∨ (kill1 7 nonce).2 = (request_cancel demo_registry3 id 7).2.
Proof.
  destruct (admin_gated (mkIncoming (frame nonce ++ frame (lit "kill 1")) None) demo_registry3 7 nonce 5 (kill1 7 nonce).1 (kill1 7 nonce).2)
    as (_ & _ & line & rest & id & _ & H & _).
  - apply (bool_decide_unpack _). by vm_compute.
  - apply (bool_decide_unpack _). by vm_compute.
  - exact demo_registry3_inv.
  - exact (surjective_pairing (kill1 7 nonce)).
  - intros E%(f_equal (λ r, s_phase <$> bt_get (slots r) 1)). vm_compute in E. done.
  - exists id. destruct H as [[_ H]|[_ H]]; [by right|by left].
Defined.
(** A frame that ends within its length counts as no frame at all, not as one cut short. *)
Example short_length_is_eof : (read_frame (mkIncoming [1; 0] None)).1 = Ok None.
Proof. reflexivity. Qed.
End Demo.
