(* ===== verification/Onboarding.v ===== *)
(** * Setting up a repository, and the two ends of a task (crate [crustcore-daemon]: [onboarding.rs],
    [repo_profiler.rs], [task_loop.rs])

    The install redirect of the GitHub application becomes a registered repository and an approval; the
    profiler lists the paths of a repository for the planner; the task loop turns a routing decision
    into a plan, and a verified run with its reviews into an outcome. *)

From S2P Require Import Prelude Text Redactor Types Sha256 Policy Std Chars Supervisor Strings Profile Planner Backend GitHub Worker Telegram.

(** ** Onboarding *)

Definition DEFAULT_BRANCH_PREFIX : string := "crustcore/".
Definition MAX_REPO_SLUG : nat := N.to_nat 256.
Record InstallRedirect := mkRedirect { ir_installation_id : Z; ir_setup_id : option Z; ir_repo : string }.
Inductive OnboardingError := MissingInstallationId | InvalidRepo | RepoSlugTooLong | MissingConfig | InvalidConfig (e : ProfileError).
Definition slug_ok (s : chars) : bool :=
  forallb (λ c, is_digit c || in_range 65 90 c || in_range 97 122 c || (c =? 45) || (c =? 95) || (c =? 46)) s.
Definition validate_repo_slug (slug : chars) : result OnboardingError unit :=
  if decide (MAX_REPO_SLUG < byte_length slug)%nat then Err RepoSlugTooLong
  else
    match split_once 47 slug with
    | None => Err InvalidRepo
    | Some (owner, name) =>
        if str_eq owner [] || str_eq name [] || existsb (Z.eqb 47) name then Err InvalidRepo
        else if one_of ["."; ".."]%string owner || one_of ["."; ".."]%string name then Err InvalidRepo
        else if negb (slug_ok owner) || negb (slug_ok name) then Err InvalidRepo
        else Ok tt
    end.
Definition scope_from_redirect (r : InstallRedirect) (scope : ScopeId) : result OnboardingError (string * string * ScopeId) :=
  if ir_installation_id r =? 0 then Err MissingInstallationId
  else
    _ ← validate_repo_slug (text_chars (ir_repo r));
    if decide (MAX_REPO_SLUG < byte_length (text_chars (ir_repo r)))%nat then Err RepoSlugTooLong
    else Ok (ir_repo r, DEFAULT_BRANCH_PREFIX, scope).
Record Onboarded := mkOnboarded { ob_approval : Approved GitHubWriteCap; ob_installation_id : Z; ob_repo : string }.
Definition onboard (registry : RepoRegistry) (operator : AuthorizedUser) (redirect : InstallRedirect) (scope : ScopeId)
    (approval_id : ApprovalId) (approval_expires_at : Timestamp) : result OnboardingError Onboarded * RepoRegistry :=
  match scope_from_redirect redirect scope with
  | Err e => (Err e, registry)
  | Ok (repo, branch_prefix, scope) =>
      let '(cap_for_registry, approval) :=
        approve_github_write operator repo branch_prefix scope approval_id approval_expires_at in
      (Ok (mkOnboarded approval (ir_installation_id redirect) (ir_repo redirect)), repo_register registry cap_for_registry)
  end.
Record TokenLease := mkTokenLease { tl_installation_id : Z; tl_expires_at : Timestamp }.
Definition needs_refresh (l : TokenLease) (now : Timestamp) (skew_ms : Z) : bool :=
  tl_expires_at l <=? saturating_add u64_MAX now skew_ms.
Definition load_profile (yaml : chars) : result OnboardingError RepoProfile :=
  if str_eq (trim yaml) [] then Err MissingConfig else map_err InvalidConfig (RepoProfile_parse yaml).

(** ** The profiler *)

Definition DEFAULT_PROFILE_MAX_DEPTH : nat := 4.
Definition DEFAULT_PROFILE_MAX_PATHS : nat := 512.
Definition MAX_PROFILE_PATH_LEN : nat := 512.
Record RepoProfilerConfig := mkProfilerConfig { pc_max_depth : nat; pc_max_paths : nat }.
Definition RepoProfilerConfig_default : RepoProfilerConfig :=
  mkProfilerConfig DEFAULT_PROFILE_MAX_DEPTH DEFAULT_PROFILE_MAX_PATHS.
Record RepoPathSnapshot := mkPathSnapshot {
  ps_paths : list chars; ps_truncated : bool; ps_skipped_symlinks : nat; ps_skipped_paths : nat }.
Definition RepoPathSnapshot_default : RepoPathSnapshot := mkPathSnapshot [] false 0 0.
Record RepoProfilerError := mkProfilerError { pf_path : chars; pf_reason : chars }.

Definition safe_component_name (name : chars) : bool :=
  negb (str_eq name []) && negb (str_eq name (lit ".")) && negb (str_eq name (lit "..")) &&
  negb (existsb (Z.eqb 47) name) && negb (existsb (Z.eqb 92) name) && negb (existsb is_control name).
Definition should_skip_dir_name (name : chars) : bool :=
  one_of [".git"; ".hg"; ".svn"; "target"; "node_modules"; ".next"; ".turbo"; "dist"; "build"; ".venv"; "__pycache__"]%string name.
Definition join_rel (parent child : chars) : chars := if str_eq parent [] then child else parent ++ [47] ++ child.

(** What kind of file an entry is, links not followed. *)
Inductive EntryKind := EDir | ESymlink | EOther.
Definition DirEntry : Type := bytes * result chars EntryKind.
Section Profiler.
(** The entries of the directory with this relative path, or why they cannot be read. *)
Context (read_dir : chars → result chars (list (result chars DirEntry))).

(** All the entries, or the first that cannot be read. *)
Fixpoint collect_entries (rel : chars) (l : list (result chars DirEntry)) : result RepoProfilerError (list DirEntry) :=
  match l with
  | [] => Ok []
  | Err e :: _ => Err (mkProfilerError rel (lit "cannot read entry: " ++ e))
  | Ok x :: rest => cons x <$> collect_entries rel rest
  end.
Definition set_truncated (s : RepoPathSnapshot) : RepoPathSnapshot :=
  mkPathSnapshot (ps_paths s) true (ps_skipped_symlinks s) (ps_skipped_paths s).
Definition skip_path (s : RepoPathSnapshot) : RepoPathSnapshot :=
  mkPathSnapshot (ps_paths s) (ps_truncated s) (ps_skipped_symlinks s) (S (ps_skipped_paths s)).
Definition skip_symlink (s : RepoPathSnapshot) : RepoPathSnapshot :=
  mkPathSnapshot (ps_paths s) (ps_truncated s) (S (ps_skipped_symlinks s)) (ps_skipped_paths s).
Definition push_profile_path (s : RepoPathSnapshot) (path : chars) (c : RepoProfilerConfig) : RepoPathSnapshot :=
  if (pc_max_paths c <=? length (ps_paths s))%nat then set_truncated s
  else mkPathSnapshot (ps_paths s ++ [path]) (ps_truncated s) (ps_skipped_symlinks s) (ps_skipped_paths s).

(** The loop over the entries; [down] profiles a subdirectory, unless the depth is reached. *)
Fixpoint profile_entries (down : option (chars → RepoPathSnapshot → result RepoProfilerError (bool * RepoPathSnapshot)))
    (c : RepoProfilerConfig) (rel_dir : chars) (es : list DirEntry) (s : RepoPathSnapshot)
  : result RepoProfilerError (bool * RepoPathSnapshot) :=
  match es with
  | [] => Ok (true, s)
  | (file_name, kind) :: rest =>
      if (pc_max_paths c <=? length (ps_paths s))%nat then Ok (false, set_truncated s)
      else if negb (is_utf8 file_name) then profile_entries down c rel_dir rest (skip_path s)
      else
        let name := chars_of file_name in
        if negb (safe_component_name name) then profile_entries down c rel_dir rest (skip_path s)
        else if should_skip_dir_name name then profile_entries down c rel_dir rest s
        else
          let child_rel := join_rel rel_dir name in
          if (MAX_PROFILE_PATH_LEN <? byte_length child_rel)%nat then profile_entries down c rel_dir rest (skip_path s)
          else
            match kind with
            | Err e => Err (mkProfilerError child_rel (lit "cannot inspect entry: " ++ e))
            | Ok ESymlink => profile_entries down c rel_dir rest (skip_symlink s)
            | Ok EOther => profile_entries down c rel_dir rest (push_profile_path s child_rel c)
            | Ok EDir =>
                let s := push_profile_path s child_rel c in
                match down with
                | None => profile_entries down c rel_dir rest (set_truncated s)
                | Some down_dir =>
                    '(go_on, s) ← down_dir child_rel s;
                    if go_on : bool then profile_entries down c rel_dir rest s else Ok (false, s)
                end
            end
  end.
(** [k] more levels may be entered below this directory. *)
Fixpoint profile_dir (k : nat) (c : RepoProfilerConfig) (rel_dir : chars) (s : RepoPathSnapshot)
  : result RepoProfilerError (bool * RepoPathSnapshot) :=
  if (pc_max_paths c <=? length (ps_paths s))%nat then Ok (false, set_truncated s)
  else
    match read_dir rel_dir with
    | Err e => Err (mkProfilerError rel_dir (lit "cannot read directory: " ++ e))
    | Ok l =>
        es ← collect_entries rel_dir l;
        let es := sort_by (λ a b : DirEntry, bytes_le a.1 b.1) es in
        profile_entries (match k with O => None | S k' => Some (profile_dir k' c) end) c rel_dir es s
    end.
(** The root is inspected first, a link not followed. *)
Definition profile_with_config (root : result chars EntryKind) (c : RepoProfilerConfig)
  : result RepoProfilerError RepoPathSnapshot :=
  match root with
  | Err e => Err (mkProfilerError [] (lit "cannot inspect repo root: " ++ e))
  | Ok EDir => snd <$> profile_dir (pc_max_depth c) c [] RepoPathSnapshot_default
  | Ok _ => Err (mkProfilerError [] (lit "repo root is not a directory"))
  end.
End Profiler.
Definition to_signals (s : RepoPathSnapshot) : RepoSignals := Planner.from_paths (ps_paths s).
Definition snapshot_plan (s : RepoPathSnapshot) (profile : RepoProfile) (changed_paths : list chars) (task : TaskShape)
  : VerifierPlan := plan_verification profile (from_repo_and_changed_paths (ps_paths s) changed_paths) task.

(** ** The task loop *)

Inductive ExecutionPlan := PlanSingle (k : ExecutorKind) | PlanFanout (ks : list ExecutorKind) | AdvisoryOnly | PlanBlocked (r : BlockedReason).
(** [None]: the panic of [decide_routing]. *)
Definition plan_task (task : TaskShape) (risk : RiskTier) (context_budget : Z) (configured : list ExecutorKind)
  : option ExecutionPlan :=
  (λ d, match d with
        | SingleExecutor k => PlanSingle k
        | FanOut fleet => PlanFanout fleet
        | RequiresPlan => AdvisoryOnly
        | RBlocked reason => PlanBlocked reason
        end) <$> decide_routing task risk context_budget configured.
Inductive TaskOutcome :=
| OutBlocked (r : BlockedReason) | AdvisoryRequested | OutFailed | AwaitingReview (roles : list Role)
| ReviewTimedOut (roles : list Role) | ReviewBlocked (role : Role) | ReadyToIntegrate.
Definition finalize_task (task : TaskShape) (risk : RiskTier) (verified : bool) (verdicts : list (Role * Verdict))
    (waited_ms max_wait_ms : Z) : TaskOutcome :=
  if negb verified then OutFailed
  else
    match orchestrate_review task risk verdicts verified waited_ms max_wait_ms with
    | NotRequired => ReadyToIntegrate
    | Supervisor.Pending roles => AwaitingReview roles
    | TimedOut roles => ReviewTimedOut roles
    | Decided Integrate => ReadyToIntegrate
    | Decided (BlockedBy role _) => ReviewBlocked role
    | Decided (NotVerified | MissingReview) => AwaitingReview (required_reviewers task risk)
    end.

(** * Slack (crate [crustcore-daemon], [slack.rs])

    The verifier of a request, the allowlist, the normalization of a message into the events of the
    runtime, the rendering of a reply. *)

Definition MAX_SLACK_TEXT : nat := N.to_nat 4096.
Definition MAX_SLACK_OUTBOUND : nat := N.to_nat 8192.

(** ** The allowlist *)

Record SlackAllowlist := mkSlackAllowlist { sa_workspaces : gmap chars (gset chars) }.
Definition SlackAllowlist_new : SlackAllowlist := mkSlackAllowlist ∅.
Definition slack_allow (a : SlackAllowlist) (workspace channel : chars) : SlackAllowlist :=
  mkSlackAllowlist (<[workspace := {[channel]} ∪ default ∅ (sa_workspaces a !! workspace)]> (sa_workspaces a)).
Definition slack_is_allowed (a : SlackAllowlist) (workspace channel : chars) : bool :=
  match sa_workspaces a !! workspace with Some chans => bool_decide (channel ∈ chans) | None => false end.

(** ** Messages *)

Record SlackMessage := mkSlackMessage {
  sm_workspace : chars; sm_channel : chars; sm_user : chars; sm_text : chars; sm_reaction : option chars }.
Definition normalize_message (msg : SlackMessage) (allowlist : SlackAllowlist) : option RuntimeEvent :=
  if negb (slack_is_allowed allowlist (sm_workspace msg) (sm_channel msg)) then None
  else
    match sm_reaction msg with
    | Some callback => ApprovalCallback <$> callback_parse callback
    | None =>
        let text := trim (sm_text msg) in
        if str_eq text [] then None
        else if starts_with [47] text then Some (RCommand (command_parse text))
        else
          match strip_prefix [33] text with
          | Some steer => Some (RSteer (truncated_chars (trim steer) MAX_SLACK_TEXT))
          | None => Some (QueuedTurn (truncated_chars text MAX_SLACK_TEXT))
          end
    end.
(** The first characters of the redacted text. *)
Definition render_to_slack (text : chars) (r : Redactor) : chars :=
  take MAX_SLACK_OUTBOUND (chars_of (redact r (to_utf8 text))).

(** ** Signatures *)

Definition SLACK_MAX_SKEW_SECS : Z := 300.
Definition MAX_SLACK_BODY : nat := N.to_nat (1024 * 1024).
Definition MAX_SLACK_TIMESTAMP : nat := 32.
Record SlackSignature := mkSlackSignature { ss_secret : bytes }.
Definition slack_verify (v : SlackSignature) (signature timestamp : chars) (body : bytes) (now_unix_secs : Z) : bool :=
  if decide (MAX_SLACK_BODY < length body)%nat then false
  else if decide (MAX_SLACK_TIMESTAMP < byte_length timestamp)%nat then false
  else
    match parse_uint u64_MAX timestamp with
    | None => false
    | Some ts =>
        if SLACK_MAX_SKEW_SECS <? Z.abs (now_unix_secs - ts) then false
        else
          match strip_prefix (lit "v0=") signature with
          | None => false
          | Some hex =>
              match hex32_decode (to_utf8 hex) with
              | None => false
              | Some provided =>
                  ct_eq provided (hmac_sha256 (ss_secret v) (lit "v0:" ++ to_utf8 timestamp ++ [58] ++ body))
              end
          end
    end.
