(* ===== verification/SetupTheorems.v ===== *)
(** * Slack, onboarding, profiler and task loop: theorems

    The verifier of Slack requests is exact; what a message becomes, and only for an allowlisted
    channel; which redirects register a repository, and what the registration lets a push do; when a
    token is refreshed; what the profiler lists, and that it misses nothing when it does not say so;
    when a task is ready to integrate. *)

From S2P Require Import Prelude Text Std Chars Redactor Strings Sha256 Types Policy Supervisor Profile Planner Worker Backend.
From S2P Require Import GitHub Webhook Telegram Flow Dev DevTheorems Onboarding.

(** ** Slack *)

(** A digest in hexadecimal is that of a text when its digits, in either case, spell it. *)
Lemma mac_hex_spec s k m :
  match hex32_decode s with Some d => ct_eq d (hmac_sha256 k m) | None => false end = true ↔
  to_ascii_lowercase s = hex_of (hmac_sha256 k m).
Proof.
  destruct (hmac_bytes k m) as [Hl Hb]. rewrite <-hex32_spec by done.
  destruct (hex32_decode s) as [d|] eqn:Ed; [|naive_solver].
  destruct (hex32_decode_bytes _ _ Ed). rewrite ct_eq_spec by (done || congruence). rewrite bool_decide_eq_true. naive_solver.
Qed.

(** A request is genuine and fresh. *)
Record slack_genuine (secret : bytes) (signature timestamp : chars) (body : bytes) (now : Z) : Prop := mkGenuine {
  sg_body : (length body ≤ MAX_SLACK_BODY)%nat;
  sg_stamp : (byte_length timestamp ≤ MAX_SLACK_TIMESTAMP)%nat;
  sg_fresh : ∃ ts, parse_uint u64_MAX timestamp = Some ts ∧ Z.abs (now - ts) ≤ SLACK_MAX_SKEW_SECS;
  sg_signed : ∃ hex, signature = lit "v0=" ++ hex ∧
    to_ascii_lowercase (to_utf8 hex) = hex_of (hmac_sha256 secret (lit "v0:" ++ to_utf8 timestamp ++ [58] ++ body)) }.

(** the verifier of Slack requests lets a request through if and only if its body and its time stamp
    are within their bounds, the time stamp is a number at most five minutes away from now, and the
    signature spells, in digits of either case, the HMAC of the version, the time stamp as it was sent
    and the body, under the signing secret. *)
Theorem slack_verify_exact v signature timestamp body now :
  slack_verify v signature timestamp body now = true ↔ slack_genuine (ss_secret v) signature timestamp body now.
Proof.
  unfold slack_verify. destruct (decide _) as [?|Hb]; [split; [done|intros []; lia]|].
  destruct (decide _) as [?|Ht]; [split; [done|intros []; lia]|].
  destruct (parse_uint u64_MAX timestamp) as [ts|] eqn:Ets.
  2: { split; [done|]. intros [_ _ (ts & ? & _) _]. congruence. }
  destruct (Z.ltb_spec SLACK_MAX_SKEW_SECS (Z.abs (now - ts))) as [?|Hs].
  { split; [done|]. intros [_ _ (ts' & ? & ?) _]. simplify_eq. lia. }
  destruct (strip_prefix (lit "v0=") signature) as [hex|] eqn:Ep.
  - apply strip_prefix_Some in Ep as ->. rewrite mac_hex_spec. split.
    + intros Hx. constructor; [lia..|by eexists|by eexists].
    + intros [_ _ _ (hex' & He & Hx)]. by apply app_inv_head in He as ->.
  - split; [done|]. intros [_ _ _ (hex & -> & _)]. by rewrite (proj2 (strip_prefix_Some _ _ hex)) in Ep.
Qed.

Lemma slack_allow_spec a w c w' c' :
  slack_is_allowed (slack_allow a w c) w' c' = true ↔ (w' = w ∧ c' = c) ∨ slack_is_allowed a w' c' = true.
Proof.
  unfold slack_is_allowed, slack_allow. cbn [sa_workspaces]. destruct (decide (w' = w)) as [->|Hw].
  - rewrite lookup_insert_eq, bool_decide_eq_true, elem_of_union, elem_of_singleton.
    destruct (sa_workspaces a !! w) as [s|]; cbn [default]; [rewrite bool_decide_eq_true; set_solver|].
    split; [intros [?| ?%elem_of_empty]; naive_solver|naive_solver].
  - rewrite lookup_insert_ne by done. naive_solver.
Qed.
(** Whatever was allowed, in that order, and nothing else. *)
Lemma slack_allowlist_exact l w c :
  slack_is_allowed (foldl (λ a p, slack_allow a p.1 p.2) SlackAllowlist_new l) w c = true ↔ (w, c) ∈ l.
Proof.
  induction l as [|[w' c'] l IH] using rev_ind.
  - cbn. rewrite elem_of_nil. unfold slack_is_allowed, SlackAllowlist_new. cbn. by rewrite lookup_empty.
  - rewrite foldl_app, elem_of_app, list_elem_of_singleton. cbn [foldl]. rewrite slack_allow_spec, IH. naive_solver.
Qed.

Lemma trim_start_forall (P : Z → Prop) s : Forall P s → Forall P (trim_start s).
Proof. induction 1 as [|c s Hc Hs IH]; cbn [trim_start]; [done|]. destruct (is_whitespace c); by auto. Qed.
Lemma trim_forall (P : Z → Prop) s : Forall P s → Forall P (trim s).
Proof. intros Hs. unfold trim, trim_end. by apply Forall_rev, trim_start_forall, Forall_rev, trim_start_forall. Qed.

(** a Slack message becomes an event only when its channel is on the allowlist of its workspace, and
    then a reaction only ever becomes an approval callback that parses, a text that is not blank a
    command, a steer or a turn by its first character, and steers and turns are cut to their bound. *)
Theorem slack_event_allowed msg a e :
  Forall is_scalar (sm_text msg) →
  normalize_message msg a = Some e →
  slack_is_allowed a (sm_workspace msg) (sm_channel msg) = true ∧
  (∀ cb, sm_reaction msg = Some cb → ∃ d, e = ApprovalCallback d ∧ callback_parse cb = Some d) ∧
  (sm_reaction msg = None →
     let t := trim (sm_text msg) in
     t ≠ [] ∧
     match e with
     | RCommand c => c = command_parse t ∧ head t = Some 47
     | RSteer s => ∃ rest, t = 33 :: rest ∧ s `prefix_of` trim rest ∧ (byte_length s ≤ MAX_SLACK_TEXT)%nat
     | QueuedTurn s => head t ≠ Some 47 ∧ head t ≠ Some 33 ∧ s `prefix_of` t ∧ (byte_length s ≤ MAX_SLACK_TEXT)%nat
     | _ => False
     end).
Proof.
  intros Hs. unfold normalize_message. destruct (slack_is_allowed _ _ _); [cbn [negb]|done].
  destruct (sm_reaction msg) as [cb|].
  { intros (d & Hd & ->)%fmap_Some_1. split; [done|]. split; [|done]. intros ? [= <-]. by exists d. }
  intros He. split; [done|]. split; [done|]. intros _. cbv zeta in *.
  pose proof (trim_forall _ _ Hs) as Ht. set (t := trim (sm_text msg)) in *.
  unfold str_eq in He. case_bool_decide as Hne; [done|]. split; [done|].
  destruct t as [|c rest]; [done|]. destruct (starts_with [47] (c :: rest)) eqn:E47.
  { injection He as <-. split; [done|]. apply starts_with_spec in E47 as [? [= -> _]]. done. }
  assert (head (c :: rest) ≠ Some 47) as Hc47 by (intros [= ->]; by destruct rest).
  destruct (strip_prefix [33] (c :: rest)) as [steer|] eqn:E33; injection He as <-.
  - apply strip_prefix_Some in E33 as [= -> ->]. apply Forall_cons in Ht as [_ Hr].
    destruct (truncated_chars_split (trim steer) MAX_SLACK_TEXT (trim_forall _ _ Hr)) as (? & ? & _). by exists steer.
  - destruct (truncated_chars_split (c :: rest) MAX_SLACK_TEXT Ht) as (? & ? & _). split; [done|]. split; [|done].
    intros [= ->]. by destruct rest.
Qed.
Definition demo_slack : SlackAllowlist := slack_allow SlackAllowlist_new (lit "T1") (lit "C1").
Definition demo_message (text : string) : SlackMessage := mkSlackMessage (lit "T1") (lit "C1") (lit "U1") (lit text) None.
Lemma slack_event_allowed_witness :
  let m := demo_message "! focus on tests" in
  normalize_message m demo_slack = Some (RSteer (lit "focus on tests")) ∧
  slack_is_allowed demo_slack (sm_workspace m) (sm_channel m) = true.
Proof.
  assert (normalize_message (demo_message "! focus on tests") demo_slack = Some (RSteer (lit "focus on tests"))) as H
    by (vm_compute; reflexivity).
  split; [exact H|]. refine (proj1 (slack_event_allowed _ _ _ _ H)). apply lit_scalar.
Defined.

(** The bound of an outbound text counts its characters, not its bytes; a command keeps the whole text
    of the message. *)
Example slack_bounds_loose :
  let long := repeat 233 (S MAX_SLACK_OUTBOUND) in
  let command := 47 :: repeat 120 (S MAX_SLACK_TEXT) in
  length (to_utf8 (render_to_slack long (Redactor_new))) = (2 * MAX_SLACK_OUTBOUND)%nat ∧
  normalize_message (mkSlackMessage (lit "T1") (lit "C1") (lit "U1") command None) demo_slack = Some (RCommand (CUnknown command)).
Proof.
  cbv zeta. split; [apply (bool_decide_unpack _); by vm_compute|vm_compute; reflexivity].
Qed.

(** ** Onboarding *)

(** A slug: an owner and a name of the permitted characters, neither of them a dot segment. *)
Definition slug_part (s : chars) : Prop :=
  s ≠ [] ∧ s ≠ [46] ∧ s ≠ [46; 46] ∧
  Forall (λ c, 48 ≤ c ≤ 57 ∨ 65 ≤ c ≤ 90 ∨ 97 ≤ c ≤ 122 ∨ c = 45 ∨ c = 95 ∨ c = 46) s.
Definition well_formed_slug (slug : chars) : Prop :=
  (byte_length slug ≤ MAX_REPO_SLUG)%nat ∧ ∃ owner name, slug = owner ++ 47 :: name ∧ slug_part owner ∧ slug_part name.
Lemma slug_ok_spec s :
  slug_ok s = true ↔ Forall (λ c, 48 ≤ c ≤ 57 ∨ 65 ≤ c ≤ 90 ∨ 97 ≤ c ≤ 122 ∨ c = 45 ∨ c = 95 ∨ c = 46) s.
Proof.
  unfold slug_ok. rewrite <-Is_true_true, forallb_True.
  apply Forall_proper; [|done]. intros c. unfold is_digit, in_range. rewrite Is_true_true.
  rewrite !orb_true_iff, !andb_true_iff, !Z.leb_le, !Z.eqb_eq. lia.
Qed.
Lemma dots_spec s : one_of ["."; ".."]%string s = true ↔ s = [46] ∨ s = [46; 46].
Proof.
  rewrite one_of_spec. split.
  - intros (x & Hx & ->). rewrite !elem_of_cons, elem_of_nil in Hx. naive_solver.
  - intros [->| ->]; [exists "."%string|exists ".."%string]; (split; [|done]); set_solver.
Qed.
Lemma split_once_spec sep s a b : split_once sep s = Some (a, b) ↔ s = a ++ sep :: b ∧ sep ∉ a.
Proof.
  split; [|intros [-> Ha]; by apply split_once_app].
  revert a b. induction s as [|c s IH]; intros a b; cbn [split_once]; [done|].
  destruct (Z.eqb_spec c sep) as [->|Hc]; [intros [= <- <-]; split; [done|set_solver]|].
  destruct (split_once sep s) as [[a' b']|]; [|done]. intros [= <- <-].
  destruct (IH a' b' eq_refl) as [-> Ha]. split; [done|]. rewrite not_elem_of_cons. split; congruence.
Qed.
Lemma validate_repo_slug_ok slug : validate_repo_slug slug = Ok tt ↔ well_formed_slug slug.
Proof.
  unfold validate_repo_slug, well_formed_slug. destruct (decide _) as [?|Hl]; [split; [done|intros []; lia]|].
  destruct (split_once 47 slug) as [[owner name]|] eqn:E.
  - apply split_once_spec in E as [-> Ho]. unfold str_eq.
    assert ((∃ o n, owner ++ 47 :: name = o ++ 47 :: n ∧ slug_part o ∧ slug_part n) ↔ slug_part owner ∧ slug_part name) as ->.
    { split; [|intros [??]; by exists owner, name]. intros (o & n & He & Hpo & Hpn).
      assert (47 ∉ o) as Hno by (intros Hin; destruct Hpo as (_ & _ & _ & Hf); rewrite Forall_forall in Hf; apply Hf in Hin; lia).
      pose proof (split_once_app 47 owner name Ho) as H1. rewrite He, (split_once_app 47 o n Hno) in H1. by simplify_eq. }
    unfold slug_part. rewrite <-!slug_ok_spec.
    case_bool_decide as Ho0; cbn [orb]; [naive_solver|]. case_bool_decide as Hn0; cbn [orb]; [naive_solver|].
    destruct (existsb (Z.eqb 47) name) eqn:Hs.
    { split; [done|]. intros (_ & _ & _ & _ & _ & Hn%slug_ok_spec). apply existsb_exists in Hs as (c & Hc & <-%Z.eqb_eq).
      apply list_elem_of_In in Hc. rewrite Forall_forall in Hn. apply Hn in Hc. lia. }
    pose proof (dots_spec owner) as Hdo. pose proof (dots_spec name) as Hdn.
    destruct (one_of _ owner); [naive_solver|]. destruct (one_of _ name); cbn [orb]; [naive_solver|].
    destruct (slug_ok owner); cbn [negb orb]; [|naive_solver]. destruct (slug_ok name); cbn [negb]; [|naive_solver].
    split; [|done]. intros _. split; [lia|]. naive_solver.
  - split; [done|]. intros (_ & o & n & -> & Hpo & _). assert (47 ∉ o) as Hno
      by (intros Hin; destruct Hpo as (_ & _ & _ & Hf); rewrite Forall_forall in Hf; apply Hf in Hin; lia).
    by rewrite split_once_app in E.
Qed.

Definition redirect_slug (red : InstallRedirect) : chars := text_chars (ir_repo red).
(** a redirect registers its repository if and only if it names an installation and a well-formed
    slug; then the entry of that slug, and no other, is replaced by a capability that lets through exactly
    the pushes to this repository, on a known host, not forced, of refspecs under the branch prefix, and
    the operator's approval of that capability is valid until it expires. A refused redirect leaves the
    registry as it is. *)
Theorem onboard_exact reg operator red scope aid expires :
  match onboard reg operator red scope aid expires with
  | (Ok o, reg') =>
      ir_installation_id red ≠ 0 ∧ well_formed_slug (redirect_slug red) ∧
      (∀ repo, repo ≠ redirect_slug red → cap_for reg' repo = cap_for reg repo) ∧
      (∃ cap, cap_for reg' (redirect_slug red) = Some cap ∧ ap_value (ob_approval o) = cap ∧
         ∀ req, validate_push cap req = Ok tt ↔
           (∃ h, h ∈ ALLOWED_HOSTS ∧ pr_host req = lit h) ∧ pr_repo req = redirect_slug red ∧ pr_force req = false ∧
           Forall (λ spec, let s := trim spec in
             (length (split_whitespace s) ≤ 1)%nat ∧ head s ≠ Some 43 ∧ ¬ protected_branch (refspec_branch s) ∧
             under (refspec_branch s) (lit "crustcore/")) (pr_refspecs req)) ∧
      ap_approved_by (ob_approval o) = operator ∧ ap_approval_id (ob_approval o) = aid ∧
      (∀ now, is_valid_at (ob_approval o) now = true ↔ now ≤ expires) ∧
      ob_installation_id o = ir_installation_id red ∧ ob_repo o = ir_repo red
  | (Err e, reg') => reg' = reg ∧ (ir_installation_id red = 0 ∨ ¬ well_formed_slug (redirect_slug red))
  end.
Proof.
  unfold onboard, scope_from_redirect. destruct (Z.eqb_spec (ir_installation_id red) 0) as [?|Hid]; [by auto|].
  pose proof (validate_repo_slug_ok (redirect_slug red)) as Hv. unfold redirect_slug in *.
  destruct (validate_repo_slug _) as [[]|e]; cbn [mbind result_bind].
  2: { split; [done|]. right. intros ?%Hv. done. }
  pose proof (proj1 Hv eq_refl) as Hw. destruct (decide _) as [?|_]; [destruct Hw; lia|].
  cbn [approve_github_write]. split; [done|]. split; [done|]. split.
  { intros repo Hne. unfold cap_for, repo_register, cap_repo. cbn [rr_repos gh_repo]. apply lookup_insert_ne. intros He. by apply Hne. }
  split; [|split_and!; [done..| |done|done]].
  2: { intros now. unfold is_valid_at. cbn. apply Z.leb_le. }
  eexists. split; [unfold cap_for, repo_register, cap_repo; cbn [rr_repos gh_repo]; by rewrite lookup_insert_eq|]. split; [done|].
  intros req. by rewrite validate_push_ok.
Qed.

(** a token is refreshed exactly when it would expire within the margin, whatever the time, at the
    largest too. *)
Theorem refresh_exact lease now skew :
  0 ≤ now → 0 ≤ skew → tl_expires_at lease < u64_MAX →
  needs_refresh lease now skew = true ↔ tl_expires_at lease ≤ now + skew.
Proof. intros. unfold needs_refresh, saturating_add. rewrite Z.leb_le. lia. Qed.
Lemma refresh_exact_witness :
  needs_refresh (mkTokenLease 1 100) 40 60 = true ↔ 100 ≤ 40 + 60.
Proof. apply (refresh_exact (mkTokenLease 1 100) 40 60); by vm_compute. Defined.

(** ** The task loop *)

(** a task is ready to integrate if and only if the verifier accepted it and, when a review is
    required, every required reviewer has reported and no verdict of a blocking role is a veto. *)
Theorem ready_iff task risk verified verdicts waited max_wait :
  finalize_task task risk verified verdicts waited max_wait = ReadyToIntegrate ↔
  verified = true ∧
  (advisory_required task risk = true →
     (∀ r, r ∈ required_reviewers task risk → ∃ v, (r, v) ∈ verdicts) ∧
     (∀ r v, (r, v) ∈ verdicts → can_block_integration r = true → v = VApprove)).
Proof.
  pose proof (review_integrates_iff task risk verdicts verified waited max_wait) as Hr.
  unfold finalize_task. destruct verified; cbn [negb]; [|naive_solver].
  assert (advisory_required task risk = false ↔ orchestrate_review task risk verdicts true waited max_wait = NotRequired) as Hn.
  { unfold advisory_required, orchestrate_review. cbv zeta. destruct (required_reviewers task risk).
    - by rewrite bool_decide_eq_true_2.
    - rewrite bool_decide_eq_false_2 by done. split; [done|]. destruct (filter _ _); [done|]. by destruct (_ <=? _). }
  destruct (orchestrate_review _ _ _ _ _ _) as [| | |[]]; destruct (advisory_required task risk); naive_solver.
Qed.
(** A veto counts only where the task and its risk require a review. *)
Example unsolicited_veto :
  finalize_task DocsOnly RStandard true [(Reviewer, VBlock (lit "no"))] 0 1000 = ReadyToIntegrate.
Proof. reflexivity. Qed.

(** ** The profiler *)

(** A name the profiler looks at. *)
Definition plain_name (name : chars) : Prop := safe_component_name name = true ∧ should_skip_dir_name name = false.

Section Profiler.
Context (read_dir : chars → result chars (list (result chars DirEntry))).
Implicit Types (c : RepoProfilerConfig) (s : RepoPathSnapshot) (d p : chars).
(** [p] is listed in the directory [d], under a plain name, and not too long. *)
Definition listed_in d (e : DirEntry) : Prop := ∃ l, read_dir d = Ok l ∧ Ok e ∈ l.
Definition shown d p (e : DirEntry) : Prop :=
  is_utf8 e.1 = true ∧ plain_name (chars_of e.1) ∧ p = join_rel d (chars_of e.1) ∧ (byte_length p ≤ MAX_PROFILE_PATH_LEN)%nat.
Definition child d p (k : EntryKind) : Prop := ∃ e, listed_in d e ∧ e.2 = Ok k ∧ shown d p e.
(** [p] is [n] directories below an entry of [d], no link on the way or at its end. *)
Inductive below : nat → chars → chars → Prop :=
| below_here d p k : child d p k → k ≠ ESymlink → below 0 d p
| below_dir n d d' p : child d d' EDir → below n d' p → below (S n) d p.

Definition grows (P : chars → Prop) c s s' : Prop :=
  (∃ new, ps_paths s' = ps_paths s ++ new ∧ Forall P new) ∧
  ((length (ps_paths s) ≤ pc_max_paths c)%nat → (length (ps_paths s') ≤ pc_max_paths c)%nat) ∧
  (ps_truncated s = true → ps_truncated s' = true).
Lemma grows_refl P c s : grows P c s s.
Proof. split_and!; [|done..]. exists []. by rewrite app_nil_r. Qed.
Lemma grows_mono (P Q : chars → Prop) c s s' : (∀ p, P p → Q p) → grows P c s s' → grows Q c s s'.
Proof. intros HPQ ((new & ? & ?) & ?). split; [|done]. exists new. split; [done|]. by eapply Forall_impl. Qed.
Lemma grows_trans P c s1 s2 s3 : grows P c s1 s2 → grows P c s2 s3 → grows P c s1 s3.
Proof.
  intros ((n1 & H1 & F1) & L1 & T1) ((n2 & H2 & F2) & L2 & T2). split; [|by auto].
  exists (n1 ++ n2). split; [by rewrite H2, H1, app_assoc|by apply Forall_app].
Qed.
Lemma grows_same P c s s' : ps_paths s' = ps_paths s → (ps_truncated s = true → ps_truncated s' = true) → grows P c s s'.
Proof. intros Hp Ht. split_and!; [exists []; by rewrite app_nil_r|by rewrite Hp|done]. Qed.
Lemma grows_push (P : chars → Prop) c s p : P p → grows P c s (push_profile_path s p c).
Proof.
  intros Hp. unfold push_profile_path. destruct (Nat.leb_spec (pc_max_paths c) (length (ps_paths s))); [by apply grows_same|].
  split_and!; [exists [p]; split; [done|by apply Forall_singleton]|cbn; rewrite length_app; cbn; lia|done].
Qed.
Lemma grows_elem P c s s' p : grows P c s s' → p ∈ ps_paths s → p ∈ ps_paths s'.
Proof. intros ((new & -> & _) & _) Hp. apply elem_of_app. by left. Qed.
Lemma push_elem c s p : ps_truncated (push_profile_path s p c) = false → p ∈ ps_paths (push_profile_path s p c).
Proof. unfold push_profile_path. destruct (_ <=? _)%nat; [done|]. intros _. cbn. set_solver. Qed.
#[local] Hint Resolve grows_refl : crust.

(** What one level promises: it lists what is below, in the bounds, and all of it when nothing is
    reported as truncated. *)
Definition covers k c d s (go_on : bool) s' : Prop :=
  grows (λ p, ∃ n, (n ≤ k)%nat ∧ below n d p) c s s' ∧
  (ps_truncated s' = false → go_on = true ∧ ∀ p n, below n d p → p ∈ ps_paths s').
(** The same for some of the entries of a directory. *)
Definition covers_entries k c d (es : list DirEntry) s (go_on : bool) s' : Prop :=
  grows (λ p, ∃ n, (n ≤ k)%nat ∧ below n d p) c s s' ∧
  (ps_truncated s' = false → go_on = true ∧ ∀ e p kd, e ∈ es → e.2 = Ok kd → kd ≠ ESymlink → shown d p e →
     p ∈ ps_paths s' ∧ (kd = EDir → ∀ q n, below n p q → q ∈ ps_paths s')).
Lemma covers_entries_skip k c d e es s s1 go_on s' :
  (∀ p kd, e.2 = Ok kd → kd ≠ ESymlink → ¬ shown d p e) →
  ps_paths s1 = ps_paths s → (ps_truncated s = true → ps_truncated s1 = true) →
  covers_entries k c d es s1 go_on s' → covers_entries k c d (e :: es) s go_on s'.
Proof.
  intros Hno Hp Ht [Hg Hc]. split; [eapply grows_trans; [by apply grows_same|done]|].
  intros Hf. destruct (Hc Hf) as [? Hall]. split; [done|]. intros e' p kd [->|He']%elem_of_cons ?? Hs; [|by eapply Hall].
  by destruct (Hno p kd).
Qed.
Lemma covers_entries_stop k c d es s : covers_entries k c d es s false (set_truncated s).
Proof. split; [by apply grows_same|done]. Qed.
Definition down_ok k c (down : option (chars → RepoPathSnapshot → result RepoProfilerError (bool * RepoPathSnapshot))) : Prop :=
  match down with
  | None => True
  | Some f => ∃ k', k = S k' ∧ ∀ d s go_on s', f d s = Ok (go_on, s') → covers k' c d s go_on s'
  end.
(** An entry that is listed: what follows it, from the snapshot that has it. *)
Lemma covers_entries_push k c d e p kd es s s1 go_on s' :
  listed_in d e → e.2 = Ok kd → kd ≠ ESymlink → shown d p e →
  grows (λ q, q = p ∨ ∃ n, kd = EDir ∧ (S n ≤ k)%nat ∧ below n p q) c s s1 →
  (ps_truncated s1 = false → p ∈ ps_paths s1 ∧ (kd = EDir → ∀ q n, below n p q → q ∈ ps_paths s1)) →
  covers_entries k c d es s1 go_on s' → covers_entries k c d (e :: es) s go_on s'.
Proof.
  intros Hl Hk Hn Hs Hg1 Hp [Hg Hc].
  assert (child d p kd) as Hchild by (by exists e). split.
  - eapply grows_trans; [|exact Hg]. eapply grows_mono; [|exact Hg1]. intros q [->|(n & -> & ? & ?)].
    + exists 0%nat. split; [lia|by eapply below_here].
    + exists (S n). split; [done|by eapply below_dir].
  - intros Hf. destruct (Hc Hf) as [? Hall]. split; [done|]. intros e' p' kd' [->|He']%elem_of_cons Hk' ? Hs'; [|by eapply Hall].
    destruct Hs as (_ & _ & -> & _), Hs' as (_ & _ & -> & _). rewrite Hk in Hk'. injection Hk' as <-.
    assert (ps_truncated s1 = false) as Hf1.
    { destruct (ps_truncated s1) eqn:E; [|done]. destruct Hg as (_ & _ & Ht). rewrite Ht in Hf; done. }
    destruct (Hp Hf1) as [Hin Hdeep]. split; [by apply (grows_elem _ _ _ _ _ Hg)|]. intros He q n Hq.
    apply (grows_elem _ _ _ _ _ Hg). by apply (Hdeep He q n).
Qed.
Lemma profile_entries_covers k down c d es s go_on s' :
  Forall (listed_in d) es → down_ok k c down →
  profile_entries down c d es s = Ok (go_on, s') → covers_entries k c d es s go_on s'.
Proof.
  intros Hes Hd. revert s. induction Hes as [|[fn kind] es Hl _ IH]; intros s; cbn [profile_entries].
  { intros [= <- <-]. split; [apply grows_refl|]. intros _. split; [done|]. by intros ??? ?%elem_of_nil. }
  destruct (Nat.leb_spec (pc_max_paths c) (length (ps_paths s))); [intros [= <- <-]; apply covers_entries_stop|].
  destruct (is_utf8 fn) eqn:Hu; cbn [negb].
  2: { intros Hrec%IH. eapply covers_entries_skip; [|done..|exact Hrec]. intros p kd _ _ (Hu' & _). cbn [fst] in Hu'. congruence. }
  destruct (safe_component_name (chars_of fn)) eqn:Hsafe; cbn [negb].
  2: { intros Hrec%IH. eapply covers_entries_skip; [|done..|exact Hrec]. intros p kd _ _ (_ & [Hs' _] & _). cbn [fst] in Hs'. congruence. }
  destruct (should_skip_dir_name (chars_of fn)) eqn:Hskip.
  { intros Hrec%IH. eapply covers_entries_skip; [|done..|exact Hrec]. intros p kd _ _ (_ & [_ Hs'] & _). cbn [fst] in Hs'. congruence. }
  destruct (Nat.ltb_spec MAX_PROFILE_PATH_LEN (byte_length (join_rel d (chars_of fn)))).
  { intros Hrec%IH. eapply covers_entries_skip; [|done..|exact Hrec]. intros p kd _ _ (_ & _ & -> & Hb). cbn [fst] in Hb. lia. }
  set (p := join_rel d (chars_of fn)) in *.
  destruct kind as [kd|e]; [|done].
  assert (shown d p (fn, Ok kd)) as Hsh by done.
  assert (grows (λ q, q = p ∨ ∃ n, kd = EDir ∧ (S n ≤ k)%nat ∧ below n p q) c s (push_profile_path s p c)) as Hpush
    by (apply grows_push; by left).
  destruct kd.
  - destruct down as [f|].
    + destruct Hd as (k' & -> & Hf). destruct (f p (push_profile_path s p c)) as [[g s2]|] eqn:Ef; cbn [mbind result_bind]; [|done].
      destruct (Hf _ _ _ _ Ef) as [Hg Hc].
      assert (grows (λ q, q = p ∨ ∃ n, EDir = EDir ∧ (S n ≤ S k')%nat ∧ below n p q) c s s2) as Hg2.
      { eapply grows_trans; [exact Hpush|]. eapply grows_mono; [|exact Hg]. intros q (n & ? & ?). right. exists n. split_and!; [done|lia|done]. }
      assert (ps_truncated s2 = false → p ∈ ps_paths s2 ∧ (EDir = EDir → ∀ q n, below n p q → q ∈ ps_paths s2)) as Hp2.
      { intros Hf2. destruct (Hc Hf2) as [_ Hall]. split; [|by auto]. eapply grows_elem; [exact Hg|]. apply push_elem.
        destruct (ps_truncated (push_profile_path s p c)) eqn:E; [|done]. destruct Hg as (_ & _ & Ht). by rewrite Ht in Hf2. }
      destruct g.
      * intros Hrec%IH. by eapply (covers_entries_push _ _ _ _ _ EDir).
      * intros [= <- <-]. eapply (covers_entries_push _ _ _ _ _ EDir); try done.
        split; [apply grows_refl|]. intros Hf2. by destruct (Hc Hf2).
    + intros Hrec%IH. eapply (covers_entries_push _ _ _ _ _ EDir); [done..| | |exact Hrec]; [|done].
      eapply grows_trans; [exact Hpush|by apply grows_same].
  - intros Hrec%IH. eapply covers_entries_skip; [|done..|exact Hrec]. intros ? kd [= <-]. done.
  - intros Hrec%IH. eapply (covers_entries_push _ _ _ _ _ EOther); [done..| |exact Hrec]. intros Hf. split; [by apply push_elem|done].
Qed.
Lemma collect_entries_ok d l es : collect_entries d l = Ok es → l = Ok <$> es.
Proof.
  revert es. induction l as [|[x|e] l IH]; intros es; cbn [collect_entries]; [by intros [= <-]| |done].
  destruct (collect_entries d l) as [es'|]; cbn; [|done]. intros [= <-]. by rewrite (IH es').
Qed.
Lemma level_covers k c down d s go_on s' :
  down_ok k c down →
  (if (pc_max_paths c <=? length (ps_paths s))%nat then Ok (false, set_truncated s)
   else match read_dir d with
        | Err e => Err (mkProfilerError d (lit "cannot read directory: " ++ e))
        | Ok l => es ← collect_entries d l; profile_entries down c d (sort_by (λ a b : DirEntry, bytes_le a.1 b.1) es) s
        end) = Ok (go_on, s') →
  covers k c d s go_on s'.
Proof.
  intros Hd. destruct (_ <=? _)%nat; [intros [= <- <-]; split; [by apply grows_same|done]|].
  destruct (read_dir d) as [l|] eqn:Hl; [|done]. destruct (collect_entries d l) as [es|] eqn:He; cbn [mbind result_bind]; [|done].
  apply collect_entries_ok in He as ->. intros Hp.
  apply (profile_entries_covers k) in Hp as [Hg Hc]; [|apply Forall_forall; intros e Hin%sort_by_elem|done].
  2: { exists (Ok <$> es). split; [done|]. by apply list_elem_of_fmap_2. }
  split; [done|]. intros Hf. destruct (Hc Hf) as [? Hall]. split; [done|].
  assert (∀ p kd, child d p kd → kd ≠ ESymlink → p ∈ ps_paths s' ∧ (kd = EDir → ∀ q n, below n p q → q ∈ ps_paths s')) as Hch.
  { intros p kd (e & (l' & Hl' & Hin) & Hk & Hs) Hn. rewrite Hl in Hl'. injection Hl' as <-.
    apply list_elem_of_fmap in Hin as (e' & [= <-] & Hin). eapply Hall; [by apply sort_by_elem|done..]. }
  intros p n Hb. destruct Hb as [d p kd Hch1 Hn|n d d' p Hch1 Hb]; destruct (Hch _ _ Hch1) as [? Hdeep]; try done. by eapply Hdeep.
Qed.
Lemma profile_dir_covers k c d s go_on s' : profile_dir read_dir k c d s = Ok (go_on, s') → covers k c d s go_on s'.
Proof.
  revert d s go_on s'. induction k as [|k IH]; intros d s go_on s'; cbn [profile_dir]; apply level_covers; [done|by exists k].
Qed.

(** the profiler reads a directory, not a link to one, and what it lists is at most its cap of
    paths, all of them reached from the root through at most its depth of directories by plain names, never
    through a symbolic link, nor to one, nor under a skipped name, and within their length; and when it
    does not report that it was cut short, it lists every such path, however deep. *)
Theorem profile_exact root c s :
  profile_with_config read_dir root c = Ok s →
  root = Ok EDir ∧ (length (ps_paths s) ≤ pc_max_paths c)%nat ∧
  (∀ p, p ∈ ps_paths s → ∃ n, (n ≤ pc_max_depth c)%nat ∧ below n [] p) ∧
  (ps_truncated s = false → ∀ p, p ∈ ps_paths s ↔ ∃ n, below n [] p).
Proof.
  unfold profile_with_config. destruct root as [[]|]; try done.
  destruct (profile_dir _ _ _ _ _) as [[g s']|] eqn:E; [|done]. intros [= <-].
  destruct (profile_dir_covers _ _ _ _ _ _ E) as [((new & Hp & Hnew) & Hl & _) Hc]. cbn in Hp.
  rewrite Hp in *. rewrite Forall_forall in Hnew. split; [done|]. split; [apply Hl; cbn; lia|]. split; [done|].
  intros Hf p. destruct (Hc Hf) as [_ Hall]. split; [|intros [n Hn]; by eapply Hall].
  intros (n & _ & Hb)%Hnew. by exists n.
Qed.
End Profiler.

Definition demo_read_dir (d : chars) : result chars (list (result chars DirEntry)) :=
  if str_eq d [] then Ok [Ok (lit "src", Ok EDir); Ok (lit ".git", Ok EDir); Ok (lit "link", Ok ESymlink); Ok (lit "README.md", Ok EOther)]
  else if str_eq d (lit "src") then Ok [Ok (lit "main.rs", Ok EOther)]
  else Err (lit "unexpected").
Definition demo_snapshot : RepoPathSnapshot := mkPathSnapshot [lit "README.md"; lit "src"; lit "src/main.rs"] false 1 0.
Lemma profile_exact_witness :
  profile_with_config demo_read_dir (Ok EDir) RepoProfilerConfig_default = Ok demo_snapshot ∧
  ∀ p, p ∈ ps_paths demo_snapshot ↔ ∃ n, below demo_read_dir n [] p.
Proof.
  assert (profile_with_config demo_read_dir (Ok EDir) RepoProfilerConfig_default = Ok demo_snapshot) as H by (vm_compute; reflexivity).
  split; [exact H|]. destruct (profile_exact _ _ _ _ H) as (_ & _ & _ & Hall). by apply Hall.
Defined.
