(* ===== verification/Telemetry.v ===== *)
(** * Telemetry (crate [crustcore-telemetry])

    The projection of the frames of the log, with the receipts they join and the recorded usage of
    models, into spans; the gate every value goes through; the driver over a range of frames; the two
    exporters. A span has only what is listed here: names and keys are constants of the source.

    The library that posts to a collector is a parameter; an exporter that posts keeps what it sent. *)

From S2P Require Import Prelude Text Std Chars Redactor Strings Sha256 Types KernelState EventLog Receipts Session.
From S2P Require Import Broker Backend Serde EventLogProps EventLogTheorems ReceiptsTheorems.

(** ** Spans and metrics ([project.rs], [usage.rs]) *)

Definition Attrs : Type := list (chars * chars).
Record SpanModel := mkSpan { sp_name : chars; sp_attrs : Attrs }.
Record MetricSample := mkMetric { mt_name : chars; mt_value : Z; mt_labels : Attrs }.
Record ProjectedFrame := mkProjected { pj_spans : list SpanModel; pj_metrics : list MetricSample }.
Definition SpanModel_new (name : chars) : SpanModel := mkSpan name [].
Definition span_attr (s : SpanModel) (k v : chars) : SpanModel := mkSpan (sp_name s) (sp_attrs s ++ [(k, v)]).
Definition MetricSample_new (name : chars) (value : Z) : MetricSample := mkMetric name value [].
Definition metric_label (m : MetricSample) (k v : chars) : MetricSample :=
  mkMetric (mt_name m) (mt_value m) (mt_labels m ++ [(k, v)]).
Definition projected_is_empty (p : ProjectedFrame) : bool :=
  match pj_spans p, pj_metrics p with [], [] => true | _, _ => false end.

Record RecordedUsage := mkUsage { us_model : chars; us_input_tokens : Z; us_output_tokens : Z }.
Record UsageBySeq := mkUsages { by_seq_map : gmap Z RecordedUsage }.
Definition UsageBySeq_new : UsageBySeq := mkUsages ∅.
Definition usage_record (u : UsageBySeq) (seq : EventSeq) (usage : RecordedUsage) : UsageBySeq :=
  mkUsages (<[seq := usage]> (by_seq_map u)).
Definition usage_get (u : UsageBySeq) (seq : EventSeq) : option RecordedUsage := by_seq_map u !! seq.

(** ** Names ([semconv.rs]) *)

Definition GEN_AI_SYSTEM : chars := lit "crustcore".
Definition span_name (kind : EventKind) : chars :=
  lit match kind with
      | ModelRequestStarted => "gen_ai.model_request"
      | ModelOutputReceived => "gen_ai.model_response"
      | ToolCallStarted => "crustcore.tool.started"
      | ToolCallCompleted => "crustcore.tool.completed"
      | PatchProposed => "crustcore.verify.proposed"
      | PatchVerified => "crustcore.verify.verified"
      | PatchRejected => "crustcore.verify.rejected"
      | JobLeased => "crustcore.budget.lease"
      | TaskCreated => "crustcore.event.task_created"
      | TaskPlanned => "crustcore.event.task_planned"
      | JobQueued => "crustcore.event.job_queued"
      | ToolCallRequested => "crustcore.event.tool_call_requested"
      | ToolCallApproved => "crustcore.event.tool_call_approved"
      | ToolCallDenied => "crustcore.event.tool_call_denied"
      | SandboxStarted => "crustcore.event.sandbox_started"
      | CommandStarted => "crustcore.event.command_started"
      | CommandOutputCaptured => "crustcore.event.command_output_captured"
      | CommandCompleted => "crustcore.event.command_completed"
      | ApprovalRequested => "crustcore.event.approval_requested"
      | ApprovalResolved => "crustcore.event.approval_resolved"
      | UserMessageQueued => "crustcore.event.user_message_queued"
      | UserSteerReceived => "crustcore.event.user_steer_received"
      | GitHubOperationRequested => "crustcore.event.github_operation_requested"
      | GitHubOperationCompleted => "crustcore.event.github_operation_completed"
      | SecretRequested => "crustcore.event.secret_requested"
      | SecretHandleStored => "crustcore.event.secret_handle_stored"
      | KRiskDetected => "crustcore.event.risk_detected"
      | TaskCompleted => "crustcore.event.task_completed"
      | TaskFailed => "crustcore.event.task_failed"
      | TaskKilled => "crustcore.event.task_killed"
      end.
Definition budget_metric_name (axis : BudgetAxis) : chars :=
  lit match axis with
      | WallMillis => "crustcore.budget.wall_millis"
      | CpuMillis => "crustcore.budget.cpu_millis"
      | MemoryBytes => "crustcore.budget.memory_bytes"
      | DiskBytes => "crustcore.budget.disk_bytes"
      | OutputBytes => "crustcore.budget.output_bytes"
      | Tokens => "crustcore.budget.tokens"
      | ModelCostMicros => "crustcore.budget.model_cost_micros"
      | SubagentCount => "crustcore.budget.subagent_count"
      end.
(** The label, when there is an identifier. *)
Definition id_label (k : string) (id : option Z) : Attrs := match id with Some i => [(lit k, dec_u i)] | None => [] end.
Definition budget_samples (delta : BudgetDelta) (task_id : option TaskId) (job_id : option JobId) : list MetricSample :=
  omap (λ axis,
    let amount := Types.amount delta axis in
    if amount =? 0 then None
    else Some (mkMetric (budget_metric_name axis) amount
                 (id_label "crustcore.task_id" task_id ++ id_label "crustcore.job_id" job_id)))
    BudgetAxis_ALL.

(** ** The projection of one frame *)

Definition hex_prefix (b : bytes) (n : nat) : chars := hex_of (take (Nat.min n (length b)) b).
Definition kind_seq (m : FrameMeta) : Attrs :=
  [(lit "crustcore.event.kind", kind_name (m_kind m)); (lit "crustcore.event.seq", dec_u (m_seq m))].
Definition base_attrs (m : FrameMeta) : Attrs :=
  kind_seq m ++
  [(lit "crustcore.actor", actor_name (m_actor m)); (lit "crustcore.timestamp_ms", dec_u (m_timestamp m))] ++
  id_label "crustcore.task_id" (m_task_id m) ++ id_label "crustcore.job_id" (m_job_id m).
Definition payload_derived_suppressed (m : FrameMeta) : bool :=
  bool_decide (m_visibility m = Internal) || bool_decide (m_redaction m = Redacted).
Definition minimal_span (m : FrameMeta) : SpanModel := mkSpan (span_name (m_kind m)) (kind_seq m).

Definition model_attrs (is_request : bool) (usage : option RecordedUsage) : Attrs :=
  [(lit "gen_ai.operation.name", lit (if is_request then "model_request" else "model_response"));
   (lit "gen_ai.system", GEN_AI_SYSTEM)] ++
  match usage with
  | Some u =>
      [(lit (if is_request then "gen_ai.request.model" else "gen_ai.response.model"), us_model u);
       (lit "gen_ai.usage.input_tokens", dec_u (us_input_tokens u));
       (lit "gen_ai.usage.output_tokens", dec_u (us_output_tokens u))]
  | None => []
  end.
Definition receipt_attrs (receipt : option ToolReceipt) : Attrs :=
  match receipt with
  | Some r =>
      [(lit "crustcore.tool.call_id", dec_u (r_tool_call_id r));
       (lit "crustcore.tool.name_hash", hex_prefix (r_tool_name_hash r) 32);
       (lit "crustcore.tool.args_hash", hex_prefix (r_args_hash r) 32);
       (lit "crustcore.tool.result_hash", hex_prefix (r_result_hash r) 32);
       (lit "crustcore.tool.mac", hex_prefix (r_mac r) 32);
       (lit "crustcore.tool.receipt_event_seq", dec_u (r_event_seq r));
       (lit "crustcore.tool.artifact_count", dec_u (Z.of_nat (length (r_artifact_hashes r))))]
  | None => [(lit "crustcore.tool.receipt", lit "absent")]
  end.
Definition kind_attrs (m : FrameMeta) (receipt : option ToolReceipt) (usage : option RecordedUsage) : Attrs :=
  match m_kind m with
  | ModelRequestStarted => model_attrs true usage
  | ModelOutputReceived => model_attrs false usage
  | ToolCallCompleted => receipt_attrs receipt
  | PatchVerified => [(lit "crustcore.verify.outcome", lit "verified")]
  | PatchRejected => [(lit "crustcore.verify.outcome", lit "rejected")]
  | PatchProposed => [(lit "crustcore.verify.outcome", lit "proposed")]
  | _ => []
  end.
Definition project_frame (m : FrameMeta) (receipt : option ToolReceipt) (usage : option RecordedUsage) : ProjectedFrame :=
  if payload_derived_suppressed m then mkProjected [minimal_span m] []
  else mkProjected [mkSpan (span_name (m_kind m)) (base_attrs m ++ kind_attrs m receipt usage)] [].

(** ** The gate ([redact.rs]) *)

Definition MAX_ATTR_LEN : nat := 1024.
Definition MAX_ATTRS : nat := 64.
Definition DROPPED_MARKER_KEY : chars := lit "crustcore.telemetry.attrs_dropped".
Definition bound_value (s : chars) : chars := truncated_chars s MAX_ATTR_LEN.
Definition redact_value (r : Redactor) (v : chars) : chars := bound_value (chars_of (redact r (to_utf8 v))).
Definition redact_pairs (pairs : Attrs) (r : Redactor) : Attrs :=
  let total := length pairs in
  let keep := Nat.min total MAX_ATTRS in
  ((λ p, (p.1, redact_value r p.2)) <$> take keep pairs) ++
  (if decide (keep < total)%nat then [(DROPPED_MARKER_KEY, dec_u (Z.of_nat (total - keep)))] else []).
Definition redact_span (s : SpanModel) (r : Redactor) : SpanModel := mkSpan (sp_name s) (redact_pairs (sp_attrs s) r).
Definition redact_metric (m : MetricSample) (r : Redactor) : MetricSample :=
  mkMetric (mt_name m) (mt_value m) (redact_pairs (mt_labels m) r).
Definition redact_frame (f : ProjectedFrame) (r : Redactor) : ProjectedFrame :=
  mkProjected ((λ s, redact_span s r) <$> pj_spans f) ((λ m, redact_metric m r) <$> pj_metrics f).

(** ** Exporters ([export/mod.rs]) *)

Class Exporter (E : Type) := {
  export_span : E → SpanModel → E;
  export_metric : E → MetricSample → E;
  export_flush : E → E }.
Definition export_frame `{Exporter E} (e : E) (f : ProjectedFrame) : E :=
  foldl export_metric (foldl export_span e (pj_spans f)) (pj_metrics f).

Inductive Emitted := EmSpan (s : SpanModel) | EmMetric (m : MetricSample).
Record InMemoryExporter := mkInMemory { im_emitted : list Emitted }.
Definition InMemoryExporter_new : InMemoryExporter := mkInMemory [].
#[export] Instance in_memory_exporter : Exporter InMemoryExporter := {|
  export_span e s := mkInMemory (im_emitted e ++ [EmSpan s]);
  export_metric e m := mkInMemory (im_emitted e ++ [EmMetric m]);
  export_flush e := e |}.
Definition pair_strings (l : Attrs) : list chars := l ≫= λ p, [p.1; p.2].
Definition emitted_strings (e : Emitted) : list chars :=
  match e with
  | EmSpan s => sp_name s :: pair_strings (sp_attrs s)
  | EmMetric m => mt_name m :: pair_strings (mt_labels m)
  end.
Definition all_strings (e : InMemoryExporter) : list chars := im_emitted e ≫= emitted_strings.

(** ** Configuration ([config.rs], [auth.rs]) *)

Inductive OtlpEndpointAuth := AuthNone | BrokerBearer (h : SecretHandle).
Definition requires_credential (a : OtlpEndpointAuth) : bool := match a with BrokerBearer _ => true | AuthNone => false end.
Inductive AuthError := NoCredentialConfigured | ABroker (e : BrokerError) | AView (e : ViewError).
Definition inject {S} `{SecretStore S} (a : OtlpEndpointAuth) (b : SecretBroker S) (approval_id : ApprovalId)
    (now : Timestamp) (ttl_millis : Z) : result AuthError HeaderInjection :=
  match a with
  | AuthNone => Err NoCredentialConfigured
  | BrokerBearer h =>
      view ← map_err ABroker (authorize b (h_id h) approval_id now ttl_millis);
      map_err AView (bearer view now (h_label h)).2
  end.
Inductive ExporterChoice := InMemory | Otlp (endpoint : chars) (auth : OtlpEndpointAuth).
Record Config := mkConfig { tc_enabled : bool; tc_sample_rate : Z; tc_batch_bound : nat; tc_exporter : ExporterChoice }.
Definition Config_default : Config := mkConfig false 1 1024 InMemory.
Definition DEFAULT_LOOPBACK_ENDPOINT : chars := lit "http://127.0.0.1:4318".
Definition enabled_in_memory : Config := mkConfig true 1 1024 InMemory.
Definition effective_sample_rate (c : Config) : Z := Z.max (tc_sample_rate c) 1.

(** ** The driver ([run.rs]) *)

Record FrameInput := mkInput { fi_meta : FrameMeta; fi_receipt : option ToolReceipt; fi_usage : option RecordedUsage }.
Record RunReport := mkRunReport { rr_seen : nat; rr_projected : nat; rr_spans : nat; rr_metrics : nat }.
Definition RunReport_default : RunReport := mkRunReport 0 0 0 0.

Fixpoint run_loop `{Exporter E} (rate i : Z) (frames : list FrameInput) (r : Redactor) (rep : RunReport) (e : E) : RunReport * E :=
  match frames with
  | [] => (rep, e)
  | input :: rest =>
      let rep := mkRunReport (S (rr_seen rep)) (rr_projected rep) (rr_spans rep) (rr_metrics rep) in
      if negb (i mod rate =? 0) then run_loop rate (i + 1) rest r rep e
      else
        let projected := project_frame (fi_meta input) (fi_receipt input) (fi_usage input) in
        if projected_is_empty projected then run_loop rate (i + 1) rest r rep e
        else
          let red := redact_frame projected r in
          run_loop rate (i + 1) rest r
            (mkRunReport (rr_seen rep) (S (rr_projected rep)) (rr_spans rep + length (pj_spans red))
               (rr_metrics rep + length (pj_metrics red)))
            (export_frame e red)
  end.
Definition run `{Exporter E} (frames : list FrameInput) (c : Config) (r : Redactor) (e : E) : RunReport * E :=
  if negb (tc_enabled c) then (RunReport_default, e)
  else
    let '(rep, e) := run_loop (effective_sample_rate c) 0 (take (tc_batch_bound c) frames) r RunReport_default e in
    (rep, export_flush e).

(** The header of a decoded frame. *)
Definition meta_of_frame (f : EventFrame) : FrameMeta :=
  let m := meta_timestamp (meta_redaction (meta_visibility (meta_actor (FrameMeta_new (f_seq f) (f_kind f)) (f_actor f))
             (f_visibility f)) (f_redaction f)) (f_timestamp f) in
  let m := match f_task_id f with Some t => meta_task m t | None => m end in
  match f_job_id f with Some j => meta_job m j | None => m end.
(** The first receipt of each sequence number. *)
Definition receipt_index (receipts : list ToolReceipt) : gmap Z ToolReceipt :=
  foldl (λ m r, match m !! r_event_seq r with Some _ => m | None => <[r_event_seq r := r]> m end) ∅ receipts.
Definition is_model_kind (k : EventKind) : bool :=
  match k with ModelRequestStarted | ModelOutputReceived => true | _ => false end.
Definition frame_input (receipt_by_seq : gmap Z ToolReceipt) (usage : UsageBySeq) (f : EventFrame) : FrameInput :=
  mkInput (meta_of_frame f)
    (if bool_decide (f_kind f = ToolCallCompleted) then receipt_by_seq !! f_seq f else None)
    (if is_model_kind (f_kind f) then usage_get usage (f_seq f) else None).
Definition run_log `{Exporter E} (log : EventLog) (receipts : list ToolReceipt) (usage : UsageBySeq) (seq_lo seq_hi : Z)
    (c : Config) (r : Redactor) (e : E) : RunReport * E :=
  if negb (tc_enabled c) then (RunReport_default, e)
  else
    let join_ok := is_joined (verify_against_log receipts (frame_refs log)) in
    let receipt_by_seq := if join_ok then receipt_index receipts else ∅ in
    let inputs := frame_input receipt_by_seq usage <$>
      filter (λ f, seq_lo ≤ f_seq f ≤ seq_hi) (d_frame <$> iter (log_bytes log)) in
    run inputs c r e.

(** ** The collector ([export/otlp.rs]) *)

Definition OTLP_TRACES_PATH : chars := lit "/v1/traces".
Definition SCOPE_NAME : chars := lit "crustcore-telemetry".
Definition MAX_SPANS_PER_BATCH : nat := 4096.
Definition MAX_METRICS_PER_BATCH : nat := 4096.
Record OtlpExporter := mkOtlp {
  ox_endpoint : chars; ox_auth : OtlpEndpointAuth; ox_spans : list SpanModel; ox_metrics : list MetricSample }.
Definition OtlpExporter_new (endpoint : chars) (auth : OtlpEndpointAuth) : OtlpExporter := mkOtlp endpoint auth [] [].
Definition traces_url (x : OtlpExporter) : chars :=
  let e := trim_slashes (ox_endpoint x) in
  if contains e (lit "/v1/") then ox_endpoint x else e ++ OTLP_TRACES_PATH.
Definition otlp_export_span (x : OtlpExporter) (s : SpanModel) : OtlpExporter :=
  if (length (ox_spans x) <? MAX_SPANS_PER_BATCH)%nat
  then mkOtlp (ox_endpoint x) (ox_auth x) (ox_spans x ++ [s]) (ox_metrics x) else x.
Definition otlp_export_metric (x : OtlpExporter) (m : MetricSample) : OtlpExporter :=
  if (length (ox_metrics x) <? MAX_METRICS_PER_BATCH)%nat
  then mkOtlp (ox_endpoint x) (ox_auth x) (ox_spans x) (ox_metrics x ++ [m]) else x.
Definition otlp_clear (x : OtlpExporter) : OtlpExporter := mkOtlp (ox_endpoint x) (ox_auth x) [] [].

Inductive OtlpSendError := OSerialize | OAuth | OTransport (m : chars).
Definition otlp_error_fmt (e : OtlpSendError) : chars :=
  match e with
  | OSerialize => lit "OTLP body serialization failed"
  | OAuth => lit "OTLP endpoint auth could not be resolved"
  | OTransport m => lit "OTLP transport error: " ++ m
  end.

(** What is posted: the address, the headers, the body. *)
Record Post := mkPost { po_url : chars; po_headers : list (chars * chars); po_body : bytes }.
(** The client that posts to a collector: the status, or its diagnostic. *)
Class Poster (W : Type) := { ureq_post : Post → W → result chars Z * W }.

Section Otlp.
Context `{J : SerdeJson} {W : Type} `{Poster W}.

Definition attr_kv (key value : chars) : Value :=
  v_obj [field "key" (v_str key);
         field "value" (match parse_i64 value with
                        | Some n => v_obj [field "intValue" (v_str (dec_i n))]
                        | None => v_obj [field "stringValue" (v_str value)]
                        end)].
Definition ts_nanos (s : SpanModel) : Z :=
  default 0
    (p ← List.find (λ p, str_eq p.1 (lit "crustcore.timestamp_ms")) (sp_attrs s);
     ms ← parse_uint u128_MAX p.2;
     Some (Z.min u128_MAX (ms * 1000000))).
Definition span_json (s : SpanModel) : Value :=
  let ts := v_str (dec_u (ts_nanos s)) in
  v_obj [field "name" (v_str (sp_name s)); field "startTimeUnixNano" ts; field "endTimeUnixNano" ts;
         field "attributes" (v_arr ((λ p, attr_kv p.1 p.2) <$> sp_attrs s))].
Definition spans_to_otlp_json (spans : list SpanModel) : Value :=
  v_obj [field "resourceSpans" (v_arr [
    v_obj [field "resource" (v_obj [field "attributes" (v_arr [attr_kv (lit "service.name") (lit "crustcore")])]);
           field "scopeSpans" (v_arr [
             v_obj [field "scope" (v_obj [field "name" (v_str SCOPE_NAME)]); field "spans" (v_arr (span_json <$> spans))]])]])].

Definition post_with (url : chars) (auth_header : list (chars * chars)) (payload : bytes) (w : W) : result OtlpSendError Z * W :=
  let '(r, w) := ureq_post (mkPost url ((lit "Content-Type", lit "application/json") :: auth_header) payload) w in
  (map_err OTransport r, w).
Definition flush_now (x : OtlpExporter) (url : chars) (body : Value) (w : W) : result OtlpSendError Z * W :=
  if requires_credential (ox_auth x) then (Err OAuth, w)
  else
    match v_to_vec body with
    | Err _ => (Err OSerialize, w)
    | Ok payload => post_with url [] payload w
    end.
(** [Exporter::flush] with the [otlp] feature; the result of the post is dropped. *)
Definition otlp_flush (x : OtlpExporter) (w : W) : OtlpExporter * W :=
  let w := match ox_spans x with
           | [] => w
           | _ => (flush_now x (traces_url x) (spans_to_otlp_json (ox_spans x)) w).2
           end in
  (otlp_clear x, w).
#[export] Instance otlp_exporter : Exporter (OtlpExporter * W) := {|
  export_span e s := (otlp_export_span e.1 s, e.2);
  export_metric e m := (otlp_export_metric e.1 m, e.2);
  export_flush e := otlp_flush e.1 e.2 |}.

Definition otlp_send {S} `{SecretStore S} (x : OtlpExporter) (url : chars) (body : Value) (b : SecretBroker S)
    (approval_id : ApprovalId) (now : Timestamp) (ttl_millis : Z) (w : W) : result OtlpSendError Z * W :=
  match v_to_vec body with
  | Err _ => (Err OSerialize, w)
  | Ok payload =>
      match ox_auth x with
      | AuthNone => post_with url [] payload w
      | BrokerBearer _ =>
          match inject (ox_auth x) b approval_id now ttl_millis with
          | Err _ => (Err OAuth, w)
          | Ok inj =>
              if is_utf8 (reveal inj)
              then post_with url [(chars_of (header_name inj), chars_of (reveal inj))] payload w
              else (Err OAuth, w)
          end
      end
  end.
End Otlp.

(** * Telemetry: theorems

    What the driver emits, exactly; that names and keys are constants and values go through the gate;
    that payloads have no influence and suppressed frames show their kind and number only; when a
    receipt is bound to a span; where the credential of a collector goes. *)

(** ** What the driver emits *)

(** The inputs whose index, counted from [i], is a multiple of the rate. *)
Fixpoint sampled (rate i : Z) (frames : list FrameInput) : list FrameInput :=
  match frames with
  | [] => []
  | x :: rest => if decide (i mod rate = 0) then x :: sampled rate (i + 1) rest else sampled rate (i + 1) rest
  end.
Definition project_input (x : FrameInput) : ProjectedFrame := project_frame (fi_meta x) (fi_receipt x) (fi_usage x).
(** The one span of an input. *)
Definition input_span (x : FrameInput) : SpanModel :=
  if payload_derived_suppressed (fi_meta x) then minimal_span (fi_meta x)
  else mkSpan (span_name (m_kind (fi_meta x))) (base_attrs (fi_meta x) ++ kind_attrs (fi_meta x) (fi_receipt x) (fi_usage x)).
Lemma project_one x : project_input x = mkProjected [input_span x] [].
Proof. unfold project_input, project_frame, input_span. by destruct (payload_derived_suppressed _). Qed.

Lemma run_loop_exact `{Exporter E} rate i frames r rep e :
  run_loop rate i frames r rep e =
  let out := sampled rate i frames in
  (mkRunReport (rr_seen rep + length frames) (rr_projected rep + length out) (rr_spans rep + length out) (rr_metrics rep),
   foldl (λ e x, export_span e (redact_span (input_span x) r)) e out).
Proof.
  revert i rep e. induction frames as [|x frames IH]; intros i rep e; cbn [run_loop sampled].
  { cbn. rewrite !Nat.add_0_r. by destruct rep. }
  fold (project_input x). rewrite project_one. cbn [projected_is_empty pj_spans].
  destruct (Z.eqb_spec (i mod rate) 0) as [Hi|Hi]; cbn [negb].
  - rewrite decide_True by done. rewrite IH. cbn. f_equal. f_equal; lia.
  - rewrite decide_False by done. rewrite IH. cbn. f_equal. f_equal; lia.
Qed.
(** an enabled run projects the inputs within its bound whose index is a multiple of the sampling
    rate, in order, one span each, hands every one to the exporter after the gate, flushes at the end and
    reports what it did; a disabled run touches nothing. *)
Theorem telemetry_run_exact {E} (HE : Exporter E) frames c r (e : E) :
  run frames c r e =
  if tc_enabled c then
    let inputs := take (tc_batch_bound c) frames in
    let out := sampled (effective_sample_rate c) 0 inputs in
    (mkRunReport (length inputs) (length out) (length out) 0,
     export_flush (foldl export_span e ((λ x, redact_span (input_span x) r) <$> out)))
  else (RunReport_default, e).
Proof.
  unfold run. destruct (tc_enabled c); cbn [negb]; [|done]. rewrite run_loop_exact. cbn. f_equal. f_equal.
  generalize (sampled (effective_sample_rate c) 0 (take (tc_batch_bound c) frames)). intros l. revert e.
  induction l as [|x l IH]; intros e; cbn; [done|]. apply IH.
Qed.
Lemma sampled_sub rate i frames x : x ∈ sampled rate i frames → x ∈ frames.
Proof.
  revert i. induction frames as [|y frames IH]; intros i; cbn [sampled]; [done|].
  destruct (decide _); rewrite ?elem_of_cons; [intros [->|?]; [by left|]|intros ?]; right; by eapply IH.
Qed.
Lemma sampled_all i frames : sampled 1 i frames = frames.
Proof.
  revert i. induction frames as [|x frames IH]; intros i; cbn [sampled]; [done|].
  rewrite Z.mod_1_r, decide_True by done. by rewrite IH.
Qed.

(** ** Names, keys and values *)

Definition ATTR_KEYS : list string :=
  ["crustcore.event.kind"; "crustcore.event.seq"; "crustcore.actor"; "crustcore.timestamp_ms"; "crustcore.task_id";
   "crustcore.job_id"; "gen_ai.operation.name"; "gen_ai.system"; "gen_ai.request.model"; "gen_ai.response.model";
   "gen_ai.usage.input_tokens"; "gen_ai.usage.output_tokens"; "crustcore.tool.call_id"; "crustcore.tool.name_hash";
   "crustcore.tool.args_hash"; "crustcore.tool.result_hash"; "crustcore.tool.mac"; "crustcore.tool.receipt_event_seq";
   "crustcore.tool.artifact_count"; "crustcore.tool.receipt"; "crustcore.verify.outcome"]%string.
Definition known_key (k : chars) : Prop := ∃ s, s ∈ ATTR_KEYS ∧ k = lit s.
(** Decides that a constant is one of the keys. *)
Ltac solve_key := eexists; split; [|reflexivity]; apply (bool_decide_unpack _); reflexivity.
Lemma base_attrs_ok m : Forall (λ p, known_key p.1) (base_attrs m) ∧ (length (base_attrs m) ≤ 6)%nat.
Proof. unfold base_attrs, id_label. destruct (m_task_id m), (m_job_id m); (split; [repeat constructor; solve_key|cbn; lia]). Qed.
Lemma kind_attrs_ok m receipt usage :
  Forall (λ p, known_key p.1) (kind_attrs m receipt usage) ∧ (length (kind_attrs m receipt usage) ≤ 7)%nat.
Proof.
  unfold kind_attrs, model_attrs, receipt_attrs.
  destruct (m_kind m), receipt, usage; (split; [repeat constructor; solve_key|cbn; lia]).
Qed.
Lemma input_span_ok x : Forall (λ p, known_key p.1) (sp_attrs (input_span x)) ∧ (length (sp_attrs (input_span x)) ≤ 13)%nat.
Proof.
  unfold input_span. destruct (payload_derived_suppressed _).
  - cbn [minimal_span sp_attrs]. unfold kind_seq. split; [repeat constructor; solve_key|cbn; lia].
  - cbn [sp_attrs]. destruct (base_attrs_ok (fi_meta x)), (kind_attrs_ok (fi_meta x) (fi_receipt x) (fi_usage x)).
    split; [by apply Forall_app|rewrite length_app; lia].
Qed.
(** The gate: at most 64 pairs and the count of those dropped, every value a bounded prefix of its
    redaction, and of itself when it has no secret. *)
Lemma redact_pairs_few pairs r :
  (length pairs ≤ MAX_ATTRS)%nat → redact_pairs pairs r = (λ p, (p.1, redact_value r p.2)) <$> pairs.
Proof.
  intros Hl. unfold redact_pairs. rewrite Nat.min_l, firstn_all by done.
  rewrite decide_False by lia. apply app_nil_r.
Qed.
Lemma redact_pairs_bound pairs r : (length (redact_pairs pairs r) ≤ S MAX_ATTRS)%nat.
Proof.
  unfold redact_pairs. rewrite length_app, length_fmap, length_take. destruct (decide _); cbn [length]; lia.
Qed.
Lemma redact_value_gate r v :
  (byte_length (redact_value r v) ≤ MAX_ATTR_LEN)%nat ∧ redact_value r v `prefix_of` chars_of (redact r (to_utf8 v)) ∧
  (Forall is_scalar v → would_leak r (to_utf8 v) = false → redact_value r v `prefix_of` v).
Proof.
  unfold redact_value, bound_value. destruct (chars_of_spec (redact r (to_utf8 v))) as [Hs _].
  destruct (truncated_chars_split _ MAX_ATTR_LEN Hs) as (Hp & Hl & _). split; [done|]. split; [done|].
  intros Hv Hn. rewrite redact_clean in Hp |- * by done. by rewrite chars_of_to_utf8 in Hp |- * by done.
Qed.

(** Where a value of a span may come from. *)
Inductive raw_value (x : FrameInput) : chars → Prop :=
| raw_kind : raw_value x (kind_name (m_kind (fi_meta x)))
| raw_seq : raw_value x (dec_u (m_seq (fi_meta x)))
| raw_actor : raw_value x (actor_name (m_actor (fi_meta x)))
| raw_time : raw_value x (dec_u (m_timestamp (fi_meta x)))
| raw_task t : m_task_id (fi_meta x) = Some t → raw_value x (dec_u t)
| raw_job j : m_job_id (fi_meta x) = Some j → raw_value x (dec_u j)
| raw_const s : s ∈ ["model_request"; "model_response"; "crustcore"; "absent"; "verified"; "rejected"; "proposed"]%string → raw_value x (lit s)
| raw_usage u v : is_model_kind (m_kind (fi_meta x)) = true → fi_usage x = Some u →
    v ∈ [us_model u; dec_u (us_input_tokens u); dec_u (us_output_tokens u)] → raw_value x v
| raw_receipt c v : m_kind (fi_meta x) = ToolCallCompleted → fi_receipt x = Some c →
    v ∈ [dec_u (r_tool_call_id c); hex_prefix (r_tool_name_hash c) 32; hex_prefix (r_args_hash c) 32;
         hex_prefix (r_result_hash c) 32; hex_prefix (r_mac c) 32; dec_u (r_event_seq c);
         dec_u (Z.of_nat (length (r_artifact_hashes c)))] → raw_value x v.
Ltac each_pair := repeat first [apply Forall_nil_2 | apply Forall_cons_2].
Ltac solve_raw :=
  cbn [snd];
  first
    [ apply raw_const; apply (bool_decide_unpack _); reflexivity
    | match goal with
      | Hk : m_kind _ = _, Hu : fi_usage ?x = Some ?u |- _ => apply (raw_usage x u); [by rewrite Hk|exact Hu|]; rewrite !elem_of_cons; by auto
      | Hk : m_kind _ = _, Hr : fi_receipt ?x = Some ?c |- _ => apply (raw_receipt x c); [exact Hk|exact Hr|]; rewrite !elem_of_cons; by auto 10
      end ].
Lemma kind_attrs_raw x : Forall (λ p, raw_value x p.2) (kind_attrs (fi_meta x) (fi_receipt x) (fi_usage x)).
Proof.
  unfold kind_attrs, model_attrs, receipt_attrs.
  destruct (m_kind (fi_meta x)) eqn:Hk; try apply Forall_nil_2.
  1-2: destruct (fi_usage x) as [u|] eqn:Hu; each_pair; solve_raw.
  1: destruct (fi_receipt x) as [c|] eqn:Hr; each_pair; solve_raw.
  all: each_pair; solve_raw.
Qed.
Lemma id_label_raw x k o : (∀ i, o = Some i → raw_value x (dec_u i)) → Forall (λ p, raw_value x p.2) (id_label k o).
Proof. intros Ho. unfold id_label. destruct o as [i|]; [|constructor]. apply Forall_singleton. by apply Ho. Qed.
Lemma input_span_raw x : Forall (λ p, raw_value x p.2) (sp_attrs (input_span x)).
Proof.
  assert (Forall (λ p, raw_value x p.2) (kind_seq (fi_meta x))) as Hks by (each_pair; [apply raw_kind|apply raw_seq]).
  unfold input_span. destruct (payload_derived_suppressed _); [done|]. cbn [sp_attrs]. unfold base_attrs.
  rewrite !Forall_app. split; [|apply kind_attrs_raw]. split; [done|]. split; [each_pair; [apply raw_actor|apply raw_time]|].
  split; apply id_label_raw; intros i Hi; [by apply raw_task|by apply raw_job].
Qed.

(** everything a run hands to an exporter is the span of one of its inputs: its name is the constant
    of the kind of its frame, its keys are among the constants of the source, and every value is what
    the gate makes of a field of the header, of the joined receipt of a completed tool call, or of the
    recorded usage of a model frame: at most 1024 bytes, a prefix of its redaction, and a prefix of itself
    when it holds no registered secret. There are no metrics, and no span has more than 13 attributes. *)
Theorem telemetry_emission frames c r e :
  e ∈ im_emitted (run frames c r InMemoryExporter_new).2 →
  tc_enabled c = true ∧
  ∃ x s, e = EmSpan s ∧ x ∈ take (tc_batch_bound c) frames ∧ sp_name s = span_name (m_kind (fi_meta x)) ∧
    (length (sp_attrs s) ≤ 13)%nat ∧
    Forall (λ p, known_key p.1 ∧ ∃ v, raw_value x v ∧ p.2 = redact_value r v ∧
      (byte_length p.2 ≤ MAX_ATTR_LEN)%nat ∧ p.2 `prefix_of` chars_of (redact r (to_utf8 v)) ∧
      (Forall is_scalar v → would_leak r (to_utf8 v) = false → p.2 `prefix_of` v)) (sp_attrs s).
Proof.
  rewrite telemetry_run_exact. destruct (tc_enabled c); [|by intros ?%elem_of_nil]. cbn [snd export_flush in_memory_exporter].
  assert (∀ (l : list SpanModel) (m : InMemoryExporter), im_emitted (foldl export_span m l) = im_emitted m ++ (EmSpan <$> l)) as Hf.
  { intros l. induction l as [|s l IH]; intros m; cbn [foldl fmap list_fmap]; [by rewrite app_nil_r|]. rewrite IH. cbn. by rewrite <-app_assoc. }
  rewrite Hf. cbn [im_emitted InMemoryExporter_new app]. intros (s & -> & (x & -> & Hx%sampled_sub)%list_elem_of_fmap)%list_elem_of_fmap.
  split; [done|]. destruct (input_span_ok x) as [Hk Hl]. pose proof (input_span_raw x) as Hr. exists x, (redact_span (input_span x) r).
  split; [done|]. split; [done|]. split; [unfold redact_span, input_span; by destruct (payload_derived_suppressed _)|].
  unfold redact_span. cbn [sp_attrs]. rewrite redact_pairs_few by (unfold MAX_ATTRS; lia). split; [by rewrite length_fmap|].
  apply Forall_fmap. rewrite Forall_forall in Hk, Hr |- *. intros p Hp. cbn. split; [by apply Hk|]. exists (p.2).
  split; [by apply Hr|]. split; [done|]. apply redact_value_gate.
Qed.

(** ** Payloads and suppressed frames *)

Definition header (d : Decoded) : FrameMeta := meta_of_frame (d_frame d).
Lemma meta_of_frame_eq f :
  meta_of_frame f = mkMeta (f_seq f) (f_timestamp f) (f_task_id f) (f_job_id f) (f_actor f) (f_kind f) (f_visibility f) (f_redaction f).
Proof. unfold meta_of_frame. by destruct (f_task_id f), (f_job_id f). Qed.
Definition meta_input (receipt_by_seq : gmap Z ToolReceipt) (usage : UsageBySeq) (m : FrameMeta) : FrameInput :=
  mkInput m
    (if bool_decide (m_kind m = ToolCallCompleted) then receipt_by_seq !! m_seq m else None)
    (if is_model_kind (m_kind m) then usage_get usage (m_seq m) else None).
(** The inputs of a run, and the references of the join, are those of the headers of the log. *)
Lemma frame_input_meta idx usage f : frame_input idx usage f = meta_input idx usage (meta_of_frame f).
Proof. unfold frame_input, meta_input. by rewrite meta_of_frame_eq. Qed.
Lemma filter_headers lo hi (ds : list Decoded) :
  meta_of_frame <$> filter (λ f, lo ≤ f_seq f ≤ hi) (d_frame <$> ds) =
  filter (λ m, lo ≤ m_seq m ≤ hi) (header <$> ds).
Proof.
  induction ds as [|d ds IH]; [done|]. cbn [fmap list_fmap]. rewrite !filter_cons.
  assert (m_seq (header d) = f_seq (d_frame d)) as -> by (unfold header; by rewrite meta_of_frame_eq).
  destruct (decide _); cbn [fmap list_fmap]; by rewrite ?IH.
Qed.
Lemma frame_refs_headers log :
  frame_refs log = (λ m, mkFrameRef (m_seq m) (bool_decide (m_kind m = ToolCallCompleted)) (m_task_id m) (m_job_id m)) <$>
                   (header <$> iter (log_bytes log)).
Proof.
  unfold frame_refs. rewrite <-list_fmap_compose. apply list_fmap_ext. intros i d _. unfold compose, header. by rewrite meta_of_frame_eq.
Qed.
(** what is emitted for a log depends on the headers of its frames alone: two logs with the same
    headers and whatever payloads, hashes or chain give the same spans, the same report. *)
Theorem telemetry_reads_headers {E} (HE : Exporter E) log1 log2 receipts usage lo hi c r (e : E) :
  header <$> iter (log_bytes log1) = header <$> iter (log_bytes log2) →
  run_log log1 receipts usage lo hi c r e = run_log log2 receipts usage lo hi c r e.
Proof.
  intros Hh. unfold run_log. rewrite !frame_refs_headers, Hh. destruct (negb _); [done|]. f_equal.
  assert (∀ idx log, frame_input idx usage <$> filter (λ f, lo ≤ f_seq f ≤ hi) (d_frame <$> iter (log_bytes log)) =
            meta_input idx usage <$> filter (λ m, lo ≤ m_seq m ≤ hi) (header <$> iter (log_bytes log))) as Hin.
  { intros idx log. rewrite <-filter_headers, <-list_fmap_compose. apply list_fmap_ext. intros i f _. apply frame_input_meta. }
  by rewrite !Hin, Hh.
Qed.
(** A frame that is internal or redacted shows its kind and its number, whatever is joined to it. *)
Lemma suppressed_span x :
  m_visibility (fi_meta x) = Internal ∨ m_redaction (fi_meta x) = Redacted →
  input_span x = mkSpan (span_name (m_kind (fi_meta x)))
    [(lit "crustcore.event.kind", kind_name (m_kind (fi_meta x))); (lit "crustcore.event.seq", dec_u (m_seq (fi_meta x)))].
Proof.
  intros Hx. unfold input_span, payload_derived_suppressed.
  assert (bool_decide (m_visibility (fi_meta x) = Internal) || bool_decide (m_redaction (fi_meta x) = Redacted) = true) as ->.
  { destruct Hx as [->| ->]; [done|]. by rewrite orb_true_r. }
  done.
Qed.

(** ** Receipts *)

Lemma receipt_index_lookup receipts (m : gmap Z ToolReceipt) s :
  foldl (λ m r, match m !! r_event_seq r with Some _ => m | None => <[r_event_seq r := r]> m end) m receipts !! s =
  match m !! s with Some r => Some r | None => find (λ r, bool_decide (r_event_seq r = s)) receipts end.
Proof.
  revert m. induction receipts as [|r rs IH]; intros m; cbn [foldl find]; [by destruct (m !! s)|].
  rewrite IH. case_bool_decide as Hs.
  - subst s. destruct (m !! r_event_seq r) as [g|] eqn:E; [by rewrite E|]. by rewrite lookup_insert_eq.
  - destruct (m !! r_event_seq r) eqn:E; [done|]. by rewrite lookup_insert_ne.
Qed.
(** The receipt the driver binds to a frame. *)
Definition bound_receipt (log : EventLog) (receipts : list ToolReceipt) (f : EventFrame) : option ToolReceipt :=
  let idx := if is_joined (verify_against_log receipts (frame_refs log)) then receipt_index receipts else ∅ in
  fi_receipt (frame_input idx UsageBySeq_new f).
(** a receipt is bound to a frame exactly when every receipt of the list joins the log, the frame is
    a completed tool call, and the receipt is the first of the list with the number of the frame; the
    first frame of the log with that number is then a completed tool call of the task and the job of
    the receipt, and so is the frame itself when numbers are not used twice. *)
Theorem receipt_bound_iff log receipts f rc :
  f ∈ d_frame <$> iter (log_bytes log) →
  (bound_receipt log receipts f = Some rc ↔
   Forall (anchored (frame_refs log)) receipts ∧ f_kind f = ToolCallCompleted ∧
   find (λ r, bool_decide (r_event_seq r = f_seq f)) receipts = Some rc) ∧
  (bound_receipt log receipts f = Some rc → NoDup (f_seq <$> (d_frame <$> iter (log_bytes log))) →
   r_event_seq rc = f_seq f ∧ f_task_id f = Some (r_task_id rc) ∧ f_job_id f = Some (r_job_id rc)).
Proof.
  intros Hf. assert (bound_receipt log receipts f = Some rc ↔
   Forall (anchored (frame_refs log)) receipts ∧ f_kind f = ToolCallCompleted ∧
   find (λ r, bool_decide (r_event_seq r = f_seq f)) receipts = Some rc) as Hiff.
  { unfold bound_receipt, frame_input. cbn [fi_receipt]. pose proof (receipt_join_exact receipts (frame_refs log)) as Hj.
    destruct (verify_against_log _ _) as [n|i reason]; cbn [is_joined].
    - destruct Hj as [_ Hall]. case_bool_decide as Hk; [|naive_solver]. unfold receipt_index. rewrite receipt_index_lookup, lookup_empty. naive_solver.
    - destruct Hj as (r & Hr & Hna & _). rewrite lookup_empty. split; [by case_bool_decide|]. intros (Hall & _ & _).
      destruct Hna. rewrite Forall_forall in Hall. apply Hall. by eapply list_elem_of_lookup_2. }
  split; [done|]. intros (Hall & Hk & Hfind)%Hiff Hnd.
  apply find_some in Hfind as [Hin Hs%bool_decide_eq_true]. apply list_elem_of_In in Hin.
  rewrite Forall_forall in Hall. destruct (Hall _ Hin) as (g & Hg & _ & Ht & Hj).
  apply find_some in Hg as [Hgin Hgs%bool_decide_eq_true]. apply list_elem_of_In in Hgin. unfold frame_refs in Hgin.
  apply list_elem_of_fmap in Hgin as (d & -> & Hd). cbn in Hgs, Ht, Hj. split; [done|].
  assert (d_frame d = f) as Hdf; [|by rewrite <-Hdf].
  apply list_elem_of_fmap in Hf as (d' & -> & Hd'). apply list_elem_of_lookup in Hd as [i Hi], Hd' as [j Hj'].
  rewrite <-list_fmap_compose in Hnd. apply NoDup_alt with (i := i) (j := j) (x := f_seq (d_frame d)) in Hnd as ->;
    [by rewrite Hi in Hj'; injection Hj' as ->|..]; rewrite list_lookup_fmap; [by rewrite Hi|]. rewrite Hj'. cbn. unfold compose. by rewrite <-Hs, Hgs.
Qed.

(** ** The collector *)

(** A client that keeps what it posted. *)
Section Collector.
Context `{J : SerdeJson} (reply : Post → result chars Z).
#[local] Instance recorder : Poster (list Post) := {| ureq_post p w := (reply p, w ++ [p]) |}.

(** an exporter never holds more than 4096 spans; a flush posts at most the spans it holds, to its
    endpoint, without a credential, and nothing at all when the endpoint needs one; after it the buffers
    are empty. *)
Theorem otlp_flush_exact x w :
  let '(x', w') := otlp_flush x w in
  ox_spans x' = [] ∧ ox_metrics x' = [] ∧ ox_endpoint x' = ox_endpoint x ∧ ox_auth x' = ox_auth x ∧
  (w' = w ∨
   ox_auth x = AuthNone ∧ ox_spans x ≠ [] ∧ ∃ payload, v_to_vec (spans_to_otlp_json (ox_spans x)) = Ok payload ∧
     w' = w ++ [mkPost (traces_url x) [(lit "Content-Type", lit "application/json")] payload]).
Proof.
  unfold otlp_flush. split_and!; [done..|]. destruct (ox_spans x) as [|s l] eqn:Hs; [by left|].
  unfold flush_now. destruct (ox_auth x) eqn:Ha; cbn [requires_credential]; [|by left].
  destruct (v_to_vec _) as [payload|] eqn:Hv; [|by left]. right. split_and!; [done..|]. by exists payload.
Qed.
Lemma otlp_spans_bounded x s : (length (ox_spans x) ≤ MAX_SPANS_PER_BATCH)%nat →
  (length (ox_spans (otlp_export_span x s)) ≤ MAX_SPANS_PER_BATCH)%nat.
Proof.
  intros Hl. unfold otlp_export_span. destruct (Nat.ltb_spec (length (ox_spans x)) MAX_SPANS_PER_BATCH); [|done].
  cbn [ox_spans]. rewrite length_app. cbn [length]. lia.
Qed.

(** a send posts the body once, to the address it is given, with the secret of the handle in the
    authorization header when the endpoint needs one and with no such header otherwise; a secret that the
    store does not have, or has no time left, or that is not text, posts nothing. *)
Theorem otlp_send_exact {S} (HSS : SecretStore S) x url body (b : SecretBroker S) aid now ttl w payload :
  v_to_vec body = Ok payload →
  let sent headers :=
    otlp_send x url body b aid now ttl w =
    (map_err OTransport (reply (mkPost url headers payload)), w ++ [mkPost url headers payload]) in
  match ox_auth x with
  | AuthNone => sent [(lit "Content-Type", lit "application/json")]
  | BrokerBearer h =>
      match store_get (br_store b) (h_id h) with
      | Some secret =>
          if (now <? saturating_add u64_MAX now ttl) && is_utf8 (lit "Bearer " ++ secret) then
            sent [(lit "Content-Type", lit "application/json"); (lit "Authorization", chars_of (lit "Bearer " ++ secret))]
          else otlp_send x url body b aid now ttl w = (Err OAuth, w)
      | None => otlp_send x url body b aid now ttl w = (Err OAuth, w)
      end
  end.
Proof.
  intros Hv. cbv zeta. unfold otlp_send. rewrite Hv. destruct (ox_auth x) as [|h]; [done|].
  unfold inject, authorize. destruct (store_get (br_store b) (h_id h)) as [secret|]; cbn [ok_or mbind result_bind map_err]; [|done].
  unfold bearer, expose. cbn [v_consumed v_expires_at v_material].
  destruct (Z.leb_spec (saturating_add u64_MAX now ttl) now), (Z.ltb_spec now (saturating_add u64_MAX now ttl)); try lia; [done|].
  cbn [mbind result_bind snd map_err reveal hi_value header_name andb]. by destruct (is_utf8 _).
Qed.
End Collector.

(** A value that reads as a number is sent as that number: a model named with a plus sign and leading
    zeros loses them. *)
Example number_respelled `{J : SerdeJson} : attr_kv (lit "gen_ai.request.model") (lit "+007") =
  v_obj [field "key" (v_str (lit "gen_ai.request.model")); field "value" (v_obj [field "intValue" (v_str (lit "7"))])].
Proof. reflexivity. Qed.

(** ** Examples, at the SHA-256 instance *)

Module Demo.
Definition tool_done (seq task : Z) : Rec :=
  (meta_job (meta_task (meta_visibility (FrameMeta_new seq ToolCallCompleted) ModelVisible) task) 1, []).
Definition receipt_of (seq task : Z) : ToolReceipt := mkReceipt task 1 9 [] [] [] [] seq [] [].
Definition receipts_bound (rs : list Rec) (receipts : list ToolReceipt) : list (option Z) :=
  (λ f, r_task_id <$> bound_receipt (log_of rs) receipts f) <$> (d_frame <$> iter (log_bytes (log_of rs))).
(** A receipt that joins is bound to its frame; one stray receipt in the list, and none is. *)
Example stray_receipt_unbinds_all :
  receipts_bound [tool_done 1 7] [receipt_of 1 7] = [Some 7] ∧
  receipts_bound [tool_done 1 7] [receipt_of 1 7; receipt_of 2 7] = [None].
Proof. vm_compute. done. Qed.
(** The chain of the log is not verified first: where a number is used twice, the second frame shows a
    receipt of another task. *)
Example receipt_of_other_task : receipts_bound [tool_done 1 7; tool_done 1 8] [receipt_of 1 7] = [Some 7; Some 7].
Proof. vm_compute. done. Qed.

Definition demo_inputs : list FrameInput :=
  [ mkInput (meta_visibility (FrameMeta_new 1 ModelRequestStarted) ModelVisible) None (Some (mkUsage (lit "m") 3 4));
    mkInput (FrameMeta_new 2 ToolCallStarted) None None ].
Definition demo_run : RunReport * InMemoryExporter := run demo_inputs enabled_in_memory Redactor_new InMemoryExporter_new.
Lemma telemetry_emission_witness :
  length (im_emitted demo_run.2) = 2%nat ∧
  ∀ e, e ∈ im_emitted demo_run.2 → ∃ s, e = EmSpan s ∧ (length (sp_attrs s) ≤ 13)%nat.
Proof.
  split; [by vm_compute|]. intros e He.
  destruct (telemetry_emission _ _ _ _ He) as (_ & x & s & -> & _ & _ & Hl & _). by exists s.
Defined.
End Demo.
