(* ===== verification/Toolkit.v ===== *)
(** * Tool runtime (crate [crustcore-toolkit])

    What the generated code of a tool calls: schemas, bounded arguments, and the finalizer that
    redacts, bounds and mints a receipt, in this order, over the chain of the host. The visible text
    of an outcome is its UTF-8 bytes. *)

From S2P Require Import Prelude Text Std Chars Redactor Strings Sha256 Types Policy Receipts ReceiptsTheorems.

Definition MAX_ARGS_BYTES : nat := DEFAULT_MAX.
Definition MAX_RESULT_BYTES : nat := DEFAULT_MAX.

(** ** Schemas *)

Inductive SchemaType := SString | SInteger | SBoolean | SOptional (t : SchemaType) | SArray (t : SchemaType) | SAny.
Fixpoint json_type (t : SchemaType) : string :=
  match t with
  | SString => "string" | SInteger => "integer" | SBoolean => "boolean" | SArray _ => "array"
  | SOptional inner => json_type inner
  | SAny => "any"
  end.
Record ParamSchema := mkParam { ps_name : chars; ps_ty : SchemaType; ps_required : bool }.
Record ToolSchema := mkSchema { ts_name : chars; ts_params : list ParamSchema; ts_result : SchemaType }.
(** [all(|p| seen.insert(p.name))]: no name was seen before. *)
Fixpoint names_fresh (seen : list chars) (ps : list ParamSchema) : bool :=
  match ps with
  | [] => true
  | p :: rest => negb (existsb (str_eq (ps_name p)) seen) && names_fresh (ps_name p :: seen) rest
  end.
Definition is_well_formed (s : ToolSchema) : bool := negb (str_eq (ts_name s) []) && names_fresh [] (ts_params s).
Fixpoint concrete (t : SchemaType) : bool :=
  match t with SAny => false | SOptional i | SArray i => concrete i | _ => true end.
Definition is_concrete (s : ToolSchema) : bool := forallb (λ p, concrete (ps_ty p)) (ts_params s) && concrete (ts_result s).

(** ** Arguments and errors *)

Inductive ToolError :=
| InputTooLarge (len max : nat) | OutputTooLarge (len max : nat) | InvalidArgs (e : chars) | PolicyRefused (e : chars)
| TFailed (e : chars).
Definition toolkit_error_fmt (e : ToolError) : chars :=
  match e with
  | InputTooLarge len max =>
      lit "tool input of " ++ dec_u (Z.of_nat len) ++ lit " bytes exceeds cap of " ++ dec_u (Z.of_nat max) ++ lit " bytes"
  | OutputTooLarge len max =>
      lit "tool output of " ++ dec_u (Z.of_nat len) ++ lit " bytes exceeds cap of " ++ dec_u (Z.of_nat max) ++ lit " bytes"
  | InvalidArgs e => lit "invalid tool arguments: " ++ e
  | PolicyRefused e => lit "policy refused: " ++ e
  | TFailed e => lit "tool failed: " ++ e
  end.
Record ToolArgs := mkToolArgs { ta_raw : bytes }.
Definition args_with_max (raw : bytes) (max : nat) : result ToolError ToolArgs :=
  if (max <? length raw)%nat then Err (InputTooLarge (length raw) max) else Ok (mkToolArgs raw).
Definition ToolArgs_new (raw : bytes) : result ToolError ToolArgs := args_with_max raw MAX_ARGS_BYTES.
Definition args_as_str (a : ToolArgs) : option chars := if is_utf8 (ta_raw a) then Some (chars_of (ta_raw a)) else None.

(** ** Tools *)

Record ToolOutcome := mkOutcome { to_visible : bytes; to_artifacts : list bytes }.
(** A tool acts on the host [H]: on its chain, in particular. *)
Class CrustTool (H : Type) := {
  tool_schema : ToolSchema;
  default_reversibility : Reversibility;
  tool_invoke : ToolArgs → H → result ToolError ToolOutcome * H }.
Definition classify_tool {H} (T : CrustTool H) (policy : PolicySnapshot) : PolicyDecision :=
  classify policy (default_reversibility (CrustTool := T)).

Record ReceiptContext := mkContext { rc_task_id : TaskId; rc_job_id : JobId; rc_tool_call_id : ToolCallId; rc_event_seq : EventSeq }.

Section Finalize.
Context `{HS : Hash} `{MC : Mac}.
Definition finalize_with (r : Redactor) (chain : ReceiptChain) (ctx : ReceiptContext) (tool_name : chars) (args : bytes)
    (raw_result : chars) (artifacts : list bytes) (max_result : nat) : result ToolError (ToolOutcome * ToolReceipt) * ReceiptChain :=
  let shown := redact r (to_utf8 raw_result) in
  if (max_result <? length shown)%nat then (Err (OutputTooLarge (length shown) max_result), chain)
  else
    let '(chain, receipt) :=
      mint chain (mkParams (rc_task_id ctx) (rc_job_id ctx) (rc_tool_call_id ctx) (to_utf8 tool_name) args shown artifacts
                    (rc_event_seq ctx)) in
    (Ok (mkOutcome shown artifacts, receipt), chain).
Definition finalize (r : Redactor) (chain : ReceiptChain) (ctx : ReceiptContext) (tool_name : chars) (args : bytes)
    (raw_result : chars) (artifacts : list bytes) : result ToolError (ToolOutcome * ToolReceipt) * ReceiptChain :=
  finalize_with r chain ctx tool_name args raw_result artifacts MAX_RESULT_BYTES.
Record HostTool := mkHostTool { ht_redactor : Redactor; ht_chain : ReceiptChain; ht_ctx : ReceiptContext }.
Definition emit (h : HostTool) (tool_name : chars) (args : bytes) (raw_result : chars) (artifacts : list bytes)
  : result ToolError (ToolOutcome * ToolReceipt) * HostTool :=
  let '(o, chain) := finalize (ht_redactor h) (ht_chain h) (ht_ctx h) tool_name args raw_result artifacts in
  (o, mkHostTool (ht_redactor h) chain (ht_ctx h)).
(** The calls of a tool body, one after the other. *)
Fixpoint emit_all (h : HostTool) (calls : list (chars * bytes * chars * list bytes))
  : list (result ToolError (ToolOutcome * ToolReceipt)) * HostTool :=
  match calls with
  | [] => ([], h)
  | (name, args, raw, artifacts) :: rest =>
      let '(o, h) := emit h name args raw artifacts in
      let '(os, h) := emit_all h rest in
      (o :: os, h)
  end.
End Finalize.

(** * Tool runtime: theorems

    Well-formed schemas; exactly what the finalizer shows, commits and refuses; that the receipts of a
    tool body verify as the whole chain of the host; that the default risk of a tool is never let
    through. *)

(** ** Schemas *)

Lemma names_fresh_spec seen ps :
  names_fresh seen ps = true ↔ NoDup (ps_name <$> ps) ∧ ∀ p, p ∈ ps → ps_name p ∉ seen.
Proof.
  revert seen. induction ps as [|p ps IH]; intros seen; cbn [names_fresh fmap list_fmap].
  { split; [|done]. intros _. split; [constructor|]. by intros ? ?%elem_of_nil. }
  rewrite andb_true_iff, IH, NoDup_cons, negb_true_iff.
  assert (existsb (str_eq (ps_name p)) seen = false ↔ ps_name p ∉ seen) as ->.
  { rewrite <-not_true_iff_false, existsb_exists. split.
    - intros Hn Hin. apply Hn. exists (ps_name p). split; [by apply list_elem_of_In|]. by apply bool_decide_eq_true.
    - intros Hn (x & Hx%list_elem_of_In & He%bool_decide_eq_true). congruence. }
  setoid_rewrite elem_of_cons. rewrite list_elem_of_fmap. split.
  - intros (Hs & Hnd & Hall). split; [split; [|done]|].
    + intros (q & He & Hq). apply (Hall q Hq). by left.
    + intros q [->|Hq]; [done|]. intros Hin. apply (Hall q Hq). by right.
  - intros ((Hn & Hnd) & Hall). split; [apply Hall; by left|]. split; [done|]. intros q Hq [He|Hin].
    + apply Hn. by exists q.
    + apply (Hall q); [by right|done].
Qed.
(** a schema is well formed exactly when its name is not empty and its parameters have distinct names. *)
Theorem schema_well_formed_iff s :
  is_well_formed s = true ↔ ts_name s ≠ [] ∧ NoDup (ps_name <$> ts_params s).
Proof.
  unfold is_well_formed, str_eq. rewrite andb_true_iff, negb_true_iff, bool_decide_eq_false, names_fresh_spec.
  split; [naive_solver|]. intros [? ?]. split_and!; [done..|]. intros p _ Hin. by apply elem_of_nil in Hin.
Qed.

(** arguments are kept as they are up to their cap, and refused beyond it. *)
Theorem args_bounded raw max :
  args_with_max raw max = if decide (length raw ≤ max)%nat then Ok (mkToolArgs raw) else Err (InputTooLarge (length raw) max).
Proof. unfold args_with_max. destruct (Nat.ltb_spec max (length raw)), (decide _); try done; lia. Qed.

(** ** The finalizer *)

Section Finalize.
Context `{HS : Hash} `{MC : Mac}.

Definition emit_params (ctx : ReceiptContext) (name : chars) (args shown : bytes) (artifacts : list bytes) : ReceiptParams :=
  mkParams (rc_task_id ctx) (rc_job_id ctx) (rc_tool_call_id ctx) (to_utf8 name) args shown artifacts (rc_event_seq ctx).
(** the finalizer shows the redaction of the result whole, or refuses it whole. When it is within the
    cap, the outcome is the redaction, with its artifacts, and one receipt minted over those very bytes,
    the arguments, the name and the place of the call extends the chain; when it is not, nothing is shown
    and the chain is as it was. *)
Theorem finalize_exact r chain ctx name args raw artifacts max :
  let shown := redact r (to_utf8 raw) in
  match finalize_with r chain ctx name args raw artifacts max with
  | (Ok (o, receipt), chain') =>
      (length shown ≤ max)%nat ∧ o = mkOutcome shown artifacts ∧
      (chain', receipt) = mint chain (emit_params ctx name args shown artifacts) ∧
      result_matches receipt (to_visible o) = true ∧ args_matches receipt args = true ∧
      r_tool_name_hash receipt = hash (to_utf8 name) ∧ r_artifact_hashes receipt = take MAX_RECEIPT_ARTIFACTS artifacts ∧
      (r_task_id receipt, r_job_id receipt, r_tool_call_id receipt, r_event_seq receipt) =
      (rc_task_id ctx, rc_job_id ctx, rc_tool_call_id ctx, rc_event_seq ctx)
  | (Err e, chain') => chain' = chain ∧ (max < length shown)%nat ∧ e = OutputTooLarge (length shown) max
  end.
Proof.
  cbv zeta. unfold finalize_with. destruct (Nat.ltb_spec max (length (redact r (to_utf8 raw)))) as [?|Hl]; [done|].
  destruct (mint _ _) as [c' rc] eqn:Hm. split; [done|]. split; [done|]. split; [by rewrite <-Hm|].
  unfold mint in Hm. injection Hm as <- <-. unfold result_matches, args_matches. cbn.
  by rewrite !bool_decide_eq_true_2.
Qed.

(** The receipts of the calls that were shown. *)
Definition shown_receipts (os : list (result ToolError (ToolOutcome * ToolReceipt))) : list ToolReceipt :=
  omap (λ o, match o with Ok (_, rc) => Some rc | Err _ => None end) os.
Definition shown_params (h : HostTool) (calls : list (chars * bytes * chars * list bytes)) : list ReceiptParams :=
  omap (λ '(name, args, raw, artifacts),
    let shown := redact (ht_redactor h) (to_utf8 raw) in
    if (MAX_RESULT_BYTES <? length shown)%nat then None else Some (emit_params (ht_ctx h) name args shown artifacts)) calls.
Lemma emit_all_mints h calls :
  let '(os, h') := emit_all h calls in
  mint_all (ht_chain h) (shown_params h calls) = (ht_chain h', shown_receipts os) ∧ length os = length calls.
Proof.
  revert h. induction calls as [|[[[name args] raw] artifacts] calls IH]; intros h; cbn [emit_all]; [done|].
  unfold emit, finalize, finalize_with, shown_params. cbn [omap list_omap]. fold (shown_params h calls).
  destruct (Nat.ltb_spec MAX_RESULT_BYTES (length (redact (ht_redactor h) (to_utf8 raw)))).
  - specialize (IH (mkHostTool (ht_redactor h) (ht_chain h) (ht_ctx h))). destruct (emit_all _ calls) as [os h'] eqn:E.
    destruct IH as [IH Hl]. split; [exact IH|cbn; lia].
  - fold (emit_params (ht_ctx h) name args (redact (ht_redactor h) (to_utf8 raw)) artifacts).
    destruct (mint (ht_chain h) _) as [c rc] eqn:Hm. specialize (IH (mkHostTool (ht_redactor h) c (ht_ctx h))).
    destruct (emit_all _ calls) as [os h'] eqn:E. destruct IH as [IH Hl]. cbn [mint_all]. rewrite Hm.
    cbn [ht_chain] in IH. change (shown_params (mkHostTool (ht_redactor h) c (ht_ctx h)) calls) with (shown_params h calls) in IH.
    rewrite IH. split; [done|cbn; lia].
Qed.
Lemma shown_params_typed h calls :
  is_uint 128 (rc_task_id (ht_ctx h)) → is_uint 128 (rc_job_id (ht_ctx h)) → is_uint 128 (rc_tool_call_id (ht_ctx h)) →
  is_uint 64 (rc_event_seq (ht_ctx h)) → Forall (λ c : chars * bytes * chars * list bytes, Forall digest c.2) calls →
  Forall params_typed (shown_params h calls).
Proof.
  intros Ht Hj Hc Hs Ha. unfold shown_params. induction Ha as [|[[[name args] raw] arts] calls Hd _ IH]; cbn [omap list_omap]; [constructor|].
  destruct (_ <? _)%nat; [exact IH|]. constructor; [by constructor|exact IH].
Qed.
(** whatever a tool body emits through a fresh chain of the host, its receipts, one for each call that
    was shown, verify as the complete chain. *)
Theorem emitted_chain_complete r key ctx calls :
  is_uint 128 (rc_task_id ctx) → is_uint 128 (rc_job_id ctx) → is_uint 128 (rc_tool_call_id ctx) → is_uint 64 (rc_event_seq ctx) →
  Forall (λ c : chars * bytes * chars * list bytes, Forall digest c.2) calls →
  let '(os, h) := emit_all (mkHostTool r (ReceiptChain_new key) ctx) calls in
  verify_complete (ht_chain h) (shown_receipts os) = RIntact (length (shown_receipts os)).
Proof.
  intros Ht Hj Hc Hs Ha. pose proof (emit_all_mints (mkHostTool r (ReceiptChain_new key) ctx) calls) as Hm.
  destruct (emit_all _ calls) as [os h]. destruct Hm as [Hm _]. cbn [ht_chain] in Hm.
  set (ps := shown_params _ calls) in Hm.
  assert (Forall params_typed ps) as Hps by (by apply shown_params_typed).
  pose proof (mint_linked (ReceiptChain_new key) ps) as (_ & _ & _ & Hlen & _). rewrite Hm in Hlen. cbn [snd] in Hlen.
  destruct ps as [|p ps'] eqn:Eps.
  - cbn in Hm. injection Hm as <- Hrs. rewrite <-Hrs. unfold verify_complete. cbn. by rewrite bool_decide_true.
  - pose proof (receipt_chain_complete key (p :: ps') 0 Hps ltac:(cbn; lia)) as Hcomp. rewrite Hm in Hcomp.
    destruct Hcomp as (Hv & _). by rewrite Hv, Hlen.
Qed.
End Finalize.
Lemma emitted_chain_complete_witness :
  let '(os, h) := emit_all (mkHostTool Redactor_new (ReceiptChain_new (lit "key")) (mkContext 1 2 3 4))
                    [(lit "t", lit "a", lit "one", []); (lit "t", lit "b", lit "two", [])] in
  verify_complete (ht_chain h) (shown_receipts os) = RIntact (length (shown_receipts os)).
Proof.
  apply (emitted_chain_complete Redactor_new (lit "key") (mkContext 1 2 3 4)); try (split; cbv; congruence).
  by repeat constructor.
Defined.

(** a tool of the default risk is never let through by the policy, and always refused where side
    effects are. *)
Theorem default_risk_gated {H} (T : CrustTool H) policy :
  default_reversibility (CrustTool := T) = Destructive →
  classify_tool T policy ≠ PAllow ∧
  (profile policy = ReadOnly → ∃ reason, classify_tool T policy = PDeny reason) ∧
  (profile policy ≠ ReadOnly → ∃ reason, classify_tool T policy = PRequireApproval reason).
Proof.
  unfold classify_tool. intros ->. unfold classify. destruct (profile policy); cbn; naive_solver.
Qed.
(** The receipt of a call commits to its first 256 artifacts; the outcome has them all. *)
Example artifacts_beyond_receipt :
  let many := replicate 257 (replicate 32 0) in
  match (finalize Redactor_new (ReceiptChain_new (lit "key")) (mkContext 1 2 3 4) (lit "t") [] (lit "ok") many).1 with
  | Ok (o, rc) => length (to_artifacts o) = 257%nat ∧ length (r_artifact_hashes rc) = 256%nat
  | Err _ => False
  end.
Proof. vm_compute. done. Qed.
