(* ===== verification/FlowLive.v ===== *)
(** * Flows outside (crate [crustcore-flow]: [agentic_flows.rs], [live/mod.rs])

    The gates of an imported flow as completion criteria, checked against the verifier's evidence; the
    live drivers: the model and the tools through injected closures, the verifier through the verify
    loop of the backend, the reviewer through an advisor. *)

From S2P Require Import Prelude Text Std Chars Redactor Strings Order Sha256 Types Policy Receipts Flow Sandbox.
From S2P Require Import Backend SelfImprove FlowTheorems SandboxTheorems.

(** ** Imported gates *)

Record AgenticFlowGate := mkGate { ag_id : chars; ag_title : chars; ag_required : bool; ag_evidence_refs : list chars }.
Definition gate_required (id title : chars) (refs : list chars) : AgenticFlowGate := mkGate id title true refs.
Definition gate_optional (id title : chars) : AgenticFlowGate := mkGate id title false [].
Record VerifierCompletionCriterion := mkCriterion { vc_gate_id : chars; vc_title : chars; vc_required_evidence_refs : list chars }.
Record GateEvidence := mkGateEvidence { ge_gate_id : chars; ge_evidence_refs : list chars }.
Inductive CompletionEvidenceError := MissingRequiredGate (gate_id : chars) | MissingEvidenceRef (gate_id evidence_ref : chars).
(** [collect::<BTreeSet<_>>()]: in order, each once. *)
Definition normalized_refs (refs : list chars) : list chars :=
  dedup (sort_by chars_le (List.filter (λ r, negb (str_eq r [])) refs)).
Definition verifier_completion_criteria (gates : list AgenticFlowGate) : list VerifierCompletionCriterion :=
  sort_by (λ a b, chars_le (vc_gate_id a) (vc_gate_id b))
    ((λ g, mkCriterion (ag_id g) (ag_title g) (normalized_refs (ag_evidence_refs g))) <$> List.filter ag_required gates).
Definition evidence_by_gate (evidence : list GateEvidence) : gmap chars (gset chars) :=
  foldl (λ m e, <[ge_gate_id e := default ∅ (m !! ge_gate_id e) ∪ list_to_set (ge_evidence_refs e)]> m) ∅ evidence.
Definition completion_evidence_errors (criteria : list VerifierCompletionCriterion) (evidence : list GateEvidence)
  : list CompletionEvidenceError :=
  let by_gate := evidence_by_gate evidence in
  criteria ≫= λ c,
    match by_gate !! vc_gate_id c with
    | None => [MissingRequiredGate (vc_gate_id c)]
    | Some refs =>
        omap (λ r, if decide (r ∈ refs) then None else Some (MissingEvidenceRef (vc_gate_id c) r)) (vc_required_evidence_refs c)
    end.
Definition validate_patch_completion_evidence (criteria : list VerifierCompletionCriterion) (evidence : list GateEvidence)
  : result (list CompletionEvidenceError) unit :=
  match completion_evidence_errors criteria evidence with
  | [] => Ok tt
  | errors => Err errors
  end.

(** ** The live drivers *)

(** The number a status is known by to the flow, which never looks at it. *)
Definition status_number (s : ExitStatus) : Z :=
  match s with Code c => 2 * c | Signal n => 2 * n + 1 | ETimedOut => - 1 end.
Definition flow_outcome (o : Backend.VerifyOutcome) : Flow.VerifyOutcome VerifiedPatch :=
  match o with
  | OVerified p => Verified p
  | OFailed status output => VFailed (status_number status) output
  | ORefused reason => VRefused (to_utf8 reason)
  end.

Section Live.
Context `{HS : Hash} `{MC : Mac} {W : Type} {R : Runner W} {A : Type} {AD : Advisor A}.
Record LiveWorld := mkLive { lw_receipts : ReceiptChain; lw_world : W; lw_advisor : A }.
(** The closures of the model and the tool driver, over the world of the host. *)
Context (consult_model : chars → W → result chars (chars * Z) * W).
Context (run_closure : ToolSpec → bytes → W → result chars chars * W).
(** What the verify driver owns. *)
Record LiveVerify := mkLiveVerify {
  lv_cap : SandboxExecCap; lv_profile : SandboxProfile; lv_worktree : chars; lv_spec : VerifySpec; lv_patch : PatchRef; lv_ids : VerifyIds }.
Context (h : Host) (firecracker : bool) (verifier : LiveVerify) (consultation : Consultation).

Definition live_model (prompt : bytes) (w : LiveWorld) : result bytes (bytes * Z) * LiveWorld :=
  let '(r, w') := consult_model (chars_of prompt) (lw_world w) in
  (match r with Ok (text, cost) => Ok (to_utf8 text, cost) | Err e => Err (to_utf8 e) end, mkLive (lw_receipts w) w' (lw_advisor w)).
Definition live_tool (spec : ToolSpec) (args : bytes) (w : LiveWorld) : result bytes bytes * LiveWorld :=
  let '(r, w') := run_closure spec args (lw_world w) in
  (match r with Ok text => Ok (to_utf8 text) | Err e => Err (to_utf8 e) end, mkLive (lw_receipts w) w' (lw_advisor w)).
Definition live_verify (w : LiveWorld) : Flow.VerifyOutcome VerifiedPatch * LiveWorld :=
  let '(o, receipts, w') :=
    run_verify h firecracker (lv_cap verifier) (lv_profile verifier) (lv_worktree verifier) (lv_spec verifier) (lv_patch verifier)
      (lw_receipts w) (lv_ids verifier) (lw_world w) in
  (flow_outcome o, mkLive receipts w' (lw_advisor w)).
Definition live_review (w : LiveWorld) : result bytes bytes * LiveWorld :=
  let '(note, a) := consult consultation (lw_advisor w) in
  (Ok (to_utf8 (an_rationale note)), mkLive (lw_receipts w) (lw_world w) a).
#[export] Instance live_drivers : FlowDrivers LiveWorld VerifiedPatch := {|
  run_model := live_model; run_tool := live_tool; verify_driver := live_verify; review_driver := live_review |}.
End Live.

(** * Flows outside: theorems

    An imported flow counts as complete exactly when every required gate has its evidence; a flow over
    the live drivers completes only with a patch whose verify command ran confined and passed. *)

(** ** Imported gates *)

Lemma normalized_elem refs r : r ∈ normalized_refs refs ↔ r ∈ refs ∧ r ≠ [].
Proof.
  unfold normalized_refs. rewrite dedup_elem, sort_by_elem, list_elem_of_In, filter_In, <-list_elem_of_In.
  unfold str_eq. by rewrite negb_true_iff, bool_decide_eq_false.
Qed.
Lemma criteria_elem gates c :
  c ∈ verifier_completion_criteria gates ↔
  ∃ g, g ∈ gates ∧ ag_required g = true ∧ c = mkCriterion (ag_id g) (ag_title g) (normalized_refs (ag_evidence_refs g)).
Proof.
  unfold verifier_completion_criteria. rewrite sort_by_elem, list_elem_of_fmap. split.
  - intros (g & -> & Hg). rewrite list_elem_of_In, filter_In, <-list_elem_of_In in Hg. naive_solver.
  - intros (g & Hg & Hr & ->). exists g. split; [done|]. by rewrite list_elem_of_In, filter_In, <-list_elem_of_In.
Qed.
(** What the index of the evidence holds: the references of all the evidence for a gate. *)
Lemma evidence_by_gate_spec evidence id :
  match evidence_by_gate evidence !! id with
  | None => ∀ e, e ∈ evidence → ge_gate_id e ≠ id
  | Some refs => (∃ e, e ∈ evidence ∧ ge_gate_id e = id) ∧
                 ∀ r, r ∈ refs ↔ ∃ e, e ∈ evidence ∧ ge_gate_id e = id ∧ r ∈ ge_evidence_refs e
  end.
Proof.
  unfold evidence_by_gate. induction evidence as [|e evidence IH] using rev_ind.
  { cbn. rewrite lookup_empty. by intros ? ?%elem_of_nil. }
  rewrite foldl_app. cbn [foldl]. set (m := foldl _ ∅ evidence) in *.
  destruct (decide (ge_gate_id e = id)) as [<-|Hne].
  - rewrite lookup_insert_eq. split; [exists e; split; [set_solver|done]|]. intros r.
    rewrite elem_of_union, elem_of_list_to_set. setoid_rewrite elem_of_app. setoid_rewrite list_elem_of_singleton.
    destruct (m !! ge_gate_id e) as [refs|]; cbn [default].
    + destruct IH as [_ IH]. rewrite IH. naive_solver.
    + split; [intros [?%elem_of_empty|?]; naive_solver|]. intros (e' & [He'| ->] & Hid & Hr); [by destruct (IH e' He')|by right].
  - rewrite lookup_insert_ne by done.
    destruct (m !! id) as [refs|]; setoid_rewrite elem_of_app; setoid_rewrite list_elem_of_singleton; [|naive_solver]. destruct IH as [(e' & ? & ?) IH]. split; [eauto|].
    intros r. rewrite IH. naive_solver.
Qed.
(** the evidence for an imported flow is accepted if and only if every required gate has evidence under
    its name and each of its references that is not empty is among those of the evidence under that
    name; what is not required, and evidence for other gates, plays no part. *)
Theorem gates_complete_iff gates evidence :
  validate_patch_completion_evidence (verifier_completion_criteria gates) evidence = Ok tt ↔
  ∀ g, g ∈ gates → ag_required g = true →
    (∃ e, e ∈ evidence ∧ ge_gate_id e = ag_id g) ∧
    ∀ r, r ∈ ag_evidence_refs g → r ≠ [] → ∃ e, e ∈ evidence ∧ ge_gate_id e = ag_id g ∧ r ∈ ge_evidence_refs e.
Proof.
  unfold validate_patch_completion_evidence.
  assert (completion_evidence_errors (verifier_completion_criteria gates) evidence = [] ↔
    ∀ c, c ∈ verifier_completion_criteria gates →
      ∃ refs, evidence_by_gate evidence !! vc_gate_id c = Some refs ∧ ∀ r, r ∈ vc_required_evidence_refs c → r ∈ refs) as Hiff.
  { unfold completion_evidence_errors. generalize (verifier_completion_criteria gates). intros cs.
    induction cs as [|c cs IH]; [split; [by intros _ ? ?%elem_of_nil|done]|].
    rewrite bind_cons. setoid_rewrite elem_of_cons.
    destruct (evidence_by_gate evidence !! vc_gate_id c) as [refs|] eqn:E.
    2: { split; [done|]. intros H. destruct (H c (or_introl eq_refl)) as (? & ? & _). congruence. }
    split.
    - intros [Ho Hr]%app_nil c' [->|Hc']; [|by apply IH]. exists refs. split; [done|]. intros r Hin.
      destruct (decide (r ∈ refs)) as [?|Hn]; [done|]. exfalso.
      assert (MissingEvidenceRef (vc_gate_id c) r ∈ (@nil CompletionEvidenceError)) as Hx; [|by apply elem_of_nil in Hx].
      rewrite <-Ho. apply list_elem_of_omap. exists r. split; [done|]. by rewrite decide_False.
    - intros H. apply app_nil. split; [|apply IH; intros c' Hc'; apply H; by right].
      destruct (H c (or_introl eq_refl)) as (refs' & Hl & Hall). rewrite E in Hl. injection Hl as <-.
      assert (∀ l, (∀ r, r ∈ l → r ∈ refs) → omap (λ r, if decide (r ∈ refs) then None else Some (MissingEvidenceRef (vc_gate_id c) r)) l = []) as Ho.
      { induction l as [|r l IHl]; intros Hl; [done|]. cbn. rewrite decide_True by (apply Hl; left). apply IHl. intros r' Hr'. apply Hl. by right. }
      by apply Ho. }
  destruct (completion_evidence_errors _ _) as [|e es] eqn:E.
  - split; [|done]. intros _. pose proof (proj1 Hiff eq_refl) as Hall. intros g Hg Hreq.
    destruct (Hall (mkCriterion (ag_id g) (ag_title g) (normalized_refs (ag_evidence_refs g)))) as (refs & Hl & Hr);
      [apply criteria_elem; by exists g|]. cbn [vc_gate_id vc_required_evidence_refs] in *.
    pose proof (evidence_by_gate_spec evidence (ag_id g)) as Hs. rewrite Hl in Hs. destruct Hs as [Hex Hs]. split; [done|].
    intros r Hin Hne. apply Hs, Hr. by apply normalized_elem.
  - split; [done|]. intros H. discriminate (proj2 Hiff). intros c (g & Hg & Hreq & ->)%criteria_elem.
    cbn [vc_gate_id vc_required_evidence_refs]. destruct (H g Hg Hreq) as [(e' & He' & Hid) Hall].
    pose proof (evidence_by_gate_spec evidence (ag_id g)) as Hs.
    destruct (evidence_by_gate evidence !! ag_id g) as [refs|]; [|by destruct (Hs e' He')].
    exists refs. split; [done|]. intros r [Hin Hne]%normalized_elem. by apply Hs, Hall.
Qed.

(** ** The live drivers *)

(** Every answer of the verifier in the log of a run is an answer the driver gave. *)
Section Origin.
Context {W P : Type} (D : FlowDrivers W P) (en : FlowEngine) (flow : Flow) (b : FlowBudget).
Definition answered (s : FS (W * list (Call P))) : Prop :=
  ∀ o, CVerify o ∈ (fs_world s).2 → ∃ w w', verify_driver (FlowDrivers := D) w = (o, w').
Lemma answered_step s s' : answered s → estep (D:=logged D) en flow b s s' → answered s'.
Proof.
  intros Hs. inversion 1; subst; try done.
  all: unfold answered; cbn; case_match eqn:E; cbn; intros o' [?|Ho%list_elem_of_singleton]%elem_of_app;
    [by apply Hs|simplify_eq]. by eexists _, _.
Qed.
Lemma answered_steps s s' : answered s → rtc (estep (D:=logged D) en flow b) s s' → answered s'.
Proof. intros Hs. induction 1; eauto using answered_step. Qed.
Lemma run_flow_completed fuel st w p s' :
  run_flow (D:=logged D) en flow b fuel (fresh st w) = Some (Ok (Completed p), s') →
  ∃ w0 w1, verify_driver (FlowDrivers := D) w0 = (Verified p, w1).
Proof.
  intros H. pose proof (run_fresh_steps D en flow b fuel st w _ _ H) as Hs.
  apply (answered_steps (fresh st w) s'); [by intros ? ?%elem_of_nil|exact Hs|].
  unfold run_flow, mbind, M_bind, lift in H. destruct (validate flow); [|simplify_eq].
  destruct (run_from_clean D en flow b fuel (entry flow) (fresh st w) (Ok (Completed p)) s' eq_refl H) as (l & -> & _).
  apply elem_of_app. right. by left.
Qed.
End Origin.

(** C26: a flow over the live drivers completes only with a patch the backend minted: some verify run of
    the given patch, in the worktree, under the sandbox profile its capability names and with the network
    closed, ran its command inside bubblewrap, the process exited with code zero, and the receipt of the
    patch is the one that was minted over the output; whatever the model, the tools and the reviewer
    returned. *)
Theorem live_flow_verified `{HS : Hash} `{MC : Mac} {W A : Type} {R : Runner W} {AD : Advisor A}
    consult_model run_closure h f verifier consultation en flow b fuel st (w : LiveWorld (W:=W) (A:=A)) p s' :
  run_flow (D := logged (live_drivers consult_model run_closure h f verifier consultation)) en flow b fuel (fresh st w)
    = Some (Ok (Completed p), s') →
  v_patch p = lv_patch verifier ∧
  se_profile (lv_cap verifier) = sp_id (lv_profile verifier) ∧ sp_tier (lv_profile verifier) = TSandboxed ∧
  sp_network (lv_profile verifier) = DenyAll ∧
  ∃ (w0 w1 : W) bwrap result receipts receipts',
    find_executable h (lit "bwrap") = Some bwrap ∧
    run (confined_spec h bwrap [] (verify_command (lv_worktree verifier) (lv_spec verifier))) w0 = (Ok result, w1) ∧
    cr_status result = Code 0 ∧
    (receipts', v_receipt p) = mint receipts (verify_params (lv_spec verifier) (lv_ids verifier) (verify_output result)).
Proof.
  intros (w0 & w1 & Hv)%run_flow_completed. cbn in Hv. unfold live_verify in Hv.
  destruct (run_verify h f _ _ _ _ _ (lw_receipts w0) _ (lw_world w0)) as [[o rc'] w'] eqn:E.
  destruct o as [p0| |]; cbn in Hv; simplify_eq.
  destruct (verify_runs_confined _ _ _ _ _ _ _ _ _ _ _ _ _ E) as (H1 & H2 & H3 & Hp & bw & res & Hb & Hrun & Hc & Hm).
  split_and!; [done..|]. by exists (lw_world w0), w', bw, res, (lw_receipts w0), rc'.
Qed.

Module Demo.
Instance calm : Advisor unit := λ c a, (simulated_note c, a).
Definition demo_verifier : LiveVerify := mkLiveVerify demo_cap default_sandboxed (lit "/w") demo_vspec (mkPatchRef []) demo_ids.
(** One node: verify. *)
Definition one_verify : Flow := mkFlow [(0, NVerify 1); (1, NEnd)] 0.
Definition demo_live : LiveWorld (W := list CommandSpec) (A := unit) := mkLive (ReceiptChain_new [1]) [] tt.
Definition live_demo :=
  run_flow (D := logged (live_drivers (R := demo_runner) (λ _ w, (Err [], w)) (λ _ _ w, (Err [], w)) demo_host false demo_verifier
                           (mkConsultation TaskStart [] [])))
    demo_engine one_verify demo_budget 41 (fresh FlowState_new demo_live).
Lemma live_flow_verified_witness :
  ∃ p s', live_demo = Some (Ok (Completed p), s') ∧ v_patch p = mkPatchRef [].
Proof.
  assert (match live_demo with Some (Ok (Completed _), _) => true | _ => false end = true) as Hc by (vm_compute; reflexivity).
  destruct live_demo as [[[[p|]|e] s']|] eqn:E; [|discriminate Hc..]. exists p, s'. split; [reflexivity|].
  unfold live_demo in E.
  exact (proj1 (live_flow_verified (R := demo_runner) _ _ demo_host false demo_verifier _ demo_engine one_verify demo_budget 41
    FlowState_new demo_live p s' E)).
Defined.
(** A gate without references is satisfied by evidence without references. *)
Example empty_evidence_accepted :
  validate_patch_completion_evidence (verifier_completion_criteria [gate_required (lit "g") (lit "t") [[]]])
    [mkGateEvidence (lit "g") []] = Ok tt.
Proof. reflexivity. Qed.
End Demo.
