(* ===== verification/Providers.v ===== *)
(** * Providers over HTTP (crate [crustcore-net]: [config.rs], [providers.rs], [embed.rs], [rerank.rs])

    The configuration of the helper, and the adapters that make providers of the routing engine out of an
    HTTP client: completions streamed as server-sent events, embeddings, rankings. The state of the world that
    a provider threads is that of the client; a credential is looked up at each request.

    A cast [as u32] keeps the low 32 bits. The prompt and the system text of a request are bounded, so that
    the sum of their estimates stays far below the range. *)

From stdpp Require Import sorting.
From S2P Require Import Prelude Text Std Chars Redactor Strings Json NetProto Backend Serde Http Engine EngineTheorems.

(** What else the source uses of JSON values: floats ([as_f64], cast to [f32]) and the members of an object. *)
Class SerdeMore `{J : SerdeJson} `{FL : F32} := {
  v_as_f32 : Value → option f32;
  v_as_object : Value → option (list (chars * Value)) }.

Definition as_u32 (n : Z) : Z := n mod 2 ^ 32.

(** ** Configuration ([config.rs]) *)

Inductive ProviderKind := OpenAiCompatible | Anthropic.
#[export] Instance ProviderKind_eq_dec : EqDecision ProviderKind.
Proof. solve_decision. Defined.
Definition kind_parse (s : chars) : option ProviderKind :=
  if one_of ["openai"; "openrouter"; "local"; "openai-compatible"]%string s then Some OpenAiCompatible
  else if str_eq s (lit "anthropic") then Some Anthropic else None.
Record ProviderConfig := mkConfig {
  pc_id : chars; pc_kind : ProviderKind; pc_base_url : chars; pc_secret_label : option chars;
  pc_extra_headers : Headers; pc_models : list ModelCard }.

Section Config.
Context `{J : SerdeJson} `{FL : F32} `{JM : !SerdeMore}.
Definition str_field (v : Value) (key : string) : option chars := x ← v_get v (lit key); v_as_str x.
Definition u32_field (v : Value) (key : string) (dflt : Z) : Z :=
  match (x ← v_get v (lit key); v_as_u64 x) with Some n => if n <=? u32_MAX then n else dflt | None => dflt end.
Definition u64_field (v : Value) (key : string) (dflt : Z) : Z := default dflt (x ← v_get v (lit key); v_as_u64 x).
Definition bool_field (v : Value) (key : string) (dflt : bool) : bool := default dflt (x ← v_get v (lit key); v_as_bool x).
Definition at_provider (i : nat) : chars := lit "provider[" ++ dec_u (Z.of_nat i) ++ lit "]".
Definition at_id (i : nat) (id : chars) : chars := at_provider i ++ lit " (" ++ id ++ lit ")".
Definition parse_card (local : bool) (m : Value) (model : chars) : ModelCard :=
  mkCard model true (u32_field m "context" 8000) (bool_field m "tools" false) (bool_field m "structured" false)
    (bool_field m "streaming" true) (u64_field m "cost_per_1k_micros" 0) local (bool_field m "embeddings" false)
    (bool_field m "rerank" false) (u32_field m "embedding_dims" 0).
Fixpoint parse_cards (i : nat) (id : chars) (local : bool) (j : nat) (ms : list Value) : result chars (list ModelCard) :=
  match ms with
  | [] => Ok []
  | m :: ms' =>
      model ← ok_or (str_field m "model") (at_id i id ++ lit " model[" ++ dec_u (Z.of_nat j) ++ lit "]: missing `model`");
      cards ← parse_cards i id local (S j) ms';
      Ok (parse_card local m model :: cards)
  end.
Definition header_of (kv : chars * Value) : option (chars * chars) := s ← v_as_str kv.2; Some (kv.1, s).
Definition extra_headers (p : Value) : Headers :=
  match (h ← v_get p (lit "extra_headers"); v_as_object h) with Some obj => omap header_of obj | None => [] end.
Definition parse_provider (i : nat) (p : Value) : result chars ProviderConfig :=
  id ← ok_or (str_field p "id") (at_provider i ++ lit ": missing `id`");
  kind_s ← ok_or (str_field p "kind") (at_id i id ++ lit ": missing `kind`");
  kind ← ok_or (kind_parse kind_s) (at_id i id ++ lit ": unknown kind `" ++ kind_s ++ lit "`");
  base_url ← ok_or (str_field p "base_url") (at_id i id ++ lit ": missing `base_url`");
  let secret_label := str_field p "secret_label" in
  let local := bool_decide (kind = OpenAiCompatible) && bool_decide (secret_label = None) in
  models_v ← ok_or (m ← v_get p (lit "models"); v_as_array m) (at_id i id ++ lit ": missing `models` array");
  models ← parse_cards i id local 0 models_v;
  if bool_decide (models = []) then Err (at_id i id ++ lit ": empty `models` allowlist")
  else Ok (mkConfig id kind (trim_slashes base_url) secret_label (extra_headers p) models).
Fixpoint parse_all (i : nat) (ps : list Value) : result chars (list ProviderConfig) :=
  match ps with
  | [] => Ok []
  | p :: ps' => c ← parse_provider i p; cs ← parse_all (S i) ps'; Ok (c :: cs)
  end.
Definition parse_providers (json : chars) : result chars (list ProviderConfig) :=
  value ← map_err (λ e, lit "invalid provider config JSON: " ++ e) (v_from_slice (to_utf8 json));
  arr ← ok_or (v_as_array value) (lit "provider config must be a JSON array");
  parse_all 0 arr.
End Config.

(** ** Completions ([providers.rs]) *)

(** [v.get(k).and_then(|x| x.as_array())]. *)
Definition member_array `{J : SerdeJson} (v : Value) (k : string) : option (list Value) := x ← v_get v (lit k); v_as_array x.

Definition sse_data (line : chars) : option chars :=
  rest ← strip_prefix (lit "data:") line;
  let rest := trim_start rest in
  if str_eq rest [] || str_eq rest (lit "[DONE]") then None else Some rest.
Definition context_overflow (lower : chars) : bool :=
  contains lower (lit "context") || contains lower (lit "maximum context") || contains lower (lit "too long") ||
  contains lower (lit "too many tokens") || contains lower (lit "max_tokens").
Definition map_status_error (status : Z) (body : chars) : ProviderError :=
  let lower := to_ascii_lowercase body in
  let http := lit "http " ++ dec_u status in
  if (status =? 429) || in_range 500 599 status || contains lower (lit "overloaded") then Unavailable http
  else if ((status =? 400) || (status =? 413)) && context_overflow lower then Capability (http ++ lit ": context")
  else OtherError http.

Section Adapters.
Context `{J : SerdeJson} `{FL : F32} `{JM : !SerdeMore} {C : Type} `{CS : !CredentialSource C} {W : Type} `{HC : !HttpClient W}.

(** The fields that the adapters share; the embedding and ranking adapters have the same. *)
Record Common := mkCommon {
  cn_id : chars; cn_base_url : chars; cn_secret_label : option chars; cn_extra_headers : Headers;
  cn_cards : list ModelCard; cn_creds : C }.
Definition common_headers (c : Common) (style : AuthStyle) : Headers :=
  [(lit "Content-Type", lit "application/json")] ++ cn_extra_headers c ++
  option_list (label ← cn_secret_label c; header_for (cn_creds c) label style).
Definition card_cost (c : Common) (model : chars) : Z :=
  match find (λ k, str_eq (mc_model k) model) (cn_cards c) with Some k => mc_cost_per_1k_micros k | None => 0 end.
Definition price (c : Common) (model : chars) (tokens : Z) : Z := saturating_mul u64_MAX (card_cost c model) tokens / 1000.

Definition openai_body (model : chars) (req : CompleteRequest) : bytes :=
  let messages :=
    (if str_eq (cr_system req) [] then []
     else [v_obj [field "role" (v_str (lit "system")); field "content" (v_str (cr_system req))]]) ++
    [v_obj [field "role" (v_str (lit "user")); field "content" (v_str (cr_prompt req))]] in
  to_vec_or_empty (v_obj [field "model" (v_str model); field "messages" (v_arr messages);
    field "max_tokens" (v_int (cr_max_tokens req)); field "stream" (v_bool true);
    field "stream_options" (v_obj [field "include_usage" (v_bool true)])]).
Definition anthropic_body (model : chars) (req : CompleteRequest) : bytes :=
  to_vec_or_empty (v_obj [field "model" (v_str model); field "system" (v_str (cr_system req));
    field "messages" (v_arr [v_obj [field "role" (v_str (lit "user")); field "content" (v_str (cr_prompt req))]]);
    field "max_tokens" (v_int (cr_max_tokens req)); field "stream" (v_bool true)]).
(** [v[n]]. *)
Definition v_at (v : Value) (n : nat) : Value := default v_null (l ← v_as_array v; l !! n).
Definition u32_of (v : Value) : Z := as_u32 (default 0 (v_as_u64 v)).
(** The value of an event; what is not one is skipped. *)
Definition event (line : chars) : option Value :=
  data ← sse_data line; match v_from_slice (to_utf8 data) with Ok v => Some v | Err _ => None end.

(** What [on_line] keeps: the text, what went to the sink, the usage. *)
Record Streamed (U : Type) := mkStreamed { sd_text : chars; sd_shown : list chars; sd_usage : U }.
#[global] Arguments mkStreamed {U}.
#[global] Arguments sd_text {U}.
#[global] Arguments sd_shown {U}.
#[global] Arguments sd_usage {U}.
Definition show_delta {U} (delta : option chars) (s : Streamed U) : Streamed U :=
  match delta with
  | Some d => if str_eq d [] then s else mkStreamed (sd_text s ++ d) (sd_shown s ++ [d]) (sd_usage s)
  | None => s
  end.
Definition with_usage {U} (u : U) (s : Streamed U) : Streamed U := mkStreamed (sd_text s) (sd_shown s) u.
Definition openai_line (s : Streamed (option Usage)) (line : chars) : Streamed (option Usage) :=
  match event line with
  | None => s
  | Some v =>
      let s := show_delta (v_as_str (v_index (v_index (v_at (v_index v "choices") 0) "delta") "content")) s in
      match v_get v (lit "usage") with
      | Some u =>
          if v_is_null u then s
          else with_usage (Some (mkUsage (u32_of (v_index u "prompt_tokens")) (u32_of (v_index u "completion_tokens")) 0)) s
      | None => s
      end
  end.
Definition anthropic_line (s : Streamed (Z * Z)) (line : chars) : Streamed (Z * Z) :=
  match event line with
  | None => s
  | Some v =>
      match v_as_str (v_index v "type") with
      | Some t =>
          if str_eq t (lit "content_block_delta") then show_delta (v_as_str (v_index (v_index v "delta") "text")) s
          else if str_eq t (lit "message_start") then
            match v_as_u64 (v_index (v_index (v_index v "message") "usage") "input_tokens") with
            | Some n => with_usage (as_u32 n, (sd_usage s).2) s
            | None => s
            end
          else if str_eq t (lit "message_delta") then
            match v_as_u64 (v_index (v_index v "usage") "output_tokens") with
            | Some n => with_usage ((sd_usage s).1, as_u32 n) s
            | None => s
            end
          else s
      | None => s
      end
  end.
Definition finish (c : Common) (model : chars) (req : CompleteRequest) (text : chars) (usage : option Usage) : Completion :=
  let u := default (mkUsage (est_text_tokens (cr_prompt req) + est_text_tokens (cr_system req)) (est_text_tokens text) 0) usage in
  mkCompletion text (mkUsage (us_input_tokens u) (us_output_tokens u) (price c model (us_output_tokens u))).
(** The result of a request, once its lines are read. *)
Definition outcome {A} (r : result TransportError HttpResponse) (done : HttpResponse → result ProviderError A) : result ProviderError A :=
  match r with
  | Err e => Err (Unavailable (transport_error_fmt e))
  | Ok resp => if negb (resp_is_success resp) then Err (map_status_error (hr_status resp) (hr_body resp)) else done resp
  end.
Definition openai_complete (c : Common) (model : chars) (req : CompleteRequest) (w : W)
  : result ProviderError Completion * list chars * W :=
  let '(r, lines, w) := post_lines (cn_base_url c ++ lit "/v1/chat/completions") (common_headers c Bearer) (openai_body model req) w in
  let s := fold_left openai_line lines (mkStreamed [] [] None) in
  (outcome r (λ _, Ok (finish c model req (sd_text s) (sd_usage s))), sd_shown s, w).
Definition anthropic_usage (s : Streamed (Z * Z)) : option Usage :=
  let '(input_tokens, output_tokens) := sd_usage s in
  let output_tokens := if (output_tokens =? 0) && negb (str_eq (sd_text s) []) then est_text_tokens (sd_text s) else output_tokens in
  if (0 <? input_tokens) || (0 <? output_tokens) then Some (mkUsage input_tokens output_tokens 0) else None.
Definition anthropic_complete (version : chars) (c : Common) (model : chars) (req : CompleteRequest) (w : W)
  : result ProviderError Completion * list chars * W :=
  let '(r, lines, w) := post_lines (cn_base_url c ++ lit "/v1/messages")
                          (common_headers c XApiKey ++ [(lit "anthropic-version", version)]) (anthropic_body model req) w in
  let s := fold_left anthropic_line lines (mkStreamed [] [] (0, 0)) in
  (outcome r (λ _, Ok (finish c model req (sd_text s) (anthropic_usage s))), sd_shown s, w).
(** The adapters as providers of the engine: a probe is the allowlist. An Anthropic adapter has no extra headers. *)
Definition OpenAiProvider (c : Common) : Provider W := mkProvider (cn_id c) (λ w, (cn_cards c, w)) (openai_complete c).
Definition AnthropicProvider (version : chars) (c : Common) : Provider W :=
  mkProvider (cn_id c) (λ w, (cn_cards c, w)) (anthropic_complete version c).
Definition config_common (cfg : ProviderConfig) (suffix : chars) (cards : list ModelCard) (creds : C) : Common :=
  mkCommon (pc_id cfg ++ suffix) (pc_base_url cfg) (pc_secret_label cfg) (pc_extra_headers cfg) cards creds.
Definition build_providers (configs : list ProviderConfig) (creds : C) : list (Provider W) :=
  (λ cfg, match pc_kind cfg with
          | OpenAiCompatible => OpenAiProvider (config_common cfg [] (pc_models cfg) creds)
          | Anthropic =>
              AnthropicProvider (lit "2023-06-01") (mkCommon (pc_id cfg) (pc_base_url cfg) (pc_secret_label cfg) [] (pc_models cfg) creds)
          end) <$> configs.

(** ** Embeddings ([embed.rs]) *)

Definition embed_body (model : chars) (req : EmbeddingRequest) : bytes :=
  to_vec_or_empty (v_obj [field "model" (v_str model); field "input" (v_arr (v_str <$> eq_inputs req))]).
Definition embed_vector (item : Value) : list f32 :=
  match member_array item "embedding" with
  | Some nums => (λ n, default f32_zero (v_as_f32 n)) <$> nums
  | None => []
  end.
Definition parse_embed_response (body : chars) : option (list (list f32) * Usage) :=
  match v_from_slice (to_utf8 body) with
  | Err _ => None
  | Ok v =>
      let vectors := match member_array v "data" with Some arr => embed_vector <$> arr | None => [] end in
      Some (vectors, mkUsage (u32_of (v_index (v_index v "usage") "prompt_tokens")) 0 0)
  end.
(** The usage of a batch: estimated when it is reported as zero, priced by its input. *)
Definition batch_usage (c : Common) (model : chars) (texts : list chars) (u : Usage) : Usage :=
  let input := if us_input_tokens u =? 0 then est_batch_tokens texts else us_input_tokens u in
  mkUsage input (us_output_tokens u) (price c model input).
Definition openai_embed (c : Common) (model : chars) (req : EmbeddingRequest) (w : W)
  : result ProviderError EmbeddingResponse * W :=
  let '(r, w) := post_json (cn_base_url c ++ lit "/v1/embeddings") (common_headers c Bearer) (embed_body model req) w in
  (outcome r (λ resp,
     match parse_embed_response (hr_body resp) with
     | None => Err (OtherError (lit "malformed embeddings response"))
     | Some (vectors, usage) =>
         if bool_decide (length vectors = 0%nat) then Err (OtherError (lit "embeddings response carried no vectors"))
         else Ok (mkEmbResp vectors (batch_usage c model (eq_inputs req) usage))
     end), w).
Definition OpenAiEmbedProvider (c : Common) : EmbedProvider (W := W) :=
  mkEmbedProvider (cn_id c) (λ w, (List.filter mc_embeddings (cn_cards c), w)) (openai_embed c).
Definition build_embed_providers (configs : list ProviderConfig) (creds : C) : list (EmbedProvider (W := W)) :=
  omap (λ cfg, let cards := List.filter mc_embeddings (pc_models cfg) in
               if bool_decide (cards = []) || negb (bool_decide (pc_kind cfg = OpenAiCompatible)) then None
               else Some (OpenAiEmbedProvider (config_common cfg (lit "-embed") cards creds))) configs.

(** ** Rankings ([rerank.rs]) *)

Section Rerank.
Context `{FC : !F32Cmp}.
Definition rerank_body (model : chars) (req : RankRequest) : bytes :=
  to_vec_or_empty (v_obj [field "model" (v_str model); field "query" (v_str (kq_query req));
    field "documents" (v_arr (v_str <$> kq_documents req)); field "top_n" (v_int (Z.of_nat (length (kq_documents req))))]).
(** [a.or_else(b)]. *)
Definition or_else {A} (a b : option A) : option A := match a with Some _ => a | None => b end.
Definition rank_item (item : Value) : Z * f32 :=
  (default (-1) (x ← v_get item (lit "index"); v_as_i64 x),
   default f32_zero (x ← or_else (v_get item (lit "relevance_score")) (v_get item (lit "score")); v_as_f32 x)).
Definition parse_rerank_response (body : chars) : option (list (Z * f32) * Usage) :=
  match v_from_slice (to_utf8 body) with
  | Err _ => None
  | Ok v =>
      match or_else (member_array v "results") (member_array v "data") with
      | None => None
      | Some results =>
          let tokens := or_else (v_as_u64 (v_index (v_index v "usage") "prompt_tokens"))
                          (v_as_u64 (v_index (v_index (v_index v "meta") "billed_units") "search_units")) in
          Some (rank_item <$> results, mkUsage (as_u32 (default 0 tokens)) 0 0)
      end
  end.
Definition api_rerank (c : Common) (model : chars) (req : RankRequest) (w : W) : result ProviderError RerankResponse * W :=
  let '(r, w) := post_json (cn_base_url c ++ lit "/v1/rerank") (common_headers c Bearer) (rerank_body model req) w in
  (outcome r (λ resp,
     match parse_rerank_response (hr_body resp) with
     | None => Err (OtherError (lit "malformed rerank response"))
     | Some (raw, usage) =>
         let ranking := sanitize_ranking raw (doc_count req) in
         if bool_decide (length ranking = 0%nat) && negb (bool_decide (kq_documents req = []))
         then Err (OtherError (lit "rerank response carried no valid results"))
         else Ok (mkRankResp ranking (batch_usage c model (kq_query req :: kq_documents req) usage))
     end), w).
Definition RerankApiProvider (c : Common) : RerankProvider (W := W) :=
  mkRerankProvider (cn_id c) (λ w, (List.filter mc_rerank (cn_cards c), w)) (api_rerank c).
Definition build_rerankers (configs : list ProviderConfig) (creds : C) : list (RerankProvider (W := W)) :=
  omap (λ cfg, let cards := List.filter mc_rerank (pc_models cfg) in
               if bool_decide (cards = []) then None
               else Some (RerankApiProvider (config_common cfg (lit "-rerank") cards creds))) configs.
End Rerank.

(** ** The live engines ([lib.rs]) *)

Definition live_engine (configs : list ProviderConfig) (creds : C) : Engine W := Engine_new (build_providers configs creds).
(** A modality is left out when no configured model declares it. *)
Definition if_any {A} (l : list A) : option (list A) := match l with [] => None | _ => Some l end.
Definition live_multimodal_engine `{FC : !F32Cmp} (configs : list ProviderConfig) (creds : C) : MultiModalEngine (W := W) :=
  mkMultiModal (live_engine configs creds) (if_any (build_embed_providers configs creds)) (if_any (build_rerankers configs creds)).
End Adapters.

(** * Theorems

    What went to the sink is the text of the answer, and nothing when there is none, so that a request
    that falls back shows only the answer of the provider that served it; errors carry a status and nothing of a
    body; what a configuration grants; rankings and embeddings that are checked and priced. *)

(** What the adapters rely on: a line is handed out only for a response that succeeds. *)
Class HttpLaws (W : Type) `{HC : HttpClient W} : Prop := {
  lines_on_success url hs b w r lines w' :
    post_lines url hs b w = (r, lines, w') → match r with Ok resp => resp_is_success resp = true | Err _ => False end ∨ lines = [] }.
#[export] Instance replay_laws : HttpLaws (list Canned).
Proof.
  split. intros url hs b w r lines w'. cbn. destruct w as [|c w]; cbn; [intros [= <- <- <-]; by right|].
  destruct (resp_is_success (mkResponse (ca_status c) [])) eqn:E; intros [= <- <- <-]; [by left|by right].
Qed.

(** ** Errors *)

(** An error of a provider that repeats nothing of a body: the failure of the transport, a status, a fixed text. *)
Definition opaque (e : ProviderError) : Prop :=
  (∃ t, e = Unavailable (transport_error_fmt t)) ∨ (∃ s, e = Unavailable (lit "http " ++ dec_u s)) ∨
  (∃ s, e = Capability (lit "http " ++ dec_u s ++ lit ": context")) ∨ (∃ s, e = OtherError (lit "http " ++ dec_u s)) ∨
  e ∈ (OtherError <$> [lit "malformed embeddings response"; lit "embeddings response carried no vectors";
                       lit "malformed rerank response"; lit "rerank response carried no valid results"]).
Lemma map_status_opaque status body : opaque (map_status_error status body).
Proof.
  unfold map_status_error, opaque. destruct (_ || _ || _); [right; left; by eexists|].
  destruct (_ && _); [right; right; left; eexists; by rewrite app_assoc|do 3 right; left; by eexists].
Qed.
Lemma outcome_opaque {A} r (done : HttpResponse → result ProviderError A) e :
  (∀ resp e, done resp = Err e → opaque e) → outcome r done = Err e → opaque e.
Proof.
  intros Hd. destruct r as [resp|t]; cbn; [|intros [= <-]; left; by eexists].
  destruct (negb _); [intros [= <-]; apply map_status_opaque|apply Hd].
Qed.

Section Streams.
Context `{J : SerdeJson} `{FL : F32} `{JM : !SerdeMore} {C : Type} `{CS : !CredentialSource C} {W : Type} `{HC : !HttpClient W}.

(** ** Streams *)

Definition in_step {U} (s : Streamed U) : Prop := mjoin (sd_shown s) = sd_text s.
Lemma show_delta_step {U} d (s : Streamed U) : in_step s → in_step (show_delta d s).
Proof.
  unfold show_delta, in_step. destruct d as [d|]; [|done]. destruct (str_eq d []); [done|]. cbn. intros <-.
  rewrite join_app. cbn. by rewrite app_nil_r.
Qed.
Lemma openai_line_step s l : in_step s → in_step (openai_line s l).
Proof.
  unfold openai_line. intros H. destruct (event l) as [v|]; [|done].
  destruct (v_get v (lit "usage")) as [u|]; [destruct (v_is_null u)|]; by apply show_delta_step.
Qed.
Lemma anthropic_line_step s l : in_step s → in_step (anthropic_line s l).
Proof.
  unfold anthropic_line. intros H. destruct (event l) as [v|]; [|done]. destruct (v_as_str (v_index v "type")) as [t|]; [|done].
  destruct (str_eq t _); [by apply show_delta_step|]. destruct (str_eq t _); [by destruct (v_as_u64 _)|].
  destruct (str_eq t _); [by destruct (v_as_u64 _)|done].
Qed.
Lemma fold_step {U} (f : Streamed U → chars → Streamed U) lines s :
  (∀ s l, in_step s → in_step (f s l)) → in_step s → in_step (fold_left f lines s).
Proof. intros Hf. revert s. induction lines as [|l lines IH]; intros s Hs; [done|]. cbn. by apply IH, Hf. Qed.

(** What a provider shows while it answers: the text of the answer, or nothing when it fails. *)
Definition honest (p : Provider W) : Prop := ∀ model req w,
  let '(r, shown, _) := p_complete p model req w in
  match r with Ok c => mjoin shown = co_text c | Err e => shown = [] ∧ opaque e end.

Context {HL : HttpLaws W}.
Lemma openai_honest c : honest (OpenAiProvider c).
Proof.
  intros model req w. cbn. unfold openai_complete. destruct (post_lines _ _ _ w) as [[r lines] w'] eqn:E.
  apply lines_on_success in E. destruct (outcome r _) as [k|e] eqn:Eo.
  - destruct r as [resp|t]; cbn in Eo; [|done]. destruct (negb _); [done|]. injection Eo as <-. cbn.
    by apply (fold_step openai_line lines (mkStreamed [] [] None)); [apply openai_line_step|].
  - split; [|by eapply outcome_opaque; [|exact Eo]]. destruct E as [E| ->]; [|done].
    destruct r as [resp|t]; [|done]. cbn in Eo. by rewrite E in Eo.
Qed.
Lemma anthropic_honest version c : honest (AnthropicProvider version c).
Proof.
  intros model req w. cbn. unfold anthropic_complete. destruct (post_lines _ _ _ w) as [[r lines] w'] eqn:E.
  apply lines_on_success in E. destruct (outcome r _) as [k|e] eqn:Eo.
  - destruct r as [resp|t]; cbn in Eo; [|done]. destruct (negb _); [done|]. injection Eo as <-. cbn.
    by apply (fold_step anthropic_line lines (mkStreamed [] [] (0, 0))); [apply anthropic_line_step|].
  - split; [|by eapply outcome_opaque; [|exact Eo]]. destruct E as [E| ->]; [|done].
    destruct r as [resp|t]; [|done]. cbn in Eo. by rewrite E in Eo.
Qed.
(** Every configured provider shows the text of its answer, chunk by chunk, and nothing at all when it fails, over any
    client that hands out lines only for a response that succeeds; and what it fails with is a status or a failure of the
    transport, never a part of a response. *)
Theorem providers_honest configs (creds : C) : Forall honest (build_providers configs creds).
Proof.
  apply Forall_forall. intros p (cfg & -> & _)%list_elem_of_fmap.
  destruct (pc_kind cfg); [apply openai_honest|apply anthropic_honest].
Qed.

Lemma all_fail_quiet ps req cands w ch w' ch' :
  Forall honest ps → all_fail (call_provider ps req) cands (w, ch) (w', ch') → ch' = ch.
Proof.
  intros Hp. remember (w, ch) as s eqn:Es. remember (w', ch') as s' eqn:Es'. intros H. revert w ch Es w' ch' Es'.
  induction H as [s|cand cands s s1 s2 e Hcall _ IH]; intros w ch -> w' ch' Es'; [congruence|]. subst s2.
  destruct s1 as [w1 ch1]. rewrite (IH _ _ eq_refl _ _ eq_refl). unfold call_provider in Hcall.
  destruct (ps !! ca_provider_idx cand) as [p|] eqn:Ep; [|done]. cbn in Hcall.
  apply (Forall_lookup_1 _ _ _ _ Hp) in Ep. specialize (Ep (mc_model (ca_card cand)) req w).
  destruct (p_complete p _ req w) as [[r shown] w2]. injection Hcall as -> <- <-. destruct Ep as [-> _]. by rewrite app_nil_r.
Qed.
(** Over the live engine a completion that is answered showed exactly the text of the answer, whatever providers failed
    before the one that served it; and one that is not answered showed nothing. *)
Theorem live_stream_is_answer configs (creds : C) req w res chunks en' w' :
  Engine_complete (live_engine configs creds) req w = Some (res, chunks, en', w') →
  match res with Ok fin => fi_text fin = truncated_chars (mjoin chunks) MAX_TEXT_BYTES | Err _ => chunks = [] end.
Proof.
  intros H. pose proof (completion_routed (live_engine configs creds) req w) as Hr.
  destruct (registry_indexed _ w) as [reg w0]. destruct Hr as (res0 & ch0 & en0 & w1 & E & Hres).
  rewrite E in H. injection H as -> -> -> ->. pose proof (providers_honest configs creds) as Hp.
  destruct res as [fin|[]]; [|naive_solver|naive_solver|].
  - destruct Hres as (cands & pre & cand & post & w2 & ch1 & c & _ & _ & Hf & Hc & -> & _). cbn.
    apply (all_fail_quiet _ _ _ _ _ _ _ Hp) in Hf as ->. unfold call_provider in Hc.
    destruct (build_providers configs creds !! ca_provider_idx cand) as [p|] eqn:Ep; cbn in Hc; rewrite Ep in Hc; [|done]. cbn in Hc.
    apply (Forall_lookup_1 _ _ _ _ Hp) in Ep. specialize (Ep (mc_model (ca_card cand)) req w2).
    destruct (p_complete p _ req w2) as [[r shown] w3]. injection Hc as -> <- <-. by rewrite Ep.
  - destruct Hres as (cands & _ & _ & Hf). by apply (all_fail_quiet _ _ _ _ _ _ _ Hp) in Hf.
Qed.
End Streams.

(** ** Configuration *)

Section Configured.
Context `{J : SerdeJson} `{FL : F32} `{JM : !SerdeMore}.

#[local] Opaque lit.
(** A card grants a capability only when the configuration says so, and counts as local by the kind and the secret alone. *)
Definition card_granted (local : bool) (m : Value) (k : ModelCard) : Prop :=
  str_field m "model" = Some (mc_model k) ∧ mc_healthy k = true ∧ mc_local k = local ∧
  (∀ (get : ModelCard → bool) name, (get, name) ∈ [(mc_tools, "tools"); (mc_structured, "structured");
     (mc_embeddings, "embeddings"); (mc_rerank, "rerank")]%string → get k = true →
   ∃ v, v_get m (lit name) = Some v ∧ v_as_bool v = Some true).
Lemma bool_field_granted m name : bool_field m name false = true → ∃ v, v_get m (lit name) = Some v ∧ v_as_bool v = Some true.
Proof.
  unfold bool_field. destruct (v_get m (lit name)) as [v|]; [|done]. cbn. intros H. exists v. split; [done|].
  by destruct (v_as_bool v) as [[]|].
Qed.
Lemma parse_cards_granted i id local j ms cards :
  parse_cards i id local j ms = Ok cards → Forall2 (card_granted local) ms cards.
Proof.
  revert j cards. induction ms as [|m ms IH]; intros j cards; cbn [parse_cards]; [by intros [= <-]; constructor|].
  unfold ok_or. destruct (str_field m "model") as [model|] eqn:Em; [|done]. cbn.
  destruct (parse_cards i id local (S j) ms) as [cs|] eqn:E; [|done]. cbn. intros [= <-]. constructor; [|by eapply IH].
  split; [exact Em|]. split; [done|]. split; [done|]. intros get name Hin.
  repeat (apply elem_of_cons in Hin as [[= -> ->]|Hin]; [apply bool_field_granted|]). by apply elem_of_nil in Hin.
Qed.
Definition provider_granted (p : Value) (c : ProviderConfig) : Prop :=
  str_field p "id" = Some (pc_id c) ∧ (∃ k, str_field p "kind" = Some k ∧ kind_parse k = Some (pc_kind c)) ∧
  pc_secret_label c = str_field p "secret_label" ∧ pc_models c ≠ [] ∧
  (∃ url, str_field p "base_url" = Some url ∧ pc_base_url c = trim_slashes url) ∧
  ∃ ms, member_array p "models" = Some ms ∧
    Forall2 (card_granted (bool_decide (pc_kind c = OpenAiCompatible) && bool_decide (pc_secret_label c = None))) ms (pc_models c).
Lemma parse_provider_granted i p c : parse_provider i p = Ok c → provider_granted p c.
Proof.
  unfold parse_provider, ok_or. destruct (str_field p "id") as [id|] eqn:E1; [|done]. cbn.
  destruct (str_field p "kind") as [k|] eqn:E2; [|done]. cbn. destruct (kind_parse k) as [kind|] eqn:E3; [|done]. cbn.
  destruct (str_field p "base_url") as [url|] eqn:E4; [|done]. cbn.
  destruct (v_get p (lit "models")) as [mv|] eqn:E5; cbn; [|done]. destruct (v_as_array mv) as [ms|] eqn:E6; cbn; [|done].
  destruct (parse_cards _ _ _ _ _) as [cards|] eqn:E7; [|done]. cbn. destruct (bool_decide (cards = [])) eqn:Hne; [done|]. apply bool_decide_eq_false in Hne. intros [= <-].
  unfold provider_granted. cbn. split; [exact E1|]. split; [by exists k|]. split; [done|]. split; [done|]. split; [by exists url|].
  exists ms. split; [unfold member_array; rewrite E5; exact E6|]. by eapply parse_cards_granted.
Qed.
(** A configuration that is accepted is the members of its array in order; each has its models, of which a capability
    is granted only by a literal [true]; and whether a model counts as local is decided by the wire shape and the
    absence of a secret, whatever the address is. *)
Theorem config_granted json configs :
  parse_providers json = Ok configs →
  ∃ v arr, v_from_slice (to_utf8 json) = Ok v ∧ v_as_array v = Some arr ∧ Forall2 provider_granted arr configs.
Proof.
  unfold parse_providers, ok_or, map_err. destruct (v_from_slice (to_utf8 json)) as [v|e]; [|done]. cbn.
  destruct (v_as_array v) as [arr|] eqn:Ea; [|done]. cbn. intros H. exists v, arr. split; [done|]. split; [done|].
  revert configs H. generalize 0%nat. clear Ea. induction arr as [|p arr IH]; intros i configs; cbn [parse_all]; [by intros [= <-]; constructor|].
  destruct (parse_provider i p) as [c|] eqn:E; [|done]. cbn. destruct (parse_all (S i) arr) as [cs|] eqn:Es; [|done]. cbn.
  intros [= <-]. constructor; [by eapply parse_provider_granted|by eapply IH].
Qed.
End Configured.

(** ** Batches *)

Section Batches.
Context `{J : SerdeJson} `{FL : F32} `{JM : !SerdeMore} {C : Type} `{CS : !CredentialSource C} {W : Type} `{HC : !HttpClient W}.
Context `{FC : !F32Cmp}.

Lemma batch_usage_ok (c : Common (C := C)) model texts u :
  let b := batch_usage c model texts u in
  us_cost_micros b = price c model (us_input_tokens b) ∧
  us_input_tokens b = (if us_input_tokens u =? 0 then est_batch_tokens texts else us_input_tokens u).
Proof. done. Qed.
(** A ranking that is returned has distinct positions of the documents of the request, finite scores, in falling order, at
    most as many as a batch may have, and not none for some documents; an embedding that is returned has vectors. Both are
    priced by their input, as reported or, where it is reported as nothing, as estimated; and errors are opaque. *)
Theorem batches_checked (c : Common (C := C)) model w :
  (∀ req, match (api_rerank c model req w).1 with
   | Ok r => NoDup (kp_ranking r).*1 ∧ (length (kp_ranking r) ≤ MAX_DOCS)%nat ∧ StronglySorted score_ge (kp_ranking r) ∧
             (∀ p, p ∈ kp_ranking r → f32_is_finite p.2 = true ∧ 0 ≤ p.1 < Z.of_nat (doc_count req)) ∧
             (kq_documents req ≠ [] → kp_ranking r ≠ []) ∧
             us_cost_micros (kp_usage r) = price c model (us_input_tokens (kp_usage r))
   | Err e => opaque e
   end) ∧
  (∀ req, match (openai_embed c model req w).1 with
   | Ok r => ep_vectors r ≠ [] ∧ us_cost_micros (ep_usage r) = price c model (us_input_tokens (ep_usage r))
   | Err e => opaque e
   end).
Proof.
  assert (∀ e, e ∈ [lit "malformed embeddings response"; lit "embeddings response carried no vectors";
                    lit "malformed rerank response"; lit "rerank response carried no valid results"] → opaque (OtherError e)) as Hop.
  { intros e He. do 4 right. apply list_elem_of_fmap. by exists e. }
  split; intros req.
  - unfold api_rerank. destruct (post_json _ _ _ w) as [r w']. cbn [fst]. destruct (outcome r _) as [k|e] eqn:Eo.
    + destruct r as [resp|t]; cbn in Eo; [|done]. destruct (negb _); [done|].
      destruct (parse_rerank_response (hr_body resp)) as [[raw u]|]; [|done].
      pose proof (ranking_sanitized raw (doc_count req)) as Hs. set (out := sanitize_ranking raw (doc_count req)) in *. cbv zeta in Hs.
      destruct Hs as (H1 & H2 & H3 & H4 & H5). destruct (bool_decide (length out = 0%nat) && _) eqn:Eb; [done|].
      injection Eo as <-. cbn. split; [done|]. split; [done|]. split; [done|]. split; [|split; [|done]].
      * intros p Hp. split; [by apply H4|]. by apply H5 in Hp as [? _].
      * intros Hd Hn. rewrite Hn, bool_decide_eq_true_2, bool_decide_eq_false_2 in Eb by done. done.
    + eapply outcome_opaque; [|exact Eo]. intros resp e'. cbn. destruct (parse_rerank_response _) as [[raw u]|].
      * destruct (_ && _); [|done]. intros [= <-]. apply Hop. set_solver.
      * intros [= <-]. apply Hop. set_solver.
  - unfold openai_embed. destruct (post_json _ _ _ w) as [r w']. cbn [fst]. destruct (outcome r _) as [k|e] eqn:Eo.
    + destruct r as [resp|t]; cbn in Eo; [|done]. destruct (negb _); [done|].
      destruct (parse_embed_response (hr_body resp)) as [[vs u]|]; [|done]. case_bool_decide as Hn; [done|].
      injection Eo as <-. cbn. split; [by intros ->|done].
    + eapply outcome_opaque; [|exact Eo]. intros resp e'. cbn. destruct (parse_embed_response _) as [[vs u]|].
      * case_bool_decide; [|done]. intros [= <-]. apply Hop. set_solver.
      * intros [= <-]. apply Hop. set_solver.
Qed.
End Batches.

#[local] Transparent lit.
Module Demo.
Import Serde.Demo.
Definition jobj (fields : list (string * JV)) : JV := JObj ((λ f, (lit f.1, f.2)) <$> fields).
Definition jstr (s : string) : JV := JStr (lit s).
Definition config_value : JV :=
  JArr [jobj [("id", jstr "p"); ("kind", jstr "openai"); ("base_url", jstr "https://api.example.com/");
              ("models", JArr [jobj [("model", jstr "m"); ("cost_per_1k_micros", JInt 15000)]])]]%string.
Definition event_value : JV :=
  jobj [("choices", JArr [jobj [("delta", jobj [("content", jstr "hi")])]]);
        ("usage", jobj [("prompt_tokens", JInt 7); ("completion_tokens", JInt 4294967296)])]%string.
Definition table (b : bytes) : result chars JV :=
  if bool_decide (b = lit "CONFIG") then Ok config_value
  else if bool_decide (b = lit "EVENT") then Ok event_value else Err [].
#[local] Instance toy_json : SerdeJson := json table.
#[local] Instance toy_f32 : F32 :=
  { f32 := Z; f32_zero := 0; f32_is_finite := λ _, true; f32_to_string := dec_i; f32_parse := λ _, None }.
#[local] Instance toy_more : SerdeMore :=
  { v_as_f32 := λ _, None; v_as_object := λ v, match v with JObj fs => Some fs | _ => None end }.
(** An address on the network counts as local when it needs no secret: a request that must stay local is sent there. *)
Example remote_counts_as_local :
  match parse_providers (lit "CONFIG") with
  | Ok [c] => bool_decide (pc_base_url c = lit "https://api.example.com") && forallb mc_local (pc_models c)
  | _ => false
  end = true.
Proof. vm_compute. reflexivity. Qed.
Definition demo_request : CompleteRequest := mkComplete Implementation [] (lit "hello") 64 true 0 (mkRequire false 0 true).
Definition demo_configs : list ProviderConfig := match parse_providers (lit "CONFIG") with Ok cs => cs | Err _ => [] end.
(** A count of tokens that a provider reports is cut to 32 bits: an answer of 2^32 tokens costs nothing. *)
Example reported_tokens_wrap :
  match Engine_complete (live_engine demo_configs (∅ : StaticCredentials)) demo_request [canned_streaming [lit "data: EVENT"]] with
  | Some (Ok fin, chunks, _, _) =>
      bool_decide (fi_text fin = lit "hi") && bool_decide (chunks = [lit "hi"]) && (us_cost_micros (fi_usage fin) =? 0) &&
      (us_output_tokens (fi_usage fin) =? 0)
  | _ => false
  end = true.
Proof. vm_compute. reflexivity. Qed.
End Demo.
